(* ===== verification/_CoqProject ===== *)
-Q . S2P
Prelude.v
Model.v
Faults.v
Delta.v
GraphView.v
ViewInvariant.v
ApplyDelta.v
Compose.v
Mutation.v
HeadBlock.v
HeadView.v
VspcView.v
Subview.v
History.v
Lineage.v
Ladder.v
Cache.v
CacheMachine.v
Ingress.v
IngressSafety.v
Channel.v
Clients.v
ClientsSafety.v
ClientsWorld.v
Publication.v
Election.v
PublicationSteps.v
Runtime.v
RuntimeSafety.v
RuntimeWorld.v
RuntimeProgress.v
Wire.v
WireCodec.v
WireBound.v
Scheduler.v
SchedulerSafety.v
Orphan.v
Resolver.v
Sql.v
Store.v
Materialization.v
VspcStore.v
StoreClient.v
StoreInvariant.v
StoreInsert.v
StoreMaterialize.v
StoreVspc.v
StoreChain.v
StoreWorld.v
StoreReach.v
Projection.v
ProjectionSpec.v
ProjectionTheorems.v
ViewTracking.v
OrphanWorker.v
BlockWorker.v
OrphanWorkerSafety.v
BlockSafety.v
BlockSession.v
BlockStages.v
Normalization.v
Vspc.v
VspcIndex.v
VspcWorker.v
VspcDrive.v
PublicationExamples.v
RuntimeExamples.v
BlockExamples.v
StoreExamples.v
GraphTheorems.v
PublicationTheorems.v
WireTheorems.v
SchedulerTheorems.v
IngressTheorems.v
ClientTheorems.v
ServingTheorems.v
ProcessingTheorems.v
RuntimeTheorems.v
BlockTheorems.v
StoreTheorems.v
