(* ===== verification/Prelude.v ===== *)
(** * A verification library for the Kaspa Graph Inspector

    The program mirrors a Kaspa node into PostgreSQL and serves the block graph
    to browsers.  A session runs like this: the node client normalizes blocks
    and virtual-chain changes ([crates/kgi-node]); the block processor and the
    VSPC processor turn them into database transactions
    ([crates/kgi-processing] over [crates/kgi-storage]); every committed
    transaction is announced on a graph-update ingress
    ([crates/kgi-api-ingress]); the publication runtime aligns a database seed
    with that stream and keeps a Head view with its history of deltas
    ([crates/kgi-api-core], [crates/kgi-api-model]); caches and the registry of
    SSE clients serve it.  The library follows the same path.

    ** Conventions

    A Rust panic, failed assertion or failed [expect] is [None] of an [option];
    [Result] is the code's [Result].  Unsigned integers are [N] with the
    code's checks at their width written out; signed database columns are [Z].
    A [HashMap] or [BTreeMap] is a [gmap]; where the code iterates a hash map
    and the order could matter, the order is an argument and theorems quantify
    over it.  Asynchronous tasks run from one await (or locked section) to the
    next as steps of a relation, and theorems are about every interleaving of
    the steps.  Operator text ([diagnostic: Arc<str>]) and logging are left out.

    ** Files

    - Shared domain: [Model] ([kgi-model] block.rs, graph_update.rs, vspc.rs),
      [Faults] (lifecycle.rs, the operation errors, [kgi-processing] fault.rs).
    - Graph views ([kgi-api-model] graph.rs, delta.rs, history.rs): [Delta]
      (value types and deltas), [GraphView] (definitions), [ViewInvariant] (the
      indexes are functions of blocks and edges), [ApplyDelta], [Compose], [Mutation],
      [HeadBlock], [HeadView], [VspcView], [Subview], [History]; one lineage of
      a publication is [Lineage].  Properties: [GraphTheorems].
    - Serving ([kgi-api-core] delta.rs, cache.rs, publication/estimate.rs):
      [Ladder], [Cache], [CacheMachine]; properties in [ServingTheorems].
    - Graph-update ingress ([kgi-api-ingress]): [Ingress], [IngressSafety],
      [IngressTheorems].  The instrumented channel of [kgi-core]: [Channel].
    - SSE clients ([kgi-api-core] client.rs): [Clients], [ClientsSafety],
      [ClientsWorld], [ClientTheorems].
    - Publication ([publication/mod.rs]): [Publication], [Election],
      [PublicationSteps], [PublicationTheorems]; its owner
      ([publication/runtime.rs]): [Runtime], [RuntimeSafety], [RuntimeWorld],
      [RuntimeProgress], [RuntimeTheorems].
    - Wire codec ([kgi-api-core] codec, encoding.rs, the builders of
      publication/mod.rs): [Wire] (the code), [WireCodec] (decoders and the
      hash dictionary), [WireBound] (the size of a text against its estimate),
      [WireTheorems] (with a reader of the deltas).  The scheduler of encodings
      (encoding/scheduler.rs): [Scheduler], [SchedulerSafety],
      [SchedulerTheorems].
    - Block processor ([kgi-processing] block_processor): [Orphan] (topology),
      [OrphanWorker], [Resolver], [BlockWorker] (the three workers; [Resolver]
      opens with what they share), [OrphanWorkerSafety], [BlockSafety],
      [BlockSession], [BlockStages], [BlockTheorems].
    - VSPC processor ([vspc_processor.rs]): [Vspc], [VspcIndex], [VspcWorker],
      [VspcDrive]; response normalization ([kgi-node]
      normalization.rs): [Normalization]; both in [ProcessingTheorems].
    - Storage ([kgi-storage]): [Sql] (statements, attempts and retries of
      transaction.rs, error.rs, and a program logic for them), [Store] (tables,
      caches, identity.rs, state.rs), [Materialization], [VspcStore],
      [StoreClient] (generation/mod.rs, rebuild.rs, and how service.rs settles a
      rebuild) are the code; [StoreInvariant], [StoreInsert],
      [StoreMaterialize], [StoreVspc], [StoreChain] prove each transaction,
      [StoreWorld] and [StoreReach] the operations of the client and all their
      sequences.
    - Graph projection ([kgi-storage] generation/projection.rs): [Projection];
      [ProjectionSpec] and [ProjectionTheorems] say what a seed shows of the
      tables, and [ViewTracking] that committed updates keep a Head view
      showing them.  Properties of storage and projection: [StoreTheorems].
    - [PublicationExamples], [RuntimeExamples], [BlockExamples],
      [StoreExamples]: evaluated inputs that the witnesses of the theorems use.

    ** What the theorems show

    - Replay and refinement ([GraphTheorems]): the optimised updates of a view
      keep its indexes exact, and the deltas they emit replay them, one by one,
      composed, or read back from a pruned history; a view is a function of its
      content, and [apply_delta] refines an order-free update of that content.
    - Serving ([ServingTheorems]): history ranges and ladder boundaries are
      exactly those specified, without overflow; no interleaving of the cache
      panics.
    - Publication and its runtime ([PublicationTheorems], [RuntimeTheorems]):
      in every reachable world core, history, caches and registry agree; the
      runtime's publication is the lineage of its seed over the updates past
      the cut, reconstruction ends, and no step panics while counters have room.
    - Wire ([WireTheorems]): a reader of the canonical deltas, which carry no
      removals, holds the graph the publication holds; a snapshot decodes to the
      captured view; and an admitted delta is at most four times its estimate,
      so it stays below the limit of a response and its builder succeeds.
    - Encoding ([SchedulerTheorems]): at most four encodings run, two of them
      historical, and none waits beside a free place; every request is answered
      by its own work or its own end, also through a shutdown.
    - Transport ([IngressTheorems], [ClientTheorems]): no
      update is lost without a reported gap, occupancy is exact, mailboxes stay
      bounded, and the operations panic exactly where stated.
    - Processing ([BlockTheorems], [ProcessingTheorems]): no
      orphan is stranded, the boundary is sealed once, one fault per session,
      the fault barrier ends, VSPC transitions form one chain, the incremental
      indexes equal their recomputation, and driving terminates.
    - Storage ([StoreTheorems]): whatever statements and commits fail, the
      tables stay well formed, the virtual chain is one path and the caches
      agree with the tables; every operation of the client answers what the
      tables decide, and its answers are those the block processor's safety
      assumes.  A projection shows exactly the stored window, and the Head view
      that follows the committed updates stays the one a projection would give:
      this is where storage, graph views and publication meet.

    ** Abstract specifications and interfaces

    [content] of a view is the specification of its operations; the machine of
    [PublicationSteps] is that of the runtime.  [KaspaHash] is the type of
    block hashes with its order.  The tokio channel and watch cell are the
    classes [Mpsc] and [Watch] with their documented laws and a concrete
    instance; base64 and the random source are parameters of the registry; the
    VSPC processor sees storage and node through [VspcDatabase] and [VspcRpc].
    serde_json is [JsonText] and [JsonWriter], the text of a hash [HashText],
    gzip an argument.  The answers of storage in [BlockSession] are those
    [admissible] for a single writer; [session_tracks_store] shows that the
    modelled client gives no other.  PostgreSQL is not modelled beyond the
    statements the code sends: a statement executes on the tables or fails by
    its fate.

    ** Fuel and bounds

    Recursion that is not structural carries fuel that its theorem shows to be
    enough: [find_boundary_index] the length of the history, [prune_search] and
    [boundaries_loop] 64 (one per bit of a revision), [impact_loop] one more
    than the orphans, [next_observation] 2.  The VSPC loop and the barrier of
    the block processor are step relations with a decreasing measure
    ([vspc_drive_terminates], [barrier_ends], [scheduler_drains]); alignment
    runs to the frontier it captured; [dispatch] turns once per free place; a
    transaction is retried as often as [RETRY_DELAYS] is long.

    ** Granularity

    In the runtime the active update and its announcement are one step (the
    worker holds the mutation lock over both); [PublicationSteps] separates
    them for readers.  The block processor runs from await to await; its
    children interleave between.  The encoding scheduler runs from one locked
    section or completion to the next.  Storage operations are atomic on the tables:
    the lanes and the mutation guard of the client serialize them.

    ** Findings

    Modelling showed disagreements that are theorems here: the re-entry of a
    delta request can panic ([delta_reentry_panics]); a cancelled and repeated
    dependency resolution faults the session ([duplicate_resolution_fault]); a
    faulted block processor spins until its shutdown ([faulted_worker_spins]);
    an added-only notification with a gap is fatal
    ([vspc_member_gap_fatal]); the ingress high-water mark can exceed the
    capacity by one ([ingress_high_water_overshoots]).
    A virtual-chain change that removes nothing is checked at its first added
    block only ([vspc_added_only_unchecked]).

    ** Not modelled

    The HTTP API service ([kgi-api-core] service.rs, api_db.rs), the node
    connection and RPC transport ([kgi-node] service.rs, rpc.rs,
    notification.rs), the storage service that opens connections and generations
    ([kgi-storage] service.rs, schema.rs) and the executable are tokio, axum,
    sqlx, clap and kaspa-client glue: their logic is the order of calls into
    libraries.  Consensus parameters are derived from a third-party table.  Of
    the wire codec the bodies of errors, status and lifecycle are left out, which
    are fixed tables of names.  The web client is TypeScript. *)

From stdpp Require Export sorting.
From stdpp Require Export prelude gmap.

#[global] Open Scope N_scope.
#[export] Set Warnings "-clear-no-such-hyp".

(** * Failure

    A Rust [panic!], failed [assert!] or failed [expect] aborts the operation:
    every operation that can do so returns an [option], [None] being the
    panic.  A Rust [Result] is a value of [Result]. *)

Inductive Result (A E : Type) : Type :=
  | Ok (a : A)
  | Err (e : E).
Arguments Ok {A E} a.
Arguments Err {A E} e.

#[global] Instance Result_eq_dec {A E} `{EqDecision A, EqDecision E} : EqDecision (Result A E).
Proof. solve_decision. Defined.

Definition map_err {A E F} (f : E → F) (r : Result A E) : Result A F :=
  match r with Ok a => Ok a | Err e => Err (f e) end.

(** [map_err] with a closure that may panic. *)
Definition map_err_m {A E F} (f : E → option F) (r : Result A E) : option (Result A F) :=
  match r with Ok a => Some (Ok a) | Err e => Err <$> f e end.

(** The [?] operator in a function that may also panic. *)
Definition try_ {A B E} (r : Result A E) (k : A → option (Result B E)) : option (Result B E) :=
  match r with Ok a => k a | Err e => Some (Err e) end.

(** [iter.map(f).collect::<Result<Vec<_>, _>>()]: stops at the first error. *)
Fixpoint collect_results {A B E} (f : A → option (Result B E)) (l : list A) :
    option (Result (list B) E) :=
  match l with
  | [] => Some (Ok [])
  | x :: l =>
    r ← f x;
    try_ r (λ y, rs ← collect_results f l; try_ rs (λ ys, Some (Ok (y :: ys))))
  end.

Declare Scope kgi_scope.
Delimit Scope kgi_scope with kgi.
Notation "x ←? r ; k" := (try_ r (λ x, k))
  (at level 20, r at level 100, k at level 200, only parsing) : kgi_scope.
#[global] Open Scope kgi_scope.

(** Runs the next [←] of an [option] computation whose left side is known. *)
Ltac run_bind := cbn [mbind option_bind].

Definition assert_ (P : Prop) `{Decision P} : option unit :=
  if decide P then Some tt else None.
Arguments assert_ : simpl never.

(** A [for] loop whose body may panic. *)
Fixpoint fold_m {A B} (f : B → A → option B) (b : B) (l : list A) : option B :=
  match l with
  | [] => Some b
  | x :: l => f b x ≫= λ b', fold_m f b' l
  end.

(** * Machine integers

    [u16], [u32], [u64] and [usize] values are elements of [N]; the bound of
    the width is written out where an operation checks it. *)

Definition U16_MAX : N := 2 ^ 16 - 1.
Definition U32_MAX : N := 2 ^ 32 - 1.
Definition U64_MAX : N := 2 ^ 64 - 1.
Definition I64_MAX : N := 2 ^ 63 - 1.

Definition checked_add (x y : N) : option N :=
  if decide (x + y ≤ U64_MAX) then Some (x + y) else None.
Definition checked_sub (x y : N) : option N :=
  if decide (y ≤ x) then Some (x - y) else None.
Definition checked_mul (x y : N) : option N :=
  if decide (x * y ≤ U64_MAX) then Some (x * y) else None.
Arguments checked_add : simpl never.
Arguments checked_sub : simpl never.
Arguments checked_mul : simpl never.
(** [N] subtraction is already truncated at zero. *)
Definition saturating_sub (x y : N) : N := x - y.

(** The half-open range [start .. start + len]. *)
Definition seqN (start len : N) : list N := N.of_nat <$> seq (N.to_nat start) (N.to_nat len).

(** * Ordered maps

    A [BTreeMap] is a [gmap] whose iteration is in ascending key order. *)

Definition key_le {A} (p q : N * A) : Prop := p.1 ≤ q.1.
#[global] Instance key_le_dec {A} : RelDecision (@key_le A).
Proof. intros [a ?] [b ?]. unfold key_le; simpl. apply _. Defined.

Definition btree_to_list {A} (m : gmap N A) : list (N * A) :=
  merge_sort key_le (map_to_list m).

(** * Maps to sets

    The idiom [map.entry(k).or_default().insert(x)] and its inverse, which
    drops the entry when its last member goes. *)

Definition mm_get `{Countable K, Countable V} (m : gmap K (gset V)) (k : K) : gset V :=
  default ∅ (m !! k).

Definition mm_insert `{Countable K, Countable V} (k : K) (x : V)
    (m : gmap K (gset V)) : gmap K (gset V) :=
  <[k := {[x]} ∪ mm_get m k]> m.

Definition mm_remove `{Countable K, Countable V} (k : K) (x : V)
    (m : gmap K (gset V)) : gmap K (gset V) :=
  match m !! k with
  | None => m
  | Some s =>
    if decide (s ∖ {[x]} = ∅) then delete k m else <[k := s ∖ {[x]}]> m
  end.

(** No key is kept with an empty set. *)
Definition mm_wf `{Countable K, Countable V} (m : gmap K (gset V)) : Prop :=
  ∀ k s, m !! k = Some s → s ≠ ∅.

(** * Absolute changes over a map

    [override m ch] is [m] after the absolute changes [ch]: [Some x] stores,
    [None] removes. *)

Definition override `{Countable K} {A} (m : gmap K A) (ch : gmap K (option A)) : gmap K A :=
  merge (λ o c, default o c) m ch.

(** Two sections of lemmas follow: iteration, then maps. *)

Section fold_m.
Context {A B : Type}.
Implicit Types f : B → A → option B.

Lemma fold_m_app f b l1 l2 :
  fold_m f b (l1 ++ l2) = fold_m f b l1 ≫= λ b', fold_m f b' l2.
Proof. revert b; induction l1 as [|x l1 IH]; intros b; simpl; [done|].
  destruct (f b x); simpl; auto. Qed.

(** A loop whose body keeps an invariant never panics. *)
Lemma fold_m_total f (P : B → Prop) b l :
  P b → (∀ b x, x ∈ l → P b → ∃ b', f b x = Some b' ∧ P b') →
  ∃ b', fold_m f b l = Some b' ∧ P b'.
Proof.
  revert b; induction l as [|x l IH]; intros b Hb Hf; simpl; [eauto|].
  destruct (Hf b x) as (b' & -> & Hb'); [left|done|]; simpl.
  apply IH; [done|]. intros; apply Hf; [by right|done].
Qed.

Lemma fold_m_inv f (P : B → Prop) b l b' :
  P b → (∀ b x b', x ∈ l → P b → f b x = Some b' → P b') →
  fold_m f b l = Some b' → P b'.
Proof.
  revert b; induction l as [|x l IH]; intros b Hb Hf; simpl; [congruence|].
  destruct (f b x) as [b1|] eqn:E; simpl; [|done]. intros Hr.
  apply (IH b1); [|intros b2 y b3 ??; apply Hf; [by right|done]|done].
  apply (Hf b x); [left|done|done].
Qed.
End fold_m.

(** A collected list is the image of the whole input; an error is the first one met. *)
Lemma collect_results_spec {A B E} (f : A → option (Result B E)) l :
  (∀ x, x ∈ l → is_Some (f x)) →
  ∃ r, collect_results f l = Some r ∧
    match r with
    | Ok ys => Forall2 (λ x y, f x = Some (Ok y)) l ys
    | Err e => ∃ l1 x l2, l = l1 ++ x :: l2 ∧ f x = Some (Err e) ∧ Forall (λ x, ∃ y, f x = Some (Ok y)) l1
    end.
Proof.
  induction l as [|x l IH]; intros Hf; simpl; [by exists (Ok [])|].
  destruct (Hf x) as [[y|e] Ex]; [left|..]; rewrite Ex; simpl.
  - destruct IH as (r & -> & Hr); [intros; apply Hf; by right|]. simpl. destruct r as [ys|e]; simpl.
    + exists (Ok (y :: ys)). split; [done|]. by constructor.
    + exists (Err e). split; [done|]. destruct Hr as (l1 & z & l2 & -> & Hz & Hl1).
      exists (x :: l1), z, l2. split_and!; [done|done|]. constructor; eauto.
  - exists (Err e). split; [done|]. exists [], x, l. by split_and!.
Qed.

Lemma checked_add_Some x y : x + y ≤ U64_MAX → checked_add x y = Some (x + y).
Proof. intros. unfold checked_add. by rewrite decide_True. Qed.
Lemma checked_sub_Some x y : y ≤ x → checked_sub x y = Some (x - y).
Proof. intros. unfold checked_sub. by rewrite decide_True. Qed.
Lemma checked_add_inv x y z : checked_add x y = Some z → z = x + y ∧ x + y ≤ U64_MAX.
Proof. unfold checked_add. case_decide; naive_solver. Qed.
Lemma checked_sub_inv x y z : checked_sub x y = Some z → z = x - y ∧ y ≤ x.
Proof. unfold checked_sub. case_decide; naive_solver. Qed.

Lemma assert_Some (P : Prop) `{Decision P} u : assert_ P = Some u ↔ P.
Proof. unfold assert_; case_decide; destruct u; naive_solver. Qed.
Lemma assert_true (P : Prop) `{Decision P} : P → assert_ P = Some tt.
Proof. by intros; apply assert_Some. Qed.

Lemma foldl_inv {A B} (f : B → A → B) (P : B → Prop) b l :
  P b → (∀ b x, x ∈ l → P b → P (f b x)) → P (foldl f b l).
Proof.
  revert b; induction l as [|x l IH]; intros b Hb Hf; simpl; [done|].
  apply IH; [apply Hf; [left|done]|]. intros; apply Hf; [by right|done].
Qed.

Lemma length_omap_le {A B} (f : A → option B) (l : list A) : (length (omap f l) ≤ length l)%nat.
Proof. induction l as [|x l IH]; csimpl; [done|]. destruct (f x); simpl; lia. Qed.

Lemma elem_of_seqN start len l : l ∈ seqN start len ↔ start ≤ l < start + len.
Proof.
  unfold seqN. rewrite list_elem_of_fmap. split.
  - intros (n & -> & Hn%elem_of_seq). lia.
  - intros. exists (N.to_nat l). split; [lia|]. apply elem_of_seq. lia.
Qed.

Lemma btree_to_list_perm {A} (m : gmap N A) : btree_to_list m ≡ₚ map_to_list m.
Proof. apply merge_sort_Permutation. Qed.

Lemma elem_of_btree_to_list {A} (m : gmap N A) k x :
  (k, x) ∈ btree_to_list m ↔ m !! k = Some x.
Proof. rewrite btree_to_list_perm. apply elem_of_map_to_list. Qed.

Lemma NoDup_btree_to_list {A} (m : gmap N A) : NoDup (btree_to_list m).*1.
Proof.
  rewrite (btree_to_list_perm m). apply NoDup_fst_map_to_list.
Qed.

Lemma btree_to_list_sorted {A} (m : gmap N A) : StronglySorted key_le (btree_to_list m).
Proof.
  apply StronglySorted_merge_sort; [|].
  - intros ???; unfold key_le; lia.
  - intros ??; unfold key_le; lia.
Qed.

Section map_lemmas.
Context `{Countable K}.

Lemma lookup_override {A} (m : gmap K A) ch k :
  override m ch !! k = default (m !! k) (ch !! k).
Proof. unfold override. rewrite lookup_merge. by destruct (m !! k), (ch !! k) as [[]|]. Qed.

Lemma override_empty {A} (m : gmap K A) : override m ∅ = m.
Proof. apply map_eq; intros k. by rewrite lookup_override, lookup_empty. Qed.

(** Later changes win: two overrides are the override by their union. *)
Lemma override_override {A} (m : gmap K A) (c1 c2 : gmap K (option A)) :
  override (override m c1) c2 = override m (c2 ∪ c1).
Proof.
  apply map_eq; intros k. rewrite !lookup_override, lookup_union.
  by destruct (c2 !! k), (c1 !! k).
Qed.
End map_lemmas.

Section multimap_lemmas.
Context {K V : Type} {EK : EqDecision K} {CK : Countable K} {EV : EqDecision V} {CV : Countable V}.
Implicit Types m : gmap K (gset V).

Lemma mm_get_insert k x m j :
  mm_get (mm_insert k x m) j = if decide (k = j) then {[x]} ∪ mm_get m k else mm_get m j.
Proof. unfold mm_get at 1, mm_insert. rewrite lookup_insert. by case_decide. Qed.

Lemma mm_get_remove k x m j :
  mm_get (mm_remove k x m) j = if decide (k = j) then mm_get m k ∖ {[x]} else mm_get m j.
Proof.
  unfold mm_remove, mm_get. destruct (m !! k) as [s|] eqn:E.
  - destruct (decide (s ∖ {[x]} = ∅)) as [Hs|Hs];
      [rewrite lookup_delete|rewrite lookup_insert]; case_decide; subst; simpl; congruence.
  - case_decide as Hk; [|done]. subst j. rewrite E. simpl. apply set_eq; intros y.
    rewrite elem_of_difference, elem_of_empty. tauto.
Qed.

Lemma mm_wf_empty : mm_wf (∅ : gmap K (gset V)).
Proof. by intros k s; rewrite lookup_empty. Qed.

Lemma mm_wf_insert k x m : mm_wf m → mm_wf (mm_insert k x m).
Proof.
  intros Hm j s. unfold mm_insert. rewrite lookup_insert. case_decide; [|apply Hm].
  intros [= <-]. set_solver.
Qed.

Lemma mm_wf_remove k x m : mm_wf m → mm_wf (mm_remove k x m).
Proof.
  intros Hm. unfold mm_remove. destruct (m !! k) as [s|] eqn:E; [|done].
  case_decide as Hs; intros j t;
    [rewrite lookup_delete|rewrite lookup_insert]; case_decide; try discriminate;
    try apply Hm; by intros [= <-].
Qed.

Lemma mm_wf_delete k m : mm_wf m → mm_wf (delete k m).
Proof. intros Hm j t. rewrite lookup_delete. case_decide; [done|apply Hm]. Qed.

Lemma mm_get_delete k m j :
  mm_get (delete k m) j = if decide (k = j) then ∅ else mm_get m j.
Proof. unfold mm_get. rewrite lookup_delete. by case_decide. Qed.

(** A well-formed index is determined by its membership relation. *)
Lemma mm_ext m1 m2 : mm_wf m1 → mm_wf m2 → (∀ k, mm_get m1 k = mm_get m2 k) → m1 = m2.
Proof.
  unfold mm_get, mm_wf. intros W1 W2 E. apply map_eq; intros k. specialize (E k).
  destruct (m1 !! k) eqn:E1, (m2 !! k) eqn:E2; simpl in *; naive_solver.
Qed.

Lemma mm_lookup_Some m k x : mm_wf m → x ∈ mm_get m k → is_Some (m !! k).
Proof. unfold mm_get. destruct (m !! k); simpl; [eauto|set_solver]. Qed.

Lemma mm_lookup_get m k s : m !! k = Some s → mm_get m k = s.
Proof. unfold mm_get. by intros ->. Qed.
End multimap_lemmas.

(** * Automation *)

Create HintDb kgi.
#[export] Hint Resolve mm_wf_empty mm_wf_insert mm_wf_remove mm_wf_delete : kgi.
#[export] Hint Resolve checked_add_Some checked_sub_Some assert_true : kgi.
#[export] Hint Rewrite @lookup_override @elem_of_seqN @elem_of_btree_to_list : kgi.
