(* ===== verification/Model.v ===== *)
(** Shared domain values of [crates/kgi-model]: block identity, compact
    database identifiers, consensus order, display coordinates, the fault
    vocabulary and the committed graph updates. *)

From S2P Require Import Prelude.

(** * Kaspa hashes

    [BlockHash] is [kaspa_hashes::Hash] and [BlueWork] is
    [kaspa_math::Uint192], both third-party types.  The code compares,
    hashes and totally orders them, and knows one distinguished hash,
    [kaspa_consensus_core::blockhash::ORIGIN]. *)

Class KaspaHash := {
  BlockHash : Type;
  #[global] BlockHash_eq_dec :: EqDecision BlockHash;
  #[global] BlockHash_countable :: Countable BlockHash;
  hash_le : relation BlockHash;
  #[global] hash_le_dec :: RelDecision hash_le;
  #[global] hash_le_total :: TotalOrder hash_le;
  ORIGIN : BlockHash
}.

(** The instance the witnesses compute with: hashes are numbers. *)
Definition NHash : KaspaHash.
Proof.
  refine {| BlockHash := N; hash_le := N.le; ORIGIN := 0 |}.
  split; [apply _|]. intros x y. unfold strict. destruct (decide (x = y)); [tauto|]. lia.
Defined.

Definition BlueWork : Type := N.
Definition Timestamp : Type := N.

Definition MAX_DAA_SCORE : N := I64_MAX - 1.
Definition MAX_BLUE_SCORE : N := I64_MAX.
Definition MAX_LEVEL_SIZE : N := U16_MAX.
Definition MAX_LEVEL_SLOT : N := MAX_LEVEL_SIZE - 1.

(** * Identifiers *)

(** [CompactId(i64)], with its private field: values come from [CompactId_new]. *)
Record CompactId := MkCompactId { compact_id : Z }.
#[global] Instance CompactId_eq_dec : EqDecision CompactId.
Proof. solve_decision. Defined.

Definition CompactId_new (value : Z) : option CompactId :=
  if decide (0 < value)%Z then Some (MkCompactId value) else None.

Record InvalidCompactId := MkInvalidCompactId { invalid_compact_id : Z }.

Definition CompactId_try_from (value : Z) : Result CompactId InvalidCompactId :=
  match CompactId_new value with
  | Some id => Ok id
  | None => Err (MkInvalidCompactId value)
  end.

Inductive BlockColor := Gray | Blue | Red.
#[global] Instance BlockColor_eq_dec : EqDecision BlockColor.
Proof. solve_decision. Defined.

(** [BlockCoordinate]: both fields are private; values come from [BlockCoordinate_new]. *)
Record BlockCoordinate := MkBlockCoordinate { coord_level : N; coord_slot : N }.
#[global] Instance BlockCoordinate_eq_dec : EqDecision BlockCoordinate.
Proof. solve_decision. Defined.

Definition BlockCoordinate_new (level slot : N) : option BlockCoordinate :=
  if decide (0 < level ∧ slot ≤ MAX_LEVEL_SLOT) then Some (MkBlockCoordinate level slot) else None.

Section model.
Context {KH : KaspaHash}.

(** Deterministic order by [(blue_work, hash)], the derived lexicographic [Ord]. *)
Record ConsensusOrder := MkConsensusOrder { co_blue_work : BlueWork; co_hash : BlockHash }.

Definition consensus_le (a b : ConsensusOrder) : Prop :=
  co_blue_work a < co_blue_work b ∨
  (co_blue_work a = co_blue_work b ∧ hash_le (co_hash a) (co_hash b)).

Record VspcPoint := MkVspcPoint { vp_order : ConsensusOrder; vp_id : CompactId }.
Definition vp_hash (p : VspcPoint) : BlockHash := co_hash (vp_order p).

Record ValidatedNodeBlock := MkValidatedNodeBlock {
  vnb_hash : BlockHash;
  vnb_selected_parent : BlockHash;
  vnb_direct_parents : list BlockHash;
  vnb_blue_merge_set : list BlockHash;
  vnb_red_merge_set : list BlockHash;
  vnb_timestamp : Timestamp;
  vnb_daa_score : N;
  vnb_blue_score : N;
  vnb_blue_work : BlueWork
}.

Record ValidatedRecoveryHeader := MkValidatedRecoveryHeader {
  vrh_hash : BlockHash;
  vrh_daa_score : N;
  vrh_blue_work : BlueWork;
  vrh_blue_score : N
}.

Record MaterializedSyncAnchor := MkMaterializedSyncAnchor {
  msa_point : VspcPoint;
  msa_selected_parent : BlockHash;
  msa_blue_score : N
}.

Record PersistedBlock := MkPersistedBlock {
  pb_point : VspcPoint;
  pb_selected_parent : BlockHash
}.

(** * Committed graph updates ([graph_update.rs]) *)

Record ParentCommitted := MkParentCommitted {
  pc_hash : BlockHash;
  pc_coordinate : option BlockCoordinate
}.

Record LevelCommitted := MkLevelCommitted {
  lc_level : N;
  lc_size : N;
  lc_daa_score : option N
}.

Record BlockCommitted := MkBlockCommitted {
  bc_id : CompactId;
  bc_hash : BlockHash;
  bc_coordinate : BlockCoordinate;
  bc_timestamp : Timestamp;
  bc_daa_score : N;
  bc_selected_parent_index : option N;
  bc_direct_parents : list ParentCommitted;
  bc_blue_merge_set : list BlockHash;
  bc_red_merge_set : list BlockHash;
  bc_color : BlockColor;
  bc_is_in_vspc : bool;
  bc_level_snapshots : list LevelCommitted
}.

Record VspcCommitted := MkVspcCommitted {
  vc_source : BlockHash;
  vc_destination : BlockHash;
  vc_removed : list BlockHash;
  vc_added : list BlockHash;
  vc_level_snapshots : list LevelCommitted
}.

Inductive GraphUpdate :=
  | GraphUpdate_Catchup
  | GraphUpdate_BlockCommitted (c : BlockCommitted)
  | GraphUpdate_VspcCommitted (c : VspcCommitted)
  | GraphUpdate_Live.

(** Normalized hash-level VSPC transition ([vspc.rs]). *)
Record VspcChange := MkVspcChange { ch_removed : list BlockHash; ch_added : list BlockHash }.

(** Materialized, endpoint-resolved VSPC transition ([vspc.rs]). *)
Record ReadyVspcChange := MkReadyVspcChange {
  rc_source : VspcPoint;
  rc_destination : VspcPoint;
  rc_removed : list CompactId;
  rc_added : list CompactId
}.

#[global] Instance ConsensusOrder_eq_dec : EqDecision ConsensusOrder.
Proof. solve_decision. Defined.
#[global] Instance ConsensusOrder_countable : Countable ConsensusOrder.
Proof.
  apply (inj_countable' (λ o, (co_blue_work o, co_hash o)) (λ p, MkConsensusOrder p.1 p.2)).
  by intros [].
Defined.
#[global] Instance consensus_le_dec : RelDecision consensus_le.
Proof. intros a b. unfold consensus_le. apply _. Defined.
#[global] Instance consensus_le_total : TotalOrder consensus_le.
Proof.
  unfold consensus_le. split; [split; [split|]|].
  - intros a. right. split; [done|]. reflexivity.
  - intros a b c [?|[? H1]] [?|[? H2]]; try (left; lia). right. split; [lia|]. by etrans.
  - intros [wa ha] [wb hb]; simpl. intros [?|[-> H1]] [?|[? H2]]; try lia.
    f_equal. by apply (anti_symm hash_le).
  - intros [wa ha] [wb hb]. unfold strict; simpl.
    destruct (N.lt_trichotomy wa wb) as [?|[->|?]]; [left|..|right; right].
    + split; [by left|]. intros [?|[? _]]; lia.
    + destruct (trichotomy (strict hash_le) ha hb) as [[H1 H2]|[->|[H1 H2]]].
      * left. split; [by right|]. intros [?|[_ ?]]; [lia|done].
      * by right; left.
      * right; right. split; [by right|]. intros [?|[_ ?]]; [lia|done].
    + split; [by left|]. intros [?|[? _]]; lia.
Qed.

#[global] Instance VspcPoint_eq_dec : EqDecision VspcPoint.
Proof. solve_decision. Defined.
#[global] Instance VspcChange_eq_dec : EqDecision VspcChange.
Proof. solve_decision. Defined.
#[global] Instance ValidatedNodeBlock_eq_dec : EqDecision ValidatedNodeBlock.
Proof. solve_decision. Defined.
#[global] Instance PersistedBlock_eq_dec : EqDecision PersistedBlock.
Proof. solve_decision. Defined.
End model.
