(* ===== verification/Faults.v ===== *)
(** The fault vocabulary of [crates/kgi-model/src/lifecycle.rs], the operation
    errors of the node and storage clients, and the classification of
    [crates/kgi-processing/src/fault.rs].

    Every [diagnostic: Arc<str>] is operator text that no code inspects; it is
    left out of the model. *)

From S2P Require Import Prelude Model.

Inductive RecoveryMode := Resync | Rebuild.

Inductive FaultDisposition :=
  | Retry
  | Require_ (mode : RecoveryMode)
  | Fatal.

Inductive Component :=
  | Supervisor | NodeService | StorageService | ResyncEngine | BlockProcessor
  | OrphanManager | DependencyResolver | VspcProcessor | ApiService.

Inductive ServiceKind := Node | Storage.

Inductive MalformedVspcNotificationReason :=
  | Notification_RemovedChainWithoutAddedPath
  | Notification_ResolvedSourceDiscontinuity
  | Notification_SelectedParentPathDiscontinuity
  | DuplicatePendingTransition
  | ContradictoryDestination
  | CompetingNextMove.

Inductive NotificationInputKind :=
  | MalformedBlockAdded
  | MalformedVspcChange (reason : MalformedVspcNotificationReason).

Inductive MalformedVspcResponseReason :=
  | RemovedChainWithoutAddedPath
  | NonAdvancingAddedCursor
  | RemovedSourceMismatch
  | ResolvedSourceDiscontinuity
  | SelectedParentPathDiscontinuity.

Inductive RecoveryInputKind :=
  | MalformedPruningPointResponse
  | MalformedCatchupSinkResponse
  | MalformedGetBlock
  | MalformedGetBlocks
  | MalformedVspcResponse (reason : MalformedVspcResponseReason).

Inductive PersistenceFault := DefiniteFailure | RetryExhausted | AmbiguousCommit.

Inductive ScoreRangeFault := DaaScore | BlueScore | BoundarySealThreshold.

Inductive BoundedProcessingState := Orphans | VspcPending.

Inductive OwnershipFault :=
  | SessionDataEndpointLost
  | ManagedComponentUnavailable
  | InternalControlPathLost
  | UnexpectedWorkerTermination
  | InvalidLifecycleControl.

Inductive FaultKind :=
  | ServiceGenerationLost (service : ServiceKind)
  | Fault_RpcRequestFailed
  | StorageQueryFailed
  | StorageInvariantViolation
  | Fault_SubscriptionControlFailed
  | SessionContinuityLost
  | NotificationInputInvalid (kind : NotificationInputKind)
  | Fault_RecoveryInputInvalid (kind : RecoveryInputKind)
  | ReconciliationFailed
  | MaterialityViolation
  | DependencyUnavailable
  | BoundedStateExhausted (state : BoundedProcessingState)
  | Fault_ScoreOutOfRange (fault : ScoreRangeFault)
  | Fault_Persistence (fault : PersistenceFault)
  | Ownership (fault : OwnershipFault).

Record ComponentFault := MkComponentFault {
  cf_source : Component;
  cf_disposition : FaultDisposition;
  cf_kind : FaultKind
}.

(** * Storage errors ([crates/kgi-storage/src/error.rs], [operation.rs]) *)

Inductive ProcessingDbError :=
  | Db_GenerationLost
  | Db_QueryFailed
  | Db_InvalidStoredState
  | Db_Persistence (reason : PersistenceFault)
  | Db_ScoreOutOfRange (reason : ScoreRangeFault)
  | Db_ServiceUnavailable.

Definition active_or_live (is_live : bool) (active : FaultDisposition) : FaultDisposition :=
  if is_live then Require_ Resync else active.

Definition storage_fault (error : ProcessingDbError) (is_live : bool) : ComponentFault :=
  let '(disposition, kind) :=
    match error with
    | Db_GenerationLost => (active_or_live is_live Retry, ServiceGenerationLost Storage)
    | Db_QueryFailed => (active_or_live is_live Retry, StorageQueryFailed)
    | Db_InvalidStoredState => (Require_ Rebuild, StorageInvariantViolation)
    | Db_Persistence reason =>
      (match reason with
       | DefiniteFailure => Fatal
       | RetryExhausted | AmbiguousCommit => active_or_live is_live Retry
       end, Fault_Persistence reason)
    | Db_ScoreOutOfRange reason => (Fatal, Fault_ScoreOutOfRange reason)
    | Db_ServiceUnavailable => (Fatal, Ownership ManagedComponentUnavailable)
    end in
  MkComponentFault StorageService disposition kind.

Section errors.
Context {KH : KaspaHash}.

Inductive ResolveMaterializedIdsError :=
  | Resolve_Database (error : ProcessingDbError)
  | NonMaterialized (missing identity_only : list BlockHash).

(** First selected-parent discontinuity of a VSPC path. *)
Record VspcPathConflict := MkVspcPathConflict {
  conflict_child : BlockHash;
  conflict_expected_parent : BlockHash;
  conflict_stored_parent : BlockHash
}.

Inductive ApplyVspcChangeError :=
  | Apply_Database (error : ProcessingDbError)
  | VspcSourceDiscontinuity
  | VspcMemberNotMaterialized (id : CompactId)
  | VspcPathDiscontinuity (conflict : VspcPathConflict).

Record VspcCommitOutcome := MkVspcCommitOutcome {
  outcome_destination : VspcPoint;
  outcome_level_snapshots : list LevelCommitted
}.

(** * Node errors ([crates/kgi-node/src/error.rs]) *)

Inductive NodeError :=
  | GenerationLost
  | Cancelled
  | BlockNotFound (hash : BlockHash)
  | RpcRequestFailed
  | SubscriptionControlFailed
  | InvalidSubscriptionState
  | RecoveryInputInvalid (kind : RecoveryInputKind)
  | ScoreOutOfRange (fault : ScoreRangeFault)
  | RetirementControlUnavailable.
End errors.

#[global] Instance RecoveryMode_eq_dec : EqDecision RecoveryMode.
Proof. solve_decision. Defined.
#[global] Instance FaultDisposition_eq_dec : EqDecision FaultDisposition.
Proof. solve_decision. Defined.
#[global] Instance MalformedVspcResponseReason_eq_dec : EqDecision MalformedVspcResponseReason.
Proof. solve_decision. Defined.
#[global] Instance RecoveryInputKind_eq_dec : EqDecision RecoveryInputKind.
Proof. solve_decision. Defined.
#[global] Instance ScoreRangeFault_eq_dec : EqDecision ScoreRangeFault.
Proof. solve_decision. Defined.
