(* ===== verification/Delta.v ===== *)
(** The value types of [crates/kgi-api-model/src/graph.rs] (inclusive level
    extents, levels, edges and blocks), and the canonical graph deltas of
    [delta.rs] with their composition over adjacent revision intervals. *)

From S2P Require Import Prelude Model.

Definition MAX_CACHE_DEPTH : N := 1000.

(** * Level extents *)

(** [LevelExtent]: private bounds, built by [LevelExtent_new] only. *)
Record LevelExtent := MkLevelExtent { low_level : N; high_level : N }.
#[global] Instance LevelExtent_eq_dec : EqDecision LevelExtent.
Proof. solve_decision. Defined.

Inductive LevelExtentError := InvalidBounds (low high : N).

Definition LevelExtent_new (low high : N) : Result LevelExtent LevelExtentError :=
  if decide (low = 0 ∨ high < low) then Err (InvalidBounds low high)
  else Ok (MkLevelExtent low high).

Definition extent_depth (e : LevelExtent) : N := high_level e - low_level e + 1.

Definition contains_level (e : LevelExtent) (level : N) : Prop :=
  low_level e ≤ level ∧ level ≤ high_level e.

Definition contains_extent (e other : LevelExtent) : Prop :=
  low_level e ≤ low_level other ∧ high_level other ≤ high_level e.

Definition overlaps (e other : LevelExtent) : Prop :=
  low_level e ≤ high_level other ∧ low_level other ≤ high_level e.

Definition intersects_span (e : LevelExtent) (parent_level child_level : N) : Prop :=
  low_level e ≤ child_level ∧ parent_level ≤ high_level e.

#[global] Instance contains_level_dec e l : Decision (contains_level e l).
Proof. unfold contains_level; apply _. Defined.
#[global] Instance contains_extent_dec e e' : Decision (contains_extent e e').
Proof. unfold contains_extent; apply _. Defined.
#[global] Instance overlaps_dec e e' : Decision (overlaps e e').
Proof. unfold overlaps; apply _. Defined.
#[global] Instance intersects_span_dec e p c : Decision (intersects_span e p c).
Proof. unfold intersects_span; apply _. Defined.

(** What the private constructor guarantees of every extent. *)
Definition extent_wf (e : LevelExtent) : Prop := 0 < low_level e ∧ low_level e ≤ high_level e.

Inductive TrackingPolicy := Head | Fixed | Frozen.
#[global] Instance TrackingPolicy_eq_dec : EqDecision TrackingPolicy.
Proof. solve_decision. Defined.

Record Level := MkLevel { size_ : N; daa_score : option N }.
#[global] Instance Level_eq_dec : EqDecision Level.
Proof. solve_decision. Defined.

Record StoredLevel := MkStoredLevel { value : Level; usage_count : N }.
#[global] Instance StoredLevel_eq_dec : EqDecision StoredLevel.
Proof. solve_decision. Defined.

Section graph_types.
Context {KH : KaspaHash}.

Record EdgeId := MkEdgeId { parent : BlockHash; child : BlockHash }.

#[global] Instance EdgeId_eq_dec : EqDecision EdgeId.
Proof. solve_decision. Defined.
#[global] Instance EdgeId_countable : Countable EdgeId.
Proof.
  refine (inj_countable' (λ e, (parent e, child e)) (λ p, MkEdgeId p.1 p.2) _).
  by intros [].
Defined.

Record GraphEdge := MkGraphEdge {
  edge_id : EdgeId;
  parent_coordinate : BlockCoordinate;
  child_coordinate : BlockCoordinate
}.
#[global] Instance GraphEdge_eq_dec : EqDecision GraphEdge.
Proof. solve_decision. Defined.

Definition parent_level (e : GraphEdge) : N := coord_level (parent_coordinate e).
Definition child_level (e : GraphEdge) : N := coord_level (child_coordinate e).

Record GraphBlock := MkGraphBlock {
  hash : BlockHash;
  coordinate : BlockCoordinate;
  timestamp : Timestamp;
  block_daa_score : N;
  selected_parent_index : option N;
  direct_parents : list BlockHash;
  blue_merge_set : list BlockHash;
  red_merge_set : list BlockHash;
  color : BlockColor;
  is_in_vspc : bool
}.
#[global] Instance GraphBlock_eq_dec : EqDecision GraphBlock.
Proof. solve_decision. Defined.

Definition block_level (b : GraphBlock) : N := coord_level (coordinate b).

(** The two projected fields a VSPC transition assigns. *)
Definition set_color (c : BlockColor) (b : GraphBlock) : GraphBlock :=
  MkGraphBlock (hash b) (coordinate b) (timestamp b) (block_daa_score b)
    (selected_parent_index b) (direct_parents b) (blue_merge_set b) (red_merge_set b)
    c (is_in_vspc b).
Definition set_is_in_vspc (x : bool) (b : GraphBlock) : GraphBlock :=
  MkGraphBlock (hash b) (coordinate b) (timestamp b) (block_daa_score b)
    (selected_parent_index b) (direct_parents b) (blue_merge_set b) (red_merge_set b)
    (color b) x.
End graph_types.

(** * Properties of extents *)

Lemma LevelExtent_new_Ok low high e :
  LevelExtent_new low high = Ok e → e = MkLevelExtent low high ∧ extent_wf e.
Proof.
  unfold LevelExtent_new. case_decide; [done|]. intros [= <-]. split; [done|].
  unfold extent_wf; simpl; lia.
Qed.

Lemma LevelExtent_new_wf low high :
  0 < low → low ≤ high → LevelExtent_new low high = Ok (MkLevelExtent low high).
Proof. intros. unfold LevelExtent_new. rewrite decide_False; [done|lia]. Qed.

Lemma overlaps_shared_level e e' :
  extent_wf e → extent_wf e' →
  overlaps e e' ↔ ∃ l, contains_level e l ∧ contains_level e' l.
Proof.
  unfold overlaps, contains_level, extent_wf. intros. split.
  - intros. exists (N.max (low_level e) (low_level e')). lia.
  - intros [l ?]. lia.
Qed.

Record LevelChange := MkLevelChange {
  level : N;
  before : option Level;
  after : option Level
}.

Record FieldChange (T : Type) := MkFieldChange { field_before : T; field_after : T }.
Arguments MkFieldChange {T} _ _.
Arguments field_before {T} _.
Arguments field_after {T} _.

#[global] Instance LevelChange_eq_dec : EqDecision LevelChange.
Proof. solve_decision. Defined.
#[global] Instance FieldChange_eq_dec `{EqDecision T} : EqDecision (FieldChange T).
Proof. solve_decision. Defined.

Inductive GraphDeltaCreationError :=
  | NonForwardRevision (from_revision_id to_revision_id : N)
  | ZeroHeadLevel.

Inductive GraphDeltaCompositionError :=
  | CompositionRevisionMismatch (left_to_revision_id right_from_revision_id : N).

Section delta.
Context {KH : KaspaHash}.

(** Private fields: every delta comes from [GraphDelta_new]. *)
Record GraphDelta := MkGraphDelta {
  from_revision_id : N;
  to_revision_id : N;
  revision_timestamp_ms : N;
  head_level : N;
  block_changes : gmap BlockHash (option GraphBlock);
  edge_changes : gmap EdgeId (option GraphEdge);
  level_changes : list LevelChange;
  is_in_vspc_changes : gmap BlockHash (FieldChange bool);
  color_changes : gmap BlockHash (FieldChange BlockColor)
}.

Definition GraphDelta_new (from to timestamp_ms head : N)
    (blocks : gmap BlockHash (option GraphBlock))
    (edges : gmap EdgeId (option GraphEdge))
    (levels : list LevelChange)
    (vspc : gmap BlockHash (FieldChange bool))
    (colors : gmap BlockHash (FieldChange BlockColor)) :
    Result GraphDelta GraphDeltaCreationError :=
  if decide (to ≤ from) then Err (NonForwardRevision from to)
  else if decide (head = 0) then Err ZeroHeadLevel
  else Ok (MkGraphDelta from to timestamp_ms head blocks edges levels vspc colors).

(** [compose_field_changes]: fold the right changes over a clone of the left
    ones, then drop the fields that came back to their first value. *)
Definition extend_field_change {T} (h : BlockHash) (change : FieldChange T)
    (composed : gmap BlockHash (FieldChange T)) : gmap BlockHash (FieldChange T) :=
  match composed !! h with
  | Some current => <[h := MkFieldChange (field_before current) (field_after change)]> composed
  | None => <[h := change]> composed
  end.

Definition compose_field_changes {T} `{EqDecision T}
    (left right : gmap BlockHash (FieldChange T)) : gmap BlockHash (FieldChange T) :=
  filter (λ '(_, change), field_before change ≠ field_after change)
    (map_fold extend_field_change left right).

(** The level part of [compose]: collect the left changes in an ordered map,
    fold the right ones over it, keep the visible ones. *)
Definition extend_level_change (m : gmap N (option Level * option Level)) (c : LevelChange) :
    gmap N (option Level * option Level) :=
  match m !! level c with
  | Some (b, _) => <[level c := (b, after c)]> m
  | None => <[level c := (before c, after c)]> m
  end.

Definition collect_level_changes (cs : list LevelChange) : gmap N (option Level * option Level) :=
  foldl (λ m c, <[level c := (before c, after c)]> m) ∅ cs.

Definition compose_level_changes (left right : list LevelChange) : list LevelChange :=
  omap (λ '(l, (b, a)), if decide (b ≠ a) then Some (MkLevelChange l b a) else None)
    (btree_to_list (foldl extend_level_change (collect_level_changes left) right)).

Definition compose (d next : GraphDelta) :
    option (Result GraphDelta GraphDeltaCompositionError) :=
  if decide (to_revision_id d ≠ from_revision_id next) then
    Some (Err (CompositionRevisionMismatch (to_revision_id d) (from_revision_id next)))
  else
    match GraphDelta_new (from_revision_id d) (to_revision_id next)
            (revision_timestamp_ms next) (head_level next)
            (block_changes next ∪ block_changes d)
            (edge_changes next ∪ edge_changes d)
            (compose_level_changes (level_changes d) (level_changes next))
            (compose_field_changes (is_in_vspc_changes d) (is_in_vspc_changes next))
            (compose_field_changes (color_changes d) (color_changes next)) with
    | Ok composed => Some (Ok composed)
    | Err _ => None
    end.

(** What the constructor guarantees, and the ascending, duplicate-free level
    list every producer emits. *)
Definition delta_wf (d : GraphDelta) : Prop :=
  from_revision_id d < to_revision_id d ∧ 0 < head_level d ∧
  StronglySorted N.lt (level <$> level_changes d).
End delta.
