(* ===== verification/GraphView.v ===== *)
(** The graph view of [crates/kgi-api-model/src/graph.rs]: its state, its
    derived indexes and every operation that reads or mutates it.  Definitions
    only; the invariants and theorems are in the files that follow. *)

From S2P Require Import Prelude Model Delta.

Inductive GraphViewExtractError := OutsideSourceExtent.
Inductive GraphViewUpdateError := UpdateFrozen.
Inductive GraphDeltaApplyError :=
  | ApplyFrozen
  | ApplyRevisionMismatch (view_revision delta_from : N).

Section view.
Context {KH : KaspaHash}.

Record GraphView := MkGraphView {
  max_depth : N;
  extent : LevelExtent;
  current_revision_id : N;
  current_revision_timestamp_ms : N;
  tracking_policy : TrackingPolicy;
  levels : gmap N StoredLevel;
  blocks : gmap BlockHash GraphBlock;
  edges : gmap EdgeId GraphEdge;
  block_hashes_by_level : gmap N (gset BlockHash);
  edge_parents_by_child : gmap BlockHash (gset BlockHash);
  edge_ids_by_span : gmap N (gmap N (gset EdgeId))
}.

(** Field assignments. *)
Definition set_extent (x : LevelExtent) (v : GraphView) : GraphView :=
  MkGraphView (max_depth v) x (current_revision_id v) (current_revision_timestamp_ms v)
    (tracking_policy v) (levels v) (blocks v) (edges v) (block_hashes_by_level v)
    (edge_parents_by_child v) (edge_ids_by_span v).
Definition set_revision (id ts : N) (v : GraphView) : GraphView :=
  MkGraphView (max_depth v) (extent v) id ts
    (tracking_policy v) (levels v) (blocks v) (edges v) (block_hashes_by_level v)
    (edge_parents_by_child v) (edge_ids_by_span v).
Definition set_policy (x : TrackingPolicy) (v : GraphView) : GraphView :=
  MkGraphView (max_depth v) (extent v) (current_revision_id v) (current_revision_timestamp_ms v)
    x (levels v) (blocks v) (edges v) (block_hashes_by_level v)
    (edge_parents_by_child v) (edge_ids_by_span v).
Definition set_levels (x : gmap N StoredLevel) (v : GraphView) : GraphView :=
  MkGraphView (max_depth v) (extent v) (current_revision_id v) (current_revision_timestamp_ms v)
    (tracking_policy v) x (blocks v) (edges v) (block_hashes_by_level v)
    (edge_parents_by_child v) (edge_ids_by_span v).
Definition set_blocks (x : gmap BlockHash GraphBlock) (i : gmap N (gset BlockHash))
    (v : GraphView) : GraphView :=
  MkGraphView (max_depth v) (extent v) (current_revision_id v) (current_revision_timestamp_ms v)
    (tracking_policy v) (levels v) x (edges v) i
    (edge_parents_by_child v) (edge_ids_by_span v).
Definition set_edges (x : gmap EdgeId GraphEdge) (v : GraphView) : GraphView :=
  MkGraphView (max_depth v) (extent v) (current_revision_id v) (current_revision_timestamp_ms v)
    (tracking_policy v) (levels v) (blocks v) x (block_hashes_by_level v)
    (edge_parents_by_child v) (edge_ids_by_span v).
Definition set_edge_index (p : gmap BlockHash (gset BlockHash))
    (s : gmap N (gmap N (gset EdgeId))) (v : GraphView) : GraphView :=
  MkGraphView (max_depth v) (extent v) (current_revision_id v) (current_revision_timestamp_ms v)
    (tracking_policy v) (levels v) (blocks v) (edges v) (block_hashes_by_level v) p s.

(** * Derived indexes *)

Definition span_insert (cl pl : N) (id : EdgeId) (ix : gmap N (gmap N (gset EdgeId))) :
    gmap N (gmap N (gset EdgeId)) :=
  <[cl := mm_insert pl id (default ∅ (ix !! cl))]> ix.

Definition span_remove (cl pl : N) (id : EdgeId) (ix : gmap N (gmap N (gset EdgeId))) :
    gmap N (gmap N (gset EdgeId)) :=
  match ix !! cl with
  | None => ix
  | Some ps =>
    if decide (mm_remove pl id ps = ∅) then delete cl ix else <[cl := mm_remove pl id ps]> ix
  end.

Definition index_blocks_by_level (bs : gmap BlockHash GraphBlock) : gmap N (gset BlockHash) :=
  foldl (λ ix '(h, b), mm_insert (block_level b) h ix) ∅ (map_to_list bs).

Definition index_edge_parents_by_child (es : gmap EdgeId GraphEdge) :
    gmap BlockHash (gset BlockHash) :=
  foldl (λ ix '(id, _), mm_insert (child id) (parent id) ix) ∅ (map_to_list es).

Definition index_edges_by_span (es : gmap EdgeId GraphEdge) : gmap N (gmap N (gset EdgeId)) :=
  foldl (λ ix '(id, e), span_insert (child_level e) (parent_level e) id ix) ∅ (map_to_list es).

Definition index_edge (e : GraphEdge) (v : GraphView) : GraphView :=
  set_edge_index
    (mm_insert (child (edge_id e)) (parent (edge_id e)) (edge_parents_by_child v))
    (span_insert (child_level e) (parent_level e) (edge_id e) (edge_ids_by_span v)) v.

Definition unindex_edge (e : GraphEdge) (v : GraphView) : GraphView :=
  set_edge_index
    (mm_remove (child (edge_id e)) (parent (edge_id e)) (edge_parents_by_child v))
    (span_remove (child_level e) (parent_level e) (edge_id e) (edge_ids_by_span v)) v.

(** * Parent-level usage *)

Definition increment_parent_usage (l : N) (v : GraphView) : option GraphView :=
  stored ← levels v !! l;
  n ← checked_add (usage_count stored) 1;
  Some (set_levels (<[l := MkStoredLevel (value stored) n]> (levels v)) v).

Definition decrement_parent_usage (l : N) (v : GraphView) : option GraphView :=
  stored ← levels v !! l;
  n ← checked_sub (usage_count stored) 1;
  Some (set_levels (<[l := MkStoredLevel (value stored) n]> (levels v)) v).

Definition from_database_projection (depth : N) (ext : LevelExtent) (policy : TrackingPolicy)
    (lvls : gmap N Level) (bs : gmap BlockHash GraphBlock) (es : gmap EdgeId GraphEdge) :
    option GraphView :=
  _ ← assert_ (0 < depth);
  _ ← assert_ (extent_depth ext ≤ depth);
  let v := MkGraphView depth ext 0 0 policy ((λ x, MkStoredLevel x 0) <$> lvls) bs es
             (index_blocks_by_level bs) (index_edge_parents_by_child es)
             (index_edges_by_span es) in
  fold_m (λ v l, increment_parent_usage l v) v
    ((λ '(_, e), parent_level e) <$> map_to_list es).

(** * Applying a delta *)

Definition apply_block_upsert (h : BlockHash) (b : GraphBlock) (v : GraphView) : GraphView :=
  let ix := block_hashes_by_level v in
  let ix := match blocks v !! h with
            | Some previous =>
              if decide (block_level previous ≠ block_level b)
              then mm_remove (block_level previous) h ix else ix
            | None => ix
            end in
  set_blocks (<[h := b]> (blocks v)) (mm_insert (block_level b) h ix) v.

Definition apply_block_removal (h : BlockHash) (v : GraphView) : GraphView :=
  match blocks v !! h with
  | None => v
  | Some b =>
    set_blocks (delete h (blocks v)) (mm_remove (block_level b) h (block_hashes_by_level v)) v
  end.

Definition apply_block_change (v : GraphView) (c : BlockHash * option GraphBlock) : GraphView :=
  match c.2 with
  | Some b => apply_block_upsert c.1 b v
  | None => apply_block_removal c.1 v
  end.

(** Loop state: the view, [usage_decrements], [usage_increments]. *)
Definition apply_edge_change (s : GraphView * list N * list N) (c : EdgeId * option GraphEdge) :
    GraphView * list N * list N :=
  let '(v, decs, incs) := s in
  let '(id, change) := c in
  let previous := edges v !! id in
  let v := set_edges (match change with
                      | Some e => <[id := e]> (edges v)
                      | None => delete id (edges v)
                      end) v in
  if decide (previous = change) then (v, decs, incs)
  else
    let '(v, decs) := match previous with
                      | Some p => (unindex_edge p v, decs ++ [parent_level p])
                      | None => (v, decs)
                      end in
    match change with
    | Some e => (index_edge e v, decs, incs ++ [parent_level e])
    | None => (v, decs, incs)
    end.

Definition apply_level_change (ls : gmap N StoredLevel) (c : LevelChange) : gmap N StoredLevel :=
  match after c with
  | Some x =>
    match ls !! level c with
    | Some stored => <[level c := MkStoredLevel x (usage_count stored)]> ls
    | None => <[level c := MkStoredLevel x 0]> ls
    end
  | None => delete (level c) ls
  end.

Definition apply_usage_decrement (ls : gmap N StoredLevel) (l : N) : option (gmap N StoredLevel) :=
  match ls !! l with
  | Some stored =>
    n ← checked_sub (usage_count stored) 1;
    Some (<[l := MkStoredLevel (value stored) n]> ls)
  | None => Some ls
  end.

Definition apply_usage_increment (ls : gmap N StoredLevel) (l : N) : option (gmap N StoredLevel) :=
  stored ← ls !! l;
  n ← checked_add (usage_count stored) 1;
  Some (<[l := MkStoredLevel (value stored) n]> ls).

Definition apply_vspc_change (bs : gmap BlockHash GraphBlock) (c : BlockHash * FieldChange bool) :
    gmap BlockHash GraphBlock := alter (set_is_in_vspc (field_after c.2)) c.1 bs.

Definition apply_color_change (bs : gmap BlockHash GraphBlock)
    (c : BlockHash * FieldChange BlockColor) : gmap BlockHash GraphBlock :=
  alter (set_color (field_after c.2)) c.1 bs.

(** [apply_delta] with the iteration orders of the delta's four hash maps as
    arguments: Rust leaves them unspecified. *)
Definition apply_delta_in (order_blocks : list (BlockHash * option GraphBlock))
    (order_edges : list (EdgeId * option GraphEdge))
    (order_vspc : list (BlockHash * FieldChange bool))
    (order_colors : list (BlockHash * FieldChange BlockColor))
    (d : GraphDelta) (v : GraphView) :
    option (GraphView * Result unit GraphDeltaApplyError) :=
  if decide (tracking_policy v = Frozen) then Some (v, Err ApplyFrozen)
  else if decide (current_revision_id v ≠ from_revision_id d) then
    let error := ApplyRevisionMismatch (current_revision_id v) (from_revision_id d) in
    Some (if decide (tracking_policy v = Fixed) then set_policy Frozen v else v, Err error)
  else
    let v := foldl apply_block_change v order_blocks in
    let '(v, decs, incs) := foldl apply_edge_change (v, [], []) order_edges in
    let ls := foldl apply_level_change (levels v) (level_changes d) in
    ls ← fold_m apply_usage_decrement ls decs;
    ls ← fold_m apply_usage_increment ls incs;
    let v := set_levels ls v in
    let bs := foldl apply_vspc_change (blocks v) order_vspc in
    let bs := foldl apply_color_change bs order_colors in
    let v := set_blocks bs (block_hashes_by_level v) v in
    v ← (if decide (tracking_policy v = Head) then
           let target_low := N.max (saturating_sub (head_level d) (max_depth v - 1)) 1 in
           match LevelExtent_new target_low (head_level d) with
           | Ok e => Some (set_extent e v)
           | Err _ => None
           end
         else Some v);
    Some (set_revision (to_revision_id d) (revision_timestamp_ms d) v, Ok tt).

Definition apply_delta (d : GraphDelta) (v : GraphView) :
    option (GraphView * Result unit GraphDeltaApplyError) :=
  apply_delta_in (map_to_list (block_changes d)) (map_to_list (edge_changes d))
    (map_to_list (is_in_vspc_changes d)) (map_to_list (color_changes d)) d v.

(** * Mutation capture ([GraphMutation]) *)

Record GraphMutation := MkGraphMutation {
  m_blocks : gmap BlockHash (option GraphBlock);
  m_edges : gmap EdgeId (option GraphEdge);
  m_levels : gmap N (option Level);
  m_is_in_vspc : gmap BlockHash bool;
  m_colors : gmap BlockHash BlockColor
}.

Definition GraphMutation_default : GraphMutation := MkGraphMutation ∅ ∅ ∅ ∅ ∅.

(** [map.entry(k).or_insert(x)] *)
Definition or_insert `{Countable K} {A} (k : K) (x : A) (m : gmap K A) : gmap K A :=
  match m !! k with Some _ => m | None => <[k := x]> m end.

Definition m_set_blocks x (m : GraphMutation) : GraphMutation :=
  MkGraphMutation x (m_edges m) (m_levels m) (m_is_in_vspc m) (m_colors m).
Definition m_set_edges x (m : GraphMutation) : GraphMutation :=
  MkGraphMutation (m_blocks m) x (m_levels m) (m_is_in_vspc m) (m_colors m).
Definition m_set_levels x (m : GraphMutation) : GraphMutation :=
  MkGraphMutation (m_blocks m) (m_edges m) x (m_is_in_vspc m) (m_colors m).
Definition m_set_is_in_vspc x (m : GraphMutation) : GraphMutation :=
  MkGraphMutation (m_blocks m) (m_edges m) (m_levels m) x (m_colors m).
Definition m_set_colors x (m : GraphMutation) : GraphMutation :=
  MkGraphMutation (m_blocks m) (m_edges m) (m_levels m) (m_is_in_vspc m) x.

Definition capture_block (bs : gmap BlockHash GraphBlock) (h : BlockHash) (m : GraphMutation) :=
  m_set_blocks (or_insert h (bs !! h) (m_blocks m)) m.
Definition capture_removed_block (h : BlockHash) (b : GraphBlock) (m : GraphMutation) :=
  m_set_blocks (or_insert h (Some b) (m_blocks m)) m.
Definition capture_edge (es : gmap EdgeId GraphEdge) (id : EdgeId) (m : GraphMutation) :=
  m_set_edges (or_insert id (es !! id) (m_edges m)) m.
Definition capture_removed_edge (id : EdgeId) (e : GraphEdge) (m : GraphMutation) :=
  m_set_edges (or_insert id (Some e) (m_edges m)) m.
Definition capture_level (ls : gmap N StoredLevel) (l : N) (m : GraphMutation) :=
  m_set_levels (or_insert l (value <$> ls !! l) (m_levels m)) m.
Definition capture_removed_level (l : N) (x : Level) (m : GraphMutation) :=
  m_set_levels (or_insert l (Some x) (m_levels m)) m.
Definition capture_level_value (l : N) (x : Level) (m : GraphMutation) :=
  m_set_levels (or_insert l (Some x) (m_levels m)) m.
Definition capture_membership (h : BlockHash) (x : bool) (m : GraphMutation) :=
  m_set_is_in_vspc (or_insert h x (m_is_in_vspc m)) m.
Definition capture_color (h : BlockHash) (c : BlockColor) (m : GraphMutation) :=
  m_set_colors (or_insert h c (m_colors m)) m.

Record GraphChanges := MkGraphChanges {
  gc_blocks : gmap BlockHash (option GraphBlock);
  gc_edges : gmap EdgeId (option GraphEdge);
  gc_levels : list LevelChange;
  gc_is_in_vspc : gmap BlockHash (FieldChange bool);
  gc_colors : gmap BlockHash (FieldChange BlockColor)
}.

Definition finish (m : GraphMutation) (v : GraphView) : GraphChanges :=
  MkGraphChanges
    (map_imap (λ h b, let a := blocks v !! h in if decide (b ≠ a) then Some a else None)
       (m_blocks m))
    (map_imap (λ id b, let a := edges v !! id in if decide (b ≠ a) then Some a else None)
       (m_edges m))
    (omap (λ '(l, b), let a := value <$> levels v !! l in
                      if decide (b ≠ a) then Some (MkLevelChange l b a) else None)
       (btree_to_list (m_levels m)))
    (map_imap (λ h b, block ← blocks v !! h;
                      let a := is_in_vspc block in
                      if decide (b ≠ a) then Some (MkFieldChange b a) else None)
       (m_is_in_vspc m))
    (map_imap (λ h b, block ← blocks v !! h;
                      let a := color block in
                      if decide (b ≠ a) then Some (MkFieldChange b a) else None)
       (m_colors m)).

Definition changes_is_empty (c : GraphChanges) : Prop :=
  gc_blocks c = ∅ ∧ gc_edges c = ∅ ∧ gc_levels c = [] ∧ gc_is_in_vspc c = ∅ ∧ gc_colors c = ∅.
#[global] Instance changes_is_empty_dec c : Decision (changes_is_empty c).
Proof. unfold changes_is_empty. apply _. Defined.

Definition finish_mutation (m : GraphMutation) (ts : N) (v : GraphView) :
    option (GraphView * option GraphDelta) :=
  let changes := finish m v in
  if decide (changes_is_empty changes) then Some (v, None)
  else
    next ← checked_add (current_revision_id v) 1;
    match GraphDelta_new (current_revision_id v) next ts (high_level (extent v))
            (gc_blocks changes) (gc_edges changes) (gc_levels changes)
            (gc_is_in_vspc changes) (gc_colors changes) with
    | Ok d => Some (set_revision next ts v, Some d)
    | Err _ => None
    end.

(** * Committed blocks *)

Definition graph_block_from_committed (c : BlockCommitted) : GraphBlock :=
  MkGraphBlock (bc_hash c) (bc_coordinate c) (bc_timestamp c) (bc_daa_score c)
    (bc_selected_parent_index c) (pc_hash <$> bc_direct_parents c)
    (bc_blue_merge_set c) (bc_red_merge_set c) (bc_color c) (bc_is_in_vspc c).

(** Panics when the block is already retained. *)
Definition insert_block (b : GraphBlock) (v : GraphView) : option GraphView :=
  match blocks v !! hash b with
  | None =>
    Some (set_blocks (<[hash b := b]> (blocks v))
            (mm_insert (block_level b) (hash b) (block_hashes_by_level v)) v)
  | Some _ => None
  end.

Definition apply_materialization_snapshot (s : LevelCommitted) (ls : gmap N StoredLevel) :
    gmap N StoredLevel :=
  match ls !! lc_level s with
  | Some stored =>
    <[lc_level s := MkStoredLevel (MkLevel (lc_size s) (daa_score (value stored)))
                      (usage_count stored)]> ls
  | None => <[lc_level s := MkStoredLevel (MkLevel (lc_size s) (lc_daa_score s)) 0]> ls
  end.

(** The edges of a committed block whose span meets the extent. *)
Definition retained_edges (c : BlockCommitted) (target : LevelExtent) : list GraphEdge :=
  filter (λ e, intersects_span target (parent_level e) (child_level e))
    (omap (λ p, (λ pc, MkGraphEdge (MkEdgeId (pc_hash p) (bc_hash c)) pc (bc_coordinate c))
                  <$> pc_coordinate p)
       (bc_direct_parents c)).

Definition retained_endpoint_levels (es : list GraphEdge) : gset N :=
  list_to_set (es ≫= λ e, [parent_level e; child_level e]).

Definition apply_snapshot_step (target : LevelExtent) (endpoints : gset N)
    (s : GraphView * GraphMutation) (snapshot : LevelCommitted) : GraphView * GraphMutation :=
  let '(v, m) := s in
  let retained_external := match levels v !! lc_level snapshot with
                           | Some stored => bool_decide (0 < usage_count stored)
                           | None => false
                           end in
  if decide (contains_level target (lc_level snapshot) ∨ retained_external = true
             ∨ lc_level snapshot ∈ endpoints) then
    (set_levels (apply_materialization_snapshot snapshot (levels v)) v,
     capture_level (levels v) (lc_level snapshot) m)
  else (v, m).

Definition insert_edge_step (s : GraphView * GraphMutation) (e : GraphEdge) :
    option (GraphView * GraphMutation) :=
  let '(v, m) := s in
  let m := capture_edge (edges v) (edge_id e) m in
  match edges v !! edge_id e with
  | None =>
    v ← increment_parent_usage (parent_level e)
          (index_edge e (set_edges (<[edge_id e := e]> (edges v)) v));
    Some (v, m)
  | Some old => _ ← assert_ (old = e); Some (v, m)
  end.

Definition apply_block_projection (c : BlockCommitted) (target : LevelExtent)
    (v : GraphView) (m : GraphMutation) : option (GraphView * GraphMutation) :=
  let b := graph_block_from_committed c in
  '(v, m) ← (if decide (contains_level target (block_level b)) then
               v' ← insert_block b v;
               Some (v', capture_block (blocks v) (hash b) m)
             else Some (v, m));
  let es := retained_edges c target in
  let s := foldl (apply_snapshot_step target (retained_endpoint_levels es)) (v, m)
             (bc_level_snapshots c) in
  fold_m insert_edge_step s es.

Definition prune_block_level_step (s : gmap N (gset BlockHash) * list BlockHash) (l : N) :
    option (gmap N (gset BlockHash) * list BlockHash) :=
  hs ← s.1 !! l;
  Some (delete l s.1, s.2 ++ elements hs).

Definition prune_block_step (s : GraphView * GraphMutation) (h : BlockHash) :
    option (GraphView * GraphMutation) :=
  let '(v, m) := s in
  b ← blocks v !! h;
  Some (set_blocks (delete h (blocks v)) (block_hashes_by_level v) v,
        capture_removed_block h b m).

Definition prune_edge_step (s : GraphView * GraphMutation) (id : EdgeId) :
    option (GraphView * GraphMutation) :=
  let '(v, m) := s in
  e ← edges v !! id;
  v ← decrement_parent_usage (parent_level e)
        (unindex_edge e (set_edges (delete id (edges v)) v));
  Some (v, capture_removed_edge id e m).

Definition prune_level_step (s : GraphView * GraphMutation) (l : N) :
    option (GraphView * GraphMutation) :=
  let '(v, m) := s in
  stored ← levels v !! l;
  Some (set_levels (delete l (levels v)) v, capture_removed_level l (value stored) m).

(** The pruning half of [apply_head_block_committed]. *)
Definition prune_below (low : N) (v : GraphView) (m : GraphMutation) :
    option (GraphView * GraphMutation) :=
  let pruned_block_levels :=
    (btree_to_list (filter (λ '(l, _), l < low) (block_hashes_by_level v))).*1 in
  '(ix, pruned_blocks) ←
    fold_m prune_block_level_step (block_hashes_by_level v, []) pruned_block_levels;
  '(v, m) ← fold_m prune_block_step (set_blocks (blocks v) ix v, m) pruned_blocks;
  let pruned_edges :=
    pruned_blocks ≫= λ c,
      (λ p, MkEdgeId p c) <$> elements (mm_get (edge_parents_by_child v) c) in
  '(v, m) ← fold_m prune_edge_step (v, m) pruned_edges;
  let pruned_levels :=
    (btree_to_list (filter (λ '(l, stored), l < low ∧ usage_count stored = 0) (levels v))).*1 in
  fold_m prune_level_step (v, m) pruned_levels.

(** The extent a Head view takes when its highest level is [high]. *)
Definition head_extent (depth high : N) : option LevelExtent :=
  match LevelExtent_new (N.max (saturating_sub high (depth - 1)) 1) high with
  | Ok e => Some e
  | Err _ => None
  end.

Definition apply_head_block_committed (c : BlockCommitted) (ts : N) (v : GraphView) :
    option (GraphView * Result (option GraphDelta) GraphViewUpdateError) :=
  if decide (tracking_policy v = Frozen) then Some (v, Err UpdateFrozen)
  else
    _ ← assert_ (tracking_policy v = Head);
    let target_high := N.max (high_level (extent v)) (coord_level (bc_coordinate c)) in
    target ← head_extent (max_depth v) target_high;
    '(v, m) ← apply_block_projection c target v GraphMutation_default;
    '(v, m) ← prune_below (low_level target) v m;
    '(v, d) ← finish_mutation m ts (set_extent target v);
    Some (v, Ok d).

Definition apply_fixed_block_committed (c : BlockCommitted) (head : GraphView) (ts : N)
    (v : GraphView) : option (GraphView * Result (option GraphDelta) GraphViewUpdateError) :=
  if decide (tracking_policy v = Frozen) then Some (v, Err UpdateFrozen)
  else
    _ ← assert_ (tracking_policy v = Fixed);
    _ ← assert_ (tracking_policy head = Head);
    if decide (¬ overlaps (extent v) (extent head)) then Some (set_policy Frozen v, Ok None)
    else
      '(v, m) ← apply_block_projection c (extent v) v GraphMutation_default;
      '(v, d) ← finish_mutation m ts v;
      Some (v, Ok d).

(** * Committed VSPC transitions *)

Record VspcProjectionMetadata := MkVspcProjectionMetadata {
  md_blue_merge_set : list BlockHash;
  md_red_merge_set : list BlockHash
}.

Definition metadata_from (b : GraphBlock) : VspcProjectionMetadata :=
  MkVspcProjectionMetadata (blue_merge_set b) (red_merge_set b).

Definition vspc_remove_step (s : gmap BlockHash GraphBlock * GraphMutation) (h : BlockHash) :=
  match s.1 !! h with
  | Some b => (<[h := set_color Gray (set_is_in_vspc false b)]> s.1,
               capture_color h (color b) (capture_membership h (is_in_vspc b) s.2))
  | None => s
  end.

Definition vspc_add_step (s : gmap BlockHash GraphBlock * GraphMutation) (h : BlockHash) :=
  match s.1 !! h with
  | Some b => (<[h := set_is_in_vspc true b]> s.1, capture_membership h (is_in_vspc b) s.2)
  | None => s
  end.

Definition vspc_color_step (c : BlockColor) (s : gmap BlockHash GraphBlock * GraphMutation)
    (h : BlockHash) :=
  match s.1 !! h with
  | Some b => (<[h := set_color c b]> s.1, capture_color h (color b) s.2)
  | None => s
  end.

Definition vspc_metadata_step (s : gmap BlockHash GraphBlock * GraphMutation)
    (md : VspcProjectionMetadata) :=
  foldl (vspc_color_step Red) (foldl (vspc_color_step Blue) s (md_blue_merge_set md))
    (md_red_merge_set md).

Definition vspc_level_step (s : gmap N StoredLevel * GraphMutation) (snapshot : LevelCommitted) :=
  match s.1 !! lc_level snapshot with
  | Some stored =>
    (<[lc_level snapshot := MkStoredLevel
          (MkLevel (size_ (value stored)) (lc_daa_score snapshot)) (usage_count stored)]> s.1,
     capture_level_value (lc_level snapshot) (value stored) s.2)
  | None => s
  end.

Definition apply_vspc_projection (c : VspcCommitted) (added_metadata : list VspcProjectionMetadata)
    (ts : N) (v : GraphView) : option (GraphView * option GraphDelta) :=
  let s := (blocks v, GraphMutation_default) in
  let s := foldl vspc_remove_step s (vc_removed c) in
  let s := foldl vspc_add_step s (vc_added c) in
  let '(bs, m) := foldl vspc_metadata_step s added_metadata in
  let '(ls, m) := foldl vspc_level_step (levels v, m) (vc_level_snapshots c) in
  finish_mutation m ts (set_levels ls (set_blocks bs (block_hashes_by_level v) v)).

Definition apply_head_vspc_committed (c : VspcCommitted) (ts : N) (v : GraphView) :
    option (GraphView * Result (option GraphDelta) GraphViewUpdateError) :=
  if decide (tracking_policy v = Frozen) then Some (v, Err UpdateFrozen)
  else
    _ ← assert_ (tracking_policy v = Head);
    let added_metadata := omap (λ h, metadata_from <$> blocks v !! h) (vc_added c) in
    '(v, d) ← apply_vspc_projection c added_metadata ts v;
    Some (v, Ok d).

Definition apply_fixed_vspc_committed (c : VspcCommitted) (head : GraphView) (ts : N)
    (v : GraphView) : option (GraphView * Result (option GraphDelta) GraphViewUpdateError) :=
  if decide (tracking_policy v = Frozen) then Some (v, Err UpdateFrozen)
  else
    _ ← assert_ (tracking_policy v = Fixed);
    _ ← assert_ (tracking_policy head = Head);
    if decide (¬ overlaps (extent v) (extent head)) then Some (set_policy Frozen v, Ok None)
    else
      match mapM (λ h, metadata_from <$> union (blocks v !! h) (blocks head !! h))
              (vc_added c) with
      | None => Some (set_policy Frozen v, Ok None)
      | Some added_metadata =>
        '(v, d) ← apply_vspc_projection c added_metadata ts v;
        Some (v, Ok d)
      end.

(** * Subview extraction *)

Definition insert_source_level (v : GraphView) (target : gmap N StoredLevel) (l : N) :
    option (gmap N StoredLevel) :=
  match target !! l with
  | Some _ => Some target
  | None => stored ← levels v !! l; Some (<[l := MkStoredLevel (value stored) 0]> target)
  end.

Definition select_block_step (v : GraphView) (bs : gmap BlockHash GraphBlock) (h : BlockHash) :
    option (gmap BlockHash GraphBlock) :=
  b ← blocks v !! h; Some (<[h := b]> bs).

Definition select_edge_step (v : GraphView) (es : gmap EdgeId GraphEdge) (id : EdgeId) :
    option (gmap EdgeId GraphEdge) :=
  e ← edges v !! id; Some (<[id := e]> es).

Definition select_subview_graph (v : GraphView) (ext : LevelExtent) :
    option (gmap BlockHash GraphBlock * gmap EdgeId GraphEdge) :=
  let hashes :=
    btree_to_list (filter (λ '(l, _), contains_level ext l) (block_hashes_by_level v))
      ≫= λ '(_, hs), elements hs in
  bs ← fold_m (select_block_step v) ∅ hashes;
  let ids :=
    btree_to_list (filter (λ '(cl, _), low_level ext ≤ cl) (edge_ids_by_span v))
      ≫= λ '(_, ps), btree_to_list (filter (λ '(pl, _), pl ≤ high_level ext) ps)
      ≫= λ '(_, ids), elements ids in
  es ← fold_m (select_edge_step v) ∅ ids;
  Some (bs, es).

Definition extract_subview (ext : LevelExtent) (v : GraphView) :
    option (Result GraphView GraphViewExtractError) :=
  if decide (¬ contains_extent (extent v) ext) then Some (Err OutsideSourceExtent)
  else
    '(bs, es) ← select_subview_graph v ext;
    ls ← fold_m (insert_source_level v) ∅ (seqN (low_level ext) (extent_depth ext));
    ls ← fold_m (λ ls e, ls ← insert_source_level v ls (parent_level e);
                         insert_source_level v ls (child_level e))
           ls (map_to_list es).*2;
    let x := MkGraphView (extent_depth ext) ext (current_revision_id v)
               (current_revision_timestamp_ms v) Frozen ls bs es
               (index_blocks_by_level bs) (index_edge_parents_by_child es)
               (index_edges_by_span es) in
    x ← fold_m (λ x l, increment_parent_usage l x) x
          ((λ '(_, e), parent_level e) <$> map_to_list es);
    Some (Ok x).
End view.
