(* ===== verification/ViewInvariant.v ===== *)
(** The representation invariant of a graph view: the three derived indexes and
    the per-level usage counters are functions of the block and edge maps.  A
    view that satisfies it is determined by its visible content. *)

From S2P Require Import Prelude Model Delta GraphView.

Section invariant.
Context {KH : KaspaHash}.
Implicit Types (v : GraphView) (bs : gmap BlockHash GraphBlock) (es : gmap EdgeId GraphEdge).

(** Number of retained edges whose parent end lies on [l]. *)
Definition edge_usage es (l : N) : N :=
  N.of_nat (size (filter (λ '(_, e), parent_level e = l) es)).

Definition span_get (ix : gmap N (gmap N (gset EdgeId))) (cl pl : N) : gset EdgeId :=
  mm_get (default ∅ (ix !! cl)) pl.
Definition span_wf (ix : gmap N (gmap N (gset EdgeId))) : Prop :=
  ∀ cl ps, ix !! cl = Some ps → ps ≠ ∅ ∧ mm_wf ps.

Definition block_index_ok (ix : gmap N (gset BlockHash)) bs : Prop :=
  mm_wf ix ∧ ∀ l h, h ∈ mm_get ix l ↔ ∃ b, bs !! h = Some b ∧ block_level b = l.
Definition parent_index_ok (ix : gmap BlockHash (gset BlockHash)) es : Prop :=
  mm_wf ix ∧ ∀ c p, p ∈ mm_get ix c ↔ is_Some (es !! MkEdgeId p c).
Definition span_index_ok (ix : gmap N (gmap N (gset EdgeId))) es : Prop :=
  span_wf ix ∧ ∀ cl pl id,
    id ∈ span_get ix cl pl ↔ ∃ e, es !! id = Some e ∧ child_level e = cl ∧ parent_level e = pl.

Definition blocks_keyed bs : Prop := ∀ h b, bs !! h = Some b → hash b = h.
Definition edges_keyed es : Prop := ∀ id e, es !! id = Some e → edge_id e = id.

Record indexed v : Prop := {
  ix_block_key : blocks_keyed (blocks v);
  ix_edge_key : edges_keyed (edges v);
  ix_blocks : block_index_ok (block_hashes_by_level v) (blocks v);
  ix_parents : parent_index_ok (edge_parents_by_child v) (edges v);
  ix_span : span_index_ok (edge_ids_by_span v) (edges v);
  ix_usage : ∀ l s, levels v !! l = Some s → usage_count s = edge_usage (edges v) l;
  ix_parent_level : ∀ id e, edges v !! id = Some e → is_Some (levels v !! parent_level e)
}.

(** The visible content of a view: what a client can observe. *)
Record Content := MkContent {
  ct_levels : gmap N Level;
  ct_blocks : gmap BlockHash GraphBlock;
  ct_edges : gmap EdgeId GraphEdge
}.
Definition content v : Content := MkContent (value <$> levels v) (blocks v) (edges v).

(** * Usage counting *)

Lemma edge_usage_insert_None es id e l :
  es !! id = None →
  edge_usage (<[id := e]> es) l = edge_usage es l + (if decide (parent_level e = l) then 1 else 0).
Proof.
  intros Hid. unfold edge_usage. case_decide as Hl.
  - rewrite map_filter_insert_True by done.
    rewrite map_size_insert_None by (apply map_lookup_filter_None_2; auto). lia.
  - rewrite map_filter_insert_False, delete_id by done. lia.
Qed.

Lemma edge_usage_delete es id e l :
  es !! id = Some e →
  edge_usage es l = edge_usage (delete id es) l + (if decide (parent_level e = l) then 1 else 0).
Proof.
  intros Hid. rewrite <- (insert_delete_id es id e) at 1 by done.
  apply edge_usage_insert_None, lookup_delete_eq.
Qed.

Lemma edge_usage_delete_None es id l :
  es !! id = None → edge_usage (delete id es) l = edge_usage es l.
Proof. intros. by rewrite delete_id. Qed.

Lemma edge_usage_zero es l :
  edge_usage es l = 0 ↔ ∀ id e, es !! id = Some e → parent_level e ≠ l.
Proof.
  unfold edge_usage. split.
  - intros Hs id e He Hl.
    assert (filter (λ '(_, e), parent_level e = l) es = ∅) as Hemp by (apply map_size_empty_inv; lia).
    assert (filter (λ '(_, e), parent_level e = l) es !! id = Some e) as Hf
      by (by apply map_lookup_filter_Some_2).
    by rewrite Hemp, lookup_empty in Hf.
  - intros Hf. destruct (decide (size (filter (λ '(_, e), parent_level e = l) es) = 0%nat))
      as [->|Hs]; [done|]. apply map_size_ne_0_lookup_1 in Hs as (id & e & He).
    apply map_lookup_filter_Some in He as [He Hl]. by destruct (Hf id e He).
Qed.

Lemma edge_usage_le_size es l : edge_usage es l ≤ N.of_nat (size es).
Proof.
  unfold edge_usage.
  assert (size (filter (λ '(_, e), parent_level e = l) es) ≤ size es)%nat; [|lia].
  apply map_subseteq_size, map_filter_subseteq.
Qed.

(** * Index maintenance *)

Lemma span_get_insert cl pl id ix cl' pl' :
  span_get (span_insert cl pl id ix) cl' pl'
  = if decide (cl = cl' ∧ pl = pl') then {[id]} ∪ span_get ix cl pl else span_get ix cl' pl'.
Proof.
  unfold span_get, span_insert. rewrite lookup_insert.
  destruct (decide (cl = cl')) as [<-|]; simpl.
  - rewrite mm_get_insert. repeat case_decide; naive_solver.
  - rewrite decide_False by naive_solver. done.
Qed.

Lemma span_get_remove cl pl id ix cl' pl' :
  span_get (span_remove cl pl id ix) cl' pl'
  = if decide (cl = cl' ∧ pl = pl') then span_get ix cl pl ∖ {[id]} else span_get ix cl' pl'.
Proof.
  unfold span_get, span_remove. destruct (ix !! cl) as [ps|] eqn:E.
  - assert (∀ q, mm_get (mm_remove pl id ps) q
                 = if decide (pl = q) then mm_get ps pl ∖ {[id]} else mm_get ps q) as Hr
      by (intros; apply mm_get_remove).
    destruct (decide (mm_remove pl id ps = ∅)) as [He|He].
    + rewrite lookup_delete. destruct (decide (cl = cl')) as [<-|]; simpl.
      * specialize (Hr pl'). rewrite He in Hr. rewrite Hr, E. simpl.
        repeat case_decide; naive_solver.
      * rewrite decide_False by naive_solver. done.
    + rewrite lookup_insert. destruct (decide (cl = cl')) as [<-|]; simpl.
      * rewrite Hr, E. simpl. repeat case_decide; naive_solver.
      * rewrite decide_False by naive_solver. done.
  - case_decide as Hc; [|done]. destruct Hc as [<- <-]. rewrite E. simpl.
    apply set_eq; intros x. rewrite elem_of_difference. unfold mm_get.
    rewrite lookup_empty. simpl. rewrite elem_of_empty. tauto.
Qed.

Lemma mm_insert_nonempty `{Countable K, Countable A} k (x : A) (m : gmap K (gset A)) :
  mm_insert k x m ≠ ∅.
Proof. apply insert_non_empty. Qed.

Lemma span_wf_insert cl pl id ix : span_wf ix → span_wf (span_insert cl pl id ix).
Proof.
  intros Hw c ps. unfold span_insert. rewrite lookup_insert. case_decide; [|apply Hw].
  intros [= <-]. split; [apply mm_insert_nonempty|]. apply mm_wf_insert.
  destruct (ix !! cl) as [qs|] eqn:E; simpl; [by eapply Hw|apply mm_wf_empty].
Qed.

Lemma span_wf_remove cl pl id ix : span_wf ix → span_wf (span_remove cl pl id ix).
Proof.
  intros Hw. unfold span_remove. destruct (ix !! cl) as [qs|] eqn:E; [|done].
  destruct (decide (mm_remove pl id qs = ∅)); intros c ps;
    [rewrite lookup_delete|rewrite lookup_insert]; case_decide; try done; try apply Hw.
  intros [= <-]. split; [done|]. apply mm_wf_remove. by eapply Hw.
Qed.

Lemma span_wf_empty : span_wf ∅.
Proof. intros ??. by rewrite lookup_empty. Qed.

Lemma block_index_insert ix bs h b :
  bs !! h = None → block_index_ok ix bs →
  block_index_ok (mm_insert (block_level b) h ix) (<[h := b]> bs).
Proof.
  intros Hh [Hw Hi]. split; [by apply mm_wf_insert|]. intros l k.
  rewrite mm_get_insert, lookup_insert.
  destruct (decide (block_level b = l)) as [<-|Hl];
    rewrite ?elem_of_union, ?elem_of_singleton, Hi; case_decide; naive_solver.
Qed.

Lemma block_index_delete ix bs h b :
  bs !! h = Some b → block_index_ok ix bs →
  block_index_ok (mm_remove (block_level b) h ix) (delete h bs).
Proof.
  intros Hh [Hw Hi]. split; [by apply mm_wf_remove|]. intros l k.
  rewrite mm_get_remove, lookup_delete.
  destruct (decide (block_level b = l)) as [<-|Hl];
    rewrite ?elem_of_difference, ?elem_of_singleton, Hi; case_decide; naive_solver.
Qed.

Lemma block_index_same_levels ix bs bs' :
  (∀ h, block_level <$> bs' !! h = block_level <$> bs !! h) →
  block_index_ok ix bs → block_index_ok ix bs'.
Proof.
  intros Hl [Hw Hi]. split; [done|]. intros l h. rewrite Hi. specialize (Hl h).
  destruct (bs !! h), (bs' !! h); naive_solver.
Qed.

Lemma block_index_empty : block_index_ok ∅ ∅.
Proof.
  split; [apply mm_wf_empty|]. intros l h. unfold mm_get. rewrite !lookup_empty. set_solver.
Qed.

Lemma parent_index_insert ix es id e :
  parent_index_ok ix es → parent_index_ok (mm_insert (child id) (parent id) ix) (<[id := e]> es).
Proof.
  intros [Hw Hi]. split; [by apply mm_wf_insert|]. intros c p.
  rewrite mm_get_insert, lookup_insert. destruct id as [ip ic]; simpl.
  destruct (decide (ic = c)) as [<-|Hl];
    rewrite ?elem_of_union, ?elem_of_singleton, Hi; case_decide; naive_solver.
Qed.

Lemma parent_index_delete ix es id :
  parent_index_ok ix es → parent_index_ok (mm_remove (child id) (parent id) ix) (delete id es).
Proof.
  intros [Hw Hi]. split; [by apply mm_wf_remove|]. intros c p.
  rewrite mm_get_remove, lookup_delete. destruct id as [ip ic]; simpl.
  destruct (decide (ic = c)) as [<-|Hl];
    rewrite ?elem_of_difference, ?elem_of_singleton, Hi; case_decide as Hd;
    rewrite ?is_Some_alt; naive_solver.
Qed.

Lemma parent_index_empty : parent_index_ok ∅ ∅.
Proof.
  split; [apply mm_wf_empty|]. intros l h. unfold mm_get. rewrite !lookup_empty. simpl.
  rewrite elem_of_empty, is_Some_alt. tauto.
Qed.

Lemma span_index_insert ix es id e :
  es !! id = None → span_index_ok ix es →
  span_index_ok (span_insert (child_level e) (parent_level e) id ix) (<[id := e]> es).
Proof.
  intros Hn [Hw Hi]. split; [by apply span_wf_insert|]. intros cl pl k.
  rewrite span_get_insert, lookup_insert.
  destruct (decide (child_level e = cl ∧ parent_level e = pl)) as [[<- <-]|Hl];
    rewrite ?elem_of_union, ?elem_of_singleton, Hi; case_decide; naive_solver.
Qed.

Lemma span_index_delete ix es id e :
  es !! id = Some e → span_index_ok ix es →
  span_index_ok (span_remove (child_level e) (parent_level e) id ix) (delete id es).
Proof.
  intros Hn [Hw Hi]. split; [by apply span_wf_remove|]. intros cl pl k.
  rewrite span_get_remove, lookup_delete.
  destruct (decide (child_level e = cl ∧ parent_level e = pl)) as [[<- <-]|Hl];
    rewrite ?elem_of_difference, ?elem_of_singleton, Hi; case_decide; naive_solver.
Qed.

Lemma span_index_empty : span_index_ok ∅ ∅.
Proof.
  split; [apply span_wf_empty|]. intros cl pl id. unfold span_get, mm_get.
  rewrite !lookup_empty. split; [intros Hin; by apply not_elem_of_empty in Hin|naive_solver].
Qed.

(** * An index is a function of what it indexes *)

Lemma block_index_unique ix1 ix2 bs :
  block_index_ok ix1 bs → block_index_ok ix2 bs → ix1 = ix2.
Proof.
  intros [W1 H1] [W2 H2]. apply mm_ext; [done..|]. intros l. apply set_eq; intros h.
  by rewrite H1, H2.
Qed.

Lemma parent_index_unique ix1 ix2 es :
  parent_index_ok ix1 es → parent_index_ok ix2 es → ix1 = ix2.
Proof.
  intros [W1 H1] [W2 H2]. apply mm_ext; [done..|]. intros l. apply set_eq; intros h.
  by rewrite H1, H2.
Qed.

Lemma span_lookup_nonempty ix cl ps :
  span_wf ix → ix !! cl = Some ps → ∃ pl id, id ∈ mm_get ps pl.
Proof.
  intros Hw E. destruct (Hw _ _ E) as [Hne Hps].
  apply map_choose in Hne as (pl & s & Hs). pose proof (Hps _ _ Hs) as Hs'.
  apply set_choose_L in Hs' as [id Hid]. exists pl, id. by rewrite (mm_lookup_get _ _ _ Hs).
Qed.

Lemma span_ext ix1 ix2 :
  span_wf ix1 → span_wf ix2 → (∀ cl pl, span_get ix1 cl pl = span_get ix2 cl pl) → ix1 = ix2.
Proof.
  intros W1 W2 E. apply map_eq; intros cl. unfold span_get in E. specialize (E cl).
  destruct (ix1 !! cl) as [p1|] eqn:E1, (ix2 !! cl) as [p2|] eqn:E2; simpl in E; [|..|done].
  - f_equal. apply mm_ext; [by eapply W1|by eapply W2|done].
  - destruct (span_lookup_nonempty _ _ _ W1 E1) as (pl & id & Hid). rewrite E in Hid.
    unfold mm_get in Hid. rewrite lookup_empty in Hid. set_solver.
  - destruct (span_lookup_nonempty _ _ _ W2 E2) as (pl & id & Hid). rewrite <- E in Hid.
    unfold mm_get in Hid. rewrite lookup_empty in Hid. set_solver.
Qed.

Lemma span_index_unique ix1 ix2 es :
  span_index_ok ix1 es → span_index_ok ix2 es → ix1 = ix2.
Proof.
  intros [W1 H1] [W2 H2]. apply span_ext; [done..|]. intros cl pl. apply set_eq; intros h.
  by rewrite H1, H2.
Qed.

(** Two indexed views with the same header fields and the same visible
    content are the same view. *)
Lemma indexed_determined v1 v2 :
  indexed v1 → indexed v2 → content v1 = content v2 →
  max_depth v1 = max_depth v2 → extent v1 = extent v2 →
  current_revision_id v1 = current_revision_id v2 →
  current_revision_timestamp_ms v1 = current_revision_timestamp_ms v2 →
  tracking_policy v1 = tracking_policy v2 →
  v1 = v2.
Proof.
  intros I1 I2. destruct v1 as [? ? ? ? ? ls1 bs1 es1 bi1 pi1 si1],
    v2 as [? ? ? ? ? ls2 bs2 es2 bi2 pi2 si2]; unfold content; simpl.
  intros [= Hls -> ->] -> -> -> -> ->. f_equal.
  - apply map_eq; intros l.
    assert (value <$> ls1 !! l = value <$> ls2 !! l) as Hl by (rewrite <- !lookup_fmap; congruence).
    pose proof (ix_usage _ I1 l) as U1. pose proof (ix_usage _ I2 l) as U2. simpl in *.
    destruct (ls1 !! l) as [[x1 n1]|], (ls2 !! l) as [[x2 n2]|]; simplify_eq/=; [|done].
    specialize (U1 _ eq_refl). specialize (U2 _ eq_refl). simpl in *. congruence.
  - eapply block_index_unique; [apply I1|apply I2].
  - eapply parent_index_unique; [apply I1|apply I2].
  - eapply span_index_unique; [apply I1|apply I2].
Qed.
End invariant.
