(* ===== verification/ApplyDelta.v ===== *)
(** Applying a canonical delta ([GraphView::apply_delta]).  The detailed
    operation, with its index and usage maintenance and its unspecified hash-map
    iteration orders, refines an order-free update of the visible content. *)

From S2P Require Import Prelude Model Delta GraphView ViewInvariant.

Section apply_delta.
Context {KH : KaspaHash}.
Implicit Types (v : GraphView) (d : GraphDelta).
Implicit Types (bs : gmap BlockHash GraphBlock) (es : gmap EdgeId GraphEdge).
Implicit Types (ls : gmap N StoredLevel).

(** * Abstract specification *)

Definition level_targets (cs : list LevelChange) : gmap N (option Level) :=
  list_to_map ((λ c, (level c, after c)) <$> cs).

Definition put_is_in_vspc (c : option (FieldChange bool)) (b : GraphBlock) : GraphBlock :=
  from_option (λ c, set_is_in_vspc (field_after c) b) b c.
Definition put_color (c : option (FieldChange BlockColor)) (b : GraphBlock) : GraphBlock :=
  from_option (λ c, set_color (field_after c) b) b c.

Definition put_fields d bs : gmap BlockHash GraphBlock :=
  map_imap (λ h b, Some (put_color (color_changes d !! h)
                           (put_is_in_vspc (is_in_vspc_changes d !! h) b))) bs.

Definition abs_apply d (c : Content) : Content :=
  MkContent (override (ct_levels c) (level_targets (level_changes d)))
    (put_fields d (override (ct_blocks c) (block_changes d)))
    (override (ct_edges c) (edge_changes d)).

(** What the operation relies on of a delta and of the view it meets. *)
Record applicable d v : Prop := {
  ap_wf : delta_wf d;
  ap_block_key : ∀ h b, block_changes d !! h = Some (Some b) → hash b = h;
  ap_edge_key : ∀ id e, edge_changes d !! id = Some (Some e) → edge_id e = id;
  ap_levels : ∀ id e, ct_edges (abs_apply d (content v)) !! id = Some e →
    is_Some (ct_levels (abs_apply d (content v)) !! parent_level e);
  ap_usage : ∀ l, edge_usage (ct_edges (abs_apply d (content v))) l ≤ U64_MAX
}.

(** * Counting occurrences in the usage lists *)

Definition occ (l : N) (xs : list N) : N := N.of_nat (length (filter (l =.) xs)).

Lemma occ_nil l : occ l [] = 0.
Proof. done. Qed.
Lemma occ_cons l x xs : occ l (x :: xs) = (if decide (x = l) then 1 else 0) + occ l xs.
Proof.
  unfold occ. destruct (decide (x = l)) as [->|].
  - rewrite filter_cons_True by done. simpl length. lia.
  - rewrite filter_cons_False by done. lia.
Qed.
Lemma occ_app l xs ys : occ l (xs ++ ys) = occ l xs + occ l ys.
Proof.
  induction xs as [|x xs IH]; simpl; [by rewrite occ_nil|]. rewrite !occ_cons, IH. lia.
Qed.
Lemma occ_pos l xs : 0 < occ l xs ↔ l ∈ xs.
Proof.
  induction xs as [|x xs IH]; [rewrite occ_nil; split; [lia|set_solver]|].
  rewrite occ_cons, elem_of_cons, <- IH. case_decide as Hx; split; intros Hl.
  - by left.
  - lia.
  - right; lia.
  - destruct Hl as [->|?]; [done|lia].
Qed.

(** * Levels and usage lists *)

Definition usage_at ls (l : N) : N := from_option usage_count 0 (ls !! l).

Lemma apply_level_change_value ls c :
  value <$> apply_level_change ls c = override (value <$> ls) {[level c := after c]}.
Proof.
  apply map_eq; intros l. rewrite lookup_override, lookup_fmap, lookup_singleton.
  unfold apply_level_change.
  destruct (after c) as [x|], (ls !! level c) as [s|] eqn:E;
    rewrite ?lookup_insert, ?lookup_delete; case_decide; subst; simpl;
    rewrite ?lookup_fmap; done.
Qed.

Lemma level_targets_cons c cs :
  level c ∉ (level <$> cs) → level_targets cs ∪ {[level c := after c]} = level_targets (c :: cs).
Proof.
  intros Hc. unfold level_targets; simpl. symmetry. apply insert_union_singleton_r.
  apply not_elem_of_list_to_map_1. by rewrite <- list_fmap_compose.
Qed.

Lemma apply_level_changes_value cs ls :
  NoDup (level <$> cs) →
  value <$> foldl apply_level_change ls cs = override (value <$> ls) (level_targets cs).
Proof.
  revert ls; induction cs as [|c cs IH]; intros ls Hn; simpl.
  - unfold level_targets; simpl. by rewrite override_empty.
  - apply NoDup_cons in Hn as [Hc Hn]. rewrite IH, apply_level_change_value by done.
    by rewrite override_override, level_targets_cons.
Qed.

Lemma apply_level_change_usage ls c l :
  is_Some (apply_level_change ls c !! l) → usage_at (apply_level_change ls c) l = usage_at ls l.
Proof.
  unfold usage_at, apply_level_change.
  destruct (after c) as [x|], (ls !! level c) as [s|] eqn:E;
    rewrite ?lookup_insert, ?lookup_delete; case_decide; subst; rewrite ?E; simpl; try done;
    intros [? ?]; done.
Qed.

Lemma apply_level_change_other ls c l :
  level c ≠ l → apply_level_change ls c !! l = ls !! l.
Proof.
  intros. unfold apply_level_change.
  destruct (after c), (ls !! level c); rewrite ?lookup_insert_ne, ?lookup_delete_ne; done.
Qed.

Lemma apply_level_changes_other cs ls l :
  l ∉ (level <$> cs) → foldl apply_level_change ls cs !! l = ls !! l.
Proof.
  revert ls; induction cs as [|c cs IH]; intros ls; simpl; [done|].
  intros [Hc Hcs]%not_elem_of_cons. rewrite IH by done. by apply apply_level_change_other.
Qed.

Lemma apply_level_changes_usage cs ls l :
  NoDup (level <$> cs) → is_Some (foldl apply_level_change ls cs !! l) →
  usage_at (foldl apply_level_change ls cs) l = usage_at ls l.
Proof.
  revert ls; induction cs as [|c cs IH]; intros ls; simpl; [done|].
  intros [Hc Hn]%NoDup_cons Hs. rewrite IH by done.
  destruct (decide (level c = l)) as [<-|Hl].
  - rewrite apply_level_changes_other in Hs by done. by apply apply_level_change_usage.
  - unfold usage_at. by rewrite apply_level_change_other.
Qed.

(** What a loop over a usage list leaves: same levels, moved counters. *)
Definition levels_with_usage ls ls' (f : N → N → N) : Prop :=
  ∀ l, ls' !! l = (λ s, MkStoredLevel (value s) (f l (usage_count s))) <$> ls !! l.

Lemma usage_decrements_spec xs ls :
  (∀ l s, ls !! l = Some s → occ l xs ≤ usage_count s) →
  ∃ ls', fold_m apply_usage_decrement ls xs = Some ls' ∧
         levels_with_usage ls ls' (λ l n, n - occ l xs).
Proof.
  revert ls; induction xs as [|x xs IH]; intros ls Hle; simpl.
  - exists ls; split; [done|]. intros l. destruct (ls !! l) as [[]|]; simpl; [|done].
    by rewrite occ_nil, N.sub_0_r.
  - destruct (ls !! x) as [s|] eqn:E.
    + pose proof (Hle _ _ E) as Hx. rewrite occ_cons, decide_True in Hx by done.
      assert (apply_usage_decrement ls x
              = Some (<[x := MkStoredLevel (value s) (usage_count s - 1)]> ls)) as ->
        by (unfold apply_usage_decrement; by rewrite E, checked_sub_Some by lia). simpl.
      destruct (IH (<[x := MkStoredLevel (value s) (usage_count s - 1)]> ls)) as (ls' & -> & H').
      { intros l t. rewrite lookup_insert. case_decide as Hl; subst.
        - intros [= <-]; simpl. lia.
        - intros Ht%Hle. rewrite occ_cons in Ht. lia. }
      exists ls'; split; [done|]. intros l. rewrite H', lookup_insert, occ_cons.
      destruct (decide (x = l)) as [<-|Hl]; [rewrite E; simpl; do 2 f_equal; lia|].
      by rewrite N.add_0_l.
    + assert (apply_usage_decrement ls x = Some ls) as ->
        by (unfold apply_usage_decrement; by rewrite E). simpl.
      destruct (IH ls) as (ls' & -> & H').
      { intros l t Ht. pose proof (Hle _ _ Ht) as Hl. rewrite occ_cons in Hl. lia. }
      exists ls'; split; [done|]. intros l. rewrite H', occ_cons.
      destruct (decide (x = l)) as [<-|Hl]; [by rewrite E|]. by rewrite N.add_0_l.
Qed.

Lemma usage_increments_spec xs ls :
  (∀ l, l ∈ xs → is_Some (ls !! l)) →
  (∀ l s, ls !! l = Some s → usage_count s + occ l xs ≤ U64_MAX) →
  ∃ ls', fold_m apply_usage_increment ls xs = Some ls' ∧
         levels_with_usage ls ls' (λ l n, n + occ l xs).
Proof.
  revert ls; induction xs as [|x xs IH]; intros ls Hin Hle; simpl.
  - exists ls; split; [done|]. intros l. destruct (ls !! l) as [[]|]; simpl; [|done].
    by rewrite occ_nil, N.add_0_r.
  - destruct (Hin x) as [s E]; [left|].
    pose proof (Hle _ _ E) as Hx. rewrite occ_cons, decide_True in Hx by done.
    assert (apply_usage_increment ls x
            = Some (<[x := MkStoredLevel (value s) (usage_count s + 1)]> ls)) as ->
      by (unfold apply_usage_increment; rewrite E; simpl; by rewrite checked_add_Some by lia).
    simpl.
    destruct (IH (<[x := MkStoredLevel (value s) (usage_count s + 1)]> ls)) as (ls' & -> & H').
    { intros l Hl. rewrite lookup_insert. case_decide; [eauto|]. apply Hin. by right. }
    { intros l t. rewrite lookup_insert. case_decide as Hl; subst.
      - intros [= <-]; simpl. lia.
      - intros Ht%Hle. rewrite occ_cons in Ht. lia. }
    exists ls'; split; [done|]. intros l. rewrite H', lookup_insert, occ_cons.
    destruct (decide (x = l)) as [<-|Hl]; [rewrite E; simpl; do 2 f_equal; lia|].
    by rewrite N.add_0_l.
Qed.
(** * The block loop *)

Lemma override_insert {K A} `{Countable K} (m : gmap K A) (ch : gmap K (option A)) k o :
  ch !! k = None →
  override m (<[k := o]> ch)
  = override (match o with Some x => <[k := x]> m | None => delete k m end) ch.
Proof.
  intros Hk. apply map_eq; intros j. rewrite !lookup_override, lookup_insert.
  case_decide as Hj.
  - subst j. rewrite Hk. simpl. destruct o; by rewrite ?lookup_insert_eq, ?lookup_delete_eq.
  - destruct o; rewrite ?lookup_insert_ne, ?lookup_delete_ne; done.
Qed.

Lemma apply_block_change_spec v h o :
  block_index_ok (block_hashes_by_level v) (blocks v) →
  ∃ bs ix, apply_block_change v (h, o) = set_blocks bs ix v ∧ block_index_ok ix bs ∧
    bs = match o with Some b => <[h := b]> (blocks v) | None => delete h (blocks v) end.
Proof.
  intros Hok. unfold apply_block_change; destruct o as [b|]; simpl.
  - unfold apply_block_upsert. eexists _, _; split; [done|]. split; [|done].
    destruct (blocks v !! h) as [p|] eqn:E; [|by apply block_index_insert].
    rewrite <- (insert_delete_eq (blocks v)). case_decide as Hl.
    + apply block_index_insert; [apply lookup_delete_eq|]. by apply block_index_delete.
    + destruct Hok as [Hw Hi].
      assert (mm_insert (block_level b) h (block_hashes_by_level v)
              = mm_insert (block_level b) h
                  (mm_remove (block_level p) h (block_hashes_by_level v))) as ->.
      { apply mm_ext; [by apply mm_wf_insert|by apply mm_wf_insert, mm_wf_remove|].
        intros k. rewrite !mm_get_insert, !mm_get_remove, Hl.
        case_decide; subst; [|done]. rewrite decide_True by done. apply set_eq; intros x.
        rewrite !elem_of_union, elem_of_difference, elem_of_singleton.
        destruct (decide (x = h)); tauto. }
      apply block_index_insert; [apply lookup_delete_eq|]. by apply block_index_delete.
  - unfold apply_block_removal. destruct (blocks v !! h) as [b|] eqn:E.
    + eexists _, _; split; [done|]. split; [by apply block_index_delete|done].
    + exists (blocks v), (block_hashes_by_level v). destruct v; simpl in *.
      by rewrite delete_id.
Qed.

Lemma apply_block_changes_spec l v :
  NoDup l.*1 → block_index_ok (block_hashes_by_level v) (blocks v) →
  ∃ ix, foldl apply_block_change v l = set_blocks (override (blocks v) (list_to_map l)) ix v ∧
        block_index_ok ix (override (blocks v) (list_to_map l)).
Proof.
  revert v; induction l as [|[h o] l IH]; intros v Hn Hok; simpl.
  - exists (block_hashes_by_level v). rewrite override_empty. by destruct v.
  - apply NoDup_cons in Hn as [Hh Hn].
    destruct (apply_block_change_spec v h o Hok) as (bs & ix & -> & Hok' & ->).
    rewrite override_insert by (by apply not_elem_of_list_to_map_1).
    by destruct (IH (set_blocks _ ix v) Hn Hok') as (ix' & -> & ?); eauto.
Qed.

(** * The edge loop *)

(** The edge maps and indexes of a view, apart from everything else. *)
Definition put_edges es pi si v : GraphView := set_edge_index pi si (set_edges es v).

Record edges_ok es pi si : Prop := {
  eo_key : edges_keyed es;
  eo_parents : parent_index_ok pi es;
  eo_span : span_index_ok si es
}.

Lemma edges_ok_delete es pi si id e :
  es !! id = Some e → edges_ok es pi si →
  edges_ok (delete id es) (mm_remove (child id) (parent id) pi)
    (span_remove (child_level e) (parent_level e) id si).
Proof.
  intros He [Hk Hp Hs]. split.
  - intros k x. rewrite lookup_delete. case_decide; naive_solver.
  - by apply parent_index_delete.
  - by apply span_index_delete.
Qed.

Lemma edges_ok_insert es pi si id e :
  es !! id = None → edge_id e = id → edges_ok es pi si →
  edges_ok (<[id := e]> es) (mm_insert (child id) (parent id) pi)
    (span_insert (child_level e) (parent_level e) id si).
Proof.
  intros He Hid [Hk Hp Hs]. split.
  - intros k x. rewrite lookup_insert. case_decide; naive_solver.
  - by apply parent_index_insert.
  - by apply span_index_insert.
Qed.

Definition opt_occ (l : N) (o : option GraphEdge) : N :=
  from_option (λ e, if decide (parent_level e = l) then 1 else 0) 0 o.

Lemma apply_edge_change_spec v decs incs id o :
  edges_ok (edges v) (edge_parents_by_child v) (edge_ids_by_span v) →
  (∀ e, o = Some e → edge_id e = id) →
  ∃ pi si D I,
    let es' := match o with Some e => <[id := e]> (edges v) | None => delete id (edges v) end in
    apply_edge_change (v, decs, incs) (id, o) = (put_edges es' pi si v, decs ++ D, incs ++ I) ∧
    edges_ok es' pi si ∧
    (∀ l, occ l D ≤ opt_occ l (edges v !! id)) ∧
    (∀ l, l ∈ I → ∃ e, o = Some e ∧ parent_level e = l) ∧
    (∀ l, edge_usage es' l + occ l D = edge_usage (edges v) l + occ l I).
Proof.
  intros Hok Hkey. unfold apply_edge_change.
  destruct (decide (edges v !! id = o)) as [Heq|Hne].
  - exists (edge_parents_by_child v), (edge_ids_by_span v), [], []; simpl.
    rewrite !app_nil_r.
    assert (match o with Some e => <[id := e]> (edges v) | None => delete id (edges v) end
            = edges v) as -> by (destruct o; [by apply insert_id|by apply delete_id]).
    split; [by destruct v|]. split; [done|]. split; [intros; rewrite occ_nil; lia|].
    split; [intros l Hl; by apply not_elem_of_nil in Hl|done].
  - destruct (edges v !! id) as [p|] eqn:Ep.
    + pose proof (eo_key _ _ _ Hok _ _ Ep) as Hp.
      pose proof (edges_ok_delete _ _ _ _ _ Ep Hok) as Hd.
      destruct o as [e|].
      * pose proof (Hkey e eq_refl) as He. unfold index_edge, unindex_edge; simpl.
        rewrite He, Hp. eexists _, _, [parent_level p], [parent_level e]; simpl.
        split; [done|].
        rewrite <- insert_delete_eq. split; [apply edges_ok_insert; [apply lookup_delete_eq|done..]|].
        split; [intros; rewrite occ_cons, occ_nil; lia|].
        split; [intros l ->%list_elem_of_singleton; eauto|].
        intros l. rewrite edge_usage_insert_None by apply lookup_delete_eq.
        rewrite (edge_usage_delete _ _ _ l Ep), !occ_cons, !occ_nil. lia.
      * unfold unindex_edge; simpl. rewrite Hp.
        eexists _, _, [parent_level p], []; simpl. rewrite app_nil_r. split; [done|].
        split; [done|]. split; [intros; rewrite occ_cons, occ_nil; lia|].
        split; [intros l Hl; by apply not_elem_of_nil in Hl|].
        intros l. rewrite (edge_usage_delete _ _ _ l Ep), !occ_cons, !occ_nil. lia.
    + destruct o as [e|]; [|done].
      pose proof (Hkey e eq_refl) as He. unfold index_edge; simpl. rewrite He.
      eexists _, _, [], [parent_level e]; simpl. rewrite app_nil_r. split; [done|].
      split; [by apply edges_ok_insert|]. split; [intros; rewrite occ_nil; lia|].
      split; [intros l ->%list_elem_of_singleton; eauto|].
      intros l. rewrite edge_usage_insert_None by done. rewrite !occ_cons, !occ_nil. lia.
Qed.

(** Usage of a level among the edges under the given keys. *)
Definition key_occ (l : N) es (ks : list EdgeId) : N :=
  foldr (λ k n, opt_occ l (es !! k) + n) 0 ks.

Lemma key_occ_ext l es es' ks :
  (∀ k, k ∈ ks → es !! k = es' !! k) → key_occ l es ks = key_occ l es' ks.
Proof.
  induction ks as [|k ks IH]; intros Hk; simpl; [done|].
  rewrite (Hk k), IH; [done| |left]. intros; apply Hk; by right.
Qed.

Lemma key_occ_le_usage l es ks : NoDup ks → key_occ l es ks ≤ edge_usage es l.
Proof.
  revert es; induction ks as [|k ks IH]; intros es; simpl; [lia|].
  intros [Hk Hn]%NoDup_cons. specialize (IH (delete k es) Hn).
  rewrite (key_occ_ext l _ es) in IH.
  - destruct (es !! k) as [e|] eqn:E; simpl.
    + rewrite (edge_usage_delete _ _ _ l E). lia.
    + by rewrite edge_usage_delete_None in IH.
  - intros j Hj. apply lookup_delete_ne. naive_solver.
Qed.

Lemma apply_edge_changes_spec cs v decs incs :
  NoDup cs.*1 →
  edges_ok (edges v) (edge_parents_by_child v) (edge_ids_by_span v) →
  (∀ id e, (id, Some e) ∈ cs → edge_id e = id) →
  ∃ pi si D I,
    let es' := override (edges v) (list_to_map cs) in
    foldl apply_edge_change (v, decs, incs) cs = (put_edges es' pi si v, decs ++ D, incs ++ I) ∧
    edges_ok es' pi si ∧
    (∀ l, occ l D ≤ key_occ l (edges v) cs.*1) ∧
    (∀ l, l ∈ I → ∃ id e, es' !! id = Some e ∧ parent_level e = l) ∧
    (∀ l, edge_usage es' l + occ l D = edge_usage (edges v) l + occ l I).
Proof.
  revert v decs incs; induction cs as [|[id o] cs IH]; intros v decs incs Hn Hok Hkey.
  - exists (edge_parents_by_child v), (edge_ids_by_span v), [], []. cbn zeta; simpl.
    rewrite override_empty, !app_nil_r. split; [by destruct v|]. split; [done|].
    split; [intros; rewrite occ_nil; lia|].
    split; [intros l Hl; by apply not_elem_of_nil in Hl|done].
  - cbn [fmap list_fmap fst] in Hn. apply NoDup_cons in Hn as [Hid Hn].
    destruct (apply_edge_change_spec v decs incs id o Hok) as (pi & si & D & I & Hs & Hok' & HD & HI & Hb).
    { intros e ->. apply Hkey. left. }
    cbn [foldl]. rewrite Hs.
    set (es1 := match o with Some e => <[id := e]> (edges v) | None => delete id (edges v) end) in *.
    destruct (IH (put_edges es1 pi si v) (decs ++ D) (incs ++ I) Hn Hok')
      as (pi' & si' & D' & I' & -> & Hok'' & HD' & HI' & Hb').
    { intros k e Hk. apply Hkey. by right. }
    assert (list_to_map (M := gmap EdgeId _) cs !! id = None) as Hnone
      by (by apply not_elem_of_list_to_map_1).
    cbn zeta in *. change (edges (put_edges es1 pi si v)) with es1 in *.
    simpl list_to_map. rewrite (override_insert _ _ _ _ Hnone). fold es1.
    exists pi', si', (D ++ D'), (I ++ I'). rewrite !app_assoc. split; [done|]. split; [done|].
    split; [|split].
    + intros l. rewrite occ_app. specialize (HD l). specialize (HD' l).
      change (key_occ l (edges v) ((id, o) :: cs).*1)
        with (opt_occ l (edges v !! id) + key_occ l (edges v) cs.*1).
      rewrite (key_occ_ext l es1 (edges v)) in HD'; [lia|].
      intros k Hk. unfold es1. destruct o; [apply lookup_insert_ne|apply lookup_delete_ne];
        naive_solver.
    + intros l [Hl|Hl]%elem_of_app; [|by apply HI'].
      destruct (HI l Hl) as (e & -> & He). exists id, e. split; [|done].
      rewrite lookup_override, Hnone. unfold es1. simpl. apply lookup_insert_eq.
    + intros l. rewrite !occ_app. specialize (Hb l). specialize (Hb' l). cbn zeta in *. lia.
Qed.

(** * Field loops *)

Lemma apply_vspc_changes_lookup cs bs h :
  NoDup cs.*1 →
  foldl apply_vspc_change bs cs !! h
  = put_is_in_vspc (list_to_map (M := gmap BlockHash _) cs !! h) <$> bs !! h.
Proof.
  revert bs; induction cs as [|[k c] cs IH]; intros bs Hn; simpl.
  - rewrite lookup_empty. by destruct (bs !! h).
  - apply NoDup_cons in Hn as [Hk Hn]. rewrite IH by done. unfold apply_vspc_change; simpl.
    rewrite lookup_alter, lookup_insert. case_decide as Hkh; [subst k|done].
    rewrite (not_elem_of_list_to_map_1 (M := gmap BlockHash) _ _ Hk).
    by destruct (bs !! h).
Qed.

Lemma apply_color_changes_lookup cs bs h :
  NoDup cs.*1 →
  foldl apply_color_change bs cs !! h
  = put_color (list_to_map (M := gmap BlockHash _) cs !! h) <$> bs !! h.
Proof.
  revert bs; induction cs as [|[k c] cs IH]; intros bs Hn; simpl.
  - rewrite lookup_empty. by destruct (bs !! h).
  - apply NoDup_cons in Hn as [Hk Hn]. rewrite IH by done. unfold apply_color_change; simpl.
    rewrite lookup_alter, lookup_insert. case_decide as Hkh; [subst k|done].
    rewrite (not_elem_of_list_to_map_1 (M := gmap BlockHash) _ _ Hk).
    by destruct (bs !! h).
Qed.

Lemma lookup_put_fields d bs h :
  put_fields d bs !! h
  = (λ b, put_color (color_changes d !! h) (put_is_in_vspc (is_in_vspc_changes d !! h) b))
      <$> bs !! h.
Proof. unfold put_fields. rewrite map_lookup_imap. by destruct (bs !! h). Qed.

(** A permutation of a map's listing lists the same map. *)
Lemma listing_spec `{Countable K} {A} (m : gmap K A) l :
  l ≡ₚ map_to_list m → NoDup l.*1 ∧ list_to_map l = m.
Proof.
  intros Hl. assert (NoDup l.*1) as Hn by (rewrite Hl; apply NoDup_fst_map_to_list).
  split; [done|]. rewrite <- (list_to_map_to_list m). by apply list_to_map_proper.
Qed.

Lemma field_loops_spec d bs ov oc :
  ov ≡ₚ map_to_list (is_in_vspc_changes d) → oc ≡ₚ map_to_list (color_changes d) →
  foldl apply_color_change (foldl apply_vspc_change bs ov) oc = put_fields d bs.
Proof.
  intros [Hv Ev]%listing_spec [Hc Ec]%listing_spec. apply map_eq; intros h.
  rewrite apply_color_changes_lookup, apply_vspc_changes_lookup, lookup_put_fields, Ev, Ec by done.
  by destruct (bs !! h).
Qed.

Lemma put_fields_level d bs h : block_level <$> put_fields d bs !! h = block_level <$> bs !! h.
Proof.
  rewrite lookup_put_fields. destruct (bs !! h) as [b|]; simpl; [|done].
  unfold put_color, put_is_in_vspc.
  by destruct (color_changes d !! h), (is_in_vspc_changes d !! h).
Qed.

Lemma put_fields_keyed d bs : blocks_keyed bs → blocks_keyed (put_fields d bs).
Proof.
  intros Hk h b. rewrite lookup_put_fields. destruct (bs !! h) as [b'|] eqn:E; [|done].
  intros [= <-]. apply Hk in E. unfold put_color, put_is_in_vspc.
  by destruct (color_changes d !! h), (is_in_vspc_changes d !! h).
Qed.

Lemma override_keyed bs (ch : gmap BlockHash (option GraphBlock)) :
  blocks_keyed bs → (∀ h b, ch !! h = Some (Some b) → hash b = h) → blocks_keyed (override bs ch).
Proof.
  intros Hk Hc h b. rewrite lookup_override. destruct (ch !! h) as [o|] eqn:E; simpl; [|apply Hk].
  intros ->. by apply Hc.
Qed.

(** * Refinement *)

Lemma StronglySorted_lt_NoDup (xs : list N) : StronglySorted N.lt xs → NoDup xs.
Proof.
  induction 1 as [|x xs _ IH Hx]; constructor; [|done].
  intros Hin. rewrite Forall_forall in Hx. specialize (Hx x Hin). lia.
Qed.

(** The nominal extent after a delta: recomputed on Head views only. *)
Definition delta_extent d v : LevelExtent :=
  if decide (tracking_policy v = Head)
  then MkLevelExtent (N.max (saturating_sub (head_level d) (max_depth v - 1)) 1) (head_level d)
  else extent v.

(** The level and usage loops, put together with the balance of the edge loop. *)
Lemma usage_loops_spec ls es es' cs D I :
  NoDup (level <$> cs) →
  (∀ l s, ls !! l = Some s → usage_count s = edge_usage es l) →
  (∀ l, ls !! l = None → edge_usage es l = 0) →
  (∀ l, occ l D ≤ edge_usage es l) →
  (∀ l, edge_usage es' l + occ l D = edge_usage es l + occ l I) →
  (∀ l, l ∈ I → is_Some (override (value <$> ls) (level_targets cs) !! l)) →
  (∀ l, edge_usage es' l ≤ U64_MAX) →
  ∃ ls1 ls2,
    fold_m apply_usage_decrement (foldl apply_level_change ls cs) D = Some ls1 ∧
    fold_m apply_usage_increment ls1 I = Some ls2 ∧
    value <$> ls2 = override (value <$> ls) (level_targets cs) ∧
    (∀ l s, ls2 !! l = Some s → usage_count s = edge_usage es' l).
Proof.
  intros Hn Hu Hz HD Hb HI Hmax.
  set (ls0 := foldl apply_level_change ls cs).
  assert (∀ l s, ls0 !! l = Some s → usage_count s = edge_usage es l) as Hu0.
  { intros l s Hs. assert (usage_at ls0 l = usage_at ls l) as Hua
      by (apply apply_level_changes_usage; [done|eauto]).
    unfold usage_at in Hua. rewrite Hs in Hua. simpl in Hua. rewrite Hua.
    destruct (ls !! l) as [s'|] eqn:E; simpl; [by apply Hu|by rewrite Hz]. }
  destruct (usage_decrements_spec D ls0) as (ls1 & E1 & H1).
  { intros l s Hs. rewrite (Hu0 _ _ Hs). apply HD. }
  assert (value <$> ls0 = override (value <$> ls) (level_targets cs)) as Hv0
    by (by apply apply_level_changes_value).
  destruct (usage_increments_spec I ls1) as (ls2 & E2 & H2).
  { intros l Hl. apply HI in Hl. rewrite <- Hv0, lookup_fmap in Hl. rewrite H1.
    destruct Hl as [x Hx]. destruct (ls0 !! l); [eauto|done]. }
  { intros l s. rewrite H1. destruct (ls0 !! l) as [s0|] eqn:E0; [|done]. intros [= <-]; simpl.
    rewrite (Hu0 _ _ E0). specialize (Hb l). specialize (HD l). specialize (Hmax l). lia. }
  exists ls1, ls2. split; [done|]. split; [done|]. split.
  - rewrite <- Hv0. apply map_eq; intros l. rewrite !lookup_fmap, H2, H1. by destruct (ls0 !! l).
  - intros l s. rewrite H2, H1. destruct (ls0 !! l) as [s0|] eqn:E0; [|done].
    intros [= <-]; simpl. rewrite (Hu0 _ _ E0). specialize (Hb l). specialize (HD l). lia.
Qed.

Lemma indexed_unused_level v l : indexed v → levels v !! l = None → edge_usage (edges v) l = 0.
Proof.
  intros Hi Hl. apply edge_usage_zero. intros id e He Hp.
  destruct (ix_parent_level _ Hi _ _ He) as [s Hs]. congruence.
Qed.

Lemma delta_extent_new d v :
  delta_wf d →
  LevelExtent_new (N.max (saturating_sub (head_level d) (max_depth v - 1)) 1) (head_level d)
  = Ok (MkLevelExtent (N.max (saturating_sub (head_level d) (max_depth v - 1)) 1) (head_level d)).
Proof. intros (_ & Hh & _). apply LevelExtent_new_wf; unfold saturating_sub; lia. Qed.

Lemma apply_delta_in_refines ob oe ov oc d v :
  ob ≡ₚ map_to_list (block_changes d) → oe ≡ₚ map_to_list (edge_changes d) →
  ov ≡ₚ map_to_list (is_in_vspc_changes d) → oc ≡ₚ map_to_list (color_changes d) →
  indexed v → tracking_policy v ≠ Frozen → current_revision_id v = from_revision_id d →
  applicable d v →
  ∃ v', apply_delta_in ob oe ov oc d v = Some (v', Ok tt) ∧ indexed v' ∧
    content v' = abs_apply d (content v) ∧ max_depth v' = max_depth v ∧
    tracking_policy v' = tracking_policy v ∧ extent v' = delta_extent d v ∧
    current_revision_id v' = to_revision_id d ∧
    current_revision_timestamp_ms v' = revision_timestamp_ms d.
Proof.
  intros [Nb Eb]%listing_spec He Hov Hoc Hi Hp Hr Ha.
  destruct (listing_spec _ _ He) as [Ne Ee].
  unfold apply_delta_in. rewrite decide_False by done. rewrite decide_False by (rewrite Hr; tauto).
  destruct (apply_block_changes_spec ob v Nb (ix_blocks _ Hi)) as (bi & -> & Hbi). rewrite Eb in *.
  set (v1 := set_blocks (override (blocks v) (block_changes d)) bi v).
  destruct (apply_edge_changes_spec oe v1 [] [] Ne) as (pi & si & D & I & -> & Hok & HD & HI & Hb).
  { split; apply Hi. }
  { intros id e Hin. apply (ap_edge_key _ _ Ha). rewrite He in Hin. by apply elem_of_map_to_list. }
  rewrite Ee in *. cbn zeta in *. simpl app.
  change (edges v1) with (edges v) in *.
  set (es' := override (edges v) (edge_changes d)) in *.
  destruct (usage_loops_spec (levels v) (edges v) es' (level_changes d) D I)
    as (ls1 & ls2 & E1 & E2 & Hv & Hu).
  { apply StronglySorted_lt_NoDup, Ha. }
  { apply Hi. }
  { intros l. by apply indexed_unused_level. }
  { intros l. etrans; [apply HD|]. by apply key_occ_le_usage. }
  { done. }
  { intros l Hl. destruct (HI l Hl) as (id & e & He' & <-). by apply (ap_levels _ _ Ha id e). }
  { apply (ap_usage _ _ Ha). }
  change (levels (put_edges es' pi si v1)) with (levels v). rewrite E1. simpl. rewrite E2. simpl.
  rewrite (field_loops_spec d _ ov oc) by done. unfold delta_extent.
  rewrite delta_extent_new by apply Ha.
  assert (∀ v', levels v' = ls2 → blocks v' = put_fields d (override (blocks v) (block_changes d)) →
    edges v' = es' → block_hashes_by_level v' = bi → edge_parents_by_child v' = pi →
    edge_ids_by_span v' = si → indexed v' ∧ content v' = abs_apply d (content v)) as Hfin.
  { intros v' El Ebk Eed E3 E4 E5. split.
    - split; rewrite ?El, ?Ebk, ?Eed, ?E3, ?E4, ?E5; [|apply Hok| |apply Hok|apply Hok|done|].
      + apply put_fields_keyed, override_keyed; [apply Hi|apply Ha].
      + eapply block_index_same_levels; [|done]. apply put_fields_level.
      + intros id e He'. apply (ap_levels _ _ Ha) in He'. simpl in He'. rewrite <- Hv in He'.
        rewrite lookup_fmap, fmap_is_Some in He'. done.
    - unfold content, abs_apply. simpl. by rewrite El, Ebk, Eed, Hv. }
  destruct (decide (tracking_policy v = Head)); (eexists; split; [done|]);
    (match goal with |- indexed ?v' ∧ _ => destruct (Hfin v') as [??]; [done..|] end);
    split_and!; done.
Qed.

(** What is known of a successful application. *)
Lemma apply_delta_refines_run d v v' :
  indexed v → applicable d v → apply_delta d v = Some (v', Ok tt) →
  tracking_policy v ≠ Frozen ∧ current_revision_id v = from_revision_id d ∧
  indexed v' ∧ content v' = abs_apply d (content v) ∧ max_depth v' = max_depth v ∧
  tracking_policy v' = tracking_policy v ∧ extent v' = delta_extent d v ∧
  current_revision_id v' = to_revision_id d ∧
  current_revision_timestamp_ms v' = revision_timestamp_ms d.
Proof.
  intros Hi Ha Hr.
  assert (tracking_policy v ≠ Frozen) as Hp.
  { intros E. unfold apply_delta, apply_delta_in in Hr. by rewrite decide_True in Hr. }
  assert (current_revision_id v = from_revision_id d) as Hc.
  { destruct (decide (current_revision_id v = from_revision_id d)); [done|].
    unfold apply_delta, apply_delta_in in Hr. by rewrite decide_False, decide_True in Hr by done. }
  destruct (apply_delta_in_refines (map_to_list (block_changes d)) (map_to_list (edge_changes d))
    (map_to_list (is_in_vspc_changes d)) (map_to_list (color_changes d)) d v) as (w & Hw & H'); try done.
  unfold apply_delta in Hr. rewrite Hw in Hr. simplify_eq. split_and!; try done; apply H'.
Qed.

(** A run to a view that is known to satisfy the specification is that view. *)
Lemma apply_delta_to d v v' :
  indexed v → tracking_policy v ≠ Frozen → current_revision_id v = from_revision_id d →
  applicable d v → indexed v' → content v' = abs_apply d (content v) →
  max_depth v' = max_depth v → tracking_policy v' = tracking_policy v →
  extent v' = delta_extent d v → current_revision_id v' = to_revision_id d →
  current_revision_timestamp_ms v' = revision_timestamp_ms d →
  apply_delta d v = Some (v', Ok tt).
Proof.
  intros Hi Hp Hr Ha Hi' Hc Hm Ht He Hrev Hts.
  destruct (apply_delta_in_refines (map_to_list (block_changes d)) (map_to_list (edge_changes d))
    (map_to_list (is_in_vspc_changes d)) (map_to_list (color_changes d)) d v)
    as (w & Hw & Hiw & Hcw & ? & ? & ? & ? & ?); try done.
  unfold apply_delta. rewrite Hw. do 2 f_equal. apply indexed_determined; congruence || done.
Qed.
End apply_delta.
