(* ===== verification/Compose.v ===== *)
(** Composition of adjacent deltas ([GraphDelta::compose]): applying the
    composed delta is applying the two deltas in turn. *)

From S2P Require Import Prelude Model Delta GraphView ViewInvariant ApplyDelta.

Section compose.
Context {KH : KaspaHash}.
Implicit Types (d : GraphDelta) (v : GraphView).

(** The before-values a delta records are those of the content it starts from;
    a field's before-value is read after the delta's own block changes. *)
Record faithful d (c : Content) : Prop := {
  fa_level : ∀ lc, lc ∈ level_changes d → before lc = ct_levels c !! level lc;
  fa_vspc : ∀ h fc b, is_in_vspc_changes d !! h = Some fc →
    override (ct_blocks c) (block_changes d) !! h = Some b → is_in_vspc b = field_before fc;
  fa_color : ∀ h fc b, color_changes d !! h = Some fc →
    override (ct_blocks c) (block_changes d) !! h = Some b → color b = field_before fc
}.

(** [next] brings no block back that [d] recorded a field change for. *)
Definition no_resurrection d next : Prop :=
  ∀ h b, block_changes next !! h = Some (Some b) →
    is_in_vspc_changes d !! h = None ∧ color_changes d !! h = None.

(** * Field changes *)

Definition merge_field {T} (l r : option (FieldChange T)) : option (FieldChange T) :=
  match r with
  | None => l
  | Some c => Some (from_option (λ x, MkFieldChange (field_before x) (field_after c)) c l)
  end.

Lemma extend_field_changes_lookup {T} (left right : gmap BlockHash (FieldChange T)) h :
  map_fold extend_field_change left right !! h = merge_field (left !! h) (right !! h).
Proof.
  revert h. apply (map_fold_weak_ind
    (λ r m, ∀ h, r !! h = merge_field (left !! h) (m !! h))).
  - intros h. by rewrite lookup_empty.
  - intros k c m r Hk IH h. unfold extend_field_change. pose proof (IH k) as IHk.
    rewrite Hk in IHk. simpl in IHk. rewrite IHk.
    destruct (left !! k) as [x|] eqn:El; rewrite !lookup_insert; case_decide; subst; auto;
      by rewrite El.
Qed.

Lemma compose_field_changes_lookup {T} `{EqDecision T} (left right : gmap BlockHash (FieldChange T)) h :
  compose_field_changes left right !! h
  = match merge_field (left !! h) (right !! h) with
    | Some c => if decide (field_before c ≠ field_after c) then Some c else None
    | None => None
    end.
Proof.
  unfold compose_field_changes. rewrite map_lookup_filter, extend_field_changes_lookup.
  destruct (merge_field _ _) as [c|]; simpl; [|done].
  case_guard; try case_decide; done.
Qed.

(** * Level changes *)

Definition level_entries (cs : list LevelChange) : gmap N (option Level * option Level) :=
  list_to_map ((λ c, (level c, (before c, after c))) <$> cs).

Lemma foldl_insert_levels cs (m : gmap N (option Level * option Level)) l :
  NoDup (level <$> cs) →
  foldl (λ m c, <[level c := (before c, after c)]> m) m cs !! l
  = union (level_entries cs !! l) (m !! l).
Proof.
  revert m; induction cs as [|c cs IH]; intros m; simpl.
  - intros _. unfold level_entries; simpl. by rewrite lookup_empty, (left_id_L None (∪)).
  - intros [Hc Hn]%NoDup_cons. rewrite IH by done. unfold level_entries; simpl.
    rewrite !lookup_insert. case_decide as Hl; [|done]. subst l.
    rewrite not_elem_of_list_to_map_1; [by destruct (m !! level c)|]. by rewrite <- list_fmap_compose.
Qed.

Lemma collect_level_changes_lookup cs l :
  NoDup (level <$> cs) → collect_level_changes cs !! l = level_entries cs !! l.
Proof.
  intros. unfold collect_level_changes. rewrite foldl_insert_levels by done.
  rewrite lookup_empty. by rewrite (right_id_L None (∪)).
Qed.

Definition merge_level (l r : option (option Level * option Level)) :
    option (option Level * option Level) :=
  match r with
  | None => l
  | Some (b, a) => Some (from_option (λ x, (x.1, a)) (b, a) l)
  end.

Lemma extend_level_changes_lookup cs m l :
  NoDup (level <$> cs) →
  foldl extend_level_change m cs !! l = merge_level (m !! l) (level_entries cs !! l).
Proof.
  revert m; induction cs as [|c cs IH]; intros m; simpl.
  - intros _. unfold level_entries; simpl. by rewrite lookup_empty.
  - intros [Hc Hn]%NoDup_cons. rewrite IH by done. unfold level_entries; simpl.
    rewrite lookup_insert. unfold extend_level_change at 1.
    destruct (m !! level c) as [[b a]|] eqn:Em; rewrite lookup_insert; case_decide as Hl;
      try done; subst l; rewrite not_elem_of_list_to_map_1; simpl;
      rewrite ?Em; try done; by rewrite <- list_fmap_compose.
Qed.

Lemma lookup_level_entries cs l b a :
  NoDup (level <$> cs) →
  level_entries cs !! l = Some (b, a) ↔ MkLevelChange l b a ∈ cs.
Proof.
  intros Hn. unfold level_entries. rewrite <- elem_of_list_to_map by (by rewrite <- list_fmap_compose).
  rewrite list_elem_of_fmap. split.
  - intros ([] & [= -> -> ->] & ?). done.
  - intros. by exists (MkLevelChange l b a).
Qed.

Lemma lookup_level_targets cs l :
  level_targets cs !! l = snd <$> level_entries cs !! l.
Proof.
  unfold level_targets, level_entries. rewrite <- lookup_fmap, <- list_to_map_fmap.
  by rewrite <- list_fmap_compose.
Qed.

(** The map the composed level list is read from. *)
Definition composed_levels (left right : list LevelChange) :=
  foldl extend_level_change (collect_level_changes left) right.

Lemma elem_of_compose_level_changes left right l b a :
  NoDup (level <$> left) → NoDup (level <$> right) →
  MkLevelChange l b a ∈ compose_level_changes left right ↔
  merge_level (level_entries left !! l) (level_entries right !! l) = Some (b, a) ∧ b ≠ a.
Proof.
  intros Hl Hr. unfold compose_level_changes. rewrite list_elem_of_omap.
  rewrite <- (collect_level_changes_lookup left l Hl), <- extend_level_changes_lookup by done.
  split.
  - intros ((k & b' & a') & Hin%elem_of_btree_to_list & Heq). case_decide; simplify_eq. done.
  - intros [Hm Hne]. exists (l, (b, a)). rewrite elem_of_btree_to_list. split; [done|].
    by rewrite decide_True.
Qed.

(** Keeping some entries of an ordered map keeps their order. *)
Lemma omap_btree_sorted {A} (f : N * A → option LevelChange) (m : gmap N A) :
  (∀ p x, f p = Some x → level x = p.1) →
  StronglySorted N.lt (level <$> omap f (btree_to_list m)).
Proof.
  intros Hf. pose proof (btree_to_list_sorted m) as Hs. pose proof (NoDup_btree_to_list m) as Hn.
  induction Hs as [|p xs Hs IH Hp]; simpl; [constructor|].
  simpl in Hn. apply NoDup_cons in Hn as [Hnp Hn].
  destruct (f p) as [x|] eqn:E; simpl; [|by apply IH].
  constructor; [by apply IH|]. rewrite Forall_forall. intros l Hl.
  apply list_elem_of_fmap in Hl as (y & -> & Hy). apply list_elem_of_omap in Hy as (q & Hq & Hfq).
  rewrite (Hf _ _ E), (Hf _ _ Hfq). rewrite Forall_forall in Hp. specialize (Hp q Hq).
  unfold key_le in Hp. assert (q.1 ∈ xs.*1) by (by apply list_elem_of_fmap_2).
  assert (p.1 ≠ q.1) by (intros Heq; rewrite Heq in Hnp; done). lia.
Qed.

Lemma compose_level_changes_sorted left right :
  StronglySorted N.lt (level <$> compose_level_changes left right).
Proof.
  apply omap_btree_sorted. intros [l [b a]] x. case_decide; intros; simplify_eq; done.
Qed.

Lemma lookup_compose_targets left right l :
  NoDup (level <$> left) → NoDup (level <$> right) →
  level_targets (compose_level_changes left right) !! l
  = match merge_level (level_entries left !! l) (level_entries right !! l) with
    | Some (b, a) => if decide (b ≠ a) then Some a else None
    | None => None
    end.
Proof.
  intros Hl Hr. rewrite lookup_level_targets.
  pose proof (StronglySorted_lt_NoDup _ (compose_level_changes_sorted left right)) as Hn.
  destruct (level_entries (compose_level_changes left right) !! l) as [[b a]|] eqn:E.
  - apply lookup_level_entries in E; [|done]. apply elem_of_compose_level_changes in E as [-> Hne];
      [|done..]. by rewrite decide_True.
  - destruct (merge_level _ _) as [[b a]|] eqn:Em; [|done]. case_decide as Hd; [|done].
    assert (MkLevelChange l b a ∈ compose_level_changes left right) as Hin
      by (by apply elem_of_compose_level_changes).
    apply lookup_level_entries in Hin; [congruence|done].
Qed.

(** * Content *)

Lemma put_is_in_vspc_noop fc b :
  field_after fc = is_in_vspc b → put_is_in_vspc (Some fc) b = b.
Proof. destruct b; simpl. unfold set_is_in_vspc; simpl. by intros ->. Qed.
Lemma put_color_noop fc b : field_after fc = color b → put_color (Some fc) b = b.
Proof. destruct b; simpl. unfold set_color; simpl. by intros ->. Qed.

(** The composed delta, once its two guards have passed. *)
Definition composed d next : GraphDelta :=
  MkGraphDelta (from_revision_id d) (to_revision_id next)
    (revision_timestamp_ms next) (head_level next)
    (block_changes next ∪ block_changes d) (edge_changes next ∪ edge_changes d)
    (compose_level_changes (level_changes d) (level_changes next))
    (compose_field_changes (is_in_vspc_changes d) (is_in_vspc_changes next))
    (compose_field_changes (color_changes d) (color_changes next)).

Lemma compose_adjacent d next :
  delta_wf d → delta_wf next → to_revision_id d = from_revision_id next →
  compose d next = Some (Ok (composed d next)) ∧ delta_wf (composed d next).
Proof.
  intros (Hf & _ & _) (Hf' & Hh & _) Heq. split.
  - unfold compose. rewrite decide_False by tauto. unfold GraphDelta_new.
    rewrite decide_False by lia. rewrite decide_False by lia. done.
  - split_and!; simpl; [lia|lia|apply compose_level_changes_sorted].
Qed.

(** One block under two deltas: the fields a composed delta drops were
    restored, so leaving them out is invisible. *)
Lemma merge_is_in_vspc_sound l r b :
  (∀ f, l = Some f → is_in_vspc b = field_before f) →
  (∀ f, r = Some f → is_in_vspc (put_is_in_vspc l b) = field_before f) →
  put_is_in_vspc r (put_is_in_vspc l b)
  = put_is_in_vspc match merge_field l r with
                   | Some c => if decide (field_before c ≠ field_after c) then Some c else None
                   | None => None
                   end b.
Proof.
  destruct b, l as [[b1 a1]|], r as [[b2 a2]|]; simpl; intros Hl Hr; try done;
    try specialize (Hl _ eq_refl); try specialize (Hr _ eq_refl); simpl in *; subst;
    case_decide as Hd; simpl; unfold set_is_in_vspc; simpl; try done; by subst.
Qed.

Lemma merge_color_sound l r b :
  (∀ f, l = Some f → color b = field_before f) →
  (∀ f, r = Some f → color (put_color l b) = field_before f) →
  put_color r (put_color l b)
  = put_color match merge_field l r with
              | Some c => if decide (field_before c ≠ field_after c) then Some c else None
              | None => None
              end b.
Proof.
  destruct b, l as [[b1 a1]|], r as [[b2 a2]|]; simpl; intros Hl Hr; try done;
    try specialize (Hl _ eq_refl); try specialize (Hr _ eq_refl); simpl in *; subst;
    case_decide as Hd; simpl; unfold set_color; simpl; try done; by subst.
Qed.

Lemma put_fields_commute x y b :
  put_color x (put_is_in_vspc y b) = put_is_in_vspc y (put_color x b).
Proof. by destruct x, y. Qed.
Lemma is_in_vspc_put_color x b : is_in_vspc (put_color x b) = is_in_vspc b.
Proof. by destruct x. Qed.
Lemma color_put_is_in_vspc x b : color (put_is_in_vspc x b) = color b.
Proof. by destruct x. Qed.

Lemma composed_levels_sound d next ls :
  NoDup (level <$> level_changes d) → NoDup (level <$> level_changes next) →
  (∀ lc, lc ∈ level_changes d → before lc = ls !! level lc) →
  (∀ lc, lc ∈ level_changes next →
    before lc = override ls (level_targets (level_changes d)) !! level lc) →
  override ls (level_targets (compose_level_changes (level_changes d) (level_changes next)))
  = override (override ls (level_targets (level_changes d))) (level_targets (level_changes next)).
Proof.
  intros Hn Hn' Hf Hf'. apply map_eq; intros l.
  rewrite !lookup_override, lookup_compose_targets, !lookup_level_targets by done.
  assert (∀ b a, level_entries (level_changes d) !! l = Some (b, a) → b = ls !! l) as H1.
  { intros b a Hin%lookup_level_entries; [|done]. apply (Hf _ Hin). }
  assert (∀ b a, level_entries (level_changes next) !! l = Some (b, a) →
    b = default (ls !! l) (snd <$> level_entries (level_changes d) !! l)) as H2.
  { intros b a Hin%lookup_level_entries; [|done]. rewrite <- lookup_level_targets.
    rewrite <- lookup_override. apply (Hf' _ Hin). }
  destruct (level_entries (level_changes d) !! l) as [[b1 a1]|],
    (level_entries (level_changes next) !! l) as [[b2 a2]|]; simpl in *;
    try (case_decide as Hd; simpl; [done|]); try done;
    try (specialize (H1 _ _ eq_refl)); try (specialize (H2 _ _ eq_refl)); congruence.
Qed.

(** Composition on contents. *)
Lemma abs_apply_composed d next (c : Content) :
  delta_wf d → delta_wf next →
  faithful d c → faithful next (abs_apply d c) → no_resurrection d next →
  abs_apply (composed d next) c = abs_apply next (abs_apply d c).
Proof.
  intros (_ & _ & Hs%StronglySorted_lt_NoDup) (_ & _ & Hs'%StronglySorted_lt_NoDup) [Fl Fv Fc]
    [Fl' Fv' Fc'] Hnr.
  unfold abs_apply; simpl. f_equal.
  - by apply composed_levels_sound.
  - apply map_eq; intros h. rewrite !lookup_put_fields; simpl.
    rewrite !compose_field_changes_lookup, !lookup_override, lookup_put_fields, lookup_union.
    rewrite lookup_override. specialize (Fv h). specialize (Fc h). specialize (Fv' h).
    specialize (Fc' h). specialize (Hnr h).
    simpl in Fv', Fc'. rewrite lookup_override in Fv, Fc. rewrite lookup_override, lookup_put_fields, lookup_override in Fv', Fc'.
    destruct (block_changes next !! h) as [[b|]|] eqn:En; simpl in *.
    + destruct (Hnr b eq_refl) as [Ev Ec].
      replace (Some (Some b) ∪ block_changes d !! h) with (Some (Some b)) by (by destruct (block_changes d !! h)).
      simpl. f_equal. rewrite Ev, Ec in *.
      rewrite <- (merge_color_sound None (color_changes next !! h)); [|done|].
      * simpl. rewrite <- (merge_is_in_vspc_sound None (is_in_vspc_changes next !! h)); [done..|].
        intros f Hf. simpl. by eapply Fv'.
      * intros f Hf. simpl. rewrite color_put_is_in_vspc. by eapply Fc'.
    + by destruct (block_changes d !! h).
    + rewrite (left_id_L None (∪)).
      destruct (default (ct_blocks c !! h) (block_changes d !! h)) as [b|] eqn:Eb; simpl in *; [|done].
      f_equal. rewrite <- merge_is_in_vspc_sound.
      * rewrite <- (put_fields_commute (color_changes d !! h) (is_in_vspc_changes next !! h)).
        symmetry. apply merge_color_sound.
        -- intros f Hf. rewrite !color_put_is_in_vspc. by eapply Fc.
        -- intros f Hf. rewrite put_fields_commute, color_put_is_in_vspc. by eapply Fc'.
      * intros; by eapply Fv.
      * intros f Hf. rewrite <- (is_in_vspc_put_color (color_changes d !! h)). by eapply Fv'.
  - rewrite override_override. done.
Qed.

(** * Views *)

Lemma applicable_composed d next v v1 :
  delta_wf d → delta_wf next → to_revision_id d = from_revision_id next →
  applicable d v → applicable next v1 → content v1 = abs_apply d (content v) →
  abs_apply (composed d next) (content v) = abs_apply next (content v1) →
  applicable (composed d next) v.
Proof.
  intros Hw Hw' Hadj Ha Ha' Hc Heq. split.
  - by apply compose_adjacent.
  - simpl. intros h b. rewrite lookup_union_Some_raw. intros [?|[_ ?]]; [by apply Ha'|by apply Ha].
  - simpl. intros id e. rewrite lookup_union_Some_raw. intros [?|[_ ?]]; [by apply Ha'|by apply Ha].
  - rewrite Heq. apply Ha'.
  - rewrite Heq. apply Ha'.
Qed.

(** The before-value of a merged field change is the first one recorded. *)
Lemma merge_field_before {T} (get : GraphBlock → T) (l r : option (FieldChange T))
    (o1 o2 : option (option GraphBlock)) o (p : GraphBlock → GraphBlock) fc b :
  (l = None → ∀ x, get (p x) = get x) →
  (∀ f x, l = Some f → default o o1 = Some x → get x = field_before f) →
  (∀ f x, r = Some f → default (p <$> default o o1) o2 = Some x → get x = field_before f) →
  (∀ x, o2 = Some (Some x) → l = None) →
  merge_field l r = Some fc → default o (o2 ∪ o1) = Some b → get b = field_before fc.
Proof.
  intros Hp H1 H2 Hnr Hm Hb.
  assert (o2 ∪ o1 = match o2 with Some x => Some x | None => o1 end) as Ho by (by destruct o1, o2).
  rewrite Ho in Hb. destruct l as [f1|], o2 as [[b'|]|]; simpl in *; try done.
  - by specialize (Hnr _ eq_refl).
  - assert (field_before fc = field_before f1) as -> by (by destruct r; simplify_eq/=). by apply H1.
  - destruct r as [f2|]; simplify_eq/=. by eapply H2.
  - destruct r as [f2|]; simplify_eq/=. rewrite Hb in H2; simpl in H2.
    rewrite <- Hp by done. by eapply H2.
Qed.

Lemma faithful_composed d next (c : Content) :
  delta_wf d → delta_wf next → faithful d c → faithful next (abs_apply d c) →
  no_resurrection d next → faithful (composed d next) c.
Proof.
  intros (_ & _ & Hs%StronglySorted_lt_NoDup) (_ & _ & Hs'%StronglySorted_lt_NoDup) [Fl Fv Fc]
    [Fl' Fv' Fc'] Hnr. split; simpl.
  - intros [l b a] [Hm _]%elem_of_compose_level_changes; [|done..]. simpl.
    destruct (level_entries (level_changes d) !! l) as [[b1 a1]|] eqn:E1.
    + assert (b = b1) as -> by (by destruct (level_entries (level_changes next) !! l) as [[]|]; simplify_eq/=).
      apply lookup_level_entries in E1; [|done]. apply (Fl _ E1).
    + destruct (level_entries (level_changes next) !! l) as [[b2 a2]|] eqn:E2; simplify_eq/=.
      apply lookup_level_entries in E2; [|done]. pose proof (Fl' _ E2) as Hb. simpl in Hb.
      by rewrite lookup_override, lookup_level_targets, E1 in Hb.
  - intros h fc b. rewrite compose_field_changes_lookup, lookup_override, lookup_union.
    destruct (merge_field _ _) as [f|] eqn:Em; [|done]. case_decide; [|done]. intros [= ->] Hb.
    eapply (merge_field_before is_in_vspc) with
      (p := λ b, put_color (color_changes d !! h) (put_is_in_vspc (is_in_vspc_changes d !! h) b));
      [..|exact Em|exact Hb].
    + intros -> x. apply is_in_vspc_put_color.
    + intros f x ? Hx. eapply (Fv h); [done|]. by rewrite lookup_override.
    + intros f x ? Hx. eapply (Fv' h); [done|]. simpl.
      by rewrite lookup_override, lookup_put_fields, lookup_override.
    + intros b' ?. by eapply Hnr.
  - intros h fc b. rewrite compose_field_changes_lookup, lookup_override, lookup_union.
    destruct (merge_field _ _) as [f|] eqn:Em; [|done]. case_decide; [|done]. intros [= ->] Hb.
    eapply (merge_field_before color) with
      (p := λ b, put_color (color_changes d !! h) (put_is_in_vspc (is_in_vspc_changes d !! h) b));
      [..|exact Em|exact Hb].
    + intros -> x. apply color_put_is_in_vspc.
    + intros f x ? Hx. eapply (Fc h); [done|]. by rewrite lookup_override.
    + intros f x ? Hx. eapply (Fc' h); [done|]. simpl.
      by rewrite lookup_override, lookup_put_fields, lookup_override.
    + intros b' ?. by eapply Hnr.
Qed.

Lemma composed_apply d next v v1 v2 :
  indexed v → applicable d v → apply_delta d v = Some (v1, Ok tt) →
  applicable next v1 → apply_delta next v1 = Some (v2, Ok tt) →
  faithful d (content v) → faithful next (content v1) → no_resurrection d next →
  compose d next = Some (Ok (composed d next)) ∧ applicable (composed d next) v ∧
  apply_delta (composed d next) v = Some (v2, Ok tt).
Proof.
  intros Hi Ha H1 Ha' H2 Hf Hf' Hnr.
  destruct (apply_delta_refines_run _ _ _ Hi Ha H1)
    as (Hp & Hr & Hi1 & Hc1 & Hm1 & Ht1 & He1 & Hr1 & _).
  destruct (apply_delta_refines_run _ _ _ Hi1 Ha' H2)
    as (_ & Hr' & Hi2 & Hc2 & Hm2 & Ht2 & He2 & Hr2 & Hts2).
  assert (to_revision_id d = from_revision_id next) as Hadj by congruence.
  pose proof (ap_wf _ _ Ha) as Hw. pose proof (ap_wf _ _ Ha') as Hw'.
  assert (abs_apply (composed d next) (content v) = abs_apply next (content v1)) as Heq.
  { rewrite Hc1 in *. by apply abs_apply_composed. }
  split; [by apply compose_adjacent|].
  assert (applicable (composed d next) v) as Ha'' by (by eapply applicable_composed).
  split; [done|]. apply apply_delta_to; try done; try congruence.
  rewrite He2. unfold delta_extent. rewrite Ht1, He1, Hm1. unfold delta_extent.
  by case_decide.
Qed.
End compose.
