(* ===== verification/Mutation.v ===== *)
(** Mutation capture ([GraphMutation]): the recorder keeps the first value of
    everything it sees changed, so that the changes it finishes with are exactly
    the difference between the view before and the view after. *)

From S2P Require Import Prelude Model Delta GraphView ViewInvariant ApplyDelta Compose.

Section mutation.
Context {KH : KaspaHash}.
Implicit Types (v : GraphView) (m : GraphMutation) (d : GraphDelta).

Lemma lookup_or_insert `{Countable K} {A} (k : K) (x : A) (mp : gmap K A) j :
  or_insert k x mp !! j = if decide (k = j) then Some (default x (mp !! k)) else mp !! j.
Proof.
  unfold or_insert. destruct (mp !! k) eqn:E; [case_decide; subst; by rewrite ?E|].
  rewrite lookup_insert. by case_decide.
Qed.

(** [b] is [b0] up to the two projected fields; a field whose first value was
    not recorded is unchanged, and a recorded one is the value of [b0]. *)
Record block_tracked (mv : option bool) (mc : option BlockColor) (b0 b : GraphBlock) : Prop := {
  bt_same : b = set_color (color b) (set_is_in_vspc (is_in_vspc b) b0);
  bt_vspc : from_option (λ x, x = is_in_vspc b0) (is_in_vspc b = is_in_vspc b0) mv;
  bt_color : from_option (λ x, x = color b0) (color b = color b0) mc
}.

(** [m] captures every difference between [v0] and [v]. *)
Record captures m v0 v : Prop := {
  cp_edges : ∀ id, from_option (λ b, b = edges v0 !! id) (edges v !! id = edges v0 !! id)
                     (m_edges m !! id);
  cp_levels : ∀ l, from_option (λ b, b = value <$> levels v0 !! l)
                     (value <$> levels v !! l = value <$> levels v0 !! l) (m_levels m !! l);
  cp_blocks : ∀ h, from_option
    (λ b, b = blocks v0 !! h ∧ m_is_in_vspc m !! h = None ∧ m_colors m !! h = None)
    (option_relation (block_tracked (m_is_in_vspc m !! h) (m_colors m !! h))
       (λ _, False) (λ _, False) (blocks v0 !! h) (blocks v !! h)) (m_blocks m !! h)
}.

Lemma block_tracked_refl b : block_tracked None None b b.
Proof. split; [by destruct b|done..]. Qed.

Lemma captures_default v : captures GraphMutation_default v v.
Proof.
  split; intros k; simpl; rewrite lookup_empty; simpl; try done.
  rewrite !lookup_empty. destruct (blocks v !! k); simpl; [apply block_tracked_refl|done].
Qed.

(** * Steps that change one key after capturing it *)

Lemma captures_edge m v0 v v' id :
  captures m v0 v → blocks v' = blocks v →
  (∀ l, value <$> levels v' !! l = value <$> levels v !! l) →
  (∀ k, k ≠ id → edges v' !! k = edges v !! k) →
  captures (capture_edge (edges v) id m) v0 v'.
Proof.
  intros [Ce Cl Cb] Hb Hl He. split; simpl; [|intros; by rewrite Hl|intros; by rewrite Hb].
  intros k. rewrite lookup_or_insert. case_decide as Hk; [subst k; simpl|].
  - specialize (Ce id). by destruct (m_edges m !! id).
  - rewrite He by done. apply Ce.
Qed.

Lemma captures_level m v0 v v' l :
  captures m v0 v → blocks v' = blocks v → edges v' = edges v →
  (∀ k, k ≠ l → value <$> levels v' !! k = value <$> levels v !! k) →
  captures (capture_level (levels v) l m) v0 v'.
Proof.
  intros [Ce Cl Cb] Hb He Hl. split; simpl; [intros; by rewrite He| |intros; by rewrite Hb].
  intros k. rewrite lookup_or_insert. case_decide as Hk; [subst k; simpl|].
  - specialize (Cl l). by destruct (m_levels m !! l).
  - rewrite Hl by done. apply Cl.
Qed.

Lemma captures_block m v0 v v' h :
  captures m v0 v → m_is_in_vspc m = ∅ → m_colors m = ∅ → edges v' = edges v →
  (∀ l, value <$> levels v' !! l = value <$> levels v !! l) →
  (∀ k, k ≠ h → blocks v' !! k = blocks v !! k) →
  captures (capture_block (blocks v) h m) v0 v'.
Proof.
  intros [Ce Cl Cb] Hv Hc He Hl Hb.
  split; simpl; [intros; by rewrite He|intros; by rewrite Hl|].
  intros k. rewrite Hv, Hc, !lookup_empty, lookup_or_insert. specialize (Cb k).
  rewrite Hv, Hc, !lookup_empty in Cb.
  case_decide as Hk; [subst k; simpl|by rewrite Hb].
  destruct (m_blocks m !! h) as [x|]; simpl in *; [done|]. split_and!; [|done..].
  destruct (blocks v0 !! h) as [b0|], (blocks v !! h) as [b|]; simpl in *; try done.
  destruct Cb as [-> ? ?]; destruct b, b0; simpl in *. by subst.
Qed.

Lemma captures_same m v0 v v' :
  captures m v0 v → blocks v' = blocks v → edges v' = edges v →
  (∀ l, value <$> levels v' !! l = value <$> levels v !! l) → captures m v0 v'.
Proof.
  intros [Ce Cl Cb] Hb He Hl. split; intros; rewrite ?Hb, ?He, ?Hl; done.
Qed.

Lemma capture_removed_edge_eq v id e m :
  edges v !! id = Some e → capture_removed_edge id e m = capture_edge (edges v) id m.
Proof. unfold capture_removed_edge, capture_edge. by intros ->. Qed.
Lemma capture_removed_block_eq v h b m :
  blocks v !! h = Some b → capture_removed_block h b m = capture_block (blocks v) h m.
Proof. unfold capture_removed_block, capture_block. by intros ->. Qed.
Lemma capture_removed_level_eq v l s m :
  levels v !! l = Some s → capture_removed_level l (value s) m = capture_level (levels v) l m.
Proof. unfold capture_removed_level, capture_level. by intros ->. Qed.
Lemma capture_level_value_eq v l s m :
  levels v !! l = Some s → capture_level_value l (value s) m = capture_level (levels v) l m.
Proof. unfold capture_level_value, capture_level. by intros ->. Qed.

(** * What a finished mutation says *)

(** The delta carries the finished changes of [m] at [v]. *)
Definition carries m v d : Prop :=
  block_changes d = gc_blocks (finish m v) ∧ edge_changes d = gc_edges (finish m v) ∧
  level_changes d = gc_levels (finish m v) ∧ is_in_vspc_changes d = gc_is_in_vspc (finish m v) ∧
  color_changes d = gc_colors (finish m v).

Lemma finish_levels_sorted m v : StronglySorted N.lt (level <$> gc_levels (finish m v)).
Proof.
  apply omap_btree_sorted. intros [l b] x. simpl. case_decide; intros; simplify_eq; done.
Qed.

Lemma finish_level_entries m v l :
  level_entries (gc_levels (finish m v)) !! l
  = match m_levels m !! l with
    | Some b => if decide (b ≠ value <$> levels v !! l)
                then Some (b, value <$> levels v !! l) else None
    | None => None
    end.
Proof.
  pose proof (StronglySorted_lt_NoDup _ (finish_levels_sorted m v)) as Hn.
  apply option_eq; intros [b a]. rewrite lookup_level_entries by done. simpl.
  rewrite list_elem_of_omap. split.
  - intros ([k x] & Hk%elem_of_btree_to_list & Hx). case_decide as Hd; simplify_eq.
    by rewrite Hk, decide_True.
  - destruct (m_levels m !! l) as [x|] eqn:E; [|done]. case_decide as Hd; [|done].
    intros [= <- <-]. exists (l, x). rewrite elem_of_btree_to_list. split; [done|].
    by rewrite decide_True.
Qed.

Lemma put_tracked mv mc b0 b :
  block_tracked mv mc b0 b →
  put_color (x ← mc; if decide (x ≠ color b) then Some (MkFieldChange x (color b)) else None)
    (put_is_in_vspc (x ← mv; if decide (x ≠ is_in_vspc b)
                             then Some (MkFieldChange x (is_in_vspc b)) else None) b0) = b.
Proof.
  intros [Hs Hv Hc]. etransitivity; [|symmetry; exact Hs].
  destruct mv as [x|], mc as [y|]; simpl in *; subst;
    repeat case_decide; simpl; destruct b0; unfold set_color, set_is_in_vspc; simpl in *;
    congruence.
Qed.

(** The finished changes rebuild the mutated content from the original. *)
Lemma captures_apply m v0 v d :
  captures m v0 v → carries m v d → abs_apply d (content v0) = content v.
Proof.
  intros [Ce Cl Cb] (Eb & Ee & El & Ev & Ec). unfold abs_apply, content; simpl. f_equal.
  - apply map_eq; intros l. rewrite lookup_override, !lookup_fmap, lookup_level_targets, El.
    rewrite finish_level_entries. specialize (Cl l).
    destruct (m_levels m !! l) as [b|]; simpl in *; [|done]. case_decide; simpl; congruence.
  - apply map_eq; intros h. rewrite lookup_put_fields, lookup_override, Eb, Ev, Ec. simpl.
    rewrite !map_lookup_imap. specialize (Cb h).
    destruct (m_blocks m !! h) as [b|]; simpl in *.
    + destruct Cb as (-> & -> & ->). simpl.
      case_decide as Hd; simpl; [by destruct (blocks v !! h)|]. rewrite Hd.
      by destruct (blocks v !! h).
    + destruct (blocks v0 !! h) as [b0|], (blocks v !! h) as [b|]; simpl in *; try done.
      f_equal. exact (put_tracked _ _ _ _ Cb).
  - apply map_eq; intros id. rewrite lookup_override, Ee. simpl. rewrite map_lookup_imap.
    specialize (Ce id). destruct (m_edges m !! id) as [b|]; simpl in *; [|done].
    case_decide; simpl; congruence.
Qed.

Lemma captures_faithful m v0 v d :
  captures m v0 v → carries m v d → faithful d (content v0).
Proof.
  intros [Ce Cl Cb] (Eb & Ee & El & Ev & Ec). split; simpl.
  - intros [l b a] Hin. rewrite El in Hin. apply lookup_level_entries in Hin;
      [|apply StronglySorted_lt_NoDup, finish_levels_sorted].
    rewrite finish_level_entries in Hin. specialize (Cl l). simpl.
    destruct (m_levels m !! l) as [x|]; [|done]. case_decide; simplify_eq/=.
    by rewrite lookup_fmap.
  - intros h fc b. rewrite Ev, lookup_override, Eb. simpl. rewrite !map_lookup_imap.
    specialize (Cb h). destruct (m_is_in_vspc m !! h) as [x|]; [|done]. simpl in *.
    destruct (m_blocks m !! h) as [y|]; simpl in *; [by destruct Cb as (_ & ? & _)|].
    destruct (blocks v0 !! h) as [b0|], (blocks v !! h) as [b1|]; simpl in *; try done.
    destruct Cb as [_ -> _]. case_decide; intros; by simplify_eq/=.
  - intros h fc b. rewrite Ec, lookup_override, Eb. simpl. rewrite !map_lookup_imap.
    specialize (Cb h). destruct (m_colors m !! h) as [x|]; [|done]. simpl in *.
    destruct (m_blocks m !! h) as [y|]; simpl in *; [by destruct Cb as (_ & _ & ?)|].
    destruct (blocks v0 !! h) as [b0|], (blocks v !! h) as [b1|]; simpl in *; try done.
    destruct Cb as [_ _ ->]. case_decide; intros; by simplify_eq/=.
Qed.

(** No visible change: the content is the original one. *)
Lemma captures_empty m v0 v :
  captures m v0 v → changes_is_empty (finish m v) → content v = content v0.
Proof.
  intros Hc (Eb & Ee & El & Ev & Ec).
  set (d := MkGraphDelta 0 1 0 1 ∅ ∅ [] ∅ ∅).
  rewrite <- (captures_apply m v0 v d Hc) by (unfold carries; by rewrite Eb, Ee, El, Ev, Ec).
  unfold abs_apply, content; simpl. unfold level_targets; simpl. rewrite !override_empty.
  f_equal. apply map_eq; intros h. rewrite lookup_put_fields; simpl. rewrite !lookup_empty.
  by destruct (blocks v0 !! h).
Qed.

(** * Finishing a mutation *)

(** [v] is a mutated [v0]: same lineage, and the extent a delta would give it. *)
Record mutated v0 v : Prop := {
  mu_depth : max_depth v = max_depth v0;
  mu_revision : current_revision_id v = current_revision_id v0;
  mu_timestamp : current_revision_timestamp_ms v = current_revision_timestamp_ms v0;
  mu_policy : tracking_policy v = tracking_policy v0;
  mu_active : tracking_policy v0 ≠ Frozen;
  mu_high : 0 < high_level (extent v);
  mu_extent : if decide (tracking_policy v0 = Head)
              then head_extent (max_depth v0) (high_level (extent v)) = Some (extent v)
              else extent v = extent v0
}.

Lemma head_extent_inv depth high e :
  head_extent depth high = Some e →
  e = MkLevelExtent (N.max (saturating_sub high (depth - 1)) 1) high ∧ extent_wf e.
Proof.
  unfold head_extent. destruct (LevelExtent_new _ _) as [e'|] eqn:E; [|done].
  intros [= <-]. by apply LevelExtent_new_Ok.
Qed.

Lemma head_extent_Some depth high :
  0 < high →
  head_extent depth high = Some (MkLevelExtent (N.max (saturating_sub high (depth - 1)) 1) high).
Proof. intros. unfold head_extent. rewrite LevelExtent_new_wf; unfold saturating_sub; [done|lia..]. Qed.

Lemma carries_applicable m v0 v d :
  captures m v0 v → carries m v d → indexed v → delta_wf d →
  N.of_nat (size (edges v)) ≤ U64_MAX → applicable d v0.
Proof.
  intros Hc Hd Hi Hw Hs. pose proof (captures_apply _ _ _ _ Hc Hd) as Heq.
  destruct Hd as (Eb & Ee & _). split; [done| | | |].
  - intros h b. rewrite Eb. simpl. rewrite map_lookup_imap.
    destruct (m_blocks m !! h); simpl; [|done]. case_decide; [|done].
    intros [= Hb]. by apply (ix_block_key _ Hi).
  - intros id e. rewrite Ee. simpl. rewrite map_lookup_imap.
    destruct (m_edges m !! id); simpl; [|done]. case_decide; [|done].
    intros [= He]. by apply (ix_edge_key _ Hi).
  - rewrite Heq. simpl. intros id e He. rewrite lookup_fmap, fmap_is_Some. by eapply Hi.
  - rewrite Heq. simpl. intros l. etrans; [apply edge_usage_le_size|done].
Qed.

Lemma indexed_set_revision id ts v : indexed v → indexed (set_revision id ts v).
Proof. intros []; by split. Qed.

(** Finishing never panics below the revision limit.  Without visible change
    the view stays; otherwise the emitted delta, applied to the view as it was
    before the mutation, yields the view as it is after. *)
Lemma finish_mutation_spec m ts v0 v :
  captures m v0 v → indexed v0 → indexed v → mutated v0 v →
  N.of_nat (size (edges v)) ≤ U64_MAX → current_revision_id v0 < U64_MAX →
  (finish_mutation m ts v = Some (v, None) ∧ content v = content v0) ∨
  (∃ d v', finish_mutation m ts v = Some (v', Some d) ∧
     v' = set_revision (current_revision_id v0 + 1) ts v ∧
     carries m v d ∧ applicable d v0 ∧ faithful d (content v0) ∧
     head_level d = high_level (extent v) ∧
     apply_delta d v0 = Some (v', Ok tt)).
Proof.
  intros Hc Hi0 Hi Hm Hs Hrev. unfold finish_mutation.
  destruct (decide (changes_is_empty (finish m v))) as [He|He].
  - left. split; [done|]. by eapply captures_empty.
  - right. rewrite (mu_revision _ _ Hm), checked_add_Some by lia.
    run_bind. unfold GraphDelta_new.
    rewrite decide_False by lia. rewrite decide_False by (pose proof (mu_high _ _ Hm); lia).
    eexists _, _. split; [done|]. split; [done|].
    match goal with |- carries _ _ ?d ∧ _ => set (dl := d) end.
    assert (carries m v dl) as Hd by done.
    assert (delta_wf dl) as Hw.
    { split_and!; simpl; [lia|apply Hm|apply finish_levels_sorted]. }
    assert (applicable dl v0) as Ha by (by eapply carries_applicable).
    split; [done|]. split; [done|]. split; [by eapply captures_faithful|]. split; [done|].
    apply apply_delta_to; try done; try apply Hm.
    + by apply indexed_set_revision.
    + rewrite (captures_apply _ _ _ _ Hc Hd). done.
    + pose proof (mu_extent _ _ Hm) as Hx. unfold delta_extent. simpl. case_decide; [|done].
      by apply head_extent_inv in Hx as [-> _].
Qed.
End mutation.
