(* ===== verification/HeadBlock.v ===== *)
(** The phases of applying a committed block: projecting the block, its level
    snapshots and its edges, then pruning what left the Head extent.  Each phase
    keeps the view indexed and its mutation capturing. *)

From S2P Require Import Prelude Model Delta GraphView ViewInvariant ApplyDelta Compose Mutation.

Section phases.
Context {KH : KaspaHash}.
Implicit Types (v : GraphView) (m : GraphMutation) (e : GraphEdge) (b : GraphBlock).

Definition same_header v0 v : Prop :=
  max_depth v = max_depth v0 ∧ extent v = extent v0 ∧
  current_revision_id v = current_revision_id v0 ∧
  current_revision_timestamp_ms v = current_revision_timestamp_ms v0 ∧
  tracking_policy v = tracking_policy v0.

(** What holds between two phases of a block update that began at [v0]. *)
Record block_phase v0 v m : Prop := {
  bp_indexed : indexed v;
  bp_captures : captures m v0 v;
  bp_vspc : m_is_in_vspc m = ∅;
  bp_colors : m_colors m = ∅;
  bp_header : same_header v0 v
}.

Lemma block_phase_start v : indexed v → block_phase v v GraphMutation_default.
Proof. intros Hi. split; [done|apply captures_default|done..]. Qed.

(** * The block *)

Lemma insert_block_phase v0 v m b :
  block_phase v0 v m → blocks v !! hash b = None →
  ∃ v', insert_block b v = Some v' ∧
    block_phase v0 v' (capture_block (blocks v) (hash b) m) ∧
    blocks v' = <[hash b := b]> (blocks v) ∧ edges v' = edges v ∧ levels v' = levels v.
Proof.
  intros [Hi Hc Hv Hk Hh] Hb. unfold insert_block. rewrite Hb.
  eexists; split; [done|]. split; [|done]. split; [|apply captures_block; [done..|]|done..].
  - destruct Hi as [Kb Ke Ib Ip Is Iu Il]. split; simpl; try done.
    + intros h x. rewrite lookup_insert. case_decide; naive_solver.
    + by apply block_index_insert.
  - simpl. intros k Hne. by apply lookup_insert_ne.
Qed.

(** * Level snapshots *)

Lemma snapshot_lookup s (ls : gmap N StoredLevel) l :
  is_Some (apply_materialization_snapshot s ls !! l) ↔ is_Some (ls !! l) ∨ lc_level s = l.
Proof.
  unfold apply_materialization_snapshot. destruct (ls !! lc_level s) eqn:E; rewrite lookup_insert;
    case_decide as Hl; subst; rewrite ?E; naive_solver.
Qed.

Lemma apply_snapshot_phase v0 v m target ep s :
  block_phase v0 v m →
  let '(v', m') := apply_snapshot_step target ep (v, m) s in
  block_phase v0 v' m' ∧ blocks v' = blocks v ∧ edges v' = edges v ∧
  (∀ l, is_Some (levels v' !! l) ↔
     is_Some (levels v !! l) ∨ (lc_level s = l ∧ (contains_level target l ∨ l ∈ ep))).
Proof.
  intros [Hi Hc Hv Hk Hh]. unfold apply_snapshot_step.
  case_decide as Hd.
  - split; [|split; [done|split; [done|]]].
    + split; [|apply captures_level; [done..|]|done..]; simpl.
      * destruct Hi as [Kb Ke Ib Ip Is Iu Il]. split; simpl; try done.
        -- intros l x. unfold apply_materialization_snapshot.
           destruct (levels v !! lc_level s) as [t|] eqn:E; rewrite lookup_insert;
             (destruct (decide (lc_level s = l)) as [<-|];
              [intros [= <-]; simpl|apply Iu]); [by apply Iu|].
           symmetry. by apply indexed_unused_level; [split|].
        -- intros id e He. rewrite snapshot_lookup. left. by eapply Il.
      * intros k Hne. unfold apply_materialization_snapshot.
        destruct (levels v !! lc_level s); by rewrite lookup_insert_ne.
    + simpl. intros l. rewrite snapshot_lookup. split; [|tauto].
      intros [?|<-]; [by left|].
      destruct Hd as [?|[Hr|?]]; [right; tauto| |right; tauto].
      left. destruct (levels v !! lc_level s); [eauto|done].
  - split; [done|]. split; [done|]. split; [done|]. intros l. split; [tauto|].
    intros [?|[<- ?]]; [done|]. destruct Hd. tauto.
Qed.

Lemma apply_snapshots_phase v0 v m target ep ss :
  block_phase v0 v m →
  let '(v', m') := foldl (apply_snapshot_step target ep) (v, m) ss in
  block_phase v0 v' m' ∧ blocks v' = blocks v ∧ edges v' = edges v ∧
  (∀ l, is_Some (levels v' !! l) ↔
     is_Some (levels v !! l) ∨ (l ∈ (lc_level <$> ss) ∧ (contains_level target l ∨ l ∈ ep))).
Proof.
  revert v m; induction ss as [|s ss IH]; intros v m Hp; cbn [foldl].
  - split_and!; try done. intros l. split; [tauto|].
    intros [?|[Hl _]]; [done|by apply not_elem_of_nil in Hl].
  - pose proof (apply_snapshot_phase v0 v m target ep s Hp) as Hs.
    destruct (apply_snapshot_step target ep (v, m) s) as [v1 m1].
    destruct Hs as (Hp1 & Hb1 & He1 & Hl1). specialize (IH v1 m1 Hp1).
    destruct (foldl (apply_snapshot_step target ep) (v1, m1) ss) as [v2 m2].
    destruct IH as (Hp2 & Hb2 & He2 & Hl2). split_and!; [done|congruence|congruence|].
    intros l. rewrite Hl2, Hl1. simpl. rewrite elem_of_cons. naive_solver.
Qed.

(** * Edges *)

Lemma indexed_edges_ok v :
  indexed v → edges_ok (edges v) (edge_parents_by_child v) (edge_ids_by_span v).
Proof. intros []; by split. Qed.

Lemma insert_edge_phase v0 v m e :
  block_phase v0 v m → is_Some (levels v !! parent_level e) →
  (edges v !! edge_id e = None ∨ edges v !! edge_id e = Some e) →
  N.of_nat (size (edges v)) < U64_MAX →
  ∃ v' m', insert_edge_step (v, m) e = Some (v', m') ∧ block_phase v0 v' m' ∧
    blocks v' = blocks v ∧ edges v' = <[edge_id e := e]> (edges v) ∧
    (∀ l, is_Some (levels v' !! l) ↔ is_Some (levels v !! l)).
Proof.
  intros [Hi Hc Hv Hk Hh] [s Hs] He Hsize. unfold insert_edge_step.
  destruct He as [He|He]; rewrite He.
  - pose proof (ix_usage _ Hi _ _ Hs) as Hu.
    pose proof (edge_usage_le_size (edges v) (parent_level e)) as Hle.
    unfold increment_parent_usage; simpl. rewrite Hs; simpl.
    rewrite checked_add_Some by lia. simpl. eexists _, _; split; [done|].
    assert (∀ l, is_Some (<[parent_level e := MkStoredLevel (value s) (usage_count s + 1)]>
                            (levels v) !! l) ↔ is_Some (levels v !! l)) as Hdom.
    { intros l. rewrite lookup_insert. case_decide; subst; rewrite ?Hs; naive_solver. }
    split; [|done]. split; [|apply captures_edge; simpl; [done..| |]|done..].
    + destruct (edges_ok_insert _ _ _ (edge_id e) e He eq_refl (indexed_edges_ok _ Hi))
        as [Ke Kp Ks].
      destruct Hi as [Kb _ Ib _ _ Iu Il]. split; simpl; try done.
      * intros l t. rewrite lookup_insert, edge_usage_insert_None by done.
        case_decide as Hl; [subst|]; [intros [= <-]; simpl; rewrite Hu; lia|].
        intros Ht. rewrite (Iu _ _ Ht). lia.
      * intros id x. rewrite lookup_insert, Hdom. case_decide; [intros [= <-]; eauto|apply Il].
    + intros l. rewrite lookup_insert. case_decide; subst; [by rewrite Hs|done].
    + intros k Hne. by apply lookup_insert_ne.
  - unfold assert_. rewrite decide_True by done. simpl. eexists _, _; split; [done|].
    rewrite insert_id by done. split; [|done]. split; try done. by apply captures_edge.
Qed.

Definition insert_edges (es : gmap EdgeId GraphEdge) (xs : list GraphEdge) : gmap EdgeId GraphEdge :=
  foldl (λ es e, <[edge_id e := e]> es) es xs.

Lemma lookup_insert_edges es xs id e :
  (∀ x y, x ∈ xs → y ∈ xs → edge_id x = edge_id y → x = y) →
  (∀ x, x ∈ xs → es !! edge_id x = None ∨ es !! edge_id x = Some x) →
  insert_edges es xs !! id = Some e ↔ es !! id = Some e ∨ (e ∈ xs ∧ edge_id e = id).
Proof.
  revert es; induction xs as [|x xs IH]; intros es H1 H2; simpl.
  - split; [tauto|]. intros [?|[Hn _]]; [done|by apply not_elem_of_nil in Hn].
  - unfold insert_edges in *; simpl. rewrite IH; clear IH.
    + rewrite elem_of_cons, lookup_insert. case_decide as Hid.
      * subst id. split.
        -- intros [[= <-]|[He Hid]]; right; auto.
        -- intros [Hs|[Hin Hid]]; left; f_equal.
           ++ destruct (H2 x) as [?|?]; [left|congruence..].
           ++ apply H1; [left|by apply elem_of_cons|done].
      * naive_solver.
    + intros y z Hy Hz. apply H1; by right.
    + intros y Hy. rewrite lookup_insert. case_decide as Hid; [right|apply H2; by right].
      f_equal. apply H1; [left|by right|done].
Qed.

Lemma size_insert_edges es xs :
  (size (insert_edges es xs) ≤ size es + length xs)%nat.
Proof.
  revert es; induction xs as [|x xs IH]; intros es; simpl; [lia|].
  unfold insert_edges in *; simpl. etrans; [apply IH|].
  destruct (es !! edge_id x) as [y|] eqn:E.
  - rewrite map_size_insert_Some by eauto. lia.
  - rewrite map_size_insert_None by done. lia.
Qed.

Lemma insert_edges_phase v0 v m xs :
  block_phase v0 v m →
  (∀ x, x ∈ xs → is_Some (levels v !! parent_level x)) →
  (∀ x y, x ∈ xs → y ∈ xs → edge_id x = edge_id y → x = y) →
  (∀ x, x ∈ xs → edges v !! edge_id x = None ∨ edges v !! edge_id x = Some x) →
  N.of_nat (size (edges v) + length xs) ≤ U64_MAX →
  ∃ v' m', fold_m insert_edge_step (v, m) xs = Some (v', m') ∧ block_phase v0 v' m' ∧
    blocks v' = blocks v ∧ edges v' = insert_edges (edges v) xs ∧
    (∀ l, is_Some (levels v' !! l) ↔ is_Some (levels v !! l)).
Proof.
  revert v m; induction xs as [|x xs IH]; intros v m Hp Hl H1 H2 Hs; cbn [fold_m].
  - by exists v, m.
  - cbn [length] in Hs.
    destruct (insert_edge_phase v0 v m x) as (v1 & m1 & -> & Hp1 & Hb1 & He1 & Hl1);
      [done|apply Hl; left|apply H2; left|lia|]. run_bind.
    destruct (IH v1 m1) as (v2 & m2 & -> & Hp2 & Hb2 & He2 & Hl2); [done|..].
    + intros y Hy. rewrite Hl1. apply Hl; by right.
    + intros y z Hy Hz. apply H1; by right.
    + intros y Hy. rewrite He1, lookup_insert. case_decide as Hid; [right|apply H2; by right].
      f_equal. apply H1; [left|by right|done].
    + rewrite He1. destruct (H2 x) as [Hn|Hx]; [left| |].
      * rewrite map_size_insert_None by done. lia.
      * rewrite insert_id by done. lia.
    + exists v2, m2. split; [done|]. split; [done|]. split; [congruence|].
      split; [by rewrite He2, He1|]. intros l. by rewrite Hl2, Hl1.
Qed.

(** * Pruning blocks *)

Lemma prune_block_levels_spec ks ix acc :
  NoDup ks → (∀ k, k ∈ ks → is_Some (ix !! k)) →
  (∀ k1 k2 h, h ∈ mm_get ix k1 → h ∈ mm_get ix k2 → k1 = k2) →
  ∃ ix' hs, fold_m prune_block_level_step (ix, acc) ks = Some (ix', acc ++ hs) ∧
    (∀ k, ix' !! k = if decide (k ∈ ks) then None else ix !! k) ∧
    (∀ h, h ∈ hs ↔ ∃ k, k ∈ ks ∧ h ∈ mm_get ix k) ∧ NoDup hs.
Proof.
  revert ix acc; induction ks as [|k ks IH]; intros ix acc; cbn [fold_m].
  - intros _ _ _. exists ix, []. rewrite app_nil_r. split; [done|]. split; [done|].
    split; [|constructor]. intros h. split; [by intros ?%not_elem_of_nil|].
    by intros (k & ?%not_elem_of_nil & _).
  - intros [Hk Hn]%NoDup_cons Hdom Hdisj.
    destruct (Hdom k) as [s Es]; [left|].
    assert (prune_block_level_step (ix, acc) k = Some (delete k ix, acc ++ elements s)) as ->
      by (unfold prune_block_level_step; simpl; by rewrite Es). run_bind.
    assert (∀ j, mm_get (delete k ix) j = if decide (k = j) then ∅ else mm_get ix j) as Hg
      by apply mm_get_delete.
    destruct (IH (delete k ix) (acc ++ elements s)) as (ix' & hs & -> & Hix & Hhs & Hnd).
    { done. }
    { intros j Hj. rewrite lookup_delete_ne by (intros ->; done). apply Hdom. by right. }
    { intros k1 k2 h. rewrite !Hg. repeat case_decide; set_solver. }
    exists ix', (elements s ++ hs). rewrite app_assoc. split; [done|].
    assert (∀ h, h ∈ hs ↔ ∃ j, j ∈ ks ∧ h ∈ mm_get ix j) as Hhs'.
    { intros h. rewrite Hhs. split; intros (j & Hj & Hin); exists j; (split; [done|]);
        rewrite Hg, decide_False in * by (intros ->; done); done. }
    split_and!.
    + intros j. rewrite Hix, lookup_delete.
      destruct (decide (j ∈ ks)), (decide (j ∈ k :: ks)), (decide (k = j)); set_solver.
    + intros h. rewrite elem_of_app, elem_of_elements, Hhs'. split.
      * intros [Hs|(j & Hj & Hin)]; [exists k|exists j]; split; try done.
        -- left.
        -- by rewrite (mm_lookup_get _ _ _ Es).
        -- by right.
      * intros (j & [->|Hj]%elem_of_cons & Hin); [left|right; eauto].
        by rewrite (mm_lookup_get _ _ _ Es) in Hin.
    + apply NoDup_app. split; [apply NoDup_elements|]. split; [|done].
      intros h Hs%elem_of_elements (j & Hj & Hin)%Hhs'.
      assert (k = j) as -> by (eapply Hdisj; [|done]; by rewrite (mm_lookup_get _ _ _ Es)). done.
Qed.

Lemma prune_blocks_spec hs v0 v m :
  NoDup hs → (∀ h, h ∈ hs → is_Some (blocks v !! h)) →
  captures m v0 v → m_is_in_vspc m = ∅ → m_colors m = ∅ →
  ∃ m' bs, fold_m prune_block_step (v, m) hs
           = Some (set_blocks bs (block_hashes_by_level v) v, m') ∧
    captures m' v0 (set_blocks bs (block_hashes_by_level v) v) ∧
    m_is_in_vspc m' = ∅ ∧ m_colors m' = ∅ ∧
    (∀ h, bs !! h = if decide (h ∈ hs) then None else blocks v !! h).
Proof.
  revert v m; induction hs as [|h hs IH]; intros v m; cbn [fold_m].
  - intros _ _ Hc Hv Hk. exists m, (blocks v). destruct v. done.
  - intros [Hh Hn]%NoDup_cons Hdom Hc Hv Hk.
    destruct (Hdom h) as [b Eb]; [left|].
    assert (prune_block_step (v, m) h
            = Some (set_blocks (delete h (blocks v)) (block_hashes_by_level v) v,
                    capture_block (blocks v) h m)) as ->
      by (unfold prune_block_step; rewrite Eb; simpl; by rewrite (capture_removed_block_eq v _ _ _ Eb)).
    run_bind.
    destruct (IH (set_blocks (delete h (blocks v)) (block_hashes_by_level v) v)
                (capture_block (blocks v) h m)) as (m' & bs & -> & Hc' & Hv' & Hk' & Hbs).
    + done.
    + intros k Hk'. simpl. rewrite lookup_delete_ne by (intros ->; done). apply Hdom. by right.
    + apply captures_block; try done. intros k Hne. simpl. by apply lookup_delete_ne.
    + done.
    + done.
    + exists m', bs. split; [done|]. split; [done|]. split; [done|]. split; [done|].
      intros k. rewrite Hbs. simpl. rewrite lookup_delete.
      destruct (decide (k ∈ hs)), (decide (k ∈ h :: hs)), (decide (h = k)); set_solver.
Qed.

(** * Pruning edges and levels *)

Lemma prune_edge_phase v0 v m id e :
  block_phase v0 v m → edges v !! id = Some e →
  ∃ v' m', prune_edge_step (v, m) id = Some (v', m') ∧ block_phase v0 v' m' ∧
    blocks v' = blocks v ∧ edges v' = delete id (edges v) ∧
    (∀ l, is_Some (levels v' !! l) ↔ is_Some (levels v !! l)).
Proof.
  intros [Hi Hc Hv Hk Hh] He. unfold prune_edge_step. rewrite He. simpl.
  destruct (ix_parent_level _ Hi _ _ He) as [s Hs].
  pose proof (ix_usage _ Hi _ _ Hs) as Hu.
  pose proof (edge_usage_delete _ _ _ (parent_level e) He) as Hd. rewrite decide_True in Hd by done.
  unfold decrement_parent_usage; simpl. rewrite Hs; simpl.
  rewrite checked_sub_Some by lia. simpl. eexists _, _; split; [done|].
  rewrite (capture_removed_edge_eq v _ _ _ He).
  assert (∀ l, is_Some (<[parent_level e := MkStoredLevel (value s) (usage_count s - 1)]>
                          (levels v) !! l) ↔ is_Some (levels v !! l)) as Hdom.
  { intros l. rewrite lookup_insert. case_decide; subst; rewrite ?Hs; naive_solver. }
  split; [|done]. split; [|apply captures_edge; simpl; [done..| |]|done..].
  - pose proof (edges_ok_delete _ _ _ _ _ He (indexed_edges_ok _ Hi)) as [Ke Kp Ks].
    pose proof (ix_edge_key _ Hi _ _ He) as Hid.
    destruct Hi as [Kb _ Ib _ _ Iu Il]. split; simpl; rewrite ?Hid; try done.
    + intros l t. rewrite lookup_insert. pose proof (edge_usage_delete _ _ _ l He) as Hl'.
      case_decide as Hl; [subst l; intros [= <-]; simpl; lia|].
      intros Ht. rewrite (Iu _ _ Ht). lia.
    + intros k x. rewrite lookup_delete, Hdom. case_decide; [done|apply Il].
  - intros l. rewrite lookup_insert. case_decide; subst; [by rewrite Hs|done].
  - intros k Hne. by apply lookup_delete_ne.
Qed.

Lemma prune_edges_phase ids v0 v m :
  NoDup ids → (∀ id, id ∈ ids → is_Some (edges v !! id)) → block_phase v0 v m →
  ∃ v' m', fold_m prune_edge_step (v, m) ids = Some (v', m') ∧ block_phase v0 v' m' ∧
    blocks v' = blocks v ∧
    (∀ id, edges v' !! id = if decide (id ∈ ids) then None else edges v !! id) ∧
    (∀ l, is_Some (levels v' !! l) ↔ is_Some (levels v !! l)).
Proof.
  revert v m; induction ids as [|id ids IH]; intros v m; cbn [fold_m].
  - intros _ _ Hp. by exists v, m.
  - intros [Hid Hn]%NoDup_cons Hdom Hp. destruct (Hdom id) as [e He]; [left|].
    destruct (prune_edge_phase v0 v m id e Hp He) as (v1 & m1 & -> & Hp1 & Hb1 & He1 & Hl1).
    run_bind.
    destruct (IH v1 m1) as (v2 & m2 & -> & Hp2 & Hb2 & He2 & Hl2); [done| |done|].
    + intros k Hk. rewrite He1, lookup_delete_ne by (intros ->; done). apply Hdom. by right.
    + exists v2, m2. split; [done|]. split; [done|]. split; [congruence|]. split.
      * intros k. rewrite He2, He1, lookup_delete.
        destruct (decide (k ∈ ids)), (decide (k ∈ id :: ids)), (decide (id = k)); set_solver.
      * intros l. by rewrite Hl2, Hl1.
Qed.

Lemma prune_level_phase v0 v m l s :
  block_phase v0 v m → levels v !! l = Some s → usage_count s = 0 →
  ∃ v' m', prune_level_step (v, m) l = Some (v', m') ∧ block_phase v0 v' m' ∧
    blocks v' = blocks v ∧ edges v' = edges v ∧ levels v' = delete l (levels v).
Proof.
  intros [Hi Hc Hv Hk Hh] Hl Hu. unfold prune_level_step. rewrite Hl. simpl.
  eexists _, _; split; [done|]. rewrite (capture_removed_level_eq v _ _ _ Hl).
  split; [|done]. split; [|apply captures_level; simpl; [done..|]|done..].
  - pose proof (ix_usage _ Hi _ _ Hl) as Hz. rewrite Hu in Hz. symmetry in Hz.
    rewrite edge_usage_zero in Hz.
    destruct Hi as [Kb Ke Ib Ip Is Iu Il]. split; simpl; try done.
    + intros k t. rewrite lookup_delete. case_decide; [done|apply Iu].
    + intros id e He. rewrite lookup_delete_ne; [by eapply Il|]. intros Heq. by apply (Hz id e He).
  - intros k Hne. by rewrite lookup_delete_ne.
Qed.

Lemma prune_levels_phase ks v0 v m :
  NoDup ks → (∀ l, l ∈ ks → ∃ s, levels v !! l = Some s ∧ usage_count s = 0) →
  block_phase v0 v m →
  ∃ v' m', fold_m prune_level_step (v, m) ks = Some (v', m') ∧ block_phase v0 v' m' ∧
    blocks v' = blocks v ∧ edges v' = edges v ∧
    (∀ l, levels v' !! l = if decide (l ∈ ks) then None else levels v !! l).
Proof.
  revert v m; induction ks as [|l ks IH]; intros v m; cbn [fold_m].
  - intros _ _ Hp. by exists v, m.
  - intros [Hl Hn]%NoDup_cons Hdom Hp. destruct (Hdom l) as (s & Hs & Hu); [left|].
    destruct (prune_level_phase v0 v m l s Hp Hs Hu) as (v1 & m1 & -> & Hp1 & Hb1 & He1 & Hl1).
    run_bind.
    destruct (IH v1 m1) as (v2 & m2 & -> & Hp2 & Hb2 & He2 & Hl2); [done| |done|].
    + intros k Hk. rewrite Hl1, lookup_delete_ne by (intros ->; done). apply Hdom. by right.
    + exists v2, m2. split; [done|]. split; [done|]. split; [congruence|]. split; [congruence|].
      intros k. rewrite Hl2, Hl1, lookup_delete.
      destruct (decide (k ∈ ks)), (decide (k ∈ l :: ks)), (decide (l = k)); set_solver.
Qed.

(** * Pruning below a level *)

Lemma fst_filter_btree {A} (P : N * A → Prop) `{∀ x, Decision (P x)} (mp : gmap N A) k :
  k ∈ (btree_to_list (filter P mp)).*1 ↔ ∃ x, mp !! k = Some x ∧ P (k, x).
Proof.
  rewrite list_elem_of_fmap. split.
  - intros ([j x] & -> & [? ?]%elem_of_btree_to_list%map_lookup_filter_Some). eauto.
  - intros (x & ? & ?). exists (k, x). split; [done|].
    apply elem_of_btree_to_list. by apply map_lookup_filter_Some.
Qed.

(** The ids of the retained edges whose child is in [hs]. *)
Definition edges_of_children v (hs : list BlockHash) : list EdgeId :=
  hs ≫= λ c, (λ p, MkEdgeId p c) <$> elements (mm_get (edge_parents_by_child v) c).

Lemma elem_of_edges_of_children v hs id :
  indexed v → id ∈ edges_of_children v hs ↔ child id ∈ hs ∧ is_Some (edges v !! id).
Proof.
  intros Hi. unfold edges_of_children. rewrite list_elem_of_bind. split.
  - intros (c & Hin & Hc). apply list_elem_of_fmap in Hin as (p & -> & Hp%elem_of_elements).
    split; [done|]. by apply (proj2 (ix_parents _ Hi)).
  - destruct id as [p c]; simpl. intros [Hc He]. exists c. split; [|done].
    apply list_elem_of_fmap. exists p. split; [done|]. apply elem_of_elements.
    by apply (proj2 (ix_parents _ Hi)).
Qed.

Lemma NoDup_edges_of_children v hs : NoDup hs → NoDup (edges_of_children v hs).
Proof.
  induction 1 as [|h hs Hh Hn IH]; [constructor|]. unfold edges_of_children in *; simpl.
  apply NoDup_app. split_and!.
  - apply NoDup_fmap; [|apply NoDup_elements]. intros p q [=]. done.
  - intros id Hin1 Hin2. apply list_elem_of_fmap in Hin1 as (p & -> & _).
    apply list_elem_of_bind in Hin2 as (c & Hin & Hc).
    apply list_elem_of_fmap in Hin as (q & [= _ ->] & _). done.
  - done.
Qed.

Definition pruned_child v (low : N) (id : EdgeId) : Prop :=
  ∃ b, blocks v !! child id = Some b ∧ block_level b < low.

Lemma block_index_disjoint v k1 k2 h :
  indexed v → h ∈ mm_get (block_hashes_by_level v) k1 →
  h ∈ mm_get (block_hashes_by_level v) k2 → k1 = k2.
Proof.
  intros Hi. rewrite !(proj2 (ix_blocks _ Hi)). intros (b & Hb & <-) (b' & Hb' & <-). congruence.
Qed.

(** The two block loops together: exactly the blocks below [low] go. *)
Lemma prune_block_loops v0 v m low :
  block_phase v0 v m →
  ∃ ix hs v1 m1,
    fold_m prune_block_level_step (block_hashes_by_level v, [])
      (btree_to_list (filter (λ '(l, _), l < low) (block_hashes_by_level v))).*1 = Some (ix, hs) ∧
    fold_m prune_block_step (set_blocks (blocks v) ix v, m) hs = Some (v1, m1) ∧
    block_phase v0 v1 m1 ∧ NoDup hs ∧ edges v1 = edges v ∧ levels v1 = levels v ∧
    edge_parents_by_child v1 = edge_parents_by_child v ∧
    (∀ h, h ∈ hs ↔ ∃ b, blocks v !! h = Some b ∧ block_level b < low) ∧
    (∀ h b, blocks v1 !! h = Some b ↔ blocks v !! h = Some b ∧ low ≤ block_level b).
Proof.
  intros [Hi Hc Hv Hk Hh]. pose proof (proj2 (ix_blocks _ Hi)) as Hix.
  destruct (prune_block_levels_spec
    (btree_to_list (filter (λ '(l, _), l < low) (block_hashes_by_level v))).*1
    (block_hashes_by_level v) []) as (ix & hs & -> & Hix' & Hhs & Hnd).
  { apply NoDup_btree_to_list. }
  { intros k (x & -> & _)%fst_filter_btree. eauto. }
  { intros k1 k2 h. by apply block_index_disjoint. }
  assert (∀ h, h ∈ hs ↔ ∃ b, blocks v !! h = Some b ∧ block_level b < low) as Hhs'.
  { intros h. rewrite Hhs. split.
    - intros (k & (x & Hx & Hlt)%fst_filter_btree & Hin). apply Hix in Hin as (b & Hb & <-). eauto.
    - intros (b & Hb & Hlt). assert (h ∈ mm_get (block_hashes_by_level v) (block_level b)) as Hin
        by (apply Hix; eauto). exists (block_level b). split; [|done].
      destruct (mm_lookup_Some _ _ _ (proj1 (ix_blocks _ Hi)) Hin) as [s Hs].
      apply fst_filter_btree. by exists s. }
  destruct (prune_blocks_spec hs v0 (set_blocks (blocks v) ix v) m)
    as (m1 & bs & Hrun & Hc1 & Hv1 & Hk1 & Hbs); [done| |by eapply captures_same|done..|].
  { intros h (b & Hb & _)%Hhs'. eauto. }
  simpl in *.
  assert (∀ h b, bs !! h = Some b ↔ blocks v !! h = Some b ∧ low ≤ block_level b) as Hbs'.
  { intros h b. rewrite Hbs. case_decide as Hin; rewrite Hhs' in Hin.
    - split; [done|]. intros [Hb Hle]. destruct Hin as (b' & Hb' & Hlt). simplify_eq. lia.
    - split; [|naive_solver]. intros Hb. split; [done|].
      destruct (decide (low ≤ block_level b)); [done|]. destruct Hin. exists b. split; [done|lia]. }
  eexists ix, hs, _, m1. split; [done|]. split; [exact Hrun|]. split_and!; try done.
  split; try done. destruct Hi as [Kb Ke [Wb Ib] Ip Is Iu Il]. split; simpl; try done.
  - intros h b [Hb _]%Hbs'. by apply Kb.
  - split.
    + intros k s. rewrite Hix'. case_decide; [done|]. apply Wb.
    + intros l h. unfold mm_get. rewrite Hix'. case_decide as Hin.
      * simpl. split; [by intros ?%not_elem_of_empty|].
        apply fst_filter_btree in Hin as (x & _ & Hlt). intros (b & [_ Hle]%Hbs' & <-). lia.
      * change (h ∈ mm_get (block_hashes_by_level v) l ↔ ∃ b, bs !! h = Some b ∧ block_level b = l).
        rewrite Ib. split; intros (b & Hb & <-); exists b; (split; [|done]);
          apply Hbs' || apply Hbs' in Hb; [|naive_solver]. split; [done|].
        destruct (decide (low ≤ block_level b)) as [|Hlt]; [done|]. destruct Hin.
        destruct (mm_lookup_Some (block_hashes_by_level v) (block_level b) h Wb) as [s Hs];
          [apply Ib; eauto|]. apply fst_filter_btree. exists s. split; [done|lia].
Qed.

(** Pruning never panics on an indexed view and removes exactly the blocks
    below [low], the edges of those blocks, and the levels below [low] that no
    remaining edge uses. *)
Lemma prune_below_phase v0 v m low :
  block_phase v0 v m →
  ∃ v' m', prune_below low v m = Some (v', m') ∧ block_phase v0 v' m' ∧
    (∀ h b, blocks v' !! h = Some b ↔ blocks v !! h = Some b ∧ low ≤ block_level b) ∧
    (∀ id e, edges v' !! id = Some e ↔ edges v !! id = Some e ∧ ¬ pruned_child v low id) ∧
    (∀ l, is_Some (levels v' !! l) ↔
       is_Some (levels v !! l) ∧ (low ≤ l ∨ edge_usage (edges v') l ≠ 0)).
Proof.
  intros Hp. unfold prune_below.
  destruct (prune_block_loops v0 v m low Hp)
    as (ix & hs & v1 & m1 & -> & Hrun & Hp1 & Hnd & He1 & Hl1 & Hpi1 & Hhs & Hb1).
  simpl. rewrite Hrun. simpl.
  change (hs ≫= λ c, (λ p, MkEdgeId p c) <$> elements (mm_get (edge_parents_by_child v1) c))
    with (edges_of_children v1 hs).
  destruct (prune_edges_phase (edges_of_children v1 hs) v0 v1 m1)
    as (v2 & m2 & -> & Hp2 & Hb2 & He2 & Hl2); [by apply NoDup_edges_of_children| |done|].
  { intros id Hid. by apply elem_of_edges_of_children in Hid as [_ ?]; [|apply Hp1]. }
  simpl.
  destruct (prune_levels_phase
    (btree_to_list (filter (λ '(l, stored), l < low ∧ usage_count stored = 0) (levels v2))).*1
    v0 v2 m2) as (v3 & m3 & -> & Hp3 & Hb3 & He3 & Hl3); [apply NoDup_btree_to_list| |done|].
  { intros l (s & Hs & _ & Hu)%fst_filter_btree. eauto. }
  exists v3, m3. split; [done|]. split; [done|]. split_and!.
  - intros h b. by rewrite Hb3, Hb2.
  - intros id e. rewrite He3, He2, He1. case_decide as Hin.
    + apply elem_of_edges_of_children in Hin as [Hc _]; [|apply Hp1].
      split; [done|]. intros [_ Hn]. by apply Hhs in Hc.
    + split; [|naive_solver]. intros He. split; [done|]. intros Hc%Hhs. destruct Hin.
      apply elem_of_edges_of_children; [apply Hp1|]. rewrite He1. eauto.
  - intros l. rewrite Hl3, <- Hl1, <- Hl2, He3. case_decide as Hin.
    + apply fst_filter_btree in Hin as (s & Hs & Hlt & Hu).
      rewrite <- (ix_usage _ (bp_indexed _ _ _ Hp2) _ _ Hs), Hu. split; [by intros []|lia].
    + split; [|naive_solver]. intros [s Hs]. split; [eauto|].
      destruct (decide (low ≤ l)); [by left|right]. intros Hu. destruct Hin.
      apply fst_filter_btree. exists s. split; [done|]. split; [lia|].
      by rewrite (ix_usage _ (bp_indexed _ _ _ Hp2) _ _ Hs).
Qed.
End phases.
