(* ===== verification/HeadView.v ===== *)
(** Head views under committed blocks and VSPC transitions: the Head invariant,
    totality of the updates, and replay of the emitted delta. *)

From S2P Require Import Prelude Model Delta GraphView ViewInvariant ApplyDelta Compose Mutation.
From S2P Require Import HeadBlock.

Section head.
Context {KH : KaspaHash}.
Implicit Types (v : GraphView) (m : GraphMutation) (d : GraphDelta).

(** The invariant of a Head view: indexed, canonical extent for its highest
    level, every retained block inside it, every edge hanging from a retained
    child, and exactly the nominal and used parent levels retained. *)
Record head_inv v : Prop := {
  hv_indexed : indexed v;
  hv_policy : tracking_policy v = Head;
  hv_depth : 0 < max_depth v;
  hv_high : 0 < high_level (extent v);
  hv_extent : head_extent (max_depth v) (high_level (extent v)) = Some (extent v);
  hv_blocks : ∀ h b, blocks v !! h = Some b → contains_level (extent v) (block_level b);
  hv_children : ∀ id e, edges v !! id = Some e →
    ∃ b, blocks v !! child id = Some b ∧ coordinate b = child_coordinate e;
  hv_parents : ∀ id e, edges v !! id = Some e → parent_level e < child_level e;
  hv_nominal : ∀ l, contains_level (extent v) l → is_Some (levels v !! l);
  hv_minimal : ∀ l, is_Some (levels v !! l) →
    contains_level (extent v) l ∨ edge_usage (edges v) l ≠ 0
}.

(** What Storage guarantees of a committed block meeting the view. *)
Record block_payload_ok (c : BlockCommitted) v : Prop := {
  po_fresh : blocks v !! bc_hash c = None;
  po_level : 0 < coord_level (bc_coordinate c) ≤ high_level (extent v) + 1;
  po_parents : ∀ p pc, p ∈ bc_direct_parents c → pc_coordinate p = Some pc →
    coord_level pc < coord_level (bc_coordinate c);
  po_agree : ∀ p q, p ∈ bc_direct_parents c → q ∈ bc_direct_parents c →
    pc_hash p = pc_hash q → pc_coordinate p = pc_coordinate q;
  po_own_level : coord_level (bc_coordinate c) ∈ (lc_level <$> bc_level_snapshots c);
  po_parent_level : ∀ p pc, p ∈ bc_direct_parents c → pc_coordinate p = Some pc →
    is_Some (levels v !! coord_level pc) ∨ coord_level pc ∈ (lc_level <$> bc_level_snapshots c);
  po_bound : N.of_nat (size (edges v) + length (bc_direct_parents c)) ≤ U64_MAX;
  po_revision : current_revision_id v < U64_MAX
}.

(** * Retained edges of a payload *)

Lemma elem_of_retained_edges c target e :
  e ∈ retained_edges c target ↔
  intersects_span target (parent_level e) (child_level e) ∧
  ∃ p pc, p ∈ bc_direct_parents c ∧ pc_coordinate p = Some pc ∧
    e = MkGraphEdge (MkEdgeId (pc_hash p) (bc_hash c)) pc (bc_coordinate c).
Proof.
  unfold retained_edges. rewrite list_elem_of_filter, list_elem_of_omap. split.
  - intros [Hs (p & Hp & He)]. split; [done|]. destruct (pc_coordinate p) as [pc|] eqn:E; [|done].
    simplify_eq/=. by exists p, pc.
  - intros [Hs (p & pc & Hp & Hpc & ->)]. split; [done|]. exists p. by rewrite Hpc.
Qed.

Lemma length_retained_edges c target :
  (length (retained_edges c target) ≤ length (bc_direct_parents c))%nat.
Proof.
  unfold retained_edges. etrans; [apply length_filter|]. apply length_omap_le.
Qed.

Lemma elem_of_retained_endpoint_levels es l :
  l ∈ retained_endpoint_levels es ↔ ∃ e, e ∈ es ∧ (l = parent_level e ∨ l = child_level e).
Proof.
  unfold retained_endpoint_levels. rewrite elem_of_list_to_set, list_elem_of_bind. split.
  - intros (e & Hl & He). exists e. split; [done|]. set_solver.
  - intros (e & He & Hl). exists e. split; [|done]. set_solver.
Qed.

(** * Projecting a committed block onto an indexed view *)

Record projection_pre (c : BlockCommitted) (target : LevelExtent) v : Prop := {
  pp_fresh : contains_level target (coord_level (bc_coordinate c)) → blocks v !! bc_hash c = None;
  pp_edge : ∀ e, e ∈ retained_edges c target →
    edges v !! edge_id e = None ∨ edges v !! edge_id e = Some e;
  pp_agree : ∀ p q, p ∈ bc_direct_parents c → q ∈ bc_direct_parents c →
    pc_hash p = pc_hash q → pc_coordinate p = pc_coordinate q;
  pp_level : ∀ e, e ∈ retained_edges c target →
    is_Some (levels v !! parent_level e) ∨ parent_level e ∈ (lc_level <$> bc_level_snapshots c);
  pp_bound : N.of_nat (size (edges v) + length (bc_direct_parents c)) ≤ U64_MAX
}.

Lemma retained_edges_agree c target x y :
  (∀ p q, p ∈ bc_direct_parents c → q ∈ bc_direct_parents c →
    pc_hash p = pc_hash q → pc_coordinate p = pc_coordinate q) →
  x ∈ retained_edges c target → y ∈ retained_edges c target → edge_id x = edge_id y → x = y.
Proof.
  intros Ha (_ & p & pc & Hp & Hpc & ->)%elem_of_retained_edges
    (_ & q & qc & Hq & Hqc & ->)%elem_of_retained_edges. simpl. intros [= Heq].
  specialize (Ha p q Hp Hq Heq). congruence.
Qed.

(** The blocks after a projection. *)
Definition projected_blocks (c : BlockCommitted) (target : LevelExtent) v :
    gmap BlockHash GraphBlock :=
  if decide (contains_level target (coord_level (bc_coordinate c)))
  then <[bc_hash c := graph_block_from_committed c]> (blocks v) else blocks v.

Lemma apply_block_projection_phase c target v0 v m :
  block_phase v0 v m → projection_pre c target v →
  ∃ v' m', apply_block_projection c target v m = Some (v', m') ∧ block_phase v0 v' m' ∧
    blocks v' = projected_blocks c target v ∧
    edges v' = insert_edges (edges v) (retained_edges c target) ∧
    (∀ l, is_Some (levels v' !! l) ↔ is_Some (levels v !! l) ∨
       (l ∈ (lc_level <$> bc_level_snapshots c) ∧
        (contains_level target l ∨ l ∈ retained_endpoint_levels (retained_edges c target)))).
Proof.
  intros Hp [Pf Pe Pa Pl Pb]. unfold apply_block_projection.
  assert (∃ v1 m1, (if decide (contains_level target (block_level (graph_block_from_committed c)))
    then v' ← insert_block (graph_block_from_committed c) v;
         Some (v', capture_block (blocks v) (hash (graph_block_from_committed c)) m)
    else Some (v, m)) = Some (v1, m1) ∧ block_phase v0 v1 m1 ∧
    blocks v1 = projected_blocks c target v ∧ edges v1 = edges v ∧ levels v1 = levels v)
    as (v1 & m1 & -> & Hp1 & Hb1 & He1 & Hl1).
  { unfold projected_blocks.
    change (block_level (graph_block_from_committed c)) with (coord_level (bc_coordinate c)).
    case_decide as Hin; [|by exists v, m].
    destruct (insert_block_phase v0 v m (graph_block_from_committed c) Hp (Pf Hin))
      as (v1 & -> & ? & ? & ? & ?). by eexists _, _. }
  run_bind.
  pose proof (apply_snapshots_phase v0 v1 m1 target
    (retained_endpoint_levels (retained_edges c target)) (bc_level_snapshots c) Hp1) as Hs.
  destruct (foldl _ (v1, m1) (bc_level_snapshots c)) as [v2 m2].
  destruct Hs as (Hp2 & Hb2 & He2 & Hl2). rewrite Hl1 in Hl2.
  destruct (insert_edges_phase v0 v2 m2 (retained_edges c target))
    as (v3 & m3 & -> & Hp3 & Hb3 & He3 & Hl3); [done|..].
  - intros e He. apply Hl2. destruct (Pl e He) as [?|?]; [by left|right]. split; [done|right].
    apply elem_of_retained_endpoint_levels. eauto.
  - intros x y. by apply retained_edges_agree.
  - intros e He. rewrite He2, He1. by apply Pe.
  - rewrite He2, He1. pose proof (length_retained_edges c target). lia.
  - exists v3, m3. split; [done|]. split; [done|]. split; [congruence|]. split; [congruence|].
    intros l. by rewrite Hl3, Hl2.
Qed.

(** * Committed blocks on a Head view *)

Definition head_target (c : BlockCommitted) v : LevelExtent :=
  let high := N.max (high_level (extent v)) (coord_level (bc_coordinate c)) in
  MkLevelExtent (N.max (saturating_sub high (max_depth v - 1)) 1) high.

Lemma head_target_low c v :
  head_inv v → low_level (extent v) ≤ low_level (head_target c v) ∧
  low_level (head_target c v) ≤ high_level (head_target c v) ∧ 0 < low_level (head_target c v).
Proof.
  intros Hv. destruct (head_extent_inv _ _ _ (hv_extent _ Hv)) as [Hx _].
  assert (low_level (extent v)
          = N.max (saturating_sub (high_level (extent v)) (max_depth v - 1)) 1) as -> by (by rewrite Hx at 1).
  pose proof (hv_high _ Hv). unfold head_target, saturating_sub; simpl. lia.
Qed.

Lemma head_projection_pre c v :
  head_inv v → block_payload_ok c v → projection_pre c (head_target c v) v.
Proof.
  intros Hv [Pf Pl Pp Pa Po Ppl Pb Pr]. split; try done.
  - intros e (_ & p & pc & Hp & Hpc & ->)%elem_of_retained_edges. left. simpl.
    destruct (edges v !! _) as [x|] eqn:Ex; [|done].
    destruct (hv_children _ Hv _ _ Ex) as (b & Hb & _). simpl in Hb. congruence.
  - intros e (_ & p & pc & Hp & Hpc & ->)%elem_of_retained_edges. by eapply Ppl.
Qed.

Lemma head_retained_edge c v e :
  head_inv v → block_payload_ok c v → e ∈ retained_edges c (head_target c v) →
  child (edge_id e) = bc_hash c ∧ child_coordinate e = bc_coordinate c ∧
  parent_level e < child_level e ∧
  contains_level (head_target c v) (coord_level (bc_coordinate c)).
Proof.
  intros Hv Hp ([Hlow Hhigh] & p & pc & Hin & Hpc & ->)%elem_of_retained_edges.
  unfold parent_level, child_level in *; simpl in *. split_and!; try done.
  - by eapply (po_parents _ _ Hp).
  - unfold contains_level. split; [done|]. unfold head_target; simpl. lia.
Qed.

(** What the projected and pruned view looks like, before the extent is set. *)
Lemma head_update_inv c v v1 v2 m2 :
  head_inv v → block_payload_ok c v →
  block_phase v v2 m2 →
  blocks v1 = projected_blocks c (head_target c v) v →
  edges v1 = insert_edges (edges v) (retained_edges c (head_target c v)) →
  (∀ l, is_Some (levels v1 !! l) ↔ is_Some (levels v !! l) ∨
     (l ∈ (lc_level <$> bc_level_snapshots c) ∧
      (contains_level (head_target c v) l ∨
       l ∈ retained_endpoint_levels (retained_edges c (head_target c v))))) →
  (∀ h b, blocks v2 !! h = Some b ↔
     blocks v1 !! h = Some b ∧ low_level (head_target c v) ≤ block_level b) →
  (∀ id e, edges v2 !! id = Some e ↔
     edges v1 !! id = Some e ∧ ¬ pruned_child v1 (low_level (head_target c v)) id) →
  (∀ l, is_Some (levels v2 !! l) ↔ is_Some (levels v1 !! l) ∧
     (low_level (head_target c v) ≤ l ∨ edge_usage (edges v2) l ≠ 0)) →
  head_inv (set_extent (head_target c v) v2).
Proof.
  intros Hv Hpay Hph Hb1 He1 Hl1 Hb2 He2 Hl2.
  destruct (head_target_low c v Hv) as (Hlow & Hord & Hpos).
  set (T := head_target c v) in *.
  assert (high_level (extent v) ≤ high_level T) as HhE by (unfold T, head_target; simpl; lia).
  assert (coord_level (bc_coordinate c) ≤ high_level T) as HhC by (unfold T, head_target; simpl; lia).
  assert (head_extent (max_depth v) (high_level T) = Some T) as HTx
    by (apply head_extent_Some; lia).
  assert (∀ l, l ≤ high_level T → high_level (extent v) < l → l = coord_level (bc_coordinate c))
    as Hnew by (pose proof (po_level _ _ Hpay); unfold T, head_target; simpl; lia).
  pose proof (head_projection_pre c v Hv Hpay) as Hpre. fold T in Hpre.
  pose proof (head_retained_edge c v) as Hret. fold T in Hret. clearbody T.
  destruct (bp_header _ _ _ Hph) as (Hd & _ & _ & _ & Hpol).
  assert (∀ h b, blocks v1 !! h = Some b → blocks v !! h = Some b ∨
    (b = graph_block_from_committed c ∧ h = bc_hash c ∧
     contains_level T (coord_level (bc_coordinate c)))) as Hblk.
  { intros h b. rewrite Hb1. unfold projected_blocks. case_decide; [|by left].
    rewrite lookup_insert. case_decide; [|by left]. intros [= <-]. right. done. }
  assert (∀ id e, edges v1 !! id = Some e → edges v !! id = Some e ∨
    (e ∈ retained_edges c T ∧ edge_id e = id)) as Hedg.
  { intros id e. rewrite He1, lookup_insert_edges; [done| |].
    - intros x y. apply retained_edges_agree, Hpay.
    - apply (pp_edge _ _ _ Hpre). }
  split; simpl.
  - destruct (bp_indexed _ _ _ Hph); by split.
  - rewrite Hpol. apply Hv.
  - rewrite Hd. apply Hv.
  - lia.
  - by rewrite Hd.
  - intros h b [Hb Hle]%Hb2. split; [done|].
    destruct (Hblk _ _ Hb) as [Hold|(-> & _ & _ & ?)]; [|done].
    apply (hv_blocks _ Hv) in Hold as [_ ?]. lia.
  - intros id e [He Hn]%He2.
    destruct (Hedg _ _ He) as [Hold|[Hin <-]].
    + destruct (hv_children _ Hv _ _ Hold) as (b & Hb & Hcoord). exists b. split; [|done].
      assert (blocks v1 !! child id = Some b) as Hb'.
      { rewrite Hb1. unfold projected_blocks. case_decide; [|done].
        rewrite lookup_insert_ne; [done|]. intros Heq.
        pose proof (po_fresh _ _ Hpay). congruence. }
      apply Hb2. split; [done|]. destruct (decide (low_level T ≤ block_level b)); [done|].
      destruct Hn. exists b. split; [done|lia].
    + destruct (Hret e Hv Hpay Hin) as (-> & -> & _ & Hc).
      exists (graph_block_from_committed c). split; [|done]. apply Hb2. split.
      * rewrite Hb1. unfold projected_blocks. rewrite decide_True by done. apply lookup_insert_eq.
      * apply Hc.
  - intros id e [He _]%He2. destruct (Hedg _ _ He) as [Hold|[Hin <-]].
    + by apply (hv_parents _ Hv id).
    + by apply Hret.
  - intros l [Hl Hh]. apply Hl2. split; [|by left]. apply Hl1.
    destruct (decide (l ≤ high_level (extent v))) as [Hle|Hgt].
    + left. apply (hv_nominal _ Hv). split; lia.
    + right. assert (l = coord_level (bc_coordinate c)) as -> by (apply Hnew; lia).
      split; [apply Hpay|]. left. split; [done|lia].
  - intros l [Hs Hor]%Hl2.
    destruct (decide (edge_usage (edges v2) l = 0)) as [Hz|]; [|by right].
    destruct Hor as [Hle|?]; [|done]. left. split; [done|].
    apply Hl1 in Hs as [Hold|[_ [[_ ?]|Hep]]]; [|done|].
    + apply (hv_minimal _ Hv) in Hold as [[_ ?]|Hu]; [lia|].
      rewrite edge_usage_zero in Hu. apply dec_stable. intros Hgt. apply Hu.
      intros id e He Heq. destruct (hv_children _ Hv _ _ He) as (b & Hb & Hcoord).
      pose proof (hv_blocks _ Hv _ _ Hb) as [_ Hbh]. pose proof (hv_parents _ Hv _ _ He) as Hpl.
      unfold block_level in Hbh. rewrite Hcoord in Hbh. unfold child_level in Hpl. lia.
    + apply elem_of_retained_endpoint_levels in Hep as (e & He & Hl).
      destruct (Hret e Hv Hpay He) as (_ & Hc & Hlt & _).
      assert (child_level e = coord_level (bc_coordinate c)) as Hce
        by (unfold child_level; by rewrite Hc). lia.
Qed.

Lemma head_mutated c v v2 m2 :
  head_inv v → block_phase v v2 m2 → mutated v (set_extent (head_target c v) v2).
Proof.
  intros Hv Hp. destruct (bp_header _ _ _ Hp) as (Hd & _ & Hr & Ht & Hpol).
  destruct (head_target_low c v Hv) as (_ & Ho & Hpos).
  pose proof (hv_high _ Hv). split; try done; [by rewrite (hv_policy _ Hv)|simpl; lia|].
  rewrite decide_True by apply Hv. apply head_extent_Some. simpl. lia.
Qed.

(** A committed block projected and pruned, up to the finish of the mutation. *)
Record head_phases (c : BlockCommitted) v v1 v2 m2 : Prop := {
  hp_blocks1 : blocks v1 = projected_blocks c (head_target c v) v;
  hp_edges1 : edges v1 = insert_edges (edges v) (retained_edges c (head_target c v));
  hp_blocks : ∀ h b, blocks v2 !! h = Some b ↔ blocks v1 !! h = Some b ∧ low_level (head_target c v) ≤ block_level b;
  hp_edges : ∀ id e, edges v2 !! id = Some e ↔ edges v1 !! id = Some e ∧ ¬ pruned_child v1 (low_level (head_target c v)) id;
  hp_phase : block_phase v v2 m2;
  hp_inv : head_inv (set_extent (head_target c v) v2);
  hp_captures : captures m2 v (set_extent (head_target c v) v2);
  hp_size : N.of_nat (size (edges v2)) ≤ U64_MAX
}.

Lemma head_block_phases c ts v :
  head_inv v → block_payload_ok c v →
  ∃ v1 v2 m1 m2, apply_block_projection c (head_target c v) v GraphMutation_default = Some (v1, m1) ∧
    prune_below (low_level (head_target c v)) v1 m1 = Some (v2, m2) ∧ head_phases c v v1 v2 m2 ∧
    apply_head_block_committed c ts v =
      ('(v', d) ← finish_mutation m2 ts (set_extent (head_target c v) v2); Some (v', Ok d)).
Proof.
  intros Hv Hpay. unfold apply_head_block_committed.
  rewrite decide_False by (rewrite (hv_policy _ Hv); done).
  unfold assert_. rewrite decide_True by apply Hv. run_bind.
  rewrite head_extent_Some by (pose proof (hv_high _ Hv); lia). run_bind.
  change (MkLevelExtent _ _) with (head_target c v).
  destruct (apply_block_projection_phase c (head_target c v) v v GraphMutation_default)
    as (v1 & m1 & Epr & Hp1 & Hb1 & He1 & Hl1);
    [by apply block_phase_start, Hv|by apply head_projection_pre|].
  destruct (prune_below_phase v v1 m1 (low_level (head_target c v)) Hp1)
    as (v2 & m2 & Epn & Hp2 & Hb2 & He2 & Hl2).
  exists v1, v2, m1, m2. split; [done|]. split; [done|]. split; [|rewrite Epr; run_bind; by rewrite Epn].
  split; try done.
  - by eapply head_update_inv.
  - by eapply captures_same; [apply Hp2|..].
  - assert (size (edges v2) ≤ size (edges v1))%nat as Hle.
    { apply map_subseteq_size, map_subseteq_spec. by intros id e [? _]%He2. }
    pose proof (size_insert_edges (edges v) (retained_edges c (head_target c v))) as Hins.
    rewrite He1 in Hle. pose proof (length_retained_edges c (head_target c v)).
    pose proof (po_bound _ _ Hpay). lia.
Qed.

(** The mutation finishes in the projected and pruned view, at the revision of
    its delta if it has one. *)
Lemma head_finish c ts v v1 v2 m2 :
  head_inv v → block_payload_ok c v → head_phases c v v1 v2 m2 →
  let v2 := set_extent (head_target c v) v2 in
  (finish_mutation m2 ts v2 = Some (v2, None) ∧ content v2 = content v) ∨
  (∃ d v', finish_mutation m2 ts v2 = Some (v', Some d) ∧ v' = set_revision (current_revision_id v + 1) ts v2 ∧
     carries m2 v2 d ∧ applicable d v ∧ faithful d (content v) ∧ head_level d = high_level (extent v2) ∧
     apply_delta d v = Some (v', Ok tt)).
Proof.
  intros Hv Hpay Hh. apply finish_mutation_spec; [apply Hh|apply Hv|apply Hh| |apply Hh|apply Hpay].
  eapply head_mutated; [done|apply Hh].
Qed.

(** Applying a committed block to a Head view never panics, keeps the
    invariant, and reports exactly what changed: nothing, or a delta that
    takes the old view to the new one. *)
Lemma head_block_committed c ts v :
  head_inv v → block_payload_ok c v →
  (apply_head_block_committed c ts v = Some (v, Ok None)) ∨
  (∃ v' d, apply_head_block_committed c ts v = Some (v', Ok (Some d)) ∧ head_inv v' ∧
     applicable d v ∧ faithful d (content v) ∧ apply_delta d v = Some (v', Ok tt) ∧
     current_revision_id v' = current_revision_id v + 1 ∧
     is_in_vspc_changes d = ∅ ∧ color_changes d = ∅ ∧
     (∀ h b, block_changes d !! h = Some (Some b) → h = bc_hash c)).
Proof.
  intros Hv Hpay. destruct (head_block_phases c ts v Hv Hpay) as (v1 & v2 & m1 & m2 & _ & _ & Hh & ->).
  pose proof (head_finish c ts v v1 v2 m2 Hv Hpay Hh) as Hf. destruct Hh as [Hb1 He1 Hb2 He2 Hp2 Hv2 Hc2 _].
  destruct Hf as [[-> Hsame]|(d & v' & -> & -> & Hcar & Hap & Hfa & _ & Hrep)].
  - left. simpl. do 2 f_equal. symmetry.
    destruct (bp_header _ _ _ Hp2) as (Hd & _ & Hr & Ht & Hpol).
    apply indexed_determined; simpl; try done; [apply Hv|apply Hv2|].
    destruct (head_extent_inv _ _ _ (hv_extent _ Hv)) as [Hx _].
    destruct (decide (coord_level (bc_coordinate c) ≤ high_level (extent v))) as [Hle|Hgt].
    + unfold head_target. by rewrite (N.max_l _ _ Hle).
    + exfalso. destruct (head_target_low c v Hv) as (_ & Ho & _).
      assert (blocks v2 !! bc_hash c = Some (graph_block_from_committed c)) as Hin.
      { apply Hb2. rewrite Hb1. unfold projected_blocks.
        assert (high_level (head_target c v) = coord_level (bc_coordinate c)) as Hh
          by (unfold head_target; simpl; lia).
        rewrite decide_True by (split; lia). rewrite lookup_insert_eq. split; [done|].
        change (block_level (graph_block_from_committed c)) with (coord_level (bc_coordinate c)). lia. }
      assert (blocks v2 = blocks v) as Heq by (unfold content in Hsame; simpl in Hsame; congruence).
      rewrite Heq, (po_fresh _ _ Hpay) in Hin. done.
  - right. eexists _, d. split; [done|]. split.
    { destruct Hv2; split; try done. by apply indexed_set_revision. }
    split; [done|]. split; [done|]. split; [done|]. split; [done|].
    destruct Hcar as (Eb & _ & _ & Ev & Ec). rewrite Ev, Ec, Eb. simpl.
    rewrite (bp_vspc _ _ _ Hp2), (bp_colors _ _ _ Hp2), !map_imap_empty. split; [done|]. split; [done|].
    intros h b. rewrite map_lookup_imap. destruct (m_blocks m2 !! h) as [x|] eqn:Em; [|done]. simpl.
    case_decide as Hne; [|done]. intros [= Hb]. destruct (decide (h = bc_hash c)) as [|Hh]; [done|].
    exfalso. apply Hne. pose proof (cp_blocks _ _ _ Hc2 h) as Hcap. rewrite Em in Hcap. simpl in Hcap.
    destruct Hcap as [-> _]. rewrite Hb. apply Hb2 in Hb as [Hb _].
    rewrite Hb1 in Hb. unfold projected_blocks in Hb. case_decide; [|done].
    by rewrite lookup_insert_ne in Hb by done.
Qed.
End head.
