(* ===== verification/VspcView.v ===== *)
(** Committed VSPC transitions and Fixed views: what a transition does to
    membership and colors, and that the emitted delta replays it. *)

From S2P Require Import Prelude Model Delta GraphView ViewInvariant ApplyDelta Compose Mutation.
From S2P Require Import HeadBlock HeadView.

Section vspc.
Context {KH : KaspaHash}.
Implicit Types (v : GraphView) (m : GraphMutation) (d : GraphDelta).
Implicit Types (bs : gmap BlockHash GraphBlock) (ls : gmap N StoredLevel).

(** * What a transition means *)

(** The color assignments of the added metadata, in the order they are made. *)
Definition color_writes (mds : list VspcProjectionMetadata) : list (BlockHash * BlockColor) :=
  mds ≫= λ md, ((λ h, (h, Blue)) <$> md_blue_merge_set md)
               ++ ((λ h, (h, Red)) <$> md_red_merge_set md).

Definition last_write (h : BlockHash) (ws : list (BlockHash * BlockColor)) : option BlockColor :=
  foldl (λ o '(k, c), if decide (k = h) then Some c else o) None ws.

Definition vspc_membership (c : VspcCommitted) (h : BlockHash) (x : bool) : bool :=
  if decide (h ∈ vc_added c) then true
  else if decide (h ∈ vc_removed c) then false else x.

Definition vspc_color (c : VspcCommitted) (mds : list VspcProjectionMetadata) (h : BlockHash)
    (x : BlockColor) : BlockColor :=
  default (if decide (h ∈ vc_removed c) then Gray else x) (last_write h (color_writes mds)).

Definition vspc_block (c : VspcCommitted) (mds : list VspcProjectionMetadata) (h : BlockHash)
    (b : GraphBlock) : GraphBlock :=
  set_color (vspc_color c mds h (color b))
    (set_is_in_vspc (vspc_membership c h (is_in_vspc b)) b).

(** * The block loops *)

(** [bs] differs from [bs0] only in the two projected fields, as [m] records. *)
Record fields_phase bs0 bs m : Prop := {
  fp_blocks : m_blocks m = ∅;
  fp_edges : m_edges m = ∅;
  fp_levels : m_levels m = ∅;
  fp_tracked : ∀ h, option_relation (block_tracked (m_is_in_vspc m !! h) (m_colors m !! h))
                      (λ _, False) (λ _, False) (bs0 !! h) (bs !! h)
}.

Lemma tracked_membership mv mc b0 b x :
  block_tracked mv mc b0 b →
  block_tracked (Some (default (is_in_vspc b) mv)) mc b0 (set_is_in_vspc x b).
Proof.
  intros [Hs Hv Hc]. destruct b, b0; unfold set_color, set_is_in_vspc in *; simpl in *.
  injection Hs as; subst. split; simpl; [done| |done]. by destruct mv.
Qed.

Lemma tracked_color mv mc b0 b x :
  block_tracked mv mc b0 b →
  block_tracked mv (Some (default (color b) mc)) b0 (set_color x b).
Proof.
  intros [Hs Hv Hc]. destruct b, b0; unfold set_color, set_is_in_vspc in *; simpl in *.
  injection Hs as; subst. split; simpl; [done|done|]. by destruct mc.
Qed.

Lemma fields_phase_membership bs0 bs m h b x :
  fields_phase bs0 bs m → bs !! h = Some b →
  fields_phase bs0 (<[h := set_is_in_vspc x b]> bs) (capture_membership h (is_in_vspc b) m).
Proof.
  intros [Pb Pe Pl Pt] Hb. split; simpl; try done. intros k. specialize (Pt k).
  rewrite lookup_insert, lookup_or_insert. case_decide; [subst k|done]. rewrite Hb in Pt.
  destruct (bs0 !! h); simpl in *; [by apply tracked_membership|done].
Qed.

Lemma fields_phase_color bs0 bs m h b x :
  fields_phase bs0 bs m → bs !! h = Some b →
  fields_phase bs0 (<[h := set_color x b]> bs) (capture_color h (color b) m).
Proof.
  intros [Pb Pe Pl Pt] Hb. split; simpl; try done. intros k. specialize (Pt k).
  rewrite lookup_insert, lookup_or_insert. case_decide; [subst k|done]. rewrite Hb in Pt.
  destruct (bs0 !! h); simpl in *; [by apply tracked_color|done].
Qed.

Lemma vspc_remove_phase bs0 hs s :
  fields_phase bs0 s.1 s.2 →
  fields_phase bs0 (foldl vspc_remove_step s hs).1 (foldl vspc_remove_step s hs).2 ∧
  ∀ k, (foldl vspc_remove_step s hs).1 !! k
       = (λ b, if decide (k ∈ hs) then set_color Gray (set_is_in_vspc false b) else b)
           <$> s.1 !! k.
Proof.
  revert s. induction hs as [|h hs IH]; intros s Hs.
  { split; [done|]. intros k. cbn [foldl]. by destruct (s.1 !! k). }
  cbn [foldl]. destruct (IH (vspc_remove_step s h)) as [Hp Hk].
  { unfold vspc_remove_step. destruct (s.1 !! h) as [b|] eqn:Hb; [|done]. cbn [fst snd].
    rewrite <- (insert_insert_eq s.1 h _ (set_is_in_vspc false b)).
    apply (fields_phase_color bs0 (<[h := set_is_in_vspc false b]> s.1) _ h
             (set_is_in_vspc false b)); [|apply lookup_insert_eq].
    by apply fields_phase_membership. }
  split; [done|]. intros k. rewrite Hk. unfold vspc_remove_step.
  destruct (s.1 !! h) as [b|] eqn:Hb; cbn [fst snd].
  - rewrite lookup_insert. destruct (decide (h = k)) as [<-|Hne]; simpl.
    + rewrite Hb. simpl. rewrite (decide_True (P := h ∈ h :: hs)) by set_solver. by case_decide.
    + destruct (s.1 !! k); simpl; [|done]. do 2 f_equal. apply decide_ext. set_solver.
  - destruct (decide (h = k)) as [<-|]; [by rewrite Hb|].
    destruct (s.1 !! k); simpl; [|done]. f_equal. apply decide_ext. set_solver.
Qed.

Lemma vspc_add_phase bs0 hs s :
  fields_phase bs0 s.1 s.2 →
  fields_phase bs0 (foldl vspc_add_step s hs).1 (foldl vspc_add_step s hs).2 ∧
  ∀ k, (foldl vspc_add_step s hs).1 !! k
       = (λ b, if decide (k ∈ hs) then set_is_in_vspc true b else b) <$> s.1 !! k.
Proof.
  revert s. induction hs as [|h hs IH]; intros s Hs.
  { split; [done|]. intros k. cbn [foldl]. by destruct (s.1 !! k). }
  cbn [foldl]. destruct (IH (vspc_add_step s h)) as [Hp Hk].
  { unfold vspc_add_step. destruct (s.1 !! h) eqn:Hb; [|done].
    by apply fields_phase_membership. }
  split; [done|]. intros k. rewrite Hk. unfold vspc_add_step.
  destruct (s.1 !! h) as [b|] eqn:Hb; cbn [fst snd].
  - rewrite lookup_insert. destruct (decide (h = k)) as [<-|Hne]; simpl.
    + rewrite Hb. simpl. rewrite (decide_True (P := h ∈ h :: hs)) by set_solver. by case_decide.
    + destruct (s.1 !! k); simpl; [|done]. f_equal. apply decide_ext. set_solver.
  - destruct (decide (h = k)) as [<-|]; [by rewrite Hb|].
    destruct (s.1 !! k); simpl; [|done]. f_equal. apply decide_ext. set_solver.
Qed.

(** The two color loops are one loop over the color assignments. *)
Definition color_write_step (s : gmap BlockHash GraphBlock * GraphMutation)
    (w : BlockHash * BlockColor) := vspc_color_step w.2 s w.1.

Lemma vspc_metadata_writes mds s :
  foldl vspc_metadata_step s mds = foldl color_write_step s (color_writes mds).
Proof.
  revert s. induction mds as [|md mds IH]; intros s; [done|]. cbn [foldl]. rewrite IH.
  unfold color_writes. rewrite bind_cons, foldl_app. f_equal.
  unfold vspc_metadata_step. rewrite foldl_app, !foldl_fmap. done.
Qed.

Lemma last_write_app h ws w :
  last_write h (ws ++ [w]) = if decide (w.1 = h) then Some w.2 else last_write h ws.
Proof. unfold last_write. rewrite foldl_snoc. by destruct w. Qed.

Lemma color_writes_phase bs0 ws s :
  fields_phase bs0 s.1 s.2 →
  fields_phase bs0 (foldl color_write_step s ws).1 (foldl color_write_step s ws).2 ∧
  ∀ k, (foldl color_write_step s ws).1 !! k
       = (λ b, set_color (default (color b) (last_write k ws)) b) <$> s.1 !! k.
Proof.
  intros Hs. induction ws as [|w ws [Hp Hk]] using rev_ind.
  { split; [done|]. intros k. simpl. destruct (s.1 !! k) as [[]|]; done. }
  rewrite foldl_snoc. destruct (foldl color_write_step s ws) as [bs m]. cbn [fst snd] in *.
  unfold color_write_step, vspc_color_step; cbn [fst snd].
  destruct (bs !! w.1) as [b|] eqn:Hb; cbn [fst snd].
  - split; [by apply fields_phase_color|]. intros k. rewrite last_write_app, lookup_insert.
    destruct (decide (w.1 = k)) as [<-|]; [|apply Hk].
    rewrite Hk in Hb. destruct (s.1 !! w.1) as [[]|]; simplify_eq/=. done.
  - split; [done|]. intros k. rewrite last_write_app. destruct (decide (w.1 = k)) as [<-|]; [|apply Hk].
    rewrite Hb. rewrite Hk in Hb. by destruct (s.1 !! w.1).
Qed.

(** The three block loops together. *)
Definition vspc_blocks_loop (c : VspcCommitted) (mds : list VspcProjectionMetadata)
    (s : gmap BlockHash GraphBlock * GraphMutation) :=
  foldl vspc_metadata_step
    (foldl vspc_add_step (foldl vspc_remove_step s (vc_removed c)) (vc_added c)) mds.

Lemma fields_phase_start bs : fields_phase bs bs GraphMutation_default.
Proof.
  split; try done. intros h. simpl. rewrite !lookup_empty.
  destruct (bs !! h); simpl; [apply block_tracked_refl|done].
Qed.

Lemma vspc_blocks_loop_phase c mds bs :
  fields_phase bs (vspc_blocks_loop c mds (bs, GraphMutation_default)).1
    (vspc_blocks_loop c mds (bs, GraphMutation_default)).2 ∧
  ∀ h, (vspc_blocks_loop c mds (bs, GraphMutation_default)).1 !! h
       = vspc_block c mds h <$> bs !! h.
Proof.
  unfold vspc_blocks_loop. rewrite vspc_metadata_writes.
  destruct (vspc_remove_phase bs (vc_removed c) (bs, GraphMutation_default)) as [P1 K1];
    [apply fields_phase_start|]. set (s1 := foldl vspc_remove_step _ _) in *. clearbody s1.
  destruct (vspc_add_phase bs (vc_added c) s1 P1) as [P2 K2].
  set (s2 := foldl vspc_add_step _ _) in *. clearbody s2.
  destruct (color_writes_phase bs (color_writes mds) s2 P2) as [P3 K3].
  split; [done|]. intros h. rewrite K3, K2, K1. simpl. destruct (bs !! h) as [[]|]; simpl; [|done].
  unfold vspc_block, vspc_color, vspc_membership. f_equal.
  repeat case_decide; unfold set_color, set_is_in_vspc; done.
Qed.

Lemma vspc_block_level c mds h b : block_level (vspc_block c mds h b) = block_level b.
Proof. done. Qed.

(** * The level loop *)

Definition last_snapshot (l : N) (ss : list LevelCommitted) : option (option N) :=
  foldl (λ o s, if decide (lc_level s = l) then Some (lc_daa_score s) else o) None ss.

Definition vspc_level (ss : list LevelCommitted) (l : N) (x : Level) : Level :=
  MkLevel (size_ x) (default (daa_score x) (last_snapshot l ss)).

Lemma vspc_levels_phase v0 v ls m ss :
  captures m v0 (set_levels ls v) →
  let '(ls', m') := foldl vspc_level_step (ls, m) ss in
  captures m' v0 (set_levels ls' v) ∧ m_blocks m' = m_blocks m ∧ m_edges m' = m_edges m ∧
  ∀ l, ls' !! l
       = (λ s, MkStoredLevel (vspc_level ss l (value s)) (usage_count s)) <$> ls !! l.
Proof.
  intros Hc. induction ss as [|s ss IH] using rev_ind.
  { simpl. split_and!; [done..|]. intros l. destruct (ls !! l) as [[[] ?]|]; done. }
  rewrite foldl_snoc. destruct (foldl vspc_level_step (ls, m) ss) as [ls' m'].
  destruct IH as (Hc' & Hb' & He' & Hl'). unfold vspc_level_step; cbn [fst snd].
  assert (∀ l, last_snapshot l (ss ++ [s])
    = if decide (lc_level s = l) then Some (lc_daa_score s) else last_snapshot l ss) as Hls
    by (intros; unfold last_snapshot; by rewrite foldl_snoc).
  destruct (ls' !! lc_level s) as [x|] eqn:Ex; (split; [|split; [done|split; [done|]]]).
  - rewrite (capture_level_value_eq (set_levels ls' v)) by done.
    apply (captures_level m' v0 (set_levels ls' v)); try done.
    intros k Hk. simpl. by rewrite lookup_insert_ne.
  - intros l. rewrite lookup_insert. unfold vspc_level. rewrite Hls.
    destruct (decide (lc_level s = l)) as [<-|]; [|apply Hl'].
    rewrite Hl' in Ex. destruct (ls !! lc_level s) as [y|]; [|done]. simpl in *.
    injection Ex as <-. done.
  - done.
  - intros l. unfold vspc_level. rewrite Hls.
    destruct (decide (lc_level s = l)) as [<-|]; [|apply Hl'].
    rewrite Ex. rewrite Hl' in Ex. by destruct (ls !! lc_level s).
Qed.

(** The content a transition produces. *)
Definition vspc_content (c : VspcCommitted) (mds : list VspcProjectionMetadata) v : Content :=
  MkContent (map_imap (λ l s, Some (vspc_level (vc_level_snapshots c) l (value s))) (levels v))
    (map_imap (λ h b, Some (vspc_block c mds h b)) (blocks v)) (edges v).

(** A view that only differs in fields and level values is still indexed. *)
Lemma indexed_same_shape v bs ls :
  indexed v →
  (∀ h, (λ b, (hash b, block_level b)) <$> bs !! h = (λ b, (hash b, block_level b)) <$> blocks v !! h) →
  (∀ l, usage_count <$> ls !! l = usage_count <$> levels v !! l) →
  indexed (set_levels ls (set_blocks bs (block_hashes_by_level v) v)).
Proof.
  intros [Kb Ke Ib Ip Is Iu Il] Hb Hl. split; simpl; try done.
  - intros h b E. specialize (Hb h). rewrite E in Hb.
    destruct (blocks v !! h) as [b'|] eqn:E'; [|done]. simpl in Hb. injection Hb as -> _. by apply Kb.
  - apply (block_index_same_levels _ (blocks v)); [|done]. intros h. specialize (Hb h).
    destruct (bs !! h), (blocks v !! h); simpl in *; congruence.
  - intros l s E. specialize (Hl l). rewrite E in Hl.
    destruct (levels v !! l) as [s'|] eqn:E'; [|done]. simpl in Hl. injection Hl as ->. by apply Iu.
  - intros id e He. apply Il in He as [s Hs]. specialize (Hl (parent_level e)). rewrite Hs in Hl.
    by destruct (ls !! parent_level e).
Qed.

Record vspc_pre v : Prop := {
  vp_indexed : indexed v;
  vp_active : tracking_policy v ≠ Frozen;
  vp_high : 0 < high_level (extent v);
  vp_extent : tracking_policy v = Head →
    head_extent (max_depth v) (high_level (extent v)) = Some (extent v);
  vp_bound : N.of_nat (size (edges v)) ≤ U64_MAX;
  vp_revision : current_revision_id v < U64_MAX
}.

Lemma apply_vspc_projection_spec c mds ts v :
  vspc_pre v →
  (apply_vspc_projection c mds ts v = Some (v, None) ∧ vspc_content c mds v = content v) ∨
  (∃ v' d, apply_vspc_projection c mds ts v = Some (v', Some d) ∧
     content v' = vspc_content c mds v ∧ extent v' = extent v ∧ max_depth v' = max_depth v ∧
     tracking_policy v' = tracking_policy v ∧
     current_revision_id v' = current_revision_id v + 1 ∧ indexed v' ∧
     block_changes d = ∅ ∧ edge_changes d = ∅ ∧
     (∀ h, blocks v !! h = None → is_in_vspc_changes d !! h = None ∧ color_changes d !! h = None) ∧
     applicable d v ∧ faithful d (content v) ∧ apply_delta d v = Some (v', Ok tt)).
Proof.
  intros [Hi Ha Hh Hx Hs Hr]. unfold apply_vspc_projection.
  change (foldl vspc_metadata_step _ mds)
    with (vspc_blocks_loop c mds (blocks v, GraphMutation_default)).
  destruct (vspc_blocks_loop_phase c mds (blocks v)) as [Pf Kf].
  destruct (vspc_blocks_loop c mds (blocks v, GraphMutation_default)) as [bs m]. cbn [fst snd] in *.
  set (w := set_blocks bs (block_hashes_by_level v) v).
  pose proof (vspc_levels_phase v w (levels v) m (vc_level_snapshots c)) as Hls.
  destruct (foldl vspc_level_step (levels v, m) (vc_level_snapshots c)) as [ls m'] eqn:El.
  destruct Hls as (Hc & Mb & Me & Hl).
  { destruct Pf as [Pb Pe Pl Pt]. split; simpl.
    - intros id. by rewrite Pe, lookup_empty.
    - intros l. by rewrite Pl, lookup_empty.
    - intros h. rewrite Pb, lookup_empty. apply Pt. }
  rewrite (fp_blocks _ _ _ Pf) in Mb. rewrite (fp_edges _ _ _ Pf) in Me.
  assert (indexed (set_levels ls w)) as Hi'.
  { apply indexed_same_shape; [done| |].
    - intros h. rewrite Kf. by destruct (blocks v !! h).
    - intros l. rewrite Hl. by destruct (levels v !! l). }
  assert (content (set_levels ls w) = vspc_content c mds v) as Hct.
  { unfold content, vspc_content; simpl. f_equal; apply map_eq; intros k.
    - rewrite lookup_fmap, map_lookup_imap, Hl. by destruct (levels v !! k).
    - rewrite map_lookup_imap, Kf. by destruct (blocks v !! k). }
  assert (mutated v (set_levels ls w)) as Hm.
  { split; try done. simpl. case_decide; auto. }
  destruct (finish_mutation_spec m' ts v (set_levels ls w))
    as [[-> Hsame]|(d & v' & -> & -> & Hcar & Hap & Hfa & _ & Hrep)]; try done.
  - left. rewrite <- Hct. split; [|done]. do 2 f_equal. by apply indexed_determined.
  - right. eexists _, d. split; [done|]. destruct Hcar as (Eb & Ee & _ & Ev & Ec).
    split_and!; try done.
    + by apply indexed_set_revision.
    + rewrite Eb. simpl. by rewrite Mb, map_imap_empty.
    + rewrite Ee. simpl. by rewrite Me, map_imap_empty.
    + intros h Hh'. rewrite Ev, Ec. simpl. rewrite !map_lookup_imap, Kf, Hh'. simpl.
      by destruct (m_is_in_vspc m' !! h), (m_colors m' !! h).
Qed.

(** * Head views *)

Lemma head_inv_content v v' c mds :
  head_inv v → indexed v' → content v' = vspc_content c mds v → extent v' = extent v →
  max_depth v' = max_depth v → tracking_policy v' = tracking_policy v → head_inv v'.
Proof.
  intros Hv Hi Hc Hx Hd Hp. injection Hc as Hl Hb He.
  assert (∀ h, blocks v' !! h = vspc_block c mds h <$> blocks v !! h) as Hb'.
  { intros h. rewrite Hb, map_lookup_imap. by destruct (blocks v !! h). }
  assert (∀ l, is_Some (levels v' !! l) ↔ is_Some (levels v !! l)) as Hl'.
  { intros l. rewrite <- (fmap_is_Some value), <- lookup_fmap, Hl, map_lookup_imap.
    destruct (levels v !! l); simpl; rewrite ?is_Some_alt; naive_solver. }
  split; rewrite ?Hx, ?Hd, ?Hp, ?He; try done; try apply Hv.
  - intros h b. rewrite Hb'. destruct (blocks v !! h) as [b0|] eqn:E; [|done].
    intros [= <-]. by apply (hv_blocks _ Hv h b0).
  - intros id e Hid. destruct (hv_children _ Hv id e Hid) as (b & Hbk & Hco).
    exists (vspc_block c mds (child id) b). by rewrite Hb', Hbk.
  - intros l ?. by apply Hl', Hv.
  - intros l ?%Hl'. by apply (hv_minimal _ Hv).
Qed.

Definition head_metadata (c : VspcCommitted) v : list VspcProjectionMetadata :=
  omap (λ h, metadata_from <$> blocks v !! h) (vc_added c).

Lemma head_vspc_pre v :
  head_inv v → N.of_nat (size (edges v)) ≤ U64_MAX → current_revision_id v < U64_MAX → vspc_pre v.
Proof. intros Hv Hs Hr. split; try done; try (intros; apply Hv). by rewrite (hv_policy _ Hv). Qed.

Lemma head_vspc_committed c ts v :
  head_inv v → N.of_nat (size (edges v)) ≤ U64_MAX → current_revision_id v < U64_MAX →
  (apply_head_vspc_committed c ts v = Some (v, Ok None) ∧
     vspc_content c (head_metadata c v) v = content v) ∨
  (∃ v' d, apply_head_vspc_committed c ts v = Some (v', Ok (Some d)) ∧ head_inv v' ∧
     content v' = vspc_content c (head_metadata c v) v ∧
     extent v' = extent v ∧ current_revision_id v' = current_revision_id v + 1 ∧
     block_changes d = ∅ ∧ edge_changes d = ∅ ∧
     (∀ h, blocks v !! h = None → is_in_vspc_changes d !! h = None ∧ color_changes d !! h = None) ∧
     applicable d v ∧ faithful d (content v) ∧ apply_delta d v = Some (v', Ok tt)).
Proof.
  intros Hv Hs Hr. unfold apply_head_vspc_committed.
  rewrite decide_False by (by rewrite (hv_policy _ Hv)).
  unfold assert_. rewrite decide_True by apply Hv. run_bind.
  change (omap _ (vc_added c)) with (head_metadata c v).
  destruct (apply_vspc_projection_spec c (head_metadata c v) ts v (head_vspc_pre v Hv Hs Hr))
    as [[-> ?]|(v' & d & -> & Hc & Hx & Hd & Hp & Hrev & Hi & ? & ? & ? & ? & ? & ?)];
    run_bind; [by left|].
  right. exists v', d. split_and!; try done. by eapply head_inv_content.
Qed.

(** * Fixed views *)

Record fixed_inv v : Prop := {
  xv_indexed : indexed v;
  xv_policy : tracking_policy v = Fixed;
  xv_high : 0 < high_level (extent v)
}.

Lemma fixed_mutated v v' m :
  fixed_inv v → block_phase v v' m → mutated v v'.
Proof.
  intros [_ Hp Hh] [_ _ _ _ (Hd & Hx & Hr & Ht & Hpol)].
  split; try done; rewrite ?Hx, ?Hp; try done.
Qed.

(** A committed block on a Fixed view that still overlaps the Head. *)
Lemma fixed_block_committed c head ts v :
  fixed_inv v → tracking_policy head = Head → overlaps (extent v) (extent head) →
  projection_pre c (extent v) v → current_revision_id v < U64_MAX →
  (apply_fixed_block_committed c head ts v = Some (v, Ok None)) ∨
  (∃ v' d, apply_fixed_block_committed c head ts v = Some (v', Ok (Some d)) ∧ fixed_inv v' ∧
     blocks v' = projected_blocks c (extent v) v ∧
     edges v' = insert_edges (edges v) (retained_edges c (extent v)) ∧
     extent v' = extent v ∧ current_revision_id v' = current_revision_id v + 1 ∧
     applicable d v ∧ faithful d (content v) ∧ apply_delta d v = Some (v', Ok tt)).
Proof.
  intros Hv Hh Ho Hpre Hr. unfold apply_fixed_block_committed.
  rewrite decide_False by (by rewrite (xv_policy _ Hv)).
  rewrite !assert_true by (done || apply Hv). run_bind. rewrite decide_False by tauto.
  destruct (apply_block_projection_phase c (extent v) v v GraphMutation_default)
    as (v1 & m1 & -> & Hp1 & Hb1 & He1 & Hl1); [by apply block_phase_start, Hv|done|].
  run_bind. destruct (bp_header _ _ _ Hp1) as (Hd & Hx & Hrv & Ht & Hpol).
  destruct (finish_mutation_spec m1 ts v v1)
    as [[-> Hsame]|(d & v' & -> & -> & Hcar & Hap & Hfa & _ & Hrep)].
  - apply Hp1.
  - apply Hv.
  - apply Hp1.
  - by eapply fixed_mutated.
  - rewrite He1. pose proof (size_insert_edges (edges v) (retained_edges c (extent v))).
    pose proof (length_retained_edges c (extent v)). pose proof (pp_bound _ _ _ Hpre). lia.
  - done.
  - left. simpl. do 2 f_equal. apply indexed_determined; try done; [apply Hp1|apply Hv].
  - right. eexists _, d. split_and!; try done.
    split; simpl; [apply indexed_set_revision, Hp1|by rewrite Hpol; apply Hv|by rewrite Hx; apply Hv].
Qed.

Definition fixed_metadata (c : VspcCommitted) head v : option (list VspcProjectionMetadata) :=
  mapM (λ h, metadata_from <$> union (blocks v !! h) (blocks head !! h)) (vc_added c).

Lemma fixed_vspc_committed c head mds ts v :
  fixed_inv v → tracking_policy head = Head → overlaps (extent v) (extent head) →
  fixed_metadata c head v = Some mds →
  N.of_nat (size (edges v)) ≤ U64_MAX → current_revision_id v < U64_MAX →
  (apply_fixed_vspc_committed c head ts v = Some (v, Ok None) ∧
     vspc_content c mds v = content v) ∨
  (∃ v' d, apply_fixed_vspc_committed c head ts v = Some (v', Ok (Some d)) ∧ fixed_inv v' ∧
     content v' = vspc_content c mds v ∧
     extent v' = extent v ∧ current_revision_id v' = current_revision_id v + 1 ∧
     applicable d v ∧ faithful d (content v) ∧ apply_delta d v = Some (v', Ok tt)).
Proof.
  intros Hv Hh Ho Hm Hs Hr. unfold apply_fixed_vspc_committed.
  rewrite decide_False by (by rewrite (xv_policy _ Hv)).
  rewrite !assert_true by (done || apply Hv). run_bind. rewrite decide_False by tauto.
  unfold fixed_metadata in Hm. rewrite Hm.
  destruct (apply_vspc_projection_spec c mds ts v)
    as [[-> ?]|(v' & d & -> & Hc & Hx & Hd & Hp & Hrev & Hi & ? & ? & ? & ? & ? & ?)];
    run_bind; [|by left|].
  - split; try done; try apply Hv; by rewrite (xv_policy _ Hv).
  - right. exists v', d. split_and!; try done.
    split; [done|by rewrite Hp; apply Hv|by rewrite Hx; apply Hv].
Qed.
End vspc.
