(* ===== verification/Subview.v ===== *)
(** Building views from plain content: the database projection and the
    extraction of a Frozen subview. *)

From S2P Require Import Prelude Model Delta GraphView ViewInvariant ApplyDelta HeadView.

Section subview.
Context {KH : KaspaHash}.
Implicit Types (v : GraphView) (bs : gmap BlockHash GraphBlock) (es : gmap EdgeId GraphEdge).
Implicit Types (ls : gmap N StoredLevel).

(** * Rebuilding the indexes *)

(** A fold over the entries of a map that maintains [P] from one insertion to
    the next ends with [P] of the whole map. *)
Lemma foldl_map_to_list {K A S} `{Countable K} (f : S → K * A → S) (s : S) (P : S → gmap K A → Prop)
    (m : gmap K A) :
  P s ∅ → (∀ s m k x, m !! k = None → P s m → P (f s (k, x)) (<[k := x]> m)) →
  P (foldl f s (map_to_list m)) m.
Proof.
  intros H0 Hstep. pose proof (NoDup_fst_map_to_list m) as Hn.
  rewrite <- (list_to_map_to_list m) at 2. generalize dependent (map_to_list m). intros l.
  induction l as [|[k x] l IH] using rev_ind; intros Hn; [done|].
  rewrite fmap_app in Hn. apply NoDup_app in Hn as (Hn & Hk & _).
  rewrite foldl_snoc, list_to_map_snoc.
  - apply Hstep; [|auto]. apply not_elem_of_list_to_map. intros Hin. eapply Hk; [done|]. set_solver.
  - intros Hin. eapply Hk; [done|]. set_solver.
Qed.

Lemma index_blocks_by_level_ok bs : block_index_ok (index_blocks_by_level bs) bs.
Proof.
  unfold index_blocks_by_level. apply (foldl_map_to_list _ _ block_index_ok).
  - apply block_index_empty.
  - intros. by apply block_index_insert.
Qed.

Lemma index_edge_parents_by_child_ok es : parent_index_ok (index_edge_parents_by_child es) es.
Proof.
  unfold index_edge_parents_by_child. apply (foldl_map_to_list _ _ parent_index_ok).
  - apply parent_index_empty.
  - intros. by apply parent_index_insert.
Qed.

Lemma index_edges_by_span_ok es : span_index_ok (index_edges_by_span es) es.
Proof.
  unfold index_edges_by_span. apply (foldl_map_to_list _ _ span_index_ok).
  - apply span_index_empty.
  - intros. by apply span_index_insert.
Qed.

(** * Counting parent usage *)

Definition parent_levels es : list N := (λ '(_, e), parent_level e) <$> map_to_list es.

Lemma occ_parent_levels es l : occ l (parent_levels es) = edge_usage es l.
Proof.
  induction es as [|id e es Hid IH] using map_ind.
  { unfold parent_levels. rewrite map_to_list_empty. symmetry. by apply edge_usage_zero. }
  assert (parent_levels (<[id := e]> es) ≡ₚ parent_level e :: parent_levels es) as Hp
    by (unfold parent_levels; by rewrite map_to_list_insert).
  unfold occ at 1. rewrite Hp. fold (occ l (parent_level e :: parent_levels es)).
  rewrite occ_cons, IH, edge_usage_insert_None by done. lia.
Qed.

Lemma increments_levels xs v :
  fold_m (λ v l, increment_parent_usage l v) v xs
  = (λ ls, set_levels ls v) <$> fold_m apply_usage_increment (levels v) xs.
Proof.
  revert v. induction xs as [|x xs IH]; intros v; [by destruct v|]. cbn [fold_m].
  assert (increment_parent_usage x v
          = (λ ls, set_levels ls v) <$> apply_usage_increment (levels v) x) as ->.
  { unfold increment_parent_usage, apply_usage_increment. destruct (levels v !! x); [|done].
    run_bind. by destruct (checked_add _ 1). }
  destruct (apply_usage_increment (levels v) x) as [ls|]; [|done]. simpl. by rewrite IH.
Qed.

(** Counting the usages of a fresh view indexes it. *)
Lemma count_usage v :
  blocks_keyed (blocks v) → edges_keyed (edges v) →
  block_index_ok (block_hashes_by_level v) (blocks v) →
  parent_index_ok (edge_parents_by_child v) (edges v) →
  span_index_ok (edge_ids_by_span v) (edges v) →
  (∀ l s, levels v !! l = Some s → usage_count s = 0) →
  (∀ id e, edges v !! id = Some e → is_Some (levels v !! parent_level e)) →
  N.of_nat (size (edges v)) ≤ U64_MAX →
  ∃ ls, fold_m (λ v l, increment_parent_usage l v) v (parent_levels (edges v))
        = Some (set_levels ls v) ∧
    indexed (set_levels ls v) ∧ content (set_levels ls v) = content v.
Proof.
  intros Kb Ke Ib Ip Is Hz Hl Hs. rewrite increments_levels.
  destruct (usage_increments_spec (parent_levels (edges v)) (levels v)) as (ls & -> & Hls).
  { intros l. unfold parent_levels. rewrite list_elem_of_fmap.
    intros ([id e] & -> & He%elem_of_map_to_list). eauto. }
  { intros l s E. rewrite occ_parent_levels, (Hz _ _ E). pose proof (edge_usage_le_size (edges v) l). lia. }
  exists ls. split; [done|]. split.
  - split; simpl; try done.
    + intros l s. rewrite Hls. destruct (levels v !! l) eqn:E; [|done]. intros [= <-]. simpl.
      rewrite occ_parent_levels, (Hz _ _ E). lia.
    + intros id e He. rewrite Hls, fmap_is_Some. eauto.
  - unfold content; simpl. f_equal. apply map_eq; intros l. rewrite !lookup_fmap, Hls.
    by destruct (levels v !! l).
Qed.

(** * The database projection *)

Lemma from_database_projection_spec depth ext policy lvls bs es :
  0 < depth → extent_depth ext ≤ depth → blocks_keyed bs → edges_keyed es →
  (∀ id e, es !! id = Some e → is_Some (lvls !! parent_level e)) →
  N.of_nat (size es) ≤ U64_MAX →
  ∃ v, from_database_projection depth ext policy lvls bs es = Some v ∧ indexed v ∧
    content v = MkContent lvls bs es ∧ max_depth v = depth ∧ extent v = ext ∧
    tracking_policy v = policy ∧ current_revision_id v = 0.
Proof.
  intros Hd Hx Kb Ke Hl Hs. unfold from_database_projection.
  rewrite !assert_true by done. run_bind.
  match goal with |- context [fold_m _ ?v0 _] => set (v := v0) end.
  destruct (count_usage v) as (ls & Hf & Hi & Hc); try done.
  - apply index_blocks_by_level_ok.
  - apply index_edge_parents_by_child_ok.
  - apply index_edges_by_span_ok.
  - intros l s. simpl. rewrite lookup_fmap. destruct (lvls !! l); [|done]. by intros [= <-].
  - intros id e He. simpl. rewrite lookup_fmap, fmap_is_Some. eauto.
  - change (fold_m _ v _) with
      (fold_m (λ v l, increment_parent_usage l v) v (parent_levels (edges v))).
    rewrite Hf. eexists. split; [done|]. split; [done|]. split; [|done]. rewrite Hc.
    unfold content; simpl. f_equal. rewrite <- map_fmap_compose. apply map_fmap_id.
Qed.

(** * Extraction *)

(** What a subview over [ext] retains. *)
Definition sub_blocks ext v : gmap BlockHash GraphBlock :=
  filter (λ '(_, b), contains_level ext (block_level b)) (blocks v).
Definition sub_edges ext v : gmap EdgeId GraphEdge :=
  filter (λ '(_, e), intersects_span ext (parent_level e) (child_level e)) (edges v).
Definition endpoint_levels es : list N :=
  (map_to_list es).*2 ≫= λ e, [parent_level e; child_level e].
Definition sub_level ext v (l : N) : Prop :=
  contains_level ext l ∨ l ∈ endpoint_levels (sub_edges ext v).

Lemma elem_of_endpoint_levels es l :
  l ∈ endpoint_levels es ↔ ∃ id e, es !! id = Some e ∧ (l = parent_level e ∨ l = child_level e).
Proof.
  unfold endpoint_levels. rewrite list_elem_of_bind. split.
  - intros (e & Hl & ([id e'] & -> & He%elem_of_map_to_list)%list_elem_of_fmap). simpl in *.
    exists id, e'. split; [done|]. set_solver.
  - intros (id & e & He & Hl). exists e. split; [set_solver|].
    apply list_elem_of_fmap. exists (id, e). by rewrite elem_of_map_to_list.
Qed.

(** Copying the entries of a source map under a list of keys. *)
Lemma select_step_spec {K A} `{Countable K} (src m : gmap K A) (ks : list K) :
  (∀ k, k ∈ ks → is_Some (src !! k)) →
  ∃ m', fold_m (λ m k, x ← src !! k; Some (<[k := x]> m)) m ks = Some m' ∧
    ∀ k, m' !! k = if decide (k ∈ ks) then src !! k else m !! k.
Proof.
  revert m. induction ks as [|k ks IH]; intros m Hs; [by exists m|]. cbn [fold_m].
  destruct (Hs k) as [x Hx]; [set_solver|]. rewrite Hx. run_bind.
  destruct (IH (<[k := x]> m)) as (m' & -> & Hm'); [set_solver|]. exists m'. split; [done|].
  intros j. rewrite Hm', lookup_insert. repeat case_decide; set_solver.
Qed.

Lemma selected_hashes v ext h :
  indexed v →
  h ∈ (btree_to_list (filter (λ '(l, _), contains_level ext l) (block_hashes_by_level v))
        ≫= λ '(_, hs), elements hs) ↔
  ∃ b, blocks v !! h = Some b ∧ contains_level ext (block_level b).
Proof.
  intros Hi. destruct (ix_blocks _ Hi) as [_ Hix]. rewrite list_elem_of_bind. split.
  - intros ([l hs] & Hh%elem_of_elements & [Hl Hc]%elem_of_btree_to_list%map_lookup_filter_Some).
    destruct (Hix l h) as [Hb _]. destruct Hb as (b & Hb & <-); [|by exists b].
    unfold mm_get. by rewrite Hl.
  - intros (b & Hb & Hc). pose proof (proj2 (Hix (block_level b) h)) as Hin.
    unfold mm_get in Hin.
    destruct (block_hashes_by_level v !! block_level b) as [hs|] eqn:E; simpl in Hin; [|set_solver].
    exists (block_level b, hs). rewrite elem_of_elements. split; [naive_solver|].
    by apply elem_of_btree_to_list, map_lookup_filter_Some.
Qed.

Lemma selected_ids v ext id :
  indexed v →
  id ∈ (btree_to_list (filter (λ '(cl, _), low_level ext ≤ cl) (edge_ids_by_span v))
         ≫= λ '(_, ps), btree_to_list (filter (λ '(pl, _), pl ≤ high_level ext) ps)
         ≫= λ '(_, ids), elements ids) ↔
  ∃ e, edges v !! id = Some e ∧ intersects_span ext (parent_level e) (child_level e).
Proof.
  intros Hi. destruct (ix_span _ Hi) as [_ Hix]. unfold span_get, mm_get in Hix.
  rewrite list_elem_of_bind. split.
  - intros ([cl ps] & Hin & [Hcl Hlo]%elem_of_btree_to_list%map_lookup_filter_Some).
    apply list_elem_of_bind in Hin as ([pl ids] & Hid%elem_of_elements & [Hpl Hhi]%elem_of_btree_to_list%map_lookup_filter_Some).
    destruct (Hix cl pl id) as [He _]. rewrite Hcl in He. simpl in He. rewrite Hpl in He.
    destruct (He Hid) as (e & Hee & <- & <-). by exists e.
  - intros (e & He & Hlo & Hhi). pose proof (proj2 (Hix (child_level e) (parent_level e) id)) as Hin.
    destruct (edge_ids_by_span v !! child_level e) as [ps|] eqn:E; simpl in Hin;
      [|rewrite lookup_empty in Hin; set_solver].
    destruct (ps !! parent_level e) as [ids|] eqn:E'; simpl in Hin; [|set_solver].
    exists (child_level e, ps). split.
    + apply list_elem_of_bind. exists (parent_level e, ids). rewrite elem_of_elements.
      split; [naive_solver|]. by apply elem_of_btree_to_list, map_lookup_filter_Some.
    + by apply elem_of_btree_to_list, map_lookup_filter_Some.
Qed.

Lemma select_subview_graph_spec v ext :
  indexed v → select_subview_graph v ext = Some (sub_blocks ext v, sub_edges ext v).
Proof.
  intros Hi. unfold select_subview_graph.
  destruct (select_step_spec (blocks v) ∅ (btree_to_list
    (filter (λ '(l, _), contains_level ext l) (block_hashes_by_level v))
      ≫= λ '(_, hs), elements hs)) as (bs & Hbs & Hbl).
  { intros h (b & ? & _)%selected_hashes; eauto. }
  unfold select_block_step. rewrite Hbs. run_bind.
  destruct (select_step_spec (edges v) ∅ (btree_to_list
    (filter (λ '(cl, _), low_level ext ≤ cl) (edge_ids_by_span v))
      ≫= λ '(_, ps), btree_to_list (filter (λ '(pl, _), pl ≤ high_level ext) ps)
      ≫= λ '(_, ids), elements ids)) as (es & Hes & Hel).
  { intros id (e & ? & _)%selected_ids; eauto. }
  unfold select_edge_step. rewrite Hes. run_bind. do 2 f_equal.
  - apply map_eq; intros h. rewrite Hbl. apply option_eq; intros b.
    unfold sub_blocks. rewrite map_lookup_filter_Some. case_decide as Hd.
    + apply selected_hashes in Hd as (b' & Hb' & Hc); [|done]. rewrite Hb'. naive_solver.
    + rewrite lookup_empty. split; [done|]. intros [Hb Hc]. destruct Hd. apply selected_hashes; eauto.
  - apply map_eq; intros id. rewrite Hel. apply option_eq; intros e.
    unfold sub_edges. rewrite map_lookup_filter_Some. case_decide as Hd.
    + apply selected_ids in Hd as (e' & He' & Hc); [|done]. rewrite He'. naive_solver.
    + rewrite lookup_empty. split; [done|]. intros [He Hc]. destruct Hd. apply selected_ids; eauto.
Qed.

(** The level loops copy source values with a fresh usage count. *)
Lemma insert_source_levels_spec v (xs : list N) ls :
  (∀ l, l ∈ xs → is_Some (levels v !! l)) →
  (∀ l s, ls !! l = Some s → Some s = (λ x, MkStoredLevel (value x) 0) <$> levels v !! l) →
  ∃ ls', fold_m (insert_source_level v) ls xs = Some ls' ∧
    ∀ l, ls' !! l = if decide (l ∈ xs ∨ is_Some (ls !! l))
                    then (λ x, MkStoredLevel (value x) 0) <$> levels v !! l else None.
Proof.
  revert ls. induction xs as [|x xs IH]; intros ls Hin Hls.
  { exists ls. split; [done|]. intros l. destruct (ls !! l) eqn:E.
    - rewrite decide_True by eauto. by apply Hls.
    - rewrite decide_False; [done|]. intros [?|[]]; set_solver. }
  cbn [fold_m]. destruct (ls !! x) as [s|] eqn:E.
  - assert (insert_source_level v ls x = Some ls) as -> by (unfold insert_source_level; by rewrite E).
    run_bind.
    destruct (IH ls) as (ls' & -> & Hl'); [set_solver|done|]. exists ls'. split; [done|].
    intros l. rewrite Hl'. apply decide_ext. rewrite elem_of_cons. naive_solver.
  - destruct (Hin x) as [s Hs]; [set_solver|].
    assert (insert_source_level v ls x = Some (<[x := MkStoredLevel (value s) 0]> ls)) as ->
      by (unfold insert_source_level; by rewrite E, Hs).
    run_bind.
    destruct (IH (<[x := MkStoredLevel (value s) 0]> ls)) as (ls' & -> & Hl'); [set_solver| |].
    { intros l t. rewrite lookup_insert. case_decide; [subst|apply Hls].
      intros [= <-]. by rewrite Hs. }
    exists ls'. split; [done|]. intros l. rewrite Hl'. apply decide_ext.
    rewrite elem_of_cons, lookup_insert. case_decide; naive_solver.
Qed.

(** The levels of a subview. *)
Definition sub_levels ext v : gmap N StoredLevel :=
  (λ s, MkStoredLevel (value s) 0)
    <$> filter (λ '(l, _), l ∈ seqN (low_level ext) (extent_depth ext)
                           ∨ l ∈ endpoint_levels (sub_edges ext v)) (levels v).

Record extractable ext v : Prop := {
  ex_indexed : indexed v;
  ex_inside : contains_extent (extent v) ext;
  ex_wf : extent_wf ext;
  ex_nominal : ∀ l, contains_level ext l → is_Some (levels v !! l);
  ex_child : ∀ id e, edges v !! id = Some e → is_Some (levels v !! child_level e);
  ex_bound : N.of_nat (size (edges v)) ≤ U64_MAX
}.

Lemma extract_levels ext v :
  extractable ext v →
  (ls ← fold_m (insert_source_level v) ∅ (seqN (low_level ext) (extent_depth ext));
   fold_m (λ ls e, ls ← insert_source_level v ls (parent_level e);
                   insert_source_level v ls (child_level e)) ls (map_to_list (sub_edges ext v)).*2)
  = Some (sub_levels ext v).
Proof.
  intros [Hi Hin [Hlo Hhi] Hnom Hch Hs].
  destruct (insert_source_levels_spec v (seqN (low_level ext) (extent_depth ext)) ∅)
    as (ls1 & -> & Hl1).
  { intros l [??]%elem_of_seqN. apply Hnom. unfold contains_level, extent_depth in *. lia. }
  { intros l s. by rewrite lookup_empty. }
  run_bind.
  assert (∀ xs ls, fold_m (λ ls e, ls ← insert_source_level v ls (parent_level e);
                                   insert_source_level v ls (child_level e)) ls xs
            = fold_m (insert_source_level v) ls (xs ≫= λ e, [parent_level e; child_level e])) as ->.
  { induction xs as [|e xs IH]; intros ls; [done|]. cbn [fold_m]. rewrite bind_cons. cbn [app fold_m].
    destruct (insert_source_level v ls (parent_level e)) as [ls'|]; [|done]. run_bind.
    destruct (insert_source_level v ls' (child_level e)); [|done]. apply IH. }
  fold (endpoint_levels (sub_edges ext v)).
  destruct (insert_source_levels_spec v (endpoint_levels (sub_edges ext v)) ls1) as (ls2 & -> & Hl2).
  { intros l (id & e & [He _]%map_lookup_filter_Some & [->| ->])%elem_of_endpoint_levels;
      [by eapply (ix_parent_level _ Hi)|by eapply Hch]. }
  { intros l s. rewrite Hl1. case_decide; [done|congruence]. }
  f_equal. apply map_eq; intros l. unfold sub_levels. rewrite Hl2, lookup_fmap, map_lookup_filter.
  rewrite Hl1, lookup_empty.
  destruct (levels v !! l) as [s|]; simpl; [|by case_decide].
  destruct (decide (l ∈ seqN (low_level ext) (extent_depth ext))) as [Hq|Hq].
  - rewrite decide_True by (right; rewrite decide_True by (by left); eauto).
    rewrite option_guard_True by (by left). done.
  - rewrite (decide_False (P := l ∈ seqN _ _ ∨ _)) by (rewrite is_Some_alt; tauto).
    destruct (decide (l ∈ endpoint_levels (sub_edges ext v))) as [He|He].
    + rewrite decide_True by (by left). rewrite option_guard_True by (by right). done.
    + rewrite decide_False by (rewrite is_Some_alt; tauto). rewrite option_guard_False by tauto. done.
Qed.

Lemma extract_subview_spec ext v :
  extractable ext v →
  ∃ x, extract_subview ext v = Some (Ok x) ∧ indexed x ∧
    blocks x = sub_blocks ext v ∧ edges x = sub_edges ext v ∧
    value <$> levels x = value <$> sub_levels ext v ∧
    extent x = ext ∧ max_depth x = extent_depth ext ∧ tracking_policy x = Frozen ∧
    current_revision_id x = current_revision_id v ∧
    current_revision_timestamp_ms x = current_revision_timestamp_ms v.
Proof.
  intros Hx. pose proof (extract_levels ext v Hx) as Hlv. destruct Hx as [Hi Hin Hwf Hnom Hch Hs].
  unfold extract_subview. rewrite decide_False by tauto.
  rewrite select_subview_graph_spec by done. cbn [mbind option_bind] in *.
  destruct (fold_m (insert_source_level v) ∅ _) as [ls1|]; [|done]. cbn [mbind option_bind] in *.
  rewrite Hlv. run_bind.
  match goal with |- context [fold_m _ ?v0 _] => set (x := v0) end.
  destruct (count_usage x) as (ls & Hf & Hi' & Hc).
  - simpl. intros h b [Hb _]%map_lookup_filter_Some. by apply (ix_block_key _ Hi).
  - simpl. intros id e [He _]%map_lookup_filter_Some. by apply (ix_edge_key _ Hi).
  - apply index_blocks_by_level_ok.
  - apply index_edge_parents_by_child_ok.
  - apply index_edges_by_span_ok.
  - simpl. unfold sub_levels. intros l s. rewrite lookup_fmap.
    destruct (filter _ (levels v) !! l); [|done]. by intros [= <-].
  - simpl. intros id e He. unfold sub_levels. rewrite lookup_fmap, fmap_is_Some.
    pose proof He as [He' _]%map_lookup_filter_Some.
    destruct (ix_parent_level _ Hi id e He') as [s Hs']. exists s.
    apply map_lookup_filter_Some. split; [done|]. right. apply elem_of_endpoint_levels. eauto.
  - simpl. assert (size (sub_edges ext v) ≤ size (edges v))%nat; [|lia].
    apply map_subseteq_size, map_filter_subseteq.
  - change (fold_m _ x _) with
      (fold_m (λ v l, increment_parent_usage l v) x (parent_levels (edges x))).
    rewrite Hf. run_bind. eexists. split; [done|]. split; [done|].
    injection Hc as Hc. split_and!; done.
Qed.

(** Any window inside a Head view's extent can be extracted. *)
Lemma head_extractable ext v :
  head_inv v → extent_wf ext → contains_extent (extent v) ext → N.of_nat (size (edges v)) ≤ U64_MAX →
  extractable ext v.
Proof.
  intros Hv Hw Hin Hs. split; try done; [apply Hv| |].
  - intros l [H1 H2]. apply (hv_nominal _ Hv). destruct Hin. split; lia.
  - intros id e He. destruct (hv_children _ Hv _ _ He) as (b & Hb & Hc).
    apply (hv_nominal _ Hv). unfold child_level. rewrite <- Hc. by apply (hv_blocks _ Hv (child id)).
Qed.
End subview.
