(* ===== verification/History.v ===== *)
(** Retained graph history of [crates/kgi-api-model/src/history.rs]: gapless
    append, replay barriers, pruning, and the two range selections. *)

From S2P Require Import Prelude Model Delta.

Inductive GraphHistoryAppendError :=
  | HistoryRevisionMismatch (history_revision delta_from : N)
  | NonAtomicDelta (from_revision_id to_revision_id : N).

Inductive GraphHistoryReplayability := Replayable | ReplayBarrier.

Inductive GraphHistoryRangeError :=
  | BackwardTarget (from_revision_id target_revision_id : N)
  | StartBeforeReplayFloor (requested replay_floor_revision : N)
  | StartPruned (requested oldest_available : N)
  | StartUnavailable (requested current : N).

#[global] Instance Replayability_eq_dec : EqDecision GraphHistoryReplayability.
Proof. solve_decision. Defined.

Section history.
Context {KH : KaspaHash}.

Record GraphHistoryEntry := MkGraphHistoryEntry {
  he_delta : GraphDelta;
  he_estimated_raw_bytes : N;
  he_cumulative_estimated_bytes : N
}.

Definition GraphHistoryEntryList := list GraphHistoryEntry.

Inductive GraphHistoryRange :=
  | UpToDate (revision : N)
  | Deltas (from requested_target actual_target : N) (entries : GraphHistoryEntryList).

Record GraphHistoryFittingRange := MkGraphHistoryFittingRange {
  fr_target_revision : N;
  fr_shortened : bool;
  fr_entries : GraphHistoryEntryList
}.

(** [GraphHistoryFittingRange::estimated_raw_bytes]. *)
Definition fr_estimated_raw_bytes (r : GraphHistoryFittingRange) : option N :=
  first ← head (fr_entries r);
  last_ ← last (fr_entries r);
  left_boundary ← checked_sub (he_cumulative_estimated_bytes first) (he_estimated_raw_bytes first);
  checked_sub (he_cumulative_estimated_bytes last_) left_boundary.

Record GraphHistory := MkGraphHistory {
  gh_current_revision_id : N;
  gh_current_cumulative_estimated_bytes : N;
  gh_replay_floor_revision : N;
  gh_entries : list GraphHistoryEntry
}.

Definition GraphHistory_new : GraphHistory := MkGraphHistory 0 0 0 [].

(** [None] is the documented overflow panic. *)
Definition append (delta : GraphDelta) (estimated_raw_bytes : N)
    (replayability : GraphHistoryReplayability) (h : GraphHistory) :
    option (GraphHistory * Result unit GraphHistoryAppendError) :=
  if decide (gh_current_revision_id h ≠ from_revision_id delta) then
    Some (h, Err (HistoryRevisionMismatch (gh_current_revision_id h) (from_revision_id delta)))
  else
    let target_revision := to_revision_id delta in
    successor ← checked_add (from_revision_id delta) 1;
    if decide (target_revision ≠ successor) then
      Some (h, Err (NonAtomicDelta (from_revision_id delta) target_revision))
    else
      cumulative ← checked_add (gh_current_cumulative_estimated_bytes h) estimated_raw_bytes;
      let '(floor, entries) :=
        match replayability with
        | Replayable =>
          (gh_replay_floor_revision h,
           gh_entries h ++ [MkGraphHistoryEntry delta estimated_raw_bytes cumulative])
        | ReplayBarrier => (target_revision, [])
        end in
      Some (MkGraphHistory target_revision cumulative floor entries, Ok tt).

(** The [while] loop of [prune]. *)
Fixpoint prune_entries (head_low_level : N) (es : list GraphHistoryEntry) :
    list GraphHistoryEntry :=
  match es with
  | [] => []
  | e :: rest =>
    if decide (head_level (he_delta e) < head_low_level)
    then prune_entries head_low_level rest else es
  end.

Definition prune (head_low_level : N) (h : GraphHistory) : GraphHistory :=
  MkGraphHistory (gh_current_revision_id h) (gh_current_cumulative_estimated_bytes h)
    (gh_replay_floor_revision h) (prune_entries head_low_level (gh_entries h)).

Definition oldest_available_revision (h : GraphHistory) : N :=
  match gh_entries h with
  | [] => gh_current_revision_id h
  | e :: _ => from_revision_id (he_delta e)
  end.

(** The binary search, with one unit of fuel per loop iteration; the outer
    option is the out-of-range index and the exhausted fuel. *)
Fixpoint find_boundary_loop (fuel : nat) (entries : list GraphHistoryEntry) (revision_id : N)
    (low high : nat) : option (option nat) :=
  if decide (low < high)%nat then
    match fuel with
    | O => None
    | S fuel =>
      let middle := (low + (high - low) / 2)%nat in
      e ← entries !! middle;
      match N.compare (from_revision_id (he_delta e)) revision_id with
      | Lt => find_boundary_loop fuel entries revision_id (middle + 1) high
      | Gt => find_boundary_loop fuel entries revision_id low middle
      | Eq => Some (Some middle)
      end
    end
  else Some None.

Definition find_boundary_index (entries : list GraphHistoryEntry) (revision_id : N) :
    option (option nat) :=
  find_boundary_loop (length entries) entries revision_id 0 (length entries).

(** The selection loop of [range]. *)
Fixpoint select_until (target : N) (actual : N) (es : list GraphHistoryEntry) :
    N * list GraphHistoryEntry :=
  match es with
  | [] => (actual, [])
  | e :: rest =>
    let actual := to_revision_id (he_delta e) in
    if decide (actual = target) then (actual, [e])
    else let '(a, sel) := select_until target actual rest in (a, e :: sel)
  end.

Definition range (from target : N) (h : GraphHistory) :
    option (Result GraphHistoryRange GraphHistoryRangeError) :=
  if decide (target < from) then Some (Err (BackwardTarget from target))
  else if decide (target = from) then Some (Ok (UpToDate from))
  else if decide (from < gh_replay_floor_revision h) then
    Some (Err (StartBeforeReplayFloor from (gh_replay_floor_revision h)))
  else
    let oldest_available := oldest_available_revision h in
    if decide (from < oldest_available) then Some (Err (StartPruned from oldest_available))
    else if decide (from = gh_current_revision_id h) then Some (Ok (UpToDate from))
    else
      found ← find_boundary_index (gh_entries h) from;
      match found with
      | None => Some (Err (StartUnavailable from (gh_current_revision_id h)))
      | Some start_index =>
        let '(actual_target, selected) := select_until target from (drop start_index (gh_entries h)) in
        Some (Ok (Deltas from target actual_target selected))
      end.

(** The candidate loop of [fitting_range]. *)
Fixpoint fitting_loop (h : GraphHistory) (from requested_target left_boundary : N)
    (start_index : nat) (fits : N → bool) (previous_target : option N) (candidates : list N) :
    option (option GraphHistoryFittingRange) :=
  match candidates with
  | [] => Some None
  | target :: rest =>
    _ ← assert_ (from < target ∧ target ≤ requested_target);
    _ ← match previous_target with
        | Some previous => assert_ (target < previous)
        | None => Some tt
        end;
    end_index ← checked_add (N.of_nat start_index) (target - from - 1);
    entry ← gh_entries h !! N.to_nat end_index;
    _ ← assert_ (to_revision_id (he_delta entry) = target);
    estimated ← checked_sub (he_cumulative_estimated_bytes entry) left_boundary;
    if fits estimated then
      Some (Some (MkGraphHistoryFittingRange target (bool_decide (target ≠ requested_target))
        (take (N.to_nat end_index + 1 - start_index) (drop start_index (gh_entries h)))))
    else fitting_loop h from requested_target left_boundary start_index fits (Some target) rest
  end.

Definition fitting_range (from : N) (candidates : list N) (fits : N → bool) (h : GraphHistory) :
    option (Result (option GraphHistoryFittingRange) GraphHistoryRangeError) :=
  match candidates with
  | [] => Some (Ok None)
  | requested_target :: rest =>
    if decide (requested_target < from) then Some (Err (BackwardTarget from requested_target))
    else if decide (requested_target = from) then Some (Ok None)
    else if decide (from < gh_replay_floor_revision h) then
      Some (Err (StartBeforeReplayFloor from (gh_replay_floor_revision h)))
    else
      let oldest_available := oldest_available_revision h in
      if decide (from < oldest_available) then Some (Err (StartPruned from oldest_available))
      else if decide (from = gh_current_revision_id h) then Some (Ok None)
      else
        found ← find_boundary_index (gh_entries h) from;
        match found with
        | None => Some (Err (StartUnavailable from (gh_current_revision_id h)))
        | Some start_index =>
          first ← gh_entries h !! start_index;
          left_boundary ← checked_sub (he_cumulative_estimated_bytes first)
                            (he_estimated_raw_bytes first);
          r ← fitting_loop h from requested_target left_boundary start_index fits None
                (requested_target :: rest);
          Some (Ok r)
        end
  end.

(** * The gapless invariant *)

Implicit Types (es : list GraphHistoryEntry) (h : GraphHistory).

(** [es] steps one revision at a time from [f] to [t], and its absolute
    cumulative costs run from [c] to [ct]. *)
Fixpoint linked (f c : N) es (t ct : N) : Prop :=
  match es with
  | [] => f = t ∧ c = ct
  | e :: rest =>
    from_revision_id (he_delta e) = f ∧ to_revision_id (he_delta e) = f + 1 ∧
    he_cumulative_estimated_bytes e = c + he_estimated_raw_bytes e ∧
    linked (f + 1) (he_cumulative_estimated_bytes e) rest t ct
  end.

Definition total_estimate es : N := foldr (λ e n, he_estimated_raw_bytes e + n) 0 es.

Record history_inv h : Prop := {
  hi_linked : ∃ c, linked (oldest_available_revision h) c (gh_entries h)
                     (gh_current_revision_id h) (gh_current_cumulative_estimated_bytes h);
  hi_floor : gh_replay_floor_revision h ≤ oldest_available_revision h;
  hi_revision : gh_current_revision_id h ≤ U64_MAX;
  hi_cumulative : gh_current_cumulative_estimated_bytes h ≤ U64_MAX
}.

Lemma linked_app f c es1 es2 t ct :
  linked f c (es1 ++ es2) t ct ↔ ∃ m cm, linked f c es1 m cm ∧ linked m cm es2 t ct.
Proof.
  revert f c. induction es1 as [|e es1 IH]; intros f c; simpl; [|rewrite IH]; naive_solver.
Qed.

Lemma linked_length f c es t ct : linked f c es t ct → t = f + N.of_nat (length es).
Proof.
  revert f c. induction es as [|e es IH]; intros f c; simpl; [lia|].
  intros (_ & _ & _ & H%IH). lia.
Qed.

Lemma linked_total f c es t ct : linked f c es t ct → ct = c + total_estimate es.
Proof.
  revert f c. induction es as [|e es IH]; intros f c; simpl; [lia|].
  intros (_ & _ & ? & H%IH). lia.
Qed.

Lemma linked_lookup f c es t ct i e :
  linked f c es t ct → es !! i = Some e →
  from_revision_id (he_delta e) = f + N.of_nat i ∧
  to_revision_id (he_delta e) = f + N.of_nat i + 1 ∧
  he_cumulative_estimated_bytes e = c + total_estimate (take (S i) es).
Proof.
  revert f c i. induction es as [|e' es IH]; intros f c i; [done|].
  intros (Hf & Ht & Hc & Hl). destruct i as [|i]; simpl.
  - intros [= ->]. destruct es; simpl; lia.
  - intros He. destruct (IH _ _ _ Hl He) as (? & ? & ?). rewrite Hc in *. simpl in *. lia.
Qed.

Lemma linked_le f c es t ct : linked f c es t ct → f ≤ t ∧ c ≤ ct.
Proof.
  intros Hl. rewrite (linked_length _ _ _ _ _ Hl), (linked_total _ _ _ _ _ Hl). lia.
Qed.

Lemma linked_split f c es t ct i :
  linked f c es t ct → (i ≤ length es)%nat →
  ∃ cm, linked f c (take i es) (f + N.of_nat i) cm ∧ linked (f + N.of_nat i) cm (drop i es) t ct.
Proof.
  intros Hl Hi. rewrite <- (take_drop i es) in Hl.
  apply linked_app in Hl as (m & cm & H1 & H2).
  pose proof (linked_length _ _ _ _ _ H1) as Hm. rewrite length_take_le in Hm by done.
  subst m. by exists cm.
Qed.

(** Any start the links agree with is the oldest available revision. *)
Lemma history_inv_intro h f c :
  linked f c (gh_entries h) (gh_current_revision_id h) (gh_current_cumulative_estimated_bytes h) →
  gh_replay_floor_revision h ≤ f → gh_current_revision_id h ≤ U64_MAX →
  gh_current_cumulative_estimated_bytes h ≤ U64_MAX → history_inv h.
Proof.
  intros Hl Hf Hr Hc.
  assert (oldest_available_revision h = f) as Ho.
  { unfold oldest_available_revision. destruct (gh_entries h); simpl in Hl; by destruct Hl. }
  split; rewrite ?Ho; eauto.
Qed.

Lemma GraphHistory_new_inv : history_inv GraphHistory_new.
Proof. by apply (history_inv_intro _ 0 0). Qed.

(** * Append and prune *)

Lemma append_inv h d est r :
  history_inv h → from_revision_id d = gh_current_revision_id h →
  to_revision_id d = gh_current_revision_id h + 1 → to_revision_id d ≤ U64_MAX →
  gh_current_cumulative_estimated_bytes h + est ≤ U64_MAX →
  ∃ h', append d est r h = Some (h', Ok tt) ∧ history_inv h' ∧
    gh_current_revision_id h' = to_revision_id d ∧
    gh_entries h' = match r with
      | Replayable => gh_entries h ++ [MkGraphHistoryEntry d est
                        (gh_current_cumulative_estimated_bytes h + est)]
      | ReplayBarrier => []
      end ∧
    gh_replay_floor_revision h' = match r with
      | Replayable => gh_replay_floor_revision h
      | ReplayBarrier => to_revision_id d
      end.
Proof.
  intros [[c Hl] Hf Hr Hc] Hfrom Hto Hmax Hest. unfold append.
  rewrite decide_False by (rewrite Hfrom; tauto).
  rewrite (checked_add_Some (from_revision_id d)) by lia.
  run_bind. rewrite decide_False by lia. rewrite checked_add_Some by lia.
  run_bind. destruct r; eexists; split; try done; split; try done.
  - eapply (history_inv_intro _ (oldest_available_revision h) c); simpl; try done.
    apply linked_app. eexists _, _. split; [done|]. simpl. by rewrite Hfrom, Hto.
  - by eapply (history_inv_intro _ (to_revision_id d)); simpl.
Qed.

Lemma prune_entries_drop low es :
  ∃ n, prune_entries low es = drop n es ∧ (n ≤ length es)%nat ∧
    (∀ e, e ∈ take n es → head_level (he_delta e) < low) ∧
    ∀ e, head (drop n es) = Some e → low ≤ head_level (he_delta e).
Proof.
  induction es as [|e es (n & IH & Hn & Hlow & Hge)]; simpl.
  - exists 0%nat. simpl. split_and!; try done; intros ? H; set_solver.
  - case_decide as Hd.
    + exists (S n). simpl. split_and!; [done|lia| |done].
      intros x [->|?]%elem_of_cons; auto.
    + exists 0%nat. simpl. split_and!; [done|lia|set_solver|]. intros ? [= ->]. lia.
Qed.

Lemma prune_inv low h :
  history_inv h →
  history_inv (prune low h) ∧ gh_current_revision_id (prune low h) = gh_current_revision_id h ∧
  ∃ n, gh_entries (prune low h) = drop n (gh_entries h) ∧ (n ≤ length (gh_entries h))%nat.
Proof.
  intros [[c Hl] Hf Hr Hc].
  destruct (prune_entries_drop low (gh_entries h)) as (n & E & Hn & _).
  split; [|split; [done|by exists n]].
  destruct (linked_split _ _ _ _ _ _ Hl Hn) as (cm & _ & H2).
  eapply history_inv_intro; simpl; [by rewrite E|lia|done|done].
Qed.

Lemma oldest_length h :
  history_inv h →
  gh_current_revision_id h = oldest_available_revision h + N.of_nat (length (gh_entries h)).
Proof. intros [[c Hl] _ _ _]. by eapply linked_length. Qed.

(** An append that returns did not overflow. *)
Lemma append_no_overflow d est r h x :
  append d est r h = Some x → from_revision_id d = gh_current_revision_id h →
  to_revision_id d = gh_current_revision_id h + 1 →
  gh_current_revision_id h < U64_MAX ∧ gh_current_cumulative_estimated_bytes h + est ≤ U64_MAX.
Proof.
  unfold append. intros Happ Hf Ht. rewrite decide_False in Happ by (rewrite Hf; tauto).
  destruct (checked_add (from_revision_id d) 1) as [s|] eqn:E1; [|done]. cbn [mbind option_bind] in Happ.
  apply checked_add_inv in E1 as [-> E1]. rewrite decide_False in Happ by lia.
  destruct (checked_add _ est) as [s|] eqn:E2; [|done]. apply checked_add_inv in E2 as [_ E2]. lia.
Qed.

(** * The binary search *)

(** With [f] the first left boundary, index [i] holds boundary [f + i], so the
    search returns exactly [rev - f] when that is an index. *)
Lemma find_boundary_loop_spec f c es t ct rev fuel low high :
  linked f c es t ct → (high ≤ length es)%nat → (high - low ≤ fuel)%nat →
  (∀ i, (i < length es)%nat → f + N.of_nat i = rev → (low ≤ i < high)%nat) →
  find_boundary_loop fuel es rev low high
  = Some (if decide (f ≤ rev < t) then Some (N.to_nat (rev - f)) else None).
Proof.
  intros Hl. pose proof (linked_length _ _ _ _ _ Hl) as Hlen.
  revert low high. induction fuel as [|fuel IH]; intros low high Hh Hfu Hin.
  - simpl. rewrite decide_False by lia. case_decide as Hd; [|done].
    exfalso. specialize (Hin (N.to_nat (rev - f))). lia.
  - cbn [find_boundary_loop]. destruct (decide (low < high)%nat) as [Hlt|Hge].
    + pose proof (Nat.div_lt (high - low) 2) as Hdiv.
      destruct (lookup_lt_is_Some_2 es (low + (high - low) / 2)) as [e He]; [lia|]. rewrite He.
      run_bind.
      destruct (linked_lookup _ _ _ _ _ _ _ Hl He) as (-> & _ & _).
      destruct (N.compare_spec (f + N.of_nat (low + (high - low) / 2)) rev) as [Heq|Hl'|Hg].
      * rewrite decide_True by lia. do 2 f_equal. lia.
      * apply IH; [done|lia|]. intros i Hi Hf. specialize (Hin i Hi Hf). lia.
      * apply IH; [lia|lia|]. intros i Hi Hf. specialize (Hin i Hi Hf). lia.
    + case_decide as Hd; [|done]. exfalso. specialize (Hin (N.to_nat (rev - f))). lia.
Qed.

Lemma find_boundary_index_spec h rev :
  history_inv h →
  find_boundary_index (gh_entries h) rev
  = Some (if decide (oldest_available_revision h ≤ rev < gh_current_revision_id h)
          then Some (N.to_nat (rev - oldest_available_revision h)) else None).
Proof.
  intros [[c Hl] _ _ _]. eapply find_boundary_loop_spec; [done|lia|lia|]. intros i. lia.
Qed.

(** * Ranges *)

(** The retained entries whose steps lie between two revisions. *)
Definition segment h (from to : N) : list GraphHistoryEntry :=
  take (N.to_nat (to - from)) (drop (N.to_nat (from - oldest_available_revision h)) (gh_entries h)).

Lemma select_until_spec f c es t ct target a :
  linked f c es t ct → f < target → es ≠ [] →
  select_until target a es = (N.min target t, take (N.to_nat (target - f)) es).
Proof.
  revert f c a. induction es as [|e es IH]; intros f c a Hl Hf Hne; [done|].
  destruct Hl as (Hfrom & Hto & Hc & Hl). pose proof (linked_le _ _ _ _ _ Hl) as [Hle _].
  simpl. rewrite Hto. case_decide as Hd.
  - subst target. replace (N.to_nat (f + 1 - f)) with 1%nat by lia. simpl. rewrite take_0.
    f_equal. lia.
  - destruct es as [|e' es].
    + destruct Hl as [<- _]. simpl. destruct (N.to_nat (target - f)) as [|n] eqn:En; [lia|].
      simpl. rewrite take_nil. f_equal. lia.
    + rewrite (IH _ _ _ Hl) by (done || lia).
      replace (N.to_nat (target - f)) with (S (N.to_nat (target - (f + 1)))) by lia. done.
Qed.

Lemma segment_linked h from to :
  history_inv h → oldest_available_revision h ≤ from → from ≤ to ≤ gh_current_revision_id h →
  ∃ c ct, linked from c (segment h from to) to ct.
Proof.
  intros [[c Hl] _ _ _] Ho Hr. pose proof (linked_length _ _ _ _ _ Hl) as Hlen.
  destruct (linked_split _ _ _ _ _ (N.to_nat (from - oldest_available_revision h)) Hl)
    as (c1 & _ & H1); [lia|].
  replace (_ + N.of_nat _) with from in H1 by lia.
  destruct (linked_split _ _ _ _ _ (N.to_nat (to - from)) H1) as (c2 & H2 & _).
  { rewrite length_drop. lia. }
  replace (from + N.of_nat _) with to in H2 by lia. eauto.
Qed.

(** What [range] answers, as a function of the revisions alone. *)
Definition range_outcome h (from target : N) : Result GraphHistoryRange GraphHistoryRangeError :=
  if decide (target < from) then Err (BackwardTarget from target)
  else if decide (target = from) then Ok (UpToDate from)
  else if decide (from < gh_replay_floor_revision h) then
    Err (StartBeforeReplayFloor from (gh_replay_floor_revision h))
  else if decide (from < oldest_available_revision h) then
    Err (StartPruned from (oldest_available_revision h))
  else if decide (from = gh_current_revision_id h) then Ok (UpToDate from)
  else if decide (gh_current_revision_id h < from) then
    Err (StartUnavailable from (gh_current_revision_id h))
  else let actual := N.min target (gh_current_revision_id h) in
       Ok (Deltas from target actual (segment h from actual)).

Lemma range_spec h from target :
  history_inv h → range from target h = Some (range_outcome h from target).
Proof.
  intros Hi. unfold range, range_outcome. repeat (case_decide; [done|]).
  rewrite find_boundary_index_spec by done. run_bind.
  destruct (decide (gh_current_revision_id h < from)) as [Hgt|Hle].
  { rewrite decide_False by lia. done. }
  rewrite decide_True by lia. destruct (hi_linked _ Hi) as [c Hl].
  pose proof (linked_length _ _ _ _ _ Hl) as Hlen.
  destruct (linked_split _ _ _ _ _ (N.to_nat (from - oldest_available_revision h)) Hl)
    as (c1 & _ & Hseg); [lia|].
  replace (_ + N.of_nat _) with from in Hseg by lia.
  erewrite select_until_spec; [|exact Hseg|lia|].
  - do 3 f_equal. unfold segment. destruct (N.min_spec target (gh_current_revision_id h)) as [[? ->]|[? ->]];
      [done|]. rewrite !take_ge by (rewrite length_drop; lia). done.
  - intros Hn. apply (f_equal length) in Hn. rewrite length_drop in Hn. simpl in Hn. lia.
Qed.

(** * Fitting ranges *)

(** The first candidate whose retained cost fits. *)
Definition fitting_choice h (from : N) (fits : N → bool) (candidates : list N) : option N :=
  head (filter (λ t, fits (total_estimate (segment h from t)) = true) candidates).

Lemma fitting_loop_spec h from requested left fits prev candidates :
  history_inv h → oldest_available_revision h ≤ from →
  linked from left (drop (N.to_nat (from - oldest_available_revision h)) (gh_entries h))
    (gh_current_revision_id h) (gh_current_cumulative_estimated_bytes h) →
  (∀ t, t ∈ candidates → from < t ∧ t ≤ requested ∧ t ≤ gh_current_revision_id h) →
  StronglySorted (λ x y, y < x) (option_list prev ++ candidates) →
  fitting_loop h from requested left (N.to_nat (from - oldest_available_revision h)) fits prev candidates
  = Some ((λ t, MkGraphHistoryFittingRange t (bool_decide (t ≠ requested)) (segment h from t))
            <$> fitting_choice h from fits candidates).
Proof.
  intros Hi Ho Hl. destruct (hi_linked _ Hi) as [c Hl0].
  pose proof (linked_length _ _ _ _ _ Hl) as Hlen. rewrite length_drop in Hlen.
  pose proof (linked_length _ _ _ _ _ Hl0) as Hlen0.
  pose proof (hi_revision _ Hi) as Hrev. set (start := N.to_nat (from - oldest_available_revision h)) in *.
  revert prev. induction candidates as [|t rest IH]; intros prev Hc Hs; [done|].
  destruct (Hc t) as (Ht1 & Ht2 & Ht3); [set_solver|].
  assert (StronglySorted (λ x y, y < x) (t :: rest) ∧ ∀ p, prev = Some p → t < p) as [Hs' Hp].
  { destruct prev as [p|]; simpl in *; [|done]. apply StronglySorted_inv in Hs as [? Hall].
    split; [done|]. intros ? [= ->]. by apply Forall_inv in Hall. }
  cbn [fitting_loop]. rewrite assert_true by done. run_bind.
  replace (match prev with Some previous => assert_ (t < previous) | None => Some tt end) with (Some tt)
    by (destruct prev; [rewrite assert_true|]; auto).
  run_bind. rewrite checked_add_Some by (unfold start in *; lia). run_bind.
  destruct (lookup_lt_is_Some_2 (gh_entries h) (N.to_nat (N.of_nat start + (t - from - 1)))) as [e He];
    [unfold start in *; lia|]. rewrite He. run_bind.
  assert (drop start (gh_entries h) !! (N.to_nat (t - from - 1)) = Some e) as He'.
  { rewrite lookup_drop, <- He. f_equal. lia. }
  destruct (linked_lookup _ _ _ _ _ _ _ Hl He') as (_ & Hto & Hcum).
  assert (he_cumulative_estimated_bytes e = left + total_estimate (segment h from t)) as Hcum'.
  { rewrite Hcum. unfold segment. fold start. do 3 f_equal. lia. }
  rewrite assert_true by (rewrite Hto; lia). run_bind.
  rewrite checked_sub_Some by lia. run_bind.
  rewrite Hcum'. replace (left + _ - left) with (total_estimate (segment h from t)) by lia.
  unfold fitting_choice. destruct (fits (total_estimate (segment h from t))) eqn:Ef.
  - rewrite filter_cons_True by done. simpl. unfold segment. fold start. do 3 f_equal. f_equal. lia.
  - rewrite filter_cons_False by congruence. apply IH; [set_solver|done].
Qed.

Lemma fitting_range_spec h from requested rest fits :
  history_inv h → oldest_available_revision h ≤ from →
  (∀ t, t ∈ requested :: rest → from < t ∧ t ≤ gh_current_revision_id h) →
  StronglySorted (λ x y, y < x) (requested :: rest) →
  fitting_range from (requested :: rest) fits h
  = Some (Ok ((λ t, MkGraphHistoryFittingRange t (bool_decide (t ≠ requested)) (segment h from t))
                <$> fitting_choice h from fits (requested :: rest))).
Proof.
  intros Hi Ho Hc Hs. destruct (Hc requested) as [Hr1 Hr2]; [set_solver|].
  pose proof (hi_floor _ Hi). unfold fitting_range.
  repeat (rewrite decide_False by lia). rewrite find_boundary_index_spec by done.
  rewrite decide_True by lia. run_bind.
  destruct (hi_linked _ Hi) as [c Hl]. pose proof (linked_length _ _ _ _ _ Hl) as Hlen.
  destruct (linked_split _ _ _ _ _ (N.to_nat (from - oldest_available_revision h)) Hl)
    as (c1 & _ & H1); [lia|].
  replace (_ + N.of_nat _) with from in H1 by lia.
  destruct (lookup_lt_is_Some_2 (gh_entries h) (N.to_nat (from - oldest_available_revision h)))
    as [e He]; [lia|]. rewrite He. run_bind.
  pose proof H1 as H1'. rewrite (drop_S _ _ _ He) in H1'. destruct H1' as (_ & _ & Hcum & _).
  rewrite Hcum, checked_sub_Some by lia. run_bind.
  replace (c1 + _ - _) with c1 by lia. rewrite fitting_loop_spec; [done|done|done|done| |done].
  intros t Ht. destruct (Hc t Ht) as [? ?]. split_and!; [done| |done].
  apply elem_of_cons in Ht as [->|Ht]; [done|]. apply StronglySorted_inv in Hs as [_ Hs].
  rewrite Forall_forall in Hs. apply Hs in Ht. lia.
Qed.

(** The cost a fitting range reports is the sum of its entries' costs. *)
Lemma fr_estimated_raw_bytes_spec f c es t ct tr sh :
  linked f c es t ct → es ≠ [] →
  fr_estimated_raw_bytes (MkGraphHistoryFittingRange tr sh es) = Some (total_estimate es).
Proof.
  intros Hl Hne. unfold fr_estimated_raw_bytes; simpl.
  destruct es as [|e es] using rev_ind; [done|]. clear IHes.
  rewrite last_snoc. destruct (head (es ++ [e])) as [x|] eqn:Hh; [|by destruct es].
  run_bind.
  assert (he_cumulative_estimated_bytes x = c + he_estimated_raw_bytes x) as Hx.
  { destruct (es ++ [e]); simplify_eq/=. apply Hl. }
  assert (he_cumulative_estimated_bytes e = ct) as He.
  { apply linked_app in Hl as (m & cm & _ & Hl). simpl in Hl. naive_solver. }
  rewrite Hx, checked_sub_Some by lia. run_bind.
  rewrite (linked_total _ _ _ _ _ Hl) in He. rewrite He, checked_sub_Some by lia. f_equal. lia.
Qed.
End history.
