(* ===== verification/Lineage.v ===== *)
(** One Head lineage: replay of delta chains, the raw-byte estimator of
    [crates/kgi-api-core/src/publication/estimate.rs], and the joint update of
    view and history of [publication/mod.rs] ([OriginalUpdate],
    [AppliedLineageUpdate]). *)

From S2P Require Import Prelude Model Delta GraphView ViewInvariant ApplyDelta Compose Mutation.
From S2P Require Import HeadBlock HeadView VspcView History.

(** * The estimator *)

Definition SOFT_DELTA_ESTIMATED_BYTES : N := 4 * 1024 * 1024.
Definition ENTRY_AND_BATCH_FRAMING_BYTES : N := 230.
Definition DISTINCT_HASH_BYTES : N := 68.
Definition BLOCK_UPSERT_BYTES : N := 236.
Definition BLOCK_RELATIONSHIP_BYTES : N := 6.
Definition EDGE_UPSERT_BYTES : N := 152.
Definition LEVEL_INSTALLATION_BYTES : N := 68.
Definition LEVEL_REMOVAL_BYTES : N := 38.
Definition MEMBERSHIP_MUTATION_BYTES : N := 32.
Definition COLOR_MUTATION_BYTES : N := 25.

Definition add_weighted (estimate : N) (count : nat) (weight : N) : option N :=
  contribution ← checked_mul (N.of_nat count) weight;
  checked_add estimate contribution.

Definition classify_replayability (estimated_raw_bytes : N) : GraphHistoryReplayability :=
  if decide (estimated_raw_bytes < SOFT_DELTA_ESTIMATED_BYTES) then Replayable else ReplayBarrier.

Inductive PublicationProjectionError :=
  | ViewUpdate (e : GraphViewUpdateError)
  | ProjectionRevisionMismatch (view_revision history_revision : N).

Section lineage.
Context {KH : KaspaHash}.
Implicit Types (v w : GraphView) (d : GraphDelta) (h : GraphHistory).

Definition upserts {K A} `{Countable K} (m : gmap K (option A)) : list A :=
  omap (λ '(_, x), x) (map_to_list m).

Definition relationships (b : GraphBlock) : list BlockHash :=
  direct_parents b ++ blue_merge_set b ++ red_merge_set b.

Definition emitted_hashes d : gset BlockHash :=
  list_to_set (upserts (block_changes d) ≫= λ b, hash b :: relationships b)
  ∪ list_to_set (upserts (edge_changes d) ≫= λ e, [parent (edge_id e); child (edge_id e)])
  ∪ dom (is_in_vspc_changes d) ∪ dom (color_changes d).

Definition estimate_raw_delta_bytes d : option N :=
  let block_upserts := length (upserts (block_changes d)) in
  let block_relationships := length (upserts (block_changes d) ≫= relationships) in
  let edge_upserts := length (upserts (edge_changes d)) in
  let level_installations := length (filter (λ c, is_Some (after c)) (level_changes d)) in
  let level_removals := (length (level_changes d) - level_installations)%nat in
  let e := ENTRY_AND_BATCH_FRAMING_BYTES in
  e ← add_weighted e (size (emitted_hashes d)) DISTINCT_HASH_BYTES;
  e ← add_weighted e block_upserts BLOCK_UPSERT_BYTES;
  e ← add_weighted e block_relationships BLOCK_RELATIONSHIP_BYTES;
  e ← add_weighted e edge_upserts EDGE_UPSERT_BYTES;
  e ← add_weighted e level_installations LEVEL_INSTALLATION_BYTES;
  e ← add_weighted e level_removals LEVEL_REMOVAL_BYTES;
  e ← add_weighted e (size (is_in_vspc_changes d)) MEMBERSHIP_MUTATION_BYTES;
  add_weighted e (size (color_changes d)) COLOR_MUTATION_BYTES.

(** * Joint updates *)

Inductive OriginalUpdate :=
  | OriginalBlock (c : BlockCommitted)
  | OriginalVspc (c : VspcCommitted).

Definition OriginalUpdate_apply (u : OriginalUpdate) (ts : N) v :
    option (GraphView * Result (option GraphDelta) GraphViewUpdateError) :=
  match u with
  | OriginalBlock c => apply_head_block_committed c ts v
  | OriginalVspc c => apply_head_vspc_committed c ts v
  end.

Record AppliedLineageUpdate := MkAppliedLineageUpdate {
  target_revision : N;
  replay_floor_advance : option N
}.

Definition AppliedLineageUpdate_apply (estimate_delta : GraphDelta → option N)
    (u : OriginalUpdate) (ts : N) v h :
    option (GraphView * GraphHistory
            * Result (option AppliedLineageUpdate) PublicationProjectionError) :=
  if decide (current_revision_id v ≠ gh_current_revision_id h) then
    Some (v, h, Err (ProjectionRevisionMismatch (current_revision_id v) (gh_current_revision_id h)))
  else
    '(v, r) ← OriginalUpdate_apply u ts v;
    match r with
    | Err e => Some (v, h, Err (ViewUpdate e))
    | Ok None => Some (v, h, Ok None)
    | Ok (Some delta) =>
      estimated ← estimate_delta delta;
      let replayability := classify_replayability estimated in
      let advance := if decide (replayability = ReplayBarrier)
                     then Some (to_revision_id delta) else None in
      '(h, appended) ← append delta estimated replayability h;
      match appended with
      | Err _ => None
      | Ok _ => Some (v, prune (low_level (extent v)) h,
                      Ok (Some (MkAppliedLineageUpdate (to_revision_id delta) advance)))
      end
    end.

(** * Replay *)

(** Applying deltas one after the other; [None] when one panics or is refused. *)
Definition replay (ds : list GraphDelta) v : option GraphView :=
  fold_m (λ v d, match apply_delta d v with Some (v', Ok _) => Some v' | _ => None end) v ds.

(** A chain of deltas each emitted at the view it applies to. *)
Inductive delta_chain : GraphView → list GraphDelta → GraphView → Prop :=
  | chain_nil v : delta_chain v [] v
  | chain_cons v d v' ds w :
      applicable d v → faithful d (content v) → apply_delta d v = Some (v', Ok tt) →
      delta_chain v' ds w → delta_chain v (d :: ds) w.

Lemma delta_chain_snoc v ds w d w' :
  delta_chain v ds w → applicable d w → faithful d (content w) →
  apply_delta d w = Some (w', Ok tt) → delta_chain v (ds ++ [d]) w'.
Proof. induction 1; simpl; intros; econstructor; eauto. constructor. Qed.

Lemma delta_chain_replay v ds w : delta_chain v ds w → replay ds v = Some w.
Proof. unfold replay. induction 1 as [|v d v' ds w Ha Hf Hd Hc IH]; cbn [fold_m]; [done|]. by rewrite Hd. Qed.

(** Composing a whole chain, left to right. *)
Definition compose_all d (ds : list GraphDelta) : option GraphDelta :=
  fold_m (λ d next, match compose d next with Some (Ok c) => Some c | _ => None end) d ds.

(** No later delta inserts a block an earlier one recorded a field change of. *)
Fixpoint no_resurrections (ds : list GraphDelta) : Prop :=
  match ds with
  | [] => True
  | d :: rest => Forall (no_resurrection d) rest ∧ no_resurrections rest
  end.

Lemma no_resurrection_composed d next later :
  no_resurrection d later → no_resurrection next later → no_resurrection (composed d next) later.
Proof.
  intros H1 H2 k b Hb. destruct (H1 k b Hb) as [V1 C1], (H2 k b Hb) as [V2 C2]. simpl.
  rewrite !compose_field_changes_lookup, V1, V2, C1, C2. done.
Qed.

Lemma compose_all_chain d ds v v1 w :
  indexed v → applicable d v → faithful d (content v) → apply_delta d v = Some (v1, Ok tt) →
  delta_chain v1 ds w → no_resurrections (d :: ds) →
  ∃ c, compose_all d ds = Some c ∧ applicable c v ∧ apply_delta c v = Some (w, Ok tt).
Proof.
  intros Hi Ha Hf Hd Hc. revert d Ha Hf Hd.
  induction Hc as [|v1 n v2 ds w Hna Hnf Hnd Hc IH]; intros d Ha Hf Hd [Hnr Hnrs].
  { by exists d. }
  apply Forall_cons in Hnr as [Hn1 Hn2]. destruct Hnrs as [Hn3 Hn4].
  destruct (composed_apply d n v v1 v2) as (Hcomp & Hca & Hcd); try done.
  unfold compose_all. cbn [fold_m]. rewrite Hcomp. apply IH; try done.
  - destruct (apply_delta_refines_run _ _ _ Hi Ha Hd) as (_ & _ & _ & Hc1 & _).
    rewrite Hc1 in Hnf. apply faithful_composed; try done; [apply Ha|apply Hna].
  - simpl. split; [|done]. rewrite Forall_forall in *. intros x Hx.
    apply no_resurrection_composed; auto.
Qed.

(** * The lineage invariant *)

Section run.
Variable estimate : GraphDelta → option N.

(** What Storage guarantees of an update meeting the view. *)
Definition update_ok (u : OriginalUpdate) v : Prop :=
  match u with
  | OriginalBlock c => block_payload_ok c v
  | OriginalVspc _ => N.of_nat (size (edges v)) ≤ U64_MAX ∧ current_revision_id v < U64_MAX
  end.

(** [lineage_run tr v h]: the pair [(v, h)] is reachable from a fresh
    publication, through the Head views [tr], newest first. *)
Inductive lineage_run : list GraphView → GraphView → GraphHistory → Prop :=
  | run_start v : head_inv v → current_revision_id v = 0 → lineage_run [v] v GraphHistory_new
  | run_step tr v h u ts v' h' r :
      lineage_run tr v h → update_ok u v →
      AppliedLineageUpdate_apply estimate u ts v h = Some (v', h', r) →
      lineage_run (v' :: tr) v' h'.

(** Every view of the run still inside the retained history reaches the
    current one through the retained deltas. *)
Record lineage_inv (tr : list GraphView) v h : Prop := {
  li_head : head_inv v;
  li_history : history_inv h;
  li_revision : current_revision_id v = gh_current_revision_id h;
  li_past : ∀ w, w ∈ tr → current_revision_id w ≤ current_revision_id v ∧ indexed w;
  li_chain : ∀ w, w ∈ tr → oldest_available_revision h ≤ current_revision_id w →
    delta_chain w (he_delta <$> segment h (current_revision_id w) (current_revision_id v)) v;
  li_current : v ∈ tr
}.

Lemma segment_all h from :
  history_inv h → oldest_available_revision h ≤ from →
  segment h from (gh_current_revision_id h)
  = drop (N.to_nat (from - oldest_available_revision h)) (gh_entries h).
Proof.
  intros [[c Hl] _ _ _] Ho. unfold segment. apply take_ge.
  pose proof (linked_length _ _ _ _ _ Hl). rewrite length_drop. lia.
Qed.

Lemma segment_same h from : segment h from from = [].
Proof. unfold segment. by rewrite N.sub_diag. Qed.

(** One update of an original kind: unchanged, or advanced by one delta. *)
Lemma original_update u ts v :
  head_inv v → update_ok u v →
  OriginalUpdate_apply u ts v = Some (v, Ok None) ∨
  ∃ v' d, OriginalUpdate_apply u ts v = Some (v', Ok (Some d)) ∧ head_inv v' ∧
    applicable d v ∧ faithful d (content v) ∧ apply_delta d v = Some (v', Ok tt) ∧
    from_revision_id d = current_revision_id v ∧
    to_revision_id d = current_revision_id v + 1 ∧
    current_revision_id v' = current_revision_id v + 1.
Proof.
  intros Hv Hu.
  assert (∀ v' d, applicable d v → apply_delta d v = Some (v', Ok tt) →
    from_revision_id d = current_revision_id v ∧ to_revision_id d = current_revision_id v') as Hr.
  { intros v' d Ha Hd. destruct (apply_delta_refines_run d v v') as (_ & ? & _ & _ & _ & _ & _ & ? & _);
      try done. apply Hv. }
  destruct u as [c|c]; simpl in *.
  - destruct (head_block_committed c ts v Hv Hu)
      as [->|(v' & d & -> & Hv' & Ha & Hf & Hd & Hrev & _)]; [by left|right].
    destruct (Hr _ _ Ha Hd). exists v', d. split_and!; try done; congruence.
  - destruct Hu as [Hs Hm]. destruct (head_vspc_committed c ts v Hv Hs Hm)
      as [[-> _]|(v' & d & -> & Hv' & _ & _ & Hrev & _ & _ & _ & Ha & Hf & Hd)]; [by left|right].
    destruct (Hr _ _ Ha Hd). exists v', d. split_and!; try done; congruence.
Qed.

(** What one joint update does to a consistent pair. *)
Lemma lineage_update u ts v h :
  head_inv v → history_inv h → current_revision_id v = gh_current_revision_id h →
  update_ok u v →
  AppliedLineageUpdate_apply estimate u ts v h = Some (v, h, Ok None) ∨
  ∃ v' d, OriginalUpdate_apply u ts v = Some (v', Ok (Some d)) ∧ head_inv v' ∧
    applicable d v ∧ faithful d (content v) ∧ apply_delta d v = Some (v', Ok tt) ∧
    current_revision_id v' = current_revision_id v + 1 ∧
    ∀ est, estimate d = Some est →
      gh_current_cumulative_estimated_bytes h + est ≤ U64_MAX →
      current_revision_id v < U64_MAX →
      ∃ h1 r, append d est (classify_replayability est) h = Some (h1, Ok tt) ∧
        history_inv h1 ∧ gh_current_revision_id h1 = current_revision_id v' ∧
        (gh_entries h1 = gh_entries h ++ [MkGraphHistoryEntry d est
             (gh_current_cumulative_estimated_bytes h + est)] ∨ gh_entries h1 = []) ∧
        AppliedLineageUpdate_apply estimate u ts v h
        = Some (v', prune (low_level (extent v')) h1, Ok (Some r)).
Proof.
  intros Hv Hh Hrev Hu. unfold AppliedLineageUpdate_apply.
  rewrite decide_False by (rewrite Hrev; tauto).
  destruct (original_update u ts v Hv Hu)
    as [->|(v' & d & -> & Hv' & Ha & Hf & Hd & Hfrom & Hto & Hrev')];
    run_bind; [by left|right].
  exists v', d. split_and!; try done. intros est -> Hcum Hmax. run_bind.
  destruct (append_inv h d est (classify_replayability est)) as (h1 & -> & Hi1 & Hr1 & He1 & _);
    [done|congruence|congruence|lia|done|].
  run_bind. eexists h1, _. split_and!; [done|done|congruence| |done].
  rewrite He1. destruct (classify_replayability est); [by left|by right].
Qed.

Lemma lineage_inv_unchanged tr v h : lineage_inv tr v h → lineage_inv (v :: tr) v h.
Proof.
  intros [Hh Hi Hr Hp Hc Hv]. split; try done.
  - intros w [->|?]%elem_of_cons; auto.
  - intros w [->|?]%elem_of_cons; auto.
  - set_solver.
Qed.

(** Dropping pruned entries does not change the suffix from a retained revision. *)
Lemma pruned_suffix h1 h' n from :
  history_inv h1 → history_inv h' → gh_current_revision_id h' = gh_current_revision_id h1 →
  gh_entries h' = drop n (gh_entries h1) → (n ≤ length (gh_entries h1))%nat →
  oldest_available_revision h' ≤ from →
  oldest_available_revision h1 ≤ from ∧
  segment h' from (gh_current_revision_id h1) = segment h1 from (gh_current_revision_id h1).
Proof.
  intros H1 H' Hcur He Hn Ho. pose proof (oldest_length _ H1) as L1.
  pose proof (oldest_length _ H') as L'. rewrite He, length_drop in L'. split; [lia|].
  rewrite <- Hcur at 1. rewrite !segment_all by (done || lia). rewrite He, drop_drop. f_equal. lia.
Qed.

Lemma appended_suffix h h1 e from :
  history_inv h → history_inv h1 → gh_current_revision_id h1 = gh_current_revision_id h + 1 →
  gh_entries h1 = gh_entries h ++ [e] → oldest_available_revision h1 ≤ from →
  from ≤ gh_current_revision_id h →
  oldest_available_revision h ≤ from ∧
  segment h1 from (gh_current_revision_id h1) = segment h from (gh_current_revision_id h) ++ [e].
Proof.
  intros H H1 Hcur He Ho Hf. pose proof (oldest_length _ H) as L.
  pose proof (oldest_length _ H1) as L1. rewrite He, length_app in L1. simpl in L1.
  split; [lia|]. rewrite !segment_all by (done || lia). rewrite He, drop_app_le by lia.
  f_equal. f_equal. lia.
Qed.

(** The retained deltas from a view of the run, after one more. *)
Lemma lineage_suffix tr v h d v' est h1 low w :
  lineage_inv tr v h → current_revision_id v' = current_revision_id v + 1 →
  history_inv h1 → gh_current_revision_id h1 = current_revision_id v' →
  gh_entries h1 = gh_entries h ++ [MkGraphHistoryEntry d est
    (gh_current_cumulative_estimated_bytes h + est)] ∨ gh_entries h1 = [] →
  w ∈ tr → oldest_available_revision (prune low h1) ≤ current_revision_id w →
  oldest_available_revision h ≤ current_revision_id w ∧
  he_delta <$> segment (prune low h1) (current_revision_id w) (current_revision_id v') =
    (he_delta <$> segment h (current_revision_id w) (current_revision_id v)) ++ [d].
Proof.
  intros [Hh Hi Hr Hp _ _] Hrev Hi1 Hr1 He1 Hw Ho. destruct (Hp w Hw) as [Hle _].
  destruct (prune_inv low h1 Hi1) as (Hip & Hrp & n & Hep & Hn). rewrite <- Hr1.
  destruct (pruned_suffix h1 (prune low h1) n (current_revision_id w)) as [Ho1 ->]; try done.
  destruct He1 as [He1|He1].
  - destruct (appended_suffix h h1 _ (current_revision_id w) Hi Hi1 ltac:(lia) He1 Ho1 ltac:(lia))
      as [Ho2 ->].
    split; [done|]. rewrite fmap_app. simpl. by rewrite <- Hr.
  - pose proof (oldest_length _ Hi1) as L. rewrite He1 in L. simpl in L. lia.
Qed.

Lemma lineage_inv_advanced tr v h d v' est h1 low :
  lineage_inv tr v h → head_inv v' → applicable d v → faithful d (content v) →
  apply_delta d v = Some (v', Ok tt) → current_revision_id v' = current_revision_id v + 1 →
  history_inv h1 → gh_current_revision_id h1 = current_revision_id v' →
  gh_entries h1 = gh_entries h ++ [MkGraphHistoryEntry d est
    (gh_current_cumulative_estimated_bytes h + est)] ∨ gh_entries h1 = [] →
  lineage_inv (v' :: tr) v' (prune low h1).
Proof.
  intros HL Hv' Ha Hf Hd Hrev Hi1 Hr1 He1. pose proof HL as [Hh Hi Hr Hp Hc Hcv].
  destruct (prune_inv low h1 Hi1) as (Hip & Hrp & _).
  split; try done; [| |set_solver].
  - intros w [->|Hw]%elem_of_cons; [split; [lia|apply Hv']|].
    destruct (Hp w Hw). split; [lia|done].
  - intros w [->|Hw]%elem_of_cons Ho; [rewrite segment_same; constructor|].
    destruct (lineage_suffix _ _ _ _ _ _ _ _ w HL Hrev Hi1 Hr1 He1 Hw Ho) as [Ho2 ->].
    eapply delta_chain_snoc; eauto.
Qed.

(** A joint update that returns left the pair alone, or advanced it by the
    delta of the update. *)
Lemma lineage_advance tr v h u ts v' h' r :
  lineage_inv tr v h → update_ok u v →
  AppliedLineageUpdate_apply estimate u ts v h = Some (v', h', r) →
  (v' = v ∧ h' = h ∧ r = Ok None) ∨
  ∃ d est h1 x, OriginalUpdate_apply u ts v = Some (v', Ok (Some d)) ∧ r = Ok (Some x) ∧ head_inv v' ∧
    applicable d v ∧ faithful d (content v) ∧ apply_delta d v = Some (v', Ok tt) ∧
    current_revision_id v' = current_revision_id v + 1 ∧ history_inv h1 ∧
    gh_current_revision_id h1 = current_revision_id v' ∧
    (gh_entries h1 = gh_entries h ++ [MkGraphHistoryEntry d est
      (gh_current_cumulative_estimated_bytes h + est)] ∨ gh_entries h1 = []) ∧
    h' = prune (low_level (extent v')) h1.
Proof.
  intros Hinv Hu Happ. pose proof Hinv as [Hh Hi Hr _ _ _].
  destruct (lineage_update u ts v h Hh Hi Hr Hu)
    as [Hsame|(v1 & d & Ho & Hv1 & Ha & Hf & Hd & Hrev & Hnext)]; [left; simplify_eq; by split_and!|right].
  destruct (apply_delta_refines_run d v v1) as (_ & Hfrom & _ & _ & _ & _ & _ & Hto & _);
    [apply Hh|done|done|].
  assert (∃ est x, estimate d = Some est ∧ append d est (classify_replayability est) h = Some x)
    as (est & x & Hest & Hap).
  { unfold AppliedLineageUpdate_apply in Happ. rewrite decide_False in Happ by (rewrite Hr; tauto).
    rewrite Ho in Happ. cbn [mbind option_bind] in Happ.
    destruct (estimate d) as [est|]; [|done]. cbn [mbind option_bind] in Happ.
    destruct (append d est _ h) as [x|] eqn:E; [|done]. by exists est, x. }
  apply append_no_overflow in Hap as [Hm1 Hm2]; [|congruence|lia].
  destruct (Hnext est Hest Hm2 ltac:(lia)) as (h1 & r1 & _ & Hi1 & Hr1 & He1 & Hfin).
  rewrite Hfin in Happ. injection Happ as <- <- <-. exists d, est, h1, r1. by split_and!.
Qed.

Lemma lineage_step tr v h u ts v' h' r :
  lineage_inv tr v h → update_ok u v →
  AppliedLineageUpdate_apply estimate u ts v h = Some (v', h', r) →
  lineage_inv (v' :: tr) v' h' ∧ (∃ x, r = Ok x).
Proof.
  intros Hinv Hu Happ. destruct (lineage_advance _ _ _ _ _ _ _ _ Hinv Hu Happ)
    as [(-> & -> & ->)|(d & est & h1 & x & _ & -> & Hv' & Ha & Hf & Hd & Hrev & Hi1 & Hr1 & He1 & ->)].
  - split; [by apply lineage_inv_unchanged|eauto].
  - split; [by eapply lineage_inv_advanced|eauto].
Qed.

Lemma lineage_run_inv tr v h : lineage_run tr v h → lineage_inv tr v h.
Proof.
  induction 1 as [v Hv Hz|tr v h u ts v' h' r _ IH Hu Happ].
  - split; try done; [apply GraphHistory_new_inv| | |set_solver].
    + intros w ->%list_elem_of_singleton. split; [lia|apply Hv].
    + intros w ->%list_elem_of_singleton _. rewrite segment_same. constructor.
  - by eapply lineage_step.
Qed.
End run.
End lineage.
