(* ===== verification/Ladder.v ===== *)
(** The canonical dyadic target ladder of [crates/kgi-api-core/src/delta.rs]
    with the span constants of [crates/kgi-api-model/src/protocol.rs]. *)

From S2P Require Import Prelude Model Delta History.

Definition DELTA_BASE_REVISION_SPAN : N := 4.
Definition MAX_DELTA_REVISION_SPAN : N := 128.
Definition ADAPTIVE_DELTA_INTERVALS : list N := [1; 2; 4; 8; 16; 32; 64; 128].
Definition INITIAL_ADAPTIVE_DELTA_INTERVAL : N := 4.

Inductive GraphPublicationState := Synchronizing | Live | Stale.
#[global] Instance GraphPublicationState_eq_dec : EqDecision GraphPublicationState.
Proof. solve_decision. Defined.

(** * The active interval *)

Record ActiveDeltaInterval := MkActiveDeltaInterval { interval_value : N }.

Definition ActiveDeltaInterval_new : ActiveDeltaInterval :=
  MkActiveDeltaInterval INITIAL_ADAPTIVE_DELTA_INTERVAL.
Definition interval_current (i : ActiveDeltaInterval) : N := interval_value i.
Definition try_update (candidate : N) (i : ActiveDeltaInterval) : ActiveDeltaInterval * bool :=
  if decide (candidate ∉ ADAPTIVE_DELTA_INTERVALS) then (i, false)
  else (MkActiveDeltaInterval candidate, true).

(** * The ladder *)

(** [u64::isolate_lowest_one]: [x & x.wrapping_neg()]. *)
Definition isolate_lowest_one (x : N) : N := N.land x ((2 ^ 64 - x) mod 2 ^ 64).

(** [u64::next_power_of_two] below its overflow. *)
Definition next_power_of_two (x : N) : N := 2 ^ N.log2_up x.

Definition ordinary_successor (source : N) : option N :=
  if decide (source = 0 ∨ isolate_lowest_one source < DELTA_BASE_REVISION_SPAN) then
    minimum ← checked_add source DELTA_BASE_REVISION_SPAN;
    let remainder := minimum mod DELTA_BASE_REVISION_SPAN in
    if decide (remainder = 0) then Some minimum
    else checked_add minimum (DELTA_BASE_REVISION_SPAN - remainder)
  else
    let span := N.min (isolate_lowest_one source) MAX_DELTA_REVISION_SPAN in
    checked_add source span.

(** The halving loop of [target_boundaries], one unit of fuel per iteration. *)
Fixpoint boundaries_loop (fuel : nat) (source successor span : N) (targets : list N) :
    option (list N) :=
  if decide (0 < span) then
    match fuel with
    | O => None
    | S fuel =>
      let quotient := source / span in
      q ← checked_add quotient 1;
      target ← checked_mul q span;
      boundaries_loop fuel source successor (span / 2)
        (if decide (target < successor ∧ last targets ≠ Some target)
         then targets ++ [target] else targets)
    end
  else Some targets.

(** Halving a 64-bit span reaches zero within 64 iterations. *)
Definition target_boundaries (source : N) : option (list N) :=
  successor ← ordinary_successor source;
  let successor_span := successor - source in
  boundaries_loop 64 source successor (next_power_of_two successor_span / 2) [successor].

Record DeltaRevisionRange := MkDeltaRevisionRange {
  rr_source_revision : N;
  rr_target_revision : N
}.

Inductive DeltaTargetSelection :=
  | Range (r : DeltaRevisionRange)
  | WaitForWakeup (wake_at_revision_id : N).

Record DeltaTargetLadder := MkDeltaTargetLadder {
  dl_source_revision : N;
  dl_head_revision : N;
  dl_current_target : option N;
  dl_active_interval : N;
  dl_targets : list N
}.

Definition DeltaTargetLadder_new (source head : N) (current_target : option N)
    (active_interval : N) : option DeltaTargetLadder :=
  _ ← assert_ (source < head);
  _ ← assert_ (active_interval ∈ ADAPTIVE_DELTA_INTERVALS);
  targets ← target_boundaries source;
  _ ← match current_target with
      | Some c =>
        _ ← assert_ (source < c ∧ c ≤ head);
        assert_ (c ∈ targets)
      | None => Some tt
      end;
  Some (MkDeltaTargetLadder source head current_target active_interval targets).

Definition list_min (xs : list N) : option N :=
  match xs with
  | [] => None
  | x :: rest => Some (foldl N.min x rest)
  end.

(** The [eligible] closure of [select]. *)
Definition eligible (state : GraphPublicationState) (successor source interval target : N) : Prop :=
  state = Stale ∨ target = successor ∨ interval ≤ target - source.
#[global] Instance eligible_dec st su so i t : Decision (eligible st su so i t).
Proof. unfold eligible. apply _. Defined.

Definition select (state : GraphPublicationState) (l : DeltaTargetLadder) :
    option DeltaTargetSelection :=
  successor ← dl_targets l !! 0%nat;
  if decide (successor ≤ dl_head_revision l) then
    Some (Range (MkDeltaRevisionRange (dl_source_revision l) successor))
  else
    match head (filter (λ t, t ≤ dl_head_revision l ∧
                  eligible state successor (dl_source_revision l) (dl_active_interval l) t)
                 (dl_targets l)) with
    | Some target => Some (Range (MkDeltaRevisionRange (dl_source_revision l) target))
    | None =>
      wake ← list_min (filter (λ t, dl_head_revision l < t ∧
                  eligible state successor (dl_source_revision l) (dl_active_interval l) t)
                 (dl_targets l));
      Some (WaitForWakeup wake)
    end.

Definition next_eligible_boundary_from (source active_interval : N) : option N :=
  _ ← assert_ (active_interval ∈ ADAPTIVE_DELTA_INTERVALS);
  targets ← target_boundaries source;
  successor ← targets !! 0%nat;
  list_min (filter (λ t, t = successor ∨ active_interval ≤ t - source) targets).

Fixpoint take_while (P : N → Prop) `{∀ x, Decision (P x)} (xs : list N) : list N :=
  match xs with
  | [] => []
  | x :: rest => if decide (P x) then x :: take_while P rest else []
  end.

(** [self.current_target.is_none_or(|current| *target >= current)] *)
Definition keeps_coverage (current_target : option N) (target : N) : Prop :=
  match current_target with Some current => current ≤ target | None => True end.
#[global] Instance keeps_coverage_dec c t : Decision (keeps_coverage c t).
Proof. destruct c; simpl; apply _. Defined.

Definition fitting_targets (selected : DeltaRevisionRange) (l : DeltaTargetLadder) :
    option (list N) :=
  _ ← assert_ (rr_source_revision selected = dl_source_revision l);
  '(selected_index, _) ← list_find (λ t, t = rr_target_revision selected) (dl_targets l);
  _ ← assert_ (rr_target_revision selected ≤ dl_head_revision l);
  _ ← match dl_current_target l with
      | Some current => assert_ (current ≤ rr_target_revision selected)
      | None => Some tt
      end;
  Some (take_while (keeps_coverage (dl_current_target l)) (drop selected_index (dl_targets l))).

(** * The lowest set bit *)

Lemma land_double_succ m c : N.land (2 * m + 1) (2 * c + 1) = 2 * N.land m c + 1.
Proof. rewrite <- !N.succ_double_spec. by destruct m, c. Qed.

Lemma isolate_lowest_one_odd k m :
  2 ^ k * (2 * m + 1) < 2 ^ 64 → isolate_lowest_one (2 ^ k * (2 * m + 1)) = 2 ^ k.
Proof.
  intros Hx. unfold isolate_lowest_one.
  assert (k < 64) as Hk.
  { apply (N.pow_lt_mono_r_iff 2); [lia|]. eapply N.le_lt_trans; [|exact Hx].
    rewrite <- (N.mul_1_r (2 ^ k)) at 1. apply N.mul_le_mono_l. lia. }
  assert (2 ^ 64 = 2 ^ k * (2 * 2 ^ (63 - k))) as H64.
  { rewrite <- (N.pow_succ_r' 2), <- N.pow_add_r. f_equal. lia. }
  rewrite N.mod_small by (pose proof (N.pow_nonzero 2 k); lia).
  assert (m < 2 ^ (63 - k)) as Hm.
  { rewrite H64 in Hx. apply N.mul_lt_mono_pos_l in Hx; [lia|]. pose proof (N.pow_nonzero 2 k). lia. }
  assert (2 ^ 64 - 2 ^ k * (2 * m + 1) = 2 ^ k * (2 * (N.ones (63 - k) - m) + 1)) as ->.
  { rewrite H64, <- N.mul_sub_distr_l. f_equal. rewrite N.ones_equiv. lia. }
  rewrite !(N.mul_comm (2 ^ k)), <- !N.shiftl_mul_pow2, <- N.shiftl_land, land_double_succ.
  destruct (N.eq_dec m 0) as [->|Hz].
  { rewrite N.land_0_l, N.shiftl_mul_pow2. lia. }
  assert (N.log2 m < 63 - k) as Hlog by (apply N.log2_lt_pow2; lia).
  rewrite <- N.lnot_sub_low, N.land_lnot_diag_low by done. rewrite N.shiftl_mul_pow2. lia.
Qed.

(** Every nonzero number is a power of two times an odd number. *)
Lemma odd_part x : 0 < x → ∃ k m, x = 2 ^ k * (2 * m + 1).
Proof.
  induction x as [x IH] using (well_founded_induction N.lt_wf_0). intros Hx.
  destruct (N.even x) eqn:E.
  - apply N.even_spec in E as [y ->]. destruct (IH y) as (k & m & ->); [lia|lia|].
    exists (N.succ k), m. rewrite N.pow_succ_r'. lia.
  - assert (N.odd x = true) as Ho by (rewrite <- N.negb_even, E; done).
    apply N.odd_spec in Ho as [m ->]. exists 0, m. simpl. lia.
Qed.

Lemma isolate_lowest_one_spec x :
  0 < x ≤ U64_MAX → ∃ k m, isolate_lowest_one x = 2 ^ k ∧ x = 2 ^ k * (2 * m + 1).
Proof.
  intros [Hx Hm]. destruct (odd_part x Hx) as (k & m & ->). exists k, m. split; [|done].
  apply isolate_lowest_one_odd. unfold U64_MAX in Hm. lia.
Qed.

(** * The ordinary successor *)

(** Largest source whose ladder arithmetic cannot overflow. *)
Definition ladder_room (source : N) : Prop := source + MAX_DELTA_REVISION_SPAN ≤ U64_MAX.

Lemma ordinary_successor_spec s :
  ladder_room s →
  ∃ t, ordinary_successor s = Some t ∧ s + 4 ≤ t ≤ s + 128 ∧ t mod 4 = 0 ∧
    (∀ k m, s = 2 ^ k * (2 * m + 1) → 2 ≤ k → t = s + N.min (2 ^ k) 128) ∧
    (∀ k m, s = 2 ^ k * (2 * m + 1) → k < 2 → t ≤ s + 7).
Proof.
  unfold ladder_room, MAX_DELTA_REVISION_SPAN. intros Hr. unfold ordinary_successor.
  unfold DELTA_BASE_REVISION_SPAN, MAX_DELTA_REVISION_SPAN.
  assert (∀ k m, s = 2 ^ k * (2 * m + 1) → isolate_lowest_one s = 2 ^ k) as Hiso.
  { intros k m ->. apply isolate_lowest_one_odd. unfold U64_MAX in Hr. lia. }
  case_decide as Hd.
  - rewrite checked_add_Some by lia. run_bind.
    pose proof (N.mod_lt (s + 4) 4 ltac:(lia)) as Hlt. pose proof (N.div_mod' (s + 4) 4) as Hdm.
    assert (∀ k m, s = 2 ^ k * (2 * m + 1) → 2 ≤ k → False) as Hno.
    { intros k m Hs Hk. destruct Hd as [Hz|Hlow].
      - pose proof (N.pow_nonzero 2 k). nia.
      - rewrite (Hiso _ _ Hs) in Hlow. pose proof (N.pow_le_mono_r 2 2 k ltac:(lia) Hk). lia. }
    set (r := (s + 4) mod 4) in *. set (q := (s + 4) / 4) in *.
    assert (r = 0 → (s + 4) mod 4 = 0) as Hr0 by done. clearbody r q.
    case_decide as Hz; [|rewrite checked_add_Some by lia]; (eexists; split; [done|]).
    + split_and!; [lia|lia|auto| |lia]. intros k m Hs Hk. destruct (Hno k m Hs Hk).
    + split_and!; [lia|lia| |intros k m Hs Hk; destruct (Hno k m Hs Hk)|lia].
      replace (s + 4 + (4 - r)) with ((q + 1) * 4) by lia. apply N.Div0.mod_mul.
  - apply Decidable.not_or in Hd as [Hz Hge].
    destruct (isolate_lowest_one_spec s) as (k & m & Hi & Hs); [lia|].
    assert (2 ≤ k) as Hk.
    { destruct (N.le_gt_cases 2 k) as [|Hlt]; [done|]. rewrite Hi in Hge.
      pose proof (N.pow_lt_mono_r 2 k 2 ltac:(lia) Hlt). lia. }
    assert (∃ q, 2 ^ k = 4 * q) as [q Hq].
    { exists (2 ^ (k - 2)). change 4 with (2 ^ 2). rewrite <- N.pow_add_r. f_equal. lia. }
    rewrite checked_add_Some by lia. eexists. split; [done|]. split_and!; [lia|lia| | |].
    + rewrite Hi, Hs. assert (∃ r, N.min (2 ^ k) 128 = 4 * r) as [r ->].
      { destruct (N.min_spec (2 ^ k) 128) as [[_ ->]|[_ ->]]; [eauto|by exists 32]. }
      rewrite Hq. replace (4 * q * (2 * m + 1) + 4 * r) with ((q * (2 * m + 1) + r) * 4) by lia.
      apply N.Div0.mod_mul.
    + intros k' m' Hs' _. by rewrite (Hiso _ _ Hs').
    + intros k' m' Hs' Hk'. rewrite (Hiso _ _ Hs') in Hge.
      pose proof (N.pow_lt_mono_r 2 k' 2 ltac:(lia) Hk'). lia.
Qed.

(** * The boundaries *)

(** The first multiple of [2 ^ k] after [s]. *)
Definition aligned_target (s k : N) : N := (s / 2 ^ k + 1) * 2 ^ k.

Lemma aligned_target_bounds s k : s < aligned_target s k ≤ s + 2 ^ k.
Proof.
  unfold aligned_target. pose proof (N.pow_nonzero 2 k ltac:(lia)).
  pose proof (N.div_mod' s (2 ^ k)). pose proof (N.mod_lt s (2 ^ k) ltac:(done)).
  generalize dependent (2 ^ k). intros p. generalize (s / p), (s mod p). intros. lia.
Qed.

Lemma aligned_target_least s k q : s < q * 2 ^ k → aligned_target s k ≤ q * 2 ^ k.
Proof.
  intros Hq. unfold aligned_target. apply N.mul_le_mono_r.
  apply N.le_succ_l in Hq as Hq'. pose proof (N.pow_nonzero 2 k ltac:(lia)).
  assert (s / 2 ^ k < q) as Hlt by (apply N.Div0.div_lt_upper_bound; lia). lia.
Qed.

Lemma aligned_target_mono s k j : k ≤ j → aligned_target s k ≤ aligned_target s j.
Proof.
  intros Hk. unfold aligned_target at 2.
  assert (2 ^ j = 2 ^ (j - k) * 2 ^ k) as E by (rewrite <- N.pow_add_r; f_equal; lia).
  rewrite E at 2. rewrite N.mul_assoc. apply aligned_target_least.
  rewrite <- N.mul_assoc, <- E. apply aligned_target_bounds.
Qed.

Lemma aligned_target_zero s : aligned_target s 0 = s + 1.
Proof. unfold aligned_target. rewrite N.pow_0_r, N.div_1_r. lia. Qed.

(** What the loop maintains before the iteration at span [2 ^ k]. *)
Record ladder_prefix (s successor : N) (bound : N → Prop) (ts : list N) : Prop := {
  lp_head : head ts = Some successor;
  lp_sorted : StronglySorted (λ x y, y < x) ts;
  lp_mem : ∀ t, t ∈ ts ↔ t = successor ∨ (∃ j, bound j ∧ t = aligned_target s j ∧ t < successor)
}.

Lemma StronglySorted_gt_snoc (xs : list N) x :
  StronglySorted (λ x y, y < x) xs → (∀ y, y ∈ xs → x < y) →
  StronglySorted (λ x y, y < x) (xs ++ [x]).
Proof.
  intros Hs Hx. induction Hs as [|y ys Hs IH Hall]; simpl; [repeat constructor|].
  constructor; [apply IH; set_solver|]. apply Forall_app. split; [done|].
  repeat constructor. apply Hx. set_solver.
Qed.

Lemma StronglySorted_gt_last (xs : list N) x y :
  StronglySorted (λ x y, y < x) xs → last xs = Some x → y ∈ xs → x ≤ y.
Proof.
  intros Hs. revert y. induction Hs as [|z zs Hs IH Hall]; [done|]. intros y Hl Hy.
  destruct zs as [|z' zs]; simplify_eq/=; [set_solver by lia|].
  apply elem_of_cons in Hy as [->|Hy]; [|by apply IH].
  rewrite Forall_forall in Hall. apply N.lt_le_incl, Hall. by apply last_Some_elem_of.
Qed.

Lemma ladder_prefix_step s successor K k ts :
  k ≤ K → ladder_prefix s successor (λ j, k < j ≤ K) ts →
  (∃ j, last ts = Some (aligned_target s j) ∧ k < j) ∨ last ts = Some successor →
  let t := aligned_target s k in
  let ts' := if decide (t < successor ∧ last ts ≠ Some t) then ts ++ [t] else ts in
  ladder_prefix s successor (λ j, k ≤ j ≤ K) ts' ∧
  ((∃ j, last ts' = Some (aligned_target s j) ∧ k ≤ j) ∨ last ts' = Some successor).
Proof.
  intros HK [Hh Hs Hm] Hlast t ts'.
  assert (t < successor → last ts ≠ Some t → ∀ y, y ∈ ts → t < y) as Hlt.
  { intros Ht Hne y Hy. destruct Hlast as [(j & Hj & Hk)|Hl].
    - pose proof (StronglySorted_gt_last _ _ _ Hs Hj Hy).
      pose proof (aligned_target_mono s k j ltac:(lia)). fold t in H0.
      assert (aligned_target s j ≠ t) by congruence. lia.
    - pose proof (StronglySorted_gt_last _ _ _ Hs Hl Hy). lia. }
  assert (∀ j, k ≤ j ≤ K ↔ j = k ∨ k < j ≤ K) as Hsplit by lia.
  unfold ts'. case_decide as Hd.
  - destruct Hd as [Ht Hne]. split.
    + split; [by destruct ts|apply StronglySorted_gt_snoc; auto|].
      intros y. rewrite elem_of_app, Hm, list_elem_of_singleton. split.
      * intros [[?|(j & ? & ?)]| ->]; [by left|right; exists j; by rewrite Hsplit; auto|].
        right. exists k. split; [lia|done].
      * intros [?|(j & [->|?]%Hsplit & -> & ?)]; [by left; left|by right|left; right; by exists j].
    + left. exists k. rewrite last_snoc. split; [done|lia].
  - split.
    + split; [done|done|]. intros y. rewrite Hm. split.
      { intros [?|(j & ? & ?)]; [by left|right; exists j; by rewrite Hsplit; auto]. }
      intros [?|(j & [->|?]%Hsplit & -> & Hlt')]; [by left| |right; by exists j]. apply Hm.
      apply last_Some_elem_of. apply dec_stable. intros Hne. apply Hd. split; [done|].
      intros E. apply Hne. done.
    + destruct Hlast as [(j & ? & ?)|?]; [left; exists j; split; [done|lia]|by right].
Qed.

Lemma boundaries_loop_spec s successor K fuel k ts :
  k ≤ K → s + 2 ^ k ≤ U64_MAX → (N.to_nat k < fuel)%nat →
  ladder_prefix s successor (λ j, k < j ≤ K) ts →
  (∃ j, last ts = Some (aligned_target s j) ∧ k < j) ∨ last ts = Some successor →
  ∃ ts', boundaries_loop fuel s successor (2 ^ k) ts = Some ts' ∧
    ladder_prefix s successor (λ j, j ≤ K) ts'.
Proof.
  revert k ts. induction fuel as [|fuel IH]; intros k ts HK Hmax Hf Hp Hl; [lia|].
  pose proof (N.pow_nonzero 2 k ltac:(lia)) as Hnz. pose proof (aligned_target_bounds s k) as Hb.
  cbn [boundaries_loop]. rewrite decide_True by lia.
  rewrite (checked_add_Some (s / 2 ^ k)).
  2:{ unfold aligned_target in Hb. generalize dependent (2 ^ k). intros p. generalize (s / p). intros. nia. }
  run_bind. fold (aligned_target s k).
  unfold checked_mul. fold (aligned_target s k). rewrite decide_True by lia. run_bind.
  destruct (ladder_prefix_step s successor K k ts HK Hp Hl) as [Hp' Hl'].
  set (ts' := if decide _ then _ else _) in *. clearbody ts'.
  destruct (N.eq_dec k 0) as [->|Hk].
  - exists ts'. change (2 ^ 0 / 2) with 0. split; [by destruct fuel|].
    destruct Hp' as [Hh Hs Hm]. split; [done..|]. intros t. rewrite Hm.
    split; intros [?|(j & ? & ?)]; [by left|right|by left|right]; exists j; (split; [lia|done]).
  - assert (2 ^ k / 2 = 2 ^ (k - 1)) as ->.
    { replace k with (N.succ (k - 1)) at 1 by lia. rewrite N.pow_succ_r', N.mul_comm.
      apply N.div_mul. lia. }
    assert (2 ^ (k - 1) ≤ 2 ^ k) by (apply N.pow_le_mono_r; lia).
    apply IH; [lia|lia|lia| |].
    + destruct Hp' as [Hh Hs Hm]. split; [done..|]. intros t. rewrite Hm.
      split; intros [?|(j & ? & ?)]; [by left|right|by left|right]; exists j; (split; [lia|done]).
    + destruct Hl' as [(j & ? & ?)|?]; [left; exists j; split; [done|lia]|by right].
Qed.

(** A wider alignment that still falls below the successor is no new boundary. *)
Lemma aligned_target_covered s t j :
  ladder_room s → ordinary_successor s = Some t → N.log2_up (t - s) - 1 < j →
  aligned_target s j < t → aligned_target s j = aligned_target s (N.log2_up (t - s) - 1).
Proof.
  intros Hr Ho Hj Hlt.
  destruct (ordinary_successor_spec s Hr) as (t' & Ho' & Hb & H4 & Heven & Hodd). simplify_eq.
  assert (∀ i, s mod 2 ^ i = 0 → i ≤ j → s + 2 ^ i ≤ aligned_target s j) as Hmul.
  { intros i Hi Hij. transitivity (aligned_target s i); [|by apply aligned_target_mono].
    unfold aligned_target. pose proof (N.div_mod' s (2 ^ i)) as Hd. rewrite Hi in Hd.
    generalize dependent (2 ^ i). intros p. generalize (s / p). intros. lia. }
  destruct (N.eq_dec s 0) as [->|Hs].
  { assert (t = 4) as -> by (vm_compute in Ho; congruence). change (N.log2_up (4 - 0) - 1) with 1 in *.
    specialize (Hmul 2 eq_refl ltac:(lia)). change (2 ^ 2) with 4 in Hmul. lia. }
  destruct (odd_part s ltac:(lia)) as (i & m & Hi).
  assert (∀ n, n ≤ i → s mod 2 ^ n = 0) as Hdiv.
  { intros n Hn. rewrite Hi. replace i with ((i - n) + n) by lia. rewrite N.pow_add_r.
    replace (2 ^ (i - n) * 2 ^ n * (2 * m + 1)) with ((2 ^ (i - n) * (2 * m + 1)) * 2 ^ n) by lia.
    apply N.Div0.mod_mul. }
  destruct (N.le_gt_cases 2 i) as [Hge|Hlt2].
  - exfalso. pose proof (Heven i m Hi Hge) as Ht.
    assert (N.min (2 ^ i) 128 = 2 ^ N.min i 7) as Heq.
    { change 128 with (2 ^ 7). destruct (N.min_spec i 7) as [[Hm ->]|[Hm ->]];
        [apply N.min_l|apply N.min_r]; apply N.pow_le_mono_r; lia. }
    rewrite Heq in Ht. rewrite Ht, N.add_comm, N.add_sub, N.log2_up_pow2 in Hj by lia.
    specialize (Hmul (N.min i 7) (Hdiv (N.min i 7) ltac:(lia)) ltac:(lia)). lia.
  - specialize (Hodd i m Hi Hlt2).
    assert (s mod 4 ≠ 0) as Hs4.
    { rewrite Hi. assert (i = 0 ∨ i = 1) as [-> | ->] by lia.
      - change (2 ^ 0) with 1. rewrite N.mul_1_l. intros E. pose proof (N.div_mod' (2 * m + 1) 4). lia.
      - change (2 ^ 1) with 2. intros E. pose proof (N.div_mod' (2 * (2 * m + 1)) 4). lia. }
    pose proof (N.div_mod' t 4) as Hdt. rewrite H4 in Hdt.
    assert (t ≠ s + 4) as Hne.
    { intros ->. apply Hs4. rewrite <- H4. replace (s + 4) with (s + 1 * 4) by lia.
      by rewrite N.Div0.mod_add. }
    assert (N.log2_up (t - s) = 3) as Hlog.
    { apply N.log2_up_unique; [lia|]. change (2 ^ N.pred 3) with 4. change (2 ^ 3) with 8. lia. }
    rewrite Hlog in *. change (3 - 1) with 2 in *.
    pose proof (aligned_target_mono s 2 j ltac:(lia)) as Hmono.
    pose proof (aligned_target_bounds s 2) as [Hb2 _].
    assert (aligned_target s j = 4 * (2 ^ (j - 2) * (s / 2 ^ j + 1))) as Ej.
    { unfold aligned_target. replace (2 ^ j) with (4 * 2 ^ (j - 2)) at 2; [lia|].
      change 4 with (2 ^ 2). rewrite <- N.pow_add_r. f_equal. lia. }
    assert (aligned_target s 2 = 4 * (s / 4 + 1)) as E2
      by (unfold aligned_target; change (2 ^ 2) with 4; lia).
    rewrite Ej in *. rewrite E2 in *. generalize dependent (2 ^ (j - 2) * (s / 2 ^ j + 1)).
    intros x. generalize dependent (s / 4 + 1). intros y. generalize dependent (t / 4). intros. lia.
Qed.

(** The complete ladder of a source: the successor first, then strictly
    descending to the next revision, exactly the aligned targets below it. *)
Lemma target_boundaries_spec s :
  ladder_room s →
  ∃ successor ts, ordinary_successor s = Some successor ∧ target_boundaries s = Some ts ∧
    ladder_prefix s successor (λ _, True) ts ∧ s + 4 ≤ successor ≤ s + 128 ∧
    last ts = Some (s + 1).
Proof.
  intros Hr. destruct (ordinary_successor_spec s Hr) as (t & Ho & Hb & _).
  exists t. unfold target_boundaries. rewrite Ho. run_bind.
  pose proof (aligned_target_covered s t) as Hcov.
  assert (2 ≤ N.log2_up (t - s) ≤ 7) as Hlog.
  { split; [change 2 with (N.log2_up 4)|change 7 with (N.log2_up 128)]; apply N.log2_up_le_mono; lia. }
  unfold next_power_of_two.
  assert (2 ^ N.log2_up (t - s) / 2 = 2 ^ (N.log2_up (t - s) - 1)) as ->.
  { replace (N.log2_up (t - s)) with (N.succ (N.log2_up (t - s) - 1)) at 1 by lia.
    rewrite N.pow_succ_r', N.mul_comm. apply N.div_mul. lia. }
  set (k := N.log2_up (t - s) - 1) in *.
  assert (2 ^ k ≤ 2 ^ 6) as Hk by (apply N.pow_le_mono_r; lia).
  destruct (boundaries_loop_spec s t k 64 k [t]) as (ts & -> & [Hh Hs Hm]).
  - done.
  - unfold ladder_room, MAX_DELTA_REVISION_SPAN in Hr. change (2 ^ 6) with 64 in Hk. lia.
  - lia.
  - split; [done|repeat constructor|]. intros x. rewrite list_elem_of_singleton. split; [by left|].
    intros [?|(j & Hj & _)]; [done|lia].
  - by right.
  - assert (s + 1 ∈ ts) as Hin.
    { apply Hm. right. exists 0. rewrite aligned_target_zero. split_and!; [lia|done|lia]. }
    exists ts. split_and!; try done; [|lia|lia|].
    + split; [done..|]. intros x. rewrite Hm. split; [naive_solver|].
      intros [?|(j & _ & -> & Hlt)]; [by left|right].
      destruct (N.le_gt_cases j k); [by exists j|]. exists k.
      rewrite <- (Hcov j) by done. split_and!; [lia|done..].
    + destruct (last ts) as [x|] eqn:E; [|by apply last_None in E; subst; apply elem_of_nil in Hin].
      f_equal. pose proof (StronglySorted_gt_last _ _ _ Hs E Hin).
      apply last_Some_elem_of, Hm in E as [->|(j & _ & -> & _)]; [lia|].
      pose proof (aligned_target_bounds s j). lia.
Qed.

(** * Target selection *)

Record ladder_wf (l : DeltaTargetLadder) : Prop := {
  lw_room : ladder_room (dl_source_revision l);
  lw_forward : dl_source_revision l < dl_head_revision l;
  lw_interval : dl_active_interval l ∈ ADAPTIVE_DELTA_INTERVALS;
  lw_targets : target_boundaries (dl_source_revision l) = Some (dl_targets l);
  lw_current : ∀ c, dl_current_target l = Some c →
    dl_source_revision l < c ≤ dl_head_revision l ∧ c ∈ dl_targets l
}.

Lemma DeltaTargetLadder_new_wf source head current interval l :
  ladder_room source → DeltaTargetLadder_new source head current interval = Some l → ladder_wf l.
Proof.
  intros Hr. unfold DeltaTargetLadder_new.
  destruct (assert_ (source < head)) as [[]|] eqn:E1; [|done].
  destruct (assert_ (interval ∈ _)) as [[]|] eqn:E2; [|done].
  apply assert_Some in E1, E2. run_bind.
  destruct (target_boundaries source) as [ts|] eqn:E3; [|done]. run_bind.
  intros H. assert (∀ c, current = Some c → source < c ≤ head ∧ c ∈ ts) as Hc.
  { intros c ->. destruct (assert_ (source < c ∧ c ≤ head)) as [[]|] eqn:E4; [|done].
    cbn [mbind option_bind] in H. destruct (assert_ (c ∈ ts)) as [[]|] eqn:E5; [|done].
    by apply assert_Some in E4, E5. }
  destruct (match current with Some c => _ | None => _ end); simplify_eq/=. by split.
Qed.

(** The ladder of a well-formed value, as [target_boundaries_spec] describes it. *)
Lemma ladder_wf_targets l :
  ladder_wf l →
  ∃ successor rest, dl_targets l = successor :: rest ∧
    StronglySorted (λ x y, y < x) (dl_targets l) ∧ dl_source_revision l + 1 ∈ dl_targets l ∧
    (∀ t, t ∈ dl_targets l → dl_source_revision l < t ≤ successor).
Proof.
  intros [Hr _ _ Ht _]. destruct (target_boundaries_spec _ Hr) as (su & ts & _ & Ht' & [Hh Hs Hm] & Hb & Hl).
  simplify_eq. destruct (dl_targets l) as [|x rest] eqn:E; simplify_eq/=.
  exists su, rest. split_and!; try done.
  - by apply last_Some_elem_of.
  - intros t [->|(j & _ & -> & ?)]%Hm; [lia|]. pose proof (aligned_target_bounds (dl_source_revision l) j). lia.
Qed.

Lemma list_min_spec xs m : list_min xs = Some m → m ∈ xs ∧ ∀ x, x ∈ xs → m ≤ x.
Proof.
  destruct xs as [|y ys]; [done|]. simpl. intros [= <-].
  assert (∀ zs a, (foldl N.min a zs = a ∨ foldl N.min a zs ∈ zs) ∧
            foldl N.min a zs ≤ a ∧ ∀ x, x ∈ zs → foldl N.min a zs ≤ x) as Hg.
  { induction zs as [|z zs IH]; intros a; simpl; [split_and!; [by left|lia|set_solver]|].
    destruct (IH (N.min a z)) as (Hm & Hle & Hall). split_and!.
    - destruct Hm as [->|?]; [|right; by right].
      destruct (N.min_spec a z) as [[_ ->]|[_ ->]]; [by left|right; left].
    - lia.
    - intros x [->|Hx]%elem_of_cons; [lia|auto]. }
  destruct (Hg ys y) as (Hm & Hle & Hall). split.
  - destruct Hm as [->|?]; [left|by right].
  - intros x [->|?]%elem_of_cons; auto.
Qed.

Lemma list_min_is_Some xs x : x ∈ xs → is_Some (list_min xs).
Proof. destruct xs; [set_solver|]. simpl; eauto. Qed.

Lemma head_filter_sorted (P : N → Prop) `{∀ x, Decision (P x)} xs x :
  StronglySorted (λ x y, y < x) xs → head (filter P xs) = Some x →
  x ∈ xs ∧ P x ∧ ∀ y, y ∈ xs → P y → y ≤ x.
Proof.
  induction 1 as [|z zs Hs IH Hall]; [done|]. rewrite filter_cons. case_decide as Hd.
  - simpl. intros [= <-]. split_and!; [left|done|]. intros y [->|Hy]%elem_of_cons _; [lia|].
    rewrite Forall_forall in Hall. apply N.lt_le_incl. by apply Hall.
  - intros [Hx [Hp Hm]]%IH. split_and!; [by right|done|]. intros y [->|Hy]%elem_of_cons; [done|auto].
Qed.

Definition ladder_eligible (state : GraphPublicationState) (l : DeltaTargetLadder) (t : N) : Prop :=
  t ∈ dl_targets l ∧
  ∃ successor, head (dl_targets l) = Some successor ∧
    eligible state successor (dl_source_revision l) (dl_active_interval l) t.

(** [select] returns the farthest eligible boundary the Head has reached; it
    waits only when there is none, and then for the nearest eligible one. *)
Lemma select_spec state l :
  ladder_wf l →
  ∃ r, select state l = Some r ∧
    match r with
    | Range rr =>
      rr_source_revision rr = dl_source_revision l ∧
      ladder_eligible state l (rr_target_revision rr) ∧
      rr_target_revision rr ≤ dl_head_revision l ∧
      ∀ t, ladder_eligible state l t → t ≤ dl_head_revision l → t ≤ rr_target_revision rr
    | WaitForWakeup w =>
      state ≠ Stale ∧ dl_head_revision l < w ∧ ladder_eligible state l w ∧
      ∀ t, ladder_eligible state l t → w ≤ t
    end.
Proof.
  intros Hw. destruct (ladder_wf_targets l Hw) as (su & rest & Et & Hs & H1 & Hb).
  unfold select. assert (dl_targets l !! 0%nat = Some su) as -> by (by rewrite Et).
  assert (head (dl_targets l) = Some su) as Hhd by (by rewrite Et).
  assert (su ∈ dl_targets l) as Hsu by (rewrite Et; left).
  assert (∀ t, ladder_eligible state l t ↔ t ∈ dl_targets l ∧
    eligible state su (dl_source_revision l) (dl_active_interval l) t) as Hel.
  { intros t. unfold ladder_eligible. rewrite Hhd. naive_solver. }
  run_bind. case_decide as Hh.
  { eexists. split; [done|]. simpl. rewrite Hel. split_and!; try done.
    - by right; left.
    - intros t [Ht _]%Hel _. by apply Hb. }
  destruct (head (filter _ _)) as [t|] eqn:Ef.
  - apply head_filter_sorted in Ef as (Ht & [Hle He] & Hmax); [|done].
    eexists. split; [done|]. simpl. rewrite Hel. split_and!; try done.
    intros y [Hy Hye]%Hel Hyh. by apply Hmax.
  - assert (∀ t, t ∈ dl_targets l → eligible state su (dl_source_revision l) (dl_active_interval l) t →
      dl_head_revision l < t) as Hnone.
    { intros t Ht He. apply N.nle_gt. intros Hle.
      assert (t ∈ filter (λ t, t ≤ dl_head_revision l ∧
        eligible state su (dl_source_revision l) (dl_active_interval l) t) (dl_targets l)) as Hin
        by (by apply list_elem_of_filter).
      destruct (filter _ _); [set_solver|done]. }
    destruct (list_min_is_Some (filter (λ t, dl_head_revision l < t ∧
      eligible state su (dl_source_revision l) (dl_active_interval l) t) (dl_targets l)) su) as [w Hwk].
    { apply list_elem_of_filter. split; [|done]. split; [lia|by right; left]. }
    rewrite Hwk. run_bind. eexists. split; [done|]. simpl.
    apply list_min_spec in Hwk as [[[Hlt He] Hin]%list_elem_of_filter Hmin]. rewrite Hel. split_and!; try done.
    + intros ->. pose proof (lw_forward _ Hw).
      assert (dl_head_revision l < dl_source_revision l + 1); [|lia].
      apply Hnone; [done|by left].
    + intros t [Ht Hte]%Hel. apply Hmin, list_elem_of_filter. auto.
Qed.

(** The boundary announced to a waiting client is the ladder's next eligible one. *)
Lemma select_wait_next state l w :
  ladder_wf l → select state l = Some (WaitForWakeup w) →
  next_eligible_boundary_from (dl_source_revision l) (dl_active_interval l) = Some w.
Proof.
  intros Hw Hsel. destruct (select_spec state l Hw) as (r & Hr & Hspec). rewrite Hsel in Hr.
  injection Hr as <-. destruct Hspec as (Hst & _ & [Hin (su & Hsu & He)] & Hmin).
  unfold next_eligible_boundary_from. rewrite assert_true by apply Hw. run_bind.
  rewrite (lw_targets _ Hw). run_bind.
  assert (dl_targets l !! 0%nat = Some su) as -> by (by destruct (dl_targets l)). run_bind.
  assert (w ∈ filter (λ t, t = su ∨ dl_active_interval l ≤ t - dl_source_revision l) (dl_targets l)) as Hw'.
  { apply list_elem_of_filter. split; [|done]. by destruct He. }
  destruct (list_min_is_Some _ _ Hw') as [m Hm]. rewrite Hm. f_equal.
  apply list_min_spec in Hm as [[Hp Hmi]%list_elem_of_filter Hle].
  apply Hle in Hw'. apply N.le_antisymm; [done|]. apply Hmin. split; [done|]. exists su. split; [done|].
  by right.
Qed.

(** * Fitting targets *)

Lemma take_while_prefix (P : N → Prop) `{∀ x, Decision (P x)} xs :
  ∃ n, take_while P xs = take n xs ∧ Forall P (take n xs).
Proof.
  induction xs as [|x xs (n & E & Hf)]; [by exists 0%nat|]. simpl. case_decide.
  - exists (S n). simpl. rewrite E. auto.
  - exists 0%nat. auto.
Qed.

Lemma StronglySorted_drop {A} (R : A → A → Prop) n xs :
  StronglySorted R xs → StronglySorted R (drop n xs).
Proof. intros Hs. rewrite <- (take_drop n xs) in Hs. by eapply StronglySorted_app_1_r. Qed.
Lemma StronglySorted_take {A} (R : A → A → Prop) n xs :
  StronglySorted R xs → StronglySorted R (take n xs).
Proof. intros Hs. rewrite <- (take_drop n xs) in Hs. by eapply StronglySorted_app_1_l. Qed.

Lemma fitting_targets_spec r l :
  ladder_wf l → rr_source_revision r = dl_source_revision l →
  rr_target_revision r ∈ dl_targets l → rr_target_revision r ≤ dl_head_revision l →
  keeps_coverage (dl_current_target l) (rr_target_revision r) →
  ∃ rest, fitting_targets r l = Some (rr_target_revision r :: rest) ∧
    StronglySorted (λ x y, y < x) (rr_target_revision r :: rest) ∧
    ∀ t, t ∈ rr_target_revision r :: rest →
      dl_source_revision l < t ≤ rr_target_revision r ∧ t ∈ dl_targets l ∧
      keeps_coverage (dl_current_target l) t.
Proof.
  intros Hw Hsrc Hin Hh Hk. destruct (ladder_wf_targets l Hw) as (su & tl & _ & Hs & _ & Hb).
  unfold fitting_targets. rewrite (assert_true _ Hsrc). run_bind.
  destruct (list_find (λ t, t = rr_target_revision r) (dl_targets l)) as [[i x]|] eqn:Ef.
  2:{ apply list_find_None in Ef. rewrite Forall_forall in Ef. by destruct (Ef _ Hin). }
  apply list_find_Some in Ef as (Hi & -> & _). run_bind.
  rewrite (assert_true _ Hh). run_bind.
  assert (match dl_current_target l with
          | Some current => assert_ (current ≤ rr_target_revision r)
          | None => Some tt end = Some tt) as ->.
  { destruct (dl_current_target l); [by rewrite assert_true|done]. }
  run_bind. apply drop_S in Hi as Hd. pose proof (StronglySorted_drop _ i _ Hs) as Hsd.
  assert (∀ t, t ∈ drop i (dl_targets l) → t ∈ dl_targets l) as Hsub.
  { intros t Ht. rewrite <- (take_drop i (dl_targets l)). apply elem_of_app. by right. }
  rewrite Hd in *. cbn [take_while]. rewrite decide_True by done.
  destruct (take_while_prefix (keeps_coverage (dl_current_target l)) (drop (S i) (dl_targets l)))
    as (n & -> & Hf).
  eexists. split; [done|].
  change (rr_target_revision r :: take n (drop (S i) (dl_targets l)))
    with (take (S n) (rr_target_revision r :: drop (S i) (dl_targets l))).
  split; [by apply StronglySorted_take|]. intros t Ht.
  assert (t ∈ rr_target_revision r :: drop (S i) (dl_targets l)) as Ht'.
  { apply elem_of_cons in Ht as [->|Ht]; [left|right]. eapply elem_of_take in Ht as (k & Ht & _).
    by eapply list_elem_of_lookup_2. }
  split; [split|split].
  - by apply Hb, Hsub.
  - apply elem_of_cons in Ht' as [->|Ht']; [done|]. apply StronglySorted_inv in Hsd as [_ Hall].
    rewrite Forall_forall in Hall. apply N.lt_le_incl. by apply Hall.
  - by apply Hsub.
  - apply elem_of_cons in Ht as [->|Ht]; [done|]. rewrite Forall_forall in Hf. by apply Hf.
Qed.
