(* ===== verification/Cache.v ===== *)
(** The publication-local response cache of [crates/kgi-api-core/src/cache.rs]:
    completed values, shared construction jobs, expiry by binary search, and
    replay-floor invalidation.  Definitions. *)

From Stdlib Require Import String.
From S2P Require Import Prelude.

Definition CACHED_HEAD_WINDOW_DEPTHS : list N := [20; 50; 100; 150; 200; 250].
Definition CACHED_HEAD_SNAPSHOT_MAX_AGE_MS : N := 90000.
Definition DELTA_CACHE_MAX_AGE_MS : N := 300000.

(** * Values *)

Record CachedDelta := MkCachedDelta {
  cd_from_revision_id : N;
  cd_to_revision_id : N;
  cd_size_limited : bool;
  cd_uncompressed_json_bytes : N;
  cd_gzip_body : list N
}.

Definition is_adequate_for (d : CachedDelta) (target_revision : N) : Prop :=
  target_revision ≤ cd_to_revision_id d ∨ cd_size_limited d = true.
#[global] Instance is_adequate_for_dec d t : Decision (is_adequate_for d t).
Proof. unfold is_adequate_for. apply _. Defined.

Definition reclassified_size_limited (d : CachedDelta) : option CachedDelta :=
  _ ← assert_ (cd_size_limited d = false);
  Some (MkCachedDelta (cd_from_revision_id d) (cd_to_revision_id d) true
          (cd_uncompressed_json_bytes d) (cd_gzip_body d)).

Record CachedHeadSnapshot := MkCachedHeadSnapshot {
  hs_depth : N;
  hs_revision : N;
  hs_revision_timestamp_ms : N;
  hs_low_level : N;
  hs_high_level : N;
  hs_uncompressed_json_bytes : N;
  hs_etag : string;
  hs_gzip_body : list N
}.

Record HeadEligibilityBoundary := MkHeadEligibilityBoundary {
  eb_head_revision_timestamp_ms : N;
  eb_replay_floor_revision : N;
  eb_oldest_available_revision : N
}.

Definition admits (b : HeadEligibilityBoundary) (s : CachedHeadSnapshot) : option bool :=
  age_ms ← checked_sub (eb_head_revision_timestamp_ms b) (hs_revision_timestamp_ms s);
  Some (bool_decide (eb_replay_floor_revision b ≤ hs_revision s
                     ∧ eb_oldest_available_revision b ≤ hs_revision s
                     ∧ age_ms < CACHED_HEAD_SNAPSHOT_MAX_AGE_MS)).

(** * Jobs *)

(** The identity of a shared job: [Arc::ptr_eq]. *)
Notation JobId := N (only parsing).

Inductive GraphEncodingError := Serialization | UncompressedResponseTooLarge | Compression.
Inductive EncodingSchedulerError :=
  | AdmissionSaturated | QueueTimeout | EncodingCancelled | ShuttingDown
  | Encoding (e : GraphEncodingError) | BlockingExecutorFailed | WorkerFailed.
Inductive CacheBuildError := BuildCancelled | BuildEncoding (e : EncodingSchedulerError).

Inductive CacheJobState (T : Type) :=
  | Pending
  | Complete (result : Result T CacheBuildError)
  | InvalidatedByReplayFloor (replay_floor_revision : N).
Arguments Pending {T}.
Arguments Complete {T} _.
Arguments InvalidatedByReplayFloor {T} _.

Inductive CacheWaitError :=
  | WaitCancelled
  | WaitBuild (e : CacheBuildError)
  | WaitInvalidatedByReplayFloor (replay_floor_revision : N).

(** What a waiter that observes a state returns; [None] keeps it waiting. *)
Definition wait_outcome {T} (s : CacheJobState T) : option (Result T CacheWaitError) :=
  match s with
  | Pending => None
  | Complete (Ok value) => Some (Ok value)
  | Complete (Err e) => Some (Err (WaitBuild e))
  | InvalidatedByReplayFloor floor => Some (Err (WaitInvalidatedByReplayFloor floor))
  end.

Definition complete {T} (result : Result T CacheBuildError) (s : CacheJobState T) :
    option (CacheJobState T) :=
  match s with
  | Pending => Some (Complete result)
  | InvalidatedByReplayFloor floor => Some (InvalidatedByReplayFloor floor)
  | Complete _ => None
  end.

Definition invalidate_by_replay_floor {T} (floor : N) (s : CacheJobState T) :
    option (CacheJobState T) :=
  match s with
  | Pending => Some (InvalidatedByReplayFloor floor)
  | _ => None
  end.

(** * The delta cache *)

Record RunningDeltaJob := MkRunningDeltaJob {
  rj_target_revision : N;
  rj_size_limited : bool;
  rj_job : JobId
}.

Record DeltaCacheSlot := MkDeltaCacheSlot {
  ds_first_revision_timestamp_ms : N;
  ds_completed : option CachedDelta;
  ds_running : option RunningDeltaJob
}.

Notation DeltaCache := (gmap N DeltaCacheSlot).

Inductive DeltaCacheLookup :=
  | DeltaCompleted (d : CachedDelta)
  | DeltaRunning (j : JobId)
  | DeltaConstructionRequired (current_target : option N).

Inductive CacheAccess (T : Type) :=
  | AccessCompleted (value : T)
  | AccessJob (j : JobId).
Arguments AccessCompleted {T} _.
Arguments AccessJob {T} _.

Definition is_expired (slot : DeltaCacheSlot) (head_ts : N) : option bool :=
  age ← checked_sub head_ts (ds_first_revision_timestamp_ms slot);
  Some (bool_decide (DELTA_CACHE_MAX_AGE_MS ≤ age)).

(** [map.range(k..).next()] and [map.split_off(&k)] (the retained suffix). *)
Definition range_next {A} (k : N) (m : gmap N A) : option (N * A) :=
  head (btree_to_list (filter (λ '(i, _), k ≤ i) m)).
Definition split_off {A} (k : N) (m : gmap N A) : gmap N A := filter (λ '(i, _), k ≤ i) m.

(** The binary search of [prune_expired]; 64 halvings reduce any 64-bit gap. *)
Fixpoint prune_search (fuel : nat) (head_ts : N) (m : DeltaCache) (expired retained : N) :
    option N :=
  if decide (1 < retained - expired) then
    match fuel with
    | O => None
    | S fuel =>
      let midpoint := expired + (retained - expired) / 2 in
      '(_, candidate) ← range_next midpoint m;
      e ← is_expired candidate head_ts;
      if (e : bool) then prune_search fuel head_ts m midpoint retained
      else prune_search fuel head_ts m expired midpoint
    end
  else Some retained.

Definition prune_expired (head_ts : N) (m : DeltaCache) : option DeltaCache :=
  match head (btree_to_list m) with
  | None => Some m
  | Some (first_source, first_slot) =>
    e ← is_expired first_slot head_ts;
    if negb e then Some m
    else
      '(last_source, last_slot) ← last (btree_to_list m);
      e ← is_expired last_slot head_ts;
      if (e : bool) then Some ∅
      else
        retained ← prune_search 64 head_ts m first_source last_source;
        '(first_retained_source, _) ← range_next retained m;
        Some (split_off first_retained_source m)
  end.

Definition delta_lookup (source target head_ts : N) (m : DeltaCache) :
    option (DeltaCache * DeltaCacheLookup) :=
  m ← prune_expired head_ts m;
  Some (m,
    match m !! source with
    | None => DeltaConstructionRequired None
    | Some slot =>
      let fallback := match ds_running slot with
                      | Some running => DeltaRunning (rj_job running)
                      | None => DeltaConstructionRequired (cd_to_revision_id <$> ds_completed slot)
                      end in
      match ds_completed slot with
      | Some completed =>
        if decide (is_adequate_for completed target) then DeltaCompleted completed else fallback
      | None => fallback
      end
    end).

(** The part of [elect] after the reclassification test. *)
Definition delta_elect_slot (source target : N) (size_limited : bool) (fresh : JobId)
    (slot : DeltaCacheSlot) (m : DeltaCache) : DeltaCache * CacheAccess CachedDelta * option JobId :=
  let install :=
    (<[source := MkDeltaCacheSlot (ds_first_revision_timestamp_ms slot) (ds_completed slot)
                   (Some (MkRunningDeltaJob target size_limited fresh))]> m,
     AccessJob fresh, Some fresh) in
  let wait := match ds_running slot with
              | Some running => (m, AccessJob (rj_job running), None)
              | None => install
              end in
  match ds_completed slot with
  | Some completed =>
    if decide (is_adequate_for completed target) then (m, AccessCompleted completed, None) else wait
  | None => wait
  end.

(** [fresh] is the identity of the job allocated when one is needed. *)
Definition delta_elect (source first_ts target : N) (size_limited : bool) (fresh : JobId)
    (m : DeltaCache) : option (DeltaCache * CacheAccess CachedDelta * option JobId) :=
  match m !! source with
  | Some slot =>
    match ds_completed slot with
    | Some completed =>
      if decide (size_limited = true ∧ cd_to_revision_id completed = target
                 ∧ cd_size_limited completed = false) then
        reclassified ← reclassified_size_limited completed;
        Some (<[source := MkDeltaCacheSlot (ds_first_revision_timestamp_ms slot)
                            (Some reclassified) (ds_running slot)]> m,
              AccessCompleted reclassified, None)
      else Some (delta_elect_slot source target size_limited fresh slot m)
    | None => Some (delta_elect_slot source target size_limited fresh slot m)
    end
  | None =>
    Some (<[source := MkDeltaCacheSlot first_ts None
                        (Some (MkRunningDeltaJob target size_limited fresh))]> m,
          AccessJob fresh, Some fresh)
  end.

Definition delta_finish (source : N) (job : JobId) (result : Result CachedDelta CacheBuildError)
    (m : DeltaCache) : option DeltaCache :=
  match m !! source with
  | None => Some m
  | Some slot =>
    match ds_running slot with
    | None => Some m
    | Some running =>
      if decide (rj_job running = job) then
        completed ← match result with
                    | Ok value =>
                      _ ← assert_ (cd_from_revision_id value = source);
                      _ ← assert_ (cd_to_revision_id value = rj_target_revision running);
                      _ ← assert_ (cd_size_limited value = rj_size_limited running);
                      Some (match ds_completed slot with
                            | Some completed =>
                              if decide (cd_to_revision_id completed < cd_to_revision_id value)
                              then Some value else Some completed
                            | None => Some value
                            end)
                    | Err _ => Some (ds_completed slot)
                    end;
        Some (match completed with
              | None => delete source m
              | Some _ => <[source := MkDeltaCacheSlot (ds_first_revision_timestamp_ms slot)
                                        completed None]> m
              end)
      else Some m
    end
  end.

Definition delta_detach_before_replay_floor (floor : N) (m : DeltaCache) :
    DeltaCache * list JobId :=
  (split_off floor m,
   omap (λ '(_, slot), rj_job <$> ds_running slot)
     (btree_to_list (filter (λ '(i, _), ¬ floor ≤ i) m))).

(** * The Head cache *)

Record HeadCacheSlot := MkHeadCacheSlot {
  sl_completed : option CachedHeadSnapshot;
  sl_running : option JobId
}.

Notation HeadCache := (gmap N HeadCacheSlot).

Inductive HeadCacheLookup :=
  | HeadCompleted (s : CachedHeadSnapshot)
  | HeadRunning (j : JobId)
  | HeadConstructionRequired.

Definition retained_completed (floor : N) (slot : HeadCacheSlot) : option CachedHeadSnapshot :=
  match sl_completed slot with
  | Some value => if decide (hs_revision value < floor) then None else Some value
  | None => None
  end.

Definition head_detach_before_replay_floor (floor : N) (m : HeadCache) : HeadCache * list JobId :=
  (omap (λ slot, (λ value, MkHeadCacheSlot (Some value) None) <$> retained_completed floor slot) m,
   omap (λ '(_, slot), sl_running slot) (map_to_list m)).

Definition head_lookup (depth : N) (boundary : HeadEligibilityBoundary) (m : HeadCache) :
    option (HeadCache * HeadCacheLookup) :=
  match m !! depth with
  | None => Some (m, HeadConstructionRequired)
  | Some slot =>
    let evicted := match sl_running slot with
                   | Some running => (<[depth := MkHeadCacheSlot None (Some running)]> m, HeadRunning running)
                   | None => (delete depth m, HeadConstructionRequired)
                   end in
    match sl_completed slot with
    | Some completed =>
      ok ← admits boundary completed;
      if (ok : bool) then Some (m, HeadCompleted completed) else Some evicted
    | None => Some evicted
    end
  end.

Definition head_elect (depth : N) (boundary : HeadEligibilityBoundary) (fresh : JobId)
    (m : HeadCache) : option (HeadCache * CacheAccess CachedHeadSnapshot * option JobId) :=
  let slot := default (MkHeadCacheSlot None None) (m !! depth) in
  let evicted :=
    match sl_running slot with
    | Some running => (<[depth := MkHeadCacheSlot None (Some running)]> m, AccessJob running, None)
    | None => (<[depth := MkHeadCacheSlot None (Some fresh)]> m, AccessJob fresh, Some fresh)
    end in
  match sl_completed slot with
  | Some completed =>
    ok ← admits boundary completed;
    if (ok : bool) then Some (m, AccessCompleted completed, None) else Some evicted
  | None => Some evicted
  end.

Definition head_finish (depth : N) (job : JobId) (result : Result CachedHeadSnapshot CacheBuildError)
    (m : HeadCache) : option HeadCache :=
  match m !! depth with
  | None => Some m
  | Some slot =>
    if decide (sl_running slot = Some job) then
      completed ← match result with
                  | Ok value => _ ← assert_ (hs_depth value = depth); Some (Some value)
                  | Err _ => Some (sl_completed slot)
                  end;
      Some (match completed with
            | None => delete depth m
            | Some _ => <[depth := MkHeadCacheSlot completed None]> m
            end)
    else Some m
  end.
