(* ===== verification/CacheMachine.v ===== *)
(** The graph cache under concurrent requests, builders and replay-floor
    invalidation.  Every locked section of [GraphCache] and every job
    transition is one step; a builder finishes in two steps, the slot update
    under the lock and the job completion after it. *)

From Stdlib Require Import String.
From S2P Require Import Prelude Cache.

Inductive DeltaTask :=
  | DeltaBuilding (source target : N) (size_limited : bool)
  | DeltaFinishing (result : Result CachedDelta CacheBuildError).

Inductive HeadTask :=
  | HeadBuilding (depth : N)
  | HeadFinishing (result : Result CachedHeadSnapshot CacheBuildError).

Record CacheWorld := MkCacheWorld {
  w_deltas : DeltaCache;
  w_heads : HeadCache;
  w_delta_jobs : gmap JobId (CacheJobState CachedDelta);
  w_head_jobs : gmap JobId (CacheJobState CachedHeadSnapshot);
  w_delta_tasks : gmap JobId DeltaTask;
  w_head_tasks : gmap JobId HeadTask
}.

Definition GraphCache_new : CacheWorld := MkCacheWorld ∅ ∅ ∅ ∅ ∅ ∅.

Inductive CacheEvent :=
  | LookupDelta (source target head_ts : N)
  | PruneDeltas (head_ts : N)
  | ElectDelta (source first_ts target : N) (size_limited : bool) (fresh : JobId)
  | FinishDelta (j : JobId) (result : Result CachedDelta CacheBuildError)
  | CompleteDelta (j : JobId)
  | LookupHead (depth : N) (boundary : HeadEligibilityBoundary)
  | ElectHead (depth : N) (boundary : HeadEligibilityBoundary) (fresh : JobId)
  | FinishHead (j : JobId) (result : Result CachedHeadSnapshot CacheBuildError)
  | CompleteHead (j : JobId)
  | InvalidateReplayFloor (floor : N).

(** [ReplayFloorInvalidation::terminalize] over one job list. *)
Definition terminalize {T} (floor : N) (jobs : gmap JobId (CacheJobState T)) (js : list JobId) :
    option (gmap JobId (CacheJobState T)) :=
  fold_m (λ jobs j, s ← jobs !! j; s' ← invalidate_by_replay_floor floor s; Some (<[j := s']> jobs))
    jobs js.

(** A job's [complete], by identity. *)
Definition complete_job {T} (j : JobId) (r : Result T CacheBuildError)
    (jobs : gmap JobId (CacheJobState T)) : option (gmap JobId (CacheJobState T)) :=
  s ← jobs !! j; s' ← complete r s; Some (<[j := s']> jobs).

Definition set_deltas (m : DeltaCache) (w : CacheWorld) : CacheWorld :=
  MkCacheWorld m (w_heads w) (w_delta_jobs w) (w_head_jobs w) (w_delta_tasks w) (w_head_tasks w).
Definition set_heads (m : HeadCache) (w : CacheWorld) : CacheWorld :=
  MkCacheWorld (w_deltas w) m (w_delta_jobs w) (w_head_jobs w) (w_delta_tasks w) (w_head_tasks w).

(** One step; [None] is a panic. *)
Definition cache_step (ev : CacheEvent) (w : CacheWorld) : option CacheWorld :=
  match ev with
  | LookupDelta source target head_ts =>
    '(m, _) ← delta_lookup source target head_ts (w_deltas w); Some (set_deltas m w)
  | PruneDeltas head_ts => m ← prune_expired head_ts (w_deltas w); Some (set_deltas m w)
  | ElectDelta source first_ts target size_limited fresh =>
    '(m, _, elected) ← delta_elect source first_ts target size_limited fresh (w_deltas w);
    Some (match elected with
          | Some j => MkCacheWorld m (w_heads w) (<[j := Pending]> (w_delta_jobs w)) (w_head_jobs w)
                        (<[j := DeltaBuilding source target size_limited]> (w_delta_tasks w))
                        (w_head_tasks w)
          | None => set_deltas m w
          end)
  | FinishDelta j result =>
    match w_delta_tasks w !! j with
    | Some (DeltaBuilding source _ _) =>
      m ← delta_finish source j result (w_deltas w);
      Some (MkCacheWorld m (w_heads w) (w_delta_jobs w) (w_head_jobs w)
              (<[j := DeltaFinishing result]> (w_delta_tasks w)) (w_head_tasks w))
    | _ => Some w
    end
  | CompleteDelta j =>
    match w_delta_tasks w !! j with
    | Some (DeltaFinishing result) =>
      jobs ← complete_job j result (w_delta_jobs w);
      Some (MkCacheWorld (w_deltas w) (w_heads w) jobs (w_head_jobs w)
              (delete j (w_delta_tasks w)) (w_head_tasks w))
    | _ => Some w
    end
  | LookupHead depth boundary =>
    _ ← assert_ (depth ∈ CACHED_HEAD_WINDOW_DEPTHS);
    '(m, _) ← head_lookup depth boundary (w_heads w); Some (set_heads m w)
  | ElectHead depth boundary fresh =>
    _ ← assert_ (depth ∈ CACHED_HEAD_WINDOW_DEPTHS);
    '(m, _, elected) ← head_elect depth boundary fresh (w_heads w);
    Some (match elected with
          | Some j => MkCacheWorld (w_deltas w) m (w_delta_jobs w) (<[j := Pending]> (w_head_jobs w))
                        (w_delta_tasks w) (<[j := HeadBuilding depth]> (w_head_tasks w))
          | None => set_heads m w
          end)
  | FinishHead j result =>
    match w_head_tasks w !! j with
    | Some (HeadBuilding depth) =>
      m ← head_finish depth j result (w_heads w);
      Some (MkCacheWorld (w_deltas w) m (w_delta_jobs w) (w_head_jobs w)
              (w_delta_tasks w) (<[j := HeadFinishing result]> (w_head_tasks w)))
    | _ => Some w
    end
  | CompleteHead j =>
    match w_head_tasks w !! j with
    | Some (HeadFinishing result) =>
      jobs ← complete_job j result (w_head_jobs w);
      Some (MkCacheWorld (w_deltas w) (w_heads w) (w_delta_jobs w) jobs
              (w_delta_tasks w) (delete j (w_head_tasks w)))
    | _ => Some w
    end
  | InvalidateReplayFloor floor =>
    let '(deltas, delta_js) := delta_detach_before_replay_floor floor (w_deltas w) in
    let '(heads, head_js) := head_detach_before_replay_floor floor (w_heads w) in
    delta_jobs ← terminalize floor (w_delta_jobs w) delta_js;
    head_jobs ← terminalize floor (w_head_jobs w) head_js;
    Some (MkCacheWorld deltas heads delta_jobs head_jobs (w_delta_tasks w) (w_head_tasks w))
  end.

(** * Ordered-map reads *)

Lemma btree_head_Some {A} (mp : gmap N A) i x :
  head (btree_to_list mp) = Some (i, x) → mp !! i = Some x ∧ ∀ j y, mp !! j = Some y → i ≤ j.
Proof.
  intros Hh. pose proof (btree_to_list_sorted mp) as Hs.
  assert (∀ j y, mp !! j = Some y → (j, y) ∈ btree_to_list mp) as Hin
    by (intros; by apply elem_of_btree_to_list).
  assert ((i, x) ∈ btree_to_list mp) as Hx by (destruct (btree_to_list mp); simplify_eq/=; left).
  split; [by apply elem_of_btree_to_list|]. intros j y Hj. apply Hin in Hj.
  destruct (btree_to_list mp) as [|p l]; [done|]. simplify_eq/=.
  apply StronglySorted_inv in Hs as [_ Hall]. rewrite Forall_forall in Hall.
  apply elem_of_cons in Hj as [[= -> _]|Hj]; [done|]. apply (Hall _ Hj).
Qed.

Lemma btree_last_Some {A} (mp : gmap N A) i x :
  last (btree_to_list mp) = Some (i, x) → mp !! i = Some x ∧ ∀ j y, mp !! j = Some y → j ≤ i.
Proof.
  intros Hl. pose proof (btree_to_list_sorted mp) as Hs. split.
  { by apply elem_of_btree_to_list, last_Some_elem_of. }
  intros j y Hj%elem_of_btree_to_list. apply last_Some in Hl as [l E]. rewrite E in *.
  apply elem_of_app in Hj as [Hj|[= -> _]%list_elem_of_singleton]; [|done].
  apply (StronglySorted_app_1_elem_of _ _ _ (j, y) (i, x)) in Hs; [exact Hs|done|set_solver].
Qed.

Lemma range_next_Some {A} k (mp : gmap N A) i x :
  range_next k mp = Some (i, x) →
  mp !! i = Some x ∧ k ≤ i ∧ ∀ j y, mp !! j = Some y → k ≤ j → i ≤ j.
Proof.
  intros [[Hi Hk]%map_lookup_filter_Some Hmin]%btree_head_Some. split_and!; [done..|].
  intros j y Hj Hkj. apply (Hmin j y). by apply map_lookup_filter_Some.
Qed.

Lemma range_next_is_Some {A} k (mp : gmap N A) i x :
  mp !! i = Some x → k ≤ i → is_Some (range_next k mp).
Proof.
  intros Hi Hk. unfold range_next.
  assert ((i, x) ∈ btree_to_list (filter (λ '(i, _), k ≤ i) mp)) as Hin
    by (by apply elem_of_btree_to_list, map_lookup_filter_Some).
  destruct (btree_to_list _); [set_solver|by eexists].
Qed.

(** * Expiry *)

Section expiry.
Variable head_ts : N.
Variable m : DeltaCache.
(** The Head timestamp follows every stored one, and stored timestamps follow
    the source order. *)
Hypothesis Hpast : ∀ k slot, m !! k = Some slot → ds_first_revision_timestamp_ms slot ≤ head_ts.
Hypothesis Hmono : ∀ k1 k2 s1 s2, m !! k1 = Some s1 → m !! k2 = Some s2 → k1 ≤ k2 →
  ds_first_revision_timestamp_ms s1 ≤ ds_first_revision_timestamp_ms s2.

Definition expired_slot (slot : DeltaCacheSlot) : Prop :=
  DELTA_CACHE_MAX_AGE_MS ≤ head_ts - ds_first_revision_timestamp_ms slot.
#[local] Instance expired_slot_dec s : Decision (expired_slot s).
Proof. unfold expired_slot. apply _. Defined.

Lemma is_expired_spec k slot :
  m !! k = Some slot → is_expired slot head_ts = Some (bool_decide (expired_slot slot)).
Proof. intros H. unfold is_expired. by rewrite checked_sub_Some by eauto. Qed.

Lemma expired_down k1 k2 s1 s2 :
  m !! k1 = Some s1 → m !! k2 = Some s2 → k1 ≤ k2 → expired_slot s2 → expired_slot s1.
Proof.
  intros H1 H2 Hk. unfold expired_slot. pose proof (Hmono _ _ _ _ H1 H2 Hk). lia.
Qed.

(** The search keeps an expired boundary below and an unexpired one above. *)
Lemma prune_search_spec fuel lo hi :
  lo < hi → hi - lo ≤ 2 ^ N.of_nat fuel → is_Some (m !! hi) ∨ (∃ k, is_Some (m !! k) ∧ hi ≤ k) →
  (∀ k s, m !! k = Some s → k ≤ lo → expired_slot s) →
  (∀ k s, m !! k = Some s → hi ≤ k → ¬ expired_slot s) →
  ∃ r, prune_search fuel head_ts m lo hi = Some r ∧
    (∃ k, is_Some (m !! k) ∧ r ≤ k) ∧
    (∀ k s, m !! k = Some s → k < r → expired_slot s) ∧
    (∀ k s, m !! k = Some s → r ≤ k → ¬ expired_slot s).
Proof.
  revert lo hi. induction fuel as [|fuel IH]; intros lo hi Hlt Hgap Hex Hlo Hhi.
  - change (2 ^ N.of_nat 0) with 1 in Hgap. simpl. rewrite decide_False by lia. exists hi.
    split; [done|]. split; [destruct Hex as [?|?]; [by exists hi|done]|].
    split; [|done]. intros k s Hk Hkr. apply (Hlo k); [done|lia].
  - cbn [prune_search]. case_decide as Hd.
    + assert (2 ^ N.of_nat (S fuel) = 2 * 2 ^ N.of_nat fuel) as Hpow
        by (rewrite Nat2N.inj_succ; apply N.pow_succ_r').
      rewrite Hpow in Hgap. clear Hpow.
      pose proof (N.div_mod' (hi - lo) 2) as Hdm. pose proof (N.mod_lt (hi - lo) 2 ltac:(lia)) as Hm.
      set (half := (hi - lo) / 2) in *. set (rem := (hi - lo) mod 2) in *. clearbody half rem.
      assert (∃ k x, m !! k = Some x ∧ hi ≤ k) as (k0 & x0 & Hk0 & Hk0').
      { destruct Hex as [[x ?]|(k & [x ?] & ?)]; eauto. }
      destruct (range_next_is_Some (lo + half) m k0 x0) as [[i x] Hn]; [done|lia|].
      rewrite Hn. run_bind. apply range_next_Some in Hn as (Hi & Hge & Hleast).
      rewrite (is_expired_spec i x Hi). run_bind. case_bool_decide as He.
      * apply IH; [lia|lia|done| |done].
        intros k s Hk Hkm. eapply expired_down; [exact Hk|exact Hi|lia|done].
      * apply IH; [lia|lia|right; exists i; split; [eauto|lia]|done|].
        intros k s Hk Hkm Hes. apply He. eapply expired_down; [exact Hi|exact Hk|eauto|done].
    + exists hi. split; [done|]. split; [destruct Hex as [?|?]; [by exists hi|done]|].
      split; [|done]. intros k s Hk Hkr. apply (Hlo k); [done|lia].
Qed.

(** Pruning by binary search removes exactly the expired slots. *)
Lemma prune_expired_spec :
  (∀ k, is_Some (m !! k) → k ≤ U64_MAX) →
  prune_expired head_ts m = Some (filter (λ '(_, s), ¬ expired_slot s) m).
Proof.
  intros Hmax. unfold prune_expired. destruct (head (btree_to_list m)) as [[k0 s0]|] eqn:Eh.
  2:{ f_equal. assert (btree_to_list m = []) as E by (by destruct (btree_to_list m)).
      symmetry. apply map_filter_id. intros k s Hx%elem_of_btree_to_list. rewrite E in Hx. set_solver. }
  apply btree_head_Some in Eh as [Hk0 Hmin]. rewrite (is_expired_spec _ _ Hk0). run_bind.
  case_bool_decide as He0; cbn [negb].
  2:{ f_equal. symmetry. apply map_filter_id. intros k s Hk Hes. apply He0.
      eapply expired_down; [exact Hk0|exact Hk|eauto|done]. }
  destruct (last (btree_to_list m)) as [[k1 s1]|] eqn:El.
  2:{ apply last_None in El. apply elem_of_btree_to_list in Hk0. rewrite El in Hk0. set_solver. }
  apply btree_last_Some in El as [Hk1 Hmaxk]. run_bind.
  rewrite (is_expired_spec _ _ Hk1). run_bind. case_bool_decide as He1.
  { f_equal. symmetry. apply map_empty. intros k. apply map_lookup_filter_None_2. right.
    intros s Hk Hne. apply Hne. eapply expired_down; [exact Hk|exact Hk1|eauto|done]. }
  assert (k0 < k1) as Hlt.
  { destruct (N.lt_ge_cases k0 k1) as [|Hge]; [done|]. destruct He1.
    eapply expired_down; [exact Hk1|exact Hk0|done|done]. }
  destruct (prune_search_spec 64 k0 k1) as (r & -> & (k & [x Hx] & Hrk) & Hlow & Hhigh); try done.
  - pose proof (Hmax k1 ltac:(eauto)). unfold U64_MAX in *. change (2 ^ N.of_nat 64) with (2 ^ 64). lia.
  - left. eauto.
  - intros j s Hj Hle. eapply expired_down; [exact Hj|exact Hk0|done|done].
  - intros j s Hj Hle Hes. apply He1. eapply expired_down; [exact Hk1|exact Hj|done|done].
  - run_bind. destruct (range_next_is_Some r m k x Hx Hrk) as [[i y] Hn].
    rewrite Hn. run_bind. apply range_next_Some in Hn as (Hi & Hge & Hleast).
    f_equal. unfold split_off. apply map_filter_ext. intros j s Hj. split.
    + intros Hij. apply (Hhigh j); [done|lia].
    + intros Hne. apply (Hleast j s); [done|]. destruct (N.le_gt_cases r j); [done|].
      destruct Hne. by apply (Hlow j).
Qed.
End expiry.

(** * Jobs *)

Section jobs.
Context {T Task : Type}.
Implicit Types (jobs : gmap JobId (CacheJobState T)) (tasks : gmap JobId Task).

(** A pending job has a task that will complete it, and a task's job is never
    already complete. *)
Record jobs_inv jobs tasks : Prop := {
  ji_task : ∀ j t, tasks !! j = Some t →
    jobs !! j = Some Pending ∨ ∃ f, jobs !! j = Some (InvalidatedByReplayFloor f);
  ji_pending : ∀ j, jobs !! j = Some Pending → is_Some (tasks !! j)
}.

(** A terminal state is final. *)
Definition terminal_kept jobs jobs' : Prop :=
  ∀ j s, jobs !! j = Some s → s ≠ Pending → jobs' !! j = Some s.

Lemma jobs_inv_spawn jobs tasks j t :
  jobs_inv jobs tasks → jobs_inv (<[j := Pending]> jobs) (<[j := t]> tasks).
Proof.
  intros [H1 H2]. split; intros k; rewrite !lookup_insert; case_decide; eauto.
Qed.

Lemma jobs_inv_retask jobs tasks j t t' :
  jobs_inv jobs tasks → tasks !! j = Some t → jobs_inv jobs (<[j := t']> tasks).
Proof.
  intros [H1 H2] Ht. split; intros k; rewrite lookup_insert; case_decide; subst; eauto.
Qed.

Lemma complete_job_spec jobs tasks j t r :
  jobs_inv jobs tasks → tasks !! j = Some t →
  ∃ jobs', complete_job j r jobs = Some jobs' ∧ jobs_inv jobs' (delete j tasks) ∧
    terminal_kept jobs jobs' ∧ (∀ k, k ≠ j → jobs' !! k = jobs !! k) ∧
    (jobs !! j = Some Pending → jobs' !! j = Some (Complete r)).
Proof.
  intros [H1 H2] Ht. unfold complete_job.
  destruct (H1 j t Ht) as [E|[f E]]; rewrite E; simpl; (eexists; split; [done|]).
  - split_and!.
    + split; intros k.
      * intros t'. rewrite lookup_delete, lookup_insert. case_decide; [done|]. by apply H1.
      * rewrite lookup_delete, lookup_insert. case_decide; [done|]. apply H2.
    + intros k s Hk Hs. rewrite lookup_insert. case_decide; [subst; congruence|done].
    + intros k Hk. by rewrite lookup_insert_ne.
    + intros _. by rewrite lookup_insert_eq.
  - rewrite insert_id by done. split_and!; [|by intros ?|done|rewrite E; congruence].
    split; intros k.
    + intros t'. rewrite lookup_delete. case_decide; [done|]. apply H1.
    + rewrite lookup_delete. case_decide; [subst; congruence|]. apply H2.
Qed.

Lemma terminalize_spec floor jobs js :
  NoDup js → (∀ j, j ∈ js → jobs !! j = Some Pending) →
  ∃ jobs', terminalize floor jobs js = Some jobs' ∧
    ∀ j, jobs' !! j = if decide (j ∈ js) then Some (InvalidatedByReplayFloor floor) else jobs !! j.
Proof.
  unfold terminalize. revert jobs. induction js as [|j js IH]; intros jobs Hn Hp; [by exists jobs|].
  apply NoDup_cons in Hn as [Hj Hn]. cbn [fold_m]. rewrite (Hp j) by left. cbn [mbind option_bind invalidate_by_replay_floor].
  destruct (IH (<[j := InvalidatedByReplayFloor floor]> jobs)) as (jobs' & -> & Hl); [done| |].
  { intros k Hk. rewrite lookup_insert_ne by naive_solver. apply Hp. by right. }
  exists jobs'. split; [done|]. intros k. rewrite Hl, lookup_insert.
  repeat case_decide; set_solver.
Qed.

Lemma terminalize_inv floor jobs tasks (js : list JobId) jobs' :
  jobs_inv jobs tasks → (∀ j, j ∈ js → jobs !! j = Some Pending) →
  (∀ j, jobs' !! j = if decide (j ∈ js) then Some (InvalidatedByReplayFloor floor) else jobs !! j) →
  jobs_inv jobs' tasks ∧ terminal_kept jobs jobs'.
Proof.
  intros [H1 H2] Hp Hl. split; [split|].
  - intros j t Ht. rewrite Hl. case_decide; [eauto|]. by eapply H1.
  - intros j. rewrite Hl. case_decide; [done|]. apply H2.
  - intros j s Hj Hs. rewrite Hl. case_decide as Hin; [|done]. apply Hp in Hin. congruence.
Qed.

Lemma terminal_kept_spawn jobs j : jobs !! j = None → terminal_kept jobs (<[j := Pending]> jobs).
Proof. intros Hj k s Hk _. rewrite lookup_insert_ne; [done|congruence]. Qed.
End jobs.

(** * The delta cache under steps *)

Section delta_machine.
(** The timestamp of the first revision after a source. *)
Variable clock : N → N.
Implicit Types (m : DeltaCache) (jobs : gmap JobId (CacheJobState CachedDelta)).
Implicit Types (tasks : gmap JobId DeltaTask).

Record delta_inv m tasks jobs : Prop := {
  di_running : ∀ k s r, m !! k = Some s → ds_running s = Some r →
    jobs !! rj_job r = Some Pending ∧
    tasks !! rj_job r = Some (DeltaBuilding k (rj_target_revision r) (rj_size_limited r));
  di_nonempty : ∀ k s, m !! k = Some s → ds_completed s = None → is_Some (ds_running s);
  di_keyed : ∀ k s v, m !! k = Some s → ds_completed s = Some v → cd_from_revision_id v = k;
  di_clock : ∀ k s, m !! k = Some s → ds_first_revision_timestamp_ms s = clock k ∧ k ≤ U64_MAX;
  di_jobs : jobs_inv jobs tasks
}.

Lemma delta_inv_subseteq m m' tasks jobs : m' ⊆ m → delta_inv m tasks jobs → delta_inv m' tasks jobs.
Proof.
  intros Hsub [H1 H2 H3 H4 H5].
  assert (∀ k s, m' !! k = Some s → m !! k = Some s) as Hl by (intros; by eapply lookup_weaken).
  split; eauto.
Qed.

(** Replacing one slot by one that keeps the slot facts. *)
Lemma delta_inv_insert m tasks jobs k s s0 :
  delta_inv m tasks jobs → m !! k = Some s0 →
  ds_first_revision_timestamp_ms s = ds_first_revision_timestamp_ms s0 →
  (ds_running s = ds_running s0 ∨ ds_running s = None) →
  (ds_completed s = None → is_Some (ds_running s)) →
  (∀ v, ds_completed s = Some v → cd_from_revision_id v = k) →
  delta_inv (<[k := s]> m) tasks jobs.
Proof.
  intros [H1 H2 H3 H4 H5] Hk Hts Hr Hne Hkey.
  split; [..|done].
  - intros i x r. rewrite lookup_insert. case_decide; subst; [|apply H1].
    intros [= <-] Hr'. destruct Hr as [Hr|Hr]; rewrite Hr in Hr'; [|done]. by eapply H1.
  - intros i x. rewrite lookup_insert. case_decide; subst; [|apply H2]. intros [= <-]. auto.
  - intros i x v. rewrite lookup_insert. case_decide; subst; [|apply H3]. intros [= <-]. auto.
  - intros i x. rewrite lookup_insert. case_decide; subst; [|apply H4]. intros [= <-]. rewrite Hts. eauto.
Qed.

(** Installing a fresh job in a slot. *)
Lemma delta_inv_install m tasks jobs k ts completed target sl fresh :
  delta_inv m tasks jobs → jobs !! fresh = None → ts = clock k → k ≤ U64_MAX →
  (∀ v, completed = Some v → cd_from_revision_id v = k) →
  delta_inv (<[k := MkDeltaCacheSlot ts completed (Some (MkRunningDeltaJob target sl fresh))]> m)
    (<[fresh := DeltaBuilding k target sl]> tasks) (<[fresh := Pending]> jobs).
Proof.
  intros [H1 H2 H3 H4 H5] Hf -> Hk Hkey. split; [..|by apply jobs_inv_spawn].
  - intros i s r. rewrite lookup_insert. case_decide as Hi; subst.
    + intros [= <-] [= <-]. simpl. by rewrite !lookup_insert_eq.
    + intros Hs Hr. destruct (H1 _ _ _ Hs Hr) as [Hj Ht].
      rewrite !lookup_insert_ne by congruence. done.
  - intros i s. rewrite lookup_insert. case_decide; [|apply H2]. intros [= <-] _. simpl. eauto.
  - intros i s v. rewrite lookup_insert. case_decide; [|apply H3]. subst. intros [= <-]. apply Hkey.
  - intros i s. rewrite lookup_insert. case_decide; [|apply H4]. subst. by intros [= <-].
Qed.

Lemma delta_elect_inv m tasks jobs source first target sl fresh :
  delta_inv m tasks jobs → jobs !! fresh = None → first = clock source → source ≤ U64_MAX →
  ∃ m' a e, delta_elect source first target sl fresh m = Some (m', a, e) ∧
    match e with
    | Some j => j = fresh ∧ a = AccessJob fresh ∧
        delta_inv m' (<[j := DeltaBuilding source target sl]> tasks) (<[j := Pending]> jobs)
    | None => delta_inv m' tasks jobs ∧
        match a with
        | AccessCompleted v => is_adequate_for v target ∧ cd_from_revision_id v = source
        | AccessJob j => jobs !! j = Some Pending
        end
    end.
Proof.
  intros Hi Hf Hts Hs. unfold delta_elect.
  destruct (m !! source) as [slot|] eqn:Em.
  2:{ eexists _, _, _. split; [done|]. simpl. split_and!; [done..|]. by apply delta_inv_install. }
  destruct (di_clock _ _ _ Hi _ _ Em) as [Hck _].
  assert (∃ m' a e, Some (delta_elect_slot source target sl fresh slot m) = Some (m', a, e) ∧
    match e with
    | Some j => j = fresh ∧ a = AccessJob fresh ∧
        delta_inv m' (<[j := DeltaBuilding source target sl]> tasks) (<[j := Pending]> jobs)
    | None => delta_inv m' tasks jobs ∧
        match a with
        | AccessCompleted v => is_adequate_for v target ∧ cd_from_revision_id v = source
        | AccessJob j => jobs !! j = Some Pending
        end
    end) as Hslot.
  { assert (∀ v, ds_completed slot = Some v → cd_from_revision_id v = source) as Hkey
      by (intros; by eapply (di_keyed _ _ _ Hi)).
    assert (∀ r, ds_running slot = Some r → jobs !! rj_job r = Some Pending) as Hrun
      by (intros; by eapply (di_running _ _ _ Hi)).
    unfold delta_elect_slot.
    destruct (ds_completed slot) as [v|] eqn:Ec; [case_decide|];
      [|destruct (ds_running slot) as [r|] eqn:Er..]; eexists _, _, _; (split; [done|]); simpl;
      split_and!; auto; by apply delta_inv_install. }
  destruct (ds_completed slot) as [v|] eqn:Ec; [|done]. case_decide as Hd; [|done].
  destruct Hd as (-> & Ht & Hl). unfold reclassified_size_limited. rewrite assert_true by done.
  run_bind. eexists _, _, _. split; [done|]. simpl.
  pose proof (di_keyed _ _ _ Hi _ _ _ Em Ec) as Hkey. split.
  - eapply delta_inv_insert; [done|exact Em|done|by left|done|]. by intros ? [= <-].
  - split; [by right|done].
Qed.

(** A job that left its slot, or was never there, is in no slot. *)
Lemma delta_inv_retask m tasks jobs j r0 k t sl :
  delta_inv m tasks jobs → tasks !! j = Some (DeltaBuilding k t sl) →
  (∀ s r, m !! k = Some s → ds_running s = Some r → rj_job r ≠ j) →
  delta_inv m (<[j := DeltaFinishing r0]> tasks) jobs.
Proof.
  intros [H1 H2 H3 H4 H5] Ht Hno. split; [|done|done|done|by eapply jobs_inv_retask].
  intros i s r Hs Hr. destruct (H1 i s r Hs Hr) as [Hj Htr]. split; [done|].
  rewrite lookup_insert_ne; [done|]. intros ->. rewrite Htr in Ht. injection Ht as -> _ _.
  by eapply Hno.
Qed.

Lemma delta_finish_inv m tasks jobs j source target sl result :
  delta_inv m tasks jobs → tasks !! j = Some (DeltaBuilding source target sl) →
  (∀ v, result = Ok v → cd_from_revision_id v = source ∧ cd_to_revision_id v = target ∧
     cd_size_limited v = sl) →
  ∃ m', delta_finish source j result m = Some m' ∧
    delta_inv m' (<[j := DeltaFinishing result]> tasks) jobs.
Proof.
  intros Hi Ht Hres. unfold delta_finish.
  destruct (m !! source) as [slot|] eqn:Em.
  2:{ exists m. split; [done|]. eapply delta_inv_retask; [done..|]. congruence. }
  destruct (ds_running slot) as [r|] eqn:Er.
  2:{ exists m. split; [done|]. eapply delta_inv_retask; [done..|]. intros. congruence. }
  case_decide as Hj.
  2:{ exists m. split; [done|]. eapply delta_inv_retask; [done..|]. intros. congruence. }
  destruct (di_running _ _ _ Hi _ _ _ Em Er) as [_ Htr]. rewrite Hj in Htr.
  rewrite Ht in Htr. injection Htr as Htg Hsl.
  pose proof (λ v, di_keyed _ _ _ Hi source slot v Em) as Hkey.
  assert (∀ c, (∀ v, c = Some v → cd_from_revision_id v = source) →
    delta_inv (match c with
               | None => delete source m
               | Some _ => <[source := MkDeltaCacheSlot (ds_first_revision_timestamp_ms slot) c None]> m
               end) (<[j := DeltaFinishing result]> tasks) jobs) as Hfin.
  { intros c Hc. eapply delta_inv_retask.
    - destruct c as [v|].
      + eapply delta_inv_insert; [done|exact Em|done|by right|done|done].
      + eapply delta_inv_subseteq; [|done]. apply delete_subseteq.
    - done.
    - intros s r'. destruct c; [rewrite lookup_insert_eq; by intros [= <-]|by rewrite lookup_delete_eq]. }
  destruct result as [v|e].
  - destruct (Hres v eq_refl) as (Hf & Hto & Hs). rewrite !assert_true by congruence.
    run_bind. eexists. split; [done|].
    apply Hfin. intros x Hx. destruct (ds_completed slot) as [c|] eqn:Ec; [case_decide|]; simplify_eq; eauto.
  - run_bind. eexists. split; [done|]. by apply Hfin.
Qed.

Lemma delta_complete_inv m tasks jobs jobs' j r :
  delta_inv m tasks jobs → tasks !! j = Some (DeltaFinishing r) →
  jobs_inv jobs' (delete j tasks) → (∀ k, k ≠ j → jobs' !! k = jobs !! k) →
  delta_inv m (delete j tasks) jobs'.
Proof.
  intros [H1 H2 H3 H4 H5] Ht Hj Hk. split; try done.
  intros k s r' Hs Hr. destruct (H1 _ _ _ Hs Hr) as [Hp Htr].
  assert (rj_job r' ≠ j) as Hne by congruence. by rewrite Hk, lookup_delete_ne.
Qed.

(** The jobs a replay floor detaches: those running below it, each once. *)
Lemma delta_detached_jobs floor m j :
  j ∈ (delta_detach_before_replay_floor floor m).2 ↔
  ∃ k s r, m !! k = Some s ∧ ds_running s = Some r ∧ rj_job r = j ∧ k < floor.
Proof.
  simpl. rewrite list_elem_of_omap. split.
  - intros ([k s] & [Hk Hf]%elem_of_btree_to_list%map_lookup_filter_Some & Hj).
    destruct (ds_running s) as [r|] eqn:E; simplify_eq/=. exists k, s, r. split_and!; [done..|lia].
  - intros (k & s & r & Hk & Hr & <- & Hlt). exists (k, s). rewrite Hr. split; [|done].
    apply elem_of_btree_to_list, map_lookup_filter_Some. split; [done|lia].
Qed.

Lemma delta_detached_NoDup floor m tasks jobs :
  delta_inv m tasks jobs → NoDup (delta_detach_before_replay_floor floor m).2.
Proof.
  intros Hi. simpl. set (m' := filter _ m).
  assert (∀ k s, (k, s) ∈ btree_to_list m' → m !! k = Some s) as Hm.
  { intros k s Hin%elem_of_btree_to_list. by apply map_lookup_filter_Some in Hin as [? _]. }
  pose proof (NoDup_btree_to_list m') as Hn. clearbody m'.
  induction (btree_to_list m') as [|[k s] l IH]; [constructor|].
  rewrite fmap_cons in Hn. apply NoDup_cons in Hn as [Hk Hn]. simpl.
  destruct (ds_running s) as [r|] eqn:Er; simpl; [|apply IH; [|done]; intros; apply Hm; by right].
  apply NoDup_cons. split; [|apply IH; [|done]; intros; apply Hm; by right].
  intros ([k' s'] & Hin & Hj)%list_elem_of_omap.
  destruct (ds_running s') as [r'|] eqn:Er'; [|done]. injection Hj as Hj.
  destruct (di_running _ _ _ Hi k s r) as [_ T1]; [apply Hm; by left|done|].
  destruct (di_running _ _ _ Hi k' s' r') as [_ T2]; [apply Hm; by right|done|].
  rewrite Hj, T1 in T2. injection T2 as -> _ _. apply Hk. apply list_elem_of_fmap. by exists (k', s').
Qed.

Lemma delta_invalidate_inv floor m tasks jobs :
  delta_inv m tasks jobs →
  ∃ jobs', terminalize floor jobs (delta_detach_before_replay_floor floor m).2 = Some jobs' ∧
    delta_inv (delta_detach_before_replay_floor floor m).1 tasks jobs' ∧ terminal_kept jobs jobs'.
Proof.
  intros Hi.
  assert (∀ j, j ∈ (delta_detach_before_replay_floor floor m).2 → jobs !! j = Some Pending) as Hp.
  { intros j (k & s & r & Hk & Hr & <- & _)%delta_detached_jobs. by eapply (di_running _ _ _ Hi). }
  destruct (terminalize_spec floor jobs (delta_detach_before_replay_floor floor m).2)
    as (jobs' & Ht & Hl); [by eapply delta_detached_NoDup|done|].
  destruct (terminalize_inv floor jobs tasks _ jobs' (di_jobs _ _ _ Hi) Hp Hl) as [Hj Hk].
  exists jobs'. split_and!; [done| |done].
  assert (delta_inv (delta_detach_before_replay_floor floor m).1 tasks jobs) as [H1 H2 H3 H4 H5].
  { eapply delta_inv_subseteq; [|done]. simpl. apply map_filter_subseteq. }
  split; try done. intros k s r Hs Hr. destruct (H1 _ _ _ Hs Hr) as [Hpd Htr]. split; [|done].
  rewrite Hl, decide_False; [done|].
  intros (k' & s' & r' & Hk' & Hr' & Hjj & Hlt)%delta_detached_jobs.
  destruct (di_running _ _ _ Hi _ _ _ Hk' Hr') as [_ T2]. rewrite Hjj, Htr in T2.
  injection T2 as -> _ _. simpl in Hs. apply map_lookup_filter_Some in Hs as [_ Hge]. lia.
Qed.
End delta_machine.

(** * The Head cache under steps *)

Section head_machine.
Implicit Types (m : HeadCache) (jobs : gmap JobId (CacheJobState CachedHeadSnapshot)).
Implicit Types (tasks : gmap JobId HeadTask).

Record heads_inv m tasks jobs : Prop := {
  hc_running : ∀ k s j, m !! k = Some s → sl_running s = Some j →
    jobs !! j = Some Pending ∧ tasks !! j = Some (HeadBuilding k);
  hc_nonempty : ∀ k s, m !! k = Some s → sl_completed s = None → is_Some (sl_running s);
  hc_keyed : ∀ k s v, m !! k = Some s → sl_completed s = Some v → hs_depth v = k;
  hc_jobs : jobs_inv jobs tasks
}.

Lemma heads_inv_subseteq m m' tasks jobs : m' ⊆ m → heads_inv m tasks jobs → heads_inv m' tasks jobs.
Proof.
  intros Hsub [H1 H2 H3 H4].
  assert (∀ k s, m' !! k = Some s → m !! k = Some s) as Hl by (intros; by eapply lookup_weaken).
  split; eauto.
Qed.

Lemma heads_inv_insert m tasks jobs k s :
  heads_inv m tasks jobs →
  (∀ j, sl_running s = Some j → jobs !! j = Some Pending ∧ tasks !! j = Some (HeadBuilding k)) →
  (sl_completed s = None → is_Some (sl_running s)) →
  (∀ v, sl_completed s = Some v → hs_depth v = k) →
  heads_inv (<[k := s]> m) tasks jobs.
Proof.
  intros [H1 H2 H3 H4] Hr Hne Hk. split; [..|done].
  - intros i x j. rewrite lookup_insert. case_decide; subst; [|apply H1]. intros [= <-]. auto.
  - intros i x. rewrite lookup_insert. case_decide; subst; [|apply H2]. intros [= <-]. auto.
  - intros i x v. rewrite lookup_insert. case_decide; subst; [|apply H3]. intros [= <-]. auto.
Qed.

(** The slot after a completed snapshot that is no longer admitted is dropped. *)
Lemma heads_inv_evicted m tasks jobs k s j :
  heads_inv m tasks jobs → m !! k = Some s → sl_running s = Some j →
  heads_inv (<[k := MkHeadCacheSlot None (Some j)]> m) tasks jobs.
Proof.
  intros Hi Hs Hr. apply heads_inv_insert; simpl; try done.
  intros ? [= <-]. by eapply (hc_running _ _ _ Hi).
Qed.

Lemma heads_inv_spawn m tasks jobs fresh k :
  heads_inv m tasks jobs → jobs !! fresh = None →
  heads_inv m (<[fresh := HeadBuilding k]> tasks) (<[fresh := Pending]> jobs).
Proof.
  intros [H1 H2 H3 H4] Hf. split; [|done|done|by apply jobs_inv_spawn].
  intros i s j Hs Hr. destruct (H1 _ _ _ Hs Hr) as [Hj Ht]. by rewrite !lookup_insert_ne by congruence.
Qed.

Lemma admits_spec b s :
  hs_revision_timestamp_ms s ≤ eb_head_revision_timestamp_ms b → is_Some (admits b s).
Proof. intros. unfold admits. rewrite checked_sub_Some by done. eauto. Qed.

Lemma head_lookup_inv m tasks jobs depth b :
  heads_inv m tasks jobs →
  (∀ s v, m !! depth = Some s → sl_completed s = Some v →
     hs_revision_timestamp_ms v ≤ eb_head_revision_timestamp_ms b) →
  ∃ m' r, head_lookup depth b m = Some (m', r) ∧ heads_inv m' tasks jobs ∧
    match r with
    | HeadCompleted v => admits b v = Some true ∧ hs_depth v = depth
    | HeadRunning j => jobs !! j = Some Pending
    | HeadConstructionRequired => m' !! depth = None
    end.
Proof.
  intros Hi Hb. unfold head_lookup. destruct (m !! depth) as [s|] eqn:Em; [|by eexists _, _].
  assert (∃ m' r, Some (match sl_running s with
      | Some running => (<[depth := MkHeadCacheSlot None (Some running)]> m, HeadRunning running)
      | None => (delete depth m, HeadConstructionRequired) end) = Some (m', r) ∧ heads_inv m' tasks jobs ∧
    match r with
    | HeadCompleted v => admits b v = Some true ∧ hs_depth v = depth
    | HeadRunning j => jobs !! j = Some Pending
    | HeadConstructionRequired => m' !! depth = None
    end) as Hev.
  { destruct (sl_running s) as [j|] eqn:Er; eexists _, _; (split; [done|]); split.
    - by eapply heads_inv_evicted.
    - by eapply (hc_running _ _ _ Hi).
    - eapply heads_inv_subseteq; [apply delete_subseteq|done].
    - apply lookup_delete_eq. }
  destruct (sl_completed s) as [v|] eqn:Ec; [|done].
  destruct (admits_spec b v) as [ok Hok]; [by eapply Hb|]. rewrite Hok. run_bind.
  destruct ok; [|done]. eexists _, _. split; [done|]. split; [done|]. split; [done|].
  by eapply (hc_keyed _ _ _ Hi).
Qed.

Lemma head_elect_inv m tasks jobs depth b fresh :
  heads_inv m tasks jobs → jobs !! fresh = None →
  (∀ s v, m !! depth = Some s → sl_completed s = Some v →
     hs_revision_timestamp_ms v ≤ eb_head_revision_timestamp_ms b) →
  ∃ m' a e, head_elect depth b fresh m = Some (m', a, e) ∧
    match e with
    | Some j => j = fresh ∧ a = AccessJob fresh ∧
        heads_inv m' (<[j := HeadBuilding depth]> tasks) (<[j := Pending]> jobs)
    | None => heads_inv m' tasks jobs ∧
        match a with
        | AccessCompleted v => admits b v = Some true ∧ hs_depth v = depth
        | AccessJob j => jobs !! j = Some Pending
        end
    end.
Proof.
  intros Hi Hf Hb. unfold head_elect.
  assert (heads_inv (<[depth := MkHeadCacheSlot None (Some fresh)]> m)
    (<[fresh := HeadBuilding depth]> tasks) (<[fresh := Pending]> jobs)) as Hnew.
  { apply heads_inv_insert; [by apply heads_inv_spawn| |done|done].
    intros ? [= <-]. by rewrite !lookup_insert_eq. }
  destruct (m !! depth) as [s|] eqn:Em; simpl; [|by eexists _, _, _].
  destruct (sl_completed s) as [v|] eqn:Ec;
    [destruct (admits_spec b v) as [ok Hok]; [by eapply Hb|]; rewrite Hok; run_bind;
     destruct ok|]; [|destruct (sl_running s) as [j|] eqn:Er..];
    eexists _, _, _; (split; [done|]); simpl; split_and!; try done;
    try (by eapply heads_inv_evicted); try (by eapply (hc_running _ _ _ Hi)).
  by eapply (hc_keyed _ _ _ Hi).
Qed.

Lemma heads_inv_retask m tasks jobs j r0 k :
  heads_inv m tasks jobs → tasks !! j = Some (HeadBuilding k) →
  (∀ s, m !! k = Some s → sl_running s ≠ Some j) →
  heads_inv m (<[j := HeadFinishing r0]> tasks) jobs.
Proof.
  intros [H1 H2 H3 H4] Ht Hno. split; [|done|done|by eapply jobs_inv_retask].
  intros i s r Hs Hr. destruct (H1 i s r Hs Hr) as [Hj Htr]. split; [done|].
  rewrite lookup_insert_ne; [done|]. intros ->. rewrite Htr in Ht. injection Ht as ->.
  by eapply Hno.
Qed.

Lemma head_finish_inv m tasks jobs j depth result :
  heads_inv m tasks jobs → tasks !! j = Some (HeadBuilding depth) →
  (∀ v, result = Ok v → hs_depth v = depth) →
  ∃ m', head_finish depth j result m = Some m' ∧
    heads_inv m' (<[j := HeadFinishing result]> tasks) jobs.
Proof.
  intros Hi Ht Hres. unfold head_finish. destruct (m !! depth) as [s|] eqn:Em.
  2:{ exists m. split; [done|]. eapply heads_inv_retask; [done..|]. congruence. }
  case_decide as Hj.
  2:{ exists m. split; [done|]. eapply heads_inv_retask; [done..|]. intros. congruence. }
  assert (∀ c, (∀ v, c = Some v → hs_depth v = depth) →
    heads_inv (match c with
               | None => delete depth m
               | Some _ => <[depth := MkHeadCacheSlot c None]> m
               end) (<[j := HeadFinishing result]> tasks) jobs) as Hfin.
  { intros c Hc. eapply heads_inv_retask; [|done|].
    - destruct c as [v|]; [by apply heads_inv_insert|].
      eapply heads_inv_subseteq; [apply delete_subseteq|done].
    - intros x. destruct c; [rewrite lookup_insert_eq; by intros [= <-]|by rewrite lookup_delete_eq]. }
  destruct result as [v|e].
  - rewrite assert_true by auto. run_bind. eexists. split; [done|]. apply (Hfin (Some v)).
    intros ? [= <-]. auto.
  - run_bind. eexists. split; [done|]. apply Hfin. intros. by eapply (hc_keyed _ _ _ Hi).
Qed.

Lemma heads_complete_inv m tasks jobs jobs' j r :
  heads_inv m tasks jobs → tasks !! j = Some (HeadFinishing r) →
  jobs_inv jobs' (delete j tasks) → (∀ k, k ≠ j → jobs' !! k = jobs !! k) →
  heads_inv m (delete j tasks) jobs'.
Proof.
  intros [H1 H2 H3 H4] Ht Hj Hk. split; try done.
  intros k s j' Hs Hr. destruct (H1 _ _ _ Hs Hr) as [Hp Htr].
  assert (j' ≠ j) as Hne by congruence. by rewrite Hk, lookup_delete_ne.
Qed.

Lemma head_detached_jobs floor m j :
  j ∈ (head_detach_before_replay_floor floor m).2 ↔ ∃ k s, m !! k = Some s ∧ sl_running s = Some j.
Proof.
  simpl. rewrite list_elem_of_omap. split.
  - intros ([k s] & Hk%elem_of_map_to_list & Hj). eauto.
  - intros (k & s & Hk & Hr). exists (k, s). by rewrite elem_of_map_to_list.
Qed.

Lemma head_detached_NoDup floor m tasks jobs :
  heads_inv m tasks jobs → NoDup (head_detach_before_replay_floor floor m).2.
Proof.
  intros Hi. simpl. pose proof (NoDup_fst_map_to_list m) as Hn.
  assert (∀ k s, (k, s) ∈ map_to_list m → m !! k = Some s) as Hm
    by (intros k s; by apply elem_of_map_to_list).
  induction (map_to_list m) as [|[k s] l IH]; [constructor|].
  rewrite fmap_cons in Hn. apply NoDup_cons in Hn as [Hk Hn]. simpl.
  destruct (sl_running s) as [j|] eqn:Er; simpl; [|apply IH; [done|]; intros; apply Hm; by right].
  apply NoDup_cons. split; [|apply IH; [done|]; intros; apply Hm; by right].
  intros ([k' s'] & Hin & Hj)%list_elem_of_omap.
  destruct (hc_running _ _ _ Hi k s j) as [_ T1]; [apply Hm; by left|done|].
  destruct (hc_running _ _ _ Hi k' s' j) as [_ T2]; [apply Hm; by right|done|].
  rewrite T1 in T2. injection T2 as ->. apply Hk. apply list_elem_of_fmap. by exists (k', s').
Qed.

Lemma heads_invalidate_inv floor m tasks jobs :
  heads_inv m tasks jobs →
  ∃ jobs', terminalize floor jobs (head_detach_before_replay_floor floor m).2 = Some jobs' ∧
    heads_inv (head_detach_before_replay_floor floor m).1 tasks jobs' ∧ terminal_kept jobs jobs'.
Proof.
  intros Hi.
  assert (∀ j, j ∈ (head_detach_before_replay_floor floor m).2 → jobs !! j = Some Pending) as Hp.
  { intros j (k & s & Hk & Hr)%head_detached_jobs. by eapply (hc_running _ _ _ Hi). }
  destruct (terminalize_spec floor jobs (head_detach_before_replay_floor floor m).2)
    as (jobs' & Ht & Hl); [by eapply head_detached_NoDup|done|].
  destruct (terminalize_inv floor jobs tasks _ jobs' (hc_jobs _ _ _ Hi) Hp Hl) as [Hj Hk].
  exists jobs'. split_and!; [done| |done].
  assert (∀ k s, (head_detach_before_replay_floor floor m).1 !! k = Some s →
    ∃ v s0, s = MkHeadCacheSlot (Some v) None ∧ m !! k = Some s0 ∧ sl_completed s0 = Some v) as Hs.
  { intros k s. simpl. rewrite lookup_omap. destruct (m !! k) as [s0|]; [|done]. simpl.
    unfold retained_completed. destruct (sl_completed s0) as [v|] eqn:Ec; [|done].
    case_decide; [done|]. intros [= <-]. eauto. }
  split; [| | |done].
  - by intros k s j (v & s0 & -> & _ & _)%Hs.
  - by intros k s (v & s0 & -> & _ & _)%Hs.
  - intros k s v (v' & s0 & -> & Hm & Hc)%Hs. intros [= <-]. by eapply (hc_keyed _ _ _ Hi).
Qed.
End head_machine.

(** * The whole cache *)

Section machine.
Variable clock : N → N.
Hypothesis clock_mono : ∀ k1 k2, k1 ≤ k2 → clock k1 ≤ clock k2.

Record cache_inv (w : CacheWorld) : Prop := {
  ci_deltas : delta_inv clock (w_deltas w) (w_delta_tasks w) (w_delta_jobs w);
  ci_heads : heads_inv (w_heads w) (w_head_tasks w) (w_head_jobs w)
}.

Definition delta_times_past (head_ts : N) (w : CacheWorld) : Prop :=
  ∀ k s, w_deltas w !! k = Some s → ds_first_revision_timestamp_ms s ≤ head_ts.
Definition head_times_past (depth : N) (b : HeadEligibilityBoundary) (w : CacheWorld) : Prop :=
  ∀ s v, w_heads w !! depth = Some s → sl_completed s = Some v →
    hs_revision_timestamp_ms v ≤ eb_head_revision_timestamp_ms b.

(** What the callers guarantee of a step: allocated jobs are new, times do not
    run backwards, and a builder returns what it was elected for. *)
Definition enabled (ev : CacheEvent) (w : CacheWorld) : Prop :=
  match ev with
  | LookupDelta _ _ head_ts | PruneDeltas head_ts => delta_times_past head_ts w
  | ElectDelta source first_ts _ _ fresh =>
    w_delta_jobs w !! fresh = None ∧ first_ts = clock source ∧ source ≤ U64_MAX
  | FinishDelta j result =>
    ∃ source target sl, w_delta_tasks w !! j = Some (DeltaBuilding source target sl) ∧
      ∀ v, result = Ok v → cd_from_revision_id v = source ∧ cd_to_revision_id v = target ∧
        cd_size_limited v = sl
  | CompleteDelta j => ∃ r, w_delta_tasks w !! j = Some (DeltaFinishing r)
  | LookupHead depth b => depth ∈ CACHED_HEAD_WINDOW_DEPTHS ∧ head_times_past depth b w
  | ElectHead depth b fresh =>
    depth ∈ CACHED_HEAD_WINDOW_DEPTHS ∧ head_times_past depth b w ∧ w_head_jobs w !! fresh = None
  | FinishHead j result =>
    ∃ depth, w_head_tasks w !! j = Some (HeadBuilding depth) ∧ ∀ v, result = Ok v → hs_depth v = depth
  | CompleteHead j => ∃ r, w_head_tasks w !! j = Some (HeadFinishing r)
  | InvalidateReplayFloor _ => True
  end.

Definition jobs_kept (w w' : CacheWorld) : Prop :=
  terminal_kept (w_delta_jobs w) (w_delta_jobs w') ∧ terminal_kept (w_head_jobs w) (w_head_jobs w').

Lemma terminal_kept_refl {T} (jobs : gmap JobId (CacheJobState T)) : terminal_kept jobs jobs.
Proof. by intros j s. Qed.

Lemma cache_inv_new : cache_inv GraphCache_new.
Proof. by split; split; try split. Qed.

Lemma prune_inv_subseteq head_ts w :
  cache_inv w → delta_times_past head_ts w →
  ∃ m, prune_expired head_ts (w_deltas w) = Some m ∧ m ⊆ w_deltas w.
Proof.
  intros [Hd _] Hp. rewrite prune_expired_spec.
  - eexists. split; [done|]. apply map_filter_subseteq.
  - done.
  - intros k1 k2 s1 s2 H1 H2 Hle. destruct (di_clock _ _ _ _ Hd _ _ H1) as [-> _].
    destruct (di_clock _ _ _ _ Hd _ _ H2) as [-> _]. by apply clock_mono.
  - intros k [s Hs]. by eapply (di_clock _ _ _ _ Hd).
Qed.

(** No step panics; the invariant is kept; terminal jobs are never rewritten. *)
Lemma cache_step_inv ev w :
  cache_inv w → enabled ev w → ∃ w', cache_step ev w = Some w' ∧ cache_inv w' ∧ jobs_kept w w'.
Proof.
  intros Hw He. pose proof Hw as [Hd Hh]. unfold jobs_kept.
  assert (∀ m, m ⊆ w_deltas w → cache_inv (set_deltas m w)) as Hsub
    by (intros m Hm; split; [by eapply delta_inv_subseteq|done]).
  destruct ev; simpl in He; cbn [cache_step].
  - unfold delta_lookup. destruct (prune_inv_subseteq head_ts w Hw He) as (m & -> & Hm).
    eexists. split; [done|]. split; [by apply Hsub|]. split; apply terminal_kept_refl.
  - destruct (prune_inv_subseteq head_ts w Hw He) as (m & -> & Hm).
    eexists. split; [done|]. split; [by apply Hsub|]. split; apply terminal_kept_refl.
  - destruct He as (Hf & Hts & Hs).
    destruct (delta_elect_inv clock _ _ _ source first_ts target size_limited fresh Hd Hf Hts Hs)
      as (m & a & [j|] & -> & Hp); (eexists; split; [done|]).
    + destruct Hp as (-> & _ & Hp). split; [by split|]. simpl.
      split; [by apply terminal_kept_spawn|apply terminal_kept_refl].
    + split; [split; [apply Hp|done]|]. split; apply terminal_kept_refl.
  - destruct He as (source & target & sl & Ht & Hr). rewrite Ht.
    destruct (delta_finish_inv clock _ _ _ j source target sl result Hd Ht Hr) as (m & -> & Hm).
    eexists. split; [done|]. split; [by split|]. split; apply terminal_kept_refl.
  - destruct He as (r & Ht). rewrite Ht.
    destruct (complete_job_spec (w_delta_jobs w) _ j _ r (di_jobs _ _ _ _ Hd) Ht)
      as (jobs & -> & Hj & Hk & Hne & _).
    eexists. split; [done|]. split; [split; [by eapply delta_complete_inv|done]|].
    split; [done|apply terminal_kept_refl].
  - destruct He as [Hdep Hp]. rewrite assert_true by done.
    destruct (head_lookup_inv _ _ _ depth boundary Hh Hp) as (m & r & -> & Hm & _).
    eexists. split; [done|]. split; [by split|]. split; apply terminal_kept_refl.
  - destruct He as (Hdep & Hp & Hf). rewrite assert_true by done.
    destruct (head_elect_inv _ _ _ depth boundary fresh Hh Hf Hp) as (m & a & [j|] & -> & Hm);
      (eexists; split; [done|]).
    + destruct Hm as (-> & _ & Hm). split; [by split|]. simpl.
      split; [apply terminal_kept_refl|by apply terminal_kept_spawn].
    + split; [split; [done|apply Hm]|]. split; apply terminal_kept_refl.
  - destruct He as (depth & Ht & Hr). rewrite Ht.
    destruct (head_finish_inv _ _ _ j depth result Hh Ht Hr) as (m & -> & Hm).
    eexists. split; [done|]. split; [by split|]. split; apply terminal_kept_refl.
  - destruct He as (r & Ht). rewrite Ht.
    destruct (complete_job_spec (w_head_jobs w) _ j _ r (hc_jobs _ _ _ Hh) Ht)
      as (jobs & -> & Hj & Hk & Hne & _).
    eexists. split; [done|]. split; [split; [done|by eapply heads_complete_inv]|].
    split; [apply terminal_kept_refl|done].
  - destruct (delta_invalidate_inv clock floor _ _ _ Hd) as (dj & Hdj & Hdi & Hdk).
    destruct (heads_invalidate_inv floor _ _ _ Hh) as (hj & Hhj & Hhi & Hhk).
    destruct (delta_detach_before_replay_floor floor (w_deltas w)) as [dm djs].
    destruct (head_detach_before_replay_floor floor (w_heads w)) as [hm hjs].
    cbn [fst snd] in *. rewrite Hdj. run_bind. rewrite Hhj.
    eexists. split; [done|]. by split.
Qed.

(** Executions of enabled steps from an empty cache. *)
Inductive cache_reachable : CacheWorld → Prop :=
  | cache_start : cache_reachable GraphCache_new
  | cache_next ev w w' :
      cache_reachable w → enabled ev w → cache_step ev w = Some w' → cache_reachable w'.

Lemma cache_reachable_inv w : cache_reachable w → cache_inv w.
Proof.
  induction 1 as [|ev w w' _ IH He Hs]; [apply cache_inv_new|].
  destruct (cache_step_inv ev w IH He) as (w'' & Hs' & Hi & _). congruence.
Qed.
End machine.
