(* ===== verification/Ingress.v ===== *)
(** The graph-update ingress of one processing session
    ([kgi-api-ingress], channel.rs and gap.rs): a bounded channel behind a gate
    that opens with the Catchup marker, a continuity-gap signal for the
    ordinary updates the full channel refused, and the occupancy metrics.

    The channel and the watch cell are tokio's: they are the classes [Mpsc] and
    [Watch], with the documented behaviour as their laws over an observable
    view.  Every locked section of the source is one step of [ingress_step];
    the sections of one operation interleave with those of the other side. *)

From S2P Require Import Prelude Model.

(** * The channel and the watch cell *)

(** What is observable of a bounded channel: its queue, the reserved permits
    not yet used, whether the receiving half closed it, and whether every
    sender is gone. *)
Record ChannelView (A : Type) := MkChannelView {
  cv_capacity : N;
  cv_queue : list A;
  cv_permits : N;
  cv_closed : bool;
  cv_senders_gone : bool
}.
Arguments MkChannelView {A}.
Arguments cv_capacity {A}.
Arguments cv_queue {A}.
Arguments cv_permits {A}.
Arguments cv_closed {A}.
Arguments cv_senders_gone {A}.

Inductive MpscTrySendError := MpscFull | MpscClosed.
#[global] Instance MpscTrySendError_eq_dec : EqDecision MpscTrySendError.
Proof. solve_decision. Defined.

Inductive MpscTryRecvError := TryRecvEmpty | TryRecvDisconnected.

(** The state of a polled future. *)
Inductive Poll (A : Type) := Ready (a : A) | PollPending.
Arguments Ready {A} a.
Arguments PollPending {A}.

Class Mpsc (A Chan : Type) := {
  mpsc_channel : N → Chan;
  mpsc_view : Chan → ChannelView A;
  mpsc_is_closed : Chan → bool;
  mpsc_try_send : A → Chan → Chan * Result unit MpscTrySendError;
  mpsc_reserve : Chan → Chan * Poll (Result unit unit);
  mpsc_try_reserve : Chan → Chan * Result unit MpscTrySendError;
  mpsc_permit_send : A → Chan → Chan;
  mpsc_permit_drop : Chan → Chan;
  mpsc_recv : Chan → Chan * Poll (option A);
  mpsc_close : Chan → Chan;
  mpsc_drop_receiver : Chan → Chan;
  mpsc_drop_senders : Chan → Chan
}.

Definition cv_used {A} (v : ChannelView A) : N := N.of_nat (length (cv_queue v)) + cv_permits v.
Definition cv_push {A} (x : A) (permits : N) (v : ChannelView A) : ChannelView A :=
  MkChannelView (cv_capacity v) (cv_queue v ++ [x]) permits (cv_closed v) (cv_senders_gone v).
Definition cv_set_queue {A} (q : list A) (v : ChannelView A) : ChannelView A :=
  MkChannelView (cv_capacity v) q (cv_permits v) (cv_closed v) (cv_senders_gone v).
Definition cv_set_permits {A} (n : N) (v : ChannelView A) : ChannelView A :=
  MkChannelView (cv_capacity v) (cv_queue v) n (cv_closed v) (cv_senders_gone v).
Definition cv_set_closed {A} (q : list A) (v : ChannelView A) : ChannelView A :=
  MkChannelView (cv_capacity v) q (cv_permits v) true (cv_senders_gone v).
Definition cv_set_senders_gone {A} (v : ChannelView A) : ChannelView A :=
  MkChannelView (cv_capacity v) (cv_queue v) (cv_permits v) (cv_closed v) true.

(** The documented behaviour of [tokio::sync::mpsc]: the capacity counts queued
    values and reserved permits, values arrive in the order they were sent, a
    closed channel refuses new values but delivers the queued ones, and
    reception ends only once no value and no permit can still arrive. *)
Class MpscLaws (A Chan : Type) `{Mpsc A Chan} : Prop := {
  mpsc_channel_law cap : mpsc_view (mpsc_channel cap) = MkChannelView cap [] 0 false false;
  mpsc_is_closed_law c : mpsc_is_closed c = cv_closed (mpsc_view c);
  mpsc_try_send_law x c :
    let v := mpsc_view c in
    let '(c', r) := mpsc_try_send x c in
    if cv_closed v then mpsc_view c' = v ∧ r = Err MpscClosed
    else if decide (cv_used v < cv_capacity v)
    then mpsc_view c' = cv_push x (cv_permits v) v ∧ r = Ok tt
    else mpsc_view c' = v ∧ r = Err MpscFull;
  mpsc_reserve_law c :
    let v := mpsc_view c in
    let '(c', r) := mpsc_reserve c in
    if cv_closed v then mpsc_view c' = v ∧ r = Ready (Err tt)
    else if decide (cv_used v < cv_capacity v)
    then mpsc_view c' = cv_set_permits (cv_permits v + 1) v ∧ r = Ready (Ok tt)
    else mpsc_view c' = v ∧ r = PollPending;
  mpsc_try_reserve_law c :
    let v := mpsc_view c in
    let '(c', r) := mpsc_try_reserve c in
    if cv_closed v then mpsc_view c' = v ∧ r = Err MpscClosed
    else if decide (cv_used v < cv_capacity v)
    then mpsc_view c' = cv_set_permits (cv_permits v + 1) v ∧ r = Ok tt
    else mpsc_view c' = v ∧ r = Err MpscFull;
  mpsc_permit_send_law x c :
    0 < cv_permits (mpsc_view c) →
    mpsc_view (mpsc_permit_send x c) = cv_push x (cv_permits (mpsc_view c) - 1) (mpsc_view c);
  mpsc_permit_drop_law c :
    mpsc_view (mpsc_permit_drop c) = cv_set_permits (cv_permits (mpsc_view c) - 1) (mpsc_view c);
  mpsc_recv_law c :
    let v := mpsc_view c in
    let '(c', r) := mpsc_recv c in
    match cv_queue v with
    | x :: q => mpsc_view c' = cv_set_queue q v ∧ r = Ready (Some x)
    | [] => mpsc_view c' = v ∧
        r = if (cv_closed v || cv_senders_gone v) && bool_decide (cv_permits v = 0)
            then Ready None else PollPending
    end;
  mpsc_close_law c : mpsc_view (mpsc_close c) = cv_set_closed (cv_queue (mpsc_view c)) (mpsc_view c);
  mpsc_drop_receiver_law c : mpsc_view (mpsc_drop_receiver c) = cv_set_closed [] (mpsc_view c);
  mpsc_drop_senders_law c : mpsc_view (mpsc_drop_senders c) = cv_set_senders_gone (mpsc_view c)
}.

(** A watch cell seen from its single receiver. *)
Record WatchView (A : Type) := MkWatchView { wv_value : A; wv_unseen : bool; wv_sender_gone : bool }.
Arguments MkWatchView {A}.
Arguments wv_value {A}.
Arguments wv_unseen {A}.
Arguments wv_sender_gone {A}.

Class Watch (A W : Type) := {
  watch_channel : A → W;
  watch_view : W → WatchView A;
  watch_send_replace : A → W → W;
  watch_borrow : W → A;
  watch_borrow_and_update : W → W * A;
  watch_changed : W → W * Poll (Result unit unit);
  watch_drop_sender : W → W
}.

(** The documented behaviour of [tokio::sync::watch]. *)
Class WatchLaws (A W : Type) `{Watch A W} : Prop := {
  watch_channel_law a : watch_view (watch_channel a) = MkWatchView a false false;
  watch_send_replace_law a w :
    watch_view (watch_send_replace a w) = MkWatchView a true (wv_sender_gone (watch_view w));
  watch_borrow_law w : watch_borrow w = wv_value (watch_view w);
  watch_borrow_and_update_law w :
    let v := watch_view w in
    let '(w', a) := watch_borrow_and_update w in
    watch_view w' = MkWatchView (wv_value v) false (wv_sender_gone v) ∧ a = wv_value v;
  watch_changed_law w :
    let v := watch_view w in
    let '(w', r) := watch_changed w in
    if wv_unseen v then watch_view w' = MkWatchView (wv_value v) false (wv_sender_gone v) ∧ r = Ready (Ok tt)
    else watch_view w' = v ∧ r = if wv_sender_gone v then Ready (Err tt) else PollPending;
  watch_drop_sender_law w :
    watch_view (watch_drop_sender w) = MkWatchView (wv_value (watch_view w)) (wv_unseen (watch_view w)) true
}.

(** * Data *)

Definition GRAPH_UPDATE_CHANNEL_CAPACITY : N := 1024.

Inductive GraphUpdateGateState := AwaitingCatchup | GateOpen.
#[global] Instance GraphUpdateGateState_eq_dec : EqDecision GraphUpdateGateState.
Proof. solve_decision. Defined.

Inductive GraphUpdateOfferOutcome := SuppressedAwaitingCatchup | Enqueued | GapReported.
Inductive GraphUpdateProducerError := ReceiverClosed.
Inductive GraphUpdateTrySendError := TrySendFull | TrySendClosed.

Inductive GraphUpdateObservation `{KaspaHash} :=
  | ObsUpdate (update : GraphUpdate)
  | ObsGap (generation : N).

Record GraphUpdateIngressMetricsSnapshot := MkIngressSnapshot {
  ms_current_occupancy : N;
  ms_high_water_mark : N;
  ms_reported_gap_count : N;
  ms_receiver_closure_count : N
}.

Record GraphUpdateChannelStateInner := MkChannelStateInner {
  ci_current_occupancy : N;
  ci_high_water_mark : N;
  ci_reported_gap_count : N;
  ci_receiver_closed : bool;
  ci_receiver_closure_count : N
}.
Definition ChannelStateInner_default : GraphUpdateChannelStateInner := MkChannelStateInner 0 0 0 false 0.

(** * The locked sections of the channel state *)

Definition advance_gap_generation (s : GraphUpdateChannelStateInner) :
    option (GraphUpdateChannelStateInner * N) :=
  generation ← checked_add (ci_reported_gap_count s) 1;
  Some (MkChannelStateInner (ci_current_occupancy s) (ci_high_water_mark s) generation
          (ci_receiver_closed s) (ci_receiver_closure_count s), generation).

Definition snapshot (s : GraphUpdateChannelStateInner) : GraphUpdateIngressMetricsSnapshot :=
  MkIngressSnapshot (ci_current_occupancy s) (ci_high_water_mark s) (ci_reported_gap_count s)
    (ci_receiver_closure_count s).

Definition record_enqueue (s : GraphUpdateChannelStateInner) : option GraphUpdateChannelStateInner :=
  occupancy ← checked_add (ci_current_occupancy s) 1;
  Some (MkChannelStateInner occupancy (ci_high_water_mark s `max` occupancy) (ci_reported_gap_count s)
          (ci_receiver_closed s) (ci_receiver_closure_count s)).

Definition record_dequeue (s : GraphUpdateChannelStateInner) : option GraphUpdateChannelStateInner :=
  occupancy ← checked_sub (ci_current_occupancy s) 1;
  Some (MkChannelStateInner occupancy (ci_high_water_mark s) (ci_reported_gap_count s)
          (ci_receiver_closed s) (ci_receiver_closure_count s)).

Definition record_receiver_closed (s : GraphUpdateChannelStateInner) :
    option GraphUpdateChannelStateInner :=
  if ci_receiver_closed s then Some s
  else count ← checked_add (ci_receiver_closure_count s) 1;
    Some (MkChannelStateInner (ci_current_occupancy s) (ci_high_water_mark s) (ci_reported_gap_count s)
            true count).

Definition clear_occupancy (s : GraphUpdateChannelStateInner) : GraphUpdateChannelStateInner :=
  MkChannelStateInner 0 (ci_high_water_mark s) (ci_reported_gap_count s) (ci_receiver_closed s)
    (ci_receiver_closure_count s).

(** * The consumer's view of the gap generation *)

Record GraphUpdateGap (W : Type) := MkGraphUpdateGap {
  gap_generation : W;
  gap_observed_generation : N;
  gap_reporter_closed : bool
}.
Arguments MkGraphUpdateGap {W}.
Arguments gap_generation {W}.
Arguments gap_observed_generation {W}.
Arguments gap_reporter_closed {W}.

Section Ingress.
Context `{KaspaHash} {Chan W : Type} `{Mpsc GraphUpdate Chan} `{Watch N W}.

Definition generation (g : GraphUpdateGap W) : N := watch_borrow (gap_generation g).

Definition acknowledge_current (g : GraphUpdateGap W) : GraphUpdateGap W * N :=
  let '(w, generation) := watch_borrow_and_update (gap_generation g) in
  (MkGraphUpdateGap w generation (gap_reporter_closed g), generation).

Definition take_pending (g : GraphUpdateGap W) : GraphUpdateGap W * option N :=
  let observed_generation := gap_observed_generation g in
  let '(g, generation) := acknowledge_current g in
  (g, if decide (generation = observed_generation) then None else Some generation).

(** One poll of [changed]. *)
Definition gap_changed (g : GraphUpdateGap W) : GraphUpdateGap W * Poll (option N) :=
  if gap_reporter_closed g then (g, Ready None)
  else
    let '(w, r) := watch_changed (gap_generation g) in
    match r with
    | PollPending => (MkGraphUpdateGap w (gap_observed_generation g) (gap_reporter_closed g), PollPending)
    | Ready (Ok _) =>
      let '(g, o) := take_pending (MkGraphUpdateGap w (gap_observed_generation g) (gap_reporter_closed g)) in
      (g, Ready o)
    | Ready (Err _) =>
      let '(g, o) := take_pending (MkGraphUpdateGap w (gap_observed_generation g) true) in
      (g, Ready o)
    end.

(** * The producer's locked sections *)

Definition try_send (update : GraphUpdate) (c : Chan) (s : GraphUpdateChannelStateInner) :
    option (Chan * GraphUpdateChannelStateInner * Result unit GraphUpdateTrySendError) :=
  if ci_receiver_closed s then Some (c, s, Err TrySendClosed)
  else
    let '(c, r) := mpsc_try_send update c in
    match r with
    | Ok _ => s ← record_enqueue s; Some (c, s, Ok tt)
    | Err MpscFull => Some (c, s, Err TrySendFull)
    | Err MpscClosed => Some (c, s, Err TrySendClosed)
    end.

(** The permit is consumed, by [send] or by its drop at the early return. *)
Definition send_reserved (update : GraphUpdate) (c : Chan) (s : GraphUpdateChannelStateInner) :
    option (Chan * GraphUpdateChannelStateInner * Result unit GraphUpdateProducerError) :=
  if ci_receiver_closed s then Some (mpsc_permit_drop c, s, Err ReceiverClosed)
  else s ← record_enqueue s; Some (mpsc_permit_send update c, s, Ok tt).

(** [close], and the drop of the receiver, under the channel-state lock. *)
Definition receiver_close (c : Chan) (s : GraphUpdateChannelStateInner) :
    option (Chan * GraphUpdateChannelStateInner) :=
  s ← record_receiver_closed s; Some (mpsc_close c, s).

Definition receiver_drop (c : Chan) (s : GraphUpdateChannelStateInner) :
    option (Chan * GraphUpdateChannelStateInner) :=
  s ← record_receiver_closed s; Some (mpsc_drop_receiver (mpsc_close c), clear_occupancy s).

(** * The session *)

(** An ordinary offer in progress; it holds the gate lock throughout. *)
Inductive OfferPhase :=
  | OfferSend (update : GraphUpdate)
  | OfferAdvance (update : GraphUpdate)
  | OfferReplace (update : GraphUpdate) (next : N).

(** What became of an update handed to the producer. *)
Inductive Fate :=
  | Suppressed (update : GraphUpdate)
  | Accepted (update : GraphUpdate)
  | Lost (update : GraphUpdate)
  | Refused (update : GraphUpdate).

(** The shared state, the sections in progress, and the record of what was
    produced and consumed. *)
Record Ingress := MkIngress {
  in_gate : GraphUpdateGateState;
  in_chan : Chan;
  in_state : GraphUpdateChannelStateInner;
  in_gap : GraphUpdateGap W;
  in_offer : option OfferPhase;
  in_live_waiting : N;
  in_popped : option GraphUpdate;
  in_receiver_dropped : bool;
  in_fates : list Fate;
  in_received : list GraphUpdate
}.

(** [graph_update_channel]. *)
Definition graph_update_channel : Ingress :=
  MkIngress AwaitingCatchup (mpsc_channel GRAPH_UPDATE_CHANNEL_CAPACITY) ChannelStateInner_default
    (MkGraphUpdateGap (watch_channel 0) 0 false) None 0 None false [] [].

Definition set_shared (c : Chan) (s : GraphUpdateChannelStateInner) (i : Ingress) : Ingress :=
  MkIngress (in_gate i) c s (in_gap i) (in_offer i) (in_live_waiting i) (in_popped i)
    (in_receiver_dropped i) (in_fates i) (in_received i).
Definition set_gate (g : GraphUpdateGateState) (i : Ingress) : Ingress :=
  MkIngress g (in_chan i) (in_state i) (in_gap i) (in_offer i) (in_live_waiting i) (in_popped i)
    (in_receiver_dropped i) (in_fates i) (in_received i).
Definition set_gap (g : GraphUpdateGap W) (i : Ingress) : Ingress :=
  MkIngress (in_gate i) (in_chan i) (in_state i) g (in_offer i) (in_live_waiting i) (in_popped i)
    (in_receiver_dropped i) (in_fates i) (in_received i).
Definition set_offer (o : option OfferPhase) (i : Ingress) : Ingress :=
  MkIngress (in_gate i) (in_chan i) (in_state i) (in_gap i) o (in_live_waiting i) (in_popped i)
    (in_receiver_dropped i) (in_fates i) (in_received i).
Definition set_live_waiting (n : N) (i : Ingress) : Ingress :=
  MkIngress (in_gate i) (in_chan i) (in_state i) (in_gap i) (in_offer i) n (in_popped i)
    (in_receiver_dropped i) (in_fates i) (in_received i).
Definition set_popped (o : option GraphUpdate) (i : Ingress) : Ingress :=
  MkIngress (in_gate i) (in_chan i) (in_state i) (in_gap i) (in_offer i) (in_live_waiting i) o
    (in_receiver_dropped i) (in_fates i) (in_received i).
Definition set_receiver_dropped (i : Ingress) : Ingress :=
  MkIngress (in_gate i) (in_chan i) (in_state i) (in_gap i) (in_offer i) (in_live_waiting i) (in_popped i)
    true (in_fates i) (in_received i).
Definition log_fate (f : Fate) (i : Ingress) : Ingress :=
  MkIngress (in_gate i) (in_chan i) (in_state i) (in_gap i) (in_offer i) (in_live_waiting i) (in_popped i)
    (in_receiver_dropped i) (in_fates i ++ [f]) (in_received i).
Definition log_received (u : GraphUpdate) (i : Ingress) : Ingress :=
  MkIngress (in_gate i) (in_chan i) (in_state i) (in_gap i) (in_offer i) (in_live_waiting i) (in_popped i)
    (in_receiver_dropped i) (in_fates i) (in_received i ++ [u]).

(** ** Producer operations *)

(** The sections of [offer_ordinary]: the closed and gate checks, the send, and
    the two sections of [report].  Each returns the outcome when the offer is
    over. *)
Definition offer_begin (update : GraphUpdate) (i : Ingress) :
    Ingress * option (Result GraphUpdateOfferOutcome GraphUpdateProducerError) :=
  if mpsc_is_closed (in_chan i) then (log_fate (Refused update) i, Some (Err ReceiverClosed))
  else if decide (in_gate i = AwaitingCatchup)
  then (log_fate (Suppressed update) i, Some (Ok SuppressedAwaitingCatchup))
  else (set_offer (Some (OfferSend update)) i, None).

Definition offer_continue (p : OfferPhase) (i : Ingress) :
    option (Ingress * option (Result GraphUpdateOfferOutcome GraphUpdateProducerError)) :=
  match p with
  | OfferSend update =>
    '(c, s, r) ← try_send update (in_chan i) (in_state i);
    let i := set_shared c s i in
    Some match r with
         | Ok _ => (log_fate (Accepted update) (set_offer None i), Some (Ok Enqueued))
         | Err TrySendFull => (set_offer (Some (OfferAdvance update)) i, None)
         | Err TrySendClosed => (log_fate (Refused update) (set_offer None i), Some (Err ReceiverClosed))
         end
  | OfferAdvance update =>
    '(s, next) ← advance_gap_generation (in_state i);
    Some (set_offer (Some (OfferReplace update next)) (set_shared (in_chan i) s i), None)
  | OfferReplace update next =>
    let g := in_gap i in
    let g := MkGraphUpdateGap (watch_send_replace next (gap_generation g)) (gap_observed_generation g)
               (gap_reporter_closed g) in
    Some (log_fate (Lost update) (set_offer None (set_gap g i)), Some (Ok GapReported))
  end.

(** [offer_ordinary] run without interleaving. *)
Definition offer_ordinary (update : GraphUpdate) (i : Ingress) :
    option (Ingress * Result GraphUpdateOfferOutcome GraphUpdateProducerError) :=
  match offer_begin update i with
  | (i, Some r) => Some (i, r)
  | (i, None) =>
    '(i, r) ← offer_continue (OfferSend update) i;
    match r with
    | Some r => Some (i, r)
    | None =>
      '(i, _) ← offer_continue (OfferAdvance update) i;
      match in_offer i with
      | Some p => '(i, r) ← offer_continue p i; r ← r; Some (i, r)
      | None => None
      end
    end
  end.

Definition offer_block_committed (update : BlockCommitted) := offer_ordinary (GraphUpdate_BlockCommitted update).
Definition offer_vspc_committed (update : VspcCommitted) := offer_ordinary (GraphUpdate_VspcCommitted update).

Definition publish_catchup (i : Ingress) : option (Ingress * Result unit GraphUpdateProducerError) :=
  _ ← assert_ (in_gate i = AwaitingCatchup);
  '(c, s, r) ← try_send GraphUpdate_Catchup (in_chan i) (in_state i);
  let i := set_shared c s i in
  match r with
  | Ok _ => Some (log_fate (Accepted GraphUpdate_Catchup) (set_gate GateOpen i), Ok tt)
  | Err TrySendClosed => Some (log_fate (Refused GraphUpdate_Catchup) i, Err ReceiverClosed)
  | Err TrySendFull => None
  end.

(** [publish_live]: the gate check, the poll of the reservation, the send. *)
Definition publish_live_begin (i : Ingress) : option Ingress :=
  _ ← assert_ (in_gate i = GateOpen);
  Some (set_live_waiting (in_live_waiting i + 1) i).

Definition publish_live_reserve (i : Ingress) : Ingress * Poll (Result unit GraphUpdateProducerError) :=
  let '(c, r) := mpsc_reserve (in_chan i) in
  let i := set_shared c (in_state i) i in
  match r with
  | PollPending => (i, PollPending)
  | Ready (Ok _) => (set_live_waiting (in_live_waiting i - 1) i, Ready (Ok tt))
  | Ready (Err _) => (log_fate (Refused GraphUpdate_Live) (set_live_waiting (in_live_waiting i - 1) i), Ready (Err ReceiverClosed))
  end.

Definition publish_live_send (i : Ingress) : option (Ingress * Result unit GraphUpdateProducerError) :=
  '(c, s, r) ← send_reserved GraphUpdate_Live (in_chan i) (in_state i);
  let i := set_shared c s i in
  Some (log_fate (match r with Ok _ => Accepted GraphUpdate_Live | Err _ => Refused GraphUpdate_Live end) i, r).

(** ** Consumer operations *)

(** The pop of [recv_update], [try_recv_update] and [next_observation], then
    the accounting that follows it under the lock. *)
Definition recv_pop (i : Ingress) : Ingress * Poll (option GraphUpdate) :=
  let '(c, r) := mpsc_recv (in_chan i) in
  let i := set_shared c (in_state i) i in
  match r with
  | Ready (Some u) => (set_popped (Some u) i, r)
  | _ => (i, r)
  end.

Definition recv_account (u : GraphUpdate) (i : Ingress) : option Ingress :=
  s ← record_dequeue (in_state i);
  Some (log_received u (set_popped None (set_shared (in_chan i) s i))).

(** One poll of [recv_update]. *)
Definition recv_update (i : Ingress) : option (Ingress * Poll (option GraphUpdate)) :=
  let '(i, r) := recv_pop i in
  match r with
  | Ready (Some u) => i ← recv_account u i; Some (i, r)
  | _ => Some (i, r)
  end.

(** [try_recv_update]: what a poll would deliver, without waiting. *)
Definition try_recv_update (i : Ingress) : option (Ingress * Result GraphUpdate MpscTryRecvError) :=
  '(i, r) ← recv_update i;
  Some (i, match r with
           | Ready (Some u) => Ok u
           | Ready None => Err TryRecvDisconnected
           | PollPending => Err TryRecvEmpty
           end).

(** One poll of [next_observation]: the loop runs again only when the reporter
    is found closed, and then it no longer waits for it. *)
Fixpoint next_observation (fuel : nat) (i : Ingress) : option (Ingress * Poll (option GraphUpdateObservation)) :=
  match fuel with
  | O => None
  | S fuel =>
    let '(g, pending) := take_pending (in_gap i) in
    let i := set_gap g i in
    match pending with
    | Some generation => Some (i, Ready (Some (ObsGap generation)))
    | None =>
      let '(g, changed) := if gap_reporter_closed g then (g, PollPending) else gap_changed g in
      let i := set_gap g i in
      match changed with
      | Ready (Some generation) => Some (i, Ready (Some (ObsGap generation)))
      | Ready None => next_observation fuel i
      | PollPending =>
        '(i, r) ← recv_update i;
        Some (i, match r with
                 | Ready (Some u) => Ready (Some (ObsUpdate u))
                 | Ready None => Ready None
                 | PollPending => PollPending
                 end)
      end
    end
  end.

(** One poll of [wait_for_gap]. *)
Fixpoint wait_for_gap (fuel : nat) (g : GraphUpdateGap W) : option (GraphUpdateGap W * Poll (option N)) :=
  match fuel with
  | O => None
  | S fuel =>
    let '(g, pending) := take_pending g in
    match pending with
    | Some generation => Some (g, Ready (Some generation))
    | None =>
      let '(g, changed) := gap_changed g in
      match changed with
      | Ready (Some generation) => Some (g, Ready (Some generation))
      | Ready None => if gap_reporter_closed g then Some (g, Ready None) else wait_for_gap fuel g
      | PollPending => Some (g, PollPending)
      end
    end
  end.

(** ** Interleaving *)

Inductive IngressEvent :=
  | EvOfferBlock (update : BlockCommitted)
  | EvOfferVspc (update : VspcCommitted)
  | EvOfferContinue
  | EvCatchup
  | EvLiveBegin
  | EvLiveReserve
  | EvLiveSend
  | EvRecvPop
  | EvRecvAccount
  | EvTakePending
  | EvAcknowledge
  | EvGapChanged
  | EvClose
  | EvDropReceiver
  | EvDropProducers.

(** The receiver is owned by one task, which is between the pop and the
    accounting when [in_popped] holds a value. *)
Definition receiver_idle (i : Ingress) : bool :=
  negb (in_receiver_dropped i) && bool_decide (in_popped i = None).

(** A producer can take the gate: no offer holds it and a producer exists. *)
Definition gate_free (i : Ingress) : bool :=
  match in_offer i with Some _ => false | None => negb (cv_senders_gone (mpsc_view (in_chan i))) end.

(** One step; [None] is a panic, an event that is not enabled changes nothing. *)
Definition ingress_step (ev : IngressEvent) (i : Ingress) : option Ingress :=
  match ev with
  | EvOfferBlock update =>
    if gate_free i then Some (offer_begin (GraphUpdate_BlockCommitted update) i).1 else Some i
  | EvOfferVspc update =>
    if gate_free i then Some (offer_begin (GraphUpdate_VspcCommitted update) i).1 else Some i
  | EvOfferContinue =>
    match in_offer i with Some p => fst <$> offer_continue p i | None => Some i end
  | EvCatchup => if gate_free i then fst <$> publish_catchup i else Some i
  | EvLiveBegin => if gate_free i then publish_live_begin i else Some i
  | EvLiveReserve => if decide (0 < in_live_waiting i) then Some (publish_live_reserve i).1 else Some i
  | EvLiveSend =>
    if decide (0 < cv_permits (mpsc_view (in_chan i))) then fst <$> publish_live_send i else Some i
  | EvRecvPop => if receiver_idle i then Some (recv_pop i).1 else Some i
  | EvRecvAccount => match in_popped i with Some u => recv_account u i | None => Some i end
  | EvTakePending => if receiver_idle i then Some (set_gap (take_pending (in_gap i)).1 i) else Some i
  | EvAcknowledge => if receiver_idle i then Some (set_gap (acknowledge_current (in_gap i)).1 i) else Some i
  | EvGapChanged => if receiver_idle i then Some (set_gap (gap_changed (in_gap i)).1 i) else Some i
  | EvClose =>
    if receiver_idle i
    then '(c, s) ← receiver_close (in_chan i) (in_state i); Some (set_shared c s i) else Some i
  | EvDropReceiver =>
    if receiver_idle i
    then '(c, s) ← receiver_drop (in_chan i) (in_state i);
         Some (set_receiver_dropped (set_shared c s i)) else Some i
  | EvDropProducers =>
    if gate_free i && bool_decide (in_live_waiting i = 0 ∧ cv_permits (mpsc_view (in_chan i)) = 0)
    then
      let g := in_gap i in
      Some (set_gap (MkGraphUpdateGap (watch_drop_sender (gap_generation g)) (gap_observed_generation g)
                       (gap_reporter_closed g))
              (set_shared (mpsc_drop_senders (in_chan i)) (in_state i) i))
    else Some i
  end.
End Ingress.
Arguments Ingress : clear implicits.
