(* ===== verification/IngressSafety.v ===== *)
(** Invariant of the graph-update ingress along every interleaving, and a
    concrete channel and watch cell that satisfy the assumed laws. *)

From S2P Require Import Prelude Model Ingress.

(** * Concrete channel and watch cell *)

#[global] Instance view_mpsc A : Mpsc A (ChannelView A) := {
  mpsc_channel cap := MkChannelView cap [] 0 false false;
  mpsc_view v := v;
  mpsc_is_closed v := cv_closed v;
  mpsc_try_send x v :=
    if cv_closed v then (v, Err MpscClosed)
    else if decide (cv_used v < cv_capacity v) then (cv_push x (cv_permits v) v, Ok tt) else (v, Err MpscFull);
  mpsc_reserve v :=
    if cv_closed v then (v, Ready (Err tt))
    else if decide (cv_used v < cv_capacity v)
    then (cv_set_permits (cv_permits v + 1) v, Ready (Ok tt)) else (v, PollPending);
  mpsc_try_reserve v :=
    if cv_closed v then (v, Err MpscClosed)
    else if decide (cv_used v < cv_capacity v)
    then (cv_set_permits (cv_permits v + 1) v, Ok tt) else (v, Err MpscFull);
  mpsc_permit_send x v := cv_push x (cv_permits v - 1) v;
  mpsc_permit_drop v := cv_set_permits (cv_permits v - 1) v;
  mpsc_recv v :=
    match cv_queue v with
    | x :: q => (cv_set_queue q v, Ready (Some x))
    | [] => (v, if (cv_closed v || cv_senders_gone v) && bool_decide (cv_permits v = 0)
                then Ready None else PollPending)
    end;
  mpsc_close v := cv_set_closed (cv_queue v) v;
  mpsc_drop_receiver v := cv_set_closed [] v;
  mpsc_drop_senders v := cv_set_senders_gone v
}.

#[global] Instance view_mpsc_laws A : MpscLaws A (ChannelView A).
Proof.
  split; intros; try subst v; simpl; try done.
  - destruct (cv_closed c); [done|]. repeat case_decide; done.
  - destruct (cv_closed c); [done|]. repeat case_decide; done.
  - destruct (cv_closed c); [done|]. repeat case_decide; done.
  - by destruct (cv_queue c).
Qed.

#[global] Instance view_watch A : Watch A (WatchView A) := {
  watch_channel a := MkWatchView a false false;
  watch_view v := v;
  watch_send_replace a v := MkWatchView a true (wv_sender_gone v);
  watch_borrow v := wv_value v;
  watch_borrow_and_update v := (MkWatchView (wv_value v) false (wv_sender_gone v), wv_value v);
  watch_changed v :=
    if wv_unseen v then (MkWatchView (wv_value v) false (wv_sender_gone v), Ready (Ok tt))
    else (v, if wv_sender_gone v then Ready (Err tt) else PollPending);
  watch_drop_sender v := MkWatchView (wv_value v) (wv_unseen v) true
}.

#[global] Instance view_watch_laws A : WatchLaws A (WatchView A).
Proof. split; intros; try subst v; simpl; try done. by destruct (wv_unseen w). Qed.

Section IngressSafety.
Context `{KaspaHash} {Chan W : Type} `{MpscLaws GraphUpdate Chan} `{WatchLaws N W}.
Notation Ingress := (Ingress _ Chan W).
Implicit Types i : Ingress.

(** * What the session did *)

Definition accepted (fs : list Fate) : list GraphUpdate :=
  omap (λ f, match f with Accepted u => Some u | _ => None end) fs.
Definition lost (fs : list Fate) : list GraphUpdate :=
  omap (λ f, match f with Lost u => Some u | _ => None end) fs.
(** The updates the open session took responsibility for, in order. *)
Definition carried (fs : list Fate) : list GraphUpdate :=
  omap (λ f, match f with Accepted u | Lost u => Some u | _ => None end) fs.

Definition ordinary (u : GraphUpdate) : Prop :=
  match u with GraphUpdate_BlockCommitted _ | GraphUpdate_VspcCommitted _ => True | _ => False end.
Definition not_catchup (u : GraphUpdate) : Prop :=
  match u with GraphUpdate_Catchup => False | _ => True end.

Definition offered_update (p : OfferPhase) : GraphUpdate :=
  match p with OfferSend u | OfferAdvance u | OfferReplace u _ => u end.

Inductive ingress_reachable : Ingress → Prop :=
  | reach_new : ingress_reachable graph_update_channel
  | reach_step ev i i' : ingress_reachable i → ingress_step ev i = Some i' → ingress_reachable i'.

(** * The invariant *)

Definition count (fs : list GraphUpdate) : N := N.of_nat (length fs).
Definition popped_list (i : Ingress) : list GraphUpdate := option_list (in_popped i).
(** Values handed to the channel and not yet accounted for by the receiver. *)
Definition outstanding (i : Ingress) : list GraphUpdate :=
  popped_list i ++ cv_queue (mpsc_view (in_chan i)).

Record channel_inv i : Prop := {
  ch_capacity : cv_capacity (mpsc_view (in_chan i)) = GRAPH_UPDATE_CHANNEL_CAPACITY;
  ch_used : cv_used (mpsc_view (in_chan i)) ≤ GRAPH_UPDATE_CHANNEL_CAPACITY;
  ch_closed : ci_receiver_closed (in_state i) = cv_closed (mpsc_view (in_chan i));
  ch_closures : ci_receiver_closure_count (in_state i) =
                if ci_receiver_closed (in_state i) then 1 else 0;
  ch_occupancy : ci_current_occupancy (in_state i) = count (outstanding i);
  ch_high_water : ci_current_occupancy (in_state i) ≤ ci_high_water_mark (in_state i)
                  ≤ GRAPH_UPDATE_CHANNEL_CAPACITY + 1;
  ch_dropped : in_receiver_dropped i = true →
               outstanding i = [] ∧ cv_closed (mpsc_view (in_chan i)) = true
}.

Record order_inv i : Prop := {
  or_stream : if in_receiver_dropped i then in_received i `prefix_of` accepted (in_fates i)
              else accepted (in_fates i) = in_received i ++ outstanding i;
  or_awaiting : in_gate i = AwaitingCatchup →
                accepted (in_fates i) = [] ∧ lost (in_fates i) = [] ∧ in_offer i = None ∧
                in_live_waiting i = 0 ∧ cv_permits (mpsc_view (in_chan i)) = 0 ∧
                carried (in_fates i) = [];
  or_open : in_gate i = GateOpen →
            ∃ us, carried (in_fates i) = GraphUpdate_Catchup :: us ∧ Forall not_catchup us
                  ∧ ∃ as_, accepted (in_fates i) = GraphUpdate_Catchup :: as_;
  or_offer p : in_offer i = Some p → ordinary (offered_update p) ∧ in_gate i = GateOpen;
  or_lost : Forall ordinary (lost (in_fates i))
}.

(** The losses announced so far. *)
Definition announced (i : Ingress) : N := wv_value (watch_view (gap_generation (in_gap i))).

(** The generation an offer has taken and not yet published. *)
Definition announcing (i : Ingress) : option N :=
  match in_offer i with Some (OfferReplace _ next) => Some next | _ => None end.

Record gap_inv i : Prop := {
  gp_announced : announced i = count (lost (in_fates i));
  gp_reported : ci_reported_gap_count (in_state i) =
                announced i + match announcing i with Some _ => 1 | None => 0 end;
  gp_bound : ci_reported_gap_count (in_state i) ≤ U64_MAX;
  gp_next next : announcing i = Some next → next = announced i + 1;
  gp_observed : gap_observed_generation (in_gap i) ≤ announced i;
  gp_unseen : wv_unseen (watch_view (gap_generation (in_gap i))) =
              bool_decide (gap_observed_generation (in_gap i) ≠ announced i);
  gp_gone : wv_sender_gone (watch_view (gap_generation (in_gap i))) =
            cv_senders_gone (mpsc_view (in_chan i));
  gp_reporter : gap_reporter_closed (in_gap i) = true →
                wv_sender_gone (watch_view (gap_generation (in_gap i))) = true;
  gp_producers : cv_senders_gone (mpsc_view (in_chan i)) = true →
                 in_offer i = None ∧ in_live_waiting i = 0 ∧ cv_permits (mpsc_view (in_chan i)) = 0
}.

Record ingress_inv i : Prop := {
  ig_channel : channel_inv i;
  ig_order : order_inv i;
  ig_gap : gap_inv i
}.

(** ** Logged fates *)

Lemma accepted_app fs1 fs2 : accepted (fs1 ++ fs2) = accepted fs1 ++ accepted fs2.
Proof. apply omap_app. Qed.
Lemma lost_app fs1 fs2 : lost (fs1 ++ fs2) = lost fs1 ++ lost fs2.
Proof. apply omap_app. Qed.
Lemma carried_app fs1 fs2 : carried (fs1 ++ fs2) = carried fs1 ++ carried fs2.
Proof. apply omap_app. Qed.

Lemma count_app l1 l2 : count (l1 ++ l2) = count l1 + count l2.
Proof. unfold count. rewrite length_app. lia. Qed.

Lemma ordinary_not_catchup u : ordinary u → not_catchup u.
Proof. by destruct u. Qed.

Lemma graph_update_channel_inv : ingress_inv graph_update_channel.
Proof.
  split; split; unfold announced, outstanding, cv_used; simpl;
    rewrite ?mpsc_channel_law, ?watch_channel_law; try done.
Qed.

(** ** The shared sections *)

Lemma record_enqueue_spec i :
  channel_inv i →
  record_enqueue (in_state i) =
    Some (MkChannelStateInner (ci_current_occupancy (in_state i) + 1)
            (ci_high_water_mark (in_state i) `max` (ci_current_occupancy (in_state i) + 1))
            (ci_reported_gap_count (in_state i)) (ci_receiver_closed (in_state i))
            (ci_receiver_closure_count (in_state i))).
Proof.
  intros [_ _ _ _ _ Hw _]. unfold record_enqueue. rewrite checked_add_Some; [done|].
  unfold GRAPH_UPDATE_CHANNEL_CAPACITY, U64_MAX in *. lia.
Qed.

(** An accepted value is appended to the queue and counted. *)
Definition pushed (u : GraphUpdate) (permits : N) i (c : Chan) (s : GraphUpdateChannelStateInner) : Prop :=
  mpsc_view c = cv_push u permits (mpsc_view (in_chan i)) ∧
  cv_closed (mpsc_view (in_chan i)) = false ∧
  record_enqueue (in_state i) = Some s.

Lemma try_send_spec u i :
  channel_inv i →
  ∃ c s r, try_send u (in_chan i) (in_state i) = Some (c, s, r) ∧
    match r with
    | Ok _ => pushed u (cv_permits (mpsc_view (in_chan i))) i c s ∧
              cv_used (mpsc_view (in_chan i)) < GRAPH_UPDATE_CHANNEL_CAPACITY
    | Err TrySendFull => mpsc_view c = mpsc_view (in_chan i) ∧ s = in_state i ∧
              cv_used (mpsc_view (in_chan i)) = GRAPH_UPDATE_CHANNEL_CAPACITY
    | Err TrySendClosed => mpsc_view c = mpsc_view (in_chan i) ∧ s = in_state i ∧
              cv_closed (mpsc_view (in_chan i)) = true
    end.
Proof.
  intros HI. pose proof (record_enqueue_spec i HI) as He. destruct HI as [Hcap Hused Hclosed _ _ _ _].
  unfold try_send, pushed. rewrite Hclosed.
  pose proof (mpsc_try_send_law u (in_chan i)) as Hs. cbv zeta in Hs.
  destruct (cv_closed (mpsc_view (in_chan i))) eqn:Ec; [by exists (in_chan i), (in_state i), (Err TrySendClosed)|].
  destruct (mpsc_try_send u (in_chan i)) as [c' r]. rewrite Hcap in Hs.
  case_decide; destruct Hs as [Hv ->].
  - rewrite He. simpl. by eexists _, _, (Ok tt).
  - exists c', (in_state i), (Err TrySendFull). split_and!; [done..|lia].
Qed.

(** ** The channel part is kept *)

Lemma outstanding_chan i i' :
  mpsc_view (in_chan i') = mpsc_view (in_chan i) → in_popped i' = in_popped i →
  outstanding i' = outstanding i.
Proof. unfold outstanding, popped_list. by intros -> ->. Qed.

Lemma channel_inv_frame i i' :
  channel_inv i →
  mpsc_view (in_chan i') = mpsc_view (in_chan i) → in_state i' = in_state i →
  in_popped i' = in_popped i → in_receiver_dropped i' = in_receiver_dropped i → channel_inv i'.
Proof.
  intros [] Ec Es Ep Ed. pose proof (outstanding_chan i i' Ec Ep) as Eo.
  split; rewrite ?Eo, ?Ec, ?Es, ?Ed; done.
Qed.

Lemma pushed_outstanding u permits i i' s :
  pushed u permits i (in_chan i') s → in_popped i' = in_popped i →
  outstanding i' = outstanding i ++ [u].
Proof.
  intros (Ev & _) Ep. unfold outstanding, popped_list. rewrite Ev, Ep. simpl. by rewrite (assoc_L (++)).
Qed.

Lemma channel_inv_pushed u permits i i' :
  channel_inv i → pushed u permits i (in_chan i') (in_state i') →
  cv_used (mpsc_view (in_chan i)) + permits < GRAPH_UPDATE_CHANNEL_CAPACITY + cv_permits (mpsc_view (in_chan i)) →
  in_popped i' = in_popped i → in_receiver_dropped i' = in_receiver_dropped i → channel_inv i'.
Proof.
  intros HI Hp Hu Ep Ed. pose proof (pushed_outstanding _ _ _ _ _ Hp Ep) as Eo.
  pose proof (record_enqueue_spec i HI) as He. destruct Hp as (Ev & Ec & Hs). rewrite He in Hs.
  injection Hs as Hs. destruct HI.
  assert (count (outstanding i) ≤ GRAPH_UPDATE_CHANNEL_CAPACITY) as Hq.
  { unfold outstanding, popped_list, cv_used in *. rewrite count_app. unfold count.
    destruct (in_popped i); simpl; lia. }
  split; rewrite ?Eo, ?Ev, <-?Hs, ?Ed, ?count_app; simpl; try done.
  - unfold cv_used in *. simpl. rewrite length_app. simpl. lia.
  - rewrite ch_occupancy0. done.
  - rewrite ch_occupancy0 in *. lia.
  - intros [_ ?]%ch_dropped0. congruence.
Qed.

(** ** Steps of the producers *)

Definition same_fates i i' : Prop :=
  accepted (in_fates i') = accepted (in_fates i) ∧ lost (in_fates i') = lost (in_fates i) ∧
  carried (in_fates i') = carried (in_fates i).

Lemma order_inv_frame i i' :
  order_inv i → same_fates i i' →
  mpsc_view (in_chan i') = mpsc_view (in_chan i) → in_gate i' = in_gate i → in_offer i' = in_offer i →
  in_live_waiting i' = in_live_waiting i → in_popped i' = in_popped i →
  in_receiver_dropped i' = in_receiver_dropped i → in_received i' = in_received i → order_inv i'.
Proof.
  intros [] (Ea & El' & Ec') Ec Eg Eo El Ep Ed Er. pose proof (outstanding_chan i i' Ec Ep) as Eos.
  split; rewrite ?Eos, ?Ec, ?Eg, ?Eo, ?El, ?Ed, ?Ea, ?El', ?Ec', ?Er; done.
Qed.

Lemma gap_inv_frame i i' :
  gap_inv i → lost (in_fates i') = lost (in_fates i) → in_gap i' = in_gap i →
  cv_senders_gone (mpsc_view (in_chan i')) = cv_senders_gone (mpsc_view (in_chan i)) →
  ci_reported_gap_count (in_state i') = ci_reported_gap_count (in_state i) →
  announcing i' = announcing i →
  (cv_senders_gone (mpsc_view (in_chan i)) = true →
   in_offer i' = None ∧ in_live_waiting i' = 0 ∧ cv_permits (mpsc_view (in_chan i')) = 0) →
  gap_inv i'.
Proof.
  intros [] El Eg Ec Er Ho Hp. unfold announced in *.
  split; unfold announced; rewrite ?El, ?Eg, ?Ec, ?Er, ?Ho; done.
Qed.

(** A fate that neither accepts nor loses its update leaves the session as it is. *)
Definition idle_fate (f : Fate) : Prop :=
  match f with Suppressed _ | Refused _ => True | _ => False end.

Lemma idle_fate_same f i : idle_fate f → same_fates i (log_fate f i).
Proof.
  intros Hf. unfold same_fates; simpl. rewrite accepted_app, lost_app, carried_app.
  by destruct f; simpl; rewrite ?app_nil_r.
Qed.

Lemma log_idle_inv f i : idle_fate f → ingress_inv i → ingress_inv (log_fate f i).
Proof.
  intros Hf [HC HO HG]. pose proof (idle_fate_same f i Hf) as Hs. split.
  - by eapply channel_inv_frame.
  - by eapply order_inv_frame.
  - eapply gap_inv_frame; try done; [apply Hs|apply (gp_producers _ HG)].
Qed.

Lemma gate_free_spec i :
  gate_free i = true ↔ in_offer i = None ∧ cv_senders_gone (mpsc_view (in_chan i)) = false.
Proof. unfold gate_free. destruct (in_offer i), (cv_senders_gone _); simpl; naive_solver. Qed.

Lemma offer_begin_inv u i :
  ordinary u → gate_free i = true → ingress_inv i → ingress_inv (offer_begin u i).1.
Proof.
  intros Hu [Eo Hs]%gate_free_spec HI. unfold offer_begin. repeat case_match; simpl.
  1, 2: by apply log_idle_inv.
  destruct HI as [HC HO HG]. split; [by eapply channel_inv_frame| |].
  - destruct HO. split; simpl; try done. destruct (in_gate i); [done|]. intros p [= <-]. done.
  - eapply gap_inv_frame; try done; simpl; [|congruence]. unfold announcing. by rewrite Eo.
Qed.

(** An accepted update reaches the end of the stream. *)
Lemma log_accepted_inv u permits i o c s :
  ingress_inv i → pushed u permits i c s → permits ≤ cv_permits (mpsc_view (in_chan i)) →
  cv_used (mpsc_view (in_chan i)) + permits < GRAPH_UPDATE_CHANNEL_CAPACITY + cv_permits (mpsc_view (in_chan i)) →
  in_gate i = GateOpen → not_catchup u →
  o = in_offer i ∨ announcing i = None ∧ o = None →
  ingress_inv (log_fate (Accepted u) (set_offer o (set_shared c s i))).
Proof.
  intros [HC HO HG] Hp Hle Hu Hg Hn Ho. split.
  - by eapply channel_inv_pushed.
  - pose proof (pushed_outstanding u permits i
      (log_fate (Accepted u) (set_offer o (set_shared c s i))) s Hp eq_refl) as Eo.
    destruct HO. split; simpl; rewrite ?Eo, ?accepted_app, ?lost_app, ?carried_app, ?app_nil_r; simpl; try done.
    + destruct (in_receiver_dropped i); [by apply prefix_app_r|]. by rewrite or_stream0, (assoc_L (++)).
    + congruence.
    + intros _. destruct (or_open0 Hg) as (us & -> & Hus & as_ & ->). eexists (us ++ [u]).
      split_and!; [done|by apply Forall_app; auto|by eexists].
    + destruct Ho as [->|[_ ->]]; done.
  - pose proof (record_enqueue_spec i HC) as He. destruct Hp as (Ev & Ec & Hs). rewrite He in Hs.
    injection Hs as <-. eapply gap_inv_frame; try done; simpl.
    + by rewrite lost_app, app_nil_r.
    + by rewrite Ev.
    + unfold announcing in *. simpl. by destruct Ho as [->|[-> ->]].
    + intros (? & ? & ?)%(gp_producers _ HG). rewrite Ev. simpl.
      split_and!; [destruct Ho as [->|[_ ->]]; done|done|lia].
Qed.

(** Replacing the channel by one with the same view changes nothing. *)
Lemma same_view_inv c o i :
  ingress_inv i → mpsc_view c = mpsc_view (in_chan i) →
  o = in_offer i ∨ announcing i = None ∧ announcing (set_offer o i) = None ∧
    in_gate i = GateOpen ∧ cv_senders_gone (mpsc_view (in_chan i)) = false ∧
    (∀ p, o = Some p → ordinary (offered_update p)) →
  ingress_inv (set_offer o (set_shared c (in_state i) i)).
Proof.
  intros [HC HO HG] Ev Ho. split; [by eapply channel_inv_frame| |].
  - destruct HO. assert (outstanding (set_offer o (set_shared c (in_state i) i)) = outstanding i) as Eo
      by by apply outstanding_chan.
    split; simpl; rewrite ?Eo, ?Ev; try done; [naive_solver congruence|].
    intros p ->. destruct Ho as [Ho|(_ & _ & ? & _ & Hp)]; [by apply or_offer0|by eauto].
  - eapply gap_inv_frame; try done; simpl; [by rewrite Ev|..].
    + destruct Ho as [->|(-> & ? & _)]; done.
    + intros Hg. destruct (gp_producers _ HG Hg) as (? & ? & ?). rewrite Ev.
      destruct Ho as [->|(_ & _ & _ & ? & _)]; [done|congruence].
Qed.

Lemma offer_continue_inv p i i' r :
  in_offer i = Some p → ingress_inv i → offer_continue p i = Some (i', r) → ingress_inv i'.
Proof.
  intros Ep HI. pose proof (or_offer _ (ig_order _ HI) p Ep) as [Hp Hg].
  assert (cv_senders_gone (mpsc_view (in_chan i)) = false) as Hs.
  { destruct (cv_senders_gone _) eqn:E; [|done]. apply (gp_producers _ (ig_gap _ HI)) in E as [? _]. congruence. }
  destruct p as [u|u|u next]; simpl in *.
  - assert (announcing i = None) as Ha by by unfold announcing; rewrite Ep.
    destruct (try_send_spec u i (ig_channel _ HI)) as (c & s & r' & -> & Hr). simpl.
    destruct r' as [[]|[]]; intros [= <- <-].
    + destruct Hr as [Hpush Hu]. eapply log_accepted_inv; eauto; [lia|by apply ordinary_not_catchup].
    + destruct Hr as (Hv & -> & _). apply same_view_inv; [done..|]. right. naive_solver.
    + destruct Hr as (Hv & -> & _). apply log_idle_inv; [done|]. apply same_view_inv; [done..|].
      right. naive_solver.
  - unfold advance_gap_generation. destruct (checked_add _ 1) as [n|] eqn:En; [|done]. simpl.
    intros [= <- <-]. apply checked_add_inv in En as [-> ?].
    destruct HI as [[] [] []]. unfold announcing in *; rewrite Ep in *.
    split; split; try done; unfold announced, announcing in *; simpl in *; try done.
    + congruence.
    + intros q [= <-]. done.
    + rewrite gp_reported0. lia.
    + intros n [= <-]. rewrite gp_reported0. lia.
    + congruence.
  - intros [= <- <-]. destruct HI as [HC [] []].
    assert (next = announced i + 1) as Hn by (apply gp_next0; by unfold announcing; rewrite Ep).
    assert (announcing i = Some next) as Ha by by unfold announcing; rewrite Ep.
    rewrite Ha in *. split; [by eapply channel_inv_frame|split..]; simpl;
      rewrite ?accepted_app, ?lost_app, ?carried_app, ?app_nil_r; simpl; try done;
      unfold announced; simpl; rewrite ?watch_send_replace_law; simpl.
    + congruence.
    + intros _. destruct (or_open0 Hg) as (us & -> & Hus & as_ & ->). eexists (us ++ [u]).
      split_and!; [done|apply Forall_app; split; [done|]; by constructor; [apply ordinary_not_catchup|]|by eexists].
    + apply Forall_app. by split; [|constructor].
    + rewrite count_app, Hn. unfold announced in gp_announced0. by rewrite <-gp_announced0.
    + lia.
    + lia.
    + symmetry. apply bool_decide_eq_true. lia.
    + done.
    + done.
    + congruence.
Qed.

(** Catchup is sent into an empty channel, and opens the gate. *)
Lemma publish_catchup_spec i :
  ingress_inv i → in_gate i = AwaitingCatchup →
  ∃ i' r, publish_catchup i = Some (i', r) ∧ ingress_inv i' ∧
    (r = Ok tt ↔ in_gate i' = GateOpen) ∧ (r = Ok tt ↔ cv_closed (mpsc_view (in_chan i)) = false).
Proof.
  intros HI Hg. destruct (or_awaiting _ (ig_order _ HI) Hg) as (Ea & El & Eo & Ew & Ep & Ec).
  unfold publish_catchup. rewrite assert_true by done. run_bind.
  destruct (try_send_spec GraphUpdate_Catchup i (ig_channel _ HI)) as (c & s & r & -> & Hr). run_bind.
  destruct r as [[]|[]]; simpl.
  - destruct Hr as [Hp Hu]. eexists _, _. split; [done|].
    assert (cv_closed (mpsc_view (in_chan i)) = false) as Hc by apply Hp. rewrite Hc. split; [|done].
    destruct HI as [HC HO HG]. split.
    + eapply channel_inv_pushed; [done| |..|done|done]; [done|lia].
    + pose proof (pushed_outstanding _ _ i
        (log_fate (Accepted GraphUpdate_Catchup) (set_gate GateOpen (set_shared c s i))) s Hp eq_refl) as Eos.
      destruct HO. split; simpl; rewrite ?Eos, ?accepted_app, ?lost_app, ?carried_app, ?Ea, ?El, ?Ec; simpl; try done.
      * destruct (in_receiver_dropped i); [rewrite Ea in or_stream0; etrans; [exact or_stream0|apply prefix_nil]|].
        by rewrite (assoc_L (++)), <-or_stream0, Ea.
      * intros _. exists []. by eauto.
      * congruence.
    + pose proof (record_enqueue_spec i HC) as He. destruct Hp as (Ev & _ & Hs). rewrite He in Hs.
      injection Hs as <-. eapply gap_inv_frame; try done; simpl.
      * by rewrite lost_app, app_nil_r.
      * by rewrite Ev.
      * by rewrite Ev.
  - destruct Hr as (_ & _ & Hu).
    exfalso. destruct HI as [HC HO _]. destruct (in_receiver_dropped i) eqn:Ed.
    + destruct (ch_dropped _ HC Ed) as [[_ Eq]%app_eq_nil _]. unfold cv_used in Hu.
      rewrite Eq, Ep in Hu. done.
    + pose proof (or_stream _ HO) as Hst. rewrite Ed, Ea in Hst. symmetry in Hst.
      apply app_eq_nil in Hst as [_ [_ Eq]%app_eq_nil]. unfold cv_used in Hu. rewrite Eq, Ep in Hu. done.
  - destruct Hr as (Hv & -> & Hc). eexists _, _. split; [done|]. rewrite Hc. simpl. rewrite Hg.
    split; [|done]. apply log_idle_inv; [done|]. apply (same_view_inv c (in_offer i)); auto.
Qed.

Lemma publish_live_begin_inv i i' :
  gate_free i = true → ingress_inv i → publish_live_begin i = Some i' → ingress_inv i'.
Proof.
  intros [Eo Hs]%gate_free_spec [HC HO HG]. unfold publish_live_begin, assert_. case_decide as Hg; [|done].
  run_bind. intros [= <-]. split; [by eapply channel_inv_frame| |].
  - destruct HO. split; try done. simpl. congruence.
  - eapply gap_inv_frame; try done; simpl. congruence.
Qed.

Lemma publish_live_reserve_inv i :
  0 < in_live_waiting i → ingress_inv i → ingress_inv (publish_live_reserve i).1.
Proof.
  intros Hw HI. unfold publish_live_reserve. pose proof (mpsc_reserve_law (in_chan i)) as Hr. cbv zeta in Hr.
  assert (in_gate i = GateOpen) as Hg.
  { destruct (in_gate i) eqn:E; [|done]. destruct (or_awaiting _ (ig_order _ HI) E) as (_&_&_&?&_). lia. }
  assert (cv_senders_gone (mpsc_view (in_chan i)) = false) as Hs.
  { destruct (cv_senders_gone _) eqn:E; [|done]. apply (gp_producers _ (ig_gap _ HI)) in E as (_&?&_). lia. }
  assert (∀ c, mpsc_view c = mpsc_view (in_chan i) → ingress_inv (set_shared c (in_state i) i)) as Hsame.
  { intros c Hc. apply (same_view_inv c (in_offer i)); auto. }
  destruct (mpsc_reserve (in_chan i)) as [c r]. destruct (cv_closed _) eqn:Ec; [|case_decide as Hu].
  - destruct Hr as [Hv ->]. simpl. apply log_idle_inv; [done|]. destruct (Hsame c Hv) as [HC HO HG].
    split; [by eapply channel_inv_frame| |].
    + destruct HO. split; try done. simpl. congruence.
    + eapply gap_inv_frame; try done; simpl. rewrite Hv. congruence.
  - destruct Hr as [Hv ->]. simpl. destruct HI as [HC HO HG].
    assert (outstanding (set_live_waiting (in_live_waiting i - 1) (set_shared c (in_state i) i)) = outstanding i) as Eos
      by (unfold outstanding; simpl; by rewrite Hv).
    split.
    + destruct HC. split; rewrite ?Eos; simpl; rewrite ?Hv; try done.
      unfold cv_used in *. simpl. lia.
    + destruct HO. split; rewrite ?Eos; try done. simpl. congruence.
    + eapply gap_inv_frame; try done; simpl; rewrite ?Hv; [done|]. congruence.
  - destruct Hr as [Hv ->]. by apply Hsame.
Qed.

Lemma publish_live_send_spec i :
  0 < cv_permits (mpsc_view (in_chan i)) → ingress_inv i →
  ∃ i' r, publish_live_send i = Some (i', r) ∧ ingress_inv i'.
Proof.
  intros Hw HI. unfold publish_live_send, send_reserved.
  assert (in_gate i = GateOpen) as Hg.
  { destruct (in_gate i) eqn:E; [|done]. destruct (or_awaiting _ (ig_order _ HI) E) as (_&_&_&_&?&_). lia. }
  assert (cv_senders_gone (mpsc_view (in_chan i)) = false) as Hs.
  { destruct (cv_senders_gone _) eqn:E; [|done]. apply (gp_producers _ (ig_gap _ HI)) in E as (_&_&?). lia. }
  destruct (ci_receiver_closed (in_state i)) eqn:Ec; run_bind.
  - eexists _, _. split; [done|]. apply log_idle_inv; [done|]. destruct HI as [HC HO HG].
    assert (mpsc_view (mpsc_permit_drop (in_chan i)) =
            cv_set_permits (cv_permits (mpsc_view (in_chan i)) - 1) (mpsc_view (in_chan i))) as Hv
      by apply mpsc_permit_drop_law.
    assert (outstanding (set_shared (mpsc_permit_drop (in_chan i)) (in_state i) i) = outstanding i) as Eos
      by (unfold outstanding; simpl; by rewrite Hv).
    split.
    + destruct HC. split; rewrite ?Eos; simpl; rewrite ?Hv; try done. unfold cv_used in *. simpl. lia.
    + destruct HO. split; rewrite ?Eos; try done. simpl. congruence.
    + eapply gap_inv_frame; try done; simpl; rewrite ?Hv; [done|]. simpl. congruence.
  - rewrite (record_enqueue_spec i (ig_channel _ HI)). run_bind. eexists _, _. split; [done|].
    pose proof (mpsc_permit_send_law GraphUpdate_Live (in_chan i) Hw) as Hv.
    eapply (log_accepted_inv _ _ _ (in_offer i)); [done|split_and!|..]; try done.
    + rewrite <-(ch_closed _ (ig_channel _ HI)). done.
    + by rewrite (record_enqueue_spec i (ig_channel _ HI)).
    + lia.
    + pose proof (ch_used _ (ig_channel _ HI)). unfold cv_used in *. lia.
    + by left.
Qed.

(** ** Steps of the receiver *)

Lemma receiver_idle_spec i :
  receiver_idle i = true ↔ in_receiver_dropped i = false ∧ in_popped i = None.
Proof. unfold receiver_idle. rewrite andb_true_iff, negb_true_iff, bool_decide_eq_true. done. Qed.

(** Frame for the steps that touch neither the offers nor the record of fates. *)
Lemma receiver_frame i i' :
  ingress_inv i → channel_inv i' →
  in_gate i' = in_gate i → in_offer i' = in_offer i → in_live_waiting i' = in_live_waiting i →
  in_fates i' = in_fates i → in_gap i' = in_gap i →
  ci_reported_gap_count (in_state i') = ci_reported_gap_count (in_state i) →
  cv_permits (mpsc_view (in_chan i')) = cv_permits (mpsc_view (in_chan i)) →
  cv_senders_gone (mpsc_view (in_chan i')) = cv_senders_gone (mpsc_view (in_chan i)) →
  (if in_receiver_dropped i' then in_received i' `prefix_of` accepted (in_fates i)
   else accepted (in_fates i) = in_received i' ++ outstanding i') →
  ingress_inv i'.
Proof.
  intros [HC HO HG] HC' Eg Eo El Ef Egap Er Ep Es Hst. split; [done| |].
  - destruct HO. split; rewrite ?Eg, ?Eo, ?El, ?Ef, ?Ep; done.
  - eapply gap_inv_frame; try done; [by rewrite Ef|by unfold announcing; rewrite Eo|].
    rewrite Eo, El, Ep. apply HG.
Qed.

Lemma recv_pop_inv i : receiver_idle i = true → ingress_inv i → ingress_inv (recv_pop i).1.
Proof.
  intros [Hd Hp]%receiver_idle_spec HI. unfold recv_pop.
  pose proof (mpsc_recv_law (in_chan i)) as Hr. cbv zeta in Hr.
  destruct (mpsc_recv (in_chan i)) as [c r].
  destruct (cv_queue (mpsc_view (in_chan i))) as [|u q] eqn:Eq; destruct Hr as [Hv ->].
  { assert (ingress_inv (set_shared c (in_state i) i)) as HI'.
    { apply (same_view_inv c (in_offer i)); auto. }
    by destruct ((_ || _) && _). }
  simpl. assert (outstanding (set_popped (Some u) (set_shared c (in_state i) i)) = outstanding i) as Eos.
  { unfold outstanding, popped_list. simpl. by rewrite Hv, Hp, Eq. }
  eapply receiver_frame; try done; simpl; rewrite ?Hv, ?Hd, ?Eos; try done.
  - destruct (ig_channel _ HI). split; rewrite ?Eos; simpl; rewrite ?Hv; try done.
    unfold cv_used in *. rewrite Eq in *. simpl in *. lia.
  - pose proof (or_stream _ (ig_order _ HI)) as Hst. by rewrite Hd in Hst.
Qed.

Lemma recv_account_spec u i :
  in_popped i = Some u → ingress_inv i → ∃ i', recv_account u i = Some i' ∧ ingress_inv i'.
Proof.
  intros Hp HI. assert (in_receiver_dropped i = false) as Hd.
  { destruct (in_receiver_dropped i) eqn:Ed; [|done]. destruct (ch_dropped _ (ig_channel _ HI) Ed) as [Eo _].
    unfold outstanding, popped_list in Eo. by rewrite Hp in Eo. }
  assert (ci_current_occupancy (in_state i) = 1 + count (cv_queue (mpsc_view (in_chan i)))) as Hocc.
  { rewrite (ch_occupancy _ (ig_channel _ HI)). unfold outstanding, popped_list. rewrite Hp. by rewrite count_app. }
  unfold recv_account, record_dequeue. rewrite checked_sub_Some by lia. run_bind. eexists. split; [done|].
  eapply receiver_frame; try done; simpl; rewrite ?Hd.
  - destruct (ig_channel _ HI). split; unfold outstanding; simpl; try done; [lia| |congruence].
    unfold count in *. lia.
  - pose proof (or_stream _ (ig_order _ HI)) as Hst. rewrite Hd in Hst. rewrite Hst.
    unfold outstanding, popped_list. simpl. rewrite Hp. by rewrite <-(assoc_L (++)).
Qed.

Lemma receiver_close_spec i :
  receiver_idle i = true → ingress_inv i →
  ∃ c s, receiver_close (in_chan i) (in_state i) = Some (c, s) ∧ ingress_inv (set_shared c s i).
Proof.
  intros [Hd Hp]%receiver_idle_spec HI. unfold receiver_close, record_receiver_closed.
  pose proof (mpsc_close_law (in_chan i)) as Hv. pose proof (ch_closures _ (ig_channel _ HI)) as Hcl.
  assert (∀ n, n = 1 → ingress_inv (set_shared (mpsc_close (in_chan i))
    (MkChannelStateInner (ci_current_occupancy (in_state i)) (ci_high_water_mark (in_state i))
       (ci_reported_gap_count (in_state i)) true n) i)) as Hgoal.
  { intros n ->. eapply receiver_frame; try done; simpl; rewrite ?Hv, ?Hd; try done.
    - destruct (ig_channel _ HI). split; unfold outstanding in *; simpl; rewrite ?Hv; try done. simpl. congruence.
    - pose proof (or_stream _ (ig_order _ HI)) as Hst. rewrite Hd in Hst. unfold outstanding in *.
      simpl. by rewrite Hv. }
  destruct (ci_receiver_closed (in_state i)) eqn:Ec; run_bind.
  - eexists _, _. split; [done|]. specialize (Hgoal _ Hcl). destruct (in_state i); simpl in *. by subst.
  - rewrite checked_add_Some by (rewrite Hcl; done). run_bind. eexists _, _. split; [done|]. apply Hgoal. lia.
Qed.

Lemma receiver_drop_spec i :
  receiver_idle i = true → ingress_inv i →
  ∃ c s, receiver_drop (in_chan i) (in_state i) = Some (c, s) ∧
         ingress_inv (set_receiver_dropped (set_shared c s i)).
Proof.
  intros Hidle HI. destruct (receiver_close_spec i Hidle HI) as (c & s & Hc & HI').
  apply receiver_idle_spec in Hidle as [Hd Hp]. unfold receiver_drop, receiver_close in *.
  destruct (record_receiver_closed _) as [s'|] eqn:Es; [|done]. run_bind. simplify_eq/=.
  eexists _, _. split; [done|].
  pose proof (mpsc_drop_receiver_law (mpsc_close (in_chan i))) as Hv.
  eapply (receiver_frame _ _ HI'); simpl; rewrite ?Hv; try done.
  - destruct (ig_channel _ HI'). simpl in *. rewrite mpsc_close_law in *. simpl in *.
    split; unfold outstanding; simpl; rewrite ?Hv, ?mpsc_close_law; simpl; try done.
    + unfold cv_used in *. simpl in *. lia.
    + unfold popped_list; simpl. by rewrite Hp.
    + lia.
    + unfold popped_list; simpl. by rewrite Hp.
  - pose proof (or_stream _ (ig_order _ HI)) as Hst. rewrite Hd in Hst. rewrite Hst. by apply prefix_app_r.
Qed.


(** ** Observation of the gap signal *)

(** The receiver has seen everything announced. *)
Definition caught_up (g g' : GraphUpdateGap W) : Prop :=
  wv_value (watch_view (gap_generation g')) = wv_value (watch_view (gap_generation g)) ∧
  wv_sender_gone (watch_view (gap_generation g')) = wv_sender_gone (watch_view (gap_generation g)) ∧
  wv_unseen (watch_view (gap_generation g')) = false ∧
  gap_observed_generation g' = wv_value (watch_view (gap_generation g)).

Lemma acknowledge_current_spec g :
  let '(g', n) := acknowledge_current g in
  caught_up g g' ∧ gap_reporter_closed g' = gap_reporter_closed g ∧
  n = wv_value (watch_view (gap_generation g)).
Proof.
  unfold acknowledge_current. pose proof (watch_borrow_and_update_law (gap_generation g)) as Hw.
  destruct (watch_borrow_and_update _) as [w a]. destruct Hw as [Hv ->]. unfold caught_up. simpl. by rewrite Hv.
Qed.

Lemma take_pending_spec g :
  let '(g', o) := take_pending g in
  caught_up g g' ∧ gap_reporter_closed g' = gap_reporter_closed g ∧
  o = if decide (wv_value (watch_view (gap_generation g)) = gap_observed_generation g)
      then None else Some (wv_value (watch_view (gap_generation g))).
Proof.
  unfold take_pending. pose proof (acknowledge_current_spec g) as Ha.
  destruct (acknowledge_current g) as [g' n]. by destruct Ha as (? & ? & ->).
Qed.

(** Either nothing is new and the reporter lives, or the receiver catches up. *)
Lemma gap_changed_spec g :
  let '(g', r) := gap_changed g in
  match r with
  | PollPending =>
    gap_reporter_closed g = false ∧ gap_reporter_closed g' = false ∧
    wv_unseen (watch_view (gap_generation g)) = false ∧ wv_sender_gone (watch_view (gap_generation g)) = false ∧
    watch_view (gap_generation g') = watch_view (gap_generation g) ∧
    gap_observed_generation g' = gap_observed_generation g
  | Ready o =>
    gap_reporter_closed g = true ∧ g' = g ∧ o = None ∨
    gap_reporter_closed g = false ∧ caught_up g g' ∧
    gap_reporter_closed g' = negb (wv_unseen (watch_view (gap_generation g))) ∧
    (gap_reporter_closed g' = true → wv_sender_gone (watch_view (gap_generation g)) = true) ∧
    o = if decide (wv_value (watch_view (gap_generation g)) = gap_observed_generation g)
        then None else Some (wv_value (watch_view (gap_generation g)))
  end.
Proof.
  unfold gap_changed. destruct (gap_reporter_closed g) eqn:Erc; [by left|].
  pose proof (watch_changed_law (gap_generation g)) as Hw. cbv zeta in Hw.
  destruct (watch_changed _) as [w r]. destruct (wv_unseen _) eqn:Eu; destruct Hw as [Hv ->].
  - pose proof (take_pending_spec (MkGraphUpdateGap w (gap_observed_generation g) false)) as Ht.
    destruct (take_pending _) as [g' o]. unfold caught_up in *. simpl in *. rewrite Hv in Ht.
    right. simpl in *. destruct Ht as ((? & ? & ? & ?) & Hr & ->). rewrite Hr. by split_and!.
  - destruct (wv_sender_gone _) eqn:Eg.
    + pose proof (take_pending_spec (MkGraphUpdateGap w (gap_observed_generation g) true)) as Ht.
      destruct (take_pending _) as [g' o]. unfold caught_up in *. simpl in *. rewrite Hv in Ht.
      right. simpl in *. rewrite Eg in *. destruct Ht as ((? & ? & ? & ?) & Hr & ->). rewrite Hr. by split_and!.
    + done.
Qed.

Lemma caught_up_inv g' i :
  ingress_inv i → caught_up (in_gap i) g' →
  (gap_reporter_closed g' = true → wv_sender_gone (watch_view (gap_generation (in_gap i))) = true) →
  ingress_inv (set_gap g' i).
Proof.
  intros [HC HO HG] (Ev & Eg & Eu & Eobs) Hrc. split; [by eapply channel_inv_frame|by eapply order_inv_frame|].
  destruct HG. unfold announced in *. split; unfold announced; simpl; rewrite ?Ev, ?Eg, ?Eu, ?Eobs; try done.
  by rewrite bool_decide_eq_false_2 by naive_solver.
Qed.

Lemma gap_changed_inv i : ingress_inv i → ingress_inv (set_gap (gap_changed (in_gap i)).1 i).
Proof.
  intros HI. pose proof (gap_changed_spec (in_gap i)) as Hs.
  destruct (gap_changed (in_gap i)) as [g' [o|]]; simpl.
  - destruct Hs as [(_ & -> & _)|(_ & Hc & _ & Hrc & _)]; [by destruct i|by apply caught_up_inv].
  - destruct Hs as (? & ? & ? & ? & Ev & Eobs). destruct HI as [HC HO HG].
    split; [by eapply channel_inv_frame|by eapply order_inv_frame|].
    destruct HG. unfold announced in *. split; unfold announced; simpl; rewrite ?Ev, ?Eobs; try done. congruence.
Qed.

(** ** Every step *)

(** The panics of the source: Catchup on an open gate, Live before Catchup, and
    the exhaustion of the gap generations. *)
Definition ingress_panics (ev : IngressEvent) i : Prop :=
  match ev with
  | EvCatchup => gate_free i = true ∧ in_gate i = GateOpen
  | EvLiveBegin => gate_free i = true ∧ in_gate i = AwaitingCatchup
  | EvOfferContinue => ∃ u, in_offer i = Some (OfferAdvance u) ∧ ci_reported_gap_count (in_state i) = U64_MAX
  | _ => False
  end.

Lemma drop_producers_inv i :
  ingress_inv i → in_offer i = None → in_live_waiting i = 0 → cv_permits (mpsc_view (in_chan i)) = 0 →
  ingress_inv (set_gap (MkGraphUpdateGap (watch_drop_sender (gap_generation (in_gap i)))
      (gap_observed_generation (in_gap i)) (gap_reporter_closed (in_gap i)))
    (set_shared (mpsc_drop_senders (in_chan i)) (in_state i) i)).
Proof.
  intros [[] [] []] Eo Ew Ep. pose proof (mpsc_drop_senders_law (in_chan i)) as Hv.
  unfold outstanding, announced in *.
  split; split; unfold outstanding, announced; simpl; rewrite ?Hv, ?watch_drop_sender_law; simpl; done.
Qed.

(** A guarded step that cannot panic. *)
Lemma guarded_step_spec (b : bool) i (x : Ingress) :
  ingress_inv i → (b = true → ingress_inv x) →
  ((if b then Some x else Some i) = None ↔ False) ∧
  ∀ i', (if b then Some x else Some i) = Some i' → ingress_inv i'.
Proof. destruct b; naive_solver. Qed.

Lemma offer_continue_step_spec i :
  ingress_inv i →
  (ingress_step EvOfferContinue i = None ↔ ingress_panics EvOfferContinue i) ∧
  ∀ i', ingress_step EvOfferContinue i = Some i' → ingress_inv i'.
Proof.
  intros HI. pose proof (gp_bound _ (ig_gap _ HI)) as Hb. simpl.
  destruct (in_offer i) as [p|] eqn:Ep; [|naive_solver]. split; [split|].
  - intros Hn%fmap_None. destruct p as [u|u|u n]; simpl in Hn; [| |done].
    + destruct (try_send_spec u i (ig_channel _ HI)) as (c & s & r & Ht & _). by rewrite Ht in Hn.
    + exists u. split; [done|]. unfold advance_gap_generation, checked_add in Hn. case_decide; [done|]. lia.
  - intros (u & [= ->] & Hm). simpl. unfold advance_gap_generation, checked_add. by rewrite Hm.
  - intros i' ([? r] & Hc & ->)%fmap_Some. by eapply offer_continue_inv.
Qed.

Lemma ingress_step_spec ev i :
  ingress_inv i →
  (ingress_step ev i = None ↔ ingress_panics ev i) ∧
  ∀ i', ingress_step ev i = Some i' → ingress_inv i'.
Proof.
  intros HI. destruct ev; try by apply offer_continue_step_spec.
  all: unfold ingress_step, ingress_panics.
  - apply guarded_step_spec; [done|]. by intros; apply offer_begin_inv.
  - apply guarded_step_spec; [done|]. by intros; apply offer_begin_inv.
  - destruct (gate_free i) eqn:Ef; [|naive_solver]. destruct (in_gate i) eqn:Eg.
    + destruct (publish_catchup_spec i HI Eg) as (i' & r & -> & HI' & _). simpl. naive_solver.
    + unfold publish_catchup, assert_. rewrite decide_False by congruence. simpl. naive_solver.
  - destruct (gate_free i) eqn:Ef; [|naive_solver]. split; [|by intros; eapply publish_live_begin_inv].
    unfold publish_live_begin, assert_. case_decide as Eg; simpl; [naive_solver congruence|].
    destruct (in_gate i); naive_solver.
  - case_decide; [|naive_solver]. pose proof (publish_live_reserve_inv i). naive_solver.
  - case_decide as Hw; [|naive_solver]. destruct (publish_live_send_spec i Hw HI) as (i' & r & -> & ?).
    simpl. naive_solver.
  - apply guarded_step_spec; [done|]. by intros; apply recv_pop_inv.
  - destruct (in_popped i) as [u|] eqn:Ep; [|naive_solver].
    destruct (recv_account_spec u i Ep HI) as (i' & -> & ?). naive_solver.
  - apply guarded_step_spec; [done|]. intros _.
    pose proof (take_pending_spec (in_gap i)) as Ht. destruct (take_pending _) as [g o].
    destruct Ht as (? & Hr & _). apply caught_up_inv; [done..|]. simpl. rewrite Hr. apply HI.
  - apply guarded_step_spec; [done|]. intros _.
    pose proof (acknowledge_current_spec (in_gap i)) as Ht. destruct (acknowledge_current _) as [g o].
    destruct Ht as (? & Hr & _). apply caught_up_inv; [done..|]. simpl. rewrite Hr. apply HI.
  - apply guarded_step_spec; [done|]. by intros; apply gap_changed_inv.
  - case_match eqn:Ef; [|naive_solver]. destruct (receiver_close_spec i Ef HI) as (c & s & -> & ?). naive_solver.
  - case_match eqn:Ef; [|naive_solver]. destruct (receiver_drop_spec i Ef HI) as (c & s & -> & ?). naive_solver.
  - apply guarded_step_spec; [done|].
    intros [[? _]%gate_free_spec [? ?]%bool_decide_eq_true]%andb_true_iff. by apply drop_producers_inv.
Qed.

Lemma ingress_reachable_inv i : ingress_reachable i → ingress_inv i.
Proof.
  induction 1 as [|ev i i' _ IH Hs]; [apply graph_update_channel_inv|]. by apply (ingress_step_spec ev i IH).
Qed.

(** ** Polled observations *)

(** One poll of the ordered stream, from a receiver between two polls. *)
Lemma recv_update_spec i :
  receiver_idle i = true → ingress_inv i →
  ∃ i' r, recv_update i = Some (i', r) ∧ ingress_inv i' ∧ receiver_idle i' = true ∧
    in_gap i' = in_gap i ∧ in_fates i' = in_fates i ∧
    match r with
    | Ready (Some u) => in_received i' = in_received i ++ [u] ∧ outstanding i = u :: outstanding i'
    | Ready None =>
      in_received i' = in_received i ∧ outstanding i = [] ∧ cv_permits (mpsc_view (in_chan i)) = 0 ∧
      (cv_closed (mpsc_view (in_chan i)) = true ∨ cv_senders_gone (mpsc_view (in_chan i)) = true)
    | PollPending => in_received i' = in_received i ∧ outstanding i = []
    end.
Proof.
  intros Hidle HI. pose proof (recv_pop_inv i Hidle HI) as HI'.
  pose proof (proj1 (receiver_idle_spec i) Hidle) as [Hd Hp].
  unfold recv_update, recv_pop in *. pose proof (mpsc_recv_law (in_chan i)) as Hr. cbv zeta in Hr.
  assert (outstanding i = cv_queue (mpsc_view (in_chan i))) as Eos.
  { unfold outstanding, popped_list. by rewrite Hp. }
  destruct (mpsc_recv (in_chan i)) as [c r].
  destruct (cv_queue (mpsc_view (in_chan i))) as [|u q] eqn:Eq; destruct Hr as [Hv ->].
  - destruct (_ && _) eqn:Eb; (eexists _, _; split_and!; [done|exact HI'|exact Hidle|done..|]); [|done].
    apply andb_true_iff in Eb as [Eb Hb%bool_decide_eq_true]. by apply orb_true_iff in Eb.
  - simpl in HI'. destruct (recv_account_spec u (set_popped (Some u) (set_shared c (in_state i) i)) eq_refl HI') as (i2 & Hacc & HI2). rewrite Hacc. run_bind.
    eexists _, _. split_and!; [done|done|..].
    all: unfold recv_account, record_dequeue in Hacc; simpl in Hacc; destruct (checked_sub _ _); [|done];
      injection Hacc as <-; simpl; try done.
    + apply receiver_idle_spec. done.
    + rewrite Eos. unfold outstanding; simpl. by rewrite Hv.
Qed.

(** What one poll of [next_observation] answers. *)
Definition observes (i i' : Ingress) (r : Poll (option GraphUpdateObservation)) : Prop :=
  match r with
  | Ready (Some (ObsGap n)) =>
    n = announced i ∧ gap_observed_generation (in_gap i) < n ∧ in_received i' = in_received i
  | Ready (Some (ObsUpdate u)) =>
    gap_observed_generation (in_gap i) = announced i ∧
    in_received i' = in_received i ++ [u] ∧ outstanding i = u :: outstanding i'
  | Ready None =>
    gap_observed_generation (in_gap i) = announced i ∧ outstanding i = [] ∧
    (cv_closed (mpsc_view (in_chan i)) = true ∨ cv_senders_gone (mpsc_view (in_chan i)) = true) ∧
    in_received i' = in_received i
  | PollPending =>
    gap_observed_generation (in_gap i) = announced i ∧ outstanding i = [] ∧ in_received i' = in_received i
  end.

Lemma set_gap_idle g i : receiver_idle (set_gap g i) = receiver_idle i.
Proof. done. Qed.

(** Once the receiver has caught up only the stream is left to poll. *)
Lemma recv_after_gap i g :
  receiver_idle i = true → ingress_inv (set_gap g i) → gap_observed_generation (in_gap i) = announced i →
  gap_observed_generation g = announced i →
  ∃ i' r, ('(i', r) ← recv_update (set_gap g i); Some (i', match r with
            | Ready (Some u) => Ready (Some (ObsUpdate u)) | Ready None => Ready None | PollPending => PollPending end)) = Some (i', r) ∧
    ingress_inv i' ∧ receiver_idle i' = true ∧ gap_observed_generation (in_gap i') = announced i ∧
    in_fates i' = in_fates i ∧ observes i i' r.
Proof.
  intros Hidle HI Hobs Hg. destruct (recv_update_spec (set_gap g i) Hidle HI) as (i' & r & -> & HI' & Hi' & Eg & Ef & Hr).
  run_bind. eexists _, _. split_and!; [done|done|done|by rewrite Eg|done|].
  destruct r as [[u|]|]; simpl in *; naive_solver.
Qed.

Lemma next_observation_spec i :
  receiver_idle i = true → ingress_inv i →
  ∃ i' r, next_observation 2 i = Some (i', r) ∧ ingress_inv i' ∧ receiver_idle i' = true ∧
    gap_observed_generation (in_gap i') = announced i ∧ in_fates i' = in_fates i ∧ observes i i' r.
Proof.
  intros Hidle HI. unfold next_observation.
  pose proof (take_pending_spec (in_gap i)) as Ht. destruct (take_pending (in_gap i)) as [g o].
  destruct Ht as (Hc & Hrc & ->).
  assert (ingress_inv (set_gap g i)) as HI1.
  { apply caught_up_inv; [done..|]. rewrite Hrc. apply HI. }
  assert (gap_observed_generation g = announced i) as Hg by apply Hc.
  pose proof (gp_observed _ (ig_gap _ HI)) as Hle. unfold announced in Hle.
  case_decide as Hpend; simpl.
  2: { eexists _, _. split_and!; [done..|]. simpl. unfold announced. split_and!; [done|lia|done]. }
  pose proof (recv_after_gap i) as Hrecv. unfold announced in *.
  destruct (gap_reporter_closed g) eqn:Erc.
  { apply Hrecv; auto. }
  pose proof (gap_changed_spec g) as Hch. pose proof (gap_changed_inv _ HI1) as HI2. simpl in HI2.
  destruct (gap_changed g) as [g2 [o2|]].
  2: { destruct Hch as (_ & _ & _ & _ & _ & Eobs). apply (Hrecv g2); auto. congruence. }
  destruct Hch as [(? & _)|(_ & Hc2 & Hrc2 & Hrc2' & ->)]; [congruence|].
  assert (wv_unseen (watch_view (gap_generation g)) = false) as Hun by apply Hc.
  assert (wv_value (watch_view (gap_generation g)) = gap_observed_generation g) as Hval.
  { destruct Hc as (Hv & _ & _ & ->). done. }
  rewrite decide_True by done. rewrite Hun in Hrc2. simpl in Hrc2.
  pose proof (take_pending_spec g2) as Ht3. simpl. destruct (take_pending g2) as [g3 o3].
  destruct Ht3 as (Hc3 & Hrc3 & ->). rewrite Hrc2 in Hrc3.
  destruct Hc2 as (Hv2 & _ & _ & Ho2). rewrite decide_True by congruence. rewrite Hrc3.
  apply (Hrecv g3); auto.
  - change (ingress_inv (set_gap g3 (set_gap g2 i))). apply caught_up_inv; [done..|].
    intros _. simpl. apply HI2. done.
  - destruct Hc3 as (_ & _ & _ & ->). congruence.
Qed.

(** ** Consequences for reachable sessions *)

Lemma carried_without_loss fs : lost fs = [] → carried fs = accepted fs.
Proof. induction fs as [|[] fs IH]; csimpl; intros; simplify_eq; rewrite ?IH by done; done. Qed.

Lemma take_pending_None g :
  (take_pending g).2 = None ↔ gap_observed_generation g = wv_value (watch_view (gap_generation g)).
Proof.
  pose proof (take_pending_spec g) as Ht. destruct (take_pending g) as [g' o].
  destruct Ht as (_ & _ & ->). simpl. case_decide; naive_solver.
Qed.

Lemma ingress_run_reachable evs i i' :
  ingress_reachable i → fold_m (λ i ev, ingress_step ev i) i evs = Some i' → ingress_reachable i'.
Proof.
  intros Hi Hr. apply (fold_m_inv _ ingress_reachable _ _ _ Hi) in Hr; [done|].
  intros. by eapply reach_step.
Qed.
End IngressSafety.

(** * A session on the concrete channel *)

Abbreviation DemoIngress := (Ingress NHash (ChannelView (@GraphUpdate NHash)) (WatchView N)).

Definition demo_transition (n : N) : @VspcCommitted NHash := @MkVspcCommitted NHash n (n + 1) [] [n + 1] [].

(** Catchup and two transitions are sent, the first two values received. *)
Definition demo_session_events : list (@IngressEvent NHash) :=
  [EvOfferVspc (demo_transition 1); EvCatchup;
   EvOfferVspc (demo_transition 2); EvOfferContinue; EvRecvPop; EvRecvAccount;
   EvOfferVspc (demo_transition 3); EvOfferContinue; EvRecvPop; EvRecvAccount].
Definition demo_session : DemoIngress :=
  default graph_update_channel
    (fold_m (λ i ev, ingress_step ev i) graph_update_channel demo_session_events).

Lemma demo_session_reachable : ingress_reachable demo_session.
Proof.
  apply (ingress_run_reachable demo_session_events graph_update_channel); [constructor|]. by vm_compute.
Qed.

(** ** The high-water mark overshoots *)

(** The session after Catchup and [n] accepted transitions. *)
Definition filled_session (u : @VspcCommitted NHash) (n : nat) : DemoIngress :=
  let us := replicate n (@GraphUpdate_VspcCommitted NHash u) in
  MkIngress GateOpen
    (MkChannelView GRAPH_UPDATE_CHANNEL_CAPACITY (GraphUpdate_Catchup :: us) 0 false false)
    (MkChannelStateInner (N.of_nat n + 1) (N.of_nat n + 1) 0 false 0)
    (MkGraphUpdateGap (watch_channel 0) 0 false) None 0 None false
    (Accepted GraphUpdate_Catchup :: (Accepted <$> us)) [].

Lemma filled_session_step u n :
  N.of_nat n + 1 < GRAPH_UPDATE_CHANNEL_CAPACITY →
  fold_m (λ i ev, ingress_step ev i) (filled_session u n) [EvOfferVspc u; EvOfferContinue] =
    Some (filled_session u (S n)).
Proof.
  intros Hn. assert (N.of_nat (S n) + 1 = N.of_nat n + 1 + 1) as E by lia.
  unfold filled_session at 2. rewrite replicate_S_end, fmap_app, E. cbn -[replicate].
  rewrite (decide_False (P:=GateOpen = AwaitingCatchup)) by done. cbn -[replicate].
  unfold try_send. cbn -[replicate].
  rewrite decide_True by (unfold GRAPH_UPDATE_CHANNEL_CAPACITY, cv_used in *; cbn -[replicate];
    rewrite length_replicate; lia).
  unfold record_enqueue. cbn -[replicate].
  rewrite checked_add_Some by (unfold GRAPH_UPDATE_CHANNEL_CAPACITY, U64_MAX in *; lia).
  cbn -[replicate]. rewrite N.max_r by lia. done.
Qed.

Lemma filled_session_reachable u n :
  N.of_nat n < GRAPH_UPDATE_CHANNEL_CAPACITY → ingress_reachable (filled_session u n).
Proof.
  induction n as [|n IH]; intros Hn.
  - apply (ingress_run_reachable [EvCatchup] graph_update_channel); [constructor|done].
  - eapply ingress_run_reachable; [apply IH; lia|]. apply filled_session_step. lia.
Qed.

(** With the channel full, a value is popped and another accepted before the
    pop is accounted for. *)
Lemma filled_session_overshoot u n :
  N.of_nat n + 1 = GRAPH_UPDATE_CHANNEL_CAPACITY →
  ∃ i, fold_m (λ i ev, ingress_step ev i) (filled_session u n) [EvRecvPop; EvOfferVspc u; EvOfferContinue] = Some i ∧
       ci_high_water_mark (in_state i) = GRAPH_UPDATE_CHANNEL_CAPACITY + 1.
Proof.
  intros Hn. cbn -[replicate].
  rewrite (decide_False (P:=GateOpen = AwaitingCatchup)) by done. cbn -[replicate].
  unfold try_send. cbn -[replicate].
  rewrite decide_True by (unfold GRAPH_UPDATE_CHANNEL_CAPACITY, cv_used in *; cbn -[replicate];
    rewrite length_replicate; lia).
  unfold record_enqueue. cbn -[replicate].
  rewrite checked_add_Some by (unfold GRAPH_UPDATE_CHANNEL_CAPACITY, U64_MAX in *; lia).
  cbn -[replicate]. eexists. split; [done|]. cbn -[replicate]. lia.
Qed.
