(* ===== verification/Channel.v ===== *)
(** The instrumented bounded channel of [kgi-core] (channel.rs): a tokio channel
    whose two halves keep its occupancy and high-water mark under one lock.

    A send takes a permit, counts the value under the lock, then hands it to
    the channel; a receive pops a value, then counts it out.  Every one of
    these is a step of [channel_step], and the halves interleave.  The queue
    the processing workers see of such a channel is [BoundedQueue]. *)

From S2P Require Import Prelude Model Ingress IngressSafety.

#[local] Open Scope N_scope.

(** * The queue its users rely on *)

Definition PROCESSING_DATA_CHANNEL_CAPACITY : N := 1024.

Inductive TrySendError := QueueFull | QueueClosed.
#[global] Instance TrySendError_eq_dec : EqDecision TrySendError.
Proof. solve_decision. Defined.

Record BoundedQueue (A : Type) := MkBoundedQueue { bq_items : list A; bq_open : bool }.
Arguments MkBoundedQueue {A}.
Arguments bq_items {A}.
Arguments bq_open {A}.

Definition bounded_channel {A} : BoundedQueue A := MkBoundedQueue [] true.

Definition bq_try_send {A} (capacity : N) (x : A) (q : BoundedQueue A) : BoundedQueue A * Result unit TrySendError :=
  if bq_open q
  then if decide (N.of_nat (length (bq_items q)) < capacity)
       then (MkBoundedQueue (bq_items q ++ [x]) true, Ok tt)
       else (q, Err QueueFull)
  else (q, Err QueueClosed).

Definition bq_try_recv {A} (q : BoundedQueue A) : option (A * BoundedQueue A) :=
  match bq_items q with
  | [] => None
  | x :: xs => Some (x, MkBoundedQueue xs (bq_open q))
  end.

(** * The instrumented channel *)

Record BoundedChannelMetricsSnapshot := MkChannelMetrics {
  cm_current_occupancy : N;
  cm_high_water_mark : N
}.

Record BoundedChannelState := MkBoundedChannelState {
  cs_metrics : BoundedChannelMetricsSnapshot;
  cs_receiver_open : bool
}.

Definition enqueue (s : BoundedChannelState) : option (BoundedChannelState * bool) :=
  if cs_receiver_open s
  then
    let m := cs_metrics s in
    occupancy ← checked_add (cm_current_occupancy m) 1;
    Some (MkBoundedChannelState (MkChannelMetrics occupancy (cm_high_water_mark m `max` occupancy)) true, true)
  else Some (s, false).

Definition dequeue (s : BoundedChannelState) : BoundedChannelState :=
  let m := cs_metrics s in
  MkBoundedChannelState (MkChannelMetrics (saturating_sub (cm_current_occupancy m) 1) (cm_high_water_mark m))
    (cs_receiver_open s).

Definition close_receiver (s : BoundedChannelState) : BoundedChannelState :=
  MkBoundedChannelState (MkChannelMetrics 0 (cm_high_water_mark (cs_metrics s))) false.

Section Channel.
Context {A Chan : Type} `{MpscLaws A Chan}.

(** The channel and the operations in progress: senders that hold a permit and
    have not counted their value, or have counted and not handed it over, and
    the value popped and not counted out. *)
Record BoundedChannel := MkBoundedChannel {
  bc_inner : Chan;
  bc_state : BoundedChannelState;
  bc_reserved : N;
  bc_counted : N;
  bc_popped : option A
}.

Definition bounded_channel_new (capacity : N) : BoundedChannel :=
  MkBoundedChannel (mpsc_channel capacity) (MkBoundedChannelState (MkChannelMetrics 0 0) true) 0 0 None.

Inductive ChannelEvent :=
  | ChReserve
  | ChTryReserve
  | ChEnqueue
  | ChSend (value : A)
  | ChPop
  | ChDequeue
  | ChCloseReceiver
  | ChDropReceiver.

(** One step; [None] is an arithmetic overflow of the count, an event that is
    not enabled changes nothing. *)
Definition channel_step (ev : ChannelEvent) (c : BoundedChannel) : option BoundedChannel :=
  let '(MkBoundedChannel inner s reserved counted popped) := c in
  match ev with
  | ChReserve =>
    let '(inner, r) := mpsc_reserve inner in
    Some (MkBoundedChannel inner s (match r with Ready (Ok _) => reserved + 1 | _ => reserved end) counted popped)
  | ChTryReserve =>
    let '(inner, r) := mpsc_try_reserve inner in
    Some (MkBoundedChannel inner s (match r with Ok _ => reserved + 1 | _ => reserved end) counted popped)
  | ChEnqueue =>
    if decide (0 < reserved)
    then '(s, accepted) ← enqueue s;
      Some (if (accepted : bool)
            then MkBoundedChannel inner s (reserved - 1) (counted + 1) popped
            else MkBoundedChannel (mpsc_permit_drop inner) s (reserved - 1) counted popped)
    else Some c
  | ChSend value =>
    if decide (0 < counted)
    then Some (MkBoundedChannel (mpsc_permit_send value inner) s reserved (counted - 1) popped)
    else Some c
  | ChPop =>
    if bool_decide (popped = None) && cs_receiver_open s
    then
      let '(inner, r) := mpsc_recv inner in
      Some (MkBoundedChannel inner s reserved counted (match r with Ready (Some x) => Some x | _ => None end))
    else Some c
  | ChDequeue =>
    match popped with
    | Some _ => Some (MkBoundedChannel inner (dequeue s) reserved counted None)
    | None => Some c
    end
  | ChCloseReceiver =>
    if bool_decide (popped = None) then Some (MkBoundedChannel inner (close_receiver s) reserved counted popped) else Some c
  | ChDropReceiver =>
    if cs_receiver_open s then Some c
    else Some (MkBoundedChannel (mpsc_drop_receiver inner) s reserved counted popped)
  end.

(** ** The operations run alone *)

Definition try_send_alone (value : A) (c : BoundedChannel) : option (BoundedChannel * Result unit TrySendError) :=
  let '(inner, r) := mpsc_try_reserve (bc_inner c) in
  match r with
  | Err MpscFull => Some (MkBoundedChannel inner (bc_state c) (bc_reserved c) (bc_counted c) (bc_popped c), Err QueueFull)
  | Err MpscClosed => Some (MkBoundedChannel inner (bc_state c) (bc_reserved c) (bc_counted c) (bc_popped c), Err QueueClosed)
  | Ok _ =>
    '(s, accepted) ← enqueue (bc_state c);
    Some (if (accepted : bool)
          then (MkBoundedChannel (mpsc_permit_send value inner) s (bc_reserved c) (bc_counted c) (bc_popped c), Ok tt)
          else (MkBoundedChannel (mpsc_permit_drop inner) s (bc_reserved c) (bc_counted c) (bc_popped c), Err QueueClosed))
  end.

Definition recv_alone (c : BoundedChannel) : BoundedChannel * Poll (option A) :=
  let '(inner, r) := mpsc_recv (bc_inner c) in
  let s := match r with Ready (Some _) => dequeue (bc_state c) | _ => bc_state c end in
  (MkBoundedChannel inner s (bc_reserved c) (bc_counted c) (bc_popped c), r).

(** * The invariant *)

Inductive channel_reachable (capacity : N) : BoundedChannel → Prop :=
  | channel_new : channel_reachable capacity (bounded_channel_new capacity)
  | channel_next ev c c' : channel_reachable capacity c → channel_step ev c = Some c' → channel_reachable capacity c'.

Definition popped_count (c : BoundedChannel) : N := match bc_popped c with Some _ => 1 | None => 0 end.
Definition queued (c : BoundedChannel) : N := N.of_nat (length (cv_queue (mpsc_view (bc_inner c)))).

Record bounded_channel_inv (capacity : N) (c : BoundedChannel) : Prop := {
  bi_capacity : cv_capacity (mpsc_view (bc_inner c)) = capacity;
  bi_permits : cv_permits (mpsc_view (bc_inner c)) = bc_reserved c + bc_counted c;
  bi_used : cv_used (mpsc_view (bc_inner c)) ≤ capacity;
  bi_high : cm_current_occupancy (cs_metrics (bc_state c)) ≤ cm_high_water_mark (cs_metrics (bc_state c)) ≤ capacity + 1;
  bi_occupancy : if cs_receiver_open (bc_state c)
                 then cm_current_occupancy (cs_metrics (bc_state c)) = queued c + bc_counted c + popped_count c
                 else cm_current_occupancy (cs_metrics (bc_state c)) = 0 ∧ bc_popped c = None;
  bi_open : cs_receiver_open (bc_state c) = true → cv_closed (mpsc_view (bc_inner c)) = false
}.

Lemma bounded_channel_new_inv capacity : bounded_channel_inv capacity (bounded_channel_new capacity).
Proof. split; unfold cv_used, queued, popped_count; simpl; rewrite ?mpsc_channel_law; simpl; done || lia. Qed.

Lemma channel_step_inv capacity ev c :
  capacity < U64_MAX → bounded_channel_inv capacity c →
  ∃ c', channel_step ev c = Some c' ∧ bounded_channel_inv capacity c'.
Proof.
  intros Hcap [I1 I2 I3 I4 I5 I6]. destruct c as [inner s reserved counted popped].
  unfold cv_used, queued, popped_count in *. simpl in *.
  destruct ev as [| | |value| | | |]; simpl.
  - pose proof (mpsc_reserve_law inner) as Hl. cbv zeta in Hl. destruct (mpsc_reserve inner) as [inner' r].
    eexists. split; [done|]. destruct (cv_closed (mpsc_view inner)) eqn:Ec.
    { destruct Hl as [Hv ->]. split; unfold cv_used, queued, popped_count; simpl; rewrite ?Hv, ?Ec; done. }
    unfold cv_used in Hl. case_decide; destruct Hl as [Hv ->];
      split; unfold cv_used, queued, popped_count; simpl; rewrite ?Hv; simpl; try done; lia.
  - pose proof (mpsc_try_reserve_law inner) as Hl. cbv zeta in Hl. destruct (mpsc_try_reserve inner) as [inner' r].
    eexists. split; [done|]. destruct (cv_closed (mpsc_view inner)) eqn:Ec.
    { destruct Hl as [Hv ->]. split; unfold cv_used, queued, popped_count; simpl; rewrite ?Hv, ?Ec; done. }
    unfold cv_used in Hl. case_decide; destruct Hl as [Hv ->];
      split; unfold cv_used, queued, popped_count; simpl; rewrite ?Hv; simpl; try done; lia.
  - case_decide as Hr; [|eexists; split; [done|]; by split]. unfold enqueue.
    destruct (cs_receiver_open s) eqn:Eo.
    + rewrite checked_add_Some by (destruct popped; lia). run_bind. eexists. split; [done|].
      split; unfold cv_used, queued, popped_count; simpl; try done; [lia|destruct popped; lia..].
    + run_bind. eexists. split; [done|].
      split; unfold cv_used, queued, popped_count; simpl; rewrite ?mpsc_permit_drop_law, ?Eo; simpl; try done; lia.
  - case_decide as Hc; [|eexists; split; [done|]; by split]. eexists. split; [done|].
    split; unfold cv_used, queued, popped_count; simpl; rewrite ?mpsc_permit_send_law by lia; simpl;
      rewrite ?length_app; simpl; try done; try lia. destruct (cs_receiver_open s); [lia|done].
  - destruct (bool_decide (popped = None) && cs_receiver_open s) eqn:Eg; [|eexists; split; [done|]; by split].
    apply andb_true_iff in Eg as [Ep%bool_decide_eq_true Eo]. subst popped. rewrite Eo in I5.
    pose proof (mpsc_recv_law inner) as Hl. cbv zeta in Hl. destruct (mpsc_recv inner) as [inner' r].
    eexists. split; [done|]. destruct (cv_queue (mpsc_view inner)) as [|x q] eqn:Eq; destruct Hl as [Hv ->].
    + assert (∀ b, match (if b : bool then Ready (@None A) else PollPending) with Ready (Some x) => Some x | _ => None end
        = None) as -> by (by intros []).
      split; unfold cv_used, queued, popped_count; simpl; rewrite ?Hv, ?Eq, ?Eo; try done; auto.
    + split; unfold cv_used, queued, popped_count; simpl; rewrite ?Hv, ?Eo; simpl in *; try done; try lia; auto.
  - destruct popped as [x|]; eexists; (split; [done|]); [|by split].
    split; unfold cv_used, queued, popped_count, dequeue, saturating_sub; simpl; try done; [lia|].
    destruct (cs_receiver_open s); [lia|by destruct I5].
  - case_bool_decide as Ep; eexists; (split; [done|]); [|by split].
    split; unfold cv_used, queued, popped_count; simpl; try done. lia.
  - destruct (cs_receiver_open s) eqn:Eo; eexists; (split; [done|]); [split; unfold cv_used, queued, popped_count; simpl; rewrite ?Eo; try done; auto|].
    split; unfold cv_used, queued, popped_count; simpl; rewrite ?mpsc_drop_receiver_law, ?Eo; simpl; try done. lia.
Qed.

Lemma channel_reachable_inv capacity c :
  capacity < U64_MAX → channel_reachable capacity c → bounded_channel_inv capacity c.
Proof.
  intros Hcap. induction 1 as [|ev c c' _ IH E]; [apply bounded_channel_new_inv|].
  destruct (channel_step_inv capacity ev c Hcap IH) as (c1 & E1 & Hi). congruence.
Qed.

(** * The queue it implements *)

(** The queue of a channel whose receiver lives or is gone. *)
Definition queue_of (c : BoundedChannel) : BoundedQueue A :=
  MkBoundedQueue (cv_queue (mpsc_view (bc_inner c))) (negb (cv_closed (mpsc_view (bc_inner c)))).

(** No operation is in progress, and the receiver is whole or wholly gone. *)
Definition channel_quiet (c : BoundedChannel) : Prop :=
  bc_reserved c = 0 ∧ bc_counted c = 0 ∧ bc_popped c = None ∧
  cs_receiver_open (bc_state c) = negb (cv_closed (mpsc_view (bc_inner c))).

Lemma try_send_alone_refines capacity value c :
  capacity < U64_MAX → bounded_channel_inv capacity c → channel_quiet c →
  ∃ c' r, try_send_alone value c = Some (c', r) ∧ bq_try_send capacity value (queue_of c) = (queue_of c', r) ∧
    bounded_channel_inv capacity c' ∧ channel_quiet c'.
Proof.
  intros Hcap [I1 I2 I3 I4 I5 I6] (Q1 & Q2 & Q3 & Q4). destruct c as [inner s reserved counted popped]. simpl in *.
  subst reserved counted popped. unfold try_send_alone, bq_try_send, queue_of, cv_used, queued, popped_count in *. simpl in *.
  rewrite I2, N.add_0_r in I3. pose proof (mpsc_try_reserve_law inner) as Hl. cbv zeta in Hl.
  destruct (mpsc_try_reserve inner) as [inner' r]. destruct (cv_closed (mpsc_view inner)) eqn:Ec; simpl in *.
  { destruct Hl as [Hv ->]. eexists _, _. split; [done|]. simpl. rewrite Hv, Ec. split_and!; [done| |].
    - split; unfold cv_used, queued, popped_count; simpl; rewrite ?Hv, ?I2, ?Q4, ?N.add_0_r; simpl; try done; try lia; try (by rewrite Q4 in I5); by rewrite Q4.
    - split_and!; simpl; try done. by rewrite Hv, Ec. }
  rewrite Q4 in I5. unfold cv_used in Hl. rewrite I1, I2, N.add_0_r in Hl. case_decide as Hfull; destruct Hl as [Hv ->].
  - unfold enqueue. rewrite Q4, checked_add_Some by lia. run_bind. eexists _, _. split; [done|]. simpl.
    assert (mpsc_view (mpsc_permit_send value inner') = cv_push value 0 (mpsc_view inner)) as Hs.
    { rewrite mpsc_permit_send_law by (rewrite Hv; simpl; lia). by rewrite Hv. }
    rewrite Hs. simpl. rewrite Ec. split_and!; [done| |].
    + split; unfold cv_used, queued, popped_count; simpl; rewrite ?Hs; simpl; rewrite ?length_app; simpl; try done; try lia; auto.
    + split_and!; simpl; try done. by rewrite Hs; simpl; rewrite Ec.
  - eexists _, _. split; [done|]. simpl. rewrite Hv, Ec. split_and!; [done| |].
    + split; unfold cv_used, queued, popped_count; simpl; rewrite ?Hv, ?I2, ?Q4, ?N.add_0_r; simpl; try done; try lia; try (by rewrite Q4).
    + split_and!; simpl; try done. by rewrite Hv, Ec.
Qed.

Lemma recv_alone_refines capacity c :
  bounded_channel_inv capacity c → channel_quiet c → cs_receiver_open (bc_state c) = true →
  let '(c', r) := recv_alone c in
  bounded_channel_inv capacity c' ∧ channel_quiet c' ∧
  match r with
  | Ready (Some x) => bq_try_recv (queue_of c) = Some (x, queue_of c')
  | _ => bq_try_recv (queue_of c) = None ∧ queue_of c' = queue_of c
  end.
Proof.
  intros [I1 I2 I3 I4 I5 I6] (Q1 & Q2 & Q3 & Q4) Ho. destruct c as [inner s reserved counted popped]. simpl in *.
  subst reserved counted popped. unfold recv_alone, bq_try_recv, queue_of, cv_used, queued, popped_count in *. simpl in *.
  rewrite Ho in *. pose proof (mpsc_recv_law inner) as Hl. cbv zeta in Hl. destruct (mpsc_recv inner) as [inner' r].
  destruct (cv_queue (mpsc_view inner)) as [|x q] eqn:Eq; destruct Hl as [Hv ->].
  - assert (bounded_channel_inv capacity (MkBoundedChannel inner' s 0 0 None)) as Hi.
    { split; unfold cv_used, queued, popped_count; simpl; rewrite ?Hv, ?Eq, ?Ho; simpl; try done; auto. }
    assert (channel_quiet (MkBoundedChannel inner' s 0 0 None)) as Hq by (split_and!; simpl; rewrite ?Hv, ?Ho; done).
    destruct ((cv_closed _ || _) && _); simpl; rewrite Hv, Eq; by split_and!.
  - simpl. split_and!; simpl; rewrite ?Hv; try done.
    split; unfold cv_used, queued, popped_count, saturating_sub; simpl; rewrite ?Hv, ?Ho; simpl in *; unfold saturating_sub; try done; try lia.
    split_and!; simpl; rewrite ?Hv, ?Ho; done.
Qed.
End Channel.
