(* ===== verification/Clients.v ===== *)
(** SSE client scheduling of one publication ([kgi-api-core], client.rs):
    bounded connection mailboxes with one coalescible wakeup per publication,
    and the registry of live clients with their delta-wakeup schedules.

    Mailboxes are shared objects: a connection owns its mailbox, registries
    hold it weakly.  They live in a store keyed by identity; a weak reference
    upgrades exactly while the mailbox is in the store.  A cancellation token
    is an identity, and the set of cancelled ones is kept.  The base64 engine
    and the random source are not part of the repository: the former is a
    parameter, the latter is the list of values it will draw. *)

From Stdlib Require Import String.
From S2P Require Import Prelude Model Ladder.

Definition MAX_SSE_CLIENTS : N := 1024.
Definition SSE_CLIENT_BUFFER_CAPACITY : N := 8.

Definition ClientIdentifier : Type := N.
Definition MailboxId : Type := N.
Definition TokenId : Type := N.

(** [u64::to_be_bytes]. *)
Definition to_be_bytes (x : N) : list N :=
  (λ k, N.land (N.shiftr x (8 * k)) 255) <$> [7; 6; 5; 4; 3; 2; 1; 0].

Record ClientRegistrationDto := MkClientRegistrationDto { client_id : string }.
Record PublicationWakeupDto := MkPublicationWakeupDto { wk_publication_id : N; wk_revision : N }.
Record PublicationStateDto := MkPublicationStateDto {
  ps_publication_id : N;
  ps_revision : N;
  ps_state : GraphPublicationState
}.

Inductive SseMessage :=
  | ClientRegistration (registration : ClientRegistrationDto)
  | PublicationWakeup (wakeup : PublicationWakeupDto)
  | PublicationState (state : PublicationStateDto).

Inductive SseMailboxItem :=
  | Required (message : SseMessage)
  | GraphWakeup (wakeup : PublicationWakeupDto).

Record SseMailboxState := MkSseMailboxState { mb_closed : bool; mb_queue : list SseMailboxItem }.

Inductive SseMailboxAdmissionError := AdmissionClosed | AdmissionFull.

(** * The mailbox state under its lock *)

Definition wakeup_of (publication_id : N) (item : SseMailboxItem) : Prop :=
  match item with GraphWakeup queued => wk_publication_id queued = publication_id | Required _ => False end.
#[global] Instance wakeup_of_dec p item : Decision (wakeup_of p item).
Proof. destruct item; simpl; apply _. Defined.

(** [SSE_CLIENT_BUFFER_CAPACITY - len] is an unsigned subtraction. *)
Definition admit_required (messages : list SseMessage) (s : SseMailboxState) :
    option (Result SseMailboxState SseMailboxAdmissionError) :=
  if mb_closed s then Some (Err AdmissionClosed)
  else
    free ← checked_sub SSE_CLIENT_BUFFER_CAPACITY (N.of_nat (length (mb_queue s)));
    if decide (free < N.of_nat (length messages)) then Some (Err AdmissionFull)
    else Some (Ok (MkSseMailboxState (mb_closed s) (mb_queue s ++ (Required <$> messages)))).

Definition coalesce_queued_graph_wakeup (wakeup : PublicationWakeupDto) (s : SseMailboxState) :
    SseMailboxState * bool :=
  match list_find (wakeup_of (wk_publication_id wakeup)) (mb_queue s) with
  | None => (s, false)
  | Some (index, _) =>
    (MkSseMailboxState (mb_closed s) (delete index (mb_queue s) ++ [GraphWakeup wakeup]), true)
  end.

Definition admit_graph_wakeup (wakeup : PublicationWakeupDto) (s : SseMailboxState) :
    Result SseMailboxState SseMailboxAdmissionError :=
  if mb_closed s then Err AdmissionClosed
  else
    let '(s, coalesced) := coalesce_queued_graph_wakeup wakeup s in
    if coalesced then Ok s
    else if decide (N.of_nat (length (mb_queue s)) = SSE_CLIENT_BUFFER_CAPACITY) then Err AdmissionFull
    else Ok (MkSseMailboxState (mb_closed s) (mb_queue s ++ [GraphWakeup wakeup])).

Definition coalesce_graph_wakeup (wakeup : PublicationWakeupDto) (s : SseMailboxState) :
    Result (SseMailboxState * bool) SseMailboxAdmissionError :=
  if mb_closed s then Err AdmissionClosed else Ok (coalesce_queued_graph_wakeup wakeup s).

Definition remove_graph_wakeup (publication_id : N) (s : SseMailboxState) : SseMailboxState * bool :=
  match list_find (wakeup_of publication_id) (mb_queue s) with
  | None => (s, false)
  | Some (index, _) => (MkSseMailboxState (mb_closed s) (delete index (mb_queue s)), true)
  end.

(** * The mailbox

    [sm_ready] is the stored permit of [Notify]; [sm_waiting] holds from a poll
    of [recv] that found nothing until the receiver is polled again. *)

Record SseMailbox := MkSseMailbox {
  sm_state : SseMailboxState;
  sm_ready : bool;
  sm_waiting : bool
}.
Definition SseMailbox_new : SseMailbox := MkSseMailbox (MkSseMailboxState false []) false false.

Definition set_state (s : SseMailboxState) (m : SseMailbox) : SseMailbox :=
  MkSseMailbox s (sm_ready m) (sm_waiting m).
Definition notify_receiver (m : SseMailbox) : SseMailbox := MkSseMailbox (sm_state m) true (sm_waiting m).

(** The operations of the mailbox itself: the locked section, then the wakeup. *)
Definition mailbox_admit_required (messages : list SseMessage) (m : SseMailbox) :
    option (Result SseMailbox SseMailboxAdmissionError) :=
  r ← admit_required messages (sm_state m);
  s ←? r; Some (Ok (if bool_decide (length messages = 0%nat) then set_state s m else notify_receiver (set_state s m))).

Definition mailbox_admit_graph_wakeup (wakeup : PublicationWakeupDto) (m : SseMailbox) :
    Result SseMailbox SseMailboxAdmissionError :=
  match admit_graph_wakeup wakeup (sm_state m) with
  | Ok s => Ok (notify_receiver (set_state s m))
  | Err e => Err e
  end.

Definition mailbox_coalesce_graph_wakeup (wakeup : PublicationWakeupDto) (m : SseMailbox) :
    Result (SseMailbox * bool) SseMailboxAdmissionError :=
  match coalesce_graph_wakeup wakeup (sm_state m) with
  | Ok (s, coalesced) =>
    Ok (if coalesced : bool then notify_receiver (set_state s m) else set_state s m, coalesced)
  | Err e => Err e
  end.

Definition mailbox_remove_graph_wakeup (publication_id : N) (m : SseMailbox) : SseMailbox * bool :=
  let '(s, removed) := remove_graph_wakeup publication_id (sm_state m) in (set_state s m, removed).

Definition close (m : SseMailbox) : SseMailbox :=
  if mb_closed (sm_state m) then m
  else notify_receiver (set_state (MkSseMailboxState true (mb_queue (sm_state m))) m).

(** One poll of [recv]: [Some (Some m)] delivers, [Some None] is the end of the
    stream, [None] waits; a stored permit only makes the loop look again. *)
Definition recv (m : SseMailbox) : SseMailbox * option (option SseMessage) :=
  match mb_queue (sm_state m) with
  | item :: queue =>
    (MkSseMailbox (MkSseMailboxState (mb_closed (sm_state m)) queue) (sm_ready m) false,
     Some (Some (match item with Required message => message | GraphWakeup wakeup => PublicationWakeup wakeup end)))
  | [] =>
    if mb_closed (sm_state m) then (MkSseMailbox (sm_state m) (sm_ready m) false, Some None)
    else (MkSseMailbox (sm_state m) false true, None)
  end.

(** * The registry *)

Record DeltaWakeSchedule := MkDeltaWakeSchedule { wake_at_revision_id : N; wake_sent : bool }.

Record SseClientRegistration := MkSseClientRegistration {
  cl_schedule : DeltaWakeSchedule;
  cl_mailbox : MailboxId;
  cl_disconnect : TokenId
}.

Record SseClientRegistryState := MkSseClientRegistryState {
  rg_publication_id : N;
  rg_publication_state : GraphPublicationState;
  rg_head_revision_id : N;
  rg_clients : gmap N SseClientRegistration
}.

Definition SseClientRegistry_new (publication_id : N) (st : GraphPublicationState) (head : N) :
    SseClientRegistryState := MkSseClientRegistryState publication_id st head ∅.

Inductive SseClientRegistrationError :=
  | RegistrationCapacity
  | RegistrationMailbox (e : SseMailboxAdmissionError).
Inductive SseClientReplacementError :=
  | ReplacementMissing
  | ReplacementCapacity
  | ReplacementMailbox (e : SseMailboxAdmissionError).
Inductive DeltaScheduleAction :=
  | Replace (wake_at : N) (sent : bool)
  | ValidateOnly.
Inductive DeltaCompletionResult := DeltaAccepted | RegistrationMissing.
#[global] Instance DeltaCompletionResult_eq_dec : EqDecision DeltaCompletionResult.
Proof. solve_decision. Defined.

(** The connections: the live mailboxes and the cancelled tokens. *)
Record Connections := MkConnections {
  cx_mailboxes : gmap MailboxId SseMailbox;
  cx_cancelled : gset TokenId
}.

Definition upgrade (m : MailboxId) (cx : Connections) : option SseMailbox := cx_mailboxes cx !! m.
Definition store_mailbox (m : MailboxId) (b : SseMailbox) (cx : Connections) : Connections :=
  MkConnections (<[m := b]> (cx_mailboxes cx)) (cx_cancelled cx).
Definition notify_mailboxes (ms : list MailboxId) (cx : Connections) : Connections :=
  MkConnections (foldr (alter notify_receiver) (cx_mailboxes cx) ms) (cx_cancelled cx).
Definition cancel_connections (ts : list TokenId) (cx : Connections) : Connections :=
  MkConnections (cx_mailboxes cx) (cx_cancelled cx ∪ list_to_set ts).

Definition set_clients (cs : gmap N SseClientRegistration) (rg : SseClientRegistryState) :
    SseClientRegistryState :=
  MkSseClientRegistryState (rg_publication_id rg) (rg_publication_state rg) (rg_head_revision_id rg) cs.

(** The identifiers drawn until one is free; [None]: not yet. *)
Fixpoint generate_identifier (random : list N) (cs : gmap N SseClientRegistration) : option ClientIdentifier :=
  match random with
  | [] => None
  | candidate :: random =>
    if decide (is_Some (cs !! candidate)) then generate_identifier random cs else Some candidate
  end.

(** ** [HashMap::retain] over the clients

    Every closure first upgrades the mailbox and drops the registration when
    that fails; otherwise it works on the locked mailbox state, and drops the
    registration, or keeps it changed together with the new mailbox state and
    whether the mailbox is to be notified. *)

Record Retained := MkRetained {
  rt_clients : gmap N SseClientRegistration;
  rt_connections : Connections;
  rt_cancellations : list TokenId;
  rt_readiness : list MailboxId
}.

Definition Visit : Type :=
  SseClientRegistration → SseMailboxState → option (option (SseClientRegistration * SseMailboxState * bool)).

Definition retain_drop (p : N * SseClientRegistration) (rt : Retained) : Retained :=
  MkRetained (delete p.1 (rt_clients rt)) (rt_connections rt) (rt_cancellations rt ++ [cl_disconnect p.2])
    (rt_readiness rt).

Definition retain_step (visit : Visit) (rt : Retained) (p : N * SseClientRegistration) : option Retained :=
  match upgrade (cl_mailbox p.2) (rt_connections rt) with
  | None => Some (retain_drop p rt)
  | Some b =>
    kept ← visit p.2 (sm_state b);
    Some match kept with
         | None => retain_drop p rt
         | Some (c, s, ready) =>
           MkRetained (<[p.1 := c]> (rt_clients rt))
             (store_mailbox (cl_mailbox p.2) (set_state s b) (rt_connections rt)) (rt_cancellations rt)
             (if (ready : bool) then rt_readiness rt ++ [cl_mailbox p.2] else rt_readiness rt)
         end
  end.

(** The iteration order of a [HashMap] is unspecified: [order] lists its entries. *)
Definition retain_in (order : list (N * SseClientRegistration)) (visit : Visit)
    (cs : gmap N SseClientRegistration) (cx : Connections) : option Retained :=
  fold_m (retain_step visit) (MkRetained cs cx [] []) order.

Definition visit_live : Visit := λ (c : SseClientRegistration) (s : SseMailboxState), Some (Some (c, s, false)).

Definition visit_publish_state (message : SseMessage) : Visit :=
  λ (c : SseClientRegistration) (s : SseMailboxState),
  r ← admit_required [message] s;
  Some match r with Err _ => None | Ok s => Some (c, s, true) end.

Definition advance_schedule (revision : N) (sched : DeltaWakeSchedule) : DeltaWakeSchedule :=
  if negb (wake_sent sched) && bool_decide (wake_at_revision_id sched ≤ revision)
  then MkDeltaWakeSchedule (wake_at_revision_id sched) true else sched.

Definition visit_advance_head (publication_id revision : N) : Visit :=
  λ (c : SseClientRegistration) (s : SseMailboxState),
  let wakeup := MkPublicationWakeupDto publication_id revision in
  let queued :=
    if wake_sent (cl_schedule c) then coalesce_graph_wakeup wakeup s
    else if decide (wake_at_revision_id (cl_schedule c) ≤ revision)
    then match admit_graph_wakeup wakeup s with Ok s => Ok (s, true) | Err e => Err e end
    else Ok (s, false) in
  Some match queued with
       | Err _ => None
       | Ok (s, queued) =>
         Some (MkSseClientRegistration (advance_schedule revision (cl_schedule c)) (cl_mailbox c)
                 (cl_disconnect c), s, queued)
       end.

(** The end of a registry operation: notifications, then cancellations. *)
Definition finish_retained (rg : SseClientRegistryState) (rt : Retained) : SseClientRegistryState * Connections :=
  (set_clients (rt_clients rt) rg,
   cancel_connections (rt_cancellations rt) (notify_mailboxes (rt_readiness rt) (rt_connections rt))).

Definition publish_state_in (order : list (N * SseClientRegistration)) (st : GraphPublicationState) (revision : N)
    (rg : SseClientRegistryState) (cx : Connections) : option (SseClientRegistryState * Connections) :=
  _ ← assert_ (rg_head_revision_id rg = revision);
  let rg := MkSseClientRegistryState (rg_publication_id rg) st (rg_head_revision_id rg) (rg_clients rg) in
  let message := PublicationState (MkPublicationStateDto (rg_publication_id rg) revision st) in
  rt ← retain_in order (visit_publish_state message) (rg_clients rg) cx;
  Some (finish_retained rg rt).
Definition publish_state st revision rg := publish_state_in (map_to_list (rg_clients rg)) st revision rg.

Definition advance_head_in (order : list (N * SseClientRegistration)) (revision : N)
    (rg : SseClientRegistryState) (cx : Connections) : option (SseClientRegistryState * Connections) :=
  _ ← assert_ (rg_head_revision_id rg ≤ revision);
  let rg := MkSseClientRegistryState (rg_publication_id rg) (rg_publication_state rg) revision (rg_clients rg) in
  rt ← retain_in order (visit_advance_head (rg_publication_id rg) revision) (rg_clients rg) cx;
  Some (finish_retained rg rt).
Definition advance_head revision rg := advance_head_in (map_to_list (rg_clients rg)) revision rg.

(** ** One registration *)

Definition remove (identifier : ClientIdentifier) (rg : SseClientRegistryState) : SseClientRegistryState * bool :=
  (set_clients (delete identifier (rg_clients rg)) rg, bool_decide (is_Some (rg_clients rg !! identifier))).

(** The registration is gone: it is dropped and its connection cancelled. *)
Definition drop_registration (identifier : ClientIdentifier) (c : SseClientRegistration)
    (rg : SseClientRegistryState) (cx : Connections) :
    SseClientRegistryState * Connections * DeltaCompletionResult :=
  (set_clients (delete identifier (rg_clients rg)) rg, cancel_connections [cl_disconnect c] cx, RegistrationMissing).

Definition set_schedule (identifier : ClientIdentifier) (sched : DeltaWakeSchedule) (rg : SseClientRegistryState) :
    SseClientRegistryState :=
  set_clients (alter (λ c, MkSseClientRegistration sched (cl_mailbox c) (cl_disconnect c)) identifier
                 (rg_clients rg)) rg.

Definition complete_delta (identifier : ClientIdentifier) (action : DeltaScheduleAction)
    (rg : SseClientRegistryState) (cx : Connections) :
    SseClientRegistryState * Connections * DeltaCompletionResult :=
  match rg_clients rg !! identifier with
  | None => (rg, cx, RegistrationMissing)
  | Some c =>
    match upgrade (cl_mailbox c) cx with
    | None => drop_registration identifier c rg cx
    | Some b =>
      if mb_closed (sm_state b) then drop_registration identifier c rg cx
      else
        match action with
        | ValidateOnly => (rg, cx, DeltaAccepted)
        | Replace wake_at sent =>
          let s := (remove_graph_wakeup (rg_publication_id rg) (sm_state b)).1 in
          let cx := store_mailbox (cl_mailbox c) (set_state s b) cx in
          if negb sent && bool_decide (wake_at ≤ rg_head_revision_id rg) then
            match admit_graph_wakeup (MkPublicationWakeupDto (rg_publication_id rg) (rg_head_revision_id rg)) s with
            | Err _ => drop_registration identifier c rg cx
            | Ok s =>
              (set_schedule identifier (MkDeltaWakeSchedule wake_at true) rg,
               store_mailbox (cl_mailbox c) (notify_receiver (set_state s b)) cx, DeltaAccepted)
            end
          else (set_schedule identifier (MkDeltaWakeSchedule wake_at sent) rg, cx, DeltaAccepted)
        end
    end
  end.

Definition validate (identifier : ClientIdentifier) (rg : SseClientRegistryState) (cx : Connections) :
    SseClientRegistryState * Connections * bool :=
  let '(rg, cx, r) := complete_delta identifier ValidateOnly rg cx in (rg, cx, bool_decide (r = DeltaAccepted)).

Section Clients.
(** [URL_SAFE_NO_PAD.encode]. *)
Context (base64_encode : list N → string).

Definition encode (identifier : ClientIdentifier) : string := base64_encode (to_be_bytes identifier).
Definition registration (identifier : ClientIdentifier) : ClientRegistrationDto :=
  MkClientRegistrationDto (encode identifier).

(** The required batch that introduces a client to a publication. *)
Definition initial_batch (identifier : ClientIdentifier) (rg : SseClientRegistryState) : list SseMessage :=
  [ClientRegistration (registration identifier);
   PublicationState (MkPublicationStateDto (rg_publication_id rg) (rg_head_revision_id rg) (rg_publication_state rg));
   PublicationWakeup (MkPublicationWakeupDto (rg_publication_id rg) (rg_head_revision_id rg))].

Definition register_with_in (order : list (N * SseClientRegistration)) (client_revision_id : N)
    (mailbox : MailboxId) (disconnect : TokenId) (random : list N)
    (rg : SseClientRegistryState) (cx : Connections) :
    option (SseClientRegistryState * Connections * Result ClientIdentifier SseClientRegistrationError) :=
  rt ← retain_in order visit_live (rg_clients rg) cx;
  let rg := set_clients (rt_clients rt) rg in
  let cx := rt_connections rt in
  if decide (N.of_nat (size (rg_clients rg)) = MAX_SSE_CLIENTS) then
    Some (rg, cancel_connections (rt_cancellations rt) cx, Err RegistrationCapacity)
  else
    identifier ← generate_identifier random (rg_clients rg);
    b ← upgrade mailbox cx;
    r ← admit_required (initial_batch identifier rg) (sm_state b);
    match r with
    | Ok s =>
      let c := MkSseClientRegistration (MkDeltaWakeSchedule client_revision_id true) mailbox disconnect in
      let cx := store_mailbox mailbox (notify_receiver (set_state s b)) cx in
      Some (set_clients (<[identifier := c]> (rg_clients rg)) rg,
            cancel_connections (rt_cancellations rt) cx, Ok identifier)
    | Err error =>
      Some (rg, cancel_connections (rt_cancellations rt ++ [disconnect]) cx, Err (RegistrationMailbox error))
    end.
Definition register_with client_revision_id mailbox disconnect random rg :=
  register_with_in (map_to_list (rg_clients rg)) client_revision_id mailbox disconnect random rg.

(** [SseClientRegistryState::replace_registration_into]; the last component is
    [cancellations]. *)
Definition replace_state_in (order : list (N * SseClientRegistration)) (old_identifier : ClientIdentifier)
    (random : list N) (old replacement : SseClientRegistryState) (cx : Connections) :
    option (SseClientRegistryState * SseClientRegistryState * Connections * list TokenId *
            Result (ClientIdentifier * MailboxId) SseClientReplacementError) :=
  match rg_clients old !! old_identifier with
  | None => Some (old, replacement, cx, [], Err ReplacementMissing)
  | Some c =>
    let old := set_clients (delete old_identifier (rg_clients old)) old in
    match upgrade (cl_mailbox c) cx with
    | None => Some (old, replacement, cx, [cl_disconnect c], Err ReplacementMissing)
    | Some b =>
      rt ← retain_in order visit_live (rg_clients replacement) cx;
      let replacement := set_clients (rt_clients rt) replacement in
      let cancellations := rt_cancellations rt in
      let s := (remove_graph_wakeup (rg_publication_id old) (sm_state b)).1 in
      let cx := store_mailbox (cl_mailbox c) (set_state s b) (rt_connections rt) in
      if decide (N.of_nat (size (rg_clients replacement)) = MAX_SSE_CLIENTS) then
        Some (old, replacement, cx, cancellations ++ [cl_disconnect c], Err ReplacementCapacity)
      else
        identifier ← generate_identifier random (rg_clients replacement);
        r ← admit_required (initial_batch identifier replacement) s;
        match r with
        | Err error =>
          Some (old, replacement, cx, cancellations ++ [cl_disconnect c], Err (ReplacementMailbox error))
        | Ok s =>
          let c' := MkSseClientRegistration (MkDeltaWakeSchedule (rg_head_revision_id replacement) true)
                      (cl_mailbox c) (cl_disconnect c) in
          Some (old, set_clients (<[identifier := c']> (rg_clients replacement)) replacement,
                store_mailbox (cl_mailbox c) (set_state s b) cx, cancellations, Ok (identifier, cl_mailbox c))
        end
    end
  end.

(** [replace_registration_into_with] on two registries; their distinct
    addresses and the lock order are not visible here. *)
Definition replace_registration_into_in (order : list (N * SseClientRegistration))
    (old_identifier : ClientIdentifier) (random : list N)
    (old replacement : SseClientRegistryState) (cx : Connections) :
    option (SseClientRegistryState * SseClientRegistryState * Connections *
            Result ClientIdentifier SseClientReplacementError) :=
  _ ← assert_ (rg_publication_id old ≠ rg_publication_id replacement);
  '(old, replacement, cx, cancellations, r) ← replace_state_in order old_identifier random old replacement cx;
  let '(cx, r) := match r with
                  | Ok (identifier, m) => (notify_mailboxes [m] cx, Ok identifier)
                  | Err e => (cx, Err e)
                  end in
  Some (old, replacement, cancel_connections cancellations cx, r).
Definition replace_registration_into old_identifier random old replacement :=
  replace_registration_into_in (map_to_list (rg_clients replacement)) old_identifier random old replacement.
End Clients.
