(* ===== verification/ClientsSafety.v ===== *)
(** Specifications of the SSE mailbox and of the passes over the registered
    clients, and the invariant of a set of publications that share their
    connections. *)

From Stdlib Require Import String.
From S2P Require Import Prelude Model Ladder Clients.

(** * Queued wakeups *)

(** The revisions announced by the queued graph wakeups of one publication. *)
Definition wakes (p : N) (q : list SseMailboxItem) : list N :=
  omap (λ item, match item with
                | GraphWakeup w => if decide (wk_publication_id w = p) then Some (wk_revision w) else None
                | Required _ => None
                end) q.

Lemma wakes_app p q1 q2 : wakes p (q1 ++ q2) = wakes p q1 ++ wakes p q2.
Proof. apply omap_app. Qed.

Lemma wakes_required p ms : wakes p (Required <$> ms) = [].
Proof. induction ms as [|m ms IH]; [done|]. exact IH. Qed.

Lemma wakes_one p w : wakes p [GraphWakeup w] = if decide (wk_publication_id w = p) then [wk_revision w] else [].
Proof. unfold wakes. csimpl. by case_decide. Qed.

Lemma wakes_none p q : Forall (λ item, ¬ wakeup_of p item) q → wakes p q = [].
Proof. induction 1 as [|[m|w] q Hw _ IH]; csimpl; [done|exact IH|]. simpl in Hw. by rewrite decide_False. Qed.

Lemma find_wakeup_None p q : list_find (wakeup_of p) q = None → wakes p q = [].
Proof. rewrite list_find_None. apply wakes_none. Qed.

(** Removing the first wakeup of a publication leaves the others alone. *)
Lemma find_wakeup_Some p q i x :
  list_find (wakeup_of p) q = Some (i, x) →
  length q = S (length (delete i q)) ∧
  (∃ r, wakes p q = r :: wakes p (delete i q)) ∧
  ∀ p', p' ≠ p → wakes p' (delete i q) = wakes p' q.
Proof.
  intros (Hi & Hx & Hlt)%list_find_Some. pose proof (lookup_lt_Some _ _ _ Hi) as Hlen.
  assert (q = take i q ++ x :: drop (S i) q) as Hq by by rewrite take_drop_middle.
  assert (Forall (λ item, ¬ wakeup_of p item) (take i q)) as Hf.
  { apply Forall_lookup. intros j y (Hj & ?)%lookup_take_Some. by eapply Hlt. }
  rewrite delete_take_drop. split_and!.
  - rewrite length_app, length_take, length_drop. lia.
  - destruct x as [m|w]; [done|]. simpl in Hx. exists (wk_revision w).
    rewrite Hq at 1. rewrite !wakes_app, (wakes_none p (take i q)) by done. simpl. csimpl.
    by rewrite decide_True.
  - intros p' Hp. rewrite Hq at 3. rewrite !wakes_app. f_equal. destruct x as [m|w]; [done|].
    simpl in Hx. csimpl. rewrite decide_False by congruence. done.
Qed.

(** * The mailbox *)

(** At most eight messages, at most one wakeup of any publication. *)
Record queue_ok (s : SseMailboxState) : Prop := {
  qo_bounded : N.of_nat (length (mb_queue s)) ≤ SSE_CLIENT_BUFFER_CAPACITY;
  qo_single p : (length (wakes p (mb_queue s)) ≤ 1)%nat
}.

(** The state differs only in the wakeups of publication [p]. *)
Definition wakes_frame (p : N) (s s' : SseMailboxState) : Prop :=
  mb_closed s' = mb_closed s ∧ ∀ p', p' ≠ p → wakes p' (mb_queue s') = wakes p' (mb_queue s).

Lemma wakes_frame_trans p s1 s2 s3 : wakes_frame p s1 s2 → wakes_frame p s2 s3 → wakes_frame p s1 s3.
Proof. intros [E1 H1] [E2 H2]. split; [congruence|]. intros. by rewrite H2, H1. Qed.

Lemma admit_required_spec ms s :
  queue_ok s →
  ∃ r, admit_required ms s = Some r ∧
    match r with
    | Ok s' => mb_closed s = false ∧ mb_closed s' = false ∧
        mb_queue s' = mb_queue s ++ (Required <$> ms) ∧ queue_ok s' ∧
        ∀ p, wakes p (mb_queue s') = wakes p (mb_queue s)
    | Err AdmissionClosed => mb_closed s = true
    | Err AdmissionFull => mb_closed s = false ∧
        SSE_CLIENT_BUFFER_CAPACITY < N.of_nat (length (mb_queue s) + length ms)
    end.
Proof.
  intros [Hb Hs]. unfold admit_required. destruct (mb_closed s) eqn:Ec; [by eexists|].
  rewrite checked_sub_Some by done. run_bind. case_decide as Hd.
  - eexists. split; [done|]. split; [done|]. lia.
  - eexists. split; [done|]. simpl. split_and!; try done.
    + split; simpl; [rewrite length_app, length_fmap; lia|].
      intros p. by rewrite wakes_app, wakes_required, app_nil_r.
    + intros p. by rewrite wakes_app, wakes_required, app_nil_r.
Qed.

Lemma coalesce_queued_spec w s :
  queue_ok s →
  let '(s', coalesced) := coalesce_queued_graph_wakeup w s in
  wakes_frame (wk_publication_id w) s s' ∧ queue_ok s' ∧
  length (mb_queue s') = length (mb_queue s) ∧
  if coalesced : bool
  then wakes (wk_publication_id w) (mb_queue s) ≠ [] ∧ wakes (wk_publication_id w) (mb_queue s') = [wk_revision w]
  else s' = s ∧ wakes (wk_publication_id w) (mb_queue s) = [].
Proof.
  intros [Hb Hs]. unfold coalesce_queued_graph_wakeup.
  destruct (list_find _ _) as [[i x]|] eqn:Ef; [|split_and!; try done; by apply find_wakeup_None].
  apply find_wakeup_Some in Ef as (Hl & (r & Hr) & Ho). pose proof (Hs (wk_publication_id w)) as H1.
  rewrite Hr in H1. simpl in H1. assert (wakes (wk_publication_id w) (delete i (mb_queue s)) = []) as Hn
    by (apply nil_length_inv; lia).
  assert (∀ p, wakes p (delete i (mb_queue s) ++ [GraphWakeup w]) =
    if decide (wk_publication_id w = p) then [wk_revision w] else wakes p (mb_queue s)) as Hw.
  { intros p. rewrite wakes_app, wakes_one. case_decide as Hp; [subst p; by rewrite Hn|].
    rewrite app_nil_r. by apply Ho. }
  assert (length (delete i (mb_queue s) ++ [GraphWakeup w]) = length (mb_queue s)) as Hlen
    by (rewrite length_app; simpl; lia).
  split_and!; simpl; try done.
  - split; [done|]. intros p Hp. simpl. rewrite Hw. by rewrite decide_False.
  - split; simpl; [by rewrite Hlen|]. intros p. rewrite Hw. case_decide; [simpl; lia|apply Hs].
  - by rewrite Hr.
  - rewrite Hw. by rewrite decide_True.
Qed.

Lemma admit_graph_wakeup_spec w s :
  queue_ok s →
  match admit_graph_wakeup w s with
  | Ok s' => mb_closed s = false ∧ wakes_frame (wk_publication_id w) s s' ∧ queue_ok s' ∧
             wakes (wk_publication_id w) (mb_queue s') = [wk_revision w]
  | Err AdmissionClosed => mb_closed s = true
  | Err AdmissionFull => mb_closed s = false ∧ N.of_nat (length (mb_queue s)) = SSE_CLIENT_BUFFER_CAPACITY ∧
             wakes (wk_publication_id w) (mb_queue s) = []
  end.
Proof.
  intros Hs. unfold admit_graph_wakeup. destruct (mb_closed s) eqn:Ec; [done|].
  pose proof (coalesce_queued_spec w s Hs) as Hc. destruct (coalesce_queued_graph_wakeup w s) as [s' []].
  - naive_solver.
  - destruct Hc as (_ & _ & _ & -> & Hn). case_decide as Hd; [done|]. destruct Hs as [Hb Hs].
    assert (∀ p, wakes p (mb_queue s ++ [GraphWakeup w]) =
      if decide (wk_publication_id w = p) then [wk_revision w] else wakes p (mb_queue s)) as Hw.
    { intros p. rewrite wakes_app, wakes_one. case_decide as Hp; [subst p; by rewrite Hn|by rewrite app_nil_r]. }
    split_and!; simpl; try done.
    + split; [done|]. intros p Hp. simpl. rewrite Hw. by rewrite decide_False.
    + split; simpl; [rewrite length_app; simpl; lia|]. intros p. rewrite Hw. case_decide; [simpl; lia|apply Hs].
    + rewrite Hw. by rewrite decide_True.
Qed.

Lemma remove_graph_wakeup_spec p s :
  queue_ok s →
  wakes_frame p s (remove_graph_wakeup p s).1 ∧ queue_ok (remove_graph_wakeup p s).1 ∧
  wakes p (mb_queue (remove_graph_wakeup p s).1) = [] ∧
  (length (mb_queue (remove_graph_wakeup p s).1) ≤ length (mb_queue s))%nat.
Proof.
  intros [Hb Hs]. unfold remove_graph_wakeup. destruct (list_find _ _) as [[i x]|] eqn:Ef; simpl.
  - apply find_wakeup_Some in Ef as (Hl & (r & Hr) & Ho). pose proof (Hs p) as H1. rewrite Hr in H1. simpl in H1.
    assert (wakes p (delete i (mb_queue s)) = []) as Hn by (apply nil_length_inv; lia).
    split_and!; try done; [|lia]. split; simpl; [lia|]. intros p'.
    destruct (decide (p' = p)) as [->|Hp]; [rewrite Hn; simpl; lia|]. rewrite Ho by done. apply Hs.
  - split_and!; try done. by apply find_wakeup_None.
Qed.

(** * Passes over the clients *)

(** What a visit decides for a client, given the mailboxes before the pass. *)
Definition verdict (visit : Visit) (boxes : gmap MailboxId SseMailbox) (c : SseClientRegistration) :
    option (SseClientRegistration * SseMailboxState * bool) :=
  b ← boxes !! cl_mailbox c; kept ← visit c (sm_state b); kept.

(** The visits of the live mailboxes do not panic. *)
Definition visits_total (visit : Visit) (boxes : gmap MailboxId SseMailbox)
    (order : list (N * SseClientRegistration)) : Prop :=
  ∀ id c b, (id, c) ∈ order → boxes !! cl_mailbox c = Some b → is_Some (visit c (sm_state b)).

Definition retained_mailbox (visit : Visit) (boxes : gmap MailboxId SseMailbox) (c : SseClientRegistration) :
    option SseMailbox :=
  match boxes !! cl_mailbox c, verdict visit boxes c with
  | Some b, Some (_, s, _) => Some (set_state s b)
  | o, _ => o
  end.

(** The outcome of a pass: every client's fate depends only on its own
    registration and on its own mailbox. *)
Record retained_by (visit : Visit) (order : list (N * SseClientRegistration)) (rt0 rt : Retained) : Prop := {
  rb_client id c : (id, c) ∈ order →
    rt_clients rt !! id = (λ v, v.1.1) <$> verdict visit (cx_mailboxes (rt_connections rt0)) c;
  rb_other_clients id : id ∉ order.*1 → rt_clients rt !! id = rt_clients rt0 !! id;
  rb_mailbox id c : (id, c) ∈ order →
    cx_mailboxes (rt_connections rt) !! cl_mailbox c =
      retained_mailbox visit (cx_mailboxes (rt_connections rt0)) c;
  rb_other_mailboxes m : m ∉ (cl_mailbox <$> order.*2) →
    cx_mailboxes (rt_connections rt) !! m = cx_mailboxes (rt_connections rt0) !! m;
  rb_cancelled : cx_cancelled (rt_connections rt) = cx_cancelled (rt_connections rt0);
  rb_cancellations t : t ∈ rt_cancellations rt ↔
    t ∈ rt_cancellations rt0 ∨
    ∃ id c, (id, c) ∈ order ∧ cl_disconnect c = t ∧ verdict visit (cx_mailboxes (rt_connections rt0)) c = None;
  rb_readiness m : m ∈ rt_readiness rt ↔
    m ∈ rt_readiness rt0 ∨
    ∃ id c c' s, (id, c) ∈ order ∧ cl_mailbox c = m ∧
      verdict visit (cx_mailboxes (rt_connections rt0)) c = Some (c', s, true)
}.

Lemma retain_step_spec visit rt p :
  visits_total visit (cx_mailboxes (rt_connections rt)) [p] →
  ∃ rt', retain_step visit rt p = Some rt' ∧ retained_by visit [p] rt rt'.
Proof.
  destruct p as [id c]. intros Htot. unfold retain_step, upgrade. simpl.
  destruct (cx_mailboxes (rt_connections rt) !! cl_mailbox c) as [b|] eqn:Eb.
  - destruct (Htot id c b) as [kept Hk]; [left|done|]. rewrite Hk. run_bind. eexists. split; [done|].
    assert (verdict visit (cx_mailboxes (rt_connections rt)) c = kept) as Hv.
    { unfold verdict. by rewrite Eb; run_bind; rewrite Hk. }
    destruct kept as [[[c' s] ready]|]; split; simpl; try done.
    + intros i d [= -> ->]%list_elem_of_singleton. by rewrite Hv, lookup_insert_eq.
    + intros i Hi. rewrite lookup_insert_ne; [done|]. set_solver.
    + intros i d [= -> ->]%list_elem_of_singleton. unfold retained_mailbox. by rewrite Eb, Hv, lookup_insert_eq.
    + intros m Hm. rewrite lookup_insert_ne; [done|]. set_solver.
    + intros t. split; [by left|]. intros [?|(i & d & [= -> ->]%list_elem_of_singleton & _ & ?)]; [done|congruence].
    + intros m. destruct ready.
      * rewrite elem_of_app, list_elem_of_singleton. split; [|set_solver].
        intros [?| ->]; [by left|right]. exists id, c, c', s. set_solver.
      * split; [by left|]. intros [?|(i & d & ? & ? & [= -> ->]%list_elem_of_singleton & _ & ?)]; [done|congruence].
    + intros i d [= -> ->]%list_elem_of_singleton. by rewrite Hv, lookup_delete_eq.
    + intros i Hi. rewrite lookup_delete_ne; [done|]. set_solver.
    + intros i d [= -> ->]%list_elem_of_singleton. unfold retained_mailbox. by rewrite Eb, Hv.
    + intros t. rewrite elem_of_app, list_elem_of_singleton. split; [|set_solver].
      intros [?| ->]; [by left|right]. exists id, c. set_solver.
    + intros m. split; [by left|]. intros [?|(i & d & ? & ? & [= -> ->]%list_elem_of_singleton & _ & ?)]; [done|congruence].
  - assert (verdict visit (cx_mailboxes (rt_connections rt)) c = None) as Hv by by unfold verdict; rewrite Eb.
    eexists. split; [done|]. split; simpl; try done.
    + intros i d [= -> ->]%list_elem_of_singleton. by rewrite Hv, lookup_delete_eq.
    + intros i Hi. rewrite lookup_delete_ne; [done|]. set_solver.
    + intros i d [= -> ->]%list_elem_of_singleton. unfold retained_mailbox. by rewrite Eb.
    + intros t. rewrite elem_of_app, list_elem_of_singleton. split; [|set_solver].
      intros [?| ->]; [by left|right]. exists id, c. set_solver.
    + intros m. split; [by left|]. intros [?|(i & d & ? & ? & [= -> ->]%list_elem_of_singleton & _ & ?)]; [done|congruence].
Qed.

Lemma verdict_frame visit boxes boxes' c :
  boxes' !! cl_mailbox c = boxes !! cl_mailbox c →
  verdict visit boxes' c = verdict visit boxes c ∧ retained_mailbox visit boxes' c = retained_mailbox visit boxes c.
Proof. intros E. unfold retained_mailbox, verdict. by rewrite E. Qed.

Lemma retained_by_cons visit p order rt0 rt1 rt2 :
  p.1 ∉ order.*1 → cl_mailbox p.2 ∉ (cl_mailbox <$> order.*2) →
  retained_by visit [p] rt0 rt1 → retained_by visit order rt1 rt2 → retained_by visit (p :: order) rt0 rt2.
Proof.
  destruct p as [id c]. simpl. intros Hid Hm H1 H2.
  assert (∀ i d, (i, d) ∈ order →
    verdict visit (cx_mailboxes (rt_connections rt1)) d = verdict visit (cx_mailboxes (rt_connections rt0)) d ∧
    retained_mailbox visit (cx_mailboxes (rt_connections rt1)) d =
      retained_mailbox visit (cx_mailboxes (rt_connections rt0)) d) as Hfr.
  { intros i d Hd. apply verdict_frame, H1. simpl. rewrite list_elem_of_singleton. intros E. apply Hm.
    rewrite <-E. apply list_elem_of_fmap_2. by apply (list_elem_of_fmap_2 snd) in Hd. }
  split; simpl.
  - intros i d [[= -> ->]|Hd]%elem_of_cons.
    + rewrite (rb_other_clients _ _ _ _ H2) by done. apply (rb_client _ _ _ _ H1 id). by left.
    + rewrite (rb_client _ _ _ _ H2 i d Hd). by rewrite (proj1 (Hfr i d Hd)).
  - intros i [Hi1 Hi2]%not_elem_of_cons. rewrite (rb_other_clients _ _ _ _ H2) by done.
    apply H1. simpl. by rewrite list_elem_of_singleton.
  - intros i d [[= -> ->]|Hd]%elem_of_cons.
    + rewrite (rb_other_mailboxes _ _ _ _ H2) by done. apply (rb_mailbox _ _ _ _ H1 id). by left.
    + rewrite (rb_mailbox _ _ _ _ H2 i d Hd). by rewrite (proj2 (Hfr i d Hd)).
  - intros m [Hi1 Hi2]%not_elem_of_cons. rewrite (rb_other_mailboxes _ _ _ _ H2) by done.
    apply H1. simpl. by rewrite list_elem_of_singleton.
  - by rewrite (rb_cancelled _ _ _ _ H2), (rb_cancelled _ _ _ _ H1).
  - intros t. rewrite (rb_cancellations _ _ _ _ H2), (rb_cancellations _ _ _ _ H1). split.
    + intros [[?|(i & d & [= -> ->]%list_elem_of_singleton & ? & ?)]|(i & d & Hd & ? & Hv)]; [by left|right..].
      * exists id, c. split_and!; [by left|done..].
      * exists i, d. rewrite (proj1 (Hfr i d Hd)) in Hv. split_and!; [by right|done..].
    + intros [?|(i & d & [[= -> ->]|Hd]%elem_of_cons & ? & Hv)]; [by left; left|left; right|right].
      * exists id, c. split_and!; [by left|done..].
      * exists i, d. by rewrite (proj1 (Hfr i d Hd)).
  - intros m. rewrite (rb_readiness _ _ _ _ H2), (rb_readiness _ _ _ _ H1). split.
    + intros [[?|(i & d & c' & s & [= -> ->]%list_elem_of_singleton & ? & ?)]|(i & d & c' & s & Hd & ? & Hv)];
        [by left|right..].
      * exists id, c, c', s. split_and!; [by left|done..].
      * exists i, d, c', s. rewrite (proj1 (Hfr i d Hd)) in Hv. split_and!; [by right|done..].
    + intros [?|(i & d & c' & s & [[= -> ->]|Hd]%elem_of_cons & ? & Hv)]; [by left; left|left; right|right].
      * exists id, c, c', s. split_and!; [by left|done..].
      * exists i, d, c', s. by rewrite (proj1 (Hfr i d Hd)).
Qed.

Lemma retain_spec visit order rt0 :
  NoDup order.*1 → NoDup (cl_mailbox <$> order.*2) →
  visits_total visit (cx_mailboxes (rt_connections rt0)) order →
  ∃ rt, fold_m (retain_step visit) rt0 order = Some rt ∧ retained_by visit order rt0 rt.
Proof.
  revert rt0. induction order as [|p order IH]; intros rt0 Hk Hm Htot; simpl.
  { exists rt0. split; [done|]. split; simpl; set_solver. }
  apply NoDup_cons in Hk as [Hk1 Hk2]. apply NoDup_cons in Hm as [Hm1 Hm2].
  destruct (retain_step_spec visit rt0 p) as (rt1 & -> & H1).
  { intros i c b <-%list_elem_of_singleton. apply (Htot i). by left. }
  run_bind. destruct (IH rt1) as (rt2 & -> & H2); [done..| |].
  - intros i c b Hc. rewrite (rb_other_mailboxes _ _ _ _ H1); [intros; eapply Htot; [by right|done]|].
    simpl. rewrite list_elem_of_singleton. intros E. apply Hm1. rewrite <-E.
    apply list_elem_of_fmap_2. by apply (list_elem_of_fmap_2 snd) in Hc.
  - exists rt2. split; [done|]. by eapply retained_by_cons.
Qed.

(** * The invariant *)

(** A client waits for a revision after the Head, or its wakeup is sent; a
    wakeup still queued for it announces the current Head. *)
Record client_ok (rg : SseClientRegistryState) (c : SseClientRegistration) (s : SseMailboxState) : Prop := {
  co_schedule : wake_sent (cl_schedule c) = false →
                rg_head_revision_id rg < wake_at_revision_id (cl_schedule c);
  co_wakes : wakes (rg_publication_id rg) (mb_queue s) = [] ∨
             wakes (rg_publication_id rg) (mb_queue s) = [rg_head_revision_id rg] ∧
             wake_sent (cl_schedule c) = true
}.

(** A receiver that went to wait is not left with something to receive. *)
Definition receiver_awake (b : SseMailbox) : Prop :=
  sm_waiting b = true → sm_ready b = true ∨ mb_queue (sm_state b) = [] ∧ mb_closed (sm_state b) = false.

Record mailbox_ok (b : SseMailbox) : Prop := {
  mo_queue : queue_ok (sm_state b);
  mo_awake : receiver_awake b
}.

Record registry_ok (rg : SseClientRegistryState) (boxes : gmap MailboxId SseMailbox) : Prop := {
  ro_bounded : N.of_nat (size (rg_clients rg)) ≤ MAX_SSE_CLIENTS;
  ro_distinct i1 i2 c1 c2 :
    rg_clients rg !! i1 = Some c1 → rg_clients rg !! i2 = Some c2 → cl_mailbox c1 = cl_mailbox c2 → i1 = i2;
  ro_client i c b :
    rg_clients rg !! i = Some c → boxes !! cl_mailbox c = Some b → client_ok rg c (sm_state b)
}.

Definition boxes_ok (boxes : gmap MailboxId SseMailbox) : Prop := map_Forall (λ _, mailbox_ok) boxes.

(** Only the wakeups of publication [p] differ. *)
Definition boxes_frame (p : N) (boxes boxes' : gmap MailboxId SseMailbox) : Prop :=
  ∀ m b', boxes' !! m = Some b' →
    ∃ b, boxes !! m = Some b ∧
      ∀ p', p' ≠ p → wakes p' (mb_queue (sm_state b')) = wakes p' (mb_queue (sm_state b)).

Lemma registry_ok_frame p rg boxes boxes' :
  rg_publication_id rg ≠ p → boxes_frame p boxes boxes' → registry_ok rg boxes → registry_ok rg boxes'.
Proof.
  intros Hp Hf [Hb Hd Hc]. split; [done|done|]. intros i c b' Hi Hm.
  destruct (Hf _ _ Hm) as (b & Hb' & Hw). destruct (Hc i c b Hi Hb') as [Hs Hk]. split; [done|]. by rewrite Hw.
Qed.

(** Notifying changes no queue. *)
Lemma lookup_notify (ms : list MailboxId) (boxes : gmap MailboxId SseMailbox) (m : MailboxId) :
  foldr (alter notify_receiver) boxes ms !! m =
  (λ b, if decide (m ∈ ms) then notify_receiver b else b) <$> boxes !! m.
Proof.
  induction ms as [|m' ms IH]; simpl.
  { by destruct (boxes !! m). }
  destruct (decide (m' = m)) as [->|Hm].
  - rewrite lookup_alter_eq, IH. destruct (boxes !! m) as [b|]; simpl; [|done].
    rewrite (decide_True (P:=m ∈ m :: ms)) by set_solver. by case_decide.
  - rewrite lookup_alter_ne by done. rewrite IH. destruct (boxes !! m) as [b|]; simpl; [|done]. f_equal.
    destruct (decide (m ∈ ms)); [rewrite decide_True by set_solver|rewrite decide_False by set_solver]; done.
Qed.

(** ** A pass keeps the invariant *)

Definition visit_preserves (visit : Visit) (rg rg' : SseClientRegistryState) : Prop :=
  ∀ c s, client_ok rg c s → queue_ok s →
    match visit c s with
    | None => False
    | Some None => True
    | Some (Some (c', s', ready)) =>
      cl_mailbox c' = cl_mailbox c ∧ client_ok rg' c' s' ∧ queue_ok s' ∧
      wakes_frame (rg_publication_id rg) s s' ∧ (ready = false → s' = s)
    end.

Lemma entries_distinct rg boxes order :
  registry_ok rg boxes → order ≡ₚ map_to_list (rg_clients rg) →
  NoDup order.*1 ∧ NoDup (cl_mailbox <$> order.*2).
Proof.
  intros [_ Hd _] Ho. split; [rewrite Ho; apply NoDup_fst_map_to_list|].
  rewrite <-list_fmap_compose. apply NoDup_fmap_2_strong; [|rewrite Ho; apply NoDup_map_to_list].
  intros [i1 c1] [i2 c2] H1 H2 E. rewrite Ho in H1, H2. apply elem_of_map_to_list in H1, H2. simpl in E.
  assert (i1 = i2) as -> by by eapply Hd. congruence.
Qed.

Section pass.
Context (visit : Visit) (order : list (N * SseClientRegistration)).
Context (rg rg' : SseClientRegistryState) (cx : Connections).
Context (Hp : rg_publication_id rg' = rg_publication_id rg).
Context (Ho : order ≡ₚ map_to_list (rg_clients rg)).
Context (HR : registry_ok rg (cx_mailboxes cx)) (HB : boxes_ok (cx_mailboxes cx)).
Context (Hv : visit_preserves visit rg rg').

Lemma order_lookup i c : (i, c) ∈ order ↔ rg_clients rg !! i = Some c.
Proof. rewrite Ho. apply elem_of_map_to_list. Qed.

(** The verdict on a client, with what the visit guarantees of it. *)
Lemma verdict_inv i c c' s' ready :
  rg_clients rg !! i = Some c → verdict visit (cx_mailboxes cx) c = Some (c', s', ready) →
  ∃ b, cx_mailboxes cx !! cl_mailbox c = Some b ∧ cl_mailbox c' = cl_mailbox c ∧ client_ok rg' c' s' ∧
    queue_ok s' ∧ wakes_frame (rg_publication_id rg) (sm_state b) s' ∧ (ready = false → s' = sm_state b).
Proof.
  intros Hi. unfold verdict. destruct (cx_mailboxes cx !! cl_mailbox c) as [b|] eqn:Eb; [|done]. run_bind.
  pose proof (Hv c (sm_state b) (ro_client _ _ HR i c b Hi Eb) (mo_queue _ (HB _ _ Eb))) as H.
  destruct (visit c (sm_state b)) as [[[[c1 s1] r1]|]|]; [|done..]. run_bind. intros [= <- <- <-].
  exists b. naive_solver.
Qed.

Lemma visit_total : visits_total visit (cx_mailboxes cx) order.
Proof.
  intros i c b Hi%order_lookup Eb.
  pose proof (Hv c (sm_state b) (ro_client _ _ HR i c b Hi Eb) (mo_queue _ (HB _ _ Eb))) as H.
  destruct (visit c (sm_state b)); [by eexists|done].
Qed.

Lemma retained_client rt i c' :
  retained_by visit order (MkRetained (rg_clients rg) cx [] []) rt → rt_clients rt !! i = Some c' →
  ∃ c s' ready, rg_clients rg !! i = Some c ∧ verdict visit (cx_mailboxes cx) c = Some (c', s', ready).
Proof.
  intros Hrt Hi. destruct (rg_clients rg !! i) as [c|] eqn:Ei.
  - rewrite (rb_client _ _ _ _ Hrt i c) in Hi by by apply order_lookup. simpl in Hi.
    destruct (verdict _ _ _) as [[[c1 s1] r1]|] eqn:Ev; simpl in Hi; [|done]. injection Hi as ->. eauto.
  - rewrite (rb_other_clients _ _ _ _ Hrt) in Hi; [simpl in Hi; congruence|].
    intros ([i' c1] & -> & Hin)%list_elem_of_fmap. apply order_lookup in Hin. simpl in Ei. congruence.
Qed.

(** Every mailbox after the pass. *)
Lemma retained_box rt m b' :
  retained_by visit order (MkRetained (rg_clients rg) cx [] []) rt →
  cx_mailboxes (rt_connections rt) !! m = Some b' →
  ∃ b, cx_mailboxes cx !! m = Some b ∧ sm_ready b' = sm_ready b ∧ sm_waiting b' = sm_waiting b ∧
    queue_ok (sm_state b') ∧ wakes_frame (rg_publication_id rg) (sm_state b) (sm_state b') ∧
    (m ∉ rt_readiness rt → sm_state b' = sm_state b).
Proof.
  intros Hrt Hm. destruct (decide (m ∈ (cl_mailbox <$> order.*2))) as [Hin|Hin].
  - apply list_elem_of_fmap in Hin as (c & -> & ([i c1] & -> & Hin)%list_elem_of_fmap). simpl in *.
    rewrite (rb_mailbox _ _ _ _ Hrt i c1 Hin) in Hm. unfold retained_mailbox in Hm. simpl in Hm.
    destruct (cx_mailboxes cx !! cl_mailbox c1) as [b|] eqn:Eb; [|done]. exists b. split; [done|].
    destruct (verdict visit (cx_mailboxes cx) c1) as [[[c' s'] ready]|] eqn:Ev; injection Hm as <-.
    + apply order_lookup in Hin as Hi. destruct (verdict_inv i c1 c' s' ready Hi Ev) as (b1 & E1 & _ & _ & Hq & Hf & Hr).
      rewrite Eb in E1. injection E1 as <-. split_and!; try done. simpl. intros Hn. apply Hr.
      destruct ready; [|done]. exfalso. apply Hn. apply (rb_readiness _ _ _ _ Hrt). right. naive_solver.
    + split_and!; try done. apply (HB _ _ Eb).
  - rewrite (rb_other_mailboxes _ _ _ _ Hrt) in Hm by done. simpl in Hm. exists b'. split_and!; try done.
    apply (HB _ _ Hm).
Qed.

Lemma pass_spec :
  ∃ rt, retain_in order visit (rg_clients rg) cx = Some rt ∧
    retained_by visit order (MkRetained (rg_clients rg) cx [] []) rt ∧
    let '(rg2, cx2) := finish_retained rg' rt in
    registry_ok rg2 (cx_mailboxes cx2) ∧ boxes_ok (cx_mailboxes cx2) ∧
    boxes_frame (rg_publication_id rg) (cx_mailboxes cx) (cx_mailboxes cx2).
Proof.
  destruct (entries_distinct _ _ _ HR Ho) as [Hk Hm].
  destruct (retain_spec visit order (MkRetained (rg_clients rg) cx [] []) Hk Hm visit_total) as (rt & Hrt & Hby).
  exists rt. split_and!; [done|done|]. simpl. split_and!.
  - split; simpl.
    + enough (size (rt_clients rt) ≤ size (rg_clients rg))%nat by (pose proof (ro_bounded _ _ HR); lia).
      rewrite <-!size_dom. apply subseteq_size. intros i [c' Hc']%elem_of_dom.
      apply (retained_client rt i c' Hby) in Hc' as (c & s' & r & Hc & _). by apply elem_of_dom_2 in Hc.
    + intros i1 i2 c1 c2 H1 H2 E.
      apply (retained_client rt _ _ Hby) in H1 as (d1 & s1 & r1 & H1 & V1).
      apply (retained_client rt _ _ Hby) in H2 as (d2 & s2 & r2 & H2 & V2).
      apply (verdict_inv i1) in V1 as (_ & _ & E1 & _); [|done].
      apply (verdict_inv i2) in V2 as (_ & _ & E2 & _); [|done].
      apply (ro_distinct _ _ HR i1 i2 d1 d2); [done..|congruence].
    + intros i c' b'' Hc' Hb''. rewrite lookup_notify in Hb''.
      apply fmap_Some in Hb'' as (b' & Hb' & ->).
      apply (retained_client rt i c' Hby) in Hc' as (c & s' & r & Hc & Vc).
      destruct (verdict_inv i c c' s' r Hc Vc) as (b & Eb & Ec & Hco & _). rewrite Ec in Hb'.
      rewrite (rb_mailbox _ _ _ _ Hby i c) in Hb' by by apply order_lookup. unfold retained_mailbox in Hb'.
      simpl in Hb'. rewrite Eb, Vc in Hb'. injection Hb' as <-. destruct Hco as [Hs Hw].
      split; [done|]. by case_decide.
  - intros m b''. rewrite lookup_notify. intros (b' & Hb' & ->)%fmap_Some.
    destruct (retained_box rt m b' Hby Hb') as (b & Eb & Er & Ew & Hq & _ & Hsame).
    split; [by case_decide|]. unfold receiver_awake. case_decide as Hin; simpl; [by left|].
    rewrite Er, Ew, (Hsame Hin). apply (mo_awake _ (HB _ _ Eb)).
  - intros m b''. rewrite lookup_notify. intros (b' & Hb' & ->)%fmap_Some.
    destruct (retained_box rt m b' Hby Hb') as (b & Eb & _ & _ & _ & [_ Hf] & _).
    exists b. split; [done|]. intros p' Hp'. case_decide; by apply Hf.
Qed.
End pass.
