(* ===== verification/ClientsWorld.v ===== *)
(** Every operation of the client registries keeps the invariant of a set of
    publications that share their connections; the operations and the
    connection tasks as one step relation. *)

From Stdlib Require Import String.
From S2P Require Import Prelude Model Ladder Clients ClientsSafety.

(** * The passes *)

Lemma client_ok_ext rg rg' c c' s :
  rg_publication_id rg' = rg_publication_id rg → rg_head_revision_id rg' = rg_head_revision_id rg →
  cl_schedule c' = cl_schedule c → client_ok rg c s → client_ok rg' c' s.
Proof. intros Ep Eh Es [Hs Hw]. split; rewrite ?Ep, ?Eh, ?Es; done. Qed.

Lemma visit_live_preserves rg : visit_preserves visit_live rg rg.
Proof. intros c s Hc Hs. simpl. by split_and!. Qed.

Lemma visit_publish_state_preserves message rg rg' :
  rg_publication_id rg' = rg_publication_id rg → rg_head_revision_id rg' = rg_head_revision_id rg →
  visit_preserves (visit_publish_state message) rg rg'.
Proof.
  intros Ep Eh c s Hc Hs. unfold visit_publish_state.
  destruct (admit_required_spec [message] s Hs) as (r & -> & Hr). run_bind. destruct r as [s'|]; [|done].
  destruct Hr as (Ec & Ec' & _ & Hq & Hw). split_and!; try done; [|split; [congruence|by intros; apply Hw]].
  apply (client_ok_ext rg _ c); [done..|]. destruct Hc. split; [done|]. by rewrite Hw.
Qed.

(** A due client has exactly the new Head announced; one not due yet nothing. *)
Lemma visit_advance_head_preserves revision rg rg' :
  rg_publication_id rg' = rg_publication_id rg → rg_head_revision_id rg' = revision →
  rg_head_revision_id rg ≤ revision →
  visit_preserves (visit_advance_head (rg_publication_id rg) revision) rg rg'.
Proof.
  intros Ep <- Hle c s [Hsched Hwakes] Hs. unfold visit_advance_head, advance_schedule.
  destruct (wake_sent (cl_schedule c)) eqn:Ew; simpl.
  - unfold coalesce_graph_wakeup. destruct (mb_closed s); [done|].
    pose proof (coalesce_queued_spec (MkPublicationWakeupDto (rg_publication_id rg) (rg_head_revision_id rg')) s Hs) as Hc.
    destruct (coalesce_queued_graph_wakeup _ s) as [s' queued]. destruct Hc as (Hf & Hq & _ & Hr).
    split_and!; try done.
    + split; simpl; [congruence|]. rewrite Ep. destruct queued; [right; naive_solver|left; naive_solver].
    + intros ->. naive_solver.
  - destruct Hwakes as [Hn|[_ ?]]; [|done]. case_decide as Hd.
    + pose proof (admit_graph_wakeup_spec (MkPublicationWakeupDto (rg_publication_id rg) (rg_head_revision_id rg')) s Hs) as Ha.
      destruct (admit_graph_wakeup _ s) as [s'|[]]; [|done..]. destruct Ha as (_ & Hf & Hq & Hr).
      rewrite bool_decide_true by done. split_and!; try done. split; simpl; [done|]. rewrite Ep. by right.
    + rewrite bool_decide_false by done. split_and!; try done. split; simpl; [lia|]. rewrite Ep. by left.
Qed.

Lemma publish_state_in_inv order st revision rg cx :
  order ≡ₚ map_to_list (rg_clients rg) → registry_ok rg (cx_mailboxes cx) → boxes_ok (cx_mailboxes cx) →
  rg_head_revision_id rg = revision →
  ∃ rg' cx', publish_state_in order st revision rg cx = Some (rg', cx') ∧
    rg_publication_id rg' = rg_publication_id rg ∧
    registry_ok rg' (cx_mailboxes cx') ∧ boxes_ok (cx_mailboxes cx') ∧
    boxes_frame (rg_publication_id rg) (cx_mailboxes cx) (cx_mailboxes cx').
Proof.
  intros Ho HR HB Hh. unfold publish_state_in. rewrite assert_true by done. run_bind.
  destruct (pass_spec (visit_publish_state (PublicationState (MkPublicationStateDto (rg_publication_id rg) revision st)))
    order rg (MkSseClientRegistryState (rg_publication_id rg) st (rg_head_revision_id rg) (rg_clients rg)) cx)
    as (rt & Hrt & _ & HF); [done..|by apply visit_publish_state_preserves|].
  simpl. rewrite Hrt. run_bind. eexists _, _. split; [done|]. by split.
Qed.

Lemma advance_head_in_inv order revision rg cx :
  order ≡ₚ map_to_list (rg_clients rg) → registry_ok rg (cx_mailboxes cx) → boxes_ok (cx_mailboxes cx) →
  rg_head_revision_id rg ≤ revision →
  ∃ rg' cx', advance_head_in order revision rg cx = Some (rg', cx') ∧
    rg_publication_id rg' = rg_publication_id rg ∧
    registry_ok rg' (cx_mailboxes cx') ∧ boxes_ok (cx_mailboxes cx') ∧
    boxes_frame (rg_publication_id rg) (cx_mailboxes cx) (cx_mailboxes cx').
Proof.
  intros Ho HR HB Hh. unfold advance_head_in. rewrite assert_true by done. run_bind.
  destruct (pass_spec (visit_advance_head (rg_publication_id rg) revision)
    order rg (MkSseClientRegistryState (rg_publication_id rg) (rg_publication_state rg) revision (rg_clients rg)) cx)
    as (rt & Hrt & _ & HF); [done..|by apply visit_advance_head_preserves|].
  simpl. rewrite Hrt. run_bind. eexists _, _. split; [done|]. by split.
Qed.

(** The pass over the dead connections leaves the others as they are. *)
Lemma live_pass_spec order rg cx :
  order ≡ₚ map_to_list (rg_clients rg) → registry_ok rg (cx_mailboxes cx) → boxes_ok (cx_mailboxes cx) →
  ∃ rt, retain_in order visit_live (rg_clients rg) cx = Some rt ∧
    cx_mailboxes (rt_connections rt) = cx_mailboxes cx ∧ cx_cancelled (rt_connections rt) = cx_cancelled cx ∧
    registry_ok (set_clients (rt_clients rt) rg) (cx_mailboxes cx) ∧
    (∀ i c, rt_clients rt !! i = Some c ↔ rg_clients rg !! i = Some c ∧ is_Some (cx_mailboxes cx !! cl_mailbox c)) ∧
    (∀ t, t ∈ rt_cancellations rt ↔
       ∃ i c, rg_clients rg !! i = Some c ∧ cl_disconnect c = t ∧ cx_mailboxes cx !! cl_mailbox c = None).
Proof.
  intros Ho HR HB. destruct (pass_spec visit_live order rg rg cx) as (rt & Hrt & Hby & HF & _);
    [done..|apply visit_live_preserves|].
  assert (∀ c, verdict visit_live (cx_mailboxes cx) c =
    (λ b, (c, sm_state b, false)) <$> cx_mailboxes cx !! cl_mailbox c) as Hv.
  { intros c. unfold verdict. by destruct (cx_mailboxes cx !! cl_mailbox c). }
  assert (∀ i c, (i, c) ∈ order ↔ rg_clients rg !! i = Some c) as Hol by by apply order_lookup.
  assert (cx_mailboxes (rt_connections rt) = cx_mailboxes cx) as Eb.
  { apply map_eq. intros m. destruct (decide (m ∈ (cl_mailbox <$> order.*2))) as [Hin|Hin].
    - apply list_elem_of_fmap in Hin as (c & -> & ([i c1] & -> & Hin)%list_elem_of_fmap). simpl.
      rewrite (rb_mailbox _ _ _ _ Hby i c1 Hin). unfold retained_mailbox. simpl. rewrite Hv.
      destruct (cx_mailboxes cx !! cl_mailbox c1) as [[]|]; done.
    - by rewrite (rb_other_mailboxes _ _ _ _ Hby). }
  assert (rt_readiness rt = []) as Er.
  { destruct (rt_readiness rt) as [|m ms] eqn:E; [done|]. assert (m ∈ rt_readiness rt) as Hm by (rewrite E; left).
    apply (rb_readiness _ _ _ _ Hby) in Hm as [Hm|(i & c & c' & s & _ & _ & Hm)]; simpl in Hm; [set_solver|].
    rewrite Hv in Hm. by destruct (_ !! _). }
  exists rt. split_and!; [done|done|apply (rb_cancelled _ _ _ _ Hby)|..].
  - simpl in HF. by rewrite Er, Eb in HF.
  - intros i c. split.
    + intros (c0 & s' & r & Hc & Hvc)%(retained_client visit_live order rg cx Ho rt); [|done].
      rewrite Hv in Hvc. apply fmap_Some in Hvc as (b & Hb & [= -> _ _]). eauto.
    + intros [Hc [b Hb]]. rewrite (rb_client _ _ _ _ Hby i c) by by apply Hol. simpl. by rewrite Hv, Hb.
  - intros t. rewrite (rb_cancellations _ _ _ _ Hby). simpl. split.
    + intros [?|(i & c & Hc & <- & Hvc)]; [set_solver|]. rewrite Hv in Hvc. apply fmap_None in Hvc.
      exists i, c. split_and!; [by apply Hol|done..].
    + intros (i & c & Hc & <- & Hb). right. exists i, c. split_and!; [by apply Hol|done|]. by rewrite Hv, Hb.
Qed.

(** * Single registrations *)

Lemma registry_ok_store rg boxes m b :
  registry_ok rg boxes →
  (∀ i c, rg_clients rg !! i = Some c → cl_mailbox c = m → client_ok rg c (sm_state b)) →
  registry_ok rg (<[m := b]> boxes).
Proof.
  intros [Hb Hd Hc] Hm. split; [done|done|]. intros i c b'. intros Hi.
  destruct (decide (cl_mailbox c = m)) as [Em|Em]; [subst m; rewrite lookup_insert_eq|rewrite lookup_insert_ne by done];
    [intros [= <-]; by eapply Hm|by eapply Hc].
Qed.

Lemma registry_ok_subset rg boxes cs boxes' :
  registry_ok rg boxes → cs ⊆ rg_clients rg → boxes' ⊆ boxes → registry_ok (set_clients cs rg) boxes'.
Proof.
  intros [Hb Hd Hc] Hcs Hbx. split; simpl.
  - apply subseteq_dom, subseteq_size in Hcs. rewrite !size_dom in Hcs. lia.
  - intros. eapply Hd; [by eapply lookup_weaken..|done].
  - intros i c b Hi Hm. by eapply (client_ok_ext rg), (Hc i c b); [..|eapply lookup_weaken|eapply lookup_weaken].
Qed.

Lemma boxes_frame_refl p boxes : boxes_frame p boxes boxes.
Proof. intros m b Hb. eauto. Qed.

Lemma boxes_frame_store p boxes m b b' :
  boxes !! m = Some b → wakes_frame p (sm_state b) (sm_state b') → boxes_frame p boxes (<[m := b']> boxes).
Proof.
  intros Hm [_ Hf] m1 b1. destruct (decide (m = m1)) as [->|Hn].
  - rewrite lookup_insert_eq. intros [= <-]. eauto.
  - rewrite lookup_insert_ne by done. eauto.
Qed.

Lemma boxes_ok_store boxes m b : boxes_ok boxes → mailbox_ok b → boxes_ok (<[m := b]> boxes).
Proof. intros. by apply map_Forall_insert_2. Qed.

(** A state whose queue only shrinks keeps the receiver awake. *)
Lemma shrunk_mailbox_ok b s :
  mailbox_ok b → queue_ok s → mb_closed s = mb_closed (sm_state b) →
  (length (mb_queue s) ≤ length (mb_queue (sm_state b)))%nat → mailbox_ok (set_state s b).
Proof.
  intros [_ Ha] Hq Ec Hl. split; [done|]. intros Hw. destruct (Ha Hw) as [?|[Hn Hc]]; [by left|right].
  simpl. rewrite Hn in Hl. split; [|congruence]. by destruct (mb_queue s); [|simpl in Hl; lia].
Qed.

Lemma notified_mailbox_ok b s : queue_ok s → mailbox_ok (notify_receiver (set_state s b)).
Proof. split; [done|]. intros _. by left. Qed.

(** What the completion of a delta does to its registration. *)
Definition completed (identifier : ClientIdentifier) (action : DeltaScheduleAction)
    (rg rg' : SseClientRegistryState) (cx cx' : Connections) (r : DeltaCompletionResult) : Prop :=
  match r with
  | DeltaAccepted =>
    ∃ c b b', rg_clients rg !! identifier = Some c ∧ cx_mailboxes cx !! cl_mailbox c = Some b ∧
      mb_closed (sm_state b) = false ∧ cx_mailboxes cx' !! cl_mailbox c = Some b' ∧
      match action with
      | ValidateOnly => rg' = rg ∧ cx' = cx
      | Replace wake_at sent =>
        let due := negb sent && bool_decide (wake_at ≤ rg_head_revision_id rg) in
        rg_clients rg' !! identifier =
          Some (MkSseClientRegistration (MkDeltaWakeSchedule wake_at (sent || due)) (cl_mailbox c) (cl_disconnect c)) ∧
        wakes (rg_publication_id rg) (mb_queue (sm_state b')) =
          (if due then [rg_head_revision_id rg] else []) ∧
        (due = true → sm_ready b' = true)
      end
  | RegistrationMissing =>
    rg_clients rg' !! identifier = None ∧
    ∀ c, rg_clients rg !! identifier = Some c → cl_disconnect c ∈ cx_cancelled cx'
  end.

Lemma drop_registration_spec identifier c boxes rg cx :
  registry_ok rg boxes → rg_clients rg !! identifier = Some c →
  let '(rg', cx', r) := drop_registration identifier c rg cx in
  registry_ok rg' boxes ∧ cx_mailboxes cx' = cx_mailboxes cx ∧ r = RegistrationMissing ∧
  rg_clients rg' !! identifier = None ∧ cl_disconnect c ∈ cx_cancelled cx'.
Proof.
  intros HR Hi. simpl. split_and!; try done.
  - by eapply registry_ok_subset; [|apply delete_subseteq|].
  - apply lookup_delete_eq.
  - set_solver.
Qed.

Lemma set_schedule_ok identifier sched c rg boxes b :
  registry_ok rg boxes → rg_clients rg !! identifier = Some c →
  client_ok rg (MkSseClientRegistration sched (cl_mailbox c) (cl_disconnect c)) (sm_state b) →
  registry_ok (set_schedule identifier sched rg) (<[cl_mailbox c := b]> boxes).
Proof.
  intros [Hb Hd Hc] Hi Hok.
  assert (∀ i d, rg_clients (set_schedule identifier sched rg) !! i = Some d →
    ∃ d0, rg_clients rg !! i = Some d0 ∧ cl_mailbox d = cl_mailbox d0 ∧
      (i = identifier ∧ d = MkSseClientRegistration sched (cl_mailbox c) (cl_disconnect c) ∨ i ≠ identifier ∧ d = d0)) as Hl.
  { intros i d. simpl. destruct (decide (i = identifier)) as [->|Hn].
    - rewrite lookup_alter_eq, Hi. simpl. intros [= <-]. naive_solver.
    - rewrite lookup_alter_ne by done. naive_solver. }
  split.
  - simpl. rewrite <-size_dom, dom_alter, size_dom. done.
  - intros i1 i2 c1 c2 (d1 & H1 & E1 & _)%Hl (d2 & H2 & E2 & _)%Hl E. eapply Hd; [done..|congruence].
  - intros i d b' (d0 & H0 & E0 & Hcase)%Hl. rewrite E0. destruct Hcase as [[-> ->]|[Hn ->]].
    + rewrite Hi in H0. injection H0 as <-. rewrite lookup_insert_eq. intros [= <-].
      by eapply client_ok_ext; [..|exact Hok].
    + rewrite lookup_insert_ne by (intros E; apply Hn; by eapply Hd).
      intros Hb'. by eapply client_ok_ext; [..|eapply Hc].
Qed.

Lemma complete_delta_spec identifier action rg cx :
  registry_ok rg (cx_mailboxes cx) → boxes_ok (cx_mailboxes cx) →
  let '(rg', cx', r) := complete_delta identifier action rg cx in
  rg_publication_id rg' = rg_publication_id rg ∧ rg_head_revision_id rg' = rg_head_revision_id rg ∧
  registry_ok rg' (cx_mailboxes cx') ∧ boxes_ok (cx_mailboxes cx') ∧
  boxes_frame (rg_publication_id rg) (cx_mailboxes cx) (cx_mailboxes cx') ∧
  completed identifier action rg rg' cx cx' r.
Proof.
  intros HR HB. unfold complete_delta, upgrade.
  destruct (rg_clients rg !! identifier) as [c|] eqn:Ei.
  2: { split_and!; try done; [apply boxes_frame_refl|]. split; [done|]. by rewrite Ei. }
  assert (∀ boxes cx1, registry_ok rg boxes → boxes = cx_mailboxes cx1 → boxes_ok boxes →
    boxes_frame (rg_publication_id rg) (cx_mailboxes cx) boxes →
    let '(rg', cx', r) := drop_registration identifier c rg cx1 in
    rg_publication_id rg' = rg_publication_id rg ∧ rg_head_revision_id rg' = rg_head_revision_id rg ∧
    registry_ok rg' (cx_mailboxes cx') ∧ boxes_ok (cx_mailboxes cx') ∧
    boxes_frame (rg_publication_id rg) (cx_mailboxes cx) (cx_mailboxes cx') ∧
    completed identifier action rg rg' cx cx' r) as Hdrop.
  { intros boxes cx1 HR1 -> HB1 HF1. pose proof (drop_registration_spec identifier c _ rg cx1 HR1 Ei) as Hd.
    simpl in *. destruct Hd as (? & _ & _ & ? & ?). split_and!; try done. intros c0. rewrite Ei. by intros [= <-]. }
  destruct (cx_mailboxes cx !! cl_mailbox c) as [b|] eqn:Eb;
    [|by apply (Hdrop (cx_mailboxes cx)); [..|apply boxes_frame_refl]].
  destruct (mb_closed (sm_state b)) eqn:Ec;
    [by apply (Hdrop (cx_mailboxes cx)); [..|apply boxes_frame_refl]|].
  destruct action as [wake_at sent|].
  2: { split_and!; try done; [apply boxes_frame_refl|]. exists c, b, b. by split_and!. }
  destruct (remove_graph_wakeup_spec (rg_publication_id rg) (sm_state b)) as (Hf & Hq & Hn & Hl);
    [apply (HB _ _ Eb)|]. set (s := (remove_graph_wakeup (rg_publication_id rg) (sm_state b)).1) in *.
  assert (mailbox_ok (set_state s b)) as Hmb by (apply shrunk_mailbox_ok; [apply (HB _ _ Eb)|done|apply Hf|done]).
  pose proof (boxes_frame_store _ _ _ b (set_state s b) Eb Hf) as HF1.
  destruct (negb sent && bool_decide (wake_at ≤ rg_head_revision_id rg)) eqn:Edue.
  - pose proof (admit_graph_wakeup_spec (MkPublicationWakeupDto (rg_publication_id rg) (rg_head_revision_id rg)) s Hq) as Ha.
    destruct (admit_graph_wakeup _ s) as [s'|e].
    + destruct Ha as (_ & Hf' & Hq' & Hw). simpl. rewrite insert_insert_eq. split_and!; try done.
      * apply (set_schedule_ok _ _ c); [done..|]. split; simpl; [done|]. by right.
      * by apply boxes_ok_store, notified_mailbox_ok.
      * eapply boxes_frame_store; [done|]. simpl. by eapply wakes_frame_trans.
      * exists c, b, (notify_receiver (set_state s' b)). rewrite Edue, orb_true_r. simpl.
        rewrite lookup_insert_eq, lookup_alter_eq, Ei. by split_and!.
    + apply (Hdrop (<[cl_mailbox c := set_state s b]> (cx_mailboxes cx))); try done; [|by apply boxes_ok_store].
      apply registry_ok_store; [done|]. intros i d Hi Em.
      assert (i = identifier) as Hid by by eapply (ro_distinct _ _ HR). subst i. pose proof (eq_trans (eq_sym Ei) Hi) as [= <-].
      destruct (ro_client _ _ HR _ _ _ Ei Eb). split; [done|by left].
  - simpl. split_and!; try done.
    + apply (set_schedule_ok _ _ c); [done..|]. split; simpl; [|by left]. intros ->. simpl in Edue.
      apply bool_decide_eq_false in Edue. lia.
    + by apply boxes_ok_store.
    + exists c, b, (set_state s b). rewrite Edue, orb_false_r. simpl.
      rewrite lookup_insert_eq, lookup_alter_eq, Ei. by split_and!.
Qed.

(** ** Identifiers *)

Lemma generate_identifier_Some random cs i :
  generate_identifier random cs = Some i → i ∈ random ∧ cs !! i = None.
Proof.
  induction random as [|x random IH]; simpl; [done|]. case_decide as Hx.
  - intros [? ?]%IH. split; [by right|done].
  - intros [= <-]. split; [left|by apply eq_None_not_Some].
Qed.

Lemma generate_identifier_None random cs :
  generate_identifier random cs = None ↔ ∀ i, i ∈ random → is_Some (cs !! i).
Proof.
  induction random as [|x random IH]; simpl; [set_solver|]. case_decide as Hx.
  - rewrite IH. set_solver.
  - split; [done|]. intros Hall. destruct Hx. apply Hall. left.
Qed.

(** More distinct draws than clients always leave a free identifier. *)
Lemma generate_identifier_total random cs :
  NoDup random → (size cs < length random)%nat → is_Some (generate_identifier random cs).
Proof.
  intros Hnd Hlt. destruct (generate_identifier random cs) eqn:E; [by eexists|].
  rewrite generate_identifier_None in E. exfalso.
  assert (list_to_set random ⊆ dom cs) as Hsub%subseteq_size.
  { intros i Hi%elem_of_list_to_set. by apply elem_of_dom, E. }
  rewrite size_list_to_set, size_dom in Hsub by done. lia.
Qed.

(** ** Entering a publication *)

Lemma registry_ok_insert rg boxes i c b :
  registry_ok rg boxes → N.of_nat (size (rg_clients rg)) < MAX_SSE_CLIENTS → rg_clients rg !! i = None →
  (∀ j d, rg_clients rg !! j = Some d → cl_mailbox d ≠ cl_mailbox c) → client_ok rg c (sm_state b) →
  registry_ok (set_clients (<[i := c]> (rg_clients rg)) rg) (<[cl_mailbox c := b]> boxes).
Proof.
  intros [Hb Hd Hc] Hsz Hi Hm Hok. split; simpl.
  - rewrite map_size_insert_None by done. lia.
  - intros i1 i2 c1 c2. rewrite !lookup_insert. repeat case_decide; subst; intros; simplify_eq; try done.
    + exfalso. by eapply Hm.
    + exfalso. by eapply Hm.
    + by eapply Hd.
  - intros j d b'. rewrite lookup_insert. case_decide as Hj.
    + intros [= <-]. rewrite lookup_insert_eq. intros [= <-]. by eapply (client_ok_ext rg _ c).
    + intros Hjd. rewrite lookup_insert_ne by (intros E; by eapply Hm). intros Hb'.
      by eapply client_ok_ext; [..|eapply Hc].
Qed.

Section Entering.
Context (base64_encode : list N → string).

(** The batch of messages enters the mailbox as a whole, or the registration
    fails and nothing enters it. *)
Definition registered (client_revision_id : N) (mailbox : MailboxId) (disconnect : TokenId) (b : SseMailbox)
    (rg rg' : SseClientRegistryState) (cx' : Connections)
    (r : Result ClientIdentifier SseClientRegistrationError) : Prop :=
  match r with
  | Ok i =>
    rg_clients rg' !! i =
      Some (MkSseClientRegistration (MkDeltaWakeSchedule client_revision_id true) mailbox disconnect) ∧
    ∃ b', cx_mailboxes cx' !! mailbox = Some b' ∧ sm_ready b' = true ∧
      mb_queue (sm_state b') = mb_queue (sm_state b) ++ (Required <$> initial_batch base64_encode i rg)
  | Err RegistrationCapacity =>
    N.of_nat (size (rg_clients rg')) = MAX_SSE_CLIENTS ∧ cx_mailboxes cx' !! mailbox = Some b
  | Err (RegistrationMailbox _) => disconnect ∈ cx_cancelled cx' ∧ cx_mailboxes cx' !! mailbox = Some b
  end.

(** The mailbox of a connection that is not yet known to the publication. *)
Definition unknown_mailbox (mailbox : MailboxId) (b : SseMailbox) (rg : SseClientRegistryState) : Prop :=
  (∀ i c, rg_clients rg !! i = Some c → cl_mailbox c ≠ mailbox) ∧
  wakes (rg_publication_id rg) (mb_queue (sm_state b)) = [].

Lemma admitted_frame p s s' ms :
  mb_closed s' = mb_closed s → mb_queue s' = mb_queue s ++ (Required <$> ms) → wakes_frame p s s'.
Proof. intros Ec Eq. split; [done|]. intros p' _. by rewrite Eq, wakes_app, wakes_required, app_nil_r. Qed.

Lemma register_with_in_spec order client_revision_id mailbox disconnect random rg cx b :
  order ≡ₚ map_to_list (rg_clients rg) → registry_ok rg (cx_mailboxes cx) → boxes_ok (cx_mailboxes cx) →
  cx_mailboxes cx !! mailbox = Some b → unknown_mailbox mailbox b rg →
  match register_with_in base64_encode order client_revision_id mailbox disconnect random rg cx with
  | None => ∀ i, i ∈ random → is_Some (rg_clients rg !! i)
  | Some (rg', cx', r) =>
    rg_publication_id rg' = rg_publication_id rg ∧ rg_head_revision_id rg' = rg_head_revision_id rg ∧
    registry_ok rg' (cx_mailboxes cx') ∧ boxes_ok (cx_mailboxes cx') ∧
    boxes_frame (rg_publication_id rg) (cx_mailboxes cx) (cx_mailboxes cx') ∧
    registered client_revision_id mailbox disconnect b rg rg' cx' r
  end.
Proof.
  intros Ho HR HB Hm [Hun Hwk]. unfold register_with_in, upgrade.
  destruct (live_pass_spec order rg cx Ho HR HB) as (rt & -> & Eb & Ecx & HR' & Hcl & _). run_bind.
  rewrite Eb. case_decide as Hsz.
  { simpl. split_and!; try done; rewrite ?Eb; try done. apply boxes_frame_refl. }
  destruct (generate_identifier random (rg_clients (set_clients (rt_clients rt) rg))) as [i|] eqn:Eg.
  2: { run_bind. rewrite generate_identifier_None in Eg. intros i [c Hc]%Eg. apply Hcl in Hc. naive_solver. }
  run_bind. rewrite Hm. run_bind.
  apply generate_identifier_Some in Eg as [_ Hi]. simpl in Hi.
  destruct (admit_required_spec (initial_batch base64_encode i (set_clients (rt_clients rt) rg)) (sm_state b))
    as (r & -> & Hr); [apply (HB _ _ Hm)|]. run_bind. destruct r as [s'|e].
  - destruct Hr as (Ec & Ec' & Eq & Hq & Hw). simpl. rewrite Eb. split_and!; try done.
    + apply (registry_ok_insert (set_clients (rt_clients rt) rg) _ i
        (MkSseClientRegistration (MkDeltaWakeSchedule client_revision_id true) mailbox disconnect)); try done.
      * pose proof (ro_bounded _ _ HR'). simpl in *. lia.
      * intros j d [Hd _]%Hcl. by apply (Hun j).
      * split; simpl; [done|]. left. by rewrite Hw.
    + by apply boxes_ok_store, notified_mailbox_ok.
    + eapply boxes_frame_store; [done|]. simpl. eapply admitted_frame; [|done]. congruence.
    + rewrite lookup_insert_eq. done.
    + exists (notify_receiver (set_state s' b)). by rewrite lookup_insert_eq.
  - simpl. rewrite Eb. split_and!; try done; [apply boxes_frame_refl|]. set_solver.
Qed.

(** ** Moving to another publication *)

Definition replaced (old_identifier : ClientIdentifier) (old old' replacement replacement' : SseClientRegistryState)
    (cx cx' : Connections) (r : Result ClientIdentifier SseClientReplacementError) : Prop :=
  rg_clients old' !! old_identifier = None ∧
  match r with
  | Ok i =>
    ∃ c b b', rg_clients old !! old_identifier = Some c ∧ cx_mailboxes cx !! cl_mailbox c = Some b ∧
      cx_mailboxes cx' !! cl_mailbox c = Some b' ∧
      rg_clients replacement' !! i =
        Some (MkSseClientRegistration (MkDeltaWakeSchedule (rg_head_revision_id replacement) true)
                (cl_mailbox c) (cl_disconnect c)) ∧
      wakes (rg_publication_id old) (mb_queue (sm_state b')) = [] ∧ sm_ready b' = true ∧
      (Required <$> initial_batch base64_encode i replacement) `suffix_of` mb_queue (sm_state b')
  | Err ReplacementMissing =>
    ∀ c, rg_clients old !! old_identifier = Some c →
      cx_mailboxes cx !! cl_mailbox c = None ∧ cl_disconnect c ∈ cx_cancelled cx'
  | Err _ => ∃ c, rg_clients old !! old_identifier = Some c ∧ cl_disconnect c ∈ cx_cancelled cx'
  end.

Lemma replace_registration_into_in_spec order old_identifier random old replacement cx :
  rg_publication_id old ≠ rg_publication_id replacement →
  order ≡ₚ map_to_list (rg_clients replacement) →
  registry_ok old (cx_mailboxes cx) → registry_ok replacement (cx_mailboxes cx) → boxes_ok (cx_mailboxes cx) →
  (∀ c b, rg_clients old !! old_identifier = Some c → cx_mailboxes cx !! cl_mailbox c = Some b →
     unknown_mailbox (cl_mailbox c) b replacement) →
  match replace_registration_into_in base64_encode order old_identifier random old replacement cx with
  | None => ∀ i, i ∈ random → is_Some (rg_clients replacement !! i)
  | Some (old', replacement', cx', r) =>
    rg_publication_id old' = rg_publication_id old ∧
    rg_publication_id replacement' = rg_publication_id replacement ∧
    registry_ok old' (cx_mailboxes cx') ∧ registry_ok replacement' (cx_mailboxes cx') ∧
    boxes_ok (cx_mailboxes cx') ∧ boxes_frame (rg_publication_id old) (cx_mailboxes cx) (cx_mailboxes cx') ∧
    replaced old_identifier old old' replacement replacement' cx cx' r
  end.
Proof.
  intros Hp Ho HO HR HB Hun. unfold replace_registration_into_in. rewrite assert_true by done. run_bind.
  unfold replace_state_in, upgrade. destruct (rg_clients old !! old_identifier) as [c|] eqn:Ei; run_bind.
  2: { simpl. split_and!; try done; [apply boxes_frame_refl|]. split; [done|]. by rewrite Ei. }
  assert (registry_ok (set_clients (delete old_identifier (rg_clients old)) old) (cx_mailboxes cx)) as HO'
    by by eapply registry_ok_subset; [|apply delete_subseteq|].
  destruct (cx_mailboxes cx !! cl_mailbox c) as [b|] eqn:Eb; run_bind.
  2: { simpl. split_and!; try done; [apply boxes_frame_refl|]. split; [apply lookup_delete_eq|].
       rewrite Ei. intros ? [= <-]. split; [done|set_solver]. }
  destruct (Hun c b eq_refl Eb) as [Hun1 Hun2].
  destruct (live_pass_spec order replacement cx Ho HR HB) as (rt & -> & Ebx & _ & HR' & Hcl & _). run_bind.
  destruct (remove_graph_wakeup_spec (rg_publication_id old) (sm_state b)) as (Hf & Hq & Hn & Hl);
    [apply (HB _ _ Eb)|]. simpl. set (s := (remove_graph_wakeup (rg_publication_id old) (sm_state b)).1) in *.
  assert (mailbox_ok (set_state s b)) as Hmb by (apply shrunk_mailbox_ok; [apply (HB _ _ Eb)|done|apply Hf|done]).
  assert (∀ i d, delete old_identifier (rg_clients old) !! i = Some d → cl_mailbox d ≠ cl_mailbox c) as Hgone.
  { intros i d [Hn1 Hd]%lookup_delete_Some E. apply Hn1. symmetry. by eapply (ro_distinct _ _ HO). }
  assert (∀ b', registry_ok (set_clients (delete old_identifier (rg_clients old)) old)
    (<[cl_mailbox c := b']> (cx_mailboxes cx))) as Hold.
  { intros b'. apply registry_ok_store; [done|]. intros i d Hd Em. by destruct (Hgone i d). }
  assert (∀ b', registry_ok (set_clients (rt_clients rt) replacement)
    (<[cl_mailbox c := b']> (cx_mailboxes cx))) as Hrep.
  { intros b'. apply registry_ok_store; [done|]. intros i d [Hd _]%Hcl Em. by destruct (Hun1 i d). }
  case_decide as Hsz; run_bind.
  { simpl. rewrite Ebx. split_and!; try done; [by apply boxes_ok_store|by eapply boxes_frame_store|].
    split; [apply lookup_delete_eq|]. exists c. set_solver. }
  destruct (generate_identifier random (rt_clients rt)) as [i|] eqn:Eg; run_bind.
  2: { rewrite generate_identifier_None in Eg. intros i [d Hd]%Eg. apply Hcl in Hd. naive_solver. }
  apply generate_identifier_Some in Eg as [_ Hi].
  destruct (admit_required_spec (initial_batch base64_encode i (set_clients (rt_clients rt) replacement)) s Hq)
    as (r & -> & Hr). run_bind. destruct r as [s'|e].
  2: { simpl. rewrite Ebx. split_and!; try done; [by apply boxes_ok_store|by eapply boxes_frame_store|].
       split; [apply lookup_delete_eq|]. exists c. set_solver. }
  destruct Hr as (Ec & Ec' & Eq & Hq' & Hw). simpl. rewrite Ebx, insert_insert_eq, alter_insert_eq.
  split_and!; try done.
  - apply (registry_ok_insert (set_clients (rt_clients rt) replacement) _ i
      (MkSseClientRegistration (MkDeltaWakeSchedule (rg_head_revision_id replacement) true)
         (cl_mailbox c) (cl_disconnect c))); try done.
    + pose proof (ro_bounded _ _ HR'). simpl in *. lia.
    + intros j d [Hd _]%Hcl. by apply (Hun1 j).
    + split; simpl; [done|]. left. rewrite Hw, (proj2 Hf); [done|congruence].
  - by apply boxes_ok_store, notified_mailbox_ok.
  - eapply boxes_frame_store; [done|]. eapply wakes_frame_trans; [exact Hf|].
    eapply admitted_frame; [|done]. simpl. congruence.
  - split; [apply lookup_delete_eq|]. exists c, b, (notify_receiver (set_state s' b)). simpl.
    rewrite !lookup_insert_eq, Hw, Hn. split_and!; try done.
    + by rewrite alter_insert_eq, lookup_insert_eq.
    + rewrite Eq. by exists (mb_queue s).
Qed.
End Entering.

(** * Publications and connections together *)

Record ClientWorld := MkClientWorld {
  cw_registries : gmap N SseClientRegistryState;
  cw_connections : Connections
}.
Definition cw_boxes (w : ClientWorld) : gmap MailboxId SseMailbox := cx_mailboxes (cw_connections w).

Definition set_registry (a : N) (rg : SseClientRegistryState) (cx : Connections) (w : ClientWorld) : ClientWorld :=
  MkClientWorld (<[a := rg]> (cw_registries w)) cx.
Definition set_box (m : MailboxId) (b : SseMailbox) (w : ClientWorld) : ClientWorld :=
  MkClientWorld (cw_registries w) (store_mailbox m b (cw_connections w)).

Inductive client_step (base64_encode : list N → string) (w : ClientWorld) : ClientWorld → Prop :=
  | step_new_registry a p st head :
      cw_registries w !! a = None →
      (∀ a' rg, cw_registries w !! a' = Some rg → rg_publication_id rg ≠ p) →
      client_step base64_encode w (set_registry a (SseClientRegistry_new p st head) (cw_connections w) w)
  | step_connect m :
      cw_boxes w !! m = None →
      (∀ a rg i c, cw_registries w !! a = Some rg → rg_clients rg !! i = Some c → cl_mailbox c ≠ m) →
      client_step base64_encode w (set_box m SseMailbox_new w)
  | step_register a rg order rev m b t random rg' cx' r :
      cw_registries w !! a = Some rg → order ≡ₚ map_to_list (rg_clients rg) →
      cw_boxes w !! m = Some b → unknown_mailbox m b rg →
      register_with_in base64_encode order rev m t random rg (cw_connections w) = Some (rg', cx', r) →
      client_step base64_encode w (set_registry a rg' cx' w)
  | step_remove a rg i :
      cw_registries w !! a = Some rg →
      client_step base64_encode w (set_registry a (remove i rg).1 (cw_connections w) w)
  | step_complete a rg i action rg' cx' r :
      cw_registries w !! a = Some rg → complete_delta i action rg (cw_connections w) = (rg', cx', r) →
      client_step base64_encode w (set_registry a rg' cx' w)
  | step_publish_state a rg order st rev rg' cx' :
      cw_registries w !! a = Some rg → order ≡ₚ map_to_list (rg_clients rg) →
      publish_state_in order st rev rg (cw_connections w) = Some (rg', cx') →
      client_step base64_encode w (set_registry a rg' cx' w)
  | step_advance_head a rg order rev rg' cx' :
      cw_registries w !! a = Some rg → order ≡ₚ map_to_list (rg_clients rg) →
      advance_head_in order rev rg (cw_connections w) = Some (rg', cx') →
      client_step base64_encode w (set_registry a rg' cx' w)
  | step_replace a1 a2 old new order i random old' new' cx' r :
      a1 ≠ a2 → cw_registries w !! a1 = Some old → cw_registries w !! a2 = Some new →
      order ≡ₚ map_to_list (rg_clients new) →
      (∀ c b, rg_clients old !! i = Some c → cw_boxes w !! cl_mailbox c = Some b →
         unknown_mailbox (cl_mailbox c) b new) →
      replace_registration_into_in base64_encode order i random old new (cw_connections w) =
        Some (old', new', cx', r) →
      client_step base64_encode w (set_registry a1 old' cx' (set_registry a2 new' cx' w))
  | step_recv m b : cw_boxes w !! m = Some b → client_step base64_encode w (set_box m (recv b).1 w)
  | step_close m b : cw_boxes w !! m = Some b → client_step base64_encode w (set_box m (close b) w)
  | step_disconnect m :
      client_step base64_encode w
        (MkClientWorld (cw_registries w) (MkConnections (delete m (cw_boxes w)) (cx_cancelled (cw_connections w)))).

Definition ClientWorld_new : ClientWorld := MkClientWorld ∅ (MkConnections ∅ ∅).
Definition client_reachable (base64_encode : list N → string) : ClientWorld → Prop :=
  rtc (client_step base64_encode) ClientWorld_new.

Record world_ok (w : ClientWorld) : Prop := {
  wo_boxes : boxes_ok (cw_boxes w);
  wo_registry a rg : cw_registries w !! a = Some rg → registry_ok rg (cw_boxes w);
  wo_publications a1 a2 rg1 rg2 :
    cw_registries w !! a1 = Some rg1 → cw_registries w !! a2 = Some rg2 →
    rg_publication_id rg1 = rg_publication_id rg2 → a1 = a2
}.

(** One registry and the wakeups of its publication change. *)
Lemma world_ok_registry a rg rg' cx' w :
  world_ok w → cw_registries w !! a = Some rg → rg_publication_id rg' = rg_publication_id rg →
  registry_ok rg' (cx_mailboxes cx') → boxes_ok (cx_mailboxes cx') →
  boxes_frame (rg_publication_id rg) (cw_boxes w) (cx_mailboxes cx') → world_ok (set_registry a rg' cx' w).
Proof.
  intros [HB HR HP] Ha Ep HR' HB' HF. split; [done|..]; simpl.
  - intros a1 rg1. rewrite lookup_insert. case_decide as Hd; [by intros [= <-]|]. intros Ha1.
    eapply registry_ok_frame; [|exact HF|by eapply HR]. intros E. apply Hd. by eapply HP.
  - intros a1 a2 rg1 rg2. rewrite !lookup_insert. repeat case_decide; subst; intros; simplify_eq; try done;
      eapply HP; eauto; congruence.
Qed.

(** A mailbox changes without gaining a wakeup. *)
Lemma world_ok_box m b w :
  world_ok w → mailbox_ok b →
  (∀ a rg i c, cw_registries w !! a = Some rg → rg_clients rg !! i = Some c → cl_mailbox c = m →
     client_ok rg c (sm_state b)) → world_ok (set_box m b w).
Proof.
  intros [HB HR HP] Hb Hc. split; simpl; [by apply boxes_ok_store| |done].
  intros a rg Ha. apply registry_ok_store; [by eapply HR|]. by eauto.
Qed.

Lemma client_ok_shrink rg c s s' :
  client_ok rg c s → (∀ p, suffix (wakes p (mb_queue s')) (wakes p (mb_queue s))) → client_ok rg c s'.
Proof.
  intros [Hs Hw] Hsuf. split; [done|]. destruct (Hsuf (rg_publication_id rg)) as [k Hk].
  destruct Hw as [Hw|[Hw ?]]; rewrite Hw in Hk.
  - left. symmetry in Hk. by apply app_eq_nil in Hk as [_ ?].
  - destruct k; simpl in Hk; [by right|]. left. injection Hk as _ Hk. symmetry in Hk. by apply app_eq_nil in Hk as [_ ?].
Qed.

Lemma recv_ok b : mailbox_ok b →
  mailbox_ok (recv b).1 ∧ ∀ p, suffix (wakes p (mb_queue (sm_state (recv b).1))) (wakes p (mb_queue (sm_state b))).
Proof.
  intros [[Hb Hs] Ha]. unfold recv. destruct (mb_queue (sm_state b)) as [|item q] eqn:Eq.
  - assert (queue_ok (sm_state b)) as Hq by (split; rewrite Eq; done).
    destruct (mb_closed (sm_state b)) eqn:Ec; simpl; rewrite Eq; (split; [|by exists []]); split; try done.
    unfold receiver_awake. simpl. rewrite Eq. by right.
  - simpl. assert (∀ p, suffix (wakes p q) (wakes p (item :: q))) as Hsuf.
    { intros p. unfold wakes. csimpl. case_match; [by eexists [_]|by exists []]. }
    split; [|done]. split; [|done]. split; simpl in *; [lia|]. intros p.
    specialize (Hs p). specialize (Hsuf p). apply suffix_length in Hsuf. lia.
Qed.

Lemma close_ok b : mailbox_ok b → mailbox_ok (close b) ∧ mb_queue (sm_state (close b)) = mb_queue (sm_state b).
Proof.
  intros [[Hb Hs] Ha]. unfold close. case_match; [done|]. split; [|done]. split; [done|]. intros _. by left.
Qed.

Lemma world_ok_new : world_ok ClientWorld_new.
Proof. split; [apply map_Forall_empty|..]; intros *; simpl; by rewrite ?lookup_empty. Qed.

Lemma client_step_ok base64_encode w w' : client_step base64_encode w w' → world_ok w → world_ok w'.
Proof.
  intros Hs HW. destruct HW as [HB HR HP] eqn:EW; clear EW. destruct Hs.
  - split; [done|..]; simpl.
    + intros a1 rg1. rewrite lookup_insert. case_decide; [|by eauto]. intros [= <-].
      split; simpl; [by rewrite map_size_empty|..]; intros *; by rewrite lookup_empty.
    + intros a1 a2 rg1 rg2. rewrite !lookup_insert. repeat case_decide; subst; intros; simplify_eq/=; try done;
        [by destruct (H0 a2 rg2)|by destruct (H0 a1 rg1)|by eapply HP].
  - apply world_ok_box; [done| |].
    + split; [split; simpl; [done|intros p; simpl; lia]|done].
    + intros a rg i c Ha Hi Em. by destruct (H0 a rg i c).
  - pose proof (register_with_in_spec base64_encode order rev m t random rg (cw_connections w) b
      H0 (HR _ _ H) HB H1 H2) as Hr. rewrite H3 in Hr. destruct Hr as (? & _ & ? & ? & ? & _).
    by eapply world_ok_registry.
  - eapply world_ok_registry; [done..| |exact HB|apply boxes_frame_refl].
    eapply registry_ok_subset; [by eapply HR|apply delete_subseteq|done].
  - pose proof (complete_delta_spec i action rg (cw_connections w) (HR _ _ H) HB) as Hc. rewrite H0 in Hc.
    destruct Hc as (? & _ & ? & ? & ? & _). by eapply world_ok_registry.
  - assert (rg_head_revision_id rg = rev) as Hh.
    { unfold publish_state_in, assert_ in H1. case_decide; [done|]. by run_bind. }
    destruct (publish_state_in_inv order st rev rg (cw_connections w)) as (rg1 & cx1 & E & ? & ? & ? & ?);
      [done|by eapply HR|done..|]. rewrite H1 in E. simplify_eq. by eapply world_ok_registry.
  - assert (rg_head_revision_id rg ≤ rev) as Hh.
    { unfold advance_head_in, assert_ in H1. case_decide; [done|]. by run_bind. }
    destruct (advance_head_in_inv order rev rg (cw_connections w)) as (rg1 & cx1 & E & ? & ? & ? & ?);
      [done|by eapply HR|done..|]. rewrite H1 in E. simplify_eq. by eapply world_ok_registry.
  - assert (rg_publication_id old ≠ rg_publication_id new) as Hp by (intros E; apply H; by eapply HP).
    pose proof (replace_registration_into_in_spec base64_encode order i random old new (cw_connections w)
      Hp H2 (HR _ _ H0) (HR _ _ H1) HB H3) as Hr. rewrite H4 in Hr.
    destruct Hr as (E1 & E2 & Ho & Hn & Hb & Hf & _). split; [done|..]; simpl.
    + intros a rg. rewrite !lookup_insert. repeat case_decide; subst; [by intros [= <-]|by intros [= <-]|].
      intros Ha. eapply registry_ok_frame; [|exact Hf|by eapply HR].
      intros E. by assert (a = a1) by by eapply HP.
    + intros b1 b2 rg1 rg2. rewrite !lookup_insert. repeat case_decide; subst; intros; simplify_eq; try done;
        eapply HP; eauto; congruence.
  - destruct (recv_ok b (HB _ _ H)) as [Hb Hsuf]. apply world_ok_box; [done..|].
    intros a rg i c Ha Hi <-. eapply client_ok_shrink; [by eapply (ro_client _ _ (HR _ _ Ha))|done].
  - destruct (close_ok b (HB _ _ H)) as [Hb Hq]. apply world_ok_box; [done..|].
    intros a rg i c Ha Hi <-. eapply client_ok_shrink; [by eapply (ro_client _ _ (HR _ _ Ha))|].
    intros p. by rewrite Hq.
  - split; simpl; [by apply map_Forall_delete| |done].
    intros a rg Ha. destruct (HR _ _ Ha) as [? ? Hc]. split; [done..|].
    intros i c b Hi Hb. change (delete m (cw_boxes w) !! cl_mailbox c = Some b) in Hb.
    apply lookup_delete_Some in Hb as [_ Hb]. by eapply Hc.
Qed.

Lemma client_reachable_ok base64_encode w : client_reachable base64_encode w → world_ok w.
Proof.
  intros Hr. pose proof world_ok_new as H0. revert H0. induction Hr; [done|].
  intros. apply IHHr. by eapply client_step_ok.
Qed.

(** * A demonstration world: one publication at revision 5, one connection
    registered with it and waiting for revision 6 *)

(** An injective encoding in the place of base64. *)
Definition bytes_text (bytes : list N) : string :=
  String.string_of_list_ascii (Ascii.ascii_of_N <$> bytes).

Definition demo_registry : SseClientRegistryState := SseClientRegistry_new 7 Live 5.
Definition demo_connections : Connections := MkConnections {[1 := SseMailbox_new]} ∅.
Definition demo_registered : SseClientRegistryState * Connections :=
  match register_with_in bytes_text [] 5 1 9 [42] demo_registry demo_connections with
  | Some (rg, cx, _) => (rg, cx)
  | None => (demo_registry, demo_connections)
  end.
Definition demo_completed : SseClientRegistryState * Connections :=
  (complete_delta 42 (Replace 6 false) demo_registered.1 demo_registered.2).1.
Definition demo_world : ClientWorld := MkClientWorld {[0 := demo_completed.1]} demo_completed.2.

Lemma demo_world_reachable : client_reachable bytes_text demo_world.
Proof.
  eapply rtc_l. { apply (step_new_registry _ _ 0 7 Live 5); [done|]. intros a' rg Ha. simpl in Ha. by rewrite lookup_empty in Ha. }
  eapply rtc_l. { apply (step_connect _ _ 1); [done|]. intros a rg i c Ha Hi. simpl in Ha.
    apply lookup_insert_Some in Ha as [[_ <-]|[_ Ha]]; [|by rewrite lookup_empty in Ha].
    simpl in Hi. by rewrite lookup_empty in Hi. }
  eapply rtc_l.
  { eapply (step_register _ _ 0 demo_registry [] 5 1 SseMailbox_new 9 [42] demo_registered.1 demo_registered.2);
      [done|done|done| |by vm_compute]. split; [|done]. intros i c Hi. simpl in Hi. by rewrite lookup_empty in Hi. }
  assert (demo_world = set_registry 0 demo_completed.1 demo_completed.2
    (MkClientWorld {[0 := demo_registered.1]} demo_registered.2)) as -> by done.
  eapply rtc_l; [|apply rtc_refl].
  eapply (step_complete _ _ 0 demo_registered.1 42 (Replace 6 false) demo_completed.1 demo_completed.2);
    [done|by vm_compute].
Qed.
