(* ===== verification/Publication.v ===== *)
(** One graph publication ([kgi-api-core], publication/mod.rs): the core
    (lifecycle state, Head view, history) behind its lock, with the response
    cache and the client registry it keeps in step, and the read-side
    operations over one coherent capture of the core.

    [apply_original_update] and the lifecycle transitions hold the mutation
    lock over two sections, the core write and the announcement to the clients;
    [gp_mutation] is the announcement still due, and readers run in between.
    Task spawning and encoding are the runtime's; a fresh job identity stands
    for the job a builder task is spawned for. *)

From Stdlib Require Import String.
From stdpp Require Import pretty.
From S2P Require Import Prelude Model Delta GraphView History Lineage Ladder Cache.
From S2P Require Import CacheMachine Clients.

#[local] Open Scope N_scope.

(** * The Head validator ([codec/mod.rs]) *)

Definition GRAPH_REPRESENTATION_VERSION : N := 1.

Record HeadEtagInput := MkHeadEtagInput {
  et_representation_version : N;
  et_publication_id : N;
  et_revision : N;
  et_extent : LevelExtent
}.
Definition HeadEtagInput_new (publication_id revision : N) (ext : LevelExtent) : HeadEtagInput :=
  MkHeadEtagInput GRAPH_REPRESENTATION_VERSION publication_id revision ext.

(** [format!("kgi-head-v{}-p{}-r{}-l{}-h{}", ..)]. *)
Definition etag (e : HeadEtagInput) : string :=
  ("kgi-head-v" +:+ pretty (et_representation_version e) +:+ "-p" +:+ pretty (et_publication_id e)
   +:+ "-r" +:+ pretty (et_revision e) +:+ "-l" +:+ pretty (low_level (et_extent e))
   +:+ "-h" +:+ pretty (high_level (et_extent e)))%string.

Section publication.
Context {KH : KaspaHash}.

(** * The core *)

Record GraphPublicationCore := MkGraphPublicationCore {
  pc_state : GraphPublicationState;
  pc_view : GraphView;
  pc_history : GraphHistory
}.

Record GraphDeltaTargetCapture := MkGraphDeltaTargetCapture {
  dt_publication_id : N;
  dt_state : GraphPublicationState;
  dt_revision : N;
  dt_revision_timestamp_ms : N;
  dt_head_level : N;
  dt_replay_floor_revision : N
}.

Record GraphViewCapture := MkGraphViewCapture {
  vcap_publication_id : N;
  vcap_replay_floor_revision : N;
  vcap_oldest_available_revision : N;
  vcap_view : GraphView
}.

Inductive HeadLevelLookupOutcome :=
  | LevelsComplete (publication_id revision : N) (levels : list (N * Level))
  | LevelUnavailable (requested_level : N).

Definition capture_delta_target (publication_id : N) (core : GraphPublicationCore) : GraphDeltaTargetCapture :=
  MkGraphDeltaTargetCapture publication_id (pc_state core) (current_revision_id (pc_view core))
    (current_revision_timestamp_ms (pc_view core)) (high_level (extent (pc_view core)))
    (gh_replay_floor_revision (pc_history core)).

Definition head_eligibility_boundary (core : GraphPublicationCore) : HeadEligibilityBoundary :=
  MkHeadEligibilityBoundary (current_revision_timestamp_ms (pc_view core))
    (gh_replay_floor_revision (pc_history core)) (oldest_available_revision (pc_history core)).

(** [depth - 1] is an unsigned subtraction. *)
Definition head_tier_extent (depth : N) (core : GraphPublicationCore) : option LevelExtent :=
  let high := high_level (extent (pc_view core)) in
  below ← checked_sub depth 1;
  let low := saturating_sub high below `max` low_level (extent (pc_view core)) in
  match LevelExtent_new low high with Ok ext => Some ext | Err _ => None end.

Definition view_capture (publication_id : N) (core : GraphPublicationCore) (view : GraphView) : GraphViewCapture :=
  MkGraphViewCapture publication_id (gh_replay_floor_revision (pc_history core))
    (oldest_available_revision (pc_history core)) view.

Definition capture_head_tier (publication_id depth : N) (core : GraphPublicationCore) : option GraphViewCapture :=
  ext ← head_tier_extent depth core;
  r ← extract_subview ext (pc_view core);
  match r with Ok view => Some (view_capture publication_id core view) | Err _ => None end.

Definition capture_view (publication_id : N) (core : GraphPublicationCore) : option GraphViewCapture :=
  r ← extract_subview (extent (pc_view core)) (pc_view core);
  match r with Ok view => Some (view_capture publication_id core view) | Err _ => None end.

Definition capture_subview (publication_id : N) (ext : LevelExtent) (core : GraphPublicationCore) :
    option (Result GraphViewCapture GraphViewExtractError) :=
  r ← extract_subview ext (pc_view core);
  view ←? r; Some (Ok (view_capture publication_id core view)).

(** The loop stops at the first level the view does not hold. *)
Fixpoint capture_level_values (ls : gmap N StoredLevel) (requested : list N) : Result (list (N * Level)) N :=
  match requested with
  | [] => Ok []
  | l :: rest =>
    match ls !! l with
    | None => Err l
    | Some s =>
      match capture_level_values ls rest with
      | Ok vs => Ok ((l, value s) :: vs)
      | Err e => Err e
      end
    end
  end.

Definition capture_levels (publication_id : N) (requested : list N) (core : GraphPublicationCore) :
    HeadLevelLookupOutcome :=
  match capture_level_values (levels (pc_view core)) requested with
  | Ok vs => LevelsComplete publication_id (current_revision_id (pc_view core)) vs
  | Err l => LevelUnavailable l
  end.

(** * The publication *)

(** The announcement a mutation still owes to the clients. *)
Inductive Announcement :=
  | AnnounceHead (target_revision : N)
  | AnnounceState (st : GraphPublicationState) (revision : N).

Record GraphPublication := MkGraphPublication {
  gp_publication_id : N;
  gp_core : GraphPublicationCore;
  gp_cache : CacheWorld;
  gp_clients : SseClientRegistryState;
  gp_mutation : option Announcement
}.

Definition set_core (core : GraphPublicationCore) (p : GraphPublication) : GraphPublication :=
  MkGraphPublication (gp_publication_id p) core (gp_cache p) (gp_clients p) (gp_mutation p).
Definition set_cache (w : CacheWorld) (p : GraphPublication) : GraphPublication :=
  MkGraphPublication (gp_publication_id p) (gp_core p) w (gp_clients p) (gp_mutation p).
Definition set_registry_state (rg : SseClientRegistryState) (p : GraphPublication) : GraphPublication :=
  MkGraphPublication (gp_publication_id p) (gp_core p) (gp_cache p) rg (gp_mutation p).
Definition set_mutation (a : option Announcement) (p : GraphPublication) : GraphPublication :=
  MkGraphPublication (gp_publication_id p) (gp_core p) (gp_cache p) (gp_clients p) a.

(** [sample_nonzero_publication_id] over the values drawn. *)
Fixpoint sample_nonzero_publication_id (draws : list N) : option N :=
  match draws with
  | [] => None
  | candidate :: draws => if decide (candidate ≠ 0) then Some candidate else sample_nonzero_publication_id draws
  end.

(** [now_ms] is the publication clock at the call. *)
Definition GraphPublication_new (initial_state : GraphPublicationState) (now_ms : N) (draws : list N)
    (view : GraphView) (history : GraphHistory) :
    option (Result GraphPublication PublicationProjectionError) :=
  _ ← assert_ (initial_state ≠ Stale);
  _ ← assert_ (tracking_policy view = Head);
  let view_revision := current_revision_id view in
  let history_revision := gh_current_revision_id history in
  if decide (view_revision ≠ history_revision)
  then Some (Err (ProjectionRevisionMismatch view_revision history_revision))
  else
    _ ← assert_ (current_revision_timestamp_ms view ≤ now_ms);
    publication_id ← sample_nonzero_publication_id draws;
    Some (Ok (MkGraphPublication publication_id (MkGraphPublicationCore initial_state view history)
                GraphCache_new (SseClientRegistry_new publication_id initial_state view_revision) None)).

(** ** Mutations *)

(** [transition_live] and [transition_stale] up to the release of the core. *)
Definition transition_live (p : GraphPublication) : option GraphPublication :=
  let core := gp_core p in
  _ ← assert_ (pc_state core = Synchronizing);
  Some (set_mutation (Some (AnnounceState Live (current_revision_id (pc_view core))))
          (set_core (MkGraphPublicationCore Live (pc_view core) (pc_history core)) p)).

Definition transition_stale (p : GraphPublication) : GraphPublication * bool :=
  let core := gp_core p in
  if decide (pc_state core = Stale) then (p, false)
  else (set_mutation (Some (AnnounceState Stale (current_revision_id (pc_view core))))
          (set_core (MkGraphPublicationCore Stale (pc_view core) (pc_history core)) p), true).

(** [apply_original_update] up to the release of the core; the result is
    returned once the announcement is made. *)
Definition apply_original_update (u : OriginalUpdate) (now_ms : N) (p : GraphPublication) :
    option (GraphPublication * Result (option N) PublicationProjectionError) :=
  let core := gp_core p in
  _ ← assert_ (pc_state core ≠ Stale);
  '(view, history, r) ← AppliedLineageUpdate_apply estimate_raw_delta_bytes u now_ms (pc_view core) (pc_history core);
  let p := set_core (MkGraphPublicationCore (pc_state core) view history) p in
  match r with
  | Err e => Some (p, Err e)
  | Ok None => Some (p, Ok None)
  | Ok (Some applied) =>
    cache ← match replay_floor_advance applied with
            | Some floor => cache_step (InvalidateReplayFloor floor) (gp_cache p)
            | None => Some (gp_cache p)
            end;
    Some (set_mutation (Some (AnnounceHead (target_revision applied))) (set_cache cache p),
          Ok (Some (target_revision applied)))
  end.

(** The announcement, with the mutation lock still held. *)
Definition announce_in (order : list (N * SseClientRegistration)) (p : GraphPublication) (cx : Connections) :
    option (GraphPublication * Connections) :=
  match gp_mutation p with
  | None => Some (p, cx)
  | Some a =>
    '(rg, cx) ← match a with
                | AnnounceHead target => advance_head_in order target (gp_clients p) cx
                | AnnounceState st revision => publish_state_in order st revision (gp_clients p) cx
                end;
    Some (set_mutation None (set_registry_state rg p), cx)
  end.

(** ** Canonical deltas *)

Record CanonicalDeltaRequest := MkCanonicalDeltaRequest {
  cr_head : GraphDeltaTargetCapture;
  cr_selected : DeltaRevisionRange;
  cr_active_interval : N
}.

Inductive CanonicalDeltaSelection :=
  | SelFutureCursor
  | SelClientRegistrationMissing
  | SelUpToDate (head : GraphDeltaTargetCapture)
  | SelReplayBarrier
  | SelWaitForWakeup (head : GraphDeltaTargetCapture)
  | SelSourceExpired
  | SelAccess (request : CanonicalDeltaRequest) (access : CacheAccess CachedDelta).

Inductive CanonicalDeltaReentry :=
  | ReSourceExpired
  | ReAccess (access : CacheAccess CachedDelta).

(** The delta elected, and the job spawned for it, if any. *)
Definition elect_canonical_delta_from_history (request : CanonicalDeltaRequest) (current_target : option N)
    (fresh : JobId) (core : GraphPublicationCore) (cache : CacheWorld) :
    option (CacheWorld * Result CanonicalDeltaReentry GraphHistoryRangeError) :=
  let head_ := cr_head request in
  let selected := cr_selected request in
  let source := rr_source_revision selected in
  ladder ← DeltaTargetLadder_new source (dt_revision head_) current_target (cr_active_interval request);
  targets ← fitting_targets selected ladder;
  r ← fitting_range source targets (λ estimated, bool_decide (estimated < SOFT_DELTA_ESTIMATED_BYTES)) (pc_history core);
  match r with
  | Err e => Some (cache, Err e)
  | Ok fitting =>
    fitting ← fitting;
    first ← head (fr_entries fitting);
    let first_ts := revision_timestamp_ms (he_delta first) in
    age_ms ← checked_sub (dt_revision_timestamp_ms head_) first_ts;
    if decide (DELTA_CACHE_MAX_AGE_MS ≤ age_ms) then Some (cache, Ok ReSourceExpired)
    else
      let target := fr_target_revision fitting in
      _ ← fr_estimated_raw_bytes fitting;
      let size_limited := fr_shortened fitting in
      '(_, access, _) ← delta_elect source first_ts target size_limited fresh (w_deltas cache);
      cache ← cache_step (ElectDelta source first_ts target size_limited fresh) cache;
      Some (cache, Ok (ReAccess access))
  end.

(** The lookup that precedes every election. *)
Definition lookup_or_elect (request : CanonicalDeltaRequest) (fresh : JobId)
    (core : GraphPublicationCore) (cache : CacheWorld) :
    option (CacheWorld * Result CanonicalDeltaReentry GraphHistoryRangeError) :=
  let source := rr_source_revision (cr_selected request) in
  let target := rr_target_revision (cr_selected request) in
  let head_ts := dt_revision_timestamp_ms (cr_head request) in
  '(_, found) ← delta_lookup source target head_ts (w_deltas cache);
  cache ← cache_step (LookupDelta source target head_ts) cache;
  match found with
  | DeltaCompleted completed => Some (cache, Ok (ReAccess (AccessCompleted completed)))
  | DeltaRunning job => Some (cache, Ok (ReAccess (AccessJob job)))
  | DeltaConstructionRequired current_target =>
    elect_canonical_delta_from_history request current_target fresh core cache
  end.

Definition select_canonical_delta (source : N) (client : option ClientIdentifier) (active_interval : N)
    (fresh : JobId) (p : GraphPublication) (cx : Connections) :
    option (GraphPublication * Connections * Result CanonicalDeltaSelection GraphHistoryRangeError) :=
  let core := gp_core p in
  let head_ := capture_delta_target (gp_publication_id p) core in
  if decide (dt_revision head_ < source) then Some (p, cx, Ok SelFutureCursor)
  else
    let '(rg, cx, valid) := match client with
                            | Some identifier => validate identifier (gp_clients p) cx
                            | None => (gp_clients p, cx, true)
                            end in
    let p := set_registry_state rg p in
    if negb valid then Some (p, cx, Ok SelClientRegistrationMissing)
    else
      cache ← cache_step (PruneDeltas (dt_revision_timestamp_ms head_)) (gp_cache p);
      let p := set_cache cache p in
      if decide (source = dt_revision head_) then Some (p, cx, Ok (SelUpToDate head_))
      else if decide (source < dt_replay_floor_revision head_) then Some (p, cx, Ok SelReplayBarrier)
      else
        ladder ← DeltaTargetLadder_new source (dt_revision head_) None active_interval;
        selection ← select (dt_state head_) ladder;
        match selection with
        | WaitForWakeup _ => Some (p, cx, Ok (SelWaitForWakeup head_))
        | Range selected =>
          let request := MkCanonicalDeltaRequest head_ selected active_interval in
          '(cache, r) ← lookup_or_elect request fresh core (gp_cache p);
          Some (set_cache cache p, cx,
                match r with
                | Err e => Err e
                | Ok ReSourceExpired => Ok SelSourceExpired
                | Ok (ReAccess access) => Ok (SelAccess request access)
                end)
        end.

Definition reenter_canonical_delta (request : CanonicalDeltaRequest) (fresh : JobId) (p : GraphPublication) :
    option (GraphPublication * Result CanonicalDeltaReentry GraphHistoryRangeError) :=
  let head_ := cr_head request in
  let selected := cr_selected request in
  _ ← assert_ (dt_publication_id head_ = gp_publication_id p);
  _ ← assert_ (rr_source_revision selected < rr_target_revision selected);
  _ ← assert_ (rr_target_revision selected ≤ dt_revision head_);
  _ ← assert_ (dt_revision head_ ≤ current_revision_id (pc_view (gp_core p)));
  '(cache, r) ← lookup_or_elect request fresh (gp_core p) (gp_cache p);
  Some (set_cache cache p, r).

(** ** Head tiers *)

Inductive HeadTierSelection :=
  | TierAccess (access : CacheAccess CachedHeadSnapshot)
  | TierConditionMatched (tag : string).

(** The capture taken for an elected job, if one is elected. *)
Definition head_tier (depth : N) (condition_matches : string → bool) (fresh : JobId) (p : GraphPublication) :
    option (GraphPublication * HeadTierSelection * option GraphViewCapture) :=
  let core := gp_core p in
  let boundary := head_eligibility_boundary core in
  '(_, found) ← head_lookup depth boundary (w_heads (gp_cache p));
  cache ← cache_step (LookupHead depth boundary) (gp_cache p);
  let p := set_cache cache p in
  match found with
  | HeadCompleted completed => Some (p, TierAccess (AccessCompleted completed), None)
  | HeadRunning running => Some (p, TierAccess (AccessJob running), None)
  | HeadConstructionRequired =>
    ext ← head_tier_extent depth core;
    let tag := etag (HeadEtagInput_new (gp_publication_id p) (current_revision_id (pc_view core)) ext) in
    if condition_matches tag then Some (p, TierConditionMatched tag, None)
    else
      '(_, access, elected) ← head_elect depth boundary fresh (w_heads (gp_cache p));
      cache ← cache_step (ElectHead depth boundary fresh) (gp_cache p);
      capture ← match elected with
                | Some _ => Some <$> capture_head_tier (gp_publication_id p) depth core
                | None => Some None
                end;
      Some (set_cache cache p, TierAccess access, capture)
  end.

(** ** Replay-floor admission *)

Inductive DeltaReplayFloorAdmission :=
  | DeltaAdmitted (candidate : CachedDelta) (delivery_head : GraphDeltaTargetCapture)
  | DeltaRejected (replay_floor_revision : N).

Definition admit_cached_delta_replay_floor (candidate : CachedDelta) (p : GraphPublication) :
    option DeltaReplayFloorAdmission :=
  let delivery_head := capture_delta_target (gp_publication_id p) (gp_core p) in
  _ ← assert_ (cd_to_revision_id candidate ≤ dt_revision delivery_head);
  Some (if decide (cd_from_revision_id candidate < dt_replay_floor_revision delivery_head)
        then DeltaRejected (dt_replay_floor_revision delivery_head)
        else DeltaAdmitted candidate delivery_head).

Inductive ReplayFloorAdmission (T : Type) :=
  | FloorAdmitted (candidate : T)
  | FloorRejected (replay_floor_revision : N).
Arguments FloorAdmitted {T} candidate.
Arguments FloorRejected {T} replay_floor_revision.

Definition admit_replay_floor {T} (candidate_revision : N) (candidate : T) (p : GraphPublication) :
    ReplayFloorAdmission T :=
  let floor := gh_replay_floor_revision (pc_history (gp_core p)) in
  if decide (candidate_revision < floor) then FloorRejected floor else FloorAdmitted candidate.
End publication.
