(* ===== verification/Election.v ===== *)
(** Invariant of a publication: the core, the cached deltas and the client
    registry stay in step under every interleaving of its mutations with readers,
    builders and connections; and the selection of canonical deltas: a delta
    request is answered from the cache or by one job over the retained history. *)

From Stdlib Require Import String.
From S2P Require Import Prelude Model Delta GraphView ViewInvariant ApplyDelta Mutation HeadView.
From S2P Require Import VspcView Subview History Lineage Ladder Cache CacheMachine Clients.
From S2P Require Import ClientsSafety ClientsWorld Publication.

#[local] Open Scope N_scope.

Section publication_safety.
Context {KH : KaspaHash}.
Implicit Types (core : GraphPublicationCore) (h : GraphHistory) (v : GraphView) (p : GraphPublication).

(** * Revision timestamps *)

Lemma finish_mutation_timestamp m ts v v' d :
  finish_mutation m ts v = Some (v', Some d) → revision_timestamp_ms d = ts.
Proof.
  unfold finish_mutation. case_decide; [done|]. destruct (checked_add _ 1); [|done]. run_bind.
  unfold GraphDelta_new. repeat case_decide; try done. by intros [= _ <-].
Qed.

Lemma update_timestamp u ts v v' d :
  OriginalUpdate_apply u ts v = Some (v', Ok (Some d)) → revision_timestamp_ms d = ts.
Proof.
  destruct u as [c|c]; simpl.
  - unfold apply_head_block_committed. case_decide; [done|]. destruct (assert_ _); [|done]. run_bind.
    destruct (head_extent _ _); [|done]. run_bind. destruct (apply_block_projection _ _ _ _) as [[]|]; [|done].
    run_bind. destruct (prune_below _ _ _) as [[]|]; [|done]. run_bind.
    destruct (finish_mutation _ _ _) as [[v1 [d1|]]|] eqn:E; [|done|done]. run_bind. intros [= _ <-].
    by eapply finish_mutation_timestamp.
  - unfold apply_head_vspc_committed. case_decide; [done|]. destruct (assert_ _); [|done]. run_bind.
    destruct (apply_vspc_projection _ _ _ _) as [[v1 [d1|]]|] eqn:E; [|done|done]. run_bind. intros [= _ <-].
    unfold apply_vspc_projection in E. repeat case_match. by eapply finish_mutation_timestamp.
Qed.

(** * The core *)

(** [tr] lists the Head views of the publication, newest first; [clock k] is
    the timestamp of the revision after [k]. *)
Record core_inv (tr : list GraphView) (clock : N → N) core : Prop := {
  cor_lineage : lineage_inv tr (pc_view core) (pc_history core);
  cor_fits e : e ∈ gh_entries (pc_history core) → he_estimated_raw_bytes e < SOFT_DELTA_ESTIMATED_BYTES;
  cor_stamped e : e ∈ gh_entries (pc_history core) →
    revision_timestamp_ms (he_delta e) = clock (from_revision_id (he_delta e));
  cor_clock k1 k2 : k1 ≤ k2 → clock k1 ≤ clock k2;
  cor_past k : clock k ≤ current_revision_timestamp_ms (pc_view core)
}.

(** What an update does to the history behind its readers. *)
Definition history_moved h h' (cur : N) (advance : option N) : Prop :=
  match advance with
  | None => gh_replay_floor_revision h' = gh_replay_floor_revision h ∧
      ∀ k t, oldest_available_revision h' ≤ k → k < t → t ≤ cur →
        oldest_available_revision h ≤ k ∧ segment h' k t = segment h k t
  | Some floor => floor = cur + 1 ∧ gh_replay_floor_revision h' = cur + 1
  end.

(** Pruning does not change what lies between two retained revisions. *)
Lemma pruned_segment h1 h' n k t :
  history_inv h1 → history_inv h' → gh_current_revision_id h' = gh_current_revision_id h1 →
  gh_entries h' = drop n (gh_entries h1) → (n ≤ length (gh_entries h1))%nat →
  oldest_available_revision h' ≤ k →
  oldest_available_revision h1 ≤ k ∧ segment h' k t = segment h1 k t.
Proof.
  intros H1 H' Hcur He Hn Ho. pose proof (oldest_length _ H1) as L1.
  pose proof (oldest_length _ H') as L'. rewrite He, length_drop in L'. split; [lia|].
  unfold segment. rewrite He, drop_drop. do 2 f_equal. lia.
Qed.

Lemma appended_segment h h1 e k t :
  history_inv h → history_inv h1 → gh_current_revision_id h1 = gh_current_revision_id h + 1 →
  gh_entries h1 = gh_entries h ++ [e] → oldest_available_revision h1 ≤ k → k < t → t ≤ gh_current_revision_id h →
  oldest_available_revision h ≤ k ∧ segment h1 k t = segment h k t.
Proof.
  intros H H1 Hcur He Ho Hkt Ht. pose proof (oldest_length _ H) as L.
  pose proof (oldest_length _ H1) as L1. rewrite He, length_app in L1. simpl in L1. split; [lia|].
  unfold segment. rewrite He. replace (oldest_available_revision h1) with (oldest_available_revision h) by lia.
  rewrite drop_app_le by lia. rewrite take_app_le; [done|]. rewrite length_drop. lia.
Qed.

Lemma core_apply_inv tr clock core u ts v' h' r :
  core_inv tr clock core → update_ok u (pc_view core) → current_revision_timestamp_ms (pc_view core) ≤ ts →
  AppliedLineageUpdate_apply estimate_raw_delta_bytes u ts (pc_view core) (pc_history core) = Some (v', h', r) →
  (r = Ok None ∧ v' = pc_view core ∧ h' = pc_history core) ∨
  ∃ applied clock', r = Ok (Some applied) ∧
    core_inv (v' :: tr) clock' (MkGraphPublicationCore (pc_state core) v' h') ∧
    target_revision applied = current_revision_id (pc_view core) + 1 ∧
    current_revision_id v' = current_revision_id (pc_view core) + 1 ∧
    current_revision_timestamp_ms v' = ts ∧
    (∀ k, k < current_revision_id (pc_view core) → clock' k = clock k) ∧
    history_moved (pc_history core) h' (current_revision_id (pc_view core)) (replay_floor_advance applied).
Proof.
  intros [HL Hfit Hst Hmono Hpast] Hu Hts Happ. pose proof HL as [Hh Hi Hr _ _ _].
  destruct (lineage_step estimate_raw_delta_bytes tr _ _ u ts v' h' r HL Hu Happ) as [HL' _].
  unfold AppliedLineageUpdate_apply in Happ. rewrite decide_False in Happ by (rewrite Hr; tauto).
  destruct (original_update u ts (pc_view core) Hh Hu)
    as [E|(v1 & d & Ho & Hv1 & Ha & Hf & Hd & Hfrom & Hto & Hrev)].
  { rewrite E in Happ. cbn [mbind option_bind] in Happ. injection Happ as <- <- <-. by left. }
  right. rewrite Ho in Happ. cbn [mbind option_bind] in Happ.
  destruct (estimate_raw_delta_bytes d) as [est|] eqn:Eest; [|done]. cbn [mbind option_bind] in Happ.
  destruct (append d est (classify_replayability est) (pc_history core)) as [[h1 res]|] eqn:Eap; [|done].
  pose proof (append_no_overflow _ _ _ _ _ Eap ltac:(congruence) ltac:(lia)) as [Hm1 Hm2].
  destruct (append_inv (pc_history core) d est (classify_replayability est)) as (h2 & E2 & Hi1 & Hr1 & He1 & Hfl1);
    [done|congruence|lia|lia|done|]. rewrite Eap in E2. injection E2 as -> ->.
  cbn [mbind option_bind] in Happ. injection Happ as <- <- <-.
  destruct (apply_delta_refines_run d (pc_view core) v1) as (_ & _ & _ & _ & _ & _ & _ & _ & Hv1ts);
    [apply Hh|done|done|].
  pose proof (update_timestamp _ _ _ _ _ Ho) as Hdts.
  destruct (prune_inv (low_level (extent v1)) h2 Hi1) as (Hip & Hrp & n & Hep & Hn).
  set (cur := current_revision_id (pc_view core)) in *.
  assert (∀ e, e ∈ gh_entries (prune (low_level (extent v1)) h2) →
    e ∈ gh_entries (pc_history core) ∧ classify_replayability est = Replayable ∨
    e = MkGraphHistoryEntry d est (gh_current_cumulative_estimated_bytes (pc_history core) + est) ∧
      classify_replayability est = Replayable) as Hent.
  { intros e He. rewrite Hep in He. apply (elem_of_submseteq _ (gh_entries h2)) in He;
      [|apply sublist_submseteq, sublist_drop]. rewrite He1 in He.
    destruct (classify_replayability est); [|set_solver]. apply elem_of_app in He as [?|?%list_elem_of_singleton]; auto. }
  assert (classify_replayability est = Replayable → est < SOFT_DELTA_ESTIMATED_BYTES) as Hsoft.
  { unfold classify_replayability. by case_decide. }
  exists (MkAppliedLineageUpdate (to_revision_id d)
    (if decide (classify_replayability est = ReplayBarrier) then Some (to_revision_id d) else None)).
  exists (λ k, if decide (k < cur) then clock k else ts). split; [done|]. split_and!; simpl; try done; try congruence.
  - split; simpl; [done|..].
    + intros e [[He ?]|[-> ?]]%Hent; [by apply Hfit|by apply Hsoft].
    + intros e [[He _]|[-> _]]%Hent.
      * rewrite (Hst e He). rewrite decide_True; [done|].
        apply list_elem_of_lookup in He as [i He]. destruct (hi_linked _ Hi) as [c Hl].
        destruct (linked_lookup _ _ _ _ _ _ _ Hl He) as (-> & _).
        pose proof (linked_length _ _ _ _ _ Hl). apply lookup_lt_Some in He. lia.
      * simpl. rewrite Hfrom, decide_False by lia. done.
    + intros k1 k2 Hk. repeat case_decide; [by apply Hmono| |lia|lia]. specialize (Hpast k1). lia.
    + intros k. rewrite Hv1ts, Hdts. case_decide; [|lia]. specialize (Hpast k). lia.
  - intros k Hk. by rewrite decide_True.
  - case_decide as Hb; simpl.
    + rewrite Hfl1, Hb. split; lia.
    + assert (classify_replayability est = Replayable) as Hrep by (by destruct (classify_replayability est)).
      rewrite Hfl1, Hrep. rewrite Hrep in He1. split; [done|]. intros k t Hok Hkt Htc.
      destruct (pruned_segment h2 (prune (low_level (extent v1)) h2) n k t) as [Ho2 ->]; [done..|].
      eapply appended_segment; [done|done| |exact He1|done|done|]; [lia|lia].
Qed.

(** * Cached deltas *)

(** A cacheable target of a source: on its ladder, reached by the Head, and,
    while the source is retained, within the soft limit. *)
Record target_ok h (source target : N) : Prop := {
  to_forward : source < target;
  to_reached : target ≤ gh_current_revision_id h;
  to_ladder : ∃ ts, target_boundaries source = Some ts ∧ target ∈ ts;
  to_fits : oldest_available_revision h ≤ source →
            total_estimate (segment h source target) < SOFT_DELTA_ESTIMATED_BYTES
}.

Record slot_ok h (source : N) (slot : DeltaCacheSlot) : Prop := {
  so_floor : gh_replay_floor_revision h ≤ source;
  so_source : source < gh_current_revision_id h;
  so_completed d : ds_completed slot = Some d → target_ok h source (cd_to_revision_id d);
  so_running r : ds_running slot = Some r → target_ok h source (rj_target_revision r)
}.

Definition deltas_ok h (m : DeltaCache) : Prop := map_Forall (slot_ok h) m.

Lemma deltas_ok_subseteq h m m' : m' ⊆ m → deltas_ok h m → deltas_ok h m'.
Proof. intros Hs Hm k slot Hk. apply Hm. by eapply lookup_weaken. Qed.

(** The cache after an update of the core: kept, or emptied below the floor. *)
Lemma deltas_ok_moved h h' m advance :
  history_moved h h' (gh_current_revision_id h) advance →
  gh_current_revision_id h' = gh_current_revision_id h + 1 → deltas_ok h m →
  deltas_ok h' (match advance with Some floor => split_off floor m | None => m end).
Proof.
  intros Hmv Hcur Hm. destruct advance as [floor|]; simpl in Hmv.
  - destruct Hmv as [-> _]. intros k slot [Hk Hle]%map_lookup_filter_Some. simpl in Hle.
    pose proof (so_source _ _ _ (Hm k slot Hk)). lia.
  - destruct Hmv as [Hf Hseg]. intros k slot Hk. destruct (Hm k slot Hk) as [H1 H2 H3 H4].
    assert (∀ t, target_ok h k t → target_ok h' k t) as Ht.
    { intros t [T1 T2 T3 T4]. split; [done|lia|done|]. intros Ho. destruct (Hseg k t Ho T1 T2) as [? ->]. auto. }
    split; [congruence|lia|auto|auto].
Qed.

(** Election keeps the slots well formed; what it hands out belongs to the source. *)
Lemma delta_elect_ok h m source first target sl fresh m' a e :
  deltas_ok h m → gh_replay_floor_revision h ≤ source → target_ok h source target →
  delta_elect source first target sl fresh m = Some (m', a, e) →
  deltas_ok h m' ∧
  match a with
  | AccessCompleted d => target_ok h source (cd_to_revision_id d) ∧ is_adequate_for d target ∧
      ∃ slot d0, m !! source = Some slot ∧ ds_completed slot = Some d0 ∧ cd_from_revision_id d = cd_from_revision_id d0
  | AccessJob j => ∃ slot r, m' !! source = Some slot ∧ ds_running slot = Some r ∧ rj_job r = j ∧
      target_ok h source (rj_target_revision r)
  end.
Proof.
  intros Hm Hfl Ht. unfold delta_elect.
  assert (∀ ts completed, (∀ d, completed = Some d → target_ok h source (cd_to_revision_id d)) →
    deltas_ok h (<[source := MkDeltaCacheSlot ts completed (Some (MkRunningDeltaJob target sl fresh))]> m)) as Hins.
  { intros ts completed Hc. apply map_Forall_insert_2; [|done]. split; simpl; [done| |done|by intros r [= <-]].
    destruct Ht. lia. }
  destruct (m !! source) as [slot|] eqn:Es.
  2: { intros [= <- <- <-]. split; [by apply Hins|]. eexists _, _. rewrite lookup_insert_eq. by split_and!. }
  pose proof (Hm _ _ Es) as Hsl. pose proof (so_completed _ _ _ Hsl) as Hcomp.
  assert (∀ x, delta_elect_slot source target sl fresh slot m = x → Some x = Some (m', a, e) →
    deltas_ok h m' ∧
    match a with
    | AccessCompleted d => target_ok h source (cd_to_revision_id d) ∧ is_adequate_for d target ∧
        ∃ slot0 d0, Some slot = Some slot0 ∧ ds_completed slot0 = Some d0 ∧ cd_from_revision_id d = cd_from_revision_id d0
    | AccessJob j => ∃ slot r, m' !! source = Some slot ∧ ds_running slot = Some r ∧ rj_job r = j ∧
        target_ok h source (rj_target_revision r)
    end) as Hslot.
  { intros x <- [= E]. unfold delta_elect_slot in E.
    assert (match ds_running slot with
      | Some running => (m, AccessJob (rj_job running), None)
      | None => (<[source := MkDeltaCacheSlot (ds_first_revision_timestamp_ms slot) (ds_completed slot)
          (Some (MkRunningDeltaJob target sl fresh))]> m, AccessJob fresh, Some fresh) end = (m', a, e) →
      deltas_ok h m' ∧ match a with AccessCompleted _ => False
      | AccessJob j => ∃ slot r, m' !! source = Some slot ∧ ds_running slot = Some r ∧ rj_job r = j ∧
          target_ok h source (rj_target_revision r) end) as Hwait.
    { destruct (ds_running slot) as [r|] eqn:Er; intros [= <- <- <-].
      - split; [done|]. exists slot, r. split_and!; try done. by apply (so_running _ _ _ Hsl).
      - split; [by apply Hins|]. eexists _, _. rewrite lookup_insert_eq. by split_and!. }
    destruct (ds_completed slot) as [d|] eqn:Ed; [case_decide|].
    - injection E as <- <- <-. split; [done|]. split_and!; [by apply Hcomp|done|]. by exists slot, d.
    - apply Hwait in E. destruct a; [by destruct E|done].
    - apply Hwait in E. destruct a; [by destruct E|done]. }
  destruct (ds_completed slot) as [d|] eqn:Ed; [|by apply Hslot].
  case_decide as Hre; [|by apply Hslot]. destruct Hre as (-> & Hto & Hlim).
  unfold reclassified_size_limited. rewrite assert_true by done. run_bind. intros [= <- <- <-]. split.
  - apply map_Forall_insert_2; [|done]. destruct Hsl. split; simpl; [done|done| |done].
    intros d0 [= <-]. simpl. by apply Hcomp.
  - simpl. split_and!; [by apply Hcomp|by right|]. exists slot, d. by split_and!.
Qed.

Lemma delta_finish_ok h m source job result m' :
  deltas_ok h m → delta_finish source job result m = Some m' → deltas_ok h m'.
Proof.
  intros Hm. unfold delta_finish. destruct (m !! source) as [slot|] eqn:Es; [|by intros [= <-]].
  destruct (ds_running slot) as [r|] eqn:Er; [|by intros [= <-]].
  case_decide as Hj; [|by intros [= <-]]. pose proof (Hm _ _ Es) as [H1 H2 H3 H4].
  destruct result as [d|er].
  - destruct (assert_ (cd_from_revision_id d = source)) as [[]|] eqn:A1; [|done]. run_bind.
    destruct (assert_ (cd_to_revision_id d = _)) as [[]|] eqn:A2; [|done]. run_bind.
    destruct (assert_ (cd_size_limited d = _)) as [[]|] eqn:A3; [|done]. run_bind.
    apply assert_Some in A2.
    assert (∀ c, (match ds_completed slot with
      | Some completed => if decide (cd_to_revision_id completed < cd_to_revision_id d) then Some d else Some completed
      | None => Some d end) = Some c → target_ok h source (cd_to_revision_id c)) as Hc.
    { intros c Hc. destruct (ds_completed slot) eqn:Ed; [case_decide|]; simplify_eq; rewrite ?A2; auto. }
    destruct (match ds_completed slot with Some _ => _ | None => _ end) as [c|] eqn:E; intros [= <-];
      [|by apply map_Forall_delete].
    apply map_Forall_insert_2; [|done]. split; simpl; [done|done|by intros ? [= <-]; apply Hc|done].
  - run_bind. destruct (ds_completed slot) as [c|] eqn:Ed; intros [= <-]; [|by apply map_Forall_delete].
    apply map_Forall_insert_2; [|done]. split; simpl; [done|done| |done]. intros d0 [= <-]. by apply H3.
Qed.
End publication_safety.

(** * Candidate targets *)

Lemma elem_of_take_while (P : N → Prop) `{∀ x, Decision (P x)} xs t :
  StronglySorted (λ x y, y < x) xs → (∀ x y, P y → y ≤ x → P x) → t ∈ xs → P t → t ∈ take_while P xs.
Proof.
  intros Hs Hup. induction Hs as [|x xs Hs IH Hall]; [done|]. intros Hin Ht. simpl.
  rewrite Forall_forall in Hall. rewrite decide_True.
  - apply elem_of_cons in Hin as [->|Hin]; [left|right; auto].
  - apply elem_of_cons in Hin as [->|Hin]; [done|]. apply (Hup _ t); [done|]. apply N.lt_le_incl. auto.
Qed.

(** The candidates of a selection hold every covering target up to it. *)
Lemma fitting_targets_complete r l rest t :
  ladder_wf l → fitting_targets r l = Some (rr_target_revision r :: rest) →
  t ∈ dl_targets l → t ≤ rr_target_revision r → keeps_coverage (dl_current_target l) t →
  t ∈ rr_target_revision r :: rest.
Proof.
  intros Hw Hf Hin Hle Hk. destruct (ladder_wf_targets l Hw) as (su & tl & _ & Hs & _ & _).
  revert Hf. unfold fitting_targets. destruct (assert_ (rr_source_revision r = _)); [|done]. run_bind.
  destruct (list_find _ _) as [[i x]|] eqn:Ef; [|done]. run_bind.
  destruct (assert_ (_ ≤ _)); [|done]. run_bind.
  destruct (match dl_current_target l with Some _ => _ | None => _ end); [|done].
  run_bind. intros [= <-].
  apply list_find_Some in Ef as (Hi & -> & _).
  apply elem_of_take_while; [by apply StronglySorted_drop| | |done].
  - intros x y Hy Hyx. destruct (dl_current_target l); simpl in *; [lia|done].
  - rewrite <- (take_drop i (dl_targets l)) in Hin, Hs. apply elem_of_app in Hin as [Hin|Hin]; [|done].
    exfalso. assert (rr_target_revision r < t); [|lia].
    apply (StronglySorted_app_1_elem_of _ _ _ _ _ Hs Hin).
    apply list_elem_of_lookup. exists 0%nat. by rewrite lookup_drop, Nat.add_0_r.
Qed.

Section election.
Context {KH : KaspaHash}.
Variable clock : N → N.
Implicit Types (core : GraphPublicationCore) (h : GraphHistory) (rq : CanonicalDeltaRequest).

(** A source the history refuses is refused before any candidate is costed. *)
Lemma fitting_range_refused h from requested rest fits :
  history_inv h → from < requested → from < oldest_available_revision h →
  fitting_range from (requested :: rest) fits h =
    Some (Err (if decide (from < gh_replay_floor_revision h)
               then StartBeforeReplayFloor from (gh_replay_floor_revision h)
               else StartPruned from (oldest_available_revision h))).
Proof.
  intros Hi Hf Ho. unfold fitting_range. rewrite !decide_False by lia.
  case_decide; [done|]. by rewrite decide_True.
Qed.

(** What a selection establishes of the request it retains. *)
Record request_ok core rq : Prop := {
  rq_forward : rr_source_revision (cr_selected rq) < rr_target_revision (cr_selected rq);
  rq_reached : rr_target_revision (cr_selected rq) ≤ dt_revision (cr_head rq);
  rq_current : dt_revision (cr_head rq) ≤ current_revision_id (pc_view core);
  rq_room : ladder_room (rr_source_revision (cr_selected rq));
  rq_ladder : ∃ ts, target_boundaries (rr_source_revision (cr_selected rq)) = Some ts ∧
                    rr_target_revision (cr_selected rq) ∈ ts;
  rq_interval : cr_active_interval rq ∈ ADAPTIVE_DELTA_INTERVALS;
  rq_past : clock (rr_source_revision (cr_selected rq)) ≤ dt_revision_timestamp_ms (cr_head rq)
}.

(** A cached target that a later election must keep covered. *)
Definition current_ok h rq (current : option N) : Prop :=
  ∀ c, current = Some c →
    target_ok h (rr_source_revision (cr_selected rq)) c ∧ c ≤ rr_target_revision (cr_selected rq).

Lemma request_ladder core rq current :
  request_ok core rq → current_ok (pc_history core) rq current →
  ∃ l, DeltaTargetLadder_new (rr_source_revision (cr_selected rq)) (dt_revision (cr_head rq)) current
         (cr_active_interval rq) = Some l ∧ ladder_wf l ∧
    dl_source_revision l = rr_source_revision (cr_selected rq) ∧ dl_head_revision l = dt_revision (cr_head rq) ∧
    dl_current_target l = current ∧ rr_target_revision (cr_selected rq) ∈ dl_targets l.
Proof.
  intros [R1 R2 R3 R4 (ts & Ets & Hin) R6 R7] Hc.
  assert (∃ l, DeltaTargetLadder_new (rr_source_revision (cr_selected rq)) (dt_revision (cr_head rq)) current
    (cr_active_interval rq) = Some l ∧ l = MkDeltaTargetLadder (rr_source_revision (cr_selected rq))
      (dt_revision (cr_head rq)) current (cr_active_interval rq) ts) as (l & El & ->).
  { eexists. split; [|done]. unfold DeltaTargetLadder_new.
    rewrite (assert_true (_ < dt_revision _)) by lia. run_bind.
    rewrite (assert_true (_ ∈ ADAPTIVE_DELTA_INTERVALS)) by done. run_bind. rewrite Ets. run_bind.
    destruct current as [c|]; [|done].
    destruct (Hc c eq_refl) as [[T1 T2 (ts' & Ets' & T3) _] Hle].
    rewrite (assert_true (_ < c ∧ _)) by lia. run_bind. rewrite assert_true by congruence. done. }
  eexists. split; [exact El|]. split; [by eapply DeltaTargetLadder_new_wf|done].
Qed.

(** A single retained step fits, so some covering candidate always does. *)
Lemma fitting_choice_exists tr core rq current l rest :
  core_inv tr clock core → request_ok core rq → current_ok (pc_history core) rq current →
  ladder_wf l → dl_source_revision l = rr_source_revision (cr_selected rq) → dl_current_target l = current →
  rr_target_revision (cr_selected rq) ∈ dl_targets l →
  fitting_targets (cr_selected rq) l = Some (rr_target_revision (cr_selected rq) :: rest) →
  oldest_available_revision (pc_history core) ≤ rr_source_revision (cr_selected rq) →
  StronglySorted (λ x y, y < x) (rr_target_revision (cr_selected rq) :: rest) →
  ∃ t, fitting_choice (pc_history core) (rr_source_revision (cr_selected rq))
         (λ e, bool_decide (e < SOFT_DELTA_ESTIMATED_BYTES)) (rr_target_revision (cr_selected rq) :: rest) = Some t ∧
    t ∈ rr_target_revision (cr_selected rq) :: rest ∧
    total_estimate (segment (pc_history core) (rr_source_revision (cr_selected rq)) t) < SOFT_DELTA_ESTIMATED_BYTES ∧
    ∀ y, y ∈ rr_target_revision (cr_selected rq) :: rest →
      total_estimate (segment (pc_history core) (rr_source_revision (cr_selected rq)) y) < SOFT_DELTA_ESTIMATED_BYTES →
      y ≤ t.
Proof.
  intros [HL Hfit _ _ _] Hrq Hcur Hw Hsrc Hcl Hin Hf Ho Hsort. set (s := rr_source_revision (cr_selected rq)) in *.
  assert (∃ t, t ∈ rr_target_revision (cr_selected rq) :: rest ∧
    total_estimate (segment (pc_history core) s t) < SOFT_DELTA_ESTIMATED_BYTES) as (t & Ht & Hsoft).
  { destruct current as [c|].
    - destruct (Hcur c eq_refl) as [[T1 T2 (ts & Ets & T3) T4] Hle]. exists c. split; [|by apply T4].
      eapply fitting_targets_complete; [done..| |done|rewrite Hcl; simpl; lia].
      pose proof (lw_targets _ Hw) as Hlt. rewrite Hsrc in Hlt. fold s in Ets. rewrite Ets in Hlt. by injection Hlt as <-.
    - destruct (ladder_wf_targets l Hw) as (su & tl & _ & _ & H1 & Hb). exists (s + 1). split.
      + eapply fitting_targets_complete; [done..|by rewrite Hsrc in H1| |by rewrite Hcl].
        pose proof (rq_forward _ _ Hrq). lia.
      + destruct (segment_linked (pc_history core) s (s + 1)) as (c & ct & Hl); [apply HL|done| |].
        { pose proof (rq_forward _ _ Hrq). pose proof (rq_reached _ _ Hrq). pose proof (rq_current _ _ Hrq).
          pose proof (li_revision _ _ _ HL). lia. }
        pose proof (linked_length _ _ _ _ _ Hl) as Hlen.
        destruct (segment (pc_history core) s (s + 1)) as [|e [|]] eqn:Es; simpl in Hlen; try lia.
        simpl. rewrite N.add_0_r. apply Hfit. unfold segment in Es.
        assert (e ∈ take (N.to_nat (s + 1 - s)) (drop (N.to_nat (s - oldest_available_revision (pc_history core)))
          (gh_entries (pc_history core)))) as He by (rewrite Es; left).
        apply elem_of_take in He as (i & He & _). rewrite lookup_drop in He. by eapply list_elem_of_lookup_2. }
  unfold fitting_choice. destruct (head (filter _ _)) as [x|] eqn:Eh.
  - exists x. apply head_filter_sorted in Eh as (Hx & Hxs & Hmax); [|done]. apply bool_decide_eq_true in Hxs.
    split_and!; try done. intros y Hy Hys. apply Hmax; [done|]. by apply bool_decide_eq_true.
  - exfalso. assert (t ∈ filter (λ t, bool_decide (total_estimate (segment (pc_history core) s t)
      < SOFT_DELTA_ESTIMATED_BYTES) = true) (rr_target_revision (cr_selected rq) :: rest)) as Hin'.
    { apply list_elem_of_filter. split; [by apply bool_decide_eq_true|done]. }
    destruct (filter _ _); [set_solver|done].
Qed.

(** ** Answers *)

(** What a delta request is answered with: a completed delta of its source, or
    the pending job of its source. *)
Definition delta_answer h (w : CacheWorld) (source : N) (a : CacheAccess CachedDelta) : Prop :=
  match a with
  | AccessCompleted d => cd_from_revision_id d = source ∧ target_ok h source (cd_to_revision_id d)
  | AccessJob j => w_delta_jobs w !! j = Some Pending ∧
      ∃ slot r, w_deltas w !! source = Some slot ∧ ds_running slot = Some r ∧ rj_job r = j ∧
        target_ok h source (rj_target_revision r)
  end.

Definition answer_adequate (a : CacheAccess CachedDelta) (target : N) : Prop :=
  match a with AccessCompleted d => is_adequate_for d target | AccessJob _ => True end.

(** A shortened election never answers with an unlimited delta of its own target. *)
Lemma delta_elect_limited source first target fresh m m' d e :
  delta_elect source first target true fresh m = Some (m', AccessCompleted d, e) →
  cd_to_revision_id d = target → cd_size_limited d = true.
Proof.
  unfold delta_elect. destruct (m !! source) as [slot|]; [|done].
  destruct (ds_completed slot) as [c|] eqn:Ec.
  - case_decide as Hd.
    + unfold reclassified_size_limited. destruct (assert_ _); [|done]. run_bind. by intros [= _ <- _].
    + unfold delta_elect_slot. rewrite Ec. case_decide; [|by destruct (ds_running slot)].
      intros [= _ <- _] Ht. destruct (cd_size_limited c) eqn:El; [done|]. by destruct Hd.
  - unfold delta_elect_slot. rewrite Ec. by destruct (ds_running slot).
Qed.

(** The election of a fitting target. *)
Lemma elect_step h w source target sl fresh :
  cache_inv clock w → deltas_ok h (w_deltas w) → gh_replay_floor_revision h ≤ source →
  target_ok h source target → w_delta_jobs w !! fresh = None → source ≤ U64_MAX →
  ∃ m' a e w', delta_elect source (clock source) target sl fresh (w_deltas w) = Some (m', a, e) ∧
    cache_step (ElectDelta source (clock source) target sl fresh) w = Some w' ∧
    cache_inv clock w' ∧ deltas_ok h (w_deltas w') ∧ delta_answer h w' source a ∧ answer_adequate a target ∧
    w_heads w' = w_heads w.
Proof.
  intros Hw Hd Hfl Ht Hf Hu. pose proof Hw as [Hdi Hhi].
  destruct (delta_elect_inv clock _ _ _ source (clock source) target sl fresh Hdi Hf eq_refl Hu)
    as (m' & a & e & He & Hpost).
  destruct (delta_elect_ok h _ _ _ _ _ _ _ _ _ Hd Hfl Ht He) as [Hok Ha].
  unfold cache_step. rewrite He. run_bind. eexists m', a, e, _. split; [done|]. split; [done|].
  destruct e as [j|].
  - destruct Hpost as (-> & -> & Hi). split_and!; [by split|done| |done|done]. split; [apply lookup_insert_eq|done].
  - destruct Hpost as [Hi Hpa]. split; [by split|]. split; [done|]. destruct a as [d|j]; simpl.
    + destruct Hpa, Ha as (? & ? & _). by split_and!.
    + by split_and!.
Qed.

(** The first retained step of a source bears the source's clock. *)
Lemma segment_first tr core source target :
  core_inv tr clock core → oldest_available_revision (pc_history core) ≤ source → source < target →
  target ≤ gh_current_revision_id (pc_history core) →
  ∃ e rest, segment (pc_history core) source target = e :: rest ∧ revision_timestamp_ms (he_delta e) = clock source ∧
    ∀ tr sh, fr_estimated_raw_bytes (MkGraphHistoryFittingRange tr sh (e :: rest)) =
      Some (total_estimate (e :: rest)).
Proof.
  intros [HL _ Hst _ _] Ho Hlt Hle.
  destruct (segment_linked (pc_history core) source target) as (c & ct & Hl); [apply HL|done|lia|].
  pose proof (linked_length _ _ _ _ _ Hl) as Hlen.
  destruct (segment (pc_history core) source target) as [|e rest] eqn:Es; [simpl in Hlen; lia|].
  exists e, rest. split; [done|]. split; [|intros; by eapply fr_estimated_raw_bytes_spec].
  assert (e ∈ gh_entries (pc_history core)) as He.
  { assert (e ∈ segment (pc_history core) source target) as Hin by (rewrite Es; left).
    apply elem_of_take in Hin as (i & Hin & _). rewrite lookup_drop in Hin. by eapply list_elem_of_lookup_2. }
  rewrite (Hst e He). f_equal. apply Hl.
Qed.

(** What an election answers, and what it leaves behind. *)
Definition elected core rq w' (r : Result CanonicalDeltaReentry GraphHistoryRangeError) : Prop :=
  let source := rr_source_revision (cr_selected rq) in
  let h := pc_history core in
  match r with
  | Err e => source < oldest_available_revision h ∧
      e = (if decide (source < gh_replay_floor_revision h)
           then StartBeforeReplayFloor source (gh_replay_floor_revision h)
           else StartPruned source (oldest_available_revision h))
  | Ok ReSourceExpired => oldest_available_revision h ≤ source ∧
      DELTA_CACHE_MAX_AGE_MS ≤ dt_revision_timestamp_ms (cr_head rq) - clock source
  | Ok (ReAccess a) => delta_answer h w' source a ∧ answer_adequate a (rr_target_revision (cr_selected rq))
  end.

Lemma elect_spec tr core rq current fresh w :
  core_inv tr clock core → cache_inv clock w → deltas_ok (pc_history core) (w_deltas w) →
  request_ok core rq → current_ok (pc_history core) rq current → w_delta_jobs w !! fresh = None →
  ∃ w' r, elect_canonical_delta_from_history rq current fresh core w = Some (w', r) ∧
    cache_inv clock w' ∧ deltas_ok (pc_history core) (w_deltas w') ∧ elected core rq w' r ∧ w_heads w' = w_heads w.
Proof.
  intros Hcore Hw Hd Hrq Hcur Hf. pose proof Hrq as [R1 R2 R3 R4 R5 R6 R7].
  pose proof (cor_lineage _ _ _ Hcore) as HL. pose proof (li_history _ _ _ HL) as Hi.
  pose proof (li_revision _ _ _ HL) as Hrev. unfold elect_canonical_delta_from_history.
  destruct (request_ladder core rq current Hrq Hcur) as (l & -> & Hwf & Hsrc & Hhead & Hcl & Hin). run_bind.
  destruct (fitting_targets_spec (cr_selected rq) l Hwf) as (rest & Hft & Hsort & Hall); [done|done|lia| |].
  { rewrite Hcl. destruct current as [c|]; [|done]. apply (Hcur c eq_refl). }
  rewrite Hft. run_bind. set (s := rr_source_revision (cr_selected rq)) in *.
  set (t0 := rr_target_revision (cr_selected rq)) in *.
  destruct (decide (s < oldest_available_revision (pc_history core))) as [Ho|Ho%N.nlt_ge].
  { rewrite fitting_range_refused by done. run_bind. eexists _, _. by split_and!. }
  destruct (fitting_choice_exists tr core rq current l rest) as (t & Hch & Htin & Hsoft & Hmax); [done..|].
  rewrite fitting_range_spec; [|done|done| |done].
  2: { intros y Hy. destruct (Hall y Hy) as ([? ?] & _). lia. }
  run_bind. fold s t0 in Hch. rewrite Hch. cbn [fmap option_fmap option_map]. run_bind.
  destruct (Hall t Htin) as ([Ht1 Ht2] & Htl & Htk).
  destruct (segment_first tr core s t) as (e & es & Hseg & Hts & Hest); [done|done|lia|lia|].
  cbn [fr_entries fr_target_revision fr_shortened]. rewrite Hseg. cbn [head hd_error]. run_bind. rewrite Hts.
  rewrite checked_sub_Some by done. run_bind. case_decide as Hage.
  { eexists _, _. by split_and!. }
  rewrite Hest. run_bind.
  assert (target_ok (pc_history core) s t) as Htok.
  { split; [lia|lia| |done]. exists (dl_targets l). split; [|done]. by rewrite <- Hsrc; apply Hwf. }
  destruct (elect_step (pc_history core) w s t (bool_decide (t ≠ t0)) fresh)
    as (m' & a & el & w' & Hel & -> & Hw' & Hd' & Ha & Had & Hh); try done.
  { pose proof (hi_floor _ Hi). lia. }
  { unfold ladder_room in R4. lia. }
  rewrite Hel. run_bind. exists w', (Ok (ReAccess a)). split_and!; try done. split; [done|].
  destruct a as [d|]; [|done]. destruct (decide (t = t0)) as [E|Hne]; [unfold t0 in E; by rewrite <- E|].
  rewrite bool_decide_true in Hel by done. destruct Had as [Hto|]; [|by right].
  destruct (N.le_gt_cases t0 (cd_to_revision_id d)) as [|Hlt]; [by left|]. right.
  apply (delta_elect_limited _ _ _ _ _ _ _ _ Hel).
  destruct Ha as (_ & [D1 D2 (ts & Ets & D3) D4]). apply N.le_antisymm; [|done]. apply Hmax; [|by apply D4].
  eapply fitting_targets_complete; [done..| |fold t0; lia|].
  - pose proof (lw_targets _ Hwf) as Hlt'. rewrite Hsrc, Ets in Hlt'. by injection Hlt' as <-.
  - destruct (dl_current_target l); simpl in *; [lia|done].
Qed.

(** Pruning, when it returns, only drops slots. *)
Lemma prune_expired_subseteq head_ts (m m' : DeltaCache) : prune_expired head_ts m = Some m' → m' ⊆ m.
Proof.
  unfold prune_expired. destruct (head (btree_to_list m)) as [[first slot]|]; [|by intros [= <-]].
  intros ([] & _ & H)%bind_Some; [|by injection H as <-].
  apply bind_Some in H as ([l ls] & _ & H). apply bind_Some in H as ([] & _ & H).
  { injection H as <-. apply map_empty_subseteq. }
  apply bind_Some in H as (r & _ & H). apply bind_Some in H as ([k x] & _ & H).
  injection H as <-. apply map_filter_subseteq.
Qed.

(** The lookup before an election. *)
Lemma lookup_spec h w source target head_ts :
  cache_inv clock w → deltas_ok h (w_deltas w) → is_Some (prune_expired head_ts (w_deltas w)) →
  ∃ m found w', delta_lookup source target head_ts (w_deltas w) = Some (m, found) ∧
    cache_step (LookupDelta source target head_ts) w = Some w' ∧ cache_inv clock w' ∧
    deltas_ok h (w_deltas w') ∧ w_delta_jobs w' = w_delta_jobs w ∧ w_heads w' = w_heads w ∧
    match found with
    | DeltaCompleted d => delta_answer h w' source (AccessCompleted d) ∧ is_adequate_for d target
    | DeltaRunning j => delta_answer h w' source (AccessJob j)
    | DeltaConstructionRequired current =>
        ∀ c, current = Some c → target_ok h source c ∧ c ≤ target
    end.
Proof.
  intros Hw Hd [m Hm]. pose proof (prune_expired_subseteq _ _ _ Hm) as Hsub.
  pose proof (deltas_ok_subseteq _ _ _ Hsub Hd) as Hdm.
  unfold cache_step, delta_lookup. rewrite Hm. run_bind. eexists m, _, (set_deltas m w).
  split; [done|]. split; [done|].
  assert (cache_inv clock (set_deltas m w)) as Hw'.
  { destruct Hw. split; [by eapply delta_inv_subseteq|done]. }
  split_and!; try done. pose proof (ci_deltas _ _ Hw') as Hdi. simpl in Hdi.
  destruct (m !! source) as [slot|] eqn:Es; [|done]. destruct (Hdm _ _ Es) as [S1 S2 S3 S4].
  assert (∀ r, ds_running slot = Some r → delta_answer h (set_deltas m w) source (AccessJob (rj_job r))) as Hrun.
  { intros r Hr. split; [by eapply (di_running _ _ _ _ Hdi)|]. exists slot, r. simpl. auto. }
  destruct (ds_completed slot) as [d|] eqn:Ec.
  - case_decide as Had.
    + split; [|done]. split; [by eapply (di_keyed _ _ _ _ Hdi)|auto].
    + destruct (ds_running slot) as [r|]; [by apply Hrun|]. intros c [= <-]. split; [auto|].
      unfold is_adequate_for in Had. apply N.lt_le_incl, N.nle_gt. tauto.
  - destruct (ds_running slot) as [r|]; [by apply Hrun|done].
Qed.

(** A delta request never panics: it is answered, refused for its source's
    place in the history, or expired. *)
Lemma lookup_or_elect_spec tr core rq fresh w :
  core_inv tr clock core → cache_inv clock w → deltas_ok (pc_history core) (w_deltas w) →
  is_Some (prune_expired (dt_revision_timestamp_ms (cr_head rq)) (w_deltas w)) →
  request_ok core rq → w_delta_jobs w !! fresh = None →
  ∃ w' r, lookup_or_elect rq fresh core w = Some (w', r) ∧
    cache_inv clock w' ∧ deltas_ok (pc_history core) (w_deltas w') ∧ elected core rq w' r ∧ w_heads w' = w_heads w.
Proof.
  intros Hcore Hw Hd Hp Hrq Hf. unfold lookup_or_elect.
  destruct (lookup_spec (pc_history core) w (rr_source_revision (cr_selected rq))
    (rr_target_revision (cr_selected rq)) (dt_revision_timestamp_ms (cr_head rq)))
    as (m & found & w1 & -> & -> & Hw1 & Hd1 & Hj1 & Hh1 & Hfound); try done.
  run_bind. destruct found as [d|j|current].
  - destruct Hfound. eexists w1, _. by split_and!.
  - eexists w1, _. by split_and!.
  - destruct (elect_spec tr core rq current fresh w1) as (w2 & r & E & H1 & H2 & H3 & H4); try done; [by rewrite Hj1|].
    exists w2, r. split_and!; try done. congruence.
Qed.
End election.
