(* ===== verification/PublicationSteps.v ===== *)
(** The publication as a state machine: the mutations, the delta and Head
    readers, the builders of the cache and the connections interleave at the
    granularity of the locks; the invariant of the machine, and that every step
    of every interleaving keeps it. *)

From Stdlib Require Import String.
From S2P Require Import Prelude Model Delta GraphView ViewInvariant ApplyDelta Mutation HeadView.
From S2P Require Import VspcView Subview History Lineage Ladder Cache CacheMachine Clients.
From S2P Require Import ClientsSafety ClientsWorld Publication Election.

#[local] Open Scope N_scope.

Section publication_machine.
Context {KH : KaspaHash}.
Context (base64_encode : list N → string).
Implicit Types (core : GraphPublicationCore) (h : GraphHistory) (v : GraphView) (p : GraphPublication).

(** A publication, the delta requests its selections handed out, the
    registries of the other publications, and the connections. *)
Record PublicationWorld := MkPublicationWorld {
  pw_publication : GraphPublication;
  pw_requests : list CanonicalDeltaRequest;
  pw_registries : gmap N SseClientRegistryState;
  pw_connections : Connections
}.
Implicit Types (w : PublicationWorld).

Definition pw_core w : GraphPublicationCore := gp_core (pw_publication w).
Definition pw_cache w : CacheWorld := gp_cache (pw_publication w).
(** The client side of the world; the publication's own registry is at address 0. *)
Definition pw_clients w : ClientWorld :=
  MkClientWorld (<[0 := gp_clients (pw_publication w)]> (pw_registries w)) (pw_connections w).

Definition with_publication p w : PublicationWorld :=
  MkPublicationWorld p (pw_requests w) (pw_registries w) (pw_connections w).

(** A builder returns what it was elected for: the delta of its range, or the
    snapshot of a capture taken at or before the present Head. *)
Definition builder_event (ev : CacheEvent) w : Prop :=
  match ev with
  | FinishDelta j result =>
    ∃ source target sl, w_delta_tasks (pw_cache w) !! j = Some (DeltaBuilding source target sl) ∧
      ∀ d, result = Ok d → cd_from_revision_id d = source ∧ cd_to_revision_id d = target ∧ cd_size_limited d = sl
  | FinishHead j result =>
    ∃ depth, w_head_tasks (pw_cache w) !! j = Some (HeadBuilding depth) ∧
      ∀ s, result = Ok s → hs_depth s = depth ∧
        hs_revision_timestamp_ms s ≤ current_revision_timestamp_ms (pc_view (pw_core w))
  | CompleteDelta j => ∃ r, w_delta_tasks (pw_cache w) !! j = Some (DeltaFinishing r)
  | CompleteHead j => ∃ r, w_head_tasks (pw_cache w) !! j = Some (HeadFinishing r)
  | _ => False
  end.

(** The request a selection hands to its waiter. *)
Definition handed_out (r : Result CanonicalDeltaSelection GraphHistoryRangeError) : list CanonicalDeltaRequest :=
  match r with Ok (SelAccess request _) => [request] | _ => [] end.

Inductive publication_step w : PublicationWorld → Prop :=
  | ps_update u now_ms p' r :
      gp_mutation (pw_publication w) = None → update_ok u (pc_view (pw_core w)) →
      current_revision_timestamp_ms (pc_view (pw_core w)) ≤ now_ms →
      apply_original_update u now_ms (pw_publication w) = Some (p', r) →
      publication_step w (with_publication p' w)
  | ps_live p' :
      gp_mutation (pw_publication w) = None → transition_live (pw_publication w) = Some p' →
      publication_step w (with_publication p' w)
  | ps_stale p' b :
      gp_mutation (pw_publication w) = None → transition_stale (pw_publication w) = (p', b) →
      publication_step w (with_publication p' w)
  | ps_announce order p' cx' :
      order ≡ₚ map_to_list (rg_clients (gp_clients (pw_publication w))) →
      announce_in order (pw_publication w) (pw_connections w) = Some (p', cx') →
      publication_step w (MkPublicationWorld p' (pw_requests w) (pw_registries w) cx')
  | ps_select source client interval fresh p' cx' r :
      ladder_room source → interval ∈ ADAPTIVE_DELTA_INTERVALS → w_delta_jobs (pw_cache w) !! fresh = None →
      select_canonical_delta source client interval fresh (pw_publication w) (pw_connections w) = Some (p', cx', r) →
      publication_step w (MkPublicationWorld p' (handed_out r ++ pw_requests w) (pw_registries w) cx')
  | ps_reenter request fresh p' r :
      request ∈ pw_requests w → w_delta_jobs (pw_cache w) !! fresh = None →
      reenter_canonical_delta request fresh (pw_publication w) = Some (p', r) →
      publication_step w (with_publication p' w)
  | ps_head_tier depth matches fresh p' sel cap :
      depth ∈ CACHED_HEAD_WINDOW_DEPTHS → w_head_jobs (pw_cache w) !! fresh = None →
      N.of_nat (size (edges (pc_view (pw_core w)))) ≤ U64_MAX →
      head_tier depth matches fresh (pw_publication w) = Some (p', sel, cap) →
      publication_step w (with_publication p' w)
  | ps_builder ev cache' :
      builder_event ev w → cache_step ev (pw_cache w) = Some cache' →
      publication_step w (with_publication (set_cache cache' (pw_publication w)) w)
  | ps_clients cw' rg' :
      client_step base64_encode (pw_clients w) cw' → cw_registries cw' !! 0 = Some rg' →
      rg_head_revision_id rg' = rg_head_revision_id (gp_clients (pw_publication w)) →
      rg_publication_state rg' = rg_publication_state (gp_clients (pw_publication w)) →
      publication_step w (MkPublicationWorld (set_registry_state rg' (pw_publication w)) (pw_requests w)
                            (delete 0 (cw_registries cw')) (cw_connections cw')).

(** The construction candidates: a Head view seeded at revision zero, then
    joint updates of view and history in the order of the clock. *)
Inductive candidate_run : list GraphView → GraphView → GraphHistory → Prop :=
  | candidate_seed v : head_inv v → current_revision_id v = 0 → candidate_run [v] v GraphHistory_new
  | candidate_update tr v h u now_ms v' h' applied :
      candidate_run tr v h → update_ok u v → current_revision_timestamp_ms v ≤ now_ms →
      AppliedLineageUpdate_apply estimate_raw_delta_bytes u now_ms v h = Some (v', h', Ok (Some applied)) →
      candidate_run (v' :: tr) v' h'.

(** A publication opened on a candidate. *)
Definition publication_opened w : Prop :=
  ∃ st now_ms draws tr v h, candidate_run tr v h ∧
    GraphPublication_new st now_ms draws v h = Some (Ok (pw_publication w)) ∧
    pw_requests w = [] ∧ world_ok (MkClientWorld (pw_registries w) (pw_connections w)) ∧
    pw_registries w !! 0 = None ∧
    ∀ a rg, pw_registries w !! a = Some rg → rg_publication_id rg ≠ gp_publication_id (pw_publication w).

Inductive publication_reachable : PublicationWorld → Prop :=
  | publication_start w : publication_opened w → publication_reachable w
  | publication_next w w' : publication_reachable w → publication_step w w' → publication_reachable w'.

(** * The invariant *)

(** The registry follows the core, up to the announcement still due. *)
Definition in_step p : Prop :=
  let rg := gp_clients p in
  let current := current_revision_id (pc_view (gp_core p)) in
  rg_publication_id rg = gp_publication_id p ∧
  match gp_mutation p with
  | None => rg_head_revision_id rg = current ∧ rg_publication_state rg = pc_state (gp_core p)
  | Some (AnnounceHead target) =>
      target = current ∧ rg_head_revision_id rg + 1 = current ∧ rg_publication_state rg = pc_state (gp_core p)
  | Some (AnnounceState st revision) =>
      revision = current ∧ rg_head_revision_id rg = current ∧ st = pc_state (gp_core p)
  end.

Definition heads_past v (m : HeadCache) : Prop :=
  ∀ depth s x, m !! depth = Some s → sl_completed s = Some x →
    hs_revision_timestamp_ms x ≤ current_revision_timestamp_ms v.

Record publication_inv (tr : list GraphView) (clock : N → N) w : Prop := {
  pi_core : core_inv tr clock (pw_core w);
  pi_cache : cache_inv clock (pw_cache w);
  pi_deltas : deltas_ok (pc_history (pw_core w)) (w_deltas (pw_cache w));
  pi_heads : heads_past (pc_view (pw_core w)) (w_heads (pw_cache w));
  pi_requests rq : rq ∈ pw_requests w →
    request_ok clock (pw_core w) rq ∧ dt_publication_id (cr_head rq) = gp_publication_id (pw_publication w);
  pi_clients : world_ok (pw_clients w);
  pi_step : in_step (pw_publication w)
}.

(** A captured Head bounds the timestamps of the cached deltas. *)
Lemma deltas_past tr clock w :
  publication_inv tr clock w →
  delta_times_past (current_revision_timestamp_ms (pc_view (pw_core w))) (pw_cache w).
Proof.
  intros HI k s Hk. destruct (di_clock _ _ _ _ (ci_deltas _ _ (pi_cache _ _ _ HI)) _ _ Hk) as [-> _].
  apply (cor_past _ _ _ (pi_core _ _ _ HI)).
Qed.

Lemma publication_prunes tr clock w :
  publication_inv tr clock w →
  is_Some (prune_expired (current_revision_timestamp_ms (pc_view (pw_core w))) (w_deltas (pw_cache w))).
Proof.
  intros HI. destruct (prune_inv_subseteq clock (cor_clock _ _ _ (pi_core _ _ _ HI)) _ _ (pi_cache _ _ _ HI)
    (deltas_past _ _ _ HI)) as (m & -> & _). by eexists.
Qed.
End publication_machine.

(** * Registries *)

(** The announcements set the fields of the registry they announce. *)
Lemma advance_head_in_fields order revision rg cx rg' cx' :
  advance_head_in order revision rg cx = Some (rg', cx') →
  rg_publication_id rg' = rg_publication_id rg ∧ rg_head_revision_id rg' = revision ∧
  rg_publication_state rg' = rg_publication_state rg.
Proof.
  unfold advance_head_in. intros (_ & _ & H)%bind_Some. apply bind_Some in H as (rt & _ & H). by injection H as <- _.
Qed.
Lemma publish_state_in_fields order st revision rg cx rg' cx' :
  publish_state_in order st revision rg cx = Some (rg', cx') →
  rg_publication_id rg' = rg_publication_id rg ∧ rg_head_revision_id rg' = rg_head_revision_id rg ∧
  rg_publication_state rg' = st.
Proof.
  unfold publish_state_in. intros (_ & _ & H)%bind_Some. apply bind_Some in H as (rt & _ & H). by injection H as <- _.
Qed.
Lemma validate_fields identifier rg cx rg' cx' b :
  validate identifier rg cx = (rg', cx', b) →
  rg_publication_id rg' = rg_publication_id rg ∧ rg_head_revision_id rg' = rg_head_revision_id rg ∧
  rg_publication_state rg' = rg_publication_state rg.
Proof. unfold validate, complete_delta, drop_registration. repeat case_match; intros; by simplify_eq/=. Qed.

(** No client step changes the publication a registry belongs to. *)
Lemma client_step_publication base64_encode w w' a rg rg' :
  client_step base64_encode w w' → world_ok w →
  cw_registries w !! a = Some rg → cw_registries w' !! a = Some rg' →
  rg_publication_id rg' = rg_publication_id rg.
Proof.
  intros Hs [HB HR HP] Ha Ha'.
  assert (∀ a0 rg0 rg1 cx1, cw_registries (set_registry a0 rg1 cx1 w) !! a = Some rg' →
    cw_registries w !! a0 = Some rg0 → rg_publication_id rg1 = rg_publication_id rg0 →
    rg_publication_id rg' = rg_publication_id rg) as Hset.
  { intros a0 rg0 rg1 cx1 Hl H0 E. revert Hl. simpl. rewrite lookup_insert. case_decide; subst; intros; simplify_eq; congruence. }
  destruct Hs; try (simpl in Ha'; by simplify_eq).
  - simpl in Ha'. rewrite lookup_insert_ne in Ha' by congruence. by simplify_eq.
  - pose proof (register_with_in_spec base64_encode order rev m t random rg0 (cw_connections w) b
      H0 (HR _ _ H) HB H1 H2) as Hr. rewrite H3 in Hr. destruct Hr as (? & _). by eapply Hset.
  - by eapply Hset.
  - pose proof (complete_delta_spec i action rg0 (cw_connections w) (HR _ _ H) HB) as Hc. rewrite H0 in Hc.
    destruct Hc as (? & _). by eapply Hset.
  - apply publish_state_in_fields in H1 as (? & _). by eapply Hset.
  - apply advance_head_in_fields in H1 as (? & _). by eapply Hset.
  - assert (rg_publication_id old ≠ rg_publication_id new) as Hp by (intros E; apply H; by eapply HP).
    pose proof (replace_registration_into_in_spec base64_encode order i random old new (cw_connections w)
      Hp H2 (HR _ _ H0) (HR _ _ H1) HB H3) as Hr. rewrite H4 in Hr. destruct Hr as (E1 & E2 & _).
    simpl in Ha'. rewrite !lookup_insert in Ha'. repeat case_decide; subst; simplify_eq; congruence.
Qed.

(** * Completed Head snapshots *)

(** No snapshot completed in [m'] is new to [m]. *)
Definition completed_in (m' m : HeadCache) : Prop :=
  ∀ depth s x, m' !! depth = Some s → sl_completed s = Some x → ∃ s0, m !! depth = Some s0 ∧ sl_completed s0 = Some x.

Lemma completed_in_subseteq m' m : m' ⊆ m → completed_in m' m.
Proof. intros Hs d s x Hd Hx. exists s. split; [by eapply lookup_weaken|done]. Qed.

Lemma completed_in_refl m : completed_in m m.
Proof. by apply completed_in_subseteq. Qed.
Lemma completed_in_delete depth (m : HeadCache) : completed_in (delete depth m) m.
Proof. apply completed_in_subseteq, delete_subseteq. Qed.
Lemma completed_in_cleared (m : HeadCache) depth r : completed_in (<[depth := MkHeadCacheSlot None r]> m) m.
Proof.
  intros d s x. rewrite lookup_insert. case_decide; [by intros [= <-]|]. intros Hd Hx. eauto.
Qed.

Lemma head_lookup_completed depth b m m' r : head_lookup depth b m = Some (m', r) → completed_in m' m.
Proof.
  unfold head_lookup. destruct (m !! depth) as [s|]; [|intros [= <- _]; by apply completed_in_subseteq].
  destruct (sl_completed s); [destruct (admits b _) as [[]|]; [|..|done]; run_bind|];
    try (destruct (sl_running s)); intros [= <- _]; auto using completed_in_cleared, completed_in_refl, completed_in_delete.
Qed.
Lemma head_elect_completed depth b fresh m m' a e : head_elect depth b fresh m = Some (m', a, e) → completed_in m' m.
Proof.
  unfold head_elect. destruct (sl_completed _); [destruct (admits b _) as [[]|]; [|..|done]; run_bind|];
    try (destruct (sl_running _)); intros [= <- _ _]; auto using completed_in_cleared, completed_in_refl.
Qed.
Lemma head_detach_completed floor m : completed_in (head_detach_before_replay_floor floor m).1 m.
Proof.
  intros d s x. simpl. rewrite lookup_omap. destruct (m !! d) as [s0|]; [|done]. simpl.
  unfold retained_completed. destruct (sl_completed s0) as [y|] eqn:E; [|done].
  case_decide; [done|]. intros [= <-] [= <-]. eauto.
Qed.

Section publication_steps.
Context {KH : KaspaHash}.
Context (base64_encode : list N → string).
Implicit Types (v : GraphView) (p : GraphPublication) (w : PublicationWorld).

Lemma heads_past_in v v' m m' :
  completed_in m' m → current_revision_timestamp_ms v ≤ current_revision_timestamp_ms v' →
  heads_past v m → heads_past v' m'.
Proof. intros Hc Hle Hp d s x Hd Hx. destruct (Hc d s x Hd Hx) as (s0 & ? & ?). etrans; [by eapply Hp|done]. Qed.

Lemma heads_past_finish v depth j result m m' :
  (∀ s, result = Ok s → hs_revision_timestamp_ms s ≤ current_revision_timestamp_ms v) →
  head_finish depth j result m = Some m' → heads_past v m → heads_past v m'.
Proof.
  intros Hr. unfold head_finish. destruct (m !! depth) as [s|] eqn:Es; [|by intros [= <-]].
  case_decide; [|by intros [= <-]]. intros (c & Hc & Hm)%bind_Some Hp.
  assert (∀ x, c = Some x → hs_revision_timestamp_ms x ≤ current_revision_timestamp_ms v) as Hx.
  { intros x ->. destruct result as [y|e].
    - apply bind_Some in Hc as (_ & _ & [= ->]). auto.
    - injection Hc as Hc. by eapply Hp. }
  injection Hm as <-. destruct c as [c|]; intros d s0 x.
  - rewrite lookup_insert. case_decide; [intros [= <-] [= <-]; auto|by apply Hp].
  - intros [_ Hd]%lookup_delete_Some. by apply (Hp d).
Qed.

(** * The cache under a new clock *)

Lemma cache_inv_reclock clock clock' (c : CacheWorld) :
  (∀ k s, w_deltas c !! k = Some s → clock' k = clock k) → cache_inv clock c → cache_inv clock' c.
Proof.
  intros Hk [[H1 H2 H3 H4 H5] Hh]. split; [|done]. split; try done.
  intros k s Hs. rewrite (Hk k s Hs). by eapply H4.
Qed.

(** * Steps *)

(** A step that only moves the cache. *)
Lemma cache_moved tr clock w c' :
  publication_inv tr clock w → cache_inv clock c' → deltas_ok (pc_history (pw_core w)) (w_deltas c') →
  heads_past (pc_view (pw_core w)) (w_heads c') →
  publication_inv tr clock (with_publication (set_cache c' (pw_publication w)) w).
Proof. intros [H1 H2 H3 H4 H5 H6 H7] Hc Hd Hh. by split. Qed.

(** A step that moves the publication's own registry, its fields kept. *)
Lemma registry_moved tr clock w rg' cx' :
  publication_inv tr clock w → rg_publication_id rg' = rg_publication_id (gp_clients (pw_publication w)) →
  rg_head_revision_id rg' = rg_head_revision_id (gp_clients (pw_publication w)) →
  rg_publication_state rg' = rg_publication_state (gp_clients (pw_publication w)) →
  world_ok (set_registry 0 rg' cx' (pw_clients w)) →
  publication_inv tr clock (MkPublicationWorld (set_registry_state rg' (pw_publication w)) (pw_requests w)
    (pw_registries w) cx').
Proof.
  intros [H1 H2 H3 H4 H5 H6 H7] E1 E2 E3 Hw. split; try done.
  - unfold pw_clients, set_registry in *. simpl in *. by rewrite insert_insert_eq in Hw.
  - unfold in_step in *. simpl. rewrite E1, E2, E3. done.
Qed.

(** The announcement closes the mutation. *)
Lemma announce_ok tr clock w order :
  publication_inv tr clock w → order ≡ₚ map_to_list (rg_clients (gp_clients (pw_publication w))) →
  ∃ p' cx', announce_in order (pw_publication w) (pw_connections w) = Some (p', cx') ∧ gp_mutation p' = None ∧
    gp_core p' = pw_core w ∧
    publication_inv tr clock (MkPublicationWorld p' (pw_requests w) (pw_registries w) cx').
Proof.
  intros HI Ho. pose proof HI as [H1 H2 H3 H4 H5 H6 [E1 H7]]. unfold announce_in.
  assert (registry_ok (gp_clients (pw_publication w)) (cx_mailboxes (pw_connections w))) as HR.
  { apply (wo_registry _ H6 0). apply lookup_insert_eq. }
  assert (∀ rg' cx', rg_publication_id rg' = rg_publication_id (gp_clients (pw_publication w)) →
    rg_head_revision_id rg' = current_revision_id (pc_view (pw_core w)) →
    rg_publication_state rg' = pc_state (pw_core w) → world_ok (set_registry 0 rg' cx' (pw_clients w)) →
    publication_inv tr clock (MkPublicationWorld (set_mutation None (set_registry_state rg' (pw_publication w)))
      (pw_requests w) (pw_registries w) cx')) as Hdone.
  { intros rg' cx' F1 F2 F3 Hw. split; try done.
    - unfold pw_clients, set_registry in *. simpl in *. by rewrite insert_insert_eq in Hw.
    - unfold in_step. simpl. rewrite F1, F2, F3. done. }
  assert (cw_registries (pw_clients w) !! 0 = Some (gp_clients (pw_publication w))) as Hz by apply lookup_insert_eq.
  destruct (gp_mutation (pw_publication w)) as [[target|st revision]|] eqn:Em.
  - destruct H7 as (-> & F1 & F2).
    destruct (advance_head_in_inv order (current_revision_id (pc_view (pw_core w))) (gp_clients (pw_publication w))
      (pw_connections w)) as (rg' & cx' & E & _ & HR' & HB' & HF); [done|done|apply H6|unfold pw_core; lia|].
    fold (pw_core w). rewrite E. run_bind. eexists _, _. split; [done|]. split; [done|]. split; [done|].
    apply advance_head_in_fields in E as (G1 & G2 & G3). apply Hdone; [done|done|by rewrite G3|].
    by eapply world_ok_registry.
  - destruct H7 as (-> & F1 & F2).
    destruct (publish_state_in_inv order st (current_revision_id (pc_view (pw_core w))) (gp_clients (pw_publication w))
      (pw_connections w)) as (rg' & cx' & E & _ & HR' & HB' & HF); [done|done|apply H6|done|].
    fold (pw_core w). rewrite E. run_bind. eexists _, _. split; [done|]. split; [done|]. split; [done|].
    apply publish_state_in_fields in E as (G1 & G2 & G3). apply Hdone; [done|by rewrite G2|by rewrite G3|].
    by eapply world_ok_registry.
  - eexists _, _. split; [done|]. split_and!; try done. by destruct w.
Qed.

Lemma invalidate_fields floor (c c' : CacheWorld) :
  cache_step (InvalidateReplayFloor floor) c = Some c' →
  w_deltas c' = split_off floor (w_deltas c) ∧ w_heads c' = (head_detach_before_replay_floor floor (w_heads c)).1.
Proof.
  cbn [cache_step]. destruct (delta_detach_before_replay_floor floor (w_deltas c)) as [dm dj] eqn:Ed.
  destruct (head_detach_before_replay_floor floor (w_heads c)) as [hm hj] eqn:Eh.
  intros (d & _ & H)%bind_Some. apply bind_Some in H as (x & _ & H). injection H as <-.
  unfold delta_detach_before_replay_floor in Ed. by injection Ed as <- _.
Qed.

(** The cache behind an advanced core: kept, or emptied below the new floor. *)
Lemma cache_advanced clock clock' h h' v v' (c : CacheWorld) advance :
  cache_inv clock c → deltas_ok h (w_deltas c) → heads_past v (w_heads c) →
  history_moved h h' (gh_current_revision_id h) advance →
  gh_current_revision_id h' = gh_current_revision_id h + 1 →
  (∀ k, k < gh_current_revision_id h → clock' k = clock k) →
  (∀ k1 k2, k1 ≤ k2 → clock' k1 ≤ clock' k2) →
  current_revision_timestamp_ms v ≤ current_revision_timestamp_ms v' →
  ∃ c', match advance with Some floor => cache_step (InvalidateReplayFloor floor) c | None => Some c end = Some c' ∧
    cache_inv clock' c' ∧ deltas_ok h' (w_deltas c') ∧ heads_past v' (w_heads c').
Proof.
  intros Hc Hd Hh Hmv Hcur Hk Hmono Hts.
  assert (cache_inv clock' c) as Hc'.
  { eapply cache_inv_reclock; [|done]. intros k s Hs. apply Hk. apply (so_source _ _ _ (Hd k s Hs)). }
  pose proof (deltas_ok_moved h h' (w_deltas c) advance Hmv Hcur Hd) as Hd'.
  destruct advance as [floor|].
  - destruct (cache_step_inv clock' Hmono (InvalidateReplayFloor floor) c Hc' I) as (c' & E & Hi & _).
    exists c'. split; [done|]. split; [done|]. apply invalidate_fields in E as [-> ->]. split; [done|].
    eapply heads_past_in; [apply head_detach_completed|done..].
  - exists c. split_and!; try done. eapply heads_past_in; [apply completed_in_refl|done..].
Qed.

Lemma request_advanced clock clock' core core' rq :
  request_ok clock core rq → current_revision_id (pc_view core) ≤ current_revision_id (pc_view core') →
  (∀ k, k < current_revision_id (pc_view core) → clock' k = clock k) → request_ok clock' core' rq.
Proof.
  intros [R1 R2 R3 R4 R5 R6 R7] Hle Hk. split; try done; [lia|]. by rewrite Hk by lia.
Qed.

(** An update of the core either leaves the publication as it was, or advances
    the Head by one revision and leaves the announcement due. *)
Lemma update_moved tr clock w u now_ms p' r :
  publication_inv tr clock w → gp_mutation (pw_publication w) = None → update_ok u (pc_view (pw_core w)) →
  current_revision_timestamp_ms (pc_view (pw_core w)) ≤ now_ms →
  apply_original_update u now_ms (pw_publication w) = Some (p', r) →
  (r = Ok None ∧ p' = pw_publication w) ∨
  ∃ clock', r = Ok (Some (current_revision_id (pc_view (pw_core w)) + 1)) ∧
    current_revision_id (pc_view (gp_core p')) = current_revision_id (pc_view (pw_core w)) + 1 ∧
    current_revision_timestamp_ms (pc_view (gp_core p')) = now_ms ∧
    gp_mutation p' = Some (AnnounceHead (current_revision_id (pc_view (pw_core w)) + 1)) ∧
    publication_inv (pc_view (gp_core p') :: tr) clock' (with_publication p' w).
Proof.
  intros [H1 H2 H3 H4 H5 H6 [E1 H7]] Hm Hu Hts. unfold apply_original_update. rewrite Hm in H7. fold (pw_core w).
  intros (_ & _ & H)%bind_Some. apply bind_Some in H as ([[v' h'] res] & Happ & H).
  destruct (core_apply_inv _ _ _ _ _ _ _ _ H1 Hu Hts Happ)
    as [(-> & -> & ->)|(applied & clock' & -> & Hcore & Htg & Hrev & Hts' & Hk & Hmv)].
  { left. injection H as <- <-. split; [done|]. unfold pw_core, set_core. destruct w as [[pid [] ? ? ?] ? ? ?]. done. }
  right. pose proof (li_revision _ _ _ (cor_lineage _ _ _ H1)) as Hcur.
  pose proof (li_revision _ _ _ (cor_lineage _ _ _ Hcore)) as Hcur'. simpl in Hcur'.
  destruct (cache_advanced clock clock' (pc_history (pw_core w)) h' (pc_view (pw_core w)) v' (pw_cache w)
    (replay_floor_advance applied)) as (c' & Ec & Hc & Hd & Hh); try done;
    [by rewrite <- Hcur|lia|by rewrite <- Hcur|apply Hcore|by rewrite Hts'|].
  unfold pw_cache in Ec. cbn [gp_cache set_core] in H. rewrite Ec in H. cbn [mbind option_bind] in H.
  injection H as <- <-. exists clock'. rewrite Htg. split_and!; try done. split; try done.
  - intros rq [Hrq Hid]%H5. split; [|done]. eapply request_advanced; [done| |done]. simpl. lia.
  - split; [done|]. simpl. rewrite Hrev. destruct H7 as [F1 F2]. unfold pw_core in *. by rewrite F1, F2.
Qed.

(** The update returns, as long as its counters have room. *)
Lemma update_applies tr clock w u now_ms :
  publication_inv tr clock w → pc_state (pw_core w) ≠ Stale → update_ok u (pc_view (pw_core w)) →
  current_revision_timestamp_ms (pc_view (pw_core w)) ≤ now_ms →
  current_revision_id (pc_view (pw_core w)) < U64_MAX →
  (∀ v' d, OriginalUpdate_apply u now_ms (pc_view (pw_core w)) = Some (v', Ok (Some d)) →
     ∃ est, estimate_raw_delta_bytes d = Some est ∧
       gh_current_cumulative_estimated_bytes (pc_history (pw_core w)) + est ≤ U64_MAX) →
  ∃ p' r, apply_original_update u now_ms (pw_publication w) = Some (p', r).
Proof.
  intros [H1 H2 H3 H4 _ _ _] Hst Hu Hts Hmax Hest. unfold apply_original_update. fold (pw_core w).
  rewrite assert_true by done. run_bind. pose proof (cor_lineage _ _ _ H1) as [Hh Hi Hr _ _ _].
  destruct (lineage_update estimate_raw_delta_bytes u now_ms _ _ Hh Hi Hr Hu)
    as [->|(v' & d & Ho & Hv' & Ha & Hf & Hd & Hrev & Hnext)]; [by eexists _, _|].
  destruct (Hest v' d Ho) as (est & E & Hcum).
  destruct (Hnext est E Hcum Hmax) as (h1 & applied & _ & _ & _ & _ & Happ). rewrite Happ. run_bind.
  destruct (core_apply_inv _ _ _ _ _ _ _ _ H1 Hu Hts Happ)
    as [(? & _)|(? & clock' & [= <-] & Hcore & _ & Hrev' & Hts' & Hk & Hmv)]; [done|].
  pose proof (li_revision _ _ _ (cor_lineage _ _ _ Hcore)) as Hcur'. simpl in Hcur'.
  destruct (cache_advanced clock clock' (pc_history (pw_core w)) (prune (low_level (extent v')) h1) (pc_view (pw_core w))
    v' (pw_cache w) (replay_floor_advance applied)) as (c' & Ec & _); try done;
    [by rewrite <- Hr|simpl in *; lia|by rewrite <- Hr|apply Hcore|by rewrite Hts'|].
  unfold pw_cache in Ec. cbn [gp_cache set_core]. rewrite Ec. run_bind. by eexists _, _.
Qed.

(** A change of lifecycle state, its announcement due. *)
Lemma state_announced tr clock w st :
  publication_inv tr clock w → gp_mutation (pw_publication w) = None →
  publication_inv tr clock (with_publication
    (set_mutation (Some (AnnounceState st (current_revision_id (pc_view (pw_core w)))))
       (set_core (MkGraphPublicationCore st (pc_view (pw_core w)) (pc_history (pw_core w))) (pw_publication w))) w).
Proof.
  intros [[L1 L2 L3 L4 L5] H2 H3 H4 H5 H6 [E1 H7]] Hm. rewrite Hm in H7. destruct H7 as [F1 F2].
  split; [split; done|done..| |done|by split].
  intros rq [Hrq Hid]%H5. split; [|done]. by eapply request_advanced.
Qed.

Lemma transition_live_ok tr clock w p' :
  publication_inv tr clock w → gp_mutation (pw_publication w) = None →
  transition_live (pw_publication w) = Some p' → publication_inv tr clock (with_publication p' w).
Proof. intros HI Hm (_ & _ & H)%bind_Some. injection H as <-. by apply state_announced. Qed.

Lemma transition_stale_ok tr clock w p' b :
  publication_inv tr clock w → gp_mutation (pw_publication w) = None →
  transition_stale (pw_publication w) = (p', b) → publication_inv tr clock (with_publication p' w).
Proof.
  intros HI Hm. unfold transition_stale. case_decide; intros [= <- _]; [by destruct w|by apply state_announced].
Qed.

(** ** Delta readers *)

(** What [select_canonical_delta] answers in a world; [w'] is the world it leaves. *)
Definition selection_outcome (clock : N → N) w w' (source : N) (client : option ClientIdentifier) (interval : N)
    (r : Result CanonicalDeltaSelection GraphHistoryRangeError) : Prop :=
  let h := pc_history (pw_core w) in
  let head_ := capture_delta_target (gp_publication_id (pw_publication w)) (pw_core w) in
  match r with
  | Ok SelFutureCursor => dt_revision head_ < source
  | Ok SelClientRegistrationMissing => source ≤ dt_revision head_ ∧
      ∃ i, client = Some i ∧ (validate i (gp_clients (pw_publication w)) (pw_connections w)).2 = false
  | Ok (SelUpToDate captured) => captured = head_ ∧ source = dt_revision head_
  | Ok SelReplayBarrier => source < dt_revision head_ ∧ source < gh_replay_floor_revision h
  | Ok (SelWaitForWakeup captured) => captured = head_ ∧ gh_replay_floor_revision h ≤ source ∧
      source < dt_revision head_ ∧
      ∃ wake, next_eligible_boundary_from source interval = Some wake ∧ dt_revision head_ < wake
  | Ok SelSourceExpired => oldest_available_revision h ≤ source ∧ source < dt_revision head_ ∧
      DELTA_CACHE_MAX_AGE_MS ≤ dt_revision_timestamp_ms head_ - clock source
  | Ok (SelAccess rq a) => cr_head rq = head_ ∧ rr_source_revision (cr_selected rq) = source ∧
      gh_replay_floor_revision h ≤ source ∧ delta_answer h (pw_cache w') source a ∧
      answer_adequate a (rr_target_revision (cr_selected rq))
  | Err e => source < oldest_available_revision h ∧ gh_replay_floor_revision h ≤ source ∧
      e = StartPruned source (oldest_available_revision h)
  end.

Lemma validated tr clock w client :
  publication_inv tr clock w →
  let '(rg, cx, _) := match client with
                      | Some i => validate i (gp_clients (pw_publication w)) (pw_connections w)
                      | None => (gp_clients (pw_publication w), pw_connections w, true)
                      end in
  publication_inv tr clock (MkPublicationWorld (set_registry_state rg (pw_publication w)) (pw_requests w)
    (pw_registries w) cx).
Proof.
  intros HI. pose proof (pi_clients _ _ _ HI) as Hw.
  assert (cw_registries (pw_clients w) !! 0 = Some (gp_clients (pw_publication w))) as Hz by apply lookup_insert_eq.
  destruct client as [i|]; [|by destruct w as [[] ? ? ?]].
  destruct (validate i _ _) as [[rg cx] b] eqn:E. pose proof (validate_fields _ _ _ _ _ _ E) as (F1 & F2 & F3).
  apply registry_moved; try done. unfold validate in E.
  pose proof (complete_delta_spec i ValidateOnly (gp_clients (pw_publication w)) (pw_connections w)
    (wo_registry _ Hw 0 _ Hz) (wo_boxes _ Hw)) as Hc.
  destruct (complete_delta i ValidateOnly _ _) as [[rg1 cx1] r1]. injection E as -> -> _.
  destruct Hc as (? & ? & ? & ? & ? & _). by eapply world_ok_registry.
Qed.

(** Pruning the deltas for a reader. *)
Lemma pruned tr clock w :
  publication_inv tr clock w →
  ∃ c', cache_step (PruneDeltas (current_revision_timestamp_ms (pc_view (pw_core w)))) (pw_cache w) = Some c' ∧
    w_delta_jobs c' = w_delta_jobs (pw_cache w) ∧
    publication_inv tr clock (with_publication (set_cache c' (pw_publication w)) w).
Proof.
  intros HI. destruct (publication_prunes _ _ _ HI) as [m Hm]. cbn [cache_step]. rewrite Hm. run_bind.
  pose proof (prune_expired_subseteq _ _ _ Hm) as Hsub. pose proof HI as [H1 [Hd Hh] H3 H4 _ _ _].
  eexists. split; [done|]. split; [done|]. apply cache_moved; [done| | |done].
  - split; [by eapply delta_inv_subseteq|done].
  - by eapply deltas_ok_subseteq.
Qed.

(** The request a selection makes for a range of its ladder. *)
Lemma selected_request tr clock w source interval l selected :
  publication_inv tr clock w → ladder_room source → interval ∈ ADAPTIVE_DELTA_INTERVALS →
  ladder_wf l → dl_source_revision l = source → dl_head_revision l = current_revision_id (pc_view (pw_core w)) →
  rr_source_revision selected = source → rr_target_revision selected ∈ dl_targets l →
  rr_target_revision selected ≤ dl_head_revision l →
  request_ok clock (pw_core w) (MkCanonicalDeltaRequest
    (capture_delta_target (gp_publication_id (pw_publication w)) (pw_core w)) selected interval).
Proof.
  intros HI Hr Hi Hwf Hsrc Hhead Es Hin Hle.
  destruct (ladder_wf_targets l Hwf) as (su & tl & _ & _ & _ & Hb). pose proof (Hb _ Hin) as [Hlt _].
  split; simpl; try done; [lia|lia|congruence| |].
  - exists (dl_targets l). split; [|done]. rewrite Es, <- Hsrc. apply Hwf.
  - apply (cor_past _ _ _ (pi_core _ _ _ HI)).
Qed.

(** Looking a request up, or electing a job for it. *)
Lemma lookup_moved tr clock w rq fresh :
  publication_inv tr clock w → request_ok clock (pw_core w) rq →
  is_Some (prune_expired (dt_revision_timestamp_ms (cr_head rq)) (w_deltas (pw_cache w))) →
  w_delta_jobs (pw_cache w) !! fresh = None →
  ∃ c' r, lookup_or_elect rq fresh (pw_core w) (pw_cache w) = Some (c', r) ∧
    elected clock (pw_core w) rq c' r ∧
    publication_inv tr clock (with_publication (set_cache c' (pw_publication w)) w).
Proof.
  intros HI Hrq Hp Hf. pose proof HI as [H1 H2 H3 H4 _ _ _].
  destruct (lookup_or_elect_spec clock tr (pw_core w) rq fresh (pw_cache w)) as (c' & r & E & Hc & Hd & He & Hh);
    try done. exists c', r. split_and!; try done. apply cache_moved; try done. by rewrite Hh.
Qed.

Lemma request_handed_out tr clock w rq :
  publication_inv tr clock w → request_ok clock (pw_core w) rq →
  dt_publication_id (cr_head rq) = gp_publication_id (pw_publication w) →
  publication_inv tr clock (MkPublicationWorld (pw_publication w) (rq :: pw_requests w) (pw_registries w)
    (pw_connections w)).
Proof.
  intros [H1 H2 H3 H4 H5 H6 H7] Hrq Hid. split; try done. intros r [->|Hr]%elem_of_cons; [done|by apply H5].
Qed.

Lemma source_ladder source head_revision interval :
  ladder_room source → interval ∈ ADAPTIVE_DELTA_INTERVALS → source < head_revision →
  ∃ l, DeltaTargetLadder_new source head_revision None interval = Some l ∧ ladder_wf l ∧
    dl_source_revision l = source ∧ dl_head_revision l = head_revision ∧ dl_active_interval l = interval.
Proof.
  intros Hr Hi Hlt. destruct (target_boundaries_spec source Hr) as (su & ts & _ & Hts & _).
  assert (DeltaTargetLadder_new source head_revision None interval =
    Some (MkDeltaTargetLadder source head_revision None interval ts)) as E.
  { unfold DeltaTargetLadder_new. rewrite (assert_true (source < _)) by done. run_bind.
    rewrite (assert_true (_ ∈ _)) by done. run_bind. by rewrite Hts. }
  eexists. split; [exact E|]. split; [by eapply DeltaTargetLadder_new_wf|done].
Qed.

Lemma select_ok tr clock w source client interval fresh :
  publication_inv tr clock w → ladder_room source → interval ∈ ADAPTIVE_DELTA_INTERVALS →
  w_delta_jobs (pw_cache w) !! fresh = None →
  ∃ p' cx' r,
    select_canonical_delta source client interval fresh (pw_publication w) (pw_connections w) = Some (p', cx', r) ∧
    publication_inv tr clock (MkPublicationWorld p' (handed_out r ++ pw_requests w) (pw_registries w) cx') ∧
    gp_core p' = pw_core w ∧
    selection_outcome clock w (MkPublicationWorld p' (handed_out r ++ pw_requests w) (pw_registries w) cx')
      source client interval r.
Proof.
  intros HI Hr Hi Hf. unfold select_canonical_delta. fold (pw_core w).
  set (head_ := capture_delta_target (gp_publication_id (pw_publication w)) (pw_core w)).
  case_decide as Hfut. { eexists _, _, _. split; [done|]. by destruct w. }
  pose proof (validated tr clock w client HI) as HI1.
  destruct (match client with Some i => _ | None => _ end) as [[rg cx] valid] eqn:Ev.
  destruct valid; cbn [negb].
  2: { eexists _, _, _. split; [done|]. split; [done|]. split; [done|]. split; [simpl in *; lia|].
       destruct client as [i|]; [|done]. exists i. by rewrite Ev. }
  destruct (pruned tr clock _ HI1) as (c & Ec & Hj & HI2).
  change (cache_step (PruneDeltas (dt_revision_timestamp_ms head_)) (gp_cache (pw_publication w)) = Some c) in Ec.
  cbn [gp_cache set_registry_state]. rewrite Ec. run_bind.
  case_decide as Hup. { eexists _, _, _. split; [done|]. by split_and!. }
  case_decide as Hbar. { eexists _, _, _. split; [done|]. split_and!; try done. simpl in *. lia. }
  assert (source < current_revision_id (pc_view (pw_core w))) as Hlt by (simpl in *; lia).
  destruct (source_ladder source (dt_revision head_) interval) as (l & -> & Hwf & Hsrc & Hhead & Hai); [done|done|done|].
  run_bind. destruct (select_spec (dt_state head_) l Hwf) as (sel & Hsel & Hspec). rewrite Hsel. run_bind.
  destruct sel as [selected|wake].
  - destruct Hspec as (S1 & [S2 _] & S3 & _).
    pose proof (selected_request tr clock _ source interval l selected HI2 Hr Hi Hwf Hsrc Hhead
      ltac:(congruence) S2 S3) as Hrq.
    destruct (lookup_moved tr clock _ _ fresh HI2 Hrq (publication_prunes _ _ _ HI2)) as (c' & r & E & He & HI3).
    { change (w_delta_jobs c !! fresh = None). by rewrite Hj. }
    change (lookup_or_elect (MkCanonicalDeltaRequest head_ selected interval) fresh (pw_core w) c = Some (c', r)) in E.
    cbn [gp_cache set_cache]. rewrite E. run_bind. eexists _, _, _. split; [done|].
    pose proof (request_handed_out tr clock _ _ HI3 Hrq eq_refl) as HI4.
    destruct r as [[|a]|e]; simpl in He; [split; [exact HI3|]|split; [exact HI4|]|split; [exact HI3|]]; (split; [done|]).
    + simpl. destruct He. rewrite S1, Hsrc in *. done.
    + simpl. rewrite S1, Hsrc in *. destruct He. simpl in Hbar. split_and!; try done. lia.
    + simpl in *. rewrite S1, Hsrc in *. destruct He as [He ->]. rewrite decide_False by done. split_and!; try done. lia.
  - destruct Hspec as (_ & S2 & _ & _). eexists _, _, _. split; [done|]. split; [exact HI2|]. split; [done|].
    simpl in *. split_and!; [done|lia|done|]. exists wake. split; [|by rewrite <- Hhead].
    rewrite <- Hsrc, <- Hai. by eapply select_wait_next.
Qed.

(** A retained request re-enters whenever its captured Head can prune. *)
Lemma reenter_ok tr clock w rq fresh :
  publication_inv tr clock w → rq ∈ pw_requests w → w_delta_jobs (pw_cache w) !! fresh = None →
  is_Some (prune_expired (dt_revision_timestamp_ms (cr_head rq)) (w_deltas (pw_cache w))) →
  ∃ p' r, reenter_canonical_delta rq fresh (pw_publication w) = Some (p', r) ∧
    publication_inv tr clock (with_publication p' w) ∧ gp_core p' = pw_core w ∧
    elected clock (pw_core w) rq (gp_cache p') r.
Proof.
  intros HI Hin Hf Hp. destruct (pi_requests _ _ _ HI rq Hin) as [Hrq Hid]. pose proof Hrq as [R1 R2 R3 _ _ _ _].
  unfold reenter_canonical_delta. rewrite (assert_true _ Hid). run_bind. rewrite (assert_true _ R1). run_bind.
  rewrite (assert_true _ R2). run_bind. unfold pw_core in R3. rewrite (assert_true _ R3). run_bind.
  destruct (lookup_moved tr clock w rq fresh HI Hrq Hp Hf) as (c' & r & E & He & HI').
  fold (pw_core w) (pw_cache w). rewrite E. run_bind. by eexists _, _.
Qed.

Lemma reenter_prunes rq fresh w p' r :
  reenter_canonical_delta rq fresh (pw_publication w) = Some (p', r) →
  is_Some (prune_expired (dt_revision_timestamp_ms (cr_head rq)) (w_deltas (pw_cache w))).
Proof.
  unfold reenter_canonical_delta, lookup_or_elect, delta_lookup. do 4 (intros (_ & _ & H)%bind_Some; revert H).
  intros (? & H & _)%bind_Some. apply bind_Some in H as (? & H & _). apply bind_Some in H as (m & H & _). by exists m.
Qed.

(** ** Head readers *)

Lemma head_tier_extent_ok core depth :
  head_inv (pc_view core) → 0 < depth →
  ∃ ext, head_tier_extent depth core = Some ext ∧ extent_wf ext ∧ contains_extent (extent (pc_view core)) ext ∧
    high_level ext = high_level (extent (pc_view core)) ∧ extent_depth ext ≤ depth.
Proof.
  intros Hv Hd. unfold head_tier_extent. rewrite checked_sub_Some by lia. run_bind.
  pose proof (hv_extent _ Hv) as He. unfold head_extent, LevelExtent_new in He. case_decide as Hb; [done|].
  injection He as He. unfold LevelExtent_new. pose proof (hv_high _ Hv) as Hh.
  assert (low_level (extent (pc_view core)) ≤ high_level (extent (pc_view core)) ∧
    0 < low_level (extent (pc_view core))) as [Hlo Hpos].
  { rewrite <- He. simpl. unfold saturating_sub in *. lia. }
  unfold saturating_sub. rewrite decide_False by lia. eexists. split; [done|].
  unfold extent_wf, contains_extent, extent_depth. simpl. split_and!; try done; lia.
Qed.

Lemma capture_head_tier_ok id depth core :
  head_inv (pc_view core) → 0 < depth → N.of_nat (size (edges (pc_view core))) ≤ U64_MAX →
  is_Some (capture_head_tier id depth core).
Proof.
  intros Hv Hd Hs. unfold capture_head_tier. destruct (head_tier_extent_ok core depth Hv Hd) as (ext & -> & Hw & Hin & _).
  run_bind. destruct (extract_subview_spec ext (pc_view core)) as (x & -> & _); [|by eexists].
  by apply head_extractable.
Qed.

(** What [head_tier] answers: an admitted snapshot of the tier, its pending
    job, or a validator match against the present Head. *)
Definition tier_outcome w w' (depth : N) (matches : string → bool) (sel : HeadTierSelection) : Prop :=
  match sel with
  | TierAccess (AccessCompleted x) =>
      hs_depth x = depth ∧ admits (head_eligibility_boundary (pw_core w)) x = Some true
  | TierAccess (AccessJob j) => w_head_jobs (pw_cache w') !! j = Some Pending
  | TierConditionMatched tag => matches tag = true ∧
      ∃ ext, head_tier_extent depth (pw_core w) = Some ext ∧
        tag = etag (HeadEtagInput_new (gp_publication_id (pw_publication w)) (current_revision_id (pc_view (pw_core w))) ext)
  end.

(** The cache of Head tiers moves, the deltas stay. *)
Lemma heads_moved tr clock w c' :
  publication_inv tr clock w → heads_inv (w_heads c') (w_head_tasks c') (w_head_jobs c') →
  w_deltas c' = w_deltas (pw_cache w) → w_delta_tasks c' = w_delta_tasks (pw_cache w) →
  w_delta_jobs c' = w_delta_jobs (pw_cache w) → completed_in (w_heads c') (w_heads (pw_cache w)) →
  publication_inv tr clock (with_publication (set_cache c' (pw_publication w)) w).
Proof.
  intros HI Hh E1 E2 E3 Hc. pose proof HI as [H1 [Hd _] H3 H4 _ _ _]. apply cache_moved; [done| | |].
  - split; [by rewrite E1, E2, E3|done].
  - by rewrite E1.
  - eapply heads_past_in; [exact Hc|done|done].
Qed.

Lemma tier_times tr clock w depth :
  publication_inv tr clock w → head_times_past depth (head_eligibility_boundary (pw_core w)) (pw_cache w).
Proof. intros HI s x Hs Hx. by eapply (pi_heads _ _ _ HI). Qed.

Lemma head_tier_ok tr clock w depth matches fresh :
  publication_inv tr clock w → depth ∈ CACHED_HEAD_WINDOW_DEPTHS → w_head_jobs (pw_cache w) !! fresh = None →
  N.of_nat (size (edges (pc_view (pw_core w)))) ≤ U64_MAX →
  ∃ p' sel cap, head_tier depth matches fresh (pw_publication w) = Some (p', sel, cap) ∧
    publication_inv tr clock (with_publication p' w) ∧ gp_core p' = pw_core w ∧
    tier_outcome w (with_publication p' w) depth matches sel.
Proof.
  intros HI Hdep Hf Hs. unfold head_tier. fold (pw_core w) (pw_cache w).
  pose proof (li_head _ _ _ (cor_lineage _ _ _ (pi_core _ _ _ HI))) as Hv.
  assert (0 < depth) as Hpos. { unfold CACHED_HEAD_WINDOW_DEPTHS in Hdep. set_solver by lia. }
  set (b := head_eligibility_boundary (pw_core w)) in *.
  destruct (head_lookup_inv _ _ _ depth b (ci_heads _ _ (pi_cache _ _ _ HI)) (tier_times _ _ _ depth HI))
    as (m & found & El & Hm & Hfound).
  rewrite El. run_bind.
  assert (cache_step (LookupHead depth b) (pw_cache w) = Some (set_heads m (pw_cache w))) as ->.
  { cbn [cache_step]. rewrite assert_true by done. run_bind. by rewrite El. }
  run_bind.
  assert (publication_inv tr clock (with_publication (set_cache (set_heads m (pw_cache w)) (pw_publication w)) w)) as HI1.
  { apply heads_moved; try done. by eapply head_lookup_completed. }
  destruct found as [x|j|].
  - eexists _, _, _. split; [done|]. by destruct Hfound.
  - eexists _, _, _. split; [done|]. by split_and!.
  - destruct (head_tier_extent_ok (pw_core w) depth Hv Hpos) as (ext & Ee & _). rewrite Ee. run_bind.
    case_match eqn:Ematch. { eexists _, _, _. split; [done|]. split; [done|]. split; [done|]. split; [done|]. by exists ext. }
    destruct (head_elect_inv _ _ _ depth b fresh (ci_heads _ _ (pi_cache _ _ _ HI1)) Hf (tier_times _ _ _ depth HI1))
      as (m' & a & e & E & Hpost).
    cbn [gp_cache set_cache]. change (head_elect depth b fresh (w_heads (set_heads m (pw_cache w))) = Some (m', a, e)) in E.
    rewrite E. run_bind. cbn [cache_step]. rewrite assert_true by done. run_bind. rewrite E. run_bind.
    pose proof (head_elect_completed _ _ _ _ _ _ _ E) as Hin.
    destruct e as [j|].
    + destruct Hpost as (-> & -> & Hi).
      destruct (capture_head_tier_ok (gp_publication_id (pw_publication w)) depth (pw_core w) Hv Hpos Hs) as [cap Ecap].
      cbn [gp_publication_id set_cache]. rewrite Ecap. run_bind. eexists _, _, _. split; [done|]. split; [|split; [done|]].
      * by apply (heads_moved _ _ _ _ HI1).
      * apply lookup_insert_eq.
    + destruct Hpost as [Hi Ha]. eexists _, _, _. split; [done|]. split; [|split; [done|]].
      * by apply (heads_moved _ _ _ _ HI1).
      * destruct a; [by destruct Ha|done].
Qed.

(** ** Builders and connections *)

Lemma builder_ok tr clock w ev :
  publication_inv tr clock w → builder_event ev w →
  ∃ c', cache_step ev (pw_cache w) = Some c' ∧
    publication_inv tr clock (with_publication (set_cache c' (pw_publication w)) w).
Proof.
  intros HI He. pose proof HI as [H1 H2 H3 H4 _ _ _].
  assert (enabled clock ev (pw_cache w)) as Hen.
  { destruct ev; try done. destruct He as (depth & Ht & Hr). exists depth. split; [done|]. intros v Hv. by apply Hr. }
  destruct (cache_step_inv clock (cor_clock _ _ _ H1) ev _ H2 Hen) as (c' & E & Hc & _).
  exists c'. split; [done|]. destruct ev; try done; simpl in He; cbn [cache_step] in E.
  - destruct He as (source & target & sl & Ht & _). rewrite Ht in E. apply bind_Some in E as (m & Em & [= <-]).
    apply cache_moved; try done. by eapply delta_finish_ok.
  - destruct He as (r & Ht). rewrite Ht in E. apply bind_Some in E as (jobs & _ & [= <-]). by apply cache_moved.
  - destruct He as (depth & Ht & Hr). rewrite Ht in E. apply bind_Some in E as (m & Em & [= <-]).
    apply cache_moved; try done. eapply heads_past_finish; [|exact Em|done]. intros s Hs. by apply Hr.
  - destruct He as (r & Ht). rewrite Ht in E. apply bind_Some in E as (jobs & _ & [= <-]). by apply cache_moved.
Qed.

Lemma clients_ok tr clock w cw' rg' :
  publication_inv tr clock w → client_step base64_encode (pw_clients w) cw' → cw_registries cw' !! 0 = Some rg' →
  rg_head_revision_id rg' = rg_head_revision_id (gp_clients (pw_publication w)) →
  rg_publication_state rg' = rg_publication_state (gp_clients (pw_publication w)) →
  publication_inv tr clock (MkPublicationWorld (set_registry_state rg' (pw_publication w)) (pw_requests w)
    (delete 0 (cw_registries cw')) (cw_connections cw')).
Proof.
  intros HI Hs Hz E2 E3. pose proof HI as [H1 H2 H3 H4 H5 H6 H7].
  assert (rg_publication_id rg' = rg_publication_id (gp_clients (pw_publication w))) as E1.
  { eapply client_step_publication; [done|done| |done]. apply lookup_insert_eq. }
  split; try done.
  - unfold pw_clients. simpl. rewrite insert_delete_id by done. destruct cw'. by eapply client_step_ok.
  - unfold in_step in *. simpl. by rewrite E1, E2, E3.
Qed.

(** ** Every step *)

Definition publication_sound w : Prop := ∃ tr clock, publication_inv tr clock w.

Lemma publication_step_sound w w' :
  publication_step base64_encode w w' → publication_sound w → publication_sound w'.
Proof.
  intros Hs (tr & clock & HI). destruct Hs as [u now p' r Hm Hu Hts E|p' Hm E|p' b Hm E|order p' cx' Ho E
    |source client interval fresh p' cx' r Hr Hi Hf E|rq fresh p' r Hin Hf E
    |depth matches fresh p' sel cap Hd Hf Hb E|ev c' He E|cw' rg' Hc Hz E2 E3].
  - destruct (update_moved _ _ _ _ _ _ _ HI Hm Hu Hts E) as [[_ ->]|(clock' & _ & _ & _ & _ & HI')].
    + exists tr, clock. by destruct w.
    + by eexists _, clock'.
  - exists tr, clock. by apply transition_live_ok.
  - exists tr, clock. by eapply transition_stale_ok.
  - destruct (announce_ok _ _ _ order HI Ho) as (p1 & cx1 & E1 & _ & _ & HI'). rewrite E in E1. simplify_eq. by exists tr, clock.
  - destruct (select_ok _ _ _ source client interval fresh HI Hr Hi Hf) as (p1 & cx1 & r1 & E1 & HI' & _).
    rewrite E in E1. simplify_eq. by exists tr, clock.
  - destruct (reenter_ok _ _ _ _ _ HI Hin Hf (reenter_prunes _ _ _ _ _ E)) as (p1 & r1 & E1 & HI' & _).
    rewrite E in E1. simplify_eq. by exists tr, clock.
  - destruct (head_tier_ok _ _ _ depth matches fresh HI Hd Hf Hb) as (p1 & s1 & c1 & E1 & HI' & _).
    rewrite E in E1. simplify_eq. by exists tr, clock.
  - destruct (builder_ok _ _ _ ev HI He) as (c1 & E1 & HI'). rewrite E in E1. simplify_eq. by exists tr, clock.
  - exists tr, clock. by apply clients_ok.
Qed.

Lemma core_inv_state tr clock st st' v h :
  core_inv tr clock (MkGraphPublicationCore st v h) → core_inv tr clock (MkGraphPublicationCore st' v h).
Proof. intros [L1 L2 L3 L4 L5]. by split. Qed.

Lemma candidate_core tr v h : candidate_run tr v h → ∃ clock, core_inv tr clock (MkGraphPublicationCore Synchronizing v h).
Proof.
  induction 1 as [v Hv Hz|tr v h u now v' h' applied Hrun [clock IH] Hu Hts Happ].
  - exists (λ _, current_revision_timestamp_ms v). split; simpl; [|by intros ? ?%elem_of_nil..|done|done].
    apply (lineage_run_inv estimate_raw_delta_bytes). by constructor.
  - destruct (core_apply_inv _ _ (MkGraphPublicationCore Synchronizing v h) _ _ _ _ _ IH Hu Hts Happ)
      as [(? & _)|(? & clock' & _ & Hc & _)]; [done|by exists clock'].
Qed.

Lemma publication_opened_sound w : publication_opened w → publication_sound w.
Proof.
  intros (st & now & draws & tr & v & h & Hrun & Hnew & Hrq & Hw & H0 & Hid). unfold GraphPublication_new in Hnew.
  apply bind_Some in Hnew as (_ & _ & Hnew). apply bind_Some in Hnew as (_ & _ & Hnew).
  case_decide as Hrev; [done|]. apply bind_Some in Hnew as (_ & _ & Hnew).
  apply bind_Some in Hnew as (id & _ & [= Hp]). destruct (candidate_core _ _ _ Hrun) as [clock Hcore].
  exists tr, clock. destruct w as [p rqs regs cx]. simpl in *. subst p rqs. split; simpl.
  - by eapply core_inv_state.
  - apply cache_inv_new.
  - apply map_Forall_empty.
  - by intros d s x.
  - by intros rq ?%elem_of_nil.
  - eapply (client_step_ok bytes_text (MkClientWorld regs cx)); [|done].
    apply (step_new_registry _ (MkClientWorld regs cx)); [done|]. intros a rg Ha. simpl in Ha. by apply Hid in Ha.
  - by split.
Qed.

Lemma publication_reachable_sound w : publication_reachable base64_encode w → publication_sound w.
Proof.
  induction 1 as [w Ho|w w' _ IH Hs]; [by apply publication_opened_sound|]. by eapply publication_step_sound.
Qed.
End publication_steps.
