(* ===== verification/Runtime.v ===== *)
(** The publication runtime ([publication/runtime.rs]): one worker per
    processing session that loads a database seed, aligns it with the stream of
    committed updates, installs the publication it becomes, applies the stream
    to it, and starts over whenever the stream has a gap.

    The worker is a state machine between its awaits.  [runtime_step] runs it
    from one await to the next on an event: what the awaited branch of the
    [select!] delivers, or a step of the other tasks that share the ingress and
    the publication.  The database client, the installer and the clock are the
    events' arguments. *)

From S2P Require Import Prelude Model Delta GraphView History Lineage Ladder Ingress.
From S2P Require Import Cache CacheMachine Clients Publication.

#[local] Open Scope N_scope.

Definition API_STAGING_UPDATE_CAPACITY : N := 4096.

(** * Seeds ([kgi-api-model], projection.rs) *)

Record GraphWindowResolution := MkGraphWindowResolution {
  resolved_level : N;
  effective_start_level : N;
  effective_end_level : N
}.

Record PublicationRuntimeMetricsSnapshot := MkRuntimeMetrics {
  staging_occupancy : N;
  staging_high_water_mark : N;
  staging_overflow_count : N;
  reconstruction_count : N
}.
Definition RuntimeMetrics_default : PublicationRuntimeMetricsSnapshot := MkRuntimeMetrics 0 0 0 0.

Inductive PublicationRuntimeError := InvalidMarkerOrder | WorkerJoinFailed.
Inductive PublicationInstallOutcome := InstallInstalled | InstallSuperseded.

Inductive PublicationRuntimePhase :=
  | AwaitingCatchupPhase | Constructing | Aligning | Active | Quiescent | Stopped.
#[global] Instance PublicationRuntimePhase_eq_dec : EqDecision PublicationRuntimePhase.
Proof. solve_decision. Defined.

(** * The shared state *)

Record RuntimeSnapshot := MkRuntimeSnapshot {
  sn_phase : PublicationRuntimePhase;
  sn_target_live : bool;
  sn_metrics : PublicationRuntimeMetricsSnapshot
}.
Definition RuntimeSharedState_new : RuntimeSnapshot :=
  MkRuntimeSnapshot AwaitingCatchupPhase false RuntimeMetrics_default.

Definition set_phase (phase : PublicationRuntimePhase) (s : RuntimeSnapshot) : RuntimeSnapshot :=
  MkRuntimeSnapshot phase (sn_target_live s) (sn_metrics s).
(** The flag returned: whether the target changed. *)
Definition set_target_live (s : RuntimeSnapshot) : RuntimeSnapshot * bool :=
  (MkRuntimeSnapshot (sn_phase s) true (sn_metrics s), negb (sn_target_live s)).
Definition target_publication_state (s : RuntimeSnapshot) : GraphPublicationState :=
  if sn_target_live s then Live else Synchronizing.

Definition record_staging_occupancy (occupancy : N) (s : RuntimeSnapshot) : RuntimeSnapshot :=
  let m := sn_metrics s in
  MkRuntimeSnapshot (sn_phase s) (sn_target_live s)
    (MkRuntimeMetrics occupancy (staging_high_water_mark m `max` occupancy)
       (staging_overflow_count m) (reconstruction_count m)).
Definition record_staging_overflow (s : RuntimeSnapshot) : option RuntimeSnapshot :=
  let m := sn_metrics s in
  n ← checked_add (staging_overflow_count m) 1;
  Some (MkRuntimeSnapshot (sn_phase s) (sn_target_live s)
    (MkRuntimeMetrics (staging_occupancy m) (staging_high_water_mark m) n (reconstruction_count m))).
Definition record_reconstruction (s : RuntimeSnapshot) : option RuntimeSnapshot :=
  let m := sn_metrics s in
  n ← checked_add (reconstruction_count m) 1;
  Some (MkRuntimeSnapshot (sn_phase s) (sn_target_live s)
    (MkRuntimeMetrics (staging_occupancy m) (staging_high_water_mark m) (staging_overflow_count m) n)).

Section Runtime.
Context {KH : KaspaHash}.

Record GraphViewSeed := MkGraphViewSeed {
  seed_resolution : GraphWindowResolution;
  seed_max_depth : N;
  seed_levels : gmap N Level;
  seed_blocks : gmap BlockHash GraphBlock;
  seed_edges : gmap EdgeId GraphEdge;
  snapshot_max_materialized_id : CompactId;
  snapshot_vspc_sink : BlockHash
}.

(** [CommittedGraphUpdate] has the constructors of [OriginalUpdate], owned. *)
Notation CommittedGraphUpdate := OriginalUpdate (only parsing).

(** * Staging: the queue of updates committed during construction *)

Definition staging_push (update : CommittedGraphUpdate) (entries : list CommittedGraphUpdate) (s : RuntimeSnapshot) :
    option (list CommittedGraphUpdate * RuntimeSnapshot * bool) :=
  if decide (N.of_nat (length entries) = API_STAGING_UPDATE_CAPACITY)
  then s ← record_staging_overflow s; Some (entries, s, false)
  else Some (entries ++ [update], record_staging_occupancy (N.of_nat (length (entries ++ [update]))) s, true).

(** * The construction candidate *)

Record ConstructionCandidate := MkConstructionCandidate {
  cc_view : GraphView;
  cc_history : GraphHistory;
  cc_snapshot_max_materialized_id : CompactId;
  cc_snapshot_vspc_sink : BlockHash;
  cc_block_cut_crossed : bool;
  cc_vspc_cut_crossed : bool
}.

Definition from_seed (seed : GraphViewSeed) : option ConstructionCandidate :=
  match LevelExtent_new (effective_start_level (seed_resolution seed)) (effective_end_level (seed_resolution seed)) with
  | Err _ => None
  | Ok ext =>
    view ← from_database_projection (seed_max_depth seed) ext Head (seed_levels seed) (seed_blocks seed) (seed_edges seed);
    Some (MkConstructionCandidate view GraphHistory_new (snapshot_max_materialized_id seed) (snapshot_vspc_sink seed)
            false false)
  end.

(** An error leaves whatever the update had written; the candidate is dropped. *)
Definition apply_committed_update (update : CommittedGraphUpdate) (now_ms : N) (c : ConstructionCandidate) :
    option (ConstructionCandidate * Result unit PublicationProjectionError) :=
  '(view, history, r) ← AppliedLineageUpdate_apply estimate_raw_delta_bytes update now_ms (cc_view c) (cc_history c);
  let c := MkConstructionCandidate view history (cc_snapshot_max_materialized_id c) (cc_snapshot_vspc_sink c)
             (cc_block_cut_crossed c) (cc_vspc_cut_crossed c) in
  Some (c, match r with Ok _ => Ok tt | Err e => Err e end).

Definition cross_block_cut (c : ConstructionCandidate) : ConstructionCandidate :=
  MkConstructionCandidate (cc_view c) (cc_history c) (cc_snapshot_max_materialized_id c) (cc_snapshot_vspc_sink c)
    true (cc_vspc_cut_crossed c).
Definition cross_vspc_cut (c : ConstructionCandidate) : ConstructionCandidate :=
  MkConstructionCandidate (cc_view c) (cc_history c) (cc_snapshot_max_materialized_id c) (cc_snapshot_vspc_sink c)
    (cc_block_cut_crossed c) true.

Definition apply_alignment_update (update : CommittedGraphUpdate) (now_ms : N) (c : ConstructionCandidate) :
    option (ConstructionCandidate * Result unit PublicationProjectionError) :=
  match update with
  | OriginalBlock committed =>
    if cc_block_cut_crossed c then apply_committed_update update now_ms c
    else if decide (compact_id (bc_id committed) ≤ compact_id (cc_snapshot_max_materialized_id c))%Z
    then Some (c, Ok tt)
    else '(c, r) ← apply_committed_update update now_ms c;
         Some (match r with Ok _ => cross_block_cut c | Err _ => c end, r)
  | OriginalVspc committed =>
    if cc_vspc_cut_crossed c then apply_committed_update update now_ms c
    else if decide (cc_snapshot_vspc_sink c ≠ vc_source committed)
    then Some (c, Ok tt)
    else '(c, r) ← apply_committed_update update now_ms c;
         Some (match r with Ok _ => cross_vspc_cut c | Err _ => c end, r)
  end.

Definition is_aligned (c : ConstructionCandidate) : bool := cc_block_cut_crossed c && cc_vspc_cut_crossed c.

Definition into_publication (initial_state : GraphPublicationState) (now_ms : N) (draws : list N)
    (c : ConstructionCandidate) : option (Result GraphPublication PublicationProjectionError) :=
  GraphPublication_new initial_state now_ms draws (cc_view c) (cc_history c).

(** * The worker *)

Inductive PublicationWork :=
  | WorkNone
  | WorkAligning (c : ConstructionCandidate)
  | WorkActive (p : GraphPublication).

(** Where the worker stands: at the top of its loop, in the [select!] of its
    phase (the first or the second of [construct]'s two loops), draining the
    channel before a reconstruction, between the drained channel and the
    acknowledgement, waiting for cancellation, or done. *)
Inductive RuntimeControl :=
  | AtTop
  | AtSelect
  | AtSeed
  | Draining
  | Drained
  | Quiescing
  | Done (result : Result unit PublicationRuntimeError).

Inductive WorkerAction := WorkerContinue | WorkerRestartConstruction.
Inductive AlignmentOutcome := AlignWaiting | AlignInstalled | AlignSuperseded | AlignRestart.

Context {Chan W : Type} `{Mpsc GraphUpdate Chan} `{Watch N W}.
Notation Ingress := (Ingress _ Chan W).

Record Runtime := MkRuntime {
  rt_control : RuntimeControl;
  rt_shared : RuntimeSnapshot;
  rt_staging : list CommittedGraphUpdate;
  rt_work : PublicationWork;
  rt_construction_gap_generation : N;
  rt_ingress : Ingress;
  rt_connections : Connections
}.

Definition rt_phase (r : Runtime) : PublicationRuntimePhase := sn_phase (rt_shared r).

Definition set_control (c : RuntimeControl) (r : Runtime) : Runtime :=
  MkRuntime c (rt_shared r) (rt_staging r) (rt_work r) (rt_construction_gap_generation r) (rt_ingress r) (rt_connections r).
Definition set_snapshot (s : RuntimeSnapshot) (r : Runtime) : Runtime :=
  MkRuntime (rt_control r) s (rt_staging r) (rt_work r) (rt_construction_gap_generation r) (rt_ingress r) (rt_connections r).
Definition set_staging (q : list CommittedGraphUpdate) (r : Runtime) : Runtime :=
  MkRuntime (rt_control r) (rt_shared r) q (rt_work r) (rt_construction_gap_generation r) (rt_ingress r) (rt_connections r).
Definition set_work (w : PublicationWork) (r : Runtime) : Runtime :=
  MkRuntime (rt_control r) (rt_shared r) (rt_staging r) w (rt_construction_gap_generation r) (rt_ingress r) (rt_connections r).
Definition set_gap_generation (g : N) (r : Runtime) : Runtime :=
  MkRuntime (rt_control r) (rt_shared r) (rt_staging r) (rt_work r) g (rt_ingress r) (rt_connections r).
Definition set_ingress (i : Ingress) (r : Runtime) : Runtime :=
  MkRuntime (rt_control r) (rt_shared r) (rt_staging r) (rt_work r) (rt_construction_gap_generation r) i (rt_connections r).
Definition set_connections (cx : Connections) (r : Runtime) : Runtime :=
  MkRuntime (rt_control r) (rt_shared r) (rt_staging r) (rt_work r) (rt_construction_gap_generation r) (rt_ingress r) cx.

Definition enter_phase (phase : PublicationRuntimePhase) (r : Runtime) : Runtime :=
  set_snapshot (set_phase phase (rt_shared r)) r.

(** [PublicationRuntime::new], over a fresh session. *)
Definition PublicationRuntime_new (i : Ingress) (cx : Connections) : Runtime :=
  MkRuntime AtTop RuntimeSharedState_new [] WorkNone 0 i cx.

(** [staging.clear()]. *)
Definition staging_clear (r : Runtime) : Runtime :=
  set_snapshot (record_staging_occupancy 0 (rt_shared r)) (set_staging [] r).

(** [acknowledge_gap_generation] on the receiver. *)
Definition acknowledge_gap_generation (r : Runtime) : Runtime :=
  let '(g, generation) := acknowledge_current (in_gap (rt_ingress r)) in
  set_gap_generation generation (set_ingress (set_gap g (rt_ingress r)) r).

Definition stage (update : CommittedGraphUpdate) (r : Runtime) : option (Runtime * WorkerAction) :=
  '(q, s, ok) ← staging_push update (rt_staging r) (rt_shared r);
  Some (set_staging q (set_snapshot s r), if (ok : bool) then WorkerContinue else WorkerRestartConstruction).

(** What a mutation of the publication takes from outside: the clock, and the
    order in which the registry's map is visited. *)
Record Ambient := MkAmbient { am_now_ms : N; am_order : list (N * SseClientRegistration) }.

(** The announcement that ends a mutation of the active publication. *)
Definition announce_active (am : Ambient) (p : GraphPublication) (r : Runtime) : option Runtime :=
  '(p, cx) ← announce_in (am_order am) p (rt_connections r);
  Some (set_connections cx (set_work (WorkActive p) r)).

(** [transition_stale] on the active publication, if there is one. *)
Definition retire_active (am : Ambient) (r : Runtime) : option Runtime :=
  r ← match rt_work r with
      | WorkActive p => announce_active am (transition_stale p).1 r
      | _ => Some r
      end;
  Some (set_work WorkNone r).

Definition active_publication (r : Runtime) : option GraphPublication :=
  match rt_work r with WorkActive p => Some p | _ => None end.

Definition apply_active_update (update : CommittedGraphUpdate) (am : Ambient) (r : Runtime) :
    option (Runtime * WorkerAction) :=
  p ← active_publication r;
  '(p, result) ← apply_original_update update (am_now_ms am) p;
  r ← announce_active am p r;
  match result with
  | Err _ => r ← retire_active am r; Some (r, WorkerRestartConstruction)
  | Ok _ => Some (r, WorkerContinue)
  end.

(** [transition_live] on the active publication. *)
Definition publish_active_live (am : Ambient) (r : Runtime) : option Runtime :=
  p ← active_publication r;
  p ← transition_live p;
  announce_active am p r.

Definition handle_observation (am : Ambient) (obs : GraphUpdateObservation) (r : Runtime) :
    option (Runtime * Result WorkerAction PublicationRuntimeError) :=
  match rt_phase r, obs with
  | AwaitingCatchupPhase, ObsUpdate GraphUpdate_Catchup =>
    let r := acknowledge_gap_generation r in
    Some (enter_phase Constructing r, Ok WorkerContinue)
  | AwaitingCatchupPhase, _ => Some (r, Err InvalidMarkerOrder)
  | Constructing, ObsUpdate (GraphUpdate_BlockCommitted c) | Aligning, ObsUpdate (GraphUpdate_BlockCommitted c) =>
    '(r, a) ← stage (OriginalBlock c) r; Some (r, Ok a)
  | Constructing, ObsUpdate (GraphUpdate_VspcCommitted c) | Aligning, ObsUpdate (GraphUpdate_VspcCommitted c) =>
    '(r, a) ← stage (OriginalVspc c) r; Some (r, Ok a)
  | Constructing, ObsUpdate GraphUpdate_Live | Aligning, ObsUpdate GraphUpdate_Live =>
    Some (set_snapshot (set_target_live (rt_shared r)).1 r, Ok WorkerContinue)
  | Constructing, ObsGap _ | Aligning, ObsGap _ => Some (r, Ok WorkerRestartConstruction)
  | Constructing, ObsUpdate GraphUpdate_Catchup | Aligning, ObsUpdate GraphUpdate_Catchup =>
    Some (r, Err InvalidMarkerOrder)
  | Active, ObsUpdate (GraphUpdate_BlockCommitted c) =>
    '(r, a) ← apply_active_update (OriginalBlock c) am r; Some (r, Ok a)
  | Active, ObsUpdate (GraphUpdate_VspcCommitted c) =>
    '(r, a) ← apply_active_update (OriginalVspc c) am r; Some (r, Ok a)
  | Active, ObsUpdate GraphUpdate_Live =>
    let '(s, changed) := set_target_live (rt_shared r) in
    let r := set_snapshot s r in
    r ← if changed then publish_active_live am r else Some r;
    Some (r, Ok WorkerContinue)
  | Active, ObsGap _ => r ← retire_active am r; Some (r, Ok WorkerRestartConstruction)
  | Active, ObsUpdate GraphUpdate_Catchup => Some (r, Err InvalidMarkerOrder)
  | Quiescent, _ | Stopped, _ => None
  end.

(** ** Alignment *)

(** One update per round of the captured frontier; the [k]th samples the clock
    at [clock k].  The flag: whether every update was projected. *)
Fixpoint align_loop (frontier : nat) (clock : nat → N) (r : Runtime) : option (Runtime * bool) :=
  match frontier with
  | O => Some (r, true)
  | S frontier =>
    match rt_staging r, rt_work r with
    | update :: q, WorkAligning c =>
      let r := set_snapshot (record_staging_occupancy (N.of_nat (length q)) (rt_shared r)) (set_staging q r) in
      '(c, result) ← apply_alignment_update update (clock O) c;
      let r := set_work (WorkAligning c) r in
      match result with
      | Err _ => Some (r, false)
      | Ok _ => align_loop frontier (λ k, clock (S k)) r
      end
    | _, _ => None
    end
  end.

Definition advance_alignment (clock : nat → N) (now_ms : N) (draws : list N) (outcome : PublicationInstallOutcome)
    (r : Runtime) : option (Runtime * AlignmentOutcome) :=
  '(r, ok) ← align_loop (length (rt_staging r)) clock r;
  if negb ok then Some (r, AlignRestart)
  else
    match rt_work r with
    | WorkAligning c =>
      if negb (is_aligned c) then Some (r, AlignWaiting)
      else if decide (generation (in_gap (rt_ingress r)) ≠ rt_construction_gap_generation r)
      then Some (r, AlignRestart)
      else
        let initial_state := target_publication_state (rt_shared r) in
        let r := set_work WorkNone r in
        published ← into_publication initial_state now_ms draws c;
        match published with
        | Err _ => Some (r, AlignRestart)
        | Ok p =>
          match outcome with
          | InstallInstalled => Some (set_work (WorkActive p) r, AlignInstalled)
          | InstallSuperseded => Some (r, AlignSuperseded)
          end
        end
    | _ => None
    end.

(** ** The loop *)

(** [restart_construction] up to the draining of the channel. *)
Definition begin_restart (r : Runtime) : option Runtime :=
  let r := staging_clear (set_work WorkNone r) in
  s ← record_reconstruction (rt_shared r);
  Some (set_control Draining (set_snapshot s r)).

(** [quiesce], up to the wait for cancellation. *)
Definition quiesce (r : Runtime) : Runtime := set_control Quiescing (enter_phase Quiescent r).

(** The end of [run]: the worker, and its staging buffer, are dropped. *)
Definition finished (result : Result unit PublicationRuntimeError) (r : Runtime) : Runtime :=
  set_control (Done result) (staging_clear r).

Definition worker_finish (am : Ambient) (r : Runtime) : option Runtime :=
  r ← retire_active am r;
  Some (finished (Ok tt) (enter_phase Stopped (staging_clear r))).

Inductive ApiReadError := QueryFailed | GenerationLost | InconsistentProjection.

(** The top of the loop, up to the next await. *)
Definition run_top (clock : nat → N) (now_ms : N) (draws : list N) (outcome : PublicationInstallOutcome)
    (r : Runtime) : option Runtime :=
  match rt_phase r with
  | AwaitingCatchupPhase | Active | Constructing => Some (set_control AtSelect r)
  | Aligning =>
    '(r, a) ← advance_alignment clock now_ms draws outcome r;
    match a with
    | AlignWaiting => Some (set_control AtSelect r)
    | AlignInstalled => Some (enter_phase Active r)
    | AlignSuperseded => Some (quiesce r)
    | AlignRestart => begin_restart r
    end
  | Quiescent => Some (quiesce r)
  | Stopped => None
  end.

(** One poll of the observation branch: [recv_update] before the first
    Catchup, [next_observation] afterwards. *)
Definition poll_observation (r : Runtime) : option (Runtime * Poll (option GraphUpdateObservation)) :=
  match rt_phase r with
  | AwaitingCatchupPhase =>
    '(i, polled) ← recv_update (rt_ingress r);
    Some (set_ingress i r, match polled with
                           | Ready (Some u) => Ready (Some (ObsUpdate u))
                           | Ready None => Ready None
                           | PollPending => PollPending
                           end)
  | _ => '(i, polled) ← next_observation 2 (rt_ingress r); Some (set_ingress i r, polled)
  end.

(** The observation branch: while constructing, the worker stays in the same
    [select!]; otherwise it goes back to the top. *)
Definition observe (am : Ambient) (r : Runtime) : option Runtime :=
  '(r, polled) ← poll_observation r;
  match polled with
  | PollPending => Some r
  | Ready None => Some (quiesce r)
  | Ready (Some obs) =>
    let resume := if decide (rt_phase r = Constructing) then rt_control r else AtTop in
    '(r, result) ← handle_observation am obs r;
    match result with
    | Err e => Some (finished (Err e) r)
    | Ok WorkerContinue => Some (set_control resume r)
    | Ok WorkerRestartConstruction => begin_restart r
    end
  end.

(** The seed branch of [construct]. *)
Definition seeded (result : Result GraphViewSeed ApiReadError) (r : Runtime) : option Runtime :=
  match result with
  | Ok seed =>
    c ← from_seed seed;
    Some (set_control AtTop (enter_phase Aligning (set_work (WorkAligning c) r)))
  | Err (QueryFailed | GenerationLost | InconsistentProjection) => begin_restart r
  end.

(** One round of the draining loop of [restart_construction]. *)
Definition drain (r : Runtime) : option Runtime :=
  '(i, received) ← try_recv_update (rt_ingress r);
  let r := set_ingress i r in
  match received with
  | Ok (GraphUpdate_BlockCommitted _ | GraphUpdate_VspcCommitted _) => Some r
  | Ok GraphUpdate_Live => Some (set_snapshot (set_target_live (rt_shared r)).1 r)
  | Ok GraphUpdate_Catchup => Some (finished (Err InvalidMarkerOrder) r)
  | Err TryRecvEmpty => Some (set_control Drained r)
  | Err TryRecvDisconnected => Some (quiesce r)
  end.

(** The acknowledgement that follows the drained channel. *)
Definition restart_acknowledge (r : Runtime) : Runtime :=
  set_control AtTop (enter_phase Constructing (acknowledge_gap_generation r)).

Inductive RuntimeEvent :=
  | RtTop (clock : nat → N) (now_ms : N) (draws : list N) (outcome : PublicationInstallOutcome)
  | RtObserve (am : Ambient)
  | RtCurrent (available : bool)
  | RtSeed (result : Result GraphViewSeed ApiReadError)
  | RtDrain
  | RtAcknowledge
  | RtCancelled (am : Ambient)
  | RtIngress (ev : IngressEvent)
  | RtReaders (p : GraphPublication) (cx : Connections)
  | RtConnections (cx : Connections).

(** One step; [None] is a panic, an event that is not enabled changes nothing. *)
Definition runtime_step (ev : RuntimeEvent) (r : Runtime) : option Runtime :=
  match ev, rt_control r with
  | RtTop clock now_ms draws outcome, AtTop => run_top clock now_ms draws outcome r
  | RtObserve am, AtSelect => observe am r
  | RtCurrent available, AtSelect =>
    if decide (rt_phase r = Constructing)
    then Some (if (available : bool) then set_control AtSeed r else quiesce r) else Some r
  | RtObserve am, AtSeed => observe am r
  | RtSeed result, AtSeed => seeded result r
  | RtDrain, Draining => drain r
  | RtAcknowledge, Drained => Some (restart_acknowledge r)
  | RtCancelled am, (AtSelect | AtSeed | Quiescing) => worker_finish am r
  | RtIngress ev, _ => i ← ingress_step ev (rt_ingress r); Some (set_ingress i r)
  | RtReaders p cx, _ =>
    match rt_work r with
    | WorkActive _ => Some (set_connections cx (set_work (WorkActive p) r))
    | _ => Some r
    end
  | RtConnections cx, _ => Some (set_connections cx r)
  | _, _ => Some r
  end.
End Runtime.
Arguments Runtime : clear implicits.
