(* ===== verification/RuntimeSafety.v ===== *)
(** Alignment of a construction candidate with the committed stream, and the
    invariant of the publication runtime along every interleaving of its worker
    with the producers of the ingress and the readers of the active publication:
    what the worker has received since it last acknowledged the gap generation,
    and what it made of it. *)

From Stdlib Require Import String.
From S2P Require Import Prelude Model Delta GraphView ViewInvariant HeadView Subview History.
From S2P Require Import Lineage Ladder Ingress Cache CacheMachine Clients ClientsSafety ClientsWorld.
From S2P Require Import Publication Election PublicationSteps Runtime IngressSafety.

#[local] Open Scope N_scope.

Section Alignment.
Context {KH : KaspaHash}.
Implicit Types (seed : GraphViewSeed) (c : ConstructionCandidate) (u : OriginalUpdate) (us : list OriginalUpdate).
Implicit Types (v : GraphView) (h : GraphHistory).

(** * The cut *)

Definition above_snapshot seed u : bool :=
  match u with
  | OriginalBlock b => bool_decide (compact_id (snapshot_max_materialized_id seed) < compact_id (bc_id b))%Z
  | OriginalVspc _ => false
  end.
Definition at_snapshot_sink seed u : bool :=
  match u with
  | OriginalBlock _ => false
  | OriginalVspc t => bool_decide (snapshot_vspc_sink seed = vc_source t)
  end.

Definition block_cut seed us : bool := existsb (above_snapshot seed) us.
Definition vspc_cut seed us : bool := existsb (at_snapshot_sink seed) us.

(** Whether the last of [us] is past the cut of its kind. *)
Definition past_cut seed us u : bool :=
  match u with OriginalBlock _ => block_cut seed us | OriginalVspc _ => vspc_cut seed us end.

(** The updates past the cut: the blocks from the first one the snapshot does
    not hold, the transitions from the first one that leaves its sink. *)
Fixpoint projected_from seed (seen us : list OriginalUpdate) : list OriginalUpdate :=
  match us with
  | [] => []
  | u :: us =>
    let seen := seen ++ [u] in
    if past_cut seed seen u then u :: projected_from seed seen us else projected_from seed seen us
  end.
Definition projected seed us : list OriginalUpdate := projected_from seed [] us.

Lemma projected_from_app seed seen us1 us2 :
  projected_from seed seen (us1 ++ us2) = projected_from seed seen us1 ++ projected_from seed (seen ++ us1) us2.
Proof.
  revert seen. induction us1 as [|u us1 IH]; intros seen; simpl; [by rewrite app_nil_r|].
  rewrite IH, <-(assoc_L (++)). by destruct (past_cut _ _ _).
Qed.

Lemma projected_snoc seed us u :
  projected seed (us ++ [u]) = projected seed us ++ if past_cut seed (us ++ [u]) u then [u] else [].
Proof. unfold projected. by rewrite projected_from_app. Qed.

Lemma existsb_snoc {A} (f : A → bool) xs x : existsb f (xs ++ [x]) = existsb f xs || f x.
Proof. rewrite existsb_app. simpl. by rewrite orb_false_r. Qed.

(** ** Ordered streams *)

Definition block_ids us : list Z :=
  omap (λ u, match u with OriginalBlock b => Some (compact_id (bc_id b)) | OriginalVspc _ => None end) us.

(** Blocks are committed in the order of their identifiers; the cut then keeps
    exactly those the snapshot does not hold. *)
Lemma ascending_block_cut seed us b :
  StronglySorted Z.lt (block_ids (us ++ [OriginalBlock b])) →
  block_cut seed (us ++ [OriginalBlock b]) = above_snapshot seed (OriginalBlock b).
Proof.
  unfold block_cut. rewrite existsb_snoc. induction us as [|u us IH]; simpl; [done|].
  destruct u as [b'|t]; simpl; [|by apply IH].
  intros [Hs Hf]%StronglySorted_inv. specialize (IH Hs). simpl in IH. rewrite <-orb_assoc, IH.
  repeat case_bool_decide; try done.
  rewrite Forall_forall in Hf. exfalso.
  assert (compact_id (bc_id b') < compact_id (bc_id b))%Z; [|lia].
  apply Hf. unfold block_ids. rewrite omap_app. apply elem_of_app. right. simpl. left.
Qed.

Lemma block_ids_app us1 us2 : block_ids (us1 ++ us2) = block_ids us1 ++ block_ids us2.
Proof. apply omap_app. Qed.

Lemma sorted_app_l (R : Z → Z → Prop) xs ys : StronglySorted R (xs ++ ys) → StronglySorted R xs.
Proof.
  induction xs as [|x xs IH]; simpl; [constructor|]. intros [Hs Hf]%StronglySorted_inv.
  constructor; [auto|]. rewrite Forall_app in Hf. apply Hf.
Qed.

Lemma projected_ascending seed us :
  StronglySorted Z.lt (block_ids us) →
  block_ids (projected seed us) = filter (λ id, compact_id (snapshot_max_materialized_id seed) < id)%Z (block_ids us).
Proof.
  induction us as [|u us IH] using rev_ind; intros Hs; [done|].
  assert (StronglySorted Z.lt (block_ids us)) as Hs'.
  { rewrite block_ids_app in Hs. by eapply sorted_app_l. }
  rewrite projected_snoc, !block_ids_app, filter_app, IH by done. f_equal.
  destruct u as [b|t]; simpl; [|by destruct (vspc_cut _ _)].
  rewrite ascending_block_cut by done. simpl. rewrite filter_cons, filter_nil.
  case_bool_decide; simpl; by case_decide.
Qed.

(** * Candidates *)

(** The candidate of a seed after the updates [us]. *)
Inductive aligned seed : list OriginalUpdate → ConstructionCandidate → Prop :=
  | aligned_seed c : from_seed seed = Some c → aligned seed [] c
  | aligned_next us c u now_ms c' :
      aligned seed us c → apply_alignment_update u now_ms c = Some (c', Ok tt) → aligned seed (us ++ [u]) c'.

(** A joint lineage of committed updates. *)
Inductive committed_run v0 h0 : list OriginalUpdate → GraphView → GraphHistory → Prop :=
  | committed_nil : committed_run v0 h0 [] v0 h0
  | committed_next us v h u now_ms v' h' r :
      committed_run v0 h0 us v h →
      AppliedLineageUpdate_apply estimate_raw_delta_bytes u now_ms v h = Some (v', h', Ok r) →
      committed_run v0 h0 (us ++ [u]) v' h'.

Lemma apply_committed_update_Ok u now_ms c c' :
  apply_committed_update u now_ms c = Some (c', Ok tt) →
  ∃ r, AppliedLineageUpdate_apply estimate_raw_delta_bytes u now_ms (cc_view c) (cc_history c)
         = Some (cc_view c', cc_history c', Ok r) ∧
    c' = MkConstructionCandidate (cc_view c') (cc_history c') (cc_snapshot_max_materialized_id c)
           (cc_snapshot_vspc_sink c) (cc_block_cut_crossed c) (cc_vspc_cut_crossed c).
Proof.
  unfold apply_committed_update. intros ([[v h] r] & E & H)%bind_Some. destruct r as [r|e]; [|done].
  injection H as <-. exists r. by rewrite E.
Qed.

(** The candidate of a snapshot and its two flags. *)
Definition candidate_of seed v h (block_cut vspc_cut : bool) : ConstructionCandidate :=
  MkConstructionCandidate v h (snapshot_max_materialized_id seed) (snapshot_vspc_sink seed) block_cut vspc_cut.

(** One update: skipped before the cut of its kind, applied past it. *)
Lemma apply_alignment_update_Ok seed us u now_ms v h c' :
  apply_alignment_update u now_ms (candidate_of seed v h (block_cut seed us) (vspc_cut seed us)) = Some (c', Ok tt) ↔
  if past_cut seed (us ++ [u]) u
  then ∃ v' h' r, AppliedLineageUpdate_apply estimate_raw_delta_bytes u now_ms v h = Some (v', h', Ok r) ∧
         c' = candidate_of seed v' h' (block_cut seed (us ++ [u])) (vspc_cut seed (us ++ [u]))
  else c' = candidate_of seed v h (block_cut seed (us ++ [u])) (vspc_cut seed (us ++ [u])).
Proof.
  unfold apply_alignment_update, apply_committed_update, block_cut, vspc_cut.
  destruct u as [b|t]; unfold past_cut, block_cut, vspc_cut; rewrite !existsb_snoc; simpl; rewrite orb_false_r.
  - destruct (existsb (above_snapshot seed) us); simpl.
    { destruct (AppliedLineageUpdate_apply _ _ _ _ _) as [[[v' h'] [r|e]]|]; simpl; naive_solver. }
    case_bool_decide; [rewrite decide_False by lia|rewrite decide_True by lia; naive_solver].
    destruct (AppliedLineageUpdate_apply _ _ _ _ _) as [[[v' h'] [r|e]]|]; simpl; naive_solver.
  - destruct (existsb (at_snapshot_sink seed) us); simpl.
    { destruct (AppliedLineageUpdate_apply _ _ _ _ _) as [[[v' h'] [r|e]]|]; simpl; naive_solver. }
    case_bool_decide; [rewrite decide_False by tauto|rewrite decide_True by done; naive_solver].
    destruct (AppliedLineageUpdate_apply _ _ _ _ _) as [[[v' h'] [r|e]]|]; simpl; naive_solver.
Qed.

(** Alignment is the lineage of the updates past the cut. *)
Lemma aligned_projected seed us c :
  aligned seed us c →
  ∃ c0, from_seed seed = Some c0 ∧
    committed_run (cc_view c0) (cc_history c0) (projected seed us) (cc_view c) (cc_history c) ∧
    c = candidate_of seed (cc_view c) (cc_history c) (block_cut seed us) (vspc_cut seed us).
Proof.
  induction 1 as [c E|us c u now_ms c' _ (c0 & E0 & Hrun & Hc) Happ].
  - exists c. split; [done|]. split; [constructor|]. unfold from_seed in E. case_match; [|done].
    apply bind_Some in E as (v & _ & [= <-]). done.
  - exists c0. split; [done|]. rewrite Hc in Happ. apply apply_alignment_update_Ok in Happ.
    rewrite projected_snoc. destruct (past_cut seed (us ++ [u]) u).
    + destruct Happ as (v' & h' & r & Happ & ->). split; [|done]. by econstructor.
    + subst c'. by rewrite app_nil_r.
Qed.

Lemma is_aligned_cuts seed us c :
  aligned seed us c → is_aligned c = block_cut seed us && vspc_cut seed us.
Proof. intros (c0 & _ & _ & ->)%aligned_projected. done. Qed.

Lemma from_seed_candidate seed c :
  from_seed seed = Some c → c = candidate_of seed (cc_view c) (cc_history c) false false.
Proof. unfold from_seed. case_match; [|done]. by intros (v & _ & [= <-])%bind_Some. Qed.

Lemma committed_run_nil v0 h0 v h : committed_run v0 h0 [] v h → v = v0 ∧ h = h0.
Proof. inversion 1 as [|us ? ? ? ? ? ? ? ? ? E]; [done|]. by destruct us. Qed.

Lemma committed_run_snoc v0 h0 us u v' h' :
  committed_run v0 h0 (us ++ [u]) v' h' →
  ∃ v h now_ms r, committed_run v0 h0 us v h ∧
    AppliedLineageUpdate_apply estimate_raw_delta_bytes u now_ms v h = Some (v', h', Ok r).
Proof.
  inversion 1 as [E|us' v h u' now_ms ? ? r Hrun Happ E]; [by destruct us|].
  apply app_inj_tail in E as [-> ->]. by exists v, h, now_ms, r.
Qed.

(** Past both cuts an update is applied as the publication applies it. *)
Lemma aligned_committed seed us c u now_ms v' h' r :
  aligned seed us c → is_aligned c = true →
  AppliedLineageUpdate_apply estimate_raw_delta_bytes u now_ms (cc_view c) (cc_history c) = Some (v', h', Ok r) →
  ∃ c', aligned seed (us ++ [u]) c' ∧ is_aligned c' = true ∧ cc_view c' = v' ∧ cc_history c' = h'.
Proof.
  intros Ha [Hb Hv]%andb_true_iff E.
  exists (MkConstructionCandidate v' h' (cc_snapshot_max_materialized_id c) (cc_snapshot_vspc_sink c) true true).
  split_and!; [|done..]. eapply (aligned_next _ _ c u now_ms); [done|]. unfold apply_alignment_update.
  rewrite Hb, Hv. unfold apply_committed_update. rewrite E. destruct u; simpl; by rewrite Hb, Hv.
Qed.

(** * Seeds Storage can produce *)

Definition seed_extent seed : LevelExtent :=
  MkLevelExtent (effective_start_level (seed_resolution seed)) (effective_end_level (seed_resolution seed)).

(** What Storage certifies of a Head projection. *)
Record seed_ok seed : Prop := {
  so_depth : 0 < seed_max_depth seed;
  so_extent : head_extent (seed_max_depth seed) (high_level (seed_extent seed)) = Some (seed_extent seed);
  so_block_keys : blocks_keyed (seed_blocks seed);
  so_edge_keys : edges_keyed (seed_edges seed);
  so_blocks : ∀ k b, seed_blocks seed !! k = Some b → contains_level (seed_extent seed) (block_level b);
  so_edges : ∀ id e, seed_edges seed !! id = Some e → parent_level e < child_level e ∧
    ∃ b, seed_blocks seed !! child id = Some b ∧ coordinate b = child_coordinate e;
  so_levels : ∀ l, is_Some (seed_levels seed !! l) ↔
    contains_level (seed_extent seed) l ∨ edge_usage (seed_edges seed) l ≠ 0;
  so_size : N.of_nat (size (seed_edges seed)) ≤ U64_MAX
}.

Lemma head_extent_valid depth high ext :
  head_extent depth high = Some ext →
  LevelExtent_new (low_level ext) (high_level ext) = Ok ext ∧ 0 < high_level ext ∧
  (0 < depth → extent_depth ext ≤ depth).
Proof.
  unfold head_extent, LevelExtent_new, extent_depth, saturating_sub. case_decide as Hd; [done|]. intros [= <-]. simpl.
  rewrite decide_False by lia. split_and!; [done|lia|]. lia.
Qed.

Lemma from_seed_ok seed :
  seed_ok seed →
  ∃ c, from_seed seed = Some c ∧ head_inv (cc_view c) ∧ current_revision_id (cc_view c) = 0 ∧
    cc_history c = GraphHistory_new.
Proof.
  intros [Hd Hx Kb Ke Hb He Hl Hs]. destruct (head_extent_valid _ _ _ Hx) as (Hn & Hhigh & Hdep).
  unfold from_seed. simpl in Hn. rewrite Hn.
  destruct (from_database_projection_spec (seed_max_depth seed) (seed_extent seed) Head (seed_levels seed)
    (seed_blocks seed) (seed_edges seed)) as (v & Hv & Hi & Hc & Hm & Hxe & Hp & Hr); try done; [auto|..].
  { intros id e E. apply Hl. right. intros Hz. by eapply (proj1 (edge_usage_zero _ _) Hz). }
  fold (seed_extent seed). rewrite Hv. run_bind. eexists. split; [done|]. simpl. split_and!; [|done|done].
  pose proof (f_equal ct_levels Hc : value <$> levels v = seed_levels seed) as El.
  pose proof (f_equal ct_blocks Hc : blocks v = seed_blocks seed) as Eb.
  pose proof (f_equal ct_edges Hc : edges v = seed_edges seed) as Ee.
  assert (∀ l, is_Some (levels v !! l) ↔ is_Some (seed_levels seed !! l)) as Hlv.
  { intros l. by rewrite <-El, lookup_fmap, fmap_is_Some. }
  split; rewrite ?Hm, ?Hxe, ?Eb, ?Ee; try done.
  - intros id e E. by apply (He id e E).
  - intros id e E. by apply (He id e E).
  - intros l Hcl. apply Hlv, Hl. by left.
  - intros l Hls. by apply Hl, Hlv.
Qed.
End Alignment.

Section RuntimeSafety.
Context {KH : KaspaHash} {Chan W : Type} `{MpscLaws GraphUpdate Chan} `{WatchLaws N W}.
Context (base64_encode : list N → string).
Notation Ingress := (Ingress _ Chan W).
Notation Runtime := (Runtime _ Chan W).
Implicit Types (i : Ingress) (r : Runtime) (am : Ambient).

(** * The producers' side of the ingress *)

(** The receiver belongs to the worker. *)
Definition producer_event (ev : IngressEvent) : bool :=
  match ev with
  | EvRecvPop | EvRecvAccount | EvTakePending | EvAcknowledge | EvGapChanged | EvClose | EvDropReceiver => false
  | _ => true
  end.

(** What the producers leave alone. *)
Definition produced i i' : Prop :=
  in_received i' = in_received i ∧ in_fates i `prefix_of` in_fates i' ∧
  gap_observed_generation (in_gap i') = gap_observed_generation (in_gap i) ∧
  receiver_idle i' = receiver_idle i.

Lemma produced_step ev i i' : producer_event ev = true → ingress_step ev i = Some i' → produced i i'.
Proof.
  assert (∀ u j j' o, produced i j → offer_begin u j = (j', o) → produced i j') as Hbegin.
  { intros u j j' o (P1 & P2 & P3 & P4). unfold offer_begin. repeat case_match; intros [= <- _]; split_and!; try done.
    all: simpl; by apply prefix_app_r. }
  intros Hp. assert (produced i i) as Hrefl by (by split_and!). destruct ev; try done; simpl.
  - case_match; [|by intros [= <-]]. intros [= <-]. destruct (offer_begin _ _) eqn:E. by eapply Hbegin.
  - case_match; [|by intros [= <-]]. intros [= <-]. destruct (offer_begin _ _) eqn:E. by eapply Hbegin.
  - destruct (in_offer i) as [p|]; [|by intros [= <-]]. intros ([j o] & E & ->)%fmap_Some. destruct p; simpl in E.
    + apply bind_Some in E as ([[c s] [x|[]]] & _ & [= <- _]); split_and!; try done; simpl; by apply prefix_app_r.
    + apply bind_Some in E as ([s n] & _ & [= <- _]); by split_and!.
    + injection E as <- _. split_and!; try done. simpl. by apply prefix_app_r.
  - case_match; [|by intros [= <-]]. intros ([j o] & E & ->)%fmap_Some. unfold publish_catchup in E.
    apply bind_Some in E as (_ & _ & E). apply bind_Some in E as ([[c s] [x|[]]] & _ & E); simplify_eq;
      split_and!; try done; simpl; by apply prefix_app_r.
  - case_match; [|by intros [= <-]]. unfold publish_live_begin. intros (_ & _ & [= <-])%bind_Some. by split_and!.
  - case_decide; [|by intros [= <-]]. intros [= <-]. unfold publish_live_reserve.
    destruct (mpsc_reserve _) as [c [[]|]]; split_and!; try done; simpl; by apply prefix_app_r.
  - case_decide; [|by intros [= <-]]. intros ([j o] & E & ->)%fmap_Some. unfold publish_live_send in E.
    apply bind_Some in E as ([[c s] x] & _ & [= <- _]). split_and!; try done; simpl; by apply prefix_app_r.
  - case_match; [|by intros [= <-]]. intros [= <-]. by split_and!.
Qed.

(** ** The stream *)

Lemma accepted_carried fs : accepted fs `sublist_of` carried fs.
Proof.
  induction fs as [|[u|u|u|u] fs IH]; simpl; [constructor|exact IH|by constructor|by apply sublist_cons|exact IH].
Qed.

(** The receiver was given Catchup first, and is never given it again. *)
Lemma received_markers i u us :
  ingress_inv i → receiver_idle i = true → outstanding i = u :: us →
  (in_received i = [] ↔ u = GraphUpdate_Catchup).
Proof.
  intros HI [Hd _]%receiver_idle_spec Ho. pose proof (or_stream _ (ig_order _ HI)) as Hs. rewrite Hd, Ho in Hs.
  destruct (in_gate i) eqn:Eg.
  { destruct (or_awaiting _ (ig_order _ HI) Eg) as [Ha _]. rewrite Ha in Hs.
    by destruct (in_received i). }
  destruct (or_open _ (ig_order _ HI) Eg) as (cs & Hc & Hn & as_ & Ha). rewrite Ha in Hs.
  destruct (in_received i) as [|x xs]; simplify_eq/=; [done|]. split; [done|]. intros ->. exfalso.
  pose proof (accepted_carried (in_fates i)) as Hsub.
  rewrite Ha, Hc in Hsub.
  assert (GraphUpdate_Catchup ∈ cs) as Hin.
  { apply sublist_cons_r in Hsub as [Hsub|(l & [= <-] & Hsub)].
    - eapply elem_of_sublist; [|exact Hsub]. rewrite !elem_of_cons, elem_of_app, elem_of_cons. auto.
    - eapply elem_of_sublist; [|exact Hsub]. rewrite elem_of_app, elem_of_cons. auto. }
  rewrite Forall_forall in Hn. by apply Hn in Hin.
Qed.

(** * The cut of a reconstruction *)

(** The updates of the graph among those received. *)
Definition originals (us : list GraphUpdate) : list OriginalUpdate :=
  omap (λ u, match u with
             | GraphUpdate_BlockCommitted c => Some (OriginalBlock c)
             | GraphUpdate_VspcCommitted c => Some (OriginalVspc c)
             | _ => None
             end) us.

(** [since] was received after generation [gen] was acknowledged. *)
Definition received_since i (gen : N) (since : list GraphUpdate) : Prop :=
  ∃ before fates later queued,
    in_received i = before ++ since ∧ in_fates i = fates ++ later ∧
    accepted fates = before ++ queued ∧ gen = count (lost fates).

Lemma received_since_now i :
  ingress_inv i → in_receiver_dropped i = false → received_since i (count (lost (in_fates i))) [].
Proof.
  intros HI Hd. pose proof (or_stream _ (ig_order _ HI)) as Hs. rewrite Hd in Hs.
  exists (in_received i), (in_fates i), [], (outstanding i). by rewrite !app_nil_r.
Qed.

Lemma received_since_produced i i' gen us : produced i i' → received_since i gen us → received_since i' gen us.
Proof.
  intros (Er & [k Ef] & _) (b & f & l & q & ? & Hf & ? & ?). exists b, f, (l ++ k), q.
  rewrite Er, Ef, Hf, <-(assoc_L (++)). done.
Qed.

Lemma received_since_next i i' gen us u :
  in_received i' = in_received i ++ [u] → in_fates i' = in_fates i →
  received_since i gen us → received_since i' gen (us ++ [u]).
Proof.
  intros Er Ef (b & f & l & q & Hb & ? & ? & ?). exists b, f, l, q. by rewrite Er, Ef, Hb, <-(assoc_L (++)).
Qed.

Lemma received_since_same i i' gen us :
  in_received i' = in_received i → in_fates i' = in_fates i →
  received_since i gen us → received_since i' gen us.
Proof. intros Er Ef (b & f & l & q & ?). exists b, f, l, q. by rewrite Er, Ef. Qed.

Lemma originals_snoc us u :
  originals (us ++ [u]) = originals us ++ originals [u].
Proof. apply omap_app. Qed.

(** * The worker's invariant *)

(** [us] is what the worker received since its last acknowledgement, and it has
    been told of no loss since. *)
Definition stream r (us : list GraphUpdate) : Prop :=
  received_since (rt_ingress r) (rt_construction_gap_generation r) us ∧
  gap_observed_generation (in_gap (rt_ingress r)) = rt_construction_gap_generation r ∧
  in_received (rt_ingress r) ≠ [].

(** The core of the active publication: the seed's lineage over [us]. *)
Definition follows (seed : GraphViewSeed) (us : list OriginalUpdate) (core : GraphPublicationCore) : Prop :=
  ∃ c, aligned seed us c ∧ is_aligned c = true ∧ pc_view core = cc_view c ∧ pc_history core = cc_history c.

Definition in_loop (c : RuntimeControl) : Prop := c = AtTop ∨ c = AtSelect.

(** Where the worker stands, and what it holds there. *)
Inductive work_inv r : Prop :=
  | wi_awaiting :
      rt_phase r = AwaitingCatchupPhase → in_loop (rt_control r) → rt_work r = WorkNone → rt_staging r = [] →
      in_received (rt_ingress r) = [] → work_inv r
  | wi_constructing us :
      rt_phase r = Constructing → in_loop (rt_control r) ∨ rt_control r = AtSeed → rt_work r = WorkNone →
      rt_staging r = originals us → stream r us → work_inv r
  | wi_aligning seed done c us :
      rt_phase r = Aligning → in_loop (rt_control r) → rt_work r = WorkAligning c →
      aligned seed done c → done ++ rt_staging r = originals us → stream r us → work_inv r
  | wi_active seed p us :
      rt_phase r = Active → in_loop (rt_control r) → rt_work r = WorkActive p → rt_staging r = [] →
      follows seed (originals us) (gp_core p) → stream r us →
      pc_state (gp_core p) = target_publication_state (rt_shared r) → gp_mutation p = None → work_inv r
  | wi_restarting :
      rt_control r = Draining ∨ rt_control r = Drained → rt_work r = WorkNone → rt_staging r = [] →
      in_received (rt_ingress r) ≠ [] → work_inv r
  | wi_quiescing :
      rt_control r = Quiescing → rt_phase r = Quiescent → work_inv r
  | wi_done :
      rt_control r = Done (Ok tt) → rt_phase r = Stopped → rt_work r = WorkNone → rt_staging r = [] → work_inv r.

Record metrics_inv r : Prop := {
  mt_occupancy : staging_occupancy (sn_metrics (rt_shared r)) = N.of_nat (length (rt_staging r));
  mt_high_water : staging_occupancy (sn_metrics (rt_shared r)) ≤ staging_high_water_mark (sn_metrics (rt_shared r));
  mt_capacity : staging_high_water_mark (sn_metrics (rt_shared r)) ≤ API_STAGING_UPDATE_CAPACITY
}.

Record runtime_inv r : Prop := {
  ri_ingress : ingress_inv (rt_ingress r);
  ri_idle : receiver_idle (rt_ingress r) = true;
  ri_work : work_inv r;
  ri_metrics : metrics_inv r
}.

(** ** The publication under the worker *)

Lemma announce_in_core order p cx p' cx' :
  announce_in order p cx = Some (p', cx') →
  gp_core p' = gp_core p ∧ gp_publication_id p' = gp_publication_id p ∧ gp_mutation p' = None.
Proof.
  unfold announce_in. destruct (gp_mutation p) eqn:E; [|by intros [= <- <-]].
  intros ([rg cx1] & _ & [= <- <-])%bind_Some. done.
Qed.

Lemma announce_active_spec am p r r' :
  announce_active am p r = Some r' →
  ∃ p' cx', announce_in (am_order am) p (rt_connections r) = Some (p', cx') ∧
    r' = set_connections cx' (set_work (WorkActive p') r).
Proof. unfold announce_active. intros ([p' cx'] & E & [= <-])%bind_Some. by exists p', cx'. Qed.

(** Retiring leaves everything but the work and the connections. *)
Lemma retire_active_frame am r r' :
  retire_active am r = Some r' →
  ∃ cx, r' = set_connections cx (set_work WorkNone r).
Proof.
  unfold retire_active. intros (r1 & E & [= <-])%bind_Some. destruct (rt_work r).
  1, 2: injection E as <-; exists (rt_connections r); by destruct r.
  apply announce_active_spec in E as (p' & cx' & _ & ->). by exists cx'.
Qed.

Lemma apply_original_update_core u now_ms p p' res :
  apply_original_update u now_ms p = Some (p', res) →
  ∃ v h res', AppliedLineageUpdate_apply estimate_raw_delta_bytes u now_ms (pc_view (gp_core p)) (pc_history (gp_core p))
      = Some (v, h, res') ∧
    gp_core p' = MkGraphPublicationCore (pc_state (gp_core p)) v h ∧
    match res, res' with Ok _, Ok _ | Err _, Err _ => True | _, _ => False end.
Proof.
  unfold apply_original_update. intros (_ & _ & E)%bind_Some. apply bind_Some in E as ([[v h] x] & -> & E).
  exists v, h, x. destruct x as [[a|]|e].
  - apply bind_Some in E as (c & _ & [= <- <-]). done.
  - by injection E as <- <-.
  - by injection E as <- <-.
Qed.

Lemma GraphPublication_new_core st now_ms draws v h p :
  GraphPublication_new st now_ms draws v h = Some (Ok p) →
  gp_core p = MkGraphPublicationCore st v h ∧ gp_mutation p = None.
Proof.
  unfold GraphPublication_new. intros (_ & _ & E)%bind_Some. apply bind_Some in E as (_ & _ & E).
  case_decide; [done|]. apply bind_Some in E as (_ & _ & E). by apply bind_Some in E as (id & _ & [= <-]).
Qed.

(** An update the publication accepts is one more of its lineage. *)
Lemma follows_next seed us p u now_ms p' x :
  follows seed us (gp_core p) → apply_original_update u now_ms p = Some (p', Ok x) →
  follows seed (us ++ [u]) (gp_core p') ∧ pc_state (gp_core p') = pc_state (gp_core p).
Proof.
  intros (c & Ha & Hal & Ev & Eh) (v & h & y & E & -> & Hy)%apply_original_update_core. destruct y as [y|]; [|done].
  split; [|done]. rewrite Ev, Eh in E.
  destruct (aligned_committed _ _ _ _ _ _ _ _ Ha Hal E) as (c' & Ha' & Hal' & Ev' & Eh').
  exists c'. by rewrite Ev', Eh'.
Qed.

(** ** Staging *)

Lemma staging_push_spec u q s q' s' ok :
  staging_push u q s = Some (q', s', ok) →
  sn_phase s' = sn_phase s ∧ sn_target_live s' = sn_target_live s ∧
  staging_high_water_mark (sn_metrics s') =
    (if ok then staging_high_water_mark (sn_metrics s) `max` N.of_nat (length q') else staging_high_water_mark (sn_metrics s)) ∧
  if ok then q' = q ++ [u] ∧ staging_occupancy (sn_metrics s') = N.of_nat (length q') ∧
             N.of_nat (length q) ≠ API_STAGING_UPDATE_CAPACITY
  else q' = q ∧ N.of_nat (length q) = API_STAGING_UPDATE_CAPACITY ∧
       staging_occupancy (sn_metrics s') = staging_occupancy (sn_metrics s) ∧
       staging_overflow_count (sn_metrics s') = staging_overflow_count (sn_metrics s) + 1.
Proof.
  unfold staging_push. case_decide.
  - unfold record_staging_overflow, checked_add. intros (s1 & E & [= <- <- <-])%bind_Some.
    apply bind_Some in E as (n & En & [= <-]). case_decide; simplify_eq. done.
  - intros [= <- <- <-]. done.
Qed.

Lemma staging_clear_metrics r : metrics_inv r → metrics_inv (staging_clear r).
Proof. intros [E1 E2 E3]. split; simpl; lia. Qed.

(** ** Steps of the worker *)

Definition session_ok r : Prop :=
  ingress_inv (rt_ingress r) ∧ receiver_idle (rt_ingress r) = true ∧ metrics_inv r.

(** The gap generation is acknowledged, and nothing is received since. *)
Lemma acknowledged r :
  session_ok r → in_received (rt_ingress r) ≠ [] →
  session_ok (acknowledge_gap_generation r) ∧ stream (acknowledge_gap_generation r) [] ∧
  rt_control (acknowledge_gap_generation r) = rt_control r ∧ rt_work (acknowledge_gap_generation r) = rt_work r ∧
  rt_staging (acknowledge_gap_generation r) = rt_staging r ∧ rt_shared (acknowledge_gap_generation r) = rt_shared r.
Proof.
  intros (HI & Hidle & HM) Hr. unfold acknowledge_gap_generation.
  pose proof (acknowledge_current_spec (in_gap (rt_ingress r))) as Ha.
  destruct (acknowledge_current _) as [g n]. destruct Ha as (Hc & Hrc & ->).
  split; [split_and!|split_and!; try done].
  - simpl. apply caught_up_inv; [done..|]. rewrite Hrc. apply HI.
  - exact Hidle.
  - destruct HM. by split.
  - unfold stream; simpl. split_and!; [|apply Hc|done].
    replace (wv_value _) with (count (lost (in_fates (rt_ingress r)))) by (by rewrite <-(gp_announced _ (ig_gap _ HI))).
    apply (received_since_now (rt_ingress r)); [done|]. by apply receiver_idle_spec in Hidle as [? _].
Qed.

(** A restart drops the work and the staged updates. *)
Lemma begin_restart_inv r r' :
  begin_restart r = Some r' → session_ok r → in_received (rt_ingress r) ≠ [] → runtime_inv r'.
Proof.
  unfold begin_restart, record_reconstruction. intros (s & E & [= <-])%bind_Some (HI & Hidle & HM) Hr.
  apply bind_Some in E as (n & _ & [= <-]). destruct HM.
  split; [done|done|by apply wi_restarting; auto|]. split; simpl; lia.
Qed.

Lemma quiesce_inv r : session_ok r → runtime_inv (quiesce r).
Proof. intros (HI & Hidle & []). split; [done|done|by apply wi_quiescing|]. by split. Qed.

Lemma finish_inv am r r' : session_ok r → worker_finish am r = Some r' → runtime_inv r'.
Proof.
  intros (HI & Hidle & []). unfold worker_finish. intros (r1 & (cx & ->)%retire_active_frame & [= <-])%bind_Some.
  split; [done|done|by apply wi_done|]. split; simpl; lia.
Qed.

(** What the worker learns from one poll once construction has begun. *)
Lemma polled r us r' polled :
  session_ok r → stream r us → rt_phase r ≠ AwaitingCatchupPhase → poll_observation r = Some (r', polled) →
  ∃ i', r' = set_ingress i' r ∧ session_ok r' ∧ in_received i' ≠ [] ∧
    match polled with
    | Ready (Some (ObsUpdate u)) => u ≠ GraphUpdate_Catchup ∧ stream r' (us ++ [u])
    | Ready (Some (ObsGap n)) => rt_construction_gap_generation r < n ∧ n = count (lost (in_fates i'))
    | Ready None => stream r' us
    | PollPending => stream r' us
    end.
Proof.
  intros (HI & Hidle & HM) (Hs & Hg & Hr) Hp E.
  destruct (next_observation_spec _ Hidle HI) as (i' & x & En & HI' & Hidle' & Hobs & Hf & Hx).
  assert (r' = set_ingress i' r ∧ polled = x) as [-> ->].
  { unfold poll_observation in E. destruct (rt_phase r); [done|..]; rewrite En in E; by injection E as <- <-. }
  exists i'. split; [done|]. assert (metrics_inv (set_ingress i' r)) as HM' by (destruct HM; by split).
  pose proof (gp_announced _ (ig_gap _ HI)) as Ha. unfold stream. simpl.
  destruct x as [[[u|n]|]|]; simpl in Hx.
  - destruct Hx as (E1 & E2 & E3). split_and!; try done.
    + rewrite E2. by destruct (in_received _).
    + intros ->. by apply Hr, (received_markers _ _ _ HI Hidle E3).
    + by eapply received_since_next.
    + congruence.
    + rewrite E2. by destruct (in_received _).
  - destruct Hx as (E1 & E2 & E3). by split_and!; try congruence.
  - destruct Hx as (E1 & E2 & _ & E3). split_and!; try done; try congruence; by eapply received_since_same.
  - destruct Hx as (E1 & E2 & E3). split_and!; try done; try congruence; by eapply received_since_same.
Qed.

(** What an observed update of the graph carries. *)
Definition update_carries (u : GraphUpdate) (o : OriginalUpdate) : Prop :=
  match u, o with
  | GraphUpdate_BlockCommitted c, OriginalBlock c' => c = c'
  | GraphUpdate_VspcCommitted c, OriginalVspc c' => c = c'
  | _, _ => False
  end.

Lemma originals_carries us u o : update_carries u o → originals (us ++ [u]) = originals us ++ [o].
Proof. rewrite originals_snoc. destruct u, o; try done; by intros ->. Qed.

(** Staging keeps everything but the queue and its metrics. *)
Lemma staged o r r' a :
  session_ok r → stage o r = Some (r', a) →
  session_ok r' ∧ rt_ingress r' = rt_ingress r ∧ rt_phase r' = rt_phase r ∧ rt_work r' = rt_work r ∧
  rt_control r' = rt_control r ∧ rt_construction_gap_generation r' = rt_construction_gap_generation r ∧
  sn_target_live (rt_shared r') = sn_target_live (rt_shared r) ∧
  match a with
  | WorkerContinue => rt_staging r' = rt_staging r ++ [o]
  | WorkerRestartConstruction =>
    rt_staging r' = rt_staging r ∧ N.of_nat (length (rt_staging r)) = API_STAGING_UPDATE_CAPACITY ∧
    staging_overflow_count (sn_metrics (rt_shared r')) = staging_overflow_count (sn_metrics (rt_shared r)) + 1
  end.
Proof.
  intros (HI & Hidle & [E1 E2 E3]). unfold stage. intros ([[q s] ok] & E & [= <- <-])%bind_Some.
  destruct (staging_push_spec _ _ _ _ _ _ E) as (F1 & F2 & F3 & F4). unfold rt_phase. simpl.
  destruct ok; simpl.
  - destruct F4 as (-> & F4 & F5). unfold session_ok. split_and!; try done.
    split; simpl; rewrite ?F3, ?F4; [done|lia|].
    rewrite length_app. cbn [length]. lia.
  - destruct F4 as (-> & F4 & F5 & F6). unfold session_ok. split_and!; try done. split; simpl; rewrite ?F3, ?F5; done.
Qed.

Lemma stream_frame r r' us :
  rt_ingress r' = rt_ingress r → rt_construction_gap_generation r' = rt_construction_gap_generation r →
  stream r us → stream r' us.
Proof. unfold stream. by intros -> ->. Qed.

(** The worker goes on in its loop. *)
Definition resumes r (resume : RuntimeControl) (polled : Poll (option GraphUpdateObservation)) (am : Ambient) :
    option Runtime :=
  match polled with
  | PollPending => Some r
  | Ready None => Some (quiesce r)
  | Ready (Some obs) =>
    '(r, result) ← handle_observation am obs r;
    match result with
    | Err e => Some (finished (Err e) r)
    | Ok WorkerContinue => Some (set_control resume r)
    | Ok WorkerRestartConstruction => begin_restart r
    end
  end.

Lemma observe_unfold am r :
  observe am r = '(r, polled) ← poll_observation r;
    resumes r (if decide (rt_phase r = Constructing) then rt_control r else AtTop) polled am.
Proof. unfold observe, resumes. by destruct (poll_observation r) as [[r1 [[|]|]]|]. Qed.

(** Construction stages what is committed meanwhile. *)
Lemma observe_staging o r u us done resume r' :
  session_ok r → stream r (us ++ [u]) → update_carries u o → done ++ rt_staging r = originals us →
  ('(r, a) ← stage o r; match a with
     | WorkerContinue => Some (set_control resume r) | WorkerRestartConstruction => begin_restart r end) = Some r' →
  (∀ r1, session_ok r1 → stream r1 (us ++ [u]) → rt_phase r1 = rt_phase r → rt_work r1 = rt_work r →
     rt_control r1 = resume → done ++ rt_staging r1 = originals (us ++ [u]) → work_inv r1) →
  runtime_inv r'.
Proof.
  intros HS Hst Hc Hd E Hk. apply bind_Some in E as ([r1 a] & E & Ha).
  destruct (staged _ _ _ _ HS E) as (HS1 & F1 & F2 & F3 & F4 & F5 & _ & F7).
  assert (stream r1 (us ++ [u])) as Hst1 by by eapply stream_frame.
  destruct a.
  - injection Ha as <-. destruct HS1 as (G1 & G2 & []). split; [done|done| |by split].
    apply Hk; try done. simpl. by rewrite F7, (assoc_L (++)), Hd, (originals_carries _ _ _ Hc).
  - apply (begin_restart_inv _ _ Ha); [done|]. apply Hst1.
Qed.

Lemma session_ok_frame r r' :
  session_ok r → rt_ingress r' = rt_ingress r → rt_staging r' = rt_staging r →
  sn_metrics (rt_shared r') = sn_metrics (rt_shared r) → session_ok r'.
Proof. intros (HI & Hidle & []) Ei Es Em. unfold session_ok. rewrite Ei. split_and!; [done..|]. by split; rewrite ?Em, ?Es. Qed.

(** Observations while constructing and while aligning. *)
Lemma observe_construction am r us done resume po r' :
  session_ok r → in_received (rt_ingress r) ≠ [] → rt_phase r = Constructing ∨ rt_phase r = Aligning →
  match po with
  | Ready (Some (ObsUpdate u)) => u ≠ GraphUpdate_Catchup ∧ stream r (us ++ [u])
  | Ready (Some (ObsGap n)) => True
  | _ => stream r us
  end →
  done ++ rt_staging r = originals us → resumes r resume po am = Some r' →
  (∀ r1 us', session_ok r1 → stream r1 us' → rt_phase r1 = rt_phase r → rt_work r1 = rt_work r →
     rt_control r1 = resume ∨ r1 = r → done ++ rt_staging r1 = originals us' → work_inv r1) →
  runtime_inv r'.
Proof.
  intros HS Hr Hp Hst Hd E Hk.
  assert (∀ r1, session_ok r1 → work_inv r1 → runtime_inv r1) as Hinv by (intros r1 (? & ? & ?) ?; by split).
  destruct po as [[[u|n]|]|]; simpl in E.
  - destruct Hst as [Hc Hst].
    assert (∀ o, update_carries u o → ('(r, a) ← stage o r; match a with
      | WorkerContinue => Some (set_control resume r) | WorkerRestartConstruction => begin_restart r end) = Some r' →
      runtime_inv r') as Hstage.
    { intros o Ho Es. eapply (observe_staging o r u us done resume r'); [done..|]. intros. eapply Hk; eauto. }
    unfold handle_observation in E. destruct u as [|c|c|]; [done|..].
    + apply (Hstage (OriginalBlock c)); [done|].
      destruct Hp as [Hp|Hp]; rewrite Hp in E; destruct (stage _ r) as [[? []]|]; exact E.
    + apply (Hstage (OriginalVspc c)); [done|].
      destruct Hp as [Hp|Hp]; rewrite Hp in E; destruct (stage _ r) as [[? []]|]; exact E.
    + assert (r' = set_control resume (set_snapshot (set_target_live (rt_shared r)).1 r)) as ->.
      { destruct Hp as [Hp|Hp]; rewrite Hp in E; by injection E as <-. }
      apply Hinv; [by eapply session_ok_frame|]. apply (Hk _ (us ++ [GraphUpdate_Live])); try done.
      * by eapply session_ok_frame.
      * by left.
      * rewrite originals_snoc, app_nil_r. exact Hd.
  - apply (begin_restart_inv r); [|done..]. unfold handle_observation in E.
    destruct Hp as [Hp|Hp]; rewrite Hp in E; exact E.
  - injection E as <-. by apply quiesce_inv.
  - injection E as <-. apply Hinv; [done|]. apply (Hk r us); auto.
Qed.

(** Observations on the active publication. *)
Lemma observe_active am seed p r us po r' :
  session_ok r → in_received (rt_ingress r) ≠ [] → rt_phase r = Active → in_loop (rt_control r) →
  match po with
  | Ready (Some (ObsUpdate u)) => u ≠ GraphUpdate_Catchup ∧ stream r (us ++ [u])
  | Ready (Some (ObsGap n)) => True
  | _ => stream r us
  end →
  rt_work r = WorkActive p → rt_staging r = [] → follows seed (originals us) (gp_core p) →
  pc_state (gp_core p) = target_publication_state (rt_shared r) → gp_mutation p = None →
  resumes r AtTop po am = Some r' → runtime_inv r'.
Proof.
  intros HS Hr Hp Hloop Hst Ew Eq Hf Hpc Hm E.
  assert (∀ r1, session_ok r1 → work_inv r1 → runtime_inv r1) as Hinv by (intros r1 (? & ? & ?) ?; by split).
  destruct po as [[[u|n]|]|]; simpl in E.
  - destruct Hst as [Hc Hst].
    assert (∀ o, update_carries u o → ('(r, a) ← apply_active_update o am r; match a with
      | WorkerContinue => Some (set_control AtTop r) | WorkerRestartConstruction => begin_restart r end) = Some r' →
      runtime_inv r') as Happly.
    { intros o Ho Es. unfold apply_active_update, active_publication in Es. rewrite Ew in Es. cbn [mbind option_bind] in Es.
      apply bind_Some in Es as ([r1 a] & E1 & Ea). apply bind_Some in E1 as ([p1 res] & Eu & E1).
      apply bind_Some in E1 as (r2 & Ean & E1). apply announce_active_spec in Ean as (p2 & cx2 & Ean & ->).
      apply announce_in_core in Ean as (Ec & _ & Em). destruct res as [x|e].
      - injection E1 as <- <-. injection Ea as <-. apply Hinv; [by eapply session_ok_frame|].
        destruct (follows_next _ _ _ _ _ _ _ Hf Eu) as [Hf1 Hpc1].
        apply (wi_active _ seed p2 (us ++ [u])); try done.
        + by left.
        + by rewrite Ec, (originals_carries _ _ _ Ho).
        + by rewrite Ec, Hpc1.
      - apply bind_Some in E1 as (r3 & (cx3 & ->)%retire_active_frame & [= <- <-]).
        apply (begin_restart_inv _ _ Ea); [by eapply session_ok_frame|exact Hr]. }
    unfold handle_observation in E. rewrite Hp in E. destruct u as [|c|c|]; [done|..].
    + apply (Happly (OriginalBlock c)); [done|]. destruct (apply_active_update _ _ _) as [[? []]|]; exact E.
    + apply (Happly (OriginalVspc c)); [done|]. destruct (apply_active_update _ _ _) as [[? []]|]; exact E.
    + destruct (set_target_live (rt_shared r)) as [s changed] eqn:Es. unfold set_target_live in Es.
      injection Es as <- Hch. apply bind_Some in E as ([r1 x] & E & Ex). apply bind_Some in E as (r2 & E & [= <- <-]).
      injection Ex as <-. unfold target_publication_state in Hpc.
      destruct (sn_target_live (rt_shared r)) eqn:El; simpl in Hch; subst changed.
      * injection E as <-. apply Hinv; [by eapply session_ok_frame|].
        apply (wi_active _ seed p (us ++ [GraphUpdate_Live])); try done; [by left|].
        by rewrite originals_snoc, app_nil_r.
      * unfold publish_active_live, active_publication in E. cbn [rt_work set_snapshot] in E. rewrite Ew in E.
        cbn [mbind option_bind] in E. apply bind_Some in E as (p1 & Et & (p2 & cx2 & Ean & ->)%announce_active_spec).
        apply announce_in_core in Ean as (Ec & _ & Em). unfold transition_live in Et.
        apply bind_Some in Et as (_ & _ & [= <-]).
        apply Hinv; [by eapply session_ok_frame|].
        apply (wi_active _ seed p2 (us ++ [GraphUpdate_Live])); try done; [by left| |by rewrite Ec].
        rewrite originals_snoc, app_nil_r, Ec. exact Hf.
  - unfold handle_observation in E. rewrite Hp in E. apply bind_Some in E as ([r1 x] & E & Ex).
    apply bind_Some in E as (r2 & (cx & ->)%retire_active_frame & [= <- <-]).
    apply (begin_restart_inv _ _ Ex); [by eapply session_ok_frame|exact Hr].
  - injection E as <-. by apply quiesce_inv.
  - injection E as <-. apply Hinv; [done|]. by apply (wi_active _ seed p us).
Qed.

(** One poll of the observation branch. *)
Lemma observe_inv am r r' :
  runtime_inv r → rt_control r = AtSelect ∨ rt_control r = AtSeed → observe am r = Some r' → runtime_inv r'.
Proof.
  intros [HI Hidle Hw HM] Hc E. rewrite observe_unfold in E. apply bind_Some in E as ([r1 po] & Ep & E).
  assert (session_ok r) as HS by done.
  destruct Hw as [Hp Hl Ew Eq Er|us Hp Hl Ew Eq Hst|seed dn c us Hp Hl Ew Ha Ed Hst|seed p us Hp Hl Ew Eq Hf Hst Hpc Hm
    |Hd|Hd|Hd]; [| | | |destruct Hc, Hd; congruence|destruct Hc; congruence|destruct Hc; congruence].
  - unfold poll_observation in Ep. rewrite Hp in Ep.
    destruct (recv_update_spec _ Hidle HI) as (i' & x & En & HI' & Hidle' & Eg & Ef & Hx).
    rewrite En in Ep. injection Ep as <- <-. cbn [rt_control set_ingress] in E.
    assert (session_ok (set_ingress i' r)) as HS' by (split_and!; [done|done|destruct HM; by split]).
    destruct x as [[u|]|].
    + destruct Hx as [Er' Ho]. apply (received_markers _ _ _ HI Hidle Ho) in Er as Eu. subst u.
      rewrite Er in Er'. simpl in E. unfold handle_observation in E.
      replace (rt_phase (set_ingress i' r)) with AwaitingCatchupPhase in E by done. injection E as <-.
      destruct (acknowledged (set_ingress i' r) HS') as ((G1 & G2 & []) & G3 & G4 & G5 & G6 & G7); [simpl; by rewrite Er'|].
      split; [done|done| |by split]. apply (wi_constructing _ []); try done.
      * left. by left.
      * simpl. by rewrite G5.
      * simpl. by rewrite G6.
    + simpl in E. injection E as <-. by apply quiesce_inv.
    + simpl in E. injection E as <-. destruct HS' as (G1 & G2 & []). destruct Hx as [Hx _].
      split; [done|done| |by split]. apply wi_awaiting; try done. simpl. by rewrite Hx.
  - destruct (polled r us r1 po HS Hst) as (i' & -> & HS' & Hne & Hpo); [by rewrite Hp|done|].
    eapply (observe_construction am (set_ingress i' r) us [] _ po r'); [done|done|by left| |exact Eq|exact E|].
    { by destruct po as [[[u|n]|]|]. }
    intros r2 us' G1 G2 G3 G4 G5 G6. apply (wi_constructing _ us'); try done.
    + by rewrite G3.
    + destruct G5 as [->| ->]; [|by destruct Hc; auto]. simpl. rewrite decide_True by done. destruct Hc; unfold in_loop; auto.
    + by rewrite G4.
  - destruct (polled r us r1 po HS Hst) as (i' & -> & HS' & Hne & Hpo); [by rewrite Hp|done|].
    eapply (observe_construction am (set_ingress i' r) us dn _ po r'); [done|done|by right| |exact Ed|exact E|].
    { by destruct po as [[[u|n]|]|]. }
    intros r2 us' G1 G2 G3 G4 G5 G6. apply (wi_aligning _ seed dn c us'); try done.
    + by rewrite G3.
    + destruct G5 as [->| ->]; [|done]. simpl. rewrite decide_False by (change (rt_phase r ≠ Constructing); congruence). by left.
    + by rewrite G4.
  - destruct (polled r us r1 po HS Hst) as (i' & -> & HS' & Hne & Hpo); [by rewrite Hp|done|].
    rewrite decide_False in E by (change (rt_phase r ≠ Constructing); congruence).
    eapply (observe_active am seed p (set_ingress i' r) us po r'); try done. by destruct po as [[[u|n]|]|].
Qed.

(** ** Alignment *)

Lemma align_loop_inv n clock r r' ok seed dn c us :
  align_loop n clock r = Some (r', ok) → session_ok r → rt_work r = WorkAligning c → aligned seed dn c →
  dn ++ rt_staging r = originals us →
  session_ok r' ∧ rt_ingress r' = rt_ingress r ∧ rt_phase r' = rt_phase r ∧ rt_control r' = rt_control r ∧
  rt_construction_gap_generation r' = rt_construction_gap_generation r ∧
  sn_target_live (rt_shared r') = sn_target_live (rt_shared r) ∧ rt_connections r' = rt_connections r ∧
  if ok then ∃ dn' c', rt_work r' = WorkAligning c' ∧ aligned seed dn' c' ∧ dn' ++ rt_staging r' = originals us ∧
    length (rt_staging r) = (n + length (rt_staging r'))%nat
  else True.
Proof.
  revert clock r dn c. induction n as [|n IH]; intros clock r dn c E HS Ew Ha Ed; simpl in E.
  { injection E as <- <-. split_and!; try done; try apply HS. by exists dn, c. }
  destruct (rt_staging r) as [|u q] eqn:Eq; [done|]. rewrite Ew in E.
  apply bind_Some in E as ([c' res] & Eal & E).
  set (r1 := set_work (WorkAligning c') (set_snapshot (record_staging_occupancy (N.of_nat (length q)) (rt_shared r)) (set_staging q r))) in E.
  assert (session_ok r1) as HS1.
  { destruct HS as (HI & Hidle & [M1 M2 M3]). unfold session_ok. split_and!; [done..|].
    rewrite Eq in M1. cbn [length] in M1. split; simpl; [done|lia|lia]. }
  destruct res as [[]|e].
  - destruct (IH _ r1 (dn ++ [u]) c' E HS1 eq_refl) as (G1 & G2 & G3 & G4 & G5 & G6 & G7 & G8).
    + by eapply aligned_next.
    + simpl. by rewrite <-(assoc_L (++)).
    + split_and!; try done. destruct ok; [|done]. destruct G8 as (dn' & c'' & F1 & F2 & F3 & F4).
      exists dn', c''. simpl in F4. simpl. split_and!; try done. lia.
  - injection E as <- <-. by destruct HS1 as (? & ? & ?).
Qed.

Lemma run_top_inv clock now_ms draws outcome r r' :
  runtime_inv r → rt_control r = AtTop → run_top clock now_ms draws outcome r = Some r' → runtime_inv r'.
Proof.
  intros [HI Hidle Hw HM] Hc E. unfold run_top in E. assert (session_ok r) as HS by done.
  destruct Hw as [Hp Hl Ew Eq Er|us Hp Hl Ew Eq Hst|seed dn c us Hp Hl Ew Ha Ed Hst|seed p us Hp Hl Ew Eq Hf Hst Hpc Hm
    |Hd|Hd|Hd]; [| | | |destruct Hd; congruence|congruence|congruence].
  - rewrite Hp in E. injection E as <-. split; [done|done| |by destruct HM]. apply wi_awaiting; try done. by right.
  - rewrite Hp in E. injection E as <-. split; [done|done| |by destruct HM]. apply (wi_constructing _ us); try done.
    left. by right.
  - rewrite Hp in E. apply bind_Some in E as ([r1 a] & Eal & E). unfold advance_alignment in Eal.
    apply bind_Some in Eal as ([r2 ok] & Eloop & Eal).
    destruct (align_loop_inv _ _ _ _ _ _ _ _ us Eloop HS Ew Ha Ed) as (HS2 & G2 & G3 & G4 & G5 & G6 & G7 & G8).
    assert (stream r2 us) as Hst2 by by eapply stream_frame.
    assert (in_received (rt_ingress r2) ≠ []) as Hne by apply Hst2.
    destruct ok; simpl in Eal; [|injection Eal as <- <-; by eapply begin_restart_inv].
    destruct G8 as (dn' & c' & F1 & F2 & F3 & F4). rewrite F1 in Eal.
    assert (rt_staging r2 = []) as Eq2 by (apply length_zero_iff_nil; lia).
    rewrite Eq2, app_nil_r in F3. subst dn'.
    destruct (is_aligned c') eqn:Eali; simpl in Eal.
    2: { injection Eal as <- <-. injection E as <-. split; [apply HS2|apply HS2| |destruct HS2 as (_ & _ & []); by split].
         apply (wi_aligning _ seed (originals us) c' us); simpl; try done; [by rewrite <-Hp|by right|by rewrite Eq2, app_nil_r]. }
    case_decide as Hgap; [injection Eal as <- <-; by eapply begin_restart_inv|].
    apply bind_Some in Eal as (pub & Epub & Eal). unfold into_publication in Epub.
    assert (session_ok (set_work WorkNone r2)) as HS3 by by eapply session_ok_frame.
    destruct pub as [p|e]; [|injection Eal as <- <-; by eapply begin_restart_inv].
    destruct (GraphPublication_new_core _ _ _ _ _ _ Epub) as [Ecore Emut].
    destruct outcome; injection Eal as <- <-; injection E as <-; [|by apply quiesce_inv].
    split; [apply HS2|apply HS2| |destruct HS2 as (_ & _ & []); by split].
    apply (wi_active _ seed p us); simpl; try done.
    + rewrite G4. by left.
    + exists c'. by rewrite Ecore.
    + by rewrite Ecore.
  - rewrite Hp in E. injection E as <-. split; [done|done| |by destruct HM]. apply (wi_active _ seed p us); try done.
    by right.
Qed.

(** ** The other steps *)

Lemma work_inv_produced r i' : produced (rt_ingress r) i' → work_inv r → work_inv (set_ingress i' r).
Proof.
  intros Hp. assert (∀ us, stream r us → stream (set_ingress i' r) us) as Hst.
  { intros us (S1 & S2 & S3). pose proof Hp as (P1 & P2 & P3 & P4). unfold stream; simpl.
    rewrite P1, P3. split_and!; try done. by eapply received_since_produced. }
  destruct Hp as (P1 & _). destruct 1 as [| | | |? ? ? Hne| |]; [apply wi_awaiting|eapply wi_constructing|eapply wi_aligning|eapply wi_active
    |apply wi_restarting|apply wi_quiescing|apply wi_done]; simpl; eauto; by rewrite P1.
Qed.

Lemma seeded_inv res r r' :
  runtime_inv r → rt_control r = AtSeed → seeded res r = Some r' → runtime_inv r'.
Proof.
  intros [HI Hidle Hw HM] Hc E. assert (session_ok r) as HS by done.
  destruct Hw as [Hp Hl|us Hp Hl Ew Eq Hst|seed dn c us Hp Hl|seed p us Hp Hl|Hd|Hd|Hd].
  2: { destruct res as [seed|[]]; simpl in E; [|apply (begin_restart_inv _ _ E HS); apply Hst..].
       apply bind_Some in E as (c & Ec & [= <-]). split; [done|done| |by destruct HM].
       apply (wi_aligning _ seed [] c us); try done; [by left|by constructor]. }
  all: exfalso; unfold in_loop in *; intuition congruence.
Qed.

Lemma drain_inv r r' : runtime_inv r → rt_control r = Draining → drain r = Some r' → runtime_inv r'.
Proof.
  intros [HI Hidle Hw HM] Hc E.
  destruct Hw as [Hp Hl|us Hp Hl|seed dn c us Hp Hl|seed p us Hp Hl|Hd Ew Eq Hne|Hd|Hd].
  5: { unfold drain, try_recv_update in E. destruct (recv_update_spec _ Hidle HI) as (i' & x & En & HI' & Hidle' & Eg & Ef & Hx).
    rewrite En in E. cbn [mbind option_bind] in E.
    assert (session_ok (set_ingress i' r)) as HS' by (split_and!; [done|done|destruct HM; by split]).
    assert (∀ r1, session_ok r1 → rt_control r1 = Draining ∨ rt_control r1 = Drained → rt_work r1 = WorkNone →
      rt_staging r1 = [] → in_received (rt_ingress r1) ≠ [] → runtime_inv r1) as Hgo.
    { intros r1 (? & ? & ?) **. split; [done|done|by apply wi_restarting|done]. }
    destruct x as [[u|]|].
    - destruct Hx as [Er Ho]. assert (in_received i' ≠ []) as Hne' by (rewrite Er; by destruct (in_received _)).
      destruct u; injection E as <-.
      + exfalso. by apply Hne, (received_markers _ _ _ HI Hidle Ho).
      + by apply Hgo; auto.
      + by apply Hgo; auto.
      + apply Hgo; auto. by eapply session_ok_frame.
    - injection E as <-. by apply quiesce_inv.
    - injection E as <-. destruct Hx as [Hx _]. apply Hgo; simpl; auto; [by eapply session_ok_frame|by rewrite Hx]. }
  all: exfalso; unfold in_loop in *; intuition congruence.
Qed.

Lemma restart_acknowledge_inv r : runtime_inv r → rt_control r = Drained → runtime_inv (restart_acknowledge r).
Proof.
  intros [HI Hidle Hw HM] Hc.
  destruct Hw as [Hp Hl|us Hp Hl|seed dn c us Hp Hl|seed p us Hp Hl|Hd Ew Eq Hne|Hd|Hd].
  5: { destruct (acknowledged r) as ((G1 & G2 & []) & G3 & G4 & G5 & G6 & G7); [done|done|].
    split; [done|done| |by split]. apply (wi_constructing _ []); simpl; try done; [left; by left|by rewrite G5|by rewrite G6]. }
  all: exfalso; unfold in_loop in *; intuition congruence.
Qed.

(** The worker's own events. *)
Definition worker_event (ev : RuntimeEvent) : bool :=
  match ev with RtIngress _ | RtReaders _ _ | RtConnections _ => false | _ => true end.

Lemma worker_step_inv ev r r' :
  worker_event ev = true → runtime_inv r → runtime_step ev r = Some r' → runtime_inv r'.
Proof.
  intros Hev HI E. assert (session_ok r) as HS by (destruct HI; done).
  destruct ev as [clock now draws outcome|am|available|res| | |am|ev|p cx|cx]; [..|done|done|done];
    unfold runtime_step in E; destruct (rt_control r) eqn:Hc; try (by injection E as <-).
  - by eapply run_top_inv.
  - eapply observe_inv; eauto.
  - eapply observe_inv; eauto.
  - case_decide as Hp; injection E as <-; [|done]. destruct available; [|by apply quiesce_inv].
    destruct HI as [HI Hidle Hw HM]. split; [done|done| |by destruct HM].
    destruct Hw as [Hp'|us Hp' Hl Ew Eq Hst|seed dn c us Hp'|seed p us Hp'|Hd|Hd Hp'|Hd Hp']; try congruence.
    + apply (wi_constructing _ us); try done. by right.
    + exfalso. destruct Hd; congruence.
  - by eapply seeded_inv.
  - by eapply drain_inv.
  - injection E as <-. by apply restart_acknowledge_inv.
  - by eapply finish_inv.
  - by eapply finish_inv.
  - by eapply finish_inv.
Qed.

(** Readers leave the core of the active publication alone. *)
Lemma reader_step_inv p p' cx r :
  runtime_inv r → rt_work r = WorkActive p → gp_core p' = gp_core p → gp_mutation p' = gp_mutation p →
  runtime_inv (set_connections cx (set_work (WorkActive p') r)).
Proof.
  intros [HI Hidle Hw [M1 M2 M3]] Ep Ec Em. split; [done|done| |by split].
  destruct Hw as [?|?|?|seed p1 us Hp Hl Ew Eq Hf Hst Hpc Hm|?|?|?]; try congruence.
  - rewrite Ep in Ew. injection Ew as <-. apply (wi_active _ seed p' us); simpl; try done; [by rewrite Ec|by rewrite Ec|by rewrite Em].
  - by apply wi_quiescing.
Qed.

Lemma connections_step_inv cx r : runtime_inv r → runtime_inv (set_connections cx r).
Proof.
  intros [HI Hidle Hw [M1 M2 M3]]. split; [done|done| |by split].
  destruct Hw; [apply wi_awaiting|eapply wi_constructing|eapply wi_aligning|eapply wi_active
    |apply wi_restarting|apply wi_quiescing|apply wi_done]; simpl; eauto.
Qed.

Lemma producer_step_inv ev i' r :
  runtime_inv r → producer_event ev = true → ingress_step ev (rt_ingress r) = Some i' → runtime_inv (set_ingress i' r).
Proof.
  intros [HI Hidle Hw [M1 M2 M3]] Hev E. pose proof (produced_step _ _ _ Hev E) as Hp. split; simpl.
  - by eapply (ingress_step_spec ev).
  - destruct Hp as (_ & _ & _ & ->). done.
  - by apply work_inv_produced.
  - by split.
Qed.

Lemma PublicationRuntime_new_inv cx : runtime_inv (PublicationRuntime_new graph_update_channel cx).
Proof.
  split; [apply graph_update_channel_inv|done| |by split]. apply wi_awaiting; try done. by left.
Qed.
End RuntimeSafety.
