(* ===== verification/RuntimeWorld.v ===== *)
(** The runtime in its world: the worker's steps, the producers of its ingress,
    and the readers and clients of the publication it holds, interleaved; the
    publications it installs are those of the publication machine. *)

From Stdlib Require Import String.
From S2P Require Import Prelude Model Delta GraphView ViewInvariant HeadView Subview History.
From S2P Require Import Lineage Ladder Ingress IngressSafety Cache CacheMachine Clients ClientsSafety.
From S2P Require Import ClientsWorld Publication Election PublicationSteps Runtime RuntimeSafety.

#[local] Open Scope N_scope.

Section RuntimeWorld.
Context {KH : KaspaHash} {Chan W : Type} `{MpscLaws GraphUpdate Chan} `{WatchLaws N W}.
Context (base64_encode : list N → string).
Abbreviation Runtime := (Runtime _ Chan W).
Implicit Types (r : Runtime) (am : Ambient) (c : ConstructionCandidate).

(** The runtime, the delta requests its active publication handed out, and the
    registries of the other publications. *)
Record RuntimeWorld := MkRuntimeWorld {
  rw_runtime : Runtime;
  rw_requests : list CanonicalDeltaRequest;
  rw_registries : gmap N SseClientRegistryState
}.
Implicit Types (w : RuntimeWorld).

Definition rw_world w (p : GraphPublication) : PublicationWorld :=
  MkPublicationWorld p (rw_requests w) (rw_registries w) (rt_connections (rw_runtime w)).

Definition is_active r : bool := match rt_work r with WorkActive _ => true | _ => false end.

(** * What the environment guarantees the worker *)

(** Storage's guarantees of an update that meets the view, and the clock's. *)
Definition update_meets (u : OriginalUpdate) (now_ms : N) (v : GraphView) : Prop :=
  update_ok u v ∧ current_revision_timestamp_ms v ≤ now_ms.

Fixpoint align_meets (clock : nat → N) (us : list OriginalUpdate) c : Prop :=
  match us with
  | [] => True
  | u :: us =>
    update_meets u (clock O) (cc_view c) ∧
    ∀ c', apply_alignment_update u (clock O) c = Some (c', Ok tt) → align_meets (λ k, clock (S k)) us c'
  end.

(** The update of the graph one poll delivers. *)
Definition observed_update r : option OriginalUpdate :=
  match poll_observation r with
  | Some (_, Ready (Some (ObsUpdate (GraphUpdate_BlockCommitted c)))) => Some (OriginalBlock c)
  | Some (_, Ready (Some (ObsUpdate (GraphUpdate_VspcCommitted c)))) => Some (OriginalVspc c)
  | _ => None
  end.

Definition visits (am : Ambient) (p : GraphPublication) : Prop :=
  am_order am ≡ₚ map_to_list (rg_clients (gp_clients p)).

Definition admissible (ev : RuntimeEvent) r : Prop :=
  match ev with
  | RtTop clock _ _ _ =>
    rt_phase r = Aligning → ∀ c, rt_work r = WorkAligning c → align_meets clock (rt_staging r) c
  | RtObserve am =>
    ∀ p, rt_work r = WorkActive p → visits am p ∧
      ∀ u, observed_update r = Some u → update_meets u (am_now_ms am) (pc_view (gp_core p))
  | RtCancelled am => ∀ p, rt_work r = WorkActive p → visits am p
  | RtSeed (Ok seed) => seed_ok seed
  | _ => True
  end.

(** * The interleaving *)

(** The registries and connections a publication is installed among. *)
Definition fresh_among (p : GraphPublication) (regs : gmap N SseClientRegistryState) (cx : Connections) : Prop :=
  world_ok (MkClientWorld regs cx) ∧ regs !! 0 = None ∧
  ∀ a rg, regs !! a = Some rg → rg_publication_id rg ≠ gp_publication_id p.

Inductive runtime_move w : RuntimeWorld → Prop :=
  | rm_worker ev r' :
      worker_event ev = true → admissible ev (rw_runtime w) → runtime_step ev (rw_runtime w) = Some r' →
      (is_active r' = true → is_active (rw_runtime w) = true) →
      runtime_move w (MkRuntimeWorld r' (rw_requests w) (rw_registries w))
  | rm_install ev r' p regs :
      worker_event ev = true → admissible ev (rw_runtime w) → runtime_step ev (rw_runtime w) = Some r' →
      is_active (rw_runtime w) = false → rt_work r' = WorkActive p → fresh_among p regs (rt_connections r') →
      runtime_move w (MkRuntimeWorld r' [] regs)
  | rm_producer ev r' :
      producer_event ev = true → runtime_step (RtIngress ev) (rw_runtime w) = Some r' →
      runtime_move w (MkRuntimeWorld r' (rw_requests w) (rw_registries w))
  | rm_reader p pw r' :
      rt_work (rw_runtime w) = WorkActive p → publication_step base64_encode (rw_world w p) pw →
      gp_core (pw_publication pw) = gp_core p → gp_mutation (pw_publication pw) = None →
      runtime_step (RtReaders (pw_publication pw) (pw_connections pw)) (rw_runtime w) = Some r' →
      runtime_move w (MkRuntimeWorld r' (pw_requests pw) (pw_registries pw))
  | rm_connections cx regs r' :
      is_active (rw_runtime w) = false → runtime_step (RtConnections cx) (rw_runtime w) = Some r' →
      runtime_move w (MkRuntimeWorld r' (rw_requests w) regs).

Inductive runtime_reachable : RuntimeWorld → Prop :=
  | runtime_start cx regs : runtime_reachable (MkRuntimeWorld (PublicationRuntime_new graph_update_channel cx) [] regs)
  | runtime_next w w' : runtime_reachable w → runtime_move w w' → runtime_reachable w'.

(** * Soundness *)

Record world_sound w : Prop := {
  ws_runtime : runtime_inv (rw_runtime w);
  ws_candidate c : rt_work (rw_runtime w) = WorkAligning c →
    ∃ tr, candidate_run tr (cc_view c) (cc_history c);
  ws_publication p : rt_work (rw_runtime w) = WorkActive p →
    gp_mutation p = None ∧ publication_reachable base64_encode (rw_world w p)
}.

(** ** Candidates *)

Lemma candidate_apply tr v h u now_ms v' h' x :
  candidate_run tr v h → update_meets u now_ms v →
  AppliedLineageUpdate_apply estimate_raw_delta_bytes u now_ms v h = Some (v', h', Ok x) →
  ∃ tr', candidate_run tr' v' h'.
Proof.
  intros Hrun [Hu Hts] E. destruct x as [applied|]; [by eexists; eapply candidate_update|].
  destruct (candidate_core _ _ _ Hrun) as [clock Hcore].
  destruct (core_apply_inv _ _ (MkGraphPublicationCore Synchronizing v h) _ _ _ _ _ Hcore Hu Hts E)
    as [(_ & -> & ->)|(? & ? & ? & _)]; [by eexists|done].
Qed.

Lemma candidate_align tr c u now_ms c' :
  candidate_run tr (cc_view c) (cc_history c) → update_meets u now_ms (cc_view c) →
  apply_alignment_update u now_ms c = Some (c', Ok tt) → ∃ tr', candidate_run tr' (cc_view c') (cc_history c').
Proof.
  intros Hrun Hu E.
  assert (∀ c1 res, apply_committed_update u now_ms c = Some (c1, res) → res = Ok tt →
    ∃ tr', candidate_run tr' (cc_view c1) (cc_history c1)) as Hcommit.
  { intros c1 res E1 ->. apply apply_committed_update_Ok in E1 as (x & E1 & _). by eapply candidate_apply. }
  unfold apply_alignment_update in E. destruct u as [b|t]; case_match; try by eapply Hcommit.
  - case_decide; [injection E as <-; by exists tr|].
    apply bind_Some in E as ([c1 res] & E1 & E). destruct res as [[]|]; [|done]. injection E as <-. exact (Hcommit _ _ E1 eq_refl).
  - case_decide; [injection E as <-; by exists tr|].
    apply bind_Some in E as ([c1 res] & E1 & E). destruct res as [[]|]; [|done]. injection E as <-. exact (Hcommit _ _ E1 eq_refl).
Qed.

Lemma align_loop_candidate n clock tr r r' c :
  align_loop n clock r = Some (r', true) → rt_work r = WorkAligning c →
  candidate_run tr (cc_view c) (cc_history c) → align_meets clock (rt_staging r) c →
  ∃ c' tr', rt_work r' = WorkAligning c' ∧ candidate_run tr' (cc_view c') (cc_history c').
Proof.
  revert clock tr r c. induction n as [|n IH]; intros clock tr r c E Ew Hrun Hm; simpl in E.
  { injection E as <-. by exists c, tr. }
  destruct (rt_staging r) as [|u q]; [done|]. rewrite Ew in E. destruct Hm as [Hu Hm].
  apply bind_Some in E as ([c' res] & Eal & E). destruct res as [[]|]; [|done].
  destruct (candidate_align _ _ _ _ _ Hrun Hu Eal) as [tr' Hrun']. by eapply IH; [exact E|done|done|by apply Hm].
Qed.

(** ** The active publication *)

Lemma active_update w p u now_ms p1 x order p2 cx2 :
  publication_reachable base64_encode (rw_world w p) → gp_mutation p = None →
  update_meets u now_ms (pc_view (gp_core p)) → apply_original_update u now_ms p = Some (p1, x) →
  order ≡ₚ map_to_list (rg_clients (gp_clients p1)) → announce_in order p1 (rt_connections (rw_runtime w)) = Some (p2, cx2) →
  publication_reachable base64_encode (MkPublicationWorld p2 (rw_requests w) (rw_registries w) cx2).
Proof.
  intros Hr Hm [Hu Hts] E1 Ho E2.
  eapply publication_next; [eapply publication_next; [exact Hr|]|].
  - by eapply (ps_update _ (rw_world w p) u now_ms p1).
  - by eapply (ps_announce _ (with_publication p1 (rw_world w p)) order).
Qed.

Lemma active_live w p p1 order p2 cx2 :
  publication_reachable base64_encode (rw_world w p) → gp_mutation p = None → transition_live p = Some p1 →
  order ≡ₚ map_to_list (rg_clients (gp_clients p1)) → announce_in order p1 (rt_connections (rw_runtime w)) = Some (p2, cx2) →
  publication_reachable base64_encode (MkPublicationWorld p2 (rw_requests w) (rw_registries w) cx2).
Proof.
  intros Hr Hm E1 Ho E2.
  eapply publication_next; [eapply publication_next; [exact Hr|]|].
  - by eapply (ps_live _ (rw_world w p) p1).
  - by eapply (ps_announce _ (with_publication p1 (rw_world w p)) order).
Qed.

Lemma apply_original_update_clients u now_ms p p' x :
  apply_original_update u now_ms p = Some (p', x) → gp_clients p' = gp_clients p.
Proof.
  unfold apply_original_update. intros (_ & _ & E)%bind_Some. apply bind_Some in E as ([[v h] y] & _ & E).
  destruct y as [[a|]|e]; [apply bind_Some in E as (cc & _ & E)|..]; by injection E as <- <-.
Qed.

(** ** What a step of the worker does to its work *)

(** The publication [p] driven on to [p'], its announcement made. *)
Definition publication_driven am r (p p' : GraphPublication) (cx' : Connections) : Prop :=
  ∃ p1, announce_in (am_order am) p1 (rt_connections r) = Some (p', cx') ∧
    ((∃ u x, observed_update r = Some u ∧ apply_original_update u (am_now_ms am) p = Some (p1, Ok x)) ∨
     transition_live p = Some p1).

(** The work after an observation: kept, dropped, or driven on. *)
Definition work_observed am r r' : Prop :=
  (rt_work r' = rt_work r ∧ rt_connections r' = rt_connections r) ∨ rt_work r' = WorkNone ∨
  ∃ p p', rt_work r = WorkActive p ∧ rt_work r' = WorkActive p' ∧ publication_driven am r p p' (rt_connections r').

Lemma begin_restart_work r r' : begin_restart r = Some r' → rt_work r' = WorkNone.
Proof. unfold begin_restart. by intros (s & _ & [= <-])%bind_Some. Qed.

Lemma stage_work u r r' a : stage u r = Some (r', a) → rt_work r' = rt_work r ∧ rt_connections r' = rt_connections r.
Proof. unfold stage. by intros ([[q s] ok] & _ & [= <- _])%bind_Some. Qed.

Lemma apply_active_work am u r r' a :
  apply_active_update u am r = Some (r', a) →
  rt_work r' = WorkNone ∨
  ∃ p p1 x p', rt_work r = WorkActive p ∧ apply_original_update u (am_now_ms am) p = Some (p1, Ok x) ∧
    announce_in (am_order am) p1 (rt_connections r) = Some (p', rt_connections r') ∧ rt_work r' = WorkActive p'.
Proof.
  unfold apply_active_update, active_publication. destruct (rt_work r) as [|c|p] eqn:Ew; [done..|].
  cbn [mbind option_bind]. intros ([p1 res] & Eu & E)%bind_Some.
  apply bind_Some in E as (r2 & (p2 & cx2 & Ean & ->)%announce_active_spec & E). destruct res as [x|e].
  - injection E as <- <-. right. by exists p, p1, x, p2.
  - apply bind_Some in E as (r3 & (cx3 & ->)%retire_active_frame & [= <- <-]). by left.
Qed.

Lemma handle_observation_work am obs r r' res :
  handle_observation am obs r = Some (r', res) →
  (rt_work r' = rt_work r ∧ rt_connections r' = rt_connections r) ∨ rt_work r' = WorkNone ∨
  ∃ p p1 p', rt_work r = WorkActive p ∧ rt_work r' = WorkActive p' ∧
    announce_in (am_order am) p1 (rt_connections r) = Some (p', rt_connections r') ∧
    ((∃ u o x, obs = ObsUpdate u ∧ update_carries u o ∧ apply_original_update o (am_now_ms am) p = Some (p1, Ok x)) ∨
     transition_live p = Some p1).
Proof.
  assert (∀ u o, update_carries u o → obs = ObsUpdate u → ('(r, a) ← apply_active_update o am r; Some (r, Ok a)) = Some (r', res) →
    rt_work r' = WorkNone ∨ ∃ p p1 p', rt_work r = WorkActive p ∧ rt_work r' = WorkActive p' ∧
      announce_in (am_order am) p1 (rt_connections r) = Some (p', rt_connections r') ∧
      ((∃ u o x, obs = ObsUpdate u ∧ update_carries u o ∧ apply_original_update o (am_now_ms am) p = Some (p1, Ok x)) ∨
       transition_live p = Some p1)) as Happly.
  { intros u o Hc Ho ([r1 a] & [E|(p & p1 & x & p' & E1 & E2 & E3 & E4)]%apply_active_work & [= <- <-])%bind_Some; [by left|].
    right. exists p, p1, p'. split_and!; try done. left. by exists u, o, x. }
  intros E. unfold handle_observation in E. destruct (rt_phase r) eqn:Hp; [| | | |done..].
  - destruct obs as [[]|]; injection E as <- _; left; split; try done;
      unfold acknowledge_gap_generation; by destruct (acknowledge_current _).
  - destruct obs as [[|c|c|]|n]; try (injection E as <- _; by left);
      apply bind_Some in E as ([r1 a] & [E1 E2]%stage_work & [= <- _]); by left.
  - destruct obs as [[|c|c|]|n]; try (injection E as <- _; by left);
      apply bind_Some in E as ([r1 a] & [E1 E2]%stage_work & [= <- _]); by left.
  - destruct obs as [[|c|c|]|n].
    + injection E as <- _. by left.
    + right. by apply (Happly (GraphUpdate_BlockCommitted c) (OriginalBlock c)).
    + right. by apply (Happly (GraphUpdate_VspcCommitted c) (OriginalVspc c)).
    + destruct (set_target_live _) as [s []]; simpl in E; [|injection E as <- _; by left].
      apply bind_Some in E as (r1 & E & [= <- _]). unfold publish_active_live, active_publication in E.
      cbn [rt_work set_snapshot] in E. destruct (rt_work r) as [|c|p] eqn:Ew; [done..|]. cbn [mbind option_bind] in E.
      apply bind_Some in E as (p1 & Et & (p2 & cx2 & Ean & ->)%announce_active_spec).
      right. right. exists p, p1, p2. split_and!; try done. by right.
    + apply bind_Some in E as (r1 & (cx & ->)%retire_active_frame & [= <- _]). right. by left.
Qed.

Lemma poll_observation_frame r r' po :
  poll_observation r = Some (r', po) → rt_work r' = rt_work r ∧ rt_connections r' = rt_connections r.
Proof. unfold poll_observation. destruct (rt_phase r); by intros ([i x] & _ & [= <- _])%bind_Some. Qed.

Lemma observe_work am r r' : observe am r = Some r' → work_observed am r r'.
Proof.
  rewrite observe_unfold. intros ([r1 po] & Ep & E)%bind_Some. unfold work_observed.
  destruct (poll_observation_frame _ _ _ Ep) as [F1 F2]. rewrite <-F1, <-F2.
  destruct po as [[obs|]|]; simpl in E; [|injection E as <-; by left..].
  apply bind_Some in E as ([r2 res] & Eh & E).
  destruct res as [[]|e]; [|right; left; by eapply begin_restart_work|].
  all: injection E as <-; apply handle_observation_work in Eh as [Eh|[Eh|(p & p1 & p' & E1 & E2 & E3 & E4)]];
    [by left|by right; left|]; right; right; exists p, p'; split_and!; try done; exists p1; rewrite <-F2; split; [exact E3|].
  all: destruct E4 as [(u & o & x & -> & Hc & E4)|E4]; [left|by right]; exists o, x; split; [|done];
    unfold observed_update; rewrite Ep; destruct u, o; try done; by rewrite Hc.
Qed.

(** The other events of the worker. *)
Lemma other_work ev r r' :
  worker_event ev = true → runtime_step ev r = Some r' →
  match ev with RtTop _ _ _ _ | RtObserve _ | RtSeed _ => False | _ => True end →
  (rt_work r' = rt_work r ∧ rt_connections r' = rt_connections r) ∨ rt_work r' = WorkNone.
Proof.
  intros Hev E Ht. destruct ev as [clock now draws outcome|am|available|res| | |am|ev|p cx|cx]; try done;
    unfold runtime_step in E; destruct (rt_control r); try (injection E as <-; by left).
  - case_decide; injection E as <-; [destruct available|]; by left.
  - unfold drain, try_recv_update in E. apply bind_Some in E as ([i x] & _ & E).
    destruct x as [[]|[]]; injection E as <-; by left.
  - injection E as <-. left. unfold restart_acknowledge, acknowledge_gap_generation. by destruct (acknowledge_current _).
  - unfold worker_finish in E. apply bind_Some in E as (r1 & (cx & ->)%retire_active_frame & [= <-]). by right.
  - unfold worker_finish in E. apply bind_Some in E as (r1 & (cx & ->)%retire_active_frame & [= <-]). by right.
  - unfold worker_finish in E. apply bind_Some in E as (r1 & (cx & ->)%retire_active_frame & [= <-]). by right.
Qed.

(** What the top of the loop does to the work: alignment goes on, its candidate
    is installed, or the work is kept or dropped. *)
Lemma run_top_work clock now_ms draws outcome r r' :
  run_top clock now_ms draws outcome r = Some r' →
  (rt_work r' = rt_work r ∧ rt_connections r' = rt_connections r) ∨ rt_work r' = WorkNone ∨
  (rt_phase r = Aligning ∧ ∃ r1 c', align_loop (length (rt_staging r)) clock r = Some (r1, true) ∧
    rt_work r1 = WorkAligning c' ∧
    (rt_work r' = WorkAligning c' ∨
     ∃ st p, rt_work r' = WorkActive p ∧ into_publication st now_ms draws c' = Some (Ok p))).
Proof.
  unfold run_top. destruct (rt_phase r) eqn:Hp; intros E; try (injection E as <-; by left); [|done].
  apply bind_Some in E as ([r1 a] & Ea & E). unfold advance_alignment in Ea.
  apply bind_Some in Ea as ([r2 ok] & Eloop & Ea).
  assert (∀ r0, begin_restart r0 = Some r' → rt_work r' = WorkNone) as Hrestart by (intros r0; apply begin_restart_work).
  destruct ok; simpl in Ea; [|injection Ea as <- <-; right; left; by eapply Hrestart].
  destruct (rt_work r2) as [|c'|] eqn:Ew2; [done| |done].
  destruct (is_aligned c'); simpl in Ea.
  2: { injection Ea as <- <-. injection E as <-. right. right. split; [done|]. exists r2, c'.
       split_and!; [done|done|by left]. }
  case_decide; [injection Ea as <- <-; right; left; by eapply Hrestart|].
  apply bind_Some in Ea as (pub & Epub & Ea).
  destruct pub as [p|e]; [|injection Ea as <- <-; right; left; by eapply Hrestart].
  destruct outcome; injection Ea as <- <-; injection E as <-; [|right; by left].
  right. right. split; [done|]. exists r2, c'. split_and!; [done|done|]. right.
  by exists (target_publication_state (rt_shared r2)), p.
Qed.

(** ** Every move *)

Lemma seed_candidate seed c :
  seed_ok seed → from_seed seed = Some c → ∃ tr, candidate_run tr (cc_view c) (cc_history c).
Proof.
  intros Hs E. destruct (from_seed_ok seed Hs) as (c' & E' & Hv & Hz & Hh). rewrite E in E'. injection E' as <-.
  exists [cc_view c]. rewrite Hh. by constructor.
Qed.

(** Work that is kept, or dropped, stays sound. *)
Lemma sound_kept w r' :
  world_sound w → runtime_inv r' →
  (rt_work r' = rt_work (rw_runtime w) ∧ rt_connections r' = rt_connections (rw_runtime w)) ∨ rt_work r' = WorkNone →
  world_sound (MkRuntimeWorld r' (rw_requests w) (rw_registries w)).
Proof.
  intros [_ Hc Hp] HI [[Ew Ex]|Ew].
  - split; [done|intros c; simpl; rewrite Ew; apply Hc|]. intros p. unfold rw_world. simpl. rewrite Ew, Ex. apply Hp.
  - split; [done|..]; simpl; rewrite Ew; done.
Qed.

Lemma worker_sound w ev r' :
  world_sound w → worker_event ev = true → admissible ev (rw_runtime w) → runtime_step ev (rw_runtime w) = Some r' →
  (is_active r' = true → is_active (rw_runtime w) = true) →
  world_sound (MkRuntimeWorld r' (rw_requests w) (rw_registries w)).
Proof.
  intros HW Hev Ha E Hact. pose proof (worker_step_inv _ _ _ Hev (ws_runtime _ HW) E) as HI.
  destruct ev as [clock now draws outcome|am|available|res| | |am|ev|p cx|cx]; try done;
    try (apply sound_kept; [done|done|by eapply other_work]).
  all: unfold runtime_step in E.
  - destruct (rt_control (rw_runtime w)) eqn:Hc; try (injection E as <-; by destruct w).
    apply run_top_work in E as [Ew|[Ew|(Hp & r1 & c' & Eloop & Ew1 & Ew)]]; [apply sound_kept; auto..|].
    destruct Ew as [Ew|(st & p & Ew & _)].
    + split; [done|intros c; simpl; rewrite Ew; intros [= <-]|simpl; by rewrite Ew].
      destruct (ri_work _ (ws_runtime _ HW)) as [?|?|seed dn c us Hp' Hl Ew0|?|[]|?|?]; try congruence.
      destruct (ws_candidate _ HW c Ew0) as [tr Hrun].
      destruct (align_loop_candidate _ _ _ _ _ _ Eloop Ew0 Hrun (Ha Hp c Ew0)) as (c2 & tr2 & E2 & Hrun2).
      rewrite Ew1 in E2. injection E2 as <-. by exists tr2.
    + exfalso. unfold is_active in Hact. rewrite Ew in Hact.
      destruct (ri_work _ (ws_runtime _ HW)) as [?|?|seed dn c us Hp' Hl Ew0|?|[]|?|?]; try congruence.
      rewrite Ew0 in Hact. by specialize (Hact eq_refl).
  - assert (world_sound (MkRuntimeWorld r' (rw_requests w) (rw_registries w)) ∨ observe am (rw_runtime w) = Some r') as [?|Eo];
      [|done|]; [destruct (rt_control (rw_runtime w)); try (by right); left; injection E as <-; by destruct w|].
    apply observe_work in Eo as [Ew|[Ew|(p & p' & Ew & Ew' & p1 & Ean & Hd)]]; [apply sound_kept; auto..|].
    split; [done|simpl; by rewrite Ew'|]. intros p2. simpl. rewrite Ew'. intros [= <-].
    destruct (ws_publication _ HW p Ew) as [Hm Hr]. destruct (Ha p Ew) as [Hv Hu].
    split; [by eapply announce_in_core|]. unfold rw_world. simpl. destruct Hd as [(u & x & Eu & Eap)|Et].
    + eapply active_update; [exact Hr|done|by apply Hu|exact Eap| |exact Ean].
      by rewrite (apply_original_update_clients _ _ _ _ _ Eap).
    + eapply active_live; [exact Hr|done|exact Et| |exact Ean].
      unfold transition_live in Et. by apply bind_Some in Et as (_ & _ & [= <-]).
  - destruct (rt_control (rw_runtime w)) eqn:Hc; try (injection E as <-; by destruct w).
    destruct res as [seed|[]]; simpl in E; [|apply sound_kept; eauto using begin_restart_work..].
    apply bind_Some in E as (c & Ec & [= <-]). split; [done| |done]. intros c1. simpl. intros [= <-].
    by eapply seed_candidate.
Qed.

Lemma install_sound w ev r' p regs :
  world_sound w → worker_event ev = true → admissible ev (rw_runtime w) → runtime_step ev (rw_runtime w) = Some r' →
  is_active (rw_runtime w) = false → rt_work r' = WorkActive p → fresh_among p regs (rt_connections r') →
  world_sound (MkRuntimeWorld r' [] regs).
Proof.
  intros HW Hev Ha E Hact Ep (Hw & H0' & Hid).
  pose proof (worker_step_inv _ _ _ Hev (ws_runtime _ HW) E) as HI.
  split; [done|simpl; by rewrite Ep|]. intros p1. simpl. rewrite Ep. intros [= <-].
  assert (∀ q, rt_work (rw_runtime w) ≠ WorkActive q) as Hna by (intros q Eq; unfold is_active in Hact; by rewrite Eq in Hact).
  destruct ev as [clock now draws outcome|am|available|res| | |am|ev|q cx|cx]; try done.
  2: { exfalso. unfold runtime_step in E. destruct (rt_control (rw_runtime w)) eqn:Hc; try (injection E as <-; by eapply Hna).
       all: apply observe_work in E as [[Ew _]|[Ew|(p1 & p' & Ew & _)]]; try congruence; by eapply Hna. }
  all: try (exfalso; destruct (other_work _ _ _ Hev E) as [[Ew _]|Ew]; [done|rewrite Ew in Ep; by eapply Hna|congruence]).
  - unfold runtime_step in E. destruct (rt_control (rw_runtime w)) eqn:Hc; try (injection E as <-; exfalso; by eapply Hna).
    apply run_top_work in E as [[Ew _]|[Ew|(Hp & r1 & c' & Eloop & Ew1 & [Ew|(st & p1 & Ew & Epub)])]];
      [exfalso; rewrite Ew in Ep; by eapply Hna|congruence|congruence|].
    rewrite Ew in Ep. injection Ep as ->.
    destruct (ri_work _ (ws_runtime _ HW)) as [?|?|seed dn c us Hp' Hl Ew0|?|[]|?|?]; try congruence.
    destruct (ws_candidate _ HW c Ew0) as [tr Hrun].
    destruct (align_loop_candidate _ _ _ _ _ _ Eloop Ew0 Hrun (Ha Hp c Ew0)) as (c2 & tr2 & E2 & Hrun2).
    rewrite Ew1 in E2. injection E2 as <-. destruct (GraphPublication_new_core _ _ _ _ _ _ Epub) as [_ Hm].
    split; [done|]. constructor. by exists st, now, draws, tr2, (cc_view c'), (cc_history c').
  - exfalso. unfold runtime_step in E. destruct (rt_control (rw_runtime w)) eqn:Hc; try (injection E as <-; by eapply Hna).
    destruct res as [seed|[]]; simpl in E; [|apply begin_restart_work in E; congruence..].
    apply bind_Some in E as (c & _ & [= <-]). done.
Qed.

Lemma runtime_move_sound w w' : runtime_move w w' → world_sound w → world_sound w'.
Proof.
  intros Hmv HW. destruct Hmv as [ev r' Hev Ha E Hact|ev r' p regs Hev Ha E Hact Ep Hf|ev r' Hev E|p pw r' Ew Hs Ec Em E|cx regs r' Hact E].
  - by eapply worker_sound.
  - by eapply install_sound.
  - unfold runtime_step in E. apply bind_Some in E as (i' & E & [= <-]). apply sound_kept; [done| |by left].
    eapply producer_step_inv; [apply HW|done|done].
  - unfold runtime_step in E. rewrite Ew in E. injection E as <-. destruct (ws_publication _ HW p Ew) as [Hm Hr].
    split; simpl; [eapply reader_step_inv; [apply HW|done..|by rewrite Em, Hm]|done|].
    intros p1 [= <-]. split; [done|]. unfold rw_world. simpl.
    replace (MkPublicationWorld _ _ _ _) with pw by (by destruct pw). by eapply publication_next.
  - unfold runtime_step in E. injection E as <-. split; simpl.
    + apply connections_step_inv, HW.
    + apply HW.
    + intros p Ep. unfold is_active in Hact. by rewrite Ep in Hact.
Qed.

Lemma runtime_reachable_sound w : runtime_reachable w → world_sound w.
Proof.
  induction 1 as [cx regs|w w' _ IH Hm]; [|by eapply runtime_move_sound].
  split; [apply PublicationRuntime_new_inv|done|done].
Qed.
End RuntimeWorld.
