(* ===== verification/RuntimeProgress.v ===== *)
(** Progress of the publication runtime: with room in its counters no step of
    the worker panics, and the draining that precedes a reconstruction ends. *)

From Stdlib Require Import String.
From S2P Require Import Prelude Model Delta GraphView ViewInvariant HeadView Subview History.
From S2P Require Import Lineage Ladder Ingress IngressSafety Cache CacheMachine Clients ClientsSafety.
From S2P Require Import ClientsWorld Publication Election PublicationSteps Runtime RuntimeSafety RuntimeWorld.

#[local] Open Scope N_scope.

Section RuntimeProgress.
Context {KH : KaspaHash} {Chan W : Type} `{MpscLaws GraphUpdate Chan} `{WatchLaws N W}.
Context (base64_encode : list N → string).
Abbreviation Runtime := (Runtime _ Chan W).
Implicit Types (r : Runtime) (am : Ambient) (c : ConstructionCandidate) (w : @RuntimeWorld KH Chan W).

(** * Room in the counters *)

Definition update_fits (u : OriginalUpdate) (now_ms : N) (v : GraphView) (h : GraphHistory) : Prop :=
  current_revision_id v < U64_MAX ∧
  ∀ v' d, OriginalUpdate_apply u now_ms v = Some (v', Ok (Some d)) →
    ∃ est, estimate_raw_delta_bytes d = Some est ∧ gh_current_cumulative_estimated_bytes h + est ≤ U64_MAX.

(** Every update of the frontier fits, and the publication opens after the last. *)
Fixpoint align_fits (clock : nat → N) (now_ms : N) (us : list OriginalUpdate) c : Prop :=
  match us with
  | [] => current_revision_timestamp_ms (cc_view c) ≤ now_ms
  | u :: us =>
    update_fits u (clock O) (cc_view c) (cc_history c) ∧
    ∀ c', apply_alignment_update u (clock O) c = Some (c', Ok tt) → align_fits (λ k, clock (S k)) now_ms us c'
  end.

Definition fits (ev : RuntimeEvent) r : Prop :=
  let m := sn_metrics (rt_shared r) in
  staging_overflow_count m < U64_MAX ∧ reconstruction_count m < U64_MAX ∧
  match ev with
  | RtTop clock now_ms draws _ =>
    rt_phase r = Aligning → is_Some (sample_nonzero_publication_id draws) ∧
      ∀ c, rt_work r = WorkAligning c → align_fits clock now_ms (rt_staging r) c
  | RtObserve am =>
    ∀ p u, rt_work r = WorkActive p → observed_update r = Some u →
      update_fits u (am_now_ms am) (pc_view (gp_core p)) (pc_history (gp_core p))
  | _ => True
  end.

(** * The worker never panics *)

Lemma begin_restart_total r : reconstruction_count (sn_metrics (rt_shared r)) < U64_MAX → is_Some (begin_restart r).
Proof.
  intros Hr. unfold begin_restart, record_reconstruction, checked_add. simpl. rewrite decide_True by lia. by eexists.
Qed.

(** One committed update of a candidate. *)
Lemma candidate_commits tr v h u now_ms :
  candidate_run tr v h → update_meets u now_ms v → update_fits u now_ms v h →
  ∃ v' h' x, AppliedLineageUpdate_apply estimate_raw_delta_bytes u now_ms v h = Some (v', h', Ok x).
Proof.
  intros Hrun [Hu Hts] [Hmax Hest]. destruct (candidate_core _ _ _ Hrun) as [clock Hcore].
  pose proof (cor_lineage _ _ _ Hcore) as [Hv Hh Hrev _ _ _]. simpl in *.
  destruct (lineage_update estimate_raw_delta_bytes u now_ms v h Hv Hh Hrev Hu)
    as [->|(v' & d & Ho & _ & _ & _ & _ & _ & Hnext)]; [by eexists _, _, _|].
  destruct (Hest v' d Ho) as (est & Ee & Hcum).
  destruct (Hnext est Ee Hcum Hmax) as (h1 & x & _ & _ & _ & _ & ->). by eexists _, _, _.
Qed.

Lemma candidate_aligns tr c u now_ms :
  candidate_run tr (cc_view c) (cc_history c) → update_meets u now_ms (cc_view c) →
  update_fits u now_ms (cc_view c) (cc_history c) → ∃ c', apply_alignment_update u now_ms c = Some (c', Ok tt).
Proof.
  intros Hrun Hm Hf. destruct (candidate_commits _ _ _ _ _ Hrun Hm Hf) as (v' & h' & x & E).
  unfold apply_alignment_update, apply_committed_update. rewrite E.
  destruct u; simpl; repeat (case_match || case_decide); by eexists.
Qed.

Lemma align_loop_total clock now_ms tr us r c :
  rt_staging r = us → rt_work r = WorkAligning c → candidate_run tr (cc_view c) (cc_history c) →
  align_meets clock us c → align_fits clock now_ms us c →
  ∃ r' c' tr', align_loop (length us) clock r = Some (r', true) ∧ rt_work r' = WorkAligning c' ∧
    candidate_run tr' (cc_view c') (cc_history c') ∧ current_revision_timestamp_ms (cc_view c') ≤ now_ms ∧
    reconstruction_count (sn_metrics (rt_shared r')) = reconstruction_count (sn_metrics (rt_shared r)).
Proof.
  revert clock tr r c. induction us as [|u us IH]; intros clock tr r c Eq Ew Hrun Hm Hf; simpl.
  { exists r, c, tr. by split_and!. }
  rewrite Eq, Ew. destruct Hm as [Hm1 Hm2], Hf as [Hf1 Hf2].
  destruct (candidate_aligns _ _ _ _ Hrun Hm1 Hf1) as [c' E]. rewrite E. run_bind.
  destruct (candidate_align _ _ _ _ _ Hrun Hm1 E) as [tr' Hrun'].
  match goal with |- context [align_loop (length us) _ ?r1] =>
    destruct (IH (λ k, clock (S k)) tr' r1 c') as (r' & c2 & tr2 & G1 & G2 & G3 & G4 & G5) end;
    [done|done|done|by apply Hm2|by apply Hf2|].
  by exists r', c2, tr2.
Qed.

Lemma candidate_opens st now_ms draws id tr v h :
  candidate_run tr v h → st ≠ Stale → current_revision_timestamp_ms v ≤ now_ms →
  sample_nonzero_publication_id draws = Some id → ∃ p, GraphPublication_new st now_ms draws v h = Some (Ok p).
Proof.
  intros Hrun Hst Hts Hid. destruct (candidate_core _ _ _ Hrun) as [ck Hcore].
  pose proof (cor_lineage _ _ _ Hcore) as [Hv _ Hrev _ _ _]. simpl in *. unfold GraphPublication_new.
  rewrite (assert_true (st ≠ Stale)) by done. run_bind.
  rewrite (assert_true (tracking_policy v = Head)) by apply Hv. run_bind.
  rewrite decide_False by (rewrite Hrev; tauto). rewrite assert_true by done. run_bind. rewrite Hid. by eexists.
Qed.

Lemma run_top_total w clock now_ms draws outcome :
  world_sound base64_encode w → rt_control (rw_runtime w) = AtTop →
  admissible (RtTop clock now_ms draws outcome) (rw_runtime w) → fits (RtTop clock now_ms draws outcome) (rw_runtime w) →
  is_Some (run_top clock now_ms draws outcome (rw_runtime w)).
Proof.
  intros [HI Hcand _] Hc Ha (_ & Hrec & Hf). unfold run_top. set (r := rw_runtime w) in *.
  destruct (ri_work _ HI) as [Hp|us Hp|seed dn c us Hp Hl Ew Hal Ed Hst|seed p us Hp|[]|?|?]; try congruence;
    try (rewrite Hp; by eexists).
  rewrite Hp. destruct (Hf Hp) as [[id Hid] Hfit]. destruct (Hcand c Ew) as [tr Hrun].
  destruct (align_loop_total clock now_ms tr (rt_staging r) r c eq_refl Ew Hrun (Ha Hp c Ew) (Hfit c Ew))
    as (r1 & c1 & tr1 & E & Ew1 & Hrun1 & Hts & Erec).
  unfold advance_alignment. rewrite E. run_bind. rewrite Ew1. destruct (is_aligned c1); simpl; [|by eexists].
  case_decide; [simpl; apply begin_restart_total; lia|]. unfold into_publication.
  assert (target_publication_state (rt_shared r1) ≠ Stale) as Hst1
    by (unfold target_publication_state; by destruct (sn_target_live _)).
  destruct (candidate_opens _ _ _ _ _ _ _ Hrun1 Hst1 Hts Hid) as [p ->].
  run_bind. destruct outcome; by eexists.
Qed.

(** ** The active publication *)

Lemma announce_active_total am pw p :
  publication_sound pw → pw_publication pw = p → visits am p →
  ∀ r, rt_connections r = pw_connections pw → is_Some (announce_active am p r).
Proof.
  intros (tr & clock & HI) <- Hv r Ex. destruct (announce_ok _ _ _ (am_order am) HI Hv) as (p' & cx' & E & _).
  unfold announce_active. rewrite Ex, E. by eexists.
Qed.

Lemma retire_total am w p :
  world_sound base64_encode w → rt_work (rw_runtime w) = WorkActive p → visits am p →
  ∀ r, rt_work r = WorkActive p → rt_connections r = rt_connections (rw_runtime w) → is_Some (retire_active am r).
Proof.
  intros HW Ew Hv r Ew' Ex. destruct (ws_publication _ _ HW p Ew) as [Hm Hr]. unfold retire_active. rewrite Ew'.
  destruct (transition_stale p) as [p' b] eqn:E. simpl.
  destruct (publication_reachable_sound _ _ Hr) as (tr & clock & HI).
  destruct (announce_active_total am (with_publication p' (rw_world w p)) p') with (r := r) as [r1 ->]; [|done| |done|by eexists].
  - exists tr, clock. by eapply transition_stale_ok.
  - unfold transition_stale in E. case_decide; injection E as <- _; done.
Qed.

Lemma apply_active_total am w p u r :
  world_sound base64_encode w → rt_work (rw_runtime w) = WorkActive p → pc_state (gp_core p) ≠ Stale →
  rt_work r = WorkActive p → rt_connections r = rt_connections (rw_runtime w) → visits am p →
  update_meets u (am_now_ms am) (pc_view (gp_core p)) →
  update_fits u (am_now_ms am) (pc_view (gp_core p)) (pc_history (gp_core p)) →
  ∃ r', apply_active_update u am r = Some (r', WorkerContinue).
Proof.
  intros HW Ew Hst Ew' Ex Hv [Hu Hts] [Hmax Hest]. destruct (ws_publication _ _ HW p Ew) as [Hm Hr].
  destruct (publication_reachable_sound _ _ Hr) as (tr & clock & HI).
  destruct (update_applies tr clock (rw_world w p) u (am_now_ms am) HI Hst Hu Hts Hmax Hest) as (p1 & x & E). simpl in E.
  unfold apply_active_update, active_publication. rewrite Ew'. cbn [mbind option_bind]. rewrite E. run_bind.
  assert (publication_sound (with_publication p1 (rw_world w p)) ∧ ∃ y, x = Ok y) as [Hs [y ->]].
  { destruct (update_moved _ _ _ _ _ _ _ HI Hm Hu Hts E) as [[-> ->]|(clock' & -> & _ & _ & _ & HI')].
    - split; [|by eexists]. by exists tr, clock.
    - split; [|by eexists]. by eexists _, clock'. }
  destruct (announce_active_total am _ p1 Hs eq_refl) with (r := r) as [r1 ->]; [|done|by eexists].
  unfold visits. by rewrite (apply_original_update_clients _ _ _ _ _ E).
Qed.

Lemma live_total am w p r :
  world_sound base64_encode w → rt_work (rw_runtime w) = WorkActive p → pc_state (gp_core p) = Synchronizing →
  rt_work r = WorkActive p → rt_connections r = rt_connections (rw_runtime w) → visits am p →
  ∃ r', publish_active_live am r = Some r'.
Proof.
  intros HW Ew Hst Ew' Ex Hv. destruct (ws_publication _ _ HW p Ew) as [Hm Hr].
  destruct (publication_reachable_sound _ _ Hr) as (tr & clock & HI).
  unfold publish_active_live, active_publication. rewrite Ew'. cbn [mbind option_bind].
  destruct (transition_live p) as [p1|] eqn:Et; [|unfold transition_live in Et; by rewrite assert_true in Et].
  run_bind. assert (publication_sound (with_publication p1 (rw_world w p))) as Hs.
  { exists tr, clock. by eapply transition_live_ok. }
  destruct (announce_active_total am _ p1 Hs eq_refl) with (r := r) as [r1 ->]; [|done|by eexists].
  unfold visits. unfold transition_live in Et. by apply bind_Some in Et as (_ & _ & [= <-]).
Qed.

(** ** Observations *)

Definition gap_pending r : Prop := generation (in_gap (rt_ingress r)) ≠ gap_observed_generation (in_gap (rt_ingress r)).
Definition staging_full r : Prop := N.of_nat (length (rt_staging r)) = API_STAGING_UPDATE_CAPACITY.

Lemma poll_total r :
  ingress_inv (rt_ingress r) → receiver_idle (rt_ingress r) = true → is_Some (poll_observation r).
Proof.
  intros HI Hidle. unfold poll_observation.
  destruct (recv_update_spec _ Hidle HI) as (i1 & x1 & E1 & _). destruct (next_observation_spec _ Hidle HI) as (i2 & x2 & E2 & _).
  rewrite E1, E2. destruct (rt_phase r); by eexists.
Qed.

(** A gap is observed exactly when one is pending. *)
Lemma poll_gap r r' po :
  ingress_inv (rt_ingress r) → receiver_idle (rt_ingress r) = true → rt_phase r ≠ AwaitingCatchupPhase →
  poll_observation r = Some (r', po) → (gap_pending r ↔ ∃ n, po = Ready (Some (ObsGap n))).
Proof.
  intros HI Hidle Hp E. destruct (next_observation_spec _ Hidle HI) as (i' & x & En & _ & _ & _ & _ & Hx).
  assert (po = x) as ->.
  { unfold poll_observation in E. destruct (rt_phase r); [done|..]; rewrite En in E; by injection E as _ <-. }
  unfold gap_pending, generation. rewrite watch_borrow_law. unfold observes, announced in Hx.
  destruct x as [[[u|n]|]|].
  - destruct Hx as (Hx & _). rewrite Hx. split; [done|by intros [? ?]].
  - destruct Hx as (-> & Hx & _). split; [eauto|]. intros _. lia.
  - destruct Hx as (Hx & _). rewrite Hx. split; [done|by intros [? ?]].
  - destruct Hx as (Hx & _). rewrite Hx. split; [done|by intros [? ?]].
Qed.

Lemma stage_total u r :
  staging_overflow_count (sn_metrics (rt_shared r)) < U64_MAX →
  ∃ r' a, stage u r = Some (r', a) ∧ (a = WorkerRestartConstruction ↔ staging_full r) ∧
    rt_control r' = rt_control r ∧
    reconstruction_count (sn_metrics (rt_shared r')) = reconstruction_count (sn_metrics (rt_shared r)).
Proof.
  intros Ho. unfold stage, staging_push, staging_full. case_decide as Hf.
  - unfold record_staging_overflow. rewrite checked_add_Some by lia. run_bind. eexists _, _. by split_and!.
  - run_bind. eexists _, _. by split_and!.
Qed.

(** An observation handled while the staging buffer is in use. *)
Lemma construction_total am r obs resume :
  rt_phase r = Constructing ∨ rt_phase r = Aligning → obs ≠ ObsUpdate GraphUpdate_Catchup → resume ≠ Draining →
  staging_overflow_count (sn_metrics (rt_shared r)) < U64_MAX → reconstruction_count (sn_metrics (rt_shared r)) < U64_MAX →
  ∃ r', resumes r resume (Ready (Some obs)) am = Some r' ∧
    (rt_control r' = Draining ↔ (∃ n, obs = ObsGap n) ∨ staging_full r ∧ ∃ u o, obs = ObsUpdate u ∧ update_carries u o).
Proof.
  intros Hp Hobs Hres Ho Hr.
  assert (∀ r1, reconstruction_count (sn_metrics (rt_shared r1)) < U64_MAX → ∃ r', begin_restart r1 = Some r' ∧ rt_control r' = Draining) as Hrestart.
  { intros r1 Hr1. destruct (begin_restart_total r1 Hr1) as [r' E]. exists r'. split; [done|].
    unfold begin_restart in E. by apply bind_Some in E as (s & _ & [= <-]). }
  assert (∀ u o, update_carries u o → obs = ObsUpdate u → ∃ r', ('(r, a) ← stage o r; match a with
      | WorkerContinue => Some (set_control resume r) | WorkerRestartConstruction => begin_restart r end) = Some r' ∧
      (rt_control r' = Draining ↔ (∃ n, obs = ObsGap n) ∨ staging_full r ∧ ∃ u o, obs = ObsUpdate u ∧ update_carries u o)) as Hstage.
  { intros u o Hc ->. destruct (stage_total o r Ho) as (r1 & a & -> & Hfull & Ec & Erec). run_bind. destruct a.
    - eexists. split; [done|]. split; [done|]. intros [[? [=]]|[Hf _]]. by apply Hfull in Hf.
    - destruct (Hrestart r1) as (r' & E & Ed); [lia|]. exists r'. split; [done|]. split; [|done]. intros _. right.
      split; [by apply Hfull|]. by exists u, o. }
  assert (resumes r resume (Ready (Some obs)) am = match obs with
    | ObsUpdate (GraphUpdate_BlockCommitted c) => '(r, a) ← stage (OriginalBlock c) r; match a with
        | WorkerContinue => Some (set_control resume r) | WorkerRestartConstruction => begin_restart r end
    | ObsUpdate (GraphUpdate_VspcCommitted c) => '(r, a) ← stage (OriginalVspc c) r; match a with
        | WorkerContinue => Some (set_control resume r) | WorkerRestartConstruction => begin_restart r end
    | ObsUpdate GraphUpdate_Live => Some (set_control resume (set_snapshot (set_target_live (rt_shared r)).1 r))
    | ObsUpdate GraphUpdate_Catchup => Some (finished (Err InvalidMarkerOrder) r)
    | ObsGap _ => begin_restart r end) as ->.
  { unfold resumes, handle_observation. destruct Hp as [-> | ->]; destruct obs as [[|c|c|]|n]; try done; by destruct (stage _ r) as [[? []]|]. }
  destruct obs as [[|c|c|]|n]; [done|..].
  - by apply (Hstage (GraphUpdate_BlockCommitted c) (OriginalBlock c)).
  - by apply (Hstage (GraphUpdate_VspcCommitted c) (OriginalVspc c)).
  - eexists. split; [done|]. split; [done|]. intros [[? [=]]|(_ & u & o & [= <-] & [])].
  - destruct (Hrestart r Hr) as (r' & E & Ed). exists r'. split; [done|]. split; [|done]. intros _. left. by exists n.
Qed.

(** An observation handled on the active publication. *)
Lemma active_total am w p r obs resume :
  world_sound base64_encode w → rt_work (rw_runtime w) = WorkActive p →
  pc_state (gp_core p) = target_publication_state (rt_shared r) → visits am p →
  rt_phase r = Active → rt_work r = WorkActive p → rt_connections r = rt_connections (rw_runtime w) →
  obs ≠ ObsUpdate GraphUpdate_Catchup → resume ≠ Draining → reconstruction_count (sn_metrics (rt_shared r)) < U64_MAX →
  (∀ u o, obs = ObsUpdate u → update_carries u o → update_meets o (am_now_ms am) (pc_view (gp_core p)) ∧
     update_fits o (am_now_ms am) (pc_view (gp_core p)) (pc_history (gp_core p))) →
  ∃ r', resumes r resume (Ready (Some obs)) am = Some r' ∧ (rt_control r' = Draining ↔ ∃ n, obs = ObsGap n).
Proof.
  intros HW Ew Hst Hv Hp Ew' Ex Hobs Hres Hrec Hu.
  assert (pc_state (gp_core p) ≠ Stale) as Hns by (rewrite Hst; unfold target_publication_state; by case_match).
  unfold resumes, handle_observation. rewrite Hp.
  assert (∀ u o, update_carries u o → obs = ObsUpdate u → ∃ r', apply_active_update o am r = Some (r', WorkerContinue)) as Happly.
  { intros u o Hc Ho. destruct (Hu u o Ho Hc). by eapply apply_active_total. }
  destruct obs as [[|c|c|]|n]; [done|..].
  - destruct (Happly (GraphUpdate_BlockCommitted c) (OriginalBlock c)) as [r1 ->]; [done..|]. run_bind.
    eexists. split; [done|]. split; [done|by intros [? [=]]].
  - destruct (Happly (GraphUpdate_VspcCommitted c) (OriginalVspc c)) as [r1 ->]; [done..|]. run_bind.
    eexists. split; [done|]. split; [done|by intros [? [=]]].
  - destruct (sn_target_live (rt_shared r)) eqn:El; unfold set_target_live; rewrite El; simpl.
    + eexists. split; [done|]. split; [done|by intros [? [=]]].
    + destruct (live_total am w p (set_snapshot (MkRuntimeSnapshot (sn_phase (rt_shared r)) true (sn_metrics (rt_shared r))) r))
        as [r1 ->]; try done.
      { rewrite Hst. unfold target_publication_state. by rewrite El. }
      simpl. eexists. split; [done|]. split; [done|by intros [? [=]]].
  - destruct (retire_total am w p HW Ew Hv r Ew' Ex) as [r1 E]. rewrite E. run_bind.
    assert (reconstruction_count (sn_metrics (rt_shared r1)) < U64_MAX) as Hr1.
    { apply retire_active_frame in E as (cx & ->). done. }
    destruct (begin_restart_total r1 Hr1) as [r2 E2]. exists r2. split; [done|]. split; [by eauto|]. intros _.
    unfold begin_restart in E2. by apply bind_Some in E2 as (s & _ & [= <-]).
Qed.

(** One poll of the observation branch: what makes the worker start over. *)
Lemma observe_outcome am w :
  world_sound base64_encode w → rt_control (rw_runtime w) = AtSelect ∨ rt_control (rw_runtime w) = AtSeed →
  admissible (RtObserve am) (rw_runtime w) → fits (RtObserve am) (rw_runtime w) →
  ∃ r', observe am (rw_runtime w) = Some r' ∧
    (rt_control r' = Draining ↔
     rt_phase (rw_runtime w) ≠ AwaitingCatchupPhase ∧
     (gap_pending (rw_runtime w) ∨
      rt_phase (rw_runtime w) ≠ Active ∧ staging_full (rw_runtime w) ∧ is_Some (observed_update (rw_runtime w)))).
Proof.
  intros HW Hc Ha (Ho & Hr & Hf). pose proof (ws_runtime _ _ HW) as [HI Hidle Hw HM]. set (r := rw_runtime w) in *.
  assert (session_ok r) as HS by done. rewrite observe_unfold.
  destruct (poll_total r HI Hidle) as [[r1 po] Ep]. rewrite Ep. run_bind.
  assert (∀ u o, po = Ready (Some (ObsUpdate u)) → update_carries u o → observed_update r = Some o) as Hou.
  { intros u o -> Hc'. unfold observed_update. rewrite Ep. destruct u, o; try done; by rewrite Hc'. }
  assert (∀ o, observed_update r = Some o → ∃ u, po = Ready (Some (ObsUpdate u)) ∧ update_carries u o) as Huo.
  { intros o. unfold observed_update. rewrite Ep. destruct po as [[[u|n]|]|]; try done. destruct u; intros [= <-]; by eexists. }
  destruct (decide (rt_phase r = AwaitingCatchupPhase)) as [Hp|Hp].
  { unfold poll_observation in Ep. rewrite Hp in Ep.
    destruct (recv_update_spec _ Hidle HI) as (i' & x & En & HI' & Hidle' & Eg & Ef & Hx). rewrite En in Ep.
    injection Ep as <- <-. destruct x as [[u|]|]; simpl.
    - unfold handle_observation. replace (rt_phase (set_ingress i' r)) with AwaitingCatchupPhase by done.
      destruct u; simpl; (eexists; split; [done|]); split; try done; by intros [? ?].
    - eexists. split; [done|]. split; [done|]. by intros [? ?].
    - eexists. split; [done|]. split; [|by intros [? ?]]. simpl. destruct Hc; congruence. }
  pose proof (poll_gap r r1 po HI Hidle Hp Ep) as Hgap.
  assert (∀ us, stream r us → ∃ i', r1 = set_ingress i' r ∧ po ≠ Ready (Some (ObsUpdate GraphUpdate_Catchup))) as Hpolled.
  { intros us Hst. destruct (polled r us r1 po HS Hst Hp Ep) as (i' & -> & _ & _ & Hpo). exists i'. split; [done|].
    intros ->. by destruct Hpo. }
  assert (∀ us, stream r us → (rt_phase r = Constructing ∨ rt_phase r = Aligning) → ∃ r',
    resumes r1 (if decide (rt_phase r1 = Constructing) then rt_control r1 else AtTop) po am = Some r' ∧
    (rt_control r' = Draining ↔ rt_phase r ≠ AwaitingCatchupPhase ∧
      (gap_pending r ∨ rt_phase r ≠ Active ∧ staging_full r ∧ is_Some (observed_update r)))) as Hconstruct.
  { intros us Hst Hph. destruct (Hpolled us Hst) as (i' & -> & Hcu). destruct po as [[obs|]|].
    - destruct (construction_total am (set_ingress i' r) obs
        (if decide (rt_phase (set_ingress i' r) = Constructing) then rt_control (set_ingress i' r) else AtTop))
        as (r' & E & Hd); [done|congruence|case_decide; simpl; [destruct Hc; congruence|done]|done|done|].
      exists r'. split; [exact E|]. rewrite Hd, Hgap. split.
      + intros [[n ->]|(Hfull & u & o & -> & Hco)]; split; try done; [left; by exists n|right].
        split_and!; [destruct Hph; congruence|exact Hfull|]. exists o. by eapply Hou.
      + intros (_ & [[n [= ->]]|(_ & Hfull & o & Hoo)]); [left; by exists n|right]. split; [exact Hfull|].
        apply Huo in Hoo as (u & [= ->] & Hco). by exists u, o.
    - eexists. split; [done|]. split; [done|]. rewrite Hgap. intros (_ & [[? [=]]|(_ & _ & o & (? & [=] & _)%Huo)]).
    - eexists. split; [done|]. split; [simpl; destruct Hc; congruence|]. rewrite Hgap.
      intros (_ & [[? [=]]|(_ & _ & o & (? & [=] & _)%Huo)]). }
  destruct Hw as [?|us Hp' Hl Ew Eq Hst|seed dn c us Hp' Hl Ew Hal Ed Hst|seed p us Hp' Hl Ew Eq Hfo Hst Hpc Hm
    |Hd|Hd|Hd]; [done|by eapply Hconstruct; eauto|by eapply Hconstruct; eauto| |destruct Hc, Hd; congruence
    |destruct Hc; congruence|destruct Hc; congruence].
  clear Hconstruct. destruct (Hpolled us Hst) as (i' & -> & Hcu).
  rewrite decide_False by (change (rt_phase r ≠ Constructing); congruence). destruct (Ha p Ew) as [Hv Hmeet].
  destruct po as [[obs|]|].
  - destruct (active_total am w p (set_ingress i' r) obs AtTop HW Ew) as (r' & E & Hd); try done; [congruence| |].
    { intros u o -> Hco. assert (observed_update r = Some o) as Hoo by by eapply Hou. split; [by apply Hmeet|by apply (Hf p)]. }
    exists r'. split; [exact E|]. rewrite Hd, Hgap. split.
    + intros [n ->]. split; [done|]. left. by exists n.
    + intros (_ & [[n [= ->]]|(? & _)]); [by exists n|done].
  - eexists. split; [done|]. split; [done|]. rewrite Hgap. by intros (_ & [[? [=]]|(? & _)]).
  - eexists. split; [done|]. split; [simpl; destruct Hc; congruence|]. rewrite Hgap. by intros (_ & [[? [=]]|(? & _)]).
Qed.

(** ** The other steps *)

Lemma finish_total am w :
  world_sound base64_encode w → (∀ p, rt_work (rw_runtime w) = WorkActive p → visits am p) →
  is_Some (worker_finish am (rw_runtime w)).
Proof.
  intros HW Hv. unfold worker_finish. destruct (rt_work (rw_runtime w)) as [|c|p] eqn:Ew.
  1, 2: unfold retire_active; rewrite Ew; by eexists.
  destruct (retire_total am w p HW Ew (Hv p eq_refl) _ Ew eq_refl) as [r1 ->]. by eexists.
Qed.

(** A round of the drain consumes a value or ends it. *)
Lemma drain_outcome r :
  runtime_inv r → rt_control r = Draining →
  ∃ r', drain r = Some r' ∧ runtime_inv r' ∧
    match outstanding (rt_ingress r) with
    | [] => rt_control r' = Drained ∨ rt_control r' = Quiescing
    | _ :: us => rt_control r' = Draining ∧ outstanding (rt_ingress r') = us
    end.
Proof.
  intros HR Hc. pose proof HR as [HI Hidle Hw HM].
  assert (is_Some (drain r)) as [r' E].
  { unfold drain, try_recv_update. destruct (recv_update_spec _ Hidle HI) as (i' & x & -> & _). cbn [mbind option_bind].
    destruct x as [[[]|]|]; by eexists. }
  exists r'. split; [done|]. split; [by eapply drain_inv|].
  pose proof (drain_inv r r' HR Hc E) as [_ _ Hw' _].
  unfold drain, try_recv_update in E. destruct (recv_update_spec _ Hidle HI) as (i' & x & En & HI' & Hidle' & Eg & Ef & Hx).
  rewrite En in E. cbn [mbind option_bind] in E. destruct x as [[u|]|].
  - destruct Hx as [Er ->]. destruct u; injection E as <-; try done.
    destruct Hw' as [? []|us ? [[]|] ?|? ? ? us ? [] ?|? ? us ? [] ?|[]|?|?]; done.
  - destruct Hx as (_ & -> & _). injection E as <-. by right.
  - destruct Hx as (_ & ->). injection E as <-. by left.
Qed.

Lemma worker_total ev w :
  world_sound base64_encode w → worker_event ev = true → admissible ev (rw_runtime w) → fits ev (rw_runtime w) →
  is_Some (runtime_step ev (rw_runtime w)).
Proof.
  intros HW Hev Ha Hf. pose proof (ws_runtime _ _ HW) as HR.
  destruct ev as [clock now draws outcome|am|available|res| | |am|ev|p cx|cx]; [..|done|done|done];
    unfold runtime_step; destruct (rt_control (rw_runtime w)) eqn:Hc; try by eexists.
  - by apply (run_top_total w).
  - destruct (observe_outcome am w) as (r' & -> & _); eauto.
  - destruct (observe_outcome am w) as (r' & -> & _); eauto.
  - case_decide; by eexists.
  - destruct Hf as (_ & Hrec & _). destruct res as [seed|[]]; simpl; [|by apply begin_restart_total..].
    destruct (from_seed_ok seed Ha) as (c & -> & _). by eexists.
  - destruct (drain_outcome _ HR Hc) as (r' & -> & _). by eexists.
  - by eapply finish_total.
  - by eapply finish_total.
  - by eapply finish_total.
Qed.

(** The drain ends after one round per outstanding value, and one more. *)
Lemma drain_terminates r :
  runtime_inv r → rt_control r = Draining →
  ∃ r', fold_m (λ r ev, runtime_step ev r) r (replicate (S (length (outstanding (rt_ingress r)))) RtDrain) = Some r' ∧
    runtime_inv r' ∧ (rt_control r' = Drained ∨ rt_control r' = Quiescing).
Proof.
  intros HR Hc. remember (outstanding (rt_ingress r)) as us eqn:Eus. revert r HR Hc Eus.
  induction us as [|u us IH]; intros r HR Hc Eus; destruct (drain_outcome r HR Hc) as (r' & E & HR' & Hr'); rewrite <-Eus in Hr'.
  - exists r'. simpl. rewrite Hc, E. by split_and!.
  - destruct Hr' as [Hc' Eo]. destruct (IH r' HR' Hc' (eq_sym Eo)) as (r2 & E2 & HR2 & Hc2). exists r2.
    split; [|done]. change (replicate (S (length (u :: us))) RtDrain) with (RtDrain :: replicate (S (length us)) (@RtDrain KH)).
    cbn [fold_m]. assert (runtime_step RtDrain r = Some r') as -> by (unfold runtime_step; by rewrite Hc). exact E2.
Qed.
End RuntimeProgress.
