(* ===== verification/Wire.v ===== *)
(** The wire codec of [crates/kgi-api-core/src/codec] and the encoding boundary
    of [encoding.rs]: the response-local hash dictionary, the data-transfer
    objects of graphs and canonical deltas with their serialization, and the
    size-limited serialization and compression of a response.

    [#[derive(Serialize)]] gives an object of the fields in the order they are
    declared; serde_json writes a value as compact text, gzip compresses it.
    Both are third-party: [JsonText] and [JsonWriter] are their documented
    contract, the compressor is a parameter. *)

From Stdlib Require Import String Ascii.
From stdpp Require Import pretty.
From S2P Require Import Prelude Model Delta GraphView History Lineage Cache Publication.
From S2P Require Import Runtime.

#[local] Open Scope N_scope.

(** * JSON values and their compact text *)

Inductive Json :=
  | JNull
  | JBool (b : bool)
  | JNumber (n : N)
  | JString (s : string)
  | JArray (l : list Json)
  | JObject (fields : list (string * Json)).

Definition quote : string := String (ascii_of_nat 34) EmptyString.

(** A string of printable characters other than the quote and the backslash is
    written without escapes. *)
Fixpoint plain (s : string) : bool :=
  match s with
  | EmptyString => true
  | String c s =>
    let n := nat_of_ascii c in
    ((32 <=? n) && (n <? 127) && negb (n =? 34) && negb (n =? 92))%nat && plain s
  end.

(** What serde_json documents of [to_vec]: the compact form of a value. *)
Class JsonText := {
  json_text : Json → string;
  text_null : json_text JNull = "null"%string;
  text_bool b : json_text (JBool b) = (if b then "true" else "false")%string;
  text_number n : json_text (JNumber n) = pretty n;
  text_string s : plain s = true → json_text (JString s) = (quote +:+ s +:+ quote)%string;
  text_array l : json_text (JArray l) = ("[" +:+ String.concat "," (json_text <$> l) +:+ "]")%string;
  text_object l : json_text (JObject l) =
    ("{" +:+ String.concat "," ((λ '(k, v), json_text (JString k) +:+ ":" +:+ json_text v) <$> l) +:+ "}")%string
}.

(** What a serialization writes piece by piece, and whether the value's own
    [Serialize] implementation went through; [to_writer] writes the pieces of
    the same text. *)
Record Serialization := MkSerialization { se_pieces : list string; se_complete : bool }.

Class JsonWriter `{JsonText} := {
  json_pieces : Json → list string;
  pieces_text j : String.concat EmptyString (json_pieces j) = json_text j
}.

(** Rust's [Serialize]. *)
Class Serialize (A : Type) := serialize : A → Json.

#[global] Instance serialize_bool : Serialize bool := JBool.
(** The unsigned integers that are written as numbers. *)
#[global] Instance serialize_uint : Serialize N := JNumber.
#[global] Instance serialize_option `{Serialize A} : Serialize (option A) :=
  λ o, match o with Some x => serialize x | None => JNull end.
#[global] Instance serialize_list `{Serialize A} : Serialize (list A) := λ l, JArray (serialize <$> l).

(** * Scalars ([scalar.rs]) *)

(** [HashRef] is [u32]. *)
Notation HashRef := N (only parsing).

Record U64Dto := MkU64Dto { u64_value : N }.
#[global] Instance serialize_u64 : Serialize U64Dto := λ x, JString (pretty (u64_value x)).

Record BlockColorDto := MkBlockColorDto { color_value : N }.
#[global] Instance serialize_color : Serialize BlockColorDto := λ x, JNumber (color_value x).

Definition BlockColorDto_from (c : BlockColor) : BlockColorDto :=
  MkBlockColorDto (match c with Gray => 0 | Blue => 1 | Red => 2 end).

(** The [Display] of a hash: 64 hexadecimal digits. *)
Class HashText `{KaspaHash} := {
  hash_text : BlockHash → string;
  hash_text_length h : String.length (hash_text h) = 64%nat;
  hash_text_plain h : plain (hash_text h) = true
}.

Section wire.
Context {KH : KaspaHash}.

Record BlockHashDto := MkBlockHashDto { hash_value : BlockHash }.
#[global] Instance serialize_hash `{!HashText} : Serialize BlockHashDto :=
  λ x, JString (hash_text (hash_value x)).

(** * The hash dictionary ([dictionary.rs]) *)

Record HashDictionary := MkHashDictionary {
  hd_hashes : list BlockHash;
  hd_references : gmap BlockHash N
}.
Definition HashDictionary_default : HashDictionary := MkHashDictionary [] ∅.

(** A conversion that interns hashes as it goes; [None] is the panic of a
    dictionary with no reference left. *)
Definition Interning (A : Type) : Type := HashDictionary → option (A * HashDictionary).
#[global] Instance interning_ret : MRet Interning := λ A x d, Some (x, d).
#[global] Instance interning_bind : MBind Interning :=
  λ A B k m d, match m d with Some (x, d) => k x d | None => None end.

Definition intern (h : BlockHash) : Interning HashRef := λ d,
  match hd_references d !! h with
  | Some reference => Some (reference, d)
  | None =>
    let reference := N.of_nat (length (hd_hashes d)) in
    _ ← assert_ (reference ≤ U32_MAX);
    Some (reference, MkHashDictionary (hd_hashes d ++ [h]) (<[h := reference]> (hd_references d)))
  end.

Definition into_hashes (d : HashDictionary) : list BlockHashDto := MkBlockHashDto <$> hd_hashes d.

Definition intern_hashes (hs : list BlockHash) : Interning (list HashRef) := mapM intern hs.

(** * Graph values ([graph.rs]) *)

Record LevelDto := MkLevelDto { ld_level : N; ld_size : N; ld_daa_score : option U64Dto }.
Definition LevelDto_new (l : N) (x : Level) : LevelDto := MkLevelDto l (size_ x) (MkU64Dto <$> daa_score x).

Record BlockCoordinateDto := MkBlockCoordinateDto { cd_level : N; cd_slot : N }.
Definition BlockCoordinateDto_from (c : BlockCoordinate) : BlockCoordinateDto :=
  MkBlockCoordinateDto (coord_level c) (coord_slot c).

Record GraphBlockDto := MkGraphBlockDto {
  bd_hash : HashRef;
  bd_coordinate : BlockCoordinateDto;
  bd_timestamp : U64Dto;
  bd_daa_score : U64Dto;
  bd_selected_parent_index : option N;
  bd_direct_parents : list HashRef;
  bd_blue_merge_set : list HashRef;
  bd_red_merge_set : list HashRef;
  bd_color : BlockColorDto;
  bd_is_in_vspc : bool
}.

(** The fields are evaluated in the order they are written. *)
Definition from_graph_block (b : GraphBlock) : Interning GraphBlockDto :=
  hash ← intern (hash b);
  parents ← intern_hashes (direct_parents b);
  blues ← intern_hashes (blue_merge_set b);
  reds ← intern_hashes (red_merge_set b);
  mret (MkGraphBlockDto hash (BlockCoordinateDto_from (coordinate b)) (MkU64Dto (timestamp b))
          (MkU64Dto (block_daa_score b)) (selected_parent_index b) parents blues reds
          (BlockColorDto_from (color b)) (is_in_vspc b)).

Record EdgeIdDto := MkEdgeIdDto { ei_parent : HashRef; ei_child : HashRef }.
Record GraphEdgeDto := MkGraphEdgeDto {
  ed_id : EdgeIdDto;
  ed_parent_coordinate : BlockCoordinateDto;
  ed_child_coordinate : BlockCoordinateDto
}.

Definition edge_id_dto (id : EdgeId) : Interning EdgeIdDto :=
  parent ← intern (parent id);
  child ← intern (child id);
  mret (MkEdgeIdDto parent child).

Definition from_graph_edge (e : GraphEdge) : Interning GraphEdgeDto :=
  id ← edge_id_dto (edge_id e);
  mret (MkGraphEdgeDto id (BlockCoordinateDto_from (parent_coordinate e))
          (BlockCoordinateDto_from (child_coordinate e))).

Record GraphDataDto := MkGraphDataDto {
  gd_hashes : list BlockHashDto;
  gd_levels : list LevelDto;
  gd_blocks : list GraphBlockDto;
  gd_edges : list GraphEdgeDto
}.

(** [blocks] and [edges] are hash maps, iterated in the orders given. *)
Definition GraphDataDto_from_view (blocks : list GraphBlock) (edges : list GraphEdge) (view : GraphView) :
    option GraphDataDto :=
  let levels := (λ '(l, s), LevelDto_new l (value s)) <$> btree_to_list (levels view) in
  '(blocks, hashes) ← mapM from_graph_block blocks HashDictionary_default;
  '(edges, hashes) ← mapM from_graph_edge edges hashes;
  Some (MkGraphDataDto (into_hashes hashes) levels blocks edges).

Record HeadSnapshotResponseDto := MkHeadSnapshotResponseDto {
  sd_publication_id : U64Dto;
  sd_revision : U64Dto;
  sd_revision_timestamp_ms : U64Dto;
  sd_low_level : N;
  sd_high_level : N;
  sd_graph : GraphDataDto
}.

Definition HeadSnapshotResponseDto_from_capture (blocks : list GraphBlock) (edges : list GraphEdge)
    (capture : GraphViewCapture) : option HeadSnapshotResponseDto :=
  let view := vcap_view capture in
  graph ← GraphDataDto_from_view blocks edges view;
  Some (MkHeadSnapshotResponseDto (MkU64Dto (vcap_publication_id capture))
          (MkU64Dto (current_revision_id view)) (MkU64Dto (current_revision_timestamp_ms view))
          (low_level (extent view)) (high_level (extent view)) graph).

(** The expectation is the panic of an invalid extent. *)
Definition etag_input (s : HeadSnapshotResponseDto) : option HeadEtagInput :=
  match LevelExtent_new (sd_low_level s) (sd_high_level s) with
  | Ok extent => Some (HeadEtagInput_new (u64_value (sd_publication_id s)) (u64_value (sd_revision s)) extent)
  | Err _ => None
  end.

(** [window.rs]. *)
Inductive GraphWindowSourceDto :=
  | SourceHead (publication_id revision revision_timestamp_ms : U64Dto) (head_high_level : N)
  | SourceDatabase.

Definition GraphWindowSourceDto_head (publication_id revision revision_timestamp_ms head_high_level : N) :
    GraphWindowSourceDto :=
  SourceHead (MkU64Dto publication_id) (MkU64Dto revision) (MkU64Dto revision_timestamp_ms) head_high_level.

Record GraphWindowResponseDto := MkGraphWindowResponseDto {
  wd_source : GraphWindowSourceDto;
  wd_resolution : GraphWindowResolution;
  wd_graph : GraphDataDto
}.

Definition GraphWindowResponseDto_from_head (blocks : list GraphBlock) (edges : list GraphEdge)
    (capture : GraphViewCapture) (head_high_level : N) (resolution : GraphWindowResolution) :
    option GraphWindowResponseDto :=
  let view := vcap_view capture in
  graph ← GraphDataDto_from_view blocks edges view;
  Some (MkGraphWindowResponseDto
          (GraphWindowSourceDto_head (vcap_publication_id capture) (current_revision_id view)
             (current_revision_timestamp_ms view) head_high_level) resolution graph).

Definition GraphWindowResponseDto_from_database (blocks : list GraphBlock) (edges : list GraphEdge)
    (view : GraphView) (resolution : GraphWindowResolution) : option GraphWindowResponseDto :=
  graph ← GraphDataDto_from_view blocks edges view;
  Some (MkGraphWindowResponseDto SourceDatabase resolution graph).

Record HeadLevelLookupResponseDto := MkHeadLevelLookupResponseDto {
  hl_publication_id : U64Dto;
  hl_revision : U64Dto;
  hl_levels : list LevelDto
}.
Definition HeadLevelLookupResponseDto_from_complete (publication_id revision : N) (levels : list (N * Level)) :
    HeadLevelLookupResponseDto :=
  MkHeadLevelLookupResponseDto (MkU64Dto publication_id) (MkU64Dto revision)
    ((λ '(l, x), LevelDto_new l x) <$> levels).

(** * Canonical deltas ([delta.rs]) *)

Record LevelValueDto := MkLevelValueDto { lv_size : N; lv_daa_score : option U64Dto }.
Definition LevelValueDto_from (x : Level) : LevelValueDto := MkLevelValueDto (size_ x) (MkU64Dto <$> daa_score x).

Record LevelMutationDto := MkLevelMutationDto { lm_level : N; lm_value : option LevelValueDto }.
Record FieldMutationDto (T : Type) := MkFieldMutationDto { fm_hash : HashRef; fm_value : T }.
#[global] Arguments MkFieldMutationDto {T} _ _.
#[global] Arguments fm_hash {T} _.
#[global] Arguments fm_value {T} _.

Record GraphDeltaEntryDto := MkGraphDeltaEntryDto {
  de_from_revision_id : U64Dto;
  de_to_revision_id : U64Dto;
  de_revision_timestamp_ms : U64Dto;
  de_head_level : N;
  de_block_upserts : list GraphBlockDto;
  de_edge_upserts : list GraphEdgeDto;
  de_level_mutations : list LevelMutationDto;
  de_is_in_vspc_mutations : list (FieldMutationDto bool);
  de_color_mutations : list (FieldMutationDto BlockColorDto)
}.

(** The orders in which one delta's hash maps are iterated. *)
Record DeltaOrder := MkDeltaOrder {
  do_blocks : list (BlockHash * option GraphBlock);
  do_edges : list (EdgeId * option GraphEdge);
  do_is_in_vspc : list (BlockHash * FieldChange bool);
  do_colors : list (BlockHash * FieldChange BlockColor)
}.

Definition order_of (d : GraphDelta) (o : DeltaOrder) : Prop :=
  do_blocks o ≡ₚ map_to_list (block_changes d) ∧ do_edges o ≡ₚ map_to_list (edge_changes d) ∧
  do_is_in_vspc o ≡ₚ map_to_list (is_in_vspc_changes d) ∧ do_colors o ≡ₚ map_to_list (color_changes d).

Definition from_delta (o : DeltaOrder) (d : GraphDelta) : Interning GraphDeltaEntryDto :=
  block_upserts ← mapM from_graph_block (omap snd (do_blocks o));
  edge_upserts ← mapM from_graph_edge (omap snd (do_edges o));
  let level_mutations := (λ c, MkLevelMutationDto (level c) (LevelValueDto_from <$> after c)) <$> level_changes d in
  is_in_vspc_mutations ← mapM (λ '(h, change),
    hash ← intern h; mret (MkFieldMutationDto hash (field_after change))) (do_is_in_vspc o);
  color_mutations ← mapM (λ '(h, change),
    hash ← intern h; mret (MkFieldMutationDto hash (BlockColorDto_from (field_after change)))) (do_colors o);
  mret (MkGraphDeltaEntryDto (MkU64Dto (from_revision_id d)) (MkU64Dto (to_revision_id d))
          (MkU64Dto (revision_timestamp_ms d)) (head_level d) block_upserts edge_upserts level_mutations
          is_in_vspc_mutations color_mutations).

Record GraphDeltaBatchDto := MkGraphDeltaBatchDto {
  db_hashes : list BlockHashDto;
  db_deltas : list GraphDeltaEntryDto
}.

Definition GraphDeltaBatchDto_from_entries (entries : list (GraphHistoryEntry * DeltaOrder)) :
    option GraphDeltaBatchDto :=
  '(deltas, hashes) ← mapM (λ '(e, o), from_delta o (he_delta e)) entries HashDictionary_default;
  Some (MkGraphDeltaBatchDto (into_hashes hashes) deltas).

(** * Derived serialization *)

Context `{!HashText}.
#[local] Open Scope string_scope.

#[global] Instance serialize_level : Serialize LevelDto := λ x,
  JObject [("level", serialize (ld_level x)); ("size", serialize (ld_size x));
           ("daa_score", serialize (ld_daa_score x))].
#[global] Instance serialize_coordinate : Serialize BlockCoordinateDto := λ x,
  JObject [("level", serialize (cd_level x)); ("slot", serialize (cd_slot x))].
#[global] Instance serialize_block : Serialize GraphBlockDto := λ x,
  JObject [("hash", serialize (bd_hash x)); ("coordinate", serialize (bd_coordinate x));
           ("timestamp", serialize (bd_timestamp x)); ("daa_score", serialize (bd_daa_score x));
           ("selected_parent_index", serialize (bd_selected_parent_index x));
           ("direct_parents", serialize (bd_direct_parents x));
           ("blue_merge_set", serialize (bd_blue_merge_set x));
           ("red_merge_set", serialize (bd_red_merge_set x));
           ("color", serialize (bd_color x)); ("is_in_vspc", serialize (bd_is_in_vspc x))].
#[global] Instance serialize_edge_id : Serialize EdgeIdDto := λ x,
  JObject [("parent", serialize (ei_parent x)); ("child", serialize (ei_child x))].
#[global] Instance serialize_edge : Serialize GraphEdgeDto := λ x,
  JObject [("id", serialize (ed_id x)); ("parent_coordinate", serialize (ed_parent_coordinate x));
           ("child_coordinate", serialize (ed_child_coordinate x))].
#[global] Instance serialize_graph : Serialize GraphDataDto := λ x,
  JObject [("hashes", serialize (gd_hashes x)); ("levels", serialize (gd_levels x));
           ("blocks", serialize (gd_blocks x)); ("edges", serialize (gd_edges x))].
#[global] Instance serialize_snapshot : Serialize HeadSnapshotResponseDto := λ x,
  JObject [("publication_id", serialize (sd_publication_id x)); ("revision", serialize (sd_revision x));
           ("revision_timestamp_ms", serialize (sd_revision_timestamp_ms x));
           ("low_level", serialize (sd_low_level x)); ("high_level", serialize (sd_high_level x));
           ("graph", serialize (sd_graph x))].

(** The tag of an internally tagged enum comes first. *)
#[global] Instance serialize_source : Serialize GraphWindowSourceDto := λ x,
  match x with
  | SourceHead publication_id revision revision_timestamp_ms head_high_level =>
    JObject [("type", JString "head"); ("publication_id", serialize publication_id);
             ("revision", serialize revision); ("revision_timestamp_ms", serialize revision_timestamp_ms);
             ("head_high_level", serialize head_high_level)]
  | SourceDatabase => JObject [("type", JString "database")]
  end.
(** [GraphWindowResolutionDto] has the fields of the resolution it is made from. *)
#[global] Instance serialize_resolution : Serialize GraphWindowResolution := λ x,
  JObject [("resolved_level", serialize (resolved_level x));
           ("effective_start_level", serialize (effective_start_level x));
           ("effective_end_level", serialize (effective_end_level x))].
#[global] Instance serialize_window : Serialize GraphWindowResponseDto := λ x,
  JObject [("source", serialize (wd_source x)); ("resolution", serialize (wd_resolution x));
           ("graph", serialize (wd_graph x))].
#[global] Instance serialize_lookup : Serialize HeadLevelLookupResponseDto := λ x,
  JObject [("publication_id", serialize (hl_publication_id x)); ("revision", serialize (hl_revision x));
           ("levels", serialize (hl_levels x))].

#[global] Instance serialize_level_value : Serialize LevelValueDto := λ x,
  JObject [("size", serialize (lv_size x)); ("daa_score", serialize (lv_daa_score x))].
#[global] Instance serialize_level_mutation : Serialize LevelMutationDto := λ x,
  JObject [("level", serialize (lm_level x)); ("value", serialize (lm_value x))].
#[global] Instance serialize_field_mutation `{Serialize T} : Serialize (FieldMutationDto T) := λ x,
  JObject [("hash", serialize (fm_hash x)); ("value", serialize (fm_value x))].
#[global] Instance serialize_entry : Serialize GraphDeltaEntryDto := λ x,
  JObject [("from_revision_id", serialize (de_from_revision_id x));
           ("to_revision_id", serialize (de_to_revision_id x));
           ("revision_timestamp_ms", serialize (de_revision_timestamp_ms x));
           ("head_level", serialize (de_head_level x));
           ("block_upserts", serialize (de_block_upserts x)); ("edge_upserts", serialize (de_edge_upserts x));
           ("level_mutations", serialize (de_level_mutations x));
           ("is_in_vspc_mutations", serialize (de_is_in_vspc_mutations x));
           ("color_mutations", serialize (de_color_mutations x))].
#[global] Instance serialize_batch : Serialize GraphDeltaBatchDto := λ x,
  JObject [("hashes", serialize (db_hashes x)); ("deltas", serialize (db_deltas x))].
End wire.

(** * Encoding ([encoding.rs]) *)

Definition MAX_UNCOMPRESSED_NON_DELTA_GRAPH_RESPONSE_BYTES : N := 16 * 1024 * 1024.

Record EncodedGraphBody := MkEncodedGraphBody { uncompressed_json_bytes : N; gzip_body : list N }.

Record DeltaEstimatorOverrun := MkDeltaEstimatorOverrun {
  estimated_raw_bytes : N;
  observed_uncompressed_json_bytes : N
}.

Definition string_len (s : string) : N := N.of_nat (String.length s).

Record LimitedJsonBuffer := MkLimitedJsonBuffer { lb_bytes : string; lb_limit : N; lb_limit_exceeded : bool }.
Definition LimitedJsonBuffer_new (limit : N) : LimitedJsonBuffer := MkLimitedJsonBuffer EmptyString limit false.

(** [write]: the number of bytes taken, all of them, or an error. *)
Definition write (input : string) (b : LimitedJsonBuffer) : LimitedJsonBuffer * Result N unit :=
  match checked_add (string_len (lb_bytes b)) (string_len input) with
  | None => (MkLimitedJsonBuffer (lb_bytes b) (lb_limit b) true, Err tt)
  | Some new_len =>
    if decide (lb_limit b < new_len) then (MkLimitedJsonBuffer (lb_bytes b) (lb_limit b) true, Err tt)
    else (MkLimitedJsonBuffer (lb_bytes b +:+ input) (lb_limit b) (lb_limit_exceeded b), Ok (string_len input))
  end.

(** [std::io::Write::write_all] over this [write]: an empty input is not
    written, any other is taken whole or refused. *)
Definition write_all (input : string) (b : LimitedJsonBuffer) : LimitedJsonBuffer * bool :=
  match input with
  | EmptyString => (b, true)
  | String _ _ => match write input b with (b, Ok _) => (b, true) | (b, Err _) => (b, false) end
  end.

(** [serde_json::to_writer]: the pieces in order, up to the first refusal. *)
Fixpoint to_writer (pieces : list string) (b : LimitedJsonBuffer) : LimitedJsonBuffer * bool :=
  match pieces with
  | [] => (b, true)
  | piece :: pieces =>
    match write_all piece b with
    | (b, true) => to_writer pieces b
    | (b, false) => (b, false)
    end
  end.

Definition encode_graph_with (value : Serialization) (compressor : string → option (list N)) :
    Result EncodedGraphBody GraphEncodingError :=
  let '(json, written) := to_writer (se_pieces value)
                            (LimitedJsonBuffer_new MAX_UNCOMPRESSED_NON_DELTA_GRAPH_RESPONSE_BYTES) in
  if negb (written && se_complete value) then
    Err (if lb_limit_exceeded json then UncompressedResponseTooLarge else Cache.Serialization)
  else
    match compressor (lb_bytes json) with
    | Some body => Ok (MkEncodedGraphBody (string_len (lb_bytes json)) body)
    | None => Err Compression
    end.

(** The overrun observed, if any, and the result; [None] is a length past [u64]. *)
Definition encode_delta_graph_with (value : Serialization) (estimated_raw_bytes : N)
    (compressor : string → option (list N)) :
    option (option DeltaEstimatorOverrun * Result EncodedGraphBody GraphEncodingError) :=
  if negb (se_complete value) then Some (None, Err Cache.Serialization)
  else
    let json := String.concat EmptyString (se_pieces value) in
    _ ← assert_ (string_len json ≤ U64_MAX);
    let overrun := if decide (MAX_UNCOMPRESSED_NON_DELTA_GRAPH_RESPONSE_BYTES < string_len json)
                   then Some (MkDeltaEstimatorOverrun estimated_raw_bytes (string_len json)) else None in
    Some (overrun, match compressor json with
                   | Some body => Ok (MkEncodedGraphBody (string_len json) body)
                   | None => Err Compression
                   end).

(** A data-transfer object always serializes. *)
Definition serialization `{JsonWriter} `{Serialize A} (x : A) : Serialization :=
  MkSerialization (json_pieces (serialize x)) true.

(** * The builders of cached responses ([publication/mod.rs]) *)

Section builders.
Context {KH : KaspaHash}.

(** The work of [encode_delta_priority] once it runs; a panic of the work is
    the executor's failure. *)
Definition delta_job `{!HashText} `{JsonWriter} (compressor : string → option (list N))
    (response : GraphDeltaBatchDto) (estimated_raw_bytes : N) : Result EncodedGraphBody EncodingSchedulerError :=
  match encode_delta_graph_with (serialization response) estimated_raw_bytes compressor with
  | Some (_, Ok encoded) => Ok encoded
  | Some (_, Err e) => Err (Encoding e)
  | None => Err BlockingExecutorFailed
  end.

(** [build_delta]: [encode] is the priority lane of the scheduler, with the
    estimate the entries were admitted with. *)
Definition build_delta (encode : GraphDeltaBatchDto → N → Result EncodedGraphBody EncodingSchedulerError)
    (entries : list (GraphHistoryEntry * DeltaOrder)) (estimated_raw_bytes target_revision : N)
    (is_size_limited : bool) : option (Result CachedDelta CacheBuildError) :=
  response ← GraphDeltaBatchDto_from_entries entries;
  match encode response estimated_raw_bytes with
  | Err e => Some (Err (BuildEncoding e))
  | Ok encoded =>
    first ← head entries;
    Some (Ok (MkCachedDelta (from_revision_id (he_delta first.1)) target_revision is_size_limited
                (uncompressed_json_bytes encoded) (gzip_body encoded)))
  end.

(** One turn of the loop of [build_head_tier]: the orders of the view's hash
    maps, the scheduler's answer, and the core found by the eligibility check
    and by the capture after a rejection. *)
Record HeadRound := MkHeadRound {
  hr_blocks : list GraphBlock;
  hr_edges : list GraphEdge;
  hr_encode : HeadSnapshotResponseDto → Result EncodedGraphBody EncodingSchedulerError;
  hr_checked : GraphPublicationCore;
  hr_recaptured : GraphPublicationCore
}.

(** The inner [None] is a loop that is still running after the rounds given. *)
Fixpoint build_head_tier (publication_id depth : N) (rounds : list HeadRound) (capture : GraphViewCapture) :
    option (option (Result CachedHeadSnapshot CacheBuildError)) :=
  match rounds with
  | [] => Some None
  | round :: rounds =>
    let view := vcap_view capture in
    response ← HeadSnapshotResponseDto_from_capture (hr_blocks round) (hr_edges round) capture;
    input ← etag_input response;
    match hr_encode round response with
    | Err e => Some (Some (Err (BuildEncoding e)))
    | Ok encoded =>
      let candidate := MkCachedHeadSnapshot depth (current_revision_id view) (current_revision_timestamp_ms view)
                         (low_level (extent view)) (high_level (extent view)) (uncompressed_json_bytes encoded)
                         (etag input) (gzip_body encoded) in
      eligible ← admits (head_eligibility_boundary (hr_checked round)) candidate;
      if (eligible : bool) then Some (Some (Ok candidate))
      else
        capture ← capture_head_tier publication_id depth (hr_recaptured round);
        build_head_tier publication_id depth rounds capture
    end
  end.
End builders.
