(* ===== verification/WireCodec.v ===== *)
(** The wire codec decoded again: what a reader of a response resolves its hash
    references to, the logic of conversions that intern hashes, and the round
    trips of graph bodies and canonical delta batches. *)

From Stdlib Require Import String.
From S2P Require Import Prelude Model Delta GraphView History Lineage Cache Publication.
From S2P Require Import Runtime Wire.

#[local] Open Scope N_scope.

Section decode.
Context {KH : KaspaHash}.
Implicit Types (hs F : list BlockHash) (d : HashDictionary).

(** * Reading a response *)

Definition resolve hs (r : HashRef) : option BlockHash := hs !! N.to_nat r.

Definition decode_color (c : BlockColorDto) : option BlockColor :=
  match color_value c with 0 => Some Gray | 1 => Some Blue | 2 => Some Red | _ => None end.

Definition decode_coordinate (c : BlockCoordinateDto) : BlockCoordinate :=
  MkBlockCoordinate (cd_level c) (cd_slot c).

Definition decode_block hs (b : GraphBlockDto) : option GraphBlock :=
  h ← resolve hs (bd_hash b);
  parents ← mapM (resolve hs) (bd_direct_parents b);
  blues ← mapM (resolve hs) (bd_blue_merge_set b);
  reds ← mapM (resolve hs) (bd_red_merge_set b);
  c ← decode_color (bd_color b);
  Some (MkGraphBlock h (decode_coordinate (bd_coordinate b)) (u64_value (bd_timestamp b))
          (u64_value (bd_daa_score b)) (bd_selected_parent_index b) parents blues reds c (bd_is_in_vspc b)).

Definition decode_edge hs (e : GraphEdgeDto) : option GraphEdge :=
  p ← resolve hs (ei_parent (ed_id e));
  c ← resolve hs (ei_child (ed_id e));
  Some (MkGraphEdge (MkEdgeId p c) (decode_coordinate (ed_parent_coordinate e))
          (decode_coordinate (ed_child_coordinate e))).

Definition decode_level (l : LevelDto) : N * Level := (ld_level l, MkLevel (ld_size l) (u64_value <$> ld_daa_score l)).

(** A graph body: its levels, blocks and edges. *)
Definition decode_graph (g : GraphDataDto) : option (list (N * Level) * list GraphBlock * list GraphEdge) :=
  let hs := hash_value <$> gd_hashes g in
  bs ← mapM (decode_block hs) (gd_blocks g);
  es ← mapM (decode_edge hs) (gd_edges g);
  Some (decode_level <$> gd_levels g, bs, es).

(** What one entry of a delta batch tells its reader. *)
Record WireDelta := MkWireDelta {
  wi_from : N;
  wi_to : N;
  wi_timestamp_ms : N;
  wi_head_level : N;
  wi_blocks : list GraphBlock;
  wi_edges : list GraphEdge;
  wi_levels : list (N * option Level);
  wi_is_in_vspc : list (BlockHash * bool);
  wi_colors : list (BlockHash * BlockColor)
}.

Definition decode_field {T U} hs (f : T → option U) (m : FieldMutationDto T) : option (BlockHash * U) :=
  h ← resolve hs (fm_hash m);
  x ← f (fm_value m);
  Some (h, x).

Definition decode_level_mutation (m : LevelMutationDto) : N * option Level :=
  (lm_level m, (λ x, MkLevel (lv_size x) (u64_value <$> lv_daa_score x)) <$> lm_value m).

Definition decode_entry hs (e : GraphDeltaEntryDto) : option WireDelta :=
  bs ← mapM (decode_block hs) (de_block_upserts e);
  es ← mapM (decode_edge hs) (de_edge_upserts e);
  ms ← mapM (decode_field hs Some) (de_is_in_vspc_mutations e);
  cs ← mapM (decode_field hs decode_color) (de_color_mutations e);
  Some (MkWireDelta (u64_value (de_from_revision_id e)) (u64_value (de_to_revision_id e))
          (u64_value (de_revision_timestamp_ms e)) (de_head_level e) bs es
          (decode_level_mutation <$> de_level_mutations e) ms cs).

Definition decode_batch (b : GraphDeltaBatchDto) : option (list WireDelta) :=
  mapM (decode_entry (hash_value <$> db_hashes b)) (db_deltas b).

(** The part of a delta that goes on the wire: target values, no removals of
    blocks or edges. *)
Definition projected (d : GraphDelta) (o : DeltaOrder) : WireDelta :=
  MkWireDelta (from_revision_id d) (to_revision_id d) (revision_timestamp_ms d) (head_level d)
    (omap snd (do_blocks o)) (omap snd (do_edges o)) ((λ c, (level c, after c)) <$> level_changes d)
    (prod_map id field_after <$> do_is_in_vspc o) (prod_map id field_after <$> do_colors o).

(** The hashes of a value, in the order they are interned. *)
Definition block_hashes (b : GraphBlock) : list BlockHash := hash b :: relationships b.
Definition edge_hashes (e : GraphEdge) : list BlockHash := [parent (edge_id e); child (edge_id e)].
Definition delta_hashes (o : DeltaOrder) : list BlockHash :=
  (omap snd (do_blocks o) ≫= block_hashes) ++ (omap snd (do_edges o) ≫= edge_hashes)
  ++ (do_is_in_vspc o).*1 ++ (do_colors o).*1.

(** * Dictionaries in first-occurrence order *)

Definition extend hs F : list BlockHash := foldl (λ hs h, if decide (h ∈ hs) then hs else hs ++ [h]) hs F.

Lemma extend_app hs F G : extend hs (F ++ G) = extend (extend hs F) G.
Proof. apply foldl_app. Qed.

Lemma extend_prefix hs F : hs `prefix_of` extend hs F.
Proof.
  revert hs; induction F as [|h F IH]; intros hs; simpl; [done|]. etrans; [|apply IH].
  case_decide; [done|]. by apply prefix_app_r.
Qed.

Lemma extend_length hs F : (length hs ≤ length (extend hs F))%nat.
Proof. apply prefix_length, extend_prefix. Qed.

Lemma elem_of_extend hs F h : h ∈ extend hs F ↔ h ∈ hs ∨ h ∈ F.
Proof.
  revert hs; induction F as [|x F IH]; intros hs; simpl; [set_solver|].
  rewrite IH. case_decide; set_solver.
Qed.

Lemma extend_NoDup hs F : NoDup hs → NoDup (extend hs F).
Proof.
  revert hs; induction F as [|h F IH]; intros hs Hnd; simpl; [done|]. apply IH. case_decide; [done|].
  apply NoDup_app. split_and!; [done|set_solver|apply NoDup_singleton].
Qed.

(** The distinct hashes are counted by the set of them. *)
Lemma extend_nil_length F : length (extend [] F) = size (list_to_set F : gset BlockHash).
Proof.
  rewrite <-(size_list_to_set (extend [] F) (C:=gset BlockHash)) by (apply extend_NoDup; constructor).
  f_equal. apply set_eq. intros h. rewrite !elem_of_list_to_set, elem_of_extend. set_solver.
Qed.

(** * Conversions that intern *)

Record dict_ok d : Prop := {
  dk_nodup : NoDup (hd_hashes d);
  dk_refs h r : hd_references d !! h = Some r ↔ hd_hashes d !! N.to_nat r = Some h;
  dk_room : N.of_nat (length (hd_hashes d)) ≤ U32_MAX + 1
}.

Lemma dict_ok_default : dict_ok HashDictionary_default.
Proof. split; simpl; [constructor|by intros|done]. Qed.

(** [encodes m F P]: the conversion interns exactly [F], in that order; it
    fails only past the last reference, and its result [x] reads as [P] says
    against any dictionary that extends the one it leaves. *)
Definition encodes {A} (m : Interning A) F (P : list BlockHash → A → Prop) : Prop :=
  ∀ d, dict_ok d →
    match m d with
    | Some (x, d') => dict_ok d' ∧ hd_hashes d' = extend (hd_hashes d) F ∧
        ∀ hs, hd_hashes d' `prefix_of` hs → P hs x
    | None => U32_MAX + 1 < N.of_nat (length (extend (hd_hashes d) F))
    end.

Lemma encodes_ret {A} (x : A) (P : list BlockHash → A → Prop) : (∀ hs, P hs x) → encodes (mret x) [] P.
Proof. intros HP d Hd. simpl. by split_and!. Qed.

Lemma encodes_bind {A B} (m : Interning A) (k : A → Interning B) F G P Q :
  encodes m F P → (∀ x, encodes (k x) G (λ hs y, P hs x → Q hs y)) → encodes (m ≫= k) (F ++ G) Q.
Proof.
  intros Hm Hk d Hd. specialize (Hm d Hd). unfold mbind, interning_bind.
  destruct (m d) as [[x d1]|]; rewrite extend_app.
  - destruct Hm as (Hd1 & E1 & HP). specialize (Hk x d1 Hd1). rewrite <-E1.
    destruct (k x d1) as [[y d2]|]; [|done]. destruct Hk as (Hd2 & E2 & HQ). split_and!; [done|done|].
    intros hs Hhs. apply HQ; [done|]. apply HP. etrans; [|done]. rewrite E2. apply extend_prefix.
  - pose proof (extend_length (extend (hd_hashes d) F) G). lia.
Qed.

Lemma encodes_weaken {A} (m : Interning A) F P Q : encodes m F P → (∀ hs x, P hs x → Q hs x) → encodes m F Q.
Proof.
  intros Hm HPQ d Hd. specialize (Hm d Hd). destruct (m d) as [[x d']|]; [|done].
  destruct Hm as (? & ? & HP). split_and!; auto.
Qed.

Lemma encodes_mapM {A B} (f : A → Interning B) (F : A → list BlockHash) (P : A → list BlockHash → B → Prop) l :
  (∀ x, encodes (f x) (F x) (P x)) → encodes (mapM f l) (l ≫= F) (λ hs ys, Forall2 (λ x y, P x hs y) l ys).
Proof.
  intros Hf. induction l as [|x l IH]; [by apply encodes_ret|]. rewrite bind_cons.
  eapply (encodes_bind (f x)); [apply Hf|]. intros y. rewrite <-(app_nil_r (l ≫= F)).
  eapply encodes_bind; [apply IH|]. intros ys. apply encodes_ret. intros hs HP Hys. by constructor.
Qed.

Lemma encodes_intern h : encodes (intern h) [h] (λ hs r, resolve hs r = Some h).
Proof.
  intros d Hd. unfold intern. destruct Hd as [Hnd Hr Hroom].
  destruct (hd_references d !! h) as [r|] eqn:Er.
  - apply Hr in Er. simpl. rewrite decide_True by (by eapply list_elem_of_lookup_2). split_and!; [done|done|].
    intros hs [k ->]. by apply lookup_app_l_Some.
  - assert (h ∉ hd_hashes d) as Hh.
    { intros [i Hi]%list_elem_of_lookup. specialize (Hr h (N.of_nat i)). rewrite Nat2N.id, Er in Hr. naive_solver. }
    simpl. rewrite decide_False by done. unfold assert_. case_decide as Hle.
    + run_bind. simpl. split_and!; [|done|].
      * split; simpl.
        -- apply NoDup_app. split_and!; [done|set_solver|apply NoDup_singleton].
        -- intros h' r'. rewrite lookup_insert_Some, lookup_app_Some, Hr. split.
           ++ intros [[<- <-]|[Hne H]]; [right; rewrite Nat2N.id, Nat.sub_diag; by split|by left].
           ++ intros [H|[Hl H]]; [right; split; [|done]; intros <-; by apply Hh; eapply list_elem_of_lookup_2|].
              left. apply list_lookup_singleton_Some in H as [H <-]. split; [done|lia].
        -- rewrite length_app. simpl. lia.
      * intros hs [k ->]. unfold resolve. rewrite Nat2N.id, lookup_app_l by (rewrite length_app; simpl; lia).
        by apply list_lookup_middle.
    + simpl. rewrite length_app. simpl. lia.
Qed.

Lemma encodes_hashes l : encodes (intern_hashes l) l (λ hs rs, mapM (resolve hs) rs = Some l).
Proof.
  assert (l ≫= (λ h, [h]) = l) as El by (induction l as [|h l IH]; csimpl; [done|]; unfold mbind in *; by rewrite IH).
  rewrite <-El at 2. eapply encodes_weaken; [apply encodes_mapM, encodes_intern|]. intros hs rs H.
  apply mapM_Some. by apply Forall2_flip in H.
Qed.

Lemma decode_color_from c : decode_color (BlockColorDto_from c) = Some c.
Proof. by destruct c. Qed.
Lemma decode_coordinate_from c : decode_coordinate (BlockCoordinateDto_from c) = c.
Proof. by destruct c. Qed.

Lemma encodes_block b : encodes (from_graph_block b) (block_hashes b) (λ hs x, decode_block hs x = Some b).
Proof.
  replace (block_hashes b) with ([hash b] ++ direct_parents b ++ blue_merge_set b ++ red_merge_set b ++ [])
    by (unfold block_hashes, relationships; by rewrite app_nil_r).
  eapply encodes_bind; [apply encodes_intern|intros h]. eapply encodes_bind; [apply encodes_hashes|intros ps].
  eapply encodes_bind; [apply encodes_hashes|intros bs]. eapply encodes_bind; [apply encodes_hashes|intros rs].
  apply encodes_ret. intros hs Hr Hb Hp Hh. unfold decode_block. simpl. rewrite Hh. run_bind. rewrite Hp. run_bind.
  rewrite Hb. run_bind. rewrite Hr. run_bind. rewrite decode_color_from, decode_coordinate_from. run_bind.
  by destruct b.
Qed.

Lemma encodes_edge e : encodes (from_graph_edge e) (edge_hashes e) (λ hs x, decode_edge hs x = Some e).
Proof.
  change (edge_hashes e) with (([parent (edge_id e)] ++ [child (edge_id e)] ++ []) ++ []).
  eapply encodes_bind.
  - eapply (encodes_bind _ _ _ _ _ (λ hs i, resolve hs (ei_parent i) = Some (parent (edge_id e)) ∧
      resolve hs (ei_child i) = Some (child (edge_id e)))); [apply encodes_intern|intros p].
    eapply encodes_bind; [apply encodes_intern|intros c]. by apply encodes_ret.
  - intros i. apply encodes_ret. intros hs [Hp Hc]. unfold decode_edge. simpl. rewrite Hp. run_bind. rewrite Hc. run_bind.
    rewrite !decode_coordinate_from. by destruct e as [[] ? ?].
Qed.

(** Decoding a list element by element. *)
Lemma Forall2_decoded {A B} (f : B → option A) (l : list A) (k : list B) :
  Forall2 (λ x y, f y = Some x) l k → mapM f k = Some l.
Proof. intros H. apply mapM_Some. by apply Forall2_flip in H. Qed.

Lemma encodes_blocks bs : encodes (mapM from_graph_block bs) (bs ≫= block_hashes) (λ hs xs, mapM (decode_block hs) xs = Some bs).
Proof. eapply encodes_weaken; [apply encodes_mapM, encodes_block|]. intros hs xs. apply Forall2_decoded. Qed.
Lemma encodes_edges es : encodes (mapM from_graph_edge es) (es ≫= edge_hashes) (λ hs xs, mapM (decode_edge hs) xs = Some es).
Proof. eapply encodes_weaken; [apply encodes_mapM, encodes_edge|]. intros hs xs. apply Forall2_decoded. Qed.

Lemma encodes_fields {T U} (g : T → U) (f : U → option T) (l : list (BlockHash * FieldChange T)) :
  (∀ x, f (g x) = Some x) →
  encodes (mapM (λ '(h, change), hash ← intern h; mret (MkFieldMutationDto hash (g (field_after change)))) l) l.*1
    (λ hs ms, mapM (decode_field hs f) ms = Some (prod_map id field_after <$> l)).
Proof.
  intros Hg. assert (l.*1 = l ≫= (λ x, [x.1] ++ [])) as ->.
  { induction l as [|x l IH]; [done|]. csimpl. by rewrite IH. }
  eapply encodes_weaken.
  - apply (encodes_mapM _ (λ x, [x.1] ++ []) (λ x hs m, decode_field hs f m = Some (prod_map id field_after x))).
    intros [h c]. eapply encodes_bind; [apply encodes_intern|intros r]. apply encodes_ret. intros hs Hr.
    unfold decode_field. simpl. rewrite Hr. run_bind. by rewrite Hg.
  - intros hs ms H. apply mapM_Some. rewrite Forall2_fmap_r. by apply Forall2_flip in H.
Qed.

Lemma encodes_delta o (d : GraphDelta) : encodes (from_delta o d) (delta_hashes o) (λ hs e, decode_entry hs e = Some (projected d o)).
Proof.
  unfold delta_hashes. rewrite <-(app_nil_r (do_colors o).*1).
  eapply encodes_bind; [apply encodes_blocks|intros bs]. eapply encodes_bind; [apply encodes_edges|intros es].
  eapply encodes_bind; [apply (encodes_fields (λ x, x) Some); done|intros ms].
  eapply encodes_bind; [apply (encodes_fields BlockColorDto_from decode_color), decode_color_from|intros cs].
  apply encodes_ret. intros hs Hc Hm He Hb. unfold decode_entry, projected. simpl.
  rewrite Hb. run_bind. rewrite He. run_bind. rewrite Hm. run_bind. rewrite Hc. run_bind. do 2 f_equal.
  rewrite <-list_fmap_compose. apply list_fmap_ext. intros _ [l x y] _. simpl. unfold decode_level_mutation. simpl.
  by destruct y as [[? []]|].
Qed.

Lemma hash_values (l : list BlockHash) : hash_value <$> (MkBlockHashDto <$> l) = l.
Proof. rewrite <-list_fmap_compose. apply list_fmap_id. Qed.

(** A conversion from the empty dictionary. *)
Lemma encodes_default {A} (m : Interning A) F P :
  encodes m F P →
  match m HashDictionary_default with
  | Some (x, d) => hd_hashes d = extend [] F ∧ N.of_nat (length (extend [] F)) ≤ U32_MAX + 1 ∧ P (extend [] F) x
  | None => U32_MAX + 1 < N.of_nat (length (extend [] F))
  end.
Proof.
  intros Hm. specialize (Hm _ dict_ok_default). destruct (m _) as [[x d]|]; [|done].
  destruct Hm as ([_ _ Hroom] & E & HP). simpl in *. rewrite E in *. by split_and!; [..|apply HP].
Qed.

(** * The round trips *)

Definition batch_hashes (entries : list (GraphHistoryEntry * DeltaOrder)) : list BlockHash :=
  entries ≫= λ '(_, o), delta_hashes o.

Lemma batch_spec entries :
  match GraphDeltaBatchDto_from_entries entries with
  | Some b => hash_value <$> db_hashes b = extend [] (batch_hashes entries) ∧
      N.of_nat (length (db_hashes b)) ≤ U32_MAX + 1 ∧
      decode_batch b = Some ((λ '(e, o), projected (he_delta e) o) <$> entries)
  | None => U32_MAX + 1 < N.of_nat (length (extend [] (batch_hashes entries)))
  end.
Proof.
  unfold GraphDeltaBatchDto_from_entries.
  pose proof (encodes_default _ _ _ (encodes_mapM (λ '(e, o), from_delta o (he_delta e)) (λ '(_, o), delta_hashes o)
    (λ '(e, o) hs x, decode_entry hs x = Some (projected (he_delta e) o)) entries
    ltac:(intros [e o]; apply encodes_delta))) as H.
  destruct (mapM (M:=Interning) _ entries _) as [[ds d]|]; run_bind; [|done]. destruct H as (E & Hroom & HP). simpl.
  unfold into_hashes, decode_batch. simpl. rewrite hash_values, length_fmap, E. split_and!; [done|done|].
  apply mapM_Some. rewrite Forall2_fmap_r. apply Forall2_flip in HP. eapply Forall2_impl; [done|]. by intros ? [].
Qed.

Definition view_hashes (bs : list GraphBlock) (es : list GraphEdge) : list BlockHash :=
  (bs ≫= block_hashes) ++ (es ≫= edge_hashes).

Lemma graph_spec bs es v :
  match GraphDataDto_from_view bs es v with
  | Some g => hash_value <$> gd_hashes g = extend [] (view_hashes bs es) ∧
      decode_graph g = Some (prod_map id value <$> btree_to_list (levels v), bs, es)
  | None => U32_MAX + 1 < N.of_nat (length (extend [] (view_hashes bs es)))
  end.
Proof.
  unfold GraphDataDto_from_view.
  assert (encodes (mapM from_graph_block bs ≫= λ x, mapM from_graph_edge es ≫= λ y, mret (x, y))
    ((bs ≫= block_hashes) ++ (es ≫= edge_hashes) ++ [])
    (λ hs p, mapM (decode_block hs) p.1 = Some bs ∧ mapM (decode_edge hs) p.2 = Some es)) as H.
  { eapply encodes_bind; [apply encodes_blocks|intros x]. eapply encodes_bind; [apply encodes_edges|intros y].
    by apply encodes_ret. }
  apply encodes_default in H. rewrite app_nil_r in H. fold (view_hashes bs es) in H.
  unfold mbind, interning_bind in H. destruct (mapM from_graph_block bs _) as [[xs d1]|]; run_bind; [|done].
  destruct (mapM from_graph_edge es d1) as [[ys d2]|]; run_bind; [|done]. simpl in H.
  destruct H as (E & Hroom & Hb & He). unfold into_hashes, decode_graph. simpl. rewrite hash_values, E.
  split; [done|]. rewrite Hb. run_bind. rewrite He. run_bind. do 3 f_equal.
  rewrite <-list_fmap_compose. apply list_fmap_ext. intros _ [l [x u]] _. simpl. unfold decode_level. simpl.
  by destruct x as [? []].
Qed.
End decode.
