(* ===== verification/WireBound.v ===== *)
(** The size of a canonical delta on the wire: the compact text of a batch is
    never longer than four times what the estimator charged its entries, so a
    batch the election admitted stays within the response limit. *)

From Stdlib Require Import String Ascii.
From stdpp Require Import pretty.
From S2P Require Import Prelude Model Delta GraphView History Lineage Cache CacheMachine.
From S2P Require Import Clients ClientsWorld Publication PublicationSteps Runtime Wire WireCodec.

#[local] Open Scope N_scope.

(** * Lengths of compact text *)

Lemma string_len_app s t : string_len (s +:+ t) = string_len s + string_len t.
Proof.
  unfold string_len. assert (String.length (s +:+ t) = String.length s + String.length t)%nat as ->; [|lia].
  induction s as [|c s IH]; [done|]. simpl. by rewrite <-IH.
Qed.

Definition sum_of {A} (f : A → N) (l : list A) : N := foldr (λ x n, f x + n) 0 l.

Lemma sum_of_le {A} (f : A → N) c l : (∀ x, x ∈ l → f x ≤ c) → sum_of f l ≤ c * N.of_nat (length l).
Proof.
  induction l as [|x l IH]; intros Hf; simpl; [lia|]. pose proof (Hf x ltac:(left)).
  specialize (IH ltac:(intros; apply Hf; by right)). lia.
Qed.

Lemma sum_of_app {A} (f : A → N) l k : sum_of f (l ++ k) = sum_of f l + sum_of f k.
Proof. induction l as [|x l IH]; simpl; [done|]. rewrite IH. lia. Qed.

Lemma sum_of_mono {A} (f g : A → N) l : (∀ x, x ∈ l → f x ≤ g x) → sum_of f l ≤ sum_of g l.
Proof.
  induction l as [|x l IH]; intros Hf; simpl; [done|]. pose proof (Hf x ltac:(left)).
  specialize (IH ltac:(intros; apply Hf; by right)). lia.
Qed.

Lemma sum_of_perm {A} (f : A → N) l k : l ≡ₚ k → sum_of f l = sum_of f k.
Proof. induction 1; simpl; lia. Qed.

Lemma concat_len sep l : string_len (String.concat sep l) ≤ sum_of (λ s, string_len s + string_len sep) l.
Proof.
  induction l as [|s l IH]; [done|]. destruct l as [|s' l]; [simpl; lia|].
  change (String.concat sep (s :: s' :: l)) with (s +:+ sep +:+ String.concat sep (s' :: l)).
  rewrite !string_len_app. simpl in *. lia.
Qed.

(** What a value costs at most: one separator is charged to every member. *)
Fixpoint json_cost (j : Json) : N :=
  match j with
  | JNull => 4
  | JBool _ => 5
  | JNumber n => string_len (pretty n)
  | JString s => string_len s + 2
  | JArray l => 2 + sum_of (λ j, json_cost j + 1) l
  | JObject l => 2 + sum_of (λ p, string_len p.1 + 4 + json_cost p.2) l
  end.

Fixpoint json_plain (j : Json) : Prop :=
  match j with
  | JString s => plain s = true
  | JArray l => foldr (λ j P, json_plain j ∧ P) True l
  | JObject l => foldr (λ p P, (plain p.1 = true ∧ json_plain p.2) ∧ P) True l
  | _ => True
  end.

Lemma json_cost_bound `{!JsonText} : ∀ j, json_plain j → string_len (json_text j) ≤ json_cost j.
Proof.
  fix IH 1. intros [|b|n|s|l|l] Hp.
  - by rewrite text_null.
  - rewrite text_bool. by destruct b.
  - by rewrite text_number.
  - rewrite text_string by done. rewrite !string_len_app. simpl. change (string_len quote) with 1. lia.
  - rewrite text_array, !string_len_app. simpl. change (string_len "[") with 1. change (string_len "]") with 1.
    pose proof (concat_len "," (json_text <$> l)) as Hc. change (string_len ",") with 1 in Hc.
    assert (sum_of (λ s, string_len s + 1) (json_text <$> l) ≤ sum_of (λ j, json_cost j + 1) l); [|lia].
    clear Hc. simpl in Hp. induction l as [|j l IHl]; [done|]. destruct Hp as [Hj Hl].
    specialize (IHl Hl). pose proof (IH j Hj). csimpl. lia.
  - rewrite text_object, !string_len_app. simpl. change (string_len "{") with 1. change (string_len "}") with 1.
    match goal with |- context [String.concat _ ?l'] => pose proof (concat_len "," l') as Hc; set (l1 := l') in * end.
    change (string_len ",") with 1 in Hc.
    assert (sum_of (λ s, string_len s + 1) l1 ≤ sum_of (λ p, string_len p.1 + 4 + json_cost p.2) l); [|lia].
    clear Hc. subst l1. simpl in Hp. induction l as [|[k j] l IHl]; [done|]. destruct Hp as [[Hk Hj] Hl].
    specialize (IHl Hl). pose proof (IH j Hj). csimpl. rewrite text_string by done. rewrite !string_len_app.
    change (string_len quote) with 1. change (string_len ":") with 1. lia.
Qed.

(** * Decimal numbers *)

Lemma pretty_go_len k x s : x < 10 ^ N.of_nat k → (String.length (pretty_N_go x s) ≤ k + String.length s)%nat.
Proof.
  revert x s. induction k as [|k IH]; intros x s Hx.
  - assert (x = 0) as -> by (simpl in Hx; lia). by rewrite pretty_N_go_0.
  - destruct (decide (x = 0)) as [->|Hne]; [rewrite pretty_N_go_0; lia|]. rewrite pretty_N_go_step by lia.
    assert (x `div` 10 < 10 ^ N.of_nat k) as Hd.
    { apply N.Div0.div_lt_upper_bound. rewrite Nat2N.inj_succ, N.pow_succ_r' in Hx. lia. }
    specialize (IH _ (String (pretty_N_char (x `mod` 10)) s) Hd). simpl in IH. lia.
Qed.

Lemma pretty_len (x : N) k : x < 10 ^ N.of_nat (S k) → string_len (pretty x) ≤ N.of_nat (S k).
Proof.
  intros Hx. unfold string_len, pretty, pretty_N. case_decide; [simpl; lia|].
  pose proof (pretty_go_len (S k) x EmptyString Hx). simpl in *. lia.
Qed.

Lemma plain_digit x : x < 10 → ∀ s, plain s = true → plain (String (pretty_N_char x) s) = true.
Proof.
  intros Hx s Hs. assert (x ∈ [0;1;2;3;4;5;6;7;8;9]) as Hin by (rewrite !elem_of_cons; lia).
  repeat (apply elem_of_cons in Hin as [->|Hin]; [done|]). by apply elem_of_nil in Hin.
Qed.

Lemma plain_pretty (x : N) : plain (pretty x) = true.
Proof.
  unfold pretty, pretty_N. case_decide; [done|].
  assert (∀ n x s, x < 10 ^ N.of_nat n → plain s = true → plain (pretty_N_go x s) = true) as Hgo.
  { induction n as [|n IH]; intros y s Hy Hs.
    - assert (y = 0) as -> by (simpl in Hy; lia). by rewrite pretty_N_go_0.
    - destruct (decide (y = 0)) as [->|Hne]; [by rewrite pretty_N_go_0|]. rewrite pretty_N_go_step by lia.
      apply IH; [|apply plain_digit; [apply N.mod_lt; lia|done]].
      apply N.Div0.div_lt_upper_bound. rewrite Nat2N.inj_succ, N.pow_succ_r' in Hy. lia. }
  apply (Hgo (S (N.to_nat x))); [|done].
  assert (x < 10 ^ x) by (apply N.pow_gt_lin_r; lia).
  eapply N.lt_le_trans; [done|]. apply N.pow_le_mono_r; lia.
Qed.

(** * What the objects of a delta cost *)

Section bound.
Context {KH : KaspaHash} {HT : HashText}.
Implicit Types (hs : list BlockHash).

(** The machine widths of the values of a delta. *)
Definition coordinate_width (c : BlockCoordinate) : Prop := coord_level c ≤ U32_MAX ∧ coord_slot c ≤ U16_MAX.

Definition block_width (b : GraphBlock) : Prop :=
  coordinate_width (coordinate b) ∧ timestamp b ≤ U64_MAX ∧ block_daa_score b ≤ U64_MAX ∧
  ∀ i, selected_parent_index b = Some i → i ≤ U32_MAX.

Definition edge_width (e : GraphEdge) : Prop :=
  coordinate_width (parent_coordinate e) ∧ coordinate_width (child_coordinate e).

Definition level_width (l : N) (x : option Level) : Prop :=
  l ≤ U32_MAX ∧ ∀ y, x = Some y → size_ y ≤ U16_MAX ∧ ∀ s, daa_score y = Some s → s ≤ U64_MAX.

Record delta_width (d : GraphDelta) : Prop := {
  dw_from : from_revision_id d ≤ U64_MAX;
  dw_to : to_revision_id d ≤ U64_MAX;
  dw_timestamp : revision_timestamp_ms d ≤ U64_MAX;
  dw_head : head_level d ≤ U32_MAX;
  dw_blocks h b : block_changes d !! h = Some (Some b) → block_width b;
  dw_edges i e : edge_changes d !! i = Some (Some e) → edge_width e;
  dw_levels c : c ∈ level_changes d → level_width (level c) (after c)
}.

Definition room hs : Prop := N.of_nat (length hs) ≤ U32_MAX + 1.

Lemma u16_len (x : N) : x ≤ U16_MAX → string_len (pretty x) ≤ 5.
Proof. intros. apply (pretty_len x 4). unfold U16_MAX in *. simpl in *. lia. Qed.
Lemma u32_len (x : N) : x ≤ U32_MAX → string_len (pretty x) ≤ 10.
Proof. intros. apply (pretty_len x 9). unfold U32_MAX in *. simpl in *. lia. Qed.
Lemma u64_len (x : N) : x ≤ U64_MAX → string_len (pretty x) ≤ 20.
Proof. intros. apply (pretty_len x 19). unfold U64_MAX in *. simpl in *. lia. Qed.

Lemma resolve_bound hs r h : room hs → resolve hs r = Some h → r ≤ U32_MAX.
Proof. intros Hr H%lookup_lt_Some. unfold room in Hr. lia. Qed.

(** Evaluates the lengths of the field names in a goal. *)
Ltac eval_names :=
  repeat match goal with
  | |- context [string_len (String ?c ?s)] =>
      let v := eval vm_compute in (string_len (String c s)) in change (string_len (String c s)) with v
  end.
Ltac cost := cbn [json_cost sum_of foldr fst snd]; eval_names.

Lemma list_cost `{Serialize A} (l : list A) : json_cost (serialize l) = 2 + sum_of (λ x, json_cost (serialize x) + 1) l.
Proof.
  unfold serialize at 1, serialize_list. cbn [json_cost]. f_equal. induction l as [|x l IH]; [done|]. csimpl. by rewrite IH.
Qed.

Lemma list_plain `{Serialize A} (l : list A) : (∀ x, x ∈ l → json_plain (serialize x)) → json_plain (serialize l).
Proof.
  unfold serialize at 2, serialize_list. cbn [json_plain]. induction l as [|x l IH]; intros Hl; [done|]. csimpl.
  split; [apply Hl; left|apply IH; intros; apply Hl; by right].
Qed.

Lemma list_cost_le `{Serialize A} (l : list A) c :
  (∀ x, x ∈ l → json_cost (serialize x) ≤ c) → json_cost (serialize l) ≤ 2 + (c + 1) * N.of_nat (length l).
Proof.
  intros Hl. rewrite list_cost. pose proof (sum_of_le (λ x, json_cost (serialize x) + 1) (c + 1) l) as Hs.
  cbn beta in Hs. specialize (Hs ltac:(intros x Hx; specialize (Hl x Hx); lia)). lia.
Qed.

(** What a list decodes to has its length, and its members are the images of its members. *)
Lemma mapM_length {A B} (f : A → option B) l k : mapM f l = Some k → length l = length k.
Proof. intros H%mapM_Some. by apply Forall2_length in H. Qed.

Lemma mapM_member {A B} (f : A → option B) l k x : mapM f l = Some k → x ∈ l → ∃ y, y ∈ k ∧ f x = Some y.
Proof.
  intros H%mapM_Some [i Hi]%list_elem_of_lookup. destruct (Forall2_lookup_l _ _ _ _ _ H Hi) as (y & Hy & Hf).
  exists y. split; [by eapply list_elem_of_lookup_2|done].
Qed.

Lemma refs_cost hs rs l : room hs → mapM (resolve hs) rs = Some l →
  json_cost (serialize rs) ≤ 2 + 11 * N.of_nat (length l).
Proof.
  intros Hroom H. rewrite <-(mapM_length _ _ _ H). apply (list_cost_le rs 10). intros r Hr.
  destruct (mapM_member _ _ _ _ H Hr) as (h & _ & Hh). by apply u32_len, (resolve_bound hs r h).
Qed.

Lemma refs_plain (rs : list N) : json_plain (serialize rs).
Proof. by apply list_plain. Qed.

Lemma option_cost {A} `{Serialize A} (o : option A) c :
  4 ≤ c → (∀ x, o = Some x → json_cost (serialize x) ≤ c) → json_cost (serialize o) ≤ c.
Proof. intros Hc Ho. destruct o as [x|]; [by apply Ho|done]. Qed.

Lemma coordinate_cost (c : BlockCoordinateDto) : coordinate_width (decode_coordinate c) → json_cost (serialize c) ≤ 36.
Proof.
  destruct c as [l s]. intros [Hl%u32_len Hs%u16_len]. simpl in *.
  unfold serialize, serialize_coordinate, serialize, serialize_uint. cost. simpl. lia.
Qed.

Lemma u16_cost (x : N) : x ≤ U16_MAX → json_cost (serialize x) ≤ 5.
Proof. apply u16_len. Qed.
Lemma u32_cost (x : N) : x ≤ U32_MAX → json_cost (serialize x) ≤ 10.
Proof. apply u32_len. Qed.
Lemma u64_cost (x : U64Dto) : u64_value x ≤ U64_MAX → json_cost (serialize x) ≤ 22.
Proof. intros H%u64_len. unfold serialize, serialize_u64. cbn [json_cost]. lia. Qed.
Lemma bool_cost (x : bool) : json_cost (serialize x) = 5.
Proof. done. Qed.
Lemma color_cost c : json_cost (serialize (BlockColorDto_from c)) = 1.
Proof. by destruct c. Qed.

Lemma u64_plain (x : U64Dto) : json_plain (serialize x).
Proof. apply plain_pretty. Qed.

Lemma decode_color_inv c c' : decode_color c = Some c' → c = BlockColorDto_from c'.
Proof.
  destruct c as [n]. unfold decode_color. simpl. destruct n as [|[[]|[]|]]; try done; by intros [= <-].
Qed.

(** What a decoded block says of the object it was read from. *)
Lemma decode_block_inv hs x b : decode_block hs x = Some b →
  resolve hs (bd_hash x) = Some (hash b) ∧ bd_coordinate x = BlockCoordinateDto_from (coordinate b) ∧
  u64_value (bd_timestamp x) = timestamp b ∧ u64_value (bd_daa_score x) = block_daa_score b ∧
  bd_selected_parent_index x = selected_parent_index b ∧ mapM (resolve hs) (bd_direct_parents x) = Some (direct_parents b) ∧
  mapM (resolve hs) (bd_blue_merge_set x) = Some (blue_merge_set b) ∧
  mapM (resolve hs) (bd_red_merge_set x) = Some (red_merge_set b) ∧ bd_color x = BlockColorDto_from (color b).
Proof.
  unfold decode_block. intros (h & Hh & (ps & Hp & (bs & Hb & (rs & Hr & (c & Hc%decode_color_inv & H)%bind_Some)
    %bind_Some)%bind_Some)%bind_Some)%bind_Some. injection H as <-. simpl. split_and!; try done.
  by destruct (bd_coordinate x).
Qed.

Lemma block_cost hs x b :
  room hs → decode_block hs x = Some b → block_width b →
  json_cost (serialize x) + 1 ≤ 4 * (BLOCK_UPSERT_BYTES + BLOCK_RELATIONSHIP_BYTES * N.of_nat (length (relationships b))).
Proof.
  intros Hroom (Hh & Ec & Et & Ed & Es & Hp & Hb & Hr & El)%decode_block_inv (Hc & Ht & Hd & Hs).
  pose proof (u32_cost _ (resolve_bound _ _ _ Hroom Hh)). pose proof (coordinate_cost (bd_coordinate x) ltac:(by rewrite Ec, decode_coordinate_from)) as Hcc.
  pose proof (u64_cost (bd_timestamp x) ltac:(by rewrite Et)). pose proof (u64_cost (bd_daa_score x) ltac:(by rewrite Ed)).
  pose proof (option_cost (bd_selected_parent_index x) 10 ltac:(done)
    ltac:(intros i Hi; apply u32_cost, Hs; by rewrite <-Es)).
  pose proof (refs_cost _ _ _ Hroom Hp). pose proof (refs_cost _ _ _ Hroom Hb). pose proof (refs_cost _ _ _ Hroom Hr).
  pose proof (color_cost (color b)) as Hcol. pose proof (bool_cost (bd_is_in_vspc x)).
  rewrite <-El in Hcol. unfold relationships. rewrite !length_app.
  unfold serialize at 1, serialize_block. cost. unfold BLOCK_UPSERT_BYTES, BLOCK_RELATIONSHIP_BYTES. lia.
Qed.

Lemma block_plain (x : GraphBlockDto) : json_plain (serialize x).
Proof.
  unfold serialize, serialize_block. cbn [json_plain foldr fst snd].
  split_and!; try done; try apply u64_plain; try apply refs_plain. by destruct (bd_selected_parent_index x).
Qed.

Lemma edge_cost hs x e : room hs → decode_edge hs x = Some e → edge_width e →
  json_cost (serialize x) + 1 ≤ 4 * EDGE_UPSERT_BYTES.
Proof.
  unfold decode_edge. intros Hroom (p & Hp & (c & Hc & H)%bind_Some)%bind_Some [W1 W2]. injection H as <-.
  pose proof (u32_cost _ (resolve_bound _ _ _ Hroom Hp)). pose proof (u32_cost _ (resolve_bound _ _ _ Hroom Hc)).
  pose proof (coordinate_cost _ W1). pose proof (coordinate_cost _ W2).
  assert (json_cost (serialize (ed_id x)) ≤ 45) by (unfold serialize at 1, serialize_edge_id; cost; lia).
  unfold serialize at 1, serialize_edge. cost. unfold EDGE_UPSERT_BYTES. lia.
Qed.

Lemma edge_plain (x : GraphEdgeDto) : json_plain (serialize x).
Proof. by repeat split. Qed.

(** * Entries *)

Definition level_estimate (v : option Level) : N :=
  match v with Some _ => LEVEL_INSTALLATION_BYTES | None => LEVEL_REMOVAL_BYTES end.

(** What the estimator charges the wire part of a delta, hashes apart. *)
Definition wire_estimate (w : WireDelta) : N :=
  ENTRY_AND_BATCH_FRAMING_BYTES
  + sum_of (λ b, BLOCK_UPSERT_BYTES + BLOCK_RELATIONSHIP_BYTES * N.of_nat (length (relationships b))) (wi_blocks w)
  + EDGE_UPSERT_BYTES * N.of_nat (length (wi_edges w))
  + sum_of (λ p, level_estimate p.2) (wi_levels w)
  + MEMBERSHIP_MUTATION_BYTES * N.of_nat (length (wi_is_in_vspc w))
  + COLOR_MUTATION_BYTES * N.of_nat (length (wi_colors w)).

Record wire_width (w : WireDelta) : Prop := {
  ww_from : wi_from w ≤ U64_MAX;
  ww_to : wi_to w ≤ U64_MAX;
  ww_timestamp : wi_timestamp_ms w ≤ U64_MAX;
  ww_head : wi_head_level w ≤ U32_MAX;
  ww_blocks b : b ∈ wi_blocks w → block_width b;
  ww_edges e : e ∈ wi_edges w → edge_width e;
  ww_levels p : p ∈ wi_levels w → level_width p.1 p.2
}.

(** The costs of a list against those of what it decodes to. *)
Lemma mapM_cost {A B} `{Serialize A} (f : A → option B) (g : B → N) l k :
  mapM f l = Some k → (∀ x y, x ∈ l → y ∈ k → f x = Some y → json_cost (serialize x) + 1 ≤ g y) →
  json_cost (serialize l) ≤ 2 + sum_of g k.
Proof.
  intros Hm%mapM_Some Hg. rewrite list_cost. induction Hm as [|x y l k Hf Hm IH]; [done|]. cbn [sum_of foldr].
  specialize (Hg x y) as Hxy. specialize (Hxy ltac:(left) ltac:(left) Hf).
  specialize (IH ltac:(intros; apply Hg; [by right|by right|done])). unfold sum_of in *. lia.
Qed.

Lemma sum_of_const {A} c (l : list A) : sum_of (λ _, c) l = c * N.of_nat (length l).
Proof. induction l as [|x l IH]; cbn [sum_of foldr length]; [lia|]. unfold sum_of in IH. lia. Qed.

Lemma level_value_cost (x : LevelValueDto) :
  lv_size x ≤ U16_MAX → (∀ s, lv_daa_score x = Some s → u64_value s ≤ U64_MAX) → json_cost (serialize x) ≤ 50.
Proof.
  intros Hx%u16_cost Hs.
  pose proof (option_cost (lv_daa_score x) 22 ltac:(done) ltac:(intros s E; apply u64_cost; by apply Hs)).
  unfold serialize at 1, serialize_level_value. cost. lia.
Qed.

Lemma level_mutation_cost m : level_width (decode_level_mutation m).1 (decode_level_mutation m).2 →
  json_cost (serialize m) + 1 ≤ 4 * level_estimate (decode_level_mutation m).2.
Proof.
  destruct m as [l v]; intros [Hl%u32_cost Hv]; simpl in *.
  assert (json_cost (serialize v) ≤ match v with Some _ => 50 | None => 4 end) as Cv.
  { destruct v as [x|]; [|done]. destruct (Hv _ eq_refl) as [Hx Hs]. apply level_value_cost; [done|].
    intros s E. apply Hs. simpl. by rewrite E. }
  unfold serialize at 1, serialize_level_mutation. cbn [lm_level lm_value]. cost. unfold serialize in Cv.
  destruct v; cbn [level_estimate fmap option_fmap option_map]; unfold LEVEL_INSTALLATION_BYTES, LEVEL_REMOVAL_BYTES; lia.
Qed.

Lemma field_cost {T U} `{Serialize T} hs (f : T → option U) (m : FieldMutationDto T) y :
  room hs → decode_field hs f m = Some y → json_cost (serialize m) ≤ 29 + json_cost (serialize (fm_value m)).
Proof.
  intros Hroom (h & Hh & _)%bind_Some. pose proof (u32_cost _ (resolve_bound _ _ _ Hroom Hh)).
  unfold serialize at 1, serialize_field_mutation. cost. lia.
Qed.

(** The framing of an entry, and its members. *)
Lemma entry_framing (x : GraphDeltaEntryDto) : json_cost (serialize x) =
  174 + json_cost (serialize (de_from_revision_id x)) + json_cost (serialize (de_to_revision_id x))
  + json_cost (serialize (de_revision_timestamp_ms x)) + json_cost (serialize (de_head_level x))
  + json_cost (serialize (de_block_upserts x)) + json_cost (serialize (de_edge_upserts x))
  + json_cost (serialize (de_level_mutations x)) + json_cost (serialize (de_is_in_vspc_mutations x))
  + json_cost (serialize (de_color_mutations x)).
Proof. unfold serialize at 1, serialize_entry. cost. unfold serialize. lia. Qed.

Lemma entry_cost hs x w : room hs → decode_entry hs x = Some w → wire_width w →
  json_cost (serialize x) + 81 ≤ 4 * wire_estimate w.
Proof.
  intros Hroom (bs & Hb & (es & He & (ms & Hm & (cs & Hc & H)%bind_Some)%bind_Some)%bind_Some)%bind_Some.
  injection H as <-. intros [W1 W2 W3 W4 W5 W6 W7]. simpl in W1, W2, W3, W4, W5, W6, W7.
  unfold wire_estimate. cbn [wi_blocks wi_edges wi_levels wi_is_in_vspc wi_colors].
  pose proof (u64_cost _ W1). pose proof (u64_cost _ W2). pose proof (u64_cost _ W3). pose proof (u32_cost _ W4).
  pose proof (mapM_cost _ (λ b, 4 * (BLOCK_UPSERT_BYTES + BLOCK_RELATIONSHIP_BYTES * N.of_nat (length (relationships b))))
    _ _ Hb ltac:(intros y b _ Hin Hd; eapply block_cost; eauto)) as Cb.
  pose proof (mapM_cost _ (λ _, 4 * EDGE_UPSERT_BYTES) _ _ He ltac:(intros y e _ Hin Hd; eapply edge_cost; eauto)) as Ce.
  pose proof (mapM_cost (λ m, Some (decode_level_mutation m)) (λ p, 4 * level_estimate p.2) (de_level_mutations x)
    (decode_level_mutation <$> de_level_mutations x)) as Cl.
  pose proof (mapM_cost _ (λ _, 4 * MEMBERSHIP_MUTATION_BYTES) _ _ Hm) as Cm.
  pose proof (mapM_cost _ (λ _, 4 * COLOR_MUTATION_BYTES) _ _ Hc) as Cc.
  rewrite sum_of_const in Ce. rewrite sum_of_const in Cm. rewrite sum_of_const in Cc.
  assert (∀ {A} (f : A → N) l, sum_of (λ x, 4 * f x) l = 4 * sum_of f l) as H4.
  { intros A f l. induction l as [|y l IH]; cbn [sum_of foldr]; [done|]. unfold sum_of in *. lia. }
  rewrite (H4 _ (λ p : N * option Level, level_estimate p.2)) in Cl.
  rewrite (H4 _ (λ b, BLOCK_UPSERT_BYTES + BLOCK_RELATIONSHIP_BYTES * N.of_nat (length (relationships b)))) in Cb.
  specialize (Cl ltac:(apply mapM_Some, Forall2_fmap_r, Forall2_same_length_lookup_2; [done|intros; congruence])
    ltac:(intros y p Hy Hp [= <-]; apply level_mutation_cost; auto)).
  specialize (Cm ltac:(intros y p _ _ Hd; pose proof (field_cost _ _ _ _ Hroom Hd) as Hf; rewrite bool_cost in Hf;
    unfold MEMBERSHIP_MUTATION_BYTES; lia)).
  specialize (Cc ltac:(intros y p _ _ Hd; pose proof (field_cost _ _ _ _ Hroom Hd) as Hf;
    apply bind_Some in Hd as (h & _ & (c & Ev%decode_color_inv & _)%bind_Some); rewrite Ev, color_cost in Hf;
    unfold COLOR_MUTATION_BYTES; lia)).
  rewrite entry_framing. unfold ENTRY_AND_BATCH_FRAMING_BYTES. lia.
Qed.

Lemma entry_plain (x : GraphDeltaEntryDto) : json_plain (serialize x).
Proof.
  unfold serialize, serialize_entry. cbn [json_plain foldr fst snd]. split_and!; try done; try apply u64_plain; apply list_plain.
  - intros. apply block_plain.
  - intros. apply edge_plain.
  - intros [l [[y [s|]]|]] _; repeat split. apply u64_plain.
  - by repeat split.
  - by repeat split.
Qed.

(** * Batches *)

Lemma add_weighted_Some e n w e' : add_weighted e n w = Some e' → e' = e + w * N.of_nat n.
Proof.
  unfold add_weighted, checked_mul. case_decide; [|done]. run_bind. intros [-> _]%checked_add_inv. lia.
Qed.

Lemma upserts_perm {K A} `{Countable K} (m : gmap K (option A)) l : l ≡ₚ map_to_list m → omap snd l ≡ₚ upserts m.
Proof. intros Hl. unfold upserts. rewrite (omap_Permutation _ _ _ Hl). f_equiv. Qed.

Lemma elem_of_order {K A} `{Countable K} (m : gmap K A) l k : l ≡ₚ map_to_list m → k ∈ l.*1 ↔ k ∈ dom m.
Proof.
  intros Hl. rewrite list_elem_of_fmap, elem_of_dom. split.
  - intros ([k' x] & -> & Hx). rewrite Hl in Hx. apply elem_of_map_to_list in Hx. by exists x.
  - intros [x Hx]. exists (k, x). split; [done|]. rewrite Hl. by apply elem_of_map_to_list.
Qed.

Lemma emitted_order d o : order_of d o → emitted_hashes d = list_to_set (delta_hashes o).
Proof.
  intros (H1 & H2 & H3 & H4). unfold emitted_hashes, delta_hashes. rewrite !list_to_set_app_L.
  rewrite (list_to_set_perm_L _ _ (bind_Permutation block_hashes _ _ (upserts_perm _ _ H1))).
  rewrite (list_to_set_perm_L _ _ (bind_Permutation edge_hashes _ _ (upserts_perm _ _ H2))).
  apply set_eq. intros h. rewrite !elem_of_union, !elem_of_list_to_set, (elem_of_order _ _ _ H3), (elem_of_order _ _ _ H4).
  unfold block_hashes, edge_hashes. tauto.
Qed.

Lemma sum_of_bind {A B} (f : A → list B) l : sum_of (λ x, N.of_nat (length (f x))) l = N.of_nat (length (l ≫= f)).
Proof. induction l as [|x l IH]; [done|]. rewrite bind_cons, length_app. cbn [sum_of foldr]. unfold sum_of in IH. lia. Qed.

Lemma sum_of_split (l : list GraphBlock) :
  sum_of (λ b, BLOCK_UPSERT_BYTES + BLOCK_RELATIONSHIP_BYTES * N.of_nat (length (relationships b))) l =
  BLOCK_UPSERT_BYTES * N.of_nat (length l) + BLOCK_RELATIONSHIP_BYTES * N.of_nat (length (l ≫= relationships)).
Proof. rewrite <-sum_of_bind. induction l as [|b l IH]; cbn [sum_of foldr length] in *; [done|]. unfold sum_of in *. lia. Qed.

Lemma sum_of_levels (l : list LevelChange) :
  sum_of (λ p, level_estimate p.2) ((λ c, (level c, after c)) <$> l) =
  LEVEL_INSTALLATION_BYTES * N.of_nat (length (filter (λ c, is_Some (after c)) l)) +
  LEVEL_REMOVAL_BYTES * N.of_nat (length l - length (filter (λ c, is_Some (after c)) l)).
Proof.
  induction l as [|c l IH]; [done|]. rewrite fmap_cons, filter_cons. cbn [sum_of foldr length snd].
  unfold sum_of in IH. rewrite IH. pose proof (length_filter (λ c, is_Some (after c)) l).
  unfold level_estimate, LEVEL_INSTALLATION_BYTES, LEVEL_REMOVAL_BYTES. case_decide as Hc; destruct (after c).
  - cbn [length]. lia.
  - by destruct Hc.
  - by destruct Hc.
  - cbn [length]. lia.
Qed.

(** The estimate is what the wire part is charged, and every hash once. *)
Lemma estimate_wire d o est : estimate_raw_delta_bytes d = Some est → order_of d o →
  est = wire_estimate (projected d o) + DISTINCT_HASH_BYTES * N.of_nat (size (list_to_set (delta_hashes o) : gset BlockHash)).
Proof.
  intros He Ho. rewrite <-(emitted_order _ _ Ho). destruct Ho as (H1 & H2 & H3 & H4).
  unfold wire_estimate, projected. cbn [wi_blocks wi_edges wi_levels wi_is_in_vspc wi_colors].
  rewrite sum_of_split, sum_of_levels, !length_fmap, H3, H4, !length_map_to_list.
  rewrite (bind_Permutation relationships _ _ (upserts_perm _ _ H1)), (upserts_perm _ _ H1), (upserts_perm _ _ H2).
  unfold estimate_raw_delta_bytes in He.
  repeat (apply bind_Some in He as (? & ?%add_weighted_Some & He)). apply add_weighted_Some in He. lia.
Qed.

Lemma projected_width d o : delta_width d → order_of d o → wire_width (projected d o).
Proof.
  intros [W1 W2 W3 W4 W5 W6 W7] (H1 & H2 & _). split; simpl; try done.
  - intros b ([h b'] & Hin & E)%list_elem_of_omap. simpl in E. subst b'. rewrite H1 in Hin.
    apply elem_of_map_to_list in Hin. eauto.
  - intros e ([i e'] & Hin & E)%list_elem_of_omap. simpl in E. subst e'. rewrite H2 in Hin.
    apply elem_of_map_to_list in Hin. eauto.
  - intros p (c & -> & Hc)%list_elem_of_fmap. by apply W7.
Qed.

(** An entry in an iteration order, charged as the history charges it. *)
Record entry_ok (p : GraphHistoryEntry * DeltaOrder) : Prop := {
  eo_order : order_of (he_delta p.1) p.2;
  eo_width : delta_width (he_delta p.1);
  eo_estimate : estimate_raw_delta_bytes (he_delta p.1) = Some (he_estimated_raw_bytes p.1)
}.

Lemma hashes_counted entries :
  N.of_nat (size (list_to_set (batch_hashes entries) : gset BlockHash)) ≤
  sum_of (λ p, N.of_nat (size (list_to_set (delta_hashes p.2) : gset BlockHash))) entries.
Proof.
  induction entries as [|[e o] entries IH]; [done|]. unfold batch_hashes in *. rewrite bind_cons, list_to_set_app_L.
  cbn [sum_of foldr snd]. unfold sum_of in IH.
  pose proof (size_union_alt (list_to_set (delta_hashes o) : gset BlockHash) (list_to_set (entries ≫= λ '(_, o), delta_hashes o))) as Hu.
  pose proof (subseteq_size (list_to_set (entries ≫= λ '(_, o), delta_hashes o) ∖ list_to_set (delta_hashes o) : gset BlockHash)
    (list_to_set (entries ≫= λ '(_, o), delta_hashes o)) ltac:(set_solver)). lia.
Qed.

Lemma hash_cost (x : BlockHashDto) : json_cost (serialize x) = 66.
Proof. unfold serialize, serialize_hash. cbn [json_cost]. unfold string_len. by rewrite hash_text_length. Qed.

Lemma batch_plain (b : GraphDeltaBatchDto) : json_plain (serialize b).
Proof.
  unfold serialize, serialize_batch. cbn [json_plain foldr fst snd]. split_and!; try done; apply list_plain.
  - intros x _. apply hash_text_plain.
  - intros x _. apply entry_plain.
Qed.

Lemma batch_framing (b : GraphDeltaBatchDto) :
  json_cost (serialize b) = 22 + json_cost (serialize (db_hashes b)) + json_cost (serialize (db_deltas b)).
Proof. unfold serialize at 1, serialize_batch. cost. unfold serialize. lia. Qed.

Lemma entries_cost hs xs entries :
  room hs → Forall entry_ok entries →
  mapM (decode_entry hs) xs = Some ((λ '(e, o), projected (he_delta e) o) <$> entries) →
  json_cost (serialize xs) + 80 * N.of_nat (length entries) ≤
    2 + 4 * sum_of (λ p, wire_estimate (projected (he_delta p.1) p.2)) entries.
Proof.
  intros Hroom Hok Hx%mapM_Some. rewrite Forall2_fmap_r in Hx. rewrite list_cost. revert xs Hx.
  induction Hok as [|[e o] entries [H1 H2 H3] _ IH]; intros xs Hx; inversion_clear Hx as [|x ? xs' ? Hd Hx'].
  { cbn [sum_of foldr length]. lia. }
  specialize (IH _ Hx'). pose proof (entry_cost _ _ _ Hroom Hd (projected_width _ _ H2 H1)).
  cbn [sum_of foldr length fst snd] in *. unfold sum_of in *. lia.
Qed.

Lemma estimates_sum entries : Forall entry_ok entries →
  sum_of (λ p, he_estimated_raw_bytes p.1) entries =
  sum_of (λ p, wire_estimate (projected (he_delta p.1) p.2)) entries +
  DISTINCT_HASH_BYTES * sum_of (λ p, N.of_nat (size (list_to_set (delta_hashes p.2) : gset BlockHash))) entries.
Proof.
  induction 1 as [|[e o] entries [H1 H2 H3] _ IH]; [done|]. cbn [sum_of foldr fst snd] in *. unfold sum_of in *.
  rewrite (estimate_wire _ _ _ H3 H1), IH. lia.
Qed.

(** The text of a batch against its estimates. *)
Lemma batch_bound `{!JsonText} entries b :
  GraphDeltaBatchDto_from_entries entries = Some b → entries ≠ [] → Forall entry_ok entries →
  string_len (json_text (serialize b)) ≤ 4 * sum_of (λ p, he_estimated_raw_bytes p.1) entries.
Proof.
  intros Hb Hne Hok. pose proof (batch_spec entries) as Hs. rewrite Hb in Hs. destruct Hs as (Eh & Hroom & Hd).
  etrans; [apply json_cost_bound, batch_plain|]. rewrite batch_framing, (estimates_sum _ Hok).
  assert (room (hash_value <$> db_hashes b)) as Hr by (unfold room; by rewrite length_fmap).
  pose proof (entries_cost _ _ _ Hr Hok Hd). pose proof (list_cost_le (db_hashes b) 66 ltac:(intros; by rewrite hash_cost)).
  pose proof (hashes_counted entries) as Hc. rewrite <-extend_nil_length, <-Eh, length_fmap in Hc.
  assert (0 < N.of_nat (length entries)) by (destruct entries; simpl; [done|lia]).
  unfold DISTINCT_HASH_BYTES. lia.
Qed.

(** Fewer hashes than estimated bytes: a conversion within [u32] references. *)
Lemma batch_total entries : Forall entry_ok entries →
  sum_of (λ p, he_estimated_raw_bytes p.1) entries ≤ U32_MAX → is_Some (GraphDeltaBatchDto_from_entries entries).
Proof.
  intros Hok Hsum. pose proof (batch_spec entries) as Hs. destruct (GraphDeltaBatchDto_from_entries entries); [done|].
  rewrite extend_nil_length in Hs. pose proof (hashes_counted entries). rewrite (estimates_sum _ Hok) in Hsum.
  unfold DISTINCT_HASH_BYTES, U32_MAX in *. lia.
Qed.
End bound.

(** * The size limit *)

Section encoding.
Implicit Types (b : LimitedJsonBuffer) (value : Serialization) (compressor : string → option (list N)).

Lemma append_assoc' (s t u : string) : s +:+ (t +:+ u) = (s +:+ t) +:+ u.
Proof. induction s as [|c s IH]; [done|]. exact (f_equal (String c) IH). Qed.
Lemma append_nil_r (s : string) : s +:+ EmptyString = s.
Proof. induction s as [|c s IH]; [done|]. exact (f_equal (String c) IH). Qed.

(** A buffer takes pieces while their total stays within the limit; one piece
    too many leaves it marked, and what it holds stays within the limit. *)
Lemma write_all_spec s b : lb_limit b ≤ U64_MAX → string_len (lb_bytes b) ≤ lb_limit b →
  write_all s b =
    if decide (string_len (lb_bytes b) + string_len s ≤ lb_limit b)
    then (MkLimitedJsonBuffer (lb_bytes b +:+ s) (lb_limit b) (lb_limit_exceeded b), true)
    else (MkLimitedJsonBuffer (lb_bytes b) (lb_limit b) true, false).
Proof.
  intros Hl Hb. unfold write_all, write, checked_add. destruct s as [|c s].
  { change (string_len "") with 0. rewrite decide_True by lia. rewrite append_nil_r. by destruct b. }
  case_decide as H1; [|by rewrite decide_False by lia]. case_decide as H2.
  - by rewrite decide_False by lia.
  - by rewrite decide_True by lia.
Qed.

Lemma concat_cons s l : String.concat EmptyString (s :: l) = s +:+ String.concat EmptyString l.
Proof. destruct l; [by rewrite append_nil_r|done]. Qed.

Lemma to_writer_spec l b : lb_limit b ≤ U64_MAX → string_len (lb_bytes b) ≤ lb_limit b →
  if decide (string_len (lb_bytes b) + string_len (String.concat EmptyString l) ≤ lb_limit b)
  then to_writer l b = (MkLimitedJsonBuffer (lb_bytes b +:+ String.concat EmptyString l) (lb_limit b) (lb_limit_exceeded b), true)
  else ∃ s, to_writer l b = (MkLimitedJsonBuffer s (lb_limit b) true, false) ∧ string_len s ≤ lb_limit b.
Proof.
  revert b. induction l as [|s l IH]; intros b Hl Hb.
  { change (string_len (String.concat "" [])) with 0. rewrite decide_True by lia. simpl. rewrite append_nil_r. by destruct b. }
  rewrite concat_cons, string_len_app. cbn [to_writer]. rewrite write_all_spec by done.
  destruct (decide (string_len (lb_bytes b) + string_len s ≤ lb_limit b)) as [Hs|Hs].
  - specialize (IH (MkLimitedJsonBuffer (lb_bytes b +:+ s) (lb_limit b) (lb_limit_exceeded b)) Hl).
    cbn [lb_bytes lb_limit lb_limit_exceeded] in IH. rewrite string_len_app in IH. specialize (IH Hs).
    case_decide; case_decide; try lia; [|done]. by rewrite append_assoc'.
  - rewrite decide_False by lia. eauto.
Qed.

(** A complete value is encoded when its text fits, whatever the pieces. *)
Lemma encode_graph_spec value compressor :
  let json := String.concat EmptyString (se_pieces value) in
  encode_graph_with value compressor =
    if decide (MAX_UNCOMPRESSED_NON_DELTA_GRAPH_RESPONSE_BYTES < string_len json) then Err UncompressedResponseTooLarge
    else if se_complete value then
      match compressor json with
      | Some body => Ok (MkEncodedGraphBody (string_len json) body)
      | None => Err Compression
      end
    else Err Cache.Serialization.
Proof.
  intros json. unfold encode_graph_with.
  pose proof (to_writer_spec (se_pieces value) (LimitedJsonBuffer_new MAX_UNCOMPRESSED_NON_DELTA_GRAPH_RESPONSE_BYTES)
    ltac:(done) ltac:(done)) as H. fold json in H. cbn [lb_bytes lb_limit lb_limit_exceeded LimitedJsonBuffer_new] in H.
  change (string_len "") with 0 in H. destruct (decide _) as [H1|H1] in H.
  - rewrite H. rewrite decide_False by lia. cbn [lb_bytes lb_limit_exceeded]. by destruct (se_complete value).
  - destruct H as (s & -> & _). rewrite decide_True by lia. done.
Qed.

Lemma encode_delta_spec value est compressor :
  se_complete value = true → string_len (String.concat EmptyString (se_pieces value)) ≤ MAX_UNCOMPRESSED_NON_DELTA_GRAPH_RESPONSE_BYTES →
  let json := String.concat EmptyString (se_pieces value) in
  encode_delta_graph_with value est compressor =
    Some (None, match compressor json with
                | Some body => Ok (MkEncodedGraphBody (string_len json) body)
                | None => Err Compression
                end).
Proof.
  intros Hc Hl json. unfold encode_delta_graph_with. rewrite Hc. cbn [negb].
  rewrite assert_true by (etrans; [exact Hl|done]). run_bind. rewrite decide_False; [done|]. by apply N.le_ngt.
Qed.
End encoding.

(** * What the history charged *)

Section charged.
Context {KH : KaspaHash}.
Implicit Types (h : GraphHistory) (w : PublicationWorld).

(** Every entry carries the estimate of its delta. *)
Definition charged h : Prop :=
  ∀ e, e ∈ gh_entries h → estimate_raw_delta_bytes (he_delta e) = Some (he_estimated_raw_bytes e).

Lemma charged_new : charged GraphHistory_new.
Proof. by intros e ?%elem_of_nil. Qed.

Lemma prune_entries_subset low es e : e ∈ prune_entries low es → e ∈ es.
Proof. induction es as [|x es IH]; simpl; [done|]. case_decide; [|done]. intros Hin. right. auto. Qed.

Lemma applied_charged u ts v h v' h' r :
  charged h → AppliedLineageUpdate_apply estimate_raw_delta_bytes u ts v h = Some (v', h', r) → charged h'.
Proof.
  intros Hc. unfold AppliedLineageUpdate_apply. case_decide as Hne; [by intros [= _ <- _]|].
  intros Happ. apply bind_Some in Happ as ([v1 [[d|]|e]] & _ & H); [|by simplify_eq..].
  apply bind_Some in H as (est & He & H). apply bind_Some in H as ([h1 a] & Ha & H).
  destruct a; [|done]. injection H as _ <- _. intros e Hin%prune_entries_subset. revert e Hin.
  unfold append in Ha. case_decide; [done|]. apply bind_Some in Ha as (s & _ & Ha). case_decide; [done|].
  apply bind_Some in Ha as (cum & _ & Ha). destruct (classify_replayability est); injection Ha as <-; simpl; intros e Hin.
  - apply elem_of_app in Hin as [Hin| ->%list_elem_of_singleton]; [by apply Hc|done].
  - by apply elem_of_nil in Hin.
Qed.

Lemma lineage_charged tr v h : lineage_run estimate_raw_delta_bytes tr v h → charged h.
Proof. induction 1; [apply charged_new|by eapply applied_charged]. Qed.

Lemma candidate_lineage tr v h : candidate_run tr v h → lineage_run estimate_raw_delta_bytes tr v h.
Proof. induction 1; [by constructor|by econstructor]. Qed.

(** The operations other than an update leave the history as it was. *)
Lemma election_core request fresh p p' r :
  reenter_canonical_delta request fresh p = Some (p', r) → gp_core p' = gp_core p.
Proof.
  unfold reenter_canonical_delta. intros H. do 4 apply bind_Some in H as (? & _ & H).
  apply bind_Some in H as ([cache res] & _ & H). by simplify_eq.
Qed.

Lemma selection_core source client interval fresh p cx p' cx' r :
  select_canonical_delta source client interval fresh p cx = Some (p', cx', r) → gp_core p' = gp_core p.
Proof.
  unfold select_canonical_delta. case_decide as H0; [by intros; simplify_eq|].
  destruct (match client with Some _ => _ | None => _ end) as [[rg cx1] valid].
  destruct valid; simpl; [|by intros; simplify_eq]. intros H. apply bind_Some in H as (c & _ & H).
  case_decide; [by simplify_eq|]. case_decide; [by simplify_eq|].
  apply bind_Some in H as (l & _ & H). apply bind_Some in H as ([] & _ & H); [|by simplify_eq].
  apply bind_Some in H as ([c' x] & _ & H). by simplify_eq.
Qed.

Lemma tier_core depth matches fresh p p' sel cap :
  head_tier depth matches fresh p = Some (p', sel, cap) → gp_core p' = gp_core p.
Proof.
  unfold head_tier. intros H. apply bind_Some in H as ([m f] & _ & H). apply bind_Some in H as (c & _ & H).
  destruct f; [by simplify_eq..|]. apply bind_Some in H as (e & _ & H). case_match; [by simplify_eq|].
  apply bind_Some in H as ([[m' a] el] & _ & H). apply bind_Some in H as (c' & _ & H).
  apply bind_Some in H as (cp & _ & H). by simplify_eq.
Qed.

Lemma announced_core order p cx p' cx' : announce_in order p cx = Some (p', cx') → gp_core p' = gp_core p.
Proof.
  unfold announce_in. destruct (gp_mutation p); [|by intros; simplify_eq].
  intros H. apply bind_Some in H as ([rg c] & _ & H). by simplify_eq.
Qed.

(** The view and the history of a publication are those of a lineage. *)
Lemma publication_lineage base64_encode w : publication_reachable base64_encode w →
  ∃ tr, lineage_run estimate_raw_delta_bytes tr (pc_view (pw_core w)) (pc_history (pw_core w)).
Proof.
  induction 1 as [w Ho|w w' _ [tr IH] Hs].
  - destruct Ho as (st & now & draws & tr & v & h & Hrun & Hnew & _). unfold GraphPublication_new in Hnew.
    apply bind_Some in Hnew as (_ & _ & Hnew). apply bind_Some in Hnew as (_ & _ & Hnew).
    case_decide; [done|]. apply bind_Some in Hnew as (_ & _ & Hnew). apply bind_Some in Hnew as (id & _ & [= Hp]).
    unfold pw_core. rewrite <-Hp. exists tr. by apply candidate_lineage.
  - destruct Hs as [u now p' r Hm Hu Hts E|p' Hm E|p' b Hm E|order p' cx' Ho E
      |source client interval fresh p' cx' r Hr Hi Hf E|rq fresh p' r Hin Hf E
      |depth matches fresh p' sel cap Hd Hf Hb E|ev c' He E|cw' rg' Hc Hz E2 E3]; unfold pw_core in *; simpl.
    + unfold apply_original_update in E. apply bind_Some in E as (_ & _ & E).
      apply bind_Some in E as ([[v h] x] & Ha & E). exists (v :: tr). eapply run_step in Ha; [|done..].
      destruct x as [[a|]|e]; [|by simplify_eq..]. apply bind_Some in E as (c & _ & E). by simplify_eq.
    + unfold transition_live in E. apply bind_Some in E as (_ & _ & E). simplify_eq. by exists tr.
    + unfold transition_stale in E. case_decide; simplify_eq; by exists tr.
    + rewrite (announced_core _ _ _ _ _ E). by exists tr.
    + rewrite (selection_core _ _ _ _ _ _ _ _ _ E). by exists tr.
    + rewrite (election_core _ _ _ _ _ E). by exists tr.
    + rewrite (tier_core _ _ _ _ _ _ _ E). by exists tr.
    + by exists tr.
    + by exists tr.
Qed.

(** * What a fitting range holds *)

Lemma linked_between f c es t ct i j e k :
  linked f c es t ct → es !! i = Some e → es !! (i + j)%nat = Some k →
  he_cumulative_estimated_bytes k - (he_cumulative_estimated_bytes e - he_estimated_raw_bytes e)
  = total_estimate (take (S j) (drop i es)).
Proof.
  intros Hl He Hk. destruct (linked_lookup _ _ _ _ _ _ _ Hl He) as (_ & _ & Ce).
  destruct (linked_lookup _ _ _ _ _ _ _ Hl Hk) as (_ & _ & Ck).
  assert (∀ a b, total_estimate (a ++ b) = total_estimate a + total_estimate b) as Happ.
  { intros a b. unfold total_estimate. induction a as [|x a IH]; simpl; [done|]. rewrite IH. lia. }
  rewrite (take_S_r _ _ _ He), Happ in Ce. simpl in Ce.
  replace (S (i + j)) with (i + S j)%nat in Ck by lia.
  assert (take (i + S j) es = take i es ++ take (S j) (drop i es)) as Et.
  { apply lookup_lt_Some in He. rewrite <-(take_drop i es) at 1.
    replace (i + S j)%nat with (length (take i es) + S j)%nat by (rewrite length_take; lia). apply take_app_add. }
  rewrite Et, Happ in Ck. lia.
Qed.

Lemma fitting_loop_sound h from requested left start fits prev candidates r :
  fitting_loop h from requested left start fits prev candidates = Some (Some r) →
  ∃ j e, gh_entries h !! (start + j)%nat = Some e ∧ fr_entries r = take (S j) (drop start (gh_entries h)) ∧
    fits (he_cumulative_estimated_bytes e - left) = true.
Proof.
  revert prev. induction candidates as [|t rest IH]; intros prev; [done|]. cbn [fitting_loop].
  intros ([] & [Ht Ht']%assert_Some & (_ & _ & (i & [-> _]%checked_add_inv & (e & He & (_ & _ & (x & Hx & H)
    %bind_Some)%bind_Some)%bind_Some)%bind_Some)%bind_Some)%bind_Some.
  apply checked_sub_inv in Hx as [-> Hle]. destruct (fits _) eqn:Ef; [|by eapply IH].
  injection H as <-. exists (N.to_nat (t - from - 1)), e. simpl. split_and!; [|f_equal; lia|done].
  rewrite <-He. f_equal. lia.
Qed.

(** Retained entries, at least one, whose estimates together fit and are what
    the range reports. *)
Lemma fitting_range_sound h from candidates fits r :
  history_inv h → fitting_range from candidates fits h = Some (Ok (Some r)) →
  (∀ e, e ∈ fr_entries r → e ∈ gh_entries h) ∧ fr_entries r ≠ [] ∧ fits (total_estimate (fr_entries r)) = true ∧
  fr_estimated_raw_bytes r = Some (total_estimate (fr_entries r)).
Proof.
  intros Hi. unfold fitting_range. destruct candidates as [|t rest]; [done|].
  repeat (case_decide as Hx; [done|clear Hx]). intros H. apply bind_Some in H as ([i|] & _ & H); [|done].
  apply bind_Some in H as (first & Hf & H). apply bind_Some in H as (left & [-> _]%checked_sub_inv & H).
  apply bind_Some in H as (x & Hx & [= ->]). apply fitting_loop_sound in Hx as (j & e & He & Er & Hfit).
  destruct (hi_linked _ Hi) as [c Hl]. rewrite (linked_between _ _ _ _ _ _ _ _ _ Hl Hf He) in Hfit. rewrite Er.
  assert (take (S j) (drop i (gh_entries h)) ≠ []) as Hne by (by rewrite (drop_S _ _ _ Hf)).
  split_and!; [|done..|].
  2: { destruct (linked_split _ _ _ _ _ i Hl) as (cm & _ & Hd); [apply lookup_lt_Some in Hf; lia|].
    destruct (linked_split _ _ _ _ _ (S j) Hd) as (cm' & Ht & _).
    { rewrite length_drop. apply lookup_lt_Some in He. lia. }
    destruct r as [t' sh es]. simpl in *. subst es. by eapply fr_estimated_raw_bytes_spec. }
  intros k Hk. apply elem_of_take in Hk as (n & Hn & _). rewrite lookup_drop in Hn. by eapply list_elem_of_lookup_2.
Qed.

(** The entries of a charged history, each in an iteration order. *)
Lemma zip_entries_ok h es os : charged h → (∀ e, e ∈ es → e ∈ gh_entries h) →
  Forall2 (λ e o, order_of (he_delta e) o ∧ delta_width (he_delta e)) es os →
  Forall entry_ok (zip es os) ∧ sum_of (λ p, he_estimated_raw_bytes p.1) (zip es os) = total_estimate es.
Proof.
  intros Hc Hin Hos. induction Hos as [|e o es os [Ho Hw] _ IH]; [by split|].
  destruct IH as [IH1 IH2]; [intros; apply Hin; by right|]. split.
  - constructor; [|done]. split; [done|done|]. apply Hc, Hin. left.
  - cbn [zip zip_with sum_of foldr fst]. unfold sum_of in IH2. by rewrite IH2.
Qed.
End charged.
