(* ===== verification/Scheduler.v ===== *)
(** The encoding scheduler of [crates/kgi-api-core/src/encoding/scheduler.rs]:
    the bounded owner of every serialization and compression.

    The scheduler's state is behind one lock.  Requests, the spawned workers and
    the calls of [shutdown] run from one locked section, completion or await to
    the next; [scheduler_step] executes one such step of one of them. *)

From S2P Require Import Prelude Model Delta GraphView History Lineage Cache.
From S2P Require Import Publication Runtime Wire.

#[local] Open Scope N_scope.

Definition MAX_GRAPH_ENCODING_JOBS : N := 4.
Definition MAX_QUEUED_GRAPH_ENCODING_JOBS : N := 32.
Definition MAX_HISTORICAL_ENCODING_JOBS : N := 2.

(** What a request is answered. *)
Notation Answer := (Result EncodedGraphBody EncodingSchedulerError).

Inductive BlockingExecutorError := MkBlockingExecutorError.
Notation BlockingResult := (Result (Result EncodedGraphBody GraphEncodingError) BlockingExecutorError).

Inductive JobClass := Priority | Historical.
#[global] Instance JobClass_eq_dec : EqDecision JobClass.
Proof. solve_decision. Defined.

Definition is_empty {A} (l : list A) : bool := match l with [] => true | _ => false end.

Section scheduler.
(** The closures handed to the blocking executor, and what each returns. *)
Context {Work : Type} (run : Work → Result EncodedGraphBody GraphEncodingError).

(** * State

    A completion is shared by a job and its request: an index into the cells of
    the world. *)

Record QueuedJob := MkQueuedJob { qj_id : N; qj_class : JobClass; qj_work : Work; qj_completion : nat }.
Record ActiveJob := MkActiveJob { ac_class : JobClass; ac_completion : nat }.

Record SchedulerState := MkSchedulerState {
  accepting : bool;
  next_id : N;
  reservations : gset N;
  priority_queue : list QueuedJob;
  historical_queue : list QueuedJob;
  active : gmap N ActiveJob;
  active_total : N;
  active_historical : N
}.

Definition SchedulerState_default : SchedulerState := MkSchedulerState true 0 ∅ [] [] ∅ 0 0.

Definition set_reservations rs s :=
  MkSchedulerState (accepting s) (next_id s) rs (priority_queue s) (historical_queue s) (active s)
    (active_total s) (active_historical s).
Definition set_queues pq hq s :=
  MkSchedulerState (accepting s) (next_id s) (reservations s) pq hq (active s) (active_total s) (active_historical s).

Definition allocate_id (s : SchedulerState) : option (SchedulerState * N) :=
  id ← checked_add (next_id s) 1;
  Some (MkSchedulerState (accepting s) id (reservations s) (priority_queue s) (historical_queue s) (active s)
          (active_total s) (active_historical s), id).

Definition queue_occupancy (s : SchedulerState) : N :=
  N.of_nat (size (reservations s) + length (priority_queue s) + length (historical_queue s)).

Definition can_start (class : JobClass) (s : SchedulerState) : bool :=
  (active_total s <? MAX_GRAPH_ENCODING_JOBS) &&
  (bool_decide (class = Priority) || (active_historical s <? MAX_HISTORICAL_ENCODING_JOBS)).

Definition queue_job (job : QueuedJob) (s : SchedulerState) : SchedulerState :=
  match qj_class job with
  | Priority => set_queues (priority_queue s ++ [job]) (historical_queue s) s
  | Historical => set_queues (priority_queue s) (historical_queue s ++ [job]) s
  end.

(** [start]; the job goes to a worker as well. *)
Definition start_job (job : QueuedJob) (s : SchedulerState) : option SchedulerState :=
  total ← checked_add (active_total s) 1;
  historical ← (if decide (qj_class job = Historical) then checked_add (active_historical s) 1
                else Some (active_historical s));
  _ ← assert_ (active s !! qj_id job = None);
  Some (MkSchedulerState (accepting s) (next_id s) (reservations s) (priority_queue s) (historical_queue s)
          (<[qj_id job := MkActiveJob (qj_class job) (qj_completion job)]> (active s)) total historical).

Definition next_queued (s : SchedulerState) : option (QueuedJob * SchedulerState) :=
  match priority_queue s with
  | job :: queue => Some (job, set_queues queue (historical_queue s) s)
  | [] =>
    if active_historical s <? MAX_HISTORICAL_ENCODING_JOBS then
      match historical_queue s with
      | job :: queue => Some (job, set_queues [] queue s)
      | [] => None
      end
    else None
  end.

(** [dispatch], with the jobs it starts; every turn raises [active_total]. *)
Fixpoint dispatch_loop (fuel : nat) (s : SchedulerState) : option (SchedulerState * list QueuedJob) :=
  match fuel with
  | O => Some (s, [])
  | S fuel =>
    if active_total s <? MAX_GRAPH_ENCODING_JOBS then
      match next_queued s with
      | None => Some (s, [])
      | Some (job, s) =>
        s ← start_job job s;
        '(s, started) ← dispatch_loop fuel s;
        Some (s, job :: started)
      end
    else Some (s, [])
  end.
Definition dispatch (s : SchedulerState) : option (SchedulerState * list QueuedJob) :=
  dispatch_loop (N.to_nat (MAX_GRAPH_ENCODING_JOBS - active_total s)) s.

Definition remove_job (queue : list QueuedJob) (id : N) : option (QueuedJob * list QueuedJob) :=
  '(position, job) ← list_find (λ job, qj_id job = id) queue;
  Some (job, delete position queue).

Definition remove_queued (id : N) (s : SchedulerState) : option (QueuedJob * SchedulerState) :=
  match remove_job (priority_queue s) id with
  | Some (job, queue) => Some (job, set_queues queue (historical_queue s) s)
  | None =>
    match remove_job (historical_queue s) id with
    | Some (job, queue) => Some (job, set_queues (priority_queue s) queue s)
    | None => None
    end
  end.

(** * The locked sections *)

Definition reserve_historical (s : SchedulerState) : option (SchedulerState * Result N EncodingSchedulerError) :=
  if negb (accepting s) then Some (s, Err ShuttingDown)
  else if decide (MAX_QUEUED_GRAPH_ENCODING_JOBS ≤ queue_occupancy s) then Some (s, Err AdmissionSaturated)
  else
    '(s, id) ← allocate_id s;
    _ ← assert_ (id ∉ reservations s);
    Some (set_reservations (reservations s ∪ {[id]}) s, Ok id).

Definition release_reservation (id : N) (s : SchedulerState) : SchedulerState :=
  set_reservations (reservations s ∖ {[id]}) s.

Record AdmittedJob := MkAdmittedJob { aj_id : N; aj_result : nat; aj_queue_timeout_applies : bool }.

(** The jobs started, and the admitted job or its refusal. *)
Definition submit (class : JobClass) (work : Work) (reservation_id : option N) (completion : nat) (s : SchedulerState) :
    option (SchedulerState * list QueuedJob * Result AdmittedJob EncodingSchedulerError) :=
  let reserved := match reservation_id with Some r => bool_decide (r ∈ reservations s) | None => true end in
  let s := match reservation_id with Some r => release_reservation r s | None => s end in
  if negb reserved then Some (s, [], Err ShuttingDown)
  else if negb (accepting s) then Some (s, [], Err ShuttingDown)
  else
    '(s, id) ← match reservation_id with Some r => Some (s, r) | None => allocate_id s end;
    let job := MkQueuedJob id class work completion in
    let starts_immediately := can_start class s && (bool_decide (class = Priority) || is_empty (priority_queue s)) in
    if starts_immediately then
      s ← start_job job s;
      Some (s, [job], Ok (MkAdmittedJob id completion false))
    else if bool_decide (reservation_id = None) && (MAX_QUEUED_GRAPH_ENCODING_JOBS <=? queue_occupancy s) then
      Some (s, [], Err AdmissionSaturated)
    else Some (queue_job job s, [], Ok (MkAdmittedJob id completion true)).

(** [cancel] and [timeout_queued]: the completion to answer, if any. *)
Definition cancel_job (id : N) (s : SchedulerState) : SchedulerState * option nat :=
  match remove_queued id s with
  | Some (job, s) => (s, Some (qj_completion job))
  | None => (s, ac_completion <$> active s !! id)
  end.
Definition timeout_queued (id : N) (s : SchedulerState) : SchedulerState * option nat :=
  match remove_queued id s with
  | Some (job, s) => (s, Some (qj_completion job))
  | None => (s, None)
  end.

(** [finish]: the completion, its answer, and the jobs started. *)
Definition finish_job (id : N) (result : BlockingResult) (s : SchedulerState) :
    option (SchedulerState * list QueuedJob * nat * Answer) :=
  finished ← active s !! id;
  total ← checked_sub (active_total s) 1;
  historical ← (if decide (ac_class finished = Historical) then checked_sub (active_historical s) 1
                else Some (active_historical s));
  let terminal :=
    if accepting s then
      match result with
      | Ok (Ok body) => Ok body
      | Ok (Err e) => Err (Encoding e)
      | Err MkBlockingExecutorError => Err BlockingExecutorFailed
      end
    else Err ShuttingDown in
  '(s, started) ← dispatch (MkSchedulerState (accepting s) (next_id s) (reservations s) (priority_queue s)
                              (historical_queue s) (delete id (active s)) total historical);
  Some (s, started, ac_completion finished, terminal).

(** [begin_shutdown]: the completions to answer. *)
Definition begin_shutdown (s : SchedulerState) : SchedulerState * list nat :=
  if accepting s then
    (MkSchedulerState false (next_id s) ∅ [] [] (active s) (active_total s) (active_historical s),
     (qj_completion <$> priority_queue s) ++ (qj_completion <$> historical_queue s) ++
     (ac_completion <$> (map_to_list (active s)).*2))
  else (s, []).

(** * The tasks *)

(** The one-shot cell of a completion: [jc_answer] once its sender was taken.
    [jc_work] is the work it is for, kept for the statements only. *)
Record JobCompletion := MkJobCompletion { jc_work : Work; jc_answer : option Answer }.
Definition JobCompletion_complete (r : Answer) (c : JobCompletion) : JobCompletion :=
  match jc_answer c with Some _ => c | None => MkJobCompletion (jc_work c) (Some r) end.

(** A request of [encode_priority], [encode_delta_priority] or a reservation's
    [encode]: waiting; having a completion answered before it ends; ended, with
    what it returned unless its future was dropped. *)
Inductive RequestState :=
  | Waiting (job : AdmittedJob)
  | Completing (c : nat) (reason : Answer) (answer : option Answer)
  | Finished (answer : option Answer).
Record Request := MkRequest { rq_completion : nat; rq_state : RequestState }.

(** The worker of a job and the task that joins it, which does nothing before
    the worker has ended: executing; answering after [finish]; after a panic,
    [record_failure]. *)
Inductive EncodingWorker :=
  | Executing (job : QueuedJob)
  | Delivering (c : nat) (r : Answer)
  | FailShutdown
  | FailDelivering (cs : list nat).

(** A call of [shutdown]. *)
Inductive ShutdownCall :=
  | SdBegin
  | SdCompleting (cs : list nat)
  | SdJoining
  | SdWatching
  | SdDone (r : Result unit EncodingSchedulerError).

Record SchedulerWorld := MkSchedulerWorld {
  sw_state : SchedulerState;
  sw_held : gset N;
  sw_completions : list JobCompletion;
  sw_workers : gmap N EncodingWorker;
  sw_requests : list Request;
  sw_tasks_closed : bool;
  sw_shutdowns : list ShutdownCall;
  sw_completion : option (Result unit EncodingSchedulerError)
}.

Definition SchedulerWorld_new : SchedulerWorld := MkSchedulerWorld SchedulerState_default ∅ [] ∅ [] false [] None.

Definition set_locked s w :=
  MkSchedulerWorld s (sw_held w) (sw_completions w) (sw_workers w) (sw_requests w) (sw_tasks_closed w)
    (sw_shutdowns w) (sw_completion w).
Definition set_held held w :=
  MkSchedulerWorld (sw_state w) held (sw_completions w) (sw_workers w) (sw_requests w) (sw_tasks_closed w)
    (sw_shutdowns w) (sw_completion w).
Definition set_worker id (x : option EncodingWorker) w :=
  MkSchedulerWorld (sw_state w) (sw_held w) (sw_completions w) (partial_alter (λ _, x) id (sw_workers w))
    (sw_requests w) (sw_tasks_closed w) (sw_shutdowns w) (sw_completion w).
Definition set_request k (x : RequestState) w :=
  MkSchedulerWorld (sw_state w) (sw_held w) (sw_completions w) (sw_workers w)
    (alter (λ rq, MkRequest (rq_completion rq) x) k (sw_requests w)) (sw_tasks_closed w)
    (sw_shutdowns w) (sw_completion w).
Definition set_shutdown k (x : ShutdownCall) w :=
  MkSchedulerWorld (sw_state w) (sw_held w) (sw_completions w) (sw_workers w) (sw_requests w) (sw_tasks_closed w)
    (<[k := x]> (sw_shutdowns w)) (sw_completion w).

(** [completion.complete] on a shared cell. *)
Definition deliver (c : nat) (r : Answer) w :=
  MkSchedulerWorld (sw_state w) (sw_held w) (alter (JobCompletion_complete r) c (sw_completions w)) (sw_workers w)
    (sw_requests w) (sw_tasks_closed w) (sw_shutdowns w) (sw_completion w).
Definition close_tasks w :=
  MkSchedulerWorld (sw_state w) (sw_held w) (sw_completions w) (sw_workers w) (sw_requests w) true
    (sw_shutdowns w) (sw_completion w).
(** [complete] of the watched completion: the first result stays. *)
Definition complete_watch (r : Result unit EncodingSchedulerError) w :=
  MkSchedulerWorld (sw_state w) (sw_held w) (sw_completions w) (sw_workers w) (sw_requests w) (sw_tasks_closed w)
    (sw_shutdowns w) (match sw_completion w with Some r' => Some r' | None => Some r end).

(** [spawn], for each started job. *)
Definition spawn_workers (jobs : list QueuedJob) w :=
  MkSchedulerWorld (sw_state w) (sw_held w) (sw_completions w)
    (foldl (λ m job, <[qj_id job := Executing job]> m) (sw_workers w) jobs)
    (sw_requests w) (sw_tasks_closed w) (sw_shutdowns w) (sw_completion w).

(** A submission and its request; a refused one drops both halves of its cell. *)
Definition submit_request (class : JobClass) (work : Work) (reservation_id : option N) (w : SchedulerWorld) :
    option SchedulerWorld :=
  '(s, started, r) ← submit class work reservation_id (length (sw_completions w)) (sw_state w);
  let w := spawn_workers started (set_locked s w) in
  Some (match r with
        | Ok job =>
          MkSchedulerWorld (sw_state w) (sw_held w) (sw_completions w ++ [MkJobCompletion work None]) (sw_workers w)
            (sw_requests w ++ [MkRequest (aj_result job) (Waiting job)]) (sw_tasks_closed w) (sw_shutdowns w)
            (sw_completion w)
        | Err _ => w
        end).

(** The locked section of [cancel] for a request that then ends with [answer]. *)
Definition cancel_request (k : nat) (job : AdmittedJob) (answer : option Answer) (w : SchedulerWorld) : SchedulerWorld :=
  let '(s, c) := cancel_job (aj_id job) (sw_state w) in
  set_request k (match c with
                 | Some c => Completing c (Err EncodingCancelled) answer
                 | None => Finished answer
                 end) (set_locked s w).

Inductive SchedulerEvent :=
  | ReserveHistorical
  | DropReservation (id : N)
  | EncodePriority (work : Work)
  | EncodeReserved (id : N) (work : Work)
  | CancelRequest (k : nat)
  | DropRequest (k : nat)
  | TimeoutRequest (k : nat)
  | ResultReady (k : nat)
  | RequestCompletes (k : nat)
  | ExecutorReturns (id : N) (failed : bool)
  | ExecutorPanics (id : N)
  | WorkerRuns (id : N)
  | ShutdownCalled
  | ShutdownRuns (k : nat).

(** The outer [None] is a step that cannot happen now, the inner one a panic. *)
Definition waiting_job (k : nat) (w : SchedulerWorld) : option AdmittedJob :=
  rq ← sw_requests w !! k;
  match rq_state rq with Waiting job => Some job | _ => None end.

Definition request_step (ev : SchedulerEvent) (w : SchedulerWorld) : option (option SchedulerWorld) :=
  match ev with
  | CancelRequest k => job ← waiting_job k w; Some (Some (cancel_request k job (Some (Err EncodingCancelled)) w))
  | DropRequest k => job ← waiting_job k w; Some (Some (cancel_request k job None w))
  | TimeoutRequest k =>
    job ← waiting_job k w;
    _ ← assert_ (aj_queue_timeout_applies job = true);
    let '(s, c) := timeout_queued (aj_id job) (sw_state w) in
    Some (Some (set_request k (match c with
                               | Some c => Completing c (Err QueueTimeout) (Some (Err QueueTimeout))
                               | None => Waiting (MkAdmittedJob (aj_id job) (aj_result job) false)
                               end) (set_locked s w)))
  | ResultReady k =>
    job ← waiting_job k w;
    cell ← sw_completions w !! aj_result job;
    r ← jc_answer cell;
    Some (Some (set_request k (Finished (Some r)) w))
  | RequestCompletes k =>
    rq ← sw_requests w !! k;
    match rq_state rq with
    | Completing c reason answer => Some (Some (set_request k (Finished answer) (deliver c reason w)))
    | _ => None
    end
  | _ => None
  end.

Definition worker_step (ev : SchedulerEvent) (w : SchedulerWorld) : option (option SchedulerWorld) :=
  match ev with
  | ExecutorReturns id failed =>
    x ← sw_workers w !! id;
    match x with
    | Executing job =>
      Some (
        '(s, started, c, r) ← finish_job (qj_id job) (if failed then Err MkBlockingExecutorError
                                                      else Ok (run (qj_work job))) (sw_state w);
        Some (spawn_workers started (set_worker id (Some (Delivering c r)) (set_locked s w))))
    | _ => None
    end
  | ExecutorPanics id =>
    x ← sw_workers w !! id;
    match x with Executing _ => Some (Some (set_worker id (Some FailShutdown) w)) | _ => None end
  | WorkerRuns id =>
    x ← sw_workers w !! id;
    match x with
    | Executing _ => None
    | Delivering c r => Some (Some (set_worker id None (deliver c r w)))
    | FailShutdown =>
      let '(s, cs) := begin_shutdown (sw_state w) in
      Some (Some (set_worker id (Some (FailDelivering cs)) (set_locked s w)))
    | FailDelivering (c :: cs) =>
      Some (Some (set_worker id (Some (FailDelivering cs)) (deliver c (Err ShuttingDown) w)))
    | FailDelivering [] =>
      Some (Some (set_worker id None (complete_watch (Err WorkerFailed) (close_tasks w))))
    end
  | _ => None
  end.

Definition shutdown_step (k : nat) (w : SchedulerWorld) : option (option SchedulerWorld) :=
  call ← sw_shutdowns w !! k;
  match call with
  | SdBegin =>
    let '(s, cs) := begin_shutdown (sw_state w) in
    Some (Some (set_shutdown k (SdCompleting cs) (set_locked s w)))
  | SdCompleting (c :: cs) => Some (Some (set_shutdown k (SdCompleting cs) (deliver c (Err ShuttingDown) w)))
  | SdCompleting [] => Some (Some (set_shutdown k SdJoining (close_tasks w)))
  | SdJoining =>
    _ ← assert_ (sw_tasks_closed w = true ∧ sw_workers w = ∅);
    Some (Some (set_shutdown k SdWatching (complete_watch (Ok tt) w)))
  | SdWatching => r ← sw_completion w; Some (Some (set_shutdown k (SdDone r) w))
  | SdDone _ => None
  end.

Definition scheduler_step (ev : SchedulerEvent) (w : SchedulerWorld) : option (option SchedulerWorld) :=
  match ev with
  | ReserveHistorical => Some (
      '(s, r) ← reserve_historical (sw_state w);
      Some (set_held (match r with Ok id => sw_held w ∪ {[id]} | Err _ => sw_held w end) (set_locked s w)))
  | DropReservation id =>
    _ ← assert_ (id ∈ sw_held w);
    Some (Some (set_held (sw_held w ∖ {[id]}) (set_locked (release_reservation id (sw_state w)) w)))
  | EncodePriority work => Some (submit_request Priority work None w)
  | EncodeReserved id work =>
    _ ← assert_ (id ∈ sw_held w);
    Some (submit_request Historical work (Some id) (set_held (sw_held w ∖ {[id]}) w))
  | CancelRequest _ | DropRequest _ | TimeoutRequest _ | ResultReady _ | RequestCompletes _ => request_step ev w
  | ExecutorReturns _ _ | ExecutorPanics _ | WorkerRuns _ => worker_step ev w
  | ShutdownCalled => Some (Some (MkSchedulerWorld (sw_state w) (sw_held w) (sw_completions w) (sw_workers w)
      (sw_requests w) (sw_tasks_closed w) (sw_shutdowns w ++ [SdBegin]) (sw_completion w)))
  | ShutdownRuns k => shutdown_step k w
  end.

Inductive scheduler_reachable : SchedulerWorld → Prop :=
  | scheduler_initial : scheduler_reachable SchedulerWorld_new
  | scheduler_next ev w w' :
      scheduler_reachable w → scheduler_step ev w = Some (Some w') → scheduler_reachable w'.
End scheduler.
