(* ===== verification/SchedulerSafety.v ===== *)
(** The invariant of the encoding scheduler: its counters, bounds and identifiers
    are exact, work never waits for a free place, and every unanswered request
    is held by the queues, an active job or an answer on its way. *)

From S2P Require Import Prelude Model Delta GraphView History Lineage Cache.
From S2P Require Import Publication Runtime Wire Scheduler.

#[local] Open Scope N_scope.

Section scheduler.
Context {Work : Type} (run : Work → Result EncodedGraphBody GraphEncodingError).
Notation QueuedJob := (@QueuedJob Work).
Notation SchedulerState := (@SchedulerState Work).
Notation SchedulerWorld := (@SchedulerWorld Work).
Notation SchedulerEvent := (@SchedulerEvent Work).
Implicit Types (s : SchedulerState) (w : SchedulerWorld) (job : QueuedJob) (jobs : list QueuedJob).

(** * The locked state *)

Definition queued s : list QueuedJob := priority_queue s ++ historical_queue s.
Definition active_of job : ActiveJob := MkActiveJob (qj_class job) (qj_completion job).
Definition count_historical (m : gmap N ActiveJob) : N :=
  N.of_nat (size (filter (λ p, ac_class p.2 = Historical) m)).

Record state_wf s : Prop := {
  wf_total : active_total s = N.of_nat (size (active s));
  wf_historical : active_historical s = count_historical (active s);
  wf_max : active_total s ≤ MAX_GRAPH_ENCODING_JOBS;
  wf_historical_max : active_historical s ≤ MAX_HISTORICAL_ENCODING_JOBS;
  wf_occupancy : queue_occupancy s ≤ MAX_QUEUED_GRAPH_ENCODING_JOBS;
  wf_priority : Forall (λ job, qj_class job = Priority) (priority_queue s);
  wf_historicals : Forall (λ job, qj_class job = Historical) (historical_queue s);
  wf_ids : NoDup (qj_id <$> queued s);
  wf_queued job : job ∈ queued s → active s !! qj_id job = None ∧ qj_id job ∉ reservations s ∧ qj_id job ≤ next_id s;
  wf_reserved id : id ∈ reservations s → active s !! id = None ∧ id ≤ next_id s;
  wf_active id a : active s !! id = Some a → id ≤ next_id s;
  wf_closed : accepting s = false → reservations s = ∅ ∧ queued s = [];
  wf_next : next_id s ≤ U64_MAX
}.

(** No queued job could start. *)
Record busy s : Prop := {
  by_priority : priority_queue s ≠ [] → active_total s = MAX_GRAPH_ENCODING_JOBS;
  by_historical : historical_queue s ≠ [] →
    active_total s = MAX_GRAPH_ENCODING_JOBS ∨ active_historical s = MAX_HISTORICAL_ENCODING_JOBS
}.

Definition insert_jobs {A} (f : QueuedJob → A) jobs (m : gmap N A) : gmap N A :=
  foldl (λ m job, <[qj_id job := f job]> m) m jobs.

Lemma lookup_insert_jobs {A} (f : QueuedJob → A) jobs m id x :
  insert_jobs f jobs m !! id = Some x →
  (∃ job, job ∈ jobs ∧ qj_id job = id ∧ x = f job) ∨ (m !! id = Some x ∧ id ∉ qj_id <$> jobs).
Proof.
  unfold insert_jobs. revert m. induction jobs as [|job jobs IH]; intros m; simpl; [intros; right; by split; [|inversion 1]|].
  intros [(j & Hj & <- & ->)|[Hm Hid]]%IH; [left; exists j; split; [by right|done]|].
  destruct (decide (id = qj_id job)) as [->|Hne].
  - rewrite lookup_insert_eq in Hm. injection Hm as <-. left. exists job. split; [by left|done].
  - rewrite lookup_insert_ne in Hm by done. right. split; [done|]. rewrite elem_of_cons. tauto.
Qed.

Lemma lookup_insert_jobs_old {A} (f : QueuedJob → A) jobs m id :
  id ∉ qj_id <$> jobs → insert_jobs f jobs m !! id = m !! id.
Proof.
  unfold insert_jobs. revert m. induction jobs as [|job jobs IH]; intros m; [done|]. csimpl.
  intros [Hne Hin]%not_elem_of_cons. rewrite IH by done. by rewrite lookup_insert_ne.
Qed.

Lemma lookup_insert_jobs_new {A} (f : QueuedJob → A) jobs m job :
  NoDup (qj_id <$> jobs) → job ∈ jobs → insert_jobs f jobs m !! qj_id job = Some (f job).
Proof.
  unfold insert_jobs. revert m. induction jobs as [|j jobs IH]; intros m; csimpl; [by intros _ ?%not_elem_of_nil|].
  intros [Hnew Hnd]%NoDup_cons [->|Hin]%elem_of_cons; [|by apply IH].
  fold (insert_jobs f jobs (<[qj_id j:=f j]> m)). by rewrite lookup_insert_jobs_old, lookup_insert_eq.
Qed.

Lemma count_historical_insert m id a : m !! id = None →
  count_historical (<[id := a]> m) = count_historical m + (if decide (ac_class a = Historical) then 1 else 0).
Proof.
  intros Hm. unfold count_historical. rewrite map_filter_insert. simpl. case_decide.
  - rewrite map_size_insert_None by (rewrite map_lookup_filter_None; by left). lia.
  - rewrite delete_id by done. lia.
Qed.
Lemma count_historical_delete m id a : m !! id = Some a →
  count_historical m = count_historical (delete id m) + (if decide (ac_class a = Historical) then 1 else 0).
Proof.
  intros Hm. rewrite <-(insert_delete_id m id a Hm) at 1. apply count_historical_insert, lookup_delete_eq.
Qed.

Lemma can_start_spec c s : can_start c s = true ↔
  active_total s < MAX_GRAPH_ENCODING_JOBS ∧ (c = Historical → active_historical s < MAX_HISTORICAL_ENCODING_JOBS).
Proof.
  unfold can_start. rewrite andb_true_iff, orb_true_iff, bool_decide_eq_true, !N.ltb_lt. destruct c; naive_solver.
Qed.

(** Starting a job that is not queued. *)
Definition started job s : SchedulerState :=
  MkSchedulerState (accepting s) (next_id s) (reservations s) (priority_queue s) (historical_queue s)
    (<[qj_id job := active_of job]> (active s)) (active_total s + 1)
    (active_historical s + (if decide (qj_class job = Historical) then 1 else 0)).

Lemma start_job_ok job s : state_wf s → can_start (qj_class job) s = true → active s !! qj_id job = None →
  qj_id job ∉ qj_id <$> queued s → qj_id job ∉ reservations s → qj_id job ≤ next_id s →
  start_job job s = Some (started job s) ∧ state_wf (started job s).
Proof.
  intros H [Ht Hh]%can_start_spec Hid Hq Hr Hle. destruct H as [H1 H2 H3 H4 H5 H6 H7 H8 H9 H10 H11 H12 H13].
  unfold MAX_GRAPH_ENCODING_JOBS, MAX_HISTORICAL_ENCODING_JOBS in *. split.
  - unfold start_job, started. rewrite checked_add_Some by (unfold U64_MAX; lia). run_bind. case_decide.
    + rewrite checked_add_Some by (unfold U64_MAX; lia). run_bind. by rewrite assert_true.
    + run_bind. rewrite checked_add_Some by (unfold U64_MAX; lia). run_bind. rewrite assert_true by done.
      run_bind. by rewrite N.add_0_r.
  - unfold started. split; cbn; try done.
    + rewrite map_size_insert_None by done. lia.
    + rewrite count_historical_insert by done. unfold active_of. simpl. by rewrite H2.
    + unfold MAX_GRAPH_ENCODING_JOBS. lia.
    + unfold MAX_HISTORICAL_ENCODING_JOBS. case_decide; [|lia]. specialize (Hh ltac:(done)). lia.
    + intros j Hj. destruct (H9 j Hj) as (? & ? & ?). split_and!; try done. rewrite lookup_insert_ne; [done|].
      intros E. apply Hq. rewrite E. by apply list_elem_of_fmap_2.
    + intros id Hin. destruct (H10 id Hin). split; [|done]. rewrite lookup_insert_ne; [done|]. by intros <-.
    + intros id a [[<- _]|[_ Ha]]%lookup_insert_Some; [done|by eapply H11].
Qed.

(** Queues that lose jobs. *)
Lemma set_queues_wf pq hq s : state_wf s → pq `sublist_of` priority_queue s → hq `sublist_of` historical_queue s →
  state_wf (set_queues pq hq s).
Proof.
  intros [H1 H2 H3 H4 H5 H6 H7 H8 H9 H10 H11 H12 H13] Hp Hh.
  assert (pq ++ hq `sublist_of` queued s) as Hs by by apply sublist_app.
  split; cbn; try done.
  - apply sublist_length in Hp, Hh. unfold queue_occupancy in *. cbn. lia.
  - rewrite Forall_forall in *. intros j Hj. apply H6. by eapply elem_of_sublist.
  - rewrite Forall_forall in *. intros j Hj. apply H7. by eapply elem_of_sublist.
  - eapply sublist_NoDup; [exact H8|]. by apply fmap_sublist.
  - intros j Hj. apply H9. by eapply elem_of_sublist.
  - intros Ha. destruct (H12 Ha) as [? Hq]. split; [done|]. rewrite Hq in Hs. by apply sublist_nil_r in Hs.
Qed.

Lemma next_queued_spec s : state_wf s → active_total s < MAX_GRAPH_ENCODING_JOBS →
  match next_queued s with
  | Some (job, s') => ∃ pq hq, s' = set_queues pq hq s ∧ pq `sublist_of` priority_queue s ∧
      hq `sublist_of` historical_queue s ∧ queued s ≡ₚ job :: queued s' ∧ can_start (qj_class job) s = true
  | None => busy s
  end.
Proof.
  intros H Ht. unfold next_queued. pose proof (wf_priority _ H) as Hp. pose proof (wf_historicals _ H) as Hh.
  unfold queued. destruct (priority_queue s) as [|job pq] eqn:Ep.
  - destruct (N.ltb_spec (active_historical s) MAX_HISTORICAL_ENCODING_JOBS) as [Hlt|Hge].
    + destruct (historical_queue s) as [|job hq] eqn:Eh; [split; intros; congruence|].
      exists [], hq. split_and!; try done; [by apply sublist_cons|].
      by apply can_start_spec.
    + split; [done|]. intros _. right. pose proof (wf_historical_max _ H). lia.
  - exists pq, (historical_queue s). split_and!; try done; [by apply sublist_cons|].
    apply can_start_spec. apply Forall_cons in Hp as [-> _]. by split.
Qed.

(** Jobs that left the queues for the workers. *)
Record advance s jobs s' : Prop := {
  ad_accepting : accepting s' = accepting s;
  ad_next : next_id s' = next_id s;
  ad_reservations : reservations s' = reservations s;
  ad_queued : queued s ≡ₚ jobs ++ queued s';
  ad_active : active s' = insert_jobs active_of jobs (active s);
  ad_ids : NoDup (qj_id <$> jobs)
}.

Lemma dispatch_loop_ok fuel s : state_wf s → MAX_GRAPH_ENCODING_JOBS ≤ active_total s + N.of_nat fuel →
  ∃ s' jobs, dispatch_loop fuel s = Some (s', jobs) ∧ state_wf s' ∧ busy s' ∧ advance s jobs s'.
Proof.
  revert s. induction fuel as [|fuel IH]; intros s H Hf; cbn [dispatch_loop].
  - exists s, []. split; [done|]. split; [done|]. split; [|by split; [..|constructor]].
    pose proof (wf_max _ H). split; intros; [|left]; lia.
  - destruct (N.ltb_spec (active_total s) MAX_GRAPH_ENCODING_JOBS) as [Hlt|Hge].
    2: { exists s, []. split; [done|]. split; [done|]. split; [|by split; [..|constructor]].
      pose proof (wf_max _ H). split; intros; [|left]; lia. }
    pose proof (next_queued_spec s H Hlt) as Hn. destruct (next_queued s) as [[job s1]|].
    2: { exists s, []. split; [done|]. split; [done|]. split; [done|]. by split; [..|constructor]. }
    destruct Hn as (pq & hq & E & Hp & Hh & Hq & Hc).
    assert (state_wf s1) as H1 by (subst s1; by apply set_queues_wf).
    assert (job ∈ queued s) as Hin by (rewrite Hq; left). destruct (wf_queued _ H _ Hin) as (Ha & Hr & Hle).
    pose proof (wf_ids _ H) as Hnd. rewrite Hq, fmap_cons in Hnd. apply NoDup_cons in Hnd as [Hnew Hnd].
    destruct (start_job_ok job s1 H1) as [E2 H2]; [by subst s1..|].
    rewrite E2. run_bind. destruct (IH (started job s1) H2) as (s' & jobs & E' & H' & Hb & [A1 A2 A3 A4 A5 A6]).
    { unfold started. subst s1. simpl. lia. }
    rewrite E'. run_bind. exists s', (job :: jobs). split; [done|]. split; [done|]. split; [done|].
    subst s1. split; try done.
    + simpl. rewrite Hq. constructor. exact A4.
    + csimpl. constructor; [|done]. intros Hj. apply Hnew. change (qj_id job ∈ qj_id <$> queued (started job (set_queues pq hq s))).
      rewrite A4, fmap_app. set_solver.
Qed.

Lemma dispatch_ok s : state_wf s →
  ∃ s' jobs, dispatch s = Some (s', jobs) ∧ state_wf s' ∧ busy s' ∧ advance s jobs s'.
Proof. intros H. apply dispatch_loop_ok; [done|]. lia. Qed.

(** ** The locked sections *)

Lemma allocate_id_ok s : state_wf s → next_id s < U64_MAX →
  ∃ s', allocate_id s = Some (s', next_id s + 1) ∧ state_wf s' ∧
    s' = MkSchedulerState (accepting s) (next_id s + 1) (reservations s) (priority_queue s) (historical_queue s)
           (active s) (active_total s) (active_historical s).
Proof.
  intros H Hlt. unfold allocate_id. rewrite checked_add_Some by lia. run_bind. eexists. split; [done|]. split; [|done].
  destruct H as [H1 H2 H3 H4 H5 H6 H7 H8 H9 H10 H11 H12 H13]. split; cbn; try done.
  - intros j Hj. destruct (H9 j Hj) as (? & ? & ?). split_and!; [done..|lia].
  - intros id Hid. destruct (H10 id Hid). split; [done|lia].
  - intros id a Ha. specialize (H11 _ _ Ha). lia.
  - lia.
Qed.

Lemma remove_job_spec (queue : list QueuedJob) id :
  match remove_job queue id with
  | Some (job, queue') => qj_id job = id ∧ queue ≡ₚ job :: queue' ∧ queue' `sublist_of` queue
  | None => id ∉ qj_id <$> queue
  end.
Proof.
  unfold remove_job. destruct (list_find _ queue) as [[i job]|] eqn:E; run_bind.
  - apply list_find_Some in E as (Hi & Hid & _). split; [done|]. split; [by apply delete_Permutation|apply sublist_delete].
  - apply list_find_None in E. rewrite list_elem_of_fmap. intros (job & -> & Hj). rewrite Forall_forall in E. by eapply E.
Qed.

Lemma remove_queued_spec id s : state_wf s →
  match remove_queued id s with
  | Some (job, s') => ∃ pq hq, s' = set_queues pq hq s ∧ qj_id job = id ∧ queued s ≡ₚ job :: queued s' ∧ state_wf s' ∧
      pq `sublist_of` priority_queue s ∧ hq `sublist_of` historical_queue s
  | None => id ∉ qj_id <$> queued s
  end.
Proof.
  intros H. unfold remove_queued, queued. pose proof (remove_job_spec (priority_queue s) id) as Hp.
  destruct (remove_job (priority_queue s) id) as [[job pq]|].
  - destruct Hp as (E & Hp & Hs). exists pq, (historical_queue s). split_and!; try done.
    + simpl. by rewrite Hp.
    + by apply set_queues_wf.
  - pose proof (remove_job_spec (historical_queue s) id) as Hh. destruct (remove_job (historical_queue s) id) as [[job hq]|].
    + destruct Hh as (E & Hh & Hs). exists (priority_queue s), hq. split_and!; try done.
      * simpl. rewrite Hh. by rewrite Permutation_middle.
      * by apply set_queues_wf.
    + rewrite fmap_app, elem_of_app. tauto.
Qed.

Lemma busy_shrink pq hq s : busy s → pq `sublist_of` priority_queue s → hq `sublist_of` historical_queue s →
  busy (set_queues pq hq s).
Proof.
  intros [Hp Hh] Sp Sh. split; cbn; intros Hne; [apply Hp|apply Hh]; intros E; rewrite E in *.
  - by apply sublist_nil_r in Sp.
  - by apply sublist_nil_r in Sh.
Qed.

(** The state [finish] dispatches from. *)
Definition removed id (a : ActiveJob) s : SchedulerState :=
  MkSchedulerState (accepting s) (next_id s) (reservations s) (priority_queue s) (historical_queue s)
    (delete id (active s)) (active_total s - 1)
    (active_historical s - (if decide (ac_class a = Historical) then 1 else 0)).

Lemma removed_wf id a s : state_wf s → active s !! id = Some a →
  1 ≤ active_total s ∧ (ac_class a = Historical → 1 ≤ active_historical s) ∧ state_wf (removed id a s).
Proof.
  intros [H1 H2 H3 H4 H5 H6 H7 H8 H9 H10 H11 H12 H13] Ha.
  pose proof (count_historical_delete _ _ _ Ha) as Hc.
  assert (size (active s) = S (size (delete id (active s)))) as Hsz.
  { rewrite <-(insert_delete_id _ _ _ Ha) at 1. apply map_size_insert_None, lookup_delete_eq. }
  split; [lia|]. split; [intros Hh; rewrite decide_True in Hc by done; lia|].
  split; cbn; try done; [lia..| | | ].
  - intros j Hj. destruct (H9 j Hj) as (E & ? & ?). split_and!; try done. rewrite lookup_delete_None. by right.
  - intros i Hi. destruct (H10 i Hi). split; [|done]. rewrite lookup_delete_None. by right.
  - intros i x [_ Hx]%lookup_delete_Some. by eapply H11.
Qed.

(** What [finish] answers. *)
Definition terminal_answer (open : bool) (result : BlockingResult) : Answer :=
  if open then match result with
               | Ok (Ok body) => Ok body
               | Ok (Err e) => Err (Encoding e)
               | Err _ => Err BlockingExecutorFailed
               end else Err ShuttingDown.

Lemma finish_job_ok id result s a : state_wf s → active s !! id = Some a →
  ∃ s' jobs, finish_job id result s = Some (s', jobs, ac_completion a, terminal_answer (accepting s) result) ∧
    state_wf s' ∧ busy s' ∧ advance (removed id a s) jobs s'.
Proof.
  intros H Ha. destruct (removed_wf _ _ _ H Ha) as (Ht & Hh & Hw). unfold finish_job. rewrite Ha. run_bind.
  rewrite (checked_sub_Some (active_total s)) by done. run_bind.
  assert ((if decide (ac_class a = Historical) then checked_sub (active_historical s) 1 else Some (active_historical s))
    = Some (active_historical (removed id a s))) as ->.
  { simpl. case_decide; [by rewrite checked_sub_Some by auto|f_equal; lia]. }
  run_bind. destruct (dispatch_ok _ Hw) as (s' & jobs & E & Hw' & Hb & Had). unfold removed at 1 in E. simpl in E.
  simpl. rewrite E. run_bind. exists s', jobs. split; [|done]. do 2 f_equal. unfold terminal_answer.
  destruct (accepting s); [|done]. by destruct result as [[]|[]].
Qed.

Lemma begin_shutdown_ok s : state_wf s → state_wf (begin_shutdown s).1.
Proof.
  intros H. unfold begin_shutdown. destruct (accepting s) eqn:Ea; [|done].
  destruct H as [H1 H2 H3 H4 H5 H6 H7 H8 H9 H10 H11 H12 H13]. split; cbn; try done.
  - constructor.
  - by intros j Hj%not_elem_of_nil.
Qed.

(** * The world *)

(** What a work may be answered while requests are accepted, or after. *)
Definition answer_ok (open : bool) (work : Work) (r : Answer) : Prop :=
  match r with
  | Ok body => run work = Ok body
  | Err (Encoding e) => run work = Err e
  | Err ShuttingDown => open = false
  | Err AdmissionSaturated | Err WorkerFailed => False
  | Err _ => True
  end.

Lemma answer_ok_close open open' work r : (open' = true → open = true) → answer_ok open work r → answer_ok open' work r.
Proof. destruct r as [|[]], open, open'; naive_solver. Qed.

Definition cell_work w (c : nat) : option Work := jc_work <$> sw_completions w !! c.

(** Answers on their way. *)
Definition worker_owes (x : @EncodingWorker Work) : list (nat * Answer) :=
  match x with
  | Delivering c r => [(c, r)]
  | FailDelivering cs => (λ c, (c, Err ShuttingDown)) <$> cs
  | _ => []
  end.
Definition request_owes (x : RequestState) : list (nat * Answer) :=
  match x with Completing c r _ => [(c, r)] | _ => [] end.
Definition shutdown_owes (x : ShutdownCall) : list (nat * Answer) :=
  match x with SdCompleting cs => (λ c, (c, Err ShuttingDown)) <$> cs | _ => [] end.
Definition owes w (c : nat) (r : Answer) : Prop :=
  (∃ id x, sw_workers w !! id = Some x ∧ (c, r) ∈ worker_owes x) ∨
  (∃ k rq, sw_requests w !! k = Some rq ∧ (c, r) ∈ request_owes (rq_state rq)) ∨
  (∃ k call, sw_shutdowns w !! k = Some call ∧ (c, r) ∈ shutdown_owes call).

Definition request_ok w (work : Work) (rq : Request) : Prop :=
  let s := sw_state w in
  match rq_state rq with
  | Waiting aj => aj_result aj = rq_completion rq ∧ aj_id aj ≤ next_id s ∧ aj_id aj ∉ reservations s ∧
      (∀ job, job ∈ queued s → qj_id job = aj_id aj → qj_completion job = rq_completion rq) ∧
      (∀ a, active s !! aj_id aj = Some a → ac_completion a = rq_completion rq)
  | Completing c _ answer => c = rq_completion rq ∧ ∀ r, answer = Some r → answer_ok (accepting s) work r
  | Finished answer => ∀ r, answer = Some r → answer_ok (accepting s) work r
  end.

Definition call_ok w (call : ShutdownCall) : Prop :=
  match call with
  | SdBegin => True
  | SdCompleting _ => accepting (sw_state w) = false
  | SdJoining => accepting (sw_state w) = false ∧ sw_tasks_closed w = true
  | SdWatching => is_Some (sw_completion w)
  | SdDone r => sw_completion w = Some r
  end.

(** Up to the cells in [extra], every unanswered cell is held. *)
Record world_inv (extra : nat → Prop) w : Prop := {
  wi_state : state_wf (sw_state w);
  wi_held : accepting (sw_state w) = true → sw_held w = reservations (sw_state w);
  wi_executing id job : sw_workers w !! id = Some (Executing job) →
    qj_id job = id ∧ active (sw_state w) !! id = Some (active_of job) ∧
    cell_work w (qj_completion job) = Some (qj_work job);
  wi_worker id x : sw_workers w !! id = Some x → id ≤ next_id (sw_state w) ∧
    id ∉ qj_id <$> queued (sw_state w) ∧ id ∉ reservations (sw_state w);
  wi_failing id cs : sw_workers w !! id = Some (FailDelivering cs) → accepting (sw_state w) = false;
  wi_active id a : active (sw_state w) !! id = Some a → is_Some (cell_work w (ac_completion a)) ∧
    (accepting (sw_state w) = false ∨
     sw_workers w !! id = Some FailShutdown ∨ ∃ job, sw_workers w !! id = Some (Executing job));
  wi_queued job : job ∈ queued (sw_state w) → cell_work w (qj_completion job) = Some (qj_work job);
  wi_owes c r : owes w c r → ∃ work, cell_work w c = Some work ∧ answer_ok (accepting (sw_state w)) work r;
  wi_answered c cell r : sw_completions w !! c = Some cell → jc_answer cell = Some r →
    answer_ok (accepting (sw_state w)) (jc_work cell) r;
  wi_unanswered c cell : sw_completions w !! c = Some cell → jc_answer cell = None →
    extra c ∨ (∃ r, owes w c r) ∨ accepting (sw_state w) = true ∧
      ((∃ job, job ∈ queued (sw_state w) ∧ qj_completion job = c) ∨
       (∃ id a, active (sw_state w) !! id = Some a ∧ ac_completion a = c));
  wi_requests k rq : sw_requests w !! k = Some rq → ∃ work, cell_work w (rq_completion rq) = Some work ∧ request_ok w work rq;
  wi_calls k call : sw_shutdowns w !! k = Some call → call_ok w call;
  wi_completed r : sw_completion w = Some r → accepting (sw_state w) = false ∧
    (r = Err WorkerFailed ∨ r = Ok tt ∧ sw_workers w = ∅)
}.

(** The answers on their way move from one state of a task to the next. *)
Lemma owes_worker w id new c r : owes w c r →
  (∀ x, sw_workers w !! id = Some x → (c, r) ∈ worker_owes x → ∃ x', new = Some x' ∧ (c, r) ∈ worker_owes x') →
  owes (set_worker id new w) c r.
Proof.
  intros [(i & x & Hx & Hc)|[?|?]] Hnew; [|by right; left|by right; right]. left. simpl.
  destruct (decide (i = id)) as [->|Hne].
  - destruct (Hnew _ Hx Hc) as (x' & -> & Hc'). exists id, x'. by rewrite lookup_partial_alter_eq.
  - exists i, x. by rewrite lookup_partial_alter_ne.
Qed.
Lemma owes_worker_inv w id new c r : owes (set_worker id new w) c r →
  owes w c r ∨ ∃ x', new = Some x' ∧ (c, r) ∈ worker_owes x'.
Proof.
  intros [(i & x & Hx & Hc)|[?|?]]; [|by left; right; left|by left; right; right]. simpl in Hx.
  destruct (decide (i = id)) as [->|Hne].
  - rewrite lookup_partial_alter_eq in Hx. right. by exists x.
  - rewrite lookup_partial_alter_ne in Hx by done. left; left. by exists i, x.
Qed.
Lemma owes_request w k new c r : owes w c r →
  (∀ rq, sw_requests w !! k = Some rq → (c, r) ∈ request_owes (rq_state rq) → (c, r) ∈ request_owes new) →
  owes (set_request k new w) c r.
Proof.
  intros [?|[(i & rq & Hi & Hc)|?]] Hnew; [by left| |by right; right]. right; left. simpl.
  destruct (decide (i = k)) as [->|Hne].
  - eexists k, _. rewrite list_lookup_alter_eq, Hi. split; [done|]. by eapply Hnew.
  - exists i, rq. by rewrite list_lookup_alter_ne.
Qed.
Lemma owes_request_inv w k new c r : owes (set_request k new w) c r → owes w c r ∨ (c, r) ∈ request_owes new.
Proof.
  intros [?|[(i & rq & Hi & Hc)|?]]; [by left; left| |by left; right; right]. simpl in Hi.
  destruct (decide (i = k)) as [->|Hne].
  - rewrite list_lookup_alter_eq in Hi. apply fmap_Some in Hi as (rq' & _ & ->). by right.
  - rewrite list_lookup_alter_ne in Hi by done. left; right; left. by exists i, rq.
Qed.
Lemma owes_shutdown w k new c r : owes w c r →
  (∀ call, sw_shutdowns w !! k = Some call → (c, r) ∈ shutdown_owes call → (c, r) ∈ shutdown_owes new) →
  owes (set_shutdown k new w) c r.
Proof.
  intros [?|[?|(i & x & Hi & Hc)]] Hnew; [by left|by right; left|]. right; right. simpl.
  destruct (decide (i = k)) as [->|Hne].
  - exists k, new. rewrite list_lookup_insert_eq by by eapply lookup_lt_Some. split; [done|]. by eapply Hnew.
  - exists i, x. by rewrite list_lookup_insert_ne.
Qed.
Lemma owes_shutdown_inv w k new c r : owes (set_shutdown k new w) c r → owes w c r ∨ (c, r) ∈ shutdown_owes new.
Proof.
  intros [?|[?|(i & x & Hi & Hc)]]; [by left; left|by left; right; left|]. simpl in Hi.
  apply list_lookup_insert_Some in Hi as [(-> & <- & _)|[_ Hi]]; [by right|]. left; right; right. by exists i, x.
Qed.

(** ** What a task's own step needs *)

Lemma set_worker_inv extra extra' w id old new :
  world_inv extra w → sw_workers w !! id = Some old →
  match new with Some (Executing _) => False | Some (FailDelivering _) => accepting (sw_state w) = false | _ => True end →
  match old with
  | Executing _ | FailShutdown => accepting (sw_state w) = false ∨ new = Some FailShutdown
  | _ => True
  end →
  (∀ c r, (c, r) ∈ worker_owes old → (∃ x, new = Some x ∧ (c, r) ∈ worker_owes x) ∨
     ∃ cell a, sw_completions w !! c = Some cell ∧ jc_answer cell = Some a) →
  (∀ x c r, new = Some x → (c, r) ∈ worker_owes x →
     owes w c r ∨ ∃ work, cell_work w c = Some work ∧ answer_ok (accepting (sw_state w)) work r) →
  (∀ c, extra c → extra' c ∨ ∃ x r, new = Some x ∧ (c, r) ∈ worker_owes x) →
  world_inv extra' (set_worker id new w).
Proof.
  intros [H1 H2 H3 H4 H5 H6 H7 H8 H9 H10 H11 H12 H13] Hold Hnew Hkept Hpaid Howed Hextra.
  assert (∀ i x, partial_alter (λ _, new) id (sw_workers w) !! i = Some x →
    (i = id ∧ new = Some x) ∨ (i ≠ id ∧ sw_workers w !! i = Some x)) as Hl.
  { intros i x. destruct (decide (i = id)) as [->|]; [rewrite lookup_partial_alter_eq|rewrite lookup_partial_alter_ne by done]; auto. }
  split; cbn; try done.
  - intros i job [[-> ->]|[_ Hi]]%Hl; [done|by apply H3].
  - intros i x [[-> ->]|[_ Hi]]%Hl; [by eapply H4|by eapply H4].
  - intros i cs [[-> ->]|[_ Hi]]%Hl; [done|by eapply H5].
  - intros i a Ha. destruct (H6 _ _ Ha) as [Hc Hd]. split; [done|]. destruct Hd as [?|Hd]; [by left|].
    destruct (decide (i = id)) as [->|Hne]; [|right; by rewrite lookup_partial_alter_ne].
    rewrite lookup_partial_alter_eq. destruct Hd as [Hd|[job Hd]]; rewrite Hd in Hold; injection Hold as <-;
      (destruct Hkept as [?| ->]; [by left|right; by left]).
  - intros c r [Hc|(x & Hx & Hc)]%owes_worker_inv; [by apply H8|]. destruct (Howed _ _ _ Hx Hc) as [?|?]; [by apply H8|done].
  - intros c cell Hc Hn. destruct (H10 _ _ Hc Hn) as [He|[[r Hr]|Hh]]; [| |by right; right].
    + destruct (Hextra _ He) as [?|(x & r & -> & Hx)]; [by left|]. right; left. exists r. left. exists id, x.
      simpl. by rewrite lookup_partial_alter_eq.
    + right; left. exists r. apply owes_worker; [done|]. intros x Hx Hr'. rewrite Hx in Hold. injection Hold as ->.
      destruct (Hpaid _ _ Hr') as [?|(cell' & a & Hc' & Ha)]; [done|]. congruence.
  - intros r Hr. destruct (H13 _ Hr) as [? [->|[-> He]]]; [by split; [|left]|]. by rewrite He, lookup_empty in Hold.
Qed.

Lemma set_request_inv extra extra' w k rq new :
  world_inv extra w → sw_requests w !! k = Some rq →
  (∀ work, cell_work w (rq_completion rq) = Some work → request_ok w work (MkRequest (rq_completion rq) new)) →
  (∀ c r, (c, r) ∈ request_owes (rq_state rq) → (c, r) ∈ request_owes new ∨
     ∃ cell a, sw_completions w !! c = Some cell ∧ jc_answer cell = Some a) →
  (∀ c r, (c, r) ∈ request_owes new → owes w c r ∨ ∃ work, cell_work w c = Some work ∧ answer_ok (accepting (sw_state w)) work r) →
  (∀ c, extra c → extra' c ∨ ∃ r, (c, r) ∈ request_owes new) →
  world_inv extra' (set_request k new w).
Proof.
  intros [H1 H2 H3 H4 H5 H6 H7 H8 H9 H10 H11 H12 H13] Hold Hok Hpaid Howed Hextra. split; cbn; try done.
  - intros c r [Hc|Hc]%owes_request_inv; [by apply H8|]. destruct (Howed _ _ Hc) as [?|?]; [by apply H8|done].
  - intros c cell Hc Hn. destruct (H10 _ _ Hc Hn) as [He|[[r Hr]|Hh]]; [| |by right; right].
    + destruct (Hextra _ He) as [?|(r & Hr)]; [by left|]. right; left. exists r. right; left. eexists k, _. simpl.
      by rewrite list_lookup_alter_eq, Hold.
    + right; left. exists r. apply owes_request; [done|]. intros x Hx Hr'. rewrite Hx in Hold. injection Hold as ->.
      destruct (Hpaid _ _ Hr') as [?|(cell' & a & Hc' & Ha)]; [done|]. congruence.
  - intros i x Hi. destruct (decide (i = k)) as [->|Hne].
    + rewrite list_lookup_alter_eq, Hold in Hi. injection Hi as <-. destruct (H11 _ _ Hold) as (work & Hw & _).
      exists work. split; [done|]. by apply Hok.
    + rewrite list_lookup_alter_ne in Hi by done. by apply H11 in Hi.
Qed.

Lemma set_shutdown_inv extra extra' w k old new :
  world_inv extra w → sw_shutdowns w !! k = Some old → call_ok w new →
  (∀ c r, (c, r) ∈ shutdown_owes old → (c, r) ∈ shutdown_owes new ∨
     ∃ cell a, sw_completions w !! c = Some cell ∧ jc_answer cell = Some a) →
  (∀ c r, (c, r) ∈ shutdown_owes new → owes w c r ∨ ∃ work, cell_work w c = Some work ∧ answer_ok (accepting (sw_state w)) work r) →
  (∀ c, extra c → extra' c ∨ ∃ r, (c, r) ∈ shutdown_owes new) →
  world_inv extra' (set_shutdown k new w).
Proof.
  intros [H1 H2 H3 H4 H5 H6 H7 H8 H9 H10 H11 H12 H13] Hold Hok Hpaid Howed Hextra. split; cbn; try done.
  - intros c r [Hc|Hc]%owes_shutdown_inv; [by apply H8|]. destruct (Howed _ _ Hc) as [?|?]; [by apply H8|done].
  - intros c cell Hc Hn. destruct (H10 _ _ Hc Hn) as [He|[[r Hr]|Hh]]; [| |by right; right].
    + destruct (Hextra _ He) as [?|(r & Hr)]; [by left|]. right; left. exists r. right; right. exists k, new. simpl.
      by rewrite list_lookup_insert_eq by by eapply lookup_lt_Some.
    + right; left. exists r. apply owes_shutdown; [done|]. intros x Hx Hr'. rewrite Hx in Hold. injection Hold as ->.
      destruct (Hpaid _ _ Hr') as [?|(cell' & a & Hc' & Ha)]; [done|]. congruence.
  - intros i x Hi. apply list_lookup_insert_Some in Hi as [(-> & <- & _)|[_ Hi]]; [done|by eapply H12].
Qed.

Lemma cell_work_deliver w c r c' : cell_work (deliver c r w) c' = cell_work w c'.
Proof.
  unfold cell_work. simpl. destruct (decide (c' = c)) as [->|Hne]; [|by rewrite list_lookup_alter_ne].
  rewrite list_lookup_alter_eq. destruct (sw_completions w !! c) as [[work [a|]]|]; done.
Qed.

(** An owed answer delivered. *)
Lemma deliver_inv extra w c r : world_inv extra w → owes w c r →
  world_inv extra (deliver c r w) ∧ ∃ cell a, sw_completions (deliver c r w) !! c = Some cell ∧ jc_answer cell = Some a.
Proof.
  intros H Ho. destruct (wi_owes _ _ H _ _ Ho) as (work & Hw & Hok).
  destruct H as [H1 H2 H3 H4 H5 H6 H7 H8 H9 H10 H11 H12 H13]. split.
  - split; try done; cbn [sw_state deliver sw_workers sw_requests sw_shutdowns sw_completion].
    + intros i job Hi. rewrite cell_work_deliver. by apply H3.
    + intros i a Ha. rewrite cell_work_deliver. by apply H6.
    + intros job Hj. rewrite cell_work_deliver. by apply H7.
    + intros c' r' Hc. rewrite cell_work_deliver. by apply H8.
    + intros c' cell a. simpl. destruct (decide (c' = c)) as [->|Hne]; [|rewrite list_lookup_alter_ne by done; by apply H9].
      rewrite list_lookup_alter_eq. intros (cell0 & Hc & ->)%fmap_Some. unfold cell_work in Hw. rewrite Hc in Hw.
      injection Hw as <-. unfold JobCompletion_complete. destruct (jc_answer cell0) eqn:E; [by eapply H9|].
      by intros [= <-].
    + intros c' cell Hc Hn. simpl in Hc. destruct (decide (c' = c)) as [->|Hne].
      * rewrite list_lookup_alter_eq in Hc. apply fmap_Some in Hc as (cell0 & Hc & ->).
        unfold JobCompletion_complete in Hn. by destruct (jc_answer cell0) eqn:E; simplify_eq/=.
      * rewrite list_lookup_alter_ne in Hc by done. by eapply H10.
    + intros k rq Hk. rewrite cell_work_deliver. by apply (H11 k).
  - simpl. rewrite list_lookup_alter_eq. unfold cell_work in Hw. apply fmap_Some in Hw as (cell & -> & _). simpl.
    unfold JobCompletion_complete. destruct (jc_answer cell) as [a|] eqn:E; eexists _, _; (split; [done|]); simpl; done.
Qed.

(** What keeps a request sound when the locked state changes. *)
Lemma request_ok_frame w w' work rq : let s := sw_state w in let s' := sw_state w' in
  request_ok w work rq → (accepting s' = true → accepting s = true) → next_id s ≤ next_id s' →
  (∀ id, id ∈ reservations s' → id ∈ reservations s ∨ next_id s < id) →
  (∀ aj job, rq_state rq = Waiting aj → job ∈ queued s' → qj_id job = aj_id aj →
     job ∈ queued s ∨ qj_completion job = rq_completion rq) →
  (∀ aj a, rq_state rq = Waiting aj → active s' !! aj_id aj = Some a →
     active s !! aj_id aj = Some a ∨ ac_completion a = rq_completion rq) →
  request_ok w' work rq.
Proof.
  intros s s' Hok Hopen Hnext Hres Hq Ha. unfold request_ok in *. fold s in Hok. fold s'.
  destruct (rq_state rq) as [aj|c reason answer|answer].
  - destruct Hok as (E1 & E2 & E3 & E4 & E5). split_and!; [done|lia| | |].
    + intros [?|?]%Hres; [done|lia].
    + intros job Hj Hid. destruct (Hq aj job eq_refl Hj Hid); [by apply E4|done].
    + intros a Hi. destruct (Ha aj a eq_refl Hi); [by apply E5|done].
  - destruct Hok as [? Hok]. split; [done|]. intros r Hr. by eapply answer_ok_close, Hok.
  - intros r Hr. by eapply answer_ok_close, Hok.
Qed.

(** ** What a locked section needs *)

(** No job is started or finished. *)
Lemma locked_inv extra extra' s' held w : let s := sw_state w in
  world_inv extra w → state_wf s' →
  (accepting s' = true → accepting s = true ∧ held = reservations s') →
  next_id s ≤ next_id s' → active s' = active s →
  (∀ id, id ∈ reservations s' → id ∈ reservations s ∨ next_id s < id) →
  (∀ job, job ∈ queued s' → job ∈ queued s ∨
     cell_work w (qj_completion job) = Some (qj_work job) ∧ sw_workers w !! qj_id job = None ∧
     ∀ k rq aj, sw_requests w !! k = Some rq → rq_state rq = Waiting aj → qj_id job = aj_id aj →
       qj_completion job = rq_completion rq) →
  (∀ job, job ∈ queued s → job ∈ queued s' ∨ extra' (qj_completion job)) →
  (∀ id a, accepting s = true → accepting s' = false → active s !! id = Some a → extra' (ac_completion a)) →
  (∀ c, extra c → extra' c ∨ accepting s' = true ∧ ∃ job, job ∈ queued s' ∧ qj_completion job = c) →
  world_inv extra' (set_held held (set_locked s' w)).
Proof.
  intros s H Hwf Hheld Hnext Hact Hres Hin Hout Hlost Hextra.
  assert (accepting s' = true → accepting s = true) as Hopen by naive_solver.
  assert (∀ work r, answer_ok (accepting s) work r → answer_ok (accepting s') work r) as Hok.
  { intros work r. by apply answer_ok_close. }
  assert (accepting s = false → accepting s' = false) as Hclosed by (destruct (accepting s), (accepting s'); naive_solver).
  destruct H as [H1 H2 H3 H4 H5 H6 H7 H8 H9 H10 H11 H12 H13]. fold s in H1, H2, H3, H4, H5, H6, H7, H8, H9, H10, H11, H12, H13.
  split; cbn; try done.
  - naive_solver.
  - intros id job Hi. rewrite Hact. by apply H3.
  - intros id x Hi. destruct (H4 _ _ Hi) as (? & Hq & Hr). split_and!; [lia| |].
    + rewrite list_elem_of_fmap in *. intros (job & -> & Hj). destruct (Hin _ Hj) as [?|(_ & Hw & _)]; [|congruence].
      apply Hq. by exists job.
    + intros [?|?]%Hres; [done|lia].
  - intros id cs Hi. eapply Hclosed, H5, Hi.
  - intros id a. rewrite Hact. intros Ha. destruct (H6 _ _ Ha) as [? [?|?]]; auto.
  - intros job [Hj|[? _]]%Hin; [by apply H7|done].
  - intros c r Hc. destruct (H8 _ _ Hc) as (work & ? & ?). exists work. auto.
  - intros c cell r Hc Hr. eapply Hok, H9; done.
  - intros c cell Hc Hn. destruct (H10 _ _ Hc Hn) as [He|[?|(Ha & Hh)]]; [|by right; left|].
    + destruct (Hextra _ He) as [?|[? ?]]; [by left|]. right; right. split; [done|]. by left.
    + destruct (accepting s') eqn:Ea.
      2: { left. destruct Hh as [(job & Hj & <-)|(id & a & Hi & <-)]; [|by eapply Hlost].
        destruct (Hout _ Hj) as [Hj'|?]; [|done]. destruct (wf_closed _ Hwf Ea) as [_ Hq]. rewrite Hq in Hj'. by apply not_elem_of_nil in Hj'. }
      destruct Hh as [(job & Hj & <-)|(id & a & Hi & <-)].
      * destruct (Hout _ Hj) as [?|?]; [|by left]. right; right. split; [done|]. left. by exists job.
      * right; right. split; [done|]. right. exists id, a. by rewrite Hact.
  - intros k rq Hk. destruct (H11 _ _ Hk) as (work & Hw & Hrq). exists work. split; [done|].
    eapply request_ok_frame; [exact Hrq|done..| |].
    + intros aj job Eq Hj Hid. destruct (Hin _ Hj) as [?|(_ & _ & Hown)]; [by left|right; by eapply Hown].
    + cbn. rewrite Hact. by left.
  - intros k call Hk. specialize (H12 _ _ Hk). unfold call_ok in *. cbn. fold s in H12. destruct call; naive_solver.
  - intros r Hr. destruct (H13 _ Hr). split; [by apply Hclosed|done].
Qed.

(** Jobs started. *)
Lemma scheduler_start_inv extra extra' jobs s' w : let s := sw_state w in
  world_inv extra w → state_wf s' → accepting s' = accepting s → (accepting s = true → sw_held w = reservations s') →
  next_id s ≤ next_id s' → (∀ id, id ∈ reservations s' → id ∈ reservations s) →
  (∀ job, job ∈ queued s' → job ∈ queued s) → (∀ job, job ∈ queued s → job ∈ jobs ∨ job ∈ queued s') →
  active s' = insert_jobs active_of jobs (active s) → NoDup (qj_id <$> jobs) →
  (∀ job, job ∈ jobs → cell_work w (qj_completion job) = Some (qj_work job) ∧ sw_workers w !! qj_id job = None ∧
     active s !! qj_id job = None ∧
     ∀ k rq aj, sw_requests w !! k = Some rq → rq_state rq = Waiting aj → qj_id job = aj_id aj →
       qj_completion job = rq_completion rq) →
  (jobs ≠ [] → accepting s = true) →
  (∀ c, extra c → extra' c ∨ ∃ job, job ∈ jobs ∧ qj_completion job = c) →
  world_inv extra' (spawn_workers jobs (set_locked s' w)).
Proof.
  intros s H Hwf Hopen Hheld Hnext Hres Hin Hout Hact Hnd Hjobs Hne Hextra.
  destruct H as [H1 H2 H3 H4 H5 H6 H7 H8 H9 H10 H11 H12 H13]. fold s in H1, H2, H3, H4, H5, H6, H7, H8, H9, H10, H11, H12, H13.
  assert (∀ id x, sw_workers w !! id = Some x → id ∉ qj_id <$> jobs) as Hfresh.
  { intros id x Hi (job & -> & Hj)%list_elem_of_fmap. destruct (Hjobs _ Hj) as (_ & Hn & _). congruence. }
  assert (∀ c r, owes (spawn_workers jobs (set_locked s' w)) c r ↔ owes w c r) as Howes.
  { intros c r. split; (intros [(id & x & Hi & Hc)|?]; [|by right]); left.
    - apply lookup_insert_jobs in Hi as [(job & _ & _ & ->)|[Hi _]]; [by apply not_elem_of_nil in Hc|by exists id, x].
    - exists id, x. split; [|done]. simpl. fold (insert_jobs Executing jobs (sw_workers w)).
      rewrite lookup_insert_jobs_old; [done|by eapply Hfresh]. }
  split; cbn; rewrite ?Hopen; try done; try fold (insert_jobs Executing jobs (sw_workers w)).
  - intros id job [(j & Hj & <- & [= ->])|[Hi Hid]]%lookup_insert_jobs.
    + split; [done|]. split; [|by apply Hjobs]. rewrite Hact. by apply lookup_insert_jobs_new.
    + destruct (H3 _ _ Hi) as (E1 & E2 & E3). split; [done|]. split; [|done]. rewrite Hact. by rewrite lookup_insert_jobs_old.
  - intros id x [(j & Hj & <- & ->)|[Hi Hid]]%lookup_insert_jobs.
    + assert (active s' !! qj_id j = Some (active_of j)) as Ha by (rewrite Hact; by apply lookup_insert_jobs_new).
      split; [by eapply wf_active|]. split.
      * intros (j' & Hid & Hj')%list_elem_of_fmap. apply (wf_queued _ Hwf) in Hj' as [Hn _]. congruence.
      * intros [Hn _]%(wf_reserved _ Hwf). congruence.
    + destruct (H4 _ _ Hi) as (? & Hq & Hr). split; [lia|]. split; [|auto].
      intros (j & -> & Hj)%list_elem_of_fmap. apply Hq, list_elem_of_fmap_2. auto.
  - intros id cs [(j & _ & _ & [=])|[Hi _]]%lookup_insert_jobs. by eapply H5.
  - intros id a. rewrite Hact. intros [(j & Hj & <- & ->)|[Ha Hid]]%lookup_insert_jobs.
    + destruct (Hjobs _ Hj) as (Hc & _). split; [eexists; exact Hc|]. right; right. exists j.
      by rewrite lookup_insert_jobs_new.
    + destruct (H6 _ _ Ha) as [Hc Hd]. split; [done|]. by rewrite lookup_insert_jobs_old.
  - intros job Hj. apply H7. auto.
  - intros c r Hc%Howes. by apply H8.
  - intros c cell Hc Hn. destruct (H10 _ _ Hc Hn) as [He|[[r Hr]|(Ha & Hh)]].
    + destruct (Hextra _ He) as [?|(job & Hj & <-)]; [by left|]. right; right.
      split; [apply Hne; by intros ->; apply not_elem_of_nil in Hj|]. right. exists (qj_id job), (active_of job).
      rewrite Hact. by rewrite lookup_insert_jobs_new.
    + right; left. exists r. by apply Howes.
    + right; right. split; [done|]. destruct Hh as [(job & Hj & <-)|(id & a & Hi & <-)].
      * destruct (Hout _ Hj) as [?|?]; [|left; by exists job]. right. exists (qj_id job), (active_of job).
        rewrite Hact. by rewrite lookup_insert_jobs_new.
      * right. exists id, a. split; [|done]. rewrite Hact. rewrite lookup_insert_jobs_old; [done|].
        intros (j & -> & Hj)%list_elem_of_fmap. destruct (Hjobs _ Hj) as (_ & _ & Hn' & _). congruence.
  - intros k rq Hk. destruct (H11 _ _ Hk) as (work & Hw & Hrq). exists work. split; [done|].
    eapply request_ok_frame; [exact Hrq|by cbn; rewrite Hopen|done|by left; apply Hres|by left; apply Hin|].
    cbn. rewrite Hact. intros aj a Eq [(j & Hj & Hid & ->)|[Ha _]]%lookup_insert_jobs; [right|by left].
    destruct (Hjobs _ Hj) as (_ & _ & _ & Hown). by eapply Hown.
  - intros k call Hk. specialize (H12 _ _ Hk). unfold call_ok in *. cbn. by rewrite Hopen.
  - intros r Hr. destruct (H13 _ Hr) as [Hc Hd]. split; [done|]. destruct Hd as [?|[? Hempty]]; [by left|]. right.
    split; [done|]. destruct jobs; [done|]. rewrite Hne in Hc; done.
Qed.

(** A job finished, its answer on its way. *)
Lemma scheduler_finish_inv extra w id job a failed : let s := sw_state w in
  world_inv extra w → sw_workers w !! id = Some (Executing job) → active s !! id = Some a →
  let r := terminal_answer (accepting s) (if failed : bool then Err MkBlockingExecutorError else Ok (run (qj_work job))) in
  world_inv extra (set_worker id (Some (Delivering (ac_completion a) r)) (set_locked (removed id a s) w)).
Proof.
  intros s H Hx Ha r. destruct (removed_wf _ _ _ (wi_state _ _ H) Ha) as (_ & _ & Hwf). fold s in Hwf.
  destruct (wi_executing _ _ H _ _ Hx) as (Hid & Ha' & Hc). fold s in Ha'. rewrite Ha in Ha'. injection Ha' as ->.
  assert (answer_ok (accepting s) (qj_work job) r) as Hr.
  { unfold r, terminal_answer. destruct (accepting s); [|done]. destruct failed; [done|]. by destruct (run (qj_work job)) eqn:E. }
  destruct H as [H1 H2 H3 H4 H5 H6 H7 H8 H9 H10 H11 H12 H13]. fold s in H1, H2, H3, H4, H5, H6, H7, H8, H9, H10, H11, H12, H13.
  assert (∀ i x, partial_alter (λ _, Some (Delivering (qj_completion job) r)) id (sw_workers w) !! i = Some x →
    (i = id ∧ x = Delivering (qj_completion job) r) ∨ (i ≠ id ∧ sw_workers w !! i = Some x)) as Hl.
  { intros i x. destruct (decide (i = id)) as [->|]; [rewrite lookup_partial_alter_eq|rewrite lookup_partial_alter_ne by done]; [|auto].
    intros [= <-]. auto. }
  split; cbn; try done.
  - intros i j [[-> [=]]|[Hne Hi]]%Hl. rewrite lookup_delete_ne by done. by apply H3.
  - intros i x [[-> ->]|[_ Hi]]%Hl; [by eapply H4|by eapply H4].
  - intros i cs [[-> [=]]|[_ Hi]]%Hl. by eapply H5.
  - intros i x [Hne Hi]%lookup_delete_Some. destruct (H6 _ _ Hi) as [? Hd]. split; [done|].
    rewrite lookup_partial_alter_ne by done. exact Hd.
  - intros c r' [Hc'|(x & [= <-] & Hc')]%owes_worker_inv; [by apply H8|].
    apply list_elem_of_singleton in Hc' as [= -> ->]. by exists (qj_work job).
  - intros c cell Hc' Hn. destruct (H10 _ _ Hc' Hn) as [?|[[r' Hr']|(Ho & Hh)]]; [by left| |].
    + right; left. exists r'. apply owes_worker; [done|]. intros x E Hin. cbn in E. rewrite Hx in E. injection E as <-.
      by apply not_elem_of_nil in Hin.
    + destruct Hh as [?|(i & x & Hi & <-)]; [by right; right; split; [|left]|].
      destruct (decide (i = id)) as [->|Hne].
      * right; left. rewrite Ha in Hi. injection Hi as <-. exists r. left. eexists id, _. simpl.
        rewrite lookup_partial_alter_eq. split; [done|]. by left.
      * right; right. split; [done|]. right. exists i, x. by rewrite lookup_delete_ne.
  - intros k rq Hk. destruct (H11 _ _ Hk) as (work & Hw & Hrq). exists work. split; [done|].
    eapply request_ok_frame; [exact Hrq|done..|by left|by left|]. cbn. intros aj x _ [_ Hi]%lookup_delete_Some. by left.
  - intros r' Hr'. destruct (H13 _ Hr') as [? [?|[? He]]]; [by split; [|left]|]. by rewrite He, lookup_empty in Hx.
Qed.

(** ** Submission *)

(** An identifier no job, worker or waiting request has. *)
Record unused w id : Prop := {
  un_worker : sw_workers w !! id = None;
  un_active : active (sw_state w) !! id = None;
  un_queued : id ∉ qj_id <$> queued (sw_state w);
  un_request k rq aj : sw_requests w !! k = Some rq → rq_state rq = Waiting aj → aj_id aj ≠ id
}.

Lemma unused_new extra w id : world_inv extra w → next_id (sw_state w) < id → unused w id.
Proof.
  intros H Hlt. pose proof (wi_state _ _ H) as Hs. split.
  - apply eq_None_not_Some. intros [x Hx]. destruct (wi_worker _ _ H _ _ Hx). lia.
  - apply eq_None_not_Some. intros [x Hx]. pose proof (wf_active _ Hs _ _ Hx). lia.
  - intros (job & -> & Hj)%list_elem_of_fmap. destruct (wf_queued _ Hs _ Hj) as (_ & _ & ?). lia.
  - intros k rq aj Hk Ha <-. destruct (wi_requests _ _ H _ _ Hk) as (work & _ & Hok). unfold request_ok in Hok.
    rewrite Ha in Hok. destruct Hok as (_ & ? & _). lia.
Qed.

Lemma unused_reserved extra w id : world_inv extra w → id ∈ reservations (sw_state w) → unused w id.
Proof.
  intros H Hid. pose proof (wi_state _ _ H) as Hs. split.
  - apply eq_None_not_Some. intros [x Hx]. by destruct (wi_worker _ _ H _ _ Hx) as (_ & _ & ?).
  - by apply (wf_reserved _ Hs).
  - intros (job & -> & Hj)%list_elem_of_fmap. by destruct (wf_queued _ Hs _ Hj) as (_ & ? & _).
  - intros k rq aj Hk Ha <-. destruct (wi_requests _ _ H _ _ Hk) as (work & _ & Hok). unfold request_ok in Hok.
    rewrite Ha in Hok. by destruct Hok as (_ & _ & ? & _).
Qed.

Lemma release_wf id s : state_wf s → state_wf (release_reservation id s).
Proof.
  intros [H1 H2 H3 H4 H5 H6 H7 H8 H9 H10 H11 H12 H13]. split; cbn; try done.
  - unfold queue_occupancy in *. cbn. assert (size (reservations s ∖ {[id]}) ≤ size (reservations s))%nat; [|lia].
    apply subseteq_size. set_solver.
  - intros j Hj. destruct (H9 _ Hj) as (? & ? & ?). split_and!; set_solver.
  - intros i Hi. apply H10. set_solver.
  - intros Ha. destruct (H12 Ha) as [-> ?]. split; [set_solver|done].
Qed.

Lemma queue_job_wf job s : state_wf s → accepting s = true → active s !! qj_id job = None →
  qj_id job ∉ qj_id <$> queued s → qj_id job ∉ reservations s → qj_id job ≤ next_id s →
  queue_occupancy s < MAX_QUEUED_GRAPH_ENCODING_JOBS →
  state_wf (queue_job job s) ∧ queued (queue_job job s) ≡ₚ job :: queued s.
Proof.
  intros [H1 H2 H3 H4 H5 H6 H7 H8 H9 H10 H11 H12 H13] Hopen Ha Hq Hr Hle Hocc.
  assert (queued (queue_job job s) ≡ₚ job :: queued s) as Hp.
  { unfold queued, queue_job. destruct (qj_class job); simpl.
    - rewrite <-app_assoc. simpl. by rewrite Permutation_middle.
    - by rewrite app_assoc, <-Permutation_cons_append. }
  split; [|done].
  assert (∀ j, j ∈ queued (queue_job job s) → j = job ∨ j ∈ queued s) as Hin.
  { intros j. rewrite Hp. apply elem_of_cons. }
  assert (queue_occupancy (queue_job job s) = queue_occupancy s + 1) as Ho.
  { unfold queue_job, queue_occupancy. destruct (qj_class job); cbn; rewrite length_app; simpl; lia. }
  assert (∀ {A} (f : SchedulerState → A), (∀ pq hq, f (set_queues pq hq s) = f s) → f (queue_job job s) = f s) as Hf.
  { intros A f Hf. unfold queue_job. by destruct (qj_class job). }
  split; rewrite ?(Hf _ active), ?(Hf _ active_total), ?(Hf _ active_historical), ?(Hf _ next_id),
    ?(Hf _ reservations), ?(Hf _ accepting) by done; try done.
  - rewrite Ho. lia.
  - unfold queue_job. destruct (qj_class job) eqn:E; cbn; [|done]. rewrite Forall_app. split; [done|]. by repeat constructor.
  - unfold queue_job. destruct (qj_class job) eqn:E; cbn; [done|]. rewrite Forall_app. split; [done|]. by repeat constructor.
  - rewrite Hp. csimpl. by constructor.
  - intros j [->|Hj]%Hin; [done|by apply H9].
  - congruence.
Qed.

(** The cell and the request of a submission that is admitted. *)
Definition append_request (work : Work) (aj : AdmittedJob) w : SchedulerWorld :=
  MkSchedulerWorld (sw_state w) (sw_held w) (sw_completions w ++ [MkJobCompletion work None]) (sw_workers w)
    (sw_requests w ++ [MkRequest (aj_result aj) (Waiting aj)]) (sw_tasks_closed w) (sw_shutdowns w) (sw_completion w).

Lemma cell_work_append work aj w c x : cell_work w c = Some x → cell_work (append_request work aj w) c = Some x.
Proof.
  unfold cell_work. simpl. intros (cell & Hc & ->)%fmap_Some. by rewrite lookup_app_l, Hc by by eapply lookup_lt_Some.
Qed.
Lemma cell_work_new work aj w : cell_work (append_request work aj w) (length (sw_completions w)) = Some work.
Proof. unfold cell_work. simpl. by rewrite lookup_app_r, Nat.sub_diag by done. Qed.

Lemma scheduler_append_inv extra work aj w : world_inv extra w → aj_result aj = length (sw_completions w) →
  aj_id aj ≤ next_id (sw_state w) → aj_id aj ∉ reservations (sw_state w) → unused w (aj_id aj) →
  world_inv (λ c, extra c ∨ c = length (sw_completions w)) (append_request work aj w).
Proof.
  intros [H1 H2 H3 H4 H5 H6 H7 H8 H9 H10 H11 H12 H13] Hr Hle Hres [U1 U2 U3 U4].
  assert (∀ c r, owes (append_request work aj w) c r ↔ owes w c r) as Howes.
  { intros c r. split; (intros [?|[(k & rq & Hk & Hc)|?]]; [by left| |by right; right]); right; left; simpl in *.
    - apply lookup_app_Some in Hk as [Hk|[_ Hk]]; [by exists k, rq|]. apply list_lookup_singleton_Some in Hk as [_ <-].
      by apply not_elem_of_nil in Hc.
    - exists k, rq. by rewrite lookup_app_l by by eapply lookup_lt_Some. }
  assert (∀ c cell, (sw_completions w ++ [MkJobCompletion work None]) !! c = Some cell →
    sw_completions w !! c = Some cell ∨ c = length (sw_completions w) ∧ cell = MkJobCompletion work None) as Hcells.
  { intros c cell [Hc|[Hge Hc]]%lookup_app_Some; [by left|]. apply list_lookup_singleton_Some in Hc as [? <-]. right. split; [lia|done]. }
  split; try done; cbn [append_request sw_state sw_workers sw_requests sw_shutdowns sw_completion].
  - intros id job Hi. destruct (H3 _ _ Hi) as (? & ? & ?). split_and!; [done..|by apply cell_work_append].
  - intros id a Ha. destruct (H6 _ _ Ha) as [[x Hx] ?]. split; [|done]. exists x. by apply cell_work_append.
  - intros job Hj. by apply cell_work_append, H7.
  - intros c r (x & ? & ?)%Howes%H8. exists x. split; [by apply cell_work_append|done].
  - intros c cell r [Hc|[_ ->]]%Hcells; [by eapply H9|done].
  - intros c cell [Hc|[-> _]]%Hcells Hn; [|by left; right].
    destruct (H10 _ _ Hc Hn) as [?|[[r Ho]|?]]; [by left; left|right; left; exists r; by apply Howes|by right; right].
  - intros k rq Hk. apply lookup_app_Some in Hk as [Hk|[_ Hk]].
    + destruct (H11 _ _ Hk) as (x & ? & ?). exists x. split; [by apply cell_work_append|done].
    + apply list_lookup_singleton_Some in Hk as [_ <-]. exists work. cbn. rewrite Hr. split; [apply cell_work_new|].
      split_and!; [done..| |].
      * intros job Hj Hid. destruct U3. rewrite <-Hid. by apply list_elem_of_fmap_2.
      * intros a Ha. congruence.
Qed.

(** An admitted submission: the job starts at once or waits behind others. *)
Lemma admit_inv class work id s1 held w : let s := sw_state w in
  let job := MkQueuedJob id class work (length (sw_completions w)) in
  world_inv (λ _, False) w → busy s → unused w id → state_wf s1 →
  accepting s = true → (∃ n rs, s1 = MkSchedulerState true n rs (priority_queue s) (historical_queue s) (active s)
                                       (active_total s) (active_historical s)) →
  next_id s ≤ next_id s1 → id ≤ next_id s1 → id ∉ reservations s1 →
  (∀ i, i ∈ reservations s1 → i ∈ reservations s) → held = reservations s1 →
  let admitted s' jobs timeout := append_request work (MkAdmittedJob id (length (sw_completions w)) timeout)
                                    (spawn_workers jobs (set_locked s' (set_held held w))) in
  if can_start class s1 && (bool_decide (class = Priority) || is_empty (priority_queue s1)) then
    start_job job s1 = Some (started job s1) ∧
    world_inv (λ _, False) (admitted (started job s1) [job] false) ∧ busy (started job s1)
  else queue_occupancy s1 < MAX_QUEUED_GRAPH_ENCODING_JOBS →
    world_inv (λ _, False) (admitted (queue_job job s1) [] true) ∧ busy (queue_job job s1).
Proof.
  intros s job H Hb Hu Hwf Hopen (n & rs & E) Hn Hle Hid Hres Hheld admitted.
  assert (world_inv (λ _, False) (set_held held (set_locked s1 w))) as H1.
  { apply (locked_inv (λ _, False)); subst s1; try done; auto. }
  assert (∀ t, world_inv (λ c, False ∨ c = length (sw_completions w))
    (append_request work (MkAdmittedJob id (length (sw_completions w)) t) (set_held held (set_locked s1 w)))) as H2.
  { intros t. apply (scheduler_append_inv (λ _, False) work _ (set_held held (set_locked s1 w))); [done..|]. destruct Hu as [U1 U2 U3 U4]. subst s1. by split. }
  assert (∀ t k rq aj, sw_requests (append_request work (MkAdmittedJob id (length (sw_completions w)) t)
      (set_held held (set_locked s1 w))) !! k = Some rq → rq_state rq = Waiting aj → qj_id job = aj_id aj →
    qj_completion job = rq_completion rq) as Hown.
  { intros t k rq aj Hk Ha Eid. simpl in Hk. apply lookup_app_Some in Hk as [Hk|[_ Hk]].
    - destruct (un_request _ _ Hu _ _ _ Hk Ha). by rewrite <-Eid.
    - by apply list_lookup_singleton_Some in Hk as [_ <-]. }
  assert (active s1 = active s ∧ queued s1 = queued s ∧ accepting s1 = true ∧ priority_queue s1 = priority_queue s ∧
    historical_queue s1 = historical_queue s ∧ active_total s1 = active_total s ∧
    active_historical s1 = active_historical s) as (Ea & Eq & Eo & Ep & Eh & Et & Ec) by (by subst s1).
  destruct Hu as [U1 U2 U3 U4]. fold s in U2, U3.
  destruct (can_start class s1 && _) eqn:Estart.
  - apply andb_true_iff in Estart as [Hc He]. destruct (start_job_ok job s1 Hwf Hc) as [E1 Hwf1];
      [by rewrite Ea|by rewrite Eq|done..|]. split; [done|]. split.
    + change (world_inv (λ _, False) (spawn_workers [job] (set_locked (started job s1)
        (append_request work (MkAdmittedJob id (length (sw_completions w)) false) (set_held held (set_locked s1 w)))))).
      eapply scheduler_start_inv; [apply H2|done|done|done| | | | | | | | |]; cbn; try done; [by right|repeat constructor; set_solver| |].
      * intros j ->%list_elem_of_singleton. split_and!; [by apply cell_work_new|done|by rewrite Ea|apply Hown].
      * intros c [[]| ->]. right. exists job. split; [by left|done].
    + apply can_start_spec in Hc as [Ht Hh]. destruct Hb as [Bp Bh]. split; cbn; rewrite ?Ep, ?Eh, ?Et, ?Ec in *; intros Hne.
      * specialize (Bp Hne). lia.
      * destruct (Bh Hne) as [?|Hfull]; [lia|]. destruct class; [|specialize (Hh ltac:(done)); lia]. right. simpl. lia.
  - intros Hocc. destruct (queue_job_wf job s1 Hwf) as [Hwf1 Hq]; [done|by rewrite Ea|by rewrite Eq|done..|]. split.
    + change (world_inv (λ _, False) (set_held held (set_locked (queue_job job s1)
        (append_request work (MkAdmittedJob id (length (sw_completions w)) true) (set_held held (set_locked s1 w)))))).
      assert (queue_job job s1 = set_queues (priority_queue (queue_job job s1)) (historical_queue (queue_job job s1)) s1) as Ej.
      { subst s1. unfold queue_job. by destruct (qj_class job). }
      eapply locked_inv; [apply H2|done|rewrite Ej; by subst|by rewrite Ej|by rewrite Ej|rewrite Ej; auto| | | |].
      * intros j. rewrite Hq. intros [->|Hj]%elem_of_cons; [|by left]. right. split; [by apply cell_work_new|]. split; [done|apply Hown].
      * intros j Hj. left. rewrite Hq. by right.
      * intros i a _. rewrite Ej. simpl. congruence.
      * intros c [[]| ->]. right. split; [rewrite Ej; by subst s1|]. exists job. split; [rewrite Hq; by left|done].
    + apply andb_false_iff in Estart. destruct Hb as [Bp Bh]. pose proof (wf_max _ Hwf). pose proof (wf_historical_max _ Hwf).
      assert (can_start class s1 = false → MAX_GRAPH_ENCODING_JOBS ≤ active_total s ∨
        class = Historical ∧ MAX_HISTORICAL_ENCODING_JOBS ≤ active_historical s) as Hfull.
      { unfold can_start. rewrite andb_false_iff, orb_false_iff, bool_decide_eq_false, !N.ltb_ge, Et, Ec.
        destruct class; naive_solver. }
      unfold queue_job. subst job. cbn [qj_class]. rewrite ?Ep, ?Eh, ?Et, ?Ec in *. destruct class; split; cbn; intros Hne;
        rewrite ?Ep, ?Eh, ?Et, ?Ec in *.
      * destruct Estart as [Hf|?]; [|done]. destruct (Hfull Hf) as [?|[? _]]; [lia|done].
      * destruct (Bh Hne); [by left|by right].
      * by apply Bp.
      * destruct Estart as [Hf|Hf]; [destruct (Hfull Hf) as [?|[_ ?]]; [left|right]; lia|]. left. apply Bp.
        simpl in Hf. by intros Hnil; rewrite Hnil in Hf.
Qed.
End scheduler.
