(* ===== verification/Orphan.v ===== *)
(** The orphan topology of [crates/kgi-processing/src/block_processor/orphan.rs]:
    blocks waiting for missing references, the reverse index, and the
    resolution candidates ranked by transitive impact. *)

From S2P Require Import Prelude Model.

Definition MAX_ORPHAN_BLOCKS : nat := 1024.
Definition ORPHAN_RESOLUTION_THRESHOLD : nat := 256.

Inductive TopologyError := CapacityExhausted | EmptyMissingSet.

Section orphan.
Context {KH : KaspaHash}.

Record OrphanEntry := MkOrphanEntry {
  oe_block : ValidatedNodeBlock;
  oe_missing : gset BlockHash
}.

Record OrphanTopology := MkOrphanTopology {
  orphans : gmap BlockHash OrphanEntry;
  dependents : gmap BlockHash (gset BlockHash);
  resolution_pending : gset BlockHash;
  resolution_active : bool
}.

Definition OrphanTopology_default : OrphanTopology := MkOrphanTopology ∅ ∅ ∅ false.

Record TopologyMutation := MkTopologyMutation {
  tm_ready : list ValidatedNodeBlock;
  tm_cancel : list BlockHash;
  tm_threshold_crossed : bool
}.

Definition TopologyMutation_default : TopologyMutation := MkTopologyMutation [] [] false.

Definition sort_hashes (s : gset BlockHash) : list BlockHash := merge_sort hash_le (elements s).

(** [Vec::dedup]: consecutive duplicates. *)
Fixpoint dedup (xs : list BlockHash) : list BlockHash :=
  match xs with
  | x :: (y :: _) as rest => if decide (x = y) then dedup rest else x :: dedup rest
  | _ => xs
  end.

Definition remove_unneeded_pending (t : OrphanTopology) : OrphanTopology * list BlockHash :=
  let unneeded := sort_hashes (filter (λ h, dependents t !! h = None) (resolution_pending t)) in
  (MkOrphanTopology (orphans t) (dependents t)
     (foldl (λ s h, s ∖ {[h]}) (resolution_pending t) unneeded) (resolution_active t),
   unneeded).

Definition add_orphan (block : ValidatedNodeBlock) (missing : list BlockHash)
    (t : OrphanTopology) : OrphanTopology * Result TopologyMutation TopologyError :=
  if decide (is_Some (orphans t !! vnb_hash block)) then (t, Ok TopologyMutation_default)
  else if decide (size (orphans t) = MAX_ORPHAN_BLOCKS) then (t, Err CapacityExhausted)
  else
    let missing : gset BlockHash := list_to_set missing in
    if decide (missing = ∅) then (t, Err EmptyMissingSet)
    else
      let block_hash := vnb_hash block in
      let deps := foldl (λ deps d, mm_insert d block_hash deps) (dependents t) (elements missing) in
      let cancel := if decide (block_hash ∈ resolution_pending t) then [block_hash] else [] in
      let t := MkOrphanTopology (<[block_hash := MkOrphanEntry block missing]> (orphans t)) deps
                 (resolution_pending t ∖ {[block_hash]}) (resolution_active t) in
      let '(t, unneeded) := remove_unneeded_pending t in
      let crossed := bool_decide (resolution_active t = false ∧
                                  (ORPHAN_RESOLUTION_THRESHOLD ≤ size (orphans t))%nat) in
      (MkOrphanTopology (orphans t) (dependents t) (resolution_pending t)
         (crossed || resolution_active t),
       Ok (MkTopologyMutation [] (cancel ++ unneeded) crossed)).

Definition remove_orphan (h : BlockHash) (t : OrphanTopology) : OrphanTopology :=
  match orphans t !! h with
  | None => t
  | Some entry =>
    MkOrphanTopology (delete h (orphans t))
      (foldl (λ deps d, mm_remove d h deps) (dependents t) (elements (oe_missing entry)))
      (resolution_pending t) (resolution_active t)
  end.

(** The loop over the orphans that waited for [h]. *)
Definition release_step (h : BlockHash)
    (s : gmap BlockHash OrphanEntry * list ValidatedNodeBlock) (o : BlockHash) :=
  match s.1 !! o with
  | None => s
  | Some entry =>
    let missing := oe_missing entry ∖ {[h]} in
    if decide (missing = ∅) then (delete o s.1, s.2 ++ [oe_block entry])
    else (<[o := MkOrphanEntry (oe_block entry) missing]> s.1, s.2)
  end.

(** The part of [block_persisted] that takes the dependents of [h] and runs the loop. *)
Definition release_dependents (h : BlockHash) (t : OrphanTopology) :
    OrphanTopology * list ValidatedNodeBlock :=
  let affected := sort_hashes (mm_get (dependents t) h) in
  let '(os, ready) := foldl (release_step h) (orphans t, []) affected in
  (MkOrphanTopology os (delete h (dependents t)) (resolution_pending t) (resolution_active t),
   ready).

Definition block_persisted (h : BlockHash) (t : OrphanTopology) :
    OrphanTopology * TopologyMutation :=
  let cancel := if decide (h ∈ resolution_pending t) then [h] else [] in
  let t := MkOrphanTopology (orphans t) (dependents t) (resolution_pending t ∖ {[h]})
             (resolution_active t) in
  let t := remove_orphan h t in
  let '(t, ready) := release_dependents h t in
  let '(t, unneeded) := remove_unneeded_pending t in
  let cancel := dedup (merge_sort hash_le (cancel ++ unneeded)) in
  (MkOrphanTopology (orphans t) (dependents t) (resolution_pending t)
     (if decide (orphans t = ∅) then false else resolution_active t),
   MkTopologyMutation ready cancel false).

(** One visit: the unseen children are recorded and pushed. *)
Definition visit_child (s : gset BlockHash * list BlockHash) (c : BlockHash) :=
  if decide (c ∈ s.1) then s else ({[c]} ∪ s.1, c :: s.2).

Fixpoint impact_loop (fuel : nat) (deps : gmap BlockHash (gset BlockHash))
    (visited : gset BlockHash) (stack : list BlockHash) : option (gset BlockHash) :=
  match stack with
  | [] => Some visited
  | h :: stack =>
    match fuel with
    | O => None
    | S fuel =>
      match deps !! h with
      | None => impact_loop fuel deps visited stack
      | Some children =>
        let '(visited, stack) := foldl visit_child (visited, stack) (elements children) in
        impact_loop fuel deps visited stack
      end
    end
  end.

(** Every iteration pops one hash, and a hash is pushed once: the start and
    each stored orphan. *)
Definition transitive_impact (dependency : BlockHash) (t : OrphanTopology) : option nat :=
  visited ← impact_loop (S (size (orphans t))) (dependents t) ∅ [dependency];
  Some (size visited).

(** Impact descending, then hash ascending. *)
Definition candidate_le (a b : BlockHash * nat) : Prop :=
  (b.2 < a.2)%nat ∨ (a.2 = b.2 ∧ hash_le a.1 b.1).
#[global] Instance candidate_le_dec : RelDecision candidate_le.
Proof. intros a b. unfold candidate_le. apply _. Defined.

Definition take_resolution_candidates (t : OrphanTopology) :
    option (OrphanTopology * list BlockHash) :=
  if resolution_active t then
    let keys := filter (λ h, orphans t !! h = None ∧ h ∉ resolution_pending t)
                  (map_to_list (dependents t)).*1 in
    candidates ← mapM (λ h, n ← transitive_impact h t; Some (h, n)) keys;
    let hashes := (merge_sort candidate_le candidates).*1 in
    Some (MkOrphanTopology (orphans t) (dependents t)
            (resolution_pending t ∪ list_to_set hashes) (resolution_active t), hashes)
  else Some (t, []).

(** * The topology invariant *)

Implicit Types (t : OrphanTopology) (h : BlockHash).

Record topology_inv t : Prop := {
  ti_key : ∀ h e, orphans t !! h = Some e → vnb_hash (oe_block e) = h ∧ oe_missing e ≠ ∅;
  ti_index_wf : mm_wf (dependents t);
  ti_index : ∀ d h, h ∈ mm_get (dependents t) d ↔
    ∃ e, orphans t !! h = Some e ∧ d ∈ oe_missing e;
  ti_pending : ∀ h, h ∈ resolution_pending t →
    is_Some (dependents t !! h) ∧ orphans t !! h = None;
  ti_capacity : (size (orphans t) ≤ MAX_ORPHAN_BLOCKS)%nat;
  ti_active : resolution_active t = true → orphans t ≠ ∅;
  ti_inactive : resolution_active t = false →
    (size (orphans t) < ORPHAN_RESOLUTION_THRESHOLD)%nat ∧ resolution_pending t = ∅
}.

Lemma topology_inv_default : topology_inv OrphanTopology_default.
Proof.
  split; simpl; try done.
  - intros d h. unfold mm_get. rewrite lookup_empty. simpl. set_solver.
  - unfold MAX_ORPHAN_BLOCKS. rewrite map_size_empty. lia.
  - intros _. rewrite map_size_empty. unfold ORPHAN_RESOLUTION_THRESHOLD. split; [lia|done].
Qed.

Lemma elem_of_sort_hashes (s : gset BlockHash) h : h ∈ sort_hashes s ↔ h ∈ s.
Proof. unfold sort_hashes. by rewrite merge_sort_Permutation, elem_of_elements. Qed.

Lemma NoDup_sort_hashes (s : gset BlockHash) : NoDup (sort_hashes s).
Proof. unfold sort_hashes. rewrite merge_sort_Permutation. apply NoDup_elements. Qed.

(** * Index loops *)

Lemma index_insert_spec (h : BlockHash) (ds : list BlockHash) (m : gmap BlockHash (gset BlockHash)) :
  mm_wf m →
  mm_wf (foldl (λ m d, mm_insert d h m) m ds) ∧
  ∀ d x, x ∈ mm_get (foldl (λ m d, mm_insert d h m) m ds) d ↔ x ∈ mm_get m d ∨ (x = h ∧ d ∈ ds).
Proof.
  revert m. induction ds as [|d0 ds IH]; intros m Hm; simpl; [set_solver|].
  destruct (IH (mm_insert d0 h m)) as [Hw Hg]; [by apply mm_wf_insert|].
  split; [done|]. intros d x. rewrite Hg, mm_get_insert. case_decide; set_solver.
Qed.

Lemma index_remove_spec (h : BlockHash) (ds : list BlockHash) (m : gmap BlockHash (gset BlockHash)) :
  mm_wf m →
  mm_wf (foldl (λ m d, mm_remove d h m) m ds) ∧
  ∀ d x, x ∈ mm_get (foldl (λ m d, mm_remove d h m) m ds) d ↔ x ∈ mm_get m d ∧ ¬ (x = h ∧ d ∈ ds).
Proof.
  revert m. induction ds as [|d0 ds IH]; intros m Hm; simpl; [set_solver|].
  destruct (IH (mm_remove d0 h m)) as [Hw Hg]; [by apply mm_wf_remove|].
  split; [done|]. intros d x. rewrite Hg, mm_get_remove. case_decide; set_solver.
Qed.

Lemma mm_get_is_Some (m : gmap BlockHash (gset BlockHash)) d x : x ∈ mm_get m d → is_Some (m !! d).
Proof. unfold mm_get. destruct (m !! d); simpl; [eauto|set_solver]. Qed.

Lemma mm_is_Some_get (m : gmap BlockHash (gset BlockHash)) d :
  mm_wf m → is_Some (m !! d) → ∃ x, x ∈ mm_get m d.
Proof.
  intros Hw [s Hs]. pose proof (Hw _ _ Hs) as Hne. apply set_choose_L in Hne as [x Hx].
  exists x. unfold mm_get. by rewrite Hs.
Qed.

(** * Pending resolutions *)

Lemma foldl_difference (s : gset BlockHash) xs : foldl (λ s h, s ∖ {[h]}) s xs = s ∖ list_to_set xs.
Proof. revert s. induction xs as [|x xs IH]; intros s; simpl; [|rewrite IH]; set_solver. Qed.

Lemma remove_unneeded_pending_spec t :
  orphans (remove_unneeded_pending t).1 = orphans t ∧
  dependents (remove_unneeded_pending t).1 = dependents t ∧
  resolution_active (remove_unneeded_pending t).1 = resolution_active t ∧
  (∀ h, h ∈ resolution_pending (remove_unneeded_pending t).1 ↔
     h ∈ resolution_pending t ∧ is_Some (dependents t !! h)) ∧
  (∀ h, h ∈ (remove_unneeded_pending t).2 ↔ h ∈ resolution_pending t ∧ dependents t !! h = None) ∧
  NoDup (remove_unneeded_pending t).2.
Proof.
  unfold remove_unneeded_pending; simpl. split_and!; [done..| | |apply NoDup_sort_hashes].
  - intros h. rewrite foldl_difference, elem_of_difference, elem_of_list_to_set, elem_of_sort_hashes.
    rewrite elem_of_filter, <- not_eq_None_Some. destruct (decide (dependents t !! h = None)); tauto.
  - intros h. rewrite elem_of_sort_hashes, elem_of_filter. tauto.
Qed.

(** * Adding an orphan *)

Lemma add_orphan_inv block missing t :
  topology_inv t → topology_inv (add_orphan block missing t).1.
Proof.
  intros [Hk Hw Hi Hp Hc Ha Hn]. unfold add_orphan.
  case_decide as Hin; [by split|]. case_decide as Hcap; [by split|]. cbv zeta.
  case_decide as Hne; [by split|].
  assert (orphans t !! vnb_hash block = None) as Hfresh by (by apply eq_None_not_Some).
  match goal with |- context [remove_unneeded_pending ?x] => set (t1 := x) end.
  destruct (remove_unneeded_pending_spec t1) as (Eo & Ed & Ea & Ep & _).
  destruct (remove_unneeded_pending t1) as [t2 unneeded]. cbn [fst snd] in *.
  destruct (index_insert_spec (vnb_hash block) (elements (list_to_set missing : gset BlockHash))
    (dependents t) Hw) as [Hw' Hg].
  assert (size (orphans t2) = S (size (orphans t))) as Hsz
    by (rewrite Eo; simpl; by rewrite map_size_insert_None).
  split; cbn [orphans dependents resolution_pending resolution_active].
  - intros h e. rewrite Eo. simpl. rewrite lookup_insert. case_decide; [|apply Hk].
    intros [= <-]. by subst.
  - by rewrite Ed.
  - intros d h. rewrite Ed, Eo. simpl. rewrite Hg, Hi, elem_of_elements, lookup_insert.
    case_decide as Heq; [subst h|naive_solver].
    rewrite Hfresh. split; [intros [(? & ? & _)|[_ ?]]; [done|by eexists]|].
    intros (e & [= <-] & He). by right.
  - intros h. rewrite Ep, Ed, Eo. simpl. rewrite elem_of_difference, elem_of_singleton.
    intros [[Hh Hnb] Hs]. split; [done|]. rewrite lookup_insert_ne by done. by apply Hp.
  - lia.
  - intros _ Hemp. rewrite Hemp, map_size_empty in Hsz. done.
  - rewrite orb_false_iff. intros [Hcr Hac]. rewrite bool_decide_eq_false in Hcr.
    split; [apply Nat.nle_gt; intros Hge; apply Hcr; by rewrite Hac|].
    apply set_eq. intros h. rewrite Ep. simpl. rewrite Ea in Hac. simpl in Hac.
    destruct (Hn Hac) as [_ ->]. set_solver.
Qed.

(** * Persisting a block *)

(** The orphans left once [h] is persisted: everyone but [h] itself, no longer
    missing it, while something else is missing. *)
Definition without_dependency h (e : OrphanEntry) : OrphanEntry :=
  MkOrphanEntry (oe_block e) (oe_missing e ∖ {[h]}).

Definition kept_entry h (e : OrphanEntry) : option OrphanEntry :=
  if decide (oe_missing e ∖ {[h]} = ∅) then None else Some (without_dependency h e).
Definition released_block h (e : OrphanEntry) : option ValidatedNodeBlock :=
  if decide (oe_missing e ∖ {[h]} = ∅) then Some (oe_block e) else None.

Lemma release_step_spec h os ready x :
  ∃ os1, release_step h (os, ready) x = (os1, ready ++ option_list (os !! x ≫= released_block h)) ∧
    (∀ o, o ≠ x → os1 !! o = os !! o) ∧ os1 !! x = os !! x ≫= kept_entry h.
Proof.
  unfold release_step, kept_entry, released_block; cbn [fst snd].
  destruct (os !! x) as [e|] eqn:E; run_bind.
  - case_decide; simpl; rewrite ?app_nil_r; eexists; (split; [done|]).
    + split; [intros; by apply lookup_delete_ne|apply lookup_delete_eq].
    + split; [intros; by apply lookup_insert_ne|by rewrite lookup_insert_eq].
  - exists os. simpl. by rewrite app_nil_r.
Qed.

Lemma release_loop_spec h (xs : list BlockHash) os ready :
  NoDup xs →
  let '(os', ready') := foldl (release_step h) (os, ready) xs in
  (∀ o, os' !! o = if decide (o ∈ xs) then os !! o ≫= kept_entry h else os !! o) ∧
  ready' = ready ++ omap (λ o, os !! o ≫= released_block h) xs.
Proof.
  revert os ready. induction xs as [|x xs IH]; intros os ready Hn.
  { simpl. by rewrite app_nil_r. }
  apply NoDup_cons in Hn as [Hx Hn]. cbn [foldl].
  destruct (release_step_spec h os ready x) as (os1 & -> & Hne & Hat).
  specialize (IH os1 (ready ++ option_list (os !! x ≫= released_block h)) Hn).
  destruct (foldl (release_step h) _ xs) as [os' ready']. destruct IH as [Ho ->]. split.
  - intros o. rewrite Ho. destruct (decide (o = x)) as [->|Hox].
    + rewrite decide_False by done. rewrite decide_True by left. done.
    + rewrite Hne by done. destruct (decide (o ∈ xs)).
      * by rewrite decide_True by (by right).
      * rewrite decide_False; [done|]. set_solver.
  - rewrite <- app_assoc. f_equal.
    assert (omap (λ o, os1 !! o ≫= released_block h) xs = omap (λ o, os !! o ≫= released_block h) xs) as ->.
    { apply list_omap_ext, Forall_Forall2_diag, Forall_forall. intros y Hy. rewrite Hne; [done|].
      by intros ->. }
    simpl. by destruct (os !! x ≫= released_block h).
Qed.

Lemma difference_singleton_empty (X : gset BlockHash) h : h ∈ X → X ∖ {[h]} = ∅ → X = {[h]}.
Proof.
  intros Hh He. apply set_eq; intros x. rewrite elem_of_singleton. split; [|by intros ->].
  intros Hx. apply dec_stable. intros Hne. assert (x ∈ X ∖ {[h]}) as Hc by set_solver.
  rewrite He in Hc. set_solver.
Qed.

(** The stages of [block_persisted] before the pending clean-up. *)
Lemma remove_orphan_index h t :
  topology_inv t →
  orphans (remove_orphan h t) = delete h (orphans t) ∧
  resolution_pending (remove_orphan h t) = resolution_pending t ∧
  resolution_active (remove_orphan h t) = resolution_active t ∧
  mm_wf (dependents (remove_orphan h t)) ∧
  (∀ d x, x ∈ mm_get (dependents (remove_orphan h t)) d ↔
     x ≠ h ∧ ∃ e, orphans t !! x = Some e ∧ d ∈ oe_missing e).
Proof.
  intros Ht. unfold remove_orphan. destruct (orphans t !! h) as [e|] eqn:E; simpl.
  - destruct (index_remove_spec h (elements (oe_missing e)) (dependents t) (ti_index_wf _ Ht))
      as [Hw Hg].
    split_and!; try done. intros d x. rewrite Hg, (ti_index _ Ht), elem_of_elements. split.
    + intros [Hx Hn]. split; [|done]. intros ->. apply Hn. split; [done|].
      destruct Hx as (e' & He' & Hd). congruence.
    + intros [Hx Hd]. split; [done|]. naive_solver.
  - split_and!; [by rewrite delete_id|done|done|apply Ht|]. intros d x. rewrite (ti_index _ Ht).
    split; [|naive_solver]. intros (e & He & Hd). split; [congruence|eauto].
Qed.

(** Removing [h] and releasing its dependents. *)
Definition persisted_entry h (o : BlockHash) (e : OrphanEntry) : option OrphanEntry :=
  if decide (o = h) then None
  else if decide (h ∈ oe_missing e) then kept_entry h e else Some e.

Lemma released_fields h t :
  topology_inv t →
  let '(t', ready) := release_dependents h (remove_orphan h t) in
  (∀ o, orphans t' !! o = orphans t !! o ≫= persisted_entry h o) ∧
  (∀ b, b ∈ ready ↔
     ∃ o e, o ≠ h ∧ orphans t !! o = Some e ∧ oe_missing e = {[h]} ∧ oe_block e = b) ∧
  mm_wf (dependents t') ∧
  (∀ d x, x ∈ mm_get (dependents t') d ↔
     d ≠ h ∧ x ≠ h ∧ ∃ e, orphans t !! x = Some e ∧ d ∈ oe_missing e) ∧
  resolution_pending t' = resolution_pending t ∧ resolution_active t' = resolution_active t.
Proof.
  intros Ht. destruct (remove_orphan_index h t Ht) as (Eo & Ep & Ea & Hw & Hg).
  set (t1 := remove_orphan h t) in *. clearbody t1. unfold release_dependents.
  pose proof (release_loop_spec h (sort_hashes (mm_get (dependents t1) h)) (orphans t1) []
    (NoDup_sort_hashes _)) as Hrel.
  destruct (foldl (release_step h) (orphans t1, []) _) as [os ready]. destruct Hrel as [Hos ->].
  cbn [orphans dependents resolution_pending resolution_active].
  assert (∀ x, x ∈ sort_hashes (mm_get (dependents t1) h) ↔
    x ≠ h ∧ ∃ e, orphans t !! x = Some e ∧ h ∈ oe_missing e) as Hmem.
  { intros x. by rewrite elem_of_sort_hashes, Hg. }
  split_and!; [| |by apply mm_wf_delete| |done|done].
  - intros o. rewrite Hos, Eo, lookup_delete. unfold persisted_entry.
    destruct (decide (o = h)) as [->|Hoh].
    + rewrite decide_False; [rewrite decide_True by done; by destruct (orphans t !! h)|].
      by intros [? _]%Hmem.
    + rewrite (decide_False (P := h = o)) by congruence.
      destruct (orphans t !! o) as [e|] eqn:E; simpl; [|by case_decide].
      destruct (decide (h ∈ oe_missing e)) as [Hin|Hin].
      * rewrite decide_True; [done|]. apply Hmem. split; [done|]. by exists e.
      * rewrite decide_False; [done|]. intros [_ (e' & He' & Hin')]%Hmem.
        rewrite E in He'. injection He' as ->. by apply Hin.
  - intros b. simpl. rewrite list_elem_of_omap. split.
    + intros (o & Ho & Hb). apply Hmem in Ho as [Hoh (e & He & Hin)].
      rewrite Eo, lookup_delete_ne in Hb by done. rewrite He in Hb. simpl in Hb.
      unfold released_block in Hb. case_decide as Hm; [|done]. injection Hb as <-.
      exists o, e. split_and!; [done..| |done]. by apply difference_singleton_empty.
    + intros (o & e & Hoh & He & Hm & <-). exists o. split.
      { apply Hmem. split; [done|]. exists e. split; [done|]. rewrite Hm. by apply elem_of_singleton. }
      rewrite Eo, lookup_delete_ne by done. rewrite He. simpl. unfold released_block.
      rewrite decide_True; [done|]. rewrite Hm. clear. set_solver.
  - intros d x. rewrite mm_get_delete. case_decide as Hd; [subst; set_solver|].
    rewrite Hg. split; [intros [? ?]; split_and!; [congruence|done..]|by intros (_ & ? & ?)].
Qed.

Lemma topology_inv_unpend h t :
  topology_inv t →
  topology_inv (MkOrphanTopology (orphans t) (dependents t) (resolution_pending t ∖ {[h]})
                  (resolution_active t)).
Proof.
  intros [H1 H2 H3 H4 H5 H6 H7]. split; try done.
  - intros x. simpl. set_solver.
  - simpl. intros Hf. destruct (H7 Hf) as [? ->]. split; [done|set_solver].
Qed.

Lemma persisted_size h t t' :
  (∀ o, orphans t' !! o = orphans t !! o ≫= persisted_entry h o) →
  (size (orphans t') ≤ size (orphans t))%nat.
Proof.
  intros Ho. rewrite <- !size_dom. apply subseteq_size. intros o. rewrite !elem_of_dom, Ho.
  intros [x Hx]. destruct (orphans t !! o); [eauto|done].
Qed.

(** Everything [block_persisted] changes. *)
Lemma block_persisted_fields h t :
  topology_inv t →
  let '(t', mu) := block_persisted h t in
  (∀ o, orphans t' !! o = orphans t !! o ≫= persisted_entry h o) ∧
  (∀ b, b ∈ tm_ready mu ↔
     ∃ o e, o ≠ h ∧ orphans t !! o = Some e ∧ oe_missing e = {[h]} ∧ oe_block e = b) ∧
  mm_wf (dependents t') ∧
  (∀ d x, x ∈ mm_get (dependents t') d ↔
     d ≠ h ∧ x ≠ h ∧ ∃ e, orphans t !! x = Some e ∧ d ∈ oe_missing e) ∧
  (∀ x, x ∈ resolution_pending t' ↔
     x ∈ resolution_pending t ∧ x ≠ h ∧ is_Some (dependents t' !! x)) ∧
  resolution_active t' = (if decide (orphans t' = ∅) then false else resolution_active t).
Proof.
  intros Ht. unfold block_persisted.
  pose proof (released_fields h _ (topology_inv_unpend h t Ht)) as Hr.
  destruct (release_dependents h _) as [t1 ready]. simpl in Hr.
  destruct Hr as (Ho & Hb & Hw & Hg & Hp & Ha).
  destruct (remove_unneeded_pending_spec t1) as (Eo & Ed & Ea & Ep & _).
  destruct (remove_unneeded_pending t1) as [t2 un].
  cbn [fst snd orphans dependents resolution_pending resolution_active tm_ready] in *.
  split_and!.
  - intros o. by rewrite Eo, Ho.
  - done.
  - by rewrite Ed.
  - intros d x. by rewrite Ed, Hg.
  - intros x. rewrite Ep, Hp, Ed, elem_of_difference, elem_of_singleton. tauto.
  - by rewrite Ea, Ha.
Qed.

Lemma block_persisted_inv h t : topology_inv t → topology_inv (block_persisted h t).1.
Proof.
  intros Ht. pose proof (block_persisted_fields h t Ht) as Hf.
  destruct (block_persisted h t) as [t' mu]. destruct Hf as (Ho & _ & Hw & Hg & Hp & Ha).
  cbn [fst]. pose proof (persisted_size h t t' Ho) as Hsz.
  assert (∀ o e, orphans t' !! o = Some e → o ≠ h ∧ ∃ e0, orphans t !! o = Some e0 ∧
    oe_block e = oe_block e0 ∧ oe_missing e = oe_missing e0 ∖ {[h]} ∧ oe_missing e ≠ ∅) as Hent.
  { intros o e. rewrite Ho. destruct (orphans t !! o) as [e0|] eqn:E; [|done]. simpl.
    unfold persisted_entry, kept_entry. destruct (decide (o = h)) as [|Hoh]; [done|].
    destruct (decide (h ∈ oe_missing e0)) as [Hin|Hin].
    - destruct (decide (oe_missing e0 ∖ {[h]} = ∅)) as [Hz|Hz]; [done|]. intros [= <-]. split; [done|]. exists e0. by split_and!.
    - intros [= <-]. split; [done|]. exists e0. split_and!; [done|done|clear -Hin; set_solver|].
      by apply (ti_key _ Ht o). }
  split.
  - intros o e (_ & e0 & He0 & Hb & _ & Hne)%Hent. rewrite Hb. split; [|done]. by apply (ti_key _ Ht o).
  - done.
  - intros d x. rewrite Hg. split.
    + intros (Hd & Hx & e & He & Hin).
      assert (persisted_entry h x e
        = Some (if decide (h ∈ oe_missing e) then without_dependency h e else e)) as Hpe.
      { unfold persisted_entry, kept_entry. rewrite (decide_False (P := x = h)) by done.
        destruct (decide (h ∈ oe_missing e)); [|done]. rewrite decide_False; [done|]. intros Hemp. clear -Hemp Hin Hd.
        assert (d ∈ oe_missing e ∖ {[h]}) as Hc by set_solver. rewrite Hemp in Hc. set_solver. }
      eexists. rewrite Ho, He. simpl. split; [exact Hpe|]. case_decide; [|done]. simpl. set_solver.
    + intros (e & (Hx & e0 & He0 & _ & Hm & _)%Hent & Hin). rewrite Hm in Hin.
      apply elem_of_difference in Hin as [Hin Hd%not_elem_of_singleton]. split_and!; eauto.
  - intros x (Hx & Hxh & Hs)%Hp. split; [done|]. rewrite Ho. by destruct (ti_pending _ Ht x Hx) as [_ ->].
  - etrans; [exact Hsz|apply Ht].
  - rewrite Ha. by case_decide.
  - intros Hact. assert (size (orphans t') < ORPHAN_RESOLUTION_THRESHOLD)%nat as Hlt.
    { rewrite Ha in Hact. case_decide as Hemp.
      - rewrite Hemp, map_size_empty. unfold ORPHAN_RESOLUTION_THRESHOLD. lia.
      - eapply Nat.le_lt_trans; [exact Hsz|]. by apply (ti_inactive _ Ht). }
    split; [done|]. apply set_eq. intros x. split; [|set_solver]. intros (Hx & Hxh & Hs)%Hp.
    rewrite Ha in Hact. case_decide as Hemp.
    + destruct (mm_is_Some_get _ _ Hw Hs) as [y (Hd & Hy & e & He & Hin)%Hg].
      exfalso. assert (is_Some (orphans t' !! y)) as [? Hc]; [|by rewrite Hemp, lookup_empty in Hc].
      rewrite Ho, He. simpl. unfold persisted_entry, kept_entry. rewrite (decide_False (P := y = h)) by done.
      destruct (decide (h ∈ oe_missing e)); [|eauto]. rewrite decide_False; [eauto|]. intros Hz.
      assert (x ∈ oe_missing e ∖ {[h]}) as Hc by (clear -Hin Hd; set_solver).
      rewrite Hz in Hc. clear -Hc. set_solver.
    + destruct (ti_inactive _ Ht Hact) as [_ Hz]. rewrite Hz in Hx. done.
Qed.

(** * Transitive impact *)

(** [c] directly waits for [d]. *)
Definition waits (deps : gmap BlockHash (gset BlockHash)) (d c : BlockHash) : Prop :=
  c ∈ mm_get deps d.

Lemma visit_children_spec (U : gset BlockHash) cs V stack :
  (∀ c, c ∈ cs → c ∈ U) →
  let '(V', stack') := foldl visit_child (V, stack) cs in
  V' = V ∪ list_to_set cs ∧
  (∀ x, x ∈ stack' ↔ x ∈ stack ∨ (x ∈ cs ∧ x ∉ V)) ∧
  (length stack' + size (U ∖ V') = length stack + size (U ∖ V))%nat.
Proof.
  revert V stack. induction cs as [|c cs IH]; intros V stack HU.
  { simpl. split_and!; [set_solver|set_solver|done]. }
  cbn [foldl]. unfold visit_child at 2; cbn [fst snd]. case_decide as Hc.
  - specialize (IH V stack ltac:(set_solver)). destruct (foldl visit_child (V, stack) cs) as [V' st'].
    destruct IH as (-> & Hs & Hm). split_and!; [set_solver| |done].
    intros x. rewrite Hs, elem_of_cons. split; [tauto|]. intros [?|[[->|?] ?]]; tauto.
  - specialize (IH ({[c]} ∪ V) (c :: stack) ltac:(set_solver)).
    destruct (foldl visit_child ({[c]} ∪ V, c :: stack) cs) as [V' st'].
    destruct IH as (-> & Hs & Hm). split_and!; [set_solver| |].
    + intros x. rewrite Hs, !elem_of_cons, elem_of_union, elem_of_singleton.
      destruct (decide (x = c)) as [->|]; tauto.
    + rewrite Hm. simpl. assert (U ∖ V = {[c]} ∪ U ∖ ({[c]} ∪ V)) as ->.
      { apply set_eq. intros x. rewrite !elem_of_difference, !elem_of_union, elem_of_singleton.
        assert (c ∈ U) by (apply HU; left). destruct (decide (x = c)) as [->|]; tauto || set_solver. }
      assert (size ({[c]} ∪ U ∖ ({[c]} ∪ V)) = (1 + size (U ∖ ({[c]} ∪ V)))%nat) as ->; [|lia].
      rewrite <- (size_singleton (C := gset BlockHash) c). apply size_union. set_solver.
Qed.

Record impact_inv (deps : gmap BlockHash (gset BlockHash)) (d : BlockHash) (V : gset BlockHash)
    (stack : list BlockHash) : Prop := {
  ii_sound : ∀ x, x ∈ V → tc (waits deps) d x;
  ii_stack : ∀ x, x ∈ stack → x = d ∨ x ∈ V;
  ii_closed : ∀ x c, x = d ∨ x ∈ V → x ∉ stack → waits deps x c → c ∈ V
}.

(** Popping a hash and visiting its children keeps the invariant. *)
Lemma impact_inv_step deps d V h stack V' stack' :
  impact_inv deps d V (h :: stack) →
  V' = V ∪ mm_get deps h →
  (∀ x, x ∈ stack' ↔ x ∈ stack ∨ (x ∈ mm_get deps h ∧ x ∉ V)) →
  impact_inv deps d V' stack'.
Proof.
  intros [Hs Hk Hc] -> Hst. split.
  - intros x [?|Hx]%elem_of_union; [by apply Hs|].
    destruct (Hk h ltac:(left)) as [->|Hh]; [by apply tc_once|].
    eapply tc_r; [by apply Hs|done].
  - intros x [Hx|[Hx _]]%Hst; [|set_solver]. destruct (Hk x ltac:(by right)); set_solver.
  - intros x c Hx Hn Hw. destruct (decide (x = h)) as [->|Hxh]; [set_solver|].
    apply elem_of_union_l. assert (x ∉ stack) as Hns by (rewrite Hst in Hn; tauto).
    apply (Hc x); [|set_solver|done]. destruct Hx as [?|[?|Hx]%elem_of_union]; [tauto|tauto|].
    right. apply dec_stable. intros Hv. apply Hn. apply Hst. tauto.
Qed.

Lemma impact_inv_done deps d V x :
  impact_inv deps d V [] → x ∈ V ↔ tc (waits deps) d x.
Proof.
  intros [Hs _ Hc]. split; [apply Hs|]. intros Ht. revert x Ht.
  apply tc_ind_r.
  - intros y Hy. apply (Hc d); [by left|set_solver|done].
  - intros y z _ Hyz Hy. apply (Hc y); [by right|set_solver|done].
Qed.

Lemma impact_loop_spec deps (U : gset BlockHash) d fuel V stack :
  (∀ a c, waits deps a c → c ∈ U) → impact_inv deps d V stack →
  (length stack + size (U ∖ V) ≤ fuel)%nat →
  ∃ V', impact_loop fuel deps V stack = Some V' ∧ ∀ x, x ∈ V' ↔ tc (waits deps) d x.
Proof.
  intros HU. revert V stack. induction fuel as [|fuel IH]; intros V stack Hi Hf.
  - destruct stack; [|simpl in Hf; lia]. exists V. split; [done|]. intros x; by apply impact_inv_done.
  - destruct stack as [|h stack]; [exists V; split; [done|]; intros x; by apply impact_inv_done|].
    cbn [impact_loop]. simpl in Hf. destruct (deps !! h) as [children|] eqn:E.
    + pose proof (visit_children_spec U (elements children) V stack) as Hv.
      assert (mm_get deps h = children) as Hget by (unfold mm_get; by rewrite E).
      destruct (foldl visit_child (V, stack) (elements children)) as [V' stack'].
      destruct Hv as (HV & Hst & Hm).
      { intros c Hc%elem_of_elements. apply (HU h). unfold waits. by rewrite Hget. }
      apply IH; [|lia]. eapply impact_inv_step; [exact Hi|rewrite Hget, HV; set_solver|].
      intros x. by rewrite Hst, elem_of_elements, Hget.
    + assert (mm_get deps h = ∅) as Hget by (unfold mm_get; by rewrite E).
      apply IH; [|lia]. eapply impact_inv_step; [exact Hi|rewrite Hget; set_solver|].
      intros x. rewrite Hget. set_solver.
Qed.

(** The impact of a dependency is the number of orphans that wait for it,
    directly or through other orphans. *)
Lemma transitive_impact_spec d t :
  topology_inv t →
  ∃ V : gset BlockHash, transitive_impact d t = Some (size V) ∧
    ∀ x, x ∈ V ↔ tc (waits (dependents t)) d x.
Proof.
  intros Ht. unfold transitive_impact.
  destruct (impact_loop_spec (dependents t) (dom (orphans t)) d (S (size (orphans t))) ∅ [d])
    as (V & -> & HV).
  - intros a c (e & He & _)%(ti_index _ Ht). apply elem_of_dom. eauto.
  - split; [set_solver|set_solver|]. intros x c [->|?]; set_solver.
  - rewrite difference_empty_L, size_dom. simpl. lia.
  - by exists V.
Qed.

(** * Resolution candidates *)

#[global] Instance candidate_le_total : Total candidate_le.
Proof.
  intros [h n] [k m]. unfold candidate_le; simpl.
  destruct (Nat.lt_trichotomy n m) as [?|[->|?]]; [by right; left| |by left; left].
  destruct (total hash_le h k); [left|right]; by right.
Qed.

Lemma mapM_fmap {A B} (f : A → option B) (g : A → B) (l : list A) :
  (∀ x, x ∈ l → f x = Some (g x)) → mapM f l = Some (g <$> l).
Proof.
  induction l as [|x l IH]; intros Hf; [done|]. simpl. rewrite (Hf x) by left. simpl.
  rewrite IH; [done|]. intros; apply Hf; by right.
Qed.

Definition impact_of t (h : BlockHash) : nat := default 0%nat (transitive_impact h t).

Definition is_candidate t (h : BlockHash) : Prop :=
  is_Some (dependents t !! h) ∧ orphans t !! h = None ∧ h ∉ resolution_pending t.

(** Every missing reference that is neither stored nor pending is requested
    once, in order of decreasing impact and then increasing hash. *)
Lemma take_resolution_candidates_spec t :
  topology_inv t → resolution_active t = true →
  ∃ t' hs, take_resolution_candidates t = Some (t', hs) ∧ topology_inv t' ∧
    NoDup hs ∧ (∀ h, h ∈ hs ↔ is_candidate t h) ∧
    Sorted candidate_le ((λ h, (h, impact_of t h)) <$> hs) ∧
    resolution_pending t' = resolution_pending t ∪ list_to_set hs ∧
    orphans t' = orphans t ∧ dependents t' = dependents t.
Proof.
  intros Ht Ha. unfold take_resolution_candidates. rewrite Ha.
  set (keys := filter _ (map_to_list (dependents t)).*1).
  assert (∀ h, transitive_impact h t = Some (impact_of t h)) as Himp.
  { intros h. destruct (transitive_impact_spec h t Ht) as (V & E & _). unfold impact_of. by rewrite E. }
  rewrite (mapM_fmap _ (λ h, (h, impact_of t h))) by (intros h _; by rewrite Himp).
  run_bind.
  set (cs := merge_sort candidate_le ((λ h, (h, impact_of t h)) <$> keys)).
  assert (cs ≡ₚ (λ h, (h, impact_of t h)) <$> keys) as Hperm by apply merge_sort_Permutation.
  assert (∀ h, h ∈ keys ↔ is_candidate t h) as Hkeys.
  { intros h. unfold keys, is_candidate. rewrite list_elem_of_filter, list_elem_of_fmap. split.
    - intros [[? ?] ([k s] & -> & Hk%elem_of_map_to_list)]. split_and!; eauto.
    - intros ([s Hs] & ? & ?). split; [done|]. exists (h, s). by rewrite elem_of_map_to_list. }
  assert (cs.*1 ≡ₚ keys) as Hp1.
  { rewrite Hperm. by rewrite <- list_fmap_compose, list_fmap_id. }
  assert ((λ h, (h, impact_of t h)) <$> cs.*1 = cs) as Hcs.
  { rewrite <- list_fmap_compose. apply list_eq_Forall2, Forall2_fmap_l, Forall_Forall2_diag, Forall_forall.
    intros [h n] Hin. rewrite Hperm in Hin. apply list_elem_of_fmap in Hin as (k & [= -> ->] & _). done. }
  eexists _, cs.*1. split; [done|]. split_and!; try done.
  - destruct Ht as [H1 H2 H3 H4 H5 H6 H7]. split; try done.
    + simpl. intros h [?|Hh]%elem_of_union; [by apply H4|].
      apply elem_of_list_to_set in Hh. rewrite Hp1, Hkeys in Hh. split; apply Hh.
    + intros _. by apply H6.
  - rewrite Hp1. apply NoDup_filter, NoDup_fst_map_to_list.
  - intros h. by rewrite Hp1.
  - rewrite Hcs. apply Sorted_merge_sort, _.
Qed.
End orphan.
