(* ===== verification/Resolver.v ===== *)
(** The vocabulary the block processor shares with its children and with
    storage ([kgi-storage] operation.rs, [crates/kgi-processing/src/block_processor/mod.rs],
    [error.rs]), and the dependency resolver of [dependency.rs]: a worker that
    fetches requested blocks through spawned tasks, at most eight of them past
    the semaphore at a time.

    A task of the [JoinSet] waits for a permit, runs its request, and ends
    with a result, or cancelled when it was aborted before; the worker joins
    ended tasks in any order.  Its [select!] is biased: a command before work,
    work before joining.  The worker's handle is dropped only by its own
    shutdown, after the worker has returned: the branches of a closed command
    path and of a closed work mailbox are unreachable, and left out. *)

From S2P Require Import Prelude Model Faults Channel.

#[local] Open Scope N_scope.

Inductive ReferencePolicy := AllowBoundaryIdentities | RequireMaterialized.
#[global] Instance ReferencePolicy_eq_dec : EqDecision ReferencePolicy.
Proof. solve_decision. Defined.

Inductive BlockPresence :=
  | Absent
  | BoundaryIdentity (id : CompactId)
  | Materialized (id : CompactId) (coordinate : BlockCoordinate).

Inductive ChildControlError := CommandPathClosed | AcknowledgementLost | WorkerJoinFailed.

Inductive SessionDataPath := OrphanInput | ResolverWorkPath | ResolutionPath.

(** [InvalidProtocol]'s operator text tells its three reporters apart. *)
Inductive InvalidProtocolReason := DuplicateResolution | UntrackedTask | EmptyMissing.

Inductive ChildFaultKind :=
  | OrphanCapacityExhausted
  | SessionDataFull (path : SessionDataPath)
  | Child_SessionDataEndpointLost (path : SessionDataPath)
  | Child_Ownership (fault : OwnershipFault)
  | InvalidProtocol (reason : InvalidProtocolReason).

Record ChildFault := MkChildFault { chf_source : Component; chf_kind : ChildFaultKind }.

(** [From<ChildControlError> for ChildFault]. *)
Definition child_fault_from (error : ChildControlError) : ChildFault :=
  MkChildFault DependencyResolver
    (Child_Ownership match error with
                     | CommandPathClosed | AcknowledgementLost => InternalControlPathLost
                     | WorkerJoinFailed => UnexpectedWorkerTermination
                     end).

Section block_types.
Context {KH : KaspaHash}.

Inductive MaterializeBlockOutcome :=
  | Inserted (committed : BlockCommitted)
  | AlreadyMaterialized (id : CompactId) (coordinate : BlockCoordinate).

Inductive MaterializeBlockError :=
  | Materialize_Database (error : ProcessingDbError)
  | IncomingBoundaryIdentity (hash : BlockHash)
  | NonMaterializedReferences (missing identity_only : list BlockHash).

Inductive BlockResolutionEvent :=
  | OrphanReady (block : ValidatedNodeBlock)
  | DependencyResolved (requested_hash : BlockHash) (result : Result ValidatedNodeBlock NodeError).

Inductive ResolverWork :=
  | Resolve (hash : BlockHash)
  | CancelWork (hash : BlockHash).

Inductive OrphanMessage :=
  | AddOrphan (block : ValidatedNodeBlock) (missing : list BlockHash)
  | BlockPersisted (hash : BlockHash).

(** What a child sends into: the resolution mailbox of the processor, and the
    unbounded fault path of its owner. *)
Record Ports := MkPorts {
  pt_resolution : BoundedQueue BlockResolutionEvent;
  pt_faults : list ChildFault
}.

Definition report_child_fault (source : Component) (kind : ChildFaultKind) (ports : Ports) : Ports :=
  MkPorts (pt_resolution ports) (pt_faults ports ++ [MkChildFault source kind]).
End block_types.

Definition MAX_DEPENDENCY_RPC_CONCURRENCY : nat := 8.

Section resolver.
Context {KH : KaspaHash}.

(** Where a spawned task stands. *)
Inductive TaskPhase :=
  | TaskWaiting
  | TaskActive
  | TaskEnded (result : Result ValidatedNodeBlock NodeError)
  | TaskCancelled
  | TaskPanicked.

Record ResolverTask := MkResolverTask { tk_phase : TaskPhase; tk_aborted : bool }.

Inductive ResolverControl := ResolverInert | ResolverRunning | ResolverReturned.

(** [dr_shutdown] is the command on the control path; [dr_next_task] the next
    unused task identity. *)
Record DependencyResolverWorker := MkResolver {
  dr_control : ResolverControl;
  dr_shutdown : bool;
  dr_work : BoundedQueue ResolverWork;
  dr_tasks : gmap N ResolverTask;
  dr_tasks_by_hash : gmap BlockHash N;
  dr_hashes_by_task : gmap N BlockHash;
  dr_cancelled_tasks : gset N;
  dr_faulted : bool;
  dr_work_open : bool;
  dr_next_task : N;
  dr_active : N;
  dr_waiting : N
}.

Definition DependencyResolver_new : DependencyResolverWorker :=
  MkResolver ResolverInert false bounded_channel ∅ ∅ ∅ ∅ false true 0 0 0.

Definition dr_set_control (c : ResolverControl) (r : DependencyResolverWorker) : DependencyResolverWorker :=
  MkResolver c (dr_shutdown r) (dr_work r) (dr_tasks r) (dr_tasks_by_hash r) (dr_hashes_by_task r)
    (dr_cancelled_tasks r) (dr_faulted r) (dr_work_open r) (dr_next_task r) (dr_active r) (dr_waiting r).
Definition dr_set_work (q : BoundedQueue ResolverWork) (r : DependencyResolverWorker) : DependencyResolverWorker :=
  MkResolver (dr_control r) (dr_shutdown r) q (dr_tasks r) (dr_tasks_by_hash r) (dr_hashes_by_task r)
    (dr_cancelled_tasks r) (dr_faulted r) (dr_work_open r) (dr_next_task r) (dr_active r) (dr_waiting r).
Definition dr_set_tasks (ts : gmap N ResolverTask) (r : DependencyResolverWorker) : DependencyResolverWorker :=
  MkResolver (dr_control r) (dr_shutdown r) (dr_work r) ts (dr_tasks_by_hash r) (dr_hashes_by_task r)
    (dr_cancelled_tasks r) (dr_faulted r) (dr_work_open r) (dr_next_task r) (dr_active r) (dr_waiting r).
Definition dr_set_faulted (r : DependencyResolverWorker) : DependencyResolverWorker :=
  MkResolver (dr_control r) (dr_shutdown r) (dr_work r) (dr_tasks r) (dr_tasks_by_hash r) (dr_hashes_by_task r)
    (dr_cancelled_tasks r) true (dr_work_open r) (dr_next_task r) (dr_active r) (dr_waiting r).
Definition dr_set_counters (active waiting : N) (r : DependencyResolverWorker) : DependencyResolverWorker :=
  MkResolver (dr_control r) (dr_shutdown r) (dr_work r) (dr_tasks r) (dr_tasks_by_hash r) (dr_hashes_by_task r)
    (dr_cancelled_tasks r) (dr_faulted r) (dr_work_open r) (dr_next_task r) active waiting.

Definition resolver_start (r : DependencyResolverWorker) : DependencyResolverWorker := dr_set_control ResolverRunning r.

(** [resolve] and [cancel], on the handle. *)
Definition resolver_send (work : ResolverWork) (r : DependencyResolverWorker) :
    DependencyResolverWorker * Result unit TrySendError :=
  let '(q, sent) := bq_try_send PROCESSING_DATA_CHANNEL_CAPACITY work (dr_work r) in (dr_set_work q r, sent).

(** The Shutdown command, sent by [shutdown] on the handle of a started worker. *)
Definition resolver_request_shutdown (r : DependencyResolverWorker) : DependencyResolverWorker :=
  MkResolver (dr_control r) true (dr_work r) (dr_tasks r) (dr_tasks_by_hash r) (dr_hashes_by_task r)
    (dr_cancelled_tasks r) (dr_faulted r) (dr_work_open r) (dr_next_task r) (dr_active r) (dr_waiting r).

(** ** Tasks *)

(** [AtomicUsize::fetch_add] and [fetch_sub] by one. *)
Definition fetch_incr (n : N) : N := (n + 1) mod 2 ^ 64.
Definition fetch_decr (n : N) : N := (n + U64_MAX) mod 2 ^ 64.

Definition ended (t : ResolverTask) : bool :=
  match tk_phase t with TaskWaiting | TaskActive => false | _ => true end.

Definition abort_task (t : ResolverTask) : ResolverTask := MkResolverTask (tk_phase t) true.
Definition abort_all (r : DependencyResolverWorker) : DependencyResolverWorker :=
  dr_set_tasks (abort_task <$> dr_tasks r) r.

Definition in_flight (t : ResolverTask) : bool := match tk_phase t with TaskActive => true | _ => false end.
Definition awaiting_permit (t : ResolverTask) : bool := match tk_phase t with TaskWaiting => true | _ => false end.

(** The permits held. *)
Definition active_tasks (r : DependencyResolverWorker) : nat :=
  length (filter (λ t, in_flight t = true) (map_to_list (dr_tasks r)).*2).

(** The guards a task drops when its future ends. *)
Definition drop_guard (phase : TaskPhase) (r : DependencyResolverWorker) : DependencyResolverWorker :=
  match phase with
  | TaskWaiting => dr_set_counters (dr_active r) (fetch_decr (dr_waiting r)) r
  | TaskActive => dr_set_counters (fetch_decr (dr_active r)) (dr_waiting r) r
  | _ => r
  end.

Definition end_task (id : N) (phase : TaskPhase) (t : ResolverTask) (r : DependencyResolverWorker) :
    DependencyResolverWorker :=
  drop_guard (tk_phase t) (dr_set_tasks (<[id := MkResolverTask phase (tk_aborted t)]> (dr_tasks r)) r).

Inductive TaskEvent :=
  | TaskAcquire
  | TaskFinish (result : Result ValidatedNodeBlock NodeError)
  | TaskPanic
  | TaskAbort.

(** One step of task [id]; a step that is not enabled changes nothing. *)
Definition task_step (id : N) (ev : TaskEvent) (r : DependencyResolverWorker) : DependencyResolverWorker :=
  match dr_tasks r !! id with
  | None => r
  | Some t =>
    match ev, tk_phase t with
    | TaskAcquire, TaskWaiting =>
      if decide (active_tasks r < MAX_DEPENDENCY_RPC_CONCURRENCY)%nat
      then dr_set_counters (fetch_incr (dr_active r)) (fetch_decr (dr_waiting r))
             (dr_set_tasks (<[id := MkResolverTask TaskActive (tk_aborted t)]> (dr_tasks r)) r)
      else r
    | TaskFinish result, TaskActive => end_task id (TaskEnded result) t r
    | TaskPanic, TaskActive => end_task id TaskPanicked t r
    | TaskAbort, (TaskWaiting | TaskActive) => if tk_aborted t then end_task id TaskCancelled t r else r
    | _, _ => r
    end
  end.

(** ** The worker *)

Definition report_fault (kind : ChildFaultKind) (ports : Ports) : Ports :=
  report_child_fault DependencyResolver kind ports.

(** A fault, the flag, and every task aborted. *)
Definition resolver_fault (kind : ChildFaultKind) (r : DependencyResolverWorker) (ports : Ports) :
    DependencyResolverWorker * Ports :=
  (abort_all (dr_set_faulted r), report_fault kind ports).

Definition start_resolution (hash : BlockHash) (r : DependencyResolverWorker) (ports : Ports) :
    DependencyResolverWorker * Ports :=
  match dr_tasks_by_hash r !! hash with
  | Some _ => resolver_fault (InvalidProtocol DuplicateResolution) r ports
  | None =>
    let id := dr_next_task r in
    (MkResolver (dr_control r) (dr_shutdown r) (dr_work r) (<[id := MkResolverTask TaskWaiting false]> (dr_tasks r))
       (<[hash := id]> (dr_tasks_by_hash r)) (<[id := hash]> (dr_hashes_by_task r)) (dr_cancelled_tasks r)
       (dr_faulted r) (dr_work_open r) (id + 1) (dr_active r) (fetch_incr (dr_waiting r)), ports)
  end.

Definition handle_work (work : ResolverWork) (r : DependencyResolverWorker) (ports : Ports) :
    DependencyResolverWorker * Ports :=
  match work with
  | Resolve hash => start_resolution hash r ports
  | CancelWork hash =>
    match dr_tasks_by_hash r !! hash with
    | Some id =>
      (MkResolver (dr_control r) (dr_shutdown r) (dr_work r) (alter abort_task id (dr_tasks r)) (dr_tasks_by_hash r)
         (dr_hashes_by_task r) ({[id]} ∪ dr_cancelled_tasks r) (dr_faulted r) (dr_work_open r) (dr_next_task r)
         (dr_active r) (dr_waiting r), ports)
    | None => (r, ports)
    end
  end.

(** The maps after the task [id] of [hash] left. *)
Definition forget_task (id : N) (hash : BlockHash) (r : DependencyResolverWorker) : DependencyResolverWorker :=
  MkResolver (dr_control r) (dr_shutdown r) (dr_work r) (dr_tasks r) (delete hash (dr_tasks_by_hash r))
    (delete id (dr_hashes_by_task r)) (dr_cancelled_tasks r) (dr_faulted r) (dr_work_open r) (dr_next_task r)
    (dr_active r) (dr_waiting r).
Definition uncancel (id : N) (r : DependencyResolverWorker) : DependencyResolverWorker :=
  MkResolver (dr_control r) (dr_shutdown r) (dr_work r) (dr_tasks r) (dr_tasks_by_hash r) (dr_hashes_by_task r)
    (dr_cancelled_tasks r ∖ {[id]}) (dr_faulted r) (dr_work_open r) (dr_next_task r) (dr_active r) (dr_waiting r).

(** [handle_task_result], for a task that left the [JoinSet] with [phase]. *)
Definition handle_task_result (id : N) (phase : TaskPhase) (r : DependencyResolverWorker) (ports : Ports) :
    DependencyResolverWorker * Ports :=
  let cancelled := bool_decide (id ∈ dr_cancelled_tasks r) in
  let r := uncancel id r in
  match dr_hashes_by_task r !! id with
  | None => (dr_set_faulted r, report_fault (InvalidProtocol UntrackedTask) ports)
  | Some hash =>
    let r := forget_task id hash r in
    if cancelled then (r, ports)
    else
      match phase with
      | TaskEnded result =>
        if dr_faulted r then (r, ports)
        else
          let '(q, sent) := bq_try_send PROCESSING_DATA_CHANNEL_CAPACITY (DependencyResolved hash result)
                              (pt_resolution ports) in
          let ports := MkPorts q (pt_faults ports) in
          match sent with
          | Ok _ => (r, ports)
          | Err QueueFull => resolver_fault (SessionDataFull ResolutionPath) r ports
          | Err QueueClosed => resolver_fault (Child_SessionDataEndpointLost ResolutionPath) r ports
          end
      | TaskPanicked => resolver_fault (Child_Ownership UnexpectedWorkerTermination) r ports
      | _ => (r, ports)
      end
  end.

(** [abort_and_join]: every task ends and is joined, whichever its phase. *)
Definition abort_and_join (r : DependencyResolverWorker) : DependencyResolverWorker :=
  let r := foldl (λ r kt, drop_guard (tk_phase kt.2) r) r (map_to_list (dr_tasks r)) in
  MkResolver (dr_control r) (dr_shutdown r) (dr_work r) ∅ ∅ ∅ ∅ (dr_faulted r) (dr_work_open r) (dr_next_task r)
    (dr_active r) (dr_waiting r).

(** The Shutdown command: the acknowledgement and the end of the task are the
    control state. *)
Definition resolver_shutdown (r : DependencyResolverWorker) : DependencyResolverWorker :=
  dr_set_control ResolverReturned
    (let r := abort_and_join r in dr_set_work (MkBoundedQueue [] (bq_open (dr_work r))) r).

(** One turn of [run]; [joined] is the ended task the [JoinSet] would yield. *)
Definition resolver_turn (joined : N) (r : DependencyResolverWorker) (ports : Ports) :
    DependencyResolverWorker * Ports :=
  match dr_control r with
  | ResolverRunning =>
    if dr_shutdown r then (resolver_shutdown r, ports)
    else
      match (if dr_faulted r || negb (dr_work_open r) then None else bq_try_recv (dr_work r)) with
      | Some (work, q) => handle_work work (dr_set_work q r) ports
      | None =>
        match dr_tasks r !! joined with
        | Some t =>
          if ended t then handle_task_result joined (tk_phase t) (dr_set_tasks (delete joined (dr_tasks r)) r) ports
          else (r, ports)
        | None => (r, ports)
        end
      end
  | _ => (r, ports)
  end.

Inductive ResolverEvent :=
  | ResolverTurn (joined : N)
  | ResolverTaskEvent (id : N) (ev : TaskEvent).

Definition resolver_step (ev : ResolverEvent) (r : DependencyResolverWorker) (ports : Ports) :
    DependencyResolverWorker * Ports :=
  match ev with
  | ResolverTurn joined => resolver_turn joined r ports
  | ResolverTaskEvent id ev => (task_step id ev r, ports)
  end.
End resolver.
