(* ===== verification/Sql.v ===== *)
(** Database transactions: the failures of [sqlx], the error domain of the
    storage crate ([crates/kgi-storage/src/error.rs]), statements composed in a
    transaction, and the retries of [transaction.rs]; then a program logic for
    them: the weakest precondition of the body of a transaction, the rules of
    its constructors, and what a run with retries leaves behind.

    A statement of a transaction consumes one fate: it executes, or PostgreSQL
    or the connection fails it.  What a statement does to the tables is the
    function it carries; a violated constraint is an error of the statement.
    A transaction that does not commit leaves the tables as it found them,
    but for the identity sequence, which no rollback rewinds. *)

From stdpp Require Import strings.
From S2P Require Import Prelude Model Faults.

#[local] Open Scope N_scope.

(** * Failures *)

(** [sqlx::Error]: the variants the code tells apart, and the SQLSTATE of a
    database error. *)
Inductive SqlxError :=
  | Sqlx_Io
  | Sqlx_Tls
  | Sqlx_Protocol
  | Sqlx_PoolClosed
  | Sqlx_WorkerCrashed
  | Sqlx_BeginFailed
  | Sqlx_Database (code : string)
  | Sqlx_Other.

Definition sqlx_connection_lost (error : SqlxError) : bool :=
  match error with
  | Sqlx_Io | Sqlx_Tls | Sqlx_Protocol | Sqlx_PoolClosed | Sqlx_WorkerCrashed | Sqlx_BeginFailed => true
  | Sqlx_Database code =>
    String.prefix "08" code || bool_decide (code = "57P01") || bool_decide (code = "57P02") || bool_decide (code = "57P03")
  | Sqlx_Other => false
  end.

Definition retryable (error : SqlxError) : bool :=
  match error with
  | Sqlx_Database code => bool_decide (code = "40001") || bool_decide (code = "40P01")
  | _ => false
  end.

(** SQLSTATEs of the statements themselves. *)
Definition unique_violation : SqlxError := Sqlx_Database "23505".
Definition foreign_key_violation : SqlxError := Sqlx_Database "23503".
Definition check_violation : SqlxError := Sqlx_Database "23514".
Definition cardinality_violation : SqlxError := Sqlx_Database "21000".
Definition sequence_exhausted : SqlxError := Sqlx_Database "2200H".

(** A persistent rejection of the database; its payloads are diagnostics. *)
Inductive StorageRejection :=
  | DatabaseAlreadyInUse
  | NetworkMismatch
  | SchemaTooNew
  | UnsupportedSchema
  | MigrationFailed.

Inductive RebuildSetupFault := ApiGenerationPreparation | ApiReadExclusion.

(** Diagnostics are left out. *)
Inductive StorageError {KH : KaspaHash} :=
  | Storage_GenerationLost
  | Storage_Database
  | Storage_ConnectionLost
  | Storage_Persistence (fault : PersistenceFault)
  | Storage_InvalidMetadata
  | Storage_InternalFailure
  | Storage_ScoreOutOfRange (fault : ScoreRangeFault)
  | Storage_VspcSourceDiscontinuity
  | Storage_VspcMemberNotMaterialized (id : CompactId)
  | Storage_VspcPathDiscontinuity (conflict : VspcPathConflict)
  | Storage_RebuildSetupFailed (fault : RebuildSetupFault)
  | Storage_ReplacementControlUnavailable
  | Storage_Rejected (rejection : StorageRejection)
  | Storage_EventPathClosed
  | Storage_ControlUnavailable
  | Storage_WorkerFailed.

(** [StorageError::database]. *)
Definition storage_database {KH : KaspaHash} (error : SqlxError) : StorageError :=
  if sqlx_connection_lost error then Storage_ConnectionLost else Storage_Database.

Definition is_connection_lost {KH : KaspaHash} (error : StorageError) : bool :=
  match error with Storage_ConnectionLost => true | _ => false end.

(** [ProcessingDbError::query] and [ProcessingDbError::mutation]. *)
Definition db_query {KH : KaspaHash} (error : StorageError) : ProcessingDbError :=
  match error with
  | Storage_GenerationLost => Db_GenerationLost
  | Storage_Database => Db_QueryFailed
  | Storage_InvalidMetadata => Db_InvalidStoredState
  | Storage_Persistence reason => Db_Persistence reason
  | Storage_ScoreOutOfRange reason => Db_ScoreOutOfRange reason
  | _ => Db_ServiceUnavailable
  end.
Definition db_mutation {KH : KaspaHash} (error : StorageError) : ProcessingDbError :=
  match error with
  | Storage_GenerationLost => Db_GenerationLost
  | Storage_InvalidMetadata => Db_InvalidStoredState
  | Storage_Persistence reason => Db_Persistence reason
  | Storage_ScoreOutOfRange reason => Db_ScoreOutOfRange reason
  | _ => Db_ServiceUnavailable
  end.

Inductive DatabasePhase := BeforeCommit | AtCommit.

Inductive TransactionAttemptError {KH : KaspaHash} (Sem : Type) :=
  | AttemptSemantic (error : Sem)
  | AttemptStorage (error : StorageError)
  | AttemptDatabase (phase : DatabasePhase) (error : SqlxError).
Arguments AttemptSemantic {KH Sem} error.
Arguments AttemptStorage {KH Sem} error.
Arguments AttemptDatabase {KH Sem} phase error.

(** * Statements *)

Section sql.
Context {KH : KaspaHash} {Db : Type}.

(** A transaction in progress.  [RESTART IDENTITY] replaces the sequence, so a
    rollback then brings the old one back. *)
Record Tx := MkTx {
  tx_db : Db;
  tx_restarted : bool;
  tx_fates : list (option SqlxError)
}.

(** How the body of a transaction ends: ready to commit, rolled back with a
    value or an error, or in a panic. *)
Inductive SqlOutcome (Sem A : Type) :=
  | SqlDone (a : A)
  | SqlRolledBack (a : A)
  | SqlFailed (error : TransactionAttemptError Sem)
  | SqlPanic.
Arguments SqlDone {Sem A} a.
Arguments SqlRolledBack {Sem A} a.
Arguments SqlFailed {Sem A} error.
Arguments SqlPanic {Sem A}.

(** [R] is what the transaction answers, [A] what this part of it computes. *)
Definition Sql (Sem R A : Type) : Type := Tx → Tx * (SqlOutcome Sem R + A).

#[global] Instance Sql_ret Sem R : MRet (Sql Sem R) := λ A a tx, (tx, inr a).
#[global] Instance Sql_bind Sem R : MBind (Sql Sem R) := λ A B k m tx,
  match m tx with
  | (tx, inr a) => k a tx
  | (tx, inl o) => (tx, inl o)
  end.

Definition sql_end {Sem R A} (o : SqlOutcome Sem R) : Sql Sem R A := λ tx, (tx, inl o).
Definition sql_fail {Sem R A} (e : TransactionAttemptError Sem) : Sql Sem R A := sql_end (SqlFailed e).
Definition sql_expect {Sem R A} (o : option A) : Sql Sem R A :=
  match o with Some a => mret a | None => sql_end SqlPanic end.
(** A decoding that reports a storage error. *)
Definition sql_decode {Sem R A} (r : Result A StorageError) : Sql Sem R A :=
  match r with Ok a => mret a | Err e => sql_fail (AttemptStorage e) end.

(** One statement: its fate, then what it does. *)
Definition stmt {Sem R A} (run : Db → Db * Result A SqlxError) : Sql Sem R A := λ tx,
  match tx_fates tx with
  | Some e :: fates => (MkTx (tx_db tx) (tx_restarted tx) fates, inl (SqlFailed (AttemptDatabase BeforeCommit e)))
  | fates =>
    let '(db, r) := run (tx_db tx) in
    (MkTx db (tx_restarted tx) (tail fates),
     match r with Ok a => inr a | Err e => inl (SqlFailed (AttemptDatabase BeforeCommit e)) end)
  end.
Definition sql_query {Sem R A} (q : Db → A) : Sql Sem R A := stmt (λ db, (db, Ok (q db))).
Definition sql_begin {Sem R} : Sql Sem R () := sql_query (λ _, tt).
(** [transaction.rollback()], then the answer. *)
Definition sql_rollback {Sem R A} (o : SqlOutcome Sem R) : Sql Sem R A := sql_begin ≫= λ _, sql_end o.

Definition sql_restart {Sem R} : Sql Sem R () := λ tx, (MkTx (tx_db tx) true (tx_fates tx), inr tt).

(** * Attempts *)

Inductive CommitFate :=
  | CommitOk
  | CommitFails (error : SqlxError) (applied : bool).

Record AttemptFates := MkAttemptFates {
  af_statements : list (option SqlxError);
  af_commit : CommitFate
}.

(** The tables after a rollback: [keep_sequence now before] is [before] with
    the sequence of [now]. *)
Definition rolled_back (keep_sequence : Db → Db → Db) (before : Db) (tx : Tx) : Db :=
  if tx_restarted tx then before else keep_sequence (tx_db tx) before.

(** One attempt of a transaction; [None] is a panic. *)
Definition run_attempt {Sem A} (keep_sequence : Db → Db → Db) (body : Sql Sem A A) (fates : AttemptFates) (before : Db) :
    Db * option (Result A (TransactionAttemptError Sem)) :=
  let '(tx, o) := body (MkTx before false (af_statements fates)) in
  let undone := rolled_back keep_sequence before tx in
  match o with
  | inr a | inl (SqlDone a) =>
    match af_commit fates with
    | CommitOk => (tx_db tx, Some (Ok a))
    | CommitFails e applied => (if applied then tx_db tx else undone, Some (Err (AttemptDatabase AtCommit e)))
    end
  | inl (SqlRolledBack a) => (undone, Some (Ok a))
  | inl (SqlFailed e) => (undone, Some (Err e))
  | inl SqlPanic => (undone, None)
  end.

(** [RETRY_DELAYS]. *)
Definition RETRY_DELAYS : list N := [10; 50; 250].

(** [transaction::run], with the delays still allowed; the sleeps are left out. *)
Fixpoint transaction_run {Sem A} (keep_sequence : Db → Db → Db) (body : Sql Sem A A) (delays : list N)
    (fates : nat → AttemptFates) (db : Db) : Db * option (Result (Result A Sem) StorageError) :=
  let '(db, r) := run_attempt keep_sequence body (fates O) db in
  match r with
  | None => (db, None)
  | Some (Ok value) => (db, Some (Ok (Ok value)))
  | Some (Err (AttemptSemantic error)) => (db, Some (Ok (Err error)))
  | Some (Err (AttemptStorage error)) => (db, Some (Err error))
  | Some (Err (AttemptDatabase phase error)) =>
    if retryable error then
      match delays with
      | _ :: delays => transaction_run keep_sequence body delays (λ k, fates (S k)) db
      | [] => (db, Some (Err (Storage_Persistence RetryExhausted)))
      end
    else if sqlx_connection_lost error then
      (db, Some (Err match phase with
                     | AtCommit => Storage_Persistence AmbiguousCommit
                     | BeforeCommit => storage_database error
                     end))
    else (db, Some (Err (Storage_Persistence DefiniteFailure)))
  end.
End sql.
Arguments Tx : clear implicits.
Arguments SqlDone {_ Sem A} a.
Arguments SqlRolledBack {_ Sem A} a.
Arguments SqlFailed {_ Sem A} error.
Arguments SqlPanic {_ Sem A}.

Lemma lost_not_retryable e : sqlx_connection_lost e = true → retryable e = false.
Proof.
  destruct e; try done. simpl. intros H. apply orb_false_iff. split; apply bool_decide_eq_false; intros ->; discriminate H.
Qed.

Section sql_logic.
Context {KH : KaspaHash} {Db : Type}.
Implicit Types (db : Db) (restarted : bool).

(** [injected e]: the errors the environment may inject. *)
Definition fates_ok (injected : SqlxError → Prop) (fates : list (option SqlxError)) : Prop :=
  ∀ e, Some e ∈ fates → injected e.

(** [wp]: whatever the fates, the body ends in [Q], or stops in [E]. *)
Definition wp {Sem R A} (injected : SqlxError → Prop) (m : Sql (Db := Db) Sem R A) (Q : A → Db → bool → Prop)
    (E : SqlOutcome Sem R → Db → bool → Prop) (db : Db) (restarted : bool) : Prop :=
  ∀ fates, fates_ok injected fates →
    match m (MkTx db restarted fates) with
    | (tx, inr a) => Q a (tx_db tx) (tx_restarted tx) ∧ fates_ok injected (tx_fates tx)
    | (tx, inl o) => E o (tx_db tx) (tx_restarted tx)
    end.

Section rules.
Context {Sem R : Type} (injected : SqlxError → Prop) (E : SqlOutcome Sem R → Db → bool → Prop).
Implicit Types (A B : Type).

Lemma wp_ret {A} (a : A) (Q : A → Db → bool → Prop) db restarted : Q a db restarted → wp injected (mret a) Q E db restarted.
Proof. intros HQ fates Hf. by split. Qed.

Lemma wp_bind {A B} (m : Sql Sem R A) (k : A → Sql Sem R B) (Q : B → Db → bool → Prop) db restarted :
  wp injected m (λ a, wp injected (k a) Q E) E db restarted → wp injected (m ≫= k) Q E db restarted.
Proof.
  intros H fates Hf. specialize (H fates Hf). unfold mbind, Sql_bind.
  destruct (m (MkTx db restarted fates)) as [[db' r' f'] [o|a]]; [done|]. destruct H as [H Hf']. simpl in *. by apply H.
Qed.

Lemma wp_bind_assoc {A B C} (m : Sql Sem R A) (n : Sql Sem R B) (k : Sql Sem R C) (Q : C → Db → bool → Prop) db restarted :
  wp injected ((_ ← m; n) ≫= λ _, k) Q E db restarted → wp injected (_ ← m; _ ← n; k) Q E db restarted.
Proof.
  intros H fates Hf. specialize (H fates Hf). unfold mbind, Sql_bind in *. destruct (m _) as [tx [o|a]]; [done|].
  by destruct (n tx) as [tx' [o|b]].
Qed.

Lemma wp_mono {A} (m : Sql Sem R A) (Q Q' : A → Db → bool → Prop) db restarted :
  wp injected m Q E db restarted → (∀ a db' r, Q a db' r → Q' a db' r) → wp injected m Q' E db restarted.
Proof.
  intros H HQ fates Hf. specialize (H fates Hf). destruct (m _) as [[db' r' f'] [o|a]]; [done|]. destruct H as [H Hf'].
  split; [by apply HQ|done].
Qed.

Lemma wp_end {A} (o : SqlOutcome Sem R) (Q : A → Db → bool → Prop) db restarted :
  E o db restarted → wp injected (sql_end o) Q E db restarted.
Proof. intros HE fates Hf. done. Qed.

Lemma wp_decode {A} (r : Result A StorageError) (Q : A → Db → bool → Prop) db restarted :
  (∀ e, r = Err e → E (SqlFailed (AttemptStorage e)) db restarted) → (∀ a, r = Ok a → Q a db restarted) →
  wp injected (sql_decode r) Q E db restarted.
Proof. intros HE HQ. destruct r as [a|e]; [apply wp_ret|apply wp_end]; auto. Qed.

Lemma wp_expect {A} (o : option A) (Q : A → Db → bool → Prop) db restarted :
  (o = None → E SqlPanic db restarted) → (∀ a, o = Some a → Q a db restarted) → wp injected (sql_expect o) Q E db restarted.
Proof. intros HE HQ. destruct o as [a|]; [apply wp_ret|apply wp_end]; auto. Qed.

(** A statement fails as the environment says, or executes. *)
Lemma wp_stmt {A} (run : Db → Db * Result A SqlxError) (Q : A → Db → bool → Prop) db restarted :
  (∀ e, injected e → E (SqlFailed (AttemptDatabase BeforeCommit e)) db restarted) →
  (∀ db' e, run db = (db', Err e) → E (SqlFailed (AttemptDatabase BeforeCommit e)) db' restarted) →
  (∀ db' a, run db = (db', Ok a) → Q a db' restarted) →
  wp injected (stmt run) Q E db restarted.
Proof.
  intros HI HE HQ fates Hf. unfold stmt. simpl. destruct fates as [|[e|] fates].
  - destruct (run db) as [db' [a|e]] eqn:Er; simpl; [split; [by apply HQ|by intros e He%elem_of_nil]|by apply HE].
  - simpl. apply HI, Hf. by left.
  - destruct (run db) as [db' [a|e]] eqn:Er; simpl; [split; [by apply HQ|]|by apply HE].
    intros e He. apply Hf. by right.
Qed.

Lemma wp_query {A} (q : Db → A) (Q : A → Db → bool → Prop) db restarted :
  (∀ e, injected e → E (SqlFailed (AttemptDatabase BeforeCommit e)) db restarted) →
  Q (q db) db restarted → wp injected (sql_query q) Q E db restarted.
Proof. intros HI HQ. apply wp_stmt; [done|done|]. by intros db' a [= <- <-]. Qed.

Lemma wp_begin (Q : () → Db → bool → Prop) db restarted :
  (∀ e, injected e → E (SqlFailed (AttemptDatabase BeforeCommit e)) db restarted) →
  Q () db restarted → wp injected sql_begin Q E db restarted.
Proof. intros. by apply wp_query. Qed.

Lemma wp_rollback {A} (o : SqlOutcome Sem R) (Q : A → Db → bool → Prop) db restarted :
  (∀ e, injected e → E (SqlFailed (AttemptDatabase BeforeCommit e)) db restarted) →
  E o db restarted → wp injected (sql_rollback o) Q E db restarted.
Proof. intros. apply wp_bind, wp_begin; [done|]. by apply wp_end. Qed.

Lemma wp_restart (Q : () → Db → bool → Prop) db restarted :
  Q () db true → wp injected sql_restart Q E db restarted.
Proof. intros HQ fates Hf. by split. Qed.
End rules.

(** * Attempts *)

(** What PostgreSQL documents of [COMMIT]: an error it reports is of a
    transaction it rolled back; only a lost connection leaves the outcome open. *)
Definition definite_errors (fates : AttemptFates) : Prop :=
  match af_commit fates with CommitFails e true => sqlx_connection_lost e = true | _ => True end.

(** The environment of a run without failures. *)
Definition faultless (fates : AttemptFates) : Prop :=
  (∀ o, o ∈ af_statements fates → o = None) ∧ af_commit fates = CommitOk.

Section attempts.
Context {Sem A : Type} (keep_sequence : Db → Db → Db) (body : Sql (Db := Db) Sem A A).

(** The body's contract: what it leaves when it is to commit, and what it may
    stop with; [rolled] is what a rollback leaves. *)
Definition body_ok (injected : SqlxError → Prop) (before : Db) (Done : A → Db → Prop) (Rolled : A → Prop)
    (Failed : TransactionAttemptError Sem → Prop) (Panics : Prop) (rolled : Db → Prop) : Prop :=
  wp injected body
    (λ a db restarted, Done a db ∧ rolled (if restarted then before else keep_sequence db before))
    (λ o db restarted, rolled (if restarted then before else keep_sequence db before) ∧
       match o with
       | SqlDone a => Done a db
       | SqlRolledBack a => Rolled a
       | SqlFailed e => Failed e
       | SqlPanic => Panics
       end) before false.

Lemma body_ok_mono injected before (Done Done' : A → Db → Prop) (Rolled Rolled' : A → Prop)
    (Failed Failed' : TransactionAttemptError Sem → Prop) (Panics Panics' : Prop) (rolled rolled' : Db → Prop) :
  (∀ a db, Done a db → Done' a db) → (∀ a, Rolled a → Rolled' a) → (∀ e, Failed e → Failed' e) → (Panics → Panics') →
  (∀ db, rolled db → rolled' db) →
  body_ok injected before Done Rolled Failed Panics rolled → body_ok injected before Done' Rolled' Failed' Panics' rolled'.
Proof.
  intros HD HR HF HP Hr H fates Hf. specialize (H fates Hf). destruct (body _) as [tx [o|a]]; simpl in *.
  - destruct H as [H1 H2]. split; [by apply Hr|]. destruct o; auto.
  - destruct H as [[H1 H2] H3]. split; [split; [by apply HD|by apply Hr]|done].
Qed.

Lemma run_attempt_spec injected before Done Rolled Failed Panics rolled fates :
  fates_ok injected (af_statements fates) → body_ok injected before Done Rolled Failed Panics rolled →
  let '(db, r) := run_attempt keep_sequence body fates before in
  match r with
  | None => Panics ∧ rolled db
  | Some (Ok a) => Done a db ∨ (Rolled a ∧ rolled db)
  | Some (Err e) =>
    (rolled db ∧ (Failed e ∨ ∃ er applied, e = AttemptDatabase AtCommit er ∧ af_commit fates = CommitFails er applied)) ∨
    (∃ a er, Done a db ∧ e = AttemptDatabase AtCommit er ∧ af_commit fates = CommitFails er true)
  end.
Proof.
  intros Hf Hb. specialize (Hb _ Hf). unfold run_attempt. destruct (body _) as [tx o]. unfold rolled_back.
  destruct o as [[a|a|e|]|a]; simpl in *.
  - destruct Hb as [Hr Hd]. destruct (af_commit fates) as [|er applied] eqn:Ec; [by left|]. destruct applied; [right; eauto|].
    left. split; [done|]. right. eauto.
  - destruct Hb as [Hr Hd]. by right.
  - destruct Hb as [Hr Hd]. left. split; [done|by left].
  - by destruct Hb as [Hr HP].
  - destruct Hb as [[Hd Hr] _]. destruct (af_commit fates) as [|er applied] eqn:Ec; [by left|]. destruct applied; [right; eauto|].
    left. split; [done|]. right. eauto.
Qed.
End attempts.

(** The errors [transaction_run] makes of the failures of an attempt. *)
Definition reported {Sem} (Failed : TransactionAttemptError Sem → Prop) (e : StorageError) : Prop :=
  Failed (AttemptStorage e) ∨ e = Storage_Persistence RetryExhausted ∨ e = Storage_Persistence DefiniteFailure ∨
  e = Storage_Persistence AmbiguousCommit ∨ e = Storage_ConnectionLost.

(** A run with retries: the value of one committed attempt, the value or the
    semantic error of one rolled back, or a storage error, after which the
    transaction is known not to be applied unless the commit is ambiguous. *)
Lemma transaction_run_spec {Sem A} keep_sequence (body : Sql (Db := Db) Sem A A) (injected : SqlxError → Prop)
    (Done : A → Db → Db → Prop) (Rolled : A → Prop) (Failed : TransactionAttemptError Sem → Prop) (Panics : Prop) (rolled : Db → Prop)
    delays fates db :
  rolled db →
  (∀ before, rolled before → body_ok keep_sequence body injected before (λ a db', Done a before db') Rolled Failed Panics rolled) →
  (∀ k, fates_ok injected (af_statements (fates k)) ∧ definite_errors (fates k)) →
  let '(db', r) := transaction_run keep_sequence body delays fates db in
  match r with
  | None => Panics ∧ rolled db'
  | Some (Ok (Ok a)) => (∃ before, rolled before ∧ Done a before db') ∨ (Rolled a ∧ rolled db')
  | Some (Ok (Err s)) => Failed (AttemptSemantic s) ∧ rolled db'
  | Some (Err e) =>
    reported Failed e ∧
    (rolled db' ∨ (e = Storage_Persistence AmbiguousCommit ∧ ∃ a before, rolled before ∧ Done a before db'))
  end.
Proof.
  revert fates db. induction delays as [|d delays IH]; intros fates db Hdb Hb Hf; simpl.
  all: destruct (Hf O) as [Hf0 Hd0];
    pose proof (run_attempt_spec keep_sequence body injected db _ _ _ _ _ (fates O) Hf0 (Hb db Hdb)) as H;
    destruct (run_attempt keep_sequence body (fates O) db) as [db1 [[a|e]|]]; [..|done];
    try (destruct H as [H|[H1 H2]]; [left; by exists db|by right]).
  all: destruct H as [[Hr HF]|(a & er & HD & -> & Ec)].
  1,3: destruct e as [s|e|phase er]; [destruct HF as [HF|(? & ? & [=] & _)]; by split|
      destruct HF as [HF|(? & ? & [=] & _)]; split; [by left|by left]|].
  1,2: destruct (retryable er) eqn:Ert; [|destruct (sqlx_connection_lost er) eqn:El; (split; [|by left])].
  - split; [|by left]. right. by left.
  - destruct phase; unfold storage_database; rewrite ?El; unfold reported; auto.
  - unfold reported; auto.
  - apply IH; [done|done|]. intros k. apply (Hf (S k)).
  - destruct phase; unfold storage_database; rewrite ?El; unfold reported; auto.
  - unfold reported; auto.
  - unfold definite_errors in Hd0. rewrite Ec in Hd0.
    rewrite (lost_not_retryable er Hd0).
    rewrite Hd0. split; [unfold reported; auto|]. right. eauto.
  - unfold definite_errors in Hd0. rewrite Ec in Hd0.
    rewrite (lost_not_retryable er Hd0).
    rewrite Hd0. split; [unfold reported; auto|]. right. eauto.
Qed.

(** Without injected faults the first attempt decides; a statement may still
    fail definitely. *)
Lemma transaction_run_faultless {Sem A} keep_sequence (body : Sql (Db := Db) Sem A A)
    (Done : A → Db → Prop) (Rolled : A → Prop) (Failed : TransactionAttemptError Sem → Prop) (Panics : Prop) (rolled : Db → Prop)
    delays fates db :
  body_ok keep_sequence body (λ _, False) db Done Rolled Failed Panics rolled →
  (∀ e, Failed e → match e with AttemptDatabase _ er => retryable er = false ∧ sqlx_connection_lost er = false | _ => True end) →
  faultless (fates O) →
  let '(db', r) := transaction_run keep_sequence body delays fates db in
  match r with
  | None => Panics ∧ rolled db'
  | Some (Ok (Ok a)) => Done a db' ∨ (Rolled a ∧ rolled db')
  | Some (Ok (Err s)) => Failed (AttemptSemantic s) ∧ rolled db'
  | Some (Err e) => rolled db' ∧
    (Failed (AttemptStorage e) ∨ e = Storage_Persistence DefiniteFailure ∧ ∃ phase er, Failed (AttemptDatabase phase er))
  end.
Proof.
  intros Hb HF [Hn Hc]. assert (fates_ok (λ _, False) (af_statements (fates O))) as Hf by (intros e He; by apply Hn in He).
  pose proof (run_attempt_spec keep_sequence body (λ _, False) db _ _ _ _ _ (fates O) Hf Hb) as H. rewrite Hc in H.
  destruct delays; simpl.
  all: destruct (run_attempt keep_sequence body (fates O) db) as [db1 [[a|e]|]]; [done| |done].
  all: destruct H as [[Hr [H|(? & ? & _ & [=])]]|(? & ? & _ & _ & [=])]; pose proof (HF e H) as He; destruct e as [s|e|phase er]; auto.
  all: destruct He as [-> ->]; eauto 6.
Qed.
End sql_logic.
