(* ===== verification/Store.v ===== *)
(** The processing tables ([crates/kgi-storage/migrations], [schema.rs]), the
    statements on them that several operations share ([generation/interning.rs],
    [generation/block_rows.rs]), the processing caches ([cache.rs]) and the
    conversions of scores, timestamps and rows ([database.rs]).

    A table is a map from its primary key.  A query whose rows the code only
    collects into maps yields them in the order of [map_to_list]. *)

From S2P Require Import Prelude Model Faults Sql.

#[local] Open Scope Z_scope.

(** * Conversions *)

Definition I64_MAX_Z : Z := 2 ^ 63 - 1.
Definition NO_VSPC_DAA_SCORE : Z := I64_MAX_Z.

(** [i64::from_ne_bytes(timestamp.to_ne_bytes())] and its inverse. *)
Definition timestamp_to_sql (timestamp : Timestamp) : Z :=
  if decide (Z.of_N timestamp < 2 ^ 63) then Z.of_N timestamp else Z.of_N timestamp - 2 ^ 64.
Definition timestamp_from_sql (timestamp : Z) : Timestamp := Z.to_N (timestamp mod 2 ^ 64).

(** Checked narrowing of a signed column. *)
Definition u32_try_from (x : Z) : option N := if decide (0 ≤ x ≤ Z.of_N U32_MAX) then Some (Z.to_N x) else None.
Definition u16_try_from (x : Z) : option N := if decide (0 ≤ x ≤ Z.of_N U16_MAX) then Some (Z.to_N x) else None.
Definition u64_try_from (x : Z) : option N := if decide (0 ≤ x) then Some (Z.to_N x) else None.

Definition color_to_sql (color : BlockColor) : Z := match color with Gray => 0 | Blue => 1 | Red => 2 end.

#[global] Instance CompactId_countable : Countable CompactId.
Proof. apply (inj_countable' compact_id MkCompactId). by intros []. Defined.

Section store.
Context {KH : KaspaHash}.

Definition daa_score_to_sql (score : N) : Result Z StorageError :=
  if decide (MAX_DAA_SCORE < score)%N then Err (Storage_ScoreOutOfRange DaaScore) else Ok (Z.of_N score).
Definition blue_score_to_sql (score : N) : Result Z StorageError :=
  if decide (MAX_BLUE_SCORE < score)%N then Err (Storage_ScoreOutOfRange BlueScore) else Ok (Z.of_N score).

(** * Tables *)

(** A row of [blocks]. *)
Record StoredBlock := MkStoredBlock {
  sb_timestamp : Z;
  sb_daa_score : Z;
  sb_level : Z;
  sb_slot : Z;
  sb_selected_parent_id : Z;
  sb_color : Z;
  sb_is_in_vspc : bool;
  sb_blue_merge_set : list Z;
  sb_red_merge_set : list Z
}.

(** A row of [levels]. *)
Record LevelState := MkLevelState { ls_size : Z; ls_daa_score : Z }.

(** A row of [parents], without its key [(child_id, parent_id)]. *)
Record ParentRelation := MkParentRelation {
  pr_child_level : Z;
  pr_child_slot : Z;
  pr_parent_level : Z;
  pr_parent_slot : Z
}.

(** [tb_sequence] is the next value of the identity sequence of
    [block_identifiers]; [tb_metadata] the [db_pp_blue_score] of
    [processing_metadata]'s row. *)
Record Tables := MkTables {
  tb_identifiers : gmap Z BlockHash;
  tb_sequence : Z;
  tb_blocks : gmap Z StoredBlock;
  tb_levels : gmap Z LevelState;
  tb_parents : gmap (Z * Z) ParentRelation;
  tb_metadata : option Z
}.

Definition empty_tables : Tables := MkTables ∅ 1 ∅ ∅ ∅ None.

Definition set_identifiers (ids : gmap Z BlockHash) (next : Z) (t : Tables) : Tables :=
  MkTables ids next (tb_blocks t) (tb_levels t) (tb_parents t) (tb_metadata t).
Definition set_blocks (b : gmap Z StoredBlock) (t : Tables) : Tables :=
  MkTables (tb_identifiers t) (tb_sequence t) b (tb_levels t) (tb_parents t) (tb_metadata t).
Definition set_levels (l : gmap Z LevelState) (t : Tables) : Tables :=
  MkTables (tb_identifiers t) (tb_sequence t) (tb_blocks t) l (tb_parents t) (tb_metadata t).
Definition set_parents (p : gmap (Z * Z) ParentRelation) (t : Tables) : Tables :=
  MkTables (tb_identifiers t) (tb_sequence t) (tb_blocks t) (tb_levels t) p (tb_metadata t).

(** What a rollback leaves: sequences are not transactional. *)
Definition keep_sequence (now before : Tables) : Tables :=
  MkTables (tb_identifiers before) (tb_sequence now) (tb_blocks before) (tb_levels before) (tb_parents before)
    (tb_metadata before).

Definition TxSql (Sem R A : Type) : Type := Sql (Db := Tables) Sem R A.

(** * Caches *)

Record CachedIdentity := MkCachedIdentity { ci_id : CompactId; ci_materialized : bool }.
Record CachedMaterializedBlock := MkCachedMaterializedBlock {
  cm_coordinate : BlockCoordinate;
  cm_selected_parent_id : CompactId
}.
Record CachedMergeSets := MkCachedMergeSets { cs_blue : list CompactId; cs_red : list CompactId }.
Record CachedVspcSink := MkCachedVspcSink { cv_id : CompactId; cv_hash : BlockHash }.

#[global] Instance CachedIdentity_eq_dec : EqDecision CachedIdentity.
Proof. solve_decision. Defined.
#[global] Instance CachedMaterializedBlock_eq_dec : EqDecision CachedMaterializedBlock.
Proof. solve_decision. Defined.

(** [ProcessingCacheDomains]: four bounded caches, which may drop any entry at
    any time; their capacities are left out. *)
Record Caches := MkCaches {
  ch_identities : gmap BlockHash CachedIdentity;
  ch_materialized_blocks : gmap CompactId CachedMaterializedBlock;
  ch_merge_sets : gmap CompactId CachedMergeSets;
  ch_vspc_sink : option CachedVspcSink
}.

Definition ProcessingCacheDomains_new : Caches := MkCaches ∅ ∅ ∅ None.
Definition publish_identity (hash : BlockHash) (identity : CachedIdentity) (c : Caches) : Caches :=
  MkCaches (<[hash := identity]> (ch_identities c)) (ch_materialized_blocks c) (ch_merge_sets c) (ch_vspc_sink c).
Definition publish_materialized_block (id : CompactId) (block : CachedMaterializedBlock) (c : Caches) : Caches :=
  MkCaches (ch_identities c) (<[id := block]> (ch_materialized_blocks c)) (ch_merge_sets c) (ch_vspc_sink c).
Definition publish_merge_sets (id : CompactId) (sets : CachedMergeSets) (c : Caches) : Caches :=
  MkCaches (ch_identities c) (ch_materialized_blocks c) (<[id := sets]> (ch_merge_sets c)) (ch_vspc_sink c).
Definition publish_vspc_sink (sink : CachedVspcSink) (c : Caches) : Caches :=
  MkCaches (ch_identities c) (ch_materialized_blocks c) (ch_merge_sets c) (Some sink).

(** * Identity rows *)

(** A row of [block_identifiers] left-joined with [blocks]. *)
Record IdentityRow := MkIdentityRow {
  ir_hash : BlockHash;
  ir_id : Z;
  ir_level : option Z;
  ir_slot : option Z;
  ir_selected_parent_id : option Z
}.

Definition identity_row (t : Tables) (id : Z) (hash : BlockHash) : IdentityRow :=
  let block := tb_blocks t !! id in
  MkIdentityRow hash id (sb_level <$> block) (sb_slot <$> block) (sb_selected_parent_id <$> block).

(** [WHERE identity.hash = ANY(hashes)]. *)
Definition select_identities (hashes : list BlockHash) (t : Tables) : list IdentityRow :=
  (λ kv, identity_row t kv.1 kv.2) <$> filter (λ kv, kv.2 ∈ hashes) (map_to_list (tb_identifiers t)).

Definition decode_coordinate (level slot : option Z) : Result (option BlockCoordinate) StorageError :=
  match level, slot with
  | None, None => Ok None
  | Some level, Some slot =>
    match u32_try_from level, u16_try_from slot with
    | Some level, Some slot =>
      match BlockCoordinate_new level slot with Some c => Ok (Some c) | None => Err Storage_InvalidMetadata end
    | _, _ => Err Storage_InvalidMetadata
    end
  | _, _ => Err Storage_InvalidMetadata
  end.

Definition decode_materialized_block (coordinate : option BlockCoordinate) (raw_selected_parent_id : option Z) :
    Result (option CachedMaterializedBlock) StorageError :=
  match coordinate, raw_selected_parent_id with
  | None, None => Ok None
  | Some coordinate, Some raw =>
    match CompactId_new raw with
    | Some id => Ok (Some (MkCachedMaterializedBlock coordinate id))
    | None => Err Storage_InvalidMetadata
    end
  | _, _ => Err Storage_InvalidMetadata
  end.

(** [StoredIdentity] of [materialization.rs], and of [identity.rs]. *)
Record StoredIdentity := MkStoredIdentity { si_id : CompactId; si_block : option CachedMaterializedBlock }.
#[global] Instance StoredIdentity_eq_dec : EqDecision StoredIdentity.
Proof. solve_decision. Defined.
Definition si_coordinate (s : StoredIdentity) : option BlockCoordinate := cm_coordinate <$> si_block s.
Definition si_identity (s : StoredIdentity) : CachedIdentity := MkCachedIdentity (si_id s) (bool_decide (is_Some (si_block s))).

(** The decoding of one row: the identifier, the coordinate, the block. *)
Definition decode_identity (row : IdentityRow) : Result StoredIdentity StorageError :=
  match CompactId_new (ir_id row) with
  | None => Err Storage_InvalidMetadata
  | Some id =>
    match decode_coordinate (ir_level row) (ir_slot row) with
    | Err e => Err e
    | Ok coordinate =>
      match decode_materialized_block coordinate (ir_selected_parent_id row) with
      | Err e => Err e
      | Ok block => Ok (MkStoredIdentity id block)
      end
    end
  end.

(** [publish_stored_identity], and the publication of a materialization. *)
Definition publish_stored_identity (hash : BlockHash) (stored : StoredIdentity) (c : Caches) : Caches :=
  let c := publish_identity hash (si_identity stored) c in
  match si_block stored with
  | Some block => publish_materialized_block (si_id stored) block c
  | None => c
  end.

(** * Interning *)

(** The identity column's default. *)
Definition nextval (t : Tables) : Tables * Result Z SqlxError :=
  if decide (tb_sequence t ≤ I64_MAX_Z)
  then (set_identifiers (tb_identifiers t) (tb_sequence t + 1) t, Ok (tb_sequence t))
  else (t, Err sequence_exhausted).

(** [INSERT INTO block_identifiers (hash) SELECT ... ORDER BY position
    RETURNING id, hash]. *)
Fixpoint insert_identifiers (hashes : list BlockHash) (t : Tables) : Tables * Result (list (BlockHash * Z)) SqlxError :=
  match hashes with
  | [] => (t, Ok [])
  | hash :: hashes =>
    match nextval t with
    | (t, Err e) => (t, Err e)
    | (t, Ok id) =>
      if decide (is_Some (tb_identifiers t !! id) ∨ hash ∈ (map_to_list (tb_identifiers t)).*2)
      then (t, Err unique_violation)
      else
        match insert_identifiers hashes (set_identifiers (<[id := hash]> (tb_identifiers t)) (tb_sequence t) t) with
        | (t, Ok rows) => (t, Ok ((hash, id) :: rows))
        | (t, Err e) => (t, Err e)
        end
    end
  end.

Definition decode_interned {Sem R} (rows : list (BlockHash * Z)) : TxSql Sem R (gmap BlockHash CompactId) :=
  foldr (λ row rest, m ← rest;
                     id ← sql_decode match CompactId_new row.2 with Some id => Ok id | None => Err Storage_InternalFailure end;
                     mret (<[row.1 := id]> m)) (mret ∅) rows.

Definition intern_identities {Sem R} (hashes : list BlockHash) : TxSql Sem R (gmap BlockHash CompactId) :=
  match hashes with
  | [] => mret ∅
  | _ =>
    rows ← stmt (insert_identifiers hashes);
    if decide (length rows ≠ length hashes) then sql_fail (AttemptStorage Storage_InternalFailure)
    else decode_interned rows
  end.

(** * Block rows *)

Definition coordinate_in_range (low level slot : Z) : Prop := low ≤ level ≤ Z.of_N U32_MAX ∧ 0 ≤ slot ≤ Z.of_N MAX_LEVEL_SLOT.
#[global] Instance coordinate_in_range_dec low level slot : Decision (coordinate_in_range low level slot).
Proof. unfold coordinate_in_range. apply _. Defined.

(** The CHECKs of [blocks]. *)
Definition block_checks (b : StoredBlock) : Prop :=
  0 ≤ sb_daa_score b < I64_MAX_Z ∧ coordinate_in_range 1 (sb_level b) (sb_slot b) ∧ 0 ≤ sb_color b ≤ 2.
#[global] Instance block_checks_dec b : Decision (block_checks b).
Proof. unfold block_checks. apply _. Defined.

(** The CHECKs of [parents]. *)
Definition parent_checks (p : ParentRelation) : Prop :=
  coordinate_in_range 1 (pr_child_level p) (pr_child_slot p) ∧ coordinate_in_range 0 (pr_parent_level p) (pr_parent_slot p) ∧
  (0 < pr_parent_level p ∨ pr_parent_slot p = 0).
#[global] Instance parent_checks_dec p : Decision (parent_checks p).
Proof. unfold parent_checks. apply _. Defined.

Definition insert_block_row (id : Z) (b : StoredBlock) (t : Tables) : Tables * Result () SqlxError :=
  if decide (¬ block_checks b) then (t, Err check_violation)
  else if decide (is_Some (tb_blocks t !! id) ∨
                  Exists (λ kv, sb_level kv.2 = sb_level b ∧ sb_slot kv.2 = sb_slot b) (map_to_list (tb_blocks t)))
  then (t, Err unique_violation)
  else if decide (tb_identifiers t !! id = None ∨ tb_identifiers t !! sb_selected_parent_id b = None)
  then (t, Err foreign_key_violation)
  else (set_blocks (<[id := b]> (tb_blocks t)) t, Ok tt).

Fixpoint insert_parent_rows (child : Z) (rows : list (Z * ParentRelation)) (t : Tables) : Tables * Result () SqlxError :=
  match rows with
  | [] => (t, Ok tt)
  | (parent, row) :: rows =>
    if decide (¬ parent_checks row) then (t, Err check_violation)
    else if decide (is_Some (tb_parents t !! (child, parent))) then (t, Err unique_violation)
    else insert_parent_rows child rows (set_parents (<[(child, parent) := row]> (tb_parents t)) t)
  end.

(** [BlockRow] and [ParentRow]. *)
Record BlockRow := MkBlockRow {
  row_id : CompactId;
  row_timestamp : Timestamp;
  row_daa_score : Z;
  row_coordinate : BlockCoordinate;
  row_selected_parent_id : CompactId;
  row_color : BlockColor;
  row_is_in_vspc : bool;
  row_blue_merge_set : list CompactId;
  row_red_merge_set : list CompactId
}.
Record ParentRow := MkParentRow { parent_row_id : CompactId; parent_row_coordinate : option BlockCoordinate }.

Definition encode_coordinate (c : BlockCoordinate) : Z * Z := (Z.of_N (coord_level c), Z.of_N (coord_slot c)).

Definition stored_block (block : BlockRow) : StoredBlock :=
  let '(level, slot) := encode_coordinate (row_coordinate block) in
  MkStoredBlock (timestamp_to_sql (row_timestamp block)) (row_daa_score block) level slot
    (compact_id (row_selected_parent_id block)) (color_to_sql (row_color block)) (row_is_in_vspc block)
    (compact_id <$> row_blue_merge_set block) (compact_id <$> row_red_merge_set block).

Definition parent_relation (block : BlockRow) (p : ParentRow) : Z * ParentRelation :=
  let '(level, slot) := encode_coordinate (row_coordinate block) in
  let '(parent_level, parent_slot) :=
    match parent_row_coordinate p with Some c => encode_coordinate c | None => (0, 0) end in
  (compact_id (parent_row_id p), MkParentRelation level slot parent_level parent_slot).

Definition insert_block_and_parents {Sem R} (block : BlockRow) (parents : list ParentRow) : TxSql Sem R () :=
  _ ← stmt (insert_block_row (compact_id (row_id block)) (stored_block block));
  stmt (insert_parent_rows (compact_id (row_id block)) (parent_relation block <$> parents)).

(** * Level rows *)

Definition decode_daa (raw : Z) : option (option N) :=
  if decide (raw = NO_VSPC_DAA_SCORE) then Some None else Some <$> u64_try_from raw.

(** The decoding of one [LevelCommitted]; the VSPC lane also refuses zero. *)
Definition decode_level_committed (positive : bool) (row : Z * LevelState) : Result LevelCommitted StorageError :=
  match u32_try_from row.1, u16_try_from (ls_size row.2), decode_daa (ls_daa_score row.2) with
  | Some level, Some size, Some daa =>
    if (positive : bool) && (bool_decide (level = 0%N) || bool_decide (size = 0%N)) then Err Storage_InvalidMetadata
    else Ok (MkLevelCommitted level size daa)
  | _, _, _ => Err Storage_InvalidMetadata
  end.

Fixpoint decode_levels (positive : bool) (rows : list (Z * LevelState)) : Result (list LevelCommitted) StorageError :=
  match rows with
  | [] => Ok []
  | row :: rows =>
    match decode_level_committed positive row with
    | Err e => Err e
    | Ok level => match decode_levels positive rows with Err e => Err e | Ok levels => Ok (level :: levels) end
    end
  end.

(** A [BTreeSet<u32>] of levels, in ascending order. *)
Definition btree_levels (levels : list N) : list N := merge_sort N.le (remove_dups levels).

(** [SELECT ... WHERE level = ANY(levels) ORDER BY level], for ascending levels. *)
Definition select_levels (levels : list N) (t : Tables) : list (Z * LevelState) :=
  omap (λ l, (λ row, (Z.of_N l, row)) <$> tb_levels t !! Z.of_N l) levels.
End store.
