(* ===== verification/Materialization.v ===== *)
(** The block-materialization transaction
    ([crates/kgi-storage/src/generation/materialization.rs]): identity
    resolution, the reference policy, interning, coordinate allocation, row
    insertion and the committed payload; and the reads of [identity.rs]. *)

From S2P Require Import Prelude Model Faults Sql Store Resolver.

#[local] Open Scope N_scope.

Section materialization.
Context {KH : KaspaHash}.

(** * The prepared block *)

Record PreparedBlock := MkPreparedBlock {
  prep_hash : BlockHash;
  prep_selected_parent : BlockHash;
  prep_direct_parents : list BlockHash;
  prep_selected_parent_index : N;
  prep_universal : list BlockHash;
  prep_blue_merge_set : list BlockHash;
  prep_red_merge_set : list BlockHash;
  prep_timestamp : Timestamp;
  prep_daa_score : N
}.

(** [position], in [u32]. *)
Definition position_u32 (hash : BlockHash) (l : list BlockHash) : option N :=
  '(i, _) ← list_find (λ h, h = hash) l;
  if decide (N.of_nat i ≤ U32_MAX) then Some (N.of_nat i) else None.

(** The loop that keeps first occurrences. *)
Fixpoint first_occurrences {A} `{EqDecision A} (seen l : list A) : list A :=
  match l with
  | [] => []
  | h :: l => if decide (h ∈ seen) then first_occurrences seen l else h :: first_occurrences (h :: seen) l
  end.

(** [PreparedBlock::references]. *)
Definition reference_hashes (red blue parents : list BlockHash) : list BlockHash :=
  first_occurrences [] (red ++ blue ++ parents).

Definition PreparedBlock_new (block : ValidatedNodeBlock) : option PreparedBlock :=
  index ← position_u32 (vnb_selected_parent block) (vnb_direct_parents block);
  Some (MkPreparedBlock (vnb_hash block) (vnb_selected_parent block) (vnb_direct_parents block) index
          (reference_hashes (vnb_red_merge_set block) (vnb_blue_merge_set block) (vnb_direct_parents block) ++ [vnb_hash block])
          (vnb_blue_merge_set block) (vnb_red_merge_set block) (vnb_timestamp block) (vnb_daa_score block)).

(** [split_last] of the universal sequence, never empty. *)
Definition references (p : PreparedBlock) : list BlockHash := removelast (prep_universal p).

(** * Identities *)

(** [seed_identities_from_cache]. *)
Fixpoint seed_identities_from_cache (c : Caches) (hashes : list BlockHash) :
    gmap BlockHash StoredIdentity * list BlockHash :=
  match hashes with
  | [] => (∅, [])
  | hash :: hashes =>
    let '(identities, misses) := seed_identities_from_cache c hashes in
    match ch_identities c !! hash with
    | None => (identities, hash :: misses)
    | Some identity =>
      if ci_materialized identity then
        match ch_materialized_blocks c !! ci_id identity with
        | None => (identities, hash :: misses)
        | Some block => (<[hash := MkStoredIdentity (ci_id identity) (Some block)]> identities, misses)
        end
      else (<[hash := MkStoredIdentity (ci_id identity) None]> identities, misses)
    end
  end.

Fixpoint decode_identities (rows : list IdentityRow) (identities : gmap BlockHash StoredIdentity) :
    Result (gmap BlockHash StoredIdentity) StorageError :=
  match rows with
  | [] => Ok identities
  | row :: rows =>
    match decode_identity row with
    | Err e => Err e
    | Ok stored => decode_identities rows (<[ir_hash row := stored]> identities)
    end
  end.

Definition load_identities {Sem R} (c : Caches) (hashes : list BlockHash) :
    TxSql Sem R (gmap BlockHash StoredIdentity * list BlockHash) :=
  let '(identities, misses) := seed_identities_from_cache c hashes in
  match misses with
  | [] => mret (identities, misses)
  | _ =>
    rows ← sql_query (select_identities misses);
    identities ← sql_decode (decode_identities rows identities);
    mret (identities, misses)
  end.

Definition intern_missing_identities {Sem R} (identities : gmap BlockHash StoredIdentity) (cache_misses : list BlockHash) :
    TxSql Sem R (gmap BlockHash StoredIdentity) :=
  ids ← intern_identities (filter (λ h, identities !! h = None) cache_misses);
  mret (((λ id, MkStoredIdentity id None) <$> ids) ∪ identities).

(** * The attempt *)

Inductive SemanticError :=
  | Semantic_IncomingBoundaryIdentity (hash : BlockHash)
  | Semantic_NonMaterializedReferences (missing identity_only : list BlockHash).

(** The cache updates are collected after the commit, with an [expect] each. *)
Record AttemptSuccess := MkAttemptSuccess {
  as_outcome : MaterializeBlockOutcome;
  as_cache_updates : option (list (BlockHash * StoredIdentity));
  as_merge_sets : option (CompactId * CachedMergeSets)
}.

Definition missing_references (identities : gmap BlockHash StoredIdentity) (refs : list BlockHash) : list BlockHash :=
  filter (λ h, identities !! h = None) refs.
Definition identity_only_references (identities : gmap BlockHash StoredIdentity) (refs : list BlockHash) : list BlockHash :=
  filter (λ h, (si_block <$> identities !! h) = Some None) refs.

(** [iter.max()] of the materialized parents' levels, and one more. *)
Definition derived_level (parents : list StoredIdentity) : option N :=
  match omap (λ p, coord_level <$> si_coordinate p) parents with
  | [] => Some 1
  | l :: ls => let level := foldr N.max l ls in if decide (level + 1 ≤ U32_MAX) then Some (level + 1) else None
  end.

(** The upsert of [levels]; no row comes back from a full level. *)
Definition allocate_slot (level : N) (t : Tables) : Tables * Result (option Z) SqlxError :=
  match tb_levels t !! Z.of_N level with
  | None =>
    if decide (1 ≤ Z.of_N level ≤ Z.of_N U32_MAX)%Z
    then (set_levels (<[Z.of_N level := MkLevelState 1 NO_VSPC_DAA_SCORE]> (tb_levels t)) t, Ok (Some 0%Z))
    else (t, Err check_violation)
  | Some row =>
    if decide (ls_size row < 65535)%Z
    then (set_levels (<[Z.of_N level := MkLevelState (ls_size row + 1) (ls_daa_score row)]> (tb_levels t)) t,
          Ok (Some (ls_size row)))
    else (t, Ok None)
  end.

(** [load_level_snapshots]. *)
Definition load_level_snapshots {Sem R} (block_level : N) (parent_levels : list N) : TxSql Sem R (list LevelCommitted) :=
  let levels := btree_levels (block_level :: parent_levels) in
  rows ← sql_query (select_levels levels);
  if decide (length rows ≠ length levels) then sql_fail (AttemptStorage Storage_InvalidMetadata)
  else sql_decode (decode_levels false rows).

(** Every hash's entry, in order: [expect] on each. *)
Definition resolve_all (identities : gmap BlockHash StoredIdentity) (hashes : list BlockHash) : option (list StoredIdentity) :=
  mapM (λ h, identities !! h) hashes.

(** The part of the transaction after the references were admitted. *)
Definition materialize_insert (p : PreparedBlock) (daa_score : Z) (identities : gmap BlockHash StoredIdentity)
    (misses : list BlockHash) : TxSql SemanticError AttemptSuccess AttemptSuccess :=
  identities ← intern_missing_identities identities misses;
  parents ← sql_expect (resolve_all identities (prep_direct_parents p));
  level ← sql_expect (derived_level parents);
  raw_slot ← stmt (allocate_slot level);
  raw_slot ← sql_expect raw_slot;
  slot ← sql_expect (u16_try_from raw_slot);
  coordinate ← sql_expect (BlockCoordinate_new level slot);
  selected_parent ← sql_expect (identities !! prep_selected_parent p);
  own ← sql_expect (identities !! prep_hash p);
  let own := MkStoredIdentity (si_id own) (Some (MkCachedMaterializedBlock coordinate (si_id selected_parent))) in
  let identities := <[prep_hash p := own]> identities in
  blue ← sql_expect (resolve_all identities (prep_blue_merge_set p));
  red ← sql_expect (resolve_all identities (prep_red_merge_set p));
  _ ← insert_block_and_parents
        (MkBlockRow (si_id own) (prep_timestamp p) daa_score coordinate (si_id selected_parent) Gray false
           (si_id <$> blue) (si_id <$> red))
        ((λ s, MkParentRow (si_id s) (si_coordinate s)) <$> parents);
  snapshots ← load_level_snapshots level (omap (λ s, coord_level <$> si_coordinate s) parents);
  mret (MkAttemptSuccess
          (Inserted (MkBlockCommitted (si_id own) (prep_hash p) coordinate (prep_timestamp p) (prep_daa_score p)
             (Some (prep_selected_parent_index p))
             (zip_with (λ h s, MkParentCommitted h (si_coordinate s)) (prep_direct_parents p) parents)
             (prep_blue_merge_set p) (prep_red_merge_set p) Gray false snapshots))
          (mapM (λ h, (λ s, (h, s)) <$> identities !! h) misses)
          (Some (si_id own, MkCachedMergeSets (si_id <$> blue) (si_id <$> red)))).

Definition materialize_attempt (c : Caches) (p : PreparedBlock) (daa_score : Z) (policy : ReferencePolicy) :
    TxSql SemanticError AttemptSuccess AttemptSuccess :=
  _ ← sql_begin;
  '(identities, misses) ← load_identities c (prep_universal p);
  match identities !! prep_hash p with
  | Some own =>
    match si_coordinate own with
    | Some coordinate =>
      sql_rollback (SqlRolledBack
        (MkAttemptSuccess (AlreadyMaterialized (si_id own) coordinate)
           (Some ((λ h, (h, own)) <$> filter (λ h, h = prep_hash p) misses)) None))
    | None => sql_rollback (SqlFailed (AttemptSemantic (Semantic_IncomingBoundaryIdentity (prep_hash p))))
    end
  | None =>
    let missing := missing_references identities (references p) in
    let identity_only := identity_only_references identities (references p) in
    if decide (policy = RequireMaterialized ∧ (missing ≠ [] ∨ identity_only ≠ []))
    then sql_rollback (SqlFailed (AttemptSemantic (Semantic_NonMaterializedReferences missing identity_only)))
    else materialize_insert p daa_score identities misses
  end.

(** The caches after a success. *)
Definition publish_success (success : AttemptSuccess) (c : Caches) : option Caches :=
  updates ← as_cache_updates success;
  let c := foldl (λ c kv, publish_stored_identity kv.1 kv.2 c) c updates in
  Some match as_merge_sets success with
       | Some (id, sets) => publish_merge_sets id sets c
       | None => c
       end.

(** * Reads *)

(** [block_presence]; [fate] is its one query's. *)
Definition presence_of (s : StoredIdentity) : BlockPresence :=
  match si_block s with
  | Some block => Materialized (si_id s) (cm_coordinate block)
  | None => BoundaryIdentity (si_id s)
  end.

Definition cached_presence (c : Caches) (hash : BlockHash) : option BlockPresence :=
  identity ← ch_identities c !! hash;
  if ci_materialized identity then
    (λ block, Materialized (ci_id identity) (cm_coordinate block)) <$> ch_materialized_blocks c !! ci_id identity
  else Some (BoundaryIdentity (ci_id identity)).

Definition identity_block_presence (fate : option SqlxError) (hash : BlockHash) (t : Tables) (c : Caches) :
    Caches * Result BlockPresence StorageError :=
  match cached_presence c hash with
  | Some presence => (c, Ok presence)
  | None =>
    match fate with
    | Some e => (c, Err (storage_database e))
    | None =>
      match select_identities [hash] t with
      | [] => (c, Ok Absent)
      | row :: _ =>
        match decode_identity row with
        | Err e => (c, Err e)
        | Ok stored => (publish_stored_identity hash stored c, Ok (presence_of stored))
        end
      end
    end
  end.

Inductive MaterializedIdResolution :=
  | Resolved (ids : list CompactId)
  | Resolution_NonMaterialized (missing identity_only : list BlockHash).

(** The cache hits and misses of [resolve_materialized_ids]. *)
Definition usable (c : Caches) (identity : CachedIdentity) : bool :=
  negb (ci_materialized identity) || bool_decide (is_Some (ch_materialized_blocks c !! ci_id identity)).
Definition cached_resolutions (c : Caches) (distinct : list BlockHash) : gmap BlockHash CachedIdentity :=
  list_to_map (omap (λ h, identity ← ch_identities c !! h; if usable c identity then Some (h, identity) else None) distinct).
Definition resolution_misses (c : Caches) (distinct : list BlockHash) : list BlockHash :=
  filter (λ h, (identity ← ch_identities c !! h; if usable c identity then Some identity else None) = None) distinct.

Fixpoint publish_rows (rows : list IdentityRow) (resolved : gmap BlockHash CachedIdentity) (c : Caches) :
    Caches * Result (gmap BlockHash CachedIdentity) StorageError :=
  match rows with
  | [] => (c, Ok resolved)
  | row :: rows =>
    match decode_identity row with
    | Err e => (c, Err e)
    | Ok stored =>
      publish_rows rows (<[ir_hash row := si_identity stored]> resolved) (publish_stored_identity (ir_hash row) stored c)
    end
  end.

(** The classification of the resolved hashes; [expect] on each of them. *)
Definition classify_resolution (hashes distinct : list BlockHash) (resolved : gmap BlockHash CachedIdentity) :
    option MaterializedIdResolution :=
  let missing := filter (λ h, resolved !! h = None) distinct in
  let identity_only := filter (λ h, (ci_materialized <$> resolved !! h) = Some false) distinct in
  if decide (missing ≠ [] ∨ identity_only ≠ []) then Some (Resolution_NonMaterialized missing identity_only)
  else Resolved <$> mapM (λ h, ci_id <$> resolved !! h) hashes.

Definition identity_resolve_materialized_ids (fate : option SqlxError) (hashes : list BlockHash) (t : Tables) (c : Caches) :
    Caches * option (Result MaterializedIdResolution StorageError) :=
  let distinct := first_occurrences [] hashes in
  let resolved := cached_resolutions c distinct in
  match resolution_misses c distinct with
  | [] => (c, Ok <$> classify_resolution hashes distinct resolved)
  | misses =>
    match fate with
    | Some e => (c, Some (Err (storage_database e)))
    | None =>
      match publish_rows (select_identities misses t) resolved c with
      | (c, Err e) => (c, Some (Err e))
      | (c, Ok resolved) => (c, Ok <$> classify_resolution hashes distinct resolved)
      end
    end
  end.
End materialization.
