(* ===== verification/VspcStore.v ===== *)
(** The VSPC transaction ([crates/kgi-storage/src/generation/vspc.rs]): source
    and membership checks, path validation, membership, coloring and the scores
    of the levels; and the Rebuild transaction ([rebuild.rs]). *)

From S2P Require Import Prelude Model Faults Sql Store Materialization.

#[local] Open Scope Z_scope.

Section vspc_store.
Context {KH : KaspaHash}.

(** * The VSPC transaction *)

Record VspcPathConflictIds := MkVspcPathConflictIds {
  pci_child : CompactId;
  pci_expected_parent : CompactId;
  pci_stored_parent : CompactId
}.

Inductive VspcSemanticError :=
  | Semantic_SourceDiscontinuity
  | Semantic_MemberNotMaterialized (id : CompactId)
  | Semantic_PathDiscontinuity (conflict : VspcPathConflict).

Record VspcAttemptSuccess := MkVspcAttemptSuccess {
  vs_outcome : VspcCommitOutcome;
  vs_member_cache_updates : list (CompactId * CachedMaterializedBlock);
  vs_merge_set_cache_updates : list (CompactId * CachedMergeSets)
}.

Definition decode_id (raw : Z) : Result CompactId StorageError :=
  match CompactId_new raw with Some id => Ok id | None => Err Storage_InvalidMetadata end.

Fixpoint decode_ids (raw : list Z) : Result (list CompactId) StorageError :=
  match raw with
  | [] => Ok []
  | id :: raw =>
    match decode_id id with
    | Err e => Err e
    | Ok id => match decode_ids raw with Err e => Err e | Ok ids => Ok (id :: ids) end
    end
  end.

(** The greatest key of a map from [Z]: [ORDER BY id DESC LIMIT 1]. *)
Definition max_id {A} (m : gmap Z A) : option Z :=
  match (map_to_list m).*1 with [] => None | id :: ids => Some (foldr Z.max id ids) end.

Definition vspc_blocks (t : Tables) : gmap Z StoredBlock := filter (λ kv, sb_is_in_vspc kv.2 = true) (tb_blocks t).

(** The sink row; the join drops a block without an identifier. *)
Definition select_sink (t : Tables) : option (Z * BlockHash) :=
  let joined := filter (λ kv, is_Some (tb_identifiers t !! kv.1)) (vspc_blocks t) in
  id ← max_id joined; hash ← tb_identifiers t !! id; Some (id, hash).

Definition load_current_sink {Sem R} (c : Caches) : TxSql Sem R (CompactId * BlockHash) :=
  match ch_vspc_sink c with
  | Some sink => mret (cv_id sink, cv_hash sink)
  | None =>
    row ← sql_query select_sink;
    '(raw_id, hash) ← sql_decode match row with Some row => Ok row | None => Err Storage_InvalidMetadata end;
    id ← sql_decode (decode_id raw_id);
    mret (id, hash)
  end.

Definition distinct_member_ids (change : ReadyVspcChange) : list CompactId :=
  first_occurrences [] (rc_removed change ++ rc_added change).

(** [seed_members_from_cache]. *)
Fixpoint seed_members_from_cache (c : Caches) (ids : list CompactId) :
    gmap CompactId CachedMaterializedBlock * list CompactId :=
  match ids with
  | [] => (∅, [])
  | id :: ids =>
    let '(members, misses) := seed_members_from_cache c ids in
    match ch_materialized_blocks c !! id with
    | Some block => (<[id := block]> members, misses)
    | None => (members, id :: misses)
    end
  end.

(** [WHERE block.id = ANY(ids)]. *)
Definition select_blocks (ids : list CompactId) (t : Tables) : list (Z * StoredBlock) :=
  filter (λ kv, kv.1 ∈ compact_id <$> ids) (map_to_list (tb_blocks t)).

Definition decode_member (row : Z * StoredBlock) : Result (CompactId * CachedMaterializedBlock) StorageError :=
  match decode_id row.1 with
  | Err e => Err e
  | Ok id =>
    match u32_try_from (sb_level row.2), u16_try_from (sb_slot row.2) with
    | Some level, Some slot =>
      match BlockCoordinate_new level slot with
      | None => Err Storage_InvalidMetadata
      | Some coordinate =>
        match decode_id (sb_selected_parent_id row.2) with
        | Err e => Err e
        | Ok parent => Ok (id, MkCachedMaterializedBlock coordinate parent)
        end
      end
    | _, _ => Err Storage_InvalidMetadata
    end
  end.

Fixpoint decode_members (rows : list (Z * StoredBlock)) : Result (list (CompactId * CachedMaterializedBlock)) StorageError :=
  match rows with
  | [] => Ok []
  | row :: rows =>
    match decode_member row with
    | Err e => Err e
    | Ok m => match decode_members rows with Err e => Err e | Ok ms => Ok (m :: ms) end
    end
  end.

Definition load_members {Sem R} (c : Caches) (ids : list CompactId) :
    TxSql Sem R (gmap CompactId CachedMaterializedBlock * list (CompactId * CachedMaterializedBlock)) :=
  let '(members, misses) := seed_members_from_cache c ids in
  match misses with
  | [] => mret (members, [])
  | _ =>
    rows ← sql_query (select_blocks misses);
    updates ← sql_decode (decode_members rows);
    mret (list_to_map updates ∪ members, updates)
  end.

(** The closure [conflict] of [first_path_conflict]; the outer [option] is the
    [expect] that every member was loaded. *)
Definition conflict (members : gmap CompactId CachedMaterializedBlock) (child expected_parent : CompactId) :
    option (option VspcPathConflictIds) :=
  stored ← members !! child;
  Some (if decide (cm_selected_parent_id stored = expected_parent) then None
        else Some (MkVspcPathConflictIds child expected_parent (cm_selected_parent_id stored))).

(** The loop over [windows(2)]: [pick] names the child and the parent. *)
Fixpoint windows_conflict (members : gmap CompactId CachedMaterializedBlock) (parent_first : bool) (ids : list CompactId) :
    option (option VspcPathConflictIds) :=
  match ids with
  | [] => Some None
  | a :: rest =>
    match rest with
    | [] => Some None
    | b :: _ =>
      found ← (if parent_first then conflict members b a else conflict members a b);
      match found with
      | Some c => Some (Some c)
      | None => windows_conflict members parent_first rest
      end
    end
  end.

Definition first_path_conflict (change : ReadyVspcChange) (members : gmap CompactId CachedMaterializedBlock) :
    option (option VspcPathConflictIds) :=
  match rc_removed change with
  | [] => child ← head (rc_added change); conflict members child (vp_id (rc_source change))
  | first :: _ =>
    found ← windows_conflict members false (rc_removed change);
    match found with
    | Some c => Some (Some c)
    | None =>
      child ← head (rc_added change);
      last_removed ← members !! List.last (rc_removed change) first;
      found ← conflict members child (cm_selected_parent_id last_removed);
      match found with
      | Some c => Some (Some c)
      | None => windows_conflict members true (rc_added change)
      end
    end
  end.

(** [resolve_path_conflict]. *)
Definition resolve_path_conflict {Sem R} (conflict : VspcPathConflictIds) : TxSql Sem R VspcPathConflict :=
  let ids := first_occurrences [] [pci_child conflict; pci_expected_parent conflict; pci_stored_parent conflict] in
  rows ← sql_query (λ t, filter (λ kv, kv.1 ∈ compact_id <$> ids) (map_to_list (tb_identifiers t)));
  if decide (length rows ≠ length ids) then sql_fail (AttemptStorage Storage_InvalidMetadata)
  else
    decoded ← sql_decode (decode_ids rows.*1);
    let hashes : gmap CompactId BlockHash := list_to_map (zip decoded rows.*2) in
    let resolve id := sql_decode match hashes !! id with Some h => Ok h | None => Err Storage_InvalidMetadata end in
    child ← resolve (pci_child conflict);
    expected ← resolve (pci_expected_parent conflict);
    stored ← resolve (pci_stored_parent conflict);
    mret (MkVspcPathConflict child expected stored).

Fixpoint decode_merge_sets (rows : list (Z * StoredBlock)) : Result (list (CompactId * CachedMergeSets)) StorageError :=
  match rows with
  | [] => Ok []
  | row :: rows =>
    match decode_id row.1, decode_ids (sb_blue_merge_set row.2), decode_ids (sb_red_merge_set row.2) with
    | Ok id, Ok blue, Ok red =>
      match decode_merge_sets rows with Err e => Err e | Ok ms => Ok ((id, MkCachedMergeSets blue red) :: ms) end
    | Err e, _, _ | _, Err e, _ | _, _, Err e => Err e
    end
  end.

Definition load_merge_sets {Sem R} (c : Caches) (added : list CompactId) :
    TxSql Sem R (gmap CompactId CachedMergeSets * list (CompactId * CachedMergeSets)) :=
  let distinct := first_occurrences [] added in
  let cached : gmap CompactId CachedMergeSets :=
    list_to_map (omap (λ id, (λ sets, (id, sets)) <$> ch_merge_sets c !! id) distinct) in
  match filter (λ id, ch_merge_sets c !! id = None) distinct with
  | [] => mret (cached, [])
  | misses =>
    rows ← sql_query (select_blocks misses);
    updates ← sql_decode (decode_merge_sets rows);
    let sets := list_to_map updates ∪ cached in
    if decide (size sets ≠ length distinct) then sql_fail (AttemptStorage Storage_InvalidMetadata)
    else mret (sets, updates)
  end.

(** ** The updates *)

Definition update_block (f : StoredBlock → StoredBlock) (ids : list CompactId) (t : Tables) : Tables :=
  set_blocks (map_imap (λ id b, Some (if decide (id ∈ compact_id <$> ids) then f b else b)) (tb_blocks t)) t.

Definition set_membership (x : bool) (b : StoredBlock) : StoredBlock :=
  MkStoredBlock (sb_timestamp b) (sb_daa_score b) (sb_level b) (sb_slot b) (sb_selected_parent_id b) (sb_color b) x
    (sb_blue_merge_set b) (sb_red_merge_set b).
Definition set_stored_color (color : BlockColor) (b : StoredBlock) : StoredBlock :=
  MkStoredBlock (sb_timestamp b) (sb_daa_score b) (sb_level b) (sb_slot b) (sb_selected_parent_id b) (color_to_sql color)
    (sb_is_in_vspc b) (sb_blue_merge_set b) (sb_red_merge_set b).

Definition apply_membership {Sem R} (removed added : list CompactId) : TxSql Sem R () :=
  _ ← match removed with
      | [] => mret ()
      | _ => stmt (λ t, (update_block (λ b, set_membership false (set_stored_color Gray b)) removed t, Ok ()))
      end;
  stmt (λ t, (update_block (set_membership true) added t, Ok ())).

(** The colors of the merge sets, a later one winning. *)
Definition final_colors (added : list CompactId) (sets : gmap CompactId CachedMergeSets) :
    option (gmap CompactId BlockColor) :=
  fold_m (λ m id, s ← sets !! id;
                  let m := foldl (λ m member, <[member := Blue]> m) m (cs_blue s) in
                  Some (foldl (λ m member, <[member := Red]> m) m (cs_red s))) ∅ added.

Definition color_blocks (colors : gmap CompactId BlockColor) (t : Tables) : Tables :=
  set_blocks (map_imap (λ id b, Some match colors !! MkCompactId id with Some c => set_stored_color c b | None => b end)
                (tb_blocks t)) t.

Definition apply_merge_set_colors {Sem R} (added : list CompactId) (sets : gmap CompactId CachedMergeSets) : TxSql Sem R () :=
  colors ← sql_expect (final_colors added sets);
  if decide (colors = ∅) then mret () else stmt (λ t, (color_blocks colors t, Ok ())).

(** The scalar subquery: the score of the level's VSPC block, if any; two of
    them are an error of the statement. *)
Definition current_score (level : Z) (t : Tables) : Result Z SqlxError :=
  match filter (λ kv, sb_level kv.2 = level ∧ sb_is_in_vspc kv.2 = true) (map_to_list (tb_blocks t)) with
  | [] => Ok NO_VSPC_DAA_SCORE
  | [(_, b)] => Ok (sb_daa_score b)
  | _ => Err cardinality_violation
  end.

Fixpoint rescore (levels : list N) (t : Tables) (rows : gmap Z LevelState) : Result (gmap Z LevelState) SqlxError :=
  match levels with
  | [] => Ok rows
  | level :: levels =>
    match tb_levels t !! Z.of_N level with
    | None => rescore levels t rows
    | Some row =>
      match current_score (Z.of_N level) t with
      | Err e => Err e
      | Ok score => rescore levels t (<[Z.of_N level := MkLevelState (ls_size row) score]> rows)
      end
    end
  end.

Definition update_level_scores {Sem R} (levels : list N) : TxSql Sem R (list LevelCommitted) :=
  rows ← stmt (λ t, match rescore levels t (tb_levels t) with
                    | Ok rows => (set_levels rows t, Ok (select_levels levels (set_levels rows t)))
                    | Err e => (t, Err e)
                    end);
  if decide (length rows ≠ length levels) then sql_fail (AttemptStorage Storage_InvalidMetadata)
  else sql_decode (decode_levels true rows).

(** ** The attempt *)

Definition apply_attempt (c : Caches) (change : ReadyVspcChange) :
    TxSql VspcSemanticError VspcAttemptSuccess VspcAttemptSuccess :=
  _ ← sql_begin;
  sink ← load_current_sink c;
  if decide (sink ≠ (vp_id (rc_source change), vp_hash (rc_source change)))
  then sql_rollback (SqlFailed (AttemptSemantic Semantic_SourceDiscontinuity))
  else
    let ids := distinct_member_ids change in
    '(members, member_updates) ← load_members c ids;
    match list_find (λ id, members !! id = None) (rc_removed change ++ rc_added change) with
    | Some (_, id) => sql_rollback (SqlFailed (AttemptSemantic (Semantic_MemberNotMaterialized id)))
    | None =>
      if decide (default (vp_id (rc_source change)) (head (rc_removed change)) ≠ vp_id (rc_source change))
      then sql_rollback (SqlFailed (AttemptSemantic Semantic_SourceDiscontinuity))
      else
        found ← sql_expect (first_path_conflict change members);
        match found with
        | Some conflict_ids =>
          conflict ← resolve_path_conflict conflict_ids;
          sql_rollback (SqlFailed (AttemptSemantic (Semantic_PathDiscontinuity conflict)))
        | None =>
          '(sets, set_updates) ← load_merge_sets c (rc_added change);
          _ ← apply_membership (rc_removed change) (rc_added change);
          _ ← apply_merge_set_colors (rc_added change) sets;
          levels ← sql_expect (mapM (λ id, coord_level ∘ cm_coordinate <$> members !! id) ids);
          snapshots ← update_level_scores (btree_levels levels);
          mret (MkVspcAttemptSuccess (MkVspcCommitOutcome (rc_destination change) snapshots) member_updates set_updates)
        end
    end.

Definition publish_vspc_success (success : VspcAttemptSuccess) (c : Caches) : Caches :=
  let c := foldl (λ c kv, publish_materialized_block kv.1 kv.2 c) c (vs_member_cache_updates success) in
  let c := foldl (λ c kv, publish_merge_sets kv.1 kv.2 c) c (vs_merge_set_cache_updates success) in
  let destination := outcome_destination (vs_outcome success) in
  publish_vspc_sink (MkCachedVspcSink (vp_id destination) (vp_hash destination)) c.

(** * The Rebuild transaction *)

Record PreparedRebuild := MkPreparedRebuild {
  rb_block : ValidatedNodeBlock;
  rb_universal : list BlockHash;
  rb_daa_score : Z;
  rb_blue_score : Z
}.

Definition PreparedRebuild_new (block : ValidatedNodeBlock) (genesis_hash : BlockHash) : Result PreparedRebuild StorageError :=
  match daa_score_to_sql (vnb_daa_score block) with
  | Err e => Err e
  | Ok daa_score =>
    match blue_score_to_sql (vnb_blue_score block) with
    | Err e => Err e
    | Ok blue_score =>
      Ok (MkPreparedRebuild block
            (reference_hashes (vnb_red_merge_set block) (vnb_blue_merge_set block) (vnb_direct_parents block) ++
             (if decide (vnb_hash block = genesis_hash) then [vnb_selected_parent block] else []) ++ [vnb_hash block])
            daa_score blue_score)
    end
  end.

(** [TRUNCATE ... RESTART IDENTITY]. *)
Definition truncate {Sem R} : TxSql Sem R () :=
  _ ← stmt (λ _, (empty_tables, Ok ()));
  sql_restart.

(** [identity] and [ids]. *)
Definition rebuild_identity {Sem R} (identities : gmap BlockHash CompactId) (hash : BlockHash) : TxSql Sem R CompactId :=
  sql_decode match identities !! hash with Some id => Ok id | None => Err Storage_InternalFailure end.
Fixpoint rebuild_ids {Sem R} (identities : gmap BlockHash CompactId) (hashes : list BlockHash) : TxSql Sem R (list CompactId) :=
  match hashes with
  | [] => mret []
  | h :: hashes => id ← rebuild_identity identities h; ids ← rebuild_ids identities hashes; mret (id :: ids)
  end.

Record RebuildCommit := MkRebuildCommit {
  rcm_anchor : MaterializedSyncAnchor;
  rcm_caches : Caches
}.

Definition rebuild_attempt (p : PreparedRebuild) : TxSql Empty_set RebuildCommit RebuildCommit :=
  let block := rb_block p in
  _ ← sql_begin;
  _ ← truncate;
  identities ← intern_identities (rb_universal p);
  own_id ← rebuild_identity identities (vnb_hash block);
  selected_parent_id ← rebuild_identity identities (vnb_selected_parent block);
  blue ← rebuild_ids identities (vnb_blue_merge_set block);
  red ← rebuild_ids identities (vnb_red_merge_set block);
  parents ← rebuild_ids identities (vnb_direct_parents block);
  coordinate ← sql_expect (BlockCoordinate_new 1 0);
  _ ← insert_block_and_parents
        (MkBlockRow own_id (vnb_timestamp block) (rb_daa_score p) coordinate selected_parent_id Gray true blue red)
        ((λ id, MkParentRow id None) <$> parents);
  _ ← stmt (λ t, if decide (is_Some (tb_levels t !! 1)) then (t, Err unique_violation)
                 else (set_levels (<[1 := MkLevelState 1 (rb_daa_score p)]> (tb_levels t)) t, Ok ()));
  _ ← stmt (λ t, match tb_metadata t with
                 | Some _ => (t, Err unique_violation)
                 | None => (MkTables (tb_identifiers t) (tb_sequence t) (tb_blocks t) (tb_levels t) (tb_parents t)
                              (Some (rb_blue_score p)), Ok ())
                 end);
  let c := map_fold (λ hash id, publish_identity hash (MkCachedIdentity id (bool_decide (hash = vnb_hash block))))
             ProcessingCacheDomains_new identities in
  let c := publish_materialized_block own_id (MkCachedMaterializedBlock coordinate selected_parent_id) c in
  let c := publish_merge_sets own_id (MkCachedMergeSets blue red) c in
  let c := publish_vspc_sink (MkCachedVspcSink own_id (vnb_hash block)) c in
  mret (MkRebuildCommit
          (MkMaterializedSyncAnchor
             (MkVspcPoint (MkConsensusOrder (vnb_blue_work block) (vnb_hash block)) own_id)
             (vnb_selected_parent block) (vnb_blue_score block)) c).
End vspc_store.
