(* ===== verification/StoreClient.v ===== *)
(** The processing client of a database generation
    ([crates/kgi-storage/src/generation/mod.rs]): its operations over tables and
    caches, generation loss, and the classification of stored session state
    ([state.rs]).

    Each operation is one step: lanes, the mutation guard and the isolation of
    transactions make operations on the tables atomic, and concurrent reads
    only publish what is committed.  The caches may drop entries between
    operations ([evict]). *)

From S2P Require Import Prelude Model Faults Sql Store Resolver Materialization VspcStore.

#[local] Open Scope N_scope.

(** [RebuildFromPruningPointError]. *)
Inductive RebuildFromPruningPointError :=
  | Rebuild_Database (error : ProcessingDbError)
  | Rebuild_Setup (reason : RebuildSetupFault)
  | Rebuild_ReplacementControlUnavailable.

Section store_client.
Context {KH : KaspaHash}.

(** * Stored session state *)

Record StoredVspcSink := MkStoredVspcSink {
  sv_hash : BlockHash;
  sv_id : CompactId;
  sv_selected_parent : BlockHash;
  sv_daa_score : N
}.
Record StoredSessionSnapshot := MkStoredSessionSnapshot {
  db_pp_hash : BlockHash;
  db_pp_blue_score : N;
  committed_vspc_sink : StoredVspcSink
}.
Inductive StoredSessionState :=
  | SessionEmpty
  | SessionInconsistent
  | SessionInitialized (snapshot : StoredSessionSnapshot).

Inductive StoredProcessingMetadata :=
  | MetadataAbsent
  | MetadataValid (db_pp_blue_score : N)
  | MetadataInvalid.

Definition read_processing_metadata (t : Tables) : StoredProcessingMetadata :=
  match tb_metadata t with
  | None => MetadataAbsent
  | Some score => match u64_try_from score with Some s => MetadataValid s | None => MetadataInvalid end
  end.

(** [ProcessingPresence::is_empty] of the four tables. *)
Definition processing_empty (t : Tables) : bool :=
  bool_decide (tb_identifiers t = ∅ ∧ dom (tb_blocks t) = ∅ ∧ dom (tb_levels t) = ∅ ∧ dom (tb_parents t) = ∅).

(** The pruning point: the block at level 1, slot 0, joined with its identifier
    and its level; [UNIQUE (level, slot)] leaves one row at most. *)
Definition read_pruning_point (t : Tables) : option (BlockHash * bool) :=
  '(id, b) ← head (filter (λ kv, sb_level kv.2 = 1%Z ∧ sb_slot kv.2 = 0%Z) (map_to_list (tb_blocks t)));
  hash ← tb_identifiers t !! id;
  _ ← tb_levels t !! sb_level b;
  Some (hash, sb_is_in_vspc b).

(** The sink of greatest identifier, joined with its own and its selected
    parent's identifiers. *)
Definition read_committed_vspc_sink (t : Tables) : option StoredVspcSink :=
  let joined := filter (λ kv, is_Some (tb_identifiers t !! kv.1) ∧ is_Some (tb_identifiers t !! sb_selected_parent_id kv.2))
                  (vspc_blocks t) in
  raw_id ← max_id joined;
  b ← joined !! raw_id;
  hash ← tb_identifiers t !! raw_id;
  selected_parent ← tb_identifiers t !! sb_selected_parent_id b;
  id ← CompactId_new raw_id;
  daa_score ← u64_try_from (sb_daa_score b);
  if decide (daa_score ≤ MAX_DAA_SCORE) then Some (MkStoredVspcSink hash id selected_parent daa_score) else None.

Definition inspect_processing_state {Sem R} (genesis_hash : BlockHash) : TxSql Sem R StoredSessionState :=
  metadata ← sql_query read_processing_metadata;
  empty ← sql_query processing_empty;
  if (empty : bool) then mret match metadata with MetadataAbsent => SessionEmpty | _ => SessionInconsistent end
  else
    match metadata with
    | MetadataValid db_pp_blue_score =>
      pruning_point ← sql_query read_pruning_point;
      match pruning_point with
      | None => mret SessionInconsistent
      | Some (hash, is_in_vspc) =>
        if decide (is_in_vspc = false ∨ (hash = genesis_hash ∧ db_pp_blue_score ≠ 0)) then mret SessionInconsistent
        else
          sink ← sql_query read_committed_vspc_sink;
          mret match sink with
               | None => SessionInconsistent
               | Some sink => SessionInitialized (MkStoredSessionSnapshot hash db_pp_blue_score sink)
               end
      end
    | _ => mret SessionInconsistent
    end.

(** [ProcessingStateInspection::load]: begin, the snapshot's settings, the
    queries, the commit of a read-only transaction. *)
Definition load_inspection (genesis_hash : BlockHash) (fates : AttemptFates) (t : Tables) :
    Result StoredSessionState StorageError :=
  let body : TxSql Empty_set StoredSessionState StoredSessionState :=
    _ ← sql_begin; _ ← sql_begin; inspect_processing_state genesis_hash in
  match (run_attempt keep_sequence body fates t).2 with
  | Some (Ok state) => Ok state
  | Some (Err (AttemptDatabase _ e)) => Err (storage_database e)
  | Some (Err (AttemptStorage e)) => Err e
  | Some (Err (AttemptSemantic e)) => match e with end
  | None => Err Storage_InternalFailure
  end.

(** * The client *)

(** [cl_tables] is the database itself, which outlives the generation. *)
Record ValidatedDbClient := MkClient {
  cl_tables : Tables;
  cl_caches : Caches;
  cl_valid : bool;
  cl_genesis_hash : BlockHash
}.

Definition set_database (t : Tables) (k : ValidatedDbClient) : ValidatedDbClient :=
  MkClient t (cl_caches k) (cl_valid k) (cl_genesis_hash k).
Definition set_caches (c : Caches) (k : ValidatedDbClient) : ValidatedDbClient :=
  MkClient (cl_tables k) c (cl_valid k) (cl_genesis_hash k).
Definition retire (k : ValidatedDbClient) : ValidatedDbClient :=
  MkClient (cl_tables k) (cl_caches k) false (cl_genesis_hash k).

(** [request_operation_retirement]: the service retires the generation before
    it acknowledges, or its control path is gone. *)
Definition request_operation_retirement (service : Result () StorageError) (k : ValidatedDbClient) :
    ValidatedDbClient * Result () StorageError :=
  match service with Ok _ => (retire k, service) | Err _ => (k, service) end.

(** [run_operation]; a panic of the operation is one of its caller. *)
Definition run_operation {A} (service : Result () StorageError)
    (operation : ValidatedDbClient → ValidatedDbClient * option (Result A StorageError)) (k : ValidatedDbClient) :
    ValidatedDbClient * option (Result A StorageError) :=
  if negb (cl_valid k) then (k, Some (Err Storage_GenerationLost))
  else
    match operation k with
    | (k, Some (Err (Storage_Persistence AmbiguousCommit))) =>
      let '(k, r) := request_operation_retirement service k in
      (k, Some match r with Ok _ => Err (Storage_Persistence AmbiguousCommit) | Err e => Err e end)
    | (k, Some (Err error)) =>
      if is_connection_lost error then
        let '(k, r) := request_operation_retirement service k in
        (k, Some match r with Ok _ => Err Storage_GenerationLost | Err e => Err e end)
      else (k, Some (Err error))
    | (k, r) => (k, r)
    end.

(** ** Operations *)

Inductive MaterializationResult :=
  | MaterializationOutcome (outcome : MaterializeBlockOutcome)
  | Result_IncomingBoundaryIdentity (hash : BlockHash)
  | Result_NonMaterializedReferences (missing identity_only : list BlockHash).

Definition materialize_operation (fates : nat → AttemptFates) (block : ValidatedNodeBlock) (policy : ReferencePolicy)
    (k : ValidatedDbClient) : ValidatedDbClient * option (Result MaterializationResult StorageError) :=
  match PreparedBlock_new block with
  | None => (k, None)
  | Some prepared =>
    match daa_score_to_sql (prep_daa_score prepared) with
    | Err e => (k, Some (Err e))
    | Ok daa_score =>
      let '(t, r) := transaction_run keep_sequence (materialize_attempt (cl_caches k) prepared daa_score policy) RETRY_DELAYS
                       fates (cl_tables k) in
      let k := set_database t k in
      match r with
      | None => (k, None)
      | Some (Err e) => (k, Some (Err e))
      | Some (Ok (Err (Semantic_IncomingBoundaryIdentity hash))) => (k, Some (Ok (Result_IncomingBoundaryIdentity hash)))
      | Some (Ok (Err (Semantic_NonMaterializedReferences missing identity_only))) =>
        (k, Some (Ok (Result_NonMaterializedReferences missing identity_only)))
      | Some (Ok (Ok success)) =>
        match publish_success success (cl_caches k) with
        | None => (k, None)
        | Some c => (set_caches c k, Some (Ok (MaterializationOutcome (as_outcome success))))
        end
      end
    end
  end.

Definition materialize_block (service : Result () StorageError) (fates : nat → AttemptFates) (block : ValidatedNodeBlock)
    (policy : ReferencePolicy) (k : ValidatedDbClient) :
    ValidatedDbClient * option (Result MaterializeBlockOutcome MaterializeBlockError) :=
  let '(k, r) := run_operation service (materialize_operation fates block policy) k in
  (k, (λ r, match r with
            | Err e => Err (Materialize_Database (db_mutation e))
            | Ok (MaterializationOutcome outcome) => Ok outcome
            | Ok (Result_IncomingBoundaryIdentity hash) => Err (IncomingBoundaryIdentity hash)
            | Ok (Result_NonMaterializedReferences missing identity_only) => Err (NonMaterializedReferences missing identity_only)
            end) <$> r).

Definition apply_operation (fates : nat → AttemptFates) (change : ReadyVspcChange) (k : ValidatedDbClient) :
    ValidatedDbClient * option (Result VspcCommitOutcome StorageError) :=
  let '(t, r) := transaction_run keep_sequence (apply_attempt (cl_caches k) change) RETRY_DELAYS fates (cl_tables k) in
  let k := set_database t k in
  match r with
  | None => (k, None)
  | Some (Err e) => (k, Some (Err e))
  | Some (Ok (Err Semantic_SourceDiscontinuity)) => (k, Some (Err Storage_VspcSourceDiscontinuity))
  | Some (Ok (Err (Semantic_MemberNotMaterialized id))) => (k, Some (Err (Storage_VspcMemberNotMaterialized id)))
  | Some (Ok (Err (Semantic_PathDiscontinuity conflict))) => (k, Some (Err (Storage_VspcPathDiscontinuity conflict)))
  | Some (Ok (Ok success)) => (set_caches (publish_vspc_success success (cl_caches k)) k, Some (Ok (vs_outcome success)))
  end.

Definition apply_vspc_change (service : Result () StorageError) (fates : nat → AttemptFates) (change : ReadyVspcChange)
    (k : ValidatedDbClient) : ValidatedDbClient * option (Result VspcCommitOutcome ApplyVspcChangeError) :=
  match rc_added change with
  | [] => (k, Some (Err (Apply_Database Db_ServiceUnavailable)))
  | _ =>
    let '(k, r) := run_operation service (apply_operation fates change) k in
    (k, map_err (λ e, match e with
                      | Storage_VspcSourceDiscontinuity => VspcSourceDiscontinuity
                      | Storage_VspcMemberNotMaterialized id => VspcMemberNotMaterialized id
                      | Storage_VspcPathDiscontinuity conflict => VspcPathDiscontinuity conflict
                      | e => Apply_Database (db_mutation e)
                      end) <$> r)
  end.

(** [perform_rebuild], which the service runs with mutations excluded. *)
Definition perform_rebuild (fates : nat → AttemptFates) (block : ValidatedNodeBlock) (k : ValidatedDbClient) :
    ValidatedDbClient * option (Result MaterializedSyncAnchor StorageError) :=
  match PreparedRebuild_new block (cl_genesis_hash k) with
  | Err e => (k, Some (Err e))
  | Ok prepared =>
    let '(t, r) := transaction_run keep_sequence (rebuild_attempt prepared) RETRY_DELAYS fates (cl_tables k) in
    let k := set_database t k in
    match r with
    | None => (k, None)
    | Some (Err e) => (k, Some (Err e))
    | Some (Ok (Err e)) => match e with end
    | Some (Ok (Ok commit)) => (set_caches (rcm_caches commit) k, Some (Ok (rcm_anchor commit)))
    end
  end.

(** [rebuild_error]. *)
Definition rebuild_error (error : StorageError) : RebuildFromPruningPointError :=
  match error with
  | Storage_RebuildSetupFailed reason => Rebuild_Setup reason
  | Storage_ReplacementControlUnavailable => Rebuild_ReplacementControlUnavailable
  | error => Rebuild_Database (db_mutation error)
  end.

(** What the service found when the rebuild it ran was over: the generation
    retired meanwhile (its lock lost, a command, a retirement), or still
    current, and then the outcome of opening the API generation. *)
Inductive RebuildSettlement :=
  | RebuildUndisturbed (opened : Result () StorageError)
  | RebuildDisturbed.

Definition rebuild_result_after_retirement (result : Result MaterializedSyncAnchor StorageError) :
    Result MaterializedSyncAnchor StorageError :=
  match result with
  | Err error => if is_connection_lost error then Err Storage_GenerationLost else result
  | result => result
  end.

(** The end of [handle_rebuild]. *)
Definition settle_rebuild (settlement : RebuildSettlement) (result : Result MaterializedSyncAnchor StorageError)
    (k : ValidatedDbClient) : ValidatedDbClient * Result MaterializedSyncAnchor StorageError :=
  match settlement with
  | RebuildDisturbed => (retire k, rebuild_result_after_retirement result)
  | RebuildUndisturbed opened =>
    match result with
    | Ok anchor => (k, match opened with Ok _ => Ok anchor | Err error => Err error end)
    | Err (Storage_Persistence AmbiguousCommit) => (retire k, result)
    | Err error => if is_connection_lost error then (retire k, Err Storage_GenerationLost) else (k, Err error)
    end
  end.

(** [rebuild::validate_input]. *)
Definition validate_input (block : ValidatedNodeBlock) : Result () StorageError :=
  match daa_score_to_sql (vnb_daa_score block) with
  | Err e => Err e
  | Ok _ => match blue_score_to_sql (vnb_blue_score block) with Err e => Err e | Ok _ => Ok () end
  end.

Definition rebuild_from_pruning_point (settlement : RebuildSettlement) (fates : nat → AttemptFates) (block : ValidatedNodeBlock)
    (k : ValidatedDbClient) : ValidatedDbClient * option (Result MaterializedSyncAnchor RebuildFromPruningPointError) :=
  match validate_input block with
  | Err e => (k, Some (Err (Rebuild_Database (db_mutation e))))
  | Ok _ =>
    if negb (cl_valid k) then (k, Some (Err (Rebuild_Database Db_GenerationLost)))
    else
      match perform_rebuild fates block k with
      | (k, None) => (k, None)
      | (k, Some result) => let '(k, r) := settle_rebuild settlement result k in (k, Some (map_err rebuild_error r))
      end
  end.

Definition load_session_state (service : Result () StorageError) (fates : AttemptFates) (k : ValidatedDbClient) :
    ValidatedDbClient * option (Result StoredSessionState ProcessingDbError) :=
  let '(k, r) := run_operation service (λ k, (k, Some (load_inspection (cl_genesis_hash k) fates (cl_tables k)))) k in
  match r with
  | Some (Ok (SessionInitialized snapshot)) =>
    let sink := committed_vspc_sink snapshot in
    (set_caches (publish_vspc_sink (MkCachedVspcSink (sv_id sink) (sv_hash sink)) (cl_caches k)) k,
     Some (Ok (SessionInitialized snapshot)))
  | _ => (k, map_err db_query <$> r)
  end.

Definition block_presence (service : Result () StorageError) (fate : option SqlxError) (hash : BlockHash)
    (k : ValidatedDbClient) : ValidatedDbClient * option (Result BlockPresence ProcessingDbError) :=
  let '(k, r) := run_operation service
    (λ k, let '(c, r) := identity_block_presence fate hash (cl_tables k) (cl_caches k) in (set_caches c k, Some r)) k in
  (k, map_err db_query <$> r).

Definition resolve_materialized_ids (service : Result () StorageError) (fate : option SqlxError) (hashes : list BlockHash)
    (k : ValidatedDbClient) : ValidatedDbClient * option (Result (list CompactId) ResolveMaterializedIdsError) :=
  let '(k, r) := run_operation service
    (λ k, let '(c, r) := identity_resolve_materialized_ids fate hashes (cl_tables k) (cl_caches k) in (set_caches c k, r)) k in
  (k, (λ r, match r with
            | Err e => Err (Resolve_Database (db_query e))
            | Ok (Resolved ids) => Ok ids
            | Ok (Resolution_NonMaterialized missing identity_only) => Err (NonMaterialized missing identity_only)
            end) <$> r).

(** Any entries of the caches may go at any time. *)
Definition evict (keep_identity : BlockHash → bool) (keep_block keep_sets : CompactId → bool) (keep_sink : bool)
    (k : ValidatedDbClient) : ValidatedDbClient :=
  let c := cl_caches k in
  set_caches (MkCaches (filter (λ kv, keep_identity kv.1 = true) (ch_identities c))
                (filter (λ kv, keep_block kv.1 = true) (ch_materialized_blocks c))
                (filter (λ kv, keep_sets kv.1 = true) (ch_merge_sets c))
                (if keep_sink then ch_vspc_sink c else None)) k.
End store_client.
