(* ===== verification/StoreInvariant.v ===== *)
(** The invariant of the processing tables, what identities and cached entries
    stand for in it, and the reads of a well-formed store: identities resolved
    through caches and rows agree with the tables, whatever the caches hold. *)

From S2P Require Import Prelude Model Faults Sql Store Resolver Materialization VspcStore.
From S2P Require Import StoreClient.

#[local] Open Scope Z_scope.

Section store_invariant.
Context {KH : KaspaHash}.
Implicit Types (t : Tables) (c : Caches) (h : BlockHash) (id : Z) (b : StoredBlock).

(** * The invariant *)

(** The parent coordinates a relation records. *)
Definition relation_of t (b : StoredBlock) (parent : Z) : ParentRelation :=
  match tb_blocks t !! parent with
  | Some p => MkParentRelation (sb_level b) (sb_slot b) (sb_level p) (sb_slot p)
  | None => MkParentRelation (sb_level b) (sb_slot b) 0 0
  end.

Definition reference_ids b : list Z := sb_selected_parent_id b :: sb_blue_merge_set b ++ sb_red_merge_set b.

Record store_inv (genesis : BlockHash) t : Prop := {
  st_sequence : 1 ≤ tb_sequence t ≤ I64_MAX_Z + 1;
  st_ids : ∀ id h, tb_identifiers t !! id = Some h → 1 ≤ id < tb_sequence t;
  st_hashes : ∀ id id' h, tb_identifiers t !! id = Some h → tb_identifiers t !! id' = Some h → id = id';
  st_blocks : ∀ id b, tb_blocks t !! id = Some b → is_Some (tb_identifiers t !! id) ∧ block_checks b;
  st_references : ∀ id b r, tb_blocks t !! id = Some b → r ∈ reference_ids b → is_Some (tb_identifiers t !! r) ∧ r < id;
  st_slots : ∀ id id' b b', tb_blocks t !! id = Some b → tb_blocks t !! id' = Some b' →
    sb_level b = sb_level b' → sb_slot b = sb_slot b' → id = id';
  st_leveled : ∀ id b, tb_blocks t !! id = Some b → is_Some (tb_levels t !! sb_level b);
  st_levels : ∀ l row, tb_levels t !! l = Some row →
    1 ≤ l ≤ Z.of_N U32_MAX ∧ 1 ≤ ls_size row ≤ 65535 ∧ current_score l t = Ok (ls_daa_score row) ∧
    ∀ s, 0 ≤ s < ls_size row ↔ ∃ id b, tb_blocks t !! id = Some b ∧ sb_level b = l ∧ sb_slot b = s;
  st_contiguous : ∀ l, is_Some (tb_levels t !! l) → 1 < l → is_Some (tb_levels t !! (l - 1));
  st_parents : ∀ child parent r, tb_parents t !! (child, parent) = Some r →
    parent < child ∧ is_Some (tb_identifiers t !! parent) ∧
    ∃ b, tb_blocks t !! child = Some b ∧ r = relation_of t b parent ∧ pr_parent_level r < sb_level b;
  st_derived : ∀ id b, tb_blocks t !! id = Some b → sb_level b = 1 ∨
    ∃ parent r, tb_parents t !! (id, parent) = Some r ∧ pr_parent_level r = sb_level b - 1;
  st_selected : ∀ id b h, tb_blocks t !! id = Some b → tb_identifiers t !! id = Some h →
    (h ≠ genesis ∧ is_Some (tb_parents t !! (id, sb_selected_parent_id b))) ∨
    (h = genesis ∧ tb_blocks t !! sb_selected_parent_id b = None ∧ ∀ parent, tb_parents t !! (id, parent) = None)
}.

Lemma empty_tables_inv genesis : store_inv genesis empty_tables.
Proof.
  split; simpl; try (intros; simplify_map_eq); try (by rewrite lookup_empty in *); try done.
  all: unfold I64_MAX_Z; try lia.
  all: match goal with H : is_Some _ |- _ => rewrite lookup_empty in H; by destruct H end.
Qed.

(** ** Identities *)

Definition lookup_id t h : option Z :=
  fst <$> head (filter (λ kv, kv.2 = h) (map_to_list (tb_identifiers t))).

Lemma lookup_id_spec genesis t h id : store_inv genesis t → lookup_id t h = Some id ↔ tb_identifiers t !! id = Some h.
Proof.
  intros Hi. unfold lookup_id. split.
  - destruct (filter _ _) as [|[k x] rest] eqn:E; simpl; [done|]. intros [= ->].
    assert ((id, x) ∈ filter (λ kv : Z * BlockHash, kv.2 = h) (map_to_list (tb_identifiers t))) as Hin by (rewrite E; left).
    apply list_elem_of_filter in Hin as [Hx Hin]. apply elem_of_map_to_list in Hin. simpl in Hx. by rewrite <- Hx.
  - intros E. assert ((id, h) ∈ filter (λ kv : Z * BlockHash, kv.2 = h) (map_to_list (tb_identifiers t))) as Hin
      by (apply list_elem_of_filter; split; [done|by apply elem_of_map_to_list]).
    destruct (filter _ _) as [|[k x] rest] eqn:Ef; [by apply elem_of_nil in Hin|]. simpl. f_equal.
    assert ((k, x) ∈ filter (λ kv : Z * BlockHash, kv.2 = h) (map_to_list (tb_identifiers t))) as Hin2 by (rewrite Ef; left).
    apply list_elem_of_filter in Hin2 as [Hx Hin2]. apply elem_of_map_to_list in Hin2. simpl in Hx. subst x.
    by apply (st_hashes genesis t Hi k id h).
Qed.

Lemma lookup_id_None genesis t h : store_inv genesis t → lookup_id t h = None ↔ ∀ id, tb_identifiers t !! id ≠ Some h.
Proof.
  intros Hi. split.
  - intros E id Hid. apply (lookup_id_spec genesis) in Hid; [|done]. congruence.
  - intros Hn. destruct (lookup_id t h) as [id|] eqn:E; [|done]. by apply (lookup_id_spec genesis), Hn in E.
Qed.

Definition stored_coordinate b : BlockCoordinate := MkBlockCoordinate (Z.to_N (sb_level b)) (Z.to_N (sb_slot b)).
Definition cached_block b : CachedMaterializedBlock :=
  MkCachedMaterializedBlock (stored_coordinate b) (MkCompactId (sb_selected_parent_id b)).

(** What a hash resolves to. *)
Definition identity_of t h : option StoredIdentity :=
  (λ id, MkStoredIdentity (MkCompactId id) (cached_block <$> tb_blocks t !! id)) <$> lookup_id t h.

Lemma u32_try_from_ok x : 0 ≤ x ≤ Z.of_N U32_MAX → u32_try_from x = Some (Z.to_N x).
Proof. intros H. unfold u32_try_from. by rewrite decide_True. Qed.
Lemma u16_try_from_ok x : 0 ≤ x ≤ Z.of_N U16_MAX → u16_try_from x = Some (Z.to_N x).
Proof. intros H. unfold u16_try_from. by rewrite decide_True. Qed.

Lemma CompactId_new_pos id : 0 < id → CompactId_new id = Some (MkCompactId id).
Proof. intros. unfold CompactId_new. by rewrite decide_True. Qed.

Lemma coordinate_new b : block_checks b →
  BlockCoordinate_new (Z.to_N (sb_level b)) (Z.to_N (sb_slot b)) = Some (stored_coordinate b).
Proof.
  intros (_ & [Hl Hs] & _). unfold BlockCoordinate_new. rewrite decide_True; [done|]. lia.
Qed.

Lemma decode_stored_coordinate b : block_checks b →
  decode_coordinate (Some (sb_level b)) (Some (sb_slot b)) = Ok (Some (stored_coordinate b)).
Proof.
  intros Hb. pose proof Hb as (_ & [Hl Hs] & _). unfold decode_coordinate.
  rewrite u32_try_from_ok by lia. rewrite u16_try_from_ok by (unfold MAX_LEVEL_SLOT, MAX_LEVEL_SIZE in Hs; lia).
  by rewrite coordinate_new.
Qed.

Lemma decode_identity_row genesis t id h : store_inv genesis t → tb_identifiers t !! id = Some h →
  decode_identity (identity_row t id h) = Ok (MkStoredIdentity (MkCompactId id) (cached_block <$> tb_blocks t !! id)).
Proof.
  intros Hi Hid. unfold decode_identity, identity_row. cbn [ir_id ir_level ir_slot ir_selected_parent_id].
  pose proof (st_ids _ _ Hi id h Hid). rewrite CompactId_new_pos by lia.
  destruct (tb_blocks t !! id) as [b|] eqn:Eb; cbn [fmap option_fmap option_map]; [|done].
  destruct (st_blocks _ _ Hi id b Eb) as [_ Hb]. rewrite decode_stored_coordinate by done. unfold decode_materialized_block.
  destruct (st_references _ _ Hi id b (sb_selected_parent_id b) Eb) as [[h' Hs] _]; [left|].
  pose proof (st_ids _ _ Hi _ _ Hs). by rewrite CompactId_new_pos by lia.
Qed.

(** * Caches *)

Record caches_ok t c : Prop := {
  co_identities : ∀ h i, ch_identities c !! h = Some i →
    tb_identifiers t !! compact_id (ci_id i) = Some h ∧
    (ci_materialized i = true ↔ is_Some (tb_blocks t !! compact_id (ci_id i)));
  co_blocks : ∀ i m, ch_materialized_blocks c !! i = Some m → cached_block <$> tb_blocks t !! compact_id i = Some m;
  co_merge_sets : ∀ i s, ch_merge_sets c !! i = Some s → ∃ b, tb_blocks t !! compact_id i = Some b ∧
    sb_blue_merge_set b = compact_id <$> cs_blue s ∧ sb_red_merge_set b = compact_id <$> cs_red s
}.

Lemma caches_ok_new t : caches_ok t ProcessingCacheDomains_new.
Proof. split; simpl; intros; by rewrite lookup_empty in *. Qed.

(** What the caches know of a hash. *)
Definition cached_identity_of c h : option StoredIdentity :=
  i ← ch_identities c !! h;
  if ci_materialized i then (λ block, MkStoredIdentity (ci_id i) (Some block)) <$> ch_materialized_blocks c !! ci_id i
  else Some (MkStoredIdentity (ci_id i) None).

Lemma cached_identity_sound genesis t c h s :
  store_inv genesis t → caches_ok t c → cached_identity_of c h = Some s → identity_of t h = Some s.
Proof.
  intros Hi Hc. unfold cached_identity_of. intros (i & E & H)%bind_Some. destruct (co_identities _ _ Hc h i E) as [Hid Hm].
  unfold identity_of. rewrite (proj2 (lookup_id_spec genesis t h _ Hi) Hid). simpl. destruct (ci_materialized i).
  - destruct (ch_materialized_blocks c !! ci_id i) as [m|] eqn:Em; [|done]. injection H as <-.
    rewrite (co_blocks _ _ Hc _ _ Em). f_equal. f_equal. by destruct (ci_id i).
  - injection H as <-. destruct (tb_blocks t !! compact_id (ci_id i)) eqn:Eb.
    { by destruct Hm as [_ Hm]; specialize (Hm ltac:(by eexists)). } f_equal. f_equal. by destruct (ci_id i).
Qed.

Lemma seed_identities_spec c hashes :
  let '(m, misses) := seed_identities_from_cache c hashes in
  (∀ h, m !! h = if decide (h ∈ hashes) then cached_identity_of c h else None) ∧
  misses = filter (λ h, cached_identity_of c h = None) hashes.
Proof.
  induction hashes as [|h hashes IH]; simpl; [split; [intros h'; by rewrite lookup_empty|done]|].
  destruct (seed_identities_from_cache c hashes) as [m misses]. destruct IH as [I1 I2].
  assert (∀ s, cached_identity_of c h = Some s →
    (∀ h0, <[h:=s]> m !! h0 = if decide (h0 ∈ h :: hashes) then cached_identity_of c h0 else None) ∧
    misses = filter (λ h, cached_identity_of c h = None) (h :: hashes)) as Hhit.
  { intros s Es. split.
    - intros h0. destruct (decide (h = h0)) as [->|Hne]; [rewrite lookup_insert_eq, decide_True by left; done|].
      rewrite lookup_insert_ne, I1 by done. apply decide_ext. rewrite elem_of_cons. naive_solver.
    - rewrite filter_cons_False by congruence. done. }
  assert (cached_identity_of c h = None →
    (∀ h0, m !! h0 = if decide (h0 ∈ h :: hashes) then cached_identity_of c h0 else None) ∧
    h :: misses = filter (λ h, cached_identity_of c h = None) (h :: hashes)) as Hmiss.
  { intros En. split; [|rewrite filter_cons_True by done; by rewrite I2].
    intros h0. rewrite I1. destruct (decide (h0 = h)) as [->|Hne]; [rewrite (decide_True (P:=h ∈ h :: hashes)) by left; by case_decide|].
    apply decide_ext. rewrite elem_of_cons. naive_solver. }
  unfold cached_identity_of in Hhit, Hmiss at 1 2. unfold cached_identity_of in Hmiss at 1.
  destruct (ch_identities c !! h) as [i|] eqn:E; simpl in *; [|by apply Hmiss].
  destruct (ci_materialized i); [|by apply Hhit].
  destruct (ch_materialized_blocks c !! ci_id i) as [m0|] eqn:Em; simpl in *; [by apply Hhit|by apply Hmiss].
Qed.
End store_invariant.

Section store_reads.
Context {KH : KaspaHash}.
Implicit Types (t : Tables) (c : Caches) (h : BlockHash) (id : Z) (b : StoredBlock).

Lemma identity_of_Some genesis t h s : store_inv genesis t →
  identity_of t h = Some s ↔ ∃ id, tb_identifiers t !! id = Some h ∧ s = MkStoredIdentity (MkCompactId id) (cached_block <$> tb_blocks t !! id).
Proof.
  intros Hi. unfold identity_of. rewrite fmap_Some. split.
  - intros (id & E & ->). exists id. by rewrite <- (lookup_id_spec genesis).
  - intros (id & E & ->). exists id. by rewrite (lookup_id_spec genesis).
Qed.

Lemma identity_of_None t h : identity_of t h = None ↔ lookup_id t h = None.
Proof. unfold identity_of. by rewrite fmap_None. Qed.

(** ** Rows *)

Lemma elem_of_select_identities t hashes row :
  row ∈ select_identities hashes t ↔
  ∃ id h, row = identity_row t id h ∧ tb_identifiers t !! id = Some h ∧ h ∈ hashes.
Proof.
  unfold select_identities. rewrite list_elem_of_fmap. split.
  - intros ([id h] & -> & [Hh Hin]%list_elem_of_filter). apply elem_of_map_to_list in Hin. by exists id, h.
  - intros (id & h & -> & Hid & Hh). exists (id, h). split; [done|]. apply list_elem_of_filter. split; [done|by apply elem_of_map_to_list].
Qed.

Lemma decode_identities_spec genesis t rows m :
  store_inv genesis t → (∀ row, row ∈ rows → ∃ id h, row = identity_row t id h ∧ tb_identifiers t !! id = Some h) →
  ∃ m', decode_identities rows m = Ok m' ∧
    ∀ h, m' !! h = if decide (h ∈ ir_hash <$> rows) then identity_of t h else m !! h.
Proof.
  intros Hi. revert m. induction rows as [|row rows IH]; intros m Hrows; simpl; [by exists m|].
  destruct (Hrows row) as (id & h & -> & Hid); [left|]. rewrite (decode_identity_row genesis) by done.
  destruct (IH (<[h := MkStoredIdentity (MkCompactId id) (cached_block <$> tb_blocks t !! id)]> m)) as (m' & E & Hm').
  { intros row Hin. apply Hrows. by right. }
  exists m'. split; [done|]. intros h'. rewrite Hm'. cbn [ir_hash identity_row].
  destruct (decide (h' ∈ ir_hash <$> rows)) as [Hin|Hin]; [by rewrite decide_True by by right|].
  destruct (decide (h' = h)) as [->|Hne].
  - rewrite lookup_insert_eq, decide_True by left. symmetry. apply (identity_of_Some genesis); [done|]. by exists id.
  - rewrite lookup_insert_ne, decide_False by (rewrite ?elem_of_cons; naive_solver). done.
Qed.

(** ** Loading identities *)

Definition cache_misses c (hashes : list BlockHash) : list BlockHash := filter (λ h, cached_identity_of c h = None) hashes.

Lemma wp_load_identities genesis {Sem R} injected (E : SqlOutcome Sem R → Tables → bool → Prop) c hashes
    (Q : gmap BlockHash StoredIdentity * list BlockHash → Tables → bool → Prop) t restarted :
  store_inv genesis t → caches_ok t c →
  (∀ e, injected e → E (SqlFailed (AttemptDatabase BeforeCommit e)) t restarted) →
  (∀ m, (∀ h, h ∈ hashes → m !! h = identity_of t h) → Q (m, cache_misses c hashes) t restarted) →
  wp injected (load_identities c hashes) Q E t restarted.
Proof.
  intros Hi Hc HE HQ. unfold load_identities. pose proof (seed_identities_spec c hashes) as Hs.
  destruct (seed_identities_from_cache c hashes) as [m misses]. destruct Hs as [Hm Hmiss]. fold (cache_misses c hashes) in Hmiss.
  destruct misses as [|h0 rest].
  - apply wp_ret. rewrite Hmiss. apply HQ. intros h Hin. rewrite Hm, decide_True by done.
    destruct (cached_identity_of c h) as [s|] eqn:Es; [by rewrite (cached_identity_sound genesis t c h s)|].
    assert (h ∈ cache_misses c hashes) as Hx by (by apply list_elem_of_filter). rewrite <- Hmiss in Hx. by apply elem_of_nil in Hx.
  - apply wp_bind, wp_query; [done|]. apply wp_bind.
    destruct (decode_identities_spec genesis t (select_identities (h0 :: rest) t) m) as (m' & Em & Hm'); [done| |].
    { intros row (id & h & -> & Hid & _)%elem_of_select_identities. by exists id, h. }
    apply wp_decode; rewrite Em; [done|]. intros m1 [= <-]. apply wp_ret. rewrite Hmiss. apply HQ. intros h Hin. rewrite Hm'.
    assert (h ∈ ir_hash <$> select_identities (h0 :: rest) t ↔ h ∈ h0 :: rest ∧ is_Some (identity_of t h)) as Hrow.
    { rewrite list_elem_of_fmap. split.
      - intros (row & -> & (id & h' & -> & Hid & Hin')%elem_of_select_identities). split; [done|].
        eexists. apply (identity_of_Some genesis); [done|]. by exists id.
      - intros [Hin' [s (id & Hid & ->)%(identity_of_Some genesis)]]; [|done]. exists (identity_row t id h). split; [done|].
        apply elem_of_select_identities. by exists id, h. }
    case_decide as Hd; [done|]. rewrite Hm, decide_True by done.
    destruct (cached_identity_of c h) as [s|] eqn:Es; [by rewrite (cached_identity_sound genesis t c h s)|].
    destruct (identity_of t h) eqn:Ei; [|done]. exfalso. apply Hd, Hrow. split; [|by eexists]. rewrite Hmiss.
    by apply list_elem_of_filter.
Qed.

(** What is left to intern. *)
Lemma filter_missing genesis t c hashes (m : gmap BlockHash StoredIdentity) :
  store_inv genesis t → caches_ok t c → (∀ h, h ∈ hashes → m !! h = identity_of t h) →
  filter (λ h, m !! h = None) (cache_misses c hashes) = filter (λ h, identity_of t h = None) hashes.
Proof.
  intros Hi Hc Hm. unfold cache_misses. induction hashes as [|h hashes IH]; [done|].
  assert (∀ h', h' ∈ hashes → m !! h' = identity_of t h') as Hm' by (intros; apply Hm; by right).
  assert (m !! h = identity_of t h) as Eh by (apply Hm; left). rewrite !filter_cons. case_decide as H1.
  - rewrite filter_cons, IH by done. rewrite Eh. done.
  - rewrite IH by done. rewrite decide_False; [done|]. intros E. destruct (cached_identity_of c h) as [s|] eqn:Es; [|done].
    by rewrite (cached_identity_sound genesis t c h s) in E.
Qed.

(** ** Publication *)

Lemma publish_identity_ok t c h s : tb_identifiers t !! compact_id (ci_id s) = Some h →
  (ci_materialized s = true ↔ is_Some (tb_blocks t !! compact_id (ci_id s))) → caches_ok t c → caches_ok t (publish_identity h s c).
Proof.
  intros Hid Hm [H1 H2 H3]. split; simpl; [|done..]. intros h' i. destruct (decide (h = h')) as [->|Hne].
  - rewrite lookup_insert_eq. by intros [= <-].
  - rewrite lookup_insert_ne by done. apply H1.
Qed.

Lemma publish_block_ok t c i m : cached_block <$> tb_blocks t !! compact_id i = Some m → caches_ok t c →
  caches_ok t (publish_materialized_block i m c).
Proof.
  intros Hm [H1 H2 H3]. split; simpl; [done| |done]. intros i' m'. destruct (decide (i = i')) as [->|Hne].
  - rewrite lookup_insert_eq. by intros [= <-].
  - rewrite lookup_insert_ne by done. apply H2.
Qed.

Lemma publish_merge_sets_ok t c i s b : tb_blocks t !! compact_id i = Some b →
  sb_blue_merge_set b = compact_id <$> cs_blue s → sb_red_merge_set b = compact_id <$> cs_red s →
  caches_ok t c → caches_ok t (publish_merge_sets i s c).
Proof.
  intros Hb Eb Er [H1 H2 H3]. split; simpl; [done..|]. intros i' s'. destruct (decide (i = i')) as [->|Hne].
  - rewrite lookup_insert_eq. intros [= <-]. by exists b.
  - rewrite lookup_insert_ne by done. apply H3.
Qed.

Lemma publish_sink_ok t c s : caches_ok t c → caches_ok t (publish_vspc_sink s c).
Proof. intros [H1 H2 H3]. by split. Qed.

Lemma publish_stored_identity_ok genesis t c h s :
  store_inv genesis t → identity_of t h = Some s → caches_ok t c → caches_ok t (publish_stored_identity h s c).
Proof.
  intros Hi (id & Hid & ->)%(identity_of_Some genesis) Hc; [|done]. unfold publish_stored_identity. simpl.
  assert (caches_ok t (publish_identity h (si_identity (MkStoredIdentity (MkCompactId id) (cached_block <$> tb_blocks t !! id))) c)) as Hc1.
  { apply publish_identity_ok; [done| |done]. simpl. rewrite bool_decide_eq_true. by rewrite fmap_is_Some. }
  destruct (tb_blocks t !! id) as [b|] eqn:Eb; simpl; [|done]. apply publish_block_ok; [by simpl; rewrite Eb|done].
Qed.

Lemma caches_ok_evict t c ki kb ks sink : caches_ok t c →
  caches_ok t (MkCaches (filter (λ kv, ki kv.1 = true) (ch_identities c)) (filter (λ kv, kb kv.1 = true) (ch_materialized_blocks c))
                 (filter (λ kv, ks kv.1 = true) (ch_merge_sets c)) sink).
Proof.
  intros [H1 H2 H3]. split; simpl; intros ? ? [E _]%map_lookup_filter_Some; eauto.
Qed.

(** ** Presence *)

Definition presence_at t h : BlockPresence := match identity_of t h with None => Absent | Some s => presence_of s end.

Lemma block_presence_spec genesis fate t c h :
  store_inv genesis t → caches_ok t c →
  let '(c', r) := identity_block_presence fate h t c in
  caches_ok t c' ∧ ch_vspc_sink c' = ch_vspc_sink c ∧
  (r = Ok (presence_at t h) ∨ ∃ e, fate = Some e ∧ r = Err (storage_database e)).
Proof.
  intros Hi Hc. unfold identity_block_presence. destruct (cached_presence c h) as [p|] eqn:Ep.
  { split_and!; [done|done|]. left. f_equal. unfold presence_at. assert (cached_identity_of c h ≠ None ∧ ∀ s, cached_identity_of c h = Some s → presence_of s = p) as [H1 H2].
    { unfold cached_presence in Ep. unfold cached_identity_of. destruct (ch_identities c !! h) as [i|]; simpl in *; [|done].
      destruct (ci_materialized i); simpl in *.
      - destruct (ch_materialized_blocks c !! ci_id i); simpl in *; [|done]. injection Ep as <-. split; [done|]. by intros s [= <-].
      - injection Ep as <-. split; [done|]. by intros s [= <-]. }
    destruct (cached_identity_of c h) as [s|] eqn:Es; [|done]. rewrite (cached_identity_sound genesis t c h s) by done.
    symmetry. by apply H2. }
  destruct fate as [e|]; [split_and!; [done|done|right; eauto]|].
  destruct (select_identities [h] t) as [|row rows] eqn:Es.
  - split_and!; [done|done|]. left. f_equal. unfold presence_at. destruct (identity_of t h) as [s|] eqn:E; [|done].
    apply (identity_of_Some genesis) in E as (id & Hid & _); [|done].
    assert (identity_row t id h ∈ select_identities [h] t) as Hin by (apply elem_of_select_identities; exists id, h; split_and!; [done|done|left]).
    rewrite Es in Hin. by apply elem_of_nil in Hin.
  - assert (row ∈ select_identities [h] t) as Hin by (rewrite Es; left).
    apply elem_of_select_identities in Hin as (id & h' & -> & Hid & ->%list_elem_of_singleton).
    rewrite (decode_identity_row genesis) by done.
    assert (identity_of t h = Some (MkStoredIdentity (MkCompactId id) (cached_block <$> tb_blocks t !! id))) as Ei
      by (apply (identity_of_Some genesis); [done|by exists id]).
    split_and!; [by apply (publish_stored_identity_ok genesis)| |].
    + unfold publish_stored_identity. simpl. by destruct (tb_blocks t !! id).
    + left. unfold presence_at. by rewrite Ei.
Qed.

(** ** Batch resolution *)

Definition usable_identity c h : option CachedIdentity :=
  identity ← ch_identities c !! h; if usable c identity then Some identity else None.

Lemma lookup_omap_pairs {K A} `{Countable K} (f : K → option A) (l : list K) (h : K) :
  (list_to_map (omap (λ k, (λ a, (k, a)) <$> f k) l) : gmap K A) !! h = if decide (h ∈ l) then f h else None.
Proof.
  unfold omap. induction l as [|h0 l IH]; simpl; [by rewrite lookup_empty|].
  destruct (f h0) as [a|] eqn:E; simpl.
  - destruct (decide (h0 = h)) as [->|Hne]; [rewrite lookup_insert_eq, decide_True by left; done|].
    rewrite lookup_insert_ne, IH by done. apply decide_ext. rewrite elem_of_cons. naive_solver.
  - rewrite IH. destruct (decide (h = h0)) as [->|Hne]; [rewrite (decide_True (P:=h0 ∈ h0 :: l)) by left; rewrite E; by case_decide|].
    apply decide_ext. rewrite elem_of_cons. naive_solver.
Qed.

Lemma cached_resolutions_spec c distinct h :
  cached_resolutions c distinct !! h = if decide (h ∈ distinct) then usable_identity c h else None.
Proof.
  rewrite <- lookup_omap_pairs. unfold cached_resolutions. f_equal. f_equal. apply list_omap_ext, Forall_Forall2_diag, Forall_forall.
  intros y _. unfold usable_identity. destruct (ch_identities c !! y) as [id|]; [|done]. simpl. by destruct (usable c id).
Qed.

Lemma publish_rows_spec genesis t rows resolved c :
  store_inv genesis t → caches_ok t c → (∀ row, row ∈ rows → ∃ id h, row = identity_row t id h ∧ tb_identifiers t !! id = Some h) →
  ∃ c' m, publish_rows rows resolved c = (c', Ok m) ∧ caches_ok t c' ∧ ch_vspc_sink c' = ch_vspc_sink c ∧
    ∀ h, m !! h = if decide (h ∈ ir_hash <$> rows) then si_identity <$> identity_of t h else resolved !! h.
Proof.
  intros Hi. revert resolved c. induction rows as [|row rows IH]; intros resolved c Hc Hrows; simpl; [by exists c, resolved|].
  destruct (Hrows row) as (id & h & -> & Hid); [left|]. rewrite (decode_identity_row genesis) by done. cbn [ir_hash identity_row].
  assert (identity_of t h = Some (MkStoredIdentity (MkCompactId id) (cached_block <$> tb_blocks t !! id))) as Ei
    by (apply (identity_of_Some genesis); [done|by exists id]).
  edestruct (IH (<[h:=si_identity (MkStoredIdentity (MkCompactId id) (cached_block <$> tb_blocks t !! id))]> resolved)
    (publish_stored_identity h (MkStoredIdentity (MkCompactId id) (cached_block <$> tb_blocks t !! id)) c)) as (c' & m & E & Hc' & Hs & Hm).
  { by apply (publish_stored_identity_ok genesis). } { intros row Hin. apply Hrows. by right. }
  exists c', m. split_and!; [done|done| |].
  { rewrite Hs. unfold publish_stored_identity. simpl. by destruct (tb_blocks t !! id). }
  intros h'. rewrite Hm. destruct (decide (h' ∈ ir_hash <$> rows)) as [Hin|Hin]; [by rewrite decide_True by by right|].
  destruct (decide (h' = h)) as [->|Hne].
  - rewrite lookup_insert_eq, decide_True by left. by rewrite Ei.
  - rewrite lookup_insert_ne, decide_False by (rewrite ?elem_of_cons; naive_solver). done.
Qed.

Lemma elem_of_firsts {A} `{EqDecision A} (seen l : list A) x :
  x ∈ first_occurrences seen l ↔ x ∈ l ∧ x ∉ seen.
Proof.
  revert seen. induction l as [|y l IH]; intros seen; simpl; [split; [by intros ?%elem_of_nil|by intros [?%elem_of_nil _]]|].
  case_decide as Hd; rewrite ?elem_of_cons, IH, ?elem_of_cons; [naive_solver|]. destruct (decide (x = y)) as [->|]; naive_solver.
Qed.

Lemma NoDup_firsts {A} `{EqDecision A} (seen l : list A) : NoDup (first_occurrences seen l).
Proof.
  revert seen. induction l as [|y l IH]; intros seen; simpl; [constructor|]. case_decide as Hd; [done|]. constructor; [|done].
  rewrite elem_of_firsts, elem_of_cons. naive_solver.
Qed.

Lemma filter_ext_in {A} (P Q : A → Prop) `{∀ x, Decision (P x), ∀ x, Decision (Q x)} (l : list A) :
  (∀ x, x ∈ l → P x ↔ Q x) → filter P l = filter Q l.
Proof.
  induction l as [|x l IH]; intros HPQ; [done|]. rewrite !filter_cons, IH by (intros; apply HPQ; by right).
  apply decide_ext, HPQ. left.
Qed.

(** The resolution the tables determine. *)
Definition resolution_at t (hashes : list BlockHash) : MaterializedIdResolution :=
  let distinct := first_occurrences [] hashes in
  let missing := filter (λ h, identity_of t h = None) distinct in
  let identity_only := filter (λ h, (si_block <$> identity_of t h) = Some None) distinct in
  if decide (missing ≠ [] ∨ identity_only ≠ []) then Resolution_NonMaterialized missing identity_only
  else Resolved (omap (λ h, si_id <$> identity_of t h) hashes).

Lemma classify_resolution_spec t hashes (resolved : gmap BlockHash CachedIdentity) :
  (∀ h, h ∈ hashes → resolved !! h = si_identity <$> identity_of t h) →
  classify_resolution hashes (first_occurrences [] hashes) resolved = Some (resolution_at t hashes).
Proof.
  intros Hr. unfold classify_resolution, resolution_at.
  assert (∀ h, h ∈ first_occurrences [] hashes → resolved !! h = si_identity <$> identity_of t h) as Hd.
  { intros h [Hin _]%elem_of_firsts. by apply Hr. }
  assert (filter (λ h, resolved !! h = None) (first_occurrences [] hashes) =
          filter (λ h, identity_of t h = None) (first_occurrences [] hashes)) as ->.
  { apply filter_ext_in. intros h Hin. rewrite Hd by done. by rewrite fmap_None. }
  assert (filter (λ h, (ci_materialized <$> resolved !! h) = Some false) (first_occurrences [] hashes) =
          filter (λ h, (si_block <$> identity_of t h) = Some None) (first_occurrences [] hashes)) as ->.
  { apply filter_ext_in. intros h Hin. rewrite Hd by done. destruct (identity_of t h) as [[i [b|]]|]; simpl; naive_solver. }
  case_decide as Hc; [done|]. apply Decidable.not_or in Hc as [Hc1 _]. apply dec_stable in Hc1.
  assert (∀ h, h ∈ hashes → identity_of t h ≠ None) as Hn.
  { intros h Hin E. assert (h ∈ filter (λ h, identity_of t h = None) (first_occurrences [] hashes)) as Hx.
    { apply list_elem_of_filter. split; [done|]. apply elem_of_firsts. split; [done|by intros ?%elem_of_nil]. }
    rewrite Hc1 in Hx. by apply elem_of_nil in Hx. }
  assert (∀ h, h ∈ hashes → ci_id <$> resolved !! h = si_id <$> identity_of t h) as Hi.
  { intros h Hin. rewrite Hr by done. by destruct (identity_of t h). }
  assert (mapM (λ h, ci_id <$> resolved !! h) hashes = Some (omap (λ h, si_id <$> identity_of t h) hashes)) as ->; [|done].
  clear -Hi Hn. unfold omap. induction hashes as [|h hashes IH]; [done|]. simpl. rewrite Hi by left.
  destruct (identity_of t h) as [s|] eqn:E; [|by destruct (Hn h ltac:(left))]. simpl.
  rewrite IH by (intros; (apply Hn || apply Hi); by right). done.
Qed.

Lemma resolve_spec genesis fate t c hashes :
  store_inv genesis t → caches_ok t c →
  let '(c', r) := identity_resolve_materialized_ids fate hashes t c in
  caches_ok t c' ∧ ch_vspc_sink c' = ch_vspc_sink c ∧
  (r = Some (Ok (resolution_at t hashes)) ∨ ∃ e, fate = Some e ∧ r = Some (Err (storage_database e))).
Proof.
  intros Hi Hc. unfold identity_resolve_materialized_ids.
  assert (∀ h i, usable_identity c h = Some i → si_identity <$> identity_of t h = Some i) as Hu.
  { intros h i. unfold usable_identity. intros (j & E & H)%bind_Some. destruct (usable c j) eqn:Eu; [|done]. injection H as ->.
    assert (cached_identity_of c h = Some (MkStoredIdentity (ci_id i) (if ci_materialized i then ch_materialized_blocks c !! ci_id i else None))) as Ec.
    { unfold cached_identity_of. rewrite E. simpl. unfold usable in Eu. destruct (ci_materialized i); simpl in *; [|done].
      apply bool_decide_eq_true in Eu as [m ->]. done. }
    rewrite (cached_identity_sound genesis t c h _ Hi Hc Ec). simpl. unfold si_identity. simpl. f_equal.
    unfold usable in Eu. destruct i as [i [|]]; simpl in *; [|done]. apply bool_decide_eq_true in Eu as [m ->]. done. }
  assert (resolution_misses c (first_occurrences [] hashes) = filter (λ h, usable_identity c h = None) (first_occurrences [] hashes)) as Em by done.
  destruct (resolution_misses c (first_occurrences [] hashes)) as [|h0 rest] eqn:E.
  - split_and!; [done|done|]. left. rewrite (classify_resolution_spec t); [done|]. intros h Hin.
    rewrite cached_resolutions_spec, decide_True by (apply elem_of_firsts; split; [done|by intros ?%elem_of_nil]).
    destruct (usable_identity c h) as [i|] eqn:Eu; [by rewrite (Hu _ _ Eu)|].
    assert (h ∈ filter (λ h, usable_identity c h = None) (first_occurrences [] hashes)) as Hx.
    { apply list_elem_of_filter. split; [done|]. apply elem_of_firsts. split; [done|by intros ?%elem_of_nil]. }
    rewrite <- Em in Hx. by apply elem_of_nil in Hx.
  - destruct fate as [e|]; [split_and!; [done|done|right; eauto]|].
    destruct (publish_rows_spec genesis t (select_identities (h0 :: rest) t) (cached_resolutions c (first_occurrences [] hashes)) c)
      as (c' & m & Ep & Hc' & Hs & Hm); [done|done| |].
    { intros row (id & h & -> & Hid & _)%elem_of_select_identities. by exists id, h. }
    rewrite Ep. split_and!; [done|done|]. left. rewrite (classify_resolution_spec t); [done|]. intros h Hin. rewrite Hm.
    assert (h ∈ first_occurrences [] hashes) as Hd by (apply elem_of_firsts; split; [done|by intros ?%elem_of_nil]).
    case_decide as Hr; [done|]. rewrite cached_resolutions_spec, decide_True by done.
    destruct (usable_identity c h) as [i|] eqn:Eu; [by rewrite (Hu _ _ Eu)|].
    destruct (identity_of t h) as [s|] eqn:Ei; [|done]. exfalso. apply Hr. apply list_elem_of_fmap.
    apply (identity_of_Some genesis) in Ei as (id & Hid & _); [|done]. exists (identity_row t id h). split; [done|].
    apply elem_of_select_identities. exists id, h. split_and!; [done|done|]. rewrite Em. by apply list_elem_of_filter.
Qed.
End store_reads.
