(* ===== verification/StoreInsert.v ===== *)
(** How the tables grow: interning identities, and inserting a block with its
    parents at a newly allocated coordinate, keep the invariant. *)

From S2P Require Import Prelude Model Faults Sql Store Resolver Materialization VspcStore.
From S2P Require Import StoreInvariant.

#[local] Open Scope Z_scope.

Section store_insert.
Context {KH : KaspaHash}.
Implicit Types (t : Tables) (h : BlockHash) (id : Z) (b : StoredBlock).

(** * The score of a level *)

Definition current_at (l : Z) b : Prop := sb_level b = l ∧ sb_is_in_vspc b = true.

Lemma current_score_spec l t x :
  current_score l t = Ok x ↔
  (x = NO_VSPC_DAA_SCORE ∧ ∀ id b, tb_blocks t !! id = Some b → ¬ current_at l b) ∨
  (∃ id b, tb_blocks t !! id = Some b ∧ current_at l b ∧ x = sb_daa_score b ∧
     ∀ id' b', tb_blocks t !! id' = Some b' → current_at l b' → id' = id).
Proof.
  unfold current_score.
  match goal with |- context [match ?L with _ => _ end] => set (L0 := L) end.
  assert (∀ id b, (id, b) ∈ L0 ↔ tb_blocks t !! id = Some b ∧ current_at l b) as HL.
  { intros id b. unfold L0. rewrite list_elem_of_filter, elem_of_map_to_list. unfold current_at. simpl. tauto. }
  assert (NoDup L0.*1) as Hnd.
  { apply (sublist_NoDup _ (map_to_list (tb_blocks t)).*1); [apply NoDup_fst_map_to_list|apply fmap_sublist, sublist_filter]. }
  destruct L0 as [|[id b] [|[id2 b2] rest]].
  - split.
    + intros [= <-]. left. split; [done|]. intros id b Hb Hc. by apply (elem_of_nil (A:=Z * StoredBlock) (id, b)), HL.
    + intros [[-> _]|(id & b & Hb & Hc & _)]; [done|]. exfalso. by apply (elem_of_nil (A:=Z * StoredBlock) (id, b)), HL.
  - destruct (HL id b) as [HL1 _]. destruct HL1 as [Hb Hc]; [left|]. split.
    + intros [= <-]. right. exists id, b. split_and!; [done..|]. intros id' b' Hb' Hc'.
      assert ((id', b') ∈ [(id, b)]) as Hin by by apply HL. apply list_elem_of_singleton in Hin. congruence.
    + intros [[_ Hn]|(id' & b' & Hb' & Hc' & -> & Hu)]; [by destruct (Hn id b)|]. rewrite (Hu id b) in Hb by done. congruence.
  - destruct (HL id b) as [HL1 _]. destruct HL1 as [Hb Hc]; [left|].
    destruct (HL id2 b2) as [HL2 _]. destruct HL2 as [Hb2 Hc2]; [right; left|].
    split; [done|]. intros [[_ Hn]|(id' & b' & Hb' & Hc' & -> & Hu)]; [by destruct (Hn id b)|]. exfalso.
    simpl in Hnd. apply NoDup_cons in Hnd as [Hnd _]. apply Hnd. rewrite (Hu id b), (Hu id2 b2) by done. left.
Qed.

(** * Sequences *)

(** A rolled-back transaction may have drawn from the sequence. *)
Lemma keep_sequence_inv genesis now before :
  store_inv genesis before → tb_sequence before ≤ tb_sequence now ≤ I64_MAX_Z + 1 → store_inv genesis (keep_sequence now before).
Proof.
  intros Hi Hs. destruct Hi as [I1 I2 I3 I4 I5 I6 I7 I8 I9 I10 I11 I12]. split; simpl; try done; [lia|].
  intros id h Hid. specialize (I2 id h Hid). lia.
Qed.

Lemma keep_sequence_caches now before c : caches_ok before c → caches_ok (keep_sequence now before) c.
Proof. intros [H1 H2 H3]. by split. Qed.

(** * Interning *)

(** The identifiers of [hashes], drawn from [next] on. *)
Fixpoint numbered (next : Z) (hashes : list BlockHash) : list (BlockHash * Z) :=
  match hashes with [] => [] | h :: hashes => (h, next) :: numbered (next + 1) hashes end.

Lemma numbered_fst next hashes : (numbered next hashes).*1 = hashes.
Proof. revert next. induction hashes as [|h hashes IH]; intros next; simpl; [done|]. by rewrite IH. Qed.

Lemma numbered_length next hashes : length (numbered next hashes) = length hashes.
Proof. by rewrite <- (length_fmap fst), numbered_fst. Qed.

Lemma elem_of_numbered next hashes h id :
  (h, id) ∈ numbered next hashes → next ≤ id < next + Z.of_nat (length hashes) ∧ h ∈ hashes.
Proof.
  revert next. induction hashes as [|h0 hashes IH]; intros next; simpl; [by intros ?%elem_of_nil|].
  intros [[= -> ->]|Hin]%elem_of_cons; [split; [lia|left]|]. apply IH in Hin as [? ?]. split; [lia|by right].
Qed.

Lemma numbered_inj next hashes h h' id : NoDup hashes → (h, id) ∈ numbered next hashes → (h', id) ∈ numbered next hashes → h = h'.
Proof.
  revert next. induction hashes as [|h0 hashes IH]; intros next Hnd; simpl; [by intros ?%elem_of_nil|].
  apply NoDup_cons in Hnd as [_ Hnd]. intros [E|Hin]%elem_of_cons [E'|Hin']%elem_of_cons; simplify_eq; try done.
  - apply elem_of_numbered in Hin'. lia.
  - apply elem_of_numbered in Hin. lia.
  - by eapply IH.
Qed.

Lemma numbered_fun next hashes h id id' : NoDup hashes → (h, id) ∈ numbered next hashes → (h, id') ∈ numbered next hashes → id = id'.
Proof.
  revert next. induction hashes as [|h0 hashes IH]; intros next Hnd; simpl; [by intros ?%elem_of_nil|].
  apply NoDup_cons in Hnd as [Hn Hnd]. intros [E|Hin]%elem_of_cons [E'|Hin']%elem_of_cons; simplify_eq; try done.
  - by apply elem_of_numbered in Hin' as [_ ?].
  - by apply elem_of_numbered in Hin as [_ ?].
  - by eapply IH.
Qed.

Lemma numbered_total next hashes h : h ∈ hashes → ∃ id, (h, id) ∈ numbered next hashes.
Proof.
  revert next. induction hashes as [|h0 hashes IH]; intros next; simpl; [by intros ?%elem_of_nil|].
  intros [->|Hin]%elem_of_cons; [exists next; left|]. destruct (IH (next + 1) Hin) as [id ?]. exists id. by right.
Qed.

(** The tables with [hashes] interned. *)
Record interned (hashes : list BlockHash) t t' : Prop := {
  in_ids : ∀ id h, tb_identifiers t' !! id = Some h ↔ tb_identifiers t !! id = Some h ∨ (h, id) ∈ numbered (tb_sequence t) hashes;
  in_sequence : tb_sequence t' = tb_sequence t + Z.of_nat (length hashes);
  in_blocks : tb_blocks t' = tb_blocks t;
  in_levels : tb_levels t' = tb_levels t;
  in_parents : tb_parents t' = tb_parents t;
  in_metadata : tb_metadata t' = tb_metadata t
}.

Lemma insert_identifiers_spec genesis hashes t :
  store_inv genesis t → NoDup hashes → (∀ h, h ∈ hashes → lookup_id t h = None) →
  let '(t', r) := insert_identifiers hashes t in
  tb_sequence t ≤ tb_sequence t' ≤ I64_MAX_Z + 1 ∧
  match r with
  | Ok rows => rows = numbered (tb_sequence t) hashes ∧ interned hashes t t' ∧ store_inv genesis t'
  | Err e => e = sequence_exhausted ∧ I64_MAX_Z < tb_sequence t + Z.of_nat (length hashes)
  end.
Proof.
  revert t. induction hashes as [|h hashes IH]; intros t Hi Hnd Hnew; simpl.
  { pose proof (st_sequence _ _ Hi). split; [lia|]. split_and!; [done| |done]. split; try done; [|simpl; lia].
    intros id h. simpl. split; [by left|]. by intros [?|?%elem_of_nil]. }
  pose proof (st_sequence _ _ Hi) as Hseq. apply NoDup_cons in Hnd as [Hh Hnd]. unfold nextval.
  case_decide as Hd; [|split; [simpl; lia|]; split; [done|lia]]. simpl.
  assert (tb_identifiers t !! tb_sequence t = None) as Efresh.
  { destruct (tb_identifiers t !! tb_sequence t) eqn:E; [|done]. pose proof (st_ids _ _ Hi _ _ E). lia. }
  assert (∀ id, tb_identifiers t !! id ≠ Some h) as Hh0 by (apply (lookup_id_None genesis t h Hi), Hnew; left).
  rewrite decide_False.
  2: { rewrite Efresh. intros [[? ?]|Hin]; [done|]. apply list_elem_of_fmap in Hin as ([id h'] & -> & Hin). apply elem_of_map_to_list in Hin.
       by apply Hh0 in Hin. }
  set (t1 := set_identifiers (<[tb_sequence t:=h]> (tb_identifiers t)) (tb_sequence t + 1) t).
  assert (store_inv genesis t1) as Hi1.
  { destruct Hi as [I1 I2 I3 I4 I5 I6 I7 I8 I9 I10 I11 I12].
    assert (∀ id, is_Some (tb_identifiers t !! id) → is_Some (<[tb_sequence t:=h]> (tb_identifiers t) !! id)) as Hmono.
    { intros id. rewrite lookup_insert_is_Some'. by right. }
    split; simpl; try done; [lia| | | | | |].
    - intros id h'. rewrite lookup_insert_Some. intros [[<- <-]|[_ E]]; [lia|]. specialize (I2 _ _ E). lia.
    - intros id id' h'. rewrite !lookup_insert_Some. intros [[<- <-]|[? E]] [[<- ?]|[? E']]; [done|by apply Hh0 in E'|subst; by apply Hh0 in E|by eapply I3].
    - intros id b Hb. destruct (I4 id b Hb). split; [by apply Hmono|done].
    - intros id b r Hb Hr. destruct (I5 id b r Hb Hr). split; [by apply Hmono|done].
    - intros child parent r Hr. destruct (I10 _ _ _ Hr) as (H1 & H2 & H3). split_and!; [done|by apply Hmono|done].
    - intros id b h' Hb. rewrite lookup_insert_Some. intros [[<- <-]|[_ E]]; [|by apply I12].
      destruct (I4 _ _ Hb) as [[? Hx] _]. congruence. }
  assert (∀ h', h' ∈ hashes → lookup_id t1 h' = None) as Hnew1.
  { intros h' Hin. apply (lookup_id_None genesis t1 h' Hi1). intros id. simpl. rewrite lookup_insert_Some. intros [[_ <-]|[_ E]]; [done|].
    by apply (lookup_id_None genesis t h' Hi) in E; [|apply Hnew; right]. }
  specialize (IH t1 Hi1 Hnd Hnew1). replace (set_identifiers _ _ _) with t1 by done.
  destruct (insert_identifiers hashes t1) as [t2 [rows|e]]; simpl in *; destruct IH as [Hs2 IH].
  - destruct IH as (-> & [J1 J2 J3 J4 J5 J6] & Hi2). split; [lia|]. split_and!; [done| |done].
    split; simpl in *; [|rewrite J2; simpl; lia|done..].
    intros id h'. rewrite J1. rewrite lookup_insert_Some, elem_of_cons. split.
    + intros [[[<- <-]|[_ E]]|Hin]; [right; by left|by left|right; by right].
    + intros [E|[[= -> ->]|Hin]]; [|by left; left|by right]. left. right. split; [|done]. intros <-. congruence.
  - split; [lia|]. destruct IH as [-> ?]. split; [done|]. simpl in *. lia.
Qed.

Lemma interned_known genesis hashes t t' h s :
  store_inv genesis t → store_inv genesis t' → interned hashes t t' → identity_of t h = Some s → identity_of t' h = Some s.
Proof.
  intros Hi Hi' [J1 J2 J3 J4 J5 J6] (id & Hid & ->)%(identity_of_Some genesis); [|done]. apply (identity_of_Some genesis); [done|].
  exists id. rewrite J3. split; [|done]. apply J1. by left.
Qed.

Lemma interned_new genesis hashes t t' h id :
  store_inv genesis t → store_inv genesis t' → interned hashes t t' → (h, id) ∈ numbered (tb_sequence t) hashes →
  identity_of t' h = Some (MkStoredIdentity (MkCompactId id) None).
Proof.
  intros Hi Hi' [J1 J2 J3 J4 J5 J6] Hin. apply (identity_of_Some genesis); [done|]. exists id. split; [apply J1; by right|].
  rewrite J3. destruct (tb_blocks t !! id) as [b|] eqn:Eb; [|done]. destruct (st_blocks _ _ Hi _ _ Eb) as [[h' Hid] _].
  pose proof (st_ids _ _ Hi _ _ Hid). apply elem_of_numbered in Hin. lia.
Qed.

(** * Inserting a block *)

(** The tables with the block [own] at its coordinate, and its parents' rows. *)
Definition insert_block_at (own : Z) b (row : LevelState) (parents : list Z) t : Tables :=
  MkTables (tb_identifiers t) (tb_sequence t) (<[own := b]> (tb_blocks t)) (<[sb_level b := row]> (tb_levels t))
    (foldl (λ m p, <[(own, p) := relation_of t b p]> m) (tb_parents t) parents) (tb_metadata t).

Lemma lookup_insert_parents (own : Z) t b (parents : list Z) (m : gmap (Z * Z) ParentRelation) (child parent : Z) :
  foldl (λ m p, <[(own, p) := relation_of t b p]> m) m parents !! (child, parent) =
  if decide (child = own ∧ parent ∈ parents) then Some (relation_of t b parent) else m !! (child, parent).
Proof.
  revert m. induction parents as [|p parents IH]; intros m; simpl; [rewrite decide_False; [done|by intros [_ ?%elem_of_nil]]|].
  rewrite IH. destruct (decide (child = own ∧ parent ∈ parents)) as [[-> Hin]|Hn]; [by rewrite decide_True by (split; [done|by right])|].
  destruct (decide (child = own ∧ parent = p)) as [[-> ->]|Hne].
  - rewrite lookup_insert_eq, decide_True by (split; [done|left]). done.
  - rewrite lookup_insert_ne by naive_solver. rewrite decide_False; [done|]. rewrite elem_of_cons. naive_solver.
Qed.

(** Where the new block goes: an allocated slot of the derived level. *)
Record placement genesis t (own : Z) b (row : LevelState) (parents : list Z) (h : BlockHash) : Prop := {
  pl_own : tb_identifiers t !! own = Some h;
  pl_new : tb_blocks t !! own = None;
  pl_last : ∀ id, is_Some (tb_identifiers t !! id) → id = own ∨ id < own;
  pl_checks : block_checks b;
  pl_references : ∀ r, r ∈ reference_ids b → is_Some (tb_identifiers t !! r) ∧ r ≠ own;
  pl_parents : ∀ p, p ∈ parents → is_Some (tb_identifiers t !! p) ∧ p ≠ own ∧ pr_parent_level (relation_of t b p) < sb_level b;
  pl_derived : sb_level b = 1 ∨ ∃ p, p ∈ parents ∧ pr_parent_level (relation_of t b p) = sb_level b - 1;
  pl_selected : (h ≠ genesis ∧ sb_selected_parent_id b ∈ parents) ∨
                (h = genesis ∧ parents = [] ∧ tb_blocks t !! sb_selected_parent_id b = None);
  pl_slot : match tb_levels t !! sb_level b with
            | None => sb_slot b = 0 ∧ ls_size row = 1
            | Some old => sb_slot b = ls_size old ∧ ls_size row = ls_size old + 1 ∧ ls_size old < 65535
            end;
  pl_score : match tb_levels t !! sb_level b with
             | None => ls_daa_score row = if sb_is_in_vspc b then sb_daa_score b else NO_VSPC_DAA_SCORE
             | Some old => sb_is_in_vspc b = false ∧ ls_daa_score row = ls_daa_score old
             end
}.

Lemma relation_of_coordinates t b p : pr_child_level (relation_of t b p) = sb_level b ∧ pr_child_slot (relation_of t b p) = sb_slot b.
Proof. unfold relation_of. by destruct (tb_blocks t !! p). Qed.

Lemma relation_of_insert own b0 row ps t b p : p ≠ own → relation_of (insert_block_at own b0 row ps t) b p = relation_of t b p.
Proof. intros Hne. unfold relation_of. simpl. by rewrite lookup_insert_ne. Qed.

Section insertion.
Context {genesis : BlockHash} {t : Tables} {own : Z} {b : StoredBlock} {row : LevelState} {parents : list Z} {h : BlockHash}.
Hypothesis Hi : store_inv genesis t.
Hypothesis Hp : placement genesis t own b row parents h.

Lemma insertion_level_free s : (∃ id b', tb_blocks t !! id = Some b' ∧ sb_level b' = sb_level b ∧ sb_slot b' = s) ↔
  match tb_levels t !! sb_level b with None => False | Some old => 0 ≤ s < ls_size old end.
Proof.
  destruct (tb_levels t !! sb_level b) as [old|] eqn:El.
  - symmetry. by apply (st_levels _ _ Hi _ _ El).
  - split; [|done]. intros (id & b' & Hb & Hl & _). destruct (st_leveled _ _ Hi _ _ Hb) as [x Hx]. congruence.
Qed.

Lemma insertion_slots id id' b1 b2 :
  tb_blocks (insert_block_at own b row parents t) !! id = Some b1 → tb_blocks (insert_block_at own b row parents t) !! id' = Some b2 →
  sb_level b1 = sb_level b2 → sb_slot b1 = sb_slot b2 → id = id'.
Proof.
  assert (∀ id b', tb_blocks t !! id = Some b' → sb_level b' = sb_level b → sb_slot b' = sb_slot b → False) as Hx.
  { intros id0 b' Hb Hl Hs. assert (∃ id b', tb_blocks t !! id = Some b' ∧ sb_level b' = sb_level b ∧ sb_slot b' = sb_slot b) as He by eauto.
    apply insertion_level_free in He. pose proof (pl_slot _ _ _ _ _ _ _ Hp) as Hsl. destruct (tb_levels t !! sb_level b); [|done]. lia. }
  simpl. rewrite !lookup_insert_Some. intros [[<- <-]|[_ E]] [[<- <-]|[_ E']] Hl Hs; [done|..].
  - by destruct (Hx _ _ E').
  - by destruct (Hx _ _ E).
  - by apply (st_slots _ _ Hi _ _ _ _ E E').
Qed.

Lemma insertion_levels l r :
  tb_levels (insert_block_at own b row parents t) !! l = Some r →
  1 ≤ l ≤ Z.of_N U32_MAX ∧ 1 ≤ ls_size r ≤ 65535 ∧ current_score l (insert_block_at own b row parents t) = Ok (ls_daa_score r) ∧
  ∀ s, 0 ≤ s < ls_size r ↔
    ∃ id b', tb_blocks (insert_block_at own b row parents t) !! id = Some b' ∧ sb_level b' = l ∧ sb_slot b' = s.
Proof.
  pose proof (pl_slot _ _ _ _ _ _ _ Hp) as Hsl. pose proof (pl_score _ _ _ _ _ _ _ Hp) as Hsc.
  pose proof (pl_checks _ _ _ _ _ _ _ Hp) as (_ & [Hlr Hsr] & _).
  cbn [tb_levels tb_blocks insert_block_at]. rewrite lookup_insert_Some. intros [[<- <-]|[Hne El]].
  - split; [exact Hlr|]. assert (1 ≤ ls_size row ≤ 65535) as Hsz.
    { destruct (tb_levels t !! sb_level b) as [old|] eqn:El; [|lia]. destruct (st_levels _ _ Hi _ _ El) as (_ & ? & _). lia. }
    split; [done|]. split.
    + apply current_score_spec. simpl. destruct (tb_levels t !! sb_level b) as [old|] eqn:El.
      * destruct Hsc as [Hv ->]. destruct (st_levels _ _ Hi _ _ El) as (_ & _ & Hcs & _). apply current_score_spec in Hcs.
        destruct Hcs as [[-> Hn]|(id & b' & Hb & Hc & -> & Hu)]; [left; split; [done|]|right; exists id, b'].
        -- intros id b'. rewrite lookup_insert_Some. intros [[<- <-]|[_ E]] Hc; [|by eapply Hn].
           destruct Hc as [_ Hc]. congruence.
        -- split_and!; [by rewrite lookup_insert_ne by (intros <-; rewrite (pl_new _ _ _ _ _ _ _ Hp) in Hb; done)|done|done|].
           intros id' b2. rewrite lookup_insert_Some. intros [[<- <-]|[_ E]] Hc2; [destruct Hc2 as [_ Hc2]; congruence|by eapply Hu].
      * assert (∀ id b', tb_blocks t !! id = Some b' → sb_level b' ≠ sb_level b) as Hno.
        { intros id b' Hb Hl. destruct (st_leveled _ _ Hi _ _ Hb) as [x Hx]. congruence. }
        rewrite Hsc. destruct (sb_is_in_vspc b) eqn:Ev.
        -- right. exists own, b. split_and!; [by rewrite lookup_insert_eq|done|done|].
           intros id' b2. rewrite lookup_insert_Some. intros [[<- <-]|[_ E]] Hc2; [done|]. destruct Hc2 as [Hc2 _]. by apply Hno in E.
        -- left. split; [done|]. intros id b'. rewrite lookup_insert_Some. intros [[<- <-]|[_ E]] [Hc Hv]; [congruence|by apply Hno in E].
    + intros s. trans ((∃ id b', tb_blocks t !! id = Some b' ∧ sb_level b' = sb_level b ∧ sb_slot b' = s) ∨ s = sb_slot b).
      * rewrite insertion_level_free. destruct (tb_levels t !! sb_level b) as [old|] eqn:El; [|lia].
        destruct (st_levels _ _ Hi _ _ El) as (_ & ? & _). lia.
      * split.
        -- intros [(id & b' & Hb & Hl & Hs)|E]; [|subst s; exists own, b; by rewrite lookup_insert_eq].
           exists id, b'. split_and!; [|done|done]. rewrite lookup_insert_ne; [done|]. intros <-.
           rewrite (pl_new _ _ _ _ _ _ _ Hp) in Hb. done.
        -- intros (id & b' & Hb & Hl & Hs). rewrite lookup_insert_Some in Hb. destruct Hb as [[<- <-]|[_ Hb]]; [by right|left; eauto].
  - destruct (st_levels _ _ Hi _ _ El) as (H1 & H2 & H3 & H4). split_and!; [exact (proj1 H1)|exact (proj2 H1)|lia|lia| |].
    + apply current_score_spec. apply current_score_spec in H3. simpl.
      destruct H3 as [[-> Hn]|(id & b' & Hb & Hc & -> & Hu)]; [left; split; [done|]|right; exists id, b'].
      * intros id b'. rewrite lookup_insert_Some. intros [[<- <-]|[_ E]] Hc; [by destruct Hc|by eapply Hn].
      * split_and!; [by rewrite lookup_insert_ne by (intros <-; rewrite (pl_new _ _ _ _ _ _ _ Hp) in Hb; done)|done|done|].
        intros id' b2. rewrite lookup_insert_Some. intros [[<- <-]|[_ E]] Hc2; [by destruct Hc2|by eapply Hu].
    + intros s. rewrite H4. split; intros (id & b' & Hb & Hl & Hs); exists id, b'; (split_and!; [|done|done]).
      * rewrite lookup_insert_ne; [done|]. intros <-. rewrite (pl_new _ _ _ _ _ _ _ Hp) in Hb. done.
      * rewrite lookup_insert_Some in Hb. destruct Hb as [[<- <-]|[_ Hb]]; [by destruct Hne|done].
Qed.

Lemma insertion_contiguous l :
  is_Some (tb_levels (insert_block_at own b row parents t) !! l) → 1 < l →
  is_Some (tb_levels (insert_block_at own b row parents t) !! (l - 1)).
Proof.
  simpl. rewrite !lookup_insert_is_Some'. intros [<-|Hl] H1; [right|right; by apply (st_contiguous _ _ Hi)].
  destruct (pl_derived _ _ _ _ _ _ _ Hp) as [E|(p & Hin & E)]; [lia|]. unfold relation_of in E.
  destruct (tb_blocks t !! p) as [pb|] eqn:Epb; simpl in E; [|lia]. rewrite <- E. by apply (st_leveled _ _ Hi p).
Qed.

Lemma insertion_inv : store_inv genesis (insert_block_at own b row parents t).
Proof.
  pose proof (pl_new _ _ _ _ _ _ _ Hp) as Hnew. pose proof (pl_own _ _ _ _ _ _ _ Hp) as Hown.
  pose proof Hi as [I1 I2 I3 I4 I5 I6 I7 I8 I9 I10 I11 I12].
  split; [done|done|done| | |apply insertion_slots| |apply insertion_levels|apply insertion_contiguous|..]; simpl.
  - intros id b'. rewrite lookup_insert_Some. intros [[<- <-]|[_ E]]; [|by apply I4]. split; [by eexists|apply (pl_checks _ _ _ _ _ _ _ Hp)].
  - intros id b' r. rewrite lookup_insert_Some. intros [[<- <-]|[_ E]]; [|by apply I5]. intros Hr.
    destruct (pl_references _ _ _ _ _ _ _ Hp r Hr) as [Hs Hne]. split; [done|]. by destruct (pl_last _ _ _ _ _ _ _ Hp r Hs).
  - intros id b'. rewrite lookup_insert_Some, lookup_insert_is_Some'. intros [[<- <-]|[_ E]]; [by left|right; by apply (I7 id)].
  - intros child parent r. rewrite lookup_insert_parents. case_decide as Hd.
    + intros [= <-]. destruct Hd as [-> Hin]. destruct (pl_parents _ _ _ _ _ _ _ Hp _ Hin) as (Hs & Hne & Hl).
      split_and!; [by destruct (pl_last _ _ _ _ _ _ _ Hp _ Hs)|done|]. exists b. rewrite lookup_insert_eq.
      split_and!; [done|by rewrite relation_of_insert|done].
    + intros Hr. destruct (I10 _ _ _ Hr) as (H1 & H2 & b' & Hb & -> & Hl). split_and!; [done|done|]. exists b'.
      assert (child ≠ own) as Hc by (intros ->; congruence).
      assert (parent ≠ own) as Hpo. { intros ->. destruct (I4 _ _ Hb) as [Hs _]. destruct (pl_last _ _ _ _ _ _ _ Hp _ Hs); [done|lia]. }
      rewrite lookup_insert_ne by done. split_and!; [done|by rewrite relation_of_insert|done].
  - intros id b'. rewrite lookup_insert_Some. intros [[<- <-]|[Hne E]].
    + destruct (pl_derived _ _ _ _ _ _ _ Hp) as [?|(p & Hin & E)]; [by left|]. right. exists p, (relation_of t b p).
      by rewrite lookup_insert_parents, decide_True.
    + destruct (I11 _ _ E) as [?|(p & r & Hr & Hl)]; [by left|]. right. exists p, r.
      by rewrite lookup_insert_parents, decide_False by naive_solver.
  - intros id b' h'. rewrite lookup_insert_Some. intros [[<- <-]|[Hne E]] Hid.
    + assert (h' = h) as -> by congruence. destruct (pl_selected _ _ _ _ _ _ _ Hp) as [[Hg Hin]|(Hg & -> & Hsp)].
      * left. split; [done|]. rewrite lookup_insert_parents, decide_True by done. by eexists.
      * right. split; [done|]. split.
        -- rewrite lookup_insert_ne; [done|]. intros E. destruct (pl_references _ _ _ _ _ _ _ Hp (sb_selected_parent_id b)) as [_ ?]; [left|done].
        -- intros parent. simpl. destruct (tb_parents t !! (own, parent)) as [r|] eqn:Er; [|done].
           destruct (I10 _ _ _ Er) as (_ & _ & b2 & Hb2 & _). congruence.
    + destruct (I12 _ _ _ E Hid) as [[Hg [r Hr]]|(Hg & Hsp & Hn)].
      * left. split; [done|]. rewrite lookup_insert_parents, decide_False by naive_solver. by eexists.
      * right. split; [done|]. split.
        -- rewrite lookup_insert_ne; [done|]. intros Es.
           destruct (I5 id b' (sb_selected_parent_id b') E) as [Hs Hlt]; [left|]. destruct (I4 _ _ E) as [Hsi _].
           destruct (pl_last _ _ _ _ _ _ _ Hp _ Hsi); lia.
        -- intros parent. rewrite lookup_insert_parents, decide_False by naive_solver. done.
Qed.
End insertion.
End store_insert.
