(* ===== verification/StoreMaterialize.v ===== *)
(** The materialization transaction on a well-formed store: what an attempt
    decides, commits and publishes, as the tables determine it. *)

From S2P Require Import Prelude Model Faults Sql Store Resolver Materialization VspcStore.
From S2P Require Import StoreInvariant StoreInsert.

#[local] Open Scope Z_scope.

Section store_materialize.
Context {KH : KaspaHash}.
Implicit Types (t : Tables) (c : Caches) (h : BlockHash) (id : Z) (b : StoredBlock).

(** * Level snapshots *)

Definition snapshot_of (l : N) (row : LevelState) : LevelCommitted :=
  MkLevelCommitted l (Z.to_N (ls_size row))
    (if decide (ls_daa_score row = NO_VSPC_DAA_SCORE) then None else Some (Z.to_N (ls_daa_score row))).
Definition snapshot_at t (l : N) : option LevelCommitted := snapshot_of l <$> tb_levels t !! Z.of_N l.

Lemma level_score_range genesis t l row : store_inv genesis t → tb_levels t !! l = Some row →
  0 ≤ ls_daa_score row ≤ NO_VSPC_DAA_SCORE.
Proof.
  intros Hi E. destruct (st_levels _ _ Hi _ _ E) as (_ & _ & Hc & _). apply current_score_spec in Hc.
  unfold NO_VSPC_DAA_SCORE, I64_MAX_Z in *. destruct Hc as [[-> _]|(id & b & Hb & _ & -> & _)]; [lia|].
  destruct (st_blocks _ _ Hi _ _ Hb) as [_ [Hd _]]. unfold I64_MAX_Z in Hd. lia.
Qed.

Lemma decode_level_committed_spec genesis t (positive : bool) l row : store_inv genesis t → tb_levels t !! Z.of_N l = Some row →
  decode_level_committed positive (Z.of_N l, row) = Ok (snapshot_of l row).
Proof.
  intros Hi E. destruct (st_levels _ _ Hi _ _ E) as (Hl & Hs & _). pose proof (level_score_range _ _ _ _ Hi E) as Hd.
  unfold decode_level_committed. cbn [fst snd]. rewrite u32_try_from_ok by lia.
  rewrite u16_try_from_ok by (split; [lia|]; transitivity 65535; [apply Hs|done]). rewrite N2Z.id.
  assert (decode_daa (ls_daa_score row) = Some (if decide (ls_daa_score row = NO_VSPC_DAA_SCORE) then None else Some (Z.to_N (ls_daa_score row)))) as ->.
  { unfold decode_daa. case_decide as H1; [done|]. unfold u64_try_from. by rewrite decide_True by lia. }
  rewrite (bool_decide_eq_false_2 (l = 0%N)) by lia. rewrite (bool_decide_eq_false_2 (Z.to_N (ls_size row) = 0%N)) by lia.
  by destruct positive.
Qed.

Lemma select_levels_spec genesis t positive levels : store_inv genesis t → (∀ l, l ∈ levels → is_Some (tb_levels t !! Z.of_N l)) →
  length (select_levels levels t) = length levels ∧ decode_levels positive (select_levels levels t) = Ok (omap (snapshot_at t) levels).
Proof.
  intros Hi. unfold select_levels, omap. induction levels as [|l levels IH]; intros Hl; [done|].
  destruct (Hl l) as [row Hrow]; [left|]. destruct IH as [I1 I2]; [intros; apply Hl; by right|].
  simpl. unfold snapshot_at at 1. rewrite Hrow. simpl. rewrite I1. split; [done|].
  rewrite (decode_level_committed_spec genesis t) by done. by rewrite I2.
Qed.

Lemma elem_of_btree_levels levels l : l ∈ btree_levels levels ↔ l ∈ levels.
Proof. unfold btree_levels. by rewrite merge_sort_Permutation, elem_of_remove_dups. Qed.

(** * Interning what is missing *)

Lemma wp_decode_interned {Sem R} injected (E : SqlOutcome Sem R → Tables → bool → Prop) next hashes t restarted
    (Q : gmap BlockHash CompactId → Tables → bool → Prop) :
  1 ≤ next → NoDup hashes →
  (∀ m : gmap BlockHash CompactId, (∀ h i, m !! h = Some i ↔ (h, compact_id i) ∈ numbered next hashes) → Q m t restarted) →
  wp injected (decode_interned (numbered next hashes)) Q E t restarted.
Proof.
  revert next Q. induction hashes as [|h hashes IH]; intros next Q Hn Hnd HQ.
  - apply wp_ret, HQ. intros h i. rewrite lookup_empty. simpl. split; [done|by intros ?%elem_of_nil].
  - apply NoDup_cons in Hnd as [Hh Hnd]. simpl. unfold decode_interned. simpl. apply wp_bind. apply IH; [lia|done|]. intros m Hm.
    apply wp_bind. rewrite CompactId_new_pos by lia. apply wp_decode; [done|]. intros i [= <-]. apply wp_ret, HQ.
    intros h' i. cbn [numbered]. rewrite lookup_insert_Some, elem_of_cons, Hm. split.
    + intros [[-> <-]|[Hne Hin]]; [by left|by right].
    + intros [[= -> E']|Hin]; [left; split; [done|]; destruct i; simpl in *; congruence|].
      right. split; [|done]. intros ->. by apply elem_of_numbered in Hin as [_ ?].
Qed.

(** What a rollback of a transaction begun in [t] leaves. *)
Definition rolled_from t t' : Prop :=
  ∃ s, tb_sequence t ≤ s ≤ I64_MAX_Z + 1 ∧ t' = set_identifiers (tb_identifiers t) s t.

Lemma rolled_from_refl genesis t : store_inv genesis t → rolled_from t t.
Proof. intros Hi. exists (tb_sequence t). pose proof (st_sequence _ _ Hi). split; [lia|]. by destruct t. Qed.

Lemma rolled_from_keep t0 t now : rolled_from t0 t → tb_sequence t ≤ tb_sequence now ≤ I64_MAX_Z + 1 → rolled_from t0 (keep_sequence now t).
Proof. intros (s & Hs & ->) Hn. exists (tb_sequence now). simpl in *. split; [lia|done]. Qed.

Lemma rolled_from_inv genesis t t' : store_inv genesis t → rolled_from t t' → store_inv genesis t'.
Proof. intros Hi (s & Hs & ->). by apply (keep_sequence_inv genesis (MkTables ∅ s ∅ ∅ ∅ None)). Qed.

Lemma rolled_from_caches t t' c : rolled_from t t' → caches_ok t c → caches_ok t' c.
Proof. intros (s & _ & ->) Hc. by apply (keep_sequence_caches (MkTables ∅ s ∅ ∅ ∅ None)). Qed.

Lemma rolled_from_identity t t' h : rolled_from t t' → identity_of t' h = identity_of t h.
Proof. by intros (s & _ & ->). Qed.

(** The errors a statement may fail with: those of the environment, and the
    end of the identity sequence when [n] more identifiers do not fit. *)
Definition sequence_short (n : nat) t : Prop := I64_MAX_Z < tb_sequence t + Z.of_nat n.
Definition statement_error (injected : SqlxError → Prop) (short : Prop) (e : SqlxError) : Prop :=
  injected e ∨ (e = sequence_exhausted ∧ short).

Lemma wp_intern_identities genesis {Sem R} injected (E : SqlOutcome Sem R → Tables → bool → Prop) hashes t restarted
    (Q : gmap BlockHash CompactId → Tables → bool → Prop) :
  store_inv genesis t → NoDup hashes → (∀ h, h ∈ hashes → identity_of t h = None) →
  (∀ e t', statement_error injected (sequence_short (length hashes) t) e → tb_sequence t ≤ tb_sequence t' ≤ I64_MAX_Z + 1 →
     E (SqlFailed (AttemptDatabase BeforeCommit e)) t' restarted) →
  (∀ m t', interned hashes t t' → store_inv genesis t' →
     (∀ h i, m !! h = Some i ↔ (h, compact_id i) ∈ numbered (tb_sequence t) hashes) → Q m t' restarted) →
  wp injected (intern_identities hashes) Q E t restarted.
Proof.
  intros Hi Hnd Hnew HE HQ. unfold intern_identities. pose proof (st_sequence _ _ Hi) as Hseq. destruct hashes as [|h0 rest].
  - apply wp_ret, HQ; [|done|intros h i; rewrite lookup_empty; simpl; split; [done|by intros ?%elem_of_nil]].
    split; try done; [|simpl; lia]. intros id h. simpl. split; [by left|]. by intros [?|?%elem_of_nil].
  - set (hashes := h0 :: rest) in *. apply wp_bind.
    assert (∀ h, h ∈ hashes → lookup_id t h = None) as Hl by (intros; by apply identity_of_None, Hnew).
    pose proof (insert_identifiers_spec genesis hashes t Hi Hnd Hl) as Hs. apply wp_stmt.
    + intros e He. apply HE; [by left|lia].
    + intros t' e Er. rewrite Er in Hs. destruct Hs as [Hs [-> Hshort]]. apply HE; [by right|done].
    + intros t' rows Er. rewrite Er in Hs. destruct Hs as (_ & -> & Hin & Hi'). rewrite decide_False by (rewrite numbered_length; auto).
      apply wp_decode_interned; [lia|done|]. intros m Hm. by apply HQ.
Qed.

(** ** The universal set, after interning *)

Lemma wp_intern_missing genesis {Sem R} injected (E : SqlOutcome Sem R → Tables → bool → Prop) c hashes m t restarted
    (Q : gmap BlockHash StoredIdentity → Tables → bool → Prop) :
  store_inv genesis t → caches_ok t c → NoDup hashes → (∀ h, h ∈ hashes → m !! h = identity_of t h) →
  (∀ e t', statement_error injected (sequence_short (length hashes) t) e → tb_sequence t ≤ tb_sequence t' ≤ I64_MAX_Z + 1 →
     E (SqlFailed (AttemptDatabase BeforeCommit e)) t' restarted) →
  (∀ m' t', interned (filter (λ h, identity_of t h = None) hashes) t t' → store_inv genesis t' →
     (∀ h, h ∈ hashes → m' !! h = identity_of t' h ∧ is_Some (identity_of t' h)) → Q m' t' restarted) →
  wp injected (intern_missing_identities m (cache_misses c hashes)) Q E t restarted.
Proof.
  intros Hi Hc Hnd Hm HE HQ. unfold intern_missing_identities. rewrite (filter_missing genesis t) by done. apply wp_bind.
  apply (wp_intern_identities genesis); [done|by apply NoDup_filter|by intros h [? _]%list_elem_of_filter| |].
  { intros e t' [He|[-> Hs]]; apply HE; [by left|right; split; [done|]]. unfold sequence_short in *.
    pose proof (length_filter (λ h, identity_of t h = None) hashes). lia. }
  intros ids t' Hin Hi' Hids. apply wp_ret, HQ; [done|done|]. intros h Hh. rewrite lookup_union, lookup_fmap, Hm by done.
  destruct (identity_of t h) as [s|] eqn:Es.
  - rewrite (interned_known genesis _ t t' h s) by done. destruct (ids !! h) as [i|] eqn:Ei; [|done].
    apply Hids, elem_of_numbered in Ei as [_ [? _]%list_elem_of_filter]. congruence.
  - destruct (numbered_total (tb_sequence t) (filter (λ h, identity_of t h = None) hashes) h) as [id Hid]; [by apply list_elem_of_filter|].
    rewrite (interned_new genesis _ t t' h id) by done. split; [|done].
    assert (ids !! h = Some (MkCompactId id)) as -> by by apply Hids. done.
Qed.

(** * Inserting *)

Lemma allocate_slot_spec genesis t level : store_inv genesis t → 1 ≤ Z.of_N level ≤ Z.of_N U32_MAX →
  (allocate_slot level t = (t, Ok None) ∧ ∃ old, tb_levels t !! Z.of_N level = Some old ∧ ls_size old = 65535) ∨
  ∃ row slot, allocate_slot level t = (set_levels (<[Z.of_N level := row]> (tb_levels t)) t, Ok (Some slot)) ∧ 0 ≤ slot < 65535 ∧
    match tb_levels t !! Z.of_N level with
    | None => slot = 0 ∧ ls_size row = 1 ∧ ls_daa_score row = NO_VSPC_DAA_SCORE
    | Some old => slot = ls_size old ∧ ls_size row = ls_size old + 1 ∧ ls_size old < 65535 ∧ ls_daa_score row = ls_daa_score old
    end.
Proof.
  intros Hi Hl. unfold allocate_slot. destruct (tb_levels t !! Z.of_N level) as [old|] eqn:El.
  - destruct (st_levels _ _ Hi _ _ El) as (_ & Hs & _). case_decide as Hd.
    + right. eexists _, _. split; [done|]. simpl. split_and!; lia.
    + left. split; [done|]. exists old. split; [done|lia].
  - rewrite decide_True by done. right. eexists _, _. split; [done|]. simpl. split_and!; try done; lia.
Qed.

Lemma insert_block_row_spec genesis t (levels : gmap Z LevelState) own b row parents h : store_inv genesis t → placement genesis t own b row parents h →
  insert_block_row own b (set_levels levels t) =
  (set_blocks (<[own := b]> (tb_blocks t)) (set_levels levels t), Ok ()).
Proof.
  intros Hi Hp. unfold insert_block_row. rewrite decide_False by (intros Hn; by apply Hn, (pl_checks _ _ _ _ _ _ _ Hp)).
  cbn [tb_blocks tb_identifiers set_levels]. rewrite decide_False; [rewrite decide_False; [done|]|].
  - rewrite (pl_own _ _ _ _ _ _ _ Hp). intros [?|Hn]; [done|].
    destruct (pl_references _ _ _ _ _ _ _ Hp (sb_selected_parent_id b)) as [[? ?] _]; [left|]. congruence.
  - rewrite (pl_new _ _ _ _ _ _ _ Hp). intros [[? ?]|He]; [done|].
    apply Exists_exists in He as ([id b'] & Hin & Hl & Hs). apply elem_of_map_to_list in Hin. simpl in Hl, Hs.
    assert (∃ id b', tb_blocks t !! id = Some b' ∧ sb_level b' = sb_level b ∧ sb_slot b' = sb_slot b) as Hx by eauto.
    apply (insertion_level_free (b:=b) Hi) in Hx. pose proof (pl_slot _ _ _ _ _ _ _ Hp) as Hsl.
    destruct (tb_levels t !! sb_level b); [lia|done].
Qed.

Lemma relation_checks genesis t b p : store_inv genesis t → block_checks b → parent_checks (relation_of t b p).
Proof.
  intros Hi (_ & Hc & _). unfold parent_checks, relation_of. destruct (tb_blocks t !! p) as [pb|] eqn:Ep; simpl.
  - destruct (st_blocks _ _ Hi _ _ Ep) as [_ (_ & [Hl Hs] & _)]. unfold coordinate_in_range in *. clear -Hc Hl Hs. lia.
  - unfold coordinate_in_range in *. clear -Hc. pose proof (N2Z.is_nonneg U32_MAX). pose proof (N2Z.is_nonneg MAX_LEVEL_SLOT). lia.
Qed.

Lemma insert_parent_rows_spec own (f : Z → ParentRelation) (parents : list Z) t :
  NoDup parents → (∀ p, p ∈ parents → parent_checks (f p)) → (∀ p, p ∈ parents → tb_parents t !! (own, p) = None) →
  insert_parent_rows own ((λ p, (p, f p)) <$> parents) t =
  (set_parents (foldl (λ m p, <[(own, p) := f p]> m) (tb_parents t) parents) t, Ok ()).
Proof.
  revert t. induction parents as [|p parents IH]; intros t Hnd Hc Hn; simpl; [by destruct t|].
  apply NoDup_cons in Hnd as [Hp Hnd]. rewrite decide_False by (intros H; apply H, Hc; left).
  rewrite decide_False by (rewrite Hn by left; by intros []). rewrite IH; [done|done|intros; apply Hc; by right|].
  intros q Hq. simpl. rewrite lookup_insert_ne by congruence. apply Hn. by right.
Qed.

Lemma placement_no_parents genesis t own b row parents h p : store_inv genesis t → placement genesis t own b row parents h →
  tb_parents t !! (own, p) = None.
Proof.
  intros Hi Hp. destruct (tb_parents t !! (own, p)) as [r|] eqn:Er; [|done].
  destruct (st_parents _ _ Hi _ _ _ Er) as (_ & _ & b2 & Hb2 & _). by rewrite (pl_new _ _ _ _ _ _ _ Hp) in Hb2.
Qed.

Lemma wp_insert_block_and_parents genesis {Sem R} injected (E : SqlOutcome Sem R → Tables → bool → Prop)
    (block : BlockRow) (parent_rows : list ParentRow) (levels : gmap Z LevelState) row h t restarted (Q : () → Tables → bool → Prop) :
  let own := compact_id (row_id block) in let b := stored_block block in
  let parents := (λ p, compact_id (parent_row_id p)) <$> parent_rows in
  store_inv genesis t → placement genesis t own b row parents h → NoDup parents →
  (∀ p, p ∈ parent_rows → parent_relation block p = (compact_id (parent_row_id p), relation_of t b (compact_id (parent_row_id p)))) →
  (∀ e t', injected e → tb_sequence t' = tb_sequence t → E (SqlFailed (AttemptDatabase BeforeCommit e)) t' restarted) →
  Q () (set_levels levels (insert_block_at own b row parents t)) restarted →
  wp injected (insert_block_and_parents block parent_rows) Q E (set_levels levels t) restarted.
Proof.
  intros own b parents Hi Hp Hnd Hrel HE HQ. unfold insert_block_and_parents. apply wp_bind, wp_stmt.
  - intros e He. by apply HE.
  - intros t' e. fold own b. rewrite (insert_block_row_spec genesis t levels own b row parents h) by done. by intros [=].
  - intros t' [] . fold own b. rewrite (insert_block_row_spec genesis t levels own b row parents h) by done. intros [= <-].
    assert (parent_relation block <$> parent_rows = (λ p, (p, relation_of t b p)) <$> parents) as ->.
    { unfold parents. rewrite <- list_fmap_compose. apply list_fmap_ext. intros i p Hin. apply Hrel. by eapply list_elem_of_lookup_2. }
    apply wp_stmt.
    + intros e He. by apply HE.
    + intros t' e. rewrite insert_parent_rows_spec; [by intros [=]|done|..].
      * intros p _. apply (relation_checks genesis); [done|apply (pl_checks _ _ _ _ _ _ _ Hp)].
      * intros p _. exact (placement_no_parents genesis t own b row parents h p Hi Hp).
    + intros t' []. rewrite insert_parent_rows_spec; [|done|..].
      * intros [= <-]. apply HQ.
      * intros p _. apply (relation_checks genesis); [done|apply (pl_checks _ _ _ _ _ _ _ Hp)].
      * intros p _. exact (placement_no_parents genesis t own b row parents h p Hi Hp).
Qed.

(** * The contract of a materialization *)

(** The blocks the processor hands over. *)
Definition block_references (block : ValidatedNodeBlock) : list BlockHash :=
  reference_hashes (vnb_red_merge_set block) (vnb_blue_merge_set block) (vnb_direct_parents block).

Record acceptable (genesis : BlockHash) (block : ValidatedNodeBlock) : Prop := {
  ac_parents : NoDup (vnb_direct_parents block);
  ac_own : vnb_hash block ∉ block_references block;
  ac_selected : vnb_hash block ≠ genesis → vnb_selected_parent block ∈ vnb_direct_parents block;
  ac_genesis : vnb_hash block = genesis →
    vnb_direct_parents block = [] ∧ vnb_blue_merge_set block = [] ∧ vnb_red_merge_set block = [] ∧
    vnb_selected_parent block ≠ vnb_hash block
}.

(** What is decided before anything is written. *)
Definition admission t (block : ValidatedNodeBlock) (policy : ReferencePolicy) :
    option (Result MaterializeBlockOutcome SemanticError) :=
  match identity_of t (vnb_hash block) with
  | Some own =>
    Some match si_coordinate own with
         | Some coordinate => Ok (AlreadyMaterialized (si_id own) coordinate)
         | None => Err (Semantic_IncomingBoundaryIdentity (vnb_hash block))
         end
  | None =>
    let missing := filter (λ h, identity_of t h = None) (block_references block) in
    let identity_only := filter (λ h, (si_block <$> identity_of t h) = Some None) (block_references block) in
    if decide (policy = RequireMaterialized ∧ (missing ≠ [] ∨ identity_only ≠ []))
    then Some (Err (Semantic_NonMaterializedReferences missing identity_only)) else None
  end.

Definition coordinate_at t h : option BlockCoordinate := identity_of t h ≫= si_coordinate.
Definition parent_levels t (hashes : list BlockHash) : list N := omap (λ h, coord_level <$> coordinate_at t h) hashes.
Definition ids_at t (hashes : list BlockHash) : list Z := omap (lookup_id t) hashes.

(** The row of a committed block. *)
Definition committed_row t (block : ValidatedNodeBlock) (c : BlockCommitted) : StoredBlock :=
  MkStoredBlock (timestamp_to_sql (vnb_timestamp block)) (Z.of_N (vnb_daa_score block))
    (Z.of_N (coord_level (bc_coordinate c))) (Z.of_N (coord_slot (bc_coordinate c)))
    (default 0 (lookup_id t (vnb_selected_parent block))) 0 false
    (ids_at t (vnb_blue_merge_set block)) (ids_at t (vnb_red_merge_set block)).

(** [inserted]: the tables, and the payload, after [block] was inserted. *)
Record inserted (genesis : BlockHash) (block : ValidatedNodeBlock) t t' (c : BlockCommitted) : Prop := {
  is_inv : store_inv genesis t';
  is_sequence : tb_sequence t ≤ tb_sequence t';
  is_absent : identity_of t (vnb_hash block) = None;
  is_own : tb_identifiers t' !! compact_id (bc_id c) = Some (vnb_hash block);
  is_last : ∀ id, is_Some (tb_identifiers t !! id) → id < compact_id (bc_id c);
  is_ids : ∀ id h, tb_identifiers t !! id = Some h → tb_identifiers t' !! id = Some h;
  is_new : ∀ id h, tb_identifiers t' !! id = Some h →
    tb_identifiers t !! id = Some h ∨ h = vnb_hash block ∨ h ∈ block_references block;
  is_references : ∀ h, h ∈ block_references block → is_Some (identity_of t' h);
  is_blocks : tb_blocks t' = <[compact_id (bc_id c) := committed_row t' block c]> (tb_blocks t);
  is_level : coord_level (bc_coordinate c) = (1 + foldr N.max 0 (parent_levels t (vnb_direct_parents block)))%N;
  is_levels : let l := Z.of_N (coord_level (bc_coordinate c)) in
    let size := default 0 (ls_size <$> tb_levels t !! l) in
    Z.of_N (coord_slot (bc_coordinate c)) = size ∧
    tb_levels t' = <[l := MkLevelState (size + 1) (default NO_VSPC_DAA_SCORE (ls_daa_score <$> tb_levels t !! l))]> (tb_levels t);
  is_parents : ∀ child parent, tb_parents t' !! (child, parent) =
    if decide (child = compact_id (bc_id c) ∧ parent ∈ ids_at t' (vnb_direct_parents block))
    then Some (relation_of t' (committed_row t' block c) parent) else tb_parents t !! (child, parent);
  is_metadata : tb_metadata t' = tb_metadata t;
  is_payload : c = MkBlockCommitted (bc_id c) (vnb_hash block) (bc_coordinate c) (vnb_timestamp block) (vnb_daa_score block)
    (position_u32 (vnb_selected_parent block) (vnb_direct_parents block))
    ((λ h, MkParentCommitted h (coordinate_at t h)) <$> vnb_direct_parents block)
    (vnb_blue_merge_set block) (vnb_red_merge_set block) Gray false
    (omap (snapshot_at t') (btree_levels (coord_level (bc_coordinate c) :: parent_levels t (vnb_direct_parents block))))
}.

(** A level that cannot grow, or has no successor. *)
Definition level_full t : Prop :=
  ∃ l row, tb_levels t !! l = Some row ∧ (ls_size row = 65535 ∨ l = Z.of_N U32_MAX).

(** ** Resolved references *)

Definition resolved_in t (hashes : list BlockHash) (ss : list StoredIdentity) : Prop :=
  Forall2 (λ h s, identity_of t h = Some s) hashes ss.

Lemma resolve_all_total t (m : gmap BlockHash StoredIdentity) hashes :
  (∀ h, h ∈ hashes → m !! h = identity_of t h ∧ is_Some (identity_of t h)) →
  ∃ ss, resolve_all m hashes = Some ss ∧ resolved_in t hashes ss.
Proof.
  unfold resolve_all, resolved_in. induction hashes as [|h hashes IH]; intros Hm; [by exists []|].
  destruct (Hm h) as [E [s Es]]; [left|]. destruct IH as (ss & I1 & I2); [intros; apply Hm; by right|].
  exists (s :: ss). simpl. rewrite E, Es. simpl. rewrite I1. split; [done|]. by constructor.
Qed.

Lemma resolved_ids genesis t hashes ss : store_inv genesis t → resolved_in t hashes ss →
  compact_id ∘ si_id <$> ss = ids_at t hashes ∧
  ∀ s, s ∈ ss → ∃ h, h ∈ hashes ∧ tb_identifiers t !! compact_id (si_id s) = Some h ∧
    si_block s = cached_block <$> tb_blocks t !! compact_id (si_id s).
Proof.
  intros Hi. unfold resolved_in, ids_at, omap. induction 1 as [|h s hashes ss Es _ [I1 I2]].
  - split; [done|]. by intros s ?%elem_of_nil.
  - pose proof Es as (id & Hid & ->)%(identity_of_Some genesis); [|done]. simpl.
    rewrite (proj2 (lookup_id_spec genesis t h id Hi) Hid). split; [by f_equal|]. intros s [->|Hin]%elem_of_cons.
    + exists h. split; [left|]. by split.
    + destruct (I2 s Hin) as (h' & ? & ?). exists h'. split; [by right|done].
Qed.

Lemma resolved_in_elem t hashes ss s : resolved_in t hashes ss → s ∈ ss → ∃ h, h ∈ hashes ∧ identity_of t h = Some s.
Proof.
  unfold resolved_in. induction 1 as [|h s' hashes ss Es _ IH]; [by intros ?%elem_of_nil|].
  intros [->|Hin]%elem_of_cons; [exists h; split; [left|done]|]. destruct (IH Hin) as (h' & ? & ?). exists h'. split; [by right|done].
Qed.

Lemma resolved_NoDup genesis t hashes ss : store_inv genesis t → NoDup hashes → resolved_in t hashes ss →
  NoDup (compact_id ∘ si_id <$> ss).
Proof.
  intros Hi Hnd Hr. unfold resolved_in in Hr. induction Hr as [|h s hashes ss Es Hr IH]; [constructor|].
  apply NoDup_cons in Hnd as [Hh Hnd]. simpl. constructor; [|by apply IH]. intros Hin. apply list_elem_of_fmap in Hin as (s' & E & Hin).
  destruct (resolved_ids genesis t hashes ss Hi Hr) as [_ Hs]. destruct (Hs s' Hin) as (h' & Hh' & Hid' & _).
  apply (identity_of_Some genesis) in Es as (id & Hid & ->); [|done]. simpl in E. apply Hh.
  rewrite <- E in Hid'. simpl in Hid'. congruence.
Qed.

Lemma resolved_coordinates t hashes ss : resolved_in t hashes ss →
  zip_with (λ h s, MkParentCommitted h (si_coordinate s)) hashes ss = (λ h, MkParentCommitted h (coordinate_at t h)) <$> hashes ∧
  omap (λ s, coord_level <$> si_coordinate s) ss = parent_levels t hashes.
Proof.
  unfold resolved_in, parent_levels, coordinate_at, omap. induction 1 as [|h s hashes ss Es _ [I1 I2]]; [done|].
  simpl. rewrite Es. simpl. rewrite I1, I2. done.
Qed.

Lemma derived_level_spec parents level : derived_level parents = Some level →
  level = (1 + foldr N.max 0 (omap (λ s, coord_level <$> si_coordinate s) parents))%N.
Proof.
  unfold derived_level. set (ls := omap _ parents). destruct ls as [|l ls]; [by intros [= <-]|].
  case_decide; [|done]. intros [= <-]. simpl. rewrite N.add_comm. f_equal. clear. induction ls as [|x ls IH]; simpl; lia.
Qed.

Lemma derived_level_None t hashes ss genesis : store_inv genesis t → resolved_in t hashes ss → derived_level ss = None → level_full t.
Proof.
  intros Hi Hr. unfold derived_level. destruct (omap _ ss) as [|l ls] eqn:E; [done|]. case_decide as Hd; [done|]. intros _.
  assert (∃ s, s ∈ ss ∧ (coord_level <$> si_coordinate s) = Some (foldr N.max l ls)) as (s & Hs & El).
  { apply list_elem_of_omap. rewrite E. clear. induction ls as [|x ls IH]; simpl; [left|].
    destruct (N.max_spec x (foldr N.max l ls)) as [[_ ->]|[_ ->]]; [|right; left].
    apply elem_of_cons in IH as [->|IH]; [left|right; by right]. }
  destruct (resolved_in_elem _ _ _ _ Hr Hs) as (h & _ & (id & Hid & ->)%(identity_of_Some genesis)); [|done].
  unfold si_coordinate in El. simpl in El. destruct (tb_blocks t !! id) as [b|] eqn:Eb; simpl in El; [|done]. injection El as El.
  destruct (st_leveled _ _ Hi _ _ Eb) as [row Hrow]. exists (sb_level b), row. split; [done|]. right.
  destruct (st_levels _ _ Hi _ _ Hrow) as [Hl _]. rewrite <- El in Hd. lia.
Qed.

Lemma resolve_all_Some t (m : gmap BlockHash StoredIdentity) hashes ss :
  (∀ h, h ∈ hashes → m !! h = identity_of t h ∧ is_Some (identity_of t h)) → resolve_all m hashes = Some ss → resolved_in t hashes ss.
Proof. intros Hm E. destruct (resolve_all_total t m hashes Hm) as (ss' & E' & Hr). congruence. Qed.

Lemma numbered_app next hashes h : numbered next (hashes ++ [h]) = numbered next hashes ++ [(h, next + Z.of_nat (length hashes))].
Proof.
  revert next. induction hashes as [|x hashes IH]; intros next; simpl; [by rewrite Z.add_0_r|]. rewrite IH. by replace (next + 1 + Z.of_nat (length hashes)) with (next + Z.pos (Pos.of_succ_nat (length hashes))) by lia.
Qed.

Lemma coordinate_at_same t t1 h : (∀ s, identity_of t h = Some s → identity_of t1 h = Some s) →
  (identity_of t h = None → si_block <$> identity_of t1 h ≠ None → (si_block <$> identity_of t1 h) = Some None) →
  coordinate_at t1 h = coordinate_at t h.
Proof.
  intros H1 H2. unfold coordinate_at. destruct (identity_of t h) as [s|] eqn:E; [by rewrite (H1 s)|].
  destruct (identity_of t1 h) as [s|]; [|done]. simpl. unfold si_coordinate. specialize (H2 eq_refl). simpl in H2.
  assert (si_block s = None) as -> by (by injection (H2 ltac:(done))). done.
Qed.

Lemma elem_of_ids_at genesis t hashes id : store_inv genesis t →
  id ∈ ids_at t hashes ↔ ∃ h, h ∈ hashes ∧ tb_identifiers t !! id = Some h.
Proof.
  intros Hi. unfold ids_at. rewrite list_elem_of_omap. split; intros (h & Hh & E); exists h; (split; [done|]); by apply (lookup_id_spec genesis).
Qed.

Lemma elem_of_parent_levels t hashes l :
  l ∈ parent_levels t hashes ↔ ∃ h (x : BlockCoordinate), h ∈ hashes ∧ coordinate_at t h = Some x ∧ coord_level x = l.
Proof.
  unfold parent_levels. rewrite list_elem_of_omap. split.
  - intros (h & Hh & (c & Hc & ->)%fmap_Some). by exists h, c.
  - intros (h & c & Hh & Hc & <-). exists h. by rewrite Hc.
Qed.

(** The level a relation records is the level of the parent's coordinate. *)
Lemma relation_level genesis t b id h : store_inv genesis t → tb_identifiers t !! id = Some h →
  pr_parent_level (relation_of t b id) = default 0 (Z.of_N ∘ coord_level <$> coordinate_at t h).
Proof.
  intros Hi Hid. unfold coordinate_at, relation_of. 
  assert (identity_of t h = Some (MkStoredIdentity (MkCompactId id) (cached_block <$> tb_blocks t !! id))) as ->
    by (apply (identity_of_Some genesis); [done|by exists id]).
  simpl. unfold si_coordinate. simpl. destruct (tb_blocks t !! id) as [pb|] eqn:Eb; [|done]. simpl.
  destruct (st_blocks _ _ Hi _ _ Eb) as [_ (_ & [[Hl _] _] & _)]. lia.
Qed.

Lemma foldr_max_ge (l : list N) x : x ∈ l → (x ≤ foldr N.max 0 l)%N.
Proof. induction l as [|y l IH]; simpl; [by intros ?%elem_of_nil|]. intros [->|H]%elem_of_cons; [lia|]. specialize (IH H). lia. Qed.
Lemma foldr_max_in (l : list N) : foldr N.max 0%N l = 0%N ∨ foldr N.max 0%N l ∈ l.
Proof.
  induction l as [|y l IH]; simpl; [by left|]. right. destruct (N.max_spec y (foldr N.max 0%N l)) as [[Hlt ->]|[Hle ->]]; [|left].
  destruct IH as [E|IH]; [lia|by right].
Qed.

(** ** The insertion *)

Section insert.
Context (genesis : BlockHash) (block : ValidatedNodeBlock) (t t1 : Tables).
Hypothesis Hi : store_inv genesis t.
Hypothesis Hi1 : store_inv genesis t1.
Hypothesis Hacc : acceptable genesis block.
Hypothesis Habs : identity_of t (vnb_hash block) = None.
Hypothesis Hin : interned (filter (λ h, identity_of t h = None) (block_references block ++ [vnb_hash block])) t t1.

Lemma insert_new_list : filter (λ h, identity_of t h = None) (block_references block ++ [vnb_hash block]) =
  filter (λ h, identity_of t h = None) (block_references block) ++ [vnb_hash block].
Proof. by rewrite filter_app, filter_cons_True. Qed.

Lemma insert_known_ids id h : tb_identifiers t1 !! id = Some h →
  tb_identifiers t !! id = Some h ∨ (identity_of t h = None ∧ (h ∈ block_references block ∨ h = vnb_hash block)).
Proof.
  intros [E|Hn]%(in_ids _ _ _ Hin); [by left|]. right. apply elem_of_numbered in Hn as [_ [? Hl]%list_elem_of_filter].
  apply elem_of_app in Hl as [?| ->%list_elem_of_singleton]; auto.
Qed.

Lemma insert_coordinate h : coordinate_at t1 h = coordinate_at t h.
Proof.
  apply coordinate_at_same; [intros s Hs; exact (interned_known genesis _ t t1 h s Hi Hi1 Hin Hs)|]. intros En Hs.
  destruct (identity_of t1 h) as [s|] eqn:E1; [|done]. apply (identity_of_Some genesis) in E1 as (id & Hid & ->); [|done].
  apply (in_ids _ _ _ Hin) in Hid as [Hid|Hn].
  - exfalso. apply identity_of_None in En. by apply (lookup_id_None genesis t h Hi) in Hid.
  - pose proof (interned_new genesis _ t t1 h id Hi Hi1 Hin Hn) as E. simpl.
    assert (identity_of t1 h = Some (MkStoredIdentity (MkCompactId id) (cached_block <$> tb_blocks t1 !! id))) as E2.
    { apply (identity_of_Some genesis); [done|]. exists id. split; [|done]. apply (in_ids _ _ _ Hin). by right. }
    congruence.
Qed.

Lemma insert_parent_levels : parent_levels t1 (vnb_direct_parents block) = parent_levels t (vnb_direct_parents block).
Proof.
  unfold parent_levels. apply list_omap_ext, Forall_Forall2_diag, Forall_forall. intros h _. by rewrite insert_coordinate.
Qed.

Lemma insert_own : ∃ own, identity_of t1 (vnb_hash block) = Some (MkStoredIdentity (MkCompactId own) None) ∧
  tb_identifiers t1 !! own = Some (vnb_hash block) ∧ tb_blocks t1 !! own = None ∧
  (∀ id, is_Some (tb_identifiers t1 !! id) → id = own ∨ id < own) ∧ (∀ id, is_Some (tb_identifiers t !! id) → id < own).
Proof.
  set (new := filter (λ h, identity_of t h = None) (block_references block)).
  set (own := tb_sequence t + Z.of_nat (length new)).
  assert ((vnb_hash block, own) ∈ numbered (tb_sequence t) (new ++ [vnb_hash block])) as Hn.
  { rewrite numbered_app. apply elem_of_app. right. left. }
  pose proof Hin as Hin'. rewrite insert_new_list in Hin'. fold new in Hin'.
  assert (tb_blocks t1 !! own = None) as Hb.
  { rewrite (in_blocks _ _ _ Hin'). destruct (tb_blocks t !! own) as [b|] eqn:Eb; [|done].
    destruct (st_blocks _ _ Hi _ _ Eb) as [[h Hid] _]. pose proof (st_ids _ _ Hi _ _ Hid). unfold own in *. lia. }
  exists own. split_and!; [by apply (interned_new genesis _ t t1 _ _ Hi Hi1 Hin')|apply (in_ids _ _ _ Hin'); by right|done| |].
  - intros id [h [Hid|Hid]%(in_ids _ _ _ Hin')].
    + pose proof (st_ids _ _ Hi _ _ Hid). right. unfold own. lia.
    + rewrite numbered_app in Hid. apply elem_of_app in Hid as [Hid|Hid].
      * apply elem_of_numbered in Hid as [? _]. right. unfold own. lia.
      * apply list_elem_of_singleton in Hid as [= _ ->]. by left.
  - intros id [h Hid]. pose proof (st_ids _ _ Hi _ _ Hid). unfold own. lia.
Qed.

(** The row the insertion writes, at a slot of its level. *)
Definition inserted_row (level : N) (slot : Z) : StoredBlock :=
  MkStoredBlock (timestamp_to_sql (vnb_timestamp block)) (Z.of_N (vnb_daa_score block)) (Z.of_N level) slot
    (default 0 (lookup_id t1 (vnb_selected_parent block))) 0 false
    (ids_at t1 (vnb_blue_merge_set block)) (ids_at t1 (vnb_red_merge_set block)).

Lemma in_references h : h ∈ vnb_direct_parents block ∨ h ∈ vnb_blue_merge_set block ∨ h ∈ vnb_red_merge_set block →
  h ∈ block_references block.
Proof.
  intros H. unfold block_references, reference_hashes. apply elem_of_firsts. split; [rewrite !elem_of_app; tauto|by intros ?%elem_of_nil].
Qed.

Lemma insert_references_ne own h id : tb_identifiers t1 !! own = Some (vnb_hash block) → h ∈ block_references block →
  tb_identifiers t1 !! id = Some h → id ≠ own.
Proof. intros Ho Hh Hid ->. apply (ac_own _ _ Hacc). congruence. Qed.

Lemma insert_placement own level slot row :
  vnb_hash block ≠ genesis → (vnb_daa_score block ≤ MAX_DAA_SCORE)%N →
  tb_identifiers t1 !! own = Some (vnb_hash block) → tb_blocks t1 !! own = None →
  (∀ id, is_Some (tb_identifiers t1 !! id) → id = own ∨ id < own) →
  level = (1 + foldr N.max 0 (parent_levels t1 (vnb_direct_parents block)))%N → Z.of_N level ≤ Z.of_N U32_MAX → 0 ≤ slot < 65535 →
  is_Some (lookup_id t1 (vnb_selected_parent block)) →
  match tb_levels t1 !! Z.of_N level with
  | None => slot = 0 ∧ ls_size row = 1 ∧ ls_daa_score row = NO_VSPC_DAA_SCORE
  | Some old => slot = ls_size old ∧ ls_size row = ls_size old + 1 ∧ ls_size old < 65535 ∧ ls_daa_score row = ls_daa_score old
  end →
  placement genesis t1 own (inserted_row level slot) row (ids_at t1 (vnb_direct_parents block)) (vnb_hash block).
Proof.
  intros Hng Hdaa Hown Hnew Hlast Hlevel Hmax Hslot [sel Hsel] Hrow.
  apply (lookup_id_spec genesis) in Hsel as Hsid; [|done].
  assert (vnb_selected_parent block ∈ vnb_direct_parents block) as Hselp by by apply (ac_selected _ _ Hacc).
  split; [done|done|done| | | | | | |]; unfold inserted_row; cbn [sb_level sb_slot sb_selected_parent_id sb_is_in_vspc]; rewrite ?Hsel; cbn [default].
  - split; [|split; [split; [split; [cbn [sb_level]; lia|exact Hmax]|]|done]]; cbn [sb_daa_score sb_slot].
    + unfold MAX_DAA_SCORE in Hdaa. unfold I64_MAX_Z. unfold I64_MAX in Hdaa. lia.
    + change (Z.of_N MAX_LEVEL_SLOT) with 65534. lia.
  - intros r. unfold reference_ids. cbn [sb_selected_parent_id sb_blue_merge_set sb_red_merge_set].
    rewrite elem_of_cons, elem_of_app, !(elem_of_ids_at genesis) by done.
    intros [->|[(h & Hh & Hid)|(h & Hh & Hid)]]; (split; [by eexists|]); eapply insert_references_ne; try done; apply in_references; auto.
  - intros p (h & Hh & Hid)%(elem_of_ids_at genesis); [|done]. split; [by eexists|]. split.
    + eapply insert_references_ne; [done| |done]. apply in_references. auto.
    + rewrite (relation_level genesis t1 _ p h) by done. destruct (coordinate_at t1 h) as [c|] eqn:Ec; simpl; [|lia].
      assert (coord_level c ∈ parent_levels t1 (vnb_direct_parents block)) as Hpl by (apply elem_of_parent_levels; by exists h, c).
      apply foldr_max_ge in Hpl. lia.
  - destruct (foldr_max_in (parent_levels t1 (vnb_direct_parents block))) as [E0|Hpl]; [left; lia|right].
    pose proof Hpl as (h & c & Hh & Hc & El)%elem_of_parent_levels.
    unfold coordinate_at in Hc. destruct (identity_of t1 h) as [s|] eqn:Es; [|done].
    apply (identity_of_Some genesis) in Es as (id & Hid & ->); [|done]. exists id. split; [apply (elem_of_ids_at genesis); [done|by exists h]|].
    rewrite (relation_level genesis t1 _ id h) by done. unfold coordinate_at.
    assert (identity_of t1 h = Some (MkStoredIdentity (MkCompactId id) (cached_block <$> tb_blocks t1 !! id))) as ->
      by (apply (identity_of_Some genesis); [done|by exists id]).
    simpl in *. rewrite Hc. simpl. lia.
  - left. split; [done|]. apply (elem_of_ids_at genesis); [done|]. by exists (vnb_selected_parent block).
  - destruct (tb_levels t1 !! Z.of_N level); tauto.
  - destruct (tb_levels t1 !! Z.of_N level); tauto.
Qed.

Lemma insert_inserted own level slot row (committed : BlockCommitted) :
  placement genesis t1 own (inserted_row level slot) row (ids_at t1 (vnb_direct_parents block)) (vnb_hash block) →
  (∀ id, is_Some (tb_identifiers t !! id) → id < own) → 0 ≤ slot →
  level = (1 + foldr N.max 0 (parent_levels t1 (vnb_direct_parents block)))%N →
  match tb_levels t1 !! Z.of_N level with
  | None => slot = 0 ∧ ls_size row = 1 ∧ ls_daa_score row = NO_VSPC_DAA_SCORE
  | Some old => slot = ls_size old ∧ ls_size row = ls_size old + 1 ∧ ls_size old < 65535 ∧ ls_daa_score row = ls_daa_score old
  end →
  (∀ h, h ∈ block_references block → is_Some (identity_of t1 h)) →
  let t' := insert_block_at own (inserted_row level slot) row (ids_at t1 (vnb_direct_parents block)) t1 in
  committed = MkBlockCommitted (MkCompactId own) (vnb_hash block) (MkBlockCoordinate level (Z.to_N slot)) (vnb_timestamp block) (vnb_daa_score block)
    (position_u32 (vnb_selected_parent block) (vnb_direct_parents block))
    ((λ h, MkParentCommitted h (coordinate_at t h)) <$> vnb_direct_parents block)
    (vnb_blue_merge_set block) (vnb_red_merge_set block) Gray false
    (omap (snapshot_at t') (btree_levels (level :: parent_levels t (vnb_direct_parents block)))) →
  inserted genesis block t t' committed.
Proof.
  intros Hp Hlast Hslot Hlevel Hrow Href t' Ec.
  assert (∀ id, tb_identifiers t' !! id = tb_identifiers t1 !! id) as Eids by done.
  assert (bc_id committed = MkCompactId own ∧ bc_coordinate committed = MkBlockCoordinate level (Z.to_N slot)) as [Eid Eco] by by rewrite Ec.
  assert (committed_row t' block committed = inserted_row level slot) as Erow.
  { unfold committed_row, inserted_row. rewrite Eco. cbn [coord_level coord_slot]. by rewrite Z2N.id. }
  split; rewrite ?Erow, ?Eid, ?Eco; cbn [compact_id coord_level coord_slot].
  - by apply (insertion_inv Hi1 Hp).
  - change (tb_sequence t') with (tb_sequence t1). rewrite (in_sequence _ _ _ Hin). lia.
  - done.
  - rewrite Eids. apply (pl_own _ _ _ _ _ _ _ Hp).
  - done.
  - intros id h Hid. rewrite Eids. apply (in_ids _ _ _ Hin). by left.
  - intros id h. rewrite Eids. intros [?|[_ [?|?]]]%insert_known_ids; auto.
  - intros h Hh. destruct (Href h Hh) as [s Es]. unfold identity_of in *. change (lookup_id t' h) with (lookup_id t1 h).
    destruct (lookup_id t1 h); [by eexists|done].
  - change (tb_blocks t') with (<[own := inserted_row level slot]> (tb_blocks t1)). by rewrite (in_blocks _ _ _ Hin).
  - by rewrite <- insert_parent_levels.
  - rewrite <- (in_levels _ _ _ Hin). change (tb_levels t') with (<[Z.of_N level := row]> (tb_levels t1)). rewrite Z2N.id by done.
    destruct row as [size score]. destruct (tb_levels t1 !! Z.of_N level) as [old|]; simpl in *.
    + destruct Hrow as (-> & -> & _ & ->). done.
    + destruct Hrow as (-> & -> & ->). done.
  - intros child parent. change (tb_parents t') with
      (foldl (λ m p, <[(own, p) := relation_of t1 (inserted_row level slot) p]> m) (tb_parents t1) (ids_at t1 (vnb_direct_parents block))).
    rewrite lookup_insert_parents. change (ids_at t' (vnb_direct_parents block)) with (ids_at t1 (vnb_direct_parents block)).
    rewrite <- (in_parents _ _ _ Hin). destruct (decide (child = own ∧ parent ∈ _)) as [[_ Hpar]|]; [|done].
    f_equal. symmetry. apply relation_of_insert. by apply (pl_parents _ _ _ _ _ _ _ Hp).
  - apply (in_metadata _ _ _ Hin).
  - done.
Qed.
End insert.

(** ** Publication *)

Definition static b : CachedMaterializedBlock * list Z * list Z := (cached_block b, sb_blue_merge_set b, sb_red_merge_set b).

(** Caches survive whatever keeps identifiers and the immutable columns. *)
Lemma caches_ok_mono t t' c :
  (∀ id h, tb_identifiers t !! id = Some h → tb_identifiers t' !! id = Some h) →
  (∀ id, is_Some (tb_identifiers t !! id) → static <$> tb_blocks t' !! id = static <$> tb_blocks t !! id) →
  (∀ id, is_Some (tb_blocks t !! id) → is_Some (tb_identifiers t !! id)) → caches_ok t c → caches_ok t' c.
Proof.
  intros Hids Hst Hb [H1 H2 H3].
  assert (∀ id, is_Some (tb_identifiers t !! id) → is_Some (tb_blocks t' !! id) ↔ is_Some (tb_blocks t !! id)) as Hs.
  { intros id Hid. rewrite <- (fmap_is_Some static (tb_blocks t' !! id)), <- (fmap_is_Some static (tb_blocks t !! id)). by rewrite Hst. }
  split.
  - intros h i E. destruct (H1 h i E) as [Hid Hm]. split; [by apply Hids|]. rewrite Hs; [done|by eexists].
  - intros i m E. specialize (H2 i m E). destruct (tb_blocks t !! compact_id i) as [b|] eqn:Eb; [|done]. simpl in H2.
    specialize (Hst _ (Hb (compact_id i) ltac:(by eexists))). rewrite Eb in Hst. simpl in Hst.
    destruct (tb_blocks t' !! compact_id i) as [b'|]; [|done]. simpl in *. unfold static in Hst. congruence.
  - intros i s E. destruct (H3 i s E) as (b & Eb & E1 & E2). specialize (Hst _ (Hb (compact_id i) ltac:(by eexists))).
    rewrite Eb in Hst. simpl in Hst. destruct (tb_blocks t' !! compact_id i) as [b'|]; [|done]. simpl in Hst. unfold static in Hst.
    exists b'. split; [done|]. split; congruence.
Qed.

Lemma inserted_caches genesis block t t' committed c : store_inv genesis t → inserted genesis block t t' committed → caches_ok t c → caches_ok t' c.
Proof.
  intros Hi Hn. apply caches_ok_mono; [apply (is_ids _ _ _ _ _ Hn)| |].
  - intros id Hid. rewrite (is_blocks _ _ _ _ _ Hn), lookup_insert_ne; [done|].
    intros <-. apply (is_last _ _ _ _ _ Hn) in Hid. lia.
  - intros id [b Hb]. by apply (st_blocks _ _ Hi _ _ Hb).
Qed.

Lemma publish_identities_ok genesis t c (updates : list (BlockHash * StoredIdentity)) :
  store_inv genesis t → (∀ h s, (h, s) ∈ updates → identity_of t h = Some s) → caches_ok t c →
  let c' := foldl (λ c kv, publish_stored_identity kv.1 kv.2 c) c updates in caches_ok t c' ∧ ch_vspc_sink c' = ch_vspc_sink c.
Proof.
  intros Hi. revert c. induction updates as [|[h s] updates IH]; intros c Hu Hc; simpl; [done|].
  destruct (IH (publish_stored_identity h s c)) as [I1 I2].
  - intros; apply Hu; by right.
  - apply (publish_stored_identity_ok genesis); [done|apply Hu; left|done].
  - split; [done|]. rewrite I2. unfold publish_stored_identity. by destruct (si_block s).
Qed.

Definition published t success c : Prop :=
  ∃ c', publish_success success c = Some c' ∧ caches_ok t c' ∧ ch_vspc_sink c' = ch_vspc_sink c.

Lemma mapM_identities (m : gmap BlockHash StoredIdentity) t hashes :
  (∀ h, h ∈ hashes → m !! h = identity_of t h ∧ is_Some (identity_of t h)) →
  ∃ updates, mapM (λ h, (λ s, (h, s)) <$> m !! h) hashes = Some updates ∧ ∀ h s, (h, s) ∈ updates → identity_of t h = Some s.
Proof.
  induction hashes as [|h hashes IH]; intros Hm; [exists []; split; [done|by intros h s ?%elem_of_nil]|].
  destruct (Hm h) as [E [s Es]]; [left|]. destruct IH as (us & I1 & I2); [intros; apply Hm; by right|].
  exists ((h, s) :: us). cbn [mapM]. rewrite E, Es. simpl. rewrite I1. split; [done|].
  intros h' s' [[= -> ->]|Hin]%elem_of_cons; [done|by apply I2].
Qed.

Lemma PreparedBlock_new_Some block p : PreparedBlock_new block = Some p →
  prep_hash p = vnb_hash block ∧ prep_selected_parent p = vnb_selected_parent block ∧ prep_direct_parents p = vnb_direct_parents block ∧
  position_u32 (vnb_selected_parent block) (vnb_direct_parents block) = Some (prep_selected_parent_index p) ∧
  prep_universal p = block_references block ++ [vnb_hash block] ∧ prep_blue_merge_set p = vnb_blue_merge_set block ∧
  prep_red_merge_set p = vnb_red_merge_set block ∧ prep_timestamp p = vnb_timestamp block ∧ prep_daa_score p = vnb_daa_score block ∧
  vnb_selected_parent block ∈ vnb_direct_parents block.
Proof.
  intros (i & Ei & [= <-])%bind_Some. split_and!; try done. unfold position_u32 in Ei.
  apply bind_Some in Ei as ([k h] & Ek & _). apply list_find_Some in Ek as (E1 & -> & _). by eapply list_elem_of_lookup_2.
Qed.

Lemma daa_score_to_sql_Ok score z : daa_score_to_sql score = Ok z → (score ≤ MAX_DAA_SCORE)%N ∧ z = Z.of_N score.
Proof. unfold daa_score_to_sql. case_decide; [done|]. intros [= <-]. split; [lia|done]. Qed.

Lemma wp_level_snapshots genesis {Sem R} injected (E : SqlOutcome Sem R → Tables → bool → Prop) level levels t restarted
    (Q : list LevelCommitted → Tables → bool → Prop) :
  store_inv genesis t → (∀ l, l ∈ level :: levels → is_Some (tb_levels t !! Z.of_N l)) →
  (∀ e, injected e → E (SqlFailed (AttemptDatabase BeforeCommit e)) t restarted) →
  Q (omap (snapshot_at t) (btree_levels (level :: levels))) t restarted → wp injected (load_level_snapshots level levels) Q E t restarted.
Proof.
  intros Hi Hl HE HQ. unfold load_level_snapshots.
  destruct (select_levels_spec genesis t false (btree_levels (level :: levels)) Hi) as [E1 E2].
  { intros l Hin. by apply Hl, elem_of_btree_levels. }
  apply wp_bind, wp_query; [done|]. rewrite decide_False by auto. rewrite E2. apply wp_decode; [done|]. by intros ls [= <-].
Qed.

(** The row of a resolved parent. *)
Lemma parent_relation_resolved genesis t (row : BlockRow) hashes ss s :
  store_inv genesis t → resolved_in t hashes ss → s ∈ ss →
  parent_relation row (MkParentRow (si_id s) (si_coordinate s)) =
  (compact_id (si_id s), relation_of t (stored_block row) (compact_id (si_id s))).
Proof.
  intros Hi Hr Hs. destruct (resolved_ids genesis t hashes ss Hi Hr) as [_ H]. destruct (H s Hs) as (h & _ & _ & Eb).
  unfold parent_relation, relation_of, si_coordinate. rewrite Eb. cbn [parent_row_id parent_row_coordinate].
  destruct (tb_blocks t !! compact_id (si_id s)) as [pb|] eqn:Epb; simpl; [|done].
  destruct (st_blocks _ _ Hi _ _ Epb) as [_ (_ & [[? _] [? _]] & _)]. by rewrite !Z2N.id by lia.
Qed.

Lemma resolve_all_insert (m : gmap BlockHash StoredIdentity) h s hashes : h ∉ hashes → resolve_all (<[h := s]> m) hashes = resolve_all m hashes.
Proof.
  intros Hn. unfold resolve_all. induction hashes as [|x hashes IH]; [done|]. apply not_elem_of_cons in Hn as [Hx Hn].
  simpl. by rewrite lookup_insert_ne, IH by done.
Qed.

Lemma parent_level_row genesis t hashes l : store_inv genesis t → l ∈ parent_levels t hashes → is_Some (tb_levels t !! Z.of_N l).
Proof.
  intros Hi (h & x & _ & Hx & <-)%elem_of_parent_levels. unfold coordinate_at in Hx. apply bind_Some in Hx as (s & Es & Hx).
  apply (identity_of_Some genesis) in Es as (id & Hid & ->); [|done]. unfold si_coordinate in Hx. simpl in Hx.
  destruct (tb_blocks t !! id) as [b|] eqn:Eb; [|done]. simpl in Hx. injection Hx as <-.
  destruct (st_blocks _ _ Hi _ _ Eb) as [_ (_ & [[? _] _] & _)]. simpl. rewrite Z2N.id by lia. by apply (st_leveled _ _ Hi id).
Qed.

Lemma identity_insert genesis own b row parents t h hash :
  store_inv genesis t → tb_identifiers t !! own = Some hash →
  identity_of (insert_block_at own b row parents t) h =
  if decide (h = hash) then Some (MkStoredIdentity (MkCompactId own) (Some (cached_block b))) else identity_of t h.
Proof.
  intros Hi Hown. unfold identity_of. change (lookup_id (insert_block_at own b row parents t) h) with (lookup_id t h).
  case_decide as Hd.
  - subst h. rewrite (proj2 (lookup_id_spec genesis t hash own Hi) Hown). simpl. by rewrite lookup_insert_eq.
  - destruct (lookup_id t h) as [id|] eqn:El; [|done]. simpl. rewrite lookup_insert_ne; [done|]. intros <-.
    apply (lookup_id_spec genesis) in El; [|done]. congruence.
Qed.

Section attempt.
Context (genesis : BlockHash) (block : ValidatedNodeBlock) (p : PreparedBlock) (daa : Z) (c : Caches).
Context (injected : SqlxError → Prop) (E : SqlOutcome SemanticError AttemptSuccess → Tables → bool → Prop) (restarted : bool).
Hypothesis Hacc : acceptable genesis block.
Hypothesis Hp : PreparedBlock_new block = Some p.
Hypothesis Hdaa : daa_score_to_sql (vnb_daa_score block) = Ok daa.

Lemma wp_materialize_insert t m (Q : AttemptSuccess → Tables → bool → Prop) :
  store_inv genesis t → caches_ok t c → identity_of t (vnb_hash block) = None →
  (∀ h, h ∈ prep_universal p → m !! h = identity_of t h) →
  (∀ e t', statement_error injected (sequence_short (length (prep_universal p)) t) e → tb_sequence t ≤ tb_sequence t' ≤ I64_MAX_Z + 1 →
     E (SqlFailed (AttemptDatabase BeforeCommit e)) t' restarted) →
  (∀ t', level_full t → tb_sequence t ≤ tb_sequence t' ≤ I64_MAX_Z + 1 → E SqlPanic t' restarted) →
  (∀ committed t' success, inserted genesis block t t' committed → as_outcome success = Inserted committed →
     published t' success c → Q success t' restarted) →
  wp injected (materialize_insert p daa m (cache_misses c (prep_universal p))) Q E t restarted.
Proof.
  intros Hi Hc Habs Hm HE HP HQ.
  destruct (PreparedBlock_new_Some _ _ Hp) as (Eh & Es & Ep & Eidx & Eu & Eb & Er & Ets & Ed & Hsel).
  apply daa_score_to_sql_Ok in Hdaa as [Hmax ->].
  assert (vnb_hash block ≠ genesis) as Hng.
  { intros Hg. destruct (ac_genesis _ _ Hacc Hg) as [En _]. rewrite En in Hsel. by apply elem_of_nil in Hsel. }
  assert (NoDup (prep_universal p)) as Hnd.
  { rewrite Eu. apply NoDup_app. split_and!; [apply NoDup_firsts| |apply NoDup_singleton].
    intros h Hh ->%list_elem_of_singleton. by apply (ac_own _ _ Hacc). }
  unfold materialize_insert. apply wp_bind, (wp_intern_missing genesis); [done..|]. clear m Hm.
  intros m t1 Hin Hi1 Hm. rewrite Eu in Hin, Hm.
  assert (∀ h, h ∈ block_references block → m !! h = identity_of t1 h ∧ is_Some (identity_of t1 h)) as Hmr.
  { intros h Hh. apply Hm, elem_of_app. by left. }
  destruct (insert_own genesis block t t1 Hi Hi1 Habs Hin) as (own & Eown & Hown & Hnew & Hlast & Hlt).
  pose proof (st_sequence _ _ Hi1) as Hseq1.
  assert (tb_sequence t ≤ tb_sequence t1) as Hseq by (rewrite (in_sequence _ _ _ Hin); lia).
  assert (level_full t1 → level_full t) as Hfull by (unfold level_full; by rewrite (in_levels _ _ _ Hin)).
  rewrite Ep, Es, Eh, Eb, Er, Ets, Ed.
  apply wp_bind, wp_expect.
  { intros En. destruct (resolve_all_total t1 m (vnb_direct_parents block)) as (? & ? & _); [|congruence].
    intros h Hh. apply Hmr, in_references. auto. }
  intros parents Hpar%(resolve_all_Some t1); [|intros h Hh; apply Hmr, in_references; auto].
  destruct (resolved_coordinates _ _ _ Hpar) as [Ezip Elev]. destruct (resolved_ids genesis _ _ _ Hi1 Hpar) as [Eids Hids].
  apply wp_bind, wp_expect; [intros En; apply HP; [apply Hfull; by eapply derived_level_None|lia]|].
  intros level Hlevel. pose proof (derived_level_spec _ _ Hlevel) as Elevel. rewrite Elev in Elevel.
  assert (1 ≤ Z.of_N level ≤ Z.of_N U32_MAX) as Hlr.
  { split; [lia|]. unfold derived_level in Hlevel. destruct (omap _ parents); [injection Hlevel as <-; done|].
    case_decide; [|done]. injection Hlevel as <-. lia. }
  apply wp_bind, wp_stmt; [intros e He; apply HE; [by left|lia]| |].
  { intros t' e Ea. destruct (allocate_slot_spec genesis t1 level Hi1 Hlr) as [[Ea' _]|(? & ? & Ea' & _)]; congruence. }
  intros t2 raw Ea. apply wp_bind.
  destruct (allocate_slot_spec genesis t1 level Hi1 Hlr) as [[Ea' (old & Eold & Hold)]|(row & slot & Ea' & Hslot & Hrow)].
  { rewrite Ea' in Ea. injection Ea as <- <-. apply wp_expect; [|done]. intros _. apply HP; [|lia]. apply Hfull. exists (Z.of_N level), old. auto. }
  rewrite Ea' in Ea. injection Ea as <- <-. apply wp_expect; [done|]. intros ? [= <-].
  apply wp_bind. rewrite u16_try_from_ok by (change (Z.of_N U16_MAX) with 65535; lia). apply wp_expect; [done|]. intros ? [= <-].
  apply wp_bind. assert (BlockCoordinate_new level (Z.to_N slot) = Some (MkBlockCoordinate level (Z.to_N slot))) as ->.
  { unfold BlockCoordinate_new. rewrite decide_True; [done|]. change MAX_LEVEL_SLOT with 65534%N. lia. }
  apply wp_expect; [done|]. intros ? [= <-].
  destruct (Hmr (vnb_selected_parent block)) as [Esel [sel Hsel']]; [apply in_references; auto|]. rewrite Esel, Hsel'.
  apply wp_bind, wp_expect; [done|]. intros ? [= <-].
  destruct (Hm (vnb_hash block)) as [Eo _]; [apply elem_of_app; right; left|]. rewrite Eo, Eown.
  apply wp_bind, wp_expect; [done|]. intros ? [= <-]. cbn [si_id].
  set (own' := MkStoredIdentity (MkCompactId own) (Some (MkCachedMaterializedBlock (MkBlockCoordinate level (Z.to_N slot)) (si_id sel)))).
  rewrite (resolve_all_insert m _ own' (vnb_blue_merge_set block)) by (intros Hin'; apply (ac_own _ _ Hacc), in_references; auto).
  rewrite (resolve_all_insert m _ own' (vnb_red_merge_set block)) by (intros Hin'; apply (ac_own _ _ Hacc), in_references; auto).
  destruct (resolve_all_total t1 m (vnb_blue_merge_set block)) as (blue & -> & Hblue); [intros h Hh; apply Hmr, in_references; auto|].
  destruct (resolve_all_total t1 m (vnb_red_merge_set block)) as (red & -> & Hred); [intros h Hh; apply Hmr, in_references; auto|].
  apply wp_bind, wp_expect; [done|]. intros ? [= <-]. apply wp_bind, wp_expect; [done|]. intros ? [= <-].
  destruct (resolved_ids genesis _ _ _ Hi1 Hblue) as [Eblue _]. destruct (resolved_ids genesis _ _ _ Hi1 Hred) as [Ered _].
  assert (lookup_id t1 (vnb_selected_parent block) = Some (compact_id (si_id sel))) as Elsel.
  { unfold identity_of in Hsel'. destruct (lookup_id t1 (vnb_selected_parent block)); simpl in Hsel'; [|done]. by injection Hsel' as <-. }
  set (br := MkBlockRow (MkCompactId own) (vnb_timestamp block) (Z.of_N (vnb_daa_score block)) (MkBlockCoordinate level (Z.to_N slot))
    (si_id sel) Gray false (si_id <$> blue) (si_id <$> red)).
  assert (stored_block br = inserted_row block t1 level slot) as Erow.
  { unfold stored_block, inserted_row. simpl. rewrite Elsel, Z2N.id by lia. simpl. by rewrite <- Eblue, <- Ered, !list_fmap_compose. }
  assert (placement genesis t1 own (stored_block br) row (ids_at t1 (vnb_direct_parents block)) (vnb_hash block)) as Hpl.
  { rewrite Erow. apply (insert_placement genesis block t1); try done; apply Hlr. }
  assert (((λ p, compact_id (parent_row_id p)) <$> ((λ s, MkParentRow (si_id s) (si_coordinate s)) <$> parents)) =
          ids_at t1 (vnb_direct_parents block)) as Eparents by by rewrite <- Eids, <- list_fmap_compose.
  set (t' := insert_block_at own (inserted_row block t1 level slot) row (ids_at t1 (vnb_direct_parents block)) t1).
  apply wp_bind. replace (Z.of_N level) with (sb_level (stored_block br)) by done.
  apply (wp_insert_block_and_parents genesis _ _ br _ _ row (vnb_hash block)); [done|by rewrite Eparents| | | |].
  { rewrite Eparents, <- Eids. apply (resolved_NoDup genesis t1 (vnb_direct_parents block)); [done|apply (ac_parents _ _ Hacc)|done]. }
  { intros pr (s & -> & Hs)%list_elem_of_fmap. by apply (parent_relation_resolved genesis t1 br (vnb_direct_parents block) parents). }
  { intros e t2 He Hs2. apply HE; [by left|]. rewrite Hs2. lia. }
  rewrite Eparents, Erow. cbn [compact_id row_id br]. change (set_levels _ _) with t'.
  pose proof (insertion_inv Hi1 Hpl) as Hi'. rewrite Erow in Hi'. fold t' in Hi'.
  rewrite Elev. apply wp_bind, (wp_level_snapshots genesis); [done| |intros e He; apply HE; [by left|simpl; lia]|].
  { intros l. rewrite elem_of_cons. simpl. rewrite lookup_insert_is_Some'. intros [->|Hl]; [by left|right].
    by apply (parent_level_row genesis t1 (vnb_direct_parents block)). }
  apply wp_ret. rewrite Ezip.
  assert (inserted genesis block t t' (MkBlockCommitted (MkCompactId own) (vnb_hash block) (MkBlockCoordinate level (Z.to_N slot))
    (vnb_timestamp block) (vnb_daa_score block) (Some (prep_selected_parent_index p))
    ((λ h, MkParentCommitted h (coordinate_at t1 h)) <$> vnb_direct_parents block)
    (vnb_blue_merge_set block) (vnb_red_merge_set block) Gray false
    (omap (snapshot_at t') (btree_levels (level :: parent_levels t1 (vnb_direct_parents block)))))) as Hins.
  { rewrite Erow in Hpl. apply (insert_inserted genesis block t t1 Hi Hi1 Habs Hin own level slot row); try done; [lia|intros h Hh; by apply Hmr|].
    rewrite Eidx, (insert_parent_levels genesis block t t1 Hi Hi1 Hin). f_equal.
    apply list_fmap_ext. intros i h _. f_equal. by apply (insert_coordinate genesis block t t1 Hi Hi1 Hin). }
  eapply HQ; [exact Hins|done|].
  assert (∀ h, identity_of t' h = if decide (h = vnb_hash block) then Some own' else identity_of t1 h) as Hid.
  { intros h. unfold t'. rewrite (identity_insert genesis own _ row _ t1 h (vnb_hash block)) by done. case_decide; [|done].
    unfold own', cached_block, stored_coordinate, inserted_row. simpl. rewrite Elsel. simpl. rewrite N2Z.id. by destruct sel as [[]]. }
  destruct (mapM_identities (<[vnb_hash block := own']> m) t' (cache_misses c (prep_universal p))) as (updates & Eup & Hup).
  { intros h [_ Hh]%list_elem_of_filter. rewrite Hid. rewrite Eu in Hh. case_decide as Hd; [subst h; by rewrite lookup_insert_eq|].
    rewrite lookup_insert_ne by done. by apply Hm. }
  unfold published, publish_success. cbn [as_cache_updates as_merge_sets]. rewrite Eup. run_bind.
  destruct (publish_identities_ok genesis t' c updates Hi' Hup) as [P1 P2]; [by apply (inserted_caches genesis block t t' _ c Hi Hins)|].
  eexists. split; [done|]. split; [|done].
  apply (publish_merge_sets_ok t' _ _ _ (inserted_row block t1 level slot)); [by simpl; rewrite lookup_insert_eq| | |done].
  - cbn [sb_blue_merge_set inserted_row cs_blue]. by rewrite <- Eblue, list_fmap_compose.
  - cbn [sb_red_merge_set inserted_row cs_red]. by rewrite <- Ered, list_fmap_compose.
Qed.
End attempt.

(** ** The attempt *)

Lemma removelast_snoc {A} (l : list A) x : removelast (l ++ [x]) = l.
Proof. rewrite removelast_app by done. simpl. by rewrite app_nil_r. Qed.

Definition attempt_failed {Sem} (injected : SqlxError → Prop) (short : Prop) (semantic : Sem → Prop) (e : TransactionAttemptError Sem) : Prop :=
  match e with
  | AttemptSemantic s => semantic s
  | AttemptDatabase BeforeCommit e => statement_error injected short e
  | _ => False
  end.

Lemma rolled_from_keep_now genesis t now : store_inv genesis t → tb_sequence t ≤ tb_sequence now ≤ I64_MAX_Z + 1 →
  rolled_from t (keep_sequence now t).
Proof. intros Hi Hs. apply rolled_from_keep; [by eapply rolled_from_refl|done]. Qed.

Lemma materialize_attempt_ok genesis injected block p daa policy c t :
  acceptable genesis block → PreparedBlock_new block = Some p → daa_score_to_sql (vnb_daa_score block) = Ok daa →
  store_inv genesis t → caches_ok t c →
  body_ok keep_sequence (materialize_attempt c p daa policy) injected t
    (λ success t', ∃ committed, admission t block policy = None ∧ inserted genesis block t t' committed ∧
       as_outcome success = Inserted committed ∧ published t' success c)
    (λ success, admission t block policy = Some (Ok (as_outcome success)) ∧ published t success c)
    (attempt_failed injected (sequence_short (S (length (block_references block))) t) (λ s, admission t block policy = Some (Err s)))
    (level_full t) (rolled_from t).
Proof.
  intros Hacc Hp Hdaa Hi Hc. pose proof (st_sequence _ _ Hi) as Hseq.
  assert (rolled_from t (keep_sequence t t)) as Hsame by (eapply rolled_from_keep_now; [done|lia]).
  destruct (PreparedBlock_new_Some _ _ Hp) as (Eh & _ & _ & _ & Eu & _).
  assert (references p = block_references block) as Eref by (unfold references; by rewrite Eu, removelast_snoc).
  unfold body_ok, materialize_attempt. apply wp_bind, wp_begin; [intros e He; split; [done|by left]|].
  apply wp_bind, (wp_load_identities genesis); [done|done|intros e He; split; [done|by left]|]. intros m Hm.
  assert (m !! vnb_hash block = identity_of t (vnb_hash block)) as Ehash by (apply Hm; rewrite Eu; apply elem_of_app; right; left).
  rewrite Eh, Ehash. destruct (identity_of t (vnb_hash block)) as [own|] eqn:Eown.
  - assert (admission t block policy = Some match si_coordinate own with
         | Some coordinate => Ok (AlreadyMaterialized (si_id own) coordinate)
         | None => Err (Semantic_IncomingBoundaryIdentity (vnb_hash block)) end) as Ead by (unfold admission; by rewrite Eown).
    destruct (si_coordinate own) as [coordinate|].
    + apply wp_rollback; [intros e He; split; [done|by left]|]. split; [done|]. split; [done|].
      unfold published, publish_success. simpl. eexists. split; [done|].
      apply (publish_identities_ok genesis); [done| |done].
      intros h s (h' & [= -> ->] & [-> _]%list_elem_of_filter)%list_elem_of_fmap. done.
    + apply wp_rollback; [intros e He; split; [done|by left]|]. split; [done|]. done.
  - assert (missing_references m (references p) = filter (λ h, identity_of t h = None) (block_references block)) as ->.
    { rewrite Eref. apply filter_ext_in. intros h Hh. rewrite Hm; [done|]. rewrite Eu. apply elem_of_app. by left. }
    assert (identity_only_references m (references p) = filter (λ h, (si_block <$> identity_of t h) = Some None) (block_references block)) as ->.
    { rewrite Eref. apply filter_ext_in. intros h Hh. rewrite Hm; [done|]. rewrite Eu. apply elem_of_app. by left. }
    case_decide as Hpol.
    + apply wp_rollback; [intros e He; split; [done|by left]|]. split; [done|].
      unfold attempt_failed, admission. rewrite Eown. by rewrite decide_True.
    + apply (wp_materialize_insert genesis block); try done.
      * intros e t' He Hs. split; [by apply (rolled_from_keep_now genesis)|]. rewrite Eu, length_app, Nat.add_comm in He. done.
      * intros t' Hfull Hs. split; [by apply (rolled_from_keep_now genesis)|done].
      * intros committed t' success Hins Hout Hpub. split.
        -- exists committed. split_and!; [|done..]. unfold admission. rewrite Eown. by rewrite decide_False.
        -- apply (rolled_from_keep_now genesis); [done|]. split; [apply (is_sequence _ _ _ _ _ Hins)|].
           apply (st_sequence _ _ (is_inv _ _ _ _ _ Hins)).
Qed.
End store_materialize.
