(* ===== verification/StoreVspc.v ===== *)
(** The Rebuild transaction: from any tables it leaves a fresh store that holds
    the pruning point alone, or leaves the tables as they were; and the VSPC
    transaction on a well-formed store: the reads it decides on, and the tables
    after membership, coloring and rescoring. *)

From S2P Require Import Prelude Model Faults Sql Store Resolver Materialization VspcStore.
From S2P Require Import StoreClient StoreInvariant StoreInsert StoreMaterialize.

#[local] Open Scope Z_scope.

Section store_rebuild.
Context {KH : KaspaHash}.
Implicit Types (t : Tables) (c : Caches) (h : BlockHash) (id : Z) (b : StoredBlock).

(** The hashes a rebuild interns, in order. *)
Definition rebuild_universal (genesis : BlockHash) (block : ValidatedNodeBlock) : list BlockHash :=
  block_references block ++ (if decide (vnb_hash block = genesis) then [vnb_selected_parent block] else []) ++ [vnb_hash block].

(** The pruning point's row. *)
Definition rebuilt_row t (block : ValidatedNodeBlock) : StoredBlock :=
  MkStoredBlock (timestamp_to_sql (vnb_timestamp block)) (Z.of_N (vnb_daa_score block)) 1 0
    (default 0 (lookup_id t (vnb_selected_parent block))) 0 true
    (ids_at t (vnb_blue_merge_set block)) (ids_at t (vnb_red_merge_set block)).

Record rebuilt (genesis : BlockHash) (block : ValidatedNodeBlock) t' (commit : RebuildCommit) : Prop := {
  rb_inv : store_inv genesis t';
  rb_own : lookup_id t' (vnb_hash block) = Some (compact_id (vp_id (msa_point (rcm_anchor commit))));
  rb_known : ∀ h, is_Some (identity_of t' h) ↔ h ∈ rebuild_universal genesis block;
  rb_blocks : tb_blocks t' = {[compact_id (vp_id (msa_point (rcm_anchor commit))) := rebuilt_row t' block]};
  rb_levels : tb_levels t' = {[1 := MkLevelState 1 (Z.of_N (vnb_daa_score block))]};
  rb_metadata : tb_metadata t' = Some (Z.of_N (vnb_blue_score block));
  rb_anchor : rcm_anchor commit =
    MkMaterializedSyncAnchor
      (MkVspcPoint (MkConsensusOrder (vnb_blue_work block) (vnb_hash block)) (vp_id (msa_point (rcm_anchor commit))))
      (vnb_selected_parent block) (vnb_blue_score block);
  rb_caches : caches_ok t' (rcm_caches commit);
  rb_sink : ch_vspc_sink (rcm_caches commit) =
    Some (MkCachedVspcSink (vp_id (msa_point (rcm_anchor commit))) (vnb_hash block))
}.

Lemma store_inv_metadata genesis t m :
  store_inv genesis t →
  store_inv genesis (MkTables (tb_identifiers t) (tb_sequence t) (tb_blocks t) (tb_levels t) (tb_parents t) m).
Proof. intros []. by split. Qed.

(** ** Identifiers *)

Section identifiers.
Context {Sem R : Type} (injected : SqlxError → Prop) (E : SqlOutcome Sem R → Tables → bool → Prop).
Context (ids : gmap BlockHash CompactId) (t1 : Tables).
Hypothesis Hids : ∀ h, ids !! h = MkCompactId <$> lookup_id t1 h.

Lemma wp_rebuild_identity h (Q : CompactId → Tables → bool → Prop) t restarted :
  is_Some (lookup_id t1 h) → (∀ id, lookup_id t1 h = Some id → Q (MkCompactId id) t restarted) →
  wp injected (rebuild_identity ids h) Q E t restarted.
Proof.
  intros [id Eid] HQ. unfold rebuild_identity. rewrite Hids, Eid. apply wp_decode; [done|]. intros i [= <-]. by apply HQ.
Qed.

Lemma wp_rebuild_ids hashes (Q : list CompactId → Tables → bool → Prop) t restarted :
  (∀ h, h ∈ hashes → is_Some (lookup_id t1 h)) →
  (∀ l, compact_id <$> l = ids_at t1 hashes → Q l t restarted) → wp injected (rebuild_ids ids hashes) Q E t restarted.
Proof.
  revert Q. induction hashes as [|h hashes IH]; intros Q Hs HQ; [by apply wp_ret, HQ|].
  simpl. apply wp_bind, wp_rebuild_identity; [apply Hs; left|]. intros id Eid.
  apply wp_bind, IH; [intros; apply Hs; by right|]. intros l Hl. apply wp_ret, HQ.
  unfold ids_at, omap in *. simpl. rewrite Eid. f_equal. exact Hl.
Qed.
End identifiers.

Lemma interned_lookup genesis hashes t1 (ids : gmap BlockHash CompactId) :
  store_inv genesis t1 → interned hashes empty_tables t1 → (∀ h i, ids !! h = Some i ↔ (h, compact_id i) ∈ numbered 1 hashes) →
  (∀ h, ids !! h = MkCompactId <$> lookup_id t1 h) ∧ (∀ h, is_Some (lookup_id t1 h) ↔ h ∈ hashes).
Proof.
  intros Hi1 Hin Hids.
  assert (∀ id h, tb_identifiers t1 !! id = Some h ↔ (h, id) ∈ numbered 1 hashes) as Hnum.
  { intros id h. rewrite (in_ids _ _ _ Hin). simpl. rewrite lookup_empty. split; [by intros [?|?]|by right]. }
  split.
  - intros h. destruct (lookup_id t1 h) as [id|] eqn:El; simpl.
    + apply Hids. simpl. by apply Hnum, (lookup_id_spec genesis).
    + destruct (ids !! h) as [i|] eqn:Ei; [|done]. apply Hids, Hnum in Ei. apply (lookup_id_spec genesis) in Ei; [congruence|done].
  - intros h. split.
    + intros [id Hid]. apply (lookup_id_spec genesis), Hnum, elem_of_numbered in Hid as [_ ?]; [done|done].
    + intros Hh. destruct (numbered_total 1 hashes h Hh) as [id Hid]. exists id. by apply (lookup_id_spec genesis), Hnum.
Qed.

(** ** Placement of the pruning point *)

Lemma rebuild_universal_NoDup genesis block : acceptable genesis block → NoDup (rebuild_universal genesis block).
Proof.
  intros Ha. unfold rebuild_universal. apply NoDup_app. split; [apply NoDup_firsts|]. split.
  - intros h Hh. case_decide as Hg.
    + destruct (ac_genesis _ _ Ha Hg) as (E1 & E2 & E3 & _). unfold block_references in Hh. rewrite E1, E2, E3 in Hh. by apply elem_of_nil in Hh.
    + simpl. intros ->%list_elem_of_singleton. by apply (ac_own _ _ Ha).
  - case_decide as Hg; simpl; [|apply NoDup_singleton]. destruct (ac_genesis _ _ Ha Hg) as (_ & _ & _ & Hne).
    apply NoDup_cons. split; [by intros ?%list_elem_of_singleton|apply NoDup_singleton].
Qed.

Section placement.
Context (genesis : BlockHash) (block : ValidatedNodeBlock) (t1 : Tables).
Hypothesis Hi1 : store_inv genesis t1.
Hypothesis Ha : acceptable genesis block.
Hypothesis Hin : interned (rebuild_universal genesis block) empty_tables t1.
Hypothesis Hknown : ∀ h, is_Some (lookup_id t1 h) ↔ h ∈ rebuild_universal genesis block.

Lemma rebuild_known h : h ∈ block_references block ∨ h = vnb_hash block ∨ h = vnb_selected_parent block → is_Some (lookup_id t1 h).
Proof.
  intros Hh. apply Hknown. unfold rebuild_universal. rewrite !elem_of_app, list_elem_of_singleton.
  destruct Hh as [Hh|[->| ->]]; [by left|by right; right|]. case_decide as Hg; [right; left; left|left].
  apply in_references. left. by apply (ac_selected _ _ Ha).
Qed.

Lemma rebuild_last own : lookup_id t1 (vnb_hash block) = Some own → ∀ id, is_Some (tb_identifiers t1 !! id) → id = own ∨ id < own.
Proof.
  intros Hown id [h Hid].
  assert (∀ id h, tb_identifiers t1 !! id = Some h → (h, id) ∈ numbered 1 (rebuild_universal genesis block)) as Hnum.
  { intros i x [E|?]%(in_ids _ _ _ Hin); [simpl in E; by rewrite lookup_empty in E|done]. }
  apply (lookup_id_spec genesis) in Hown; [|done]. apply Hnum in Hown. apply Hnum in Hid. clear Hnum.
  pose proof (rebuild_universal_NoDup _ _ Ha) as Hnd. unfold rebuild_universal in *. rewrite app_assoc in *.
  set (front := block_references block ++ _) in *. rewrite numbered_app in Hown, Hid.
  apply NoDup_app in Hnd as (_ & Hd & _).
  assert (own = 1 + Z.of_nat (length front)) as ->.
  { apply elem_of_app in Hown as [Hown|Hown]; [|by apply list_elem_of_singleton in Hown as [= ->]].
    apply elem_of_numbered in Hown as [_ Hown]. exfalso. apply (Hd _ Hown). left. }
  apply elem_of_app in Hid as [Hid|Hid]; [apply elem_of_numbered in Hid as [? _]; right; simpl in *; lia|].
  apply list_elem_of_singleton in Hid as [= _ ->]. by left.
Qed.

Lemma rebuild_placement own : (vnb_daa_score block ≤ MAX_DAA_SCORE)%N → lookup_id t1 (vnb_hash block) = Some own →
  placement genesis t1 own (rebuilt_row t1 block) (MkLevelState 1 (Z.of_N (vnb_daa_score block)))
    (ids_at t1 (vnb_direct_parents block)) (vnb_hash block).
Proof.
  intros Hdaa Hown. pose proof (rebuild_last own Hown) as Hlast. apply (lookup_id_spec genesis) in Hown as Hoid; [|done].
  destruct (rebuild_known (vnb_selected_parent block)) as [sel Hsel]; [by right; right|].
  apply (lookup_id_spec genesis) in Hsel as Hsid; [|done].
  assert (∀ id, tb_blocks t1 !! id = None) as Hnob by (intros id; rewrite (in_blocks _ _ _ Hin); apply lookup_empty).
  assert (tb_levels t1 !! 1 = None) as Hnol by (rewrite (in_levels _ _ _ Hin); apply lookup_empty).
  assert (vnb_selected_parent block ≠ vnb_hash block) as Hne.
  { destruct (decide (vnb_hash block = genesis)) as [Hg|Hg]; [by apply (ac_genesis _ _ Ha Hg)|].
    intros E. apply (ac_own _ _ Ha). rewrite <- E at 1. apply in_references. left. by apply (ac_selected _ _ Ha). }
  assert (∀ h id, h ≠ vnb_hash block → tb_identifiers t1 !! id = Some h → id ≠ own) as Hx by (intros h id Hh Hid ->; congruence).
  assert (∀ h, h ∈ block_references block → h ≠ vnb_hash block) as Hr by (intros h Hh ->; by apply (ac_own _ _ Ha)).
  split; [done|done|done| | | | | | |]; unfold rebuilt_row; cbn [sb_level sb_slot sb_selected_parent_id sb_is_in_vspc]; rewrite ?Hsel, ?Hnol; cbn [default].
  - split; [|split; [split; [done|done]|done]]; cbn [sb_daa_score]. unfold I64_MAX_Z. unfold MAX_DAA_SCORE, I64_MAX in Hdaa. lia.
  - intros r. unfold reference_ids. cbn [sb_selected_parent_id sb_blue_merge_set sb_red_merge_set].
    rewrite elem_of_cons, elem_of_app, !(elem_of_ids_at genesis) by done.
    intros [->|[(h & Hh & Hid)|(h & Hh & Hid)]]; (split; [by eexists|]).
    + by apply (Hx _ _ Hne).
    + apply (Hx h); [apply Hr, in_references; auto|done].
    + apply (Hx h); [apply Hr, in_references; auto|done].
  - intros p (h & Hh & Hid)%(elem_of_ids_at genesis); [|done]. split; [by eexists|]. split.
    + apply (Hx h); [|done]. apply Hr, in_references. auto.
    + unfold relation_of. by rewrite Hnob.
  - by left.
  - destruct (decide (vnb_hash block = genesis)) as [Hg|Hg]; [right|left; split; [done|]].
    + destruct (ac_genesis _ _ Ha Hg) as (-> & _). by split_and!.
    + apply (elem_of_ids_at genesis); [done|]. exists (vnb_selected_parent block). split; [by apply (ac_selected _ _ Ha)|done].
  - done.
  - done.
Qed.
End placement.

(** ** The attempt *)

Lemma ids_at_NoDup genesis t hashes : store_inv genesis t → NoDup hashes → NoDup (ids_at t hashes).
Proof.
  intros Hi. unfold ids_at, omap. induction 1 as [|h hashes Hh _ IH]; [constructor|]. simpl.
  destruct (lookup_id t h) as [id|] eqn:El; [|done]. constructor; [|done]. intros Hin.
  apply list_elem_of_omap in Hin as (h' & Hh' & El'). apply (lookup_id_spec genesis) in El, El'; [|done..]. congruence.
Qed.

(** The rows of the pruning point's parents, none of them materialized. *)
Lemma rebuild_parent_relation t (row : BlockRow) i : (∀ id, tb_blocks t !! id = None) →
  parent_relation row (MkParentRow i None) = (compact_id i, relation_of t (stored_block row) (compact_id i)).
Proof. intros Hn. unfold parent_relation, relation_of. rewrite Hn. by destruct row. Qed.

Lemma PreparedRebuild_new_Ok block genesis p : PreparedRebuild_new block genesis = Ok p →
  rb_block p = block ∧ rb_universal p = rebuild_universal genesis block ∧ rb_daa_score p = Z.of_N (vnb_daa_score block) ∧
  rb_blue_score p = Z.of_N (vnb_blue_score block) ∧ (vnb_daa_score block ≤ MAX_DAA_SCORE)%N.
Proof.
  unfold PreparedRebuild_new. destruct (daa_score_to_sql _) as [daa|] eqn:Ed; [|done]. unfold blue_score_to_sql.
  case_decide; [done|]. intros [= <-]. apply daa_score_to_sql_Ok in Ed as [? ->]. by split_and!.
Qed.

(** The caches a rebuild starts with. *)
Lemma rebuild_caches_ok t own sel (ids : gmap BlockHash CompactId) (hash : BlockHash) b :
  (∀ h i, ids !! h = Some i → tb_identifiers t !! compact_id i = Some h) → tb_identifiers t !! own = Some hash →
  ids !! hash = Some (MkCompactId own) → tb_blocks t = {[own := b]} → cached_block b = MkCachedMaterializedBlock (MkBlockCoordinate 1 0) sel →
  let c := map_fold (λ h (i : CompactId), publish_identity h (MkCachedIdentity i (bool_decide (h = hash)))) ProcessingCacheDomains_new ids in
  caches_ok t (publish_materialized_block (MkCompactId own) (MkCachedMaterializedBlock (MkBlockCoordinate 1 0) sel) c).
Proof.
  intros Hids Hown Hh Hb Ecb c. apply publish_block_ok; [by rewrite Hb; simpl; rewrite lookup_singleton_eq, <- Ecb|].
  unfold c. clear c. revert Hids.
  apply (map_fold_weak_ind (λ c (m : gmap BlockHash CompactId),
    (∀ h i, m !! h = Some i → ids !! h = Some i) → (∀ h i, ids !! h = Some i → tb_identifiers t !! compact_id i = Some h) → caches_ok t c)); [| |done].
  { intros _ _. apply caches_ok_new. }
  intros h i m c Hn IH Hsub Hids. apply publish_identity_ok; [by apply Hids, Hsub; rewrite lookup_insert_eq| |].
  - simpl. rewrite bool_decide_eq_true, Hb.
    assert (ids !! h = Some i) as Ei by (apply Hsub; by rewrite lookup_insert_eq). split.
    + intros ->. assert (i = MkCompactId own) as -> by congruence. simpl. by rewrite lookup_singleton_eq.
    + intros [x Hx]. apply lookup_singleton_Some in Hx as [Eo _]. apply Hids in Ei. congruence.
  - apply IH; [|done]. intros h' i' E. apply Hsub. rewrite lookup_insert_ne; [done|]. congruence.
Qed.

Lemma rebuild_attempt_ok genesis injected block p t :
  acceptable genesis block → PreparedRebuild_new block genesis = Ok p → store_inv genesis t →
  body_ok keep_sequence (rebuild_attempt p) injected t
    (λ commit t', rebuilt genesis block t' commit) (λ _, False)
    (attempt_failed injected (sequence_short (length (rebuild_universal genesis block)) empty_tables) (λ _, False))
    False (rolled_from t).
Proof.
  intros Ha Hp Hi. destruct (PreparedRebuild_new_Ok _ _ _ Hp) as (Eb & Eu & Ed & Ebs & Hdaa). pose proof (st_sequence _ _ Hi) as Hseq.
  assert (rolled_from t t) as Hroll by by eapply rolled_from_refl.
  assert (rolled_from t (keep_sequence t t)) as Hsame by (eapply rolled_from_keep_now; [done|lia]).
  unfold body_ok, rebuild_attempt. rewrite Eb, Eu, Ed, Ebs. apply wp_bind, wp_begin; [intros e He; split; [done|by left]|].
  apply wp_bind. unfold truncate. apply wp_bind, wp_stmt; [intros e He; split; [done|by left]|by intros ? ? [=]|]. intros t0 [] [= <-].
  apply wp_restart. apply wp_bind, (wp_intern_identities genesis); [apply empty_tables_inv|by apply rebuild_universal_NoDup| | |].
  { intros h _. apply (proj2 (identity_of_None empty_tables h)), (lookup_id_None genesis); [apply empty_tables_inv|]. intros id. simpl. by rewrite lookup_empty. }
  { intros e t0 He _. by split. }
  intros ids t1 Hin Hi1 Hids. destruct (interned_lookup genesis _ t1 ids Hi1 Hin Hids) as [Hlk Hkn].
  pose proof (rebuild_known genesis block t1 Ha Hkn) as Hknown.
  assert (∀ id, tb_blocks t1 !! id = None) as Hnob by (intros id; rewrite (in_blocks _ _ _ Hin); apply lookup_empty).
  apply wp_bind, (wp_rebuild_identity _ _ ids t1); [done|apply Hknown; by right; left|]. intros own Eown.
  apply wp_bind, (wp_rebuild_identity _ _ ids t1); [done|apply Hknown; by right; right|]. intros sel Esel.
  apply wp_bind, (wp_rebuild_ids _ _ ids t1); [done|intros h Hh; apply Hknown; left; apply in_references; auto|]. intros blue Eblue.
  apply wp_bind, (wp_rebuild_ids _ _ ids t1); [done|intros h Hh; apply Hknown; left; apply in_references; auto|]. intros red Ered.
  apply wp_bind, (wp_rebuild_ids _ _ ids t1); [done|intros h Hh; apply Hknown; left; apply in_references; auto|]. intros parents Epar.
  apply wp_bind, wp_expect; [done|]. intros ? [= <-].
  set (row := MkBlockRow _ _ _ _ _ _ _ _ _).
  assert (stored_block row = rebuilt_row t1 block) as Erow by (unfold rebuilt_row; rewrite Esel, <- Eblue, <- Ered; done).
  pose proof (rebuild_placement genesis block t1 Hi1 Ha Hin Hkn own Hdaa Eown) as Hpl. rewrite <- Erow in Hpl.
  assert (((λ p, compact_id (parent_row_id p)) <$> ((λ i, MkParentRow i None) <$> parents)) = ids_at t1 (vnb_direct_parents block)) as Eparents
    by by rewrite <- list_fmap_compose, <- Epar.
  apply wp_bind. replace t1 with (set_levels (tb_levels t1) t1) at 1 by by destruct t1.
  eapply (wp_insert_block_and_parents genesis _ _ row _ (tb_levels t1) _ (vnb_hash block)); [done|by rewrite Eparents| | |by intros e t2 He _; split; [done|left]|].
  { rewrite Eparents. apply (ids_at_NoDup genesis); [done|apply (ac_parents _ _ Ha)]. }
  { intros pr (i & -> & _)%list_elem_of_fmap. by apply rebuild_parent_relation. }
  rewrite Eparents, Erow. cbn [compact_id row_id row].
  set (t2 := insert_block_at own (rebuilt_row t1 block) (MkLevelState 1 (Z.of_N (vnb_daa_score block))) (ids_at t1 (vnb_direct_parents block)) t1).
  rewrite Erow in Hpl. pose proof (insertion_inv Hi1 Hpl) as Hi2. fold t2 in Hi2.
  assert (tb_levels t1 = ∅) as El1 by apply (in_levels _ _ _ Hin).
  apply wp_bind, wp_stmt; [intros e He; split; [done|by left]|by rewrite decide_False by (simpl; rewrite El1, lookup_empty; by intros [])|].
  intros t3 [] E3. rewrite decide_False in E3 by (simpl; rewrite El1, lookup_empty; by intros []). injection E3 as <-.
  apply wp_bind, wp_stmt; [intros e He; split; [done|by left]|simpl; by rewrite (in_metadata _ _ _ Hin)|].
  intros t3 [] E3. simpl in E3. rewrite (in_metadata _ _ _ Hin) in E3. simpl in E3. injection E3 as <-.
  apply wp_ret. split; [|done].
  set (t3 := MkTables _ _ _ _ _ _).
  assert (store_inv genesis t3) as Hi3 by exact (store_inv_metadata genesis t2 _ Hi2).
  assert (tb_blocks t3 = {[own := rebuilt_row t1 block]}) as Eb3 by (simpl; rewrite (in_blocks _ _ _ Hin); apply insert_empty).
  apply (lookup_id_spec genesis) in Eown as Eoid; [|done].
  split; cbn [rcm_anchor msa_point vp_id compact_id rcm_caches]; try done.
  - intros h. rewrite <- Hkn. unfold identity_of. by rewrite fmap_is_Some.
  - simpl. rewrite El1. apply insert_empty.
  - apply publish_sink_ok, (publish_merge_sets_ok _ _ _ _ (rebuilt_row t1 block)); [by rewrite Eb3; simpl; rewrite lookup_singleton_eq|done|done|].
    apply (rebuild_caches_ok t3 own (MkCompactId sel) ids (vnb_hash block) (rebuilt_row t1 block)); [|done| |done|].
    + intros h i Ei. rewrite Hlk in Ei. destruct (lookup_id t1 h) as [id|] eqn:Eid; [|done]. injection Ei as <-. by apply (lookup_id_spec genesis).
    + by rewrite Hlk, Eown.
    + unfold cached_block, rebuilt_row, stored_coordinate. simpl. by rewrite Esel.
Qed.
End store_rebuild.

Section store_vspc.
Context {KH : KaspaHash}.
Implicit Types (t : Tables) (c : Caches) (h : BlockHash) (id : Z) (b : StoredBlock) (i : CompactId) (change : ReadyVspcChange).

(** * Tables that differ in colors, membership and scores *)

(** A row without its mutable columns. *)
Definition unstyled b : StoredBlock := set_membership false (set_stored_color Gray b).

Record restyled t t' : Prop := {
  re_ids : tb_identifiers t' = tb_identifiers t;
  re_sequence : tb_sequence t ≤ tb_sequence t' ≤ I64_MAX_Z + 1;
  re_parents : tb_parents t' = tb_parents t;
  re_metadata : tb_metadata t' = tb_metadata t;
  re_blocks : ∀ id, unstyled <$> tb_blocks t' !! id = unstyled <$> tb_blocks t !! id;
  re_colors : ∀ id b, tb_blocks t' !! id = Some b → 0 ≤ sb_color b ≤ 2;
  re_levels : ∀ l, ls_size <$> tb_levels t' !! l = ls_size <$> tb_levels t !! l
}.

Lemma unstyled_eq b b' : unstyled b = unstyled b' →
  sb_timestamp b = sb_timestamp b' ∧ sb_daa_score b = sb_daa_score b' ∧ sb_level b = sb_level b' ∧ sb_slot b = sb_slot b' ∧
  sb_selected_parent_id b = sb_selected_parent_id b' ∧ sb_blue_merge_set b = sb_blue_merge_set b' ∧ sb_red_merge_set b = sb_red_merge_set b'.
Proof. destruct b, b'. unfold unstyled. simpl. intros [= -> -> -> -> -> -> ->]. by split_and!. Qed.

Lemma restyled_block t t' id b' : restyled t t' → tb_blocks t' !! id = Some b' →
  ∃ b, tb_blocks t !! id = Some b ∧ unstyled b' = unstyled b.
Proof.
  intros Hr E. pose proof (re_blocks _ _ Hr id) as H. rewrite E in H. symmetry in H. apply fmap_Some in H as (b & Eb & Hb).
  exists b. split; [done|]. congruence.
Qed.

Lemma restyled_block' t t' id b : restyled t t' → tb_blocks t !! id = Some b →
  ∃ b', tb_blocks t' !! id = Some b' ∧ unstyled b' = unstyled b.
Proof.
  intros Hr E. pose proof (re_blocks _ _ Hr id) as H. rewrite E in H. apply fmap_Some in H as (b' & Eb & Hb).
  exists b'. split; [done|]. congruence.
Qed.

Lemma restyled_level t t' l : restyled t t' → is_Some (tb_levels t' !! l) ↔ is_Some (tb_levels t !! l).
Proof.
  intros Hr. rewrite <- (fmap_is_Some ls_size (tb_levels t' !! l)), <- (fmap_is_Some ls_size (tb_levels t !! l)). by rewrite (re_levels _ _ Hr).
Qed.

Lemma restyled_relation t t' b b' parent : restyled t t' → unstyled b' = unstyled b → relation_of t' b' parent = relation_of t b parent.
Proof.
  intros Hr Hb. apply unstyled_eq in Hb as (_ & _ & El & Es & _). unfold relation_of. rewrite El, Es.
  destruct (tb_blocks t' !! parent) as [p'|] eqn:Ep'.
  - destruct (restyled_block _ _ _ _ Hr Ep') as (p & -> & Hp). apply unstyled_eq in Hp as (_ & _ & -> & -> & _). done.
  - destruct (tb_blocks t !! parent) as [p|] eqn:Ep; [|done]. destruct (restyled_block' _ _ _ _ Hr Ep) as (p' & ? & _). congruence.
Qed.

Lemma restyled_inv genesis t t' :
  store_inv genesis t → restyled t t' →
  (∀ l row, tb_levels t' !! l = Some row → current_score l t' = Ok (ls_daa_score row)) → store_inv genesis t'.
Proof.
  intros Hi Hr Hsc. pose proof Hr as [R1 R2 R3 R4 R5 R6 R7].
  assert (∀ id b', tb_blocks t' !! id = Some b' → ∃ b, tb_blocks t !! id = Some b ∧ sb_timestamp b' = sb_timestamp b ∧
    sb_daa_score b' = sb_daa_score b ∧ sb_level b' = sb_level b ∧ sb_slot b' = sb_slot b ∧
    sb_selected_parent_id b' = sb_selected_parent_id b ∧ sb_blue_merge_set b' = sb_blue_merge_set b ∧
    sb_red_merge_set b' = sb_red_merge_set b) as Hb.
  { intros id b' E. destruct (restyled_block _ _ _ _ Hr E) as (b & Eb & H%unstyled_eq). by exists b. }
  assert (∀ id, tb_blocks t !! id = None → tb_blocks t' !! id = None) as Hnone.
  { intros id E. destruct (tb_blocks t' !! id) as [b'|] eqn:E'; [|done]. destruct (Hb _ _ E') as (b & ? & _). congruence. }
  pose proof (st_sequence _ _ Hi) as Hseq. split; rewrite ?R1, ?R3.
  - lia.
  - intros id h Hid. apply (st_ids _ _ Hi) in Hid. lia.
  - apply (st_hashes _ _ Hi).
  - intros id b' E. destruct (Hb _ _ E) as (b & Eb & _ & E1 & E2 & E3 & _). destruct (st_blocks _ _ Hi _ _ Eb) as [? (H1 & H2 & H3)].
    split; [done|]. unfold block_checks. rewrite E1, E2, E3. split; [done|]. split; [done|]. by eapply R6.
  - intros id b' r E. destruct (Hb _ _ E) as (b & Eb & _ & _ & _ & _ & E1 & E2 & E3). unfold reference_ids. rewrite E1, E2, E3.
    by apply (st_references _ _ Hi).
  - intros id id' b1 b2 F1 F2. destruct (Hb _ _ F1) as (c1 & G1 & _ & _ & -> & -> & _). destruct (Hb _ _ F2) as (c2 & G2 & _ & _ & -> & -> & _).
    by apply (st_slots _ _ Hi).
  - intros id b' E. destruct (Hb _ _ E) as (b & Eb & _ & _ & -> & _). rewrite (restyled_level t t') by done. by apply (st_leveled _ _ Hi id).
  - intros l row' E. pose proof (R7 l) as Hl. rewrite E in Hl. symmetry in Hl. apply fmap_Some in Hl as (row & El & Es).
    destruct (st_levels _ _ Hi _ _ El) as (H1 & H2 & _ & H4). rewrite Es. split; [done|]. split; [done|]. split; [by apply Hsc|].
    intros s. rewrite H4. split.
    + intros (id & b & Eb & L1 & L2). destruct (restyled_block' _ _ _ _ Hr Eb) as (b' & Eb' & Hu%unstyled_eq). exists id, b'.
      destruct Hu as (_ & _ & -> & -> & _). done.
    + intros (id & b' & Eb' & L1 & L2). destruct (Hb _ _ Eb') as (b & Eb & _ & _ & E1 & E2 & _). exists id, b. by rewrite <- E1, <- E2.
  - intros l. rewrite !(restyled_level t t') by done. apply (st_contiguous _ _ Hi).
  - intros child parent r E. destruct (st_parents _ _ Hi _ _ _ E) as (H1 & H2 & b & Eb & -> & H3). split; [done|]. split; [done|].
    destruct (restyled_block' _ _ _ _ Hr Eb) as (b' & Eb' & Hu). exists b'. split; [done|]. split; [by rewrite (restyled_relation t t' b b')|].
    apply unstyled_eq in Hu as (_ & _ & -> & _). done.
  - intros id b' E. destruct (Hb _ _ E) as (b & Eb & _ & _ & -> & _). by apply (st_derived _ _ Hi id b).
  - intros id b' h E Hid. destruct (Hb _ _ E) as (b & Eb & _ & _ & _ & _ & -> & _).
    destruct (st_selected _ _ Hi _ _ _ Eb Hid) as [?|(? & Hn & ?)]; [by left|right]. split; [done|]. split; [by apply Hnone|done].
Qed.

Lemma restyled_caches genesis t t' c : store_inv genesis t → restyled t t' → caches_ok t c → caches_ok t' c.
Proof.
  intros Hi Hr. apply caches_ok_mono.
  - intros id h. by rewrite (re_ids _ _ Hr).
  - intros id _. pose proof (re_blocks _ _ Hr id) as H. destruct (tb_blocks t' !! id), (tb_blocks t !! id); simpl in *; try done.
    apply (inj Some), unstyled_eq in H. destruct H as (_ & _ & E1 & E2 & E3 & E4 & E5). unfold static, cached_block, stored_coordinate.
    by rewrite E1, E2, E3, E4, E5.
  - intros id [b Hb]. by apply (st_blocks _ _ Hi _ _ Hb).
Qed.

(** ** The score of a level *)

Lemma current_score_ext l t t' :
  (∀ id b', tb_blocks t' !! id = Some b' → current_at l b' → ∃ b, tb_blocks t !! id = Some b ∧ current_at l b ∧ sb_daa_score b = sb_daa_score b') →
  (∀ id b, tb_blocks t !! id = Some b → current_at l b → ∃ b', tb_blocks t' !! id = Some b' ∧ current_at l b' ∧ sb_daa_score b = sb_daa_score b') →
  ∀ x, current_score l t = Ok x → current_score l t' = Ok x.
Proof.
  intros H1 H2 x. rewrite !current_score_spec. intros [[-> Hn]|(id & b & Hb & Hc & -> & Hu)].
  - left. split; [done|]. intros id b' E Hc. destruct (H1 _ _ E Hc) as (b & Eb & Hcb & _). by eapply Hn.
  - right. destruct (H2 _ _ Hb Hc) as (b' & Eb' & Hc' & Ed). exists id, b'. split_and!; [done..|].
    intros id' b2 E2 Hc2. destruct (H1 _ _ E2 Hc2) as (b3 & E3 & Hc3 & _). by eapply Hu.
Qed.

Lemma current_score_Err l t e : current_score l t = Err e → e = cardinality_violation ∧
  ∃ id id' b b', id ≠ id' ∧ tb_blocks t !! id = Some b ∧ tb_blocks t !! id' = Some b' ∧ current_at l b ∧ current_at l b'.
Proof.
  unfold current_score.
  match goal with |- context [match ?L with _ => _ end] => set (L0 := L) end.
  assert (∀ id b, (id, b) ∈ L0 → tb_blocks t !! id = Some b ∧ current_at l b) as HL.
  { intros id b. unfold L0. rewrite list_elem_of_filter, elem_of_map_to_list. unfold current_at. simpl. tauto. }
  assert (NoDup L0.*1) as Hnd.
  { apply (sublist_NoDup _ (map_to_list (tb_blocks t)).*1); [apply NoDup_fst_map_to_list|apply fmap_sublist, sublist_filter]. }
  destruct L0 as [|[id b] [|[id2 b2] rest]]; [done|done|]. intros [= <-]. split; [done|].
  destruct (HL id b) as [Hb Hc]; [left|]. destruct (HL id2 b2) as [Hb2 Hc2]; [right; left|].
  exists id, id2, b, b2. split; [|by split_and!].
  simpl in Hnd. apply NoDup_cons in Hnd as [Hnd _]. intros ->. apply Hnd. left.
Qed.

(** Rescoring the levels [levels]. *)
Lemma rescore_spec levels t rows :
  match rescore levels t rows with
  | Ok rows' => ∀ l, (if decide (l ∈ Z.of_N <$> levels ∧ is_Some (tb_levels t !! l))
                      then ∃ row score, tb_levels t !! l = Some row ∧ current_score l t = Ok score ∧ rows' !! l = Some (MkLevelState (ls_size row) score)
                      else rows' !! l = rows !! l)
  | Err e => ∃ l, l ∈ Z.of_N <$> levels ∧ current_score l t = Err e
  end.
Proof.
  revert rows. induction levels as [|level levels IH]; intros rows; cbn [rescore].
  { intros l. destruct (decide _) as [[H _]|_]; [by apply elem_of_nil in H|done]. }
  destruct (tb_levels t !! Z.of_N level) as [row|] eqn:El.
  - destruct (current_score (Z.of_N level) t) as [score|e] eqn:Es; [|exists (Z.of_N level); split; [left|done]].
    specialize (IH (<[Z.of_N level:=MkLevelState (ls_size row) score]> rows)). destruct (rescore levels t _) as [rows'|e].
    + intros l. specialize (IH l). destruct (decide (l ∈ Z.of_N <$> levels ∧ is_Some (tb_levels t !! l))) as [[H1 H2]|Hn].
      * destruct (decide _) as [_|Hx]; [done|]. exfalso. apply Hx. split; [by right|done].
      * destruct (decide (l = Z.of_N level)) as [->|Hne].
        -- destruct (decide _) as [_|Hx]; [|exfalso; apply Hx; split; [left|by eexists]]. exists row, score. rewrite IH, lookup_insert_eq. done.
        -- destruct (decide _) as [[[->|Hx]%elem_of_cons Hs]|_]; [done|by exfalso; apply Hn|]. by rewrite IH, lookup_insert_ne by done.
    + destruct IH as (l & H1 & H2). exists l. split; [by right|done].
  - specialize (IH rows). destruct (rescore levels t rows) as [rows'|e].
    + intros l. specialize (IH l). destruct (decide (l ∈ Z.of_N <$> levels ∧ is_Some (tb_levels t !! l))) as [[H1 H2]|Hn].
      * destruct (decide _) as [_|Hx]; [done|]. exfalso. apply Hx. split; [by right|done].
      * destruct (decide _) as [[[->|H1]%elem_of_cons H2]|_]; [rewrite El in H2; by destruct H2|by exfalso; apply Hn|done].
    + destruct IH as (l & H1 & H2). exists l. split; [by right|done].
Qed.

(** * Reads *)

Definition member_at t i : option CachedMaterializedBlock := cached_block <$> tb_blocks t !! compact_id i.
Definition sets_of b : CachedMergeSets := MkCachedMergeSets (MkCompactId <$> sb_blue_merge_set b) (MkCompactId <$> sb_red_merge_set b).
Definition sets_at t i : option CachedMergeSets := sets_of <$> tb_blocks t !! compact_id i.

Lemma elem_of_compact_ids (ids : list CompactId) id : id ∈ compact_id <$> ids ↔ MkCompactId id ∈ ids.
Proof.
  rewrite list_elem_of_fmap. split; [by intros ([x] & -> & H)|]. intros H. by exists (MkCompactId id).
Qed.

Lemma elem_of_select_blocks ids t id b : (id, b) ∈ select_blocks ids t ↔ MkCompactId id ∈ ids ∧ tb_blocks t !! id = Some b.
Proof. unfold select_blocks. by rewrite list_elem_of_filter, elem_of_map_to_list, elem_of_compact_ids. Qed.

(** The rows a query by identifier yields, as a map. *)
Lemma lookup_selected {A} (f : StoredBlock → A) ids t i :
  (list_to_map ((λ kv, (MkCompactId kv.1, f kv.2)) <$> select_blocks ids t) : gmap CompactId A) !! i =
  if decide (i ∈ ids) then f <$> tb_blocks t !! compact_id i else None.
Proof.
  set (l := (λ kv, (MkCompactId kv.1, f kv.2)) <$> select_blocks ids t).
  assert (NoDup l.*1) as Hnd.
  { unfold l. rewrite <- list_fmap_compose.
    assert ((fst ∘ λ kv : Z * StoredBlock, (MkCompactId kv.1, f kv.2)) <$> select_blocks ids t = MkCompactId <$> (select_blocks ids t).*1) as ->
      by by rewrite <- (list_fmap_compose fst MkCompactId).
    apply NoDup_fmap_2; [by intros ? ? [=]|]. unfold select_blocks.
    apply (sublist_NoDup _ (map_to_list (tb_blocks t)).*1); [apply NoDup_fst_map_to_list|apply fmap_sublist, sublist_filter]. }
  assert (∀ a, (i, a) ∈ l ↔ i ∈ ids ∧ f <$> tb_blocks t !! compact_id i = Some a) as Hl.
  { intros a. unfold l. rewrite list_elem_of_fmap. split.
    - intros ([id b] & [= -> ->] & [H1 H2]%elem_of_select_blocks). simpl. by rewrite H2.
    - intros [H1 (b & Eb & ->)%fmap_Some]. exists (compact_id i, b). simpl. split; [by destruct i|]. apply elem_of_select_blocks. by destruct i. }
  destruct (list_to_map l !! i) as [a|] eqn:E.
  - apply elem_of_list_to_map_2, Hl in E as [H1 H2]. by rewrite decide_True.
  - apply not_elem_of_list_to_map_2 in E. case_decide as Hd; [|done]. destruct (f <$> tb_blocks t !! compact_id i) as [a|] eqn:Ea; [|done].
    exfalso. apply E. apply list_elem_of_fmap. exists (i, a). split; [done|]. by apply Hl.
Qed.

Lemma decode_id_ok id : 1 ≤ id → decode_id id = Ok (MkCompactId id).
Proof. intros H. unfold decode_id. by rewrite CompactId_new_pos by lia. Qed.

Lemma block_id_pos genesis t id b : store_inv genesis t → tb_blocks t !! id = Some b → 1 ≤ id.
Proof. intros Hi E. destruct (st_blocks _ _ Hi _ _ E) as [[h Hid] _]. apply (st_ids _ _ Hi) in Hid. lia. Qed.

Lemma reference_id_pos genesis t id b r : store_inv genesis t → tb_blocks t !! id = Some b → r ∈ reference_ids b → 1 ≤ r.
Proof. intros Hi E Hr. destruct (st_references _ _ Hi _ _ _ E Hr) as [[h Hid] _]. apply (st_ids _ _ Hi) in Hid. lia. Qed.

Lemma decode_member_ok genesis t id b : store_inv genesis t → tb_blocks t !! id = Some b →
  decode_member (id, b) = Ok (MkCompactId id, cached_block b).
Proof.
  intros Hi E. destruct (st_blocks _ _ Hi _ _ E) as [_ Hb]. unfold decode_member. cbn [fst snd].
  rewrite decode_id_ok by by apply (block_id_pos genesis t id b). pose proof Hb as (_ & [Hl Hs] & _).
  rewrite u32_try_from_ok by lia. rewrite u16_try_from_ok by (unfold MAX_LEVEL_SLOT, MAX_LEVEL_SIZE in Hs; lia).
  rewrite coordinate_new by done. rewrite decode_id_ok; [done|]. eapply reference_id_pos; [done|done|left].
Qed.

Lemma decode_members_ok genesis t rows : store_inv genesis t → (∀ id b, (id, b) ∈ rows → tb_blocks t !! id = Some b) →
  decode_members rows = Ok ((λ kv, (MkCompactId kv.1, cached_block kv.2)) <$> rows).
Proof.
  intros Hi. induction rows as [|[id b] rows IH]; intros Hr; [done|]. cbn [decode_members].
  rewrite (decode_member_ok genesis t) by (done || apply Hr; left). rewrite IH by (intros; apply Hr; by right). done.
Qed.

Lemma seed_members_spec c ids :
  let '(m, misses) := seed_members_from_cache c ids in
  (∀ i, m !! i = if decide (i ∈ ids) then ch_materialized_blocks c !! i else None) ∧
  misses = filter (λ i, ch_materialized_blocks c !! i = None) ids.
Proof.
  induction ids as [|i ids IH]; [split; [intros i; by rewrite lookup_empty|done]|]. cbn [seed_members_from_cache].
  destruct (seed_members_from_cache c ids) as [m misses]. destruct IH as [I1 I2]. rewrite filter_cons.
  destruct (ch_materialized_blocks c !! i) as [x|] eqn:E.
  - rewrite decide_False by done. split; [|done]. intros j. destruct (decide (i = j)) as [->|Hne].
    + rewrite lookup_insert_eq, decide_True by left. done.
    + rewrite lookup_insert_ne, I1 by done. apply decide_ext. rewrite elem_of_cons. naive_solver.
  - rewrite decide_True by done. split; [|by rewrite I2]. intros j. rewrite I1.
    destruct (decide (j = i)) as [->|Hne]; [rewrite (decide_True (P:=i ∈ i :: ids)) by left; rewrite E; by case_decide|].
    apply decide_ext. rewrite elem_of_cons. naive_solver.
Qed.

Lemma wp_load_members genesis {Sem R} injected (E : SqlOutcome Sem R → Tables → bool → Prop) c ids t restarted
    (Q : gmap CompactId CachedMaterializedBlock * list (CompactId * CachedMaterializedBlock) → Tables → bool → Prop) :
  store_inv genesis t → caches_ok t c →
  (∀ e, injected e → E (SqlFailed (AttemptDatabase BeforeCommit e)) t restarted) →
  (∀ m updates, (∀ i, i ∈ ids → m !! i = member_at t i) → (∀ i x, (i, x) ∈ updates → member_at t i = Some x) → Q (m, updates) t restarted) →
  wp injected (load_members c ids) Q E t restarted.
Proof.
  intros Hi Hc HE HQ. unfold load_members. pose proof (seed_members_spec c ids) as Hs.
  destruct (seed_members_from_cache c ids) as [m misses]. destruct Hs as [Hm Hmiss].
  assert (∀ i, i ∈ ids → ∀ x, ch_materialized_blocks c !! i = Some x → member_at t i = Some x) as Hcached by (intros i _ x; apply (co_blocks _ _ Hc)).
  destruct misses as [|i0 rest].
  - apply wp_ret, HQ; [|by intros i x ?%elem_of_nil]. intros i Hin. rewrite Hm, decide_True by done.
    destruct (ch_materialized_blocks c !! i) as [x|] eqn:Ex; [by rewrite (Hcached i Hin x)|].
    exfalso. apply (elem_of_nil (A:=CompactId) i). rewrite Hmiss. by apply list_elem_of_filter.
  - set (misses := i0 :: rest) in *. apply wp_bind, wp_query; [done|].
    rewrite (decode_members_ok genesis t) by (done || by intros id b [_ ?]%elem_of_select_blocks).
    apply wp_bind, wp_decode; [done|]. intros updates [= <-]. apply wp_ret, HQ.
    + intros i Hin. rewrite lookup_union, lookup_selected, Hm, (decide_True (P:=i ∈ ids)) by done. fold (member_at t i).
      case_decide as Hd; rewrite Hmiss, list_elem_of_filter in Hd.
      * destruct Hd as [-> _]. by destruct (member_at t i).
      * destruct (ch_materialized_blocks c !! i) as [x|] eqn:Ex; [by rewrite (Hcached i Hin x)|]. exfalso. by apply Hd.
    + intros i x ([id b] & [= -> ->] & [_ Hb]%elem_of_select_blocks)%list_elem_of_fmap. unfold member_at. simpl. by rewrite Hb.
Qed.

Lemma compact_ids_inv (l : list CompactId) : MkCompactId <$> (compact_id <$> l) = l.
Proof. induction l as [|[] l IH]; simpl; by f_equal. Qed.

Lemma cached_sets t c i s : caches_ok t c → ch_merge_sets c !! i = Some s → sets_at t i = Some s.
Proof.
  intros Hc E. destruct (co_merge_sets _ _ Hc _ _ E) as (b & Eb & E1 & E2). unfold sets_at, sets_of. rewrite Eb. simpl. rewrite E1, E2.
  destruct s as [blue red]. simpl. by rewrite !compact_ids_inv.
Qed.

Lemma decode_ids_ok l : (∀ r, r ∈ l → 1 ≤ r) → decode_ids l = Ok (MkCompactId <$> l).
Proof.
  induction l as [|r l IH]; intros Hl; [done|]. cbn [decode_ids]. rewrite decode_id_ok by (apply Hl; left).
  rewrite IH by (intros; apply Hl; by right). done.
Qed.

Lemma decode_merge_sets_ok genesis t rows : store_inv genesis t → (∀ id b, (id, b) ∈ rows → tb_blocks t !! id = Some b) →
  decode_merge_sets rows = Ok ((λ kv, (MkCompactId kv.1, sets_of kv.2)) <$> rows).
Proof.
  intros Hi. induction rows as [|[id b] rows IH]; intros Hr; [done|]. cbn [decode_merge_sets fst snd].
  assert (tb_blocks t !! id = Some b) as Eb by (apply Hr; left).
  rewrite decode_id_ok by by apply (block_id_pos genesis t id b).
  rewrite !decode_ids_ok by (intros r Hin; eapply (reference_id_pos genesis t); [done|done|unfold reference_ids; right; apply elem_of_app; auto]).
  rewrite IH by (intros; apply Hr; by right). done.
Qed.

Lemma size_distinct {A} (m : gmap CompactId A) (l : list CompactId) :
  NoDup l → (∀ i, is_Some (m !! i) ↔ i ∈ l) → size m = length l.
Proof.
  intros Hnd Hm. rewrite <- size_dom.
  assert (dom m = list_to_set l) as ->; [|by apply size_list_to_set].
  apply set_eq. intros i. by rewrite elem_of_dom, Hm, elem_of_list_to_set.
Qed.

Lemma wp_load_merge_sets genesis {Sem R} injected (E : SqlOutcome Sem R → Tables → bool → Prop) c added t restarted
    (Q : gmap CompactId CachedMergeSets * list (CompactId * CachedMergeSets) → Tables → bool → Prop) :
  store_inv genesis t → caches_ok t c → (∀ i, i ∈ added → is_Some (tb_blocks t !! compact_id i)) →
  (∀ e, injected e → E (SqlFailed (AttemptDatabase BeforeCommit e)) t restarted) →
  (∀ m updates, (∀ i, i ∈ added → m !! i = sets_at t i) → (∀ i x, (i, x) ∈ updates → sets_at t i = Some x) → Q (m, updates) t restarted) →
  wp injected (load_merge_sets c added) Q E t restarted.
Proof.
  intros Hi Hc Hadd HE HQ. unfold load_merge_sets. set (distinct := first_occurrences [] added).
  assert (∀ i, i ∈ distinct ↔ i ∈ added) as Hd.
  { intros i. unfold distinct. rewrite elem_of_firsts. split; [by intros [? _]|]. intros ?. split; [done|by intros ?%elem_of_nil]. }
  set (cached := list_to_map _).
  assert (∀ i, i ∈ added → cached !! i = ch_merge_sets c !! i) as Hcached.
  { intros i Hin. unfold cached. by rewrite (lookup_omap_pairs (λ i, ch_merge_sets c !! i)), decide_True by by apply Hd. }
  assert (∀ i, i ∉ added → cached !! i = None) as Hnc.
  { intros i Hin. unfold cached. rewrite (lookup_omap_pairs (λ i, ch_merge_sets c !! i)), decide_False; [done|]. by rewrite Hd. }
  destruct (filter _ distinct) as [|i0 rest] eqn:Ef.
  - apply wp_ret, HQ; [|by intros i x ?%elem_of_nil]. intros i Hin. rewrite Hcached by done.
    destruct (ch_merge_sets c !! i) as [s|] eqn:Es; [by rewrite (cached_sets t c i s)|].
    exfalso. apply (elem_of_nil (A:=CompactId) i). rewrite <- Ef. apply list_elem_of_filter. split; [done|by apply Hd].
  - set (misses := i0 :: rest) in *. apply wp_bind, wp_query; [done|].
    rewrite (decode_merge_sets_ok genesis t) by (done || by intros id b [_ ?]%elem_of_select_blocks).
    apply wp_bind, wp_decode; [done|]. intros updates [= <-]. set (sets := list_to_map _ ∪ cached).
    assert (∀ i, i ∈ added → sets !! i = sets_at t i) as Hsets.
    { intros i Hin. unfold sets. rewrite lookup_union, lookup_selected, Hcached by done. fold (sets_at t i).
      case_decide as Hm; rewrite <- Ef, list_elem_of_filter in Hm.
      - destruct Hm as [-> _]. by destruct (sets_at t i).
      - destruct (ch_merge_sets c !! i) as [s|] eqn:Es; [by rewrite (cached_sets t c i s)|]. exfalso. apply Hm. split; [done|by apply Hd]. }
    assert (size sets = length distinct) as Hsize.
    { apply size_distinct; [apply NoDup_firsts|]. intros i. rewrite Hd. split.
      - intros [x Hx]. destruct (decide (i ∈ added)) as [|Hn]; [done|]. exfalso. unfold sets in Hx.
        rewrite lookup_union, lookup_selected, Hnc in Hx by done. rewrite decide_False in Hx; [done|].
        rewrite <- Ef, list_elem_of_filter, Hd. by intros [_ ?].
      - intros Hin. rewrite Hsets by done. unfold sets_at. rewrite fmap_is_Some. by apply Hadd. }
    rewrite decide_False by auto. apply wp_ret, HQ; [done|].
    intros i x ([id b] & [= -> ->] & [_ Hb]%elem_of_select_blocks)%list_elem_of_fmap. unfold sets_at. simpl. by rewrite Hb.
Qed.

(** ** The path *)

Definition parent_at t i : option CompactId := cm_selected_parent_id <$> member_at t i.

Fixpoint linked_up t (ids : list CompactId) : Prop :=
  match ids with
  | a :: (b :: _) as rest => parent_at t b = Some a ∧ linked_up t rest
  | _ => True
  end.
Fixpoint linked_down t (ids : list CompactId) : Prop :=
  match ids with
  | a :: (b :: _) as rest => parent_at t a = Some b ∧ linked_down t rest
  | _ => True
  end.

(** What [first_path_conflict] lets pass: an added-only path is checked at its
    first block alone. *)
Definition path_checked t change : Prop :=
  match rc_removed change with
  | [] => ∀ a, head (rc_added change) = Some a → parent_at t a = Some (vp_id (rc_source change))
  | first :: _ =>
    linked_down t (rc_removed change) ∧ linked_up t (rc_added change) ∧
    ∀ a, head (rc_added change) = Some a → parent_at t a = parent_at t (List.last (rc_removed change) first)
  end.

Definition conflict_within t (ids : list CompactId) (x : VspcPathConflictIds) : Prop :=
  pci_child x ∈ ids ∧ parent_at t (pci_child x) = Some (pci_stored_parent x) ∧ pci_stored_parent x ≠ pci_expected_parent x.

Section path.
Context {t : Tables} {m : gmap CompactId CachedMaterializedBlock}.

Lemma conflict_spec child expected : m !! child = member_at t child → is_Some (member_at t child) →
  ∃ r, conflict m child expected = Some r ∧
    match r with
    | None => parent_at t child = Some expected
    | Some x => conflict_within t [child] x ∧ pci_expected_parent x = expected ∧ parent_at t child ≠ Some expected
    end.
Proof.
  intros E [x Ex]. unfold conflict. rewrite E, Ex. run_bind. case_decide as Hd.
  - exists None. split; [done|]. unfold parent_at. rewrite Ex. simpl. by rewrite Hd.
  - assert (parent_at t child = Some (cm_selected_parent_id x)) as Ep by (unfold parent_at; by rewrite Ex).
    eexists. split; [done|]. split; [|split; [done|rewrite Ep; congruence]]. by split; [left|].
Qed.

Lemma windows_conflict_spec parent_first ids : (∀ i, i ∈ ids → m !! i = member_at t i ∧ is_Some (member_at t i)) →
  ∃ r, windows_conflict m parent_first ids = Some r ∧
    match r with
    | None => if (parent_first : bool) then linked_up t ids else linked_down t ids
    | Some x => (conflict_within t ids x ∧ pci_expected_parent x ∈ ids) ∧
        ¬ (if (parent_first : bool) then linked_up t ids else linked_down t ids)
    end.
Proof.
  induction ids as [|a ids IH]; intros Hm; [exists None; by destruct parent_first|].
  destruct ids as [|b ids]; [exists None; by destruct parent_first|].
  destruct IH as (r & Er & Hr); [intros; apply Hm; by right|].
  assert (∃ r0, (if (parent_first : bool) then conflict m b a else conflict m a b) = Some r0 ∧
    match r0 with
    | None => if (parent_first : bool) then parent_at t b = Some a else parent_at t a = Some b
    | Some x => (conflict_within t (a :: b :: ids) x ∧ pci_expected_parent x ∈ a :: b :: ids) ∧
        (if (parent_first : bool) then parent_at t b ≠ Some a else parent_at t a ≠ Some b)
    end) as (r0 & Er0 & Hr0).
  { destruct (Hm a) as [Ea Sa]; [left|]. destruct (Hm b) as [Eb Sb]; [right; left|].
    destruct parent_first; [destruct (conflict_spec b a Eb Sb) as (r0 & ? & H)|destruct (conflict_spec a b Ea Sa) as (r0 & ? & H)];
      exists r0; (split; [done|]); (destruct r0 as [x|]; [|done]); destruct H as ([Hc%list_elem_of_singleton Hp] & He & Hn);
      (split; [split; [split; [|done]|]|done]); rewrite ?Hc, ?He, !elem_of_cons; auto. }
  cbn [windows_conflict]. rewrite Er0. run_bind. destruct r0 as [x|].
  { exists (Some x). split; [done|]. destruct Hr0 as [H1 H2]. split; [done|]. by destruct parent_first; intros [? _]. }
  exists r. split; [exact Er|]. destruct r as [x|].
  - destruct Hr as [[[H1 H2] H3] Hn]. split; [split; [split; [by right|done]|by right]|].
    intros H. apply Hn. destruct parent_first; by destruct H as [_ ?].
  - destruct parent_first; done.
Qed.
End path.

Lemma member_known genesis t i : store_inv genesis t → is_Some (member_at t i) → is_Some (tb_identifiers t !! compact_id i).
Proof. intros Hi [b Hb]%fmap_is_Some. by apply (st_blocks _ _ Hi _ _ Hb). Qed.

Lemma parent_known genesis t i p : store_inv genesis t → parent_at t i = Some p →
  is_Some (tb_identifiers t !! compact_id p) ∧ compact_id p < compact_id i.
Proof.
  intros Hi. unfold parent_at, member_at. destruct (tb_blocks t !! compact_id i) as [b|] eqn:Eb; [|done]. intros [= <-]. simpl.
  eapply (st_references _ _ Hi); [done|left].
Qed.

(** A conflict the transaction reports: all its identifiers are known. *)
Definition conflict_evidence t (x : VspcPathConflictIds) : Prop :=
  parent_at t (pci_child x) = Some (pci_stored_parent x) ∧ pci_stored_parent x ≠ pci_expected_parent x ∧
  is_Some (tb_identifiers t !! compact_id (pci_child x)) ∧ is_Some (tb_identifiers t !! compact_id (pci_expected_parent x)) ∧
  is_Some (tb_identifiers t !! compact_id (pci_stored_parent x)).

Lemma conflict_within_evidence genesis t ids x : store_inv genesis t → (∀ i, i ∈ ids → is_Some (member_at t i)) →
  conflict_within t ids x → is_Some (tb_identifiers t !! compact_id (pci_expected_parent x)) → conflict_evidence t x.
Proof.
  intros Hi Hm (H1 & H2 & H3) He. split_and!; [done|done| |done|].
  - apply (member_known genesis); [done|by apply Hm].
  - by destruct (parent_known genesis _ _ _ Hi H2).
Qed.

Lemma last_elem {A} (l : list A) x : List.last (x :: l) x ∈ x :: l.
Proof.
  assert (∀ (l : list A) d y, List.last (y :: l) d ∈ y :: l) as H; [|apply H].
  clear. induction l as [|z l IH]; intros d y; [left|]. change (List.last (y :: z :: l) d) with (List.last (z :: l) d). right. apply IH.
Qed.

Lemma first_path_conflict_spec genesis t (m : gmap CompactId CachedMaterializedBlock) change :
  store_inv genesis t → is_Some (tb_identifiers t !! compact_id (vp_id (rc_source change))) → rc_added change ≠ [] →
  (∀ i, i ∈ rc_removed change ++ rc_added change → m !! i = member_at t i ∧ is_Some (member_at t i)) →
  ∃ r, first_path_conflict change m = Some r ∧
    match r with None => path_checked t change | Some x => conflict_evidence t x ∧ ¬ path_checked t change end.
Proof.
  intros Hi Hsrc Hne Hm. unfold first_path_conflict, path_checked.
  assert (∀ i, i ∈ rc_added change → m !! i = member_at t i ∧ is_Some (member_at t i)) as Hma by (intros; apply Hm, elem_of_app; by right).
  assert (∀ i, i ∈ rc_removed change → m !! i = member_at t i ∧ is_Some (member_at t i)) as Hmr by (intros; apply Hm, elem_of_app; by left).
  destruct (rc_added change) as [|child added] eqn:Ea; [done|]. cbn [head].
  destruct (Hma child) as [Ec Sc]; [left|]. destruct (rc_removed change) as [|first removed] eqn:Er.
  - run_bind. destruct (conflict_spec child (vp_id (rc_source change)) Ec Sc) as (r & Hr & Hs). exists r. split; [done|]. destruct r as [x|].
    + destruct Hs as (Hw & He & Hn). split; [|intros H; by apply Hn, H].
      apply (conflict_within_evidence genesis t [child]); [done|by intros i ->%list_elem_of_singleton|done|by rewrite He].
    + by intros a [= <-].
  - destruct (windows_conflict_spec (t:=t) (m:=m) false (first :: removed) Hmr) as (r1 & -> & H1). run_bind. destruct r1 as [x|].
    { exists (Some x). split; [done|]. destruct H1 as [[Hw He] Hn]. split; [|by intros (? & _)].
      apply (conflict_within_evidence genesis t (first :: removed)); [done|intros; by apply Hmr|done|].
      by apply (member_known genesis), Hmr. }
    destruct (Hmr (List.last (first :: removed) first)) as [El [lm Elm]]; [apply last_elem|]. rewrite El, Elm. run_bind.
    destruct (conflict_spec child (cm_selected_parent_id lm) Ec Sc) as (r2 & -> & H2). run_bind.
    assert (parent_at t (List.last (first :: removed) first) = Some (cm_selected_parent_id lm)) as Elp by (unfold parent_at; by rewrite Elm).
    destruct r2 as [x|].
    { exists (Some x). split; [done|]. destruct H2 as (Hw & He & Hn). split; [|intros (_ & _ & H); apply Hn; by rewrite (H child), Elp].
      apply (conflict_within_evidence genesis t [child]); [done|by intros i ->%list_elem_of_singleton|done|].
      rewrite He. by destruct (parent_known genesis _ _ _ Hi Elp). }
    destruct (windows_conflict_spec (t:=t) (m:=m) true (child :: added) Hma) as (r3 & -> & H3). exists r3. split; [done|].
    destruct r3 as [x|].
    + destruct H3 as [[Hw He] Hn]. split; [|by intros (_ & ? & _)]. apply (conflict_within_evidence genesis t (child :: added)); [done|intros; by apply Hma|done|].
      by apply (member_known genesis), Hma.
    + split; [done|]. split; [done|]. intros a [= <-]. by rewrite H2, Elp.
Qed.

(** ** The evidence of a conflict *)

Lemma wp_resolve_path_conflict genesis {Sem R} injected (E : SqlOutcome Sem R → Tables → bool → Prop) x t restarted
    (Q : VspcPathConflict → Tables → bool → Prop) :
  store_inv genesis t → conflict_evidence t x →
  (∀ e, injected e → E (SqlFailed (AttemptDatabase BeforeCommit e)) t restarted) →
  (∀ child expected stored, tb_identifiers t !! compact_id (pci_child x) = Some child →
     tb_identifiers t !! compact_id (pci_expected_parent x) = Some expected → tb_identifiers t !! compact_id (pci_stored_parent x) = Some stored →
     Q (MkVspcPathConflict child expected stored) t restarted) →
  wp injected (resolve_path_conflict x) Q E t restarted.
Proof.
  intros Hi (_ & _ & [hc Hc] & [he He] & [hs Hs]) HE HQ. unfold resolve_path_conflict.
  set (ids := first_occurrences [] _). apply wp_bind, wp_query; [done|]. set (rows := filter _ (map_to_list (tb_identifiers t))).
  assert (∀ i, i ∈ ids ↔ i = pci_child x ∨ i = pci_expected_parent x ∨ i = pci_stored_parent x) as Hids.
  { intros i. unfold ids. rewrite elem_of_firsts, !elem_of_cons. split; [intros [[?|[?|[?|?%elem_of_nil]]] _]; auto; done|].
    intros H. split; [tauto|by intros ?%elem_of_nil]. }
  assert (∀ id h, (id, h) ∈ rows ↔ tb_identifiers t !! id = Some h ∧ MkCompactId id ∈ ids) as Hrows.
  { intros id h. unfold rows. rewrite list_elem_of_filter, elem_of_map_to_list, elem_of_compact_ids. simpl. tauto. }
  assert (NoDup rows.*1) as Hnd.
  { apply (sublist_NoDup _ (map_to_list (tb_identifiers t)).*1); [apply NoDup_fst_map_to_list|apply fmap_sublist, sublist_filter]. }
  assert (∀ i, i ∈ ids → is_Some (tb_identifiers t !! compact_id i)) as Hknown.
  { intros i [->|[->| ->]]%Hids; by eexists. }
  assert (length rows = length ids) as Hlen.
  { rewrite <- (length_fmap fst rows), <- (length_fmap compact_id ids). apply Permutation_length, NoDup_Permutation; [done| |].
    - apply NoDup_fmap_2; [intros [] []; simpl; congruence|apply NoDup_firsts].
    - intros id. rewrite elem_of_compact_ids. split.
      + intros ([id' h] & -> & Hin)%list_elem_of_fmap. by apply Hrows in Hin as [_ ?].
      + intros Hin. destruct (Hknown _ Hin) as [h Hh]. apply list_elem_of_fmap. exists (id, h). split; [done|]. by apply Hrows. }
  rewrite decide_False by auto. rewrite decode_ids_ok.
  2: { intros id ([id' h] & -> & [Hid _]%Hrows)%list_elem_of_fmap. simpl. apply (st_ids _ _ Hi) in Hid. lia. }
  apply wp_bind, wp_decode; [done|]. intros decoded [= <-]. set (hashes := list_to_map _).
  assert (∀ i h, tb_identifiers t !! compact_id i = Some h → i ∈ ids → hashes !! i = Some h) as Hh.
  { intros i h Hid Hin. unfold hashes. apply elem_of_list_to_map_1.
    - rewrite fst_zip by (rewrite !length_fmap; lia). apply NoDup_fmap_2; [by intros ? ? [=]|done].
    - assert (zip (MkCompactId <$> rows.*1) rows.*2 = (λ kv, (MkCompactId kv.1, kv.2)) <$> rows) as ->.
      { clear. induction rows as [|[] rows IH]; simpl; [done|]. f_equal. exact IH. }
      apply list_elem_of_fmap. exists (compact_id i, h). simpl. split; [by destruct i|]. apply Hrows. by destruct i. }
  rewrite (Hh _ _ Hc), (Hh _ _ He), (Hh _ _ Hs) by (apply Hids; auto).
  apply wp_bind, wp_decode; [done|]. intros ? [= <-]. apply wp_bind, wp_decode; [done|]. intros ? [= <-].
  apply wp_bind, wp_decode; [done|]. intros ? [= <-]. apply wp_ret. by apply HQ.
Qed.
End store_vspc.
