(* ===== verification/StoreChain.v ===== *)
(** The VSPC transaction: what it refuses and the tables it commits; and the
    virtual chain in the tables: the VSPC blocks are one path of selected parents,
    and every operation keeps it so or moves it as its change says. *)

From S2P Require Import Prelude Model Faults Sql Store Resolver Materialization VspcStore.
From S2P Require Import StoreClient StoreInvariant StoreInsert StoreMaterialize StoreVspc.

#[local] Open Scope Z_scope.

Section store_apply.
Context {KH : KaspaHash}.
Implicit Types (t : Tables) (c : Caches) (h : BlockHash) (id : Z) (b : StoredBlock) (i : CompactId) (change : ReadyVspcChange).

(** * The sink *)

Lemma max_id_spec {A} (m : gmap Z A) :
  match max_id m with
  | None => m = ∅
  | Some x => is_Some (m !! x) ∧ ∀ y, is_Some (m !! y) → y ≤ x
  end.
Proof.
  unfold max_id. assert (∀ y, is_Some (m !! y) ↔ y ∈ (map_to_list m).*1) as Hm.
  { intros y. rewrite list_elem_of_fmap. split.
    - intros [a Ha]. exists (y, a). split; [done|by apply elem_of_map_to_list].
    - intros ([z a] & -> & Ha%elem_of_map_to_list). by exists a. }
  destruct (map_to_list m).*1 as [|id ids] eqn:E.
  - apply map_empty. intros y. destruct (m !! y) eqn:Ey; [|done]. exfalso. apply (elem_of_nil (A:=Z) y), Hm. by eexists.
  - split.
    + apply Hm. clear. induction ids as [|x ids IH]; simpl; [left|].
      destruct (Z.max_spec x (foldr Z.max id ids)) as [[_ ->]|[_ ->]]; [|right; left].
      apply elem_of_cons in IH as [->|IH]; [left|right; by right].
    + intros y Hy%Hm. clear -Hy. induction ids as [|x ids IH]; simpl.
      * apply list_elem_of_singleton in Hy. lia.
      * apply elem_of_cons in Hy as [->|[->|Hy]%elem_of_cons]; [|lia|].
        -- specialize (IH ltac:(left)). lia.
        -- specialize (IH ltac:(by right)). lia.
Qed.

(** The sink the tables determine. *)
Lemma select_sink_spec genesis t : store_inv genesis t →
  match select_sink t with
  | None => ∀ id b, tb_blocks t !! id = Some b → sb_is_in_vspc b = false
  | Some (id, h) => tb_identifiers t !! id = Some h ∧ (∃ b, tb_blocks t !! id = Some b ∧ sb_is_in_vspc b = true) ∧
      ∀ id' b, tb_blocks t !! id' = Some b → sb_is_in_vspc b = true → id' ≤ id
  end.
Proof.
  intros Hi. unfold select_sink, vspc_blocks. set (joined := filter _ (filter _ (tb_blocks t))).
  assert (∀ id b, joined !! id = Some b ↔ tb_blocks t !! id = Some b ∧ sb_is_in_vspc b = true) as Hj.
  { intros id b. unfold joined. rewrite !map_lookup_filter_Some. simpl. split; [tauto|]. intros [H1 H2]. split; [done|].
    by apply (st_blocks _ _ Hi _ _ H1). }
  pose proof (max_id_spec joined) as Hmax. destruct (max_id joined) as [id|]; run_bind.
  - destruct Hmax as [[b Hb] Hmax]. apply Hj in Hb as [Hb Hv]. destruct (st_blocks _ _ Hi _ _ Hb) as [[h Hid] _]. rewrite Hid. run_bind.
    split; [done|]. split; [by exists b|]. intros id' b' H1 H2. apply Hmax. exists b'. by apply Hj.
  - intros id b Hb. destruct (sb_is_in_vspc b) eqn:Ev; [|done].
    assert (joined !! id = Some b) as Hx by by apply Hj. rewrite Hmax, lookup_empty in Hx. done.
Qed.

Definition sink_ok t c : Prop :=
  ∀ s, ch_vspc_sink c = Some s → select_sink t = Some (compact_id (cv_id s), cv_hash s).

Lemma wp_load_current_sink genesis {Sem R} injected (E : SqlOutcome Sem R → Tables → bool → Prop) c t restarted
    (Q : CompactId * BlockHash → Tables → bool → Prop) :
  store_inv genesis t → sink_ok t c →
  (∀ e, injected e → E (SqlFailed (AttemptDatabase BeforeCommit e)) t restarted) →
  (select_sink t = None → E (SqlFailed (AttemptStorage Storage_InvalidMetadata)) t restarted) →
  (∀ id h, select_sink t = Some (id, h) → Q (MkCompactId id, h) t restarted) → wp injected (load_current_sink c) Q E t restarted.
Proof.
  intros Hi Hs HE HN HQ. unfold load_current_sink. destruct (ch_vspc_sink c) as [s|] eqn:Es.
  - apply wp_ret. specialize (Hs s Es). apply HQ in Hs. by destruct (cv_id s).
  - apply wp_bind, wp_query; [done|]. pose proof (select_sink_spec genesis t Hi) as Hsel.
    apply wp_bind. destruct (select_sink t) as [[id h]|].
    + apply wp_decode; [done|]. intros [raw hash] [= <- <-]. destruct Hsel as (Hid & _ & _).
      rewrite decode_id_ok by (apply (st_ids _ _ Hi) in Hid; lia). apply wp_bind, wp_decode; [done|]. intros ? [= <-]. apply wp_ret. by apply HQ.
    + apply wp_decode; [|done]. intros e [= <-]. by apply HN.
Qed.

(** * The tables after a change *)

Definition recolored (colors : gmap CompactId BlockColor) id b : StoredBlock :=
  match colors !! MkCompactId id with Some color => set_stored_color color b | None => b end.
Definition moved_block change (colors : gmap CompactId BlockColor) id b : StoredBlock :=
  let b := if decide (MkCompactId id ∈ rc_removed change) then set_membership false (set_stored_color Gray b) else b in
  let b := if decide (MkCompactId id ∈ rc_added change) then set_membership true b else b in
  recolored colors id b.

(** The colors the added blocks give their merge sets, a later one winning. *)
Definition color_members (m : gmap CompactId BlockColor) (s : CachedMergeSets) : gmap CompactId BlockColor :=
  foldl (λ m member, <[member := Red]> m) (foldl (λ m member, <[member := Blue]> m) m (cs_blue s)) (cs_red s).
Definition colors_at t (added : list CompactId) : gmap CompactId BlockColor :=
  foldl (λ m i, match sets_at t i with Some s => color_members m s | None => m end) ∅ added.

Lemma final_colors_spec t (sets : gmap CompactId CachedMergeSets) added :
  (∀ i, i ∈ added → sets !! i = sets_at t i ∧ is_Some (sets_at t i)) → final_colors added sets = Some (colors_at t added).
Proof.
  unfold final_colors, colors_at. generalize (∅ : gmap CompactId BlockColor). induction added as [|i added IH]; intros m Hs; [done|].
  simpl. destruct (Hs i) as [E [s Es]]; [left|]. rewrite E, Es. run_bind. apply IH. intros; apply Hs; by right.
Qed.

Lemma unstyled_moved change colors id b : unstyled (moved_block change colors id b) = unstyled b.
Proof. unfold moved_block, recolored. repeat case_decide; destruct (colors !! _); by destruct b. Qed.

Lemma color_to_sql_range color : 0 ≤ color_to_sql color ≤ 2.
Proof. by destruct color. Qed.

Lemma moved_color change colors id b : 0 ≤ sb_color b ≤ 2 → 0 ≤ sb_color (moved_block change colors id b) ≤ 2.
Proof.
  intros H. unfold moved_block, recolored. repeat case_decide; destruct (colors !! _); simpl; try apply color_to_sql_range; try done; lia.
Qed.

(** Membership after a change. *)
Lemma moved_membership change colors id b : sb_is_in_vspc (moved_block change colors id b) =
  if decide (MkCompactId id ∈ rc_added change) then true
  else if decide (MkCompactId id ∈ rc_removed change) then false else sb_is_in_vspc b.
Proof. unfold moved_block, recolored. repeat case_decide; by destruct (colors !! _). Qed.

Definition moved_tables change (colors : gmap CompactId BlockColor) t : Tables :=
  set_blocks (map_imap (λ id b, Some (moved_block change colors id b)) (tb_blocks t)) t.

Lemma lookup_imap_Some {A B} (f : Z → A → B) (m : gmap Z A) k : map_imap (λ k a, Some (f k a)) m !! k = f k <$> m !! k.
Proof. rewrite map_lookup_imap. by destruct (m !! k). Qed.

Lemma set_blocks_ext (m m' : gmap Z StoredBlock) t : (∀ k, m !! k = m' !! k) → set_blocks m t = set_blocks m' t.
Proof. intros H. f_equal. by apply map_eq. Qed.

Lemma color_blocks_empty t : color_blocks ∅ t = t.
Proof.
  destruct t as [ids seq blocks levels parents metadata]. unfold color_blocks, set_blocks. simpl. f_equal. apply map_eq. intros k.
  rewrite lookup_imap_Some. rewrite lookup_empty. by destruct (blocks !! k).
Qed.

Lemma wp_move {Sem R} injected (E : SqlOutcome Sem R → Tables → bool → Prop) change sets t restarted (Q : () → Tables → bool → Prop) :
  (∀ i, i ∈ rc_added change → sets !! i = sets_at t i ∧ is_Some (sets_at t i)) →
  (∀ e t', injected e → tb_sequence t' = tb_sequence t → E (SqlFailed (AttemptDatabase BeforeCommit e)) t' restarted) →
  Q () (moved_tables change (colors_at t (rc_added change)) t) restarted →
  wp injected (_ ← apply_membership (rc_removed change) (rc_added change); apply_merge_set_colors (rc_added change) sets) Q E t restarted.
Proof.
  intros Hsets HE HQ. set (colors := colors_at t (rc_added change)) in *.
  set (t1 := set_blocks (map_imap (λ id b, Some (if decide (MkCompactId id ∈ rc_removed change)
    then set_membership false (set_stored_color Gray b) else b)) (tb_blocks t)) t).
  set (t2 := set_blocks (map_imap (λ id b, Some (if decide (MkCompactId id ∈ rc_added change) then set_membership true b else b)) (tb_blocks t1)) t1).
  assert (∀ Q', Q' tt t2 restarted → wp injected (apply_membership (rc_removed change) (rc_added change)) Q' E t restarted) as Hmem.
  { intros Q' HQ'. unfold apply_membership. apply wp_bind.
    assert (∀ Q1 : () → Tables → bool → Prop, Q1 tt t1 restarted → wp injected (match rc_removed change with
      | [] => mret ()
      | _ => stmt (λ t, (update_block (λ b, set_membership false (set_stored_color Gray b)) (rc_removed change) t, Ok ()))
      end) Q1 E t restarted) as Hrem.
    { intros Q1 HQ1. assert (rc_removed change = [] → t1 = t) as Hnil.
      { intros En. unfold t1. destruct t as [? ? blocks ? ? ?]. unfold set_blocks. simpl. f_equal. apply map_eq. intros k.
        rewrite lookup_imap_Some, En. destruct (blocks !! k); [|done]. cbn [fmap option_fmap option_map]. case_decide as Hd; [by apply elem_of_nil in Hd|done]. }
      destruct (rc_removed change) as [|r removed] eqn:Er; [apply wp_ret; by rewrite <- (Hnil eq_refl)|].
      apply wp_stmt; [intros e He; by apply HE|done|]. intros t' [] [= <-].
      assert (update_block (λ b, set_membership false (set_stored_color Gray b)) (r :: removed) t = t1) as ->; [|done].
      unfold update_block, t1. apply set_blocks_ext. intros k. rewrite !lookup_imap_Some. destruct (tb_blocks t !! k); [|done]. simpl. f_equal.
      apply decide_ext. apply (elem_of_compact_ids (r :: removed)). }
    apply Hrem, wp_stmt; [intros e He; by apply HE|done|]. intros t' [] [= <-].
    assert (update_block (set_membership true) (rc_added change) t1 = t2) as ->; [|done].
    unfold update_block, t2. apply set_blocks_ext. intros k. rewrite !lookup_imap_Some. destruct (tb_blocks t1 !! k); [|done]. simpl. f_equal.
    apply decide_ext. apply elem_of_compact_ids. }
  assert (moved_tables change colors t = color_blocks colors t2) as Ecol.
  { unfold moved_tables, color_blocks. change (set_blocks ?m t2) with (set_blocks m t). apply set_blocks_ext. intros k.
    rewrite lookup_imap_Some. unfold t2, t1. simpl. rewrite !lookup_imap_Some. by destruct (tb_blocks t !! k). }
  apply wp_bind, Hmem. unfold apply_merge_set_colors. rewrite (final_colors_spec t) by done. fold colors.
  apply wp_bind, wp_expect; [done|]. intros ? [= <-]. case_decide as Hd.
  - apply wp_ret. rewrite Ecol, Hd, color_blocks_empty in HQ. done.
  - apply wp_stmt; [intros e He; by apply HE|done|]. intros t' [] [= <-]. by rewrite <- Ecol.
Qed.

Lemma moved_restyled genesis change colors t : store_inv genesis t → restyled t (moved_tables change colors t).
Proof.
  intros Hi. pose proof (st_sequence _ _ Hi). split; try done; [simpl; lia| |].
  - intros id. unfold moved_tables. simpl. rewrite lookup_imap_Some. destruct (tb_blocks t !! id); [|done]. simpl. f_equal. apply unstyled_moved.
  - intros id b. unfold moved_tables. simpl. rewrite lookup_imap_Some. intros (b0 & Eb & ->)%fmap_Some. apply moved_color.
    by destruct (st_blocks _ _ Hi _ _ Eb) as [_ (_ & _ & ?)].
Qed.

(** Two VSPC blocks that the change would leave on one level. *)
Definition shared_level t : Prop :=
  ∃ id id' b b', id ≠ id' ∧ tb_blocks t !! id = Some b ∧ tb_blocks t !! id' = Some b' ∧
    sb_is_in_vspc b = true ∧ sb_is_in_vspc b' = true ∧ sb_level b = sb_level b'.

Lemma wp_update_level_scores genesis {Sem R} injected (E : SqlOutcome Sem R → Tables → bool → Prop) t t2 levels restarted
    (Q : list LevelCommitted → Tables → bool → Prop) :
  store_inv genesis t → restyled t t2 → tb_sequence t2 = tb_sequence t → tb_levels t2 = tb_levels t → (∀ l, l ∈ levels → is_Some (tb_levels t !! Z.of_N l)) →
  (∀ id b b', tb_blocks t !! id = Some b → tb_blocks t2 !! id = Some b' → sb_is_in_vspc b ≠ sb_is_in_vspc b' →
     sb_level b ∈ Z.of_N <$> levels) →
  (∀ e t', injected e ∨ (e = cardinality_violation ∧ shared_level t2) → tb_sequence t' = tb_sequence t →
     E (SqlFailed (AttemptDatabase BeforeCommit e)) t' restarted) →
  (∀ t', store_inv genesis t' → restyled t t' → tb_sequence t' = tb_sequence t → tb_blocks t' = tb_blocks t2 →
     Q (omap (snapshot_at t') levels) t' restarted) →
  wp injected (update_level_scores levels) Q E t2 restarted.
Proof.
  intros Hi Hr Es2 El Hlevels Hflags HE HQ. unfold update_level_scores. pose proof (rescore_spec levels t2 (tb_levels t2)) as Hsp.
  apply wp_bind. destruct (rescore levels t2 (tb_levels t2)) as [rows|e] eqn:Ers.
  2: { apply wp_stmt; [intros e0 He; apply HE; [by left|done]| |by rewrite Ers].
       intros t' e'. rewrite Ers. intros [= <- <-]. apply HE; [|done]. right.
       destruct Hsp as (l & _ & (-> & id & id' & b & b' & Hne & H1 & H2 & [L1 V1] & [L2 V2])%current_score_Err). split; [done|].
       exists id, id', b, b'. split_and!; [done..|congruence]. }
  set (t' := set_levels rows t2).
  assert (∀ l, ls_size <$> rows !! l = ls_size <$> tb_levels t !! l) as Hsz.
  { intros l. specialize (Hsp l). rewrite El in Hsp. destruct (decide _) as [[_ _]|_]; [|by rewrite Hsp].
    destruct Hsp as (row & score & Erow & _ & ->). by rewrite Erow. }
  assert (restyled t t') as Hr'.
  { destruct Hr as [R1 R2 R3 R4 R5 R6 R7]. split; try done. }
  assert (store_inv genesis t') as Hi'.
  { apply (restyled_inv genesis t); [done|done|]. intros l row' Erow'. simpl in Erow'.
    assert (current_score l t' = current_score l t2) as -> by done. specialize (Hsp l). rewrite El in Hsp.
    destruct (decide (l ∈ Z.of_N <$> levels ∧ is_Some (tb_levels t !! l))) as [_|Hn].
    - destruct Hsp as (row & score & _ & Hs & Er'). rewrite Er' in Erow'. by injection Erow' as <-.
    - rewrite Hsp in Erow'. destruct (st_levels _ _ Hi _ _ Erow') as (_ & _ & Hs & _).
      assert (l ∉ Z.of_N <$> levels) as Hl by (intros Hl; apply Hn; split; [done|by eexists]).
      revert Hs. apply current_score_ext.
      + intros id b2 Eb2 [L V]. destruct (restyled_block _ _ _ _ Hr Eb2) as (b & Eb & Hu). exists b. split; [done|].
        pose proof (unstyled_eq _ _ Hu) as (_ & Ed & Elv & _). split; [|by symmetry].
        split; [congruence|]. destruct (decide (sb_is_in_vspc b = sb_is_in_vspc b2)) as [->|Hf]; [done|].
        exfalso. apply Hl. rewrite <- L, Elv. by apply (Hflags id b b2).
      + intros id b Eb [L V]. destruct (restyled_block' _ _ _ _ Hr Eb) as (b2 & Eb2 & Hu). exists b2. split; [done|].
        pose proof (unstyled_eq _ _ Hu) as (_ & Ed & Elv & _). split; [|by symmetry].
        split; [congruence|]. destruct (decide (sb_is_in_vspc b = sb_is_in_vspc b2)) as [<-|Hf]; [done|].
        exfalso. apply Hl. rewrite <- L. by apply (Hflags id b b2). }
  destruct (select_levels_spec genesis t' true levels Hi') as [Hlen Hdec].
  { intros l Hl. simpl. apply (fmap_is_Some ls_size). rewrite Hsz, fmap_is_Some. by apply Hlevels. }
  apply wp_stmt; [intros e0 He; apply HE; [by left|done]|by rewrite Ers|].
  intros t3 snapshots. rewrite Ers. intros [= <- <-]. fold t'. rewrite decide_False by auto. rewrite Hdec.
  apply wp_decode; [done|]. intros ? [= <-]. by apply HQ.
Qed.

(** * The attempt *)

(** What the transaction refuses. *)
Definition vspc_refused t change (s : VspcSemanticError) : Prop :=
  match s with
  | Semantic_SourceDiscontinuity =>
    (∀ id h, select_sink t = Some (id, h) → (MkCompactId id, h) ≠ (vp_id (rc_source change), vp_hash (rc_source change))) ∨
    (∃ i, head (rc_removed change) = Some i ∧ i ≠ vp_id (rc_source change))
  | Semantic_MemberNotMaterialized i => i ∈ rc_removed change ++ rc_added change ∧ tb_blocks t !! compact_id i = None
  | Semantic_PathDiscontinuity x => ¬ path_checked t change ∧
    ∃ child expected stored, parent_at t child = Some stored ∧ stored ≠ expected ∧
      tb_identifiers t !! compact_id child = Some (conflict_child x) ∧ tb_identifiers t !! compact_id expected = Some (conflict_expected_parent x) ∧
      tb_identifiers t !! compact_id stored = Some (conflict_stored_parent x)
  end.

Definition member_levels t change : list N :=
  omap (λ i, coord_level ∘ cm_coordinate <$> member_at t i) (first_occurrences [] (rc_removed change ++ rc_added change)).

(** What it commits. *)
Record moved (genesis : BlockHash) change t t' (outcome : VspcCommitOutcome) : Prop := {
  mv_inv : store_inv genesis t';
  mv_source : select_sink t = Some (compact_id (vp_id (rc_source change)), vp_hash (rc_source change));
  mv_first : ∀ i, head (rc_removed change) = Some i → i = vp_id (rc_source change);
  mv_members : ∀ i, i ∈ rc_removed change ++ rc_added change → is_Some (tb_blocks t !! compact_id i);
  mv_checked : path_checked t change;
  mv_restyled : restyled t t';
  mv_blocks : ∀ id, tb_blocks t' !! id = moved_block change (colors_at t (rc_added change)) id <$> tb_blocks t !! id;
  mv_outcome : outcome = MkVspcCommitOutcome (rc_destination change)
    (omap (snapshot_at t') (btree_levels (member_levels t change)))
}.

(** The failures of the transaction before its commit. *)
Definition apply_failed (injected : SqlxError → Prop) t change (e : TransactionAttemptError VspcSemanticError) : Prop :=
  match e with
  | AttemptSemantic s => vspc_refused t change s
  | AttemptStorage e => e = Storage_InvalidMetadata ∧ select_sink t = None
  | AttemptDatabase BeforeCommit e =>
    injected e ∨ (e = cardinality_violation ∧ shared_level (moved_tables change (colors_at t (rc_added change)) t))
  | AttemptDatabase AtCommit _ => False
  end.

Definition vspc_published t success : Prop :=
  (∀ i x, (i, x) ∈ vs_member_cache_updates success → member_at t i = Some x) ∧
  (∀ i x, (i, x) ∈ vs_merge_set_cache_updates success → sets_at t i = Some x).

Lemma elem_of_distinct_member_ids change i : i ∈ distinct_member_ids change ↔ i ∈ rc_removed change ++ rc_added change.
Proof.
  unfold distinct_member_ids. rewrite elem_of_firsts. split; [by intros [? _]|]. intros ?. split; [done|by intros ?%elem_of_nil].
Qed.

Lemma member_levels_spec t (m : gmap CompactId CachedMaterializedBlock) ids :
  (∀ i, i ∈ ids → m !! i = member_at t i ∧ is_Some (member_at t i)) →
  mapM (λ i, coord_level ∘ cm_coordinate <$> m !! i) ids = Some (omap (λ i, coord_level ∘ cm_coordinate <$> member_at t i) ids).
Proof.
  unfold omap. induction ids as [|i ids IH]; intros Hm; [done|]. cbn [mapM]. destruct (Hm i) as [E [x Ex]]; [left|].
  rewrite E, Ex. simpl. rewrite Ex. simpl. rewrite IH by (intros; apply Hm; by right). done.
Qed.

Lemma elem_of_member_levels t change l : l ∈ member_levels t change ↔
  ∃ i b, i ∈ rc_removed change ++ rc_added change ∧ tb_blocks t !! compact_id i = Some b ∧ l = Z.to_N (sb_level b).
Proof.
  unfold member_levels. rewrite list_elem_of_omap. split.
  - intros (i & Hi & E). apply elem_of_distinct_member_ids in Hi. unfold member_at in E.
    destruct (tb_blocks t !! compact_id i) as [b|] eqn:Eb; [|done]. simpl in E. injection E as <-. by exists i, b.
  - intros (i & b & Hi & Eb & ->). exists i. split; [by apply elem_of_distinct_member_ids|]. unfold member_at. by rewrite Eb.
Qed.

Lemma apply_attempt_ok genesis injected c change t :
  store_inv genesis t → caches_ok t c → sink_ok t c → rc_added change ≠ [] →
  body_ok keep_sequence (apply_attempt c change) injected t
    (λ success t', moved genesis change t t' (vs_outcome success) ∧ vspc_published t success)
    (λ _, False) (apply_failed injected t change) False (rolled_from t).
Proof.
  intros Hi Hc Hsink Hne. pose proof (st_sequence _ _ Hi) as Hseq.
  assert (∀ now, tb_sequence now = tb_sequence t → rolled_from t (keep_sequence now t)) as Hroll
    by (intros now E; apply (rolled_from_keep_now genesis); [done|lia]).
  assert (∀ e, injected e → rolled_from t (keep_sequence t t) ∧ apply_failed injected t change (AttemptDatabase BeforeCommit e)) as Hinj
    by (intros e He; split; [by apply Hroll|by left]).
  unfold body_ok, apply_attempt. apply wp_bind, wp_begin; [done|].
  apply wp_bind, (wp_load_current_sink genesis); [done|done|done|intros En; split; [by apply Hroll|done]|]. intros sid sh Esink.
  case_decide as Hsrc.
  { apply wp_rollback; [done|]. split; [by apply Hroll|]. left. intros id h E. rewrite E in Esink. by injection Esink as -> ->. }
  injection Hsrc as Hsid Hsh. rewrite Hsh in Esink.
  assert (sid = compact_id (vp_id (rc_source change))) as Esid by by rewrite <- Hsid. rewrite Esid in Esink. clear sid Hsid Esid sh Hsh.
  pose proof (select_sink_spec genesis t Hi) as Hsel. rewrite Esink in Hsel. destruct Hsel as (Hsrcid & _ & _).
  apply wp_bind, (wp_load_members genesis); [done..|]. intros m updates Hm Hup.
  assert (∀ i, i ∈ rc_removed change ++ rc_added change → m !! i = member_at t i) as Hm' by (intros; by apply Hm, elem_of_distinct_member_ids).
  destruct (list_find _ _) as [[k i]|] eqn:Efind.
  { apply list_find_Some in Efind as (Ek & Hnone & _). apply list_elem_of_lookup_2 in Ek. apply wp_rollback; [done|]. split; [by apply Hroll|].
    split; [done|]. rewrite Hm' in Hnone by done. unfold member_at in Hnone. by apply fmap_None in Hnone. }
  assert (∀ i, i ∈ rc_removed change ++ rc_added change → m !! i = member_at t i ∧ is_Some (member_at t i)) as Hmem.
  { intros i Hin. split; [by apply Hm'|]. apply list_find_None in Efind. rewrite Forall_forall in Efind. specialize (Efind i Hin).
    rewrite Hm' in Efind by done. by apply not_eq_None_Some. }
  case_decide as Hfirst.
  { apply wp_rollback; [done|]. split; [by apply Hroll|]. right. destruct (rc_removed change) as [|first removed]; [done|]. by exists first. }
  destruct (first_path_conflict_spec genesis t m change Hi ltac:(by eexists) Hne Hmem) as (r & Er & Hr). rewrite Er.
  apply wp_bind, wp_expect; [done|]. intros ? [= <-]. destruct r as [x|].
  { apply wp_bind, (wp_resolve_path_conflict genesis); [done|apply Hr|done|]. intros child expected stored H1 H2 H3.
    apply wp_rollback; [done|]. split; [by apply Hroll|]. destruct Hr as [(P1 & P2 & _) Hn]. split; [done|].
    exists (pci_child x), (pci_expected_parent x), (pci_stored_parent x). done. }
  assert (∀ i, i ∈ rc_removed change ++ rc_added change → is_Some (tb_blocks t !! compact_id i)) as Hblocks.
  { intros i Hin. apply (fmap_is_Some cached_block). by apply Hmem. }
  apply wp_bind, (wp_load_merge_sets genesis); [done|done|intros; apply Hblocks, elem_of_app; by right|done|].
  intros sets set_updates Hsets Hsup. set (t2 := moved_tables change (colors_at t (rc_added change)) t) in *.
  pose proof (moved_restyled genesis change (colors_at t (rc_added change)) t Hi) as Hr2. fold t2 in Hr2.
  assert (∀ e t', injected e → tb_sequence t' = tb_sequence t →
    rolled_from t (keep_sequence t' t) ∧ apply_failed injected t change (AttemptDatabase BeforeCommit e)) as Hinj'
    by (intros e t' He E; split; [by apply Hroll|by left]).
  apply (wp_bind_assoc injected). apply wp_bind, (wp_move _ _ change sets t); [|done|].
  { intros i Hin. split; [by apply Hsets|]. unfold sets_at. rewrite fmap_is_Some. apply Hblocks, elem_of_app. by right. }
  fold t2. rewrite (member_levels_spec t) by (intros i Hin; by apply Hmem, elem_of_distinct_member_ids).
  apply wp_bind, wp_expect; [done|]. intros ? [= <-]. change (omap _ (distinct_member_ids change)) with (member_levels t change).
  apply wp_bind, (wp_update_level_scores genesis _ _ t t2); [done|done|done|done| | | |].
  - intros l Hl. apply elem_of_btree_levels, elem_of_member_levels in Hl as (i & b & _ & Eb & ->).
    destruct (st_blocks _ _ Hi _ _ Eb) as [_ (_ & [[? _] _] & _)]. rewrite Z2N.id by lia. by apply (st_leveled _ _ Hi (compact_id i)).
  - intros id b b' Eb Eb' Hf. unfold t2, moved_tables in Eb'. simpl in Eb'. rewrite lookup_imap_Some, Eb in Eb'. injection Eb' as <-.
    rewrite moved_membership in Hf. destruct (st_blocks _ _ Hi _ _ Eb) as [_ (_ & [[? _] _] & _)].
    apply list_elem_of_fmap. exists (Z.to_N (sb_level b)). split; [lia|]. apply elem_of_btree_levels, elem_of_member_levels.
    exists (MkCompactId id), b. split; [|done]. apply elem_of_app. destruct (decide (MkCompactId id ∈ rc_added change)); [by right|].
    destruct (decide (MkCompactId id ∈ rc_removed change)); [by left|done].
  - intros e t' [He|He] Hs; [by apply Hinj'|]. split; [by apply Hroll|by right].
  - intros t' Hi' Hr' Es' Eb'. apply wp_ret. split; [|by apply Hroll].
    split; [|done]. split; try done.
    + intros i Ei. rewrite Ei in Hfirst. done.
    + intros id. rewrite Eb'. unfold t2, moved_tables. simpl. by rewrite lookup_imap_Some.
Qed.
End store_apply.

Section store_chain.
Context {KH : KaspaHash}.
Implicit Types (t : Tables) (c : Caches) (h : BlockHash) (id : Z) (b : StoredBlock) (i : CompactId) (change : ReadyVspcChange)
  (path : list CompactId).

(** [path] is the virtual chain of the tables, from its root to its sink. *)
Record chain t path : Prop := {
  cn_members : ∀ id b, tb_blocks t !! id = Some b → sb_is_in_vspc b = true ↔ MkCompactId id ∈ path;
  cn_blocks : ∀ i, i ∈ path → is_Some (tb_blocks t !! compact_id i);
  cn_linked : linked_up t path;
  cn_root : ∀ i p, head path = Some i → parent_at t i = Some p → tb_blocks t !! compact_id p = None
}.

(** ** Linked paths *)

Lemma linked_up_cons t a path : linked_up t (a :: path) ↔ (∀ b : CompactId, head path = Some b → parent_at t b = Some a) ∧ linked_up t path.
Proof.
  destruct path as [|b path]; simpl; [split; [by intros _|done]|]. split.
  - intros [H1 H2]. split; [|done]. by intros x [= <-].
  - intros [H1 H2]. split; [by apply H1|done].
Qed.

Lemma linked_up_app t p1 p2 : linked_up t (p1 ++ p2) ↔
  linked_up t p1 ∧ linked_up t p2 ∧ ∀ a b : CompactId, last p1 = Some a → head p2 = Some b → parent_at t b = Some a.
Proof.
  induction p1 as [|a p1 IH].
  { simpl. split; [by intros; split_and!|tauto]. }
  rewrite <- app_comm_cons, !linked_up_cons, IH. destruct p1 as [|a' p1].
  - simpl. split; [intros (H1 & _ & H2 & _); split_and!; [done|done|done|]; intros x y [= <-]; apply H1|].
    intros ((_ & _) & H2 & H3). split_and!; [intros y; by apply H3|done|done|done].
  - simpl. split; [intros (H1 & H2 & H3 & H4)|intros ((H1 & H2) & H3 & H4)]; by split_and!.
Qed.

Lemma linked_up_ext t t' path : (∀ i, i ∈ path → parent_at t' i = parent_at t i) → linked_up t path → linked_up t' path.
Proof.
  induction path as [|a path IH]; intros He; [done|]. rewrite !linked_up_cons. intros [H1 H2]. split.
  - intros b Eb. rewrite He; [by apply H1|]. right. destruct path; [done|]. injection Eb as ->. left.
  - apply IH; [|done]. intros i Hi. apply He. by right.
Qed.

(** A removed path, read from the sink down, is a suffix of the chain. *)
Lemma linked_down_suffix t path removed :
  linked_up t path → linked_down t removed → removed ≠ [] → head removed = last path → (∀ i, i ∈ removed → is_Some (tb_blocks t !! compact_id i)) →
  (∀ i p, head path = Some i → parent_at t i = Some p → tb_blocks t !! compact_id p = None) →
  ∃ front, path = front ++ reverse removed.
Proof.
  revert path. induction removed as [|r removed IH]; intros path Hup Hdown Hne Hlast Hblocks Hroot; [done|].
  simpl in Hlast. symmetry in Hlast. apply last_Some in Hlast as [front ->].
  destruct removed as [|r' removed]; [exists front; done|]. simpl in Hdown. destruct Hdown as [Hrr Hdown].
  apply linked_up_app in Hup as (Hf & _ & Hj). destruct front as [|f front _] using rev_ind.
  { exfalso. assert (is_Some (tb_blocks t !! compact_id r')) as [b Hb] by (apply Hblocks; right; left).
    rewrite (Hroot r r') in Hb; done. }
  assert (r' = f) as ->.
  { assert (parent_at t r = Some f) as E by (apply Hj; [by rewrite last_snoc|done]). congruence. }
  destruct (IH (front ++ [f])) as [front' E]; [done|done|done|by rewrite last_snoc|intros; apply Hblocks; by right| |].
  { intros i p Ei. apply Hroot. destruct front; done. }
  exists front'. by rewrite E, (reverse_cons (f :: removed) r), <- app_assoc.
Qed.

Lemma linked_ascending genesis t path a : store_inv genesis t → linked_up t path → last path = Some a →
  ∀ i, i ∈ path → compact_id i ≤ compact_id a.
Proof.
  intros Hi. induction path as [|x path IH]; [done|]. intros Hl Ela i Hin. apply linked_up_cons in Hl as [H1 H2].
  destruct path as [|y path].
  - injection Ela as ->. apply list_elem_of_singleton in Hin as ->. lia.
  - assert (∀ j, j ∈ y :: path → compact_id j ≤ compact_id a) as Hall by (intros j Hj; by apply IH).
    apply elem_of_cons in Hin as [->|Hin]; [|by apply Hall].
    destruct (parent_known genesis t y x Hi (H1 y eq_refl)) as [_ Hlt]. specialize (Hall y ltac:(left)). lia.
Qed.

Lemma chain_sink genesis t path : store_inv genesis t → chain t path →
  match last path with
  | None => select_sink t = None
  | Some a => ∃ h, select_sink t = Some (compact_id a, h) ∧ tb_identifiers t !! compact_id a = Some h
  end.
Proof.
  intros Hi Hc. pose proof (select_sink_spec genesis t Hi) as Hs. destruct (last path) as [a|] eqn:El.
  - assert (a ∈ path) as Ha by by apply last_Some_elem_of.
    destruct (cn_blocks _ _ Hc a Ha) as [b Hb].
    assert (sb_is_in_vspc b = true) as Hv by (apply (cn_members _ _ Hc _ _ Hb); by destruct a).
    destruct (select_sink t) as [[id h]|]; [|by rewrite (Hs _ _ Hb) in Hv].
    destruct Hs as (Hid & (b' & Hb' & Hv') & Hmax). exists h.
    assert (id = compact_id a) as ->; [|done]. specialize (Hmax _ _ Hb Hv).
    apply (cn_members _ _ Hc _ _ Hb') in Hv'. pose proof (linked_ascending genesis t path a Hi (cn_linked _ _ Hc) El _ Hv') as Hle. simpl in Hle. lia.
  - apply last_None in El as ->. destruct (select_sink t) as [[id h]|]; [|done]. destruct Hs as (_ & (b & Hb & Hv) & _).
    apply (cn_members _ _ Hc _ _ Hb) in Hv. by apply elem_of_nil in Hv.
Qed.

(** ** Levels along the chain *)

Lemma selected_parent_level genesis t id b p : store_inv genesis t → tb_blocks t !! id = Some b →
  tb_blocks t !! sb_selected_parent_id b = Some p → sb_level p < sb_level b.
Proof.
  intros Hi Hb Hp. destruct (st_blocks _ _ Hi _ _ Hb) as [[h Hid] _].
  destruct (st_selected _ _ Hi _ _ _ Hb Hid) as [[_ [r Hr]]|(_ & Hn & _)]; [|congruence].
  destruct (st_parents _ _ Hi _ _ _ Hr) as (_ & _ & b' & Hb' & -> & Hl). assert (b' = b) as -> by congruence.
  unfold relation_of in Hl. by rewrite Hp in Hl.
Qed.

Definition level_at t i : Z := default 0 (sb_level <$> tb_blocks t !! compact_id i).

Lemma linked_levels genesis t path a : store_inv genesis t → linked_up t path → (∀ i, i ∈ path → is_Some (tb_blocks t !! compact_id i)) →
  head path = Some a → ∀ i, i ∈ path → i = a ∨ level_at t a < level_at t i.
Proof.
  intros Hi. revert a. induction path as [|x path IH]; [done|]. intros a Hl Hb [= ->] i Hin. apply linked_up_cons in Hl as [H1 H2].
  apply elem_of_cons in Hin as [->|Hin]; [by left|right]. destruct path as [|y path]; [by apply elem_of_nil in Hin|].
  assert (level_at t a < level_at t y) as Hay.
  { specialize (H1 y eq_refl). destruct (Hb a) as [ba Ea]; [left|]. destruct (Hb y) as [by_ Ey]; [right; left|].
    unfold level_at. rewrite Ea, Ey. simpl. apply (selected_parent_level genesis t (compact_id y)); [done|done|].
    unfold parent_at, member_at in H1. rewrite Ey in H1. simpl in H1. injection H1 as <-. done. }
  destruct (IH y H2 ltac:(intros; apply Hb; by right) eq_refl i Hin) as [->|Hlt]; lia.
Qed.

Lemma linked_levels_distinct genesis t path : store_inv genesis t → linked_up t path → (∀ i, i ∈ path → is_Some (tb_blocks t !! compact_id i)) →
  ∀ i j, i ∈ path → j ∈ path → level_at t i = level_at t j → i = j.
Proof.
  intros Hi. induction path as [|x path IH]; intros Hl Hb i j Hin Hjn He; [by apply elem_of_nil in Hin|].
  pose proof (linked_levels genesis t (x :: path) x Hi Hl Hb eq_refl) as Hx. apply linked_up_cons in Hl as [_ Hl].
  pose proof (Hx i Hin) as Hxi. pose proof (Hx j Hjn) as Hxj.
  apply elem_of_cons in Hin as [->|Hin]; apply elem_of_cons in Hjn as [->|Hjn]; [done|destruct Hxj; [done|lia]|destruct Hxi; [done|lia]|].
  apply IH; try done. intros; apply Hb; by right.
Qed.

(** No two blocks of a chain share a level. *)
Lemma chain_levels genesis t path : store_inv genesis t → chain t path → ¬ shared_level t.
Proof.
  intros Hi Hc (id & id' & b & b' & Hne & Hb & Hb' & Hv & Hv' & Hl). apply Hne.
  assert (MkCompactId id = MkCompactId id') as E; [|by injection E].
  apply (linked_levels_distinct genesis t path Hi (cn_linked _ _ Hc) (cn_blocks _ _ Hc)).
  - by apply (cn_members _ _ Hc _ _ Hb).
  - by apply (cn_members _ _ Hc _ _ Hb').
  - unfold level_at. simpl. by rewrite Hb, Hb'.
Qed.

Lemma linked_above genesis t path x : store_inv genesis t → linked_up t (x :: path) → ∀ y, y ∈ path → compact_id x < compact_id y.
Proof.
  intros Hi. revert x. induction path as [|z path IH]; intros x Hl y Hin; [by apply elem_of_nil in Hin|].
  apply linked_up_cons in Hl as [H1 H2]. destruct (parent_known genesis t z x Hi (H1 z eq_refl)) as [_ Hlt].
  apply elem_of_cons in Hin as [->|Hin]; [done|]. specialize (IH z H2 y Hin). lia.
Qed.

Lemma linked_NoDup genesis t path : store_inv genesis t → linked_up t path → NoDup path.
Proof.
  intros Hi. induction path as [|x path IH]; [constructor|]. intros Hl. constructor.
  - intros Hin. pose proof (linked_above genesis t path x Hi Hl x Hin). lia.
  - apply IH. by apply linked_up_cons in Hl as [_ ?].
Qed.

(** * Moving the chain *)

(** What the processor promises of a change: its destination is the last added
    block, and an added-only path is linked, for the transaction checks only
    its first block. *)
Record change_contract t change : Prop := {
  cc_destination : last (rc_added change) = Some (vp_id (rc_destination change));
  cc_hash : tb_identifiers t !! compact_id (vp_id (rc_destination change)) = Some (vp_hash (rc_destination change));
  cc_linked : rc_removed change = [] → linked_up t (rc_added change)
}.

Lemma restyled_parent t t' i : restyled t t' → parent_at t' i = parent_at t i.
Proof.
  intros Hr. unfold parent_at, member_at. pose proof (re_blocks _ _ Hr (compact_id i)) as H.
  destruct (tb_blocks t' !! compact_id i) as [b'|], (tb_blocks t !! compact_id i) as [b|]; simpl in *; try done.
  apply (inj Some), unstyled_eq in H. destruct H as (_ & _ & _ & _ & -> & _). done.
Qed.

Lemma restyled_None t t' id : restyled t t' → tb_blocks t !! id = None → tb_blocks t' !! id = None.
Proof.
  intros Hr E. destruct (tb_blocks t' !! id) as [b'|] eqn:E'; [|done]. destruct (restyled_block _ _ _ _ Hr E') as (b & ? & _). congruence.
Qed.

Lemma head_reverse_last {A} (x : A) l : head (reverse (x :: l)) = Some (List.last (x :: l) x).
Proof.
  assert (∀ (l : list A) x d, head (reverse (x :: l)) = Some (List.last (x :: l) d)) as H; [|apply H].
  clear. induction l as [|y l IH]; intros x d; [done|]. rewrite reverse_cons.
  change (List.last (x :: y :: l) d) with (List.last (y :: l) d). specialize (IH y d).
  destruct (reverse (y :: l)); [done|]. exact IH.
Qed.

(** A change the transaction admits, at these tables. *)
Record ready_change t change : Prop := {
  rd_source : select_sink t = Some (compact_id (vp_id (rc_source change)), vp_hash (rc_source change));
  rd_first : ∀ i, head (rc_removed change) = Some i → i = vp_id (rc_source change);
  rd_members : ∀ i, i ∈ rc_removed change ++ rc_added change → is_Some (tb_blocks t !! compact_id i);
  rd_checked : path_checked t change
}.

Lemma moved_ready genesis t t' change outcome : moved genesis change t t' outcome → ready_change t change.
Proof. intros []. by split. Qed.

(** The path a change leaves: the removed suffix goes, the added path comes. *)
Lemma change_path genesis t change path :
  store_inv genesis t → chain t path → ready_change t change → rc_added change ≠ [] →
  (rc_removed change = [] → linked_up t (rc_added change)) →
  ∃ front, path = front ++ reverse (rc_removed change) ∧ linked_up t (front ++ rc_added change) ∧
    (front = [] → ∀ a p, head (rc_added change) = Some a → parent_at t a = Some p → tb_blocks t !! compact_id p = None) ∧
    ∀ i, i ∈ front → i ∉ rc_removed change.
Proof.
  intros Hi Hc Hrd Hne Hlinked.
  assert (last path = Some (vp_id (rc_source change))) as Hlast.
  { pose proof (chain_sink genesis t path Hi Hc) as Hs. destruct (last path) as [a|]; [|by rewrite (rd_source _ _ Hrd) in Hs].
    destruct Hs as (h & Hs & _). rewrite (rd_source _ _ Hrd) in Hs. injection Hs as Hs _. f_equal.
    destruct a, (vp_id (rc_source change)). simpl in Hs. by f_equal. }
  assert (∀ front, path = front ++ reverse (rc_removed change) → ∀ i, i ∈ front → i ∉ rc_removed change) as Hdisj.
  { intros front -> i Hin Hrem. pose proof (linked_NoDup genesis t _ Hi (cn_linked _ _ Hc)) as Hnd.
    apply NoDup_app in Hnd as (_ & Hd & _). apply (Hd i Hin). by apply elem_of_reverse. }
  pose proof (rd_checked _ _ Hrd) as Hck. unfold path_checked in Hck. destruct (rc_removed change) as [|r removed] eqn:Er.
  - exists path. rewrite reverse_nil, app_nil_r. split; [done|]. split; [|split; [by intros ->|intros i _ ?%elem_of_nil; done]].
    apply linked_up_app. split_and!; [apply (cn_linked _ _ Hc)|by apply Hlinked|]. intros a b Ea Eb.
    rewrite Hlast in Ea. injection Ea as <-. by apply Hck.
  - destruct Hck as (Hdown & Hadd & Hjoin).
    destruct (linked_down_suffix t path (r :: removed)) as [front Ef]; [apply (cn_linked _ _ Hc)|done|done| | |apply (cn_root _ _ Hc)|].
    { rewrite Hlast. simpl. f_equal. apply (rd_first _ _ Hrd). by rewrite Er. }
    { intros i Hin. apply (rd_members _ _ Hrd), elem_of_app. left. by rewrite Er. }
    exists front. split; [done|]. pose proof (cn_linked _ _ Hc) as Hl. rewrite Ef in Hl. apply linked_up_app in Hl as (Hf & _ & Hj).
    split; [|split; [|by apply Hdisj]].
    + apply linked_up_app. split_and!; [done|done|]. intros a b Ea Eb. rewrite (Hjoin b Eb). apply Hj; [done|apply head_reverse_last].
    + intros -> a p Ea Ep. rewrite (Hjoin a Ea) in Ep. apply (cn_root _ _ Hc (List.last (r :: removed) r)); [rewrite Ef; apply head_reverse_last|done].
Qed.

(** The members of the path a change leaves. *)
Lemma moved_members t change path front colors id b :
  chain t path → path = front ++ reverse (rc_removed change) → (∀ i, i ∈ front → i ∉ rc_removed change) → tb_blocks t !! id = Some b →
  sb_is_in_vspc (moved_block change colors id b) = true ↔ MkCompactId id ∈ front ++ rc_added change.
Proof.
  intros Hc -> Hdisj Eb. rewrite moved_membership, elem_of_app.
  pose proof (cn_members _ _ Hc _ _ Eb) as Hv. rewrite elem_of_app, elem_of_reverse in Hv.
  destruct (decide (MkCompactId id ∈ rc_added change)) as [|Ha]; [tauto|].
  destruct (decide (MkCompactId id ∈ rc_removed change)) as [Hrem|Hrem].
  - split; [done|]. intros [Hf|?]; [by exfalso; apply (Hdisj _ Hf)|done].
  - rewrite Hv. tauto.
Qed.

Lemma changed_blocks t change path front i :
  chain t path → ready_change t change → path = front ++ reverse (rc_removed change) →
  i ∈ front ++ rc_added change → is_Some (tb_blocks t !! compact_id i).
Proof.
  intros Hc Hrd -> [Hin|Hin]%elem_of_app; [apply (cn_blocks _ _ Hc), elem_of_app; by left|].
  apply (rd_members _ _ Hrd), elem_of_app. by right.
Qed.

Lemma moved_chain genesis t t' change outcome path :
  store_inv genesis t → chain t path → moved genesis change t t' outcome → rc_added change ≠ [] →
  (rc_removed change = [] → linked_up t (rc_added change)) →
  ∃ front, path = front ++ reverse (rc_removed change) ∧ chain t' (front ++ rc_added change).
Proof.
  intros Hi Hc Hm Hne Hlinked. pose proof (mv_restyled _ _ _ _ _ Hm) as Hr. pose proof (moved_ready _ _ _ _ _ Hm) as Hrd.
  destruct (change_path genesis t change path Hi Hc Hrd Hne Hlinked) as (front & Epath & Hup & Hroot & Hdisj).
  exists front. split; [done|]. split.
  - intros id b' Eb'. rewrite (mv_blocks _ _ _ _ _ Hm) in Eb'. apply fmap_Some in Eb' as (b & Eb & ->). by apply (moved_members t change path).
  - intros i Hin. destruct (changed_blocks t change path front i Hc Hrd Epath Hin) as [b Eb].
    destruct (restyled_block' _ _ _ _ Hr Eb) as (b' & -> & _). by eexists.
  - apply (linked_up_ext t); [|done]. intros i _. by apply restyled_parent.
  - intros i p Ei Ep. apply (restyled_None t); [done|]. rewrite (restyled_parent t) in Ep by done. destruct front as [|f front].
    + by apply (Hroot eq_refl i).
    + injection Ei as ->. apply (cn_root _ _ Hc i p); [by rewrite Epath|done].
Qed.

(** No level of the blocks a change writes is rescored twice. *)
Lemma moved_levels_distinct genesis t change path colors :
  store_inv genesis t → chain t path → ready_change t change → rc_added change ≠ [] →
  (rc_removed change = [] → linked_up t (rc_added change)) → ¬ shared_level (moved_tables change colors t).
Proof.
  intros Hi Hc Hrd Hne Hlinked (id & id' & b & b' & Hd & Hb & Hb' & Hv & Hv' & Hl).
  destruct (change_path genesis t change path Hi Hc Hrd Hne Hlinked) as (front & Epath & Hup & _ & Hdisj).
  simpl in Hb, Hb'. rewrite map_lookup_imap in Hb, Hb'. apply bind_Some in Hb as (x & Ex & [= <-]), Hb' as (x' & Ex' & [= <-]).
  apply (moved_members t change path front _ _ _ Hc Epath Hdisj Ex) in Hv. apply (moved_members t change path front _ _ _ Hc Epath Hdisj Ex') in Hv'.
  apply Hd. assert (MkCompactId id = MkCompactId id') as E; [|by injection E].
  apply (linked_levels_distinct genesis t _ Hi Hup); [intros i Hin; by apply (changed_blocks t change path front i)|done|done|].
  unfold level_at. simpl. rewrite Ex, Ex'. simpl. revert Hl. unfold moved_block, recolored. by repeat case_match.
Qed.

(** The selected parent of a chain block is on the chain, or below it all. *)
Lemma chain_parent t path i p : chain t path → i ∈ path → parent_at t i = Some p → is_Some (tb_blocks t !! compact_id p) → p ∈ path.
Proof.
  intros Hc Hin Hp [b Hb]. apply list_elem_of_split in Hin as (l1 & l2 & ->). destruct l1 as [|x l1 _] using rev_ind.
  - by rewrite (cn_root _ _ Hc i p) in Hb.
  - pose proof (cn_linked _ _ Hc) as Hl. apply linked_up_app in Hl as (_ & _ & Hj).
    rewrite (Hj x i) in Hp by (rewrite ?last_snoc; done). injection Hp as ->. apply elem_of_app. left. apply elem_of_app. right. left.
Qed.

(** ** The other operations *)

Lemma inserted_chain genesis block t t' committed path :
  store_inv genesis t → inserted genesis block t t' committed → chain t path → chain t' path.
Proof.
  intros Hi Hn Hc. pose proof (is_blocks _ _ _ _ _ Hn) as Eb. set (own := bc_id committed) in *.
  assert (∀ i, i ∈ path → tb_blocks t' !! compact_id i = tb_blocks t !! compact_id i) as Hsame.
  { intros i Hin. destruct (cn_blocks _ _ Hc i Hin) as [b Hb]. destruct (st_blocks _ _ Hi _ _ Hb) as [Hid _].
    apply (is_last _ _ _ _ _ Hn) in Hid. fold own in Hid. rewrite Eb, lookup_insert_ne; [done|lia]. }
  split.
  - intros id b. rewrite Eb, lookup_insert_Some. intros [[<- <-]|[_ E]]; [|by apply (cn_members _ _ Hc)].
    simpl. split; [done|]. intros Hin. destruct (cn_blocks _ _ Hc _ Hin) as [b Hb]. destruct (st_blocks _ _ Hi _ _ Hb) as [Hid _].
    apply (is_last _ _ _ _ _ Hn) in Hid. simpl in Hid. fold own in Hid. lia.
  - intros i Hin. rewrite Hsame by done. by apply (cn_blocks _ _ Hc).
  - apply (linked_up_ext t); [|apply (cn_linked _ _ Hc)]. intros i Hin. unfold parent_at, member_at. by rewrite Hsame.
  - intros i p Ei Ep. assert (i ∈ path) as Hin by (destruct path; [done|]; injection Ei as ->; left).
    assert (parent_at t i = Some p) as Ep' by (rewrite <- Ep; unfold parent_at, member_at; by rewrite Hsame).
    rewrite Eb, lookup_insert_ne; [by apply (cn_root _ _ Hc i)|]. intros E.
    destruct (parent_known genesis t i p Hi Ep') as [Hid _]. apply (is_last _ _ _ _ _ Hn) in Hid. fold own in Hid. lia.
Qed.

Lemma rebuilt_chain genesis block t' commit : rebuilt genesis block t' commit → chain t' [vp_id (msa_point (rcm_anchor commit))].
Proof.
  intros Hb. pose proof (rb_inv _ _ _ _ Hb) as Hi. set (own := vp_id (msa_point (rcm_anchor commit))).
  pose proof (rb_blocks _ _ _ _ Hb) as Eb. fold own in Eb. split.
  - intros id b. rewrite Eb, lookup_singleton_Some. intros [<- <-]. simpl. split; [|done]. intros _. destruct own. left.
  - intros i ->%list_elem_of_singleton. rewrite Eb, lookup_singleton_eq. by eexists.
  - done.
  - intros i p [= <-] Ep. rewrite Eb. apply lookup_singleton_None. intros E.
    destruct (parent_known genesis t' own p Hi Ep) as [_ Hlt]. lia.
Qed.

Lemma rolled_chain t t' path : rolled_from t t' → chain t path → chain t' path.
Proof. intros (s & _ & ->) [H1 H2 H3 H4]. split; [done|done| |done]. by apply (linked_up_ext t). Qed.
End store_chain.
