(* ===== verification/StoreWorld.v ===== *)
(** The processing client in its world: what every transaction of a mutation
    does, and what every operation does to tables, caches and validity of the
    generation, whatever the database and the connection do. *)

From S2P Require Import Prelude Model Faults Sql Store Resolver Materialization VspcStore.
From S2P Require Import StoreClient StoreInvariant StoreInsert StoreMaterialize StoreVspc StoreChain.

#[local] Open Scope Z_scope.

Section store_operations.
Context {KH : KaspaHash}.
Implicit Types (t : Tables) (c : Caches) (h : BlockHash) (id : Z) (b : StoredBlock) (k : ValidatedDbClient).

(** The faults the environment may inject: any error of a statement, and an
    error of the commit that PostgreSQL's documentation allows. *)
Definition fates_allowed (fates : nat → AttemptFates) : Prop := ∀ n, definite_errors (fates n).
Definition any_error (e : SqlxError) : Prop := True.

Lemma fates_any fates : fates_allowed fates → ∀ n, fates_ok any_error (af_statements (fates n)) ∧ definite_errors (fates n).
Proof. intros H n. split; [by intros e _|apply H]. Qed.

(** The failures an operation reports once its transaction is over. *)
Definition mutation_failure (e : StorageError) : Prop :=
  e = Storage_Persistence RetryExhausted ∨ e = Storage_Persistence DefiniteFailure ∨
  e = Storage_Persistence AmbiguousCommit ∨ e = Storage_ConnectionLost.

Lemma reported_attempt {Sem} injected short (semantic : Sem → Prop) e :
  reported (attempt_failed injected short semantic) e → mutation_failure e.
Proof. unfold reported, mutation_failure. intros [[]|H]. done. Qed.

(** * Materialization *)

Lemma rolled_from_trans t t1 t2 : rolled_from t t1 → rolled_from t1 t2 → rolled_from t t2.
Proof. intros (s & Hs & ->) (s' & Hs' & ->). exists s'. simpl in *. split; [lia|done]. Qed.

Lemma rolled_admission t t1 block policy : rolled_from t t1 → admission t1 block policy = admission t block policy.
Proof. by intros (s & _ & ->). Qed.

Lemma rolled_inserted genesis block t t1 t' committed :
  rolled_from t t1 → inserted genesis block t1 t' committed → inserted genesis block t t' committed.
Proof. intros (s & Hs & ->) []. split; simpl in *; try done. lia. Qed.

Lemma rolled_caches_iff t t1 c : rolled_from t t1 → caches_ok t1 c ↔ caches_ok t c.
Proof. intros (s & _ & ->). split; intros [H1 H2 H3]; by split. Qed.

Lemma rolled_published t t1 success c : rolled_from t t1 → published t1 success c ↔ published t success c.
Proof.
  intros Hr. split; intros (c' & E & Hc & Hs); exists c'; (split; [done|split; [by apply (rolled_caches_iff _ _ c' Hr)|done]]).
Qed.

Lemma materialize_transaction genesis block p daa policy c t fates :
  acceptable genesis block → PreparedBlock_new block = Some p → daa_score_to_sql (vnb_daa_score block) = Ok daa →
  store_inv genesis t → caches_ok t c → fates_allowed fates →
  let '(t', r) := transaction_run keep_sequence (materialize_attempt c p daa policy) RETRY_DELAYS fates t in
  match r with
  | None => level_full t ∧ rolled_from t t'
  | Some (Ok (Ok success)) =>
    (∃ committed, admission t block policy = None ∧ inserted genesis block t t' committed ∧
       as_outcome success = Inserted committed ∧ published t' success c) ∨
    (admission t block policy = Some (Ok (as_outcome success)) ∧ rolled_from t t' ∧ published t' success c)
  | Some (Ok (Err s)) => admission t block policy = Some (Err s) ∧ rolled_from t t'
  | Some (Err e) =>
    mutation_failure e ∧
    (rolled_from t t' ∨
     (e = Storage_Persistence AmbiguousCommit ∧ admission t block policy = None ∧ ∃ committed, inserted genesis block t t' committed))
  end.
Proof.
  intros Hacc Hp Hdaa Hi Hc Hf.
  pose proof (transaction_run_spec keep_sequence (materialize_attempt c p daa policy) any_error
    (λ success _ t', ∃ committed, admission t block policy = None ∧ inserted genesis block t t' committed ∧
       as_outcome success = Inserted committed ∧ published t' success c)
    (λ success, admission t block policy = Some (Ok (as_outcome success)) ∧ published t success c)
    (attempt_failed any_error True (λ s, admission t block policy = Some (Err s)))
    (level_full t) (rolled_from t) RETRY_DELAYS fates t (rolled_from_refl _ _ Hi)) as H.
  lapply H; [clear H; intros H; specialize (H (fates_any _ Hf))|clear H].
  - destruct (transaction_run _ _ _ _ _) as [t' [[[success|s]|e]|]]; [| | |done].
    + destruct H as [(before & _ & committed & H)|[[H1 H2] H3]]; [left; by exists committed|right].
      split_and!; [done|done|]. by apply (rolled_published t t' success c).
    + done.
    + destruct H as [H1 [H2|(H2 & success & before & _ & committed & Ha & Hins & _)]]; (split; [by eapply reported_attempt|]); [by left|].
      right. split_and!; [done|done|by exists committed].
  - intros before Hb. pose proof (rolled_from_inv _ _ _ Hi Hb) as Hib.
    eapply body_ok_mono, (materialize_attempt_ok genesis any_error block p daa policy c before Hacc Hp Hdaa Hib (rolled_from_caches _ _ _ Hb Hc)).
    + intros success t' (committed & H1 & H2 & H3). exists committed. rewrite (rolled_admission t before) in H1 by done.
      split; [done|]. split; [by eapply rolled_inserted|done].
    + intros success [H1 H2]. rewrite (rolled_admission t before) in H1 by done. split; [done|]. by apply (rolled_published t before success c).
    + intros [s|e|[] e]; simpl; try done; [by rewrite (rolled_admission t before) by done|by left].
    + destruct Hb as (s & _ & ->). done.
    + intros t' Hr. by eapply rolled_from_trans.
Qed.
End store_operations.

Section store_world.
Context {KH : KaspaHash}.
Implicit Types (t : Tables) (c : Caches) (h : BlockHash) (id : Z) (b : StoredBlock) (i : CompactId) (change : ReadyVspcChange)
  (path : list CompactId) (k : ValidatedDbClient).

(** * The invariant of a client *)

Record client_inv k : Prop := {
  ci_store : store_inv (cl_genesis_hash k) (cl_tables k);
  ci_chain : ∃ path, chain (cl_tables k) path;
  ci_caches : cl_valid k = true → caches_ok (cl_tables k) (cl_caches k) ∧ sink_ok (cl_tables k) (cl_caches k)
}.

Lemma rolled_sink t t' : rolled_from t t' → select_sink t' = select_sink t.
Proof. by intros (s & _ & ->). Qed.

Lemma rolled_client k t' : client_inv k → rolled_from (cl_tables k) t' → client_inv (set_database t' k).
Proof.
  intros [Hi [path Hc] Hk] Hr. split; simpl.
  - by eapply rolled_from_inv.
  - exists path. by eapply rolled_chain.
  - intros Hv. destruct (Hk Hv) as [H1 H2]. split; [by eapply rolled_from_caches|].
    intros s Hs. rewrite (rolled_sink _ _ Hr). by apply H2.
Qed.

Lemma retired_client k : client_inv k → client_inv (retire k).
Proof. intros [Hi Hc Hk]. by split. Qed.

(** The sink moves only with the chain. *)
Lemma chain_sink_eq genesis genesis' t t' path : store_inv genesis t → store_inv genesis' t' → chain t path → chain t' path →
  (∀ i h, i ∈ path → tb_identifiers t !! compact_id i = Some h → tb_identifiers t' !! compact_id i = Some h) →
  select_sink t' = select_sink t.
Proof.
  intros Hi Hi' Hc Hc' Hids. pose proof (chain_sink _ _ _ Hi Hc) as H1. pose proof (chain_sink _ _ _ Hi' Hc') as H2.
  destruct (last path) as [a|] eqn:El; [|congruence]. destruct H1 as (h1 & -> & E1). destruct H2 as (h2 & -> & E2).
  apply last_Some_elem_of in El. specialize (Hids _ _ El E1). congruence.
Qed.

Lemma inserted_client k t' block committed :
  client_inv k → inserted (cl_genesis_hash k) block (cl_tables k) t' committed → client_inv (set_database t' k).
Proof.
  intros [Hi [path Hc] Hk] Hn. split; simpl.
  - apply (is_inv _ _ _ _ _ Hn).
  - exists path. by eapply inserted_chain.
  - intros Hv. destruct (Hk Hv) as [H1 H2]. split; [by eapply inserted_caches|].
    intros s Hs. rewrite (chain_sink_eq (cl_genesis_hash k) (cl_genesis_hash k) (cl_tables k) t' path); [by apply H2|done| | | |].
    + apply (is_inv _ _ _ _ _ Hn).
    + done.
    + by eapply inserted_chain.
    + intros i h _. apply (is_ids _ _ _ _ _ Hn).
Qed.

Lemma published_client k c : client_inv k → caches_ok (cl_tables k) c → ch_vspc_sink c = ch_vspc_sink (cl_caches k) →
  client_inv (set_caches c k).
Proof.
  intros [Hi Hc Hk] Hok Hs. split; simpl; [done|done|]. intros Hv. destruct (Hk Hv) as [_ H2]. split; [done|].
  intros s. rewrite Hs. apply H2.
Qed.

(** * Materialization *)

(** The database errors of a mutation, with what they leave behind: [t] are
    the tables before, [applied] says that the transaction took effect. *)
Definition mutation_error t k' (applied : Prop) (e : ProcessingDbError) : Prop :=
  ((e = Db_Persistence RetryExhausted ∨ e = Db_Persistence DefiniteFailure) ∧ rolled_from t (cl_tables k') ∧ cl_valid k' = true) ∨
  (e = Db_GenerationLost ∧ rolled_from t (cl_tables k') ∧ cl_valid k' = false) ∨
  (e = Db_Persistence AmbiguousCommit ∧ (rolled_from t (cl_tables k') ∨ applied) ∧ cl_valid k' = false).

Lemma materialize_block_spec k fates block policy p :
  client_inv k → cl_valid k = true → acceptable (cl_genesis_hash k) block → PreparedBlock_new block = Some p → fates_allowed fates →
  let '(k', r) := materialize_block (Ok ()) fates block policy k in
  client_inv k' ∧ cl_genesis_hash k' = cl_genesis_hash k ∧
  match r with
  | None => level_full (cl_tables k) ∧ rolled_from (cl_tables k) (cl_tables k') ∧ cl_valid k' = true
  | Some (Ok (Inserted committed)) =>
    admission (cl_tables k) block policy = None ∧ inserted (cl_genesis_hash k) block (cl_tables k) (cl_tables k') committed ∧
    cl_valid k' = true
  | Some (Ok outcome) =>
    admission (cl_tables k) block policy = Some (Ok outcome) ∧ rolled_from (cl_tables k) (cl_tables k') ∧ cl_valid k' = true
  | Some (Err (IncomingBoundaryIdentity h)) =>
    admission (cl_tables k) block policy = Some (Err (Semantic_IncomingBoundaryIdentity h)) ∧
    rolled_from (cl_tables k) (cl_tables k') ∧ cl_valid k' = true
  | Some (Err (NonMaterializedReferences missing identity_only)) =>
    admission (cl_tables k) block policy = Some (Err (Semantic_NonMaterializedReferences missing identity_only)) ∧
    rolled_from (cl_tables k) (cl_tables k') ∧ cl_valid k' = true
  | Some (Err (Materialize_Database e)) =>
    (e = Db_ScoreOutOfRange DaaScore ∧ (MAX_DAA_SCORE < vnb_daa_score block)%N ∧ k' = k) ∨
    mutation_error (cl_tables k) k'
      (admission (cl_tables k) block policy = None ∧
       ∃ committed, inserted (cl_genesis_hash k) block (cl_tables k) (cl_tables k') committed) e
  end.
Proof.
  intros Hk Hv Ha Hp Hf. pose proof (ci_store _ Hk) as Hi. destruct (ci_caches _ Hk Hv) as [Hc _].
  unfold materialize_block, run_operation. rewrite Hv. cbn [negb]. unfold materialize_operation. rewrite Hp.
  destruct (PreparedBlock_new_Some _ _ Hp) as (_ & _ & _ & _ & _ & _ & _ & _ & Ed & _). rewrite Ed.
  destruct (daa_score_to_sql (vnb_daa_score block)) as [daa|e] eqn:Edaa.
  2: { unfold daa_score_to_sql in Edaa. case_decide; [|done]. injection Edaa as <-. simpl. split; [done|]. split; [done|]. by left. }
  pose proof (materialize_transaction _ block p daa policy _ _ fates Ha Hp Edaa Hi Hc Hf) as H.
  destruct (transaction_run _ _ _ _ _) as [t' [[[success|s]|e]|]].
  - destruct H as [(committed & Had & Hn & Eo & c' & Ep & Hc' & Hs)|(Had & Hr & c' & Ep & Hc' & Hs)]; cbn [set_database cl_caches]; rewrite Ep.
    + rewrite Eo. split; [|split; [done|by split_and!]].
      apply (published_client (set_database t' k)); [by eapply inserted_client|done|done].
    + assert (client_inv (set_caches c' (set_database t' k))) as Hk'
        by (apply published_client; [by apply rolled_client|done|done]).
      split; [done|]. split; [done|]. destruct (as_outcome success) as [committed|i co] eqn:Eo; [|done].
      exfalso. unfold admission in Had. destruct (identity_of _ _) as [s|]; [by destruct (si_coordinate s)|]. by case_decide.
  - destruct H as [Had Hr]. pose proof (rolled_client _ _ Hk Hr) as Hk'.
    destruct s as [h|missing identity_only]; (split; [done|split; [done|done]]).
  - destruct H as [He Ht]. assert (client_inv (set_database t' k)) as Hk'.
    { destruct Ht as [Hr|(_ & _ & committed & Hn)]; [by apply rolled_client|by eapply inserted_client]. }
    assert (e ≠ Storage_Persistence AmbiguousCommit → rolled_from (cl_tables k) t') as Hroll by (intros; destruct Ht as [?|[? _]]; done).
    destruct He as [->|[->|[->| ->]]]; simpl; (split; [done || by apply retired_client|split; [done|right]]).
    + left. split; [by left|]. split; [by apply Hroll|done].
    + left. split; [by right|]. split; [by apply Hroll|done].
    + right. right. split; [done|]. split; [|done]. destruct Ht as [?|(_ & ?)]; [by left|by right].
    + right. left. split; [done|]. split; [by apply Hroll|done].
  - destruct H as [Hfull Hr]. split; [by apply rolled_client|done].
Qed.

(** An admitted block is inserted, in the absence of faults, unless the bounds
    of a level or of the identity sequence are reached. *)
Lemma admitted_block_inserts k fates block policy p :
  client_inv k → cl_valid k = true → acceptable (cl_genesis_hash k) block → PreparedBlock_new block = Some p →
  (vnb_daa_score block ≤ MAX_DAA_SCORE)%N → ¬ level_full (cl_tables k) →
  ¬ sequence_short (S (length (block_references block))) (cl_tables k) →
  admission (cl_tables k) block policy = None → faultless (fates O) →
  ∃ committed, (materialize_block (Ok ()) fates block policy k).2 = Some (Ok (Inserted committed)).
Proof.
  intros Hk Hv Ha Hp Hd Hfull Hshort Had Hf. pose proof (ci_store _ Hk) as Hi. destruct (ci_caches _ Hk Hv) as [Hc _].
  destruct (PreparedBlock_new_Some _ _ Hp) as (_ & _ & _ & _ & _ & _ & _ & _ & Ed & _).
  assert (daa_score_to_sql (vnb_daa_score block) = Ok (Z.of_N (vnb_daa_score block))) as Edaa
    by (unfold daa_score_to_sql; by rewrite decide_False by lia).
  pose proof (transaction_run_faultless keep_sequence (materialize_attempt (cl_caches k) p (Z.of_N (vnb_daa_score block)) policy) _ _ _ _ _
    RETRY_DELAYS fates (cl_tables k)
    (materialize_attempt_ok (cl_genesis_hash k) (λ _, False) block p _ policy (cl_caches k) (cl_tables k) Ha Hp Edaa Hi Hc)) as H.
  lapply H; [clear H; intros H; specialize (H Hf)|clear H].
  - unfold materialize_block, run_operation, materialize_operation. rewrite Hv, Hp, Ed, Edaa. cbn [negb].
    destruct (transaction_run _ _ _ _ _) as [t' [[[success|s]|e]|]].
    + destruct H as [(committed & _ & _ & Eo & c' & Ep & _)|[[H _] _]]; [|congruence].
      exists committed. cbn [set_database cl_caches]. rewrite Ep. simpl. by rewrite Eo.
    + destruct H as [H _]. simpl in H. congruence.
    + destruct H as [_ [H|(_ & phase & er & H)]]; [done|]. destruct phase; simpl in H; [|done]. by destruct H as [[]|[_ H]].
    + by destruct H as [H _].
  - intros [s|e|[] er]; simpl; try done. by intros [[]|[-> _]].
Qed.

(** * VSPC changes *)

Lemma rolled_restyled t t1 t' : rolled_from t t1 → restyled t1 t' → restyled t t'.
Proof. intros (s & Hs & ->) [R1 R2 R3 R4 R5 R6 R7]. split; try done. simpl in R2. lia. Qed.

Lemma path_checked_ext t t1 change : (∀ i, parent_at t1 i = parent_at t i) → path_checked t1 change → path_checked t change.
Proof.
  intros He. unfold path_checked. destruct (rc_removed change) as [|r removed].
  - intros H a. rewrite <- He. apply H.
  - intros (H1 & H2 & H3). split_and!; [|by apply (linked_up_ext t1)|intros a; rewrite <- !He; apply H3].
    revert H1. generalize (r :: removed). clear -He. intros l. induction l as [|a l IH]; [done|]. destruct l as [|b l]; [done|].
    simpl. rewrite He. intros [H1 H2]. split; [done|by apply IH].
Qed.

Lemma rolled_path_checked t t1 change : rolled_from t t1 → path_checked t1 change ↔ path_checked t change.
Proof. intros (s & _ & ->). split; by apply path_checked_ext. Qed.

Lemma rolled_moved genesis t t1 t' change outcome : rolled_from t t1 → moved genesis change t1 t' outcome → moved genesis change t t' outcome.
Proof.
  intros Hr [M1 M2 M3 M4 M5 M6 M7 M8]. pose proof (rolled_restyled _ _ _ Hr M6). pose proof (proj1 (rolled_path_checked _ _ _ Hr) M5).
  destruct Hr as (s & Hs & ->). by split.
Qed.

Lemma rolled_refused t t1 change s : rolled_from t t1 → vspc_refused t1 change s → vspc_refused t change s.
Proof.
  intros Hr H. destruct s as [| |x]; [by destruct Hr as (q & _ & ->)..|]. destruct H as [H1 H2]. split.
  - by rewrite <- (rolled_path_checked t t1 change Hr).
  - by destruct Hr as (q & _ & ->).
Qed.

Lemma apply_transaction genesis c change t fates :
  store_inv genesis t → caches_ok t c → sink_ok t c → rc_added change ≠ [] → fates_allowed fates →
  let '(t', r) := transaction_run keep_sequence (apply_attempt c change) RETRY_DELAYS fates t in
  match r with
  | None => False
  | Some (Ok (Ok success)) => moved genesis change t t' (vs_outcome success) ∧ vspc_published t success
  | Some (Ok (Err s)) => vspc_refused t change s ∧ rolled_from t t'
  | Some (Err e) =>
    (mutation_failure e ∨ (e = Storage_InvalidMetadata ∧ select_sink t = None)) ∧
    (rolled_from t t' ∨ (e = Storage_Persistence AmbiguousCommit ∧ ∃ outcome, moved genesis change t t' outcome))
  end.
Proof.
  intros Hi Hc Hs Hne Hf.
  pose proof (transaction_run_spec keep_sequence (apply_attempt c change) any_error
    (λ success _ t', moved genesis change t t' (vs_outcome success) ∧ vspc_published t success)
    (λ _, False) (apply_failed any_error t change) False (rolled_from t) RETRY_DELAYS fates t (rolled_from_refl _ _ Hi)) as H.
  lapply H; [clear H; intros H; specialize (H (fates_any _ Hf))|clear H].
  - destruct (transaction_run _ _ _ _ _) as [t' [[[success|s]|e]|]]; [| | |by destruct H].
    + destruct H as [(before & _ & H)|[[] _]]. done.
    + done.
    + destruct H as [H1 H2]. split.
      * destruct H1 as [[? ?]|H1]; [by right|by left].
      * destruct H2 as [?|(He & success & before & _ & Hm & _)]; [by left|right; split; [done|by eexists]].
  - intros before Hb. pose proof (rolled_from_inv _ _ _ Hi Hb) as Hib.
    assert (sink_ok before c) as Hsb by (intros s Es; rewrite (rolled_sink _ _ Hb); by apply Hs).
    eapply body_ok_mono, (apply_attempt_ok genesis any_error c change before Hib (rolled_from_caches _ _ _ Hb Hc) Hsb Hne).
    + intros success t' [H1 H2]. split; [by eapply rolled_moved|]. by destruct Hb as (q & _ & ->).
    + done.
    + intros [s|e|[] e]; simpl; [by apply rolled_refused| |by left|done]. by rewrite (rolled_sink _ _ Hb).
    + done.
    + intros t' Hr. by eapply rolled_from_trans.
Qed.

(** ** Publication *)

Lemma publish_members_ok t c (updates : list (CompactId * CachedMaterializedBlock)) :
  (∀ i x, (i, x) ∈ updates → member_at t i = Some x) → caches_ok t c →
  caches_ok t (foldl (λ c kv, publish_materialized_block kv.1 kv.2 c) c updates).
Proof.
  revert c. induction updates as [|[i x] updates IH]; intros c Hu Hc; [done|]. simpl. apply IH; [intros; apply Hu; by right|].
  apply publish_block_ok; [by apply Hu; left|done].
Qed.

Lemma compact_ids_of (l : list Z) : compact_id <$> (MkCompactId <$> l) = l.
Proof. induction l as [|z l IH]; [done|]. rewrite !fmap_cons, IH. done. Qed.

Lemma publish_sets_ok t c (updates : list (CompactId * CachedMergeSets)) :
  (∀ i x, (i, x) ∈ updates → sets_at t i = Some x) → caches_ok t c →
  caches_ok t (foldl (λ c kv, publish_merge_sets kv.1 kv.2 c) c updates).
Proof.
  revert c. induction updates as [|[i x] updates IH]; intros c Hu Hc; [done|]. simpl. apply IH; [intros; apply Hu; by right|].
  assert (sets_at t i = Some x) as Ex by (apply Hu; left). unfold sets_at in Ex. apply fmap_Some in Ex as (b & Eb & ->).
  apply (publish_merge_sets_ok t c i _ b); [done| | |done]; symmetry; apply compact_ids_of.
Qed.

Lemma restyled_member t t' i : restyled t t' → member_at t' i = member_at t i ∧ sets_at t' i = sets_at t i.
Proof.
  intros Hr. unfold member_at, sets_at. pose proof (re_blocks _ _ Hr (compact_id i)) as H.
  destruct (tb_blocks t' !! compact_id i) as [b'|], (tb_blocks t !! compact_id i) as [b|]; simpl in *; try done.
  apply (inj Some), unstyled_eq in H. destruct H as (_ & _ & E1 & E2 & E3 & E4 & E5).
  unfold cached_block, stored_coordinate, sets_of. by rewrite E1, E2, E3, E4, E5.
Qed.

Lemma moved_client k t' change outcome success :
  client_inv k → moved (cl_genesis_hash k) change (cl_tables k) t' outcome → rc_added change ≠ [] → change_contract (cl_tables k) change →
  vspc_published (cl_tables k) success → vs_outcome success = outcome →
  client_inv (set_caches (publish_vspc_success success (cl_caches k)) (set_database t' k)).
Proof.
  intros [Hi [path Hc] Hk] Hm Hne Hct [Hp1 Hp2] Eo. pose proof (mv_restyled _ _ _ _ _ Hm) as Hr.
  destruct (moved_chain _ _ _ _ _ path Hi Hc Hm Hne (cc_linked _ _ Hct)) as (front & _ & Hc').
  split; simpl; [apply (mv_inv _ _ _ _ _ Hm)|by eexists|]. intros Hv. destruct (Hk Hv) as [H1 _]. split.
  - unfold publish_vspc_success. apply publish_sink_ok, publish_sets_ok; [intros i x; rewrite (proj2 (restyled_member _ _ i Hr)); apply Hp2|].
    apply publish_members_ok; [intros i x; rewrite (proj1 (restyled_member _ _ i Hr)); apply Hp1|]. by apply (restyled_caches (cl_genesis_hash k) (cl_tables k)).
  - intros s. simpl. intros [= <-]. simpl. rewrite Eo, (mv_outcome _ _ _ _ _ Hm). simpl.
    pose proof (chain_sink _ _ _ (mv_inv _ _ _ _ _ Hm) Hc') as Hs.
    assert (last (front ++ rc_added change) = Some (vp_id (rc_destination change))) as El.
    { pose proof (cc_destination _ _ Hct) as Hd. apply last_Some in Hd as [l ->]. by rewrite app_assoc, last_snoc. }
    rewrite El in Hs. destruct Hs as (h & -> & Hid). rewrite (re_ids _ _ Hr), (cc_hash _ _ Hct) in Hid. by injection Hid as <-.
Qed.

(** A change committed but not acknowledged: the generation is gone. *)
Lemma moved_retired_client k t' change outcome :
  client_inv k → moved (cl_genesis_hash k) change (cl_tables k) t' outcome → rc_added change ≠ [] → change_contract (cl_tables k) change →
  client_inv (retire (set_database t' k)).
Proof.
  intros [Hi [path Hc] Hk] Hm Hne Hct. destruct (moved_chain _ _ _ _ _ path Hi Hc Hm Hne (cc_linked _ _ Hct)) as (front & _ & Hc').
  split; simpl; [apply (mv_inv _ _ _ _ _ Hm)|by eexists|done].
Qed.

Lemma apply_vspc_change_spec k fates change :
  client_inv k → cl_valid k = true → rc_added change ≠ [] → change_contract (cl_tables k) change → fates_allowed fates →
  let '(k', r) := apply_vspc_change (Ok ()) fates change k in
  client_inv k' ∧ cl_genesis_hash k' = cl_genesis_hash k ∧
  match r with
  | None => False
  | Some (Ok outcome) => moved (cl_genesis_hash k) change (cl_tables k) (cl_tables k') outcome ∧ cl_valid k' = true
  | Some (Err VspcSourceDiscontinuity) =>
    vspc_refused (cl_tables k) change Semantic_SourceDiscontinuity ∧ rolled_from (cl_tables k) (cl_tables k') ∧ cl_valid k' = true
  | Some (Err (VspcMemberNotMaterialized i)) =>
    vspc_refused (cl_tables k) change (Semantic_MemberNotMaterialized i) ∧ rolled_from (cl_tables k) (cl_tables k') ∧ cl_valid k' = true
  | Some (Err (VspcPathDiscontinuity x)) =>
    vspc_refused (cl_tables k) change (Semantic_PathDiscontinuity x) ∧ rolled_from (cl_tables k) (cl_tables k') ∧ cl_valid k' = true
  | Some (Err (Apply_Database e)) =>
    (e = Db_InvalidStoredState ∧ select_sink (cl_tables k) = None ∧ rolled_from (cl_tables k) (cl_tables k') ∧ cl_valid k' = true) ∨
    mutation_error (cl_tables k) k' (∃ outcome, moved (cl_genesis_hash k) change (cl_tables k) (cl_tables k') outcome) e
  end.
Proof.
  intros Hk Hv Hne Hct Hf. pose proof (ci_store _ Hk) as Hi. destruct (ci_caches _ Hk Hv) as [Hc Hs].
  unfold apply_vspc_change. destruct (rc_added change) as [|a0 added] eqn:Ea; [done|]. rewrite <- Ea in Hne. clear Ea a0 added.
  unfold run_operation. rewrite Hv. cbn [negb]. unfold apply_operation.
  pose proof (apply_transaction _ _ change _ fates Hi Hc Hs Hne Hf) as H.
  destruct (transaction_run _ _ _ _ _) as [t' [[[success|s]|e]|]]; [| | |done].
  - destruct H as [Hm Hp]. split; [by apply (moved_client k t' change (vs_outcome success) success)|]. by split.
  - destruct H as [Href Hr]. pose proof (rolled_client _ _ Hk Hr) as Hk'. destruct s; (split; [done|split; [done|done]]).
  - destruct H as [He Ht].
    assert (e ≠ Storage_Persistence AmbiguousCommit → rolled_from (cl_tables k) t') as Hroll by (intros; destruct Ht as [?|[? _]]; done).
    destruct He as [[->|[->|[->| ->]]]|[-> Hsink]]; simpl.
    + specialize (Hroll ltac:(done)). split; [by apply rolled_client|]. split; [done|]. right. left. split; [by left|done].
    + specialize (Hroll ltac:(done)). split; [by apply rolled_client|]. split; [done|]. right. left. split; [by right|done].
    + split; [|split; [done|]].
      * destruct Ht as [Hr|(_ & outcome & Hm)]; [by apply retired_client, rolled_client|by eapply moved_retired_client].
      * right. right. right. split; [done|]. split; [|done]. destruct Ht as [?|(_ & ?)]; [by left|by right].
    + specialize (Hroll ltac:(done)). split; [by apply retired_client, rolled_client|]. split; [done|]. right. right. left. done.
    + specialize (Hroll ltac:(done)). split; [by apply rolled_client|]. split; [done|]. by left.
Qed.
(** A change the tables are ready for commits, in the absence of faults. *)
Lemma ready_change_commits k fates change path :
  client_inv k → cl_valid k = true → chain (cl_tables k) path → rc_added change ≠ [] → change_contract (cl_tables k) change →
  ready_change (cl_tables k) change → faultless (fates O) →
  ∃ outcome, (apply_vspc_change (Ok ()) fates change k).2 = Some (Ok outcome).
Proof.
  intros Hk Hv Hch Hne Hct Hrd Hf. pose proof (ci_store _ Hk) as Hi. destruct (ci_caches _ Hk Hv) as [Hc Hs].
  pose proof (moved_levels_distinct _ _ change path (colors_at (cl_tables k) (rc_added change)) Hi Hch Hrd Hne (cc_linked _ _ Hct)) as Hd.
  pose proof (transaction_run_faultless keep_sequence (apply_attempt (cl_caches k) change) _ _ _ _ _ RETRY_DELAYS fates (cl_tables k)
    (apply_attempt_ok (cl_genesis_hash k) (λ _, False) (cl_caches k) change (cl_tables k) Hi Hc Hs Hne)) as H.
  lapply H; [clear H; intros H; specialize (H Hf)|clear H].
  - unfold apply_vspc_change. destruct (rc_added change) as [|a0 added] eqn:Ea; [done|].
    unfold run_operation. rewrite Hv. cbn [negb]. unfold apply_operation.
    destruct (transaction_run _ _ _ _ _) as [t' [[[success|s]|e]|]]; simpl; [by eexists|exfalso..].
    + destruct H as [H _]. destruct Hrd as [R1 R2 R3 R4]. destruct s as [|i|x]; simpl in H.
      * destruct H as [H|(i & Ei & Hni)]; [apply (H _ _ R1); by destruct (vp_id (rc_source change))|by apply Hni, R2].
      * destruct H as [Hin Hn]. destruct (R3 i Hin) as [b Hb]. congruence.
      * by destruct H as [? _].
    + destruct H as [_ [[_ H]|(_ & phase & er & H)]]; [by rewrite (rd_source _ _ Hrd) in H|].
      destruct phase; simpl in H; [|done]. destruct H as [[]|[_ H]]. rewrite Ea in H. by apply Hd.
    + by destruct H as [? _].
  - intros [s|e|[] er]; simpl; try done. by intros [[]|[-> _]].
Qed.
End store_world.
