(* ===== verification/StoreReach.v ===== *)
(** The stored session read back, the reads of identities, a rebuild as its
    service settles it, and the states a client reaches through any sequence of
    operations. *)

From S2P Require Import Prelude Model Faults Sql Store Resolver Materialization VspcStore.
From S2P Require Import StoreClient StoreInvariant StoreInsert StoreMaterialize StoreVspc StoreWorld StoreChain.

#[local] Open Scope Z_scope.

Section store_session.
Context {KH : KaspaHash}.
Implicit Types (t : Tables) (c : Caches) (h : BlockHash) (id : Z) (b : StoredBlock) (i : CompactId) (change : ReadyVspcChange)
  (path : list CompactId) (k : ValidatedDbClient).

(** * The stored session *)

(** The session state the tables determine. *)
Definition session_at (genesis : BlockHash) t : StoredSessionState :=
  if processing_empty t then match read_processing_metadata t with MetadataAbsent => SessionEmpty | _ => SessionInconsistent end
  else
    match read_processing_metadata t with
    | MetadataValid score =>
      match read_pruning_point t with
      | None => SessionInconsistent
      | Some (hash, is_in_vspc) =>
        if decide (is_in_vspc = false ∨ (hash = genesis ∧ score ≠ 0%N)) then SessionInconsistent
        else match read_committed_vspc_sink t with
             | None => SessionInconsistent
             | Some sink => SessionInitialized (MkStoredSessionSnapshot hash score sink)
             end
      end
    | _ => SessionInconsistent
    end.

Lemma load_inspection_spec genesis fates t :
  store_inv genesis t →
  load_inspection genesis fates t = Ok (session_at genesis t) ∨
  ∃ e, load_inspection genesis fates t = Err e ∧ (e = Storage_Database ∨ e = Storage_ConnectionLost) ∧ ¬ faultless fates.
Proof.
  intros Hi. unfold load_inspection. set (body := mbind _ _ : TxSql Empty_set StoredSessionState StoredSessionState).
  pose proof (run_attempt_spec keep_sequence body (λ e, Some e ∈ af_statements fates) t (λ a t', a = session_at genesis t) (λ _, False)
    (λ e, ∃ er, e = AttemptDatabase BeforeCommit er ∧ Some er ∈ af_statements fates) False (λ _, True) fates) as H.
  lapply H; [clear H; intros H; lapply H; [clear H; intros H|clear H]|by intros e].
  - destruct (run_attempt _ _ _ _) as [t' [[a|e]|]]; simpl; [left|right|by destruct H].
    + by destruct H as [->|[[] _]].
    + assert (∃ phase er, e = AttemptDatabase phase er ∧ ¬ faultless fates) as (phase & er & -> & Hn).
      { destruct H as [[_ [(er & -> & He)|(er & applied & -> & Ec)]]|(a & er & _ & -> & Ec)]; eexists _, er; (split; [done|]).
        - intros [Hs _]. by apply Hs in He.
        - intros [_ Hc]. congruence.
        - intros [_ Hc]. congruence. }
      exists (storage_database er). split; [done|]. split; [|done]. unfold storage_database. destruct (sqlx_connection_lost er); auto.
  - unfold body_ok, body, inspect_processing_state, session_at.
    apply wp_bind, wp_begin; [intros e He; split; [done|by eexists]|]. apply wp_bind, wp_begin; [intros e He; split; [done|by eexists]|].
    apply wp_bind, wp_query; [intros e He; split; [done|by eexists]|]. apply wp_bind, wp_query; [intros e He; split; [done|by eexists]|].
    destruct (processing_empty t); [by apply wp_ret|]. destruct (read_processing_metadata t) as [|score|]; [by apply wp_ret| |by apply wp_ret].
    apply wp_bind, wp_query; [intros e He; split; [done|by eexists]|]. destruct (read_pruning_point t) as [[hash v]|]; [|by apply wp_ret].
    case_decide; [by apply wp_ret|]. apply wp_bind, wp_query; [intros e He; split; [done|by eexists]|]. by apply wp_ret.
Qed.

(** ** The committed sink *)

Lemma read_sink_spec genesis t : store_inv genesis t →
  match select_sink t with
  | None => read_committed_vspc_sink t = None
  | Some (id, h) => ∃ b selected_parent, tb_blocks t !! id = Some b ∧ tb_identifiers t !! sb_selected_parent_id b = Some selected_parent ∧
      read_committed_vspc_sink t = Some (MkStoredVspcSink h (MkCompactId id) selected_parent (Z.to_N (sb_daa_score b)))
  end.
Proof.
  intros Hi. pose proof (select_sink_spec genesis t Hi) as Hs. unfold select_sink, read_committed_vspc_sink in *.
  assert (filter (λ kv : Z * StoredBlock, is_Some (tb_identifiers t !! kv.1) ∧ is_Some (tb_identifiers t !! sb_selected_parent_id kv.2)) (vspc_blocks t) =
          filter (λ kv : Z * StoredBlock, is_Some (tb_identifiers t !! kv.1)) (vspc_blocks t)) as ->.
  { apply map_filter_ext. intros id b [Eb _]%map_lookup_filter_Some. simpl. split; [by intros [? _]|]. intros H. split; [done|].
    apply (st_references _ _ Hi id b); [done|left]. }
  set (joined := filter _ (vspc_blocks t)) in *. pose proof (max_id_spec joined) as Hmax.
  destruct (max_id joined) as [id|]; [|done]. cbn [mbind option_bind] in *. destruct Hmax as [[b Hb] _].
  assert (tb_blocks t !! id = Some b) as Eb by (unfold joined, vspc_blocks in Hb; by apply map_lookup_filter_Some in Hb as [[? _]%map_lookup_filter_Some _]).
  destruct (st_blocks _ _ Hi _ _ Eb) as [[h Hid] (Hdaa & _)]. rewrite Hid in *. cbn [mbind option_bind] in *.
  destruct (st_references _ _ Hi id b (sb_selected_parent_id b) Eb) as [[sp Hsp] _]; [left|]. exists b, sp. split; [done|]. split; [done|].
  rewrite Hb. cbn [mbind option_bind]. rewrite Hsp. cbn [mbind option_bind].
  pose proof (st_ids _ _ Hi _ _ Hid). rewrite CompactId_new_pos by lia. cbn [mbind option_bind].
  unfold u64_try_from. rewrite decide_True by lia. run_bind. rewrite decide_True by (unfold MAX_DAA_SCORE, I64_MAX; unfold I64_MAX_Z in Hdaa; lia).
  done.
Qed.

(** A session is initialized at the sink of the tables. *)
Lemma session_initialized genesis t snapshot : store_inv genesis t → session_at genesis t = SessionInitialized snapshot →
  select_sink t = Some (compact_id (sv_id (committed_vspc_sink snapshot)), sv_hash (committed_vspc_sink snapshot)).
Proof.
  intros Hi. unfold session_at. pose proof (read_sink_spec genesis t Hi) as Hs.
  destruct (processing_empty t); [by destruct (read_processing_metadata t)|]. destruct (read_processing_metadata t); [done| |done].
  destruct (read_pruning_point t) as [[hash v]|]; [|done]. case_decide; [done|].
  destruct (select_sink t) as [[id h]|]; [|by rewrite Hs]. destruct Hs as (b & sp & _ & _ & ->). by intros [= <-].
Qed.

(** * Operations of the client *)

(** Every operation of a lost generation reports the loss. *)
Lemma run_operation_lost {A} service operation k : cl_valid k = false →
  run_operation (A := A) service operation k = (k, Some (Err Storage_GenerationLost)).
Proof. intros Hv. unfold run_operation. by rewrite Hv. Qed.

(** The errors of a query: it failed, or its connection is lost and with it
    the generation. *)
Definition query_error k k' (e : ProcessingDbError) : Prop :=
  cl_tables k' = cl_tables k ∧
  ((e = Db_QueryFailed ∧ cl_valid k' = true) ∨ (e = Db_GenerationLost ∧ cl_valid k' = false)).

(** The two ends of a query that failed. *)
Lemma run_query_failed {A} (operation : ValidatedDbClient → ValidatedDbClient * option (Result A StorageError)) k k1 e :
  cl_valid k = true → operation k = (k1, Some (Err e)) → client_inv k1 → cl_valid k1 = true → cl_tables k1 = cl_tables k →
  cl_genesis_hash k1 = cl_genesis_hash k → e = Storage_Database ∨ e = Storage_ConnectionLost →
  ∃ k' e', run_operation (Ok ()) operation k = (k', Some (Err e')) ∧ client_inv k' ∧ cl_genesis_hash k' = cl_genesis_hash k ∧
    query_error k k' (db_query e').
Proof.
  intros Hv Ho Hk Hv1 Ht Hg He. unfold run_operation. rewrite Hv, Ho. cbn [negb]. destruct He as [->| ->]; simpl.
  - exists k1, Storage_Database. split; [done|]. split; [done|]. split; [done|]. split; [done|by left].
  - exists (retire k1), Storage_GenerationLost. split; [done|]. split; [by apply retired_client|]. split; [done|]. split; [done|by right].
Qed.

Lemma storage_database_cases e : storage_database e = Storage_Database ∨ storage_database e = Storage_ConnectionLost.
Proof. unfold storage_database. destruct (sqlx_connection_lost e); auto. Qed.

Lemma block_presence_client k fate h : client_inv k → cl_valid k = true →
  let '(k', r) := block_presence (Ok ()) fate h k in
  client_inv k' ∧ cl_genesis_hash k' = cl_genesis_hash k ∧
  match r with
  | None => False
  | Some (Ok p) => p = presence_at (cl_tables k) h ∧ cl_tables k' = cl_tables k ∧ cl_valid k' = true
  | Some (Err e) => query_error k k' e
  end.
Proof.
  intros Hk Hv. destruct (ci_caches _ Hk Hv) as [Hc _]. unfold block_presence.
  pose proof (block_presence_spec _ fate _ _ h (ci_store _ Hk) Hc) as H.
  set (operation := λ k : ValidatedDbClient, _ : ValidatedDbClient * option (Result BlockPresence StorageError)).
  assert (operation k = let '(c, r) := identity_block_presence fate h (cl_tables k) (cl_caches k) in (set_caches c k, Some r)) as Eo by done.
  destruct (identity_block_presence _ _ _ _) as [c r]. destruct H as (Hc' & Hs & Hr).
  pose proof (published_client k c Hk Hc' Hs) as Hk'. destruct Hr as [->|(e & _ & ->)].
  - unfold run_operation. rewrite Hv, Eo. done.
  - destruct (run_query_failed operation k _ _ Hv Eo Hk' Hv eq_refl eq_refl (storage_database_cases e)) as (k' & e' & -> & Hk1 & Hg & Hq). done.
Qed.

Lemma resolve_client k fate hashes : client_inv k → cl_valid k = true →
  let '(k', r) := resolve_materialized_ids (Ok ()) fate hashes k in
  client_inv k' ∧ cl_genesis_hash k' = cl_genesis_hash k ∧
  match r with
  | None => False
  | Some (Ok ids) => resolution_at (cl_tables k) hashes = Resolved ids ∧ cl_tables k' = cl_tables k ∧ cl_valid k' = true
  | Some (Err (NonMaterialized missing identity_only)) =>
    resolution_at (cl_tables k) hashes = Resolution_NonMaterialized missing identity_only ∧ cl_tables k' = cl_tables k ∧ cl_valid k' = true
  | Some (Err (Resolve_Database e)) => query_error k k' e
  end.
Proof.
  intros Hk Hv. destruct (ci_caches _ Hk Hv) as [Hc _]. unfold resolve_materialized_ids.
  pose proof (resolve_spec _ fate _ _ hashes (ci_store _ Hk) Hc) as H.
  set (operation := λ k : ValidatedDbClient, _ : ValidatedDbClient * option (Result MaterializedIdResolution StorageError)).
  assert (operation k = let '(c, r) := identity_resolve_materialized_ids fate hashes (cl_tables k) (cl_caches k) in (set_caches c k, r)) as Eo by done.
  destruct (identity_resolve_materialized_ids _ _ _ _) as [c r]. destruct H as (Hc' & Hs & Hr).
  pose proof (published_client k c Hk Hc' Hs) as Hk'. destruct Hr as [->|(e & _ & ->)].
  - unfold run_operation. rewrite Hv, Eo. simpl. by destruct (resolution_at (cl_tables k) hashes).
  - destruct (run_query_failed operation k _ _ Hv Eo Hk' Hv eq_refl eq_refl (storage_database_cases e)) as (k' & e' & -> & Hk1 & Hg & Hq). done.
Qed.

Lemma load_session_client k fates : client_inv k → cl_valid k = true →
  let '(k', r) := load_session_state (Ok ()) fates k in
  client_inv k' ∧ cl_genesis_hash k' = cl_genesis_hash k ∧
  match r with
  | None => False
  | Some (Ok s) => s = session_at (cl_genesis_hash k) (cl_tables k) ∧ cl_tables k' = cl_tables k ∧ cl_valid k' = true
  | Some (Err e) => query_error k k' e
  end.
Proof.
  intros Hk Hv. pose proof (ci_store _ Hk) as Hi. destruct (ci_caches _ Hk Hv) as [Hc Hs]. unfold load_session_state.
  set (operation := λ k : ValidatedDbClient, _ : ValidatedDbClient * option (Result StoredSessionState StorageError)).
  assert (operation k = (k, Some (load_inspection (cl_genesis_hash k) fates (cl_tables k)))) as Eo by done.
  destruct (load_inspection_spec (cl_genesis_hash k) fates _ Hi) as [E|(e & E & He & _)]; rewrite E in Eo.
  - unfold run_operation. rewrite Hv, Eo. cbn [negb]. destruct (session_at _ _) as [| |snapshot] eqn:Es; [done|done|].
    split; [|done]. pose proof (session_initialized _ _ _ Hi Es) as Hsink. destruct Hk as [? ? ?]. split; [done|done|]. intros _. split.
    + by apply publish_sink_ok.
    + intros s [= <-]. done.
  - destruct (run_query_failed operation k _ _ Hv Eo Hk Hv eq_refl eq_refl He) as (k' & e' & -> & Hk1 & Hg & Hq). done.
Qed.
(** Without faults the queries answer. *)
Lemma load_session_faultless k fates : client_inv k → cl_valid k = true → faultless fates →
  (load_session_state (Ok ()) fates k).2 = Some (Ok (session_at (cl_genesis_hash k) (cl_tables k))).
Proof.
  intros Hk Hv Hf. unfold load_session_state, run_operation. rewrite Hv. cbn [negb].
  destruct (load_inspection_spec (cl_genesis_hash k) fates _ (ci_store _ Hk)) as [->|(e & _ & _ & Hn)]; [|done].
  by destruct (session_at _ _).
Qed.

Lemma block_presence_faultless k h : client_inv k → cl_valid k = true →
  (block_presence (Ok ()) None h k).2 = Some (Ok (presence_at (cl_tables k) h)).
Proof.
  intros Hk Hv. destruct (ci_caches _ Hk Hv) as [Hc _]. unfold block_presence, run_operation. rewrite Hv. cbn [negb].
  pose proof (block_presence_spec _ None _ _ h (ci_store _ Hk) Hc) as H. destruct (identity_block_presence _ _ _ _) as [c r].
  by destruct H as (_ & _ & [->|(e & ? & _)]).
Qed.

Definition resolution_answer (r : MaterializedIdResolution) : Result (list CompactId) ResolveMaterializedIdsError :=
  match r with
  | Resolved ids => Ok ids
  | Resolution_NonMaterialized missing identity_only => Err (NonMaterialized missing identity_only)
  end.

Lemma resolve_faultless k hashes : client_inv k → cl_valid k = true →
  (resolve_materialized_ids (Ok ()) None hashes k).2 = Some (resolution_answer (resolution_at (cl_tables k) hashes)).
Proof.
  intros Hk Hv. destruct (ci_caches _ Hk Hv) as [Hc _]. unfold resolve_materialized_ids, run_operation. rewrite Hv. cbn [negb].
  pose proof (resolve_spec _ None _ _ hashes (ci_store _ Hk) Hc) as H. destruct (identity_resolve_materialized_ids _ _ _ _) as [c r].
  destruct H as (_ & _ & [->|(e & ? & _)]); [|done]. simpl. by destruct (resolution_at _ _).
Qed.

(** ** The session a rebuild leaves *)

Lemma rebuilt_session genesis block t commit : acceptable genesis block → rebuilt genesis block t commit →
  (vnb_hash block = genesis → vnb_blue_score block = 0%N) →
  session_at genesis t = SessionInitialized (MkStoredSessionSnapshot (vnb_hash block) (vnb_blue_score block)
    (MkStoredVspcSink (vnb_hash block) (vp_id (msa_point (rcm_anchor commit))) (vnb_selected_parent block) (vnb_daa_score block))).
Proof.
  intros Ha Hb Hg. pose proof (rb_inv _ _ _ _ Hb) as Hi. set (own := vp_id (msa_point (rcm_anchor commit))).
  pose proof (rb_blocks _ _ _ _ Hb) as Eb. fold own in Eb. pose proof (rb_own _ _ _ _ Hb) as Ho.
  apply (lookup_id_spec _ _ _ _ Hi) in Ho. fold own in Ho.
  assert (processing_empty t = false) as Hne.
  { apply bool_decide_eq_false. intros (E & _). rewrite E, lookup_empty in Ho. done. }
  assert (read_processing_metadata t = MetadataValid (vnb_blue_score block)) as Hm.
  { unfold read_processing_metadata. rewrite (rb_metadata _ _ _ _ Hb). unfold u64_try_from. rewrite decide_True by lia. by rewrite N2Z.id. }
  assert (read_pruning_point t = Some (vnb_hash block, true)) as Hp.
  { unfold read_pruning_point. rewrite Eb, map_to_list_singleton. rewrite filter_cons, decide_True by done. simpl. rewrite Ho. simpl.
    by rewrite (rb_levels _ _ _ _ Hb), lookup_singleton_eq. }
  assert (select_sink t = Some (compact_id own, vnb_hash block)) as Hs.
  { pose proof (chain_sink _ _ _ Hi (rebuilt_chain _ _ _ _ Hb)) as (h & Hs & Hid). fold own in Hs, Hid. congruence. }
  pose proof (read_sink_spec genesis t Hi) as Hr. rewrite Hs in Hr. destruct Hr as (b & sp & Hbl & Hsp & Hr).
  rewrite Eb, lookup_singleton_eq in Hbl. injection Hbl as <-.
  unfold session_at. rewrite Hne, Hm, Hp, Hr. rewrite decide_False by (intros [?|[? Hn]]; [done|by apply Hn, Hg]).
  cbn [sb_selected_parent_id sb_daa_score rebuilt_row] in Hsp |- *. rewrite N2Z.id.
  assert (is_Some (lookup_id t (vnb_selected_parent block))) as [sel Esel].
  { apply (rebuild_known genesis block t Ha); [|by right; right]. intros x. rewrite <- (rb_known _ _ _ _ Hb). unfold identity_of.
    by rewrite fmap_is_Some. }
  rewrite Esel in Hsp. simpl in Hsp. apply (lookup_id_spec _ _ _ _ Hi) in Esel. rewrite Esel in Hsp. injection Hsp as <-. by destruct own.
Qed.
End store_session.

Section store_reach.
Context {KH : KaspaHash}.
Implicit Types (t : Tables) (c : Caches) (h : BlockHash) (change : ReadyVspcChange) (k : ValidatedDbClient).

(** * Rebuild *)

Lemma rebuild_transaction genesis block p t fates :
  acceptable genesis block → PreparedRebuild_new block genesis = Ok p → store_inv genesis t → fates_allowed fates →
  let '(t', r) := transaction_run keep_sequence (rebuild_attempt p) RETRY_DELAYS fates t in
  match r with
  | None => False
  | Some (Ok (Ok commit)) => rebuilt genesis block t' commit
  | Some (Ok (Err _)) => False
  | Some (Err e) =>
    mutation_failure e ∧
    (rolled_from t t' ∨ (e = Storage_Persistence AmbiguousCommit ∧ ∃ commit, rebuilt genesis block t' commit))
  end.
Proof.
  intros Ha Hp Hi Hf.
  pose proof (transaction_run_spec keep_sequence (rebuild_attempt p) any_error
    (λ commit _ t', rebuilt genesis block t' commit) (λ _, False) (attempt_failed any_error True (λ _, False))
    False (rolled_from t) RETRY_DELAYS fates t (rolled_from_refl _ _ Hi)) as H.
  lapply H; [clear H; intros H; specialize (H (fates_any _ Hf))|clear H].
  - destruct (transaction_run _ _ _ _ _) as [t' [[[commit|[]]|e]|]]; [| |by destruct H].
    + destruct H as [(before & _ & H)|[[] _]]. done.
    + destruct H as [H1 [H2|(H2 & commit & before & _ & H)]]; (split; [by eapply reported_attempt|]); [by left|right; eauto].
  - intros before Hb.
    eapply body_ok_mono, (rebuild_attempt_ok genesis any_error block p before Ha Hp (rolled_from_inv _ _ _ Hi Hb)); try done.
    + intros [s|e|[] e]; simpl; try done. by left.
    + intros t' Hr. by eapply rolled_from_trans.
Qed.

Lemma rebuilt_client k t' block commit : rebuilt (cl_genesis_hash k) block t' commit →
  client_inv (set_caches (rcm_caches commit) (set_database t' k)).
Proof.
  intros Hb. pose proof (rebuilt_chain _ _ _ _ Hb) as Hc. split; [apply (rb_inv _ _ _ _ Hb)|by eexists|]. intros _. split; [apply (rb_caches _ _ _ _ Hb)|].
  intros s. simpl. rewrite (rb_sink _ _ _ _ Hb). intros [= <-]. simpl.
  pose proof (chain_sink _ _ _ (rb_inv _ _ _ _ Hb) Hc) as (h & -> & Hid).
  pose proof (rb_own _ _ _ _ Hb) as Ho. apply (lookup_id_spec _ _ _ _ (rb_inv _ _ _ _ Hb)) in Ho. congruence.
Qed.

(** What a rebuild did to the tables, before the service settles it. *)
Definition rebuild_effect k k' (block : ValidatedNodeBlock) (r : Result MaterializedSyncAnchor StorageError) : Prop :=
  match r with
  | Ok anchor => ∃ commit, rebuilt (cl_genesis_hash k) block (cl_tables k') commit ∧ anchor = rcm_anchor commit
  | Err e =>
    mutation_failure e ∧
    (rolled_from (cl_tables k) (cl_tables k') ∨
     (e = Storage_Persistence AmbiguousCommit ∧ ∃ commit, rebuilt (cl_genesis_hash k) block (cl_tables k') commit))
  end.

Lemma validate_input_cases block genesis :
  (∃ p, validate_input block = Ok () ∧ PreparedRebuild_new block genesis = Ok p) ∨
  ∃ s, validate_input block = Err (Storage_ScoreOutOfRange s).
Proof.
  unfold validate_input, PreparedRebuild_new. destruct (daa_score_to_sql _) as [daa|e] eqn:Ed.
  - destruct (blue_score_to_sql _) as [blue|e] eqn:Eb; [left; by eexists|right]. unfold blue_score_to_sql in Eb. case_decide; [|done].
    injection Eb as <-. by eexists.
  - right. unfold daa_score_to_sql in Ed. case_decide; [|done]. injection Ed as <-. by eexists.
Qed.

Lemma perform_rebuild_client k fates block p :
  client_inv k → acceptable (cl_genesis_hash k) block → PreparedRebuild_new block (cl_genesis_hash k) = Ok p → fates_allowed fates →
  ∃ k' r, perform_rebuild fates block k = (k', Some r) ∧ cl_genesis_hash k' = cl_genesis_hash k ∧ cl_valid k' = cl_valid k ∧
    client_inv (retire k') ∧ (r ≠ Err (Storage_Persistence AmbiguousCommit) → client_inv k') ∧ rebuild_effect k k' block r.
Proof.
  intros Hk Ha Hp Hf. unfold perform_rebuild. rewrite Hp.
  pose proof (rebuild_transaction _ _ _ _ fates Ha Hp (ci_store _ Hk) Hf) as H.
  destruct (transaction_run _ _ _ _ _) as [t' [[[commit|[]]|e]|]]; [| |done].
  - pose proof (rebuilt_client k t' block commit H) as Hk'. eexists _, _. split; [done|]. split; [done|]. split; [done|].
    split; [by apply retired_client in Hk'|]. split; [done|by exists commit].
  - eexists _, _. split; [done|]. split; [done|]. split; [done|]. destruct H as [He Ht]. split; [|split; [|done]].
    + destruct Ht as [Hr|(_ & commit & Hb)]; [by apply retired_client, rolled_client|].
      pose proof (rebuilt_client k t' block commit Hb) as [H1 H2 _]. split; [done|done|done].
    + intros Hne. destruct Ht as [Hr|(-> & _)]; [by apply rolled_client|done].
Qed.

Lemma ambiguous_or_not (e : StorageError) : e = Storage_Persistence AmbiguousCommit ∨ e ≠ Storage_Persistence AmbiguousCommit.
Proof. destruct e as []; try (by right). match goal with f : PersistenceFault |- _ => destruct f end; (by left) || (by right). Qed.

Lemma settle_rebuild_inv settlement r k : client_inv (retire k) → (r ≠ Err (Storage_Persistence AmbiguousCommit) → client_inv k) →
  client_inv (settle_rebuild settlement r k).1.
Proof.
  intros Hret Hk. destruct settlement as [opened|]; [|done]. simpl. destruct r as [a|e]; [by apply Hk|].
  destruct (ambiguous_or_not e) as [->|Hne]; [done|]. specialize (Hk ltac:(congruence)).
  destruct e as []; try done. match goal with f : PersistenceFault |- _ => by destruct f end.
Qed.

Lemma settle_rebuild_frame settlement r k :
  cl_genesis_hash (settle_rebuild settlement r k).1 = cl_genesis_hash k ∧ cl_tables (settle_rebuild settlement r k).1 = cl_tables k.
Proof.
  destruct settlement as [opened|]; [|done]. simpl. destruct r as [a|e]; [done|].
  destruct e as []; try done. match goal with f : PersistenceFault |- _ => by destruct f end.
Qed.

Lemma rebuild_inv settlement fates block k : client_inv k → acceptable (cl_genesis_hash k) block → fates_allowed fates →
  let k' := (rebuild_from_pruning_point settlement fates block k).1 in
  client_inv k' ∧ cl_genesis_hash k' = cl_genesis_hash k.
Proof.
  intros Hk Ha Hf. unfold rebuild_from_pruning_point.
  destruct (validate_input_cases block (cl_genesis_hash k)) as [(p & -> & Hp)|(s & ->)]; [|done].
  destruct (cl_valid k) eqn:Hv; cbn [negb]; [|done].
  destruct (perform_rebuild_client k fates block p Hk Ha Hp Hf) as (k1 & r & -> & Hg & _ & Hret & Hk1 & _).
  pose proof (settle_rebuild_inv settlement r k1 Hret Hk1) as Hs. pose proof (settle_rebuild_frame settlement r k1) as [Hg' _].
  destruct (settle_rebuild _ _ _) as [k2 r2]. simpl in *. by rewrite Hg'.
Qed.

(** A rebuild the service could settle without a loss of its generation. *)
Lemma rebuild_client k fates block : client_inv k → cl_valid k = true → acceptable (cl_genesis_hash k) block → fates_allowed fates →
  let '(k', r) := rebuild_from_pruning_point (RebuildUndisturbed (Ok ())) fates block k in
  client_inv k' ∧ cl_genesis_hash k' = cl_genesis_hash k ∧
  match r with
  | None => False
  | Some (Ok anchor) =>
    cl_valid k' = true ∧ ∃ commit, rebuilt (cl_genesis_hash k) block (cl_tables k') commit ∧ anchor = rcm_anchor commit
  | Some (Err (Rebuild_Database e)) =>
    (∃ s, e = Db_ScoreOutOfRange s ∧ k' = k) ∨
    mutation_error (cl_tables k) k' (∃ commit, rebuilt (cl_genesis_hash k) block (cl_tables k') commit) e
  | Some (Err _) => False
  end.
Proof.
  intros Hk Hv Ha Hf. pose proof (rebuild_inv (RebuildUndisturbed (Ok ())) fates block k Hk Ha Hf) as Hinv. revert Hinv.
  unfold rebuild_from_pruning_point.
  destruct (validate_input_cases block (cl_genesis_hash k)) as [(p & -> & Hp)|(s & ->)].
  2: { intros [? ?]. split; [done|]. split; [done|]. left. by exists s. }
  rewrite Hv. cbn [negb]. destruct (perform_rebuild_client k fates block p Hk Ha Hp Hf) as (k1 & r & -> & _ & Hv1 & _ & _ & He).
  rewrite Hv in Hv1. destruct r as [anchor|e]; simpl.
  - intros [? ?]. done.
  - simpl in He. destruct He as [He Ht].
    assert (e ≠ Storage_Persistence AmbiguousCommit → rolled_from (cl_tables k) (cl_tables k1)) as Hroll by (intros; destruct Ht as [?|[? _]]; done).
    destruct He as [->|[->|[->| ->]]]; simpl; intros [? ?]; (split; [done|split; [done|right]]).
    + left. split; [by left|]. split; [by apply Hroll|done].
    + left. split; [by right|]. split; [by apply Hroll|done].
    + right. right. split; [done|]. split; [|done]. destruct Ht as [?|(_ & ?)]; [by left|by right].
    + right. left. split; [done|]. split; [by apply Hroll|done].
Qed.

(** * Events *)

Inductive StoreEvent :=
  | MaterializeEvent (fates : nat → AttemptFates) (block : ValidatedNodeBlock) (policy : ReferencePolicy)
  | VspcEvent (fates : nat → AttemptFates) (change : ReadyVspcChange)
  | RebuildEvent (settlement : RebuildSettlement) (fates : nat → AttemptFates) (block : ValidatedNodeBlock)
  | LoadEvent (fates : AttemptFates)
  | PresenceEvent (fate : option SqlxError) (hash : BlockHash)
  | ResolveEvent (fate : option SqlxError) (hashes : list BlockHash)
  | EvictEvent (keep_identity : BlockHash → bool) (keep_block keep_sets : CompactId → bool) (keep_sink : bool)
  | RetireEvent
  (** the service validates a new generation over the same database *)
  | ReopenEvent.

Definition run_event (event : StoreEvent) k : ValidatedDbClient :=
  match event with
  | MaterializeEvent fates block policy => (materialize_block (Ok ()) fates block policy k).1
  | VspcEvent fates change => (apply_vspc_change (Ok ()) fates change k).1
  | RebuildEvent settlement fates block => (rebuild_from_pruning_point settlement fates block k).1
  | LoadEvent fates => (load_session_state (Ok ()) fates k).1
  | PresenceEvent fate hash => (block_presence (Ok ()) fate hash k).1
  | ResolveEvent fate hashes => (resolve_materialized_ids (Ok ()) fate hashes k).1
  | EvictEvent ki kb ks sink => evict ki kb ks sink k
  | RetireEvent => retire k
  | ReopenEvent => MkClient (cl_tables k) ProcessingCacheDomains_new true (cl_genesis_hash k)
  end.

(** What the callers and PostgreSQL promise of an event: the blocks are
    acceptable, the change keeps its contract, and an error of [COMMIT] other
    than a lost connection means a rolled back transaction. *)
Definition event_allowed (event : StoreEvent) k : Prop :=
  match event with
  | MaterializeEvent fates block _ => fates_allowed fates ∧ acceptable (cl_genesis_hash k) block
  | VspcEvent fates change => fates_allowed fates ∧ (cl_valid k = true → rc_added change ≠ [] → change_contract (cl_tables k) change)
  | RebuildEvent _ fates block => fates_allowed fates ∧ acceptable (cl_genesis_hash k) block
  | _ => True
  end.

Definition initial_client (genesis : BlockHash) : ValidatedDbClient :=
  MkClient empty_tables ProcessingCacheDomains_new true genesis.

Inductive store_reachable (genesis : BlockHash) : ValidatedDbClient → Prop :=
  | store_initial : store_reachable genesis (initial_client genesis)
  | store_step event k : store_reachable genesis k → event_allowed event k → store_reachable genesis (run_event event k).

Lemma initial_client_inv genesis : client_inv (initial_client genesis).
Proof.
  split; simpl; [apply empty_tables_inv|exists []|].
  - split; simpl; [by intros id b; rewrite lookup_empty|by intros i ?%elem_of_nil|done|done].
  - intros _. split; [apply caches_ok_new|by intros s].
Qed.

Lemma materialize_inv fates block policy k : client_inv k → acceptable (cl_genesis_hash k) block → fates_allowed fates →
  let k' := (materialize_block (Ok ()) fates block policy k).1 in client_inv k' ∧ cl_genesis_hash k' = cl_genesis_hash k.
Proof.
  intros Hk Ha Hf. destruct (cl_valid k) eqn:Hv.
  2: { unfold materialize_block. by rewrite run_operation_lost by done. }
  destruct (PreparedBlock_new block) as [p|] eqn:Hp.
  - pose proof (materialize_block_spec k fates block policy p Hk Hv Ha Hp Hf) as H. destruct (materialize_block _ _ _ _ _) as [k' r].
    destruct H as (? & ? & _). done.
  - unfold materialize_block, run_operation, materialize_operation. by rewrite Hv, Hp.
Qed.

Lemma vspc_inv fates change k : client_inv k → fates_allowed fates →
  (cl_valid k = true → rc_added change ≠ [] → change_contract (cl_tables k) change) →
  let k' := (apply_vspc_change (Ok ()) fates change k).1 in client_inv k' ∧ cl_genesis_hash k' = cl_genesis_hash k.
Proof.
  intros Hk Hf Hct. destruct (decide (rc_added change = [])) as [He|Hne]; [unfold apply_vspc_change; by rewrite He|].
  destruct (cl_valid k) eqn:Hv.
  - pose proof (apply_vspc_change_spec k fates change Hk Hv Hne (Hct eq_refl Hne) Hf) as H. destruct (apply_vspc_change _ _ _ _) as [k' r].
    destruct H as (? & ? & _). done.
  - unfold apply_vspc_change. destruct (rc_added change); [done|]. by rewrite run_operation_lost by done.
Qed.

Lemma run_event_inv event k : client_inv k → event_allowed event k →
  client_inv (run_event event k) ∧ cl_genesis_hash (run_event event k) = cl_genesis_hash k.
Proof.
  intros Hk Ha. destruct (cl_valid k) eqn:Hv; destruct event as [fates block policy|fates change|settlement fates block|fates|fate hash|fate hashes|ki kb ks sink| |]; simpl in *.
  1,10: destruct Ha; by apply materialize_inv.
  1,9: destruct Ha; by apply vspc_inv.
  1,8: destruct Ha; by apply rebuild_inv.
  - pose proof (load_session_client k fates Hk Hv) as H. destruct (load_session_state _ _ _). destruct H as (? & ? & _). done.
  - pose proof (block_presence_client k fate hash Hk Hv) as H. destruct (block_presence _ _ _ _). destruct H as (? & ? & _). done.
  - pose proof (resolve_client k fate hashes Hk Hv) as H. destruct (resolve_materialized_ids _ _ _ _). destruct H as (? & ? & _). done.
  - destruct Hk as [H1 H2 H3]. split; [|done]. split; [done|done|]. intros Hv'. destruct (H3 Hv') as [H4 H5].
    split; [by apply caches_ok_evict|]. intros s. simpl. destruct sink; [apply H5|done].
  - split; [by apply retired_client|done].
  - destruct Hk as [H1 H2 H3]. split; [|done]. split; [done|done|]. intros _. split; [apply caches_ok_new|by intros s].
  - unfold load_session_state. rewrite run_operation_lost by done. done.
  - unfold block_presence. rewrite run_operation_lost by done. done.
  - unfold resolve_materialized_ids. rewrite run_operation_lost by done. done.
  - destruct Hk as [H1 H2 H3]. split; [|done]. split; [done|done|]. intros Hv'. simpl in Hv'. congruence.
  - split; [by apply retired_client|done].
  - destruct Hk as [H1 H2 H3]. split; [|done]. split; [done|done|]. intros _. split; [apply caches_ok_new|by intros s].
Qed.

Lemma reachable_inv genesis k : store_reachable genesis k → client_inv k ∧ cl_genesis_hash k = genesis.
Proof.
  induction 1 as [|event k _ [IH Hg] Ha]; [split; [apply initial_client_inv|done]|].
  destruct (run_event_inv event k IH Ha) as [H1 H2]. split; [done|congruence].
Qed.
End store_reach.
