(* ===== verification/Projection.v ===== *)
(** The graph projection of the API read lane
    ([crates/kgi-storage/src/generation/projection.rs]): in one read-only
    transaction, the window a request resolves to and the seed of a graph view
    read from it. *)

From S2P Require Import Prelude Model Delta GraphView Runtime Sql Store VspcStore.

#[local] Open Scope N_scope.

Definition MAX_WINDOW_DEPTH : N := 250.

Section projection.
Context {KH : KaspaHash}.

(** * Requests ([kgi-api-model], projection.rs) *)

Inductive GraphWindowAnchor :=
  | AnchorLevel (level : N)
  | AnchorBlockHash (hash : BlockHash)
  | AnchorDaaScore (score : N).

Inductive GraphWindowAnchorUnavailable :=
  | LevelNotRetained (requested_level : N)
  | BlockNotMaterialized (requested_hash : BlockHash)
  | NoRetainedDaaMatch (requested_score : N).

Inductive GraphViewSeedRequest :=
  | HeadPublication
  | AnchoredWindow (anchor : GraphWindowAnchor) (max_depth : N).

Inductive GraphViewSeedOutcome :=
  | SeedLoaded (seed : GraphViewSeed)
  | AnchorUnavailable (reason : GraphWindowAnchorUnavailable).

Definition anchor_unavailable (anchor : GraphWindowAnchor) : GraphWindowAnchorUnavailable :=
  match anchor with
  | AnchorLevel level => LevelNotRetained level
  | AnchorBlockHash hash => BlockNotMaterialized hash
  | AnchorDaaScore score => NoRetainedDaaMatch score
  end.

Record ProjectionScope := MkProjectionScope { ps_resolution : GraphWindowResolution; ps_max_depth : N }.

(** * Decoding: any failure is [InconsistentProjection] *)

Definition decode_positive_level (level : Z) : option N :=
  l ← u32_try_from level; if decide (0 < l) then Some l else None.

Definition decode_coordinate (level slot : Z) : option BlockCoordinate :=
  l ← decode_positive_level level; s ← u16_try_from slot; BlockCoordinate_new l s.

Definition decode_daa_score (score : Z) : option N :=
  s ← u64_try_from score; if decide (s ≤ MAX_DAA_SCORE) then Some s else None.

Definition decode_color (color : Z) : option BlockColor :=
  if decide (color = 0%Z) then Some Gray
  else if decide (color = 1%Z) then Some Blue
  else if decide (color = 2%Z) then Some Red
  else None.

Definition decode_ids (ids : list Z) : option (list CompactId) := mapM CompactId_new ids.

Definition Projection (A : Type) : Type := TxSql ApiReadError GraphViewSeedOutcome A.

Definition inconsistent {A} : Projection A := sql_fail (AttemptSemantic InconsistentProjection).
Definition consistent {A} (o : option A) : Projection A :=
  match o with Some a => mret a | None => inconsistent end.

(** * The window *)

Definition head_scope (high_level : N) : ProjectionScope :=
  let low_level := N.max (saturating_sub high_level (MAX_CACHE_DEPTH - 1)) 1 in
  MkProjectionScope (MkGraphWindowResolution high_level low_level high_level) MAX_CACHE_DEPTH.

Definition saturating_add_u32 (x y : N) : N := N.min (x + y) U32_MAX.

(** [None] is an arithmetic overflow. *)
Definition anchored_resolution (resolved_level database_head max_depth : N) : option GraphWindowResolution :=
  last ← checked_sub max_depth 1;
  let levels_above := last / 2 in
  levels_below ← checked_sub last levels_above;
  let low_level := N.max (saturating_sub resolved_level levels_below) 1 in
  let high_level := N.min (saturating_add_u32 resolved_level levels_above) database_head in
  initial ← checked_sub high_level low_level;
  unused_depth ← checked_sub max_depth (initial + 1);
  let high_level := N.min (saturating_add_u32 high_level unused_depth) database_head in
  shifted ← checked_sub high_level low_level;
  remaining_depth ← checked_sub max_depth (shifted + 1);
  let low_level := N.max (saturating_sub low_level remaining_depth) 1 in
  Some (MkGraphWindowResolution resolved_level low_level high_level).

(** [ORDER BY level DESC, slot DESC LIMIT 1]. *)
Definition max_level (t : Tables) : option Z :=
  match (sb_level ∘ snd) <$> map_to_list (tb_blocks t) with
  | [] => None
  | level :: levels => Some (foldr Z.max level levels)
  end.

Definition decode_level (level : option Z) : Projection (option N) :=
  match level with None => mret None | Some level => level ← consistent (decode_positive_level level); mret (Some level) end.

Definition database_head : Projection (option N) := level ← sql_query max_level; decode_level level.

(** [WHERE daa_score <= score ORDER BY daa_score DESC, level DESC LIMIT 1]. *)
Definition daa_floor (score : Z) (t : Tables) : option Z :=
  foldr (λ row best,
    match best with
    | Some (daa, level) =>
      if decide ((daa < ls_daa_score row.2)%Z ∨ (daa = ls_daa_score row.2 ∧ (level < row.1)%Z)) then Some (ls_daa_score row.2, row.1) else best
    | None => Some (ls_daa_score row.2, row.1)
    end) None (filter (λ row, (ls_daa_score row.2 ≤ score)%Z) (map_to_list (tb_levels t))) ≫= λ best, Some best.2.

(** The join of [block_identifiers] with [blocks]: hashes are unique. *)
Definition select_hash_level (hash : BlockHash) (t : Tables) : option Z :=
  kv ← head (filter (λ kv, kv.2 = hash) (map_to_list (tb_identifiers t)));
  sb_level <$> tb_blocks t !! kv.1.

Definition select_level (level : N) (t : Tables) : option Z :=
  _ ← tb_levels t !! Z.of_N level; Some (Z.of_N level).

Definition resolve_anchor (anchor : GraphWindowAnchor) : Projection (option N) :=
  level ← match anchor with
          | AnchorLevel level => _ ← sql_expect (assert_ (0 < level)); sql_query (select_level level)
          | AnchorBlockHash hash => sql_query (select_hash_level hash)
          | AnchorDaaScore score => _ ← sql_expect (assert_ (score ≤ MAX_DAA_SCORE)); sql_query (daa_floor (Z.of_N score))
          end;
  decode_level level.

(** [ProjectionScopeOutcome]. *)
Definition resolve_scope (request : GraphViewSeedRequest) : Projection (ProjectionScope + GraphWindowAnchorUnavailable) :=
  match request with
  | HeadPublication =>
    level ← database_head;
    high_level ← consistent level;
    mret (inl (head_scope high_level))
  | AnchoredWindow anchor max_depth =>
    _ ← sql_expect (assert_ (1 ≤ max_depth ∧ max_depth ≤ MAX_WINDOW_DEPTH));
    level ← resolve_anchor anchor;
    match level with
    | None => mret (inr (anchor_unavailable anchor))
    | Some resolved_level =>
      level ← database_head;
      head ← consistent level;
      if decide (head < resolved_level) then inconsistent
      else
        resolution ← sql_expect (anchored_resolution resolved_level head max_depth);
        mret (inl (MkProjectionScope resolution max_depth))
    end
  end.

(** * Blocks and edges *)

Record PreparedGraphBlock := MkPreparedGraphBlock {
  pg_id : CompactId;
  pg_coordinate : BlockCoordinate;
  pg_timestamp : N;
  pg_daa_score : N;
  pg_selected_parent_id : CompactId;
  pg_blue_merge_set : list CompactId;
  pg_red_merge_set : list CompactId;
  pg_color : BlockColor;
  pg_is_in_vspc : bool;
  pg_direct_parents : list CompactId
}.

Record PreparedGraphEdge := MkPreparedGraphEdge {
  pe_child_id : CompactId;
  pe_parent_id : CompactId;
  pe_child_coordinate : BlockCoordinate;
  pe_parent_coordinate : BlockCoordinate
}.

Definition in_levels (r : GraphWindowResolution) (level : Z) : Prop :=
  (Z.of_N (effective_start_level r) ≤ level ∧ level ≤ Z.of_N (effective_end_level r))%Z.
#[global] Instance in_levels_dec r level : Decision (in_levels r level).
Proof. unfold in_levels. apply _. Defined.

Definition select_nominal_blocks (r : GraphWindowResolution) (t : Tables) : list (Z * StoredBlock) :=
  filter (λ row, in_levels r (sb_level row.2)) (map_to_list (tb_blocks t)).

Definition prepare_block (row : Z * StoredBlock) : option PreparedGraphBlock :=
  let b := row.2 in
  id ← CompactId_new row.1;
  coordinate ← decode_coordinate (sb_level b) (sb_slot b);
  daa_score ← decode_daa_score (sb_daa_score b);
  selected_parent_id ← CompactId_new (sb_selected_parent_id b);
  blue ← decode_ids (sb_blue_merge_set b);
  red ← decode_ids (sb_red_merge_set b);
  color ← decode_color (sb_color b);
  Some (MkPreparedGraphBlock id coordinate (timestamp_from_sql (sb_timestamp b)) daa_score selected_parent_id blue red color
          (sb_is_in_vspc b) []).

Definition load_nominal_blocks (r : GraphWindowResolution) : Projection (gmap CompactId PreparedGraphBlock) :=
  rows ← sql_query (select_nominal_blocks r);
  prepared ← consistent (mapM prepare_block rows);
  mret (foldl (λ m b, <[pg_id b := b]> m) ∅ prepared).

(** [ORDER BY child_id, parent_id]. *)
Definition pair_le (x y : Z * Z) : Prop := (x.1 < y.1 ∨ (x.1 = y.1 ∧ x.2 ≤ y.2))%Z.
#[global] Instance pair_le_dec : RelDecision pair_le.
Proof. intros x y. unfold pair_le. apply _. Defined.

Definition select_relations (r : GraphWindowResolution) (t : Tables) : list (Z * Z) :=
  merge_sort pair_le ((filter (λ row, in_levels r (pr_child_level row.2)) (map_to_list (tb_parents t))).*1).

Definition push_parent_id (blocks : gmap CompactId PreparedGraphBlock) (row : Z * Z) : option (gmap CompactId PreparedGraphBlock) :=
  child_id ← CompactId_new row.1;
  parent_id ← CompactId_new row.2;
  b ← blocks !! child_id;
  if decide (parent_id = child_id) then None
  else
    Some (<[child_id := MkPreparedGraphBlock (pg_id b) (pg_coordinate b) (pg_timestamp b) (pg_daa_score b) (pg_selected_parent_id b)
              (pg_blue_merge_set b) (pg_red_merge_set b) (pg_color b) (pg_is_in_vspc b) (pg_direct_parents b ++ [parent_id])]> blocks).

Definition load_direct_parent_ids (r : GraphWindowResolution) (blocks : gmap CompactId PreparedGraphBlock) :
    Projection (gmap CompactId PreparedGraphBlock) :=
  rows ← sql_query (select_relations r);
  consistent (fold_m push_parent_id blocks rows).

Definition select_edges (r : GraphWindowResolution) (t : Tables) : list (Z * Z * ParentRelation) :=
  filter (λ row, (0 < pr_parent_level row.2 ∧ Z.of_N (effective_start_level r) ≤ pr_child_level row.2 ∧
                  pr_parent_level row.2 ≤ Z.of_N (effective_end_level r))%Z) (map_to_list (tb_parents t)).

Definition prepare_edge (row : Z * Z * ParentRelation) : option PreparedGraphEdge :=
  let '((child, parent), relation) := row in
  child_id ← CompactId_new child;
  parent_id ← CompactId_new parent;
  child_coordinate ← decode_coordinate (pr_child_level relation) (pr_child_slot relation);
  parent_coordinate ← decode_coordinate (pr_parent_level relation) (pr_parent_slot relation);
  Some (MkPreparedGraphEdge child_id parent_id child_coordinate parent_coordinate).

Definition load_edges (r : GraphWindowResolution) : Projection (list PreparedGraphEdge) :=
  rows ← sql_query (select_edges r);
  consistent (mapM prepare_edge rows).

(** * Hashes *)

Definition required_references (blocks : gmap CompactId PreparedGraphBlock) (edges : list PreparedGraphEdge) : gset CompactId :=
  list_to_set ((map_to_list blocks).*2 ≫= λ b, pg_id b :: pg_blue_merge_set b ++ pg_red_merge_set b ++ pg_direct_parents b) ∪
  list_to_set (edges ≫= λ e, [pe_child_id e; pe_parent_id e]).

Definition select_hashes (ids : list Z) (t : Tables) : list (Z * BlockHash) :=
  filter (λ row, row.1 ∈ ids) (map_to_list (tb_identifiers t)).

Definition push_reference (references : gmap CompactId BlockHash) (row : Z * BlockHash) : option (gmap CompactId BlockHash) :=
  id ← CompactId_new row.1;
  if decide (is_Some (references !! id)) then None else Some (<[id := row.2]> references).

Definition load_reference_hashes (blocks : gmap CompactId PreparedGraphBlock) (edges : list PreparedGraphEdge) :
    Projection (gmap CompactId BlockHash) :=
  let required := required_references blocks edges in
  rows ← sql_query (select_hashes (compact_id <$> elements required));
  references ← consistent (fold_m push_reference ∅ rows);
  if decide (size references ≠ size required ∨ ¬ set_Forall (λ id, is_Some (references !! id)) required) then inconsistent
  else mret references.

(** [references[id]] on each: [None] is a panic. *)
Definition resolve_references (ids : list CompactId) (references : gmap CompactId BlockHash) : option (list BlockHash) :=
  mapM (λ id, references !! id) ids.

(** [position] and [u32::try_from]. *)
Definition position_id (id : CompactId) (ids : list CompactId) : option N :=
  '(index, _) ← list_find (λ i, i = id) ids;
  if decide (N.of_nat index ≤ U32_MAX) then Some (N.of_nat index) else None.

Definition finalize_block (references : gmap CompactId BlockHash) (genesis_hash : BlockHash) (b : PreparedGraphBlock) :
    Projection GraphBlock :=
  hash ← sql_expect (references !! pg_id b);
  selected_parent_index ←
    (if decide (hash = genesis_hash) then mret None
     else index ← consistent (position_id (pg_selected_parent_id b) (pg_direct_parents b)); mret (Some index));
  blue_merge_set ← sql_expect (resolve_references (pg_blue_merge_set b) references);
  red_merge_set ← sql_expect (resolve_references (pg_red_merge_set b) references);
  direct_parents ← sql_expect (resolve_references (pg_direct_parents b) references);
  mret (MkGraphBlock hash (pg_coordinate b) (pg_timestamp b) (pg_daa_score b) selected_parent_index direct_parents blue_merge_set
          red_merge_set (pg_color b) (pg_is_in_vspc b)).

(** The iteration order of the hash map is that of [map_to_list]. *)
Fixpoint finalize_blocks (prepared : list PreparedGraphBlock) (references : gmap CompactId BlockHash) (genesis_hash : BlockHash)
    (blocks : gmap BlockHash GraphBlock) : Projection (gmap BlockHash GraphBlock) :=
  match prepared with
  | [] => mret blocks
  | b :: prepared =>
    block ← finalize_block references genesis_hash b;
    finalize_blocks prepared references genesis_hash (<[hash block := block]> blocks)
  end.

Definition finalize_edge (references : gmap CompactId BlockHash) (e : PreparedGraphEdge) : option (EdgeId * GraphEdge) :=
  parent ← references !! pe_parent_id e;
  child ← references !! pe_child_id e;
  let id := MkEdgeId parent child in
  Some (id, MkGraphEdge id (pe_parent_coordinate e) (pe_child_coordinate e)).

Definition finalize_edges (prepared : list PreparedGraphEdge) (references : gmap CompactId BlockHash) : option (gmap EdgeId GraphEdge) :=
  foldl (λ m ie, <[ie.1 := ie.2]> m) ∅ <$> mapM (finalize_edge references) prepared.

(** * Levels and snapshot metadata *)

Definition level_range (low high : N) : list N := (λ i, low + N.of_nat i) <$> seq 0 (N.to_nat (high + 1 - low)).

Definition required_levels (r : GraphWindowResolution) (edges : gmap EdgeId GraphEdge) : list N :=
  btree_levels (level_range (effective_start_level r) (effective_end_level r) ++
                ((map_to_list edges).*2 ≫= λ e, [child_level e; parent_level e])).

Definition decode_level_row (row : Z * LevelState) : option (N * Level) :=
  level ← decode_positive_level row.1;
  size ← u16_try_from (ls_size row.2);
  if decide (0 < size) then
    daa ← (if decide (ls_daa_score row.2 = NO_VSPC_DAA_SCORE) then Some None else Some <$> decode_daa_score (ls_daa_score row.2));
    Some (level, MkLevel size daa)
  else None.

Definition load_levels (r : GraphWindowResolution) (edges : gmap EdgeId GraphEdge) : Projection (gmap N Level) :=
  let required := required_levels r edges in
  rows ← sql_query (select_levels required);
  decoded ← consistent (mapM decode_level_row rows);
  let levels : gmap N Level := foldl (λ m kv, <[kv.1 := kv.2]> m) ∅ decoded in
  if decide (size levels ≠ length required) then inconsistent else mret levels.

Definition load_snapshot_metadata : Projection (CompactId * BlockHash) :=
  raw_max ← sql_query (λ t, max_id (tb_blocks t));
  max_id ← consistent (raw_max ≫= CompactId_new);
  sink ← sql_query select_sink;
  sink_hash ← consistent sink;
  mret (max_id, sink_hash.2).

(** * The projection *)

Definition load_seed (scope : ProjectionScope) (genesis_hash : BlockHash) : Projection GraphViewSeed :=
  let r := ps_resolution scope in
  prepared ← load_nominal_blocks r;
  prepared ← load_direct_parent_ids r prepared;
  prepared_edges ← load_edges r;
  references ← load_reference_hashes prepared prepared_edges;
  blocks ← finalize_blocks (map_to_list prepared).*2 references genesis_hash ∅;
  edges ← sql_expect (finalize_edges prepared_edges references);
  levels ← load_levels r edges;
  '(max_materialized_id, vspc_sink) ← load_snapshot_metadata;
  mret (MkGraphViewSeed r (ps_max_depth scope) levels blocks edges max_materialized_id vspc_sink).

(** [load]: begin, the isolation level, the window, the seed; its commit is
    that of the attempt. *)
Definition load_body (genesis_hash : BlockHash) (request : GraphViewSeedRequest) : Projection GraphViewSeedOutcome :=
  _ ← sql_begin;
  _ ← sql_begin;
  scope ← resolve_scope request;
  match scope with
  | inr unavailable => mret (AnchorUnavailable unavailable)
  | inl scope => seed ← load_seed scope genesis_hash; mret (SeedLoaded seed)
  end.

Definition query_error (error : SqlxError) : ApiReadError :=
  if sqlx_connection_lost error then GenerationLost else QueryFailed.

(** [None] is a panic. *)
Definition load (genesis_hash : BlockHash) (request : GraphViewSeedRequest) (fates : AttemptFates) (t : Tables) :
    option (Result GraphViewSeedOutcome ApiReadError) :=
  (λ r, match r with
        | Ok outcome => Ok outcome
        | Err (AttemptSemantic e) => Err e
        | Err (AttemptDatabase _ e) => Err (query_error e)
        | Err (AttemptStorage _) => Err InconsistentProjection
        end) <$> (run_attempt keep_sequence (load_body genesis_hash request) fates t).2.
End projection.
