(* ===== verification/ProjectionSpec.v ===== *)
(** What a projection of well-formed tables shows: the blocks, edges and levels
    of its window, read without error; and that the Head seed satisfies what
    the publication runtime expects of it. *)

From S2P Require Import Prelude Model Faults Delta GraphView ViewInvariant Runtime RuntimeSafety.
From S2P Require Import Sql Store Resolver Materialization VspcStore StoreClient StoreInvariant StoreInsert.
From S2P Require Import StoreMaterialize StoreVspc StoreChain Projection.

#[local] Open Scope Z_scope.

Section projection_spec.
Context {KH : KaspaHash}.
Implicit Types (t : Tables) (h : BlockHash) (id : Z) (b : StoredBlock) (gb : GraphBlock) (r : GraphWindowResolution).

(** * What a graph shows of tables *)

Definition shown_level t (l : N) : option Level := (λ s, MkLevel (lc_size s) (lc_daa_score s)) <$> snapshot_at t l.

(** [gb] shows the row [b] of [id]; the order of its parents is its own. *)
Record block_shown (genesis : BlockHash) t id b gb : Prop := {
  sh_hash : tb_identifiers t !! id = Some (hash gb);
  sh_coordinate : coordinate gb = stored_coordinate b;
  sh_timestamp : timestamp gb = timestamp_from_sql (sb_timestamp b);
  sh_daa : block_daa_score gb = Z.to_N (sb_daa_score b);
  sh_blue : Forall2 (λ i h, tb_identifiers t !! i = Some h) (sb_blue_merge_set b) (blue_merge_set gb);
  sh_red : Forall2 (λ i h, tb_identifiers t !! i = Some h) (sb_red_merge_set b) (red_merge_set gb);
  sh_parents : NoDup (direct_parents gb) ∧
    ∀ h, h ∈ direct_parents gb ↔ ∃ p, is_Some (tb_parents t !! (id, p)) ∧ tb_identifiers t !! p = Some h;
  sh_selected : if decide (hash gb = genesis) then selected_parent_index gb = None
    else ∃ i h, selected_parent_index gb = Some i ∧ direct_parents gb !! N.to_nat i = Some h ∧
           tb_identifiers t !! sb_selected_parent_id b = Some h;
  sh_color : color_to_sql (color gb) = sb_color b;
  sh_vspc : is_in_vspc gb = sb_is_in_vspc b
}.

Definition shown_edge (eid : EdgeId) (relation : ParentRelation) : GraphEdge :=
  MkGraphEdge eid (MkBlockCoordinate (Z.to_N (pr_parent_level relation)) (Z.to_N (pr_parent_slot relation)))
    (MkBlockCoordinate (Z.to_N (pr_child_level relation)) (Z.to_N (pr_child_slot relation))).

(** Blocks, edges and levels of the window [ext], and of the edges' ends. *)
Record graph_tracks (genesis : BlockHash) t (ext : LevelExtent) (bs : gmap BlockHash GraphBlock) (es : gmap EdgeId GraphEdge)
    (ls : gmap N Level) : Prop := {
  gt_blocks : ∀ h gb, bs !! h = Some gb → ∃ id b, tb_blocks t !! id = Some b ∧ block_shown genesis t id b gb ∧ hash gb = h ∧
    contains_level ext (block_level gb);
  gt_all : ∀ id b h, tb_blocks t !! id = Some b → tb_identifiers t !! id = Some h → contains_level ext (Z.to_N (sb_level b)) →
    is_Some (bs !! h);
  gt_edges : ∀ eid e, es !! eid = Some e ↔ ∃ c p relation, tb_parents t !! (c, p) = Some relation ∧
    tb_identifiers t !! c = Some (child eid) ∧ tb_identifiers t !! p = Some (parent eid) ∧
    (0 < pr_parent_level relation ∧ Z.of_N (low_level ext) ≤ pr_child_level relation ∧
     pr_parent_level relation ≤ Z.of_N (high_level ext)) ∧ e = shown_edge eid relation;
  gt_levels : ∀ l x, ls !! l = Some x ↔
    (contains_level ext l ∨ ∃ eid e, es !! eid = Some e ∧ (l = child_level e ∨ l = parent_level e)) ∧ shown_level t l = Some x
}.

(** * Decoding *)

Lemma decode_positive_level_ok l : 1 ≤ l ≤ Z.of_N U32_MAX → decode_positive_level l = Some (Z.to_N l).
Proof. intros H. unfold decode_positive_level. rewrite u32_try_from_ok by lia. run_bind. by rewrite decide_True by lia. Qed.

Lemma decode_coordinate_ok l s : coordinate_in_range 1 l s → decode_coordinate l s = Some (MkBlockCoordinate (Z.to_N l) (Z.to_N s)).
Proof.
  intros [Hl Hs]. unfold decode_coordinate. rewrite decode_positive_level_ok by lia. run_bind.
  rewrite u16_try_from_ok by (unfold MAX_LEVEL_SLOT, MAX_LEVEL_SIZE in Hs; lia). run_bind.
  unfold BlockCoordinate_new. by rewrite decide_True by lia.
Qed.

Lemma decode_daa_score_ok s : 0 ≤ s < I64_MAX_Z → decode_daa_score s = Some (Z.to_N s).
Proof.
  intros H. unfold decode_daa_score, u64_try_from. rewrite decide_True by lia. run_bind.
  rewrite decide_True; [done|]. unfold MAX_DAA_SCORE, I64_MAX. unfold I64_MAX_Z in H. lia.
Qed.

Lemma decode_color_ok c : 0 ≤ c ≤ 2 → ∃ x, decode_color c = Some x ∧ color_to_sql x = c.
Proof.
  intros H. unfold decode_color. repeat case_decide; subst; eauto. lia.
Qed.

Lemma decode_ids_positive ids : (∀ i, i ∈ ids → 0 < i) → decode_ids ids = Some (MkCompactId <$> ids).
Proof.
  unfold decode_ids. induction ids as [|i ids IH]; intros H; [done|]. simpl. rewrite CompactId_new_pos by (apply H; left). run_bind.
  rewrite IH by (intros; apply H; by right). done.
Qed.

(** * Maps built by insertion *)

Lemma foldl_insert_spec {K V A} `{Countable K} (key : A → K) (val : A → V) (l : list A) (m : gmap K V) :
  (∀ k v, foldl (λ m x, <[key x := val x]> m) m l !! k = Some v → (∃ x, x ∈ l ∧ key x = k ∧ val x = v) ∨ m !! k = Some v) ∧
  (∀ x, x ∈ l → is_Some (foldl (λ m x, <[key x := val x]> m) m l !! key x)).
Proof.
  induction l as [|y l [IH1 IH2]] using rev_ind; [split; [by right|by intros x ?%elem_of_nil]|].
  rewrite foldl_app. cbn [foldl]. split.
  - intros k v. rewrite lookup_insert_Some. intros [[<- <-]|[_ E]].
    + left. exists y. split; [apply elem_of_app; right; left|done].
    + destruct (IH1 k v E) as [(x & Hx & ? & ?)|?]; [left; exists x; split; [apply elem_of_app; by left|done]|by right].
  - intros x. rewrite lookup_insert_is_Some'. intros [Hx| ->%list_elem_of_singleton]%elem_of_app; [right; by apply IH2|by left].
Qed.

Lemma foldl_insert_lookup {K V A} `{Countable K} (key : A → K) (val : A → V) (l : list A) k v :
  (∀ x y, x ∈ l → y ∈ l → key x = key y → val x = val y) →
  foldl (λ m x, <[key x := val x]> m) (∅ : gmap K V) l !! k = Some v ↔ ∃ x, x ∈ l ∧ key x = k ∧ val x = v.
Proof.
  intros Hf. destruct (foldl_insert_spec key val l ∅) as [H1 H2]. split.
  - intros [?|E]%H1; [done|by rewrite lookup_empty in E].
  - intros (x & Hx & <- & <-). destruct (H2 x Hx) as [w Ew]. rewrite Ew. f_equal.
    destruct (H1 _ _ Ew) as [(y & Hy & Ek & <-)|E]; [by apply Hf|by rewrite lookup_empty in E].
Qed.

(** * Nominal blocks *)

Definition color_of b : BlockColor := default Gray (decode_color (sb_color b)).

Definition prepared_of id b (parents : list CompactId) : PreparedGraphBlock :=
  MkPreparedGraphBlock (MkCompactId id) (stored_coordinate b) (timestamp_from_sql (sb_timestamp b)) (Z.to_N (sb_daa_score b))
    (MkCompactId (sb_selected_parent_id b)) (MkCompactId <$> sb_blue_merge_set b) (MkCompactId <$> sb_red_merge_set b)
    (color_of b) (sb_is_in_vspc b) parents.

Section tables.
Context (genesis : BlockHash) (t : Tables).
Hypothesis Hi : store_inv genesis t.

Lemma reference_positive id b i : tb_blocks t !! id = Some b → i ∈ reference_ids b → 0 < i ∧ is_Some (tb_identifiers t !! i).
Proof.
  intros Hb Hin. destruct (st_references _ _ Hi _ _ _ Hb Hin) as [[h Hid] _]. split; [|by eexists].
  pose proof (st_ids _ _ Hi _ _ Hid). lia.
Qed.

Lemma block_id_positive id b : tb_blocks t !! id = Some b → 0 < id.
Proof. intros Hb. destruct (st_blocks _ _ Hi _ _ Hb) as [[h Hid] _]. pose proof (st_ids _ _ Hi _ _ Hid). lia. Qed.

Lemma prepare_block_ok id b : tb_blocks t !! id = Some b → prepare_block (id, b) = Some (prepared_of id b []).
Proof.
  intros Hb. destruct (st_blocks _ _ Hi _ _ Hb) as [_ (Hdaa & Hc & Hcol)]. unfold prepare_block. cbn [fst snd].
  rewrite (CompactId_new_pos id) by (eapply block_id_positive; exact Hb). run_bind. rewrite decode_coordinate_ok by done. run_bind.
  rewrite decode_daa_score_ok by done. run_bind.
  rewrite (CompactId_new_pos (sb_selected_parent_id b)) by (apply (reference_positive id b); [done|left]). run_bind.
  rewrite (decode_ids_positive (sb_blue_merge_set b)) by (intros i Hin; apply (reference_positive id b); [done|right; apply elem_of_app; by left]). run_bind.
  rewrite (decode_ids_positive (sb_red_merge_set b)) by (intros i Hin; apply (reference_positive id b); [done|right; apply elem_of_app; by right]). run_bind.
  destruct (decode_color_ok _ Hcol) as (x & Ex & _). unfold prepared_of, color_of. rewrite Ex. done.
Qed.

(** The nominal blocks of a window, with parents [f]. *)
Definition nominal r (f : Z → list CompactId) (i : CompactId) : option PreparedGraphBlock :=
  b ← tb_blocks t !! compact_id i;
  if decide (in_levels r (sb_level b)) then Some (prepared_of (compact_id i) b (f (compact_id i))) else None.

Lemma relation_known c p relation : tb_parents t !! (c, p) = Some relation →
  0 < c ∧ 0 < p ∧ p < c ∧ is_Some (tb_identifiers t !! c) ∧ is_Some (tb_identifiers t !! p) ∧
  ∃ b, tb_blocks t !! c = Some b ∧ pr_child_level relation = sb_level b ∧ pr_child_slot relation = sb_slot b ∧
    match tb_blocks t !! p with
    | Some pb => pr_parent_level relation = sb_level pb ∧ pr_parent_slot relation = sb_slot pb ∧ sb_level pb < sb_level b
    | None => pr_parent_level relation = 0 ∧ pr_parent_slot relation = 0
    end.
Proof.
  intros Hr. destruct (st_parents _ _ Hi _ _ _ Hr) as (Hlt & [h Hp] & b & Hb & -> & Hl).
  pose proof (st_ids _ _ Hi _ _ Hp). destruct (st_blocks _ _ Hi _ _ Hb) as [Hc _].
  split; [lia|]. split; [lia|]. split; [done|]. split; [done|]. split; [by eexists|]. exists b. split; [done|].
  unfold relation_of in *. by destruct (tb_blocks t !! p).
Qed.

Lemma elem_of_relations r c p : (c, p) ∈ select_relations r t ↔
  ∃ relation, tb_parents t !! (c, p) = Some relation ∧ in_levels r (pr_child_level relation).
Proof.
  unfold select_relations. rewrite merge_sort_Permutation, list_elem_of_fmap. split.
  - intros ([[c' p'] relation] & [= <- <-] & [Hl Hr%elem_of_map_to_list]%list_elem_of_filter). by exists relation.
  - intros (relation & Hr & Hl). exists (c, p, relation). split; [done|]. apply list_elem_of_filter. split; [done|by apply elem_of_map_to_list].
Qed.

Lemma NoDup_relations r : NoDup (select_relations r t).
Proof.
  unfold select_relations. rewrite merge_sort_Permutation. apply (sublist_NoDup _ (map_to_list (tb_parents t)).*1); [apply NoDup_fst_map_to_list|].
  apply fmap_sublist, sublist_filter.
Qed.

(** The parents of a child among rows, in their order. *)
Definition parents_in (rows : list (Z * Z)) id : list Z := snd <$> filter (λ k, k.1 = id) rows.

Lemma elem_of_parents_in rows id p : p ∈ parents_in rows id ↔ (id, p) ∈ rows.
Proof.
  unfold parents_in. rewrite list_elem_of_fmap. split.
  - by intros ([c p'] & -> & [<- ?]%list_elem_of_filter).
  - intros H. exists (id, p). split; [done|]. by apply list_elem_of_filter.
Qed.

Lemma NoDup_parents_in rows id : NoDup rows → NoDup (parents_in rows id).
Proof.
  intros Hnd. unfold parents_in. apply NoDup_fmap_2_strong; [|by apply NoDup_filter].
  intros [c p] [c' p'] [Ec _]%list_elem_of_filter [Ec' _]%list_elem_of_filter E. simpl in *. congruence.
Qed.

Lemma push_parents r rows f (m : gmap CompactId PreparedGraphBlock) :
  (∀ i, m !! i = nominal r f i) → (∀ row, row ∈ rows → row ∈ select_relations r t) →
  ∃ m', fold_m push_parent_id m rows = Some m' ∧
    ∀ i, m' !! i = nominal r (λ id, f id ++ (MkCompactId <$> parents_in rows id)) i.
Proof.
  revert f m. induction rows as [|[c p] rows IH]; intros f m Hm Hrows.
  { exists m. split; [done|]. intros i. rewrite Hm. unfold nominal. destruct (tb_blocks t !! compact_id i); [|done]. simpl.
    by rewrite app_nil_r. }
  destruct (proj1 (elem_of_relations r c p) (Hrows _ ltac:(left))) as (relation & Hr & Hl).
  destruct (relation_known c p relation Hr) as (Hc & Hp & Hne & _ & _ & b & Hb & El & _). rewrite El in Hl.
  assert (m !! MkCompactId c = Some (prepared_of c b (f c))) as Ec by (rewrite Hm; unfold nominal; simpl; rewrite Hb; run_bind; by rewrite decide_True).
  destruct (IH (λ id, f id ++ (if decide (id = c) then [MkCompactId p] else [])) (<[MkCompactId c := prepared_of c b (f c ++ [MkCompactId p])]> m))
    as (m' & Em' & Hm').
  - intros i. destruct (decide (MkCompactId c = i)) as [<-|Hi'].
    + rewrite lookup_insert_eq. unfold nominal. simpl. rewrite Hb. run_bind. rewrite !decide_True by done. done.
    + rewrite lookup_insert_ne, Hm by done. unfold nominal. destruct (tb_blocks t !! compact_id i); [|done]. simpl.
      rewrite (decide_False (P:=compact_id i = c)) by (intros <-; by destruct i). by rewrite app_nil_r.
  - intros row Hin. apply Hrows. by right.
  - exists m'. split.
    + assert (push_parent_id m (c, p) = Some (<[MkCompactId c := prepared_of c b (f c ++ [MkCompactId p])]> m)) as Ep.
      { unfold push_parent_id. cbn [fst snd]. rewrite (CompactId_new_pos c), (CompactId_new_pos p) by done. run_bind.
        rewrite Ec. run_bind. by rewrite decide_False by (intros [=]; lia). }
      cbn [fold_m]. rewrite Ep. exact Em'.
    + intros i. rewrite Hm'. unfold nominal. destruct (tb_blocks t !! compact_id i); [|done]. simpl. case_decide; [|done]. f_equal. f_equal.
      unfold parents_in. rewrite filter_cons. simpl. rewrite <- app_assoc. f_equal.
      destruct (decide (compact_id i = c)) as [<-|Hn]; [by rewrite decide_True|by rewrite decide_False by congruence].
Qed.

(** * Statements *)

Section statements.
Context (injected : SqlxError → Prop) (E : SqlOutcome ApiReadError GraphViewSeedOutcome → Tables → bool → Prop).
Hypothesis HE : ∀ e, injected e → E (SqlFailed (AttemptDatabase BeforeCommit e)) t false.

Lemma wp_consistent {A} (o : option A) a (Q : A → Tables → bool → Prop) :
  o = Some a → Q a t false → wp injected (consistent o) Q E t false.
Proof. intros -> HQ. by apply wp_ret. Qed.

Lemma wp_read {A} (q : Tables → A) (Q : A → Tables → bool → Prop) : Q (q t) t false → wp injected (sql_query q) Q E t false.
Proof. intros HQ. by apply wp_query. Qed.

Lemma mapM_cons_Some {A B} (f : A → option B) x l y k : f x = Some y → mapM f l = Some k → mapM f (x :: l) = Some (y :: k).
Proof. intros H1 H2. simpl. rewrite H1. run_bind. by rewrite H2. Qed.

Lemma mapM_total {A B} (f : A → option B) (g : A → B) l : (∀ x, x ∈ l → f x = Some (g x)) → mapM f l = Some (g <$> l).
Proof.
  induction l as [|x l IH]; intros Hf; [done|]. simpl. rewrite (Hf x) by left. run_bind. rewrite IH by (intros; apply Hf; by right). done.
Qed.

Lemma elem_of_nominal_rows r id b : (id, b) ∈ select_nominal_blocks r t ↔ tb_blocks t !! id = Some b ∧ in_levels r (sb_level b).
Proof. unfold select_nominal_blocks. rewrite list_elem_of_filter, elem_of_map_to_list. simpl. tauto. Qed.

Lemma wp_load_nominal_blocks r (Q : gmap CompactId PreparedGraphBlock → Tables → bool → Prop) :
  (∀ m, (∀ i, m !! i = nominal r (λ _, []) i) → Q m t false) → wp injected (load_nominal_blocks r) Q E t false.
Proof.
  intros HQ. unfold load_nominal_blocks. apply wp_bind, wp_read. apply wp_bind.
  eapply wp_consistent; [apply (mapM_total _ (λ row, prepared_of row.1 row.2 []))|].
  { intros [id b] Hin. apply elem_of_nominal_rows in Hin as [Hb _]. by apply prepare_block_ok. }
  apply wp_ret, HQ. intros i. apply option_eq. intros x. rewrite (foldl_insert_lookup pg_id (λ x, x)).
  2: { intros y z (rx & -> & Hx)%list_elem_of_fmap (ry & -> & Hy)%list_elem_of_fmap Eid. destruct rx as [id b], ry as [id' b'].
       injection Eid as ->. apply elem_of_nominal_rows in Hx as [Hx _], Hy as [Hy _]. congruence. }
  unfold nominal. split.
  - intros (y & (row & -> & Hin)%list_elem_of_fmap & <- & <-). destruct row as [id b]. apply elem_of_nominal_rows in Hin as [Hb Hl]. simpl.
    rewrite Hb. run_bind. by rewrite decide_True.
  - intros (b & Hb & Hx)%bind_Some. case_decide as Hl; [|done]. injection Hx as <-. eexists. split; [|split; [|done]].
    + apply list_elem_of_fmap. exists (compact_id i, b). split; [done|]. by apply elem_of_nominal_rows.
    + simpl. by destruct i.
Qed.

Definition parent_ids r id : list CompactId := MkCompactId <$> parents_in (select_relations r t) id.

Lemma wp_load_direct_parent_ids r m (Q : gmap CompactId PreparedGraphBlock → Tables → bool → Prop) :
  (∀ i, m !! i = nominal r (λ _, []) i) → (∀ m', (∀ i, m' !! i = nominal r (parent_ids r) i) → Q m' t false) →
  wp injected (load_direct_parent_ids r m) Q E t false.
Proof.
  intros Hm HQ. unfold load_direct_parent_ids. apply wp_bind, wp_read.
  destruct (push_parents r (select_relations r t) (λ _, []) m Hm) as (m' & Em' & Hm'); [done|].
  eapply wp_consistent; [exact Em'|]. by apply HQ.
Qed.

(** ** Edges *)

Definition prepared_edge (row : Z * Z * ParentRelation) : PreparedGraphEdge :=
  MkPreparedGraphEdge (MkCompactId row.1.1) (MkCompactId row.1.2)
    (MkBlockCoordinate (Z.to_N (pr_child_level row.2)) (Z.to_N (pr_child_slot row.2)))
    (MkBlockCoordinate (Z.to_N (pr_parent_level row.2)) (Z.to_N (pr_parent_slot row.2))).

Lemma elem_of_edge_rows r row : row ∈ select_edges r t ↔ tb_parents t !! row.1 = Some row.2 ∧
  0 < pr_parent_level row.2 ∧ Z.of_N (effective_start_level r) ≤ pr_child_level row.2 ∧
  pr_parent_level row.2 ≤ Z.of_N (effective_end_level r).
Proof. unfold select_edges. destruct row as [k relation]. rewrite list_elem_of_filter, elem_of_map_to_list. simpl. tauto. Qed.

Lemma relation_coordinates c p relation : tb_parents t !! (c, p) = Some relation → 0 < pr_parent_level relation →
  coordinate_in_range 1 (pr_child_level relation) (pr_child_slot relation) ∧
  coordinate_in_range 1 (pr_parent_level relation) (pr_parent_slot relation) ∧
  pr_parent_level relation < pr_child_level relation ∧
  is_Some (tb_levels t !! pr_child_level relation) ∧ is_Some (tb_levels t !! pr_parent_level relation).
Proof.
  intros Hr Hpos. destruct (relation_known _ _ _ Hr) as (_ & _ & _ & _ & _ & b & Hb & -> & -> & Hp).
  destruct (st_blocks _ _ Hi _ _ Hb) as [_ (_ & Hc & _)]. split; [done|].
  destruct (tb_blocks t !! p) as [pb|] eqn:Ep; [|destruct Hp; lia]. destruct Hp as (-> & -> & Hlt).
  destruct (st_blocks _ _ Hi _ _ Ep) as [_ (_ & Hc' & _)]. split; [done|]. split; [done|].
  split; by eapply (st_leveled _ _ Hi).
Qed.

Lemma wp_load_edges r (Q : list PreparedGraphEdge → Tables → bool → Prop) :
  Q (prepared_edge <$> select_edges r t) t false → wp injected (load_edges r) Q E t false.
Proof.
  intros HQ. unfold load_edges. apply wp_bind, wp_read. eapply wp_consistent; [|exact HQ]. apply mapM_total.
  intros [[c p] relation] Hin. apply elem_of_edge_rows in Hin as (Hr & Hpos & _). simpl in Hr, Hpos.
  destruct (relation_known _ _ _ Hr) as (Hc & Hp & _). destruct (relation_coordinates _ _ _ Hr Hpos) as (Hcc & Hpc & _).
  unfold prepare_edge. rewrite (CompactId_new_pos c), (CompactId_new_pos p) by done. run_bind.
  rewrite (decode_coordinate_ok (pr_child_level relation)) by done. run_bind. by rewrite decode_coordinate_ok.
Qed.
(** ** Hashes *)

Lemma push_references rows (m : gmap CompactId BlockHash) :
  NoDup rows.*1 → (∀ id h, (id, h) ∈ rows → 0 < id ∧ m !! MkCompactId id = None) →
  ∃ m', fold_m push_reference m rows = Some m' ∧ ∀ i h, m' !! i = Some h ↔ (compact_id i, h) ∈ rows ∨ m !! i = Some h.
Proof.
  revert m. induction rows as [|[id h] rows IH]; intros m Hnd Hrows.
  { exists m. split; [done|]. intros i h. split; [by right|]. by intros [?%elem_of_nil|?]. }
  apply NoDup_cons in Hnd as [Hid Hnd]. destruct (Hrows id h) as [Hpos Hm]; [left|].
  destruct (IH (<[MkCompactId id := h]> m)) as (m' & Em' & Hm'); [done| |].
  - intros id' h' Hin. destruct (Hrows id' h') as [Hpos' Hm'']; [by right|]. split; [done|]. rewrite lookup_insert_ne; [done|].
    intros [= ->]. apply Hid, list_elem_of_fmap. by exists (id', h').
  - exists m'. split.
    + assert (push_reference m (id, h) = Some (<[MkCompactId id := h]> m)) as Ep.
      { unfold push_reference. cbn [fst snd]. rewrite CompactId_new_pos by done. run_bind. rewrite decide_False; [done|].
        rewrite Hm. by intros []. }
      cbn [fold_m]. rewrite Ep. exact Em'.
    + intros i h'. rewrite Hm', lookup_insert_Some, elem_of_cons. split.
      * intros [?|[[<- <-]|[_ ?]]]; [left; by right|left; by left|by right].
      * intros [[[= Ei ->]|?]|E']; [right; left; split; [by destruct i; simpl in Ei; subst|done]|by left|].
        destruct (decide (MkCompactId id = i)) as [<-|]; [congruence|by right; right].
Qed.

Definition known (i : CompactId) : Prop := is_Some (tb_identifiers t !! compact_id i).
Definition hashes_of (ids : gset CompactId) (references : gmap CompactId BlockHash) : Prop :=
  ∀ i, i ∈ ids → references !! i = tb_identifiers t !! compact_id i ∧ is_Some (references !! i).

Lemma wp_load_reference_hashes blocks edges (Q : gmap CompactId BlockHash → Tables → bool → Prop) :
  (∀ i, i ∈ required_references blocks edges → known i) →
  (∀ references, hashes_of (required_references blocks edges) references → Q references t false) →
  wp injected (load_reference_hashes blocks edges) Q E t false.
Proof.
  intros Hk HQ. unfold load_reference_hashes. set (required := required_references blocks edges) in *.
  apply wp_bind, wp_read. apply wp_bind. set (rows := select_hashes _ t).
  assert (∀ id h, (id, h) ∈ rows ↔ tb_identifiers t !! id = Some h ∧ MkCompactId id ∈ required) as Hrows.
  { intros id h. unfold rows, select_hashes. rewrite list_elem_of_filter, elem_of_map_to_list, list_elem_of_fmap. simpl. split.
    - intros [(i & -> & Hin%elem_of_elements) Hid]. split; [done|by destruct i].
    - intros [Hid Hin]. split; [|done]. exists (MkCompactId id). split; [done|by apply elem_of_elements]. }
  destruct (push_references rows ∅) as (references & Eref & Href).
  { unfold rows, select_hashes. apply (sublist_NoDup _ (map_to_list (tb_identifiers t)).*1); [apply NoDup_fst_map_to_list|].
    apply fmap_sublist, sublist_filter. }
  { intros id h [Hid _]%Hrows. pose proof (st_ids _ _ Hi _ _ Hid). split; [lia|apply lookup_empty]. }
  eapply wp_consistent; [exact Eref|].
  assert (∀ i h, references !! i = Some h ↔ tb_identifiers t !! compact_id i = Some h ∧ i ∈ required) as Hlk.
  { intros i h. rewrite Href, Hrows, lookup_empty. destruct i; simpl. naive_solver. }
  assert (dom references = required) as Hdom.
  { apply set_eq. intros i. rewrite elem_of_dom. split.
    - by intros [h [_ ?]%Hlk].
    - intros Hin. destruct (Hk i Hin) as [h Hh]. exists h. by apply Hlk. }
  assert (hashes_of required references) as Hok.
  { intros i Hin. destruct (Hk i Hin) as [h Hh]. assert (references !! i = Some h) as -> by by apply Hlk. split; [done|by eexists]. }
  rewrite decide_False; [by apply wp_ret, HQ|]. intros [Hs|Hs].
  - apply Hs. by rewrite <- size_dom, Hdom.
  - apply Hs. intros i Hin. by apply Hok.
Qed.

(** ** Final blocks and edges *)

Lemma resolve_references_ok (ids : gset CompactId) references (l : list Z) :
  hashes_of ids references → (∀ i, i ∈ l → MkCompactId i ∈ ids) →
  ∃ hs, resolve_references (MkCompactId <$> l) references = Some hs ∧ Forall2 (λ i h, tb_identifiers t !! i = Some h) l hs.
Proof.
  intros Hok. induction l as [|i l IH]; intros Hin; [by exists []|]. destruct IH as (hs & Ehs & Hhs); [intros; apply Hin; by right|].
  destruct (Hok (MkCompactId i)) as [E1 [h E2]]; [apply Hin; left|]. exists (h :: hs). unfold resolve_references in *. rewrite fmap_cons.
  split; [by apply mapM_cons_Some|]. constructor; [|done]. simpl in E1. congruence.
Qed.

Lemma Forall2_lookup_id (l : list Z) (hs : list BlockHash) h :
  Forall2 (λ i h, tb_identifiers t !! i = Some h) l hs → h ∈ hs ↔ ∃ i, i ∈ l ∧ tb_identifiers t !! i = Some h.
Proof.
  induction 1 as [|i x l hs Hix _ IH]; [split; [by intros ?%elem_of_nil|by intros (? & ?%elem_of_nil & _)]|].
  rewrite elem_of_cons, IH. split.
  - intros [->|(j & Hj & Ej)]; [exists i; split; [left|done]|exists j; split; [by right|done]].
  - intros (j & [->|Hj]%elem_of_cons & Ej); [left; congruence|right; by exists j].
Qed.

Lemma NoDup_hashes (l : list Z) (hs : list BlockHash) :
  Forall2 (λ i h, tb_identifiers t !! i = Some h) l hs → NoDup l → NoDup hs.
Proof.
  induction 1 as [|i x l hs Hix Hl IH]; [constructor|]. intros [Hin Hnd]%NoDup_cons. constructor; [|by apply IH].
  intros (j & Hj & Ej)%(Forall2_lookup_id l hs); [|done]. apply Hin. assert (i = j) as ->; [|done]. by apply (st_hashes _ _ Hi i j x).
Qed.

(** Fewer parents than [u32] counts. *)
Definition parents_counted : Prop :=
  ∀ id (l : list Z), NoDup l → (∀ p, p ∈ l → is_Some (tb_parents t !! (id, p))) → (N.of_nat (length l) ≤ U32_MAX + 1)%N.

Lemma wp_finalize_block r ids references id b (Q : GraphBlock → Tables → bool → Prop) :
  parents_counted → hashes_of ids references → tb_blocks t !! id = Some b → in_levels r (sb_level b) →
  MkCompactId id ∈ ids → (∀ i, i ∈ sb_blue_merge_set b ++ sb_red_merge_set b ++ parents_in (select_relations r t) id → MkCompactId i ∈ ids) →
  (∀ gb, block_shown genesis t id b gb → Q gb t false) →
  wp injected (finalize_block references genesis (prepared_of id b (parent_ids r id))) Q E t false.
Proof.
  intros Hcount Hok Hb Hl Hid Hin HQ. destruct (st_blocks _ _ Hi _ _ Hb) as [[h Hh] (_ & _ & Hcol)]. unfold finalize_block, prepared_of.
  cbn [pg_id pg_selected_parent_id pg_direct_parents pg_blue_merge_set pg_red_merge_set].
  destruct (Hok _ Hid) as [Eh _]. simpl in Eh. rewrite Hh in Eh. rewrite Eh. apply wp_bind, wp_expect; [done|]. intros ? [= <-].
  destruct (resolve_references_ok ids references (sb_blue_merge_set b)) as (blue & Eblue & Hblue); [done|intros; apply Hin, elem_of_app; by left|].
  destruct (resolve_references_ok ids references (sb_red_merge_set b)) as (red & Ered & Hred); [done|intros; apply Hin; rewrite !elem_of_app; auto|].
  set (l := parents_in (select_relations r t) id) in *.
  destruct (resolve_references_ok ids references l) as (parents & Epar & Hpar); [done|intros; apply Hin; rewrite !elem_of_app; auto|].
  assert (NoDup l) as Hndl by (apply NoDup_parents_in, NoDup_relations).
  assert (∀ p, p ∈ l ↔ is_Some (tb_parents t !! (id, p))) as Hlp.
  { intros p. unfold l. rewrite elem_of_parents_in, elem_of_relations. split; [intros (x & -> & _); by eexists|].
    intros [x Hx]. exists x. split; [done|]. destruct (relation_known _ _ _ Hx) as (_ & _ & _ & _ & _ & b' & Hb' & -> & _).
    assert (b' = b) as -> by congruence. done. }
  assert (∀ sel, (if decide (h = genesis) then sel = None
      else ∃ i x, sel = Some i ∧ parents !! N.to_nat i = Some x ∧ tb_identifiers t !! sb_selected_parent_id b = Some x) →
    block_shown genesis t id b (MkGraphBlock h (stored_coordinate b) (timestamp_from_sql (sb_timestamp b)) (Z.to_N (sb_daa_score b)) sel parents blue red
      (color_of b) (sb_is_in_vspc b))) as Hshown.
  { intros sel Hsel. split; try done.
    - split; [by apply (NoDup_hashes l)|]. intros x. cbn [direct_parents]. rewrite (Forall2_lookup_id l) by done.
      split; intros (p & Hp & Ep); exists p; (split; [by apply Hlp|done]).
    - simpl. unfold color_of. destruct (decode_color_ok _ Hcol) as (x & -> & Ex). done. }
  apply wp_bind. case_decide as Hgen.
  - apply wp_ret. apply wp_bind, wp_expect; [by rewrite Eblue|]. intros ? Ex. rewrite Eblue in Ex. injection Ex as <-.
    apply wp_bind, wp_expect; [by rewrite Ered|]. intros ? Ex. rewrite Ered in Ex. injection Ex as <-.
    apply wp_bind, wp_expect; [unfold parent_ids; fold l; by rewrite Epar|]. intros ? Ex. unfold parent_ids in Ex. fold l in Ex. rewrite Epar in Ex. injection Ex as <-.
    apply wp_ret, HQ, Hshown. done.
  - destruct (st_selected _ _ Hi _ _ _ Hb Hh) as [[_ Hsp]|(? & _)]; [|done]. apply Hlp in Hsp.
    assert (∃ n, position_id (MkCompactId (sb_selected_parent_id b)) (parent_ids r id) = Some (N.of_nat n) ∧ l !! n = Some (sb_selected_parent_id b)) as (n & En & Eln).
    { unfold position_id, parent_ids. fold l.
      destruct (list_find_elem_of (λ i, i = MkCompactId (sb_selected_parent_id b)) (MkCompactId <$> l) (MkCompactId (sb_selected_parent_id b))) as [[n x] Ef];
        [apply list_elem_of_fmap; by eexists|done|].
      rewrite Ef. run_bind. apply list_find_Some in Ef as (El & -> & _). rewrite list_lookup_fmap in El. apply fmap_Some in El as (y & Ey & [= ->]).
      exists n. split; [|done]. apply lookup_lt_Some in Ey. pose proof (Hcount id l Hndl (λ p Hp, proj1 (Hlp p) Hp)). by rewrite decide_True by lia. }
    apply wp_bind. eapply wp_consistent; [exact En|]. apply wp_ret.
    apply wp_bind, wp_expect; [by rewrite Eblue|]. intros ? Ex. rewrite Eblue in Ex. injection Ex as <-.
    apply wp_bind, wp_expect; [by rewrite Ered|]. intros ? Ex. rewrite Ered in Ex. injection Ex as <-.
    apply wp_bind, wp_expect; [unfold parent_ids; fold l; by rewrite Epar|]. intros ? Ex. unfold parent_ids in Ex. fold l in Ex. rewrite Epar in Ex. injection Ex as <-.
    apply wp_ret, HQ, Hshown. destruct (Forall2_lookup_l _ _ _ _ _ Hpar Eln) as (x & Ex & Hx).
    exists (N.of_nat n), x. by rewrite Nat2N.id.
Qed.
Definition final r gb h : Prop :=
  ∃ id b, tb_blocks t !! id = Some b ∧ in_levels r (sb_level b) ∧ block_shown genesis t id b gb ∧ hash gb = h.

Lemma wp_finalize_blocks r ids references l (m : gmap BlockHash GraphBlock) (Q : gmap BlockHash GraphBlock → Tables → bool → Prop) :
  parents_counted → hashes_of ids references →
  (∀ p, p ∈ l → ∃ id b, tb_blocks t !! id = Some b ∧ in_levels r (sb_level b) ∧ p = prepared_of id b (parent_ids r id) ∧
     MkCompactId id ∈ ids ∧ ∀ i, i ∈ sb_blue_merge_set b ++ sb_red_merge_set b ++ parents_in (select_relations r t) id → MkCompactId i ∈ ids) →
  (∀ m', (∀ h gb, m' !! h = Some gb → m !! h = Some gb ∨ final r gb h) → (∀ h, is_Some (m !! h) → is_Some (m' !! h)) →
     (∀ p h, p ∈ l → tb_identifiers t !! compact_id (pg_id p) = Some h → is_Some (m' !! h)) → Q m' t false) →
  wp injected (finalize_blocks l references genesis m) Q E t false.
Proof.
  intros Hcount Hok. revert m. induction l as [|p l IH]; intros m Hl HQ; cbn [finalize_blocks].
  { apply wp_ret, HQ; [by left|done|by intros ? ? ?%elem_of_nil]. }
  destruct (Hl p) as (id & b & Hb & Hr & -> & Hid & Hin); [left|]. apply wp_bind.
  eapply (wp_finalize_block r ids); [done..|]. intros gb Hgb. apply IH; [intros; apply Hl; by right|]. intros m' H1 H2 H3. apply HQ.
  - intros h x [E1|?]%H1; [|by right]. apply lookup_insert_Some in E1 as [[<- <-]|[_ E1]]; [right; by exists id, b|by left].
  - intros h Hh. apply H2. apply lookup_insert_is_Some'. by right.
  - intros p h [->|Hp]%elem_of_cons Eh; [|by apply (H3 p)]. simpl in Eh. rewrite (sh_hash _ _ _ _ _ Hgb) in Eh. injection Eh as <-.
    apply H2, lookup_insert_is_Some'. by left.
Qed.

Lemma edge_id_ext (a b : EdgeId) : child a = child b → parent a = parent b → a = b.
Proof. destruct a, b. simpl. congruence. Qed.

Lemma finalize_edges_ok (ids : gset CompactId) references rows :
  hashes_of ids references →
  (∀ row, row ∈ rows → tb_parents t !! row.1 = Some row.2 ∧ MkCompactId row.1.1 ∈ ids ∧ MkCompactId row.1.2 ∈ ids) →
  ∃ es, finalize_edges (prepared_edge <$> rows) references = Some es ∧
    ∀ eid e, es !! eid = Some e ↔ ∃ c p relation, (c, p, relation) ∈ rows ∧ tb_identifiers t !! c = Some (child eid) ∧
      tb_identifiers t !! p = Some (parent eid) ∧ e = shown_edge eid relation.
Proof.
  intros Hok Hrows. unfold finalize_edges.
  set (eid_of := λ row : Z * Z * ParentRelation, MkEdgeId (default ORIGIN (references !! MkCompactId row.1.2)) (default ORIGIN (references !! MkCompactId row.1.1))).
  assert (∀ row, row ∈ rows → tb_identifiers t !! row.1.1 = Some (child (eid_of row)) ∧ tb_identifiers t !! row.1.2 = Some (parent (eid_of row)) ∧
    finalize_edge references (prepared_edge row) = Some (eid_of row, shown_edge (eid_of row) row.2)) as Hone.
  { intros row Hin. destruct (Hrows row Hin) as (_ & Hc & Hp). destruct (Hok _ Hc) as [Ec [hc Hhc]], (Hok _ Hp) as [Ep [hp Hhp]].
    unfold eid_of, finalize_edge, prepared_edge. cbn [pe_parent_id pe_child_id pe_parent_coordinate pe_child_coordinate]. rewrite Hhc, Hhp.
    run_bind. rewrite Hhc in Ec. rewrite Hhp in Ep. simpl in Ec, Ep. by rewrite <- Ec, <- Ep. }
  assert (mapM (finalize_edge references) (prepared_edge <$> rows) = Some ((λ row, (eid_of row, shown_edge (eid_of row) row.2)) <$> rows)) as ->.
  { clear -Hone. induction rows as [|row rows IH]; [done|]. rewrite !fmap_cons. apply mapM_cons_Some; [apply Hone; left|].
    apply IH. intros x Hx. apply Hone. by right. }
  eexists. split; [done|]. intros eid e. rewrite (foldl_insert_lookup fst snd).
  - split.
    + intros (y & (row & -> & Hin)%list_elem_of_fmap & <- & <-). destruct (Hone row Hin) as (H1 & H2 & _). destruct row as [[c p] relation].
      exists c, p, relation. done.
    + intros (c & p & relation & Hin & Hc & Hp & ->). destruct (Hone _ Hin) as (H1 & H2 & _). cbn [fst snd] in H1, H2.
      assert (eid_of (c, p, relation) = eid) as Eid by (apply edge_id_ext; congruence).
      exists (eid, shown_edge eid relation). split; [|done]. apply list_elem_of_fmap. exists (c, p, relation). by rewrite Eid.
  - intros x y (rx & -> & Hx)%list_elem_of_fmap (ry & -> & Hy)%list_elem_of_fmap Eid. cbn [fst snd] in *.
    destruct (Hone rx Hx) as (C1 & P1 & _), (Hone ry Hy) as (C2 & P2 & _), (Hrows rx Hx) as (R1 & _), (Hrows ry Hy) as (R2 & _).
    rewrite Eid in *. destruct rx as [[c p] rel], ry as [[c' p'] rel']. simpl in *.
    assert (c = c') as <- by by apply (st_hashes _ _ Hi c c' (child (eid_of (c', p', rel')))).
    assert (p = p') as <- by by apply (st_hashes _ _ Hi p p' (parent (eid_of (c, p', rel')))). congruence.
Qed.

(** ** Levels *)

Lemma level_row_range l row : tb_levels t !! l = Some row → 1 ≤ l ≤ Z.of_N U32_MAX.
Proof. intros Hl. by destruct (st_levels _ _ Hi _ _ Hl) as (? & _). Qed.

Lemma decode_level_row_ok l row : tb_levels t !! Z.of_N l = Some row →
  decode_level_row (Z.of_N l, row) = (λ x, (l, x)) <$> shown_level t l.
Proof.
  intros Hl. destruct (st_levels _ _ Hi _ _ Hl) as (Hr & Hs & _). pose proof (level_score_range genesis t _ _ Hi Hl) as Hd.
  unfold decode_level_row, shown_level, snapshot_at. cbn [fst snd]. rewrite Hl. rewrite decode_positive_level_ok, N2Z.id by lia. run_bind.
  rewrite u16_try_from_ok by (unfold U16_MAX; lia). run_bind. rewrite decide_True by lia. simpl. unfold snapshot_of.
  case_decide as Hn; simpl; [done|]. rewrite decode_daa_score_ok by (unfold NO_VSPC_DAA_SCORE in *; lia). done.
Qed.

Lemma wp_load_levels r es (Q : gmap N Level → Tables → bool → Prop) :
  (∀ l, l ∈ required_levels r es → is_Some (tb_levels t !! Z.of_N l)) →
  (∀ ls, (∀ l x, ls !! l = Some x ↔ l ∈ required_levels r es ∧ shown_level t l = Some x) → Q ls t false) →
  wp injected (load_levels r es) Q E t false.
Proof.
  intros Hl HQ. unfold load_levels. set (required := required_levels r es) in *. apply wp_bind, wp_read. apply wp_bind.
  assert (NoDup required) as Hnd by (unfold required, required_levels, btree_levels; rewrite merge_sort_Permutation; apply NoDup_remove_dups).
  set (value := λ l, default (MkLevel 0 None) (shown_level t l)).
  assert (∀ l, l ∈ required → shown_level t l = Some (value l)) as Hv.
  { intros l Hin. destruct (Hl l Hin) as [row Hrow]. unfold value, shown_level, snapshot_at. by rewrite Hrow. }
  assert (mapM decode_level_row (select_levels required t) = Some ((λ l, (l, value l)) <$> required)) as Edec.
  { clear HQ Hnd. clearbody required. induction required as [|l required IH]; [done|]. destruct (Hl l) as [row Hrow]; [left|].
    unfold select_levels, omap in *. simpl. rewrite Hrow. simpl. apply mapM_cons_Some.
    - rewrite decode_level_row_ok by done. rewrite Hv by left. done.
    - apply IH; intros; [apply Hl|apply Hv]; by right. }
  eapply wp_consistent; [exact Edec|]. set (ls := foldl _ _ _).
  assert (∀ l x, ls !! l = Some x ↔ l ∈ required ∧ shown_level t l = Some x) as Hls.
  { intros l x. unfold ls. rewrite (foldl_insert_lookup fst snd).
    - split.
      + intros (y & (l' & -> & Hin)%list_elem_of_fmap & <- & <-). split; [done|]. by apply Hv.
      + intros [Hin Hx]. rewrite Hv in Hx by done. injection Hx as <-. exists (l, value l). split; [|done]. apply list_elem_of_fmap. by exists l.
    - intros x1 y1 (l1 & -> & _)%list_elem_of_fmap (l2 & -> & _)%list_elem_of_fmap El. simpl in El. by subst. }
  rewrite decide_False; [by apply wp_ret, HQ|]. intros Hsize. apply Hsize.
  assert (dom ls = list_to_set required) as Hdom.
  { apply set_eq. intros l. rewrite elem_of_dom, elem_of_list_to_set. split; [by intros [x [? _]%Hls]|].
    intros Hin. exists (value l). apply Hls. split; [done|by apply Hv]. }
  rewrite <- size_dom, Hdom. by apply size_list_to_set.
Qed.
(** ** The seed *)

Definition window r : LevelExtent := MkLevelExtent (effective_start_level r) (effective_end_level r).

Lemma elem_of_level_range low high l : l ∈ level_range low high ↔ (low ≤ l ∧ l ≤ high)%N.
Proof.
  unfold level_range. rewrite list_elem_of_fmap. split.
  - intros (i & -> & Hin%elem_of_seq). lia.
  - intros Hl. exists (N.to_nat (l - low)). split; [lia|]. apply elem_of_seq. lia.
Qed.

Lemma elem_of_required_levels r es l : l ∈ required_levels r es ↔
  contains_level (window r) l ∨ ∃ eid e, es !! eid = Some e ∧ (l = child_level e ∨ l = parent_level e).
Proof.
  unfold required_levels. rewrite elem_of_btree_levels, elem_of_app, elem_of_level_range, list_elem_of_bind. apply or_iff_compat_l. split.
  - intros (e & Hl & ([eid e'] & -> & Hin)%list_elem_of_fmap). apply elem_of_map_to_list in Hin. exists eid, e'. split; [done|].
    apply elem_of_cons in Hl as [->|Hl%list_elem_of_singleton]; auto.
  - intros (eid & e & He & Hl). exists e. split; [|apply list_elem_of_fmap; exists (eid, e); split; [done|by apply elem_of_map_to_list]].
    destruct Hl as [->| ->]; [left|right; left].
Qed.

Lemma in_window r l : 0 < l → in_levels r l ↔ contains_level (window r) (Z.to_N l).
Proof. intros Hl. unfold in_levels, contains_level, window. simpl. lia. Qed.

Lemma shown_block_level id b gb : block_shown genesis t id b gb → block_level gb = Z.to_N (sb_level b).
Proof. intros Hs. unfold block_level. by rewrite (sh_coordinate _ _ _ _ _ Hs). Qed.

Lemma block_level_positive id b : tb_blocks t !! id = Some b → 0 < sb_level b.
Proof. intros Hb. destruct (st_blocks _ _ Hi _ _ Hb) as [_ (_ & [? _] & _)]. lia. Qed.

Definition seed_shows r depth (sink : BlockHash) (seed : GraphViewSeed) : Prop :=
  seed_resolution seed = r ∧ seed_max_depth seed = depth ∧
  graph_tracks genesis t (window r) (seed_blocks seed) (seed_edges seed) (seed_levels seed) ∧
  max_id (tb_blocks t) = Some (compact_id (snapshot_max_materialized_id seed)) ∧ snapshot_vspc_sink seed = sink.

Lemma wp_load_seed r depth id sink (Q : GraphViewSeed → Tables → bool → Prop) :
  parents_counted → (∀ l, contains_level (window r) l → is_Some (tb_levels t !! Z.of_N l)) → select_sink t = Some (id, sink) →
  (∀ seed, seed_shows r depth sink seed → Q seed t false) →
  wp injected (load_seed (MkProjectionScope r depth) genesis) Q E t false.
Proof.
  intros Hcount Hwin Hsink HQ. unfold load_seed. cbn [ps_resolution ps_max_depth].
  apply wp_bind, wp_load_nominal_blocks. intros m0 Hm0. apply wp_bind, wp_load_direct_parent_ids; [done|]. intros m Hm.
  apply wp_bind, wp_load_edges. set (rows := select_edges r t).
  assert (∀ i p, m !! i = Some p → ∃ b, tb_blocks t !! compact_id i = Some b ∧ in_levels r (sb_level b) ∧
    p = prepared_of (compact_id i) b (parent_ids r (compact_id i))) as Hp.
  { intros i p. rewrite Hm. unfold nominal. intros (b & Hb & Hx)%bind_Some. case_decide; [|done]. injection Hx as <-. by exists b. }
  set (ids := required_references m (prepared_edge <$> rows)).
  assert (∀ p, p ∈ (map_to_list m).*2 → ∃ id b, tb_blocks t !! id = Some b ∧ in_levels r (sb_level b) ∧ p = prepared_of id b (parent_ids r id) ∧
     MkCompactId id ∈ ids ∧ ∀ i, i ∈ sb_blue_merge_set b ++ sb_red_merge_set b ++ parents_in (select_relations r t) id → MkCompactId i ∈ ids) as Hlist.
  { intros p Hin. pose proof Hin as ([i p'] & -> & Hip%elem_of_map_to_list)%list_elem_of_fmap. destruct (Hp _ _ Hip) as (b & Hb & Hl & Ep). simpl in Hin |- *.
    exists (compact_id i), b. split; [done|]. split; [done|]. split; [done|].
    assert (∀ j, j ∈ pg_id p' :: pg_blue_merge_set p' ++ pg_red_merge_set p' ++ pg_direct_parents p' → j ∈ ids) as Hj.
    { intros j Hj. unfold ids, required_references. apply elem_of_union. left. apply elem_of_list_to_set, list_elem_of_bind. by exists p'. }
    rewrite Ep in Hj. cbn [pg_id pg_blue_merge_set pg_red_merge_set pg_direct_parents prepared_of] in Hj. split; [apply Hj; left|].
    intros j Hjin. apply Hj. right. unfold parent_ids. rewrite <- !fmap_app. apply list_elem_of_fmap. by exists j. }
  assert (∀ row, row ∈ rows → tb_parents t !! row.1 = Some row.2 ∧ MkCompactId row.1.1 ∈ ids ∧ MkCompactId row.1.2 ∈ ids) as Hrows.
  { intros row Hin. split; [by apply elem_of_edge_rows in Hin as [? _]|].
    assert (∀ j, j ∈ [MkCompactId row.1.1; MkCompactId row.1.2] → j ∈ ids) as Hj.
    { intros j Hj. unfold ids, required_references. apply elem_of_union. right. apply elem_of_list_to_set, list_elem_of_bind.
      exists (prepared_edge row). split; [done|]. apply list_elem_of_fmap. by exists row. }
    split; apply Hj; [left|right; left]. }
  assert (∀ i, i ∈ ids → known i) as Hknown.
  { intros i Hin0. unfold ids, required_references in Hin0. apply elem_of_union in Hin0 as [Hin|Hin]; apply elem_of_list_to_set, list_elem_of_bind in Hin as (x & Hx & Hin).
    - apply list_elem_of_fmap in Hin as ([j p] & -> & Hj%elem_of_map_to_list). destruct (Hp _ _ Hj) as (b & Hb & _ & ->). cbn [fst snd prepared_of
        pg_id pg_blue_merge_set pg_red_merge_set pg_direct_parents] in Hx.
      apply elem_of_cons in Hx as [->|Hx]; [unfold known; simpl; by apply (st_blocks _ _ Hi _ _ Hb)|].
      rewrite app_assoc, <- fmap_app in Hx. apply elem_of_app in Hx as [Hx|Hx]; apply list_elem_of_fmap in Hx as (y & -> & Hy); unfold known; simpl.
      + apply (reference_positive _ _ _ Hb). by right.
      + apply elem_of_parents_in, elem_of_relations in Hy as (relation & Hr & _). by apply relation_known in Hr as (_ & _ & _ & _ & ? & _).
    - apply list_elem_of_fmap in Hin as ([[c p] relation] & -> & [Hr _]%elem_of_edge_rows). apply relation_known in Hr as (_ & _ & _ & Hc & Hpk & _).
      apply elem_of_cons in Hx as [->|Hx%list_elem_of_singleton]; [done|by subst]. }
  apply wp_bind, wp_load_reference_hashes; [exact Hknown|]. fold ids. intros references Href.
  apply wp_bind, (wp_finalize_blocks r ids); [done..|]. intros bs Hb1 _ Hb3.
  destruct (finalize_edges_ok ids references rows Href Hrows) as (es & Ees & Hes).
  apply wp_bind, wp_expect; [by rewrite Ees|]. intros ? Ex. rewrite Ees in Ex. injection Ex as <-.
  assert (∀ eid e, es !! eid = Some e → ∃ relation, e = shown_edge eid relation ∧
    is_Some (tb_levels t !! Z.of_N (child_level e)) ∧ is_Some (tb_levels t !! Z.of_N (parent_level e))) as Hends.
  { intros eid e (c & p & relation & Hin & _ & _ & ->)%Hes. exists relation. split; [done|]. apply elem_of_edge_rows in Hin as (Hr & Hpos & _).
    simpl in Hr, Hpos. destruct (relation_coordinates _ _ _ Hr Hpos) as ([? _] & [? _] & _ & Hc & Hpl).
    unfold child_level, parent_level, shown_edge. simpl. by rewrite !Z2N.id by lia. }
  apply wp_bind, wp_load_levels.
  { intros l [Hl|(eid & e & He & [->| ->])]%elem_of_required_levels; [by apply Hwin|by destruct (Hends _ _ He) as (? & _ & ? & ?)..]. }
  intros ls Hls. apply wp_bind. unfold load_snapshot_metadata. apply wp_bind, wp_read. apply wp_bind.
  pose proof (select_sink_spec genesis t Hi) as Hspec. rewrite Hsink in Hspec. destruct Hspec as (_ & (sb & Hsb & _) & _).
  pose proof (max_id_spec (tb_blocks t)) as Hmax. destruct (max_id (tb_blocks t)) as [mid|] eqn:Emax; [|by rewrite Hmax, lookup_empty in Hsb].
  destruct Hmax as [[mb Hmb] _]. eapply wp_consistent; [run_bind; apply CompactId_new_pos; eapply block_id_positive; exact Hmb|].
  apply wp_bind, wp_read. apply wp_bind. eapply wp_consistent; [exact Hsink|]. apply wp_ret. apply wp_ret, HQ.
  split; [done|]. split; [done|]. split; [|by split]. cbn [seed_blocks seed_edges seed_levels]. split.
  - intros h gb [E'|(bid & b & Hb & Hl & Hsh & Hh)]%Hb1; [by rewrite lookup_empty in E'|]. exists bid, b. split; [done|]. split; [done|]. split; [done|].
    rewrite (shown_block_level _ _ _ Hsh). by apply in_window; [eapply block_level_positive; exact Hb|].
  - intros bid b h Hb Hh Hl. apply (Hb3 (prepared_of bid b (parent_ids r bid)) h); [|done].
    apply list_elem_of_fmap. exists (MkCompactId bid, prepared_of bid b (parent_ids r bid)). split; [done|]. apply elem_of_map_to_list.
    rewrite Hm. unfold nominal. simpl. rewrite Hb. run_bind. rewrite decide_True; [done|]. apply in_window; [eapply block_level_positive; exact Hb|done].
  - intros eid e. rewrite Hes. split.
    + intros (c & p & relation & Hin & Hc & Hpk & ->). apply elem_of_edge_rows in Hin as (Hr & H3). exists c, p, relation. done.
    + intros (c & p & relation & Hr & Hc & Hpk & H3 & ->). exists c, p, relation. split; [|done]. by apply elem_of_edge_rows.
  - intros l x. rewrite Hls, elem_of_required_levels. done.
Qed.
End statements.
End tables.
End projection_spec.
