(* ===== verification/ProjectionTheorems.v ===== *)
(** The windows of projection requests, the projection on well-formed tables,
    and its Head seed as the publication runtime takes it. *)

From S2P Require Import Prelude Model Faults Delta GraphView ViewInvariant Mutation Runtime.
From S2P Require Import RuntimeSafety Sql Store Resolver Materialization VspcStore StoreClient StoreInvariant.
From S2P Require Import StoreInsert StoreMaterialize StoreVspc StoreChain Projection ProjectionSpec.

#[local] Open Scope N_scope.

(** * Windows *)

Section windows.
Context {KH : KaspaHash}.
Implicit Types (t : Tables) (h : BlockHash) (id : Z) (b : StoredBlock) (r : GraphWindowResolution).

Definition window_depth r : N := effective_end_level r - effective_start_level r + 1.

(** The anchored window: within the retained levels, around the resolved one,
    and as deep as asked for unless the whole graph is shallower. *)
Lemma anchored_resolution_spec level head depth : 1 ≤ level ≤ head → head ≤ U32_MAX → 1 ≤ depth →
  ∃ r, anchored_resolution level head depth = Some r ∧ resolved_level r = level ∧
    1 ≤ effective_start_level r ≤ level ∧ level ≤ effective_end_level r ≤ head ∧ window_depth r = N.min depth head.
Proof.
  intros Hl Hh Hd. unfold anchored_resolution, saturating_sub, saturating_add_u32, window_depth. cbv zeta.
  rewrite (checked_sub_Some depth 1) by lia. cbn [mbind option_bind]. pose proof (N.Div0.div_le_upper_bound (depth - 1) 2 (depth - 1) ltac:(lia)) as Hm.
  set (half := (depth - 1) / 2) in *. clearbody half. rewrite checked_sub_Some by lia. cbn [mbind option_bind].
  assert (N.min (N.min (level + half) U32_MAX) head = N.min (level + half) head) as -> by lia.
  remember (N.max (level - (depth - 1 - half)) 1) as low eqn:Elow. remember (N.min (level + half) head) as high eqn:Ehigh.
  assert (1 ≤ low ≤ level ∧ level ≤ high ≤ head ∧ high - low + 1 ≤ depth ∧ (high = level + half ∨ high = head) ∧
    (low = level - (depth - 1 - half) ∨ low = 1)) as (H1 & H2 & H3 & H4 & H5) by lia. clear Elow Ehigh.
  rewrite checked_sub_Some by lia. cbn [mbind option_bind]. rewrite checked_sub_Some by lia. cbn [mbind option_bind].
  assert (N.min (N.min (high + (depth - (high - low + 1))) U32_MAX) head = N.min (high + (depth - (high - low + 1))) head) as -> by lia.
  remember (N.min (high + (depth - (high - low + 1))) head) as high' eqn:Ehigh.
  assert (high ≤ high' ≤ head ∧ high' - low + 1 ≤ depth ∧ (high' = head ∨ high' - low + 1 = depth)) as (H6 & H7 & H8) by lia. clear Ehigh.
  rewrite checked_sub_Some by lia. cbn [mbind option_bind]. rewrite checked_sub_Some by lia. cbn [mbind option_bind].
  eexists. split; [done|]. cbn [resolved_level effective_start_level effective_end_level]. clear H4 H5. lia.
Qed.

Lemma max_level_spec t :
  match max_level t with
  | None => tb_blocks t = ∅
  | Some l => (∃ id b, tb_blocks t !! id = Some b ∧ sb_level b = l) ∧ ∀ id b, tb_blocks t !! id = Some b → (sb_level b ≤ l)%Z
  end.
Proof.
  unfold max_level. assert (∀ l, l ∈ (sb_level ∘ snd) <$> map_to_list (tb_blocks t) ↔ ∃ id b, tb_blocks t !! id = Some b ∧ sb_level b = l) as Hin.
  { intros l. rewrite list_elem_of_fmap. split.
    - intros ([id b] & -> & Hb%elem_of_map_to_list). by exists id, b.
    - intros (id & b & Hb & <-). exists (id, b). split; [done|]. by apply elem_of_map_to_list. }
  destruct (_ <$> _) as [|l ls] eqn:El.
  - apply map_eq. intros id. rewrite lookup_empty. destruct (tb_blocks t !! id) as [b|] eqn:Hb; [|done].
    assert (sb_level b ∈ []) as Hx by (apply Hin; by exists id, b). by apply elem_of_nil in Hx.
  - assert (foldr Z.max l ls ∈ l :: ls ∧ ∀ x, x ∈ l :: ls → (x ≤ foldr Z.max l ls)%Z) as [H1 H2].
    { clear. induction ls as [|y ls [IH1 IH2]]; simpl; [split; [left|by intros x ->%list_elem_of_singleton]|]. split.
      - destruct (Z.max_spec y (foldr Z.max l ls)) as [[_ ->]|[_ ->]]; [|right; left].
        apply elem_of_cons in IH1 as [->|IH1]; [left|by right; right].
      - intros x [->|[->|Hx]%elem_of_cons]%elem_of_cons; [|lia|].
        + transitivity (foldr Z.max l ls); [apply IH2; left|lia].
        + transitivity (foldr Z.max l ls); [apply IH2; by right|lia]. }
    split; [by apply Hin|]. intros id b Hb. apply H2, Hin. by exists id, b.
Qed.

Section tables.
Context (genesis : BlockHash) (t : Tables).
Hypothesis Hi : store_inv genesis t.

Lemma levels_below l l' : is_Some (tb_levels t !! l) → (1 ≤ l' ≤ l)%Z → is_Some (tb_levels t !! l').
Proof.
  intros Hl [H1 H2]. assert (∀ n : nat, (1 ≤ l - Z.of_nat n)%Z → is_Some (tb_levels t !! (l - Z.of_nat n)%Z)) as H.
  { induction n as [|n IH]; intros H3; [by rewrite Z.sub_0_r|]. replace (l - Z.of_nat (S n))%Z with (l - Z.of_nat n - 1)%Z in * by lia.
    apply (st_contiguous _ _ Hi); [apply IH; lia|lia]. }
  specialize (H (Z.to_nat (l - l'))). replace (l - Z.of_nat (Z.to_nat (l - l')))%Z with l' in H by lia. by apply H.
Qed.

(** The highest level of the tables. *)
Definition tables_head (l : N) : Prop := 1 ≤ l ≤ U32_MAX ∧ max_level t = Some (Z.of_N l).

Lemma tables_head_exists id b : tb_blocks t !! id = Some b → ∃ l, tables_head l.
Proof.
  intros Hb. pose proof (max_level_spec t) as Hm. destruct (max_level t) as [l|] eqn:El; [|by rewrite Hm, lookup_empty in Hb].
  destruct Hm as [(id' & b' & Hb' & <-) _]. destruct (st_leveled _ _ Hi _ _ Hb') as [row Hrow].
  destruct (st_levels _ _ Hi _ _ Hrow) as (Hr & _). exists (Z.to_N (sb_level b')). split; [lia|]. rewrite El. f_equal. lia.
Qed.

Lemma tables_head_retained l x : tables_head l → 1 ≤ x ≤ l → is_Some (tb_levels t !! Z.of_N x).
Proof.
  intros [_ Hm] Hx. pose proof (max_level_spec t) as Hs. rewrite Hm in Hs. destruct Hs as [(id & b & Hb & El) _].
  apply (levels_below (Z.of_N l)); [|lia]. rewrite <- El. by eapply st_leveled.
Qed.

Lemma retained_level l x : tables_head l → is_Some (tb_levels t !! x) → (1 ≤ x ≤ Z.of_N l)%Z.
Proof.
  intros [_ Hm] [row Hrow]. destruct (st_levels _ _ Hi _ _ Hrow) as (Hr & Hsize & _ & Hslots). split; [lia|].
  destruct (proj1 (Hslots 0%Z) ltac:(lia)) as (id & b & Hb & <- & _). pose proof (max_level_spec t) as Hs. rewrite Hm in Hs.
  by eapply Hs.
Qed.
(** ** Anchors *)

(** The level an anchor stands for: itself, its block's, or, for a DAA score,
    the highest of the levels with the greatest score not above it. *)
Definition anchored_at (anchor : GraphWindowAnchor) (l : N) : Prop :=
  match anchor with
  | AnchorLevel level => l = level ∧ is_Some (tb_levels t !! Z.of_N l)
  | AnchorBlockHash h => ∃ id b, tb_identifiers t !! id = Some h ∧ tb_blocks t !! id = Some b ∧ Z.of_N l = sb_level b
  | AnchorDaaScore score => ∃ row, tb_levels t !! Z.of_N l = Some row ∧ (ls_daa_score row ≤ Z.of_N score)%Z ∧
      ∀ l' row', tb_levels t !! l' = Some row' → (ls_daa_score row' ≤ Z.of_N score)%Z →
        (ls_daa_score row' < ls_daa_score row ∨ (ls_daa_score row' = ls_daa_score row ∧ l' ≤ Z.of_N l))%Z
  end.

(** What the API checks of a request before it sends it. *)
Definition request_ok (request : GraphViewSeedRequest) : Prop :=
  match request with
  | HeadPublication => True
  | AnchoredWindow anchor max_depth => 1 ≤ max_depth ≤ MAX_WINDOW_DEPTH ∧
      match anchor with AnchorLevel level => 0 < level | AnchorBlockHash _ => True | AnchorDaaScore score => score ≤ MAX_DAA_SCORE end
  end.

Lemma anchored_retained anchor l : anchored_at anchor l → is_Some (tb_levels t !! Z.of_N l).
Proof.
  destruct anchor as [level|h|score]; simpl; [by intros [_ ?]| |].
  - intros (id & b & _ & Hb & ->). by eapply st_leveled.
  - intros (row & Hrow & _). by exists row.
Qed.

Lemma select_hash_level_spec h :
  match select_hash_level h t with
  | Some l => ∃ id b, tb_identifiers t !! id = Some h ∧ tb_blocks t !! id = Some b ∧ l = sb_level b
  | None => ∀ id b, tb_identifiers t !! id = Some h → tb_blocks t !! id = Some b → False
  end.
Proof.
  assert (∀ id, (id, h) ∈ filter (λ kv : Z * BlockHash, kv.2 = h) (map_to_list (tb_identifiers t)) ↔ tb_identifiers t !! id = Some h) as Hf.
  { intros id. rewrite list_elem_of_filter, elem_of_map_to_list. naive_solver. }
  unfold select_hash_level. destruct (filter _ _) as [|[id x] rest] eqn:Ef; simpl.
  - intros id b Hid _. apply Hf in Hid. by apply elem_of_nil in Hid.
  - assert ((id, x) ∈ filter (λ kv : Z * BlockHash, kv.2 = h) (map_to_list (tb_identifiers t))) as Hin by (rewrite Ef; left).
    pose proof Hin as [Hx _]%list_elem_of_filter. simpl in Hx. subst x. rewrite Ef in Hin. apply Hf in Hin.
    destruct (tb_blocks t !! id) as [b|] eqn:Eb; simpl; [by exists id, b|].
    intros id' b' H1 H2. rewrite (st_hashes _ _ Hi id' id h H1 Hin) in H2. congruence.
Qed.

Lemma daa_floor_spec score :
  match daa_floor score t with
  | Some l => ∃ row, tb_levels t !! l = Some row ∧ (ls_daa_score row ≤ score)%Z ∧
      ∀ l' row', tb_levels t !! l' = Some row' → (ls_daa_score row' ≤ score)%Z →
        (ls_daa_score row' < ls_daa_score row ∨ (ls_daa_score row' = ls_daa_score row ∧ l' ≤ l))%Z
  | None => ∀ l row, tb_levels t !! l = Some row → (score < ls_daa_score row)%Z
  end.
Proof.
  unfold daa_floor. set (rows := filter _ (map_to_list (tb_levels t))).
  assert (∀ l row, (l, row) ∈ rows ↔ tb_levels t !! l = Some row ∧ (ls_daa_score row ≤ score)%Z) as Hin.
  { intros l row. unfold rows. rewrite list_elem_of_filter, elem_of_map_to_list. simpl. tauto. }
  set (best := foldr _ None rows).
  assert (match best with
          | None => rows = []
          | Some (daa, l) => (∃ row, (l, row) ∈ rows ∧ ls_daa_score row = daa) ∧
              ∀ l' row', (l', row') ∈ rows → (ls_daa_score row' < daa ∨ (ls_daa_score row' = daa ∧ l' ≤ l))%Z
          end) as Hbest.
  { unfold best. clear. induction rows as [|[l row] rows IH]; [done|]. simpl. destruct (foldr _ None rows) as [[daa l0]|].
    - destruct IH as [(row0 & H0 & E0) IH]. case_decide as Hd.
      + split; [exists row; split; [left|done]|]. intros l' row' [[= -> ->]|H']%elem_of_cons; [lia|]. specialize (IH _ _ H'). lia.
      + split; [exists row0; split; [by right|done]|]. intros l' row' [[= -> ->]|H']%elem_of_cons; [lia|]. by apply IH.
    - subst rows. split; [exists row; split; [left|done]|]. intros l' row' [[= -> ->]|H']%elem_of_cons; [lia|]. by apply elem_of_nil in H'. }
  destruct best as [[daa l]|]; simpl.
  - destruct Hbest as [(row & [Hr Hs]%Hin & <-) Hb]. exists row. split; [done|]. split; [done|]. intros l' row' H1 H2. by apply (Hb l' row'), Hin.
  - intros l row Hr. destruct (decide (ls_daa_score row ≤ score)%Z) as [Hs|]; [|lia].
    assert ((l, row) ∈ rows) as Hx by by apply Hin. rewrite Hbest in Hx. by apply elem_of_nil in Hx.
Qed.

Section statements.
Context (injected : SqlxError → Prop) (E : SqlOutcome ApiReadError GraphViewSeedOutcome → Tables → bool → Prop).
Hypothesis HE : ∀ e, injected e → E (SqlFailed (AttemptDatabase BeforeCommit e)) t false.

Lemma wp_decode_level l (Q : option N → Tables → bool → Prop) :
  (1 ≤ l ≤ Z.of_N U32_MAX)%Z → Q (Some (Z.to_N l)) t false → wp injected (decode_level (Some l)) Q E t false.
Proof. intros Hl HQ. unfold decode_level. apply wp_bind. eapply wp_consistent; [by apply decode_positive_level_ok|]. by apply wp_ret. Qed.

Lemma wp_resolve_anchor anchor (Q : option N → Tables → bool → Prop) :
  match anchor with AnchorLevel level => 0 < level | AnchorBlockHash _ => True | AnchorDaaScore score => score ≤ MAX_DAA_SCORE end →
  (∀ l, anchored_at anchor l → Q (Some l) t false) → ((∀ l, ¬ anchored_at anchor l) → Q None t false) →
  wp injected (resolve_anchor anchor) Q E t false.
Proof.
  intros Hok HS HN. assert (∀ l row, tb_levels t !! l = Some row → (1 ≤ l ≤ Z.of_N U32_MAX)%Z) as Hrange.
  { intros l row Hrow. by destruct (st_levels _ _ Hi _ _ Hrow) as [? _]. }
  unfold resolve_anchor. apply wp_bind. destruct anchor as [level|h|score].
  - apply wp_bind, wp_expect; [by rewrite assert_true|]. intros _ _. apply wp_read; [done|]. unfold select_level.
    destruct (tb_levels t !! Z.of_N level) as [row|] eqn:El; run_bind.
    + apply wp_decode_level; [by eapply Hrange|]. rewrite N2Z.id. apply HS. split; [done|by exists row].
    + apply wp_ret, HN. intros l [-> [row Hr]]. congruence.
  - apply wp_read; [done|]. pose proof (select_hash_level_spec h) as Hs. destruct (select_hash_level h t) as [l|].
    + destruct Hs as (id & b & Hid & Hb & ->). destruct (st_leveled _ _ Hi _ _ Hb) as [row Hrow]. pose proof (Hrange _ _ Hrow).
      apply wp_decode_level; [done|]. apply HS. exists id, b. split; [done|]. split; [done|lia].
    + apply wp_ret, HN. intros l (id & b & Hid & Hb & _). by eapply Hs.
  - apply wp_bind, wp_expect; [by rewrite assert_true|]. intros _ _. apply wp_read; [done|]. pose proof (daa_floor_spec (Z.of_N score)) as Hs.
    destruct (daa_floor (Z.of_N score) t) as [l|].
    + destruct Hs as (row & Hrow & H1 & H2). pose proof (Hrange _ _ Hrow). apply wp_decode_level; [done|]. apply HS. exists row.
      rewrite Z2N.id by lia. done.
    + apply wp_ret, HN. intros l (row & Hrow & H1 & _). specialize (Hs _ _ Hrow). lia.
Qed.

Lemma wp_database_head l (Q : option N → Tables → bool → Prop) :
  tables_head l → Q (Some l) t false → wp injected database_head Q E t false.
Proof.
  intros [Hl Hm] HQ. unfold database_head. apply wp_bind, wp_read; [done|]. rewrite Hm. apply wp_decode_level; [lia|]. by rewrite N2Z.id.
Qed.

(** The scope of a request: at the head, or around the level of its anchor. *)
Definition scope_of (request : GraphViewSeedRequest) (head : N) (scope : ProjectionScope) : Prop :=
  let r := ps_resolution scope in
  1 ≤ effective_start_level r ≤ resolved_level r ∧ resolved_level r ≤ effective_end_level r ≤ head ∧
  window_depth r = N.min (ps_max_depth scope) head ∧
  match request with
  | HeadPublication => ps_max_depth scope = MAX_CACHE_DEPTH ∧ resolved_level r = head
  | AnchoredWindow anchor max_depth => ps_max_depth scope = max_depth ∧ anchored_at anchor (resolved_level r)
  end.

Definition unavailable (request : GraphViewSeedRequest) (reason : GraphWindowAnchorUnavailable) : Prop :=
  match request with
  | HeadPublication => False
  | AnchoredWindow anchor _ => reason = anchor_unavailable anchor ∧ ∀ l, ¬ anchored_at anchor l
  end.

Lemma wp_resolve_scope request head (Q : ProjectionScope + GraphWindowAnchorUnavailable → Tables → bool → Prop) :
  tables_head head → request_ok request →
  (∀ scope, scope_of request head scope → Q (inl scope) t false) → (∀ reason, unavailable request reason → Q (inr reason) t false) →
  wp injected (resolve_scope request) Q E t false.
Proof.
  intros Hh Hok HS HU. pose proof Hh as [Hr _]. unfold resolve_scope. destruct request as [|anchor max_depth].
  - apply wp_bind, (wp_database_head head); [done|]. apply wp_bind. eapply wp_consistent; [done|]. apply wp_ret, HS.
    unfold scope_of, head_scope, window_depth, saturating_sub, MAX_CACHE_DEPTH. cbn [ps_resolution ps_max_depth resolved_level effective_start_level effective_end_level].
    lia.
  - destruct Hok as [Hd Ha]. apply wp_bind, wp_expect; [rewrite assert_true by lia; done|]. intros _ _. apply wp_bind.
    apply wp_resolve_anchor; [done| |].
    + intros l Hl. apply wp_bind, (wp_database_head head); [done|]. apply wp_bind. eapply wp_consistent; [done|].
      pose proof (retained_level _ _ Hh (anchored_retained _ _ Hl)) as Hlr. rewrite decide_False by lia.
      destruct (anchored_resolution_spec l head max_depth) as (r & Er & Erl & H1 & H2 & H3); [lia..|].
      apply wp_bind, wp_expect; [by rewrite Er|]. intros r' Er'. rewrite Er in Er'. injection Er' as <-. apply wp_ret, HS.
      unfold scope_of. cbn [ps_resolution ps_max_depth]. rewrite Erl. done.
    + intros Hn. apply wp_ret, HU. by split.
Qed.
End statements.
(** ** The projection *)

(** What a request answers: the seed of its window, or that its anchor is not
    retained. *)
Definition loads (request : GraphViewSeedRequest) (o : GraphViewSeedOutcome) : Prop :=
  match o with
  | SeedLoaded seed => ∃ head scope id, tables_head head ∧ scope_of request head scope ∧
      select_sink t = Some (id, snapshot_vspc_sink seed) ∧
      seed_shows genesis t (ps_resolution scope) (ps_max_depth scope) (snapshot_vspc_sink seed) seed
  | AnchorUnavailable reason => unavailable request reason
  end.

(** Tables a projection can be read from: a stored session, and no more parent
    relations than [u32] counts. *)
Definition projectable : Prop := is_Some (select_sink t) ∧ N.of_nat (size (tb_parents t)) ≤ U32_MAX.

Lemma projectable_counted : projectable → parents_counted t.
Proof.
  intros [_ Hs] id l Hnd Hl. assert (((λ p, (id, p)) <$> l) ⊆+ (map_to_list (tb_parents t)).*1) as Hsub.
  { apply NoDup_submseteq; [apply NoDup_fmap; [by intros x y [=]|done]|]. intros k (p & -> & Hp)%list_elem_of_fmap. destruct (Hl p Hp) as [r Hr].
    apply list_elem_of_fmap. exists (id, p, r). split; [done|]. by apply elem_of_map_to_list. }
  apply submseteq_length in Hsub. rewrite !length_fmap, length_map_to_list in Hsub. lia.
Qed.

Lemma load_spec request fates :
  projectable → request_ok request →
  ∃ result, load genesis request fates t = Some result ∧
    match result with Ok o => loads request o | Err e => (e = QueryFailed ∨ e = GenerationLost) ∧ ¬ faultless fates end.
Proof.
  intros Hproj Hok. pose proof (projectable_counted Hproj) as Hcount. destruct Hproj as [[[id sink] Hsink] _]. unfold load.
  pose proof (run_attempt_spec keep_sequence (load_body genesis request) (λ e, Some e ∈ af_statements fates) t (λ o _, loads request o)
    (λ _, False) (λ e, ∃ er, e = AttemptDatabase BeforeCommit er ∧ Some er ∈ af_statements fates) False (λ _, True) fates) as H.
  lapply H; [clear H; intros H; lapply H; [clear H; intros H|clear H]|by intros e].
  - destruct (run_attempt _ _ _ _) as [t' [[o|e]|]]; simpl; [..|by destruct H].
    + eexists. split; [done|]. by destruct H as [H|[[] _]].
    + assert (∃ phase er, e = AttemptDatabase phase er ∧ ¬ faultless fates) as (phase & er & -> & Hn).
      { destruct H as [[_ [(er & -> & He)|(er & applied & -> & Ec)]]|(a & er & _ & -> & Ec)]; eexists _, er; (split; [done|]).
        - intros [Hs _]. by apply Hs in He.
        - intros [_ Hc]. congruence.
        - intros [_ Hc]. congruence. }
      eexists. split; [done|]. split; [|done]. unfold query_error. destruct (sqlx_connection_lost er); auto.
  - unfold body_ok, load_body. pose proof (select_sink_spec genesis t Hi) as Hs. rewrite Hsink in Hs. destruct Hs as (_ & (b & Hb & _) & _).
    destruct (tables_head_exists _ _ Hb) as [head Hh].
    assert (∀ e, Some e ∈ af_statements fates → True ∧ ∃ er, AttemptDatabase (Sem := ApiReadError) BeforeCommit e = AttemptDatabase BeforeCommit er ∧
      Some er ∈ af_statements fates) as HE by (intros e He; split; [done|by exists e]).
    apply wp_bind, wp_begin; [exact HE|]. apply wp_bind, wp_begin; [exact HE|]. apply wp_bind, (wp_resolve_scope _ _ HE _ head); [done..| |].
    + intros [r depth] Hscope. pose proof Hscope as (H1 & H2 & _). cbn [ps_resolution ps_max_depth] in H1, H2.
      apply wp_bind, (wp_load_seed genesis t Hi _ _ HE r depth id sink); [done| |done|].
      * intros l Hl. unfold contains_level, window in Hl. simpl in Hl. apply (tables_head_retained _ _ Hh). lia.
      * intros seed Hseed. apply wp_ret. split; [|done]. assert (snapshot_vspc_sink seed = sink) as Es by by destruct Hseed as (_ & _ & _ & _ & ?).
        exists head, (MkProjectionScope r depth), id. rewrite Es. done.
    + intros reason Hu. by apply wp_ret.
Qed.

(** ** The Head seed *)

Lemma edges_counted ext bs es ls : graph_tracks genesis t ext bs es ls → (size es ≤ size (tb_parents t))%nat.
Proof.
  intros Hg. set (f := λ k : Z * Z, c ← tb_identifiers t !! k.1; p ← tb_identifiers t !! k.2; Some (MkEdgeId p c)).
  assert ((map_to_list es).*1 ⊆+ omap f (map_to_list (tb_parents t)).*1) as Hsub.
  { apply NoDup_submseteq; [apply NoDup_fst_map_to_list|]. intros eid ([x e] & -> & Hin%elem_of_map_to_list)%list_elem_of_fmap.
    apply (gt_edges _ _ _ _ _ _ Hg) in Hin as (c & p & relation & Hr & Hc & Hp & _ & _). apply list_elem_of_omap. exists (c, p). split.
    - apply list_elem_of_fmap. exists (c, p, relation). split; [done|]. by apply elem_of_map_to_list.
    - unfold f. simpl. rewrite Hc. run_bind. rewrite Hp. run_bind. f_equal. by destruct x. }
  apply submseteq_length in Hsub. rewrite length_fmap, length_map_to_list in Hsub.
  pose proof (length_omap_le f (map_to_list (tb_parents t)).*1) as Hf. rewrite length_fmap, length_map_to_list in Hf. lia.
Qed.

Lemma edge_used (es : gmap EdgeId GraphEdge) l : edge_usage es l ≠ 0 → ∃ eid e, es !! eid = Some e ∧ parent_level e = l.
Proof.
  intros Hl. destruct (map_choose (filter (λ '(_, e), parent_level e = l) es)) as (eid & e & [He <-]%map_lookup_filter_Some); [|eauto].
  intros Hz. apply Hl. unfold edge_usage. by rewrite Hz.
Qed.

Lemma head_seed_ok seed :
  loads HeadPublication (SeedLoaded seed) → (N.of_nat (size (tb_parents t)) ≤ U64_MAX)%N → seed_ok seed.
Proof.
  intros (head & scope & id & Hh & (H1 & H2 & H3 & H4 & H5) & _ & (Er & Ed & Hg & _)) Hsize. rewrite H4 in Ed, H3. rewrite H5 in H2.
  assert (effective_end_level (ps_resolution scope) = head) as Eend by lia.
  assert (seed_extent seed = window (ps_resolution scope)) as Ew by (unfold seed_extent, window; by rewrite Er).
  assert (∀ eid e, seed_edges seed !! eid = Some e → parent_level e < child_level e ∧ contains_level (window (ps_resolution scope)) (child_level e) ∧
    edge_id e = eid ∧ ∃ gb, seed_blocks seed !! child eid = Some gb ∧ coordinate gb = child_coordinate e) as Hedge.
  { intros eid e (c & p & relation & Hr & Hc & Hp & (Hpos & Hlow & Hhigh) & ->)%(gt_edges _ _ _ _ _ _ Hg).
    destruct (st_parents _ _ Hi _ _ _ Hr) as (_ & _ & b & Hb & -> & Hlt). pose proof (max_level_spec t) as Hm.
    destruct Hh as [Hh Eh]. rewrite Eh in Hm. destruct Hm as [_ Hm]. specialize (Hm _ _ Hb).
    assert (pr_child_level (relation_of t b p) = sb_level b ∧ pr_child_slot (relation_of t b p) = sb_slot b) as [El Es] by (unfold relation_of; by destruct (tb_blocks t !! p)).
    rewrite El in Hlow. unfold shown_edge, child_level, parent_level. cbn [edge_id child_coordinate parent_coordinate coord_level]. rewrite El, Es.
    assert (contains_level (window (ps_resolution scope)) (Z.to_N (sb_level b))) as Hw by (unfold contains_level, window in *; simpl in *; lia).
    split; [lia|]. split; [done|]. split; [done|].
    destruct (gt_all _ _ _ _ _ _ Hg _ _ _ Hb Hc Hw) as [gb Hgb]. exists gb. split; [done|].
    destruct (gt_blocks _ _ _ _ _ _ Hg _ _ Hgb) as (id' & b' & Hb' & Hsh & Hhash & _).
    assert (id' = c) as -> by (apply (st_hashes _ _ Hi _ _ (hash gb)); [exact (sh_hash _ _ _ _ _ Hsh)|by rewrite Hhash]).
    rewrite (sh_coordinate _ _ _ _ _ Hsh). rewrite Hb in Hb'. by injection Hb' as <-. }
  split.
  - by rewrite Ed.
  - rewrite Ed, Ew. unfold head_extent, LevelExtent_new, window, saturating_sub, MAX_CACHE_DEPTH in *. cbn [high_level low_level].
    unfold window_depth in H3. rewrite Eend in *.
    assert (N.max (head - (1000 - 1)) 1 = effective_start_level (ps_resolution scope)) as -> by lia. by rewrite decide_False by lia.
  - intros h gb Hgb. by destruct (gt_blocks _ _ _ _ _ _ Hg _ _ Hgb) as (_ & _ & _ & _ & ? & _).
  - intros eid e He. by destruct (Hedge _ _ He) as (_ & _ & ? & _).
  - intros h gb Hgb. rewrite Ew. by destruct (gt_blocks _ _ _ _ _ _ Hg _ _ Hgb) as (_ & _ & _ & _ & _ & ?).
  - intros eid e He. by destruct (Hedge _ _ He) as (? & _ & _ & ?).
  - intros l. rewrite Ew. split.
    + intros [x [[Hl|(eid & e & He & [->| ->])] _]%(gt_levels _ _ _ _ _ _ Hg)]; [by left| |].
      * left. by destruct (Hedge _ _ He) as (_ & ? & _).
      * right. intros Hz. by eapply (proj1 (edge_usage_zero _ _) Hz).
    + intros Hl. assert (is_Some (tb_levels t !! Z.of_N l)) as [row Hrow].
      { destruct Hl as [Hl|Hl].
        - apply (tables_head_retained _ _ Hh). unfold contains_level, window in Hl. simpl in Hl. lia.
        - apply edge_used in Hl as (eid & e & He & <-).
          apply (gt_edges _ _ _ _ _ _ Hg) in He as (c & p & relation & Hr & _ & _ & (Hpos & _) & ->).
          destruct (relation_coordinates genesis t Hi _ _ _ Hr Hpos) as ([? _] & _ & _ & _ & Hp). unfold shown_edge, parent_level. simpl.
          by rewrite Z2N.id by lia. }
      eexists. apply (gt_levels _ _ _ _ _ _ Hg). split; [|unfold shown_level, snapshot_at; by rewrite Hrow].
      destruct Hl as [Hl|Hl]; [by left|]. right.
      apply edge_used in Hl as (eid & e & He & <-). exists eid, e. auto.
  - pose proof (edges_counted _ _ _ _ Hg). lia.
Qed.
End tables.
End windows.
