(* ===== verification/ViewTracking.v ===== *)
(** A Head view that shows the tables keeps showing them: the updates the
    publication applies, block by block and transition by transition, leave the
    view a fresh projection of the tables would give. *)

From S2P Require Import Prelude Model Faults Delta GraphView ViewInvariant ApplyDelta Compose.
From S2P Require Import Mutation HeadBlock HeadView VspcView Subview Runtime RuntimeSafety Sql.
From S2P Require Import Store Resolver Materialization VspcStore StoreClient StoreInvariant StoreInsert StoreMaterialize.
From S2P Require Import StoreVspc StoreChain StoreWorld StoreReach Projection ProjectionSpec ProjectionTheorems Lineage.

#[local] Open Scope N_scope.

(** * Level values through a block update *)

Section level_values.
Context {KH : KaspaHash}.
Implicit Types (v : GraphView) (m : GraphMutation) (c : BlockCommitted) (s : LevelCommitted) (x : StoredLevel).

Definition snapshot_level s : Level := MkLevel (lc_size s) (lc_daa_score s).

(** [f] gives the levels the snapshots [ss] bring: what is stored keeps its
    score, and is right already unless a snapshot is still to come. *)
Definition settling (f : N → option Level) (usage : N → N) (target : LevelExtent) (ep : gset N) (ss : list LevelCommitted)
    (ls : gmap N StoredLevel) : Prop :=
  (∀ l, ls !! l = None → usage l = 0) ∧
  ∀ l x, ls !! l = Some x → usage_count x = usage l ∧ ∃ y, f l = Some y ∧ daa_score y = daa_score (value x) ∧
    (l ∈ lc_level <$> ss ∨ value x = y ∨ (¬ contains_level target l ∧ l ∉ ep ∧ usage l = 0)).

Lemma settle_snapshot f usage target ep s ss v m :
  f (lc_level s) = Some (snapshot_level s) → settling f usage target ep (s :: ss) (levels v) →
  settling f usage target ep ss (levels (apply_snapshot_step target ep (v, m) s).1).
Proof.
  intros Hs [Hn Hx]. unfold apply_snapshot_step. case_decide as Hd; cbn [fst].
  - assert (levels (GraphView.set_levels (apply_materialization_snapshot s (levels v)) v) = apply_materialization_snapshot s (levels v)) as -> by done.
    unfold apply_materialization_snapshot. destruct (levels v !! lc_level s) as [x|] eqn:Ex.
    + destruct (Hx _ _ Ex) as (Hu & y & Hy & Hdaa & _). rewrite Hs in Hy. injection Hy as <-. split.
      * intros l. rewrite lookup_insert_None. intros [? _]. by apply Hn.
      * intros l x'. rewrite lookup_insert. destruct (decide (lc_level s = l)) as [<-|Hne]; [intros [= <-]|].
        -- split; [done|]. exists (snapshot_level s). split; [done|]. split; [done|]. right; left. simpl in *. unfold snapshot_level. by rewrite Hdaa.
        -- intros Hx'. destruct (Hx _ _ Hx') as (Hu' & y & Hy & Hd' & Hc). split; [done|]. exists y. split; [done|]. split; [done|].
           destruct Hc as [[->|?]%elem_of_cons|?]; [done|by left|by right].
    + split.
      * intros l. rewrite lookup_insert_None. intros [? _]. by apply Hn.
      * intros l x'. rewrite lookup_insert. destruct (decide (lc_level s = l)) as [<-|Hne]; [intros [= <-]|].
        -- split; [by rewrite Hn|]. exists (snapshot_level s). split; [done|]. split; [done|]. by right; left.
        -- intros Hx'. destruct (Hx _ _ Hx') as (Hu' & y & Hy & Hd' & Hc). split; [done|]. exists y. split; [done|]. split; [done|].
           destruct Hc as [[->|?]%elem_of_cons|?]; [done|by left|by right].
  - split; [done|]. intros l x Hl. destruct (Hx _ _ Hl) as (Hu & y & Hy & Hd' & Hc). split; [done|]. exists y. split; [done|]. split; [done|].
    destruct Hc as [[->|?]%elem_of_cons|?]; [right; right|by left|by right]. rewrite Hl in Hd. split; [tauto|]. split; [tauto|].
    rewrite <- Hu. apply dec_stable. intros Hz. apply Hd. right; left. apply bool_decide_eq_true. lia.
Qed.

Lemma settle_snapshots f usage target ep ss v m :
  (∀ s, s ∈ ss → f (lc_level s) = Some (snapshot_level s)) → settling f usage target ep ss (levels v) →
  settling f usage target ep [] (levels (foldl (apply_snapshot_step target ep) (v, m) ss).1).
Proof.
  revert v m. induction ss as [|s ss IH]; intros v m Hs Hx; [done|]. cbn [foldl].
  pose proof (settle_snapshot f usage target ep s ss v m (Hs s ltac:(left)) Hx) as H1.
  destruct (apply_snapshot_step target ep (v, m) s) as [v1 m1]. apply IH; [|done]. intros s' Hin. apply Hs. by right.
Qed.

(** [ls'] keeps levels of [ls], with their values. *)
Definition values_from (ls ls' : gmap N StoredLevel) : Prop := ∀ l x', ls' !! l = Some x' → ∃ x, ls !! l = Some x ∧ value x = value x'.

Lemma values_from_refl ls : values_from ls ls.
Proof. intros l x Hx. by exists x. Qed.
Lemma values_from_trans ls1 ls2 ls3 : values_from ls1 ls2 → values_from ls2 ls3 → values_from ls1 ls3.
Proof. intros H1 H2 l x3 (x2 & (x1 & ? & E)%H1 & <-)%H2. by exists x1. Qed.

Lemma values_from_usage ls l x n : ls !! l = Some x → values_from ls (<[l := MkStoredLevel (value x) n]> ls).
Proof. intros Hx k x'. rewrite lookup_insert. destruct (decide (l = k)) as [<-|Hne]; [intros [= <-]; by exists x|]. intros ?. by exists x'. Qed.

(** A loop of steps that keep values. *)
Lemma fold_values {A} (step : GraphView * GraphMutation → A → option (GraphView * GraphMutation)) l :
  (∀ v m y v' m', step (v, m) y = Some (v', m') → values_from (levels v) (levels v')) →
  ∀ v m v' m', fold_m step (v, m) l = Some (v', m') → values_from (levels v) (levels v').
Proof.
  intros Hstep. induction l as [|y l IH]; intros v m v' m'; cbn [fold_m]; [intros [= <- <-]; apply values_from_refl|].
  intros ([v1 m1] & H1 & H2)%bind_Some. eapply values_from_trans; [by eapply Hstep|by eapply IH].
Qed.

Lemma insert_edge_values v m e v' m' : insert_edge_step (v, m) e = Some (v', m') → values_from (levels v) (levels v').
Proof.
  unfold insert_edge_step. destruct (edges v !! edge_id e).
  - intros ([] & _ & [= <- <-])%bind_Some. apply values_from_refl.
  - unfold increment_parent_usage. simpl. intros (w & (x & Hx & Hw)%bind_Some & [= <- <-])%bind_Some.
    apply bind_Some in Hw as (n & _ & [= <-]). by apply values_from_usage.
Qed.

Lemma prune_block_values v m h v' m' : prune_block_step (v, m) h = Some (v', m') → values_from (levels v) (levels v').
Proof. intros (b & _ & [= <- <-])%bind_Some. apply values_from_refl. Qed.

Lemma prune_edge_values v m id v' m' : prune_edge_step (v, m) id = Some (v', m') → values_from (levels v) (levels v').
Proof.
  unfold prune_edge_step, decrement_parent_usage. simpl. intros (e & _ & H)%bind_Some.
  apply bind_Some in H as (w & (x & Hx & Hw)%bind_Some & [= <- <-]). apply bind_Some in Hw as (n & _ & [= <-]). by apply values_from_usage.
Qed.

Lemma prune_level_values v m l v' m' : prune_level_step (v, m) l = Some (v', m') → values_from (levels v) (levels v').
Proof.
  intros (x & _ & [= <- <-])%bind_Some k y. simpl. rewrite lookup_delete_Some. intros [_ ?]. by exists y.
Qed.

Lemma prune_values low v m v' m' : prune_below low v m = Some (v', m') → values_from (levels v) (levels v').
Proof.
  unfold prune_below. intros ([ix hs] & _ & H)%bind_Some. apply bind_Some in H as ([v1 m1] & H1 & H). apply bind_Some in H as ([v2 m2] & H2 & H3).
  eapply values_from_trans; [by eapply (fold_values _ _ prune_block_values) in H1|].
  eapply values_from_trans; [by eapply (fold_values _ _ prune_edge_values)|by eapply (fold_values _ _ prune_level_values)].
Qed.

Lemma projection_values f c target v m v1 m1 :
  (∀ s, s ∈ bc_level_snapshots c → f (lc_level s) = Some (snapshot_level s)) →
  settling f (edge_usage (edges v)) target (retained_endpoint_levels (retained_edges c target)) (bc_level_snapshots c) (levels v) →
  apply_block_projection c target v m = Some (v1, m1) →
  ∀ l x, levels v1 !! l = Some x → ∃ y, f l = Some y ∧
    (value x = y ∨ (¬ contains_level target l ∧ l ∉ retained_endpoint_levels (retained_edges c target) ∧ edge_usage (edges v) l = 0)).
Proof.
  intros Hs Hx. unfold apply_block_projection. intros ([v0 m0] & H0 & H1)%bind_Some.
  assert (levels v0 = levels v) as E0.
  { case_decide; [|by injection H0 as <- _]. unfold insert_block in H0. case_match; [done|]. by injection H0 as <- _. }
  destruct (foldl _ (v0, m0) (bc_level_snapshots c)) as [v2 m2] eqn:Ef. intros l x Hl.
  destruct (fold_values _ _ insert_edge_values _ _ _ _ H1 _ _ Hl) as (x2 & Hx2 & <-).
  rewrite <- E0 in Hx. pose proof (settle_snapshots _ _ _ _ _ _ m0 Hs Hx) as [_ H]. rewrite Ef in H.
  destruct (H _ _ Hx2) as (_ & y & Hy & _ & [Hz|Hc]); [by apply elem_of_nil in Hz|]. by exists y.
Qed.

(** The levels of a Head view once a block is applied. *)
Lemma head_level_values f c v v1 v2 m1 m2 :
  head_inv v → block_payload_ok c v →
  (∀ s, s ∈ bc_level_snapshots c → f (lc_level s) = Some (snapshot_level s)) →
  (∀ l x, levels v !! l = Some x → ∃ y, f l = Some y ∧ daa_score y = daa_score (value x) ∧ (l ∈ lc_level <$> bc_level_snapshots c ∨ value x = y)) →
  apply_block_projection c (head_target c v) v GraphMutation_default = Some (v1, m1) →
  prune_below (low_level (head_target c v)) v1 m1 = Some (v2, m2) → head_phases c v v1 v2 m2 →
  ∀ l x, levels v2 !! l = Some x → f l = Some (value x).
Proof.
  intros Hv Hpay Hs Hx H1 H2 Hh l x2 Hl2. destruct (prune_values _ _ _ _ _ H2 _ _ Hl2) as (x & Hl & <-).
  eapply projection_values in H1 as (y & Hy & Hc); [..|exact Hs| |exact Hl].
  - destruct Hc as [->|(Hn & Hep & Hu)]; [done|]. exfalso.
    pose proof (hp_inv _ _ _ _ _ Hh) as Hv2. destruct (hv_minimal _ Hv2 l) as [Hin|Hu2]; [by exists x2|done|].
    assert (∃ id e, edges v2 !! id = Some e ∧ parent_level e = l) as (id & e & He & <-).
    { destruct (map_choose (filter (λ '(_, e), parent_level e = l) (edges v2))) as (id & e & [He <-]%map_lookup_filter_Some); [|by exists id, e].
      intros Hz. apply Hu2. unfold edge_usage. simpl. by rewrite Hz. }
    apply (hp_edges _ _ _ _ _ Hh) in He as [He _]. rewrite (hp_edges1 _ _ _ _ _ Hh), lookup_insert_edges in He.
    + destruct He as [He|[He _]].
      * rewrite edge_usage_zero in Hu. by eapply Hu.
      * apply Hep, elem_of_retained_endpoint_levels. exists e. auto.
    + intros a b. apply retained_edges_agree, Hpay.
    + intros a Ha. by eapply pp_edge; [apply head_projection_pre|].
  - split; [intros k Hk; apply (indexed_unused_level v); [apply Hv|done]|]. intros k z Hz. split; [by apply (ix_usage _ (hv_indexed _ Hv))|].
    destruct (Hx _ _ Hz) as (y & Hy & Hd & Hc). exists y. split; [done|]. split; [done|]. destruct Hc; auto.
Qed.
End level_values.

(** * A view of the tables *)

Section shown.
Context {KH : KaspaHash}.
Implicit Types (t : Tables) (v : GraphView) (h : BlockHash) (id : Z) (b : StoredBlock) (gb : GraphBlock) (c : BlockCommitted).

(** The Head view [v] shows the tables [t]: it ends at their highest level, and
    holds the blocks, edges and levels of its extent as they are stored. *)
Record view_shows (genesis : BlockHash) t v : Prop := {
  vs_inv : head_inv v;
  vs_head : tables_head t (high_level (extent v));
  vs_graph : graph_tracks genesis t (extent v) (blocks v) (edges v) (value <$> levels v)
}.

Lemma coordinate_at_spec genesis t h (x : BlockCoordinate) : store_inv genesis t →
  coordinate_at t h = Some x ↔ ∃ id b, tb_identifiers t !! id = Some h ∧ tb_blocks t !! id = Some b ∧ x = stored_coordinate b.
Proof.
  intros Hi. unfold coordinate_at. rewrite bind_Some. split.
  - intros (s & (id & Hid & ->)%(identity_of_Some genesis) & Hx); [|done]. unfold si_coordinate in Hx. simpl in Hx.
    destruct (tb_blocks t !! id) as [b|] eqn:Eb; [|done]. injection Hx as <-. by exists id, b.
  - intros (id & b & Hid & Hb & ->). exists (MkStoredIdentity (MkCompactId id) (cached_block <$> tb_blocks t !! id)).
    split; [apply (identity_of_Some genesis); [done|by exists id]|]. unfold si_coordinate. simpl. by rewrite Hb.
Qed.

Lemma identity_of_known genesis t h : store_inv genesis t → is_Some (identity_of t h) ↔ ∃ id, tb_identifiers t !! id = Some h.
Proof.
  intros Hi. split.
  - intros [s (id & Hid & _)%(identity_of_Some genesis)]; [|done]. by exists id.
  - intros [id Hid]. eexists. apply (identity_of_Some genesis); [done|]. by exists id.
Qed.

Lemma ids_at_Forall2 genesis t hashes : store_inv genesis t → (∀ h, h ∈ hashes → ∃ id, tb_identifiers t !! id = Some h) →
  Forall2 (λ i h, tb_identifiers t !! i = Some h) (ids_at t hashes) hashes.
Proof.
  intros Hi. unfold ids_at, omap. induction hashes as [|h hashes IH]; intros Hk; simpl; [constructor|].
  destruct (Hk h) as [id Hid]; [left|]. rewrite (proj2 (lookup_id_spec genesis t h id Hi) Hid). constructor; [done|].
  apply IH. intros h' Hin. apply Hk. by right.
Qed.

Lemma timestamp_roundtrip (x : Timestamp) : x ≤ U64_MAX → timestamp_from_sql (timestamp_to_sql x) = x.
Proof.
  intros Hx. unfold timestamp_from_sql, timestamp_to_sql. assert (Z.of_N x < 2 ^ 64)%Z as Hlt by (unfold U64_MAX in Hx; lia). case_decide.
  - rewrite Z.mod_small by lia. apply N2Z.id.
  - rewrite <- (Z_mod_plus_full _ 1), Z.mul_1_l, Z.sub_add, Z.mod_small by lia. apply N2Z.id.
Qed.

Lemma position_total (l : list BlockHash) h : h ∈ l → N.of_nat (length l) ≤ U32_MAX →
  ∃ i, position_u32 h l = Some (N.of_nat i) ∧ l !! i = Some h.
Proof.
  intros Hin Hlen. unfold position_u32. destruct (list_find_elem_of (λ x, x = h) l h Hin eq_refl) as [[i x] Hf]. rewrite Hf. simpl.
  apply list_find_Some in Hf as (Hl & -> & _). pose proof (lookup_lt_Some _ _ _ Hl). rewrite decide_True by lia. by exists i.
Qed.

(** ** A committed block *)

Section committed.
Context (genesis : BlockHash) (t t' : Tables) (block : ValidatedNodeBlock) (c : BlockCommitted) (v : GraphView).
Hypothesis Hi : store_inv genesis t.
Hypothesis Hin : inserted genesis block t t' c.
Hypothesis Hacc : acceptable genesis block.
Hypothesis Hwidth : vnb_timestamp block ≤ U64_MAX ∧ N.of_nat (length (vnb_direct_parents block)) ≤ U32_MAX.
Hypothesis Hshows : view_shows genesis t v.

Let own : Z := compact_id (bc_id c).
Let row : StoredBlock := committed_row t' block c.
Let Hi' : store_inv genesis t' := is_inv _ _ _ _ _ Hin.

Lemma committed_payload : bc_hash c = vnb_hash block ∧
  bc_direct_parents c = (λ h, MkParentCommitted h (coordinate_at t h)) <$> vnb_direct_parents block ∧
  bc_level_snapshots c = omap (snapshot_at t') (btree_levels (coord_level (bc_coordinate c) :: parent_levels t (vnb_direct_parents block))).
Proof.
  pose proof (is_payload _ _ _ _ _ Hin) as Hc. split; [exact (f_equal bc_hash Hc)|].
  split; [exact (f_equal bc_direct_parents Hc)|exact (f_equal bc_level_snapshots Hc)].
Qed.

Lemma own_absent id : (is_Some (tb_identifiers t !! id) ∨ is_Some (tb_blocks t !! id)) → id ≠ own.
Proof.
  intros Hid ->. assert (is_Some (tb_identifiers t !! own)) as Hs by (destruct Hid as [?|[b Hb]]; [done|by apply (st_blocks _ _ Hi _ _ Hb)]).
  apply (is_last _ _ _ _ _ Hin) in Hs. unfold own in Hs. lia.
Qed.

Lemma committed_blocks id b : tb_blocks t' !! id = Some b ↔ (id = own ∧ b = row) ∨ tb_blocks t !! id = Some b.
Proof.
  rewrite (is_blocks _ _ _ _ _ Hin). fold own row. rewrite lookup_insert_Some. split.
  - intros [[<- <-]|[_ ?]]; auto.
  - intros [[-> ->]|Hb]; [by left|right]. split; [|done]. intros E. symmetry in E. eapply own_absent; [|exact E]. by right; exists b.
Qed.

Lemma committed_identifier id h : is_Some (tb_identifiers t !! id) → tb_identifiers t' !! id = Some h ↔ tb_identifiers t !! id = Some h.
Proof.
  intros [x Hx]. split; [|apply (is_ids _ _ _ _ _ Hin)]. intros Hh. pose proof (is_ids _ _ _ _ _ Hin _ _ Hx). congruence.
Qed.

Lemma committed_references h : h ∈ vnb_direct_parents block ∨ h ∈ vnb_blue_merge_set block ∨ h ∈ vnb_red_merge_set block →
  ∃ id, tb_identifiers t' !! id = Some h.
Proof.
  intros Hh. apply (identity_of_known genesis); [exact Hi'|]. apply (is_references _ _ _ _ _ Hin).
  unfold block_references, reference_hashes. apply elem_of_firsts. split; [rewrite !elem_of_app; tauto|by intros ?%elem_of_nil].
Qed.

Lemma committed_parents cid p relation : tb_parents t' !! (cid, p) = Some relation ↔
  (cid = own ∧ relation = relation_of t' row p ∧ ∃ h, h ∈ vnb_direct_parents block ∧ tb_identifiers t' !! p = Some h) ∨
  tb_parents t !! (cid, p) = Some relation.
Proof.
  pose proof (is_parents _ _ _ _ _ Hin cid p) as Ep. fold own row in Ep. rewrite Ep. clear Ep.
  pose proof (elem_of_ids_at genesis t' (vnb_direct_parents block) p Hi') as Hids. case_decide as Hd; rewrite Hids in Hd.
  - destruct Hd as [-> Hp]. split; [intros [= <-]; by left|]. intros [(_ & -> & _)|Hr]; [done|].
    destruct (st_parents _ _ Hi _ _ _ Hr) as (_ & _ & b & Hb & _). by destruct (own_absent own (or_intror (ex_intro _ b Hb))).
  - split; [by right|]. intros [(-> & _ & Hp)|Hr]; [|done]. by destruct Hd.
Qed.

Lemma committed_stored : stored_coordinate row = bc_coordinate c.
Proof. unfold stored_coordinate, row, committed_row. simpl. rewrite !N2Z.id. by destruct (bc_coordinate c). Qed.

Lemma committed_shown : block_shown genesis t' own row (graph_block_from_committed c).
Proof.
  pose proof (is_payload _ _ _ _ _ Hin) as Hc. destruct committed_payload as (Eh & Ep & _). split.
  - change (hash (graph_block_from_committed c)) with (bc_hash c). rewrite Eh. apply (is_own _ _ _ _ _ Hin).
  - by rewrite committed_stored.
  - pose proof (f_equal bc_timestamp Hc) as Et. simpl in Et. simpl. rewrite Et. symmetry. exact (timestamp_roundtrip _ (proj1 Hwidth)).
  - pose proof (f_equal bc_daa_score Hc) as Et. simpl in Et. simpl. rewrite Et. by rewrite N2Z.id.
  - pose proof (f_equal bc_blue_merge_set Hc) as Et. simpl in Et. simpl. rewrite Et. apply (ids_at_Forall2 genesis); [exact Hi'|]. intros h Hh. apply committed_references. auto.
  - pose proof (f_equal bc_red_merge_set Hc) as Et. simpl in Et. simpl. rewrite Et. apply (ids_at_Forall2 genesis); [exact Hi'|]. intros h Hh. apply committed_references. auto.
  - change (direct_parents (graph_block_from_committed c)) with (pc_hash <$> bc_direct_parents c).
    rewrite Ep, <- list_fmap_compose. unfold compose. simpl. rewrite list_fmap_id. split; [apply Hacc|]. intros h. split.
    + intros Hh. destruct (committed_references h (or_introl Hh)) as [p Hp]. exists p. split; [|done]. eexists. apply committed_parents. left. eauto.
    + intros (p & [relation [(_ & _ & h' & Hh' & Hp')|Hr]%committed_parents] & Hp); [congruence|].
      destruct (st_parents _ _ Hi _ _ _ Hr) as (_ & _ & b & Hb & _). by destruct (own_absent own (or_intror (ex_intro _ b Hb))).
  - change (hash (graph_block_from_committed c)) with (bc_hash c).
    change (direct_parents (graph_block_from_committed c)) with (pc_hash <$> bc_direct_parents c).
    assert (pc_hash <$> bc_direct_parents c = vnb_direct_parents block) as -> by (rewrite Ep, <- list_fmap_compose; apply list_fmap_id).
    assert (selected_parent_index (graph_block_from_committed c) = position_u32 (vnb_selected_parent block) (vnb_direct_parents block)) as -> by exact (f_equal bc_selected_parent_index Hc).
    rewrite Eh. case_decide as Hg.
    + destruct (ac_genesis _ _ Hacc Hg) as (-> & _). done.
    + pose proof (ac_selected _ _ Hacc Hg) as Hsel. destruct (position_total _ _ Hsel (proj2 Hwidth)) as (i & -> & Hl).
      exists (N.of_nat i), (vnb_selected_parent block). split; [done|]. rewrite Nat2N.id. split; [done|]. unfold row, committed_row. simpl.
      destruct (committed_references _ (or_introl Hsel)) as [p Hp]. by rewrite (proj2 (lookup_id_spec genesis t' _ p Hi') Hp).
  - pose proof (f_equal bc_color Hc) as Et. simpl in Et. simpl. by rewrite Et.
  - exact (f_equal bc_is_in_vspc Hc).
Qed.

(** The blocks already shown are shown as before. *)
Lemma kept_shown id b gb : tb_blocks t !! id = Some b → block_shown genesis t id b gb → block_shown genesis t' id b gb.
Proof.
  intros Hb [H1 H2 H3 H4 H5 H6 H7 H8 H9 H10]. pose proof (is_ids _ _ _ _ _ Hin) as Hids. split; try done; [by apply Hids|..].
  - eapply Forall2_impl; [done|]. intros i h. apply Hids.
  - eapply Forall2_impl; [done|]. intros i h. apply Hids.
  - destruct H7 as [Hnd Hp]. split; [done|]. intros h. rewrite Hp. split.
    + intros (p & [relation Hr] & Hh). exists p. split; [|by apply Hids]. eexists. apply committed_parents. by right.
    + intros (p & [relation [(-> & _)|Hr]%committed_parents] & Hh).
      * by destruct (own_absent own (or_intror (ex_intro _ b Hb))).
      * exists p. split; [by eexists|]. destruct (st_parents _ _ Hi _ _ _ Hr) as (_ & Hk & _). by apply committed_identifier.
  - case_decide; [done|]. destruct H8 as (i & h & E1 & E2 & E3). exists i, h. split; [done|]. split; [done|]. by apply Hids.
Qed.

Lemma stored_below_head id b : tb_blocks t !! id = Some b → Z.to_N (sb_level b) ≤ high_level (extent v) ∧ 0 < Z.to_N (sb_level b).
Proof.
  intros Hb. destruct (vs_head _ _ _ Hshows) as [_ Hm]. pose proof (max_level_spec t) as Hs. rewrite Hm in Hs. destruct Hs as [_ Hs].
  specialize (Hs _ _ Hb). destruct (st_blocks _ _ Hi _ _ Hb) as [_ (_ & [? _] & _)]. lia.
Qed.

Lemma stored_parent_level h (x : BlockCoordinate) : coordinate_at t h = Some x → 0 < coord_level x ≤ high_level (extent v).
Proof. intros (id & b & _ & Hb & ->)%(coordinate_at_spec genesis); [|done]. simpl. pose proof (stored_below_head _ _ Hb). lia. Qed.

Lemma committed_level : 0 < coord_level (bc_coordinate c) ≤ high_level (extent v) + 1 ∧
  ∀ h (x : BlockCoordinate), h ∈ vnb_direct_parents block → coordinate_at t h = Some x → coord_level x < coord_level (bc_coordinate c).
Proof.
  rewrite (is_level _ _ _ _ _ Hin). set (ls := parent_levels t (vnb_direct_parents block)).
  assert (∀ l, l ∈ ls → l ≤ foldr N.max 0 ls) as Hle.
  { clearbody ls. induction ls as [|x ls IH]; intros l; [by intros ?%elem_of_nil|]. simpl. intros [->|Hl]%elem_of_cons; [lia|]. apply IH in Hl. lia. }
  assert (foldr N.max 0 ls ≤ high_level (extent v)) as Hmax.
  { assert (∀ l, l ∈ ls → l ≤ high_level (extent v)) as Hb.
    { intros l (h & x & _ & Hx & <-)%elem_of_parent_levels. apply stored_parent_level in Hx. lia. }
    clear Hle. clearbody ls. induction ls as [|x ls IH]; simpl; [lia|]. apply N.max_lub; [apply Hb; left|]. apply IH. intros l Hl. apply Hb. by right. }
  split; [lia|]. intros h x Hh Hx. assert (coord_level x ∈ ls) as Hl by (apply elem_of_parent_levels; eauto). apply Hle in Hl. lia.
Qed.

Lemma committed_levels l : shown_level t' l = if decide (l = coord_level (bc_coordinate c))
  then Some (MkLevel (coord_slot (bc_coordinate c) + 1) (shown_level t l ≫= daa_score)) else shown_level t l.
Proof.
  destruct (is_levels _ _ _ _ _ Hin) as [Hslot Hl]. unfold shown_level, snapshot_at. rewrite Hl. case_decide as Hd.
  - subst l. rewrite lookup_insert_eq. simpl. destruct (tb_levels t !! Z.of_N (coord_level (bc_coordinate c))) as [old|] eqn:Eo; simpl in Hslot |- *.
    + f_equal. rewrite <- Hslot. rewrite Z2N.inj_add, N2Z.id by lia. done.
    + f_equal. by assert (coord_slot (bc_coordinate c) = 0) as -> by lia.
  - rewrite lookup_insert_ne by lia. done.
Qed.

Lemma snapshot_truthful s : s ∈ bc_level_snapshots c → shown_level t' (lc_level s) = Some (snapshot_level s).
Proof.
  destruct committed_payload as (_ & _ & ->). rewrite list_elem_of_omap. intros (l & _ & Hs). unfold shown_level.
  assert (lc_level s = l) as -> by (unfold snapshot_at in Hs; destruct (tb_levels t' !! Z.of_N l); [by injection Hs as <-|done]).
  by rewrite Hs.
Qed.

Lemma elem_of_snapshot_levels l : l = coord_level (bc_coordinate c) ∨ l ∈ parent_levels t (vnb_direct_parents block) →
  l ∈ lc_level <$> bc_level_snapshots c.
Proof.
  intros Hl. assert (is_Some (tb_levels t' !! Z.of_N l)) as [r Hr].
  { destruct (is_levels _ _ _ _ _ Hin) as [_ ->]. destruct (decide (l = coord_level (bc_coordinate c))) as [->|Hne]; [by rewrite lookup_insert_eq|].
    rewrite lookup_insert_ne by lia. destruct Hl as [?|Hl]; [done|]. by eapply parent_level_row. }
  apply list_elem_of_fmap. exists (snapshot_of l r). split; [done|]. destruct committed_payload as (_ & _ & ->).
  apply list_elem_of_omap. exists l. split; [|unfold snapshot_at; by rewrite Hr]. apply elem_of_btree_levels, elem_of_cons. tauto.
Qed.

Lemma committed_payload_ok : N.of_nat (size (edges v) + length (vnb_direct_parents block)) ≤ U64_MAX → current_revision_id v < U64_MAX →
  block_payload_ok c v.
Proof.
  intros Hsize Hrev. destruct committed_payload as (Eh & Ep & _). destruct committed_level as [Hl Hlt].
  assert (∀ p, p ∈ bc_direct_parents c → ∃ h, h ∈ vnb_direct_parents block ∧ p = MkParentCommitted h (coordinate_at t h)) as Hp.
  { intros p. rewrite Ep. intros (h & -> & Hh)%list_elem_of_fmap. by exists h. }
  split; [|done|..|done].
  - rewrite Eh. destruct (blocks v !! vnb_hash block) as [gb|] eqn:Eb; [|done]. exfalso.
    destruct (gt_blocks _ _ _ _ _ _ (vs_graph _ _ _ Hshows) _ _ Eb) as (id & b & _ & Hsh & Hh & _).
    pose proof (sh_hash _ _ _ _ _ Hsh) as Hid. rewrite Hh in Hid. pose proof (is_absent _ _ _ _ _ Hin) as Ha.
    destruct (proj2 (identity_of_known genesis t (vnb_hash block) Hi)) as [? ?]; [by exists id|congruence].
  - intros p pc Hin' Hpc. apply Hp in Hin' as (h & Hh & ->). by eapply Hlt.
  - intros p q Hp1 Hp2 E. apply Hp in Hp1 as (h1 & _ & ->). apply Hp in Hp2 as (h2 & _ & ->). simpl in E. by subst.
  - apply elem_of_snapshot_levels. by left.
  - intros p pc Hp1 Hpc. apply Hp in Hp1 as (h & Hh & ->). right. apply elem_of_snapshot_levels. right. apply elem_of_parent_levels. by exists h, pc.
  - rewrite Ep, length_fmap. done.
Qed.

Lemma committed_head : tables_head t' (high_level (head_target c v)).
Proof.
  destruct committed_level as [Hl _]. destruct (vs_head _ _ _ Hshows) as [Hr Hm].
  assert (tb_blocks t' !! own = Some row) as Hown by (apply committed_blocks; by left).
  assert (sb_level row = Z.of_N (coord_level (bc_coordinate c))) as Erow by done.
  destruct (st_blocks _ _ Hi' _ _ Hown) as [_ (_ & [Hrange _] & _)]. rewrite Erow in Hrange. unfold head_target. cbn [high_level].
  split; [lia|]. pose proof (max_level_spec t) as Hs. rewrite Hm in Hs. destruct Hs as [(id & b & Hb & El) Hs].
  pose proof (max_level_spec t') as Hs'. destruct (max_level t') as [x|]; [|by rewrite Hs', lookup_empty in Hown].
  destruct Hs' as [(id' & b' & Hb' & <-) Hs']. f_equal. pose proof (Hs' _ _ Hown) as H1. rewrite Erow in H1.
  assert (tb_blocks t' !! id = Some b) as Hkeep by (apply committed_blocks; by right). pose proof (Hs' _ _ Hkeep) as H2. rewrite El in H2.
  apply committed_blocks in Hb' as [[-> ->]|Hb']; [rewrite Erow in *; lia|]. specialize (Hs _ _ Hb'). lia.
Qed.

(** ** The graph after the update *)

Section phases.
Context (v1 v2 : GraphView) (m1 m2 : GraphMutation).
Hypothesis Hpay : block_payload_ok c v.
Hypothesis Hproject : apply_block_projection c (head_target c v) v GraphMutation_default = Some (v1, m1).
Hypothesis Hprune : prune_below (low_level (head_target c v)) v1 m1 = Some (v2, m2).
Hypothesis Hphases : head_phases c v v1 v2 m2.

Let Hv : head_inv v := vs_inv _ _ _ Hshows.
Let Hv2 : head_inv (set_extent (head_target c v) v2) := hp_inv _ _ _ _ _ Hphases.
Let Hg := vs_graph _ _ _ Hshows.

Lemma target_levels : low_level (extent v) ≤ low_level (head_target c v) ∧ high_level (extent v) ≤ high_level (head_target c v) ∧
  coord_level (bc_coordinate c) ≤ high_level (head_target c v).
Proof. destruct (head_target_low c v Hv) as (? & _). unfold head_target in *. simpl in *. lia. Qed.

Lemma projected_lookup h gb : blocks v1 !! h = Some gb ↔
  blocks v !! h = Some gb ∨ (h = vnb_hash block ∧ gb = graph_block_from_committed c ∧ low_level (head_target c v) ≤ coord_level (bc_coordinate c)).
Proof.
  destruct committed_payload as (Eh & _). rewrite (hp_blocks1 _ _ _ _ _ Hphases). unfold projected_blocks. rewrite Eh.
  destruct target_levels as (_ & _ & Hhigh). pose proof (po_fresh _ _ Hpay) as Hf. rewrite Eh in Hf. case_decide as Hd; unfold contains_level in Hd.
  - rewrite lookup_insert_Some. split; [naive_solver|]. intros [Hb|(-> & -> & _)]; [|by left]. right. split; [congruence|done].
  - split; [by left|]. intros [Hb|(_ & _ & Hl)]; [done|]. by destruct Hd.
Qed.

Lemma projected_edge eid e : edges v1 !! eid = Some e ↔ edges v !! eid = Some e ∨ (e ∈ retained_edges c (head_target c v) ∧ edge_id e = eid).
Proof.
  rewrite (hp_edges1 _ _ _ _ _ Hphases). apply lookup_insert_edges; [intros x y; apply retained_edges_agree, Hpay|].
  intros x Hx. by eapply pp_edge; [apply head_projection_pre|].
Qed.

(** The retained edges of the payload are the relations of the new block. *)
Lemma retained_relation e : e ∈ retained_edges c (head_target c v) ↔ ∃ p, tb_parents t' !! (own, p) = Some (relation_of t' row p) ∧
  tb_identifiers t' !! own = Some (child (edge_id e)) ∧ tb_identifiers t' !! p = Some (parent (edge_id e)) ∧
  (0 < pr_parent_level (relation_of t' row p) ∧ Z.of_N (low_level (head_target c v)) ≤ pr_child_level (relation_of t' row p) ∧
   pr_parent_level (relation_of t' row p) ≤ Z.of_N (high_level (head_target c v)))%Z ∧ e = shown_edge (edge_id e) (relation_of t' row p).
Proof.
  destruct committed_payload as (Eh & Ep & _). pose proof (is_own _ _ _ _ _ Hin) as Hown. rewrite elem_of_retained_edges.
  assert (∀ p pb, tb_blocks t !! p = Some pb →
    relation_of t' row p = MkParentRelation (sb_level row) (sb_slot row) (sb_level pb) (sb_slot pb) ∧ (0 < sb_level pb)%Z) as Hrel.
  { intros p pb Hpb. unfold relation_of. rewrite (proj2 (committed_blocks p pb) (or_intror Hpb)). pose proof (stored_below_head _ _ Hpb). split; [done|lia]. }
  assert (∀ g (pb : StoredBlock), shown_edge (MkEdgeId g (vnb_hash block)) (MkParentRelation (sb_level row) (sb_slot row) (sb_level pb) (sb_slot pb)) =
    MkGraphEdge (MkEdgeId g (vnb_hash block)) (stored_coordinate pb) (stored_coordinate row)) as Hshow by done.
  split.
  - intros ([Hlow Hhigh] & p & pc & Hp & Hpc & ->). rewrite Ep in Hp. apply list_elem_of_fmap in Hp as (h & -> & Hh).
    cbn [pc_coordinate pc_hash edge_id child parent] in *. rewrite Eh. apply (coordinate_at_spec genesis) in Hpc as (id & b & Hid & Hb & ->); [|done].
    destruct (Hrel id b Hb) as [Er Hpos]. exists id. rewrite Er, Hshow, committed_stored. split_and!; try done.
    + rewrite <- Er. apply committed_parents. left. split; [done|]. split; [done|]. exists h. split; [done|]. by apply (is_ids _ _ _ _ _ Hin).
    + by apply (is_ids _ _ _ _ _ Hin).
    + simpl. unfold child_level in Hlow. simpl in Hlow. lia.
    + simpl. unfold parent_level in Hhigh. simpl in Hhigh. lia.
  - intros (p & Hr & Hc & Hp & (Hpos & Hlow & Hhigh) & He).
    assert (∃ pb, tb_blocks t !! p = Some pb) as [pb Hpb].
    { unfold relation_of in Hpos. destruct (tb_blocks t' !! p) as [pb|] eqn:Epb; [|simpl in Hpos; lia].
      apply committed_blocks in Epb as [[-> ->]|Epb]; [|by exists pb]. destruct (st_parents _ _ Hi' _ _ _ Hr) as (? & _). lia. }
    destruct (Hrel p pb Hpb) as [Er _]. rewrite Er in He, Hlow, Hhigh. apply committed_parents in Hr as [(_ & _ & h & Hh & Hp')|Hr].
    + assert (parent (edge_id e) = h) as Epar by congruence. assert (child (edge_id e) = vnb_hash block) as Echild by (unfold own in Hc; congruence).
      assert (tb_identifiers t !! p = Some h) as Hpt.
      { apply committed_identifier; [|done]. by apply (st_blocks _ _ Hi _ _ Hpb). }
      assert (e = MkGraphEdge (MkEdgeId h (vnb_hash block)) (stored_coordinate pb) (bc_coordinate c)) as Ee.
      { rewrite He. rewrite <- committed_stored, <- (Hshow h pb). f_equal. destruct (edge_id e). simpl in *. congruence. }
      split.
      * rewrite Ee. unfold intersects_span, parent_level, child_level. cbn [parent_coordinate child_coordinate]. rewrite <- committed_stored.
        unfold stored_coordinate. cbn [coord_level pr_child_level pr_parent_level] in *. lia.
      * exists (MkParentCommitted h (coordinate_at t h)), (stored_coordinate pb). rewrite Ep, Eh. split; [apply list_elem_of_fmap; by exists h|].
        split; [|done]. simpl. apply (coordinate_at_spec genesis); [done|]. by exists p, pb.
    + destruct (st_parents _ _ Hi _ _ _ Hr) as (_ & _ & b & Hb & _). by destruct (own_absent own (or_intror (ex_intro _ b Hb))).
Qed.

Lemma updated_block h gb : blocks v2 !! h = Some gb ↔
  low_level (head_target c v) ≤ block_level gb ∧
  (blocks v !! h = Some gb ∨ (h = vnb_hash block ∧ gb = graph_block_from_committed c)).
Proof.
  rewrite (hp_blocks _ _ _ _ _ Hphases), projected_lookup. split; [naive_solver|]. intros [Hl [Hb|[-> ->]]]; (split; [|done]); [by left|].
  right. split; [done|]. split; [done|]. exact Hl.
Qed.

(** What was shown is still there if it is in the new extent. *)
Lemma kept_block id b h : tb_blocks t !! id = Some b → tb_identifiers t !! id = Some h → low_level (head_target c v) ≤ Z.to_N (sb_level b) →
  ∃ gb, blocks v !! h = Some gb ∧ blocks v2 !! h = Some gb ∧ block_level gb = Z.to_N (sb_level b).
Proof.
  intros Hb Hid Hl. pose proof target_levels as (Hlow & _). destruct (gt_all _ _ _ _ _ _ Hg id b h Hb Hid) as [gb Hgb].
  { unfold contains_level. pose proof (stored_below_head _ _ Hb). lia. }
  exists gb. split; [done|]. destruct (gt_blocks _ _ _ _ _ _ Hg _ _ Hgb) as (id' & b' & Hb' & Hsh & Hh & _).
  assert (id' = id) as -> by (apply (st_hashes _ _ Hi _ _ h); [|done]; pose proof (sh_hash _ _ _ _ _ Hsh); congruence).
  assert (b' = b) as -> by congruence. assert (block_level gb = Z.to_N (sb_level b)) as El by exact (shown_block_level genesis t _ _ _ Hsh).
  split; [|done]. apply updated_block. split; [lia|by left].
Qed.

Lemma updated_edge eid e : edges v2 !! eid = Some e ↔ ∃ cid p relation, tb_parents t' !! (cid, p) = Some relation ∧
  tb_identifiers t' !! cid = Some (child eid) ∧ tb_identifiers t' !! p = Some (parent eid) ∧
  (0 < pr_parent_level relation ∧ Z.of_N (low_level (head_target c v)) ≤ pr_child_level relation ∧
   pr_parent_level relation ≤ Z.of_N (high_level (head_target c v)))%Z ∧ e = shown_edge eid relation.
Proof.
  pose proof target_levels as (Hlow & Hhigh & _). split.
  - intros He. destruct (hv_children _ Hv2 eid e He) as (gb & Hgb & Eco). pose proof (hv_blocks _ Hv2 _ _ Hgb) as [Hcl _].
    unfold block_level in Hcl. rewrite Eco in Hcl. cbn [extent set_extent] in Hcl.
    apply (hp_edges _ _ _ _ _ Hphases) in He as [[He|[He <-]]%projected_edge _].
    + apply (gt_edges _ _ _ _ _ _ Hg) in He as (cid & p & relation & Hr & Hc & Hp & (H1 & H2 & H3) & ->). exists cid, p, relation.
      pose proof (is_ids _ _ _ _ _ Hin) as Hids. split_and!; [apply committed_parents; by right|by apply Hids|by apply Hids|done| |lia|done].
      unfold shown_edge in Hcl. cbn [child_coordinate coord_level] in Hcl. lia.
    + apply retained_relation in He as (p & Hr & Hc & Hp & Hlev & He). by exists own, p, (relation_of t' row p).
  - intros (cid & p & relation & Hr & Hc & Hp & (H1 & H2 & H3) & ->). apply (hp_edges _ _ _ _ _ Hphases).
    pose proof Hr as Hr'. apply committed_parents in Hr' as [(-> & -> & _)|Hr0].
    + assert (shown_edge eid (relation_of t' row p) ∈ retained_edges c (head_target c v)) as Hret by (apply retained_relation; by exists p).
      split; [apply projected_edge; by right|]. intros (gb & Hgb & Hlt). destruct committed_payload as (Eh & _).
      destruct (head_retained_edge c v _ Hv Hpay Hret) as (Ech & _ & _ & [Hcl _]).
      assert (child eid = vnb_hash block) as Ec by (rewrite <- Eh; exact Ech).
      apply projected_lookup in Hgb as [Hgb|(_ & -> & _)].
      * pose proof (po_fresh _ _ Hpay). rewrite Ec, <- Eh in Hgb. congruence.
      * unfold block_level in Hlt. simpl in Hlt. unfold head_target in *. simpl in *. lia.
    + destruct (st_parents _ _ Hi _ _ _ Hr0) as (_ & Hpk & b & Hb & Er & Hpl). pose proof (stored_below_head _ _ Hb) as Hbl.
      assert (pr_child_level relation = sb_level b) as Ecl by (rewrite Er; unfold relation_of; by destruct (tb_blocks t !! p)).
      assert (tb_identifiers t !! cid = Some (child eid)) as Hct by (apply committed_identifier; [by apply (st_blocks _ _ Hi _ _ Hb)|done]).
      assert (tb_identifiers t !! p = Some (parent eid)) as Hpt by by apply committed_identifier.
      split.
      * apply projected_edge. left. apply (gt_edges _ _ _ _ _ _ Hg). exists cid, p, relation. split_and!; try done; lia.
      * intros (gb & Hgb & Hlt). destruct (kept_block cid b (child eid) Hb Hct) as (gb' & _ & Hgb' & El); [lia|].
        apply (hp_blocks _ _ _ _ _ Hphases) in Hgb' as [Hgb' _]. rewrite Hgb in Hgb'. injection Hgb' as <-. lia.
Qed.

Lemma updated_levels l x : levels v2 !! l = Some x → shown_level t' l = Some (value x).
Proof.
  eapply head_level_values; [exact Hv|exact Hpay|exact snapshot_truthful| |exact Hproject|exact Hprune|exact Hphases].
  intros k z Hz. assert ((value <$> levels v) !! k = Some (value z)) as Hz' by by rewrite lookup_fmap, Hz.
  apply (gt_levels _ _ _ _ _ _ Hg) in Hz' as [_ Hz']. rewrite committed_levels. case_decide as Hd.
  - eexists. split; [done|]. rewrite Hz'. split; [done|]. left. apply elem_of_snapshot_levels. by left.
  - exists (value z). split; [done|]. split; [done|]. by right.
Qed.

Lemma updated_graph : graph_tracks genesis t' (head_target c v) (blocks v2) (edges v2) (value <$> levels v2).
Proof.
  split.
  - intros h gb Hgb. pose proof (hv_blocks _ Hv2 h gb Hgb) as Hl. apply updated_block in Hgb as [_ [Hgb|[-> ->]]].
    + destruct (gt_blocks _ _ _ _ _ _ Hg _ _ Hgb) as (id & b & Hb & Hsh & Hh & _). exists id, b.
      split; [apply committed_blocks; by right|]. split; [by apply kept_shown|done].
    + exists own, row. split; [apply committed_blocks; by left|]. split; [apply committed_shown|]. split; [|done].
      by destruct committed_payload as (? & _).
  - intros id b h [[-> ->]|Hb]%committed_blocks Hh [Hlow _].
    + pose proof (is_own _ _ _ _ _ Hin) as Hown. assert (h = vnb_hash block) as -> by (unfold own in Hh; congruence).
      eexists. apply updated_block. split; [|by right]. unfold row, committed_row in Hlow. cbn [sb_level] in Hlow. rewrite N2Z.id in Hlow. exact Hlow.
    + apply committed_identifier in Hh; [|by apply (st_blocks _ _ Hi _ _ Hb)]. destruct (kept_block _ _ _ Hb Hh Hlow) as (gb & _ & ? & _). by exists gb.
  - apply updated_edge.
  - intros l x. rewrite lookup_fmap, fmap_Some. split.
    + intros (z & Hz & ->). split; [|by apply updated_levels]. destruct (hv_minimal _ Hv2 l) as [Hl|Hl]; [by exists z|by left|right].
      apply edge_used in Hl as (eid & e & He & <-). exists eid, e. auto.
    + intros [Hl Hx]. assert (is_Some (levels v2 !! l)) as [z Hz].
      { destruct Hl as [Hl|(eid & e & He & [->| ->])]; [by apply (hv_nominal _ Hv2)| |].
        - destruct (hv_children _ Hv2 eid e He) as (gb & Hgb & Eco). apply (hv_nominal _ Hv2). pose proof (hv_blocks _ Hv2 _ _ Hgb) as Hcl.
          unfold block_level in Hcl. by rewrite Eco in Hcl.
        - by apply (ix_parent_level _ (bp_indexed _ _ _ (hp_phase _ _ _ _ _ Hphases)) eid). }
      exists z. split; [done|]. apply updated_levels in Hz. congruence.
Qed.
End phases.

(** The Head view after a committed block shows the tables after it. *)
Lemma committed_block_shown ts : N.of_nat (size (edges v) + length (vnb_direct_parents block)) ≤ U64_MAX → current_revision_id v < U64_MAX →
  ∃ v' r, apply_head_block_committed c ts v = Some (v', Ok r) ∧ view_shows genesis t' v' ∧ max_depth v' = max_depth v ∧
    current_revision_id v' ≤ current_revision_id v + 1.
Proof.
  intros Hsize Hrev. pose proof (committed_payload_ok Hsize Hrev) as Hpay. pose proof (vs_inv _ _ _ Hshows) as Hv.
  destruct (head_block_phases c ts v Hv Hpay) as (v1 & v2 & m1 & m2 & H1 & H2 & Hh & ->).
  destruct (head_finish c ts v v1 v2 m2 Hv Hpay Hh) as [[-> _]|(d & v' & -> & -> & _)]; run_bind; eexists _, _; (split; [done|]).
  all: destruct (bp_header _ _ _ (hp_phase _ _ _ _ _ Hh)) as (Hd & _ & Hrv & _ & _); pose proof (updated_graph v1 v2 m1 m2 Hpay H1 H2 Hh) as Hgr.
  all: pose proof (hp_inv _ _ _ _ _ Hh) as Hv2; split; [|split; [done|simpl; lia]]; split; [|exact committed_head|exact Hgr].
  - done.
  - destruct Hv2; split; try done. by apply indexed_set_revision.
Qed.
End committed.

(** ** A committed transition *)

(** Merge sets lie in the past of their block. *)
Definition merge_sets_below t : Prop := ∀ id b i bi, tb_blocks t !! id = Some b → i ∈ sb_blue_merge_set b ++ sb_red_merge_set b →
  tb_blocks t !! i = Some bi → (sb_level bi < sb_level b)%Z.

(** The transition [u] published for a committed [change]: the hashes of its
    members, and the levels the commit reports. *)
Record publishes t (change : ReadyVspcChange) (outcome : VspcCommitOutcome) (u : VspcCommitted) : Prop := {
  pu_removed : Forall2 (λ i h, tb_identifiers t !! compact_id i = Some h) (rc_removed change) (vc_removed u);
  pu_added : Forall2 (λ i h, tb_identifiers t !! compact_id i = Some h) (rc_added change) (vc_added u);
  pu_levels : vc_level_snapshots u = outcome_level_snapshots outcome
}.

Definition write_color {A} `{EqDecision A} (k : A) (blue red : list A) (o : option BlockColor) : option BlockColor :=
  if decide (k ∈ red) then Some Red else if decide (k ∈ blue) then Some Blue else o.

Lemma foldl_insert_const (m : gmap CompactId BlockColor) (l : list CompactId) (x : BlockColor) k :
  foldl (λ m i, <[i := x]> m) m l !! k = if decide (k ∈ l) then Some x else m !! k.
Proof.
  revert m. induction l as [|i l IH]; intros m; [by rewrite decide_False by apply not_elem_of_nil|]. cbn [foldl]. rewrite IH.
  destruct (decide (k ∈ l)); [by rewrite decide_True by by right|]. destruct (decide (i = k)) as [->|Hne].
  - rewrite lookup_insert_eq. by rewrite decide_True by left.
  - rewrite lookup_insert_ne by done. rewrite decide_False; [done|]. intros [->|?]%elem_of_cons; done.
Qed.

Lemma color_members_lookup m s k : color_members m s !! k = write_color k (cs_blue s) (cs_red s) (m !! k).
Proof. unfold color_members, write_color. by rewrite !foldl_insert_const. Qed.

Lemma last_write_const (l : list BlockHash) (x : BlockColor) h o :
  foldl (λ o '(k, c), if decide (k = h) then Some c else o) o ((λ k, (k, x)) <$> l) = if decide (h ∈ l) then Some x else o.
Proof.
  revert o. induction l as [|k l IH]; intros o; [by rewrite decide_False by apply not_elem_of_nil|]. rewrite fmap_cons. cbn [foldl]. rewrite IH.
  destruct (decide (h ∈ l)); [by rewrite decide_True by by right|]. destruct (decide (k = h)) as [->|Hne].
  - by rewrite decide_True by left.
  - rewrite decide_False; [done|]. intros [->|?]%elem_of_cons; done.
Qed.

Lemma last_write_metadata (mds : list VspcProjectionMetadata) h :
  last_write h (color_writes mds) = foldl (λ o md, write_color h (md_blue_merge_set md) (md_red_merge_set md) o) None mds.
Proof.
  unfold last_write, color_writes. generalize (None : option BlockColor). induction mds as [|md mds IH]; intros o; [done|].
  rewrite bind_cons, !foldl_app, !last_write_const. cbn [foldl]. by rewrite IH.
Qed.

Section moved.
Context (genesis : BlockHash) (t t' : Tables) (change : ReadyVspcChange) (outcome : VspcCommitOutcome) (u : VspcCommitted) (v : GraphView).
Hypothesis Hi : store_inv genesis t.
Hypothesis Hmoved : moved genesis change t t' outcome.
Hypothesis Hu : publishes t change outcome u.
Hypothesis Hbelow : merge_sets_below t.
Hypothesis Hshows : view_shows genesis t v.

Let Hi' : store_inv genesis t' := mv_inv _ _ _ _ _ Hmoved.
Let Hr : restyled t t' := mv_restyled _ _ _ _ _ Hmoved.
Let Hg := vs_graph _ _ _ Hshows.

Lemma member_of (ids : list CompactId) hs id h : Forall2 (λ i h, tb_identifiers t !! compact_id i = Some h) ids hs →
  tb_identifiers t !! id = Some h → MkCompactId id ∈ ids ↔ h ∈ hs.
Proof.
  intros HF Hid. induction HF as [|i x ids hs Hx _ IH]; [by rewrite !elem_of_nil|]. rewrite !elem_of_cons, IH.
  assert (MkCompactId id = i ↔ h = x); [|tauto]. split; [intros <-; simpl in Hx; congruence|intros ->].
  destruct i as [j]. simpl in Hx. f_equal. by eapply (st_hashes _ _ Hi).
Qed.

Lemma member_of_ids (ids : list Z) hs id h : Forall2 (λ i h, tb_identifiers t !! i = Some h) ids hs →
  tb_identifiers t !! id = Some h → MkCompactId id ∈ MkCompactId <$> ids ↔ h ∈ hs.
Proof. intros HF Hid. apply member_of; [|done]. by rewrite Forall2_fmap_l. Qed.

(** The colors the view gives are those the tables give: the added blocks it
    does not hold are below it, and their merge sets with them. *)
Lemma same_colors id b h gb : tb_blocks t !! id = Some b → block_shown genesis t id b gb → hash gb = h → blocks v !! h = Some gb →
  last_write h (color_writes (head_metadata u v)) = colors_at t (rc_added change) !! MkCompactId id.
Proof.
  intros Hb Hsh Hh Hgb. rewrite last_write_metadata. unfold head_metadata, colors_at. pose proof (pu_added _ _ _ _ Hu) as HF.
  assert (tb_identifiers t !! id = Some h) as Hid by (rewrite <- Hh; exact (sh_hash _ _ _ _ _ Hsh)).
  assert (∀ i, i ∈ rc_added change → is_Some (tb_blocks t !! compact_id i)) as Hm.
  { intros i Hin. apply (mv_members _ _ _ _ _ Hmoved), elem_of_app. by right. }
  assert ((None : option BlockColor) = (∅ : gmap CompactId BlockColor) !! MkCompactId id) as E0 by by rewrite lookup_empty.
  revert E0. generalize (None : option BlockColor) (∅ : gmap CompactId BlockColor). unfold omap.
  induction HF as [|i x added hs Hx _ IH]; intros o m E0; [done|]. simpl.
  destruct (Hm i) as [bi Hbi]; [left|]. unfold sets_at at 2. rewrite Hbi. simpl. destruct (blocks v !! x) as [gi|] eqn:Egi; simpl.
  - apply IH; [intros j Hj; apply Hm; by right|]. rewrite color_members_lookup, E0. destruct (gt_blocks _ _ _ _ _ _ Hg _ _ Egi) as (i' & b' & Hb' & Hsh' & Hh' & _).
    assert (i' = compact_id i) as -> by (apply (st_hashes _ _ Hi _ _ x); [|done]; rewrite <- Hh'; exact (sh_hash _ _ _ _ _ Hsh')).
    assert (b' = bi) as -> by congruence. unfold write_color. simpl.
    pose proof (member_of_ids _ _ id h (sh_red _ _ _ _ _ Hsh') Hid) as R1. pose proof (member_of_ids _ _ id h (sh_blue _ _ _ _ _ Hsh') Hid) as R2.
    rewrite (decide_ext _ _ _ _ R1), (decide_ext _ _ _ _ R2). done.
  - apply IH; [intros j Hj; apply Hm; by right|]. rewrite color_members_lookup. unfold write_color. simpl.
    assert (∀ j, j ∈ sb_blue_merge_set bi ++ sb_red_merge_set bi → j ≠ id) as Hne.
    { intros j Hj ->. pose proof (Hbelow _ _ _ _ Hbi Hj Hb) as Hlt.
      assert (¬ contains_level (extent v) (Z.to_N (sb_level bi))) as Hout.
      { intros Hc. destruct (gt_all _ _ _ _ _ _ Hg _ _ _ Hbi Hx Hc) as [? ?]. congruence. }
      destruct (vs_head _ _ _ Hshows) as [_ Hmax]. pose proof (max_level_spec t) as Hs. rewrite Hmax in Hs. destruct Hs as [_ Hs]. specialize (Hs _ _ Hbi).
      destruct (gt_blocks _ _ _ _ _ _ Hg _ _ Hgb) as (id2 & b2 & Hb2 & Hsh2 & _ & [Hlow _]).
      assert (id2 = id) as -> by (eapply (st_hashes _ _ Hi); [exact (sh_hash _ _ _ _ _ Hsh2)|by rewrite Hh]). assert (b2 = b) as -> by congruence.
      rewrite (shown_block_level genesis t _ _ _ Hsh2) in Hlow. apply Hout. unfold contains_level.
      pose proof (block_level_positive genesis t Hi _ _ Hb). lia. }
    rewrite !decide_False; [done|..]; intros (j & [= <-] & Hj)%list_elem_of_fmap; eapply (Hne id); try done; apply elem_of_app; auto.
Qed.

Lemma color_after_move (colors : gmap CompactId BlockColor) id b : sb_color (moved_block change colors id b) =
  match colors !! MkCompactId id with
  | Some x => color_to_sql x
  | None => if decide (MkCompactId id ∈ rc_removed change) then color_to_sql Gray else sb_color b
  end.
Proof. unfold moved_block, recolored. destruct (colors !! MkCompactId id); repeat case_decide; by destruct b. Qed.

Lemma membership_after_move (colors : gmap CompactId BlockColor) id b : sb_is_in_vspc (moved_block change colors id b) =
  if decide (MkCompactId id ∈ rc_added change) then true else if decide (MkCompactId id ∈ rc_removed change) then false else sb_is_in_vspc b.
Proof. unfold moved_block, recolored. destruct (colors !! MkCompactId id); repeat case_decide; by destruct b. Qed.

Lemma moved_shown id b h gb : tb_blocks t !! id = Some b → block_shown genesis t id b gb → hash gb = h → blocks v !! h = Some gb →
  block_shown genesis t' id (moved_block change (colors_at t (rc_added change)) id b) (vspc_block u (head_metadata u v) h gb).
Proof.
  intros Hb Hsh Hh Hgb. pose proof (same_colors _ _ _ _ Hb Hsh Hh Hgb) as Ec. pose proof (re_ids _ _ Hr) as Eids. pose proof (re_parents _ _ Hr) as Epar.
  set (colors := colors_at t (rc_added change)) in *. set (b' := moved_block change colors id b).
  destruct (unstyled_eq _ _ (unstyled_moved change colors id b)) as (E1 & E2 & E3 & E4 & E5 & E6 & E7). fold b' in E1, E2, E3, E4, E5, E6, E7.
  pose proof (color_after_move colors id b) as Ecol. pose proof (membership_after_move colors id b) as Emem. fold b' in Ecol, Emem. clearbody b'.
  assert (tb_identifiers t !! id = Some h) as Hid by (rewrite <- Hh; exact (sh_hash _ _ _ _ _ Hsh)).
  pose proof (member_of _ _ id h (pu_removed _ _ _ _ Hu) Hid) as R1. pose proof (member_of _ _ id h (pu_added _ _ _ _ Hu) Hid) as R2.
  destruct Hsh as [S1 S2 S3 S4 S5 S6 S7 S8 S9 S10]. split; cbn [vspc_block set_color set_is_in_vspc hash coordinate timestamp block_daa_score
    selected_parent_index direct_parents blue_merge_set red_merge_set color is_in_vspc]; rewrite ?Eids, ?Epar, ?E5, ?E6, ?E7; try done.
  - rewrite S2. unfold stored_coordinate. by rewrite E3, E4.
  - by rewrite E1.
  - by rewrite E2.
  - rewrite Ecol, <- Ec. unfold vspc_color. destruct (last_write h _) as [x|]; simpl; [done|]. repeat case_decide; done || tauto.
  - rewrite Emem. unfold vspc_membership. repeat case_decide; done || tauto.
Qed.

(** Levels without members keep their score; the others are reported. *)
Lemma moved_levels l : shown_level t' l = (λ x, vspc_level (vc_level_snapshots u) l x) <$> shown_level t l.
Proof.
  pose proof (mv_outcome _ _ _ _ _ Hmoved) as Ho. rewrite (pu_levels _ _ _ _ Hu), Ho. cbn [outcome_level_snapshots].
  assert (∀ ls, last_snapshot l (omap (snapshot_at t') ls) = if decide (l ∈ ls) then lc_daa_score <$> snapshot_at t' l else None) as Hls.
  { unfold last_snapshot. assert (∀ ls (o : option (option N)), foldl (λ o s, if decide (lc_level s = l) then Some (lc_daa_score s) else o) o
      (omap (snapshot_at t') ls) = if decide (l ∈ ls ∧ is_Some (snapshot_at t' l)) then lc_daa_score <$> snapshot_at t' l else o) as H.
    { unfold omap. induction ls as [|k ls IH]; intros o; [rewrite decide_False; [done|by intros [?%elem_of_nil _]]|]. simpl.
      destruct (snapshot_at t' k) as [s|] eqn:Es; simpl; rewrite IH.
      - assert (lc_level s = k) as Ek.
        { unfold snapshot_at in Es. destruct (tb_levels t' !! Z.of_N k); [|done]. simpl in Es. by injection Es as <-. }
        rewrite Ek. destruct (decide (k = l)) as [->|Hne]; [rewrite Es; repeat case_decide; try done; set_solver|].
        apply decide_ext. rewrite elem_of_cons. naive_solver.
      - apply decide_ext. rewrite elem_of_cons. split; [tauto|]. intros [[->|?] [? ?]]; [congruence|done]. }
    intros ls. rewrite H. destruct (snapshot_at t' l) as [x|]; repeat case_decide; try done; try tauto. destruct H0. split; [done|by eexists]. }
  unfold vspc_level. rewrite Hls. unfold shown_level, snapshot_at. pose proof (re_levels _ _ Hr (Z.of_N l)) as Hsz.
  destruct (tb_levels t' !! Z.of_N l) as [r'|] eqn:E'; destruct (tb_levels t !! Z.of_N l) as [r|] eqn:E; try done; simpl in *.
  injection Hsz as Hsz. f_equal. rewrite Hsz. f_equal. destruct (decide (l ∈ btree_levels (member_levels t change))) as [Hd|Hd]; [done|].
  destruct (st_levels _ _ Hi' _ _ E') as (_ & _ & Hc' & _), (st_levels _ _ Hi _ _ E) as (_ & _ & Hc & _). simpl.
  assert (ls_daa_score r' = ls_daa_score r) as ->; [|done].
  assert (∀ id b, tb_blocks t !! id = Some b → sb_level b = Z.of_N l →
    sb_is_in_vspc (moved_block change (colors_at t (rc_added change)) id b) = sb_is_in_vspc b) as Hkeep.
  { intros id b Hb Hl. rewrite membership_after_move. rewrite !decide_False; [done|..]; intros Hin; apply Hd, elem_of_btree_levels, elem_of_member_levels;
      exists (MkCompactId id), b; (split; [apply elem_of_app; auto|split; [done|lia]]). }
  assert (current_score (Z.of_N l) t' = Ok (ls_daa_score r)) as Hsame; [|congruence].
  revert Hc. apply current_score_ext.
  - intros id b' Hb' [Hl Hv']. rewrite (mv_blocks _ _ _ _ _ Hmoved) in Hb'. apply fmap_Some in Hb' as (b & Hb & ->).
    destruct (unstyled_eq _ _ (unstyled_moved change (colors_at t (rc_added change)) id b)) as (_ & E2 & E3 & _). exists b.
    rewrite E3 in Hl. rewrite Hkeep in Hv' by done. done.
  - intros id b Hb [Hl Hv']. destruct (unstyled_eq _ _ (unstyled_moved change (colors_at t (rc_added change)) id b)) as (_ & E2 & E3 & _).
    eexists. split; [rewrite (mv_blocks _ _ _ _ _ Hmoved), Hb; done|]. unfold current_at. by rewrite E2, E3, Hkeep by done.
Qed.

Lemma moved_head l : tables_head t l → tables_head t' l.
Proof.
  intros [Hl Hm]. split; [done|]. pose proof (max_level_spec t) as Hs. rewrite Hm in Hs. destruct Hs as [(id & b & Hb & El) Hs].
  destruct (restyled_block' _ _ _ _ Hr Hb) as (b' & Hb' & E%unstyled_eq). pose proof (max_level_spec t') as Hs'.
  destruct (max_level t') as [x|]; [|by rewrite Hs', lookup_empty in Hb']. destruct Hs' as [(id2 & b2 & Hb2 & <-) Hs'].
  destruct (restyled_block _ _ _ _ Hr Hb2) as (b3 & Hb3 & E3%unstyled_eq). destruct E as (_ & _ & E & _), E3 as (_ & _ & E3 & _).
  specialize (Hs _ _ Hb3). specialize (Hs' _ _ Hb'). f_equal. lia.
Qed.

Lemma moved_graph : graph_tracks genesis t' (extent v) (ct_blocks (vspc_content u (head_metadata u v) v)) (edges v)
  (ct_levels (vspc_content u (head_metadata u v) v)).
Proof.
  assert (∀ h, ct_blocks (vspc_content u (head_metadata u v) v) !! h = vspc_block u (head_metadata u v) h <$> blocks v !! h) as Hb.
  { intros h. simpl. rewrite map_lookup_imap. by destruct (blocks v !! h). }
  assert (∀ l, ct_levels (vspc_content u (head_metadata u v) v) !! l = (λ x, vspc_level (vc_level_snapshots u) l x) <$> (value <$> levels v) !! l) as Hl.
  { intros l. simpl. rewrite map_lookup_imap, lookup_fmap. by destruct (levels v !! l). }
  split.
  - intros h gb'. rewrite Hb. intros (gb & Hgb & ->)%fmap_Some. destruct (gt_blocks _ _ _ _ _ _ Hg _ _ Hgb) as (id & b & E & Hsh & Hh & Hlev).
    exists id, (moved_block change (colors_at t (rc_added change)) id b).
    split; [by rewrite (mv_blocks _ _ _ _ _ Hmoved), E|]. by split; [apply moved_shown|].
  - intros id b' h Hb'. rewrite (re_ids _ _ Hr). intros Hid Hlev. destruct (restyled_block _ _ _ _ Hr Hb') as (b & E & (_ & _ & El & _)%unstyled_eq).
    rewrite El in Hlev. destruct (gt_all _ _ _ _ _ _ Hg _ _ _ E Hid Hlev) as [gb Hgb]. rewrite Hb, Hgb. by eexists.
  - intros eid e. rewrite (re_parents _ _ Hr), (re_ids _ _ Hr). apply (gt_edges _ _ _ _ _ _ Hg).
  - intros l x'. rewrite Hl, moved_levels. split.
    + intros (x & Hx & ->)%fmap_Some. apply (gt_levels _ _ _ _ _ _ Hg) in Hx as [H1 ->]. done.
    + intros [H1 (x & Hx & ->)%fmap_Some]. apply fmap_Some. exists x. split; [|done]. by apply (gt_levels _ _ _ _ _ _ Hg).
Qed.

(** The Head view after a committed transition shows the tables after it. *)
Lemma committed_move_shown ts : N.of_nat (size (edges v)) ≤ U64_MAX → current_revision_id v < U64_MAX →
  ∃ v' r, apply_head_vspc_committed u ts v = Some (v', Ok r) ∧ view_shows genesis t' v' ∧ max_depth v' = max_depth v ∧
    current_revision_id v' ≤ current_revision_id v + 1.
Proof.
  intros Hsize Hrev. pose proof (vs_inv _ _ _ Hshows) as Hv. pose proof moved_graph as Hgr.
  destruct (head_vspc_committed u ts v Hv Hsize Hrev) as [[-> Ec]|(v' & d & -> & Hv' & Ec & Ex & Er & _ & _ & _ & Hap & _ & Ha)].
  - exists v, None. split; [done|]. split; [|split; [done|lia]]. rewrite Ec in Hgr. split; [done|apply moved_head, Hshows|exact Hgr].
  - exists v', (Some d). split; [done|]. rewrite <- Ec in Hgr. split; [|split; [|lia]].
    + split; [done|rewrite Ex; apply moved_head, Hshows|]. rewrite Ex. assert (edges v' = edges v) as -> by exact (f_equal ct_edges Ec). exact Hgr.
    + by apply (apply_delta_refines_run d v v' (hv_indexed _ Hv) Hap Ha).
Qed.
End moved.

(** ** The seed *)

Lemma from_seed_content seed k : seed_ok seed → from_seed seed = Some k →
  extent (cc_view k) = seed_extent seed ∧ max_depth (cc_view k) = seed_max_depth seed ∧
  content (cc_view k) = MkContent (seed_levels seed) (seed_blocks seed) (seed_edges seed).
Proof.
  intros [Hd Hx Kb Ke _ _ Hl Hs] E. destruct (head_extent_valid _ _ _ Hx) as (Hn & Hhigh & Hdep).
  unfold from_seed in E. simpl in Hn. rewrite Hn in E.
  destruct (from_database_projection_spec (seed_max_depth seed) (seed_extent seed) Head (seed_levels seed) (seed_blocks seed) (seed_edges seed))
    as (v & Hv & _ & Hc & Hm & Hxe & _); try done; [auto|..].
  { intros id e Ee. apply Hl. right. intros Hz. by eapply (proj1 (edge_usage_zero _ _) Hz). }
  fold (seed_extent seed) in E. rewrite Hv in E. injection E as <-. done.
Qed.

Lemma seed_view_shows genesis t seed k : store_inv genesis t → loads genesis t HeadPublication (SeedLoaded seed) →
  N.of_nat (size (tb_parents t)) ≤ U64_MAX → from_seed seed = Some k → view_shows genesis t (cc_view k) ∧ current_revision_id (cc_view k) = 0 ∧
  max_depth (cc_view k) = MAX_CACHE_DEPTH.
Proof.
  intros Hi Hl Hsize E. pose proof (head_seed_ok genesis t Hi seed Hl Hsize) as Hok. destruct (from_seed_ok seed Hok) as (k' & E' & Hv & Hz & _).
  rewrite E in E'. injection E' as <-. destruct (from_seed_content seed k Hok E) as (Ex & Ed & Ec).
  destruct Hl as (head & scope & id & Hh & (_ & H2 & _ & H4 & H5) & _ & (Er & Edep & Hg & _)).
  assert (seed_extent seed = window (ps_resolution scope)) as Ew by (unfold seed_extent, window; by rewrite Er).
  split; [|split; [done|congruence]]. split; [done| |].
  - rewrite Ex, Ew. simpl. rewrite H5 in H2. by assert (effective_end_level (ps_resolution scope) = head) as -> by lia.
  - rewrite Ex, Ew. unfold content in Ec. injection Ec as -> -> ->. exact Hg.
Qed.

(** Two Head views of the same tables and depth differ at most in the order of
    the parents of a block. *)
Definition same_block gb1 gb2 : Prop :=
  direct_parents gb1 ≡ₚ direct_parents gb2 ∧ hash gb1 = hash gb2 ∧ coordinate gb1 = coordinate gb2 ∧ timestamp gb1 = timestamp gb2 ∧
  block_daa_score gb1 = block_daa_score gb2 ∧ blue_merge_set gb1 = blue_merge_set gb2 ∧ red_merge_set gb1 = red_merge_set gb2 ∧
  color gb1 = color gb2 ∧ is_in_vspc gb1 = is_in_vspc gb2 ∧
  match selected_parent_index gb1, selected_parent_index gb2 with
  | Some i, Some j => direct_parents gb1 !! N.to_nat i = direct_parents gb2 !! N.to_nat j
  | None, None => True
  | _, _ => False
  end.

Definition same_view v1 v2 : Prop :=
  extent v1 = extent v2 ∧ edges v1 = edges v2 ∧ value <$> levels v1 = value <$> levels v2 ∧
  ∀ h, option_relation same_block (λ _, False) (λ _, False) (blocks v1 !! h) (blocks v2 !! h).

Lemma Forall2_identifiers t l hs1 hs2 : Forall2 (λ (i : Z) h, tb_identifiers t !! i = Some h) l hs1 →
  Forall2 (λ i h, tb_identifiers t !! i = Some h) l hs2 → hs1 = hs2.
Proof. intros H1. revert hs2. induction H1 as [|i h l hs Hh _ IH]; intros hs2 H2; inversion H2; subst; [done|]. f_equal; [congruence|by apply IH]. Qed.

Lemma block_shown_same genesis t id b gb1 gb2 : block_shown genesis t id b gb1 → block_shown genesis t id b gb2 → same_block gb1 gb2.
Proof.
  intros [S1 S2 S3 S4 S5 S6 [S7 S7'] S8 S9 S10] [T1 T2 T3 T4 T5 T6 [T7 T7'] T8 T9 T10].
  assert (hash gb1 = hash gb2) as Eh by congruence. split.
  { apply NoDup_Permutation; [done|done|]. intros h. by rewrite S7', T7'. }
  split; [done|]. split; [congruence|]. split; [congruence|]. split; [congruence|]. split; [by eapply Forall2_identifiers|].
  split; [by eapply Forall2_identifiers|]. split; [by destruct (color gb1), (color gb2); simpl in *; congruence|]. split; [congruence|].
  rewrite <- Eh in T8. case_decide; [by rewrite S8, T8|]. destruct S8 as (i & h & -> & -> & E1), T8 as (j & h' & -> & -> & E2). congruence.
Qed.

Lemma view_shows_same genesis t v1 v2 : store_inv genesis t → view_shows genesis t v1 → view_shows genesis t v2 → max_depth v1 = max_depth v2 →
  same_view v1 v2.
Proof.
  intros Hi [I1 [_ H1] G1] [I2 [_ H2] G2] Hd. assert (high_level (extent v1) = high_level (extent v2)) as Eh by (rewrite H1 in H2; injection H2; lia).
  assert (extent v1 = extent v2) as Ex.
  { pose proof (hv_extent _ I1) as E1. pose proof (hv_extent _ I2) as E2. rewrite Eh, Hd in E1. congruence. }
  rewrite Ex in G1. assert (edges v1 = edges v2) as Ee.
  { apply map_eq. intros eid. apply option_eq. intros e. by rewrite (gt_edges _ _ _ _ _ _ G1), (gt_edges _ _ _ _ _ _ G2). }
  split; [done|]. split; [done|]. split.
  - apply map_eq. intros l. apply option_eq. intros x. by rewrite (gt_levels _ _ _ _ _ _ G1), (gt_levels _ _ _ _ _ _ G2), Ee.
  - intros h. assert (∀ (va vb : GraphView) gb, graph_tracks genesis t (extent v2) (blocks va) (edges va) (value <$> levels va) →
      graph_tracks genesis t (extent v2) (blocks vb) (edges vb) (value <$> levels vb) → blocks va !! h = Some gb →
      ∃ gb', blocks vb !! h = Some gb' ∧ same_block gb gb') as Hone.
    { intros va vb gb Ga Gb Hgb. destruct (gt_blocks _ _ _ _ _ _ Ga _ _ Hgb) as (id & b & Hb & Hsh & Hh & Hl). subst h.
      pose proof (sh_hash _ _ _ _ _ Hsh) as Hid. rewrite (shown_block_level genesis t _ _ _ Hsh) in Hl.
      destruct (gt_all _ _ _ _ _ _ Gb _ _ _ Hb Hid Hl) as [gb' Hgb']. exists gb'. split; [done|].
      destruct (gt_blocks _ _ _ _ _ _ Gb _ _ Hgb') as (id' & b' & Hb' & Hsh' & Hh' & _).
      assert (id' = id) as -> by (eapply (st_hashes _ _ Hi); [exact (sh_hash _ _ _ _ _ Hsh')|by rewrite Hh']).
      assert (b' = b) as -> by congruence. by eapply block_shown_same. }
    destruct (blocks v1 !! h) as [gb1|] eqn:E1.
    + destruct (Hone v1 v2 gb1 G1 G2 E1) as (gb2 & -> & Hs). exact Hs.
    + destruct (blocks v2 !! h) as [gb2|] eqn:E2; [|done]. destruct (Hone v2 v1 gb2 G2 G1 E2) as (gb1 & ? & _). congruence.
Qed.

(** ** The published stream *)

(** What one committed update does to a Head view. *)
Definition apply_original (u : OriginalUpdate) (ts : N) v : option GraphView :=
  '(v', r) ← match u with OriginalBlock c => apply_head_block_committed c ts v | OriginalVspc u => apply_head_vspc_committed u ts v end;
  match r with Ok _ => Some v' | Err _ => None end.

(** The client went from [k] to the last client by mutations that committed
    [us] in order, and by operations that changed no row. *)
Inductive served (k : ValidatedDbClient) : list OriginalUpdate → ValidatedDbClient → Prop :=
  | served_start : served k [] k
  | served_block us fates block policy p k1 k2 c :
    served k us k1 → acceptable (cl_genesis_hash k1) block → PreparedBlock_new block = Some p → fates_allowed fates →
    cl_valid k1 = true → materialize_block (Ok ()) fates block policy k1 = (k2, Some (Ok (Inserted c))) →
    vnb_timestamp block ≤ U64_MAX → N.of_nat (length (vnb_direct_parents block)) ≤ U32_MAX →
    N.of_nat (size (tb_parents (cl_tables k1)) + length (vnb_direct_parents block)) ≤ U64_MAX →
    served k (us ++ [OriginalBlock c]) k2
  | served_vspc us fates change outcome k1 k2 u :
    served k us k1 → rc_added change ≠ [] → change_contract (cl_tables k1) change → fates_allowed fates →
    cl_valid k1 = true → apply_vspc_change (Ok ()) fates change k1 = (k2, Some (Ok outcome)) →
    publishes (cl_tables k1) change outcome u → merge_sets_below (cl_tables k1) → N.of_nat (size (tb_parents (cl_tables k1))) ≤ U64_MAX →
    served k (us ++ [OriginalVspc u]) k2
  | served_idle us event k1 :
    served k us k1 → event_allowed event k1 → rolled_from (cl_tables k1) (cl_tables (run_event event k1)) →
    served k us (run_event event k1).

Lemma view_shows_rolled genesis t t' v : rolled_from t t' → view_shows genesis t v → view_shows genesis t' v.
Proof.
  intros (sq & _ & ->) [H1 [H2 H3] [G1 G2 G3 G4]]. split; [done|done|]. split; [|done..].
  intros h gb Hgb. destruct (G1 _ _ Hgb) as (id & b & Hb & [] & Hh & Hl). exists id, b. done.
Qed.

Lemma served_shows genesis k us k' v ts : client_inv k → cl_genesis_hash k = genesis → served k us k' → view_shows genesis (cl_tables k) v →
  current_revision_id v + N.of_nat (length us) ≤ U64_MAX →
  client_inv k' ∧ cl_genesis_hash k' = genesis ∧
  ∃ v', fold_m (λ v u, apply_original u ts v) v us = Some v' ∧ view_shows genesis (cl_tables k') v' ∧ max_depth v' = max_depth v ∧
    current_revision_id v' ≤ current_revision_id v + N.of_nat (length us).
Proof.
  intros Hk Hg Hs Hv. induction Hs as [|us fates block policy p k1 k2 c _ IH Ha Hp Hf Hval Em Ht Hw Hsz|
    us fates change outcome k1 k2 u _ IH Hne Hct Hf Hval Em Hu Hb Hsz|us event k1 _ IH Hal Hroll]; rewrite ?length_app; intros Hrev.
  - split; [done|]. split; [done|]. exists v. split; [done|]. split; [done|]. split; [done|lia].
  - destruct IH as (Hk1 & Hg1 & v1 & E1 & Hs1 & Hd1 & Hr1); [simpl in *; lia|]. simpl in Hrev.
    pose proof (materialize_block_spec k1 fates block policy p Hk1 Hval Ha Hp Hf) as H. rewrite Em in H. destruct H as (Hk2 & Hg2 & _ & Hin & _).
    rewrite Hg1 in Hin, Ha. split; [done|]. split; [congruence|].
    pose proof (ci_store _ Hk1) as Hi1. rewrite Hg1 in Hi1. pose proof (edges_counted genesis _ _ _ _ _ (vs_graph _ _ _ Hs1)) as Hec.
    destruct (committed_block_shown genesis _ _ block c v1 Hi1 Hin Ha (conj Ht Hw) Hs1 ts) as (v2 & r & E2 & Hs2 & Hd2 & Hr2); [lia|lia|].
    exists v2. rewrite fold_m_app, E1. run_bind. cbn [fold_m]. unfold apply_original. rewrite E2. run_bind. split; [done|]. split; [done|].
    split; [congruence|simpl; lia].
  - destruct IH as (Hk1 & Hg1 & v1 & E1 & Hs1 & Hd1 & Hr1); [simpl in *; lia|]. simpl in Hrev.
    pose proof (apply_vspc_change_spec k1 fates change Hk1 Hval Hne Hct Hf) as H. rewrite Em in H. destruct H as (Hk2 & Hg2 & Hmv & _).
    rewrite Hg1 in Hmv. split; [done|]. split; [congruence|].
    pose proof (ci_store _ Hk1) as Hi1. rewrite Hg1 in Hi1. pose proof (edges_counted genesis _ _ _ _ _ (vs_graph _ _ _ Hs1)) as Hec.
    destruct (committed_move_shown genesis _ _ change outcome u v1 Hi1 Hmv Hu Hb Hs1 ts) as (v2 & r & E2 & Hs2 & Hd2 & Hr2); [lia|lia|].
    exists v2. rewrite fold_m_app, E1. run_bind. cbn [fold_m]. unfold apply_original. rewrite E2. run_bind. split; [done|]. split; [done|].
    split; [congruence|simpl; lia].
  - destruct IH as (Hk1 & Hg1 & v1 & E1 & Hs1 & Hd1 & Hr1); [lia|]. destruct (run_event_inv event k1 Hk1 Hal) as [Hk2 Hg2].
    split; [done|]. split; [congruence|]. exists v1. split; [done|]. split; [by eapply view_shows_rolled|]. done.
Qed.
End shown.
