(* ===== verification/OrphanWorker.v ===== *)
(** The orphan manager of
    [crates/kgi-processing/src/block_processor/orphan.rs] around its topology:
    the worker, its mailbox, the resolver it owns and its metrics.

    The worker's own awaits are the barriers of the resolver's shutdown; every
    other handler is one step.  The handle is dropped only by its own shutdown,
    after the worker has returned: the branches of a closed command path and of
    a closed mailbox are unreachable, and left out, as is the failure of the
    resolver's barrier, which always acknowledges. *)

From S2P Require Import Prelude Model Faults Channel Resolver Orphan.

#[local] Open Scope N_scope.

Record OrphanManagerMetricsSnapshot := MkOrphanMetrics {
  omm_current_occupancy : nat;
  omm_high_water_mark : nat;
  omm_resolution_pending : nat;
  omm_threshold_crossings : N
}.

Inductive OrphanManagerState := OmActive | OmFaulted.
#[global] Instance OrphanManagerState_eq_dec : EqDecision OrphanManagerState.
Proof. solve_decision. Defined.

(** What the worker does once the resolver has shut down. *)
Inductive AfterResolver := OmResume | OmExit.

Inductive OrphanControl :=
  | OmInert
  | OmRunning
  | OmStopping (after : AfterResolver)
  | OmReturned (result : Result unit ChildControlError).

Section orphan_worker.
Context {KH : KaspaHash}.

Record OrphanManagerWorker := MkOrphanManager {
  om_control : OrphanControl;
  om_shutdown : bool;
  om_messages : BoundedQueue OrphanMessage;
  om_resolver : option DependencyResolverWorker;
  om_resolver_faults : list ChildFault;
  om_metrics : OrphanManagerMetricsSnapshot;
  om_topology : OrphanTopology;
  om_state : OrphanManagerState;
  om_resolver_faults_open : bool
}.

Definition OrphanManager_new : OrphanManagerWorker :=
  MkOrphanManager OmInert false bounded_channel (Some DependencyResolver_new) [] (MkOrphanMetrics 0 0 0 0)
    OrphanTopology_default OmActive true.

Definition om_set_control (c : OrphanControl) (o : OrphanManagerWorker) : OrphanManagerWorker :=
  MkOrphanManager c (om_shutdown o) (om_messages o) (om_resolver o) (om_resolver_faults o) (om_metrics o)
    (om_topology o) (om_state o) (om_resolver_faults_open o).
Definition om_set_messages (q : BoundedQueue OrphanMessage) (o : OrphanManagerWorker) : OrphanManagerWorker :=
  MkOrphanManager (om_control o) (om_shutdown o) q (om_resolver o) (om_resolver_faults o) (om_metrics o)
    (om_topology o) (om_state o) (om_resolver_faults_open o).
Definition om_set_resolver (r : option DependencyResolverWorker) (o : OrphanManagerWorker) : OrphanManagerWorker :=
  MkOrphanManager (om_control o) (om_shutdown o) (om_messages o) r (om_resolver_faults o) (om_metrics o)
    (om_topology o) (om_state o) (om_resolver_faults_open o).
Definition om_set_resolver_faults (fs : list ChildFault) (opened : bool) (o : OrphanManagerWorker) : OrphanManagerWorker :=
  MkOrphanManager (om_control o) (om_shutdown o) (om_messages o) (om_resolver o) fs (om_metrics o)
    (om_topology o) (om_state o) opened.
Definition om_set_topology (t : OrphanTopology) (m : OrphanManagerMetricsSnapshot) (o : OrphanManagerWorker) :
    OrphanManagerWorker :=
  MkOrphanManager (om_control o) (om_shutdown o) (om_messages o) (om_resolver o) (om_resolver_faults o) m
    t (om_state o) (om_resolver_faults_open o).
Definition om_set_state (s : OrphanManagerState) (o : OrphanManagerWorker) : OrphanManagerWorker :=
  MkOrphanManager (om_control o) (om_shutdown o) (om_messages o) (om_resolver o) (om_resolver_faults o) (om_metrics o)
    (om_topology o) s (om_resolver_faults_open o).

(** [start], on the handle. *)
Definition orphan_start (o : OrphanManagerWorker) : OrphanManagerWorker :=
  om_set_control OmRunning (om_set_resolver (resolver_start <$> om_resolver o) o).

(** [add_orphan] and [block_persisted], on the handle. *)
Definition orphan_send (message : OrphanMessage) (o : OrphanManagerWorker) :
    OrphanManagerWorker * Result unit TrySendError :=
  let '(q, sent) := bq_try_send PROCESSING_DATA_CHANNEL_CAPACITY message (om_messages o) in (om_set_messages q o, sent).

(** The Shutdown command, sent by [shutdown] on the handle of a started worker. *)
Definition orphan_request_shutdown (o : OrphanManagerWorker) : OrphanManagerWorker :=
  MkOrphanManager (om_control o) true (om_messages o) (om_resolver o) (om_resolver_faults o) (om_metrics o)
    (om_topology o) (om_state o) (om_resolver_faults_open o).

(** ** Metrics *)

Definition orphan_metrics_update (t : OrphanTopology) (threshold_crossed : bool) (m : OrphanManagerMetricsSnapshot) :
    option OrphanManagerMetricsSnapshot :=
  let occupancy := size (orphans t) in
  crossings ← if threshold_crossed then checked_add (omm_threshold_crossings m) 1 else Some (omm_threshold_crossings m);
  Some (MkOrphanMetrics occupancy (omm_high_water_mark m `max` occupancy) (size (resolution_pending t)) crossings).

Definition reset_current (m : OrphanManagerMetricsSnapshot) : OrphanManagerMetricsSnapshot :=
  MkOrphanMetrics 0 (omm_high_water_mark m) 0 (omm_threshold_crossings m).

Definition update_metrics (threshold_crossed : bool) (o : OrphanManagerWorker) : option OrphanManagerWorker :=
  m ← orphan_metrics_update (om_topology o) threshold_crossed (om_metrics o);
  Some (om_set_topology (om_topology o) m o).

(** ** Faults *)

(** [enter_fault], up to the resolver's barrier. *)
Definition om_enter_fault (fault : ChildFault) (o : OrphanManagerWorker) (ports : Ports) :
    OrphanManagerWorker * Ports :=
  match om_state o with
  | OmFaulted => (o, ports)
  | OmActive =>
    let o := om_set_state OmFaulted o in
    let ports := MkPorts (pt_resolution ports) (pt_faults ports ++ [fault]) in
    match om_resolver o with
    | Some r => (om_set_control (OmStopping OmResume) (om_set_resolver (Some (resolver_request_shutdown r)) o), ports)
    | None => (o, ports)
    end
  end.

Definition enter_own_fault (kind : ChildFaultKind) (o : OrphanManagerWorker) (ports : Ports) :
    OrphanManagerWorker * Ports :=
  om_enter_fault (MkChildFault OrphanManager kind) o ports.

(** ** Messages *)

(** [request_resolution] and [cancel_resolution]; the flag: whether to go on. *)
Definition send_work (work : ResolverWork) (o : OrphanManagerWorker) (ports : Ports) :
    OrphanManagerWorker * Ports * bool :=
  match om_resolver o with
  | None => (o, ports, false)
  | Some r =>
    let '(r, sent) := resolver_send work r in
    let o := om_set_resolver (Some r) o in
    match sent with
    | Ok _ => (o, ports, true)
    | Err QueueFull => (enter_own_fault (SessionDataFull ResolverWorkPath) o ports, false)
    | Err QueueClosed => (enter_own_fault (Child_SessionDataEndpointLost ResolverWorkPath) o ports, false)
    end
  end.

Definition send_ready (block : ValidatedNodeBlock) (o : OrphanManagerWorker) (ports : Ports) :
    OrphanManagerWorker * Ports * bool :=
  let '(q, sent) := bq_try_send PROCESSING_DATA_CHANNEL_CAPACITY (OrphanReady block) (pt_resolution ports) in
  let ports := MkPorts q (pt_faults ports) in
  match sent with
  | Ok _ => (o, ports, true)
  | Err QueueFull => (enter_own_fault (SessionDataFull ResolutionPath) o ports, false)
  | Err QueueClosed => (enter_own_fault (Child_SessionDataEndpointLost ResolutionPath) o ports, false)
  end.

(** A [for] loop whose body may return from the function. *)
Fixpoint for_each {A} (body : A → OrphanManagerWorker → Ports → OrphanManagerWorker * Ports * bool) (xs : list A)
    (o : OrphanManagerWorker) (ports : Ports) : OrphanManagerWorker * Ports * bool :=
  match xs with
  | [] => (o, ports, true)
  | x :: xs =>
    match body x o ports with
    | (o, ports, true) => for_each body xs o ports
    | stopped => stopped
    end
  end.

(** The three loops of [handle_message], after the topology changed. *)
Definition act_on_mutation (mutation : TopologyMutation) (o : OrphanManagerWorker) (ports : Ports) :
    option (OrphanManagerWorker * Ports) :=
  o ← update_metrics (tm_threshold_crossed mutation) o;
  match for_each (λ h, send_work (CancelWork h)) (tm_cancel mutation) o ports with
  | (o, ports, false) => Some (o, ports)
  | (o, ports, true) =>
    match for_each send_ready (tm_ready mutation) o ports with
    | (o, ports, false) => Some (o, ports)
    | (o, ports, true) =>
      '(t, candidates) ← take_resolution_candidates (om_topology o);
      let o := om_set_topology t (om_metrics o) o in
      o ← match candidates with [] => Some o | _ => update_metrics false o end;
      Some (for_each (λ h, send_work (Resolve h)) candidates o ports).1
    end
  end.

Definition handle_message (message : OrphanMessage) (o : OrphanManagerWorker) (ports : Ports) :
    option (OrphanManagerWorker * Ports) :=
  let '(t, result) :=
    match message with
    | AddOrphan block missing => add_orphan block missing (om_topology o)
    | BlockPersisted hash => let '(t, mutation) := block_persisted hash (om_topology o) in (t, Ok mutation)
    end in
  let o := om_set_topology t (om_metrics o) o in
  match result with
  | Ok mutation => act_on_mutation mutation o ports
  | Err CapacityExhausted => Some (enter_own_fault OrphanCapacityExhausted o ports)
  | Err EmptyMissingSet => Some (enter_own_fault (InvalidProtocol EmptyMissing) o ports)
  end.

(** ** The worker *)

Definition clear_state (o : OrphanManagerWorker) : OrphanManagerWorker :=
  om_set_topology OrphanTopology_default (reset_current (om_metrics o)) o.

(** The Shutdown command, up to the resolver's barrier. *)
Definition orphan_shutdown (o : OrphanManagerWorker) : OrphanManagerWorker :=
  let o := clear_state (om_set_state OmFaulted o) in
  let o := om_set_messages (MkBoundedQueue [] (bq_open (om_messages o))) o in
  match om_resolver o with
  | Some r => om_set_control (OmStopping OmExit) (om_set_resolver (Some (resolver_request_shutdown r)) o)
  | None => om_set_control (OmReturned (Ok tt)) o
  end.

(** The end of the resolver's barrier. *)
Definition end_barrier (after : AfterResolver) (o : OrphanManagerWorker) : OrphanManagerWorker :=
  om_set_control (match after with OmResume => OmRunning | OmExit => OmReturned (Ok tt) end) (om_set_resolver None o).

(** One turn of [run], commands before resolver faults before messages. *)
Definition orphan_turn (o : OrphanManagerWorker) (ports : Ports) : option (OrphanManagerWorker * Ports) :=
  match om_control o with
  | OmRunning =>
    if om_shutdown o then Some (orphan_shutdown o, ports)
    else
      match om_resolver_faults_open o, om_resolver_faults o, om_resolver o with
      | true, fault :: faults, _ => Some (om_enter_fault fault (om_set_resolver_faults faults true o) ports)
      | true, [], None => Some (enter_own_fault (Child_Ownership UnexpectedWorkerTermination)
                                  (om_set_resolver_faults [] false o) ports)
      | _, _, _ =>
        match om_state o, bq_try_recv (om_messages o) with
        | OmActive, Some (message, q) => handle_message message (om_set_messages q o) ports
        | _, _ => Some (o, ports)
        end
      end
  | OmStopping after =>
    match om_resolver o with
    | Some r => match dr_control r with ResolverReturned => Some (end_barrier after o, ports) | _ => Some (o, ports) end
    | None => None
    end
  | _ => Some (o, ports)
  end.

Inductive OrphanEvent :=
  | OrphanTurn
  | OrphanResolver (ev : ResolverEvent).

Definition orphan_step (ev : OrphanEvent) (o : OrphanManagerWorker) (ports : Ports) :
    option (OrphanManagerWorker * Ports) :=
  match ev with
  | OrphanTurn => orphan_turn o ports
  | OrphanResolver ev =>
    match om_resolver o with
    | Some r =>
      let '(r, inner) := resolver_step ev r (MkPorts (pt_resolution ports) (om_resolver_faults o)) in
      Some (om_set_resolver_faults (pt_faults inner) (om_resolver_faults_open o) (om_set_resolver (Some r) o),
            MkPorts (pt_resolution inner) (pt_faults ports))
    | None => Some (o, ports)
    end
  end.
End orphan_worker.
