(* ===== verification/BlockWorker.v ===== *)
(** The block processor of
    [crates/kgi-processing/src/block_processor/processor.rs]: lifecycle stages,
    the seal, materialization, source overlap and the fault barrier, over the
    orphan manager it owns.

    A step runs from one await to the next.  The answers of the database
    ([block_presence], [materialize_block]) and of the graph-update ingress
    ([offer_block_committed], modelled in Ingress) enter with the step that
    receives them.  [bp_events] is everything sent on the event path. *)

From S2P Require Import Prelude Model Faults Channel Ingress Resolver Orphan OrphanWorker.

#[local] Open Scope N_scope.

Inductive BlockProcessorEvent :=
  | PpBoundarySealed
  | BpFault (fault : ComponentFault).

(** * Stages *)

Inductive SealPhase :=
  | PreSeal (seal_blue_score : N)
  | PostSeal.

Inductive BlockSource := Resolution | Notification | Synthetic.
#[global] Instance BlockSource_eq_dec : EqDecision BlockSource.
Proof. solve_decision. Defined.

(** ** Source bits *)

Definition NOTIFICATION_BIT : N := 1.
Definition SYNTHETIC_BIT : N := 2.
Definition source_bits (source : BlockSource) : N :=
  match source with Resolution => 0 | Notification => NOTIFICATION_BIT | Synthetic => SYNTHETIC_BIT end.
Definition bits_contains (bits : N) (source : BlockSource) : bool :=
  negb (source_bits source =? 0) && negb (N.land bits (source_bits source) =? 0).
Definition bits_insert (bits : N) (source : BlockSource) : N := N.lor bits (source_bits source).
Definition bits_overlaps (bits : N) : bool := bits =? N.lor SYNTHETIC_BIT NOTIFICATION_BIT.

(** * Faults *)

Definition ownership_fault (source : Component) (kind : OwnershipFault) : ComponentFault :=
  MkComponentFault source Fatal (Ownership kind).
Definition invalid_lifecycle : ComponentFault := ownership_fault BlockProcessor InvalidLifecycleControl.
Definition materiality_fault : ComponentFault := MkComponentFault BlockProcessor (Require_ Rebuild) MaterialityViolation.
Definition session_endpoint_fault (source : Component) (is_live : bool) : ComponentFault :=
  MkComponentFault source (active_or_live is_live Retry) (Ownership SessionDataEndpointLost).
Definition bounded_send_fault (source : Component) (is_live : bool) (error : TrySendError) : ComponentFault :=
  match error with
  | QueueFull => MkComponentFault source (Require_ Resync) SessionContinuityLost
  | QueueClosed => session_endpoint_fault source is_live
  end.
Definition child_control_fault (source : Component) (error : ChildControlError) : ComponentFault :=
  ownership_fault source match error with
                         | CommandPathClosed | AcknowledgementLost => InternalControlPathLost
                         | WorkerJoinFailed => UnexpectedWorkerTermination
                         end.

(** [handle_child_fault]'s mapping. *)
Definition map_child_fault (is_live : bool) (fault : ChildFault) : ComponentFault :=
  match chf_kind fault with
  | OrphanCapacityExhausted => MkComponentFault (chf_source fault) (Require_ Resync) (BoundedStateExhausted Orphans)
  | SessionDataFull _ => MkComponentFault (chf_source fault) (Require_ Resync) SessionContinuityLost
  | Child_SessionDataEndpointLost _ => session_endpoint_fault (chf_source fault) is_live
  | Child_Ownership kind => ownership_fault (chf_source fault) kind
  | InvalidProtocol _ => ownership_fault (chf_source fault) InvalidLifecycleControl
  end.

Section block_worker.
Context {KH : KaspaHash}.

Definition node_fault (error : NodeError) (is_live : bool) : ComponentFault :=
  match error with
  | GenerationLost => MkComponentFault NodeService (active_or_live is_live Retry) (ServiceGenerationLost Node)
  | Cancelled => MkComponentFault NodeService Fatal (Ownership ManagedComponentUnavailable)
  | BlockNotFound _ => MkComponentFault DependencyResolver (Require_ Rebuild) DependencyUnavailable
  | RpcRequestFailed => MkComponentFault NodeService (active_or_live is_live Retry) Fault_RpcRequestFailed
  | SubscriptionControlFailed => MkComponentFault NodeService (active_or_live is_live Retry) Fault_SubscriptionControlFailed
  | InvalidSubscriptionState => MkComponentFault NodeService Fatal (Ownership InvalidLifecycleControl)
  | RecoveryInputInvalid kind => MkComponentFault NodeService (active_or_live is_live Retry) (Fault_RecoveryInputInvalid kind)
  | ScoreOutOfRange reason => MkComponentFault NodeService Fatal (Fault_ScoreOutOfRange reason)
  | RetirementControlUnavailable => MkComponentFault NodeService Fatal (Ownership ManagedComponentUnavailable)
  end.

(** * State *)

Inductive RunStage :=
  | Synchronizing (phase : SealPhase)
  | Catchup (known_id_lower_bound : CompactId)
  | Live.

Definition stage_is_live (s : RunStage) : bool := match s with Live => true | _ => false end.
Definition accepts_notifications (s : RunStage) : bool := match s with Catchup _ | Live => true | _ => false end.
Definition permits_orphans (s : RunStage) : bool := match s with Catchup _ | Live => true | _ => false end.
Definition seal_phase (s : RunStage) : SealPhase := match s with Synchronizing phase => phase | _ => PostSeal end.
Definition pre_seal (s : RunStage) : bool := match seal_phase s with PreSeal _ => true | PostSeal => false end.

Inductive BlockProcessorRun :=
  | Inert (mode : RecoveryMode)
  | Active (stage : RunStage) (sources : gmap BlockHash N) (emit_boundary_sealed_on_start : bool).

Inductive BlockProcessorCommand :=
  | CmdCatchup (known_id_lower_bound : CompactId)
  | CmdLive
  | CmdShutdown.

(** What follows the barrier of the orphan manager's shutdown: the loop, after
    a fault; the end of the worker, after the fault of a lost command path; or
    the end of the worker, after a Shutdown. *)
Inductive AfterOrphan := AfterFault | AfterPathLoss | AfterShutdown.

(** Before [start] the handle holds the worker. *)
Inductive BlockControl :=
  | BpHeld
  | BpTop
  | BpPresence (block : ValidatedNodeBlock) (source : BlockSource)
  | BpMaterializing (block : ValidatedNodeBlock) (source : BlockSource) (sealing : bool) (policy : ReferencePolicy)
  | BpBarrier (after : AfterOrphan)
  | BpReturned (result : Result unit ComponentFault).

Record BlockProcessorWorker := MkBlockProcessor {
  bp_control : BlockControl;
  bp_commands : list BlockProcessorCommand;
  bp_commands_open : bool;
  bp_notifications : BoundedQueue ValidatedNodeBlock;
  bp_synthetic : BoundedQueue ValidatedNodeBlock;
  bp_ports : Ports;
  bp_events : list BlockProcessorEvent;
  bp_events_open : bool;
  bp_persisted : BoundedQueue PersistedBlock;
  bp_orphan : option OrphanManagerWorker;
  bp_overlap : bool;
  bp_run : BlockProcessorRun;
  bp_faulted : bool
}.

(** [BlockProcessor::new]; the resolution mailbox and the child-fault path
    are [bp_ports]. *)
Definition BlockProcessor_new (mode : RecoveryMode) : BlockProcessorWorker :=
  MkBlockProcessor BpHeld [] true bounded_channel bounded_channel (MkPorts bounded_channel []) [] true bounded_channel
    (Some OrphanManager_new) false (Inert mode) false.

Definition bp_set_control (c : BlockControl) (p : BlockProcessorWorker) : BlockProcessorWorker :=
  MkBlockProcessor c (bp_commands p) (bp_commands_open p) (bp_notifications p) (bp_synthetic p) (bp_ports p)
    (bp_events p) (bp_events_open p) (bp_persisted p) (bp_orphan p) (bp_overlap p) (bp_run p) (bp_faulted p).
Definition bp_set_commands (cs : list BlockProcessorCommand) (p : BlockProcessorWorker) : BlockProcessorWorker :=
  MkBlockProcessor (bp_control p) cs (bp_commands_open p) (bp_notifications p) (bp_synthetic p) (bp_ports p)
    (bp_events p) (bp_events_open p) (bp_persisted p) (bp_orphan p) (bp_overlap p) (bp_run p) (bp_faulted p).
Definition bp_set_inputs (n s : BoundedQueue ValidatedNodeBlock) (p : BlockProcessorWorker) : BlockProcessorWorker :=
  MkBlockProcessor (bp_control p) (bp_commands p) (bp_commands_open p) n s (bp_ports p)
    (bp_events p) (bp_events_open p) (bp_persisted p) (bp_orphan p) (bp_overlap p) (bp_run p) (bp_faulted p).
Definition bp_set_ports (ports : Ports) (p : BlockProcessorWorker) : BlockProcessorWorker :=
  MkBlockProcessor (bp_control p) (bp_commands p) (bp_commands_open p) (bp_notifications p) (bp_synthetic p) ports
    (bp_events p) (bp_events_open p) (bp_persisted p) (bp_orphan p) (bp_overlap p) (bp_run p) (bp_faulted p).
Definition bp_set_events (es : list BlockProcessorEvent) (p : BlockProcessorWorker) : BlockProcessorWorker :=
  MkBlockProcessor (bp_control p) (bp_commands p) (bp_commands_open p) (bp_notifications p) (bp_synthetic p)
    (bp_ports p) es (bp_events_open p) (bp_persisted p) (bp_orphan p) (bp_overlap p) (bp_run p) (bp_faulted p).
Definition bp_set_persisted (q : BoundedQueue PersistedBlock) (p : BlockProcessorWorker) : BlockProcessorWorker :=
  MkBlockProcessor (bp_control p) (bp_commands p) (bp_commands_open p) (bp_notifications p) (bp_synthetic p)
    (bp_ports p) (bp_events p) (bp_events_open p) q (bp_orphan p) (bp_overlap p) (bp_run p) (bp_faulted p).
Definition bp_set_orphan (o : option OrphanManagerWorker) (p : BlockProcessorWorker) : BlockProcessorWorker :=
  MkBlockProcessor (bp_control p) (bp_commands p) (bp_commands_open p) (bp_notifications p) (bp_synthetic p)
    (bp_ports p) (bp_events p) (bp_events_open p) (bp_persisted p) o (bp_overlap p) (bp_run p) (bp_faulted p).
Definition bp_set_overlap (b : bool) (p : BlockProcessorWorker) : BlockProcessorWorker :=
  MkBlockProcessor (bp_control p) (bp_commands p) (bp_commands_open p) (bp_notifications p) (bp_synthetic p)
    (bp_ports p) (bp_events p) (bp_events_open p) (bp_persisted p) (bp_orphan p) b (bp_run p) (bp_faulted p).
Definition bp_set_run (r : BlockProcessorRun) (p : BlockProcessorWorker) : BlockProcessorWorker :=
  MkBlockProcessor (bp_control p) (bp_commands p) (bp_commands_open p) (bp_notifications p) (bp_synthetic p)
    (bp_ports p) (bp_events p) (bp_events_open p) (bp_persisted p) (bp_orphan p) (bp_overlap p) r (bp_faulted p).
Definition bp_set_faulted (p : BlockProcessorWorker) : BlockProcessorWorker :=
  MkBlockProcessor (bp_control p) (bp_commands p) (bp_commands_open p) (bp_notifications p) (bp_synthetic p)
    (bp_ports p) (bp_events p) (bp_events_open p) (bp_persisted p) (bp_orphan p) (bp_overlap p) (bp_run p) true.

Definition is_live (p : BlockProcessorWorker) : bool :=
  match bp_run p with Active stage _ _ => stage_is_live stage | Inert _ => false end.

Definition is_active (p : BlockProcessorWorker) : bool :=
  match bp_run p with Active _ _ _ => true | Inert _ => false end.

(** [events.send]. *)
Definition send_event (e : BlockProcessorEvent) (p : BlockProcessorWorker) : BlockProcessorWorker * bool :=
  if bp_events_open p then (bp_set_events (bp_events p ++ [e]) p, true) else (p, false).

(** * Owner operations *)

(** What the two clients say of their network, and the initialization. *)
Record BlockGenerations (NetworkId : Type) := MkGenerations {
  rpc_network_id : NetworkId;
  db_network_id : NetworkId;
  rpc_genesis_hash : BlockHash;
  db_genesis_hash : BlockHash
}.
Arguments MkGenerations {NetworkId}.
Arguments rpc_network_id {NetworkId}.
Arguments db_network_id {NetworkId}.
Arguments rpc_genesis_hash {NetworkId}.
Arguments db_genesis_hash {NetworkId}.

Record BlockProcessorInitialization := MkInitialization {
  bi_anchor : MaterializedSyncAnchor;
  bi_boundary_seal_blue_score : N
}.

Definition initialize {NetworkId} `{EqDecision NetworkId} (g : BlockGenerations NetworkId)
    (i : BlockProcessorInitialization) (p : BlockProcessorWorker) : BlockProcessorWorker * Result unit ComponentFault :=
  match bp_run p with
  | Active _ _ _ => (p, Err invalid_lifecycle)
  | Inert mode =>
    if bp_faulted p then (p, Err invalid_lifecycle)
    else if decide (rpc_network_id g ≠ db_network_id g ∨ rpc_genesis_hash g ≠ db_genesis_hash g ∨
                    MAX_BLUE_SCORE < msa_blue_score (bi_anchor i))
    then (p, Err invalid_lifecycle)
    else if decide (mode = Resync ∧ msa_blue_score (bi_anchor i) < bi_boundary_seal_blue_score i)
    then (p, Err invalid_lifecycle)
    else
      let genesis := bool_decide (vp_hash (msa_point (bi_anchor i)) = db_genesis_hash g) in
      let rebuild := bool_decide (mode = Rebuild) in
      if rebuild && genesis &&
         (negb (msa_blue_score (bi_anchor i) =? 0) || negb (bi_boundary_seal_blue_score i =? 0))
      then (p, Err invalid_lifecycle)
      else
        let stage := if rebuild && negb genesis then Synchronizing (PreSeal (bi_boundary_seal_blue_score i))
                     else Synchronizing PostSeal in
        (bp_set_run (Active stage ∅ (rebuild && genesis)) p, Ok tt)
  end.

(** [startup]; the handle then spawns the loop whatever it answered. *)
Definition startup (p : BlockProcessorWorker) : option (BlockProcessorWorker * Result unit ComponentFault) :=
  match bp_run p with
  | Inert _ => Some (p, Err invalid_lifecycle)
  | Active _ _ emit =>
    o ← bp_orphan p;
    let p := bp_set_orphan (Some (orphan_start o)) p in
    if (emit : bool)
    then
      let '(p, sent) := send_event PpBoundarySealed p in
      if (sent : bool) then Some (p, Ok tt)
      else Some (bp_set_faulted p, Err (ownership_fault BlockProcessor InternalControlPathLost))
    else Some (p, Ok tt)
  end.
Definition start (p : BlockProcessorWorker) : option (BlockProcessorWorker * Result unit ComponentFault) :=
  '(p, r) ← startup p; Some (bp_set_control BpTop p, r).

(** * The barrier of the orphan manager's shutdown *)

Definition drain_session_data (p : BlockProcessorWorker) : BlockProcessorWorker :=
  bp_set_ports (MkPorts (MkBoundedQueue [] (bq_open (pt_resolution (bp_ports p)))) [])
    (bp_set_inputs (MkBoundedQueue [] (bq_open (bp_notifications p))) (MkBoundedQueue [] (bq_open (bp_synthetic p))) p).

(** The end of the loop: the worker, and with it every receiver, is dropped. *)
Definition returned (result : Result unit ComponentFault) (p : BlockProcessorWorker) : BlockProcessorWorker :=
  bp_set_control (BpReturned result)
    (bp_set_orphan None
      (bp_set_ports (MkPorts (MkBoundedQueue [] false) [])
        (bp_set_inputs (MkBoundedQueue [] false) (MkBoundedQueue [] false) p))).

(** After the barrier; a worker that stops once its command path is lost runs
    [shutdown_worker], whose orphan manager is gone by then. *)
Definition after_barrier (after : AfterOrphan) (result : Result unit ChildControlError) (p : BlockProcessorWorker) :
    BlockProcessorWorker :=
  let failed := match result with Ok _ => None | Err e => Some (child_control_fault OrphanManager e) end in
  match after with
  | AfterShutdown => returned (match failed with None => Ok tt | Some f => Err f end) p
  | _ =>
    let p := match failed with None => p | Some f => (send_event (BpFault f) p).1 end in
    match after with
    | AfterPathLoss => returned (Ok tt) (bp_set_overlap false (drain_session_data p))
    | _ => bp_set_control BpTop p
    end
  end.

(** [shutdown_orphan], up to its [select!]: a child never started is dropped. *)
Definition shutdown_orphan (after : AfterOrphan) (p : BlockProcessorWorker) : BlockProcessorWorker :=
  match bp_orphan p with
  | None => after_barrier after (Ok tt) p
  | Some o =>
    match om_control o with
    | OmInert => after_barrier after (Ok tt) (bp_set_orphan None p)
    | _ => bp_set_control (BpBarrier after) (bp_set_orphan (Some (orphan_request_shutdown o)) p)
    end
  end.

(** The [select!] of the barrier. *)
Inductive BarrierBranch := BarrierJoined | BarrierResolution | BarrierChildFault.

Definition barrier_turn (branch : BarrierBranch) (after : AfterOrphan) (p : BlockProcessorWorker) :
    option BlockProcessorWorker :=
  match branch with
  | BarrierJoined =>
    o ← bp_orphan p;
    Some match om_control o with OmReturned result => after_barrier after result (bp_set_orphan None p) | _ => p end
  | BarrierResolution =>
    Some match bq_try_recv (pt_resolution (bp_ports p)) with
         | Some (_, q) => bp_set_ports (MkPorts q (pt_faults (bp_ports p))) p
         | None => p
         end
  | BarrierChildFault => Some (bp_set_ports (MkPorts (pt_resolution (bp_ports p)) (tail (pt_faults (bp_ports p)))) p)
  end.

(** [enter_fault], up to the barrier; without one the loop goes on. *)
Definition enter_fault_then (after : AfterOrphan) (fault : ComponentFault) (p : BlockProcessorWorker) : BlockProcessorWorker :=
  if bp_faulted p then bp_set_control BpTop p
  else shutdown_orphan after (send_event (BpFault fault) (bp_set_faulted p)).1.
Definition enter_fault : ComponentFault → BlockProcessorWorker → BlockProcessorWorker := enter_fault_then AfterFault.

(** [shutdown_worker]. *)
Definition shutdown_worker (p : BlockProcessorWorker) : BlockProcessorWorker :=
  shutdown_orphan AfterShutdown (bp_set_overlap false (drain_session_data p)).

(** [report_command_path_loss], and the [shutdown_worker] that follows it and
    ends the worker, its result ignored. *)
Definition command_path_lost (p : BlockProcessorWorker) : BlockProcessorWorker :=
  if bp_faulted p || negb (is_active p) then shutdown_worker p
  else enter_fault_then AfterPathLoss (ownership_fault BlockProcessor InternalControlPathLost) p.

(** * Commands *)

Definition handle_command (c : BlockProcessorCommand) (p : BlockProcessorWorker) : BlockProcessorWorker :=
  match c with
  | CmdCatchup bound =>
    match bp_run p with
    | Active (Synchronizing PostSeal) _ emit => bp_set_overlap false (bp_set_run (Active (Catchup bound) ∅ emit) p)
    | _ => enter_fault invalid_lifecycle p
    end
  | CmdLive =>
    match bp_run p with
    | Active (Catchup _) sources emit => bp_set_run (Active Live sources emit) p
    | _ => enter_fault invalid_lifecycle p
    end
  | CmdShutdown => shutdown_worker p
  end.

(** * Blocks *)

(** [deliver_persisted]: both sends are attempted, the first fault counts. *)
Definition deliver_persisted (block : ValidatedNodeBlock) (id : CompactId) (p : BlockProcessorWorker) :
    option (BlockProcessorWorker * option ComponentFault) :=
  let persisted := MkPersistedBlock (MkVspcPoint (MkConsensusOrder (vnb_blue_work block) (vnb_hash block)) id)
                     (vnb_selected_parent block) in
  let '(q, sent) := bq_try_send PROCESSING_DATA_CHANNEL_CAPACITY persisted (bp_persisted p) in
  let p := bp_set_persisted q p in
  let first_fault := match sent with Ok _ => None | Err e => Some (bounded_send_fault BlockProcessor (is_live p) e) end in
  o ← bp_orphan p;
  let '(o, sent) := orphan_send (BlockPersisted (vnb_hash block)) o in
  let p := bp_set_orphan (Some o) p in
  Some (p, match sent, first_fault with
           | Err e, None => Some (bounded_send_fault BlockProcessor (is_live p) e)
           | _, _ => first_fault
           end).

Definition record_source (hash : BlockHash) (source : BlockSource) (p : BlockProcessorWorker) : BlockProcessorWorker :=
  match bp_run p, source with
  | Active (Catchup bound) sources emit, (Notification | Synthetic) =>
    let bits := bits_insert (default 0 (sources !! hash)) source in
    let p := bp_set_run (Active (Catchup bound) (<[hash := bits]> sources) emit) p in
    if bits_overlaps bits then bp_set_overlap true p else p
  | _, _ => p
  end.

(** The end of [handle_block]. *)
Definition finish_block (block : ValidatedNodeBlock) (source : BlockSource) (fault : option ComponentFault)
    (p : BlockProcessorWorker) : BlockProcessorWorker :=
  match fault with
  | None => bp_set_control BpTop (record_source (vnb_hash block) source p)
  | Some f => enter_fault f p
  end.

(** [handle_block], up to the presence query. *)
Definition handle_block (block : ValidatedNodeBlock) (source : BlockSource) (p : BlockProcessorWorker) :
    BlockProcessorWorker :=
  match bp_run p with
  | Inert _ => p
  | Active stage _ _ =>
    if bool_decide (source = Notification) && negb (accepts_notifications stage) then p
    else bp_set_control (BpPresence block source) p
  end.

(** [materialize], up to the database's operation. *)
Definition materialize_begin (block : ValidatedNodeBlock) (source : BlockSource) (p : BlockProcessorWorker) :
    option BlockProcessorWorker :=
  match bp_run p with
  | Inert _ => None
  | Active stage _ _ =>
    let sealing := match stage with
                   | Synchronizing (PreSeal seal_blue_score) => bool_decide (seal_blue_score ≤ vnb_blue_score block)
                   | _ => false
                   end in
    let policy := if pre_seal stage && negb sealing then AllowBoundaryIdentities else RequireMaterialized in
    Some (bp_set_control (BpMaterializing block source sealing policy) p)
  end.

Definition known_id (presence : BlockPresence) : option CompactId :=
  match presence with Absent => None | BoundaryIdentity id | Materialized id _ => Some id end.

(** The filter on notifications, after the presence query. *)
Definition filtered (block : ValidatedNodeBlock) (source : BlockSource) (presence : BlockPresence) (stage : RunStage)
    (sources : gmap BlockHash N) : bool :=
  bool_decide (source = Notification) &&
  (match stage, known_id presence with
   | Catchup bound, Some id => bool_decide (compact_id id < compact_id bound)%Z
   | _, _ => false
   end || bits_contains (default 0 (sources !! vnb_hash block)) source).

(** [handle_block], from the presence query on. *)
Definition answer_presence (block : ValidatedNodeBlock) (source : BlockSource)
    (answer : Result BlockPresence ProcessingDbError) (p : BlockProcessorWorker) : option BlockProcessorWorker :=
  match answer with
  | Err e => Some (enter_fault (storage_fault e (is_live p)) p)
  | Ok presence =>
    match bp_run p with
    | Inert _ => None
    | Active stage sources _ =>
      if filtered block source presence stage sources then Some (bp_set_control BpTop p)
      else
        match presence with
        | BoundaryIdentity _ => Some (finish_block block source (Some materiality_fault) p)
        | Materialized id _ => '(p, fault) ← deliver_persisted block id p; Some (finish_block block source fault p)
        | Absent => materialize_begin block source p
        end
    end
  end.

(** The answers the materialization waits for: the database's, and for an
    inserted block the ingress's. *)
Record MaterializeAnswer := MkMaterializeAnswer {
  ma_outcome : Result MaterializeBlockOutcome MaterializeBlockError;
  ma_offer : Result GraphUpdateOfferOutcome GraphUpdateProducerError
}.

Definition suppressed (offer : Result GraphUpdateOfferOutcome GraphUpdateProducerError) : bool :=
  match offer with Ok SuppressedAwaitingCatchup | Err ReceiverClosed => true | _ => false end.

(** [materialize], from the database's answer on: the fault, if any. *)
Definition materialize_end (block : ValidatedNodeBlock) (sealing : bool) (a : MaterializeAnswer)
    (p : BlockProcessorWorker) : option (BlockProcessorWorker * option ComponentFault) :=
  match bp_run p with
  | Inert _ => None
  | Active stage sources emit =>
    match ma_outcome a with
    | Ok (AlreadyMaterialized id _) => deliver_persisted block id p
    | Ok (Inserted committed) =>
      if pre_seal stage && negb (suppressed (ma_offer a))
      then Some (p, Some invalid_lifecycle)
      else
        '(p, delivery_fault) ← deliver_persisted block (bc_id committed) p;
        if (sealing : bool)
        then
          let '(p, sent) := send_event PpBoundarySealed (bp_set_run (Active (Synchronizing PostSeal) sources emit) p) in
          Some (p, if (sent : bool) then delivery_fault
                   else Some (ownership_fault BlockProcessor InternalControlPathLost))
        else Some (p, delivery_fault)
    | Err (IncomingBoundaryIdentity _) => Some (p, Some materiality_fault)
    | Err (NonMaterializedReferences missing (_ :: _)) => Some (p, Some materiality_fault)
    | Err (NonMaterializedReferences missing []) =>
      if permits_orphans stage
      then
        o ← bp_orphan p;
        let '(o, sent) := orphan_send (AddOrphan block missing) o in
        let p := bp_set_orphan (Some o) p in
        Some (p, match sent with Ok _ => None | Err e => Some (bounded_send_fault BlockProcessor (is_live p) e) end)
      else Some (p, Some (MkComponentFault BlockProcessor (Require_ Resync) ReconciliationFailed))
    | Err (Materialize_Database e) => Some (p, Some (storage_fault e (is_live p)))
    end
  end.
Definition answer_materialize (block : ValidatedNodeBlock) (source : BlockSource) (sealing : bool)
    (a : MaterializeAnswer) (p : BlockProcessorWorker) : option BlockProcessorWorker :=
  '(p, fault) ← materialize_end block sealing a p;
  Some (finish_block block source fault p).

Definition handle_resolution (e : BlockResolutionEvent) (p : BlockProcessorWorker) : BlockProcessorWorker :=
  match e with
  | OrphanReady block => handle_block block Resolution p
  | DependencyResolved requested_hash (Ok block) =>
    if decide (vnb_hash block ≠ requested_hash)
    then enter_fault (ownership_fault DependencyResolver InvalidLifecycleControl) p
    else handle_block block Resolution p
  | DependencyResolved _ (Err error) => enter_fault (node_fault error (is_live p)) p
  end.

Definition handle_child_fault (fault : ChildFault) (p : BlockProcessorWorker) : BlockProcessorWorker :=
  enter_fault (map_child_fault (is_live p) fault) p.

(** * The loop *)

(** Every sender of the resolution mailbox and of the child-fault path is gone
    once the orphan manager is. *)
Definition children_gone (p : BlockProcessorWorker) : bool :=
  match bp_orphan p with
  | None => true
  | Some o => match om_control o with OmReturned _ => true | _ => false end
  end.

(** A turn of a faulted or inert worker: it discards one value, or completes on
    a closed path; the flag tells whether the [select!] completed. *)
Definition discard_turn (p : BlockProcessorWorker) : BlockProcessorWorker * bool :=
  match bq_try_recv (bp_notifications p), bq_try_recv (bp_synthetic p), bq_try_recv (pt_resolution (bp_ports p)) with
  | Some (_, n), _, _ => (bp_set_inputs n (bp_synthetic p) p, true)
  | None, Some (_, s), _ => (bp_set_inputs (bp_notifications p) s p, true)
  | None, None, Some (_, q) => (bp_set_ports (MkPorts q (pt_faults (bp_ports p))) p, true)
  | None, None, None =>
    if children_gone p then (p, true)
    else match pt_faults (bp_ports p) with
         | _ :: faults => (bp_set_ports (MkPorts (pt_resolution (bp_ports p)) faults) p, true)
         | [] => (p, false)
         end
  end.

(** A turn of an active worker: child faults, then resolutions, then
    notifications, then synthetic blocks; the flag tells whether it took one. *)
Definition active_turn (p : BlockProcessorWorker) : BlockProcessorWorker * bool :=
  match pt_faults (bp_ports p) with
  | fault :: faults => (handle_child_fault fault (bp_set_ports (MkPorts (pt_resolution (bp_ports p)) faults) p), true)
  | [] =>
    match bq_try_recv (pt_resolution (bp_ports p)) with
    | Some (e, q) => (handle_resolution e (bp_set_ports (MkPorts q []) p), true)
    | None =>
      match bq_try_recv (bp_notifications p) with
      | Some (block, n) => (handle_block block Notification (bp_set_inputs n (bp_synthetic p) p), true)
      | None =>
        match bq_try_recv (bp_synthetic p) with
        | Some (block, s) => (handle_block block Synthetic (bp_set_inputs (bp_notifications p) s p), true)
        | None => (p, false)
        end
      end
    end
  end.

Definition block_turn (p : BlockProcessorWorker) : BlockProcessorWorker * bool :=
  match bp_commands p with
  | c :: cs => (handle_command c (bp_set_commands cs p), true)
  | [] =>
    if negb (bp_commands_open p) && (bp_faulted p || negb (is_active p))
    then (command_path_lost p, true)
    else if bp_faulted p || negb (is_active p) then discard_turn p
    else
      let '(p', completed) := active_turn p in
      if completed then (p', true)
      else if negb (bp_commands_open p) then (command_path_lost p, true)
      else if children_gone p then (enter_fault (ownership_fault OrphanManager UnexpectedWorkerTermination) p, true)
      else (p, false)
  end.

Inductive BlockEvent :=
  | EvInitialize {NetworkId} {_ : EqDecision NetworkId} (g : BlockGenerations NetworkId) (i : BlockProcessorInitialization)
  | EvStart
  | EvNotify (block : ValidatedNodeBlock)
  | EvSynthetic (block : ValidatedNodeBlock)
  | EvCommand (c : BlockProcessorCommand)
  | EvDropHandle
  | EvDropEvents
  | EvTakePersisted
  | EvDropPersisted
  | EvTurn
  | EvPresence (answer : Result BlockPresence ProcessingDbError)
  | EvMaterialize (answer : MaterializeAnswer)
  | EvBarrier (branch : BarrierBranch)
  | EvOrphan (ev : OrphanEvent).

Definition set_commands_closed (p : BlockProcessorWorker) : BlockProcessorWorker :=
  MkBlockProcessor (bp_control p) (bp_commands p) false (bp_notifications p) (bp_synthetic p) (bp_ports p)
    (bp_events p) (bp_events_open p) (bp_persisted p) (bp_orphan p) (bp_overlap p) (bp_run p) (bp_faulted p).
Definition set_events_closed (p : BlockProcessorWorker) : BlockProcessorWorker :=
  MkBlockProcessor (bp_control p) (bp_commands p) (bp_commands_open p) (bp_notifications p) (bp_synthetic p) (bp_ports p)
    (bp_events p) false (bp_persisted p) (bp_orphan p) (bp_overlap p) (bp_run p) (bp_faulted p).

(** One step of the processor and its children; [None] is a panic, an event
    that is not enabled changes nothing. *)
Definition block_step (ev : BlockEvent) (p : BlockProcessorWorker) : option BlockProcessorWorker :=
  match ev, bp_control p with
  | @EvInitialize _ _ g i, BpHeld => Some (initialize g i p).1
  | EvStart, BpHeld => '(p, _) ← start p; Some p
  | EvNotify block, _ =>
    Some (bp_set_inputs (bq_try_send PROCESSING_DATA_CHANNEL_CAPACITY block (bp_notifications p)).1 (bp_synthetic p) p)
  | EvSynthetic block, _ =>
    Some (bp_set_inputs (bp_notifications p) (bq_try_send PROCESSING_DATA_CHANNEL_CAPACITY block (bp_synthetic p)).1 p)
  | EvCommand CmdShutdown, BpHeld => Some (returned (Ok tt) p)
  | EvCommand c, _ => Some (if bp_commands_open p then bp_set_commands (bp_commands p ++ [c]) p else p)
  | EvDropHandle, _ => Some (set_commands_closed p)
  | EvDropEvents, _ => Some (set_events_closed p)
  | EvTakePersisted, _ => Some match bq_try_recv (bp_persisted p) with Some (_, q) => bp_set_persisted q p | None => p end
  | EvDropPersisted, _ => Some (bp_set_persisted (MkBoundedQueue [] false) p)
  | EvTurn, BpTop => Some (block_turn p).1
  | EvPresence answer, BpPresence block source => answer_presence block source answer p
  | EvMaterialize a, BpMaterializing block source sealing _ => answer_materialize block source sealing a p
  | EvBarrier branch, BpBarrier after => barrier_turn branch after p
  | EvOrphan ev, _ =>
    match bp_orphan p with
    | Some o =>
      '(o, ports) ← orphan_step ev o (bp_ports p);
      Some (bp_set_ports ports (bp_set_orphan (Some o) p))
    | None => Some p
    end
  | _, _ => Some p
  end.
End block_worker.
