(* ===== verification/OrphanWorkerSafety.v ===== *)
(** The dependency resolver and the orphan manager.  The resolver's two maps are
    inverse and track exactly the tasks of the [JoinSet], and its counters and
    permits match the tasks.  The manager's topology changes as each operation
    says, released blocks go to the resolution mailbox in order, and the worker
    either goes on without a fault or has reported exactly one and stops its
    resolver. *)

From S2P Require Import Prelude Model Faults Channel Resolver Orphan OrphanWorker.

#[local] Open Scope N_scope.

Section resolver_safety.
Context {KH : KaspaHash}.
Implicit Types (r : DependencyResolverWorker) (ts : gmap N ResolverTask) (f : ResolverTask → bool).

(** * Counting tasks *)

Definition count f ts : nat := length (filter (λ t, f t = true) (map_to_list ts).*2).

Lemma count_cons f id t ts : ts !! id = None → count f (<[id := t]> ts) = ((if f t then 1 else 0) + count f ts)%nat.
Proof.
  intros Hn. unfold count. rewrite (map_to_list_insert ts id t Hn). simpl. destruct (f t) eqn:E.
  - by rewrite filter_cons_True.
  - by rewrite filter_cons_False by (by rewrite E).
Qed.

Lemma count_delete f id t ts : ts !! id = Some t → count f ts = ((if f t then 1 else 0) + count f (delete id ts))%nat.
Proof.
  intros Ht. rewrite <-(insert_delete_id ts id t Ht) at 1. apply count_cons. apply lookup_delete_eq.
Qed.

Lemma count_insert f id t t' ts :
  ts !! id = Some t → ((if f t then 1 else 0) + count f (<[id := t']> ts) = (if f t' then 1 else 0) + count f ts)%nat.
Proof.
  intros Ht. rewrite (count_delete f id t ts Ht), <-insert_delete_eq, count_cons by apply lookup_delete_eq. lia.
Qed.

Lemma count_alter f (g : ResolverTask → ResolverTask) id ts :
  (∀ t, f (g t) = f t) → count f (alter g id ts) = count f ts.
Proof.
  intros Hg. destruct (ts !! id) as [t|] eqn:E.
  - assert (alter g id ts = <[id := g t]> ts) as ->.
    { apply map_eq. intros j. destruct (decide (j = id)) as [->|Hj];
        [by rewrite lookup_alter_eq, lookup_insert_eq, E|by rewrite lookup_alter_ne, lookup_insert_ne]. }
    pose proof (count_insert f id t (g t) ts E) as Hc. rewrite Hg in Hc. lia.
  - f_equal. apply map_eq. intros j. destruct (decide (j = id)) as [->|Hj];
      [by rewrite lookup_alter_eq, E|by rewrite lookup_alter_ne].
Qed.

Lemma count_fmap f (g : ResolverTask → ResolverTask) ts : (∀ t, f (g t) = f t) → count f (g <$> ts) = count f ts.
Proof.
  intros Hg. unfold count. rewrite map_to_list_fmap. generalize (map_to_list ts). intros l.
  induction l as [|[k t] l IH]; [done|]. rewrite !fmap_cons, !filter_cons. simpl. rewrite Hg.
  by case_decide; simpl; rewrite IH.
Qed.

Lemma count_empty f : count f ∅ = 0%nat.
Proof. unfold count. by rewrite map_to_list_empty. Qed.

(** * Counters *)

Lemma fetch_incr_spec (n : nat) : fetch_incr (N.of_nat n mod 2 ^ 64) = N.of_nat (S n) mod 2 ^ 64.
Proof. unfold fetch_incr. rewrite N.Div0.add_mod_idemp_l. f_equal. lia. Qed.

Lemma fetch_decr_spec (n : nat) : fetch_decr (N.of_nat (S n) mod 2 ^ 64) = N.of_nat n mod 2 ^ 64.
Proof.
  unfold fetch_decr, U64_MAX. rewrite N.Div0.add_mod_idemp_l.
  replace (N.of_nat (S n) + (2 ^ 64 - 1)) with (N.of_nat n + 1 * 2 ^ 64) by lia. apply N.Div0.mod_add.
Qed.

(** * The invariant *)

Record resolver_inv r : Prop := {
  ri_inverse : ∀ h id, dr_tasks_by_hash r !! h = Some id ↔ dr_hashes_by_task r !! id = Some h;
  ri_tracked : ∀ id, is_Some (dr_tasks r !! id) ↔ is_Some (dr_hashes_by_task r !! id);
  ri_fresh : ∀ id, is_Some (dr_tasks r !! id) → id < dr_next_task r;
  ri_cancelled : ∀ id, id ∈ dr_cancelled_tasks r → ∃ t, dr_tasks r !! id = Some t ∧ tk_aborted t = true;
  ri_permits : (active_tasks r ≤ MAX_DEPENDENCY_RPC_CONCURRENCY)%nat;
  ri_active : dr_active r = N.of_nat (active_tasks r);
  ri_waiting : dr_waiting r = N.of_nat (count awaiting_permit (dr_tasks r)) mod 2 ^ 64
}.

Lemma active_tasks_count r : active_tasks r = count in_flight (dr_tasks r).
Proof. done. Qed.

(** The counters and permits agree with the tasks. *)
Definition counters_ok r : Prop :=
  (count in_flight (dr_tasks r) ≤ MAX_DEPENDENCY_RPC_CONCURRENCY)%nat ∧
  dr_active r = N.of_nat (count in_flight (dr_tasks r)) ∧
  dr_waiting r = N.of_nat (count awaiting_permit (dr_tasks r)) mod 2 ^ 64.

Lemma resolver_inv_counters r : resolver_inv r → counters_ok r.
Proof. intros []. done. Qed.

Lemma small_mod (n : nat) : (n ≤ MAX_DEPENDENCY_RPC_CONCURRENCY)%nat → N.of_nat n mod 2 ^ 64 = N.of_nat n.
Proof. unfold MAX_DEPENDENCY_RPC_CONCURRENCY. intros Hn. apply N.mod_small. lia. Qed.

Lemma DependencyResolver_new_inv : resolver_inv DependencyResolver_new.
Proof.
  split; unfold active_tasks, DependencyResolver_new; simpl.
  - intros h id. by rewrite !lookup_empty.
  - intros id. by rewrite !lookup_empty.
  - intros id [? E]. by rewrite lookup_empty in E.
  - intros id. set_solver.
  - rewrite map_to_list_empty. simpl. lia.
  - by rewrite map_to_list_empty.
  - by rewrite count_empty.
Qed.

(** The fields the invariant does not read. *)
Lemma resolver_inv_frame r r' :
  dr_tasks r' = dr_tasks r → dr_tasks_by_hash r' = dr_tasks_by_hash r → dr_hashes_by_task r' = dr_hashes_by_task r →
  dr_cancelled_tasks r' = dr_cancelled_tasks r → dr_next_task r' = dr_next_task r → dr_active r' = dr_active r →
  dr_waiting r' = dr_waiting r → resolver_inv r → resolver_inv r'.
Proof.
  intros E1 E2 E3 E4 E5 E6 E7 []. split; unfold active_tasks in *; rewrite ?E1, ?E2, ?E3, ?E4, ?E5, ?E6, ?E7; done.
Qed.

Lemma abort_all_inv r : resolver_inv r → resolver_inv (abort_all r).
Proof.
  intros []. split; unfold active_tasks in *; simpl; try done.
  - intros id. by rewrite lookup_fmap, fmap_is_Some.
  - intros id. rewrite lookup_fmap, fmap_is_Some. auto.
  - intros id (t & Ht & Ha)%ri_cancelled0. exists (abort_task t). by rewrite lookup_fmap, Ht.
  - change (count in_flight (abort_task <$> dr_tasks r) ≤ MAX_DEPENDENCY_RPC_CONCURRENCY)%nat. by rewrite count_fmap.
  - rewrite ri_active0. change (N.of_nat (count in_flight (dr_tasks r)) = N.of_nat (count in_flight (abort_task <$> dr_tasks r))).
    by rewrite count_fmap.
  - by rewrite count_fmap.
Qed.

Lemma resolver_fault_inv kind r ports : resolver_inv r → resolver_inv (resolver_fault kind r ports).1.
Proof. intros Hr. apply abort_all_inv. by apply (resolver_inv_frame r). Qed.

(** ** Tasks *)

(** What replacing the task [id] does to the invariant, up to the counters. *)
Lemma replace_task_inv id t t' r active waiting :
  resolver_inv r → dr_tasks r !! id = Some t → (tk_aborted t = true → tk_aborted t' = true) →
  counters_ok (dr_set_counters active waiting (dr_set_tasks (<[id := t']> (dr_tasks r)) r)) →
  resolver_inv (dr_set_counters active waiting (dr_set_tasks (<[id := t']> (dr_tasks r)) r)).
Proof.
  intros [] Ht Ha (C1 & C2 & C3). split; try done; simpl.
  - intros j. rewrite <-ri_tracked0. destruct (decide (j = id)) as [->|Hj];
      [rewrite lookup_insert_eq, Ht; by split|by rewrite lookup_insert_ne].
  - intros j Hj. apply ri_fresh0. destruct (decide (j = id)) as [->|]; [by eexists|by rewrite lookup_insert_ne in Hj].
  - intros j (u & Hu & Hb)%ri_cancelled0. destruct (decide (j = id)) as [->|Hj].
    + exists t'. rewrite lookup_insert_eq. split; [done|]. apply Ha. congruence.
    + exists u. by rewrite lookup_insert_ne.
Qed.

(** How the counts change with the task [id]. *)
Lemma counts_insert id t t' r :
  dr_tasks r !! id = Some t →
  (Nat.b2n (in_flight t) + count in_flight (<[id := t']> (dr_tasks r)) =
   Nat.b2n (in_flight t') + count in_flight (dr_tasks r))%nat ∧
  (Nat.b2n (awaiting_permit t) + count awaiting_permit (<[id := t']> (dr_tasks r)) =
   Nat.b2n (awaiting_permit t') + count awaiting_permit (dr_tasks r))%nat.
Proof.
  intros Ht. pose proof (count_insert in_flight id t t' _ Ht) as Hf.
  pose proof (count_insert awaiting_permit id t t' _ Ht) as Hw.
  destruct (in_flight t), (in_flight t'), (awaiting_permit t), (awaiting_permit t'); simpl in *; lia.
Qed.

Lemma end_task_inv id phase t r :
  resolver_inv r → dr_tasks r !! id = Some t → ended (MkResolverTask phase false) = true →
  resolver_inv (end_task id phase t r).
Proof.
  intros Hr Ht He. pose proof (resolver_inv_counters _ Hr) as (C1 & C2 & C3).
  destruct (counts_insert id t (MkResolverTask phase (tk_aborted t)) r Ht) as [Hf Hw].
  assert (in_flight (MkResolverTask phase (tk_aborted t)) = false) as Hi by (by destruct phase).
  assert (awaiting_permit (MkResolverTask phase (tk_aborted t)) = false) as Hj by (by destruct phase).
  rewrite Hi in Hf. rewrite Hj in Hw. unfold end_task. set (ts := <[id := _]> (dr_tasks r)) in *.
  assert (∀ active waiting,
    counters_ok (dr_set_counters active waiting (dr_set_tasks ts r)) →
    resolver_inv (dr_set_counters active waiting (dr_set_tasks ts r))) as Hk.
  { intros. by apply (replace_task_inv id t). }
  assert (counters_ok (dr_set_counters (dr_active r) (dr_waiting r) (dr_set_tasks ts r)) →
    resolver_inv (dr_set_tasks ts r)) as Hk' by (intros Hc%Hk; revert Hc; by apply resolver_inv_frame).
  destruct t as [[] aborted]; simpl in *; first [apply Hk|apply Hk']; unfold counters_ok; simpl.
  - rewrite Hf, C3, <-Hw, fetch_decr_spec. done.
  - rewrite C2, Hw, <-Hf, <-(small_mod (S _)) by lia. rewrite fetch_decr_spec, small_mod by lia. split_and!; [lia|done..].
  - by rewrite Hf, Hw.
  - by rewrite Hf, Hw.
  - by rewrite Hf, Hw.
Qed.

Lemma task_step_inv id ev r : resolver_inv r → resolver_inv (task_step id ev r).
Proof.
  intros Hr. unfold task_step. destruct (dr_tasks r !! id) as [t|] eqn:Ht; [|done].
  destruct ev; destruct (tk_phase t) eqn:Ep; try done; try (by apply end_task_inv);
    try (destruct (tk_aborted t); [by apply end_task_inv|done]).
  case_decide as Hlt; [|done]. rewrite active_tasks_count in Hlt. pose proof (resolver_inv_counters _ Hr) as (C1 & C2 & C3).
  destruct (counts_insert id t (MkResolverTask TaskActive (tk_aborted t)) r Ht) as [Hf Hw].
  apply (replace_task_inv id t); try done. unfold counters_ok. destruct t as [[] aborted]; simplify_eq/=.
  rewrite Hf, C3, <-Hw, fetch_decr_spec, C2, <-(small_mod (count _ (dr_tasks r))), fetch_incr_spec, small_mod by lia.
  split_and!; [lia|done..].
Qed.

(** ** The worker *)

Lemma handle_work_inv work r ports : resolver_inv r → resolver_inv (handle_work work r ports).1.
Proof.
  intros Hr. pose proof Hr as []. destruct work as [h|h]; simpl.
  - unfold start_resolution. destruct (dr_tasks_by_hash r !! h) as [id|] eqn:Eh; [by apply resolver_fault_inv|].
    set (id := dr_next_task r). assert (dr_tasks r !! id = None) as Hn.
    { destruct (dr_tasks r !! id) eqn:E; [|done]. pose proof (ri_fresh0 id (mk_is_Some _ _ E)). lia. }
    assert (dr_hashes_by_task r !! id = None) as Hn'.
    { apply eq_None_not_Some. rewrite <-ri_tracked0, Hn. by intros [? ?]. }
    split; unfold active_tasks; simpl.
    + intros h' j. destruct (decide (h' = h)) as [->|Hh], (decide (j = id)) as [->|Hj].
      * by rewrite !lookup_insert_eq.
      * rewrite lookup_insert_eq, lookup_insert_ne by done. rewrite <-ri_inverse0, Eh. split; [congruence|done].
      * rewrite lookup_insert_ne, lookup_insert_eq by done. rewrite ri_inverse0, Hn'. split; [done|congruence].
      * rewrite !lookup_insert_ne by done. done.
    + intros j. destruct (decide (j = id)) as [->|Hj]; [rewrite !lookup_insert_eq; by split|by rewrite !lookup_insert_ne].
    + intros j. destruct (decide (j = id)) as [->|Hj]; [lia|rewrite lookup_insert_ne by done]. intros Hx%ri_fresh0. lia.
    + intros j (t & Ht & Ha)%ri_cancelled0. exists t. rewrite lookup_insert_ne; [done|congruence].
    + change (count in_flight (<[id:=MkResolverTask TaskWaiting false]> (dr_tasks r)) ≤ MAX_DEPENDENCY_RPC_CONCURRENCY)%nat.
      by rewrite count_cons.
    + change (dr_active r = N.of_nat (count in_flight (<[id:=MkResolverTask TaskWaiting false]> (dr_tasks r)))).
      by rewrite count_cons.
    + by rewrite count_cons, ri_waiting0, fetch_incr_spec.
  - destruct (dr_tasks_by_hash r !! h) as [id|] eqn:Eh; [|done].
    apply ri_inverse0 in Eh. destruct (proj2 (ri_tracked0 id) (mk_is_Some _ _ Eh)) as [t Ht].
    split; unfold active_tasks; simpl; try done.
    + intros j. by rewrite <-ri_tracked0, lookup_alter_is_Some.
    + intros j. rewrite lookup_alter_is_Some. auto.
    + intros j [->%elem_of_singleton|(u & Hu & Hb)%ri_cancelled0]%elem_of_union.
      * exists (abort_task t). by rewrite lookup_alter_eq, Ht.
      * destruct (decide (j = id)) as [->|Hj].
        -- exists (abort_task t). by rewrite lookup_alter_eq, Ht.
        -- exists u. by rewrite lookup_alter_ne.
    + change (count in_flight (alter abort_task id (dr_tasks r)) ≤ MAX_DEPENDENCY_RPC_CONCURRENCY)%nat. by rewrite count_alter.
    + change (dr_active r = N.of_nat (count in_flight (alter abort_task id (dr_tasks r)))). by rewrite count_alter.
    + by rewrite count_alter.
Qed.

Lemma join_inv id h t r :
  resolver_inv r → dr_tasks r !! id = Some t → ended t = true → dr_hashes_by_task r !! id = Some h →
  resolver_inv (forget_task id h (uncancel id (dr_set_tasks (delete id (dr_tasks r)) r))).
Proof.
  intros [] Ht He Hh. pose proof (count_delete in_flight id t _ Ht) as Hf. pose proof (count_delete awaiting_permit id t _ Ht) as Hw.
  assert (in_flight t = false ∧ awaiting_permit t = false) as [E1 E2] by (by destruct t as [[] ?]).
  rewrite E1 in Hf. rewrite E2 in Hw. simpl in *. split; unfold active_tasks in *; simpl.
  - intros h' j. destruct (decide (h' = h)) as [->|Hn], (decide (j = id)) as [->|Hj].
    + by rewrite !lookup_delete_eq.
    + rewrite lookup_delete_eq, lookup_delete_ne by done. split; [done|]. intros E%ri_inverse0.
      apply ri_inverse0 in Hh. congruence.
    + rewrite lookup_delete_eq, lookup_delete_ne by done. rewrite ri_inverse0, Hh. split; [congruence|done].
    + by rewrite !lookup_delete_ne.
  - intros j. destruct (decide (j = id)) as [->|Hj]; [by rewrite !lookup_delete_eq, <-!not_eq_None_Some|by rewrite !lookup_delete_ne].
  - intros j [x [_ Hx]%lookup_delete_Some]. eauto.
  - intros j [(u & Hu & Hb)%ri_cancelled0 Hj]%elem_of_difference. exists u. rewrite lookup_delete_ne; [done|set_solver].
  - change (count in_flight (delete id (dr_tasks r)) ≤ MAX_DEPENDENCY_RPC_CONCURRENCY)%nat. by rewrite <-Hf.
  - change (dr_active r = N.of_nat (count in_flight (delete id (dr_tasks r)))). by rewrite <-Hf.
  - by rewrite <-Hw.
Qed.

Lemma handle_task_result_inv id t r ports :
  resolver_inv r → dr_tasks r !! id = Some t → ended t = true →
  resolver_inv (handle_task_result id (tk_phase t) (dr_set_tasks (delete id (dr_tasks r)) r) ports).1.
Proof.
  intros Hr Ht He. destruct (proj1 (ri_tracked _ Hr id) (mk_is_Some _ _ Ht)) as [h Hh].
  unfold handle_task_result. simpl. rewrite Hh. pose proof (join_inv id h t r Hr Ht He Hh) as Hj.
  assert (∀ k ps, resolver_inv (resolver_fault k (forget_task id h (uncancel id (dr_set_tasks (delete id (dr_tasks r)) r))) ps).1)
    as Hk by (intros; by apply resolver_fault_inv).
  case_bool_decide; [done|]. destruct (tk_phase t); try done.
  destruct (dr_faulted r); [done|]. destruct (bq_try_send _ _ _) as [q [|[]]]; simpl; [done|apply (Hk (SessionDataFull ResolutionPath) ports)..].
Qed.

(** [abort_and_join] leaves no task, and both counters at zero. *)
Lemma drop_guards_spec (l : list (N * ResolverTask)) r :
  dr_active r = N.of_nat (length (filter (λ t, in_flight t = true) l.*2)) →
  (length (filter (λ t, in_flight t = true) l.*2) ≤ MAX_DEPENDENCY_RPC_CONCURRENCY)%nat →
  dr_waiting r = N.of_nat (length (filter (λ t, awaiting_permit t = true) l.*2)) mod 2 ^ 64 →
  let r' := foldl (λ r kt, drop_guard (tk_phase kt.2) r) r l in dr_active r' = 0 ∧ dr_waiting r' = 0.
Proof.
  revert r. induction l as [|[id [ph ab]] l IH]; intros r Ha Hle Hw; simpl; [done|].
  rewrite !fmap_cons, !filter_cons in *. destruct ph; simpl in *; try (by apply IH).
  - apply IH; simpl; [done|done|]. by rewrite Hw, fetch_decr_spec.
  - apply IH; simpl; [|lia|done]. rewrite Ha, <-(small_mod (S _)) by done. rewrite fetch_decr_spec, small_mod by lia. done.
Qed.

Lemma abort_and_join_inv r : resolver_inv r → resolver_inv (abort_and_join r).
Proof.
  intros []. unfold abort_and_join. destruct (drop_guards_spec (map_to_list (dr_tasks r)) r) as [Ha Hw]; try done.
  split; unfold active_tasks; simpl; rewrite ?Ha, ?Hw, ?map_to_list_empty, ?count_empty; try done; try lia.
  - intros id. by rewrite !lookup_empty, <-!not_eq_None_Some.
  - intros id [? E]. by rewrite lookup_empty in E.
  - simpl. lia.
Qed.

Lemma resolver_step_inv ev r ports : resolver_inv r → resolver_inv (resolver_step ev r ports).1.
Proof.
  intros Hr. destruct ev as [joined|id ev]; simpl; [|by apply task_step_inv].
  unfold resolver_turn. destruct (dr_control r); try done. destruct (dr_shutdown r).
  { unfold resolver_shutdown. apply (resolver_inv_frame (abort_and_join r)); try done. by apply abort_and_join_inv. }
  destruct (if dr_faulted r || negb (dr_work_open r) then None else bq_try_recv (dr_work r)) as [[work q]|].
  { apply handle_work_inv. by apply (resolver_inv_frame r). }
  destruct (dr_tasks r !! joined) as [t|] eqn:Ht; [|done]. destruct (ended t) eqn:He; [|done].
  by apply handle_task_result_inv.
Qed.

(** * What a step does outside *)

Lemma bq_try_send_spec {A} capacity (x : A) (q q' : BoundedQueue A) sent :
  bq_try_send capacity x q = (q', sent) →
  match sent with
  | Ok _ => bq_items q' = bq_items q ++ [x] ∧ bq_open q = true ∧ bq_open q' = true
  | Err _ => q' = q
  end.
Proof. unfold bq_try_send. destruct (bq_open q) eqn:E; [case_decide|]; intros [= <- <-]; by split_and?. Qed.

Definition is_dependency (e : BlockResolutionEvent) : Prop := ∃ h res, e = DependencyResolved h res.

(** The resolution mailbox got results appended, the fault path faults; the
    control state only moves to the end, on a Shutdown; a worker that turns
    faulted reports. *)
Record resolver_effects r (ports : Ports) r' (ports' : Ports) : Prop := {
  re_resolution : ∃ es, bq_items (pt_resolution ports') = bq_items (pt_resolution ports) ++ es ∧ Forall is_dependency es;
  re_open : bq_open (pt_resolution ports') = bq_open (pt_resolution ports);
  re_faults : ∃ fs, pt_faults ports' = pt_faults ports ++ fs ∧ (dr_faulted r' = true → dr_faulted r = true ∨ fs ≠ []);
  re_shutdown : dr_shutdown r' = dr_shutdown r;
  re_control : dr_control r' = dr_control r ∨
               dr_control r = ResolverRunning ∧ dr_shutdown r = true ∧ dr_control r' = ResolverReturned
}.

Lemma effects_quiet r r' ports :
  dr_faulted r' = dr_faulted r → dr_shutdown r' = dr_shutdown r → dr_control r' = dr_control r →
  resolver_effects r ports r' ports.
Proof.
  intros E1 E2 E3. split; try done.
  - exists []. by rewrite app_nil_r.
  - exists []. rewrite app_nil_r, E1. split; [done|by left].
  - by left.
Qed.

Lemma effects_fault kind r r' ports ports' :
  pt_resolution ports' = pt_resolution ports → pt_faults ports' = pt_faults ports →
  dr_shutdown r' = dr_shutdown r → dr_control r' = dr_control r →
  resolver_effects r ports (resolver_fault kind r' ports').1 (resolver_fault kind r' ports').2.
Proof.
  intros E1 E2 E3 E4. split; simpl; try done.
  - exists []. by rewrite app_nil_r, E1.
  - by rewrite E1.
  - rewrite E2. eexists. split; [done|by right].
  - by left.
Qed.

Lemma task_step_quiet id ev r ports : resolver_effects r ports (task_step id ev r) ports.
Proof.
  unfold task_step, end_task, drop_guard. apply effects_quiet; destruct (dr_tasks r !! id) as [[[] []]|]; simpl; try done;
    destruct ev; simpl; try done; by case_decide.
Qed.

Lemma resolver_step_effects ev r ports :
  resolver_effects r ports (resolver_step ev r ports).1 (resolver_step ev r ports).2.
Proof.
  destruct ev as [joined|id ev]; simpl; [|apply task_step_quiet]. unfold resolver_turn.
  destruct (dr_control r) eqn:Ec; try by apply effects_quiet. destruct (dr_shutdown r) eqn:Es.
  { assert (dr_faulted (resolver_shutdown r) = dr_faulted r ∧ dr_shutdown (resolver_shutdown r) = dr_shutdown r) as [E1 E2].
    { unfold resolver_shutdown, abort_and_join. simpl. generalize (map_to_list (dr_tasks r)). intros l. clear.
      revert r. induction l as [|[id [[] ab]] l IH]; intros r; simpl; try done; by rewrite !(proj1 (IH _)), !(proj2 (IH _)). }
    split; simpl; try done.
    - exists []. by rewrite app_nil_r.
    - exists []. rewrite app_nil_r. split; [done|]. intros E. left. by rewrite <-E1.
    - by right. }
  destruct (if dr_faulted r || negb (dr_work_open r) then None else bq_try_recv (dr_work r)) as [[[h|h] q]|].
  - unfold handle_work, start_resolution. simpl. case_match; [by apply effects_fault|by apply effects_quiet].
  - unfold handle_work. simpl. case_match; by apply effects_quiet.
  - destruct (dr_tasks r !! joined) as [t|]; [|by apply effects_quiet]. destruct (ended t); [|by apply effects_quiet].
    unfold handle_task_result. simpl. destruct (dr_hashes_by_task r !! joined) as [h|].
    2: { split; simpl; try done; [exists []; by rewrite app_nil_r|eexists; split; [done|by right]|by left]. }
    case_bool_decide; [by apply effects_quiet|].
    destruct (tk_phase t) as [| |result| |]; try (by apply effects_quiet); [|by apply effects_fault].
    destruct (dr_faulted r) eqn:Ef; [by apply effects_quiet|].
    destruct (bq_try_send PROCESSING_DATA_CHANNEL_CAPACITY (DependencyResolved h result) (pt_resolution ports)) as [q sent] eqn:E. apply bq_try_send_spec in E. destruct sent as [|[]]; simpl.
    + destruct E as (E & Eo & Eo'). split; simpl; try done; [|by rewrite Eo|exists []; by rewrite app_nil_r; split; [|left]|by left].
      exists [DependencyResolved h result]. split; [done|]. constructor; [|done]. by eexists _, _.
    + subst q. by apply effects_fault.
    + subst q. by apply effects_fault.
Qed.
End resolver_safety.

Section orphan_worker_safety.
Context {KH : KaspaHash}.
Implicit Types (o : OrphanManagerWorker) (t : OrphanTopology) (ports : Ports).

(** * Messages on the topology *)

Lemma add_orphan_flow block missing t t' mu :
  add_orphan block missing t = (t', Ok mu) →
  tm_ready mu = [] ∧ is_Some (orphans t' !! vnb_hash block) ∧
  (∀ h e, orphans t' !! h = Some e →
     orphans t !! h = Some e ∨ h = vnb_hash block ∧ oe_missing e = list_to_set missing) ∧
  (∀ h, is_Some (orphans t !! h) → is_Some (orphans t' !! h)).
Proof.
  unfold add_orphan. case_decide as Hs; [intros [= <- <-]; split_and!; auto|].
  case_decide; [done|]. cbv zeta. case_decide; [done|]. simpl. intros [= <- <-]. simpl. split_and!; [done|..].
  - rewrite lookup_insert_eq. by eexists.
  - intros h e. destruct (decide (h = vnb_hash block)) as [->|Hn].
    + rewrite lookup_insert_eq. intros [= <-]. by right.
    + rewrite lookup_insert_ne by done. by left.
  - intros h Hh. destruct (decide (h = vnb_hash block)) as [->|Hn]; [rewrite lookup_insert_eq; by eexists|by rewrite lookup_insert_ne].
Qed.

Lemma block_persisted_flow h t :
  topology_inv t →
  let '(t', mu) := block_persisted h t in
  (∀ x e', orphans t' !! x = Some e' → ∃ e, orphans t !! x = Some e ∧ oe_missing e' ⊆ oe_missing e ∧ h ∉ oe_missing e') ∧
  (∀ x e, orphans t !! x = Some e → x = h ∨ is_Some (orphans t' !! x) ∨ ∃ b, b ∈ tm_ready mu ∧ vnb_hash b = x).
Proof.
  intros Ht. pose proof (block_persisted_fields h t Ht) as Hf. destruct (block_persisted h t) as [t' mu].
  destruct Hf as (Ho & Hb & _). split.
  - intros x e'. rewrite Ho. intros (e & He & Hp)%bind_Some. exists e. split; [done|].
    unfold persisted_entry, kept_entry in Hp. case_decide; [done|]. case_decide; [case_decide; [done|]|];
      simplify_eq; simpl; [split; set_solver|done].
  - intros x e He. destruct (decide (x = h)) as [->|Hn]; [by left|right]. rewrite Ho, He. simpl.
    unfold persisted_entry, kept_entry. rewrite (decide_False (P := x = h)) by done.
    case_decide as Hin; [|left; by eexists]. case_decide as Hem; [right|left; by eexists].
    exists (oe_block e). split; [|by apply (ti_key _ Ht)]. apply Hb. exists x, e. split_and!; try done.
    by apply difference_singleton_empty.
Qed.

(** * The invariant *)

Definition resolver_alive (r : DependencyResolverWorker) : Prop := dr_control r = ResolverRunning ∧ dr_shutdown r = false.

(** Everything but the metrics. *)
Record orphan_core o : Prop := {
  oc_topology : topology_inv (om_topology o);
  oc_resolver : ∀ r, om_resolver o = Some r → resolver_inv r;
  oc_control : match om_control o with
               | OmInert => om_resolver o = Some DependencyResolver_new ∧ om_state o = OmActive
               | OmRunning => match om_resolver o with
                              | Some r => resolver_alive r ∧ om_state o = OmActive
                              | None => om_state o = OmFaulted
                              end
               | OmStopping _ => om_state o = OmFaulted ∧
                                 ∃ r, om_resolver o = Some r ∧ dr_shutdown r = true ∧ dr_control r ≠ ResolverInert
               | OmReturned res => res = Ok tt ∧ om_resolver o = None ∧ om_state o = OmFaulted
               end;
  oc_exit : match om_control o with OmStopping OmExit | OmReturned _ => om_shutdown o = true | _ => True end;
  oc_open : om_state o = OmActive → om_resolver_faults_open o = true;
  oc_reported : om_state o = OmActive → ∀ r, om_resolver o = Some r → dr_faulted r = true → om_resolver_faults o ≠ []
}.

Definition metrics_ok o : Prop :=
  (omm_current_occupancy (om_metrics o) ≤ omm_high_water_mark (om_metrics o) ≤ MAX_ORPHAN_BLOCKS)%nat ∧
  (om_state o = OmActive →
   omm_current_occupancy (om_metrics o) = size (orphans (om_topology o)) ∧
   omm_resolution_pending (om_metrics o) = size (resolution_pending (om_topology o))).

Record orphan_inv o : Prop := { om_core : orphan_core o; om_metrics_ok : metrics_ok o }.

Lemma OrphanManager_new_inv : orphan_inv OrphanManager_new.
Proof.
  split; [split|]; simpl; try done.
  - apply topology_inv_default.
  - intros r [= <-]. apply DependencyResolver_new_inv.
  - intros _ r [= <-]. done.
  - split; simpl; [lia|]. intros _. split; reflexivity.
Qed.

Lemma orphan_start_inv : orphan_inv (orphan_start OrphanManager_new).
Proof.
  split; [split|]; simpl; try done.
  - apply topology_inv_default.
  - intros r [= <-]. apply (resolver_inv_frame DependencyResolver_new); try done. apply DependencyResolver_new_inv.
  - intros _ r [= <-]. done.
  - split; simpl; [lia|]. intros _. split; reflexivity.
Qed.

(** The worker serves its mailbox. *)
Definition serving o : Prop := om_control o = OmRunning ∧ om_state o = OmActive.

Lemma serving_resolver o : orphan_core o → serving o → ∃ r, om_resolver o = Some r ∧ resolver_alive r.
Proof.
  intros Hc [Ec Es]. pose proof (oc_control _ Hc) as H. rewrite Ec in H.
  destruct (om_resolver o) as [r|]; [exists r; by destruct H|congruence].
Qed.

(** * The loops of one message *)

(** What a stretch of a handler did: it goes on serving, or it has reported one
    fault and waits for its resolver. *)
Record stretch (go : bool) o ports o' ports' (es : list BlockResolutionEvent) : Prop := {
  st_core : orphan_core o';
  st_topology : om_topology o' = om_topology o;
  st_metrics : om_metrics o' = om_metrics o;
  st_messages : om_messages o' = om_messages o;
  st_shutdown : om_shutdown o' = om_shutdown o;
  st_resolution : bq_items (pt_resolution ports') = bq_items (pt_resolution ports) ++ es;
  st_open : bq_open (pt_resolution ports') = bq_open (pt_resolution ports);
  st_go : if go then serving o' ∧ pt_faults ports' = pt_faults ports
          else om_control o' = OmStopping OmResume ∧ om_state o' = OmFaulted ∧
               ∃ f, pt_faults ports' = pt_faults ports ++ [f]
}.

Lemma stretch_refl o ports : orphan_core o → serving o → stretch true o ports o ports [].
Proof. intros Hc Hs. split; try done. by rewrite app_nil_r. Qed.

Lemma stretch_trans go o1 p1 o2 p2 o3 p3 es es' :
  stretch true o1 p1 o2 p2 es → stretch go o2 p2 o3 p3 es' → stretch go o1 p1 o3 p3 (es ++ es').
Proof.
  intros [A1 A2 A3 A4 A5 A6 A7 [A8 A9]] [B1 B2 B3 B4 B5 B6 B7 B8].
  split; [done|congruence..| | |].
  - by rewrite B6, A6, app_assoc.
  - congruence.
  - destruct go; rewrite <-A9; done.
Qed.

(** Entering a fault while serving, whatever was read of the resolver's. *)
Lemma fault_read_stretch fault fs b o ports :
  orphan_core o → serving o →
  let o1 := om_set_resolver_faults fs b o in
  stretch false o1 ports (om_enter_fault fault o1 ports).1 (om_enter_fault fault o1 ports).2 [].
Proof.
  intros Hc Hs o1. destruct (serving_resolver _ Hc Hs) as (r & Er & Ha & _). pose proof Hc as [C1 C2 C3 C6 C4 C5]. destruct Hs as [Ec Es].
  unfold om_enter_fault, o1. cbn [om_state om_set_resolver_faults]. rewrite Es. cbn [om_resolver om_set_resolver_faults om_set_state]. rewrite Er.
  split; simpl; try done; [|by rewrite app_nil_r|split_and!; [done..|by exists fault]].
  split; simpl; try done.
  - intros r' [= <-]. apply (resolver_inv_frame r); try done. by apply C2.
  - split; [done|]. exists (resolver_request_shutdown r). split_and!; try done. simpl. by rewrite Ha.
Qed.

Lemma enter_fault_stretch fault o ports :
  orphan_core o → serving o →
  stretch false o ports (om_enter_fault fault o ports).1 (om_enter_fault fault o ports).2 [].
Proof.
  intros Hc Hs. pose proof (fault_read_stretch fault (om_resolver_faults o) (om_resolver_faults_open o) o ports Hc Hs) as H.
  by destruct o.
Qed.

Lemma send_work_stretch work o ports :
  orphan_core o → serving o →
  ∃ o' ports' go, send_work work o ports = (o', ports', go) ∧ stretch go o ports o' ports' [].
Proof.
  intros Hc Hs. destruct (serving_resolver _ Hc Hs) as (r & Er & Ha & Hns). pose proof Hc as [C1 C2 C3 C6 C4 C5].
  unfold send_work. rewrite Er. unfold resolver_send. destruct (bq_try_send _ _ _) as [q sent].
  set (o1 := om_set_resolver (Some (dr_set_work q r)) o).
  assert (orphan_core o1) as Hc1.
  { split; simpl; try done.
    - intros r' [= <-]. apply (resolver_inv_frame r); try done. by apply C2.
    - destruct Hs as [Ec Es]. by rewrite Ec, Es.
    - intros Hact r' [= <-]. exact (C5 Hact r Er). }
  assert (serving o1) as Hs1 by done.
  assert (stretch true o ports o1 ports []) as Hst by (split; try done; by rewrite app_nil_r).
  destruct sent as [|[]].
  - by exists o1, ports, true.
  - pose proof (stretch_trans _ _ _ _ _ _ _ _ _ Hst (enter_fault_stretch (MkChildFault OrphanManager (SessionDataFull ResolverWorkPath)) o1 ports Hc1 Hs1)) as H.
    unfold enter_own_fault. destruct (om_enter_fault _ o1 ports) as [o' ports']. by exists o', ports', false.
  - pose proof (stretch_trans _ _ _ _ _ _ _ _ _ Hst (enter_fault_stretch (MkChildFault OrphanManager (Child_SessionDataEndpointLost ResolverWorkPath)) o1 ports Hc1 Hs1)) as H.
    unfold enter_own_fault. destruct (om_enter_fault _ o1 ports) as [o' ports']. by exists o', ports', false.
Qed.

Lemma send_ready_stretch block o ports :
  orphan_core o → serving o →
  ∃ o' ports' go, send_ready block o ports = (o', ports', go) ∧
    stretch go o ports o' ports' (if go then [OrphanReady block] else []).
Proof.
  intros Hc Hs. unfold send_ready.
  destruct (bq_try_send PROCESSING_DATA_CHANNEL_CAPACITY (OrphanReady block) (pt_resolution ports)) as [q sent] eqn:E.
  apply bq_try_send_spec in E. destruct sent as [|[]].
  - destruct E as (Ei & Eo & Eo'). eexists _, _, true. split; [done|]. split; try done. simpl. congruence.
  - subst q. pose proof (enter_fault_stretch (MkChildFault OrphanManager (SessionDataFull ResolutionPath)) o ports Hc Hs) as H.
    destruct ports as [q fs]. unfold enter_own_fault. simpl in *. destruct (om_enter_fault _ o _) as [o' ports']. by exists o', ports', false.
  - subst q. pose proof (enter_fault_stretch (MkChildFault OrphanManager (Child_SessionDataEndpointLost ResolutionPath)) o ports Hc Hs) as H.
    destruct ports as [q fs]. unfold enter_own_fault. simpl in *. destruct (om_enter_fault _ o _) as [o' ports']. by exists o', ports', false.
Qed.

(** A loop emits [out x] for each round it completes. *)
Lemma for_each_stretch {A} (body : A → OrphanManagerWorker → Ports → OrphanManagerWorker * Ports * bool)
    (out : A → list BlockResolutionEvent) xs o ports :
  (∀ x o ports, orphan_core o → serving o →
     ∃ o' ports' go, body x o ports = (o', ports', go) ∧ stretch go o ports o' ports' (if go then out x else [])) →
  orphan_core o → serving o →
  ∃ o' ports' go es, for_each body xs o ports = (o', ports', go) ∧ stretch go o ports o' ports' es ∧
    Forall (λ e, ∃ x, x ∈ xs ∧ e ∈ out x) es ∧ (go = true → es = concat (out <$> xs)).
Proof.
  intros Hb. revert o ports. induction xs as [|x xs IH]; intros o ports Hc Hs.
  { exists o, ports, true, []. split_and!; try done. by apply stretch_refl. }
  destruct (Hb x o ports Hc Hs) as (o1 & p1 & go & E & Hst). simpl. rewrite E. destruct go.
  - destruct (IH o1 p1 (st_core _ _ _ _ _ _ Hst) (proj1 (st_go _ _ _ _ _ _ Hst))) as (o2 & p2 & go & es & E2 & Hst2 & Hf & He).
    exists o2, p2, go, (out x ++ es). split; [done|]. split; [by eapply stretch_trans|]. split.
    + apply Forall_app. split.
      * apply Forall_forall. intros e Hin. exists x. split; [left|done].
      * eapply Forall_impl; [exact Hf|]. intros e (y & Hy & Hin). exists y. split; [by right|done].
    + intros ->. by rewrite He.
  - exists o1, p1, false, []. split_and!; try done.
Qed.

(** * One message *)

Definition set_topology_core o t (m : OrphanManagerMetricsSnapshot) :
  orphan_core o → topology_inv t → orphan_core (om_set_topology t m o).
Proof. intros [C1 C2 C3 C6 C4 C5] Ht. split; try done. Qed.

Lemma take_candidates_total t :
  topology_inv t →
  ∃ t' hs, take_resolution_candidates t = Some (t', hs) ∧ topology_inv t' ∧ orphans t' = orphans t ∧
    (hs = [] → resolution_pending t' = resolution_pending t).
Proof.
  intros Ht. destruct (resolution_active t) eqn:Ea.
  - destruct (take_resolution_candidates_spec t Ht Ea) as (t' & hs & E & Hi & _ & _ & _ & Hp & Ho & _).
    exists t', hs. split_and!; try done. intros ->. rewrite Hp. set_solver.
  - exists t, []. unfold take_resolution_candidates. by rewrite Ea.
Qed.

Lemma update_metrics_spec crossed o :
  orphan_core o → (omm_high_water_mark (om_metrics o) ≤ MAX_ORPHAN_BLOCKS)%nat →
  match update_metrics crossed o with
  | None => crossed = true ∧ U64_MAX ≤ omm_threshold_crossings (om_metrics o)
  | Some o' => ∃ m, o' = om_set_topology (om_topology o) m o ∧ metrics_ok o'
  end.
Proof.
  intros Hc Hm. pose proof (ti_capacity _ (oc_topology _ Hc)) as Hcap. unfold update_metrics, orphan_metrics_update.
  assert (∀ c, ∃ m, Some (om_set_topology (om_topology o) (MkOrphanMetrics (size (orphans (om_topology o)))
            (omm_high_water_mark (om_metrics o) `max` size (orphans (om_topology o)))
            (size (resolution_pending (om_topology o))) c) o) = Some (om_set_topology (om_topology o) m o) ∧
          metrics_ok (om_set_topology (om_topology o) m o)) as Hok.
  { intros c. eexists. split; [done|]. split; simpl; [lia|done]. }
  destruct crossed; run_bind.
  - destruct (checked_add _ 1) as [c|] eqn:E; run_bind.
    + destruct (Hok c) as (m & [= Em] & Hmm). exists m. rewrite <-Em in Hmm |- *. done.
    + split; [done|]. unfold checked_add in E. case_decide; [done|]. lia.
  - destruct (Hok (omm_threshold_crossings (om_metrics o))) as (m & [= Em] & Hmm). exists m. rewrite <-Em in Hmm |- *. done.
Qed.

(** What one message did. *)
Record message_outcome o ports o' ports' (ready : list ValidatedNodeBlock) : Prop := {
  mo_inv : orphan_inv o';
  mo_messages : om_messages o' = om_messages o;
  mo_shutdown : om_shutdown o' = om_shutdown o;
  mo_resolution : ∃ es, bq_items (pt_resolution ports') = bq_items (pt_resolution ports) ++ es ∧
                        Forall (λ e, ∃ b, b ∈ ready ∧ e = OrphanReady b) es ∧
                        (om_state o' = OmActive → es = OrphanReady <$> ready);
  mo_open : bq_open (pt_resolution ports') = bq_open (pt_resolution ports);
  mo_go : serving o' ∧ pt_faults ports' = pt_faults ports ∧ orphans (om_topology o') = orphans (om_topology o) ∨
          om_state o' = OmFaulted ∧ ∃ f, pt_faults ports' = pt_faults ports ++ [f]
}.

Lemma metrics_ok_faulted o : metrics_ok o → ∀ o', om_metrics o' = om_metrics o → om_state o' = OmFaulted → metrics_ok o'.
Proof. intros [H _] o' E Es. split; [by rewrite E|by rewrite Es]. Qed.

Lemma metrics_ok_frame o o' :
  metrics_ok o → om_metrics o' = om_metrics o → om_topology o' = om_topology o → om_state o' = om_state o → metrics_ok o'.
Proof. unfold metrics_ok. by intros H -> -> ->. Qed.

Lemma concat_singletons (bs : list ValidatedNodeBlock) : concat ((λ b, [OrphanReady b]) <$> bs) = OrphanReady <$> bs.
Proof. induction bs as [|b bs IH]; [done|]. rewrite !fmap_cons. simpl. by f_equal. Qed.

(** A stretch after the topology was set, when it ended in a fault. *)
Lemma stretch_outcome o ports o' ports' es ready :
  stretch false o ports o' ports' es → metrics_ok o → Forall (λ e, ∃ b, b ∈ ready ∧ e = OrphanReady b) es →
  message_outcome o ports o' ports' ready.
Proof.
  intros [S1 S2 S3 S4 S5 S6 S7 (S8 & S9 & S10)] Hm Hf. split; try done.
  - split; [done|]. by apply (metrics_ok_faulted o).
  - exists es. split_and!; try done. congruence.
  - right. by split.
Qed.

Lemma act_on_mutation_spec mutation o ports :
  orphan_core o → serving o → (omm_high_water_mark (om_metrics o) ≤ MAX_ORPHAN_BLOCKS)%nat →
  match act_on_mutation mutation o ports with
  | None => U64_MAX ≤ omm_threshold_crossings (om_metrics o)
  | Some (o', ports') => message_outcome o ports o' ports' (tm_ready mutation)
  end.
Proof.
  intros Hc Hs Hm. unfold act_on_mutation. pose proof (update_metrics_spec (tm_threshold_crossed mutation) o Hc Hm) as Hu.
  destruct (update_metrics _ o) as [o1|]; run_bind; [|by destruct Hu]. destruct Hu as (m & E1 & Hmet).
  assert (orphan_core o1) as Hc1 by (subst o1; apply set_topology_core; [done|apply Hc]).
  assert (serving o1) as Hs1 by by subst o1.
  assert (om_messages o1 = om_messages o ∧ om_shutdown o1 = om_shutdown o ∧ om_topology o1 = om_topology o) as (F1 & F2 & F3)
    by by subst o1.
  clear E1.
  assert (∀ o' ports' es, stretch false o1 ports o' ports' es →
            Forall (λ e, ∃ b, b ∈ tm_ready mutation ∧ e = OrphanReady b) es →
            message_outcome o ports o' ports' (tm_ready mutation)) as Hfail.
  { intros o' ports' es H1 H2. destruct (stretch_outcome _ _ _ _ _ _ H1 Hmet H2) as [A1 A2 A3 A4 A5 A6].
    split; try done; [congruence..|]. rewrite <-F3. done. }
  destruct (for_each_stretch (λ h, send_work (CancelWork h)) (λ _, []) (tm_cancel mutation) o1 ports)
    as (o2 & p2 & go2 & es2 & -> & Hst2 & Hf2 & He2); [|done..|].
  { intros x o0 p0 Hc0 Hs0. destruct (send_work_stretch (CancelWork x) o0 p0 Hc0 Hs0) as (? & ? & go & E & Hst).
    eexists _, _, go. split; [done|]. by destruct go. }
  destruct es2 as [|e es2]; [|exfalso; apply Forall_inv in Hf2; set_solver].
  destruct go2; [|by apply (Hfail _ _ [])].
  destruct (for_each_stretch send_ready (λ b, [OrphanReady b]) (tm_ready mutation) o2 p2)
    as (o3 & p3 & go3 & es3 & -> & Hst3 & Hf3 & He3); [intros; by apply send_ready_stretch|apply Hst2|apply Hst2|].
  pose proof (stretch_trans _ _ _ _ _ _ _ _ _ Hst2 Hst3) as Hst13. rewrite app_nil_l in Hst13.
  assert (Forall (λ e, ∃ b, b ∈ tm_ready mutation ∧ e = OrphanReady b) es3) as Hf3'.
  { eapply Forall_impl; [exact Hf3|]. intros e (b & Hb & ->%list_elem_of_singleton). by exists b. }
  destruct go3; [|by apply (Hfail _ _ es3)].
  rewrite concat_singletons in He3. specialize (He3 eq_refl). destruct Hst13 as [S1 S2 S3 S4 S5 S6 S7 [S8 S9]].
  destruct (take_candidates_total (om_topology o3) (oc_topology _ S1)) as (t' & hs & -> & Ht' & Ho' & Hp'). run_bind.
  set (o4 := om_set_topology t' (om_metrics o3) o3).
  assert (orphan_core o4) as Hc4 by (by apply set_topology_core).
  assert (∃ o5, match hs with [] => Some o4 | _ => update_metrics false o4 end = Some o5 ∧ orphan_core o5 ∧ metrics_ok o5 ∧
    serving o5 ∧ om_messages o5 = om_messages o ∧ om_shutdown o5 = om_shutdown o ∧ om_topology o5 = t') as
    (o5 & E5 & Hc5 & Hm5 & Hs5 & G1 & G2 & G3).
  { destruct hs as [|h hs].
    - exists o4. split_and!; try done; [|simpl; congruence..]. destruct Hmet as [M1 M2]. rewrite <-S3 in M1, M2. split; [done|].
      intros _. simpl. rewrite Ho', Hp' by done. rewrite S2. apply M2. apply Hs1.
    - pose proof (update_metrics_spec false o4 Hc4) as Hu. destruct (update_metrics false o4) as [o5|].
      + destruct Hu as (m5 & -> & Hm5). { simpl. rewrite S3. apply Hmet. }
        eexists. split; [done|]. split_and!; try done; [by apply set_topology_core|simpl; congruence..].
      + destruct Hu; [|done]. simpl. rewrite S3. apply Hmet. }
  rewrite E5. run_bind.
  destruct (for_each_stretch (λ h, send_work (Resolve h)) (λ _, []) hs o5 p3)
    as (o6 & p6 & go6 & es6 & -> & [T1 T2 T3 T4 T5 T6 T7 T8] & Hf6 & He6); [|done..|].
  { intros x o0 p0 Hc0 Hs0. destruct (send_work_stretch (Resolve x) o0 p0 Hc0 Hs0) as (? & ? & go & E & Hst).
    eexists _, _, go. split; [done|]. by destruct go. }
  destruct es6 as [|e es6]; [|exfalso; apply Forall_inv in Hf6; set_solver]. simpl. rewrite app_nil_r in T6. split.
  - split; [done|]. destruct go6.
    + apply (metrics_ok_frame o5); try done. destruct T8 as [[_ E] _]. rewrite E. symmetry. apply Hs5.
    + apply (metrics_ok_faulted o5); try done. apply T8.
  - congruence.
  - congruence.
  - exists es3. rewrite T6, S6. split_and!; try done.
  - congruence.
  - destruct go6; [left|right].
    + destruct T8 as [T8 T9]. split_and!; [done|congruence|]. by rewrite T2, G3, Ho', S2, F3.
    + destruct T8 as (_ & T8 & f & T9). split; [done|]. exists f. congruence.
Qed.

(** The topology operation of a message, and the blocks it releases. *)
Definition message_topology (message : OrphanMessage) t : OrphanTopology * list ValidatedNodeBlock :=
  match message with
  | AddOrphan block missing => ((add_orphan block missing t).1, [])
  | BlockPersisted hash => ((block_persisted hash t).1, tm_ready (block_persisted hash t).2)
  end.

Lemma message_topology_inv message t : topology_inv t → topology_inv (message_topology message t).1.
Proof. destruct message; simpl; [apply add_orphan_inv|apply block_persisted_inv]. Qed.

(** The topology takes the message. *)
Definition message_accepted (message : OrphanMessage) t : Prop :=
  match message with
  | AddOrphan block missing => ∃ mu, (add_orphan block missing t).2 = Ok mu
  | BlockPersisted _ => True
  end.

Lemma handle_message_spec message o ports :
  orphan_inv o → serving o →
  let '(t, ready) := message_topology message (om_topology o) in
  match handle_message message o ports with
  | None => U64_MAX ≤ omm_threshold_crossings (om_metrics o)
  | Some (o', ports') => message_outcome (om_set_topology t (om_metrics o) o) ports o' ports' ready ∧
                         (om_state o' = OmActive → message_accepted message (om_topology o))
  end.
Proof.
  intros [Hc Hm] Hs. pose proof (message_topology_inv message _ (oc_topology _ Hc)) as Ht.
  assert (∀ t kind, topology_inv t →
    message_outcome (om_set_topology t (om_metrics o) o) ports
      (enter_own_fault kind (om_set_topology t (om_metrics o) o) ports).1
      (enter_own_fault kind (om_set_topology t (om_metrics o) o) ports).2 [] ∧
    om_state (enter_own_fault kind (om_set_topology t (om_metrics o) o) ports).1 ≠ OmActive) as Hfail.
  { intros t kind Hti. pose proof (enter_fault_stretch (MkChildFault OrphanManager kind) (om_set_topology t (om_metrics o) o) ports
      (set_topology_core _ _ _ Hc Hti) Hs) as [S1 S2 S3 S4 S5 S6 S7 (S8 & S9 & S10)].
    split; [|intros E; unfold enter_own_fault in E; congruence]. split; try done.
    - split; [done|]. by apply (metrics_ok_faulted o).
    - exists []. split_and!; try done.
    - right. by split. }
  assert (∀ t mu, topology_inv t →
    match act_on_mutation mu (om_set_topology t (om_metrics o) o) ports with
    | None => U64_MAX ≤ omm_threshold_crossings (om_metrics o)
    | Some (o', ports') => message_outcome (om_set_topology t (om_metrics o) o) ports o' ports' (tm_ready mu)
    end) as Hact.
  { intros t mu Hti. apply (act_on_mutation_spec mu (om_set_topology t (om_metrics o) o) ports);
      [by apply set_topology_core|done|apply Hm]. }
  destruct message as [block missing|hash]; simpl in *; unfold handle_message.
  - destruct (add_orphan block missing (om_topology o)) as [t [mu|[]]] eqn:E; simpl in *.
    + destruct (add_orphan_flow _ _ _ _ _ E) as [Er _]. rewrite <-Er. specialize (Hact t mu Ht).
      destruct (act_on_mutation _ _ _) as [[o' ports']|]; [|done]. split; [done|]. intros _. by exists mu.
    + specialize (Hfail t OrphanCapacityExhausted Ht). destruct (enter_own_fault _ _ _) as [o' ports']. by destruct Hfail.
    + specialize (Hfail t (InvalidProtocol EmptyMissing) Ht). destruct (enter_own_fault _ _ _) as [o' ports']. by destruct Hfail.
  - destruct (block_persisted hash (om_topology o)) as [t mu]. specialize (Hact t mu Ht).
    by destruct (act_on_mutation _ _ _) as [[o' ports']|].
Qed.

(** * One step of the manager *)

Inductive orphan_move o ports o' ports' : Prop :=
  | move_quiet es :
      om_messages o' = om_messages o → orphans (om_topology o') = orphans (om_topology o) → om_state o' = om_state o →
      bq_items (pt_resolution ports') = bq_items (pt_resolution ports) ++ es → Forall is_dependency es →
      orphan_move o ports o' ports'
  | move_served message rest :
      serving o → bq_items (om_messages o) = message :: rest → bq_items (om_messages o') = rest → serving o' →
      message_accepted message (om_topology o) →
      orphans (om_topology o') = orphans (message_topology message (om_topology o)).1 →
      bq_items (pt_resolution ports') =
        bq_items (pt_resolution ports) ++ (OrphanReady <$> (message_topology message (om_topology o)).2) →
      orphan_move o ports o' ports'
  | move_stopped es :
      om_state o' = OmFaulted → bq_items (pt_resolution ports') = bq_items (pt_resolution ports) ++ es →
      orphan_move o ports o' ports'.

Record orphan_effects o ports o' ports' : Prop := {
  oe_inv : orphan_inv o';
  oe_shutdown : om_shutdown o' = om_shutdown o;
  oe_started : om_control o ≠ OmInert → om_control o' ≠ OmInert;
  oe_inert : om_control o = OmInert → o' = o ∧ ports' = ports;
  oe_open : bq_open (pt_resolution ports') = bq_open (pt_resolution ports);
  oe_faults : ∃ fs, pt_faults ports' = pt_faults ports ++ fs ∧
                    (om_state o' = OmFaulted → om_state o = OmFaulted ∨ om_shutdown o = true ∨ fs ≠ []);
  oe_move : orphan_move o ports o' ports'
}.

Lemma orphan_effects_refl o ports : orphan_inv o → orphan_effects o ports o ports.
Proof.
  intros Ho. split; try done.
  - exists []. rewrite app_nil_r. split; [done|by left].
  - apply (move_quiet _ _ _ _ []); try done. by rewrite app_nil_r.
Qed.

Lemma orphan_shutdown_effects o ports :
  orphan_inv o → om_control o = OmRunning → om_shutdown o = true → orphan_effects o ports (orphan_shutdown o) ports.
Proof.
  intros [[C1 C2 C3 C6 C4 C5] [M1 M2]] Ec Es. rewrite Ec in C3. unfold orphan_shutdown. simpl.
  assert (om_state (orphan_shutdown o) = OmFaulted) as Hf by (unfold orphan_shutdown; simpl; by destruct (om_resolver o)).
  unfold orphan_shutdown in Hf. simpl in Hf. split.
  - destruct (om_resolver o) as [r|] eqn:Er; split; simpl; try done; try (split; simpl; [lia|done]); split; simpl; try done.
    + apply topology_inv_default.
    + intros r' [= <-]. apply (resolver_inv_frame r); try done. by apply C2.
    + split; [done|]. exists (resolver_request_shutdown r). split_and!; try done. destruct C3 as [[E _] _]. simpl. by rewrite E.
    + apply topology_inv_default.
    + intros r' Er'. congruence.
  - by destruct (om_resolver o).
  - by destruct (om_resolver o).
  - congruence.
  - done.
  - exists []. rewrite app_nil_r. split; [done|]. intros _. by right; left.
  - apply (move_stopped _ _ _ _ []); [done|]. by rewrite app_nil_r.
Qed.

(** The fault of the resolver reaches the manager. *)
Lemma resolver_fault_effects fault faults o ports :
  orphan_inv o → om_control o = OmRunning →
  let o1 := om_set_resolver_faults faults true o in
  orphan_effects o ports (om_enter_fault fault o1 ports).1 (om_enter_fault fault o1 ports).2.
Proof.
  intros [Hc Hm] Ec o1. destruct (om_state o) eqn:Es.
  - destruct (fault_read_stretch fault faults true o ports Hc (conj Ec Es)) as [S1 S2 S3 S4 S5 S6 S7 (S8 & S9 & f & S10)].
    unfold o1. split; try done; [| |by rewrite Ec| |].
    + split; [done|]. by apply (metrics_ok_faulted o).
    + intros _. fold o1 in S8. unfold o1 in S8. by rewrite S8.
    + exists [f]. split; [done|]. intros _. right. by right.
    + by apply (move_stopped _ _ _ _ []).
  - unfold om_enter_fault, o1. simpl. rewrite Es. simpl. destruct Hc as [C1 C2 C3 C6 C4 C5]. split; simpl; try done; [|by rewrite Ec| |].
    + split; [split; simpl; try done; congruence|]. by apply (metrics_ok_faulted o).
    + exists []. rewrite app_nil_r. split; [done|by left].
    + apply (move_quiet _ _ _ _ []); try done. by rewrite app_nil_r.
Qed.

Lemma end_barrier_effects after r o ports :
  orphan_inv o → om_control o = OmStopping after → om_resolver o = Some r →
  orphan_effects o ports (end_barrier after o) ports.
Proof.
  intros [[C1 C2 C3 C6 C4 C5] Hm] Ec Er. rewrite Ec in C3. destruct C3 as [Es _]. split; simpl; try done.
  - split; [split; simpl; try done; destruct after; simpl; try done|].
    + by rewrite Ec in C6.
    + by apply (metrics_ok_faulted o).
  - by destruct after.
  - by rewrite Ec.
  - exists []. rewrite app_nil_r. split; [done|]. by left.
  - apply (move_quiet _ _ _ _ []); try done. by rewrite app_nil_r.
Qed.

Lemma message_effects message rest o ports :
  orphan_inv o → serving o → bq_items (om_messages o) = message :: rest →
  match handle_message message (om_set_messages (MkBoundedQueue rest (bq_open (om_messages o))) o) ports with
  | None => U64_MAX ≤ omm_threshold_crossings (om_metrics o)
  | Some (o', ports') => orphan_effects o ports o' ports'
  end.
Proof.
  intros Ho Hs Em. set (o1 := om_set_messages (MkBoundedQueue rest (bq_open (om_messages o))) o).
  assert (orphan_inv o1) as Ho1 by (destruct Ho as [[] Hm]; split; [by split|exact Hm]).
  pose proof (handle_message_spec message o1 ports Ho1 Hs) as H.
  destruct (message_topology message (om_topology o1)) as [t ready] eqn:Et.
  destruct (handle_message message o1 ports) as [[o' ports']|]; [|done].
  destruct H as [[A1 A2 A3 (es & A4 & A5 & A6) A7 A8] Hacc]. destruct Hs as [Ec Es].
  assert (om_control o' ≠ OmInert ∧ (om_state o' = OmFaulted → ∃ f, pt_faults ports' = pt_faults ports ++ [f])) as [Hni Hf].
  { destruct A8 as [((Ec' & Es') & ? & ?)|(Es' & f & Ef)].
    - rewrite Ec', Es'. done.
    - split; [|by exists f]. intros Ec'. pose proof (oc_control _ (om_core _ A1)) as Hx. rewrite Ec' in Hx. destruct Hx. congruence. }
  split; try done; [by rewrite Ec| |].
  - destruct A8 as [(Hs' & Ef & _)|(Es' & f & Ef)].
    + exists []. rewrite app_nil_r. split; [done|]. destruct Hs'. congruence.
    + exists [f]. split; [done|]. intros _. by right; right.
  - destruct A8 as [(Hs' & Ef & Eo)|(Es' & f & Ef)].
    + eapply (move_served _ _ _ _ message rest); try done; [by rewrite A2|apply Hacc; apply Hs'| |].
      * rewrite Eo. simpl. change (om_topology o) with (om_topology o1). by rewrite Et.
      * rewrite A4. f_equal. change (om_topology o) with (om_topology o1). rewrite Et. apply A6. apply Hs'.
    + by apply (move_stopped _ _ _ _ es).
Qed.

Lemma orphan_turn_effects o ports :
  orphan_inv o →
  match orphan_turn o ports with
  | None => U64_MAX ≤ omm_threshold_crossings (om_metrics o)
  | Some (o', ports') => orphan_effects o ports o' ports'
  end.
Proof.
  intros Ho. pose proof Ho as [Hc Hm]. pose proof (orphan_effects_refl o ports Ho) as Hrefl. unfold orphan_turn.
  destruct (om_control o) eqn:Ec; try done.
  - destruct (om_shutdown o) eqn:Esh; [by apply orphan_shutdown_effects|].
    assert (match om_state o, bq_try_recv (om_messages o) with
            | OmActive, Some (message, q) => handle_message message (om_set_messages q o) ports
            | _, _ => Some (o, ports)
            end = match om_state o, bq_items (om_messages o) with
                  | OmActive, message :: rest =>
                    handle_message message (om_set_messages (MkBoundedQueue rest (bq_open (om_messages o))) o) ports
                  | _, _ => Some (o, ports)
                  end) as Emsg.
    { unfold bq_try_recv. by destruct (om_state o), (bq_items (om_messages o)). }
    rewrite Emsg. clear Emsg.
    assert (match match om_state o, bq_items (om_messages o) with
                  | OmActive, message :: rest =>
                    handle_message message (om_set_messages (MkBoundedQueue rest (bq_open (om_messages o))) o) ports
                  | _, _ => Some (o, ports)
                  end with
            | None => U64_MAX ≤ omm_threshold_crossings (om_metrics o)
            | Some (o', ports') => orphan_effects o ports o' ports'
            end) as Hmsg.
    { destruct (om_state o) eqn:Es; [|done]. destruct (bq_items (om_messages o)) as [|message rest] eqn:Em; [done|].
      by apply message_effects. }
    destruct (om_resolver_faults_open o) eqn:Eo; [|done]. destruct (om_resolver_faults o) as [|fault faults].
    + destruct (om_resolver o) as [r|] eqn:Er; [done|]. pose proof (oc_control _ Hc) as Hx. rewrite Ec, Er in Hx.
      unfold enter_own_fault, om_enter_fault. simpl. rewrite Hx. destruct Hc as [C1 C2 C3 C6 C4 C5]. split; simpl; try done; [|by rewrite Ec| |].
      * split; [split; simpl; try done; congruence|]. by apply (metrics_ok_faulted o).
      * exists []. rewrite app_nil_r. split; [done|by left].
      * apply (move_quiet _ _ _ _ []); try done. by rewrite app_nil_r.
    + pose proof (resolver_fault_effects fault faults o ports Ho Ec) as H. cbv zeta in H.
      by destruct (om_enter_fault fault (om_set_resolver_faults faults true o) ports).
  - pose proof (oc_control _ Hc) as Hx. rewrite Ec in Hx. destruct Hx as (_ & r & Er & _). rewrite Er.
    destruct (dr_control r); try done. by eapply end_barrier_effects.
Qed.

Lemma inert_resolver_step ev ports : resolver_step ev DependencyResolver_new ports = (DependencyResolver_new, ports).
Proof. destruct ev as [joined|id ev]; simpl; [done|]. unfold task_step. simpl. by rewrite lookup_empty. Qed.

Lemma orphan_step_effects ev o ports :
  orphan_inv o →
  match orphan_step ev o ports with
  | None => U64_MAX ≤ omm_threshold_crossings (om_metrics o)
  | Some (o', ports') => orphan_effects o ports o' ports'
  end.
Proof.
  intros Ho. pose proof Ho as [[C1 C2 C3 C6 C4 C5] Hm]. destruct ev as [|ev]; [by apply orphan_turn_effects|].
  simpl. destruct (om_resolver o) as [r|] eqn:Er; [|by apply orphan_effects_refl].
  pose proof (resolver_step_inv ev r (MkPorts (pt_resolution ports) (om_resolver_faults o)) (C2 _ eq_refl)) as Hr.
  pose proof (resolver_step_effects ev r (MkPorts (pt_resolution ports) (om_resolver_faults o))) as He.
  destruct (om_control o) eqn:Ec; try (by destruct C3 as (_ & E & _); congruence).
  { destruct C3 as [E Es]. assert (r = DependencyResolver_new) as -> by congruence. rewrite inert_resolver_step. simpl.
    replace (MkPorts (pt_resolution ports) (pt_faults ports)) with ports by (by destruct ports).
    replace (om_set_resolver_faults (om_resolver_faults o) (om_resolver_faults_open o) (om_set_resolver (Some DependencyResolver_new) o))
      with o by (destruct o; simpl in *; by subst). by apply orphan_effects_refl. }
  all: destruct (resolver_step ev r _) as [r' inner]; simpl in Hr;
    destruct He as [(es & He1 & He2) He3 (fs & He4 & He5) He6 He7]; simpl in *.
  all: split; simpl; try done; try (by rewrite Ec); [|exists []; rewrite app_nil_r; split; [done|by left]|by apply (move_quiet _ _ _ _ es)].
  all: split; [|by apply (metrics_ok_frame o)]; split; simpl; try done; try (by intros ? [= <-]); try (by rewrite Ec).
  - rewrite Ec. destruct C3 as [[A1 A2] A3]. split; [|done]. split; [|congruence]. destruct He7 as [He7|(_ & ? & _)]; congruence.
  - intros Hact r'' [= <-] Hf. rewrite He4. destruct (He5 Hf) as [Hf'|Hf']; [|destruct (om_resolver_faults o); [done|discriminate]].
    specialize (C5 Hact r eq_refl Hf'). by destruct (om_resolver_faults o).
  - rewrite Ec. destruct C3 as [A1 (r0 & A2 & A3 & A4)]. simplify_eq. split; [done|]. exists r'. split_and!; try done; [congruence|].
    destruct He7 as [He7|(_ & _ & ->)]; congruence.
  - intros Hact. destruct C3 as [A1 _]. congruence.
Qed.
End orphan_worker_safety.
