(* ===== verification/BlockSafety.v ===== *)
(** The invariant of the block processor with its children: which child lives
    when, what the milestone and the fault events are, and that no step
    panics but for the threshold counter. *)

From S2P Require Import Prelude Model Faults Channel Ingress Resolver Orphan OrphanWorker.
From S2P Require Import BlockWorker OrphanWorkerSafety.

#[local] Open Scope N_scope.

Section block_safety.
Context {KH : KaspaHash}.
Implicit Types (p : BlockProcessorWorker) (o : OrphanManagerWorker).

(** * Events *)

Definition is_seal (e : BlockProcessorEvent) : bool := match e with PpBoundarySealed => true | BpFault _ => false end.
Definition seals p : nat := length (filter (λ e, is_seal e = true) (bp_events p)).
Definition faults p : nat := length (filter (λ e, is_seal e = false) (bp_events p)).

Lemma send_event_spec e p :
  let '(p', sent) := send_event e p in
  p' = (if bp_events_open p then bp_set_events (bp_events p ++ [e]) p else p) ∧ sent = bp_events_open p.
Proof. unfold send_event. by destruct (bp_events_open p). Qed.

Lemma seals_snoc es e : length (filter (λ e, is_seal e = true) (es ++ [e])) =
  (length (filter (λ e, is_seal e = true) es) + Nat.b2n (is_seal e))%nat.
Proof. rewrite filter_app, length_app, filter_cons, filter_nil. f_equal. by destruct (is_seal e). Qed.
Lemma faults_snoc es e : length (filter (λ e, is_seal e = false) (es ++ [e])) =
  (length (filter (λ e, is_seal e = false) es) + Nat.b2n (negb (is_seal e)))%nat.
Proof. rewrite filter_app, length_app, filter_cons, filter_nil. f_equal. by destruct (is_seal e). Qed.

(** * The invariant *)

(** Below the seal, or not initialized. *)
Definition unsealed p : bool := match bp_run p with Inert _ => true | Active stage _ _ => pre_seal stage end.

(** What holds of a started worker wherever it stands. *)
Record base (mode : RecoveryMode) p : Prop := {
  bb_orphan : ∀ o, bp_orphan p = Some o → orphan_inv o;
  bb_mode : match bp_run p with Inert m => m = mode | Active stage _ _ => mode = Resync → pre_seal stage = false end;
  bb_seals : (seals p ≤ 1)%nat;
  bb_unsealed : mode = Resync ∨ unsealed p = true → seals p = 0%nat;
  bb_sealed : bp_events_open p = true → mode = Rebuild → unsealed p = false → seals p = 1%nat;
  bb_faults : (faults p ≤ 1)%nat;
  bb_faulted : faults p ≠ 0%nat → bp_faulted p = true;
  bb_reported : bp_events_open p = true → bp_faulted p = true → faults p = 1%nat
}.

(** Between [start] and a fault or the end. *)
Definition in_service p : Prop :=
  bp_faulted p = false ∧ is_active p = true ∧
  match bp_control p with BpTop | BpPresence _ _ | BpMaterializing _ _ _ _ => True | _ => False end.

(** The orphan manager of a worker in service; its fault is on its way. *)
Definition orphan_alive o p : Prop :=
  om_shutdown o = false ∧ om_control o ≠ OmInert ∧ (om_state o = OmFaulted → pt_faults (bp_ports p) ≠ []).

(** [sealing] and [policy] of a materialization in progress. *)
Definition plan (stage : RunStage) (block : ValidatedNodeBlock) : bool * ReferencePolicy :=
  match stage with
  | Synchronizing (PreSeal s) =>
    if decide (s ≤ vnb_blue_score block) then (true, RequireMaterialized) else (false, AllowBoundaryIdentities)
  | _ => (false, RequireMaterialized)
  end.

Definition control_ok p : Prop :=
  match bp_control p with
  | BpHeld => False
  | BpTop => True
  | BpPresence _ _ => in_service p
  | BpMaterializing block _ sealing policy =>
    in_service p ∧ match bp_run p with Active stage _ _ => plan stage block = (sealing, policy) | Inert _ => False end
  | BpBarrier after => (∃ o, bp_orphan p = Some o ∧ om_shutdown o = true ∧ om_control o ≠ OmInert) ∧
                       (after ≠ AfterShutdown → bp_faulted p = true)
  | BpReturned result => result = Ok tt
  end.

Record started (mode : RecoveryMode) p : Prop := {
  bs_base : base mode p;
  bs_control : control_ok p;
  bs_alive : in_service p → ∃ o, bp_orphan p = Some o ∧ orphan_alive o p;
  bs_gone : bp_faulted p = true → faults p ≠ 0%nat → bp_control p = BpTop → bp_orphan p = None
}.

(** The worker still held by its handle. *)
Record held (mode : RecoveryMode) p : Prop := {
  hd_control : bp_control p = BpHeld;
  hd_orphan : bp_orphan p = Some OrphanManager_new;
  hd_faulted : bp_faulted p = false;
  hd_events : bp_events p = [];
  hd_ports : bp_ports p = MkPorts bounded_channel [];
  hd_run : match bp_run p with
           | Inert m => m = mode
           | Active stage sources emit =>
             (∃ phase, stage = Synchronizing phase) ∧ sources = ∅ ∧
             (mode = Resync → pre_seal stage = false ∧ emit = false) ∧ (mode = Rebuild → emit = negb (pre_seal stage))
           end
}.

(** Dropped with its handle before it was started. *)
Definition dropped p : Prop :=
  bp_control p = BpReturned (Ok tt) ∧ bp_orphan p = None ∧ bp_faulted p = false ∧ bp_events p = [].

Definition block_inv (mode : RecoveryMode) p : Prop := held mode p ∨ started mode p ∨ dropped p.

Lemma BlockProcessor_new_inv mode : block_inv mode (BlockProcessor_new mode).
Proof. by left. Qed.

Lemma not_in_service_faulted p : bp_faulted p = true → ¬ in_service p.
Proof. intros E (E' & _). congruence. Qed.

Lemma request_shutdown_inv o : orphan_inv o → om_control o ≠ OmInert → orphan_inv (orphan_request_shutdown o).
Proof.
  intros [[C1 C2 C3 C6 C4 C5] Hm] Hc. split; [split|]; simpl; try done. by destruct (om_control o) as [| |[]|].
Qed.

(** ** Faults and the barrier *)

(** The base is kept by the setters it does not read. *)
Lemma base_frame mode p p' :
  base mode p → (∀ o, bp_orphan p' = Some o → orphan_inv o) → bp_run p' = bp_run p → bp_events p' = bp_events p →
  (bp_events_open p' = true → bp_events_open p = true) → bp_faulted p' = bp_faulted p → base mode p'.
Proof.
  intros [] Ho Hr He Heo Hf. split; unfold seals, faults, unsealed in *; rewrite ?Hr, ?He, ?Hf; auto.
Qed.

Lemma base_keep mode p p' :
  base mode p → bp_orphan p' = bp_orphan p → bp_run p' = bp_run p → bp_events p' = bp_events p →
  (bp_events_open p' = true → bp_events_open p = true) → bp_faulted p' = bp_faulted p → base mode p'.
Proof. intros Hb Ho. apply base_frame; [done|]. rewrite Ho. apply Hb. Qed.

Lemma base_gone mode p p' :
  base mode p → bp_orphan p' = None → bp_run p' = bp_run p → bp_events p' = bp_events p →
  (bp_events_open p' = true → bp_events_open p = true) → bp_faulted p' = bp_faulted p → base mode p'.
Proof. intros Hb Ho. apply base_frame; [done|]. by rewrite Ho. Qed.

Lemma base_fault_event mode f p :
  base mode p → bp_faulted p = false → base mode (send_event (BpFault f) (bp_set_faulted p)).1.
Proof.
  intros [B1 B2 B3 B4 B5 B6 B7 B8] Hf. assert (faults p = 0%nat) as H0.
  { destruct (faults p) eqn:E; [done|]. rewrite B7 in Hf; [done|lia]. }
  unfold send_event. simpl. destruct (bp_events_open p) eqn:Eo; simpl;
    (split; unfold seals, faults, unsealed in *; simpl; rewrite ?seals_snoc, ?faults_snoc; simpl; rewrite ?Nat.add_0_r; try done; try lia);
    auto; congruence.
Qed.

Lemma after_barrier_started mode after p :
  base mode p → bp_orphan p = None → (after ≠ AfterShutdown → bp_faulted p = true) →
  started mode (after_barrier after (Ok tt) p).
Proof.
  intros Hb Ho Hf. destruct after; simpl.
  - split; [by apply (base_keep _ p)|done|by intros (E & _); simpl in E; rewrite Hf in E|done].
  - split; [by apply (base_gone _ p)|done|by intros (_ & _ & ?)|done].
  - split; [by apply (base_gone _ p)|done|by intros (_ & _ & ?)|done].
Qed.

Lemma shutdown_orphan_started mode after p :
  base mode p → (after ≠ AfterShutdown → bp_faulted p = true) → started mode (shutdown_orphan after p).
Proof.
  intros Hb Hf. unfold shutdown_orphan. destruct (bp_orphan p) as [o|] eqn:Eo; [|by apply after_barrier_started].
  assert (om_control o ≠ OmInert →
    started mode (bp_set_control (BpBarrier after) (bp_set_orphan (Some (orphan_request_shutdown o)) p))) as Hbar.
  { intros Hc. split; [|split; [by eexists|done]|by intros (_ & _ & ?)|done].
    apply (base_frame _ p); try done. intros o' [= <-]. apply request_shutdown_inv; [by apply (bb_orphan _ _ Hb)|done]. }
  destruct (om_control o) eqn:Ec; try (by apply Hbar).
  apply after_barrier_started; [by apply (base_gone _ p)|done..].
Qed.

Lemma enter_fault_started mode after f p :
  base mode p → bp_control p ≠ BpHeld →
  (bp_faulted p = true → faults p ≠ 0%nat → bp_orphan p = None) → started mode (enter_fault_then after f p).
Proof.
  intros Hb Hc Hg. unfold enter_fault_then. destruct (bp_faulted p) eqn:Ef.
  - split; [by apply (base_keep _ p)|done|by intros (E & _); simpl in E; congruence|]. intros _ Hn _. by apply Hg.
  - apply shutdown_orphan_started; [by apply base_fault_event|]. intros _. unfold send_event. simpl.
    by destruct (bp_events_open p).
Qed.

Lemma shutdown_worker_started mode p : base mode p → started mode (shutdown_worker p).
Proof. intros Hb. apply shutdown_orphan_started; [by apply (base_keep _ p)|done]. Qed.

Lemma command_path_lost_started mode p : base mode p → bp_control p ≠ BpHeld → started mode (command_path_lost p).
Proof.
  intros Hb Hc. unfold command_path_lost. destruct (bp_faulted p) eqn:Ef; simpl; [by apply shutdown_worker_started|].
  destruct (negb _); [by apply shutdown_worker_started|]. apply enter_fault_started; [done|done|congruence].
Qed.

(** ** A worker in service *)

(** Service without the control state. *)
Definition served (mode : RecoveryMode) p : Prop :=
  base mode p ∧ bp_faulted p = false ∧ is_active p = true ∧ ∃ o, bp_orphan p = Some o ∧ orphan_alive o p.

Lemma in_service_served mode p : started mode p → in_service p → served mode p.
Proof. intros [Hb _ Ha _] Hs. destruct (Ha Hs) as (o & Eo & Hal). destruct Hs as (E1 & E2 & _). by split_and!; [| | |exists o]. Qed.

Lemma served_top mode p : served mode p → bp_control p = BpTop → started mode p.
Proof.
  intros (Hb & Ef & Ea & Ho) Ec. split; [done|by unfold control_ok; rewrite Ec|done|congruence].
Qed.

Lemma served_in_service mode c p :
  served mode p → match c with BpTop | BpPresence _ _ | BpMaterializing _ _ _ _ => True | _ => False end →
  in_service (bp_set_control c p).
Proof. intros (_ & Ef & Ea & _) Hc. by split_and!. Qed.

(** What a handler may change while in service. *)
Lemma served_keep mode p p' :
  served mode p → bp_orphan p' = bp_orphan p → bp_events p' = bp_events p → bp_events_open p' = bp_events_open p →
  bp_faulted p' = bp_faulted p → (∀ o, orphan_alive o p → orphan_alive o p') → is_active p' = true →
  unsealed p' = unsealed p → bp_run p' = bp_run p ∨ unsealed p = false → served mode p'.
Proof.
  intros (Hb & Ef & Ea & o & Eo & Hal) E1 E2 E3 E4 E5 E6 E7 E8.
  assert (base mode p') as Hb'.
  { destruct Hb as [B1 B2 B3 B4 B5 B6 B7 B8]. split; unfold seals, faults in *; rewrite ?E1, ?E2, ?E3, ?E4, ?E7; try done.
    destruct E8 as [E8|E8]; [by rewrite E8|]. unfold unsealed in E7, E8. unfold is_active in E6. destruct (bp_run p'); [done|].
    intros _. by rewrite E7, E8. }
  split_and!; [done|congruence|done|]. exists o. rewrite E1. by split; [|apply E5].
Qed.

Lemma om_set_messages_inv q o : orphan_inv o → orphan_inv (om_set_messages q o).
Proof. intros [[] Hm]. by split; [split|]. Qed.

(** Sending to the orphan manager. *)
Lemma orphan_send_spec message o :
  orphan_inv o → om_shutdown o = false → om_control o ≠ OmInert →
  ∃ q sent, orphan_send message o = (om_set_messages q o, sent) ∧ orphan_inv (om_set_messages q o) ∧
    (sent = Ok tt → bq_items q = bq_items (om_messages o) ++ [message]) ∧ (∀ e, sent = Err e → q = om_messages o).
Proof.
  intros Ho _ _. unfold orphan_send. destruct (bq_try_send _ _ _) as [q sent] eqn:E. apply bq_try_send_spec in E.
  exists q, sent. split; [done|]. split; [by apply om_set_messages_inv|]. split.
  - intros ->. by destruct E.
  - intros e ->. done.
Qed.

Lemma served_orphan mode o p :
  served mode p → orphan_inv o → orphan_alive o p → served mode (bp_set_orphan (Some o) p).
Proof.
  intros (Hb & Ef & Ea & _) Ho Hal. split_and!; [|done..|by exists o].
  apply (base_frame _ p); try done. by intros o' [= <-].
Qed.

(** The outcome of [deliver_persisted] in service. *)
Record delivered (block : ValidatedNodeBlock) (mode : RecoveryMode) p p' (fault : option ComponentFault) : Prop := {
  dv_served : served mode p';
  dv_frame : bp_control p' = bp_control p ∧ bp_run p' = bp_run p ∧ bp_ports p' = bp_ports p ∧ bp_events p' = bp_events p ∧
             bp_events_open p' = bp_events_open p ∧ bp_overlap p' = bp_overlap p ∧ bp_faulted p' = bp_faulted p;
  dv_messages : ∃ o q, bp_orphan p = Some o ∧ bp_orphan p' = Some (om_set_messages q o) ∧
                  (fault = None → bq_items q = bq_items (om_messages o) ++ [BlockPersisted (vnb_hash block)])
}.

Lemma deliver_persisted_spec mode block id p :
  served mode p → ∃ p' fault, deliver_persisted block id p = Some (p', fault) ∧ delivered block mode p p' fault.
Proof.
  intros Hs. pose proof Hs as (Hb & Ef & Ea & o & Eo & Hal). unfold deliver_persisted.
  destruct (bq_try_send _ _ (bp_persisted p)) as [qp sentp]. simpl. rewrite Eo. run_bind.
  destruct (orphan_send_spec (BlockPersisted (vnb_hash block)) o) as (q & sent & -> & Ho & Hok & _);
    [by apply (bb_orphan _ _ Hb)|apply Hal..|].
  assert (served mode (bp_set_orphan (Some (om_set_messages q o)) (bp_set_persisted qp p))) as Hs'.
  { apply served_orphan; [|done|done]. apply (served_keep _ p); try done. by left. }
  eexists _, _. split; [done|]. split; [done|by split_and!|]. exists o, q. split_and!; try done.
  intros Hn. apply Hok. destruct sent as [[]|]; [done|]. destruct sentp; done.
Qed.

Lemma record_source_served mode h source p : served mode p → served mode (record_source h source p).
Proof.
  intros Hs. pose proof Hs as (_ & _ & Ea & _). unfold record_source. destruct (bp_run p) as [|[| |] sources emit] eqn:Er; try done.
  destruct source; try done; (case_match; (apply (served_keep _ p); try done; unfold unsealed; simpl; rewrite Er; [done|by right])).
Qed.

Lemma finish_block_started mode block source fault p :
  served mode p → bp_control p ≠ BpHeld → started mode (finish_block block source fault p).
Proof.
  intros Hs Hc. pose proof Hs as (Hb & Ef & _). destruct fault as [f|]; simpl.
  - apply enter_fault_started; [done..|congruence].
  - apply served_top; [|done]. pose proof (record_source_served mode (vnb_hash block) source p Hs) as (Hb' & E1 & E2 & E3).
    split_and!; try done. by apply (base_keep _ (record_source (vnb_hash block) source p)).
Qed.

Lemma served_control mode c p : served mode p → served mode (bp_set_control c p).
Proof. intros (Hb & Ef & Ea & Ho). split_and!; try done. by apply (base_keep _ p). Qed.

Lemma handle_block_started mode block source p :
  served mode p → bp_control p = BpTop → started mode (handle_block block source p).
Proof.
  intros Hs Hc. pose proof Hs as (Hb & Ef & Ea & Ho). unfold handle_block. destruct (bp_run p) eqn:Er; [by apply served_top|].
  case_match; [by apply served_top|]. split.
  - by apply (base_keep _ p).
  - simpl. by apply (served_in_service mode).
  - done.
  - done.
Qed.

Lemma answer_presence_started mode block source answer p :
  served mode p → bp_control p = BpPresence block source →
  ∃ p', answer_presence block source answer p = Some p' ∧ started mode p'.
Proof.
  intros Hs Hc. pose proof Hs as (Hb & Ef & Ea & Ho). unfold answer_presence. destruct answer as [presence|e].
  2: { eexists. split; [done|]. apply enter_fault_started; [done|by rewrite Hc|congruence]. }
  unfold is_active in Ea. destruct (bp_run p) as [|stage sources emit] eqn:Er; [done|].
  destruct (filtered _ _ _ _ _). { eexists. split; [done|]. by apply served_top; [apply served_control|]. }
  destruct presence as [|id|id coordinate].
  - unfold materialize_begin. rewrite Er. eexists. split; [done|]. split.
    + by apply (base_keep _ p).
    + unfold control_ok. simpl. split; [by apply (served_in_service mode)|]. rewrite Er. unfold plan, pre_seal.
      destruct stage as [[s|]| |]; simpl; try done. by case_decide; case_bool_decide.
    + done.
    + done.
  - eexists. split; [done|]. apply finish_block_started; [done|by rewrite Hc].
  - destruct (deliver_persisted_spec mode block id p Hs) as (p' & fault & -> & [H1 (H2 & _) _]). run_bind.
    eexists. split; [done|]. apply finish_block_started; [done|by rewrite H2, Hc].
Qed.

(** Sealing: the milestone is sent as the stage changes. *)
Lemma seal_served mode sources emit stage p :
  served mode p → bp_run p = Active stage sources emit → pre_seal stage = true → mode = Rebuild →
  let '(p', sent) := send_event PpBoundarySealed (bp_set_run (Active (Synchronizing PostSeal) sources emit) p) in
  served mode p'.
Proof.
  intros ([B1 B2 B3 B4 B5 B6 B7 B8] & Ef & Ea & Ho) Er Hp Hm.
  assert (seals p = 0%nat) as H0 by (apply B4; right; unfold unsealed; by rewrite Er).
  unfold send_event. simpl. destruct (bp_events_open p) eqn:Eo; (split_and!; [|done..]);
    split; unfold seals, faults, unsealed in *; simpl; rewrite ?seals_snoc, ?faults_snoc; simpl; rewrite ?Nat.add_0_r; try done; try lia;
    try (intros; congruence); try (intros [->|?]; done).
Qed.

Lemma answer_materialize_started mode block source sealing policy a p :
  started mode p → bp_control p = BpMaterializing block source sealing policy →
  ∃ p', answer_materialize block source sealing a p = Some p' ∧ started mode p'.
Proof.
  intros Hst Hc. pose proof (bs_control _ _ Hst) as Hco. unfold control_ok in Hco. rewrite Hc in Hco. destruct Hco as [Hsv Hplan].
  pose proof (in_service_served _ _ Hst Hsv) as Hs. pose proof Hs as (Hb & Ef & Ea & o & Eo & Hal).
  assert (∃ p' fault, materialize_end block sealing a p = Some (p', fault) ∧ served mode p' ∧ bp_control p' = bp_control p)
    as (p' & fault & E & Hs' & Ec).
  2: { unfold answer_materialize. rewrite E. run_bind. eexists. split; [done|].
       apply finish_block_started; [done|by rewrite Ec, Hc]. }
  unfold materialize_end. destruct (bp_run p) as [|stage sources emit] eqn:Er; [done|].
  destruct (ma_outcome a) as [[committed|id coordinate]|[e|h|missing [|h identity_only]]].
  - destruct (pre_seal stage && _) eqn:Esup; [by eexists _, _|].
    destruct (deliver_persisted_spec mode block (bc_id committed) p Hs) as (p1 & f1 & -> & [H1 (H2 & H3 & _) _]). run_bind.
    destruct sealing; [|by eexists _, _]. assert (pre_seal stage = true) as Hpre.
    { unfold plan in Hplan. unfold pre_seal. destruct stage as [[s|]| |]; simpl; try done. }
    assert (mode = Rebuild) as Hm.
    { pose proof (bb_mode _ _ Hb) as Hm. rewrite Er in Hm. destruct mode; [|done]. rewrite Hm in Hpre; done. }
    pose proof (seal_served mode sources emit stage p1 H1) as Hseal. rewrite H3, Er in Hseal. specialize (Hseal eq_refl Hpre Hm).
    unfold send_event in *. simpl in *. destruct (bp_events_open p1); by eexists _, _.
  - destruct (deliver_persisted_spec mode block id p Hs) as (p1 & f1 & -> & [H1 (H2 & _) _]). by eexists _, _.
  - by eexists _, _.
  - by eexists _, _.
  - destruct (permits_orphans stage); [|by eexists _, _]. rewrite Eo. run_bind.
    destruct (orphan_send_spec (AddOrphan block missing) o) as (q & sent & -> & Ho & _); [by apply (bb_orphan _ _ Hb)|apply Hal..|].
    eexists _, _. split; [done|]. split; [|done]. by apply served_orphan.
  - by eexists _, _.
Qed.

Lemma handle_resolution_started mode e p :
  served mode p → bp_control p = BpTop → started mode (handle_resolution e p).
Proof.
  intros Hs Hc. pose proof Hs as (Hb & Ef & _).
  assert (∀ f, started mode (enter_fault f p)) as Hf by (intros f; apply enter_fault_started; [done|by rewrite Hc|congruence]).
  destruct e as [block|h [block|error]]; simpl; [by apply handle_block_started| |by apply Hf].
  case_decide; [by apply Hf|by apply handle_block_started].
Qed.

(** Taking from the mailboxes in service: a child fault taken is handled at
    once, anything else leaves the fault path alone. *)
Lemma served_inputs mode n s p : served mode p → served mode (bp_set_inputs n s p).
Proof. intros Hs. pose proof Hs as (_ & _ & Ea & _). apply (served_keep _ p); try done. by left. Qed.

Lemma served_resolution mode q p :
  served mode p → served mode (bp_set_ports (MkPorts q (pt_faults (bp_ports p))) p).
Proof. intros Hs. pose proof Hs as (_ & _ & Ea & _). apply (served_keep _ p); try done. by left. Qed.

Lemma active_turn_started mode p :
  served mode p → bp_control p = BpTop → started mode (active_turn p).1.
Proof.
  intros Hs Hc. pose proof Hs as (Hb & Ef & Ea & Ho). unfold active_turn.
  destruct (pt_faults (bp_ports p)) as [|fault fs] eqn:Efs.
  - destruct (bq_try_recv (pt_resolution (bp_ports p))) as [[e q]|]; simpl.
    { apply handle_resolution_started; [|done]. rewrite <-Efs. by apply served_resolution. }
    destruct (bq_try_recv (bp_notifications p)) as [[b n]|]; simpl; [by apply handle_block_started; [apply served_inputs|]|].
    destruct (bq_try_recv (bp_synthetic p)) as [[b n]|]; simpl; [by apply handle_block_started; [apply served_inputs|]|].
    by apply served_top.
  - simpl. apply enter_fault_started; [by apply (base_keep _ p)|simpl; by rewrite Hc|simpl; congruence].
Qed.

Lemma discard_turn_started mode p :
  started mode p → bp_control p = BpTop → bp_faulted p || negb (is_active p) = true → started mode (discard_turn p).1.
Proof.
  intros Hst Hc Hn.
  assert (∀ p', base mode p' → bp_control p' = BpTop → bp_faulted p' = bp_faulted p → bp_run p' = bp_run p →
            bp_orphan p' = bp_orphan p → bp_events p' = bp_events p → started mode p') as Hk.
  { intros p' Hb Ec Ef Er Eo Ee. split; [done|by unfold control_ok; rewrite Ec| |].
    - intros (A & B & _). unfold is_active in B. rewrite Ef in A. rewrite Er in B. unfold is_active in Hn. rewrite A, B in Hn. done.
    - intros Hf Hz _. rewrite Eo. apply (bs_gone _ _ Hst); [congruence|unfold faults in *; congruence|done]. }
  unfold discard_turn. destruct (bq_try_recv (bp_notifications p)) as [[? n]|];
    [by apply Hk; [apply (base_keep _ p); [apply Hst|..]|..]|].
  destruct (bq_try_recv (bp_synthetic p)) as [[? n]|]; [by apply Hk; [apply (base_keep _ p); [apply Hst|..]|..]|].
  destruct (bq_try_recv (pt_resolution (bp_ports p))) as [[? n]|]; [by apply Hk; [apply (base_keep _ p); [apply Hst|..]|..]|].
  destruct (children_gone p); [done|]. destruct (pt_faults (bp_ports p)); [done|].
  by apply Hk; [apply (base_keep _ p); [apply Hst|..]|..].
Qed.

Lemma handle_command_started mode c p :
  started mode p → bp_control p = BpTop → started mode (handle_command c p).
Proof.
  intros Hst Hc. pose proof Hst as [Hb _ Hal Hg].
  assert (∀ f, started mode (enter_fault f p)) as Hf.
  { intros f. apply enter_fault_started; [done|by rewrite Hc|]. intros H1 H2. by apply Hg. }
  assert (∀ stage' sources' emit b, is_active p = true → pre_seal stage' = false → unsealed p = false →
    started mode (bp_set_overlap b (bp_set_run (Active stage' sources' emit) p))) as Hstage.
  { intros stage' sources' emit b Ha Hpre Hun. split.
    - destruct Hb as [B1 B2 B3 B4 B5 B6 B7 B8]. split; unfold seals, faults, unsealed in *; simpl in *; rewrite ?Hpre in *; try done; auto.
      rewrite Hun in B4. auto.
    - unfold control_ok. simpl. by rewrite Hc.
    - intros (A & B & C). apply Hal. split_and!; [done|done|by rewrite Hc].
    - intros H1 H2 H3. by apply Hg. }
  destruct c as [bound| |]; simpl.
  - destruct (bp_run p) as [|[[|]| |] sources emit] eqn:Er; try apply Hf.
    apply Hstage; [by unfold is_active; rewrite Er|done|by unfold unsealed; rewrite Er].
  - destruct (bp_run p) as [|[| |] sources emit] eqn:Er; try apply Hf.
    pose proof (Hstage Live sources emit (bp_overlap p)) as H. unfold bp_set_overlap, bp_set_run in H. simpl in H.
    apply H; [by unfold is_active; rewrite Er|done|by unfold unsealed; rewrite Er].
  - by apply shutdown_worker_started.
Qed.

Lemma block_turn_started mode p : started mode p → bp_control p = BpTop → started mode (block_turn p).1.
Proof.
  intros Hst Hc. pose proof Hst as [Hb _ Hal Hg]. unfold block_turn. destruct (bp_commands p) as [|c cs].
  2: { apply handle_command_started; [|done]. split; [by apply (base_keep _ p)|by unfold control_ok; simpl; rewrite Hc|done|done]. }
  destruct (negb (bp_commands_open p) && _) eqn:El; simpl; [by apply command_path_lost_started; [|rewrite Hc]|].
  destruct (bp_faulted p || negb (is_active p)) eqn:En; [by apply discard_turn_started|].
  apply orb_false_iff in En as [Ef Ea%negb_false_iff].
  assert (served mode p) as Hs by (apply in_service_served; [done|]; split_and!; [done|done|by rewrite Hc]).
  pose proof (active_turn_started mode p Hs Hc) as Hat. destruct (active_turn p) as [p' completed]. simpl in Hat.
  destruct completed; [done|]. destruct (negb (bp_commands_open p)); simpl; [by apply command_path_lost_started; [|rewrite Hc]|].
  destruct (children_gone p); simpl; [|done]. apply enter_fault_started; [done|by rewrite Hc|congruence].
Qed.

(** ** The other steps *)

(** What the owner and the consumers do around the worker. *)
Definition around p p' : Prop :=
  bp_control p' = bp_control p ∧ bp_orphan p' = bp_orphan p ∧ bp_ports p' = bp_ports p ∧ bp_run p' = bp_run p ∧
  bp_faulted p' = bp_faulted p ∧ bp_events p' = bp_events p ∧ (bp_events_open p' = true → bp_events_open p = true).

Lemma around_inv mode p p' : block_inv mode p → around p p' → block_inv mode p'.
Proof.
  intros Hi (E1 & E2 & E3 & E4 & E5 & E6 & E7). destruct Hi as [[H1 H2 H3 H4 H5 H6]|[[Hb Hc Ha Hg]|Hd]].
  - left. split; try congruence. by rewrite E4.
  - right; left. split.
    + by apply (base_keep _ p).
    + unfold control_ok, in_service, is_active in *. by rewrite E1, E2, E4, E5.
    + unfold in_service, is_active, orphan_alive in *. by rewrite E1, E2, E3, E4, E5.
    + unfold faults in *. by rewrite E1, E2, E5, E6.
  - right; right. unfold dropped in *. by rewrite E1, E2, E5, E6.
Qed.

Lemma start_inv mode p : held mode p → ∃ p' r, start p = Some (p', r) ∧ started mode p'.
Proof.
  intros [H1 H2 H3 H4 H5 H6]. unfold start, startup. destruct (bp_run p) as [m|stage sources emit] eqn:Er; run_bind.
  { eexists _, _. split; [done|]. subst m. split; [|done|by intros (_ & E & _); unfold is_active in E; simpl in E; rewrite Er in E|simpl; congruence].
    split; unfold seals, faults, unsealed; simpl; rewrite ?H4, ?Er; simpl; try done; try lia; try congruence.
    intros o. rewrite H2. intros [= <-]. apply OrphanManager_new_inv. }
  destruct H6 as ([phase ->] & -> & Hres & Hreb). rewrite H2. run_bind.
  assert (∀ p', bp_control p' = BpTop → bp_orphan p' = Some (orphan_start OrphanManager_new) → bp_run p' = bp_run p →
    base mode p' → (faults p' = 0%nat) → started mode p') as Hk.
  { intros p' Ec Eo Er' Hb Hz. split; [done|by unfold control_ok; rewrite Ec| |congruence].
    intros _. exists (orphan_start OrphanManager_new). by split. }
  unfold send_event. destruct emit; simpl.
  - assert (mode = Rebuild ∧ unsealed p = false) as [Hm Hun].
    { unfold unsealed. rewrite Er. destruct mode; [by destruct (Hres eq_refl)|]. specialize (Hreb eq_refl).
      by destruct (pre_seal (Synchronizing phase)). }
    destruct (bp_events_open p) eqn:Eo; simpl; eexists _, _; (split; [done|]); apply Hk; try done;
      try (split; unfold seals, faults in *; simpl; rewrite ?H4; simpl; try done; try lia; try congruence);
      try (by unfold faults; simpl; rewrite H4); try (intros o [= <-]; apply orphan_start_inv);
      try (intros [?|?]; [congruence|unfold unsealed in *; simpl in *; congruence]).
    all: rewrite Er; intros Hr; by destruct (Hres Hr).
  - eexists _, _. split; [done|]. apply Hk; try done; [|by unfold faults; simpl; rewrite H4].
    split; unfold seals, faults in *; simpl; rewrite ?H4; simpl; try done; try lia; try congruence.
    + intros o [= <-]. apply orphan_start_inv.
    + rewrite Er. intros Hr. by destruct (Hres Hr).
    + intros _ Hm Hun. exfalso. unfold unsealed in Hun. simpl in Hun. rewrite Er in Hun. specialize (Hreb Hm).
      by rewrite Hun in Hreb.
Qed.

Lemma block_initialize_inv {NetworkId} `{EqDecision NetworkId} mode (g : BlockGenerations NetworkId) i p :
  held mode p → held mode (initialize g i p).1.
Proof.
  intros Hh. pose proof Hh as [H1 H2 H3 H4 H5 H6]. unfold initialize. destruct (bp_run p) as [m|] eqn:Er; [|done]. subst m.
  rewrite H3. case_decide; [done|]. case_decide; [done|]. case_match; [done|]. split; try done. simpl.
  split; [|split; [done|]]; [by case_match; eexists|]. case_bool_decide as Hr; case_bool_decide as Hg; simpl; split; congruence || done.
Qed.

Lemma barrier_turn_inv mode branch after p :
  started mode p → bp_control p = BpBarrier after → ∃ p', barrier_turn branch after p = Some p' ∧ started mode p'.
Proof.
  intros Hst Hc. pose proof Hst as [Hb Hco Ha Hg]. unfold control_ok in Hco. rewrite Hc in Hco.
  destruct Hco as [(o & Eo & Esh & Eni) Hf].
  assert (∀ ports, started mode (bp_set_ports ports p)) as Hk.
  { intros ports. split; [by apply (base_keep _ p)| | |].
    - unfold control_ok. simpl. rewrite Hc. split; [by exists o|done].
    - intros (_ & _ & E). simpl in E. by rewrite Hc in E.
    - simpl. congruence. }
  destruct branch; simpl.
  - rewrite Eo. run_bind. destruct (om_control o) eqn:Eoc; try (exists p; by split). eexists. split; [done|].
    pose proof (oc_control _ (om_core _ (bb_orphan _ _ Hb _ Eo))) as Hx. rewrite Eoc in Hx. destruct Hx as (-> & _).
    apply after_barrier_started; [by apply (base_gone _ p)|done|done].
  - destruct (bq_try_recv _) as [[? q]|]; eexists; (split; [done|]); [apply Hk|done].
  - eexists. split; [done|]. apply Hk.
Qed.

Lemma orphan_event_inv mode ev p o :
  block_inv mode p → bp_orphan p = Some o →
  match orphan_step ev o (bp_ports p) with
  | None => U64_MAX ≤ omm_threshold_crossings (om_metrics o)
  | Some (o', ports) => block_inv mode (bp_set_ports ports (bp_set_orphan (Some o') p))
  end.
Proof.
  intros Hi Eo. assert (orphan_inv o) as Ho.
  { destruct Hi as [[]|[[Hb _ _ _]|(_ & E & _)]]; [|by apply (bb_orphan _ _ Hb)|congruence].
    assert (o = OrphanManager_new) as -> by congruence. apply OrphanManager_new_inv. }
  pose proof (orphan_step_effects ev o (bp_ports p) Ho) as He. destruct (orphan_step ev o (bp_ports p)) as [[o' ports]|]; [|done].
  destruct He as [E1 E2 E3 E4 E5 (fs & E6 & E7) E8].
  assert (om_control o = OmInert → bp_set_ports ports (bp_set_orphan (Some o') p) = p) as Hsame.
  { intros Hin. destruct (E4 Hin) as [-> ->]. rewrite <-Eo. by destruct p. }
  destruct Hi as [Hh|[[Hb Hc Ha Hg]|(_ & E & _)]]; [|right; left|congruence].
  { left. rewrite Hsame; [done|]. destruct Hh as [_ Eo' _ _ _ _]. rewrite Eo in Eo'. by injection Eo' as ->. }
  split.
  - apply (base_frame _ p); try done. by intros o1 [= <-].
  - unfold control_ok in *. simpl. unfold in_service in *. simpl. destruct (bp_control p); try done.
    destruct Hc as [(o1 & Eo1 & Esh & Eni) Hf]. assert (o1 = o) as -> by congruence. split; [|done].
    exists o'. split_and!; [done|congruence|by apply E3].
  - intros Hs. destruct (Ha Hs) as (o1 & Eo1 & A1 & A2 & A3). assert (o1 = o) as -> by congruence.
    exists o'. split; [done|]. split_and!; [congruence|by apply E3|]. simpl. intros Hf. rewrite E6.
    destruct (E7 Hf) as [Hf'|[Hf'|Hf']]; [|congruence|].
    + intros [Hz _]%app_eq_nil. by apply A3.
    + by intros [_ Hz]%app_eq_nil.
  - simpl. intros H1 H2 H3. rewrite (Hg H1 H2 H3) in Eo. done.
Qed.

Lemma block_step_inv mode ev p :
  block_inv mode p →
  match block_step ev p with
  | None => ∃ o, bp_orphan p = Some o ∧ U64_MAX ≤ omm_threshold_crossings (om_metrics o)
  | Some p' => block_inv mode p'
  end.
Proof.
  intros Hi. destruct ev as [N HN g i| |block|block|c| | | | | |answer|a|branch|ev]; simpl;
    try (by apply (around_inv mode p)).
  - destruct (bp_control p) eqn:Ec; try done.
    destruct Hi as [Hh|[[_ Hc _ _]|(E & _)]]; [left; by apply block_initialize_inv|unfold control_ok in Hc; by rewrite Ec in Hc|congruence].
  - destruct (bp_control p) eqn:Ec; try done.
    destruct Hi as [Hh|[[_ Hc _ _]|(E & _)]]; [|unfold control_ok in Hc; by rewrite Ec in Hc|congruence].
    destruct (start_inv mode p Hh) as (p' & r & -> & Hst). run_bind. by right; left.
  - assert (block_inv mode (if bp_commands_open p then bp_set_commands (bp_commands p ++ [c]) p else p)) as Hcmd.
    { destruct (bp_commands_open p); [by apply (around_inv mode p)|done]. }
    destruct c, (bp_control p) eqn:Ec; try done. right; right.
    destruct Hi as [[H1 H2 H3 H4 H5 H6]|[[_ Hc _ _]|(E & _)]]; [|unfold control_ok in Hc; by rewrite Ec in Hc|congruence].
    by split_and!.
  - destruct (bq_try_recv _) as [[? q]|]; by apply (around_inv mode p).
  - destruct (bp_control p) eqn:Ec; try done.
    destruct Hi as [[]|[Hst|(E & _)]]; [congruence|right; left; by apply block_turn_started|congruence].
  - destruct (bp_control p) eqn:Ec; try done.
    destruct Hi as [[]|[Hst|(E & _)]]; [congruence| |congruence].
    pose proof (bs_control _ _ Hst) as Hco. unfold control_ok in Hco. rewrite Ec in Hco.
    destruct (answer_presence_started mode block source answer p (in_service_served _ _ Hst Hco) Ec) as (p' & -> & ?). by right; left.
  - destruct (bp_control p) eqn:Ec; try done.
    destruct Hi as [[]|[Hst|(E & _)]]; [congruence| |congruence].
    destruct (answer_materialize_started mode _ _ _ _ a p Hst Ec) as (p' & -> & ?). by right; left.
  - destruct (bp_control p) eqn:Ec; try done.
    destruct Hi as [[]|[Hst|(E & _)]]; [congruence| |congruence].
    destruct (barrier_turn_inv mode branch _ p Hst Ec) as (p' & -> & ?). by right; left.
  - destruct (bp_orphan p) as [o|] eqn:Eo; [|done]. pose proof (orphan_event_inv mode ev p o Hi Eo) as H.
    destruct (orphan_step ev o (bp_ports p)) as [[o' ports]|]; run_bind; [done|]. by exists o.
Qed.
End block_safety.
