(* ===== verification/BlockSession.v ===== *)
(** The block processor in a session: every interleaving of its worker, its
    children, its owner and its inputs, with the materialized hashes of the
    database and the blocks handed to the orphan manager as ghost state.

    The central invariant says where every orphaned block is, and that no
    stored orphan waits for a materialized block it will not be told of. *)

From S2P Require Import Prelude Model Faults Channel Ingress Resolver Orphan OrphanWorker.
From S2P Require Import BlockWorker OrphanWorkerSafety BlockSafety.

#[local] Open Scope N_scope.

Section block_session.
Context {KH : KaspaHash}.
Implicit Types (p : BlockProcessorWorker) (o : OrphanManagerWorker) (M : gset BlockHash) (t : OrphanTopology).

(** * The session *)

Record BlockSession := MkBlockSession {
  bs_worker : BlockProcessorWorker;
  bs_materialized : gset BlockHash;
  bs_orphaned : gset BlockHash
}.

(** What storage guarantees of its answers, with no other writer. *)
Definition admissible (ev : BlockEvent) (w : BlockSession) : Prop :=
  match ev, bp_control (bs_worker w) with
  | EvPresence (Ok presence), BpPresence block _ =>
    match presence with Materialized _ _ => vnb_hash block ∈ bs_materialized w | _ => vnb_hash block ∉ bs_materialized w end
  | EvMaterialize a, BpMaterializing block _ _ _ =>
    match ma_outcome a with
    | Ok (AlreadyMaterialized _ _) => vnb_hash block ∈ bs_materialized w
    | Err (NonMaterializedReferences missing identity_only) =>
      (missing ≠ [] ∨ identity_only ≠ []) ∧ ∀ d, d ∈ missing → d ∉ bs_materialized w
    | _ => True
    end
  | _, _ => True
  end.

(** The ghost state after a step to [p]. *)
Definition advance (ev : BlockEvent) (w : BlockSession) p : BlockSession :=
  match ev, bp_control (bs_worker w) with
  | EvStart, BpHeld => MkBlockSession p (bs_materialized w) ∅
  | EvMaterialize a, BpMaterializing block _ _ _ =>
    match ma_outcome a with
    | Ok (Inserted _) => MkBlockSession p ({[vnb_hash block]} ∪ bs_materialized w) (bs_orphaned w)
    | Err (NonMaterializedReferences _ []) =>
      if bp_faulted p then MkBlockSession p (bs_materialized w) (bs_orphaned w)
      else MkBlockSession p (bs_materialized w) ({[vnb_hash block]} ∪ bs_orphaned w)
    | _ => MkBlockSession p (bs_materialized w) (bs_orphaned w)
    end
  | _, _ => MkBlockSession p (bs_materialized w) (bs_orphaned w)
  end.

Inductive session_reachable (mode : RecoveryMode) : BlockSession → Prop :=
  | session_start M : session_reachable mode (MkBlockSession (BlockProcessor_new mode) M ∅)
  | session_next ev w p :
      session_reachable mode w → admissible ev w → block_step ev (bs_worker w) = Some p →
      session_reachable mode (advance ev w p).

Lemma advance_worker ev w p : bs_worker (advance ev w p) = p.
Proof. unfold advance. repeat case_match; done. Qed.

Lemma session_block_inv mode w : session_reachable mode w → block_inv mode (bs_worker w).
Proof.
  induction 1 as [M|ev w p _ IH _ E]; [apply BlockProcessor_new_inv|]. rewrite advance_worker.
  pose proof (block_step_inv mode ev _ IH) as H. by rewrite E in H.
Qed.

(** * Where orphaned blocks are *)

(** Messages and stored orphans against the materialized hashes: whatever is
    still missed and materialized will be announced. *)
Record flow M (Q : list OrphanMessage) t : Prop := {
  fl_sent : ∀ pre block missing post d, Q = pre ++ AddOrphan block missing :: post → d ∈ missing → d ∈ M → BlockPersisted d ∈ post;
  fl_stored : ∀ h e d, orphans t !! h = Some e → d ∈ oe_missing e → d ∈ M → BlockPersisted d ∈ Q;
  fl_persisted : ∀ h, BlockPersisted h ∈ Q → h ∈ M
}.

Lemma flow_topology M Q t t' : flow M Q t → orphans t' = orphans t → flow M Q t'.
Proof. intros [F1 F2 F3] E. split; try done. by rewrite E. Qed.

Lemma flow_served M message rest t :
  flow M (message :: rest) t → topology_inv t → message_accepted message t → flow M rest (message_topology message t).1.
Proof.
  intros [F1 F2 F3] Ht Hacc. split.
  - intros pre block missing post d E. apply (F1 (message :: pre) block missing post d). by rewrite E.
  - intros h e d He Hd HM. destruct message as [block missing|x]; simpl in *.
    + destruct Hacc as [mu Hmu]. destruct (add_orphan block missing t) as [t' r] eqn:E. simpl in *. subst r.
      destruct (add_orphan_flow _ _ _ _ _ E) as (_ & _ & Hold & _). destruct (Hold h e He) as [He'|[-> Em]].
      * by destruct (proj1 (elem_of_cons _ _ _) (F2 h e d He' Hd HM)) as [?|?].
      * apply (F1 [] block missing rest d); [done| |done]. rewrite Em in Hd. by apply elem_of_list_to_set in Hd.
    + pose proof (block_persisted_flow x t Ht) as Hf. destruct (block_persisted x t) as [t' mu]. simpl in *.
      destruct Hf as [Hf _]. destruct (Hf h e He) as (e0 & He0 & Hsub & Hx).
      destruct (proj1 (elem_of_cons _ _ _) (F2 h e0 d He0 (Hsub _ Hd) HM)) as [[= ->]|?]; [|done]. done.
  - intros h Hh. apply F3. by right.
Qed.

Lemma flow_persist M Q t h : flow M Q t → flow ({[h]} ∪ M) (Q ++ [BlockPersisted h]) t.
Proof.
  intros [F1 F2 F3]. split.
  - intros pre block missing post d E Hd HM.
    destruct post as [|m post _] using rev_ind; [apply app_inj_tail in E as [_ E]; done|].
    rewrite app_comm_cons, app_assoc in E. apply app_inj_tail in E as [E <-]. apply elem_of_app.
    destruct (decide (d = h)) as [->|Hn]; [right; left|left]. apply (F1 pre block missing post d E Hd). set_solver.
  - intros x e d He Hd HM. apply elem_of_app. destruct (decide (d = h)) as [->|Hn]; [right; left|left].
    apply (F2 x e d He Hd). set_solver.
  - intros x [Hx%F3|[= ->]%list_elem_of_singleton]%elem_of_app; set_solver.
Qed.

Lemma flow_persist_known M Q t h : flow M Q t → h ∈ M → flow M (Q ++ [BlockPersisted h]) t.
Proof. intros Hf Hh. pose proof (flow_persist M Q t h Hf) as H. by replace ({[h]} ∪ M) with M in H by set_solver. Qed.

Lemma flow_orphan M Q t block missing :
  flow M Q t → (∀ d, d ∈ missing → d ∉ M) → flow M (Q ++ [AddOrphan block missing]) t.
Proof.
  intros [F1 F2 F3] Hm. split.
  - intros pre b ms post d E Hd HM. destruct post as [|m post _] using rev_ind.
    { apply app_inj_tail in E as [_ [= -> ->]]. by destruct (Hm d Hd). }
    rewrite app_comm_cons, app_assoc in E. apply app_inj_tail in E as [E <-]. apply elem_of_app. left. by apply (F1 pre b ms post d).
  - intros x e d He Hd HM. apply elem_of_app. left. by apply (F2 x e d).
  - intros x [Hx|Hx%list_elem_of_singleton]%elem_of_app; [by apply F3|done].
Qed.

(** The block the worker is busy with. *)
Definition processing p : option (ValidatedNodeBlock * BlockSource) :=
  match bp_control p with
  | BpPresence block source | BpMaterializing block source _ _ => Some (block, source)
  | _ => None
  end.

(** Materialized, on its way to the manager, stored, released, or back at work. *)
Definition placed M (Q : list OrphanMessage) t (R : list BlockResolutionEvent)
    (busy : option (ValidatedNodeBlock * BlockSource)) (h : BlockHash) : Prop :=
  h ∈ M ∨ (∃ block missing, AddOrphan block missing ∈ Q ∧ vnb_hash block = h) ∨ is_Some (orphans t !! h) ∨
  (∃ block, OrphanReady block ∈ R ∧ vnb_hash block = h) ∨ (∃ block, busy = Some (block, Resolution) ∧ vnb_hash block = h).

Lemma placed_served M message rest t R busy h :
  (∀ x, BlockPersisted x ∈ message :: rest → x ∈ M) → topology_inv t → message_accepted message t →
  placed M (message :: rest) t R busy h →
  placed M rest (message_topology message t).1 (R ++ (OrphanReady <$> (message_topology message t).2)) busy h.
Proof.
  intros HM Ht Hacc. unfold placed. intros [?|[(block & missing & [<-|Hin]%elem_of_cons & Eh)|[Hs|[(b & Hb & Eh)|?]]]].
  - by left.
  - right; right; left. simpl in *. destruct Hacc as [mu Hmu]. destruct (add_orphan block missing t) as [t' r] eqn:E.
    simpl in *. subst r h. by destruct (add_orphan_flow _ _ _ _ _ E) as (_ & Hx & _).
  - right; left. by exists block, missing.
  - destruct message as [block missing|x]; simpl in *.
    + right; right; left. destruct Hacc as [mu Hmu]. destruct (add_orphan block missing t) as [t' r] eqn:E. simpl in *. subst r.
      destruct (add_orphan_flow _ _ _ _ _ E) as (_ & _ & _ & Hx). by apply Hx.
    + pose proof (block_persisted_flow x t Ht) as Hf. destruct (block_persisted x t) as [t' mu]. simpl in *.
      destruct Hf as [_ Hf], Hs as [e He]. destruct (Hf h e He) as [->|[Hx|(b & Hb & Eh)]].
      * left. apply HM. left.
      * by right; right; left.
      * right; right; right; left. exists b. split; [|done]. apply elem_of_app. right. by apply list_elem_of_fmap_2.
  - right; right; right; left. exists b. split; [|done]. apply elem_of_app. by left.
  - by right; right; right; right.
Qed.

Lemma placed_mono M M' Q Q' t t' R R' busy h :
  M ⊆ M' → (∀ m, m ∈ Q → m ∈ Q') → orphans t' = orphans t → (∀ e, e ∈ R → e ∈ R') →
  placed M Q t R busy h → placed M' Q' t' R' busy h.
Proof. intros H1 H2 E H4. unfold placed. rewrite E. naive_solver. Qed.

(** The worker stops being busy with a block it disposed of. *)
Lemma placed_idle M Q t R busy h :
  placed M Q t R busy h → (∀ block, busy = Some (block, Resolution) → placed M Q t R None (vnb_hash block)) →
  placed M Q t R None h.
Proof. unfold placed. intros Hp Hb. destruct Hp as [?|[?|[?|[?|(block & Eb & <-)]]]]; eauto 10. Qed.

Definition session_flow (w : BlockSession) : Prop :=
  ∀ o, in_service (bs_worker w) → bp_orphan (bs_worker w) = Some o → om_state o = OmActive →
    flow (bs_materialized w) (bq_items (om_messages o)) (om_topology o) ∧
    ∀ h, h ∈ bs_orphaned w →
      placed (bs_materialized w) (bq_items (om_messages o)) (om_topology o)
        (bq_items (pt_resolution (bp_ports (bs_worker w)))) (processing (bs_worker w)) h.

(** * Steps that stay in service *)

Lemma shutdown_orphan_faulted after p : bp_faulted (shutdown_orphan after p) = bp_faulted p.
Proof. unfold shutdown_orphan. destruct (bp_orphan p) as [o|]; [destruct (om_control o)|]; by destruct after. Qed.

Lemma enter_fault_out after f p : ¬ in_service (enter_fault_then after f p).
Proof.
  apply not_in_service_faulted. unfold enter_fault_then. destruct (bp_faulted p) eqn:E; [done|].
  rewrite shutdown_orphan_faulted. unfold send_event. simpl. by destruct (bp_events_open p).
Qed.

Lemma shutdown_worker_out p : ¬ in_service (shutdown_worker p).
Proof.
  unfold shutdown_worker, shutdown_orphan. intros (_ & _ & H). destruct (bp_orphan _) as [o|]; [destruct (om_control o)|]; done.
Qed.

Lemma command_path_lost_out p : ¬ in_service (command_path_lost p).
Proof. unfold command_path_lost. case_match; [apply shutdown_worker_out|apply enter_fault_out]. Qed.

Definition resolutions p : list BlockResolutionEvent := bq_items (pt_resolution (bp_ports p)).

(** A turn leaves the orphan manager alone; a released block it takes it works on. *)
Definition turn_kept p p' : Prop :=
  bp_orphan p' = bp_orphan p ∧
  (resolutions p' = resolutions p ∨
   ∃ e, resolutions p = e :: resolutions p' ∧ ∀ block, e = OrphanReady block → processing p' = Some (block, Resolution)).

Lemma handle_block_kept block source p :
  bp_orphan (handle_block block source p) = bp_orphan p ∧ bp_ports (handle_block block source p) = bp_ports p.
Proof. unfold handle_block. destruct (bp_run p); [done|]. by case_match. Qed.

Lemma active_turn_kept p : is_active p = true → in_service (active_turn p).1 → turn_kept p (active_turn p).1.
Proof.
  intros Ha. unfold active_turn, turn_kept, resolutions. destruct (pt_faults (bp_ports p)) as [|f fs].
  2: { simpl. intros H. by apply enter_fault_out in H. }
  unfold bq_try_recv. destruct (bq_items (pt_resolution (bp_ports p))) as [|e es] eqn:Er.
  - destruct (bq_items (bp_notifications p)) as [|n ns]; simpl.
    + destruct (bq_items (bp_synthetic p)) as [|b bs]; simpl; intros _; [by rewrite Er; auto|].
      match goal with |- context [handle_block ?b ?s ?p] => destruct (handle_block_kept b s p) as [-> ->] end. simpl. rewrite Er. auto.
    + intros _. match goal with |- context [handle_block ?b ?s ?p] => destruct (handle_block_kept b s p) as [-> ->] end. simpl. rewrite Er. auto.
  - simpl. destruct e as [block|h [block|error]]; simpl; intros Hs.
    + match goal with |- context [handle_block ?b ?s ?p] => destruct (handle_block_kept b s p) as [-> ->] end. simpl.
      split; [done|]. right. exists (OrphanReady block). split; [done|]. intros b [= <-]. unfold handle_block, processing. simpl.
      unfold is_active in Ha. by destruct (bp_run p).
    + case_decide; [by apply enter_fault_out in Hs|].
      match goal with |- context [handle_block ?b ?s ?p] => destruct (handle_block_kept b s p) as [-> ->] end. simpl.
      split; [done|]. right. by eexists.
    + by apply enter_fault_out in Hs.
Qed.

Lemma discard_turn_frame p : bp_faulted (discard_turn p).1 = bp_faulted p ∧ bp_run (discard_turn p).1 = bp_run p.
Proof.
  unfold discard_turn. destruct (bq_try_recv (bp_notifications p)) as [[? ?]|]; [done|].
  destruct (bq_try_recv (bp_synthetic p)) as [[? ?]|]; [done|].
  destruct (bq_try_recv (pt_resolution (bp_ports p))) as [[? ?]|]; [done|].
  destruct (children_gone p); [done|]. by destruct (pt_faults (bp_ports p)).
Qed.

Lemma block_turn_kept p :
  bp_control p = BpTop → in_service (block_turn p).1 → in_service p ∧ turn_kept p (block_turn p).1.
Proof.
  intros Hc. unfold block_turn. destruct (bp_commands p) as [|c cs].
  2: { simpl. destruct c as [bound| |]; simpl; intros Hs.
       - destruct (bp_run p) as [|[[|]| |] sources emit] eqn:Er; try (by apply enter_fault_out in Hs).
         destruct Hs as (Hf & _). split; [split_and!; [done|by unfold is_active; rewrite Er|by rewrite Hc]|]. split; [done|by left].
       - destruct (bp_run p) as [|[| |] sources emit] eqn:Er; try (by apply enter_fault_out in Hs).
         destruct Hs as (Hf & _). split; [split_and!; [done|by unfold is_active; rewrite Er|by rewrite Hc]|]. split; [done|by left].
       - by apply shutdown_worker_out in Hs. }
  destruct (negb (bp_commands_open p) && _) eqn:El; simpl; [intros Hs; by apply command_path_lost_out in Hs|].
  destruct (bp_faulted p || negb (is_active p)) eqn:En.
  { intros (Hf & Ha & _). destruct (discard_turn_frame p) as [E1 E2]. unfold is_active in *. rewrite E1 in Hf. rewrite E2 in Ha.
    by rewrite Hf, Ha in En. }
  apply orb_false_iff in En as [Ef Ea%negb_false_iff].
  assert (in_service p) as Hs by (split_and!; [done|done|by rewrite Hc]).
  pose proof (active_turn_kept p Ea) as Hk. destruct (active_turn p) as [p' completed]. simpl in Hk.
  destruct completed; [by auto|]. destruct (negb (bp_commands_open p)); simpl; [intros H; by apply command_path_lost_out in H|].
  destruct (children_gone p); simpl; [intros H; by apply enter_fault_out in H|]. intros _. split; [done|]. split; [done|by left].
Qed.

Lemma finish_block_kept block source fault p :
  in_service (finish_block block source fault p) →
  fault = None ∧ bp_orphan (finish_block block source fault p) = bp_orphan p ∧
  bp_ports (finish_block block source fault p) = bp_ports p ∧ processing (finish_block block source fault p) = None.
Proof.
  destruct fault as [f|]; simpl; [intros H; by apply enter_fault_out in H|]. intros _. split; [done|].
  unfold record_source, processing. simpl. by destruct (bp_run p) as [|[| |] ? ?]; [|destruct source; try (case_match)..].
Qed.

(** What is sent to the manager by an answer that leaves the worker in service. *)
Definition announces p p' (message : OrphanMessage) : Prop :=
  ∃ o q, bp_orphan p = Some o ∧ bp_orphan p' = Some (om_set_messages q o) ∧
    bq_items q = bq_items (om_messages o) ++ [message].

Lemma announces_keep p p' p'' message : announces p p' message → bp_orphan p'' = bp_orphan p' → announces p p'' message.
Proof. intros (o & q & E1 & E2 & E3) E. exists o, q. by rewrite E. Qed.

Lemma delivered_announces block mode p p' : delivered block mode p p' None → announces p p' (BlockPersisted (vnb_hash block)).
Proof. intros [_ _ (o & q & E1 & E2 & E3)]. exists o, q. auto. Qed.

Lemma answer_presence_flow mode block source answer p p' :
  served mode p → bp_control p = BpPresence block source → answer_presence block source answer p = Some p' →
  in_service p' →
  bp_ports p' = bp_ports p ∧
  (source = Notification ∧ bp_orphan p' = bp_orphan p ∧ processing p' = None ∨
   bp_orphan p' = bp_orphan p ∧ processing p' = Some (block, source) ∨
   (∃ id coordinate, answer = Ok (Materialized id coordinate)) ∧ announces p p' (BlockPersisted (vnb_hash block)) ∧
     processing p' = None).
Proof.
  intros Hs Hc E Hin. unfold answer_presence in E. destruct answer as [presence|e].
  2: { injection E as <-. by apply enter_fault_out in Hin. }
  destruct (bp_run p) as [|stage sources emit] eqn:Er; [done|]. destruct (filtered _ _ _ _ _) eqn:Ef.
  { injection E as <-. split; [done|]. left. unfold filtered in Ef. by apply andb_true_iff in Ef as [->%bool_decide_eq_true _]. }
  destruct presence as [|id|id coordinate].
  - unfold materialize_begin in E. rewrite Er in E. injection E as <-. split; [done|]. right; left. done.
  - injection E as <-. by apply enter_fault_out in Hin.
  - destruct (deliver_persisted_spec mode block id p Hs) as (p1 & fault & E1 & Hd). rewrite E1 in E. injection E as <-.
    destruct (finish_block_kept _ _ _ _ Hin) as (-> & H1 & H2 & H3). pose proof (dv_frame _ _ _ _ _ Hd) as (_ & _ & Hp & _).
    split; [congruence|]. right; right. split; [by eexists _, _|]. split; [|done].
    eapply announces_keep; [by eapply delivered_announces|done].
Qed.

Lemma answer_materialize_flow mode block source sealing policy a p p' :
  started mode p → bp_control p = BpMaterializing block source sealing policy →
  answer_materialize block source sealing a p = Some p' → in_service p' →
  bp_ports p' = bp_ports p ∧ processing p' = None ∧ bp_faulted p' = false ∧
  ((∃ outcome, ma_outcome a = Ok outcome) ∧ announces p p' (BlockPersisted (vnb_hash block)) ∨
   ∃ missing, ma_outcome a = Err (NonMaterializedReferences missing []) ∧ announces p p' (AddOrphan block missing)).
Proof.
  intros Hst Hc E Hin. pose proof (bs_control _ _ Hst) as Hco. unfold control_ok in Hco. rewrite Hc in Hco. destruct Hco as [Hsv _].
  pose proof (in_service_served _ _ Hst Hsv) as Hs. pose proof Hs as (Hb & Ef & Ea & o & Eo & Hal).
  unfold answer_materialize in E. destruct (materialize_end block sealing a p) as [[p1 fault]|] eqn:Em; [|done].
  injection E as <-. destruct (finish_block_kept _ _ _ _ Hin) as (-> & H1 & H2 & H3).
  assert (bp_ports p1 = bp_ports p ∧
    ((∃ outcome, ma_outcome a = Ok outcome) ∧ announces p p1 (BlockPersisted (vnb_hash block)) ∨
     ∃ missing, ma_outcome a = Err (NonMaterializedReferences missing []) ∧ announces p p1 (AddOrphan block missing)))
    as [Hp Hm].
  2: { split_and!; [congruence|done|apply Hin|]. destruct Hm as [[? Hm]|(missing & ? & Hm)]; [left|right; exists missing];
         (split; [done|]); by eapply announces_keep. }
  clear H1 H2 H3 Hin. unfold materialize_end in Em. destruct (bp_run p) as [|stage sources emit]; [done|].
  destruct (ma_outcome a) as [[committed|id coordinate]|[e|h|missing [|h identity_only]]]; try done.
  - destruct (pre_seal stage && _); [done|]. destruct (deliver_persisted_spec mode block (bc_id committed) p Hs) as (p2 & f2 & E2 & Hd).
    rewrite E2 in Em. cbn [mbind option_bind] in Em. pose proof (dv_frame _ _ _ _ _ Hd) as (_ & _ & Hp & _). destruct sealing.
    + unfold send_event in Em. simpl in Em. destruct (bp_events_open p2); [|done]. injection Em as <- ->.
      split; [done|]. left. split; [by eexists|]. eapply announces_keep; [by eapply delivered_announces|done].
    + injection Em as -> ->. split; [done|]. left. split; [by eexists|]. by eapply delivered_announces.
  - destruct (deliver_persisted_spec mode block id p Hs) as (p2 & f2 & E2 & Hd). rewrite E2 in Em. injection Em as -> ->.
    pose proof (dv_frame _ _ _ _ _ Hd) as (_ & _ & Hp & _). split; [done|]. left. split; [by eexists|]. by eapply delivered_announces.
  - destruct (permits_orphans stage); [|done]. rewrite Eo in Em. cbn [mbind option_bind] in Em.
    destruct (orphan_send_spec (AddOrphan block missing) o) as (q & sent & E2 & _ & Hok & _); [by apply (bb_orphan _ _ Hb)|apply Hal..|].
    rewrite E2 in Em. destruct sent as [[]|]; [|done]. injection Em as <-. split; [done|]. right. exists missing. split; [done|].
    exists o, q. auto.
Qed.

(** * The flow is kept *)

Lemma advance_quiet ev w p :
  (∀ a, ev ≠ EvMaterialize a) → ev ≠ EvStart → advance ev w p = MkBlockSession p (bs_materialized w) (bs_orphaned w).
Proof. intros Hn Hs. unfold advance. destruct ev; try done. by destruct (Hn answer). Qed.

(** The same orphan manager and database: the flow moves with the mailbox. *)
Lemma session_flow_kept w p :
  session_flow w → (in_service p → in_service (bs_worker w)) → bp_orphan p = bp_orphan (bs_worker w) →
  (in_service p → ∀ M Q t h, placed M Q t (resolutions (bs_worker w)) (processing (bs_worker w)) h → placed M Q t (resolutions p) (processing p) h) →
  session_flow (MkBlockSession p (bs_materialized w) (bs_orphaned w)).
Proof.
  intros Hf Hs Eo Hp o Hin Ho Ha. simpl in *. rewrite Eo in Ho. destruct (Hf o (Hs Hin) Ho Ha) as [H1 H2].
  split; [done|]. intros h Hh. apply (Hp Hin). by apply H2.
Qed.

Lemma placed_turn p p' M Q t h :
  bp_control p = BpTop → turn_kept p p' →
  placed M Q t (resolutions p) (processing p) h → placed M Q t (resolutions p') (processing p') h.
Proof.
  intros Hc [_ HR]. assert (processing p = None) as -> by (unfold processing; by rewrite Hc).
  unfold placed. intros [?|[?|[?|[(b & Hb & Eh)|(b & ? & _)]]]]; [by left|by right; left|by right; right; left| |done].
  right; right; right. destruct HR as [->|(e & He & Hbusy)]; [left; by exists b|]. rewrite He in Hb.
  apply elem_of_cons in Hb as [<-|Hb]; [right|left; by exists b]. exists b. split; [by apply Hbusy|done].
Qed.

Lemma session_flow_announced w p M' O' message :
  session_flow w → in_service (bs_worker w) → bp_ports p = bp_ports (bs_worker w) →
  announces (bs_worker w) p message → bs_materialized w ⊆ M' →
  (∀ Q t, flow (bs_materialized w) Q t → flow M' (Q ++ [message]) t) →
  (∀ block, processing (bs_worker w) = Some (block, Resolution) →
     ∀ Q t R, placed M' (Q ++ [message]) t R None (vnb_hash block)) → processing p = None →
  (∀ h, h ∈ O' → h ∈ bs_orphaned w ∨ ∀ Q t R, placed M' (Q ++ [message]) t R None h) →
  session_flow (MkBlockSession p M' O').
Proof.
  intros Hf Hs Ep (o & q & E1 & E2 & E3) HM Hflow Hbusy Hidle HO o' Hin Ho Ha. simpl in *.
  rewrite E2 in Ho. injection Ho as <-. destruct (Hf o Hs E1 Ha) as [H1 H2]. simpl. rewrite E3, Hidle, Ep. split; [by apply Hflow|].
  intros h Hh. destruct (HO h Hh) as [Hold|Hnew]; [|apply Hnew]. eapply placed_idle; [|intros b Hb; by apply Hbusy].
  eapply placed_mono; [exact HM| | | |by apply H2]; [intros m Hm; apply elem_of_app; by left|done|done].
Qed.

Lemma session_flow_orphan mode ev w o o' ports :
  block_inv mode (bs_worker w) → session_flow w → bp_orphan (bs_worker w) = Some o →
  orphan_step ev o (bp_ports (bs_worker w)) = Some (o', ports) →
  session_flow (MkBlockSession (bp_set_ports ports (bp_set_orphan (Some o') (bs_worker w))) (bs_materialized w) (bs_orphaned w)).
Proof.
  intros Hi Hf Eo E o1 Hin Ho Ha. simpl in Ho. injection Ho as <-. simpl.
  assert (in_service (bs_worker w)) as Hs by done.
  destruct Hi as [Hh|[Hst|(E1 & _)]]; [by destruct Hs as (_ & _ & H); rewrite (hd_control _ _ Hh) in H| |by destruct Hs as (_ & _ & H); rewrite E1 in H].
  destruct (bb_orphan _ _ (bs_base _ _ Hst) o Eo) as [Hoc Hom].
  pose proof (orphan_step_effects ev o (bp_ports (bs_worker w)) (Build_orphan_inv _ Hoc Hom)) as He. rewrite E in He.
  destruct (oe_move _ _ _ _ He) as [es Em Eor Es Er Hdep|message rest Hserv Em Erest Hserv' Hacc Eor Er|es Es Er].
  - destruct (Hf o Hs Eo) as [H1 H2]; [congruence|]. rewrite Em. split; [by eapply flow_topology|].
    intros h Hh. eapply placed_mono; [reflexivity|done|exact Eor| |by apply H2]. intros e Hin'. rewrite Er. apply elem_of_app. by left.
  - destruct (Hf o Hs Eo) as [H1 H2]; [apply Hserv|]. rewrite Em in H1, H2. rewrite Erest. split.
    + eapply flow_topology; [by apply (flow_served _ message); [|apply Hoc|]|done].
    + intros h Hh. pose proof (placed_served _ message rest _ _ _ h (fl_persisted _ _ _ H1) (oc_topology _ Hoc) Hacc (H2 h Hh)) as Hp.
      rewrite <-Er in Hp. eapply placed_mono; [reflexivity|done|exact Eor|done|exact Hp].
  - congruence.
Qed.

Lemma around_in_service p p' : around p p' → in_service p' → in_service p.
Proof. intros (E1 & E2 & E3 & E4 & E5 & _). unfold in_service, is_active. by rewrite E1, E4, E5. Qed.

Lemma session_flow_around w p :
  session_flow w → around (bs_worker w) p → session_flow (MkBlockSession p (bs_materialized w) (bs_orphaned w)).
Proof.
  intros Hf Ha. apply session_flow_kept; [done|by apply around_in_service|apply Ha|].
  destruct Ha as (E1 & _ & E3 & _). unfold processing, resolutions. by rewrite E1, E3.
Qed.

Lemma around_refl p : around p p.
Proof. by split_and!. Qed.

Lemma session_flow_intro w : (in_service (bs_worker w) → session_flow w) → session_flow w.
Proof. intros H o Hin. by apply H. Qed.

Lemma session_flow_presence mode block source answer w p :
  block_inv mode (bs_worker w) → session_flow w → bp_control (bs_worker w) = BpPresence block source →
  admissible (EvPresence answer) w → answer_presence block source answer (bs_worker w) = Some p →
  session_flow (MkBlockSession p (bs_materialized w) (bs_orphaned w)).
Proof.
  intros Hi Hf Hc Had E.
  destruct Hi as [Hh|[Hst|(E1 & _)]]; [by rewrite (hd_control _ _ Hh) in Hc| |by rewrite E1 in Hc].
  pose proof (bs_control _ _ Hst) as Hs. unfold control_ok in Hs. rewrite Hc in Hs.
  assert (processing (bs_worker w) = Some (block, source)) as Hbusy by (unfold processing; by rewrite Hc).
  apply session_flow_intro. intros Hin.
  destruct (answer_presence_flow mode _ _ _ _ _ (in_service_served _ _ Hst Hs) Hc E Hin) as [Ep Hcase].
  destruct Hcase as [(-> & Eo & Eidle)|[[Eo Eb]|((id & coordinate & ->) & Hann & Eidle)]].
  - apply session_flow_kept; [done|done|done|]. intros _ M Q t h Hp. unfold resolutions in *. rewrite Ep, Eidle.
    eapply placed_idle; [exact Hp|]. rewrite Hbusy. done.
  - apply session_flow_kept; [done|done|done|]. intros _ M Q t h Hp. unfold resolutions in *. by rewrite Ep, Eb, <-Hbusy.
  - unfold admissible in Had. rewrite Hc in Had. eapply session_flow_announced; try done.
    + intros Q t HF. by apply flow_persist_known.
    + intros b Hb Q t R. rewrite Hbusy in Hb. injection Hb as <- _. by left.
    + intros h Hh. by left.
Qed.

Lemma session_flow_materialize mode block source sealing policy a w p :
  block_inv mode (bs_worker w) → session_flow w → bp_control (bs_worker w) = BpMaterializing block source sealing policy →
  admissible (EvMaterialize a) w → answer_materialize block source sealing a (bs_worker w) = Some p →
  session_flow (advance (EvMaterialize a) w p).
Proof.
  intros Hi Hf Hc Had E.
  destruct Hi as [Hh|[Hst|(E1 & _)]]; [by rewrite (hd_control _ _ Hh) in Hc| |by rewrite E1 in Hc].
  pose proof (bs_control _ _ Hst) as Hs. unfold control_ok in Hs. rewrite Hc in Hs. destruct Hs as [Hs _].
  assert (processing (bs_worker w) = Some (block, source)) as Hbusy by (unfold processing; by rewrite Hc).
  apply session_flow_intro. rewrite advance_worker. intros Hin.
  destruct (answer_materialize_flow mode _ _ _ _ _ _ _ Hst Hc E Hin) as (Ep & Eidle & Enf & Hcase).
  unfold admissible in Had. unfold advance. rewrite Hc in Had |- *.
  destruct Hcase as [[[outcome Eout] Hann]|(missing & Eout & Hann)]; rewrite Eout in Had |- *.
  - destruct outcome as [committed|id coordinate]; eapply session_flow_announced; try done.
    + set_solver.
    + intros Q t HF. by apply flow_persist.
    + intros b Hb Q t R. rewrite Hbusy in Hb. injection Hb as <- _. left. set_solver.
    + intros h Hh. by left.
    + intros Q t HF. by apply flow_persist_known.
    + intros b Hb Q t R. rewrite Hbusy in Hb. injection Hb as <- _. by left.
    + intros h Hh. by left.
  - rewrite Enf. eapply session_flow_announced; try done.
    + intros Q t HF. apply flow_orphan; [done|apply Had].
    + intros b Hb Q t R. rewrite Hbusy in Hb. injection Hb as <- _. right; left. exists block, missing.
      split; [apply elem_of_app; right; left|done].
    + intros h [Hh|Hh]%elem_of_union; [|by left]. apply elem_of_singleton in Hh as ->. right. intros Q t R. right; left.
      exists block, missing. split; [apply elem_of_app; right; left|done].
Qed.

Lemma session_flow_out w : ¬ in_service (bs_worker w) → session_flow w.
Proof. intros Hn o Hin. done. Qed.

Lemma barrier_turn_out mode branch after p p' :
  started mode p → bp_control p = BpBarrier after → barrier_turn branch after p = Some p' → ¬ in_service p'.
Proof.
  intros Hst Hc E. pose proof (bs_control _ _ Hst) as Hco. unfold control_ok in Hco. rewrite Hc in Hco.
  destruct Hco as [(o & Eo & _) Hf]. intros (A & _ & B). destruct branch; simpl in E.
  - rewrite Eo in E. cbn [mbind option_bind] in E. destruct (om_control o) as [| | |result]; injection E as <-; try (by rewrite Hc in B).
    destruct after; [|by destruct result|by destruct result].
    assert (bp_faulted p = true) as Hf' by (by apply Hf). destruct result as [|e]; simpl in A; [congruence|].
    unfold send_event in A. simpl in A. destruct (bp_events_open p); simpl in A; congruence.
  - destruct (bq_try_recv _) as [[? ?]|]; injection E as <-; simpl in B; by rewrite Hc in B.
  - injection E as <-. simpl in B. by rewrite Hc in B.
Qed.

Lemma started_session w p M :
  bp_control (bs_worker w) = BpHeld → bp_orphan (bs_worker w) = Some OrphanManager_new →
  (∃ r, start (bs_worker w) = Some (p, r)) → session_flow (MkBlockSession p M ∅).
Proof.
  intros Hc Ho [r E] o (_ & Ha & _) Eo _. simpl in *. unfold start, startup in E.
  destruct (bp_run (bs_worker w)) as [m|stage sources emit] eqn:Er; cbn [mbind option_bind] in E.
  { injection E as <- _. unfold is_active in Ha. simpl in Ha. by rewrite Er in Ha. }
  rewrite Ho in E. cbn [mbind option_bind] in E.
  assert (o = orphan_start OrphanManager_new) as ->.
  { unfold send_event in E. simpl in E. destruct emit; [destruct (bp_events_open (bs_worker w))|]; injection E as <- _; simpl in Eo; congruence. }
  split; [|intros h Hh; set_solver]. split; simpl.
  - intros pre block missing post d Hq. by destruct pre.
  - intros h e d He. by rewrite lookup_empty in He.
  - intros h Hh. by apply elem_of_nil in Hh.
Qed.

Lemma initialize_control {NetworkId} `{EqDecision NetworkId} (g : BlockGenerations NetworkId) i p :
  bp_control (initialize g i p).1 = bp_control p.
Proof. unfold initialize. destruct (bp_run p); [|done]. by repeat (case_match || case_decide). Qed.

Lemma session_flow_next mode ev w p :
  block_inv mode (bs_worker w) → session_flow w → admissible ev w → block_step ev (bs_worker w) = Some p →
  session_flow (advance ev w p).
Proof.
  intros Hi Hf Had E.
  assert (p = bs_worker w → session_flow (MkBlockSession p (bs_materialized w) (bs_orphaned w))) as Hsame.
  { intros ->. apply session_flow_around; [done|apply around_refl]. }
  destruct ev as [N HN g i| |block|block|c| | | | | |answer|a|branch|ev];
    try (rewrite advance_quiet by done; simpl in E);
    try (by injection E as <-; apply session_flow_around; [done|by split_and!]).
  - destruct (bp_control (bs_worker w)) eqn:Ec; injection E as <-; try (by apply Hsame).
    apply session_flow_out. intros (_ & _ & H). cbn [bs_worker] in H. by rewrite initialize_control, Ec in H.
  - unfold advance. simpl in E. destruct (bp_control (bs_worker w)) eqn:Ec; try (injection E as <-; by apply Hsame).
    destruct Hi as [Hh|[[_ Hc _ _]|(E1 & _)]]; [|unfold control_ok in Hc; by rewrite Ec in Hc|congruence].
    destruct (start (bs_worker w)) as [[p1 r]|] eqn:Es; [|done]. injection E as <-.
    apply (started_session w); [done|apply Hh|by exists r].
  - assert (∀ q, Some (if bp_commands_open (bs_worker w) then bp_set_commands q (bs_worker w) else bs_worker w) = Some p →
      session_flow (MkBlockSession p (bs_materialized w) (bs_orphaned w))) as Hk.
    { intros q [= <-]. apply session_flow_around; [done|]. destruct (bp_commands_open (bs_worker w)); by split_and!. }
    destruct c, (bp_control (bs_worker w)) eqn:Ec; try (by apply (Hk _ E)).
    injection E as <-. apply session_flow_out. by intros (_ & _ & ?).
  - injection E as <-. apply session_flow_around; [done|]. destruct (bq_try_recv _) as [[? ?]|]; by split_and!.
  - destruct (bp_control (bs_worker w)) eqn:Ec; injection E as <-; try (by apply Hsame).
    apply session_flow_intro. simpl. intros Hin. destruct (block_turn_kept _ Ec Hin) as [Hs Hk].
    apply session_flow_kept; [done|done|apply Hk|]. intros _ M Q t h. by apply placed_turn.
  - destruct (bp_control (bs_worker w)) eqn:Ec; try (injection E as <-; by apply Hsame).
    by eapply session_flow_presence.
  - destruct (bp_control (bs_worker w)) eqn:Ec; simpl in E; rewrite Ec in E;
      try (injection E as <-; unfold advance; rewrite Ec; by apply Hsame).
    by eapply session_flow_materialize.
  - destruct (bp_control (bs_worker w)) eqn:Ec; try (injection E as <-; by apply Hsame).
    destruct Hi as [Hh|[Hst|(E1 & _)]]; [by rewrite (hd_control _ _ Hh) in Ec| |by rewrite E1 in Ec].
    apply session_flow_out. by eapply barrier_turn_out.
  - destruct (bp_orphan (bs_worker w)) as [o|] eqn:Eo; [|injection E as <-; by apply Hsame].
    destruct (orphan_step ev o (bp_ports (bs_worker w))) as [[o' ports]|] eqn:Es; [|done]. injection E as <-.
    by eapply session_flow_orphan.
Qed.

Lemma session_reachable_flow mode w : session_reachable mode w → session_flow w.
Proof.
  induction 1 as [M|ev w p Hr IH Had E]; [by apply session_flow_out; intros (_ & ? & _)|].
  eapply session_flow_next; [by apply session_block_inv|done..].
Qed.
End block_session.
