(* ===== verification/BlockStages.v ===== *)
(** How the stage, the sources and the overlap flag of a worker in service
    change, and the end of service: a faulted worker does nothing more, and the
    barrier of its children always completes. *)

From S2P Require Import Prelude Model Faults Channel Ingress Resolver Orphan OrphanWorker.
From S2P Require Import BlockWorker OrphanWorkerSafety BlockSafety BlockSession.

#[local] Open Scope N_scope.

Section block_barrier.
Context {KH : KaspaHash}.
Implicit Types (p : BlockProcessorWorker) (o : OrphanManagerWorker).

(** * After a fault *)

(** Nothing more is reported or delivered. *)
Definition silent p p' : Prop :=
  bp_faulted p' = bp_faulted p ∧ bp_events p' = bp_events p ∧
  ∀ x, x ∈ bq_items (bp_persisted p') → x ∈ bq_items (bp_persisted p).

Lemma silent_same p p' :
  bp_faulted p' = bp_faulted p → bp_events p' = bp_events p → bp_persisted p' = bp_persisted p → silent p p'.
Proof. intros E1 E2 E3. split_and!; try done. by rewrite E3. Qed.

Lemma shutdown_orphan_silent after p : silent p (shutdown_orphan after p).
Proof. unfold shutdown_orphan. destruct (bp_orphan p) as [o|]; [destruct (om_control o)|]; destruct after; by apply silent_same. Qed.

Lemma silent_trans p1 p2 p3 : silent p1 p2 → silent p2 p3 → silent p1 p3.
Proof. intros (A1 & A2 & A3) (B1 & B2 & B3). split_and!; [congruence..|]. auto. Qed.

Lemma shutdown_worker_silent p : silent p (shutdown_worker p).
Proof. eapply silent_trans; [|apply shutdown_orphan_silent]. by apply silent_same. Qed.

Lemma enter_fault_silent after f p : bp_faulted p = true → silent p (enter_fault_then after f p).
Proof. intros Ef. unfold enter_fault_then. rewrite Ef. by apply silent_same. Qed.

Lemma block_turn_silent p : bp_faulted p = true → silent p (block_turn p).1.
Proof.
  intros Ef. unfold block_turn. destruct (bp_commands p) as [|c cs]; simpl.
  - rewrite Ef. simpl. rewrite andb_true_r. destruct (negb (bp_commands_open p)); simpl.
    + unfold command_path_lost. rewrite Ef. simpl. apply shutdown_worker_silent.
    + unfold discard_turn. destruct (bq_try_recv (bp_notifications p)) as [[? ?]|]; [by apply silent_same|].
      destruct (bq_try_recv (bp_synthetic p)) as [[? ?]|]; [by apply silent_same|].
      destruct (bq_try_recv (pt_resolution (bp_ports p))) as [[? ?]|]; [by apply silent_same|].
      destruct (children_gone p); [by apply silent_same|]. destruct (pt_faults (bp_ports p)); by apply silent_same.
  - assert (silent p (bp_set_commands cs p)) as Hp by by apply silent_same.
    eapply silent_trans; [exact Hp|]. destruct c as [bound| |]; simpl; [| |apply shutdown_worker_silent].
    + destruct (bp_run p) as [|[[|]| |] ? ?]; try (by apply enter_fault_silent). by apply silent_same.
    + destruct (bp_run p) as [|[| |] ? ?]; try (by apply enter_fault_silent). by apply silent_same.
Qed.

Lemma barrier_turn_silent mode branch after p p' :
  started mode p → bp_control p = BpBarrier after → barrier_turn branch after p = Some p' → silent p p'.
Proof.
  intros Hst Hc E. pose proof (bs_control _ _ Hst) as Hco. unfold control_ok in Hco. rewrite Hc in Hco.
  destruct Hco as [(o & Eo & _) _]. destruct branch; simpl in E.
  - rewrite Eo in E. cbn [mbind option_bind] in E. pose proof (oc_control _ (om_core _ (bb_orphan _ _ (bs_base _ _ Hst) _ Eo))) as Hx.
    destruct (om_control o) as [| | |result]; injection E as <-; try (by apply silent_same).
    destruct Hx as (-> & _). destruct after; by apply silent_same.
  - destruct (bq_try_recv _) as [[? ?]|]; injection E as <-; by apply silent_same.
  - injection E as <-. by apply silent_same.
Qed.

Lemma block_step_silent mode ev p p' :
  block_inv mode p → bp_faulted p = true → block_step ev p = Some p' → silent p p'.
Proof.
  intros Hi Ef E. destruct Hi as [Hh|[Hst|(_ & _ & Hd & _)]]; [by rewrite (hd_faulted _ _ Hh) in Ef| |congruence].
  assert (bp_control p ≠ BpHeld ∧ ∀ b s, bp_control p ≠ BpPresence b s) as [Hnh Hnp].
  { pose proof (bs_control _ _ Hst) as Hco. unfold control_ok in Hco. split; intros; intros Ec; rewrite Ec in Hco; [done|].
    destruct Hco. congruence. }
  assert (∀ b s sealing policy, bp_control p ≠ BpMaterializing b s sealing policy) as Hnm.
  { intros b s sealing policy Ec. pose proof (bs_control _ _ Hst) as Hco. unfold control_ok in Hco. rewrite Ec in Hco.
    destruct Hco as [[? _] _]. congruence. }
  destruct ev as [N HN g i| |block|block|c| | | | | |answer|a|branch|ev]; simpl in E;
    try (injection E as <-; by apply silent_same).
  - destruct (bp_control p); try done; injection E as <-; by apply silent_same.
  - destruct (bp_control p); try done; injection E as <-; by apply silent_same.
  - destruct c, (bp_control p), (bp_commands_open p); try done; injection E as <-; by apply silent_same.
  - injection E as <-. unfold bq_try_recv. destruct (bq_items (bp_persisted p)) as [|x xs] eqn:Eq; [by apply silent_same|].
    split_and!; try done. simpl. rewrite Eq. intros y Hy. by right.
  - injection E as <-. split_and!; try done. simpl. intros x Hx. by apply elem_of_nil in Hx.
  - destruct (bp_control p); injection E as <-; try (by apply silent_same). by apply block_turn_silent.
  - destruct (bp_control p) eqn:Ec; try (injection E as <-; by apply silent_same). by destruct (Hnp block source).
  - destruct (bp_control p) eqn:Ec; try (injection E as <-; by apply silent_same). by destruct (Hnm block source sealing policy).
  - destruct (bp_control p) eqn:Ec; try (injection E as <-; by apply silent_same). by eapply barrier_turn_silent.
  - destruct (bp_orphan p) as [o|]; [|injection E as <-; by apply silent_same].
    destruct (orphan_step ev o (bp_ports p)) as [[o' ports]|]; [|done]. injection E as <-. by apply silent_same.
Qed.

(** * The barrier completes *)

(** The manager notices, its resolver stops, the manager ends. *)
Definition barrier_schedule : list BlockEvent :=
  [EvOrphan OrphanTurn; EvOrphan (OrphanResolver (ResolverTurn 0)); EvOrphan OrphanTurn; EvOrphan OrphanTurn;
   EvBarrier BarrierJoined].

Definition run_events (evs : list BlockEvent) p : option BlockProcessorWorker := fold_m (λ p ev, block_step ev p) p evs.

(** The orphan manager alone, with the shutdown requested. *)
Definition orphan_schedule : list OrphanEvent :=
  [OrphanTurn; OrphanResolver (ResolverTurn 0); OrphanTurn; OrphanTurn].
Definition run_orphan (evs : list OrphanEvent) o ports : option (OrphanManagerWorker * Ports) :=
  fold_m (λ s ev, orphan_step ev s.1 s.2) (o, ports) evs.

Lemma orphan_schedule_ends o ports :
  orphan_inv o → om_shutdown o = true → om_control o ≠ OmInert →
  ∃ o' ports', run_orphan orphan_schedule o ports = Some (o', ports') ∧ om_control o' = OmReturned (Ok tt).
Proof.
  intros [[C1 C2 C3 C6 C4 C5] _] Esh Eni. destruct o as [control shutdown messages resolver rfaults metrics topology state ropen].
  simpl in *. subst shutdown. unfold run_orphan, orphan_schedule. simpl.
  destruct control as [| |after|result]; [done| | |].
  - destruct resolver as [r|]; simpl.
    + destruct C3 as [[Er _] _]. unfold orphan_turn, orphan_shutdown. simpl. unfold resolver_turn. simpl. rewrite Er. simpl. by eexists _, _.
    + unfold orphan_turn, orphan_shutdown. simpl. by eexists _, _.
  - destruct C3 as (_ & r & [= ->] & Ers & Eri). unfold orphan_turn. simpl. destruct (dr_control r) eqn:Er; [done| |].
    + unfold resolver_turn. simpl. rewrite Er, Ers. simpl. destruct after; simpl; unfold orphan_turn, orphan_shutdown; simpl; by eexists _, _.
    + unfold end_barrier. simpl. destruct after; simpl; unfold orphan_turn, orphan_shutdown; simpl; by eexists _, _.
  - destruct C3 as (-> & -> & _). simpl. unfold orphan_turn. simpl. by eexists _, _.
Qed.

Lemma run_orphan_lift evs p o o' ports' :
  bp_orphan p = Some o → run_orphan evs o (bp_ports p) = Some (o', ports') →
  run_events (EvOrphan <$> evs) p = Some (bp_set_ports ports' (bp_set_orphan (Some o') p)).
Proof.
  revert p o. induction evs as [|ev evs IH]; intros p o Eo E.
  { injection E as <- <-. unfold run_events. simpl. f_equal. destruct p; simpl in *. by subst. }
  unfold run_orphan in E. simpl in E. destruct (orphan_step ev o (bp_ports p)) as [[o1 ports1]|] eqn:E1; [|done].
  cbn [mbind option_bind] in E. unfold run_events. rewrite fmap_cons. simpl. rewrite Eo, E1. cbn [mbind option_bind].
  apply (IH (bp_set_ports ports1 (bp_set_orphan (Some o1) p)) o1); [done|exact E].
Qed.

Lemma barrier_completes mode after p :
  started mode p → bp_control p = BpBarrier after →
  ∃ p', run_events barrier_schedule p = Some p' ∧ bp_orphan p' = None ∧
    bp_control p' = match after with AfterFault => BpTop | _ => BpReturned (Ok tt) end.
Proof.
  intros Hst Hc. pose proof (bs_control _ _ Hst) as Hco. unfold control_ok in Hco. rewrite Hc in Hco.
  destruct Hco as [(o & Eo & Esh & Eni) _].
  destruct (orphan_schedule_ends o (bp_ports p)) as (o' & ports' & E & Er); [by apply (bb_orphan _ _ (bs_base _ _ Hst))|done|done|].
  pose proof (run_orphan_lift _ _ _ _ _ Eo E) as El. change barrier_schedule with ((EvOrphan <$> orphan_schedule) ++ [EvBarrier BarrierJoined]).
  unfold run_events in *. rewrite fold_m_app, El. simpl. rewrite Hc. unfold barrier_turn. simpl. rewrite Er.
  destruct after; by eexists.
Qed.

(** * A faulted worker without children *)

(** Once its mailboxes are empty, every turn completes at once on the closed
    resolution mailbox, and changes nothing. *)
Lemma faulted_turn_spins mode p :
  started mode p → bp_control p = BpTop → bp_faulted p = true → faults p ≠ 0%nat → bp_commands p = [] → bp_commands_open p = true →
  bq_items (bp_notifications p) = [] → bq_items (bp_synthetic p) = [] → bq_items (pt_resolution (bp_ports p)) = [] →
  block_turn p = (p, true).
Proof.
  intros Hst Hc Hf Hz Hcmd Hopen H1 H2 H3. unfold block_turn. rewrite Hcmd, Hopen, Hf. simpl. unfold discard_turn, bq_try_recv.
  rewrite H1, H2, H3. unfold children_gone. by rewrite (bs_gone _ _ Hst Hf Hz Hc).
Qed.
End block_barrier.

Section block_stages.
Context {KH : KaspaHash}.
Implicit Types (p : BlockProcessorWorker).

(** * The moves of the stage *)

Definition bits_of (sources : gmap BlockHash N) (h : BlockHash) : N := default 0 (sources !! h).

Inductive stage_move p p' : Prop :=
  | stage_same : bp_run p' = bp_run p → bp_overlap p' = bp_overlap p → stage_move p p'
  | stage_sealed s sources emit :
      bp_run p = Active (Synchronizing (PreSeal s)) sources emit →
      bp_run p' = Active (Synchronizing PostSeal) sources emit → stage_move p p'
  | stage_catchup sources emit bound :
      bp_run p = Active (Synchronizing PostSeal) sources emit → bp_run p' = Active (Catchup bound) ∅ emit →
      bp_overlap p' = false → stage_move p p'
  | stage_live bound sources emit :
      bp_run p = Active (Catchup bound) sources emit → bp_run p' = Active Live sources emit →
      bp_overlap p' = bp_overlap p → stage_move p p'
  | stage_recorded bound sources emit h source :
      bp_run p = Active (Catchup bound) sources emit → source ≠ Resolution →
      bp_run p' = Active (Catchup bound) (<[h := bits_insert (bits_of sources h) source]> sources) emit →
      bp_overlap p' = bits_overlaps (bits_insert (bits_of sources h) source) || bp_overlap p → stage_move p p'.

Lemma stage_move_trans_same p1 p2 p3 :
  bp_run p2 = bp_run p1 → bp_overlap p2 = bp_overlap p1 → stage_move p2 p3 → stage_move p1 p3.
Proof.
  intros E1 E2 []; rewrite ?E1, ?E2 in *; [by apply stage_same|by eapply stage_sealed|by eapply stage_catchup|
    by eapply stage_live|by eapply stage_recorded].
Qed.

Lemma record_source_move h source p : stage_move p (record_source h source p).
Proof.
  unfold record_source. destruct (bp_run p) as [m|[phase|bound|] sources emit] eqn:Er; try (by apply stage_same).
  destruct source; [by apply stage_same|..].
  - apply (stage_recorded _ _ bound sources emit h Notification); try done; unfold bits_of; by destruct (bits_overlaps _).
  - apply (stage_recorded _ _ bound sources emit h Synthetic); try done; unfold bits_of; by destruct (bits_overlaps _).
Qed.

Lemma finish_block_move block source fault p :
  in_service (finish_block block source fault p) → stage_move p (finish_block block source fault p).
Proof.
  destruct fault as [f|]; simpl; [intros H; by apply enter_fault_out in H|]. intros _.
  by destruct (record_source_move (vnb_hash block) source p); [apply stage_same|eapply stage_sealed|eapply stage_catchup|
    eapply stage_live|eapply stage_recorded].
Qed.

Lemma handle_block_move block source p : stage_move p (handle_block block source p).
Proof. unfold handle_block. destruct (bp_run p) eqn:Er; [by apply stage_same|]. case_match; by apply stage_same. Qed.

Lemma active_turn_move p : in_service (active_turn p).1 → stage_move p (active_turn p).1.
Proof.
  unfold active_turn. destruct (pt_faults (bp_ports p)) as [|f fs]; [|intros H; by apply enter_fault_out in H].
  destruct (bq_try_recv (pt_resolution (bp_ports p))) as [[e q]|]; simpl.
  - destruct e as [block|h [block|error]]; simpl; intros Hs; [|case_decide|]; try (by apply enter_fault_out in Hs);
      (eapply stage_move_trans_same; [..|apply handle_block_move]; done).
  - destruct (bq_try_recv (bp_notifications p)) as [[b n]|]; simpl; intros _;
      [eapply stage_move_trans_same; [..|apply handle_block_move]; done|].
    destruct (bq_try_recv (bp_synthetic p)) as [[b n]|]; simpl;
      [eapply stage_move_trans_same; [..|apply handle_block_move]; done|]. by apply stage_same.
Qed.

Lemma block_turn_move p : bp_control p = BpTop → in_service (block_turn p).1 → stage_move p (block_turn p).1.
Proof.
  intros Hc. unfold block_turn. destruct (bp_commands p) as [|c cs].
  2: { simpl. destruct c as [bound| |]; simpl; intros Hs.
       - destruct (bp_run p) as [|[[|]| |] sources emit] eqn:Er; try (by apply enter_fault_out in Hs). by eapply stage_catchup.
       - destruct (bp_run p) as [|[| |] sources emit] eqn:Er; try (by apply enter_fault_out in Hs). by eapply stage_live.
       - by apply shutdown_worker_out in Hs. }
  destruct (negb (bp_commands_open p) && _); simpl; [intros Hs; by apply command_path_lost_out in Hs|].
  destruct (bp_faulted p || negb (is_active p)) eqn:En.
  { intros (Hf & Ha & _). destruct (discard_turn_frame p) as [E1 E2]. unfold is_active in *. rewrite E1 in Hf. rewrite E2 in Ha.
    by rewrite Hf, Ha in En. }
  pose proof (active_turn_move p) as Hk. destruct (active_turn p) as [p' completed].
  destruct completed; [done|]. destruct (negb (bp_commands_open p)); simpl; [intros H; by apply command_path_lost_out in H|].
  destruct (children_gone p); simpl; [intros H; by apply enter_fault_out in H|]. intros _. by apply stage_same.
Qed.

Lemma answer_presence_move mode block source answer p p' :
  served mode p → bp_control p = BpPresence block source → answer_presence block source answer p = Some p' → in_service p' →
  stage_move p p'.
Proof.
  intros Hs Hc E Hin. unfold answer_presence in E. destruct answer as [presence|e].
  2: { injection E as <-. by apply enter_fault_out in Hin. }
  destruct (bp_run p) as [|stage sources emit] eqn:Er; [done|]. destruct (filtered _ _ _ _ _).
  { injection E as <-. by apply stage_same. }
  destruct presence as [|id|id coordinate].
  - unfold materialize_begin in E. rewrite Er in E. injection E as <-. by apply stage_same.
  - injection E as <-. by apply enter_fault_out in Hin.
  - destruct (deliver_persisted_spec mode block id p Hs) as (p1 & fault & E1 & Hd). rewrite E1 in E. injection E as <-.
    pose proof (dv_frame _ _ _ _ _ Hd) as (_ & F1 & _ & _ & _ & F2 & _).
    eapply stage_move_trans_same; [exact F1|exact F2|]. by apply finish_block_move.
Qed.

Lemma answer_materialize_move mode block source sealing policy a p p' :
  started mode p → bp_control p = BpMaterializing block source sealing policy →
  answer_materialize block source sealing a p = Some p' → in_service p' → stage_move p p'.
Proof.
  intros Hst Hc E Hin. pose proof (bs_control _ _ Hst) as Hco. unfold control_ok in Hco. rewrite Hc in Hco. destruct Hco as [Hsv Hplan].
  pose proof (in_service_served _ _ Hst Hsv) as Hs. pose proof Hs as (Hb & Ef & Ea & o & Eo & Hal).
  unfold answer_materialize in E. destruct (materialize_end block sealing a p) as [[p1 fault]|] eqn:Em; [|done].
  injection E as <-. pose proof (finish_block_move _ _ _ _ Hin) as Hmv.
  destruct (finish_block_kept _ _ _ _ Hin) as (-> & _). unfold materialize_end in Em.
  destruct (bp_run p) as [|stage sources emit] eqn:Er; [done|].
  assert (∀ p2 f2 id, deliver_persisted block id p = Some (p2, f2) → bp_run p2 = bp_run p ∧ bp_overlap p2 = bp_overlap p) as Hd.
  { intros p2 f2 id E2. destruct (deliver_persisted_spec mode block id p Hs) as (p3 & f3 & E3 & Hd).
    assert (p3 = p2) as -> by congruence. pose proof (dv_frame _ _ _ _ _ Hd) as (_ & F1 & _ & _ & _ & F2 & _). done. }
  destruct (ma_outcome a) as [[committed|id coordinate]|[e|h|missing [|h identity_only]]]; try done.
  - destruct (pre_seal stage && _); [done|]. destruct (deliver_persisted block (bc_id committed) p) as [[p2 f2]|] eqn:E2; [|done].
    destruct (Hd _ _ _ E2) as [F1 F2]. cbn [mbind option_bind] in Em. destruct sealing.
    + assert (∃ s, stage = Synchronizing (PreSeal s)) as [s ->].
      { unfold plan in Hplan. destruct stage as [[s|]| |]; try done. by exists s. }
      unfold send_event in Em. simpl in Em. destruct (bp_events_open p2); [|done]. injection Em as <- ->.
      eapply stage_sealed; [exact Er|]. simpl. unfold record_source. simpl. done.
    + injection Em as -> ->. by eapply stage_move_trans_same.
  - destruct (Hd _ _ _ Em) as [F1 F2]. by eapply stage_move_trans_same.
  - destruct (permits_orphans stage); [|done]. rewrite Eo in Em. cbn [mbind option_bind] in Em.
    destruct (orphan_send _ o) as [o' sent]. destruct sent as [[]|]; [|done]. injection Em as <-.
    by eapply stage_move_trans_same; [| |exact Hmv].
Qed.

(** Every step that leaves the worker in service either starts it or moves its
    stage so. *)
Lemma block_step_move mode ev p p' :
  block_inv mode p → block_step ev p = Some p' → in_service p' →
  (bp_control p = BpHeld ∧ ev = EvStart) ∨ in_service p ∧ stage_move p p'.
Proof.
  intros Hi E Hin. assert (p' = p → in_service p ∧ stage_move p p') as Hsame by (intros ->; split; [done|by apply stage_same]).
  assert (around p p' → bp_overlap p' = bp_overlap p → in_service p ∧ stage_move p p') as Har.
  { intros Ha Eo. split; [by eapply around_in_service|]. apply stage_same; [apply Ha|done]. }
  destruct ev as [N HN g i| |block|block|c| | | | | |answer|a|branch|ev]; simpl in E;
    try (by right; injection E as <-; apply Har; [by split_and!|]).
  - right. destruct (bp_control p) eqn:Ec; injection E as <-; try (by apply Hsame).
    destruct Hin as (_ & _ & H). by rewrite initialize_control, Ec in H.
  - destruct (bp_control p) eqn:Ec; [by left|..]; right; injection E as <-; by apply Hsame.
  - right. assert (∀ q, Some (if bp_commands_open p then bp_set_commands q p else p) = Some p' → in_service p ∧ stage_move p p') as Hk.
    { intros q [= <-]. apply Har; destruct (bp_commands_open p); (done || by split_and!). }
    destruct c, (bp_control p) eqn:Ec; try (by apply (Hk _ E)). injection E as <-. by destruct Hin as (_ & _ & H).
  - right. injection E as <-. apply Har; destruct (bq_try_recv _) as [[? ?]|]; (done || by split_and!).
  - right. destruct (bp_control p) eqn:Ec; injection E as <-; try (by apply Hsame).
    split; [by apply block_turn_kept|by apply block_turn_move].
  - right. destruct (bp_control p) eqn:Ec; try (injection E as <-; by apply Hsame).
    destruct Hi as [Hh|[Hst|(E1 & _)]]; [by rewrite (hd_control _ _ Hh) in Ec| |by rewrite E1 in Ec].
    pose proof (bs_control _ _ Hst) as Hs. unfold control_ok in Hs. rewrite Ec in Hs. split; [done|].
    eapply answer_presence_move; try done. by apply in_service_served.
  - right. destruct (bp_control p) eqn:Ec; try (injection E as <-; by apply Hsame).
    destruct Hi as [Hh|[Hst|(E1 & _)]]; [by rewrite (hd_control _ _ Hh) in Ec| |by rewrite E1 in Ec].
    pose proof (bs_control _ _ Hst) as Hs. unfold control_ok in Hs. rewrite Ec in Hs. split; [apply Hs|].
    by eapply answer_materialize_move.
  - right. destruct (bp_control p) eqn:Ec; try (injection E as <-; by apply Hsame).
    destruct Hi as [Hh|[Hst|(E1 & _)]]; [by rewrite (hd_control _ _ Hh) in Ec| |by rewrite E1 in Ec].
    exfalso. by eapply barrier_turn_out.
  - right. destruct (bp_orphan p) as [o|] eqn:Eo; [|injection E as <-; by apply Hsame].
    destruct (orphan_step ev o (bp_ports p)) as [[o' ports]|]; [|done]. injection E as <-. split; [done|by apply stage_same].
Qed.

(** * Stages only advance *)

Definition stage_rank (stage : RunStage) : nat :=
  match stage with
  | Synchronizing (PreSeal _) => 0
  | Synchronizing PostSeal => 1
  | Catchup _ => 2
  | Live => 3
  end.
Definition run_rank p : nat := match bp_run p with Inert _ => 0 | Active stage _ _ => stage_rank stage end.

Lemma stage_move_rank p p' : stage_move p p' → (run_rank p ≤ run_rank p' ≤ S (run_rank p))%nat.
Proof. unfold run_rank. intros [E|? ? ? E1 E2|? ? ? E1 E2|? ? ? E1 E2|? ? ? ? ? E1 ? E2]; [rewrite E|rewrite E1, E2..]; simpl; lia. Qed.

(** * The overlap flag *)

(** The bits are sets of the two sources. *)
Lemma bits_cases bits : bits ≤ 3 → bits = 0 ∨ bits = 1 ∨ bits = 2 ∨ bits = 3.
Proof. lia. Qed.

Lemma bits_insert_le bits source : bits ≤ 3 → bits_insert bits source ≤ 3.
Proof. intros [->|[->|[->| ->]]]%bits_cases; destruct source; vm_compute; done. Qed.

Lemma bits_insert_contains bits source source' :
  bits ≤ 3 → bits_contains (bits_insert bits source) source' =
             bits_contains bits source' || bool_decide (source = source' ∧ source' ≠ Resolution).
Proof. intros [->|[->|[->| ->]]]%bits_cases; destruct source, source'; reflexivity. Qed.

Lemma bits_overlaps_spec bits :
  bits ≤ 3 → bits_overlaps bits = bits_contains bits Notification && bits_contains bits Synthetic.
Proof. intros [->|[->|[->| ->]]]%bits_cases; reflexivity. Qed.

(** Some hash was admitted from both sources. *)
Definition overlapping (sources : gmap BlockHash N) : Prop :=
  ∃ h, bits_contains (bits_of sources h) Notification = true ∧ bits_contains (bits_of sources h) Synthetic = true.

Definition overlap_ok p : Prop :=
  match bp_run p with
  | Active (Catchup _ | Live) sources _ =>
    (∀ h, bits_of sources h ≤ 3) ∧ (bp_overlap p = true ↔ overlapping sources)
  | _ => True
  end.

Lemma bits_of_insert sources h bits x : bits_of (<[h := bits]> sources) x = if decide (x = h) then bits else bits_of sources x.
Proof. unfold bits_of. case_decide as E; [subst; by rewrite lookup_insert_eq|by rewrite lookup_insert_ne]. Qed.

Lemma overlapping_record sources h source :
  (∀ x, bits_of sources x ≤ 3) →
  overlapping (<[h := bits_insert (bits_of sources h) source]> sources) ↔
  bits_overlaps (bits_insert (bits_of sources h) source) = true ∨ overlapping sources.
Proof.
  intros Hle. pose proof (bits_insert_le _ source (Hle h)) as Hle'. rewrite bits_overlaps_spec, andb_true_iff by done. split.
  - intros (x & H1 & H2). rewrite bits_of_insert in H1, H2. case_decide; [by left|right; by exists x].
  - intros [[H1 H2]|(x & H1 & H2)]; [exists h; by rewrite bits_of_insert, decide_True|].
    exists x. rewrite bits_of_insert. case_decide as E; [subst x|done]. by rewrite !bits_insert_contains, H1, H2.
Qed.

Lemma stage_move_overlap p p' : stage_move p p' → overlap_ok p → overlap_ok p'.
Proof.
  unfold overlap_ok. intros [E1 E2|s sources emit E1 E2|sources emit bound E1 E2 E3|bound sources emit E1 E2 E3|
    bound sources emit h source E1 E2 E3 E4].
  - by rewrite E1, E2.
  - by rewrite E2.
  - rewrite E2, E3. intros _. split; [intros h; unfold bits_of; rewrite lookup_empty; done|]. split; [done|].
    intros (h & H & _). unfold bits_of in H. by rewrite lookup_empty in H.
  - by rewrite E1, E2, E3.
  - rewrite E1, E3, E4. intros [Hle Hov]. split.
    + intros x. rewrite bits_of_insert. case_decide; [by apply bits_insert_le|done].
    + rewrite overlapping_record by done. by rewrite orb_true_iff, Hov.
Qed.

Lemma start_stage mode p p' r :
  held mode p → start p = Some (p', r) → match bp_run p' with Active (Synchronizing _) _ _ | Inert _ => True | _ => False end.
Proof.
  intros [_ H2 _ _ _ H6] E. unfold start, startup in E. destruct (bp_run p) as [m|stage sources emit] eqn:Er; cbn [mbind option_bind] in E.
  { injection E as <- _. simpl. by rewrite Er. }
  destruct H6 as ([phase ->] & _). rewrite H2 in E. cbn [mbind option_bind] in E. unfold send_event in E. simpl in E.
  destruct emit; [destruct (bp_events_open p)|]; injection E as <- _; simpl; by rewrite Er.
Qed.

Lemma session_overlap mode w : session_reachable mode w → in_service (bs_worker w) → overlap_ok (bs_worker w).
Proof.
  induction 1 as [M|ev w p Hr IH Had E]; [by intros (_ & ? & _)|]. rewrite advance_worker. intros Hin.
  pose proof (session_block_inv _ _ Hr) as Hi.
  destruct (block_step_move mode ev _ _ Hi E Hin) as [[Hc ->]|[Hs Hm]]; [|by eapply stage_move_overlap; [|apply IH]].
  destruct Hi as [Hh|[[_ Hco _ _]|(E1 & _)]]; [|unfold control_ok in Hco; by rewrite Hc in Hco|congruence].
  simpl in E. rewrite Hc in E. destruct (start (bs_worker w)) as [[p1 r]|] eqn:Es; [|done]. injection E as <-.
  pose proof (start_stage mode _ _ _ Hh Es) as Hst. unfold overlap_ok. by destruct (bp_run p1) as [|[| |] ? ?].
Qed.
End block_stages.
