(* ===== verification/Normalization.v ===== *)
(** Response normalization: [crates/kgi-node/src/normalization.rs].

    Everything the program learns from a Kaspa node passes through
    [ResponseNormalizer], which checks that an answer is about the requested
    block, bounds its scores and makes its relationship vectors canonical.

    [RpcBlock], [RpcHeader] and [RpcBlockVerboseData] are third-party records
    ([kaspa_rpc_core]); they hold here the fields the normalizer reads. *)

From S2P Require Import Prelude Model Faults.

Section normalization.
Context {KH : KaspaHash}.

(** * Responses *)

Record RpcHeader := MkRpcHeader {
  rh_hash : BlockHash;
  rh_parents_by_level : list (list BlockHash);
  rh_timestamp : Timestamp;
  rh_daa_score : N;
  rh_blue_score : N;
  rh_blue_work : BlueWork
}.

Record RpcBlockVerboseData := MkRpcBlockVerboseData {
  rv_selected_parent_hash : BlockHash;
  rv_merge_set_blues_hashes : list BlockHash;
  rv_merge_set_reds_hashes : list BlockHash
}.

Record RpcBlock := MkRpcBlock {
  rb_header : RpcHeader;
  rb_verbose_data : option RpcBlockVerboseData
}.

Record GetBlocksResponse := MkGetBlocksResponse { gbr_blocks : list RpcBlock }.

Record GetVirtualChainFromBlockV2Response := MkGetVirtualChainFromBlockV2Response {
  vcr_removed_chain_block_hashes : list BlockHash;
  vcr_added_chain_block_hashes : list BlockHash
}.

Record CatchupSinkSample := MkCatchupSinkSample { css_hash : BlockHash; css_daa_score : N }.

(** * Errors *)

Inductive ResponseNormalizationError :=
  | Response_ScoreOutOfRange (fault : ScoreRangeFault)
  | Malformed (kind : RecoveryInputKind).

Inductive BlockNormalizationError :=
  | Block_ScoreOutOfRange (fault : ScoreRangeFault)
  | MissingVerboseData
  | OwnHashReference
  | SelectedParentNotDirect.

Definition check_score (value maximum : N) (fault : ScoreRangeFault) :
    Result unit ResponseNormalizationError :=
  if decide (maximum < value) then Err (Response_ScoreOutOfRange fault) else Ok tt.

(** The [Malformed] arm is [unreachable!]. *)
Definition response_to_block_error (error : ResponseNormalizationError) :
    option BlockNormalizationError :=
  match error with
  | Response_ScoreOutOfRange fault => Some (Block_ScoreOutOfRange fault)
  | Malformed _ => None
  end.

Definition classify_block_error (malformed_kind : RecoveryInputKind)
    (error : BlockNormalizationError) : ResponseNormalizationError :=
  match error with
  | Block_ScoreOutOfRange fault => Response_ScoreOutOfRange fault
  | MissingVerboseData | OwnHashReference | SelectedParentNotDirect => Malformed malformed_kind
  end.

(** [hashes.retain(|hash| seen.insert(hash))]: what is kept, and [seen]. *)
Fixpoint retain_unseen (seen : gset BlockHash) (hashes : list BlockHash) :
    list BlockHash * gset BlockHash :=
  match hashes with
  | [] => ([], seen)
  | h :: hs =>
    if decide (h ∈ seen) then retain_unseen seen hs
    else let '(kept, seen') := retain_unseen ({[h]} ∪ seen) hs in (h :: kept, seen')
  end.

Definition retain_first_occurrences (hashes : list BlockHash) (own_hash : BlockHash) :
    Result (list BlockHash) BlockNormalizationError :=
  let '(kept, seen) := retain_unseen ∅ hashes in
  if decide (own_hash ∈ seen) then Err OwnHashReference else Ok kept.

(** * The normalizer *)

Record ResponseNormalizer := ResponseNormalizer_new { genesis_hash : BlockHash }.
Implicit Types self : ResponseNormalizer.

Definition validated_block self (block : RpcBlock) :
    option (Result ValidatedNodeBlock BlockNormalizationError) :=
  let header := rb_header block in
  daa ← map_err_m response_to_block_error
    (check_score (rh_daa_score header) MAX_DAA_SCORE DaaScore);
  _ ←? daa;
  if decide (rh_hash header = genesis_hash self) then
    Some (Ok (MkValidatedNodeBlock (rh_hash header) ORIGIN [] [] []
      (rh_timestamp header) (rh_daa_score header) 0 (rh_blue_work header)))
  else
    blue ← map_err_m response_to_block_error
      (check_score (rh_blue_score header) MAX_BLUE_SCORE BlueScore);
    _ ←? blue;
    verbose ←? match rb_verbose_data block with
               | Some verbose => Ok verbose
               | None => Err MissingVerboseData
               end;
    direct_parents ←? retain_first_occurrences
      (default [] (head (rh_parents_by_level header))) (rh_hash header);
    if decide (rv_selected_parent_hash verbose ∉ direct_parents) then
      Some (Err SelectedParentNotDirect)
    else
      blue_merge_set ←? retain_first_occurrences (rv_merge_set_blues_hashes verbose) (rh_hash header);
      red_merge_set ←? retain_first_occurrences (rv_merge_set_reds_hashes verbose) (rh_hash header);
      Some (Ok (MkValidatedNodeBlock (rh_hash header) (rv_selected_parent_hash verbose)
        direct_parents blue_merge_set red_merge_set
        (rh_timestamp header) (rh_daa_score header) (rh_blue_score header) (rh_blue_work header))).

Definition block_added := validated_block.

(** [self.validated_block(block).map_err(|error| classify_block_error(error, kind))] *)
Definition validated_as self (kind : RecoveryInputKind) (block : RpcBlock) :
    option (Result ValidatedNodeBlock ResponseNormalizationError) :=
  map_err (classify_block_error kind) <$> validated_block self block.

Definition pruning_point_block self (advertised_hash : BlockHash) (block : RpcBlock) :
    option (Result ValidatedNodeBlock ResponseNormalizationError) :=
  if decide (advertised_hash = ORIGIN ∨ rh_hash (rb_header block) ≠ advertised_hash) then
    Some (Err (Malformed MalformedPruningPointResponse))
  else validated_as self MalformedPruningPointResponse block.

Definition catchup_sink_sample self (advertised_hash : BlockHash) (block : RpcBlock) :
    option (Result CatchupSinkSample ResponseNormalizationError) :=
  if decide (advertised_hash = ORIGIN ∨ rh_hash (rb_header block) ≠ advertised_hash) then
    Some (Err (Malformed MalformedCatchupSinkResponse))
  else
    _ ←? check_score (rh_daa_score (rb_header block)) MAX_DAA_SCORE DaaScore;
    Some (Ok (MkCatchupSinkSample (rh_hash (rb_header block)) (rh_daa_score (rb_header block)))).

Definition get_blocks self (low_hash : BlockHash) (response : GetBlocksResponse) :
    option (Result (list ValidatedNodeBlock) ResponseNormalizationError) :=
  match gbr_blocks response with
  | [] => Some (Err (Malformed MalformedGetBlocks))
  | anchor :: blocks =>
    if decide (rh_hash (rb_header anchor) ≠ low_hash) then
      Some (Err (Malformed MalformedGetBlocks))
    else
      collected ← collect_results (validated_as self MalformedGetBlocks) blocks;
      normalized ←? collected;
      if decide (vnb_hash <$> last normalized = Some low_hash) then
        Some (Err (Malformed MalformedGetBlocks))
      else Some (Ok normalized)
  end.

Definition virtual_chain self (low_hash : BlockHash)
    (response : GetVirtualChainFromBlockV2Response) :
    Result VspcChange ResponseNormalizationError :=
  let removed := vcr_removed_chain_block_hashes response in
  let added := vcr_added_chain_block_hashes response in
  let reason :=
    if decide (removed ≠ [] ∧ added = []) then Some RemovedChainWithoutAddedPath
    else if match head removed with Some hash => bool_decide (hash ≠ low_hash) | None => false end then
      Some RemovedSourceMismatch
    else if decide (last added = Some low_hash) then Some NonAdvancingAddedCursor
    else None in
  match reason with
  | Some reason => Err (Malformed (MalformedVspcResponse reason))
  | None => Ok (MkVspcChange removed added)
  end.

Definition recovery_header self (requested_hash : BlockHash) (block : RpcBlock) :
    option (Result ValidatedRecoveryHeader ResponseNormalizationError) :=
  let header := rb_header block in
  if decide (rh_hash header ≠ requested_hash) then Some (Err (Malformed MalformedGetBlock))
  else
    _ ←? check_score (rh_daa_score header) MAX_DAA_SCORE DaaScore;
    blue_score ←?
      (if decide (requested_hash = genesis_hash self) then Ok 0
       else match check_score (rh_blue_score header) MAX_BLUE_SCORE BlueScore with
            | Ok _ => Ok (rh_blue_score header)
            | Err e => Err e
            end);
    Some (Ok (MkValidatedRecoveryHeader (rh_hash header) (rh_daa_score header)
      (rh_blue_work header) blue_score)).

Definition full_block self (requested_hash : BlockHash) (block : RpcBlock) :
    option (Result ValidatedNodeBlock ResponseNormalizationError) :=
  if decide (rh_hash (rb_header block) ≠ requested_hash) then
    Some (Err (Malformed MalformedGetBlock))
  else validated_as self MalformedGetBlock block.

(** * Specification *)

(** The canonical form: what every consumer of a [ValidatedNodeBlock] relies on. *)
Record canonical_block (genesis : BlockHash) (nb : ValidatedNodeBlock) : Prop := {
  cb_daa : vnb_daa_score nb ≤ MAX_DAA_SCORE;
  cb_blue : vnb_blue_score nb ≤ MAX_BLUE_SCORE;
  cb_parents : NoDup (vnb_direct_parents nb) ∧ vnb_hash nb ∉ vnb_direct_parents nb;
  cb_blues : NoDup (vnb_blue_merge_set nb) ∧ vnb_hash nb ∉ vnb_blue_merge_set nb;
  cb_reds : NoDup (vnb_red_merge_set nb) ∧ vnb_hash nb ∉ vnb_red_merge_set nb;
  cb_selected : vnb_hash nb ≠ genesis → vnb_selected_parent nb ∈ vnb_direct_parents nb
}.

(** First occurrences, as the mirror image of keeping last occurrences. *)
Definition first_occurrences (l : list BlockHash) : list BlockHash :=
  reverse (remove_dups (reverse l)).

Definition raw_parents (b : RpcBlock) : list BlockHash :=
  default [] (head (rh_parents_by_level (rb_header b))).

(** The block the normalizer builds from [b] with verbose data [v]. *)
Definition normal_form (b : RpcBlock) (v : RpcBlockVerboseData) : ValidatedNodeBlock :=
  let h := rb_header b in
  MkValidatedNodeBlock (rh_hash h) (rv_selected_parent_hash v)
    (first_occurrences (raw_parents b))
    (first_occurrences (rv_merge_set_blues_hashes v))
    (first_occurrences (rv_merge_set_reds_hashes v))
    (rh_timestamp h) (rh_daa_score h) (rh_blue_score h) (rh_blue_work h).

Definition genesis_form (b : RpcBlock) : ValidatedNodeBlock :=
  let h := rb_header b in
  MkValidatedNodeBlock (rh_hash h) ORIGIN [] [] [] (rh_timestamp h) (rh_daa_score h) 0 (rh_blue_work h).

(** The outcome, check by check in the order the code makes them. *)
Definition block_outcome (genesis : BlockHash) (b : RpcBlock) :
    Result ValidatedNodeBlock BlockNormalizationError :=
  let h := rb_header b in
  if bool_decide (MAX_DAA_SCORE < rh_daa_score h) then Err (Block_ScoreOutOfRange DaaScore)
  else if bool_decide (rh_hash h = genesis) then Ok (genesis_form b)
  else if bool_decide (MAX_BLUE_SCORE < rh_blue_score h) then Err (Block_ScoreOutOfRange BlueScore)
  else match rb_verbose_data b with
  | None => Err MissingVerboseData
  | Some v =>
    if bool_decide (rh_hash h ∈ raw_parents b) then Err OwnHashReference
    else if bool_decide (rv_selected_parent_hash v ∉ raw_parents b) then Err SelectedParentNotDirect
    else if bool_decide (rh_hash h ∈ rv_merge_set_blues_hashes v ++ rv_merge_set_reds_hashes v)
    then Err OwnHashReference
    else Ok (normal_form b v)
  end.

Lemma first_occurrences_snoc l h :
  first_occurrences (l ++ [h]) =
    if decide (h ∈ l) then first_occurrences l else first_occurrences l ++ [h].
Proof.
  unfold first_occurrences. rewrite reverse_snoc. cbn [remove_dups].
  case (decide_rel (∈) h (reverse l)) as [H|H]; rewrite elem_of_reverse in H;
    destruct (decide (h ∈ l)); try done. by rewrite reverse_cons.
Qed.

Lemma elem_of_first_occurrences h l : h ∈ first_occurrences l ↔ h ∈ l.
Proof. unfold first_occurrences. by rewrite elem_of_reverse, elem_of_remove_dups, elem_of_reverse. Qed.

Lemma NoDup_first_occurrences l : NoDup (first_occurrences l).
Proof. unfold first_occurrences. rewrite reverse_Permutation. apply NoDup_remove_dups. Qed.

Lemma retain_unseen_snoc seen l h :
  retain_unseen seen (l ++ [h]) =
    let '(kept, seen') := retain_unseen seen l in
    if decide (h ∈ seen') then (kept, seen') else (kept ++ [h], {[h]} ∪ seen').
Proof.
  revert seen; induction l as [|x l IH]; intros seen; simpl; [by case_decide|].
  destruct (decide (x ∈ seen)); rewrite IH; [done|].
  destruct (retain_unseen _ l) as [kept seen']. by case_decide.
Qed.

Lemma retain_unseen_spec l : retain_unseen ∅ l = (first_occurrences l, list_to_set l).
Proof.
  induction l as [|h l IH] using rev_ind; [done|].
  rewrite retain_unseen_snoc, IH, first_occurrences_snoc.
  destruct (decide (h ∈ (list_to_set l : gset _))) as [H|H], (decide (h ∈ l)) as [H'|H'];
    rewrite elem_of_list_to_set in H; try done; f_equal; set_solver.
Qed.

Lemma retain_first_occurrences_spec l own :
  retain_first_occurrences l own =
    if decide (own ∈ l) then Err OwnHashReference else Ok (first_occurrences l).
Proof.
  unfold retain_first_occurrences. rewrite retain_unseen_spec.
  destruct (decide (own ∈ (list_to_set l : gset _))) as [H|H], (decide (own ∈ l)); set_solver.
Qed.

Lemma check_score_spec v m f :
  check_score v m f = if bool_decide (m < v) then Err (Response_ScoreOutOfRange f) else Ok tt.
Proof. unfold check_score. by destruct (decide (m < v)); case_bool_decide. Qed.

Lemma validated_block_spec self b :
  validated_block self b = Some (block_outcome (genesis_hash self) b).
Proof.
  unfold validated_block, block_outcome. rewrite !check_score_spec.
  destruct (bool_decide (MAX_DAA_SCORE < _)); [done|]. cbn [map_err_m mbind option_bind try_].
  case (decide (rh_hash (rb_header b) = genesis_hash self)) as [E|E];
    [by rewrite (bool_decide_true _ E)|rewrite (bool_decide_false _ E)].
  destruct (bool_decide (MAX_BLUE_SCORE < _)); [done|]. cbn [map_err_m mbind option_bind try_].
  destruct (rb_verbose_data b) as [v|]; [|done]. cbn [try_].
  rewrite !retain_first_occurrences_spec. fold (raw_parents b).
  destruct (decide (rh_hash (rb_header b) ∈ raw_parents b)) as [Ho|Ho];
    [by rewrite (bool_decide_true _ Ho)|rewrite (bool_decide_false _ Ho)]. cbn [try_].
  rewrite (decide_ext _ (rv_selected_parent_hash v ∉ raw_parents b))
    by (by rewrite elem_of_first_occurrences).
  destruct (decide (rv_selected_parent_hash v ∉ raw_parents b)) as [Hp|Hp];
    [by rewrite (bool_decide_true _ Hp)|rewrite (bool_decide_false _ Hp)].
  destruct (decide (_ ∈ rv_merge_set_blues_hashes v)), (decide (_ ∈ rv_merge_set_reds_hashes v));
    cbn [try_]; case_bool_decide as Hm; rewrite elem_of_app in Hm; tauto.
Qed.

Lemma block_outcome_canonical g b nb :
  block_outcome g b = Ok nb → vnb_hash nb = rh_hash (rb_header b) ∧ canonical_block g nb.
Proof.
  unfold block_outcome. destruct (rb_verbose_data b) as [v|];
    repeat (case_bool_decide; try done); intros [= <-]; (split; [done|]);
    split; simpl; rewrite ?elem_of_first_occurrences; try done; try lia;
    try (split; [apply NoDup_first_occurrences || constructor|]); set_solver.
Qed.

Lemma validated_as_spec self k b :
  validated_as self k b = Some (map_err (classify_block_error k) (block_outcome (genesis_hash self) b)).
Proof. unfold validated_as. by rewrite validated_block_spec. Qed.

Lemma validated_as_Ok self k b nb :
  validated_as self k b = Some (Ok nb) ↔ block_outcome (genesis_hash self) b = Ok nb.
Proof. rewrite validated_as_spec. destruct (block_outcome _ b); simpl; naive_solver. Qed.

Lemma validated_as_Err self k b e :
  validated_as self k b = Some (Err e) →
  e = Malformed k ∨ ∃ f, block_outcome (genesis_hash self) b = Err (Block_ScoreOutOfRange f) ∧
                         e = Response_ScoreOutOfRange f.
Proof. rewrite validated_as_spec. destruct (block_outcome _ b) as [|[]]; simpl; naive_solver. Qed.

(** An accepted page determines the list of its normalized blocks. *)
Lemma page_unique g bs nbs nbs' :
  Forall2 (λ b nb, block_outcome g b = Ok nb) bs nbs →
  Forall2 (λ b nb, block_outcome g b = Ok nb) bs nbs' → nbs = nbs'.
Proof.
  intros H. revert nbs'. induction H; intros nbs' H'; inversion H'; subst; [done|].
  f_equal; [congruence|auto].
Qed.
End normalization.
