(* ===== verification/Vspc.v ===== *)
(** The virtual selected-parent chain processor:
    [crates/kgi-processing/src/vspc_processor.rs].

    Candidate transitions arrive in two streams, synthetic (recovery) and
    notification (node), and wait until the blocks they need are materialized.
    This file holds the run state and its index operations; [VspcWorker] holds
    the worker that drives it.

    A [BTreeMap] keyed by [ConsensusOrder] is a [gmap] iterated in ascending
    order.  [HashMap] and [HashSet] iteration is in [map_to_list] and
    [elements] order. *)

From S2P Require Import Prelude Model Faults.

Definition MAX_PENDING_VSPC_CHANGES : nat := 1024.

Section vspc.
Context {KH : KaspaHash}.

(** * Ordered maps keyed by consensus order *)

Definition order_le {A} (p q : ConsensusOrder * A) : Prop := consensus_le p.1 q.1.
#[global] Instance order_le_dec {A} : RelDecision (@order_le A).
Proof. intros p q. unfold order_le. apply _. Defined.

Definition order_to_list {A} (m : gmap ConsensusOrder A) : list (ConsensusOrder * A) :=
  merge_sort order_le (map_to_list m).

Definition consensus_lt : relation ConsensusOrder := strict consensus_le.
#[global] Instance consensus_lt_dec : RelDecision consensus_lt.
Proof. intros a b. unfold consensus_lt, strict. apply _. Defined.

(** * Data *)

Inductive VspcPhase :=
  | Synchronizing
  | Catchup (synthetic_sink_lower_bound : VspcPoint)
  | Live.

Definition phase_is_live (p : VspcPhase) : bool :=
  match p with Live => true | _ => false end.

Inductive CandidateSource := Synthetic | Notification.
#[global] Instance CandidateSource_eq_dec : EqDecision CandidateSource.
Proof. solve_decision. Defined.

Record PendingCandidate := MkPendingCandidate {
  cand_source : CandidateSource;
  cand_change : VspcChange;
  cand_destination : BlockHash;
  cand_missing : gset BlockHash;
  cand_resolved_destination_order : option ConsensusOrder;
  cand_overlap_credited : bool
}.

Record MaterializedHistory := MkMaterializedHistory {
  by_hash : gmap BlockHash PersistedBlock;
  by_order : gmap ConsensusOrder BlockHash
}.

Record VspcState := MkVspcState {
  phase : VspcPhase;
  committed_sink : VspcPoint;
  history : MaterializedHistory;
  next_pending_id : N;
  pending : gmap N PendingCandidate;
  missing_to_pending : gmap BlockHash (gset N);
  notification_by_destination : gmap BlockHash N;
  resolved_notifications : gmap ConsensusOrder N;
  synthetic_fifo : list N
}.

(** * Materialized history *)

Definition block_order (b : PersistedBlock) : ConsensusOrder := vp_order (pb_point b).
Definition block_hash (b : PersistedBlock) : BlockHash := vp_hash (pb_point b).

Definition history_insert (persisted : PersistedBlock) (h : MaterializedHistory) :
    bool * MaterializedHistory :=
  let hash := block_hash persisted in
  if decide (is_Some (by_hash h !! hash)) then (false, h)
  else (true, MkMaterializedHistory (<[hash := persisted]> (by_hash h))
                                    (<[block_order persisted := hash]> (by_order h))).

Definition MaterializedHistory_new (anchor : MaterializedSyncAnchor) : MaterializedHistory :=
  (history_insert (MkPersistedBlock (msa_point anchor) (msa_selected_parent anchor))
    (MkMaterializedHistory ∅ ∅)).2.

Definition prune_order (h : MaterializedHistory) (order : ConsensusOrder) : MaterializedHistory :=
  match by_order h !! order with
  | Some hash => MkMaterializedHistory (delete hash (by_hash h)) (delete order (by_order h))
  | None => h
  end.

(** [self.by_order.range(..sink.order())], collected, then removed one by one. *)
Definition history_prune_below (sink : VspcPoint) (h : MaterializedHistory) : MaterializedHistory :=
  let stale_orders :=
    filter (λ order, consensus_lt order (vp_order sink)) (order_to_list (by_order h)).*1 in
  foldl prune_order h stale_orders.

(** * Run state *)

Definition VspcState_new (anchor : MaterializedSyncAnchor) : VspcState :=
  MkVspcState Synchronizing (msa_point anchor) (MaterializedHistory_new anchor) 0 ∅ ∅ ∅ ∅ [].

Definition pending_len (st : VspcState) : nat := size (pending st).

Definition st_set_phase (p : VspcPhase) (st : VspcState) : VspcState :=
  MkVspcState p (committed_sink st) (history st) (next_pending_id st) (pending st)
    (missing_to_pending st) (notification_by_destination st) (resolved_notifications st) (synthetic_fifo st).
Definition st_set_sink (s : VspcPoint) (st : VspcState) : VspcState :=
  MkVspcState (phase st) s (history st) (next_pending_id st) (pending st)
    (missing_to_pending st) (notification_by_destination st) (resolved_notifications st) (synthetic_fifo st).
Definition st_set_history (h : MaterializedHistory) (st : VspcState) : VspcState :=
  MkVspcState (phase st) (committed_sink st) h (next_pending_id st) (pending st)
    (missing_to_pending st) (notification_by_destination st) (resolved_notifications st) (synthetic_fifo st).
Definition st_set_next (n : N) (st : VspcState) : VspcState :=
  MkVspcState (phase st) (committed_sink st) (history st) n (pending st)
    (missing_to_pending st) (notification_by_destination st) (resolved_notifications st) (synthetic_fifo st).
(** The pending candidates with their four indexes. *)
Definition st_set_pending (p : gmap N PendingCandidate) (mp : gmap BlockHash (gset N))
    (nd : gmap BlockHash N) (rn : gmap ConsensusOrder N) (sf : list N) (st : VspcState) : VspcState :=
  MkVspcState (phase st) (committed_sink st) (history st) (next_pending_id st) p mp nd rn sf.

(** [None]: the identifier overflowed. *)
Definition allocate_pending_id (st : VspcState) : option (N * VspcState) :=
  next ← checked_add (next_pending_id st) 1;
  Some (next_pending_id st, st_set_next next st).

(** The loop dropping [id] from the waiters of each missing hash, and the one adding it. *)
Definition unlink_waiters (id : N) (missing : gset BlockHash) (m : gmap BlockHash (gset N)) :
    gmap BlockHash (gset N) :=
  foldl (λ m hash, mm_remove hash id m) m (elements missing).
Definition link_waiters (id : N) (missing : gset BlockHash) (m : gmap BlockHash (gset N)) :
    gmap BlockHash (gset N) :=
  foldl (λ m hash, mm_insert hash id m) m (elements missing).

Definition remove_resolved (order : option ConsensusOrder) (m : gmap ConsensusOrder N) :
    gmap ConsensusOrder N :=
  match order with Some order => delete order m | None => m end.
Definition insert_resolved (order : option ConsensusOrder) (id : N) (m : gmap ConsensusOrder N) :
    gmap ConsensusOrder N :=
  match order with Some order => <[order := id]> m | None => m end.

Definition remove_candidate (id : N) (st : VspcState) : VspcState * option PendingCandidate :=
  match pending st !! id with
  | None => (st, None)
  | Some candidate =>
    let waiters := unlink_waiters id (cand_missing candidate) (missing_to_pending st) in
    (if decide (cand_source candidate = Notification) then
       st_set_pending (delete id (pending st)) waiters
         (delete (cand_destination candidate) (notification_by_destination st))
         (remove_resolved (cand_resolved_destination_order candidate) (resolved_notifications st))
         (synthetic_fifo st) st
     else
       st_set_pending (delete id (pending st)) waiters
         (notification_by_destination st) (resolved_notifications st)
         (filter (.≠ id) (synthetic_fifo st)) st,
     Some candidate)
  end.

Definition clear_synthetic (st : VspcState) : VspcState :=
  foldl (λ st id, (remove_candidate id st).1) st (synthetic_fifo st).

(** [None]: the change has no added path, which the [expect]s rule out. *)
Definition required_history (st : VspcState) (change : VspcChange) : option (gset BlockHash) :=
  destination ← last (ch_added change);
  required ←
    match head (ch_removed change) with
    | Some source => Some ({[source]} ∪ {[destination]})
    | None =>
      first ← head (ch_added change);
      let required := list_to_set (ch_added change) ∪ {[destination]} in
      Some (match by_hash (history st) !! first with
            | Some first => {[pb_selected_parent first]} ∪ required
            | None => required
            end)
    end;
  Some (filter (λ hash, by_hash (history st) !! hash = None) required).

Definition resolved_order (st : VspcState) (destination : BlockHash) : option ConsensusOrder :=
  block_order <$> by_hash (history st) !! destination.

Definition refresh_candidate (st : VspcState) (id : N) : option VspcState :=
  match pending st !! id with
  | None => Some st
  | Some candidate =>
    let is_notification := bool_decide (cand_source candidate = Notification) in
    let waiters := unlink_waiters id (cand_missing candidate) (missing_to_pending st) in
    let resolved :=
      if is_notification then
        remove_resolved (cand_resolved_destination_order candidate) (resolved_notifications st)
      else resolved_notifications st in
    missing ← required_history st (cand_change candidate);
    let order := resolved_order st (cand_destination candidate) in
    Some (st_set_pending
      (<[id := MkPendingCandidate (cand_source candidate) (cand_change candidate)
                 (cand_destination candidate) missing order (cand_overlap_credited candidate)]>
         (pending st))
      (link_waiters id missing waiters)
      (notification_by_destination st)
      (if is_notification then insert_resolved order id resolved else resolved)
      (synthetic_fifo st) st)
  end.

Definition prune_history (st : VspcState) : option VspcState :=
  let st := st_set_history (history_prune_below (committed_sink st) (history st)) st in
  fold_m refresh_candidate st (map_to_list (pending st)).*1.

Definition endpoints (st : VspcState) (change : VspcChange) : option (VspcPoint * VspcPoint) :=
  destination_hash ← last (ch_added change);
  destination ← by_hash (history st) !! destination_hash;
  source_hash ←
    match head (ch_removed change) with
    | Some source => Some source
    | None =>
      first_hash ← head (ch_added change);
      first ← by_hash (history st) !! first_hash;
      Some (pb_selected_parent first)
    end;
  source ← by_hash (history st) !! source_hash;
  Some (pb_point source, pb_point destination).
End vspc.
