(* ===== verification/VspcIndex.v ===== *)
(** Invariants of the VSPC run state: the materialized history keeps its two
    indexes in step, the pending candidates keep their four, and what each
    candidate still misses is exactly what its change requires. *)

From S2P Require Import Prelude Model Faults Vspc.

Section vspc_index.
Context {KH : KaspaHash}.
Implicit Types st : VspcState.

(** * Invariants *)

Record history_wf (h : MaterializedHistory) : Prop := {
  hw_key x b : by_hash h !! x = Some b → block_hash b = x;
  hw_order o x : by_order h !! o = Some x ↔ ∃ b, by_hash h !! x = Some b ∧ block_order b = o
}.

Record index_inv st : Prop := {
  ii_next id c : pending st !! id = Some c → id < next_pending_id st;
  ii_wf : mm_wf (missing_to_pending st);
  ii_missing id h : id ∈ mm_get (missing_to_pending st) h ↔
    ∃ c, pending st !! id = Some c ∧ h ∈ cand_missing c;
  ii_destination d id : notification_by_destination st !! d = Some id ↔
    ∃ c, pending st !! id = Some c ∧ cand_source c = Notification ∧ cand_destination c = d;
  ii_resolved o id : resolved_notifications st !! o = Some id ↔
    ∃ c, pending st !! id = Some c ∧ cand_source c = Notification ∧
         cand_resolved_destination_order c = Some o;
  ii_resolved_hash id c o : pending st !! id = Some c →
    cand_resolved_destination_order c = Some o → co_hash o = cand_destination c;
  ii_fifo id : id ∈ synthetic_fifo st ↔ ∃ c, pending st !! id = Some c ∧ cand_source c = Synthetic;
  ii_fifo_sorted : StronglySorted N.lt (synthetic_fifo st);
  ii_change id c : pending st !! id = Some c → last (ch_added (cand_change c)) = Some (cand_destination c);
  ii_capacity : (size (pending st) ≤ MAX_PENDING_VSPC_CHANGES)%nat
}.

(** The candidate's dependency data agree with the current history. *)
Definition fresh st (c : PendingCandidate) : Prop :=
  required_history st (cand_change c) = Some (cand_missing c) ∧
  cand_resolved_destination_order c = resolved_order st (cand_destination c).

Record state_inv st : Prop := {
  si_history : history_wf (history st);
  si_index : index_inv st;
  si_fresh id c : pending st !! id = Some c → fresh st c
}.

(** * History *)

Lemma block_order_hash b : co_hash (block_order b) = block_hash b.
Proof. done. Qed.

Lemma history_wf_empty : history_wf (MkMaterializedHistory ∅ ∅).
Proof. split; simpl; intros *; rewrite !lookup_empty; naive_solver. Qed.

Lemma history_insert_wf b h : history_wf h → history_wf (history_insert b h).2.
Proof.
  intros [Hk Ho]. unfold history_insert.
  destruct (decide (is_Some (by_hash h !! block_hash b))) as [|Hn]; [by split|].
  apply eq_None_not_Some in Hn. split; simpl.
  - intros x b'. rewrite lookup_insert_Some. intros [[<- <-]|[_ ?]]; [done|eauto].
  - intros o x. rewrite lookup_insert_Some, Ho. split.
    + intros [[<- <-]|(Hno & b' & Hb' & <-)].
      * exists b. by rewrite lookup_insert_eq.
      * exists b'. split; [|done]. rewrite lookup_insert_ne; [done|]. intros <-. congruence.
    + intros (b' & [[<- <-]|[Hx Hb']]%lookup_insert_Some & <-); [by left|].
      right. split; [|eauto]. intros E. apply Hx.
      rewrite <- (Hk _ _ Hb'), <- !block_order_hash. by rewrite E.
Qed.

Lemma prune_order_spec o h :
  history_wf h → history_wf (prune_order h o) ∧
  ∀ x b, by_hash (prune_order h o) !! x = Some b ↔ by_hash h !! x = Some b ∧ block_order b ≠ o.
Proof.
  intros [Hk Ho]. unfold prune_order. destruct (by_order h !! o) as [y|] eqn:E; simpl.
  - pose proof E as (by' & Hy & Hyo)%Ho.
    assert (∀ x b, by_hash h !! x = Some b → x = y ↔ block_order b = o) as Hiff.
    { intros x b Hx. split; [intros ->; congruence|]. intros Hbo.
      rewrite <- (Hk _ _ Hx), <- (Hk _ _ Hy), <- !block_order_hash. congruence. }
    assert (∀ x b, delete y (by_hash h) !! x = Some b ↔ by_hash h !! x = Some b ∧ block_order b ≠ o)
      as Hd.
    { intros x b. rewrite lookup_delete_Some. split.
      - intros [Hne Hx]. split; [done|]. rewrite <- (Hiff _ _ Hx). congruence.
      - intros [Hx Hne]. split; [|done]. rewrite <- (Hiff _ _ Hx) in Hne. congruence. }
    split; [|done]. split; simpl.
    + intros x b [? _]%Hd. eauto.
    + intros o' x. rewrite lookup_delete_Some, Ho. split.
      * intros (Hne & b & Hb & <-). exists b. by rewrite Hd.
      * intros (b & [Hb Hne]%Hd & <-). eauto.
  - split; [by split|]. intros x b. split; [|tauto]. intros Hx. split; [done|]. intros <-.
    assert (by_order h !! block_order b = Some x) by (apply Ho; eauto). congruence.
Qed.

Lemma prune_orders_spec os h :
  history_wf h → history_wf (foldl prune_order h os) ∧
  ∀ x b, by_hash (foldl prune_order h os) !! x = Some b ↔ by_hash h !! x = Some b ∧ block_order b ∉ os.
Proof.
  revert h; induction os as [|o os IH]; intros h Hh; simpl.
  - split; [done|]. intros. set_solver.
  - destruct (prune_order_spec o h Hh) as [Hw Hl]. destruct (IH _ Hw) as [Hw' Hl'].
    split; [done|]. intros x b. rewrite Hl', Hl. set_solver.
Qed.

Lemma elem_of_order_to_list {A} (m : gmap ConsensusOrder A) o x :
  (o, x) ∈ order_to_list m ↔ m !! o = Some x.
Proof. unfold order_to_list. rewrite merge_sort_Permutation. apply elem_of_map_to_list. Qed.

(** Pruning keeps exactly the blocks at or above the sink. *)
Lemma history_prune_below_spec sink h :
  history_wf h → history_wf (history_prune_below sink h) ∧
  ∀ x b, by_hash (history_prune_below sink h) !! x = Some b ↔
    by_hash h !! x = Some b ∧ ¬ consensus_lt (block_order b) (vp_order sink).
Proof.
  intros Hh. unfold history_prune_below.
  match goal with |- context [foldl _ _ ?os] => destruct (prune_orders_spec os h Hh) as [Hw Hl] end.
  split; [done|]. intros x b. rewrite Hl. split; intros [Hx Hn]; (split; [done|]).
  - intros Hlt. apply Hn, list_elem_of_filter. split; [done|].
    apply list_elem_of_fmap. exists (block_order b, x). split; [done|].
    apply elem_of_order_to_list, (hw_order _ Hh). eauto.
  - intros [? _]%list_elem_of_filter. done.
Qed.

(** * Waiter index *)

Lemma unlink_waiters_get id missing m h :
  mm_get (unlink_waiters id missing m) h =
    if decide (h ∈ missing) then mm_get m h ∖ {[id]} else mm_get m h.
Proof.
  unfold unlink_waiters. rewrite (decide_ext (h ∈ missing) (h ∈ elements missing)) by (by rewrite elem_of_elements).
  revert m. induction (elements missing) as [|x l IH]; intros m; simpl;
    [done|].
  rewrite IH, mm_get_remove.
  destruct (decide (h ∈ l)), (decide (h ∈ x :: l)), (decide (x = h)); subst; set_solver.
Qed.

Lemma link_waiters_get id missing m h :
  mm_get (link_waiters id missing m) h =
    if decide (h ∈ missing) then {[id]} ∪ mm_get m h else mm_get m h.
Proof.
  unfold link_waiters. rewrite (decide_ext (h ∈ missing) (h ∈ elements missing)) by (by rewrite elem_of_elements).
  revert m. induction (elements missing) as [|x l IH]; intros m; simpl;
    [done|].
  rewrite IH, mm_get_insert.
  destruct (decide (h ∈ l)), (decide (h ∈ x :: l)), (decide (x = h)); subst; set_solver.
Qed.

Lemma unlink_waiters_wf id missing m : mm_wf m → mm_wf (unlink_waiters id missing m).
Proof. intros. unfold unlink_waiters. apply foldl_inv; auto with kgi. Qed.
Lemma link_waiters_wf id missing m : mm_wf m → mm_wf (link_waiters id missing m).
Proof. intros. unfold link_waiters. apply foldl_inv; auto with kgi. Qed.

(** * Candidates *)

(** Two pending notifications never share a destination. *)
Lemma destination_unique st id1 id2 c1 c2 :
  index_inv st → pending st !! id1 = Some c1 → pending st !! id2 = Some c2 →
  cand_source c1 = Notification → cand_source c2 = Notification →
  cand_destination c1 = cand_destination c2 → id1 = id2.
Proof.
  intros Hi H1 H2 S1 S2 Hd.
  assert (notification_by_destination st !! cand_destination c1 = Some id1) by (apply (ii_destination _ Hi); eauto).
  assert (notification_by_destination st !! cand_destination c1 = Some id2)
    by (apply (ii_destination _ Hi); exists c2; split_and!; congruence).
  congruence.
Qed.

Definition refresh_resolved (id : N) (c c' : PendingCandidate) (m : gmap ConsensusOrder N) :
    gmap ConsensusOrder N :=
  if bool_decide (cand_source c = Notification) then
    insert_resolved (cand_resolved_destination_order c') id
      (remove_resolved (cand_resolved_destination_order c) m)
  else m.

(** The index of resolved notifications follows a candidate's new order. *)
Lemma refresh_resolved_spec st id c c' o i :
  index_inv st → pending st !! id = Some c → cand_source c' = cand_source c →
  cand_destination c' = cand_destination c →
  (∀ o, cand_resolved_destination_order c' = Some o → co_hash o = cand_destination c) →
  refresh_resolved id c c' (resolved_notifications st) !! o = Some i ↔
  ∃ x, <[id := c']> (pending st) !! i = Some x ∧ cand_source x = Notification ∧
       cand_resolved_destination_order x = Some o.
Proof.
  intros Hi Hc Hs Hd Ho. unfold refresh_resolved.
  assert (resolved_notifications st !! o = Some i ∧ i ≠ id ↔
    ∃ x, <[id := c']> (pending st) !! i = Some x ∧ i ≠ id ∧ cand_source x = Notification ∧
         cand_resolved_destination_order x = Some o) as Hother.
  { rewrite (ii_resolved _ Hi). split.
    - intros [(x & ? & ? & ?) Hne]. exists x. by rewrite lookup_insert_ne by congruence.
    - intros (x & Hx & Hne & ? & ?). rewrite lookup_insert_ne in Hx by congruence. eauto 6. }
  assert (i = id → (∃ x, <[id := c']> (pending st) !! i = Some x ∧ cand_source x = Notification ∧
    cand_resolved_destination_order x = Some o) ↔
    cand_source c = Notification ∧ cand_resolved_destination_order c' = Some o) as Hsame.
  { intros ->. rewrite lookup_insert_eq. split; [intros (x & [= <-] & ? & ?); split; congruence|].
    intros [? ?]. exists c'. split_and!; congruence. }
  assert (resolved_notifications st !! o = Some id ↔
    cand_source c = Notification ∧ cand_resolved_destination_order c = Some o) as Hself.
  { rewrite (ii_resolved _ Hi). split; [intros (x & ? & ? & ?); split; congruence|].
    intros []. eauto. }
  case_bool_decide as Hn; destruct (decide (i = id)) as [->|Hne].
  - rewrite Hsame by done. destruct (cand_resolved_destination_order c') as [o'|] eqn:E'; simpl.
    + rewrite lookup_insert. case_decide; [naive_solver|].
      unfold remove_resolved. destruct (cand_resolved_destination_order c) as [p|];
        rewrite ?lookup_delete_Some; naive_solver.
    + unfold remove_resolved. destruct (cand_resolved_destination_order c) as [p|];
        rewrite ?lookup_delete_Some; naive_solver.
  - transitivity (resolved_notifications st !! o = Some i ∧ i ≠ id); [|rewrite Hother; naive_solver].
    assert (remove_resolved (cand_resolved_destination_order c) (resolved_notifications st) !! o = Some i ↔
      resolved_notifications st !! o = Some i ∧ i ≠ id) as Hrem.
    { unfold remove_resolved. destruct (cand_resolved_destination_order c) as [p|] eqn:Ep;
        rewrite ?lookup_delete_Some; [|tauto]. split; [tauto|]. intros [H ?]. split; [|done].
      intros <-. assert (resolved_notifications st !! p = Some id) by (apply Hself; done). congruence. }
    destruct (cand_resolved_destination_order c') as [o'|] eqn:E'; simpl; [|done].
    rewrite lookup_insert. case_decide as Ho'; [|done]. subst o'. split; [congruence|].
    intros [(x & Hx & Hxs & Hxo)%(ii_resolved _ Hi) _]. exfalso. apply Hne.
    apply (destination_unique st i id x c); try done.
    rewrite <- (ii_resolved_hash _ Hi i x o Hx Hxo). auto.
  - rewrite Hsame by done. rewrite Hself. tauto.
  - transitivity (resolved_notifications st !! o = Some i ∧ i ≠ id); [tauto|rewrite Hother; naive_solver].
Qed.

(** Replacing a candidate by one with the same source and destination. *)
Lemma replace_candidate_inv st id c c' :
  index_inv st → pending st !! id = Some c → cand_source c' = cand_source c →
  cand_destination c' = cand_destination c →
  last (ch_added (cand_change c')) = Some (cand_destination c) →
  (∀ o, cand_resolved_destination_order c' = Some o → co_hash o = cand_destination c) →
  index_inv (st_set_pending (<[id := c']> (pending st))
    (link_waiters id (cand_missing c') (unlink_waiters id (cand_missing c) (missing_to_pending st)))
    (notification_by_destination st)
    (refresh_resolved id c c' (resolved_notifications st)) (synthetic_fifo st) st).
Proof.
  intros Hi Hc Hs Hd Hl Ho.
  assert (∀ i (P : PendingCandidate → Prop), (P c ↔ P c') →
    (∃ x, <[id := c']> (pending st) !! i = Some x ∧ P x) ↔ (∃ x, pending st !! i = Some x ∧ P x)) as Hins.
  { intros i P HP. destruct (decide (i = id)) as [->|Hne].
    - rewrite lookup_insert_eq, Hc. naive_solver.
    - by rewrite lookup_insert_ne by congruence. }
  split; simpl.
  - intros i x. rewrite lookup_insert_Some. intros [[<- _]|[_ ?]]; eapply (ii_next _ Hi); eauto.
  - apply link_waiters_wf, unlink_waiters_wf, (ii_wf _ Hi).
  - intros i h. rewrite link_waiters_get, unlink_waiters_get. pose proof (ii_missing _ Hi i h) as Hm.
    destruct (decide (i = id)) as [->|Hne].
    + rewrite lookup_insert_eq. rewrite Hc in Hm.
      destruct (decide (h ∈ cand_missing c')), (decide (h ∈ cand_missing c)); set_solver.
    + rewrite lookup_insert_ne by congruence. rewrite <- Hm.
      destruct (decide (h ∈ cand_missing c')), (decide (h ∈ cand_missing c)); set_solver.
  - intros d i. rewrite (ii_destination _ Hi). symmetry. apply Hins. by rewrite Hs, Hd.
  - intros o i. by apply refresh_resolved_spec.
  - intros i x o. rewrite lookup_insert_Some.
    intros [[<- <-]|[_ ?]]; [rewrite Hd; auto|eapply (ii_resolved_hash _ Hi); eauto].
  - intros i. rewrite (ii_fifo _ Hi). symmetry. apply Hins. by rewrite Hs.
  - apply (ii_fifo_sorted _ Hi).
  - intros i x. rewrite lookup_insert_Some.
    intros [[<- <-]|[_ ?]]; [by rewrite Hd|eapply (ii_change _ Hi); eauto].
  - rewrite map_size_insert_Some by eauto. apply (ii_capacity _ Hi).
Qed.

(** Everything but the pending candidates and their dependency indexes is kept. *)
Record same_frame st st' : Prop := {
  sf_phase : phase st' = phase st;
  sf_sink : committed_sink st' = committed_sink st;
  sf_history : history st' = history st;
  sf_next : next_pending_id st' = next_pending_id st;
  sf_destination : notification_by_destination st' = notification_by_destination st;
  sf_fifo : synthetic_fifo st' = synthetic_fifo st
}.

Lemma same_frame_refl st : same_frame st st.
Proof. done. Qed.
Lemma same_frame_trans st1 st2 st3 : same_frame st1 st2 → same_frame st2 st3 → same_frame st1 st3.
Proof. intros [] []. split; congruence. Qed.

(** A candidate with its dependency data recomputed. *)
Definition refreshed st (c : PendingCandidate) : PendingCandidate :=
  MkPendingCandidate (cand_source c) (cand_change c) (cand_destination c)
    (default ∅ (required_history st (cand_change c)))
    (resolved_order st (cand_destination c)) (cand_overlap_credited c).

Lemma required_history_total st ch d :
  last (ch_added ch) = Some d → is_Some (required_history st ch).
Proof.
  unfold required_history. intros Hd. rewrite Hd. run_bind.
  destruct (head (ch_removed ch)); [eauto|].
  destruct (ch_added ch) as [|a l]; [done|]. simpl. eauto.
Qed.

Lemma required_history_frame st st' ch :
  history st' = history st → required_history st' ch = required_history st ch.
Proof. unfold required_history. by intros ->. Qed.
Lemma resolved_order_frame st st' d :
  history st' = history st → resolved_order st' d = resolved_order st d.
Proof. unfold resolved_order. by intros ->. Qed.
Lemma refreshed_frame st st' c : history st' = history st → refreshed st' c = refreshed st c.
Proof.
  intros E. unfold refreshed. by rewrite (required_history_frame st st'), (resolved_order_frame st st').
Qed.

Lemma resolved_order_hash st d o :
  history_wf (history st) → resolved_order st d = Some o → co_hash o = d.
Proof.
  intros Hh. unfold resolved_order. rewrite fmap_Some. intros (b & Hb & ->).
  rewrite block_order_hash. by apply (hw_key _ Hh).
Qed.

Lemma fresh_refreshed st c d : last (ch_added (cand_change c)) = Some d → fresh st (refreshed st c).
Proof.
  intros Hd. split; [|done]. simpl. by destruct (required_history_total st (cand_change c) d Hd) as [m ->].
Qed.
Lemma fresh_frame st st' c : history st' = history st → fresh st c → fresh st' c.
Proof.
  intros E. unfold fresh. by rewrite (required_history_frame st st'), (resolved_order_frame st st').
Qed.
Lemma refreshed_fresh st c : fresh st c → refreshed st c = c.
Proof. destruct c. unfold fresh, refreshed. simpl. intros [-> ->]. done. Qed.

Lemma refresh_candidate_spec st id :
  history_wf (history st) → index_inv st →
  ∃ st', refresh_candidate st id = Some st' ∧ index_inv st' ∧ same_frame st st' ∧
    pending st' = alter (refreshed st) id (pending st).
Proof.
  intros Hh Hi. unfold refresh_candidate. destruct (pending st !! id) as [c|] eqn:E.
  - pose proof (ii_change _ Hi id c E) as Hl.
    destruct (required_history_total st (cand_change c) _ Hl) as [m Hm]. rewrite Hm. run_bind.
    eexists. split; [done|]. split_and!; [|by split|].
    + pose proof (replace_candidate_inv st id c (refreshed st c) Hi E eq_refl eq_refl Hl) as H.
      unfold refreshed, refresh_resolved in H. simpl in H. rewrite Hm in H. simpl in H.
      replace (if bool_decide (cand_source c = Notification) then _ else _) with
        (if bool_decide (cand_source c = Notification)
         then insert_resolved (resolved_order st (cand_destination c)) id
           (remove_resolved (cand_resolved_destination_order c) (resolved_notifications st))
         else resolved_notifications st) by (by case_bool_decide).
      apply H. intros o. by apply resolved_order_hash.
    + simpl. apply map_eq; intros i. rewrite lookup_insert. case_decide as Hid.
      * subst. rewrite lookup_alter_eq, E. simpl. unfold refreshed. by rewrite Hm.
      * by rewrite lookup_alter_ne.
  - exists st. split_and!; [done|done|done|]. symmetry. by apply alter_id; naive_solver.
Qed.

Lemma refresh_all_spec st ids :
  history_wf (history st) → index_inv st →
  ∃ st', fold_m refresh_candidate st ids = Some st' ∧ index_inv st' ∧ same_frame st st' ∧
    ∀ i, pending st' !! i = if decide (i ∈ ids) then refreshed st <$> pending st !! i else pending st !! i.
Proof.
  revert st; induction ids as [|id ids IH]; intros st Hh Hi.
  { exists st. split_and!; done. }
  destruct (refresh_candidate_spec st id Hh Hi) as (st1 & E1 & Hi1 & F1 & P1).
  destruct (IH st1) as (st2 & E2 & Hi2 & F2 & P2); [by rewrite (sf_history _ _ F1)|done|].
  exists st2. cbn [fold_m]. rewrite E1. run_bind.
  split_and!; [done|done|by eapply same_frame_trans|].
  intros i. rewrite P2, P1, lookup_alter.
  assert (∀ c, refreshed st1 c = refreshed st c) as R by (intros; apply refreshed_frame, (sf_history _ _ F1)).
  rewrite (decide_ext (i ∈ id :: ids) (i = id ∨ i ∈ ids)) by apply elem_of_cons.
  destruct (decide (i ∈ ids)) as [Hin|Hin], (decide (id = i)) as [Hid|Hid];
    [rewrite decide_True by tauto|rewrite decide_True by tauto
    |rewrite decide_True by auto|rewrite decide_False by (intros [?|?]; congruence)];
    try subst id; destruct (pending st !! i); simpl; rewrite ?R; done.
Qed.

(** Refreshing every candidate re-establishes the invariant, whatever the history became. *)
Lemma refresh_pending_inv st :
  history_wf (history st) → index_inv st →
  ∃ st', fold_m refresh_candidate st (map_to_list (pending st)).*1 = Some st' ∧
    state_inv st' ∧ same_frame st st' ∧ pending st' = refreshed st <$> pending st.
Proof.
  intros Hh Hi. destruct (refresh_all_spec st (map_to_list (pending st)).*1 Hh Hi)
    as (st' & E & Hi' & F & P).
  assert (pending st' = refreshed st <$> pending st) as HP.
  { apply map_eq; intros i. rewrite P, lookup_fmap. case_decide as Hin; [done|].
    destruct (pending st !! i) as [c|] eqn:Ec; [|done]. exfalso. apply Hin.
    apply list_elem_of_fmap. exists (i, c). split; [done|]. by apply elem_of_map_to_list. }
  exists st'. split_and!; try done. split; [by rewrite (sf_history _ _ F)|done|].
  intros i c. rewrite HP, lookup_fmap, fmap_Some. intros (c0 & Hc0 & ->).
  eapply (fresh_frame st); [apply (sf_history _ _ F)|].
  eapply fresh_refreshed, (ii_change _ Hi), Hc0.
Qed.

Lemma prune_history_spec st :
  history_wf (history st) → index_inv st →
  ∃ st', prune_history st = Some st' ∧ state_inv st' ∧
    history st' = history_prune_below (committed_sink st) (history st) ∧
    phase st' = phase st ∧ committed_sink st' = committed_sink st ∧ next_pending_id st' = next_pending_id st ∧
    pending st' = refreshed st' <$> pending st.
Proof.
  intros Hh Hi. unfold prune_history. set (st1 := st_set_history _ st).
  destruct (refresh_pending_inv st1) as (st' & E & Hs & F & P).
  { apply history_prune_below_spec, Hh. }
  { destruct Hi. by split. }
  exists st'. destruct F. split_and!; try done. rewrite P. apply map_fmap_ext.
  intros i c _. symmetry. by apply refreshed_frame.
Qed.

Lemma sorted_filter_lt (P : N → Prop) `{∀ x, Decision (P x)} l :
  StronglySorted N.lt l → StronglySorted N.lt (filter P l).
Proof.
  induction 1 as [|x l Hs IH Hf]; [constructor|]. rewrite filter_cons. case_decide; [|done].
  constructor; [done|]. rewrite Forall_forall in *. intros y [_ ?]%list_elem_of_filter. auto.
Qed.

(** Dropping a candidate from the pending map and from each index. *)
Lemma drop_candidate_inv st id c nd rn sf :
  index_inv st → pending st !! id = Some c →
  (∀ d i, nd !! d = Some i ↔ notification_by_destination st !! d = Some i ∧ i ≠ id) →
  (∀ o i, rn !! o = Some i ↔ resolved_notifications st !! o = Some i ∧ i ≠ id) →
  (∀ i, i ∈ sf ↔ i ∈ synthetic_fifo st ∧ i ≠ id) → StronglySorted N.lt sf →
  index_inv (st_set_pending (delete id (pending st))
    (unlink_waiters id (cand_missing c) (missing_to_pending st)) nd rn sf st).
Proof.
  intros Hi E Hnd Hrn Hsf Hsort.
  assert (∀ i (P : PendingCandidate → Prop),
    (∃ x, delete id (pending st) !! i = Some x ∧ P x) ↔ i ≠ id ∧ (∃ x, pending st !! i = Some x ∧ P x)) as Hdel.
  { intros i P. setoid_rewrite lookup_delete_Some. split.
    - intros (x & [? ?] & ?). split; [congruence|eauto].
    - intros [? (x & ? & ?)]. exists x. split_and!; congruence. }
  split; simpl.
  - intros i x [_ ?]%lookup_delete_Some. eapply (ii_next _ Hi); eauto.
  - apply unlink_waiters_wf, (ii_wf _ Hi).
  - intros i h. rewrite Hdel, unlink_waiters_get, <- (ii_missing _ Hi).
    assert (id ∈ mm_get (missing_to_pending st) h ↔ h ∈ cand_missing c) as Hself.
    { rewrite (ii_missing _ Hi), E. split; [by intros (? & [= <-] & ?)|eauto]. }
    destruct (decide (h ∈ cand_missing c)), (decide (i = id)) as [->|]; set_solver.
  - intros d i. rewrite Hnd, (ii_destination _ Hi), Hdel. tauto.
  - intros o i. rewrite Hrn, (ii_resolved _ Hi), Hdel. tauto.
  - intros i x o [_ ?]%lookup_delete_Some. by eapply (ii_resolved_hash _ Hi).
  - intros i. rewrite Hsf, (ii_fifo _ Hi), Hdel. tauto.
  - done.
  - intros i x [_ ?]%lookup_delete_Some. by eapply (ii_change _ Hi).
  - rewrite map_size_delete_Some by eauto. pose proof (ii_capacity _ Hi). lia.
Qed.

Lemma destination_entry_of st id c d i :
  index_inv st → pending st !! id = Some c → notification_by_destination st !! d = Some i →
  i = id ↔ cand_source c = Notification ∧ d = cand_destination c.
Proof.
  intros Hi E (x & Hxp & Hxs & <-)%(ii_destination _ Hi). split.
  - intros ->. assert (x = c) as -> by congruence. done.
  - intros [? ?]. by eapply (destination_unique st i id).
Qed.

Lemma resolved_entry_of st id c o i :
  index_inv st → pending st !! id = Some c → resolved_notifications st !! o = Some i →
  i = id ↔ cand_source c = Notification ∧ cand_resolved_destination_order c = Some o.
Proof.
  intros Hi E (x & Hxp & Hxs & Hxo)%(ii_resolved _ Hi). split.
  - intros ->. assert (x = c) as -> by congruence. done.
  - intros [? Hco]. eapply (destination_unique st i id); [done..|].
    by rewrite <- (ii_resolved_hash _ Hi i x o), <- (ii_resolved_hash _ Hi id c o).
Qed.

Lemma remove_candidate_spec st id :
  index_inv st →
  let st' := (remove_candidate id st).1 in
  index_inv st' ∧ pending st' = delete id (pending st) ∧
  phase st' = phase st ∧ committed_sink st' = committed_sink st ∧ history st' = history st ∧
  next_pending_id st' = next_pending_id st.
Proof.
  intros Hi. unfold remove_candidate. destruct (pending st !! id) as [c|] eqn:E; simpl; cycle 1.
  { split_and!; try done. by rewrite delete_id. }
  pose proof (λ d i, destination_entry_of st id c d i Hi E) as Hnd.
  pose proof (λ o i, resolved_entry_of st id c o i Hi E) as Hrn.
  assert (∀ i, i ∈ synthetic_fifo st → i = id → cand_source c = Synthetic) as Hsf.
  { intros i (x & Hx & Hxs)%(ii_fifo _ Hi) ->. congruence. }
  case_decide as Hs; (split; [|done]); apply drop_candidate_inv; try done.
  - intros d i. rewrite lookup_delete_Some. split; intros [H1 H2].
    + split; [done|]. rewrite (Hnd _ _ H2). intros [_ ->]. done.
    + split; [|done]. intros <-. apply H2, (Hnd _ _ H1). done.
  - intros o i. destruct (cand_resolved_destination_order c) as [p|] eqn:Ep; simpl.
    + rewrite lookup_delete_Some. split; intros [H1 H2].
      * split; [done|]. rewrite (Hrn _ _ H2). intros [_ [= ->]]. done.
      * split; [|done]. intros <-. apply H2, (Hrn _ _ H1). done.
    + split; [|tauto]. intros H. split; [done|]. rewrite (Hrn _ _ H). by intros [_ ?].
  - intros i. split; [|tauto]. intros H. split; [done|]. intros Hid. rewrite (Hsf _ H Hid) in Hs. done.
  - apply (ii_fifo_sorted _ Hi).
  - intros d i. split; [|tauto]. intros H. split; [done|]. rewrite (Hnd _ _ H). tauto.
  - intros o i. split; [|tauto]. intros H. split; [done|]. rewrite (Hrn _ _ H). tauto.
  - intros i. rewrite list_elem_of_filter. tauto.
  - apply sorted_filter_lt, (ii_fifo_sorted _ Hi).
Qed.

(** * Run-state operations *)

Lemma remove_candidate_inv st id : state_inv st → state_inv (remove_candidate id st).1.
Proof.
  intros [Hh Hi Hf]. destruct (remove_candidate_spec st id Hi) as (Hi' & P & _ & _ & H & _).
  split; [by rewrite H|done|]. intros i c. rewrite P. intros [_ Hc]%lookup_delete_Some.
  by eapply fresh_frame, Hf.
Qed.

Lemma remove_all_spec st ids :
  state_inv st →
  let st' := foldl (λ st id, (remove_candidate id st).1) st ids in
  state_inv st' ∧ phase st' = phase st ∧ committed_sink st' = committed_sink st ∧
  history st' = history st ∧
  (∀ i, pending st' !! i = if decide (i ∈ ids) then None else pending st !! i).
Proof.
  revert st; induction ids as [|id ids IH]; intros st Hs; simpl; [done|].
  destruct (remove_candidate_spec st id (si_index _ Hs)) as (_ & P & F1 & F2 & F3 & _).
  destruct (IH _ (remove_candidate_inv st id Hs)) as (Hs' & F1' & F2' & F3' & P').
  split_and!; [done|congruence..|]. intros i. rewrite P', P, lookup_delete.
  destruct (decide (i ∈ ids)), (decide (id = i)), (decide (i ∈ id :: ids)); subst; set_solver.
Qed.

(** Entering Live drops every synthetic candidate and no notification. *)
Lemma clear_synthetic_spec st :
  state_inv st →
  let st' := clear_synthetic st in
  state_inv st' ∧ committed_sink st' = committed_sink st ∧ history st' = history st ∧
  synthetic_fifo st' = [] ∧
  ∀ i c, pending st' !! i = Some c ↔ pending st !! i = Some c ∧ cand_source c = Notification.
Proof.
  intros Hs. destruct (remove_all_spec st (synthetic_fifo st) Hs) as (Hs' & _ & F2 & F3 & P).
  fold (clear_synthetic st) in *. cbv zeta.
  assert (∀ i c, pending (clear_synthetic st) !! i = Some c ↔
    pending st !! i = Some c ∧ cand_source c = Notification) as HP.
  { intros i c. rewrite P. case_decide as Hin.
    - split; [done|]. intros [Hc Hn]. apply (ii_fifo _ (si_index _ Hs)) in Hin as (x & Hx & Hxs). congruence.
    - split; [|tauto]. intros Hc. split; [done|]. destruct (cand_source c) eqn:Ec; [|done].
      exfalso. apply Hin, (ii_fifo _ (si_index _ Hs)). eauto. }
  split_and!; try done.
  destruct (synthetic_fifo (clear_synthetic st)) as [|x l] eqn:E; [done|]. exfalso.
  assert (x ∈ synthetic_fifo (clear_synthetic st)) as (c & [_ Hc]%HP & Hcs)%(ii_fifo _ (si_index _ Hs'))
    by (rewrite E; left).
  congruence.
Qed.

Lemma required_history_elem st ch m h :
  required_history st ch = Some m → h ∈ m → by_hash (history st) !! h = None.
Proof.
  unfold required_history. rewrite bind_Some. intros (d & _ & Hm).
  apply bind_Some in Hm as (r & _ & [= <-]). by intros [? _]%elem_of_filter.
Qed.

Lemma required_history_destination st ch d m :
  last (ch_added ch) = Some d → required_history st ch = Some m →
  by_hash (history st) !! d = None → d ∈ m.
Proof.
  intros Hd. unfold required_history. rewrite Hd. run_bind.
  destruct (head (ch_removed ch)); [intros [= <-]; set_solver|].
  destruct (head (ch_added ch)) as [a|]; [|done]. run_bind.
  intros [= <-] Hn. apply elem_of_filter. split; [done|].
  destruct (by_hash (history st) !! a); set_solver.
Qed.

(** A block no candidate waits for changes nothing that a candidate misses. *)
Lemma required_history_insert st h' ch m d x b :
  by_hash h' = <[x := b]> (by_hash (history st)) → by_hash (history st) !! x = None →
  last (ch_added ch) = Some d → required_history st ch = Some m → x ∉ m →
  required_history (st_set_history h' st) ch = Some m.
Proof.
  intros Eh Hx Hd Hm Hxm. revert Hm. unfold required_history; simpl. rewrite Hd. run_bind.
  assert (∀ r : gset BlockHash, x ∉ filter (λ hash, by_hash (history st) !! hash = None) r →
    filter (λ hash, by_hash h' !! hash = None) r = filter (λ hash, by_hash (history st) !! hash = None) r)
    as Hfilter.
  { intros r Hr. assert (x ∉ r) as Hxr by (intros ?; apply Hr, elem_of_filter; done).
    apply set_eq; intros y. rewrite !elem_of_filter, Eh, lookup_insert. case_decide; set_solver. }
  destruct (head (ch_removed ch)) as [s|]; run_bind.
  { intros [= <-]. f_equal. by apply Hfilter. }
  destruct (head (ch_added ch)) as [a|] eqn:Ha; run_bind; [|done].
  intros [= <-]. destruct (decide (x = a)) as [->|Hne].
  - exfalso. apply Hxm, elem_of_filter. split; [done|].
    assert (a ∈ ch_added ch) by (destruct (ch_added ch); [done|injection Ha as ->; left]).
    destruct (by_hash (history st) !! a); set_solver.
  - assert (by_hash h' !! a = by_hash (history st) !! a) as -> by (by rewrite Eh, lookup_insert_ne).
    f_equal. by apply Hfilter.
Qed.

Lemma fresh_insert st h' c x b :
  by_hash h' = <[x := b]> (by_hash (history st)) → by_hash (history st) !! x = None →
  last (ch_added (cand_change c)) = Some (cand_destination c) →
  fresh st c → x ∉ cand_missing c → fresh (st_set_history h' st) c.
Proof.
  intros Eh Hx Hl [Hm Ho] Hxm. split; [by eapply required_history_insert|].
  rewrite Ho. unfold resolved_order; simpl. rewrite Eh, lookup_insert_ne; [done|].
  intros ->. apply Hxm. by eapply required_history_destination.
Qed.
End vspc_index.
