(* ===== verification/VspcWorker.v ===== *)
(** The VSPC worker of [crates/kgi-processing/src/vspc_processor.rs]: the
    handlers of its mailboxes and the state machine that drives candidates to
    a commit.

    The database and the node client are the traits [VspcDatabase] and
    [VspcRpc]; here they are records of operations, with the laws of the
    database that the worker relies on in [VspcDatabaseLaws].  A handler runs to
    completion between two messages, so one record of answers per step stands
    for the awaited calls of that step. *)

From S2P Require Import Prelude Model Faults Vspc.

Section vspc_worker.
Context {KH : KaspaHash}.

(** * Collaborators *)

Record VspcDatabase := MkVspcDatabase {
  resolve_materialized_ids : list BlockHash → Result (list CompactId) ResolveMaterializedIdsError;
  db_apply_vspc_change : ReadyVspcChange → Result VspcCommitOutcome ApplyVspcChangeError
}.

(** [resolve_materialized_ids] answers position by position, and the outcome
    of a commit carries the destination of the consumed change. *)
Class VspcDatabaseLaws (db : VspcDatabase) : Prop := {
  resolve_one_per_hash hashes ids :
    resolve_materialized_ids db hashes = Ok ids → length ids = length hashes;
  apply_returns_destination change outcome :
    db_apply_vspc_change db change = Ok outcome → outcome_destination outcome = rc_destination change
}.

Record VspcRpc := MkVspcRpc {
  rpc_full_block : BlockHash → Result ValidatedNodeBlock NodeError
}.

(** * Data *)

Inductive VspcProcessorRun :=
  | Inert (mode : RecoveryMode)
  | Active (state : VspcState).

Inductive VspcProcessorEvent := Event_Fault (fault : ComponentFault).

Inductive VspcProcessorCommand :=
  | Command_Catchup (synthetic_sink_lower_bound : VspcPoint)
  | Command_Live
  | Command_Shutdown.

Record VspcMetrics := MkVspcMetrics { pending_occupancy : nat; pending_high_water_mark : nat }.

(** [w_events] and [w_offers] are what the worker has sent: faults to its
    owner, committed transitions to the graph-update producer. *)
Record Worker := MkWorker {
  w_notifications : list VspcChange;
  w_synthetic : list VspcChange;
  w_persisted : list PersistedBlock;
  w_events : list VspcProcessorEvent;
  w_offers : list VspcCommitted;
  w_overlap : bool;
  w_metrics : VspcMetrics;
  w_run : VspcProcessorRun;
  w_faulted : bool
}.

Record PreparedCandidate := MkPreparedCandidate {
  prep_source : CandidateSource;
  prep_hashes : VspcChange;
  prep_ready : ReadyVspcChange
}.

Inductive DriveAction :=
  | Discard (id : N) (overlap : bool)
  | NormalizeCrossing (id : N) (suffix : list BlockHash)
  | MarkOverlap (id : N)
  | Commit (id : N)
  | CompetingNotifications
  | SyntheticSourceMismatch.

Inductive VspcPathAttribution :=
  | StoredParentConflict
  | CandidatePathConflict
  | StoredAndCandidateConflict
  | AttributionBlockUnavailable.

Definition w_set_run (r : VspcProcessorRun) (w : Worker) : Worker :=
  MkWorker (w_notifications w) (w_synthetic w) (w_persisted w) (w_events w) (w_offers w) (w_overlap w)
    (w_metrics w) r (w_faulted w).
Definition w_set_overlap (b : bool) (w : Worker) : Worker :=
  MkWorker (w_notifications w) (w_synthetic w) (w_persisted w) (w_events w) (w_offers w) b
    (w_metrics w) (w_run w) (w_faulted w).
Definition w_drain_synthetic (w : Worker) : Worker :=
  MkWorker (w_notifications w) [] (w_persisted w) (w_events w) (w_offers w) (w_overlap w)
    (w_metrics w) (w_run w) (w_faulted w).
Definition w_offer (u : VspcCommitted) (w : Worker) : Worker :=
  MkWorker (w_notifications w) (w_synthetic w) (w_persisted w) (w_events w) (w_offers w ++ [u]) (w_overlap w)
    (w_metrics w) (w_run w) (w_faulted w).

Definition metrics_update (occupancy : nat) (w : Worker) : Worker :=
  MkWorker (w_notifications w) (w_synthetic w) (w_persisted w) (w_events w) (w_offers w) (w_overlap w)
    (MkVspcMetrics occupancy (pending_high_water_mark (w_metrics w) `max` occupancy)) (w_run w) (w_faulted w).

(** * Faults *)

Definition invalid_lifecycle : ComponentFault :=
  MkComponentFault VspcProcessor Fatal (Ownership InvalidLifecycleControl).

Definition session_endpoint_fault (is_live : bool) : ComponentFault :=
  MkComponentFault VspcProcessor (if is_live then Require_ Resync else Retry)
    (Ownership SessionDataEndpointLost).

Definition malformed_notification (reason : MalformedVspcNotificationReason) (mode : RecoveryMode) :
    ComponentFault :=
  MkComponentFault VspcProcessor (Require_ mode) (NotificationInputInvalid (MalformedVspcChange reason)).

Definition malformed_synthetic (reason : MalformedVspcResponseReason) : ComponentFault :=
  MkComponentFault VspcProcessor Retry (Fault_RecoveryInputInvalid (MalformedVspcResponse reason)).

Definition malformed_change (source : CandidateSource) (reason : MalformedVspcNotificationReason) :
    ComponentFault :=
  match source with
  | Synthetic => malformed_synthetic RemovedChainWithoutAddedPath
  | Notification => malformed_notification reason Resync
  end.

Definition source_discontinuity (source : CandidateSource) : ComponentFault :=
  match source with
  | Synthetic => malformed_synthetic ResolvedSourceDiscontinuity
  | Notification => malformed_notification Notification_ResolvedSourceDiscontinuity Resync
  end.

Definition attribution_fault (source : CandidateSource) (attribution : VspcPathAttribution) :
    ComponentFault :=
  match source, attribution with
  | _, StoredParentConflict =>
    MkComponentFault VspcProcessor (Require_ Rebuild) ReconciliationFailed
  | Synthetic, CandidatePathConflict | Synthetic, AttributionBlockUnavailable =>
    malformed_synthetic SelectedParentPathDiscontinuity
  | Synthetic, StoredAndCandidateConflict =>
    MkComponentFault VspcProcessor (Require_ Rebuild)
      (cf_kind (malformed_synthetic SelectedParentPathDiscontinuity))
  | Notification, CandidatePathConflict | Notification, AttributionBlockUnavailable =>
    malformed_notification Notification_SelectedParentPathDiscontinuity Resync
  | Notification, StoredAndCandidateConflict =>
    malformed_notification Notification_SelectedParentPathDiscontinuity Rebuild
  end.

(** [None]: the [unreachable!] arm. *)
Definition node_operation_fault (error : NodeError) (is_live : bool) : option ComponentFault :=
  let fault disposition kind := Some (MkComponentFault NodeService disposition kind) in
  match error with
  | GenerationLost => fault (active_or_live is_live Retry) (ServiceGenerationLost Node)
  | RpcRequestFailed => fault (active_or_live is_live Retry) Fault_RpcRequestFailed
  | RecoveryInputInvalid kind => fault (active_or_live is_live Retry) (Fault_RecoveryInputInvalid kind)
  | ScoreOutOfRange reason => fault Fatal (Fault_ScoreOutOfRange reason)
  | RetirementControlUnavailable => fault Fatal (Ownership ManagedComponentUnavailable)
  | SubscriptionControlFailed => fault (active_or_live is_live Retry) Fault_SubscriptionControlFailed
  | InvalidSubscriptionState => fault Fatal (Ownership InvalidLifecycleControl)
  | Cancelled => fault Fatal (Ownership ManagedComponentUnavailable)
  | BlockNotFound _ => None
  end.

Definition enter_fault (fault : ComponentFault) (w : Worker) : Worker :=
  if w_faulted w then w
  else MkWorker (w_notifications w) (w_synthetic w) (w_persisted w)
    (w_events w ++ [Event_Fault fault]) (w_offers w) (w_overlap w) (w_metrics w) (w_run w) true.

Definition is_live (w : Worker) : bool :=
  match w_run w with Active state => phase_is_live (phase state) | Inert _ => false end.

Definition report_command_path_loss (w : Worker) : Worker :=
  match w_run w with
  | Active _ =>
    if w_faulted w then w
    else enter_fault (MkComponentFault VspcProcessor Fatal (Ownership InternalControlPathLost)) w
  | Inert _ => w
  end.

(** * Lifecycle *)

Definition Worker_new (mode : RecoveryMode) : Worker :=
  MkWorker [] [] [] [] [] false (MkVspcMetrics 0 0) (Inert mode) false.

Definition initialize (anchor : MaterializedSyncAnchor) (w : Worker) :
    Worker * Result unit ComponentFault :=
  match w_run w with
  | Active _ => (w, Err invalid_lifecycle)
  | Inert _ =>
    if w_faulted w then (w, Err invalid_lifecycle)
    else (w_set_overlap false (metrics_update 0 (w_set_run (Active (VspcState_new anchor)) w)), Ok tt)
  end.

Definition startup (w : Worker) : Result unit ComponentFault :=
  match w_run w with Active _ => Ok tt | Inert _ => Err invalid_lifecycle end.

Definition clear_state (w : Worker) : Worker :=
  metrics_update 0
    (MkWorker [] [] [] (w_events w) (w_offers w) (w_overlap w) (w_metrics w) (w_run w) (w_faulted w)).

(** [true]: the command completes the worker lifecycle. *)
Definition handle_command (command : VspcProcessorCommand) (w : Worker) : option (Worker * bool) :=
  match command with
  | Command_Catchup bound =>
    Some (match w_run w with
          | Active state =>
            match phase state with
            | Synchronizing =>
              w_set_overlap false (w_set_run (Active (st_set_phase (Catchup bound) state)) w)
            | _ => enter_fault invalid_lifecycle w
            end
          | Inert _ => enter_fault invalid_lifecycle w
          end, false)
  | Command_Live =>
    match w_run w with
    | Active state =>
      match phase state with
      | Catchup _ =>
        state' ← prune_history (st_set_phase Live (clear_synthetic state));
        Some (metrics_update (pending_len state')
          (w_set_run (Active state') (w_drain_synthetic w)), false)
      | _ => Some (enter_fault invalid_lifecycle w, false)
      end
    | Inert _ => Some (enter_fault invalid_lifecycle w, false)
    end
  | Command_Shutdown => Some (clear_state w, true)
  end.

(** * Input *)

Definition state_persisted (persisted : PersistedBlock) (state : VspcState) : option VspcState :=
  let '(inserted, h) := history_insert persisted (history state) in
  let state := st_set_history h state in
  if inserted then
    fold_m refresh_candidate state (elements (mm_get (missing_to_pending state) (block_hash persisted)))
  else Some state.

Definition handle_persisted (persisted : PersistedBlock) (w : Worker) : option Worker :=
  match w_run w with
  | Inert _ => Some w
  | Active state =>
    state' ← state_persisted persisted state;
    Some (w_set_run (Active state') w)
  end.

(** The admission of a change that passed the guards. *)
Definition admit_change (change : VspcChange) (destination : BlockHash) (source : CandidateSource)
    (state : VspcState) : option VspcState :=
  '(id, state) ← allocate_pending_id state;
  let pending' :=
    <[id := MkPendingCandidate source change destination ∅ None false]> (pending state) in
  let state :=
    if decide (source = Synthetic) then
      st_set_pending pending' (missing_to_pending state) (notification_by_destination state)
        (resolved_notifications state) (synthetic_fifo state ++ [id]) state
    else
      st_set_pending pending' (missing_to_pending state)
        (<[destination := id]> (notification_by_destination state))
        (resolved_notifications state) (synthetic_fifo state) state in
  refresh_candidate state id.

Definition capacity_fault : ComponentFault :=
  MkComponentFault VspcProcessor (Require_ Resync) (BoundedStateExhausted VspcPending).

(** What the guards decide: drop the change, report a fault, or admit it. *)
Inductive Admission := Drop | Reject (fault : ComponentFault) | Admit.

Definition admission (change : VspcChange) (destination : BlockHash) (source : CandidateSource)
    (state : VspcState) : option Admission :=
  let capacity :=
    if decide (pending_len state = MAX_PENDING_VSPC_CHANGES) then Reject capacity_fault else Admit in
  match source with
  | Notification =>
    match phase state with
    | Synchronizing => Some Drop
    | _ =>
      match notification_by_destination state !! destination with
      | Some existing_id =>
        existing ← pending state !! existing_id;
        Some (Reject (malformed_notification
          (if decide (cand_change existing = change) then DuplicatePendingTransition
           else ContradictoryDestination) Resync))
      | None => Some capacity
      end
    end
  | Synthetic =>
    match phase state with
    | Live => Some Drop
    | _ => Some capacity
    end
  end.

Definition handle_change (change : VspcChange) (source : CandidateSource) (w : Worker) : option Worker :=
  match last (ch_added change) with
  | None =>
    Some (enter_fault (malformed_change source Notification_RemovedChainWithoutAddedPath) w)
  | Some destination =>
    match w_run w with
    | Inert _ => Some w
    | Active state =>
      decision ← admission change destination source state;
      match decision with
      | Drop => Some w
      | Reject fault => Some (enter_fault fault w)
      | Admit =>
        state' ← admit_change change destination source state;
        Some (metrics_update (pending_len state') (w_set_run (Active state') w))
      end
    end
  end.

(** * Choosing an action *)

(** [added.iter().position(|hash| hash == sink)], then the suffix after it. *)
Fixpoint suffix_after (sink : BlockHash) (added : list BlockHash) : option (list BlockHash) :=
  match added with
  | [] => None
  | hash :: rest => if decide (hash = sink) then Some rest else suffix_after sink rest
  end.

Definition source_is_sink (state : VspcState) (change : VspcChange) : bool :=
  match endpoints state change with
  | Some (source, _) => bool_decide (source = committed_sink state)
  | None => false
  end.

(** The body of the Catchup scan: the action for one resolved notification. *)
Definition catchup_action (state : VspcState) (bound : VspcPoint) (order : ConsensusOrder) (id : N)
    (candidate : PendingCandidate) : option DriveAction :=
  if decide (consensus_lt order (vp_order bound)) then Some (Discard id false)
  else if decide (consensus_le order (vp_order (committed_sink state))) then Some (Discard id true)
  else
    match suffix_after (vp_hash (committed_sink state)) (ch_added (cand_change candidate)) with
    | Some (s :: suffix) => Some (NormalizeCrossing id (s :: suffix))
    | _ =>
      if negb (cand_overlap_credited candidate) && source_is_sink state (cand_change candidate)
      then Some (MarkOverlap id) else None
    end.

(** The outer [None]s of these three are panics of [state.pending[id]]. *)
Fixpoint catchup_scan (state : VspcState) (bound : VspcPoint) (resolved : list (ConsensusOrder * N)) :
    option (option DriveAction) :=
  match resolved with
  | [] => Some None
  | (order, id) :: rest =>
    candidate ← pending state !! id;
    match catchup_action state bound order id candidate with
    | Some action => Some (Some action)
    | None => catchup_scan state bound rest
    end
  end.

Fixpoint actionable_ids (state : VspcState) (ids : list N) : option (list N) :=
  match ids with
  | [] => Some []
  | id :: rest =>
    candidate ← pending state !! id;
    kept ← actionable_ids state rest;
    Some (if source_is_sink state (cand_change candidate) then id :: kept else kept)
  end.

Definition phase_action (state : VspcState) : option (option DriveAction) :=
  match phase state with
  | Synchronizing => Some None
  | Catchup bound => catchup_scan state bound (order_to_list (resolved_notifications state))
  | Live =>
    match filter (λ p, consensus_le p.1 (vp_order (committed_sink state)))
            (order_to_list (resolved_notifications state)) with
    | (_, id) :: _ => Some (Some (Discard id false))
    | [] =>
      actionable ← actionable_ids state (order_to_list (resolved_notifications state)).*2;
      Some (match actionable with
            | [] => None
            | [id] => Some (Commit id)
            | _ => Some CompetingNotifications
            end)
    end
  end.

Definition next_action (state : VspcState) : option (option DriveAction) :=
  match head (synthetic_fifo state) with
  | Some id =>
    candidate ← pending state !! id;
    if decide (cand_missing candidate = ∅) then
      Some (match endpoints state (cand_change candidate) with
            | None => None
            | Some (source, _) =>
              Some (if decide (source = committed_sink state) then Commit id
                    else SyntheticSourceMismatch)
            end)
    else phase_action state
  | None => phase_action state
  end.

(** * Committing *)

(** The distinct hashes in order of first occurrence. *)
Fixpoint distinct_loop (seen : gset BlockHash) (hashes : list BlockHash) : list BlockHash :=
  match hashes with
  | [] => []
  | hash :: rest =>
    if decide (hash ∈ seen) then distinct_loop seen rest
    else hash :: distinct_loop ({[hash]} ∪ seen) rest
  end.

Definition resolve_error_fault (error : ResolveMaterializedIdsError) (live : bool) : ComponentFault :=
  match error with
  | Resolve_Database error => storage_fault error live
  | NonMaterialized _ _ => MkComponentFault VspcProcessor (Require_ Rebuild) MaterialityViolation
  end.

Definition prepare_members (db : VspcDatabase) (live : bool) (state : VspcState) (change : VspcChange) :
    option (Result (list CompactId * list CompactId) ComponentFault) :=
  if decide (ch_removed change = []) then
    Some (match mapM (λ hash, vp_id ∘ pb_point <$> by_hash (history state) !! hash) (ch_added change) with
          | Some added => Ok ([], added)
          | None => Err invalid_lifecycle
          end)
  else
    let distinct := distinct_loop ∅ (ch_removed change ++ ch_added change) in
    ids ←? map_err (λ error, resolve_error_fault error live) (resolve_materialized_ids db distinct);
    let by_hash := list_to_map (zip distinct ids) : gmap BlockHash CompactId in
    removed ← mapM (λ hash, by_hash !! hash) (ch_removed change);
    added ← mapM (λ hash, by_hash !! hash) (ch_added change);
    Some (Ok (removed, added)).

Definition prepare_candidate (db : VspcDatabase) (id : N) (w : Worker) :
    option (Result PreparedCandidate ComponentFault) :=
  match w_run w with
  | Inert _ => Some (Err invalid_lifecycle)
  | Active state =>
    candidate ← pending state !! id;
    ends ←? match endpoints state (cand_change candidate) with
            | Some ends => Ok ends
            | None => Err invalid_lifecycle
            end;
    prepared ← prepare_members db (is_live w) state (cand_change candidate);
    members ←? prepared;
    Some (Ok (MkPreparedCandidate (cand_source candidate) (cand_change candidate)
      (MkReadyVspcChange ends.1 ends.2 members.1 members.2)))
  end.

Definition finish_commit (id : N) (prepared : PreparedCandidate) (outcome : VspcCommitOutcome)
    (w : Worker) : option Worker :=
  match w_run w with
  | Inert _ => Some w
  | Active state =>
    let state := (remove_candidate id (st_set_sink (outcome_destination outcome) state)).1 in
    state ← match phase state with
            | Catchup _ => Some state
            | _ => prune_history state
            end;
    Some (w_offer (MkVspcCommitted (vp_hash (rc_source (prep_ready prepared)))
                     (vp_hash (outcome_destination outcome))
                     (ch_removed (prep_hashes prepared)) (ch_added (prep_hashes prepared))
                     (outcome_level_snapshots outcome))
           (metrics_update (pending_len state) (w_set_run (Active state) w)))
  end.

(** [cancelled]: the shutdown signal won the race with the node's answer. *)
Definition attribute_path (rpc : VspcRpc) (cancelled : bool) (live : bool) (source : CandidateSource)
    (conflict : VspcPathConflict) : option (option ComponentFault) :=
  if cancelled then Some None
  else match rpc_full_block rpc (conflict_child conflict) with
  | Ok block =>
    let attribution :=
      if decide (vnb_selected_parent block = conflict_expected_parent conflict) then StoredParentConflict
      else if decide (vnb_selected_parent block = conflict_stored_parent conflict) then CandidatePathConflict
      else StoredAndCandidateConflict in
    Some (Some (attribution_fault source attribution))
  | Err (BlockNotFound _) => Some (Some (attribution_fault source AttributionBlockUnavailable))
  | Err error => fault ← node_operation_fault error live; Some (Some fault)
  end.

Definition commit_candidate (db : VspcDatabase) (rpc : VspcRpc) (cancelled : bool) (id : N)
    (w : Worker) : option (Worker * bool) :=
  prepared ← prepare_candidate db id w;
  match prepared with
  | Err fault => Some (enter_fault fault w, true)
  | Ok prepared =>
    match db_apply_vspc_change db (prep_ready prepared) with
    | Ok outcome => w' ← finish_commit id prepared outcome w; Some (w', true)
    | Err (Apply_Database error) => Some (enter_fault (storage_fault error (is_live w)) w, true)
    | Err VspcSourceDiscontinuity =>
      Some (enter_fault (source_discontinuity (prep_source prepared)) w, true)
    | Err (VspcMemberNotMaterialized _) =>
      Some (enter_fault (MkComponentFault VspcProcessor (Require_ Rebuild) MaterialityViolation) w, true)
    | Err (VspcPathDiscontinuity conflict) =>
      fault ← attribute_path rpc cancelled (is_live w) (prep_source prepared) conflict;
      Some (match fault with
            | Some fault => (enter_fault fault w, true)
            | None => (w, false)
            end)
    end
  end.

(** [if let Some(candidate) = state.pending.get_mut(&id)]. *)
Definition modify_candidate (f : PendingCandidate → PendingCandidate) (id : N) (state : VspcState) :
    VspcState :=
  st_set_pending (alter f id (pending state)) (missing_to_pending state)
    (notification_by_destination state) (resolved_notifications state) (synthetic_fifo state) state.

Definition with_suffix (suffix : list BlockHash) (c : PendingCandidate) : PendingCandidate :=
  MkPendingCandidate (cand_source c) (MkVspcChange [] suffix) (cand_destination c) (cand_missing c)
    (cand_resolved_destination_order c) true.

Definition with_overlap (c : PendingCandidate) : PendingCandidate :=
  MkPendingCandidate (cand_source c) (cand_change c) (cand_destination c) (cand_missing c)
    (cand_resolved_destination_order c) true.

Definition perform (db : VspcDatabase) (rpc : VspcRpc) (cancelled : bool) (action : DriveAction)
    (state : VspcState) (w : Worker) : option (Worker * bool) :=
  match action with
  | Discard id overlap =>
    let state := (remove_candidate id state).1 in
    let w := metrics_update (pending_len state) (w_set_run (Active state) w) in
    Some (if overlap then w_set_overlap true w else w, true)
  | NormalizeCrossing id suffix =>
    state' ← refresh_candidate (modify_candidate (with_suffix suffix) id state) id;
    Some (w_set_overlap true (w_set_run (Active state') w), true)
  | MarkOverlap id =>
    Some (w_set_overlap true (w_set_run (Active (modify_candidate with_overlap id state)) w), true)
  | Commit id => commit_candidate db rpc cancelled id w
  | CompetingNotifications =>
    Some (enter_fault (malformed_notification CompetingNextMove Resync) w, true)
  | SyntheticSourceMismatch =>
    Some (enter_fault (malformed_synthetic ResolvedSourceDiscontinuity) w, true)
  end.

(** [true]: something was done and the owner loop comes back. *)
Definition drive_once (db : VspcDatabase) (rpc : VspcRpc) (cancelled : bool) (w : Worker) :
    option (Worker * bool) :=
  if w_faulted w then Some (w, false)
  else match w_run w with
  | Inert _ => Some (w, false)
  | Active state =>
    action ← next_action state;
    match action with
    | None => Some (w, false)
    | Some action => perform db rpc cancelled action state w
    end
  end.

(** * The owner loop

    One pass of [run] below its command mailbox: drive a candidate if one is
    ready, else take one message, persisted blocks before synthetic changes
    before notifications.  A faulted worker takes a message and drops it.
    [false]: nothing was ready and the loop blocks on its mailboxes. *)

Definition w_set_queues (ns ss : list VspcChange) (ps : list PersistedBlock) (w : Worker) : Worker :=
  MkWorker ns ss ps (w_events w) (w_offers w) (w_overlap w) (w_metrics w) (w_run w) (w_faulted w).

Definition take_message (w : Worker) : option (Worker * bool) :=
  match w_persisted w, w_synthetic w, w_notifications w with
  | p :: ps, ss, ns => w' ← handle_persisted p (w_set_queues ns ss ps w); Some (w', true)
  | [], c :: ss, ns => w' ← handle_change c Synthetic (w_set_queues ns ss [] w); Some (w', true)
  | [], [], c :: ns => w' ← handle_change c Notification (w_set_queues ns [] [] w); Some (w', true)
  | [], [], [] => Some (w, false)
  end.

Definition drop_message (w : Worker) : Worker * bool :=
  match w_persisted w, w_synthetic w, w_notifications w with
  | _ :: ps, ss, ns => (w_set_queues ns ss ps w, true)
  | [], _ :: ss, ns => (w_set_queues ns ss [] w, true)
  | [], [], _ :: ns => (w_set_queues ns [] [] w, true)
  | [], [], [] => (w, false)
  end.

Definition poll (db : VspcDatabase) (rpc : VspcRpc) (cancelled : bool) (w : Worker) :
    option (Worker * bool) :=
  match w_run w, w_faulted w with
  | Active _, false =>
    '(w', progressed) ← drive_once db rpc cancelled w;
    if (progressed : bool) then Some (w', true) else take_message w'
  | _, _ => Some (drop_message w)
  end.

(** What can happen to a worker: its owner sends messages and commands, the
    persisted-block endpoint closes, the loop makes a pass. *)
Inductive worker_step : Worker → Worker → Prop :=
  | step_send w ns ss ps :
    worker_step w (w_set_queues (w_notifications w ++ ns) (w_synthetic w ++ ss) (w_persisted w ++ ps) w)
  | step_command w c w' :
    handle_command c w = Some (w', false) → worker_step w w'
  | step_endpoint_lost w :
    worker_step w (enter_fault (session_endpoint_fault (is_live w)) w)
  | step_command_path_lost w :
    worker_step w (report_command_path_loss w)
  | step_poll w db rpc cancelled w' b :
    VspcDatabaseLaws db → poll db rpc cancelled w = Some (w', b) → worker_step w w'.

(** The life of a worker initialized at [anchor]. *)
Inductive worker_reachable (anchor : MaterializedSyncAnchor) : Worker → Prop :=
  | worker_initialized mode w :
    initialize anchor (Worker_new mode) = (w, Ok tt) → worker_reachable anchor w
  | worker_stepped w w' :
    worker_reachable anchor w → worker_step w w' → worker_reachable anchor w'.
End vspc_worker.
