(* ===== verification/VspcDrive.v ===== *)
(** Behaviour of the VSPC worker: what each handler does to a run state that
    satisfies its invariant; driving and committing candidates: preparation, the
    effect of each drive action, the measure that bounds driving, and the
    invariant of the worker over its life. *)

From S2P Require Import Prelude Model Faults Vspc VspcIndex VspcWorker.

Section vspc_safety.
Context {KH : KaspaHash}.
Implicit Types (st : VspcState) (w : Worker).

(** * Persisted blocks *)

Lemma refreshed_pending st : state_inv st → refreshed st <$> pending st = pending st.
Proof.
  intros Hs. apply map_eq; intros i. rewrite lookup_fmap.
  destruct (pending st !! i) as [c|] eqn:E; [|done]. simpl. f_equal.
  apply refreshed_fresh, (si_fresh _ Hs i c E).
Qed.

Lemma state_persisted_spec b st :
  state_inv st →
  ∃ st', state_persisted b st = Some st' ∧ state_inv st' ∧
    history st' = (history_insert b (history st)).2 ∧ phase st' = phase st ∧
    committed_sink st' = committed_sink st ∧ next_pending_id st' = next_pending_id st ∧
    pending st' = refreshed st' <$> pending st.
Proof.
  intros Hs. pose proof (history_insert_wf b (history st) (si_history _ Hs)) as Hh.
  unfold state_persisted, history_insert in *.
  destruct (decide (is_Some (by_hash (history st) !! block_hash b))) as [|Hn]; simpl in Hh.
  { exists st. split_and!; try done; [by destruct st|by rewrite refreshed_pending]. }
  apply eq_None_not_Some in Hn. simpl. set (st1 := st_set_history _ st).
  assert (index_inv st1) as Hi by (destruct (si_index _ Hs); by split).
  destruct (refresh_all_spec st1 (elements (mm_get (missing_to_pending st) (block_hash b))) Hh Hi)
    as (st' & E & Hi' & F & P).
  assert (∀ i c, pending st !! i = Some c → block_hash b ∉ cand_missing c → fresh st1 c) as Hkeep.
  { intros i c Hc Hm. eapply fresh_insert; [done|done|by eapply (ii_change _ (si_index _ Hs))|by eapply (si_fresh _ Hs)|done]. }
  assert (∀ c, refreshed st' c = refreshed st1 c) as R by (intros; apply refreshed_frame, (sf_history _ _ F)).
  assert (pending st' = refreshed st1 <$> pending st) as HP.
  { apply map_eq; intros i. rewrite P, lookup_fmap. case_decide as Hin; [done|].
    rewrite elem_of_elements, (ii_missing _ (si_index _ Hs)) in Hin. simpl.
    destruct (pending st !! i) as [c|] eqn:Ec; [|done]. simpl. f_equal. symmetry.
    apply refreshed_fresh. eapply Hkeep; [done|]. intros Hm. apply Hin. eauto. }
  exists st'. destruct F. split_and!; try done.
  - split; [by rewrite sf_history|done|]. intros i c. rewrite HP, lookup_fmap, fmap_Some. intros (c0 & Hc0 & ->).
    eapply (fresh_frame st1); [done|]. eapply fresh_refreshed, (ii_change _ Hi), Hc0.
  - rewrite HP. apply map_fmap_ext. intros. by rewrite R.
Qed.

(** * Admission *)

Lemma admit_index_inv st ch d src :
  index_inv st → last (ch_added ch) = Some d →
  (src = Notification → notification_by_destination st !! d = None) →
  (size (pending st) < MAX_PENDING_VSPC_CHANGES)%nat →
  let id := next_pending_id st in
  let p := <[id := MkPendingCandidate src ch d ∅ None false]> (pending st) in
  index_inv (st_set_next (id + 1)
    (if decide (src = Synthetic)
     then st_set_pending p (missing_to_pending st) (notification_by_destination st)
            (resolved_notifications st) (synthetic_fifo st ++ [id]) st
     else st_set_pending p (missing_to_pending st) (<[d := id]> (notification_by_destination st))
            (resolved_notifications st) (synthetic_fifo st) st)).
Proof.
  intros Hi Hl Hd Hsz id p. set (c := MkPendingCandidate src ch d ∅ None false) in *.
  assert (pending st !! id = None) as Hid.
  { destruct (pending st !! id) eqn:E; [|done]. pose proof (ii_next _ Hi _ _ E). unfold id in *. lia. }
  assert (∀ i (P : PendingCandidate → Prop), (∃ x, p !! i = Some x ∧ P x) ↔
    (∃ x, pending st !! i = Some x ∧ P x) ∨ (i = id ∧ P c)) as Hins.
  { intros i P. unfold p. destruct (decide (i = id)) as [->|Hne].
    - rewrite lookup_insert_eq, Hid. split; [intros (x & [= <-] & ?); eauto|].
      intros [(x & ? & _)|[_ ?]]; [done|eauto].
    - rewrite lookup_insert_ne by congruence. split; [eauto|]. intros [?|[? _]]; done. }
  assert (∀ (nd : gmap BlockHash N) sf,
    (∀ e i, nd !! e = Some i ↔ notification_by_destination st !! e = Some i ∨
      (i = id ∧ src = Notification ∧ d = e)) →
    (∀ i, i ∈ sf ↔ i ∈ synthetic_fifo st ∨ (i = id ∧ src = Synthetic)) → StronglySorted N.lt sf →
    index_inv (st_set_next (id + 1) (st_set_pending p (missing_to_pending st) nd
      (resolved_notifications st) sf st))) as Hgen.
  { intros nd sf Hnd Hsf Hsort. split; simpl.
    - intros i x. unfold p. rewrite lookup_insert_Some. intros [[<- _]|[_ Hx]]; [lia|].
      pose proof (ii_next _ Hi _ _ Hx). unfold id. lia.
    - apply (ii_wf _ Hi).
    - intros i h. rewrite Hins, (ii_missing _ Hi). simpl. set_solver.
    - intros e i. rewrite Hins, Hnd, (ii_destination _ Hi). done.
    - intros o i. rewrite Hins, (ii_resolved _ Hi). simpl. split; [eauto|]. intros [?|(? & ? & ?)]; done.
    - intros i x o. unfold p. rewrite lookup_insert_Some. intros [[_ <-]|[_ ?]]; [done|]. by eapply (ii_resolved_hash _ Hi).
    - intros i. rewrite Hins, Hsf, (ii_fifo _ Hi). done.
    - done.
    - intros i x. unfold p. rewrite lookup_insert_Some. intros [[_ <-]|[_ ?]]; [done|]. by eapply (ii_change _ Hi).
    - unfold p. rewrite map_size_insert_None by done. lia. }
  case_decide as Hs; apply Hgen.
  - intros e i. split; [eauto|]. intros [?|(_ & ? & _)]; [done|congruence].
  - intros i. rewrite elem_of_app, list_elem_of_singleton. naive_solver.
  - apply StronglySorted_app_2; [|apply (ii_fifo_sorted _ Hi)|apply SSorted_cons; constructor].
    intros x y (z & Hz & _)%(ii_fifo _ Hi) ->%list_elem_of_singleton. apply (ii_next _ Hi _ _ Hz).
  - intros e i. rewrite lookup_insert_Some. destruct src; [done|]. specialize (Hd eq_refl).
    split; [intros [[<- <-]|[? ?]]; eauto|]. intros [?|(-> & _ & <-)]; [|by left].
    right. split; [|done]. intros <-. congruence.
  - intros i. split; [eauto|]. intros [?|[_ ?]]; done.
  - apply (ii_fifo_sorted _ Hi).
Qed.

Lemma admit_change_spec ch d src st :
  state_inv st → last (ch_added ch) = Some d →
  (src = Notification → notification_by_destination st !! d = None) →
  (size (pending st) < MAX_PENDING_VSPC_CHANGES)%nat → next_pending_id st < U64_MAX →
  ∃ st', admit_change ch d src st = Some st' ∧ state_inv st' ∧ history st' = history st ∧
    phase st' = phase st ∧ committed_sink st' = committed_sink st ∧
    next_pending_id st' = next_pending_id st + 1 ∧
    pending st' = <[next_pending_id st := refreshed st (MkPendingCandidate src ch d ∅ None false)]> (pending st).
Proof.
  intros Hs Hl Hd Hsz Hn. unfold admit_change, allocate_pending_id.
  rewrite checked_add_Some by lia. run_bind.
  pose proof (admit_index_inv st ch d src (si_index _ Hs) Hl Hd Hsz) as Hi. cbv zeta in Hi.
  set (id := next_pending_id st) in *. set (c := MkPendingCandidate src ch d ∅ None false) in *.
  match goal with |- context [refresh_candidate ?s id] => set (st1 := s) end.
  assert (index_inv st1) as Hi1 by (unfold st1; destruct (decide (src = Synthetic)); exact Hi).
  assert (history st1 = history st ∧ phase st1 = phase st ∧ committed_sink st1 = committed_sink st ∧
    next_pending_id st1 = id + 1 ∧ pending st1 = <[id := c]> (pending st)) as (F1 & F2 & F3 & F4 & F5)
    by (unfold st1; destruct (decide (src = Synthetic)); done).
  destruct (refresh_candidate_spec st1 id) as (st' & E & Hi' & F & P); [rewrite F1; apply Hs|done|].
  assert (pending st' = <[id := refreshed st c]> (pending st)) as HP.
  { rewrite P, F5, alter_insert_eq. f_equal. by apply refreshed_frame. }
  destruct F. exists st'. split_and!; try congruence.
  split; [by rewrite sf_history, F1; apply Hs|done|]. intros i x. rewrite HP, lookup_insert_Some.
  assert (history st' = history st) as Eh by congruence.
  intros [[<- <-]|[_ Hx]]; eapply (fresh_frame st); try done; [by eapply fresh_refreshed|by eapply (si_fresh _ Hs)].
Qed.

(** * Choosing an action *)

Lemma resolved_listed st o id :
  state_inv st → (o, id) ∈ order_to_list (resolved_notifications st) ↔
  ∃ c, pending st !! id = Some c ∧ cand_source c = Notification ∧
       cand_resolved_destination_order c = Some o.
Proof. intros Hs. rewrite elem_of_order_to_list. apply (ii_resolved _ (si_index _ Hs)). Qed.

Lemma catchup_scan_spec st bound l :
  (∀ o id, (o, id) ∈ l → is_Some (pending st !! id)) →
  ∃ a, catchup_scan st bound l = Some a ∧
    match a with
    | Some act => ∃ o id c, (o, id) ∈ l ∧ pending st !! id = Some c ∧ catchup_action st bound o id c = Some act
    | None => ∀ o id c, (o, id) ∈ l → pending st !! id = Some c → catchup_action st bound o id c = None
    end.
Proof.
  induction l as [|[o id] l IH]; intros Hl; simpl.
  { exists None. split; [done|]. intros * H. by apply not_elem_of_nil in H. }
  destruct (Hl o id) as [c Hc]; [left|]. rewrite Hc. run_bind.
  destruct (catchup_action st bound o id c) as [act|] eqn:Ea.
  { exists (Some act). split; [done|]. exists o, id, c. split; [left|done]. }
  destruct IH as (a & -> & Ha); [intros; eapply Hl; right; done|]. exists a. split; [done|].
  destruct a as [act|].
  - destruct Ha as (o' & id' & c' & ? & ? & ?). exists o', id', c'. split; [by right|done].
  - intros o' id' c' [[= -> ->]|Hin]%elem_of_cons Hc'; [congruence|eauto].
Qed.

Lemma actionable_ids_spec st ids :
  (∀ id, id ∈ ids → is_Some (pending st !! id)) →
  actionable_ids st ids = Some (filter (λ id, from_option (λ c, source_is_sink st (cand_change c)) false (pending st !! id)) ids).
Proof.
  induction ids as [|id ids IH]; intros Hl; [done|]. cbn [actionable_ids].
  destruct (Hl id) as [c Hc]; [left|]. rewrite Hc. run_bind.
  rewrite IH by (intros; apply Hl; by right). run_bind. rewrite filter_cons, Hc. simpl.
  destruct (source_is_sink st (cand_change c)); done.
Qed.

Lemma source_is_sink_true st ch :
  source_is_sink st ch = true ↔ ∃ d, endpoints st ch = Some (committed_sink st, d).
Proof.
  unfold source_is_sink. destruct (endpoints st ch) as [[s d]|]; [rewrite bool_decide_eq_true|];
    split; try done; [intros ->; eauto|by intros (? & [= -> ?])|by intros []].
Qed.

(** [id] is the only resolved notification that continues the committed sink. *)
Definition sole_next_move st (id : N) : Prop :=
  ∀ id' c', pending st !! id' = Some c' → cand_source c' = Notification →
    is_Some (cand_resolved_destination_order c') → source_is_sink st (cand_change c') = true → id' = id.

Definition above_sink st (c : PendingCandidate) : Prop :=
  ∃ o, cand_resolved_destination_order c = Some o ∧ ¬ consensus_le o (vp_order (committed_sink st)).

(** What each action promises about the candidate it names. *)
Definition action_ok st (a : DriveAction) : Prop :=
  match a with
  | Discard id _ =>
    ∃ c o, pending st !! id = Some c ∧ cand_source c = Notification ∧
      cand_resolved_destination_order c = Some o ∧
      match phase st with
      | Catchup bound => consensus_lt o (vp_order bound) ∨ consensus_le o (vp_order (committed_sink st))
      | _ => consensus_le o (vp_order (committed_sink st))
      end
  | NormalizeCrossing id suffix =>
    ∃ c, pending st !! id = Some c ∧ cand_source c = Notification ∧ above_sink st c ∧ suffix ≠ [] ∧
      ∃ prefix, ch_added (cand_change c) = prefix ++ vp_hash (committed_sink st) :: suffix
  | MarkOverlap id =>
    ∃ c, pending st !! id = Some c ∧ cand_source c = Notification ∧ above_sink st c ∧
      cand_overlap_credited c = false ∧ source_is_sink st (cand_change c) = true
  | Commit id =>
    ∃ c, pending st !! id = Some c ∧ source_is_sink st (cand_change c) = true ∧
      ((cand_source c = Synthetic ∧ head (synthetic_fifo st) = Some id ∧ cand_missing c = ∅) ∨
       (cand_source c = Notification ∧ phase st = Live ∧ above_sink st c ∧ sole_next_move st id))
  | CompetingNotifications => phase st = Live ∧ ∀ id, ¬ sole_next_move st id
  | SyntheticSourceMismatch =>
    ∃ id c s d, head (synthetic_fifo st) = Some id ∧ pending st !! id = Some c ∧ cand_missing c = ∅ ∧
      endpoints st (cand_change c) = Some (s, d) ∧ s ≠ committed_sink st
  end.

(** Nothing is left to do until a block, a change or a command arrives. *)
Definition settled st : Prop :=
  (∀ id c, head (synthetic_fifo st) = Some id → pending st !! id = Some c → cand_missing c ≠ ∅) ∧
  (∀ id c o, pending st !! id = Some c → cand_source c = Notification →
     cand_resolved_destination_order c = Some o →
     match phase st with
     | Synchronizing => True
     | Catchup bound => catchup_action st bound o id c = None
     | Live => ¬ consensus_le o (vp_order (committed_sink st)) ∧ source_is_sink st (cand_change c) = false
     end).

Lemma suffix_after_Some s l suffix :
  suffix_after s l = Some suffix → ∃ prefix, l = prefix ++ s :: suffix.
Proof.
  induction l as [|h l IH]; simpl; [done|]. case_decide as Hh.
  - intros [= <-]. exists []. by rewrite Hh.
  - intros (prefix & ->)%IH. by exists (h :: prefix).
Qed.

(** A candidate that misses nothing has its endpoints. *)
Lemma ready_endpoints st c :
  fresh st c → cand_missing c = ∅ → is_Some (endpoints st (cand_change c)).
Proof.
  intros [Hm _] E. rewrite E in Hm. unfold required_history, endpoints in *.
  destruct (last (ch_added (cand_change c))) as [d|]; [|done]. cbn [mbind option_bind] in *.
  assert (∀ (r : gset BlockHash) h, Some (filter (λ hash, by_hash (history st) !! hash = None) r) = Some ∅ →
    h ∈ r → is_Some (by_hash (history st) !! h)) as Hin.
  { intros r h [= Hr] Hh. apply not_eq_None_Some. intros Hn.
    assert (h ∈ (∅ : gset BlockHash)) as []%not_elem_of_empty. rewrite <- Hr. by apply elem_of_filter. }
  destruct (head (ch_removed (cand_change c))) as [s|]; cbn [mbind option_bind] in *.
  - destruct (Hin _ d Hm) as [bd ->]; [set_solver|]. destruct (Hin _ s Hm) as [bs ->]; [set_solver|].
    run_bind. eauto.
  - destruct (head (ch_added (cand_change c))) as [a|] eqn:Ea; [|done]. cbn [mbind option_bind] in *.
    assert (a ∈ ch_added (cand_change c)) by (destruct (ch_added _); [done|injection Ea as ->; left]).
    destruct (Hin _ d Hm) as [bd ->]; [destruct (by_hash _ !! a); set_solver|].
    destruct (by_hash (history st) !! a) as [ba|] eqn:Eb; cycle 1.
    { destruct (Hin _ a Hm); [set_solver|]. congruence. }
    run_bind. destruct (Hin _ (pb_selected_parent ba) Hm) as [bs ->]; [set_solver|].
    run_bind. eauto.
Qed.

Lemma catchup_action_ok st bound o id c act :
  phase st = Catchup bound → pending st !! id = Some c → cand_source c = Notification →
  cand_resolved_destination_order c = Some o → catchup_action st bound o id c = Some act →
  action_ok st act.
Proof.
  intros Hp Hc Hs Ho. unfold catchup_action.
  destruct (decide (consensus_lt o (vp_order bound))) as [H1|H1].
  { intros [= <-]. exists c, o. rewrite Hp. auto. }
  destruct (decide (consensus_le o (vp_order (committed_sink st)))) as [H2|H2].
  { intros [= <-]. exists c, o. rewrite Hp. auto. }
  assert (above_sink st c) as Ha by (exists o; done).
  assert (∀ a, (if negb (cand_overlap_credited c) && source_is_sink st (cand_change c)
    then Some (MarkOverlap id) else None) = Some a → action_ok st a) as Hm.
  { intros a. destruct (cand_overlap_credited c) eqn:Eo, (source_is_sink st (cand_change c)) eqn:Es;
      try done. intros [= <-]. by exists c. }
  destruct (suffix_after _ _) as [[|s suffix]|] eqn:E; [by apply Hm| |by apply Hm].
  intros [= <-]. exists c. split_and!; try done. by apply suffix_after_Some.
Qed.

Lemma resolved_ids_NoDup st : state_inv st → NoDup (order_to_list (resolved_notifications st)).*2.
Proof.
  intros Hs. apply NoDup_fmap_2_strong.
  - intros [o1 i1] [o2 i2] H1 H2 Heq. simpl in Heq. subst i2.
    apply resolved_listed in H1 as (c1 & Hc1 & _ & Ho1), H2 as (c2 & Hc2 & _ & Ho2); [|done..]. congruence.
  - unfold order_to_list. rewrite merge_sort_Permutation. apply NoDup_map_to_list.
Qed.

(** The Live choice: an overtaken notification, else the one next move. *)
Lemma live_action_ok st :
  state_inv st → phase st = Live →
  ∃ a, phase_action st = Some a ∧
    match a with
    | Some act => action_ok st act
    | None => ∀ id c o, pending st !! id = Some c → cand_source c = Notification →
        cand_resolved_destination_order c = Some o →
        ¬ consensus_le o (vp_order (committed_sink st)) ∧ source_is_sink st (cand_change c) = false
    end.
Proof.
  intros Hs Hp. unfold phase_action. rewrite Hp.
  destruct (filter _ (order_to_list _)) as [|[o id] l] eqn:Ef; cycle 1.
  { eexists. split; [done|]. simpl.
    assert ((o, id) ∈ (o, id) :: l) as Hin by left. rewrite <- Ef in Hin.
    apply list_elem_of_filter in Hin as [Hle (c & ? & ? & ?)%resolved_listed]; [|done].
    exists c, o. rewrite Hp. done. }
  assert (∀ id c o, pending st !! id = Some c → cand_source c = Notification →
    cand_resolved_destination_order c = Some o → ¬ consensus_le o (vp_order (committed_sink st))) as Habove.
  { intros id c o Hc Hn Ho Hle. apply (filter_nil_not_elem_of _ _ (o, id) Ef); [done|].
    apply resolved_listed; eauto. }
  set (ids := (order_to_list (resolved_notifications st)).*2).
  assert (∀ id, id ∈ ids ↔ ∃ c, pending st !! id = Some c ∧ cand_source c = Notification ∧
    is_Some (cand_resolved_destination_order c)) as Hids.
  { intros id. unfold ids. rewrite list_elem_of_fmap. split.
    - intros ([o i] & -> & (c & ? & ? & ?)%resolved_listed); eauto.
    - intros (c & ? & ? & o & ?). exists (o, id). split; [done|]. apply resolved_listed; eauto. }
  rewrite actionable_ids_spec by (intros id (c & ? & _)%Hids; eauto).
  match goal with |- context [filter ?P ids] => set (l := filter P ids) end.
  assert (∀ id, id ∈ l ↔ ∃ c, pending st !! id = Some c ∧ cand_source c = Notification ∧
    is_Some (cand_resolved_destination_order c) ∧ source_is_sink st (cand_change c) = true) as Hl.
  { intros id. unfold l. rewrite list_elem_of_filter, Hids. split.
    - intros [Ht (c & Hc & ? & ?)]. rewrite Hc in Ht. exists c. by apply Is_true_true in Ht.
    - intros (c & Hc & ? & ? & Ht). rewrite Hc. simpl. rewrite Ht. split; [done|eauto]. }
  assert (NoDup l) as Hnd by (apply NoDup_filter, resolved_ids_NoDup, Hs).
  run_bind. eexists. split; [done|].
  destruct l as [|x [|y l']].
  - intros id c o Hc Hn Ho. split; [by eapply Habove|].
    destruct (source_is_sink st (cand_change c)) eqn:E; [|done]. exfalso.
    apply (not_elem_of_nil id), Hl. eauto 6.
  - destruct (Hl x) as [Hx _]. destruct Hx as (c & Hc & Hn & [o Ho] & Ht); [left|].
    exists c. split_and!; try done. right. split_and!; try done; [exists o; split; [done|by eapply Habove]|].
    intros id' c' ???? . apply list_elem_of_singleton, Hl. eauto 6.
  - split; [done|]. intros id Hsole. apply NoDup_cons_1_1 in Hnd. apply Hnd.
    destruct (Hl x) as [Hx _], (Hl y) as [Hy _].
    destruct Hx as (cx & ? & ? & ? & ?); [left|]. destruct Hy as (cy & ? & ? & ? & ?); [right; left|].
    rewrite (Hsole x cx), (Hsole y cy) by done. left.
Qed.

Lemma phase_action_ok st :
  state_inv st →
  ∃ a, phase_action st = Some a ∧
    match a with
    | Some act => action_ok st act
    | None => ∀ id c o, pending st !! id = Some c → cand_source c = Notification →
        cand_resolved_destination_order c = Some o →
        match phase st with
        | Synchronizing => True
        | Catchup bound => catchup_action st bound o id c = None
        | Live => ¬ consensus_le o (vp_order (committed_sink st)) ∧ source_is_sink st (cand_change c) = false
        end
    end.
Proof.
  intros Hs. destruct (phase st) as [|bound|] eqn:Hp; [..|by apply live_action_ok].
  - exists None. unfold phase_action. by rewrite Hp.
  - unfold phase_action. rewrite Hp.
    destruct (catchup_scan_spec st bound (order_to_list (resolved_notifications st))) as (a & -> & Ha).
    { intros o id (c & ? & _)%resolved_listed; eauto. }
    exists a. split; [done|]. destruct a as [act|].
    + destruct Ha as (o & id & c & (c' & Hc' & ? & ?)%resolved_listed & Hc & ?); [|done].
      assert (c' = c) as -> by congruence. by eapply catchup_action_ok.
    + intros id c o ???. apply Ha; [|done]. apply resolved_listed; eauto.
Qed.

Lemma next_action_ok st :
  state_inv st →
  ∃ a, next_action st = Some a ∧ match a with Some act => action_ok st act | None => settled st end.
Proof.
  intros Hs. unfold next_action, settled. destruct (phase_action_ok st Hs) as (a & Ea & Ha).
  destruct (head (synthetic_fifo st)) as [id|] eqn:Eh; cycle 1.
  { exists a. rewrite Ea. split; [done|]. destruct a; [done|]. by split. }
  assert (id ∈ synthetic_fifo st) as (c & Hc & Hsrc)%(ii_fifo _ (si_index _ Hs))
    by (destruct (synthetic_fifo st); [done|injection Eh as ->; left]).
  rewrite Hc. run_bind. case_decide as Hm.
  - destruct (ready_endpoints st c (si_fresh _ Hs _ _ Hc) Hm) as [[s d] Ee]. rewrite Ee.
    eexists. split; [done|]. simpl. case_decide as Hsink.
    + exists c. split; [done|]. split; [apply source_is_sink_true; naive_solver|]. left. done.
    + by exists id, c, s, d.
  - exists a. rewrite Ea. split; [done|]. destruct a; [done|]. split; [|done].
    intros id' c' [= <-] Hc'. congruence.
Qed.
End vspc_safety.

Section vspc_drive.
Context {KH : KaspaHash}.
Implicit Types (st : VspcState) (w : Worker).

(** * Preparation *)

Lemma elem_of_distinct_loop seen l h : h ∈ distinct_loop seen l ↔ h ∈ l ∧ h ∉ seen.
Proof.
  revert seen; induction l as [|x l IH]; intros seen; simpl; [set_solver|].
  case_decide; rewrite ?elem_of_cons, IH; [set_solver|].
  destruct (decide (h = x)); set_solver.
Qed.

Lemma zip_lookup_total (ks : list BlockHash) (vs : list CompactId) l :
  length vs = length ks → (∀ h, h ∈ l → h ∈ ks) →
  is_Some (mapM (λ h, (list_to_map (zip ks vs) : gmap BlockHash CompactId) !! h) l).
Proof.
  intros Hlen Hl. apply mapM_is_Some, Forall_forall. intros h Hh. simpl.
  apply not_eq_None_Some. rewrite <- not_elem_of_list_to_map, fst_zip by lia. auto.
Qed.

(** Preparation never panics, and only a gap in an added-only path makes it
    report a lifecycle violation. *)
Lemma prepare_members_total db live st ch :
  VspcDatabaseLaws db →
  ∃ r, prepare_members db live st ch = Some r ∧
    match r with
    | Ok _ => True
    | Err f =>
      (ch_removed ch = [] ∧ f = invalid_lifecycle ∧
       ∃ h, h ∈ ch_added ch ∧ by_hash (history st) !! h = None) ∨
      (ch_removed ch ≠ [] ∧ ∃ e, f = resolve_error_fault e live)
    end.
Proof.
  intros Hdb. unfold prepare_members. case_decide as Hr.
  - eexists. split; [done|]. destruct (mapM _ _) eqn:E; [done|]. left. split_and!; try done.
    apply mapM_None, Exists_exists in E as (h & Hh & Hn). exists h. split; [done|].
    by apply fmap_None in Hn.
  - destruct (resolve_materialized_ids db _) as [ids|e] eqn:E; simpl; [|by eexists; split; [done|right; eauto]].
    apply resolve_one_per_hash in E.
    destruct (zip_lookup_total _ ids (ch_removed ch) E) as [rem ->]; [intros h Hh; apply elem_of_distinct_loop; set_solver|].
    run_bind.
    destruct (zip_lookup_total _ ids (ch_added ch) E) as [add ->]; [intros h Hh; apply elem_of_distinct_loop; set_solver|].
    by exists (Ok (rem, add)).
Qed.

(** The endpoints of a change are named by the change itself. *)
Lemma endpoints_named st ch s d :
  history_wf (history st) → endpoints st ch = Some (s, d) →
  last (ch_added ch) = Some (vp_hash d) ∧ (∀ h, head (ch_removed ch) = Some h → vp_hash s = h).
Proof.
  intros Hh. unfold endpoints. rewrite bind_Some. intros (dh & Hd & H).
  apply bind_Some in H as (bd & Hbd & H). apply bind_Some in H as (sh & Hsh & H).
  apply bind_Some in H as (bs & Hbs & [= <- <-]).
  pose proof (hw_key _ Hh _ _ Hbd) as Kd. pose proof (hw_key _ Hh _ _ Hbs) as Ks.
  unfold block_hash in *. split; [by rewrite Hd, Kd|]. intros h Hr. rewrite Hr in Hsh. by injection Hsh as ->.
Qed.

Lemma prepare_candidate_spec db id w st c d :
  VspcDatabaseLaws db → w_run w = Active st → pending st !! id = Some c →
  endpoints st (cand_change c) = Some (committed_sink st, d) →
  ∃ r, prepare_candidate db id w = Some r ∧
    match r with
    | Ok p => prep_hashes p = cand_change c ∧ prep_source p = cand_source c ∧
              rc_source (prep_ready p) = committed_sink st ∧ rc_destination (prep_ready p) = d
    | Err f => prepare_members db (is_live w) st (cand_change c) = Some (Err f)
    end.
Proof.
  intros Hdb Hr Hc He. unfold prepare_candidate. rewrite Hr, Hc. run_bind. rewrite He.
  cbn [try_]. destruct (prepare_members_total db (is_live w) st (cand_change c) Hdb) as (r & -> & _).
  run_bind. destruct r as [[rem add]|f]; cbn [try_]; by eexists.
Qed.

(** A gap in an added-only path is a lifecycle violation. *)
Lemma prepare_candidate_gap db id w st c d h :
  w_run w = Active st → pending st !! id = Some c → endpoints st (cand_change c) = Some d →
  ch_removed (cand_change c) = [] → h ∈ ch_added (cand_change c) → by_hash (history st) !! h = None →
  prepare_candidate db id w = Some (Err invalid_lifecycle).
Proof.
  intros Hr Hc He Hrem Hh Hn. unfold prepare_candidate. rewrite Hr, Hc. run_bind.
  rewrite He. cbn [try_]. unfold prepare_members. rewrite decide_True by done.
  assert (mapM (λ hash, vp_id ∘ pb_point <$> by_hash (history st) !! hash) (ch_added (cand_change c)) = None)
    as ->; [|done].
  apply mapM_None, Exists_exists. exists h. by rewrite Hn.
Qed.

(** * The driving measure *)

Definition cand_weight (c : PendingCandidate) : nat :=
  1 + length (ch_added (cand_change c)) + (if cand_overlap_credited c then 0 else 1).
Definition weight (m : gmap N PendingCandidate) : nat :=
  map_fold (λ _ c n, (cand_weight c + n)%nat) O m.

Lemma weight_delete m id c : m !! id = Some c → weight m = (cand_weight c + weight (delete id m))%nat.
Proof.
  intros H. unfold weight.
  rewrite (map_fold_delete_L (λ _ c n, (cand_weight c + n)%nat) O id c m); [done| |done]. intros. lia.
Qed.
Lemma weight_insert m id c : weight (<[id := c]> m) = (cand_weight c + weight (delete id m))%nat.
Proof.
  rewrite (weight_delete _ id c) by (by rewrite lookup_insert_eq). by rewrite delete_insert_eq.
Qed.
Lemma weight_refreshed st m : weight (refreshed st <$> m) = weight m.
Proof. unfold weight. rewrite map_fold_fmap. done. Qed.

(** * Drive outcomes *)

Fixpoint offers_chain (source : BlockHash) (offers : list VspcCommitted) (sink : BlockHash) : Prop :=
  match offers with
  | [] => source = sink
  | u :: offers => vc_source u = source ∧ offers_chain (vc_destination u) offers sink
  end.

Lemma offers_chain_snoc a us b u :
  offers_chain a us b → vc_source u = b → offers_chain a (us ++ [u]) (vc_destination u).
Proof. revert a; induction us as [|v us IH]; simpl; [by intros a -> ->|]. intros a [? ?] ?. auto. Qed.

(** A published transition names its endpoints. *)
Definition offer_ok (u : VspcCommitted) : Prop :=
  last (vc_added u) = Some (vc_destination u) ∧
  (∀ h, head (vc_removed u) = Some h → vc_source u = h).

(** A successful step of the run: the measure falls, and at most one
    transition, out of the committed sink, is published. *)
Record driven w st w' st' : Prop := {
  dr_run : w_run w' = Active st';
  dr_faulted : w_faulted w' = w_faulted w;
  dr_events : w_events w' = w_events w;
  dr_queues : w_notifications w' = w_notifications w ∧ w_synthetic w' = w_synthetic w ∧
    w_persisted w' = w_persisted w;
  dr_inv : state_inv st';
  dr_phase : phase st' = phase st;
  dr_weight : (weight (pending st') < weight (pending st))%nat;
  dr_occupancy : (size (pending st') ≤ size (pending st))%nat ∧
    (w_metrics w' = w_metrics w ∧ size (pending st') = size (pending st) ∨
     w_metrics w' = MkVspcMetrics (size (pending st'))
       (pending_high_water_mark (w_metrics w) `max` size (pending st')));
  dr_offers : (w_offers w' = w_offers w ∧ committed_sink st' = committed_sink st) ∨
    ∃ u, w_offers w' = w_offers w ++ [u] ∧ offer_ok u ∧
      vc_source u = vp_hash (committed_sink st) ∧ vc_destination u = vp_hash (committed_sink st')
}.

Inductive drive_outcome w st : Worker → bool → Prop :=
  | outcome_driven w' st' : driven w st w' st' → drive_outcome w st w' true
  | outcome_faulted f : drive_outcome w st (enter_fault f w) true
  | outcome_waiting : drive_outcome w st w false.

Lemma state_inv_frame st st' :
  state_inv st → history st' = history st → index_inv st' → pending st' = pending st → state_inv st'.
Proof.
  intros Hs Eh Hi Ep. split; [by rewrite Eh; apply Hs|done|]. intros i c. rewrite Ep. intros Hc.
  eapply fresh_frame; [done|by eapply (si_fresh _ Hs)].
Qed.

Lemma state_inv_set_sink s st : state_inv st → state_inv (st_set_sink s st).
Proof. intros Hs. apply (state_inv_frame st); try done. destruct (si_index _ Hs). by split. Qed.
Lemma state_inv_set_phase p st : state_inv st → state_inv (st_set_phase p st).
Proof. intros Hs. apply (state_inv_frame st); try done. destruct (si_index _ Hs). by split. Qed.

Lemma size_refreshed st (m : gmap N PendingCandidate) : size (refreshed st <$> m) = size m.
Proof. apply map_size_fmap. Qed.

Lemma discard_driven w st id (b : bool) :
  state_inv st → w_run w = Active st → is_Some (pending st !! id) →
  let st' := (remove_candidate id st).1 in
  let w1 := metrics_update (pending_len st') (w_set_run (Active st') w) in
  driven w st (if b then w_set_overlap true w1 else w1) st'.
Proof.
  intros Hs Hr [c Hc]. cbv zeta.
  destruct (remove_candidate_spec st id (si_index _ Hs)) as (_ & P & F1 & F2 & F3 & F4).
  assert (size (pending (remove_candidate id st).1) ≤ size (pending st))%nat.
  { rewrite P, map_size_delete_Some by eauto. lia. }
  split; try (by destruct b); [by apply remove_candidate_inv|..].
  - rewrite P. rewrite (weight_delete _ _ _ Hc). unfold cand_weight. lia.
  - split; [done|]. right. by destruct b.
  - left. by destruct b.
Qed.

(** Changing a candidate in place without touching what the indexes hold. *)
Lemma modify_index_inv f id st c :
  index_inv st → pending st !! id = Some c →
  cand_source (f c) = cand_source c → cand_destination (f c) = cand_destination c →
  cand_missing (f c) = cand_missing c →
  cand_resolved_destination_order (f c) = cand_resolved_destination_order c →
  last (ch_added (cand_change (f c))) = Some (cand_destination c) →
  index_inv (modify_candidate f id st).
Proof.
  intros Hi Hc Hs Hd Hm Ho Hl.
  assert (∀ i x, alter f id (pending st) !! i = Some x ↔
    (i = id ∧ x = f c) ∨ (i ≠ id ∧ pending st !! i = Some x)) as Ha.
  { intros i x. destruct (decide (i = id)) as [->|Hne].
    - rewrite lookup_alter_eq, Hc. simpl. split; [intros [= <-]; by left|]. intros [[_ ->]|[? _]]; done.
    - rewrite lookup_alter_ne by congruence. split; [eauto|]. intros [[? _]|[_ ?]]; done. }
  assert (∀ i (P : PendingCandidate → Prop), (P (f c) ↔ P c) →
    (∃ x, alter f id (pending st) !! i = Some x ∧ P x) ↔ (∃ x, pending st !! i = Some x ∧ P x)) as Hex.
  { intros i P HP. setoid_rewrite Ha. split.
    - intros (x & [[-> ->]|[? ?]] & ?); [exists c; tauto|eauto].
    - intros (x & Hx & ?). destruct (decide (i = id)) as [->|]; [|eauto 6].
      assert (x = c) as -> by congruence. exists (f c). tauto. }
  split; simpl.
  - intros i x [[-> ->]|[_ Hx]]%Ha; eapply (ii_next _ Hi); eauto.
  - apply (ii_wf _ Hi).
  - intros i h. rewrite Hex by (by rewrite Hm). apply (ii_missing _ Hi).
  - intros d i. rewrite Hex by (by rewrite Hs, Hd). apply (ii_destination _ Hi).
  - intros o i. rewrite Hex by (by rewrite Hs, Ho). apply (ii_resolved _ Hi).
  - intros i x o [[-> ->]|[_ Hx]]%Ha; [rewrite Ho, Hd|]; by eapply (ii_resolved_hash _ Hi).
  - intros i. rewrite Hex by (by rewrite Hs). apply (ii_fifo _ Hi).
  - apply (ii_fifo_sorted _ Hi).
  - intros i x [[-> ->]|[_ Hx]]%Ha; [by rewrite Hd|by eapply (ii_change _ Hi)].
  - assert (size (alter f id (pending st)) = size (pending st)) as ->; [|apply (ii_capacity _ Hi)].
    rewrite <- !size_dom. by rewrite dom_alter_L.
Qed.

Lemma size_alter f id (m : gmap N PendingCandidate) : size (alter f id m) = size m.
Proof. rewrite <- !size_dom. by rewrite dom_alter_L. Qed.

Lemma weight_alter f id (m : gmap N PendingCandidate) c :
  m !! id = Some c → weight (alter f id m) = (cand_weight (f c) + weight (delete id m))%nat.
Proof.
  intros Hc. rewrite (weight_delete _ id (f c)) by (by rewrite lookup_alter_eq, Hc).
  f_equal. f_equal. apply map_eq; intros i. rewrite !lookup_delete. case_decide; [done|].
  by rewrite lookup_alter_ne.
Qed.

Lemma mark_driven w st id c :
  state_inv st → w_run w = Active st → pending st !! id = Some c → cand_overlap_credited c = false →
  let st' := modify_candidate with_overlap id st in
  driven w st (w_set_overlap true (w_set_run (Active st') w)) st'.
Proof.
  intros Hs Hr Hc Hcr. cbv zeta. split; try done.
  - split; [apply Hs|apply (modify_index_inv _ _ _ c); try done; [apply Hs|by apply (ii_change _ (si_index _ Hs) id c)]|].
    intros i x. simpl. destruct (decide (i = id)) as [->|Hne].
    + rewrite lookup_alter_eq, Hc. intros [= <-]. apply (si_fresh _ Hs _ _ Hc).
    + rewrite lookup_alter_ne by congruence. apply (si_fresh _ Hs).
  - simpl. rewrite (weight_alter _ _ _ c), (weight_delete _ _ _ Hc) by done.
    unfold cand_weight. simpl. rewrite Hcr. lia.
  - simpl. rewrite size_alter. auto.
  - by left.
Qed.

Lemma last_suffix (prefix : list BlockHash) x suffix :
  suffix ≠ [] → last (prefix ++ x :: suffix) = last suffix.
Proof. intros. rewrite cons_middle, app_assoc, last_app. destruct (last suffix) eqn:E; [done|]. by apply last_None in E. Qed.

Lemma normalize_driven w st id suffix :
  state_inv st → w_run w = Active st → action_ok st (NormalizeCrossing id suffix) →
  ∃ st', refresh_candidate (modify_candidate (with_suffix suffix) id st) id = Some st' ∧
    driven w st (w_set_overlap true (w_set_run (Active st') w)) st'.
Proof.
  intros Hs Hr (c & Hc & Hsrc & _ & Hne & prefix & Hadd).
  assert (index_inv (modify_candidate (with_suffix suffix) id st)) as Hi1.
  { eapply modify_index_inv; [apply Hs|done..|]. simpl.
    rewrite <- (last_suffix prefix (vp_hash (committed_sink st))) by done.
    rewrite <- Hadd. by eapply (ii_change _ (si_index _ Hs)). }
  destruct (refresh_candidate_spec (modify_candidate (with_suffix suffix) id st) id) as (st' & E & Hi & F & P);
    [apply Hs|done|]. exists st'. split; [done|].
  set (c' := refreshed (modify_candidate (with_suffix suffix) id st) (with_suffix suffix c)).
  assert (pending st' = <[id := c']> (pending st)) as HP.
  { rewrite P. apply map_eq; intros i. simpl. destruct (decide (i = id)) as [->|Hid].
    - by rewrite !lookup_alter_eq, lookup_insert_eq, Hc.
    - by rewrite !lookup_alter_ne, lookup_insert_ne by congruence. }
  destruct F. split; try done.
  - split; [by rewrite sf_history; apply Hs|done|]. intros i x. rewrite HP, lookup_insert_Some.
    intros [[<- <-]|[_ Hx]].
    + eapply fresh_frame; [exact sf_history|]. eapply (fresh_refreshed _ _ (cand_destination c)). simpl.
      rewrite <- (last_suffix prefix (vp_hash (committed_sink st))) by done.
      rewrite <- Hadd. by eapply (ii_change _ (si_index _ Hs)).
    + eapply fresh_frame; [exact sf_history|]. by eapply (si_fresh _ Hs).
  - rewrite HP, weight_insert, (weight_delete _ _ _ Hc). unfold c', cand_weight. simpl.
    rewrite Hadd, length_app. simpl. lia.
  - rewrite HP, map_size_insert_Some by eauto. auto.
  - by left.
Qed.

(** * Committing *)

Lemma finish_commit_driven w st id c p o :
  state_inv st → w_run w = Active st → pending st !! id = Some c →
  prep_hashes p = cand_change c →
  endpoints st (cand_change c) = Some (committed_sink st, outcome_destination o) →
  rc_source (prep_ready p) = committed_sink st →
  ∃ w' st', finish_commit id p o w = Some w' ∧ driven w st w' st' ∧
    committed_sink st' = outcome_destination o ∧
    w_offers w' = w_offers w ++ [MkVspcCommitted (vp_hash (committed_sink st)) (vp_hash (outcome_destination o))
      (ch_removed (cand_change c)) (ch_added (cand_change c)) (outcome_level_snapshots o)].
Proof.
  intros Hs Hr Hc Hp He Hsrc. unfold finish_commit. rewrite Hr, Hp, Hsrc.
  pose proof (state_inv_set_sink (outcome_destination o) st Hs) as Hs1.
  pose proof (remove_candidate_inv _ id Hs1) as Hs2.
  destruct (remove_candidate_spec _ id (si_index _ Hs1)) as (_ & P & F1 & F2 & F3 & _).
  set (st2 := (remove_candidate id (st_set_sink (outcome_destination o) st)).1) in *. simpl in *.
  assert (∃ st3, match phase st2 with Catchup _ => Some st2 | _ => prune_history st2 end = Some st3 ∧
    state_inv st3 ∧ phase st3 = phase st2 ∧ committed_sink st3 = committed_sink st2 ∧
    weight (pending st3) = weight (pending st2) ∧ size (pending st3) = size (pending st2))
    as (st3 & -> & Hs3 & G1 & G2 & G3 & G4).
  { destruct (prune_history_spec st2 (si_history _ Hs2) (si_index _ Hs2)) as (st3 & Ep & ? & _ & ? & ? & _ & Hpd).
    destruct (phase st2) eqn:Eph; [exists st3|exists st2|exists st3];
      rewrite ?Hpd, ?weight_refreshed, ?size_refreshed; split_and!; congruence. }
  run_bind. eexists _, st3. split; [done|].
  destruct (endpoints_named _ _ _ _ (si_history _ Hs) He) as [Hlast Hhead].
  split; [|split; [congruence|done]].
  split; try done; simpl.
  - congruence.
  - rewrite G3, P, (weight_delete _ _ _ Hc). unfold cand_weight. lia.
  - split; [|by right]. rewrite G4, P, map_size_delete_Some by eauto. lia.
  - right. eexists. split; [done|]. split; [by split|]. simpl. split; [done|]. congruence.
Qed.

Lemma attribute_path_total rpc cancelled live src conflict :
  is_Some (attribute_path rpc cancelled live src conflict).
Proof.
  unfold attribute_path. destruct cancelled; [done|].
  destruct (rpc_full_block rpc _) as [?|[]]; simpl; eauto.
Qed.

Lemma commit_candidate_outcome db rpc cancelled w st id c :
  VspcDatabaseLaws db → state_inv st → w_run w = Active st → pending st !! id = Some c →
  source_is_sink st (cand_change c) = true →
  ∃ w' b, commit_candidate db rpc cancelled id w = Some (w', b) ∧ drive_outcome w st w' b.
Proof.
  intros Hdb Hs Hr Hc [d He]%source_is_sink_true. unfold commit_candidate.
  destruct (prepare_candidate_spec db id w st c d Hdb Hr Hc He) as ([p|f] & -> & Hp);
    run_bind; [|by eexists _, _; split; [|constructor]].
  destruct Hp as (Hph & _ & Hps & Hpd).
  destruct (db_apply_vspc_change db (prep_ready p)) as [o|[e| |i|conflict]] eqn:Ea;
    try (by eexists _, _; split; [|constructor]).
  - apply apply_returns_destination in Ea. rewrite <- Hpd, <- Ea in He.
    destruct (finish_commit_driven w st id c p o Hs Hr Hc Hph He Hps) as (w' & st' & -> & Hd & _).
    run_bind. eexists _, _. split; [done|]. by econstructor.
  - destruct (attribute_path_total rpc cancelled (is_live w) (prep_source p) conflict) as [[f|] ->];
      run_bind; by eexists _, _; split; [|constructor].
Qed.

(** One drive step never panics, and what it can do. *)
Lemma drive_once_outcome db rpc cancelled w st :
  VspcDatabaseLaws db → state_inv st → w_run w = Active st →
  ∃ w' b, drive_once db rpc cancelled w = Some (w', b) ∧ drive_outcome w st w' b ∧
    (b = false → w' = w ∧ (w_faulted w = false → settled st ∨ cancelled = true)).
Proof.
  intros Hdb Hs Hr. unfold drive_once. destruct (w_faulted w) eqn:Ef.
  { eexists _, _. split; [done|]. split; [constructor|done]. }
  rewrite Hr. destruct (next_action_ok st Hs) as (a & -> & Ha). run_bind.
  destruct a as [act|]; cycle 1.
  { eexists _, _. split; [done|]. split; [constructor|auto]. }
  destruct act as [id ov|id suffix|id|id| |]; simpl perform.
  - destruct Ha as (c & o & Hc & _). eexists _, _. split; [done|]. split; [|done].
    econstructor. apply discard_driven; eauto.
  - destruct (normalize_driven w st id suffix Hs Hr Ha) as (st' & -> & Hd).
    run_bind. eexists _, _. split; [done|]. split; [by econstructor|done].
  - destruct Ha as (c & Hc & _ & _ & Hcr & _). eexists _, _. split; [done|]. split; [|done].
    econstructor. by eapply mark_driven.
  - destruct Ha as (c & Hc & Hsink & _).
    destruct (commit_candidate_outcome db rpc cancelled w st id c Hdb Hs Hr Hc Hsink) as (w' & b & Eq & Ho).
    exists w', b. split; [done|]. split; [done|]. intros ->. inversion Ho; subst. split; [done|]. intros _.
    right. revert Eq. clear. unfold commit_candidate.
    destruct (prepare_candidate db id w') as [[p|f]|]; run_bind; [|done..].
    destruct (db_apply_vspc_change db (prep_ready p)) as [o|[e| |i|conflict]]; try done.
    + by destruct (finish_commit id p o w').
    + unfold attribute_path. destruct cancelled; [done|].
      destruct (rpc_full_block rpc _) as [?|[]]; done.
  - eexists _, _. split; [done|]. split; [constructor|done].
  - eexists _, _. split; [done|]. split; [constructor|done].
Qed.

(** * Driving ends *)

Definition drive_measure w : nat :=
  match w_run w with
  | Active st => if w_faulted w then O else S (weight (pending st))
  | Inert _ => O
  end.

(** [n] consecutive drive steps that did something, with any answers of the
    database and the node. *)
Inductive drives : nat → Worker → Worker → Prop :=
  | drives_none w : drives 0 w w
  | drives_one n w w1 w2 db rpc cancelled :
    VspcDatabaseLaws db → drive_once db rpc cancelled w = Some (w1, true) →
    drives n w1 w2 → drives (S n) w w2.

Lemma drives_bounded n w w' st :
  drives n w w' → state_inv st → w_run w = Active st → (n ≤ drive_measure w)%nat.
Proof.
  intros Hd. revert st. induction Hd as [|n w w1 w2 db rpc cancelled Hdb E Hd IH]; intros st Hs Hr; [lia|].
  destruct (drive_once_outcome db rpc cancelled w st Hdb Hs Hr) as (w1' & b & E' & Ho & _).
  rewrite E in E'. injection E' as <- <-. unfold drive_measure. rewrite Hr.
  assert (w_faulted w = false) as Hf.
  { destruct (w_faulted w) eqn:Ef; [|done]. unfold drive_once in E. by rewrite Ef in E. }
  rewrite Hf. inversion Ho as [w3 st3 D|f|]; subst.
  - specialize (IH st3 (dr_inv _ _ _ _ D) (dr_run _ _ _ _ D)). unfold drive_measure in IH.
    rewrite (dr_run _ _ _ _ D), (dr_faulted _ _ _ _ D), Hf in IH. pose proof (dr_weight _ _ _ _ D). lia.
  - unfold drive_measure in IH. unfold enter_fault in *. rewrite Hf in *. simpl in *.
    specialize (IH st Hs Hr). rewrite Hr in IH. lia.
Qed.

(** * The worker over its life *)

Record worker_inv (anchor : MaterializedSyncAnchor) w st : Prop := {
  wi_run : w_run w = Active st;
  wi_state : state_inv st;
  wi_chain : offers_chain (vp_hash (msa_point anchor)) (w_offers w) (vp_hash (committed_sink st));
  wi_offers : Forall offer_ok (w_offers w);
  wi_occupancy : pending_occupancy (w_metrics w) = size (pending st);
  wi_high_water : (size (pending st) ≤ pending_high_water_mark (w_metrics w) ≤ MAX_PENDING_VSPC_CHANGES)%nat;
  wi_events : if w_faulted w then ∃ f, w_events w = [Event_Fault f] else w_events w = []
}.

(** The fields of the worker that the invariant reads, apart from the queues. *)
Lemma worker_inv_queues a w st ns ss ps : worker_inv a w st → worker_inv a (w_set_queues ns ss ps w) st.
Proof. intros []. by split. Qed.
Lemma worker_inv_overlap a w st b : worker_inv a w st → worker_inv a (w_set_overlap b w) st.
Proof. intros []. by split. Qed.

Lemma worker_inv_fault a w st f : worker_inv a w st → worker_inv a (enter_fault f w) st.
Proof.
  intros Hw. unfold enter_fault. destruct (w_faulted w) eqn:E; [done|]. destruct Hw. split; try done.
  simpl. rewrite E in wi_events0. rewrite wi_events0. by eexists.
Qed.

Lemma worker_inv_new_state a w st st' :
  worker_inv a w st → state_inv st' → committed_sink st' = committed_sink st →
  size (pending st') = size (pending st) → worker_inv a (w_set_run (Active st') w) st'.
Proof.
  intros [Hr _ Hch Ho Hocc Hw He] Hs Hsink Hsz. split; try done; simpl; congruence.
Qed.

Lemma worker_inv_metrics a w st st' :
  worker_inv a w st → state_inv st' → committed_sink st' = committed_sink st →
  worker_inv a (metrics_update (pending_len st') (w_set_run (Active st') w)) st'.
Proof.
  intros [Hr _ Hch Ho Hocc Hw He] Hs Hsink. pose proof (ii_capacity _ (si_index _ Hs)).
  split; try done; simpl; [congruence|]. unfold pending_len. lia.
Qed.

Lemma worker_inv_driven a w st w' st' : worker_inv a w st → driven w st w' st' → worker_inv a w' st'.
Proof.
  intros [Hr Hs Hch Ho Hocc Hw He] D. destruct D.
  pose proof (ii_capacity _ (si_index _ dr_inv0)).
  split; try done.
  - destruct dr_offers0 as [[-> ->]|(u & -> & _ & Hu & <-)]; [done|]. by eapply offers_chain_snoc.
  - destruct dr_offers0 as [[-> _]|(u & -> & Hu & _)]; [done|]. apply Forall_app_2; [done|]. by constructor.
  - destruct dr_occupancy0 as [_ [[-> ->]| ->]]; done.
  - destruct dr_occupancy0 as [_ [[-> ->]| ->]]; [done|]. simpl. lia.
  - by rewrite dr_faulted0, dr_events0.
Qed.

Lemma handle_persisted_inv a w st b :
  worker_inv a w st → ∃ w' st', handle_persisted b w = Some w' ∧ worker_inv a w' st'.
Proof.
  intros Hw. unfold handle_persisted. rewrite (wi_run _ _ _ Hw).
  destruct (state_persisted_spec b st (wi_state _ _ _ Hw)) as (st' & -> & Hs & _ & _ & Hsink & _ & HP).
  run_bind. eexists _, st'. split; [done|]. eapply worker_inv_new_state; try done.
  by rewrite HP, size_refreshed.
Qed.

(** What the guards of [handle_change] let through. *)
Lemma admission_spec ch d src st :
  state_inv st → ∃ r, admission ch d src st = Some r ∧
    (r = Admit → (size (pending st) < MAX_PENDING_VSPC_CHANGES)%nat ∧
                 (src = Notification → notification_by_destination st !! d = None)).
Proof.
  intros Hs. pose proof (ii_capacity _ (si_index _ Hs)) as Hcap.
  assert (∀ r, (if decide (pending_len st = MAX_PENDING_VSPC_CHANGES) then Reject capacity_fault else Admit) = r →
    r = Admit → (size (pending st) < MAX_PENDING_VSPC_CHANGES)%nat) as Hc.
  { intros r <-. unfold pending_len. case_decide; [done|]. intros _. lia. }
  unfold admission. destruct src.
  - destruct (phase st); eexists; (split; [done|]); intros E; try done; (split; [by eapply Hc|done]).
  - destruct (notification_by_destination st !! d) as [i|] eqn:Ed.
    + pose proof Ed as (c & -> & _)%(ii_destination _ (si_index _ Hs)). run_bind.
      destruct (phase st); eexists; (split; [done|]); done.
    + destruct (phase st); eexists; (split; [done|]); intros E; try done; (split; [by eapply Hc|done]).
Qed.

Lemma handle_change_inv a w st ch src :
  worker_inv a w st → next_pending_id st < U64_MAX →
  ∃ w' st', handle_change ch src w = Some w' ∧ worker_inv a w' st'.
Proof.
  intros Hw Hn. unfold handle_change. destruct (last (ch_added ch)) as [d|] eqn:Ed; cycle 1.
  { eexists _, st. split; [done|]. by apply worker_inv_fault. }
  rewrite (wi_run _ _ _ Hw). destruct (admission_spec ch d src st (wi_state _ _ _ Hw)) as (r & -> & Hr).
  run_bind. destruct r as [|f|].
  - by exists w, st.
  - eexists _, st. split; [done|]. by apply worker_inv_fault.
  - destruct (Hr eq_refl) as [Hsz Hd].
    destruct (admit_change_spec ch d src st (wi_state _ _ _ Hw) Ed Hd Hsz Hn)
      as (st' & -> & Hs' & _ & _ & Hsink & _).
    run_bind. eexists _, st'. split; [done|]. by eapply worker_inv_metrics.
Qed.

(** Only an exhausted identifier space stops an admission. *)
Lemma handle_change_partial a w st ch src w' :
  worker_inv a w st → handle_change ch src w = Some w' → ∃ st', worker_inv a w' st'.
Proof.
  intros Hw Hc. destruct (decide (next_pending_id st < U64_MAX)) as [Hn|Hn].
  { destruct (handle_change_inv a w st ch src Hw Hn) as (w'' & st' & E & Hw'). exists st'. congruence. }
  revert Hc. unfold handle_change. destruct (last (ch_added ch)) as [d|]; cycle 1.
  { intros [= <-]. exists st. by apply worker_inv_fault. }
  rewrite (wi_run _ _ _ Hw). destruct (admission_spec ch d src st (wi_state _ _ _ Hw)) as (r & -> & _).
  run_bind. destruct r as [|f|].
  - intros [= <-]. eauto.
  - intros [= <-]. exists st. by apply worker_inv_fault.
  - unfold admit_change, allocate_pending_id. destruct (checked_add (next_pending_id st) 1) eqn:E; [|done].
    apply checked_add_inv in E. lia.
Qed.

Lemma handle_command_inv a w st c :
  worker_inv a w st →
  ∃ w' b, handle_command c w = Some (w', b) ∧ (b = false → ∃ st', worker_inv a w' st').
Proof.
  intros Hw.
  assert (∃ w' b, Some (enter_fault invalid_lifecycle w, false) = Some (w', b) ∧
    (b = false → ∃ st', worker_inv a w' st')) as Hfault.
  { eexists _, _. split; [done|]. intros _. exists st. by apply worker_inv_fault. }
  destruct c as [bound| |]; simpl; rewrite ?(wi_run _ _ _ Hw).
  - eexists _, _. split; [done|]. intros _.
    destruct (phase st); [|exists st; by apply worker_inv_fault..].
    eexists. apply worker_inv_overlap. eapply worker_inv_new_state; [done|..|done|done].
    apply state_inv_set_phase, Hw.
  - destruct (phase st) as [|bound|]; [exact Hfault| |exact Hfault].
    destruct (clear_synthetic_spec st (wi_state _ _ _ Hw)) as (Hs1 & Hk & _).
    pose proof (state_inv_set_phase Live _ Hs1) as [Hh Hi _].
    destruct (prune_history_spec _ Hh Hi) as (st' & -> & Hs' & _ & _ & Hsink & _).
    run_bind. eexists _, _. split; [done|]. intros _. exists st'.
    apply (worker_inv_metrics a (w_drain_synthetic w) st); [by destruct Hw|done|]. simpl in Hsink. congruence.
  - eexists _, _. by split.
Qed.

Lemma take_message_inv a w st :
  worker_inv a w st →
  (next_pending_id st < U64_MAX → is_Some (take_message w)) ∧
  (∀ w' b, take_message w = Some (w', b) → ∃ st', worker_inv a w' st').
Proof.
  intros Hw.
  assert (∀ ch src ns ss ps,
    let r := (w1 ← handle_change ch src (w_set_queues ns ss ps w); Some (w1, true)) in
    (next_pending_id st < U64_MAX → is_Some r) ∧
    (∀ w' b, r = Some (w', b) → ∃ st', worker_inv a w' st')) as Hch.
  { intros ch src ns ss ps. pose proof (worker_inv_queues a w st ns ss ps Hw) as Hq. cbv zeta. split.
    - intros Hn. destruct (handle_change_inv a _ st ch src Hq Hn) as (w' & st' & -> & _). done.
    - intros w' b. rewrite bind_Some. intros (w1 & E & [= <- <-]). by eapply handle_change_partial. }
  unfold take_message.
  destruct (w_persisted w) as [|p ps]; [destruct (w_synthetic w) as [|c ss]; [destruct (w_notifications w) as [|c ns]|]|];
    [|apply Hch..|].
  - split; [done|]. intros ?? [= <- <-]. eauto.
  - destruct (handle_persisted_inv a _ st p
      (worker_inv_queues a w st (w_notifications w) (w_synthetic w) ps Hw)) as (w' & st' & -> & Hw').
    run_bind. split; [done|]. intros ?? [= <- <-]. eauto.
Qed.

Lemma drop_message_inv a w st : worker_inv a w st → worker_inv a (drop_message w).1 st.
Proof.
  intros Hw. unfold drop_message.
  destruct (w_persisted w), (w_synthetic w), (w_notifications w); simpl; try done; by apply worker_inv_queues.
Qed.

Lemma poll_inv a db rpc cancelled w st :
  VspcDatabaseLaws db → worker_inv a w st →
  (next_pending_id st < U64_MAX → is_Some (poll db rpc cancelled w)) ∧
  (∀ w' b, poll db rpc cancelled w = Some (w', b) → ∃ st', worker_inv a w' st').
Proof.
  intros Hdb Hw. pose proof (drop_message_inv a w st Hw) as Hdrop.
  unfold poll. rewrite (wi_run _ _ _ Hw). destruct (w_faulted w) eqn:Ef.
  { split; [done|]. intros w' b [= E]. rewrite E in Hdrop. eauto. }
  destruct (drive_once_outcome db rpc cancelled w st Hdb (wi_state _ _ _ Hw) (wi_run _ _ _ Hw))
    as (w1 & b1 & -> & Ho & Hidle). run_bind.
  destruct b1; cycle 1.
  { destruct (Hidle eq_refl) as [-> _]. by apply take_message_inv. }
  split; [done|]. intros w' b [= <- <-]. inversion Ho as [w2 st2 Hd|f|]; subst.
  - exists st2. exact (worker_inv_driven _ _ _ _ _ Hw Hd).
  - exists st. by apply worker_inv_fault.
Qed.

Lemma initialize_inv a mode w : initialize a (Worker_new mode) = (w, Ok tt) → worker_inv a w (VspcState_new a).
Proof.
  intros [= <-]. split; try done; simpl; [|unfold MAX_PENDING_VSPC_CHANGES; rewrite map_size_empty; lia].
  split; [apply history_insert_wf, history_wf_empty| |by intros i c; simpl; rewrite lookup_empty].
  split; simpl; try (intros *; rewrite ?lookup_empty; naive_solver).
  - apply mm_wf_empty.
  - intros id h. unfold mm_get. rewrite lookup_empty. simpl. setoid_rewrite lookup_empty. set_solver.
  - intros id. setoid_rewrite lookup_empty. set_solver.
  - constructor.
  - rewrite map_size_empty. lia.
Qed.

Lemma worker_reachable_inv a w : worker_reachable a w → ∃ st, worker_inv a w st.
Proof.
  induction 1 as [mode w Hinit|w w' _ [st Hw] Hstep]; [eauto using initialize_inv|].
  destruct Hstep as [w ns ss ps|w c w' Hc|w|w|w db rpc cancelled w' b Hdb Hp].
  - exists st. by apply worker_inv_queues.
  - destruct (handle_command_inv a w st c Hw) as (w'' & b & E & Hb).
    rewrite Hc in E. injection E as <- <-. by apply Hb.
  - exists st. by apply worker_inv_fault.
  - exists st. unfold report_command_path_loss. rewrite (wi_run _ _ _ Hw).
    destruct (w_faulted w); [done|]. by apply worker_inv_fault.
  - by eapply (proj2 (poll_inv a db rpc cancelled w st Hdb Hw)).
Qed.
End vspc_drive.
