(* ===== verification/PublicationExamples.v ===== *)
(** Concrete instances the theorems are applied to: a small graph over numeric
    hashes, three levels of a chain; and executions of a publication, a runner of
    events, each a step of the machine, with the worlds it reaches. *)

From Stdlib Require Import String.
From S2P Require Import Prelude Model Delta GraphView ViewInvariant ApplyDelta Compose Mutation.
From S2P Require Import HeadBlock HeadView VspcView Subview History Lineage Ladder Cache.
From S2P Require Import CacheMachine Clients ClientsSafety ClientsWorld Publication Election PublicationSteps.

#[local] Open Scope N_scope.
#[local] Existing Instance NHash.

Definition demo_block (h l : N) (ps : list N) : @GraphBlock NHash :=
  @MkGraphBlock NHash h (MkBlockCoordinate l 0) (1000 + h) h (Some 0) ps ps [] Gray false.

Definition demo_edge (p lp c lc : N) : @GraphEdge NHash :=
  @MkGraphEdge NHash (@MkEdgeId NHash p c) (MkBlockCoordinate lp 0) (MkBlockCoordinate lc 0).

Definition demo_levels : gmap N Level := <[1 := MkLevel 1 None]> (<[2 := MkLevel 1 None]> ∅).
Definition demo_blocks : gmap (@BlockHash NHash) (@GraphBlock NHash) :=
  <[1 := demo_block 1 1 []]> (<[2 := demo_block 2 2 [1]]> ∅).
Definition demo_edges : gmap (@EdgeId NHash) (@GraphEdge NHash) :=
  <[@MkEdgeId NHash 1 2 := demo_edge 1 1 2 2]> ∅.

(** A Head view of depth two over levels one and two. *)
Definition demo_view (policy : TrackingPolicy) : @GraphView NHash :=
  default (@MkGraphView NHash 1 (MkLevelExtent 1 1) 0 0 Frozen ∅ ∅ ∅ ∅ ∅ ∅)
    (from_database_projection 2 (MkLevelExtent 1 2) policy demo_levels demo_blocks demo_edges).

(** The next committed block: level three, parent two. *)
Definition demo_commit : @BlockCommitted NHash :=
  @MkBlockCommitted NHash (MkCompactId 3) 3 (MkBlockCoordinate 3 0) 1003 3 (Some 0)
    [@MkParentCommitted NHash 2 (Some (MkBlockCoordinate 2 0))] [2] [] Gray false
    [MkLevelCommitted 3 1 None].

(** A VSPC transition that adds block two. *)
Definition demo_vspc : @VspcCommitted NHash :=
  @MkVspcCommitted NHash 1 2 [] [2] [MkLevelCommitted 2 1 (Some 7)].

Lemma demo_blocks_lookup h b :
  demo_blocks !! h = Some b → (h = 1 ∧ b = demo_block 1 1 []) ∨ (h = 2 ∧ b = demo_block 2 2 [1]).
Proof. unfold demo_blocks. rewrite !lookup_insert_Some, lookup_empty. naive_solver. Qed.
Lemma demo_edges_lookup id e :
  demo_edges !! id = Some e → id = @MkEdgeId NHash 1 2 ∧ e = demo_edge 1 1 2 2.
Proof. unfold demo_edges. rewrite !lookup_insert_Some, lookup_empty. naive_solver. Qed.
Lemma demo_levels_lookup l x : demo_levels !! l = Some x → l = 1 ∨ l = 2.
Proof. unfold demo_levels. rewrite !lookup_insert_Some, lookup_empty. naive_solver. Qed.

Lemma demo_view_indexed policy :
  indexed (demo_view policy) ∧ content (demo_view policy) = MkContent demo_levels demo_blocks demo_edges ∧
  max_depth (demo_view policy) = 2 ∧ extent (demo_view policy) = MkLevelExtent 1 2 ∧
  tracking_policy (demo_view policy) = policy ∧ current_revision_id (demo_view policy) = 0.
Proof.
  destruct (from_database_projection_spec 2 (MkLevelExtent 1 2) policy demo_levels demo_blocks demo_edges)
    as (v & Hv & Hi & Hc & Hd & He & Hp & Hr).
  - lia.
  - by vm_compute.
  - by intros h b [[-> ->]|[-> ->]]%demo_blocks_lookup.
  - by intros id e [-> ->]%demo_edges_lookup.
  - intros id e [-> ->]%demo_edges_lookup. vm_compute. by eexists.
  - by vm_compute.
  - unfold demo_view. rewrite Hv. simpl. by split_and!.
Qed.

Lemma demo_head_inv : head_inv (demo_view Head).
Proof.
  destruct (demo_view_indexed Head) as (Hi & Hc & Hd & He & Hp & _).
  pose proof (f_equal ct_levels Hc : value <$> levels (demo_view Head) = demo_levels) as Hl.
  pose proof (f_equal ct_blocks Hc : blocks (demo_view Head) = demo_blocks) as Hb.
  pose proof (f_equal ct_edges Hc : edges (demo_view Head) = demo_edges) as Hed.
  split; rewrite ?Hd, ?He, ?Hb, ?Hed; try done.
  - intros h b [[-> ->]|[-> ->]]%demo_blocks_lookup; by vm_compute.
  - intros id e [-> ->]%demo_edges_lookup. exists (demo_block 2 2 [1]). by vm_compute.
  - intros id e [-> ->]%demo_edges_lookup. by vm_compute.
  - intros l [H1 H2]. simpl in *. assert (l = 1 ∨ l = 2) as [-> | ->] by lia; vm_compute; by eexists.
  - intros l [s Hs]. left. unfold contains_level; simpl.
    assert (demo_levels !! l = Some (value s)) as Hv by (by rewrite <- Hl, lookup_fmap, Hs).
    apply demo_levels_lookup in Hv. lia.
Qed.

Lemma demo_commit_ok : block_payload_ok demo_commit (demo_view Head).
Proof.
  split.
  - by vm_compute.
  - by vm_compute.
  - intros p pc ->%list_elem_of_singleton [= <-]. by vm_compute.
  - by intros p q ->%list_elem_of_singleton ->%list_elem_of_singleton.
  - vm_compute. left.
  - intros p pc ->%list_elem_of_singleton [= <-]. left. vm_compute. by eexists.
  - by vm_compute.
  - by vm_compute.
Qed.

(** The committed block moves the extent up, drops block one and keeps edge
    two to three. *)
Example demo_commit_runs :
  match apply_head_block_committed demo_commit 10 (demo_view Head) with
  | Some (v, Ok (Some d)) =>
    extent v = MkLevelExtent 2 3 ∧ (map_to_list (blocks v)).*1 = [2; 3] ∧
    current_revision_id v = 1 ∧ from_revision_id d = 0
  | _ => False
  end.
Proof. by vm_compute. Qed.

(** The view and the delta of that step, and of a VSPC transition after it. *)
Definition step_view (r : option (@GraphView NHash * Result (option (@GraphDelta NHash)) GraphViewUpdateError))
    : @GraphView NHash :=
  match r with Some (v, _) => v | None => demo_view Frozen end.
Definition step_delta (r : option (@GraphView NHash * Result (option (@GraphDelta NHash)) GraphViewUpdateError))
    : @GraphDelta NHash :=
  match r with
  | Some (_, Ok (Some d)) => d
  | _ => @MkGraphDelta NHash 0 1 0 1 ∅ ∅ [] ∅ ∅
  end.

Definition demo_next : @GraphView NHash :=
  step_view (apply_head_block_committed demo_commit 10 (demo_view Head)).
Definition demo_delta : @GraphDelta NHash :=
  step_delta (apply_head_block_committed demo_commit 10 (demo_view Head)).
Definition demo_last : @GraphView NHash := step_view (apply_head_vspc_committed demo_vspc 20 demo_next).
Definition demo_delta2 : @GraphDelta NHash := step_delta (apply_head_vspc_committed demo_vspc 20 demo_next).

(** Only the shape of a result is computed; its parts stay symbolic. *)
Definition step_ok (r : option (@GraphView NHash * Result (option (@GraphDelta NHash)) GraphViewUpdateError))
    : bool :=
  match r with Some (_, Ok (Some _)) => true | _ => false end.
Lemma step_eq r : step_ok r = true → r = Some (step_view r, Ok (Some (step_delta r))).
Proof. by destruct r as [[v [[d|]|e]]|]. Qed.

Lemma step_split r v d : r = Some (v, Ok (Some d)) → step_view r = v ∧ step_delta r = d.
Proof. by intros ->. Qed.
Lemma step_not_idle r v : step_ok r = true → r ≠ Some (v, Ok None).
Proof. by intros H ->. Qed.

Lemma demo_next_eq :
  apply_head_block_committed demo_commit 10 (demo_view Head) = Some (demo_next, Ok (Some demo_delta)).
Proof. apply step_eq. by vm_compute. Qed.
Lemma demo_last_eq :
  apply_head_vspc_committed demo_vspc 20 demo_next = Some (demo_last, Ok (Some demo_delta2)).
Proof. apply step_eq. by vm_compute. Qed.

Lemma demo_next_ok :
  head_inv demo_next ∧ applicable demo_delta (demo_view Head) ∧
  faithful demo_delta (content (demo_view Head)) ∧
  apply_delta demo_delta (demo_view Head) = Some (demo_next, Ok tt).
Proof.
  destruct (head_block_committed demo_commit 10 (demo_view Head) demo_head_inv demo_commit_ok)
    as [E|(v' & d & E & Hv & Ha & Hf & Hd & _)].
  - apply step_not_idle in E; [done|]. by vm_compute.
  - unfold demo_next, demo_delta. destruct (step_split _ _ _ E) as [-> ->]. by split_and!.
Qed.

Lemma demo_last_ok :
  head_inv demo_last ∧ applicable demo_delta2 demo_next ∧ faithful demo_delta2 (content demo_next) ∧
  apply_delta demo_delta2 demo_next = Some (demo_last, Ok tt) ∧ block_changes demo_delta2 = ∅.
Proof.
  destruct (head_vspc_committed demo_vspc 20 demo_next) as
    [[E _]|(v' & d & E & Hv & _ & _ & _ & Hb & _ & _ & Ha & Hf & Hd)].
  - apply demo_next_ok.
  - by vm_compute.
  - by vm_compute.
  - apply step_not_idle in E; [done|]. by vm_compute.
  - unfold demo_last, demo_delta2. destruct (step_split _ _ _ E) as [-> ->]. by split_and!.
Qed.

(** A publication that applied both. *)
Notation lineage_result :=
  (option (@GraphView NHash * @GraphHistory NHash * Result (option AppliedLineageUpdate) PublicationProjectionError)).
Definition lineage_history (r : lineage_result) : @GraphHistory NHash :=
  match r with Some (_, h, _) => h | None => GraphHistory_new end.
Definition lineage_ok (revision : N) (r : lineage_result) : bool :=
  match r with
  | Some (_, _, Ok (Some (MkAppliedLineageUpdate target None))) => bool_decide (target = revision)
  | _ => false
  end.

Lemma lineage_eq revision u ts v h v' r :
  OriginalUpdate_apply u ts v = Some (v', r) →
  let res := AppliedLineageUpdate_apply estimate_raw_delta_bytes u ts v h in
  lineage_ok revision res = true →
  res = Some (v', lineage_history res, Ok (Some (MkAppliedLineageUpdate revision None))).
Proof.
  intros E. cbv zeta. unfold AppliedLineageUpdate_apply. case_decide; [done|]. rewrite E. run_bind.
  destruct r as [[d|]|e]; [|done..]. destruct (estimate_raw_delta_bytes d) as [n|]; [|done]. run_bind.
  destruct (append _ _ _ _) as [[h' [[]|e]]|]; [|done..]. run_bind. unfold lineage_ok.
  case_decide; [done|]. intros Hr%bool_decide_eq_true. by rewrite Hr.
Qed.

Definition demo_history1 : @GraphHistory NHash :=
  lineage_history (AppliedLineageUpdate_apply estimate_raw_delta_bytes (OriginalBlock demo_commit) 10
                     (demo_view Head) GraphHistory_new).
Definition demo_history2 : @GraphHistory NHash :=
  lineage_history (AppliedLineageUpdate_apply estimate_raw_delta_bytes (OriginalVspc demo_vspc) 20
                     demo_next demo_history1).

Lemma demo_run :
  lineage_run estimate_raw_delta_bytes [demo_last; demo_next; demo_view Head] demo_last demo_history2.
Proof.
  apply (run_step _ _ demo_next demo_history1 (OriginalVspc demo_vspc) 20 _ _
           (Ok (Some (MkAppliedLineageUpdate 2 None)))).
  - apply (run_step _ _ (demo_view Head) GraphHistory_new (OriginalBlock demo_commit) 10 _ _
             (Ok (Some (MkAppliedLineageUpdate 1 None)))).
    + constructor; [apply demo_head_inv|by vm_compute].
    + apply demo_commit_ok.
    + eapply lineage_eq; [exact demo_next_eq|by vm_compute].
  - by vm_compute.
  - eapply lineage_eq; [exact demo_last_eq|by vm_compute].
Qed.


(** * The runner *)

Inductive DemoEvent :=
  | DemoVspc (c : @VspcCommitted NHash) (now_ms : N)
  | DemoAnnounce
  | DemoSelect (source : N) (interval fresh : N)
  | DemoHeadTier (depth fresh : N)
  | DemoFinish (j : JobId) (d : CachedDelta)
  | DemoComplete (j : JobId).

Definition vspc_bounds (v : @GraphView NHash) : Prop :=
  N.of_nat (size (edges v)) ≤ U64_MAX ∧ current_revision_id v < U64_MAX.
#[global] Instance vspc_bounds_dec v : Decision (vspc_bounds v).
Proof. unfold vspc_bounds. apply _. Defined.

Definition delta_builds (d : CachedDelta) (t : option DeltaTask) : bool :=
  match t with
  | Some (DeltaBuilding source target sl) =>
    bool_decide (cd_from_revision_id d = source ∧ cd_to_revision_id d = target ∧ cd_size_limited d = sl)
  | _ => false
  end.
Definition delta_finishing (t : option DeltaTask) : bool :=
  match t with Some (DeltaFinishing _) => true | _ => false end.

Definition demo_step (w : @PublicationWorld NHash) (ev : DemoEvent) : option (@PublicationWorld NHash) :=
  let p := pw_publication w in
  match ev with
  | DemoVspc c now_ms =>
    if bool_decide (gp_mutation p = None ∧ vspc_bounds (pc_view (pw_core w)) ∧
                    current_revision_timestamp_ms (pc_view (pw_core w)) ≤ now_ms)
    then '(p', _) ← apply_original_update (OriginalVspc c) now_ms p; Some (with_publication p' w)
    else None
  | DemoAnnounce =>
    '(p', cx') ← announce_in (map_to_list (rg_clients (gp_clients p))) p (pw_connections w);
    Some (MkPublicationWorld p' (pw_requests w) (pw_registries w) cx')
  | DemoSelect source interval fresh =>
    if bool_decide (source + MAX_DELTA_REVISION_SPAN ≤ U64_MAX ∧ interval ∈ ADAPTIVE_DELTA_INTERVALS ∧
                    w_delta_jobs (pw_cache w) !! fresh = None)
    then '(p', cx', r) ← select_canonical_delta source None interval fresh p (pw_connections w);
         Some (MkPublicationWorld p' (handed_out r ++ pw_requests w) (pw_registries w) cx')
    else None
  | DemoHeadTier depth fresh =>
    if bool_decide (depth ∈ CACHED_HEAD_WINDOW_DEPTHS ∧ w_head_jobs (pw_cache w) !! fresh = None ∧
                    N.of_nat (size (edges (pc_view (pw_core w)))) ≤ U64_MAX)
    then '(p', _, _) ← head_tier depth (λ _, false) fresh p; Some (with_publication p' w)
    else None
  | DemoFinish j d =>
    if delta_builds d (w_delta_tasks (pw_cache w) !! j)
    then c' ← cache_step (FinishDelta j (Ok d)) (pw_cache w); Some (with_publication (set_cache c' p) w)
    else None
  | DemoComplete j =>
    if delta_finishing (w_delta_tasks (pw_cache w) !! j)
    then c' ← cache_step (CompleteDelta j) (pw_cache w); Some (with_publication (set_cache c' p) w)
    else None
  end.

Lemma demo_step_sound base64_encode w ev w' : demo_step w ev = Some w' → publication_step base64_encode w w'.
Proof.
  destruct ev as [c now|  |source interval fresh|depth fresh|j d|j]; cbn [demo_step].
  - case_bool_decide as Hg; [|done]. destruct Hg as (Hm & Hb & Hts). intros ([p' r] & E & [= <-])%bind_Some.
    apply (ps_update _ w (OriginalVspc c) now p' r); [done|exact Hb|done|exact E].
  - intros ([p' cx'] & E & [= <-])%bind_Some. by eapply ps_announce.
  - case_bool_decide as Hg; [|done]. destruct Hg as (Hr & Hi & Hf). intros ([[p' cx'] r] & E & [= <-])%bind_Some.
    by eapply ps_select.
  - case_bool_decide as Hg; [|done]. destruct Hg as (Hd & Hf & Hb). intros ([[p' sel] cap] & E & [= <-])%bind_Some.
    by eapply ps_head_tier.
  - destruct (delta_builds _ _) eqn:Hg; [|done]. intros (c' & E & [= <-])%bind_Some. eapply ps_builder; [|done].
    destruct (w_delta_tasks (pw_cache w) !! j) as [[source target sl|]|] eqn:Ht; [|done..].
    simpl in Hg. case_bool_decide as Hb; [|done]. exists source, target, sl. split; [done|]. by intros ? [= <-].
  - destruct (delta_finishing _) eqn:Hg; [|done]. intros (c' & E & [= <-])%bind_Some. eapply ps_builder; [|done].
    destruct (w_delta_tasks (pw_cache w) !! j) as [[|r]|] eqn:Ht; [done| |done]. by exists r.
Qed.

Definition demo_runs (w : @PublicationWorld NHash) (evs : list DemoEvent) : option (@PublicationWorld NHash) :=
  fold_m demo_step w evs.

Lemma demo_runs_reachable base64_encode evs w w' :
  publication_reachable base64_encode w → demo_runs w evs = Some w' → publication_reachable base64_encode w'.
Proof.
  revert w. induction evs as [|ev evs IH]; intros w Hr; simpl; [by intros [= <-]|].
  intros (w1 & E & H)%bind_Some. eapply IH; [|done]. eapply publication_next; [done|]. by eapply demo_step_sound.
Qed.

(** * A publication on the demonstration view *)

Definition demo_publication : @GraphPublication NHash :=
  MkGraphPublication 7 (MkGraphPublicationCore Live (demo_view Head) GraphHistory_new) GraphCache_new
    (SseClientRegistry_new 7 Live 0) None.
Definition demo_opened : @PublicationWorld NHash := MkPublicationWorld demo_publication [] ∅ (MkConnections ∅ ∅).

Lemma demo_opened_reachable base64_encode : publication_reachable base64_encode demo_opened.
Proof.
  constructor. exists Live, 0, [7], [demo_view Head], (demo_view Head), GraphHistory_new. split_and!.
  - constructor; [apply demo_head_inv|by vm_compute].
  - unfold GraphPublication_new. rewrite assert_true by done. run_bind. rewrite assert_true by by vm_compute. run_bind.
    rewrite decide_False by (vm_compute; tauto). rewrite assert_true by by vm_compute. done.
  - done.
  - apply world_ok_new.
  - done.
  - intros a rg Ha. simpl in Ha. by rewrite lookup_empty in Ha.
Qed.

(** Block two enters the virtual chain, and leaves it. *)
Definition chain_out : @VspcCommitted NHash := @MkVspcCommitted NHash 2 1 [2] [] [].

(** Two revisions, with readers of source zero at each of them. *)
Definition demo_events : list DemoEvent :=
  [ DemoVspc demo_vspc 0; DemoAnnounce; DemoSelect 0 1 100; DemoHeadTier 20 200;
    DemoVspc chain_out 10; DemoAnnounce; DemoSelect 0 1 101 ].

(** Source zero is about to expire when a job for its target two starts; ten
    milliseconds later another reader, whose target is four, joins the job;
    twenty milliseconds later the source has expired, and a reader of source
    four makes the cache drop it. *)
Definition late_events : list DemoEvent :=
  [ DemoVspc demo_vspc 0; DemoAnnounce; DemoVspc chain_out 299980; DemoAnnounce; DemoSelect 0 1 100;
    DemoVspc demo_vspc 299985; DemoAnnounce; DemoVspc chain_out 299990; DemoAnnounce; DemoSelect 0 1 101;
    DemoVspc demo_vspc 300010; DemoAnnounce; DemoSelect 4 1 102;
    DemoFinish 100 (MkCachedDelta 0 2 false 0 []); DemoComplete 100 ].

Definition demo_reached : @PublicationWorld NHash := default demo_opened (demo_runs demo_opened demo_events).
Definition late_reached : @PublicationWorld NHash := default demo_opened (demo_runs demo_opened late_events).

Lemma default_reachable base64_encode r :
  (∀ w, r = Some w → publication_reachable base64_encode w) →
  publication_reachable base64_encode (default demo_opened r).
Proof. destruct r; simpl; intros H; [by apply H|apply demo_opened_reachable]. Qed.

Lemma demo_reached_reachable base64_encode : publication_reachable base64_encode demo_reached.
Proof.
  apply default_reachable. intros w E. eapply demo_runs_reachable; [apply demo_opened_reachable|exact E].
Qed.
Lemma late_reached_reachable base64_encode : publication_reachable base64_encode late_reached.
Proof.
  apply default_reachable. intros w E. eapply demo_runs_reachable; [apply demo_opened_reachable|exact E].
Qed.

Example demo_events_run :
  match demo_runs demo_opened late_events with
  | Some w => bool_decide (current_revision_id (pc_view (pw_core w)) = 5 ∧ length (pw_requests w) = 3%nat ∧
      (map_to_list (w_deltas (pw_cache w))).*1 = [4]) = true
  | None => False
  end.
Proof. by vm_compute. Qed.

(** The reader that joined the first job re-enters with its own target. *)
Definition reentry_fails (n : nat) (fresh : JobId) (w : @PublicationWorld NHash) : bool :=
  match pw_requests w !! n with
  | Some rq => match reenter_canonical_delta rq fresh (pw_publication w) with None => true | _ => false end
  | None => false
  end.

Lemma reentry_fails_spec n fresh w :
  reentry_fails n fresh w = true →
  ∃ rq, rq ∈ pw_requests w ∧ reenter_canonical_delta rq fresh (pw_publication w) = None.
Proof.
  unfold reentry_fails. destruct (pw_requests w !! n) as [rq|] eqn:E; [|done].
  destruct (reenter_canonical_delta _ _ _) eqn:Er; [done|]. exists rq. split; [by eapply list_elem_of_lookup_2|done].
Qed.

Example late_reentry : reentry_fails 1 103 late_reached = true.
Proof. by vm_compute. Qed.
Example late_requests :
  (λ rq, (rr_target_revision (cr_selected rq), dt_revision_timestamp_ms (cr_head rq))) <$> pw_requests late_reached
  = [(5, 300010); (4, 299990); (2, 299980)].
Proof. by vm_compute. Qed.
