(* ===== verification/RuntimeExamples.v ===== *)
(** Concrete executions of the publication runtime: a runner of moves, each
    checked against what the environment must guarantee, and the worlds it
    reaches. *)

From Stdlib Require Import String.
From S2P Require Import Prelude Model Delta GraphView ViewInvariant ApplyDelta HeadView Subview.
From S2P Require Import History Lineage Ladder Ingress IngressSafety Cache CacheMachine Clients.
From S2P Require Import ClientsSafety ClientsWorld Publication Election PublicationSteps Runtime RuntimeSafety RuntimeWorld.
From S2P Require Import RuntimeProgress PublicationExamples.

#[local] Open Scope N_scope.
#[local] Existing Instance NHash.

Abbreviation DemoRuntime := (Runtime NHash (ChannelView (@GraphUpdate NHash)) (WatchView N)).
Abbreviation DemoRuntimeWorld := (@RuntimeWorld NHash (ChannelView (@GraphUpdate NHash)) (WatchView N)).

(** * Deciding what the environment guarantees *)

Definition parent_okb (c : @BlockCommitted NHash) (v : @GraphView NHash) (p : ParentCommitted) : bool :=
  match pc_coordinate p with
  | Some pc =>
    bool_decide (coord_level pc < coord_level (bc_coordinate c)) &&
    (bool_decide (is_Some (levels v !! coord_level pc)) ||
     bool_decide (coord_level pc ∈ (lc_level <$> bc_level_snapshots c)))
  | None => true
  end.
Definition block_payload_okb (c : @BlockCommitted NHash) (v : @GraphView NHash) : bool :=
  bool_decide (blocks v !! bc_hash c = None) &&
  bool_decide (0 < coord_level (bc_coordinate c) ≤ high_level (extent v) + 1) &&
  forallb (parent_okb c v) (bc_direct_parents c) &&
  bool_decide (NoDup (pc_hash <$> bc_direct_parents c)) &&
  bool_decide (coord_level (bc_coordinate c) ∈ (lc_level <$> bc_level_snapshots c)) &&
  bool_decide (N.of_nat (size (edges v) + length (bc_direct_parents c)) ≤ U64_MAX) &&
  bool_decide (current_revision_id v < U64_MAX).

Lemma NoDup_fmap_inj_on {A B} (f : A → B) xs x y : NoDup (f <$> xs) → x ∈ xs → y ∈ xs → f x = f y → x = y.
Proof.
  induction xs as [|z xs IH]; simpl; [by intros _ ?%elem_of_nil|]. intros [Hz Hn]%NoDup_cons Hx Hy E.
  apply elem_of_cons in Hx as [->|Hx], Hy as [->|Hy]; [done|..|by apply IH].
  - exfalso. apply Hz, list_elem_of_fmap. by exists y.
  - exfalso. apply Hz, list_elem_of_fmap. by exists x.
Qed.

Lemma block_payload_okb_spec c v : block_payload_okb c v = true → block_payload_ok c v.
Proof.
  unfold block_payload_okb. rewrite !andb_true_iff, !bool_decide_eq_true, forallb_forall.
  intros ((((((H1 & H2) & H3) & H4) & H5) & H6) & H7).
  assert (∀ p pc, p ∈ bc_direct_parents c → pc_coordinate p = Some pc →
    coord_level pc < coord_level (bc_coordinate c) ∧
    (is_Some (levels v !! coord_level pc) ∨ coord_level pc ∈ (lc_level <$> bc_level_snapshots c))) as Hp.
  { intros p pc Hin E. specialize (H3 p). unfold parent_okb in H3. rewrite E in H3.
    rewrite andb_true_iff, orb_true_iff, !bool_decide_eq_true in H3. apply H3. by apply list_elem_of_In. }
  split; try done.
  - intros p pc Hin E. by apply (Hp p pc).
  - intros p q Hpi Hqi E. f_equal. by eapply NoDup_fmap_inj_on.
  - intros p pc Hin E. by apply (Hp p pc).
Qed.

Definition update_meetsb (u : @OriginalUpdate NHash) (now_ms : N) (v : @GraphView NHash) : bool :=
  match u with OriginalBlock c => block_payload_okb c v | OriginalVspc _ => bool_decide (vspc_bounds v) end &&
  bool_decide (current_revision_timestamp_ms v ≤ now_ms).
Lemma update_meetsb_spec u now_ms v : update_meetsb u now_ms v = true → update_meets u now_ms v.
Proof.
  unfold update_meetsb. rewrite andb_true_iff, bool_decide_eq_true. intros [Hu Ht]. split; [|done].
  destruct u; [by apply block_payload_okb_spec|by apply bool_decide_eq_true in Hu].
Qed.

Fixpoint align_meetsb (clock : nat → N) (us : list (@OriginalUpdate NHash)) (c : ConstructionCandidate) : bool :=
  match us with
  | [] => true
  | u :: us =>
    update_meetsb u (clock O) (cc_view c) &&
    match apply_alignment_update u (clock O) c with
    | Some (c', Ok _) => align_meetsb (λ k, clock (S k)) us c'
    | _ => true
    end
  end.
Lemma align_meetsb_spec clock us c : align_meetsb clock us c = true → align_meets clock us c.
Proof.
  revert clock c. induction us as [|u us IH]; intros clock c; simpl; [done|].
  intros [Hu Hr]%andb_true_iff. split; [by apply update_meetsb_spec|]. intros c' E. rewrite E in Hr. by apply IH.
Qed.

Definition visitsb (am : @Ambient) (p : @GraphPublication NHash) : bool :=
  bool_decide (am_order am = [] ∧ size (rg_clients (gp_clients p)) = O).
Lemma visitsb_spec am p : visitsb am p = true → visits am p.
Proof.
  intros [Eo Es%map_size_empty_inv]%bool_decide_eq_true. unfold visits. by rewrite Eo, Es, map_to_list_empty.
Qed.

Definition admissibleb (ev : @RuntimeEvent NHash) (r : DemoRuntime) : bool :=
  match ev, rt_work r with
  | RtTop clock _ _ _, WorkAligning c => align_meetsb clock (rt_staging r) c
  | RtObserve am, WorkActive p =>
    visitsb am p && match observed_update r with
                    | Some u => update_meetsb u (am_now_ms am) (pc_view (gp_core p))
                    | None => true
                    end
  | RtCancelled am, WorkActive p => visitsb am p
  | RtSeed (Ok _), _ => false
  | _, _ => true
  end.
Lemma admissibleb_spec ev r : admissibleb ev r = true → admissible ev r.
Proof.
  destruct ev as [clock now draws outcome|am|available|[seed|e]| | |am|ev|p cx|cx]; simpl; try done.
  - intros Hb _ c Ew. rewrite Ew in Hb. by apply align_meetsb_spec.
  - intros Hb p Ew. rewrite Ew in Hb. apply andb_true_iff in Hb as [Hv Hu]. split; [by apply visitsb_spec|].
    intros u E. rewrite E in Hu. by apply update_meetsb_spec.
  - intros Hb p Ew. rewrite Ew in Hb. by apply visitsb_spec.
Qed.

(** * The demonstration seed: the demonstration view's projection *)

Definition demo_seed : @GraphViewSeed NHash :=
  @MkGraphViewSeed NHash (MkGraphWindowResolution 2 1 2) 2 demo_levels demo_blocks demo_edges (MkCompactId 2) 1.

Lemma demo_seed_ok : seed_ok demo_seed.
Proof.
  destruct (demo_view_indexed Head) as (Hi & Hc & _). pose proof demo_head_inv as Hv.
  pose proof (f_equal ct_levels Hc : value <$> levels (demo_view Head) = demo_levels) as El.
  pose proof (f_equal ct_blocks Hc : blocks (demo_view Head) = demo_blocks) as Eb.
  pose proof (f_equal ct_edges Hc : edges (demo_view Head) = demo_edges) as Ee.
  destruct (demo_view_indexed Head) as (_ & _ & _ & Ex & _).
  assert (∀ l, is_Some (levels (demo_view Head) !! l) ↔ is_Some (demo_levels !! l)) as Hlv.
  { intros l. by rewrite <-El, lookup_fmap, fmap_is_Some. }
  split; simpl; try done.
  - by intros h b [[-> ->]|[-> ->]]%demo_blocks_lookup.
  - by intros id e [-> ->]%demo_edges_lookup.
  - rewrite <-Eb. change (seed_extent demo_seed) with (MkLevelExtent 1 2). rewrite <-Ex. apply Hv.
  - rewrite <-Ee, <-Eb. intros id e E. split; [by apply (hv_parents _ Hv id)|by apply (hv_children _ Hv id)].
  - change (seed_extent demo_seed) with (MkLevelExtent 1 2). rewrite <-Ex, <-Ee. intros l. rewrite <-Hlv. split.
    + apply (hv_minimal _ Hv).
    + intros [Hl|Hu]; [by apply (hv_nominal _ Hv)|]. apply dec_stable. intros Hn. apply Hu.
      apply (indexed_unused_level _ _ Hi). by apply eq_None_not_Some.
Qed.

(** * The runner *)

Inductive DemoMove :=
  | MvWorker (ev : @RuntimeEvent NHash)
  | MvSeed
  | MvProducer (ev : @IngressEvent NHash).

Definition no_mailboxes (cx : Connections) : bool := bool_decide (size (cx_mailboxes cx) = O).

Definition demo_move (w : DemoRuntimeWorld) (mv : DemoMove) : option DemoRuntimeWorld :=
  let r := rw_runtime w in
  match mv with
  | MvWorker ev =>
    if worker_event ev && admissibleb ev r
    then r' ← runtime_step ev r;
      if is_active r' && negb (is_active r)
      then if no_mailboxes (rt_connections r') then Some (MkRuntimeWorld r' [] ∅) else None
      else Some (MkRuntimeWorld r' (rw_requests w) (rw_registries w))
    else None
  | MvSeed =>
    r' ← runtime_step (RtSeed (Ok demo_seed)) r;
    if is_active r' then None else Some (MkRuntimeWorld r' (rw_requests w) (rw_registries w))
  | MvProducer ev =>
    if producer_event ev
    then r' ← runtime_step (RtIngress ev) r; Some (MkRuntimeWorld r' (rw_requests w) (rw_registries w))
    else None
  end.

Lemma fresh_among_empty p cx : no_mailboxes cx = true → fresh_among p ∅ cx.
Proof.
  intros E%bool_decide_eq_true%map_size_empty_inv. split_and!; [|done|by intros a rg].
  destruct cx as [m t]. simpl in E. subst m. split; [apply map_Forall_empty|..]; intros *; simpl; by rewrite ?lookup_empty.
Qed.

Lemma demo_move_sound base64_encode w mv w' : demo_move w mv = Some w' → runtime_move base64_encode w w'.
Proof.
  destruct mv as [ev| |ev]; cbn [demo_move].
  - destruct (worker_event ev && admissibleb ev (rw_runtime w)) eqn:Eg; [|done].
    apply andb_true_iff in Eg as [Hev Ha%admissibleb_spec]. intros (r' & E & H)%bind_Some.
    destruct (is_active r') eqn:Er, (is_active (rw_runtime w)) eqn:Ew; simpl in H;
      try (injection H as <-; eapply rm_worker; [done..|by rewrite Er, Ew]).
    destruct (no_mailboxes _) eqn:Em; [|done]. injection H as <-.
    unfold is_active in Er. destruct (rt_work r') as [| |p] eqn:Ep; [done..|].
    eapply rm_install; try done. by apply fresh_among_empty.
  - intros (r' & E & H)%bind_Some. destruct (is_active r') eqn:Er; [done|]. injection H as <-.
    eapply (rm_worker _ _ (RtSeed (Ok demo_seed))); [done|exact demo_seed_ok|done|by rewrite Er].
  - destruct (producer_event ev) eqn:Eg; [|done]. intros (r' & E & [= <-])%bind_Some. by eapply rm_producer.
Qed.

Definition demo_moves (w : DemoRuntimeWorld) (mvs : list DemoMove) : option DemoRuntimeWorld := fold_m demo_move w mvs.

Lemma demo_moves_reachable base64_encode mvs w w' :
  runtime_reachable base64_encode w → demo_moves w mvs = Some w' → runtime_reachable base64_encode w'.
Proof.
  revert w. induction mvs as [|mv mvs IH]; intros w Hr; simpl; [by intros [= <-]|].
  intros (w1 & E & H)%bind_Some. eapply IH; [|done]. eapply runtime_next; [done|]. by eapply demo_move_sound.
Qed.

(** * A session *)

Definition demo_start : DemoRuntimeWorld :=
  MkRuntimeWorld (PublicationRuntime_new graph_update_channel (MkConnections ∅ ∅)) [] ∅.

Definition quiet (now_ms : N) : Ambient := MkAmbient now_ms [].
Definition top : DemoMove := MvWorker (RtTop (λ k, N.of_nat k) 5 [7] InstallInstalled).

(** Catchup, then construction: a block and a transition are staged before
    the seed arrives, and the candidate they align is installed. *)
Definition construction_moves : list DemoMove :=
  [MvProducer EvCatchup; top; MvWorker (RtObserve (quiet 0)); top; MvWorker (RtCurrent true);
   MvProducer (EvOfferBlock demo_commit); MvProducer EvOfferContinue;
   MvProducer (EvOfferVspc demo_vspc); MvProducer EvOfferContinue;
   MvWorker (RtObserve (quiet 0)); MvWorker (RtObserve (quiet 0)); MvSeed].
Definition installation_moves : list DemoMove := [top; top].
(** One more transition is on its way to the active publication. *)
Definition update_moves : list DemoMove := [MvProducer (EvOfferVspc chain_out); MvProducer EvOfferContinue].

Definition demo_aligning : DemoRuntimeWorld := default demo_start (demo_moves demo_start construction_moves).
Definition demo_active : DemoRuntimeWorld :=
  default demo_start (demo_moves demo_start (construction_moves ++ installation_moves ++ update_moves)).

Lemma default_start_reachable base64_encode o :
  (∀ w, o = Some w → runtime_reachable base64_encode w) → runtime_reachable base64_encode (default demo_start o).
Proof. destruct o; simpl; intros Hw; [by apply Hw|constructor]. Qed.

Lemma demo_aligning_reachable base64_encode : runtime_reachable base64_encode demo_aligning.
Proof. apply default_start_reachable. intros w E. eapply demo_moves_reachable; [constructor|exact E]. Qed.
Lemma demo_active_reachable base64_encode : runtime_reachable base64_encode demo_active.
Proof. apply default_start_reachable. intros w E. eapply demo_moves_reachable; [constructor|exact E]. Qed.

(** The publication stands at revision two, with one update outstanding. *)
Definition active_shape (w : DemoRuntimeWorld) : option (PublicationRuntimePhase * N * nat * N) :=
  match rt_work (rw_runtime w) with
  | WorkActive p => Some (rt_phase (rw_runtime w), current_revision_id (pc_view (gp_core p)),
      length (outstanding (rt_ingress (rw_runtime w))), staging_high_water_mark (sn_metrics (rt_shared (rw_runtime w))))
  | _ => None
  end.
Example demo_active_shape : active_shape demo_active = Some (Active, 2, 1%nat, 2).
Proof. by vm_compute. Qed.
