(* ===== verification/BlockExamples.v ===== *)
(** Concrete sessions of the block processor: an orphan stored, a sealing
    block, a fault with its barrier, and the race of a cancelled resolution
    with its repetition. *)

From S2P Require Import Prelude Model Faults Channel Ingress Resolver Orphan OrphanWorker.
From S2P Require Import BlockWorker OrphanWorkerSafety BlockSafety BlockSession BlockStages.

#[local] Open Scope N_scope.
#[local] Existing Instance NHash.

Abbreviation DemoSession := (@BlockSession NHash).
Abbreviation DemoEvent := (@BlockEvent NHash).

(** * An executable session *)

Definition admissibleb (ev : DemoEvent) (w : DemoSession) : bool :=
  match ev, bp_control (bs_worker w) with
  | EvPresence (Ok presence), BpPresence block _ =>
    match presence with
    | Materialized _ _ => bool_decide (vnb_hash block ∈ bs_materialized w)
    | _ => bool_decide (vnb_hash block ∉ bs_materialized w)
    end
  | EvMaterialize a, BpMaterializing block _ _ _ =>
    match ma_outcome a with
    | Ok (AlreadyMaterialized _ _) => bool_decide (vnb_hash block ∈ bs_materialized w)
    | Err (NonMaterializedReferences missing identity_only) =>
      negb (bool_decide (missing = []) && bool_decide (identity_only = [])) &&
      forallb (λ d, bool_decide (d ∉ bs_materialized w)) missing
    | _ => true
    end
  | _, _ => true
  end.

Lemma session_admissibleb_spec ev w : admissibleb ev w = true → admissible ev w.
Proof.
  unfold admissibleb, admissible. destruct ev; try done.
  - destruct answer as [[]|]; try done; destruct (bp_control (bs_worker w)); try done; by rewrite bool_decide_eq_true.
  - destruct (bp_control (bs_worker w)); try done.
    destruct (ma_outcome answer) as [[]|[| |missing identity_only]]; try done; [by rewrite bool_decide_eq_true|].
    rewrite andb_true_iff, negb_true_iff, andb_false_iff, !bool_decide_eq_false, forallb_forall. intros [Hn Hm].
    split; [destruct Hn; [by left|by right]|]. intros d Hd. apply list_elem_of_In in Hd. apply Hm in Hd. by apply bool_decide_eq_true in Hd.
Qed.

Definition session_step (w : DemoSession) (ev : DemoEvent) : option DemoSession :=
  if admissibleb ev w then p ← block_step ev (bs_worker w); Some (advance ev w p) else None.
Definition session_run (evs : list DemoEvent) (w : DemoSession) : option DemoSession := fold_m session_step w evs.

Lemma session_run_reachable mode evs w w' :
  session_reachable mode w → session_run evs w = Some w' → session_reachable mode w'.
Proof.
  intros Hw E. revert E. apply (fold_m_inv session_step (session_reachable mode)); [done|].
  intros w1 ev w2 _ Hr E. unfold session_step in E. destruct (admissibleb ev w1) eqn:Ea; [|done].
  destruct (block_step ev (bs_worker w1)) as [p|] eqn:Es; [|done]. injection E as <-.
  by apply session_next; [|apply session_admissibleb_spec|].
Qed.

Definition demo_start (mode : RecoveryMode) : DemoSession := MkBlockSession (BlockProcessor_new mode) ∅ ∅.
Definition demo_run (mode : RecoveryMode) (evs : list DemoEvent) : DemoSession :=
  default (demo_start mode) (session_run evs (demo_start mode)).

Lemma demo_run_reachable mode evs : session_reachable mode (demo_run mode evs).
Proof.
  unfold demo_run. destruct (session_run evs (demo_start mode)) as [w|] eqn:E; [|apply session_start].
  eapply session_run_reachable; [apply session_start|exact E].
Qed.

(** * Events *)

Definition demo_block (h : N) (parents : list N) : @ValidatedNodeBlock NHash :=
  @MkValidatedNodeBlock NHash h (hd 0 parents) parents [] [] 0 0 h 0.
Definition demo_committed (h : N) : @BlockCommitted NHash :=
  @MkBlockCommitted NHash (MkCompactId (Z.of_N h)) h (MkBlockCoordinate 0 0) 0 0 None [] [] [] Gray false [].
Definition demo_anchor : @MaterializedSyncAnchor NHash :=
  @MkMaterializedSyncAnchor NHash (@MkVspcPoint NHash (@MkConsensusOrder NHash 0 1) (MkCompactId 1)) 0 0.
Definition demo_generations : @BlockGenerations NHash unit := @MkGenerations NHash unit tt tt 0 0.
Definition starting (seal : N) : list DemoEvent :=
  [EvInitialize demo_generations (@MkInitialization NHash demo_anchor seal); EvStart].
Definition catching_up : list DemoEvent := [EvCommand (CmdCatchup (MkCompactId 1)); EvTurn].

Definition arrives (h : N) (parents : list N) : list DemoEvent :=
  [EvSynthetic (demo_block h parents); EvTurn; EvPresence (Ok Absent)].
Definition arrives_orphan (h : N) (missing : list N) : list DemoEvent :=
  arrives h missing ++ [EvMaterialize (MkMaterializeAnswer (Err (NonMaterializedReferences missing [])) (Ok Enqueued))].
Definition arrives_complete (h : N) (offer : GraphUpdateOfferOutcome) : list DemoEvent :=
  arrives h [0] ++ [EvMaterialize (MkMaterializeAnswer (Ok (Inserted (demo_committed h))) (Ok offer))].

Definition manager : DemoEvent := EvOrphan OrphanTurn.
Definition resolver : DemoEvent := EvOrphan (OrphanResolver (ResolverTurn 0)).

(** * Sessions *)

(** Block 5 waits for block 4. *)
Definition demo_orphan : DemoSession := demo_run Resync (starting 0 ++ catching_up ++ arrives_orphan 5 [4] ++ [manager]).

(** Block 10 seals the boundary. *)
Definition demo_sealed : DemoSession :=
  demo_run Rebuild (starting 10 ++ arrives_complete 9 SuppressedAwaitingCatchup ++ arrives_complete 10 SuppressedAwaitingCatchup).

(** A block with a boundary reference during Catchup: a fault, and its barrier. *)
Definition demo_faulting : DemoSession :=
  demo_run Resync (starting 0 ++ catching_up ++ arrives 5 [4] ++
    [EvMaterialize (MkMaterializeAnswer (Err (NonMaterializedReferences [] [4])) (Ok Enqueued))]).
Definition demo_spinning : DemoSession :=
  demo_run Resync (starting 0 ++ catching_up ++ arrives 5 [4] ++
    [EvMaterialize (MkMaterializeAnswer (Err (NonMaterializedReferences [] [4])) (Ok Enqueued))] ++ barrier_schedule).

(** The block 5 admitted from both sources. *)
Definition demo_overlap : DemoSession :=
  demo_run Resync (starting 0 ++ catching_up ++ arrives_complete 5 Enqueued ++
    [EvNotify (demo_block 5 [0]); EvTurn; EvPresence (Ok (Materialized (MkCompactId 5) (MkBlockCoordinate 0 0)))]).

(** ** The race *)

(** [n] blocks waiting for block 5, which turn resolution on. *)
Fixpoint waiting (n : nat) : list DemoEvent :=
  match n with
  | O => []
  | S n => waiting n ++ arrives_orphan (1000 + N.of_nat n) [5] ++ [manager]
  end.

(** The resolver starts to fetch block 5; block 5 arrives by itself, an orphan
    of block 4, so its resolution is cancelled; block 4 arrives, so block 5 is
    released, and asked for again.  The resolver takes the cancellation and the
    repetition before it joins the cancelled task. *)
Definition demo_race : DemoSession :=
  demo_run Resync (starting 0 ++ catching_up ++ waiting 256 ++ [resolver] ++ arrives_orphan 5 [4] ++ [manager] ++
    arrives_complete 4 Enqueued ++ [manager] ++ [resolver; resolver; resolver; resolver]).

Definition duplicate_reported (w : DemoSession) : bool :=
  match bp_orphan (bs_worker w) with
  | Some o => existsb (λ f, match f with MkChildFault DependencyResolver (InvalidProtocol DuplicateResolution) => true | _ => false end)
                (om_resolver_faults o)
  | None => false
  end.
Definition fatal_fault (p : @BlockProcessorWorker NHash) : bool :=
  existsb (λ e, match e with
                | BpFault (MkComponentFault DependencyResolver Fatal (Ownership InvalidLifecycleControl)) => true
                | _ => false
                end) (bp_events p).

Lemma duplicate_reported_spec w :
  duplicate_reported w = true →
  ∃ o, bp_orphan (bs_worker w) = Some o ∧ MkChildFault DependencyResolver (InvalidProtocol DuplicateResolution) ∈ om_resolver_faults o.
Proof.
  unfold duplicate_reported. destruct (bp_orphan (bs_worker w)) as [o|]; [|done]. intros ([[] [| | | |[]]] & Hin & Hf)%existsb_exists;
    try done. exists o. split; [done|]. by apply list_elem_of_In.
Qed.

Lemma fatal_fault_spec p :
  fatal_fault p = true → BpFault (MkComponentFault DependencyResolver Fatal (Ownership InvalidLifecycleControl)) ∈ bp_events p.
Proof.
  unfold fatal_fault. intros (e & Hin & Hf)%existsb_exists. repeat (case_match; try done). simplify_eq. by apply list_elem_of_In.
Qed.

Definition fatal_after (evs : list DemoEvent) (w : DemoSession) : bool :=
  match run_events evs (bs_worker w) with Some p => fatal_fault p | None => false end.

Lemma fatal_after_spec evs w :
  fatal_after evs w = true →
  ∃ p, run_events evs (bs_worker w) = Some p ∧
    BpFault (MkComponentFault DependencyResolver Fatal (Ownership InvalidLifecycleControl)) ∈ bp_events p.
Proof.
  unfold fatal_after. destruct (run_events evs (bs_worker w)) as [p|]; [|done]. intros H. exists p. split; [done|]. by apply fatal_fault_spec.
Qed.

(** * Checks of concrete sessions *)

Definition in_serviceb (p : @BlockProcessorWorker NHash) : bool :=
  negb (bp_faulted p) && is_active p && match bp_control p with BpHeld | BpBarrier _ | BpReturned _ => false | _ => true end.

Lemma in_serviceb_spec p : in_serviceb p = true → in_service p.
Proof.
  unfold in_serviceb, in_service. destruct (bp_faulted p); [done|]. destruct (is_active p); [|done]. simpl.
  destruct (bp_control p); intros E; try discriminate E; by repeat split.
Qed.

(** In service, with an active manager whose mailbox is empty, which stores [h]. *)
Definition serving_orphan (w : DemoSession) (h : N) : bool :=
  in_serviceb (bs_worker w) &&
  match bp_orphan (bs_worker w) with
  | Some o =>
    match om_state o, bq_items (om_messages o), orphans (om_topology o) !! h with
    | OmActive, [], Some _ => true
    | _, _, _ => false
    end
  | None => false
  end.

Lemma serving_orphan_spec w h :
  serving_orphan w h = true →
  ∃ o e, in_service (bs_worker w) ∧ bp_orphan (bs_worker w) = Some o ∧ om_state o = OmActive ∧
    bq_items (om_messages o) = [] ∧ orphans (om_topology o) !! h = Some e.
Proof.
  unfold serving_orphan. intros [H1%in_serviceb_spec H2]%andb_prop. destruct (bp_orphan (bs_worker w)) as [o|]; [|done].
  destruct (om_state o) eqn:E1; try done. destruct (bq_items (om_messages o)) eqn:E2; [|done].
  destruct (orphans (om_topology o) !! h) as [e|] eqn:E3; [|done]. by exists o, e.
Qed.

Definition few_crossings (w : DemoSession) : bool :=
  match bp_orphan (bs_worker w) with Some o => omm_threshold_crossings (om_metrics o) <? U64_MAX | None => true end.

Lemma few_crossings_spec w :
  few_crossings w = true → ∀ o, bp_orphan (bs_worker w) = Some o → omm_threshold_crossings (om_metrics o) < U64_MAX.
Proof. unfold few_crossings. intros H o E. rewrite E in H. by apply N.ltb_lt. Qed.

Definition fault_barrier (p : @BlockProcessorWorker NHash) : bool :=
  match bp_control p with BpBarrier AfterFault => true | _ => false end.

Lemma fault_barrier_spec p : fault_barrier p = true → bp_control p = BpBarrier AfterFault.
Proof. unfold fault_barrier. intros H. by repeat (case_match; try done). Qed.

Definition spinningb (p : @BlockProcessorWorker NHash) : bool :=
  match bp_control p, faults p, bp_commands p, bp_commands_open p with
  | BpTop, S _, [], true =>
    match bq_items (bp_notifications p), bq_items (bp_synthetic p), bq_items (pt_resolution (bp_ports p)) with
    | [], [], [] => true
    | _, _, _ => false
    end
  | _, _, _, _ => false
  end.

Lemma spinningb_spec p :
  spinningb p = true →
  bp_control p = BpTop ∧ faults p ≠ 0%nat ∧ bp_commands p = [] ∧ bp_commands_open p = true ∧
  bq_items (bp_notifications p) = [] ∧ bq_items (bp_synthetic p) = [] ∧ bq_items (pt_resolution (bp_ports p)) = [].
Proof. unfold spinningb. intros H. repeat (case_match; try done). Qed.
