(* ===== verification/StoreExamples.v ===== *)
(** Concrete lives of a processing client: a rebuild, blocks above it, virtual
    chain changes, and a commit whose acknowledgement is lost. *)

From stdpp Require Import strings.
From S2P Require Import Prelude Model Faults Delta GraphView HeadView Lineage Runtime.
From S2P Require Import Sql Store Resolver Materialization VspcStore StoreClient StoreInvariant StoreInsert.
From S2P Require Import StoreMaterialize StoreVspc StoreWorld StoreChain StoreReach Projection ProjectionSpec ProjectionTheorems.
From S2P Require Import ViewTracking.

#[local] Open Scope Z_scope.
#[local] Existing Instance NHash.

Abbreviation DemoClient := (@ValidatedDbClient NHash).
Abbreviation DemoStoreEvent := (@StoreEvent NHash).

(** * Deciding what events need *)

Definition acceptableb (genesis : N) (block : @ValidatedNodeBlock NHash) : bool :=
  bool_decide (NoDup (vnb_direct_parents block)) && bool_decide (vnb_hash block ∉ block_references block) &&
  bool_decide (vnb_hash block ≠ genesis) && bool_decide (vnb_selected_parent block ∈ vnb_direct_parents block).

Lemma acceptableb_spec genesis block : acceptableb genesis block = true → acceptable genesis block.
Proof.
  unfold acceptableb. rewrite !andb_true_iff, !bool_decide_eq_true. intros [[[H1 H2] H3] H4]. by split.
Qed.

Fixpoint linked_upb (t : @Tables NHash) (ids : list CompactId) : bool :=
  match ids with
  | a :: (b :: _) as rest => bool_decide (parent_at t b = Some a) && linked_upb t rest
  | _ => true
  end.

Lemma linked_upb_spec t ids : linked_upb t ids = true → linked_up t ids.
Proof.
  induction ids as [|a ids IH]; [done|]. destruct ids as [|b ids]; [done|].
  change (linked_upb t (a :: b :: ids)) with (bool_decide (parent_at t b = Some a) && linked_upb t (b :: ids)).
  rewrite andb_true_iff, bool_decide_eq_true. intros [H1 H2]. split; [done|by apply IH].
Qed.

Definition contractb (t : @Tables NHash) (change : @ReadyVspcChange NHash) : bool :=
  bool_decide (last (rc_added change) = Some (vp_id (rc_destination change))) &&
  bool_decide (tb_identifiers t !! compact_id (vp_id (rc_destination change)) = Some (vp_hash (rc_destination change))) &&
  linked_upb t (rc_added change).

Lemma contractb_spec t change : contractb t change = true → change_contract t change.
Proof.
  unfold contractb. rewrite !andb_true_iff, !bool_decide_eq_true. intros [[H1 H2] H3]. split; [done|done|]. intros _. by apply linked_upb_spec.
Qed.

(** * Environments *)

Definition calm : nat → AttemptFates := λ _, MkAttemptFates [] CommitOk.
(** The first commit is applied, then the connection is gone. *)
Definition lost_ack : nat → AttemptFates := λ _, MkAttemptFates [] (CommitFails Sqlx_Io true).
(** A serialization failure at the third statement of the first attempt. *)
Definition one_conflict : nat → AttemptFates := λ n,
  match n with O => MkAttemptFates [None; None; Some (Sqlx_Database "40001"%string)] CommitOk | _ => MkAttemptFates [] CommitOk end.

Lemma calm_allowed : fates_allowed calm.
Proof. by intros n. Qed.
Lemma lost_ack_allowed : fates_allowed lost_ack.
Proof. by intros n. Qed.
Lemma one_conflict_allowed : fates_allowed one_conflict.
Proof. by intros [|n]. Qed.

(** * Lives *)

Inductive demo_fates := Calm | LostAck | OneConflict.
Definition fates_of (f : demo_fates) : nat → AttemptFates :=
  match f with Calm => calm | LostAck => lost_ack | OneConflict => one_conflict end.
Lemma fates_of_allowed f : fates_allowed (fates_of f).
Proof. destruct f; [apply calm_allowed|apply lost_ack_allowed|apply one_conflict_allowed]. Qed.

Inductive DemoLife :=
  | LifeMaterialize (f : demo_fates) (block : @ValidatedNodeBlock NHash) (policy : ReferencePolicy)
  | LifeVspc (f : demo_fates) (change : @ReadyVspcChange NHash)
  | LifeRebuild (f : demo_fates) (block : @ValidatedNodeBlock NHash)
  | LifeReopen.

Definition life_event (e : DemoLife) : DemoStoreEvent :=
  match e with
  | LifeMaterialize f block policy => MaterializeEvent (fates_of f) block policy
  | LifeVspc f change => VspcEvent (fates_of f) change
  | LifeRebuild f block => RebuildEvent (RebuildUndisturbed (Ok ())) (fates_of f) block
  | LifeReopen => ReopenEvent
  end.

Definition life_allowed (e : DemoLife) (k : DemoClient) : bool :=
  match e with
  | LifeMaterialize _ block _ | LifeRebuild _ block => acceptableb (cl_genesis_hash k) block
  | LifeVspc _ change => contractb (cl_tables k) change
  | LifeReopen => true
  end.

Fixpoint live (es : list DemoLife) (k : DemoClient) : option DemoClient :=
  match es with
  | [] => Some k
  | e :: es => if life_allowed e k then live es (run_event (life_event e) k) else None
  end.

Lemma life_allowed_spec e k : life_allowed e k = true → event_allowed (life_event e) k.
Proof.
  destruct e; simpl; intros H; [split; [apply fates_of_allowed|by apply acceptableb_spec]|split; [apply fates_of_allowed|]|split; [apply fates_of_allowed|by apply acceptableb_spec]|done].
  intros _ _. by apply contractb_spec.
Qed.

Lemma live_reachable genesis es k k' : store_reachable genesis k → live es k = Some k' → store_reachable genesis k'.
Proof.
  revert k. induction es as [|e es IH]; intros k Hk; simpl; [by intros [= <-]|]. destruct (life_allowed e k) eqn:Ea; [|done].
  apply IH. apply store_step; [done|by apply life_allowed_spec].
Qed.

Definition life (es : list DemoLife) : DemoClient := default (@initial_client NHash 1%N) (live es (@initial_client NHash 1%N)).

Definition life_ok (es : list DemoLife) : bool := if live es (@initial_client NHash 1%N) then true else false.

Lemma life_reachable es : life_ok es = true → store_reachable 1%N (life es).
Proof.
  unfold life, life_ok. destruct (live es (@initial_client NHash 1%N)) as [k|] eqn:E; [|done]. intros _.
  by eapply live_reachable; [apply store_initial|].
Qed.

(** * Breaks of the chain *)

(** A virtual chain block whose selected parent is stored off the chain. *)
Definition stranded (t : @Tables NHash) (id : Z) : bool :=
  match tb_blocks t !! id with
  | Some b => sb_is_in_vspc b &&
      match tb_blocks t !! sb_selected_parent_id b with Some p => negb (sb_is_in_vspc p) | None => false end
  | None => false
  end.

Lemma stranded_no_chain t id : stranded t id = true → ¬ ∃ path, chain t path.
Proof.
  unfold stranded. destruct (tb_blocks t !! id) as [b|] eqn:Eb; [|done].
  destruct (tb_blocks t !! sb_selected_parent_id b) as [p|] eqn:Ep; [|by rewrite andb_false_r].
  rewrite andb_true_iff, negb_true_iff. intros [Hv Hp] [path Hc].
  apply (cn_members _ _ Hc _ _ Eb) in Hv.
  assert (MkCompactId (sb_selected_parent_id b) ∈ path) as Hin.
  { apply (chain_parent t path (MkCompactId id)); [done|done| |by eexists]. unfold parent_at, member_at. simpl. by rewrite Eb. }
  apply (cn_members _ _ Hc _ _ Ep) in Hin. congruence.
Qed.

Fixpoint linked_downb (t : @Tables NHash) (ids : list CompactId) : bool :=
  match ids with
  | a :: (b :: _) as rest => bool_decide (parent_at t a = Some b) && linked_downb t rest
  | _ => true
  end.

Lemma linked_downb_spec t ids : linked_downb t ids = true → linked_down t ids.
Proof.
  induction ids as [|a ids IH]; [done|]. destruct ids as [|b ids]; [done|].
  change (linked_downb t (a :: b :: ids)) with (bool_decide (parent_at t a = Some b) && linked_downb t (b :: ids)).
  rewrite andb_true_iff, bool_decide_eq_true. intros [H1 H2]. split; [done|by apply IH].
Qed.

Definition readyb (t : @Tables NHash) (change : @ReadyVspcChange NHash) : bool :=
  bool_decide (select_sink t = Some (compact_id (vp_id (rc_source change)), vp_hash (rc_source change))) &&
  match head (rc_removed change) with Some i => bool_decide (i = vp_id (rc_source change)) | None => true end &&
  forallb (λ i, bool_decide (tb_blocks t !! compact_id i ≠ None)) (rc_removed change ++ rc_added change) &&
  match rc_removed change with
  | [] => match head (rc_added change) with Some a => bool_decide (parent_at t a = Some (vp_id (rc_source change))) | None => true end
  | first :: _ =>
    linked_downb t (rc_removed change) && linked_upb t (rc_added change) &&
    match head (rc_added change) with
    | Some a => bool_decide (parent_at t a = parent_at t (List.last (rc_removed change) first))
    | None => true
    end
  end.

Lemma readyb_spec t change : readyb t change = true → ready_change t change.
Proof.
  unfold readyb. rewrite !andb_true_iff, forallb_forall, bool_decide_eq_true. intros [[[H1 H2] H3] H4]. split; [done| | |].
  - intros i Ei. rewrite Ei in H2. by apply bool_decide_eq_true in H2.
  - intros i Hin. apply list_elem_of_In, H3, bool_decide_eq_true in Hin. by apply not_eq_None_Some.
  - unfold path_checked. destruct (rc_removed change) as [|first removed].
    + intros a Ea. rewrite Ea in H4. by apply bool_decide_eq_true in H4.
    + rewrite !andb_true_iff in H4. destruct H4 as [[H4 H5] H6]. split; [by apply linked_downb_spec|]. split; [by apply linked_upb_spec|].
      intros a Ea. rewrite Ea in H6. by apply bool_decide_eq_true in H6.
Qed.

(** * A chain of four blocks *)

Definition store_block (h : N) (parents blue : list N) (daa : N) : @ValidatedNodeBlock NHash :=
  @MkValidatedNodeBlock NHash h (hd 0%N parents) parents blue [] (1000 * h)%N daa (2 * h)%N h.
Definition store_point (h : N) (id : Z) : @VspcPoint NHash := @MkVspcPoint NHash (@MkConsensusOrder NHash h h) (MkCompactId id).

Definition pruning_point : @ValidatedNodeBlock NHash := store_block 100 [90; 91]%N [91]%N 7.
Definition founded : list DemoLife := [LifeRebuild Calm pruning_point].
Definition grown : list DemoLife := founded ++
  [LifeMaterialize Calm (store_block 101 [100]%N [] 8) RequireMaterialized;
   LifeMaterialize OneConflict (store_block 102 [100]%N [] 8) RequireMaterialized;
   LifeMaterialize Calm (store_block 103 [101; 102]%N [101; 102]%N 9) RequireMaterialized].

Definition raising : @ReadyVspcChange NHash :=
  @MkReadyVspcChange NHash (store_point 100 3) (store_point 103 6) [] [MkCompactId 4; MkCompactId 6].
Definition lowering : @ReadyVspcChange NHash :=
  @MkReadyVspcChange NHash (store_point 103 6) (store_point 102 5) [MkCompactId 6; MkCompactId 4] [MkCompactId 5].

(** The chain moved to 101 and 103, then back by 103's removal to nothing but
    102 above 100. *)
Definition raised : list DemoLife := grown ++
  [LifeVspc Calm raising].
Definition lowered : list DemoLife := raised ++
  [LifeVspc OneConflict lowering].
(** The acknowledgement of 101's commit lost, and the generation reopened. *)
Definition doubted : list DemoLife := founded ++
  [LifeMaterialize LostAck (store_block 101 [100]%N [] 8) RequireMaterialized; LifeReopen].

(** The added path of this change leaves out 103's selected parent, 101. *)
Definition skipping : @ReadyVspcChange NHash :=
  @MkReadyVspcChange NHash (store_point 100 3) (store_point 103 6) [] [MkCompactId 5; MkCompactId 6].
Lemma calm_faultless n : faultless (calm n).
Proof. split; [by intros o ?%elem_of_nil|done]. Qed.

Definition skipping_commits : bool :=
  match apply_vspc_change (Ok ()) calm skipping (life grown) with
  | (k, Some (Ok _)) =>
    stranded (cl_tables k) 6 && readyb (cl_tables (life grown)) skipping &&
    bool_decide (parent_at (cl_tables (life grown)) (MkCompactId 6) = Some (MkCompactId 4))
  | _ => false
  end.

Definition lowering_commits : bool :=
  match apply_vspc_change (Ok ()) one_conflict lowering (life raised) with (_, Some (Ok _)) => true | _ => false end.

Definition next_block : @ValidatedNodeBlock NHash := store_block 104 [103]%N [103]%N 10.
Definition next_prepared : @PreparedBlock NHash :=
  Eval cbv in match PreparedBlock_new next_block with Some p => p | None => @MkPreparedBlock NHash 0%N 0%N [] 0%N [] [] [] 0%N 0%N end.
Definition next_inserted : bool :=
  match materialize_block (Ok ()) one_conflict next_block RequireMaterialized (life raised) with
  | (_, Some (Ok (Inserted _))) => true
  | _ => false
  end.

(** A pruning point above all that is stored. *)
Definition fresh_point : @ValidatedNodeBlock NHash := store_block 200 [190]%N [190]%N 17.
Definition fresh_rebuilds : bool :=
  match rebuild_from_pruning_point (RebuildUndisturbed (Ok ())) one_conflict fresh_point (life raised) with
  | (_, Some (Ok _)) => true
  | _ => false
  end.

(** * The published stream *)

Definition projectableb (t : @Tables NHash) : bool :=
  bool_decide (is_Some (select_sink t)) && bool_decide (N.of_nat (size (tb_parents t)) ≤ U32_MAX)%N.
Lemma projectableb_spec t : projectableb t = true → projectable t.
Proof. unfold projectableb. rewrite andb_true_iff, !bool_decide_eq_true. done. Qed.

Definition belowb (t : @Tables NHash) : bool :=
  forallb (λ kv, forallb (λ i, match tb_blocks t !! i with Some bi => bool_decide (sb_level bi < sb_level kv.2) | None => true end)
    (sb_blue_merge_set kv.2 ++ sb_red_merge_set kv.2)) (map_to_list (tb_blocks t)).
Lemma belowb_spec t : belowb t = true → merge_sets_below t.
Proof.
  unfold belowb. rewrite forallb_forall. intros H id b i bi Hb Hin Hbi. specialize (H (id, b)).
  rewrite <- list_elem_of_In, elem_of_map_to_list in H. specialize (H Hb). rewrite forallb_forall in H. specialize (H i).
  rewrite <- list_elem_of_In in H. specialize (H Hin). rewrite Hbi in H. by apply bool_decide_eq_true in H.
Qed.

(** The transition published for a committed change. *)
Definition transition_of (t : @Tables NHash) (change : @ReadyVspcChange NHash) (outcome : @VspcCommitOutcome NHash) : option (@VspcCommitted NHash) :=
  removed ← mapM (λ i, tb_identifiers t !! compact_id i) (rc_removed change);
  added ← mapM (λ i, tb_identifiers t !! compact_id i) (rc_added change);
  Some (@MkVspcCommitted NHash (vp_hash (rc_source change)) (vp_hash (rc_destination change)) removed added (outcome_level_snapshots outcome)).
Lemma transition_publishes t change outcome u : transition_of t change outcome = Some u → publishes t change outcome u.
Proof.
  unfold transition_of. intros (removed & Hr & H)%bind_Some. apply bind_Some in H as (added & Ha & [= <-]).
  apply mapM_Some in Hr, Ha. by split.
Qed.

(** The updates a life commits. *)
Fixpoint serve (es : list DemoLife) (us : list (@OriginalUpdate NHash)) (k : DemoClient) : option (list (@OriginalUpdate NHash) * DemoClient) :=
  match es with
  | [] => Some (us, k)
  | LifeMaterialize f block policy :: es =>
    _ ← PreparedBlock_new block;
    if acceptableb (cl_genesis_hash k) block && cl_valid k && bool_decide (vnb_timestamp block ≤ U64_MAX)%N &&
       bool_decide (N.of_nat (length (vnb_direct_parents block)) ≤ U32_MAX)%N &&
       bool_decide (N.of_nat (size (tb_parents (cl_tables k)) + length (vnb_direct_parents block)) ≤ U64_MAX)%N then
      match materialize_block (Ok ()) (fates_of f) block policy k with
      | (k2, Some (Ok (Inserted c))) => serve es (us ++ [OriginalBlock c]) k2
      | _ => None
      end
    else None
  | LifeVspc f change :: es =>
    if bool_decide (rc_added change ≠ []) && contractb (cl_tables k) change && cl_valid k && belowb (cl_tables k) &&
       bool_decide (N.of_nat (size (tb_parents (cl_tables k))) ≤ U64_MAX)%N then
      match apply_vspc_change (Ok ()) (fates_of f) change k with
      | (k2, Some (Ok outcome)) => u ← transition_of (cl_tables k) change outcome; serve es (us ++ [OriginalVspc u]) k2
      | _ => None
      end
    else None
  | _ => None
  end.

Lemma serve_served k0 es us k us' k' : served k0 us k → serve es us k = Some (us', k') → served k0 us' k'.
Proof.
  revert us k. induction es as [|e es IH]; intros us k Hk; [by intros [= <- <-]|]. destruct e as [f block policy|f change|f block|]; cbn [serve]; [..|done|done].
  - intros (p & Hp & H)%bind_Some. case_match eqn:E; [|done]. rewrite !andb_true_iff, !bool_decide_eq_true in E. destruct E as [[[[E1 E2] E3] E4] E5].
    destruct (materialize_block _ _ _ _ _) as [k2 [[[c|i co]|e]|]] eqn:Em; try done. eapply IH; [|exact H].
    eapply served_block; try done; [by apply acceptableb_spec|apply fates_of_allowed].
  - case_match eqn:E; [|done]. rewrite !andb_true_iff, !bool_decide_eq_true in E. destruct E as [[[[E1 E2] E3] E4] E5].
    destruct (apply_vspc_change _ _ _ _) as [k2 [[outcome|e]|]] eqn:Em; try done. intros (u & Hu & H)%bind_Some. eapply IH; [|exact H].
    eapply served_vspc; try done; [by apply contractb_spec|apply fates_of_allowed|by apply transition_publishes|by apply belowb_spec].
Qed.

(** From the rebuild on: three blocks, the chain raised, then lowered. *)
Definition followed : list DemoLife := drop 1 grown ++ [LifeVspc Calm raising; LifeVspc OneConflict lowering].

Definition head_seed (k : DemoClient) : option (@ConstructionCandidate NHash) :=
  match load (KH := NHash) 1%N HeadPublication (calm 0) (cl_tables k) with
  | Some (Ok (SeedLoaded seed)) => from_seed seed
  | _ => None
  end.

Definition follows_demo : bool :=
  match serve followed [] (life founded) with
  | Some (us, k) => bool_decide (length us = 5%nat) && projectableb (cl_tables k) &&
      match head_seed (life founded), head_seed k with Some _, Some _ => true | _, _ => false end
  | None => false
  end.
Example follows_demo_runs : follows_demo = true.
Proof. vm_compute. reflexivity. Qed.

(** A window of two levels around the block 101. *)
Definition anchored_request : @GraphViewSeedRequest NHash := @AnchoredWindow NHash (@AnchorBlockHash NHash 101%N) 2%N.
Definition anchored_demo : bool :=
  match load (KH := NHash) 1%N anchored_request (calm 0) (cl_tables (life raised)) with
  | Some (Ok (SeedLoaded seed)) =>
    bool_decide (effective_start_level (seed_resolution seed) = 1%N) && bool_decide (effective_end_level (seed_resolution seed) = 2%N) && bool_decide (size (seed_blocks seed) = 3%nat) &&
    bool_decide (size (seed_edges seed) = 4%nat)
  | _ => false
  end.
Example anchored_demo_runs : anchored_demo = true.
Proof. vm_compute. reflexivity. Qed.
