(* ===== verification/GraphTheorems.v ===== *)
(** The properties of graph views and deltas, with concrete instances. *)

From S2P Require Import Prelude Model Delta GraphView ViewInvariant ApplyDelta Compose Mutation.
From S2P Require Import HeadBlock HeadView VspcView Subview History Lineage PublicationExamples.

Section graph_theorems.
Context {KH : KaspaHash}.
Implicit Types (v w : GraphView) (d : GraphDelta) (h : GraphHistory).

(** C2: replay from history.  Take any run of committed blocks and VSPC
    transitions through a publication's Head view and history, and any view
    [w] of that run whose revision the history still reaches.  Then the
    history answers the range from [w]'s revision to the current one, and
    applying the returned deltas to [w] yields the current Head view. *)
Theorem lineage_replay estimate tr v h w :
  lineage_run estimate tr v h → w ∈ tr →
  oldest_available_revision h ≤ current_revision_id w →
  current_revision_id w < current_revision_id v →
  ∃ es, range (current_revision_id w) (current_revision_id v) h
        = Some (Ok (Deltas (current_revision_id w) (current_revision_id v)
                      (current_revision_id v) es)) ∧
    replay (he_delta <$> es) w = Some v.
Proof.
  intros Hrun Hw Ho Hlt. destruct (lineage_run_inv _ _ _ _ Hrun) as [_ Hi Hr _ Hc _].
  pose proof (hi_floor _ Hi). exists (segment h (current_revision_id w) (current_revision_id v)). split.
  - rewrite range_spec by done. unfold range_outcome. repeat rewrite decide_False by lia.
    rewrite <- Hr, N.min_id. done.
  - by apply delta_chain_replay, Hc.
Qed.

(** Progress of a lineage.  A run never gets stuck: an admissible update
    either leaves view and history alone, or advances both by one revision,
    unless the cost counter or the revision counter would overflow. *)
Theorem lineage_progress estimate tr v h u ts :
  lineage_run estimate tr v h → update_ok u v →
  (∀ v' d, OriginalUpdate_apply u ts v = Some (v', Ok (Some d)) →
     ∃ est, estimate d = Some est ∧ gh_current_cumulative_estimated_bytes h + est ≤ U64_MAX) →
  current_revision_id v < U64_MAX →
  AppliedLineageUpdate_apply estimate u ts v h = Some (v, h, Ok None) ∨
  ∃ v' h' r, AppliedLineageUpdate_apply estimate u ts v h = Some (v', h', Ok (Some r)) ∧
    current_revision_id v' = current_revision_id v + 1 ∧
    gh_current_revision_id h' = current_revision_id v' ∧ lineage_run estimate (v' :: tr) v' h'.
Proof.
  intros Hrun Hu Hest Hmax. destruct (lineage_run_inv _ _ _ _ Hrun) as [Hv Hi Hr _ _ _].
  destruct (lineage_update estimate u ts v h Hv Hi Hr Hu)
    as [?|(v1 & d & Hu1 & Hv1 & Ha & Hf & Hd & Hrev & Hnext)]; [by left|right].
  destruct (Hest _ _ Hu1) as (est & He & Hcum).
  destruct (Hnext est He Hcum Hmax) as (h1 & r & _ & Hi1 & Hr1 & _ & Happ).
  eexists v1, _, r. split_and!; [exact Happ|done|done|]. by econstructor.
Qed.

(** C6: committed blocks on a Head view.  Applying one never panics; when it
    reports a delta, the new view satisfies the Head invariant, advances one
    revision, and is exactly what the delta makes of the old view. *)
Theorem head_block_update c ts v :
  head_inv v → block_payload_ok c v →
  apply_head_block_committed c ts v = Some (v, Ok None) ∨
  ∃ v' d, apply_head_block_committed c ts v = Some (v', Ok (Some d)) ∧ head_inv v' ∧
    current_revision_id v' = current_revision_id v + 1 ∧ apply_delta d v = Some (v', Ok tt).
Proof.
  intros Hv Hc. destruct (head_block_committed c ts v Hv Hc)
    as [?|(v' & d & ? & ? & _ & _ & ? & ? & _)]; [by left|right]. by exists v', d.
Qed.

(** C7: VSPC transitions on a Head view.  Applying one never panics and sets
    exactly the memberships, colors and level scores the transition names:
    added blocks are in the chain, removed ones leave it and turn gray, the
    last merge-set assignment decides a color.  A reported delta replays it. *)
Theorem head_vspc_update c ts v :
  head_inv v → N.of_nat (size (edges v)) ≤ U64_MAX → current_revision_id v < U64_MAX →
  (apply_head_vspc_committed c ts v = Some (v, Ok None) ∧
     vspc_content c (head_metadata c v) v = content v) ∨
  ∃ v' d, apply_head_vspc_committed c ts v = Some (v', Ok (Some d)) ∧ head_inv v' ∧
    content v' = vspc_content c (head_metadata c v) v ∧
    current_revision_id v' = current_revision_id v + 1 ∧ apply_delta d v = Some (v', Ok tt).
Proof.
  intros Hv Hs Hr. destruct (head_vspc_committed c ts v Hv Hs Hr)
    as [?|(v' & d & ? & ? & ? & _ & ? & _ & _ & _ & _ & _ & ?)]; [by left|right]. by exists v', d.
Qed.

(** C8: deltas refine their meaning.  Whatever order the hash maps of a delta
    are iterated in, applying it to an indexed view at its source revision
    succeeds, keeps the indexes and the usage counts right, and produces the
    content the delta denotes. *)
Theorem apply_delta_refinement ob oe ov oc d v :
  ob ≡ₚ map_to_list (block_changes d) → oe ≡ₚ map_to_list (edge_changes d) →
  ov ≡ₚ map_to_list (is_in_vspc_changes d) → oc ≡ₚ map_to_list (color_changes d) →
  indexed v → tracking_policy v ≠ Frozen → current_revision_id v = from_revision_id d →
  applicable d v →
  ∃ v', apply_delta_in ob oe ov oc d v = Some (v', Ok tt) ∧ indexed v' ∧
    content v' = abs_apply d (content v) ∧ extent v' = delta_extent d v ∧
    current_revision_id v' = to_revision_id d.
Proof.
  intros Hb He Hv Hc Hi Hp Hr Ha.
  destruct (apply_delta_in_refines ob oe ov oc d v) as (v' & ? & ? & ? & _ & _ & ? & ? & _); try done.
  by exists v'.
Qed.

(** The unspecified iteration order is unobservable: any two orders of a
    delta's hash maps lead to the same view, indexes included. *)
Theorem apply_delta_order_independent ob oe ov oc d v :
  ob ≡ₚ map_to_list (block_changes d) → oe ≡ₚ map_to_list (edge_changes d) →
  ov ≡ₚ map_to_list (is_in_vspc_changes d) → oc ≡ₚ map_to_list (color_changes d) →
  indexed v → applicable d v →
  apply_delta_in ob oe ov oc d v = apply_delta d v.
Proof.
  intros Hb He Hv Hc Hi Ha.
  destruct (decide (tracking_policy v = Frozen)) as [Hf|Hf].
  { unfold apply_delta, apply_delta_in. by rewrite !decide_True. }
  destruct (decide (current_revision_id v = from_revision_id d)) as [Hr|Hr].
  2:{ unfold apply_delta, apply_delta_in. rewrite !(decide_False (P := _ = Frozen)) by done.
      by rewrite !(decide_True (P := _ ≠ from_revision_id d)). }
  destruct (apply_delta_in_refines ob oe ov oc d v)
    as (v' & -> & Hi' & Hct & Hm & Ht & Hx & Hrv & Hts); try done.
  symmetry. apply apply_delta_to; done.
Qed.

(** Refused deltas.  A Frozen view refuses every delta unchanged; a
    revision mismatch changes nothing but freezes a Fixed view, after which
    every further delta is refused. *)
Theorem apply_delta_refusals d v :
  (tracking_policy v = Frozen → apply_delta d v = Some (v, Err ApplyFrozen)) ∧
  (tracking_policy v ≠ Frozen → current_revision_id v ≠ from_revision_id d →
   ∃ v', apply_delta d v
         = Some (v', Err (ApplyRevisionMismatch (current_revision_id v) (from_revision_id d))) ∧
     content v' = content v ∧ current_revision_id v' = current_revision_id v ∧
     tracking_policy v' = (if decide (tracking_policy v = Fixed) then Frozen else tracking_policy v) ∧
     (tracking_policy v = Fixed → ∀ d', apply_delta d' v' = Some (v', Err ApplyFrozen))).
Proof.
  unfold apply_delta, apply_delta_in. split.
  - intros Hf. by rewrite decide_True.
  - intros Hf Hr. rewrite decide_False by done. rewrite decide_True by done.
    eexists. split; [done|]. case_decide; split_and!; done.
Qed.

(** C9: composing adjacent deltas.  When two deltas were emitted one after the
    other, and the second revives no block the first recorded a field change
    of, their composition exists and takes the first view straight to the
    last. *)
Theorem compose_sound d next v v1 v2 :
  indexed v → applicable d v → apply_delta d v = Some (v1, Ok tt) →
  applicable next v1 → apply_delta next v1 = Some (v2, Ok tt) →
  faithful d (content v) → faithful next (content v1) → no_resurrection d next →
  ∃ c, compose d next = Some (Ok c) ∧ apply_delta c v = Some (v2, Ok tt).
Proof.
  intros. destruct (composed_apply d next v v1 v2) as (? & _ & ?); try done. by eexists.
Qed.

(** Composing a whole chain of deltas, left to right, is replaying it. *)
Theorem compose_chain d ds v v1 w :
  indexed v → applicable d v → faithful d (content v) → apply_delta d v = Some (v1, Ok tt) →
  delta_chain v1 ds w → no_resurrections (d :: ds) →
  ∃ c, compose_all d ds = Some c ∧ apply_delta c v = Some (w, Ok tt) ∧
    replay (d :: ds) v = Some w.
Proof.
  intros Hi Ha Hf Hd Hc Hn. destruct (compose_all_chain d ds v v1 w) as (c & ? & _ & ?); try done.
  exists c. split_and!; [done..|]. apply delta_chain_replay. by econstructor.
Qed.

(** Committed blocks on a Fixed view that still overlaps the Head: the
    extent stays, the block and its edges are kept exactly where they meet
    it, and a reported delta replays the change. *)
Theorem fixed_block_update c head ts v :
  fixed_inv v → tracking_policy head = Head → overlaps (extent v) (extent head) →
  projection_pre c (extent v) v → current_revision_id v < U64_MAX →
  apply_fixed_block_committed c head ts v = Some (v, Ok None) ∨
  ∃ v' d, apply_fixed_block_committed c head ts v = Some (v', Ok (Some d)) ∧ fixed_inv v' ∧
    blocks v' = projected_blocks c (extent v) v ∧
    edges v' = insert_edges (edges v) (retained_edges c (extent v)) ∧
    extent v' = extent v ∧ apply_delta d v = Some (v', Ok tt).
Proof.
  intros Hv Hh Ho Hp Hr. destruct (fixed_block_committed c head ts v Hv Hh Ho Hp Hr)
    as [?|(v' & d & ? & ? & ? & ? & ? & _ & _ & _ & ?)]; [by left|right]. by exists v', d.
Qed.

(** VSPC transitions on a Fixed view, with the merge sets of every added
    block known to the view or to the Head. *)
Theorem fixed_vspc_update c head mds ts v :
  fixed_inv v → tracking_policy head = Head → overlaps (extent v) (extent head) →
  fixed_metadata c head v = Some mds →
  N.of_nat (size (edges v)) ≤ U64_MAX → current_revision_id v < U64_MAX →
  (apply_fixed_vspc_committed c head ts v = Some (v, Ok None) ∧
     vspc_content c mds v = content v) ∨
  ∃ v' d, apply_fixed_vspc_committed c head ts v = Some (v', Ok (Some d)) ∧ fixed_inv v' ∧
    content v' = vspc_content c mds v ∧ extent v' = extent v ∧
    apply_delta d v = Some (v', Ok tt).
Proof.
  intros Hv Hh Ho Hm Hs Hr. destruct (fixed_vspc_committed c head mds ts v Hv Hh Ho Hm Hs Hr)
    as [?|(v' & d & ? & ? & ? & ? & _ & _ & _ & ?)]; [by left|right]. by exists v', d.
Qed.

(** Freezing.  A Fixed view that no longer overlaps the Head, or that
    meets a transition whose merge sets nobody holds, is frozen with its
    content unchanged, and every later update is refused. *)
Theorem fixed_freezes v head ts (b : BlockCommitted) (c : VspcCommitted) :
  tracking_policy v = Fixed → tracking_policy head = Head →
  (¬ overlaps (extent v) (extent head) →
     apply_fixed_block_committed b head ts v = Some (set_policy Frozen v, Ok None) ∧
     apply_fixed_vspc_committed c head ts v = Some (set_policy Frozen v, Ok None)) ∧
  (fixed_metadata c head v = None →
     apply_fixed_vspc_committed c head ts v = Some (set_policy Frozen v, Ok None)) ∧
  apply_fixed_block_committed b head ts (set_policy Frozen v)
    = Some (set_policy Frozen v, Err UpdateFrozen) ∧
  apply_fixed_vspc_committed c head ts (set_policy Frozen v)
    = Some (set_policy Frozen v, Err UpdateFrozen).
Proof.
  intros Hv Hh. unfold apply_fixed_block_committed, apply_fixed_vspc_committed.
  rewrite !(decide_False (P := tracking_policy v = Frozen)) by congruence.
  rewrite !assert_true by done. run_bind. unfold fixed_metadata.
  split_and!; [|intros Hm; rewrite Hm; by case_decide|done|done].
  intros Ho. by rewrite !decide_True.
Qed.

(** The database projection builds a well-indexed view with exactly the
    projected content. *)
Theorem database_projection_indexed depth ext policy lvls bs es :
  0 < depth → extent_depth ext ≤ depth → blocks_keyed bs → edges_keyed es →
  (∀ id e, es !! id = Some e → is_Some (lvls !! parent_level e)) →
  N.of_nat (size es) ≤ U64_MAX →
  ∃ v, from_database_projection depth ext policy lvls bs es = Some v ∧ indexed v ∧
    content v = MkContent lvls bs es ∧ extent v = ext ∧ tracking_policy v = policy.
Proof.
  intros. destruct (from_database_projection_spec depth ext policy lvls bs es)
    as (v & ? & ? & ? & _ & ? & ? & _); try done. by exists v.
Qed.

(** Subviews.  From a Head view, extracting any window inside its extent
    succeeds and yields a Frozen, well-indexed view at the same revision that
    holds exactly the blocks inside the window and the edges whose span
    meets it, whatever the indexes the extraction walks. *)
Theorem subview_of_head ext v :
  head_inv v → extent_wf ext → contains_extent (extent v) ext →
  N.of_nat (size (edges v)) ≤ U64_MAX →
  ∃ x, extract_subview ext v = Some (Ok x) ∧ indexed x ∧
    blocks x = filter (λ '(_, b), contains_level ext (block_level b)) (blocks v) ∧
    edges x = filter (λ '(_, e), intersects_span ext (parent_level e) (child_level e)) (edges v) ∧
    tracking_policy x = Frozen ∧ extent x = ext ∧ current_revision_id x = current_revision_id v.
Proof.
  intros Hv Hw Hin Hs. destruct (extract_subview_spec ext v)
    as (x & ? & ? & ? & ? & _ & ? & _ & ? & ? & _); [by apply head_extractable|by exists x].
Qed.
End graph_theorems.

(** * Concrete instances *)

#[local] Existing Instance NHash.

Lemma lineage_replay_witness :
  ∃ es, range (current_revision_id (demo_view Head)) (current_revision_id demo_last) demo_history2
        = Some (Ok (Deltas (current_revision_id (demo_view Head)) (current_revision_id demo_last)
                      (current_revision_id demo_last) es)) ∧
    replay (he_delta <$> es) (demo_view Head) = Some demo_last.
Proof.
  apply (lineage_replay estimate_raw_delta_bytes [demo_last; demo_next; demo_view Head]
           demo_last demo_history2 (demo_view Head) demo_run).
  - do 2 right; left.
  - by vm_compute.
  - by vm_compute.
Defined.

Lemma lineage_progress_witness :
  AppliedLineageUpdate_apply estimate_raw_delta_bytes (OriginalBlock demo_commit) 10 (demo_view Head)
    GraphHistory_new = Some (demo_view Head, GraphHistory_new, Ok None) ∨
  ∃ v' h' r, AppliedLineageUpdate_apply estimate_raw_delta_bytes (OriginalBlock demo_commit) 10
      (demo_view Head) GraphHistory_new = Some (v', h', Ok (Some r)) ∧
    current_revision_id v' = current_revision_id (demo_view Head) + 1 ∧
    gh_current_revision_id h' = current_revision_id v' ∧
    lineage_run estimate_raw_delta_bytes [v'; demo_view Head] v' h'.
Proof.
  apply (lineage_progress estimate_raw_delta_bytes [demo_view Head] (demo_view Head) GraphHistory_new
           (OriginalBlock demo_commit) 10).
  - constructor; [apply demo_head_inv|by vm_compute].
  - apply demo_commit_ok.
  - intros v' d Hd.
    assert (match estimate_raw_delta_bytes (step_delta (OriginalUpdate_apply (OriginalBlock demo_commit) 10
      (demo_view Head))) with Some e => bool_decide (0 + e ≤ U64_MAX) = true | None => False end) as He
      by (by vm_compute).
    rewrite Hd in He. simpl in He. destruct (estimate_raw_delta_bytes d) as [e|]; [|done].
    exists e. split; [done|]. by apply bool_decide_eq_true in He.
  - by vm_compute.
Defined.

Lemma head_block_update_witness :
  apply_head_block_committed demo_commit 10 (demo_view Head) = Some (demo_view Head, Ok None) ∨
  ∃ v' d, apply_head_block_committed demo_commit 10 (demo_view Head) = Some (v', Ok (Some d)) ∧
    head_inv v' ∧ current_revision_id v' = current_revision_id (demo_view Head) + 1 ∧
    apply_delta d (demo_view Head) = Some (v', Ok tt).
Proof. apply (head_block_update demo_commit 10 (demo_view Head) demo_head_inv demo_commit_ok). Defined.

Lemma head_vspc_update_witness :
  (apply_head_vspc_committed demo_vspc 10 (demo_view Head) = Some (demo_view Head, Ok None) ∧
     vspc_content demo_vspc (head_metadata demo_vspc (demo_view Head)) (demo_view Head)
     = content (demo_view Head)) ∨
  ∃ v' d, apply_head_vspc_committed demo_vspc 10 (demo_view Head) = Some (v', Ok (Some d)) ∧
    head_inv v' ∧
    content v' = vspc_content demo_vspc (head_metadata demo_vspc (demo_view Head)) (demo_view Head) ∧
    current_revision_id v' = current_revision_id (demo_view Head) + 1 ∧
    apply_delta d (demo_view Head) = Some (v', Ok tt).
Proof.
  apply (head_vspc_update demo_vspc 10 (demo_view Head) demo_head_inv); by vm_compute.
Defined.

Lemma apply_delta_refinement_witness :
  ∃ v', apply_delta_in (reverse (map_to_list (block_changes demo_delta)))
          (map_to_list (edge_changes demo_delta)) (map_to_list (is_in_vspc_changes demo_delta))
          (map_to_list (color_changes demo_delta)) demo_delta (demo_view Head) = Some (v', Ok tt) ∧
    indexed v' ∧ content v' = abs_apply demo_delta (content (demo_view Head)) ∧
    extent v' = delta_extent demo_delta (demo_view Head) ∧
    current_revision_id v' = to_revision_id demo_delta.
Proof.
  apply (apply_delta_refinement (reverse (map_to_list (block_changes demo_delta)))
    (map_to_list (edge_changes demo_delta)) (map_to_list (is_in_vspc_changes demo_delta))
    (map_to_list (color_changes demo_delta)) demo_delta (demo_view Head)).
  - apply reverse_Permutation.
  - done.
  - done.
  - done.
  - apply demo_head_inv.
  - by vm_compute.
  - by vm_compute.
  - apply demo_next_ok.
Defined.

Lemma apply_delta_order_independent_witness :
  apply_delta_in (reverse (map_to_list (block_changes demo_delta)))
    (map_to_list (edge_changes demo_delta)) (map_to_list (is_in_vspc_changes demo_delta))
    (map_to_list (color_changes demo_delta)) demo_delta (demo_view Head)
  = apply_delta demo_delta (demo_view Head).
Proof.
  apply (apply_delta_order_independent (reverse (map_to_list (block_changes demo_delta)))
    (map_to_list (edge_changes demo_delta)) (map_to_list (is_in_vspc_changes demo_delta))
    (map_to_list (color_changes demo_delta)) demo_delta (demo_view Head)).
  - apply reverse_Permutation.
  - done.
  - done.
  - done.
  - apply demo_head_inv.
  - apply demo_next_ok.
Defined.

Lemma apply_delta_refusals_witness :
  tracking_policy (demo_view Frozen) = Frozen ∧
  apply_delta demo_delta2 (demo_view Frozen) = Some (demo_view Frozen, Err ApplyFrozen) ∧
  ∃ v', apply_delta demo_delta2 (demo_view Fixed)
        = Some (v', Err (ApplyRevisionMismatch (current_revision_id (demo_view Fixed))
                           (from_revision_id demo_delta2))) ∧
    tracking_policy v' = Frozen.
Proof.
  split; [by vm_compute|]. split.
  - apply (apply_delta_refusals demo_delta2 (demo_view Frozen)). by vm_compute.
  - destruct (apply_delta_refusals demo_delta2 (demo_view Fixed)) as [_ H].
    destruct H as (v' & E & _ & _ & Hp & _); [by vm_compute..|]. exists v'. split; [exact E|].
    rewrite Hp. by vm_compute.
Defined.

Lemma compose_sound_witness :
  ∃ c, compose demo_delta demo_delta2 = Some (Ok c) ∧
    apply_delta c (demo_view Head) = Some (demo_last, Ok tt).
Proof.
  apply (compose_sound demo_delta demo_delta2 (demo_view Head) demo_next demo_last).
  - apply demo_head_inv.
  - apply demo_next_ok.
  - apply demo_next_ok.
  - apply demo_last_ok.
  - apply demo_last_ok.
  - apply demo_next_ok.
  - apply demo_last_ok.
  - intros h b. destruct demo_last_ok as (_ & _ & _ & _ & ->). by rewrite lookup_empty.
Defined.

Lemma compose_chain_witness :
  ∃ c, compose_all demo_delta [demo_delta2] = Some c ∧
    apply_delta c (demo_view Head) = Some (demo_last, Ok tt) ∧
    replay [demo_delta; demo_delta2] (demo_view Head) = Some demo_last.
Proof.
  apply (compose_chain demo_delta [demo_delta2] (demo_view Head) demo_next demo_last).
  - apply demo_head_inv.
  - apply demo_next_ok.
  - apply demo_next_ok.
  - apply demo_next_ok.
  - destruct demo_last_ok as (_ & Ha & Hf & Hd & _). by econstructor; [..|constructor].
  - split; [|done]. repeat constructor;
      destruct demo_last_ok as (_ & _ & _ & _ & E); rewrite E, lookup_empty in H; done.
Defined.

Lemma fixed_projection_pre : projection_pre demo_commit (MkLevelExtent 1 2) (demo_view Fixed).
Proof.
  split.
  - by vm_compute.
  - intros e (_ & p & pc & ->%list_elem_of_singleton & [= <-] & ->)%elem_of_retained_edges.
    left. by vm_compute.
  - by intros p q ->%list_elem_of_singleton ->%list_elem_of_singleton.
  - intros e (_ & p & pc & ->%list_elem_of_singleton & [= <-] & ->)%elem_of_retained_edges.
    left. vm_compute. by eexists.
  - by vm_compute.
Qed.

Lemma demo_fixed_inv : fixed_inv (demo_view Fixed).
Proof. split; [apply demo_view_indexed|by vm_compute..]. Qed.

Lemma fixed_block_update_witness :
  apply_fixed_block_committed demo_commit (demo_view Head) 10 (demo_view Fixed)
    = Some (demo_view Fixed, Ok None) ∨
  ∃ v' d, apply_fixed_block_committed demo_commit (demo_view Head) 10 (demo_view Fixed)
          = Some (v', Ok (Some d)) ∧ fixed_inv v' ∧
    blocks v' = projected_blocks demo_commit (extent (demo_view Fixed)) (demo_view Fixed) ∧
    edges v' = insert_edges (edges (demo_view Fixed))
                 (retained_edges demo_commit (extent (demo_view Fixed))) ∧
    extent v' = extent (demo_view Fixed) ∧ apply_delta d (demo_view Fixed) = Some (v', Ok tt).
Proof.
  apply (fixed_block_update demo_commit (demo_view Head) 10 (demo_view Fixed)).
  - apply demo_fixed_inv.
  - by vm_compute.
  - by vm_compute.
  - apply fixed_projection_pre.
  - by vm_compute.
Defined.

Lemma fixed_vspc_update_witness :
  ∃ mds, fixed_metadata demo_vspc (demo_view Head) (demo_view Fixed) = Some mds ∧
  ((apply_fixed_vspc_committed demo_vspc (demo_view Head) 10 (demo_view Fixed)
      = Some (demo_view Fixed, Ok None) ∧
     vspc_content demo_vspc mds (demo_view Fixed) = content (demo_view Fixed)) ∨
  ∃ v' d, apply_fixed_vspc_committed demo_vspc (demo_view Head) 10 (demo_view Fixed)
          = Some (v', Ok (Some d)) ∧ fixed_inv v' ∧
    content v' = vspc_content demo_vspc mds (demo_view Fixed) ∧
    extent v' = extent (demo_view Fixed) ∧ apply_delta d (demo_view Fixed) = Some (v', Ok tt)).
Proof.
  exists [@MkVspcProjectionMetadata NHash [1] []]. split; [by vm_compute|].
  apply (fixed_vspc_update demo_vspc (demo_view Head) [@MkVspcProjectionMetadata NHash [1] []] 10
           (demo_view Fixed)).
  - apply demo_fixed_inv.
  - by vm_compute.
  - by vm_compute.
  - by vm_compute.
  - by vm_compute.
  - by vm_compute.
Defined.

Lemma fixed_freezes_witness :
  let far := set_extent (MkLevelExtent 8 9) (demo_view Fixed) in
  apply_fixed_block_committed demo_commit (demo_view Head) 10 far = Some (set_policy Frozen far, Ok None) ∧
  apply_fixed_vspc_committed demo_vspc (demo_view Head) 10 (set_policy Frozen far)
    = Some (set_policy Frozen far, Err UpdateFrozen).
Proof.
  intros far. destruct (fixed_freezes far (demo_view Head) 10 demo_commit demo_vspc)
    as (H1 & _ & _ & H2); [by vm_compute..|].
  split; [|exact H2]. apply H1. intros [Hc _]. vm_compute in Hc. by apply Hc.
Defined.

Lemma database_projection_indexed_witness :
  ∃ v, from_database_projection 2 (MkLevelExtent 1 2) Head demo_levels demo_blocks demo_edges = Some v ∧
    indexed v ∧ content v = MkContent demo_levels demo_blocks demo_edges ∧
    extent v = MkLevelExtent 1 2 ∧ tracking_policy v = Head.
Proof.
  apply (database_projection_indexed 2 (MkLevelExtent 1 2) Head demo_levels demo_blocks demo_edges).
  - lia.
  - by vm_compute.
  - by intros h b [[-> ->]|[-> ->]]%demo_blocks_lookup.
  - by intros id e [-> ->]%demo_edges_lookup.
  - intros id e [-> ->]%demo_edges_lookup. vm_compute. by eexists.
  - by vm_compute.
Defined.

Lemma subview_of_head_witness :
  ∃ x, extract_subview (MkLevelExtent 2 2) (demo_view Head) = Some (Ok x) ∧ indexed x ∧
    blocks x = filter (λ '(_, b), contains_level (MkLevelExtent 2 2) (block_level b)) (blocks (demo_view Head)) ∧
    edges x = filter (λ '(_, e), intersects_span (MkLevelExtent 2 2) (parent_level e) (child_level e))
                (edges (demo_view Head)) ∧
    tracking_policy x = Frozen ∧ extent x = MkLevelExtent 2 2 ∧
    current_revision_id x = current_revision_id (demo_view Head).
Proof.
  apply (subview_of_head (MkLevelExtent 2 2) (demo_view Head) demo_head_inv); by vm_compute.
Defined.
