(* ===== verification/PublicationTheorems.v ===== *)
(** Theorems on a publication under every interleaving of its mutations,
    readers, builders and connections. *)

From Stdlib Require Import String.
From S2P Require Import Prelude Model Delta GraphView ViewInvariant ApplyDelta Compose Mutation.
From S2P Require Import HeadBlock HeadView VspcView Subview History Lineage Ladder Cache.
From S2P Require Import CacheMachine Clients ClientsSafety ClientsWorld Publication Election PublicationSteps PublicationExamples.

#[local] Open Scope N_scope.

Section publication_theorems.
Context {KH : KaspaHash}.
Context (base64_encode : list N → string).
Implicit Types (w : PublicationWorld).


(** An update of the publication.  With no mutation in progress, a
    publication that is not Stale accepts every committed update Storage can
    produce: it is either left exactly as it was, or its Head advances by one
    revision stamped with the update's time, and announcing it, whatever the
    order in which the clients are visited, succeeds, leaves the core alone
    and brings the registry to the new Head. *)
Theorem publication_update w u now_ms :
  publication_reachable base64_encode w → gp_mutation (pw_publication w) = None →
  pc_state (pw_core w) ≠ Stale → update_ok u (pc_view (pw_core w)) →
  current_revision_timestamp_ms (pc_view (pw_core w)) ≤ now_ms →
  current_revision_id (pc_view (pw_core w)) < U64_MAX →
  (∀ v' d, OriginalUpdate_apply u now_ms (pc_view (pw_core w)) = Some (v', Ok (Some d)) →
     ∃ est, estimate_raw_delta_bytes d = Some est ∧
       gh_current_cumulative_estimated_bytes (pc_history (pw_core w)) + est ≤ U64_MAX) →
  let current := current_revision_id (pc_view (pw_core w)) in
  apply_original_update u now_ms (pw_publication w) = Some (pw_publication w, Ok None) ∨
  ∃ p', apply_original_update u now_ms (pw_publication w) = Some (p', Ok (Some (current + 1))) ∧
    current_revision_id (pc_view (gp_core p')) = current + 1 ∧
    current_revision_timestamp_ms (pc_view (gp_core p')) = now_ms ∧
    ∀ order, order ≡ₚ map_to_list (rg_clients (gp_clients p')) →
      ∃ p'' cx', announce_in order p' (pw_connections w) = Some (p'', cx') ∧ gp_core p'' = gp_core p' ∧
        gp_mutation p'' = None ∧ rg_head_revision_id (gp_clients p'') = current + 1.
Proof.
  intros Hr Hm Hst Hu Hts Hmax Hest current.
  destruct (publication_reachable_sound _ _ Hr) as (tr & clock & HI).
  destruct (update_applies tr clock w u now_ms HI Hst Hu Hts Hmax Hest) as (p' & r & E).
  destruct (update_moved _ _ _ _ _ _ _ HI Hm Hu Hts E) as [[-> ->]|(clock' & -> & Hrev & Hnow & Hmut & HI')]; [by left|].
  right. exists p'. split_and!; try done. intros order Ho.
  destruct (announce_ok _ _ (with_publication p' w) order HI' Ho) as (p'' & cx' & Ea & Hn & Hc & HI'').
  exists p'', cx'. split_and!; try done. pose proof (pi_step _ _ _ HI'') as [_ Hs]. simpl in Hs. rewrite Hn in Hs.
  destruct Hs as [-> _]. rewrite Hc. exact Hrev.
Qed.

(** The selection of a canonical delta never panics and answers by the
    source alone: a cursor above the Head is refused, a missing registration
    and a source below the replay floor are reported, a source at the Head is
    up to date, a reader below every eligible boundary waits for the next one,
    a pruned or expired source is refused; otherwise the reader gets a delta
    from its source that covers the selected target or is marked size-limited,
    or the pending job of its source.  The core is left alone. *)
Theorem delta_selection w source client interval fresh :
  publication_reachable base64_encode w → ladder_room source → interval ∈ ADAPTIVE_DELTA_INTERVALS →
  w_delta_jobs (pw_cache w) !! fresh = None →
  ∃ clock p' cx' r,
    (∀ e, e ∈ gh_entries (pc_history (pw_core w)) →
       revision_timestamp_ms (he_delta e) = clock (from_revision_id (he_delta e))) ∧
    select_canonical_delta source client interval fresh (pw_publication w) (pw_connections w) = Some (p', cx', r) ∧
    gp_core p' = pw_core w ∧
    selection_outcome clock w (MkPublicationWorld p' (handed_out r ++ pw_requests w) (pw_registries w) cx')
      source client interval r.
Proof.
  intros Hr Hl Hi Hf. destruct (publication_reachable_sound _ _ Hr) as (tr & clock & HI).
  destruct (select_ok _ _ _ source client interval fresh HI Hl Hi Hf) as (p' & cx' & r & E & _ & Hc & Ho).
  exists clock, p', cx', r. split_and!; try done. apply (pi_core _ _ _ HI).
Qed.

(** Re-entry of a retained request.  As long as no slot of the cache
    was opened for a revision stamped after the request's captured Head, the
    re-entry does not panic: it answers with a delta of the request's source
    that is adequate for its target or with the source's pending job, or it
    refuses the source for its place in the history or its age. *)
Theorem delta_reentry w rq fresh :
  publication_reachable base64_encode w → rq ∈ pw_requests w → w_delta_jobs (pw_cache w) !! fresh = None →
  delta_times_past (dt_revision_timestamp_ms (cr_head rq)) (pw_cache w) →
  ∃ clock p' r, reenter_canonical_delta rq fresh (pw_publication w) = Some (p', r) ∧ gp_core p' = pw_core w ∧
    elected clock (pw_core w) rq (gp_cache p') r.
Proof.
  intros Hr Hin Hf Hp. destruct (publication_reachable_sound _ _ Hr) as (tr & clock & HI).
  destruct (prune_inv_subseteq clock (cor_clock _ _ _ (pi_core _ _ _ HI)) _ _ (pi_cache _ _ _ HI) Hp) as (m & Hm & _).
  destruct (reenter_ok _ _ _ rq fresh HI Hin Hf (ex_intro _ m Hm)) as (p' & r & E & _ & Hc & He).
  by exists clock, p', r.
Qed.

(** Head tiers.  A reachable publication serves every cached tier
    without panicking: an admitted snapshot of the tier, its pending job, or
    the validator of the tier's present extent when the caller holds it. *)
Theorem head_tier_selection w depth matches fresh :
  publication_reachable base64_encode w → depth ∈ CACHED_HEAD_WINDOW_DEPTHS →
  w_head_jobs (pw_cache w) !! fresh = None → N.of_nat (size (edges (pc_view (pw_core w)))) ≤ U64_MAX →
  ∃ p' sel cap, head_tier depth matches fresh (pw_publication w) = Some (p', sel, cap) ∧ gp_core p' = pw_core w ∧
    tier_outcome w (with_publication p' w) depth matches sel.
Proof.
  intros Hr Hd Hf Hb. destruct (publication_reachable_sound _ _ Hr) as (tr & clock & HI).
  destruct (head_tier_ok _ _ _ depth matches fresh HI Hd Hf Hb) as (p' & sel & cap & E & _ & Hc & Ho). by exists p', sel, cap.
Qed.
End publication_theorems.

#[local] Existing Instance NHash.

(** C11: a re-entry can panic.  In a reachable publication, a reader joined
    the running job of a source shortly before the source expired; the source
    was dropped from the cache, and a later reader opened a slot for a newer
    revision; the first reader's re-entry then measures that slot's age
    against its older captured Head, and the subtraction fails. *)
Theorem delta_reentry_panics :
  ∃ (w : @PublicationWorld NHash) rq fresh,
    publication_reachable bytes_text w ∧ rq ∈ pw_requests w ∧ w_delta_jobs (pw_cache w) !! fresh = None ∧
    reenter_canonical_delta rq fresh (pw_publication w) = None.
Proof.
  destruct (reentry_fails_spec _ _ _ late_reentry) as (rq & Hin & Hn). exists late_reached, rq, 103.
  split_and!; [apply late_reached_reachable|exact Hin|by vm_compute|exact Hn].
Qed.

(** * Witnesses *)


(** The counters of the next update have room. *)
Definition update_room (u : OriginalUpdate) (now_ms : N) (core : GraphPublicationCore) : bool :=
  match OriginalUpdate_apply u now_ms (pc_view core) with
  | Some (_, Ok (Some d)) =>
    match estimate_raw_delta_bytes d with
    | Some est => bool_decide (gh_current_cumulative_estimated_bytes (pc_history core) + est ≤ U64_MAX)
    | None => false
    end
  | _ => true
  end.
Lemma update_room_spec u now_ms core :
  update_room u now_ms core = true →
  ∀ v' d, OriginalUpdate_apply u now_ms (pc_view core) = Some (v', Ok (Some d)) →
    ∃ est, estimate_raw_delta_bytes d = Some est ∧
      gh_current_cumulative_estimated_bytes (pc_history core) + est ≤ U64_MAX.
Proof.
  unfold update_room. intros H v' d E. rewrite E in H. destruct (estimate_raw_delta_bytes d) as [est|]; [|done].
  exists est. split; [done|]. by apply bool_decide_eq_true in H.
Qed.

Lemma publication_update_witness :
  ∃ p' r, apply_original_update (OriginalVspc demo_vspc) 20 (pw_publication demo_reached) = Some (p', r).
Proof.
  destruct (publication_update bytes_text demo_reached (OriginalVspc demo_vspc) 20 (demo_reached_reachable bytes_text))
    as [E|(p' & E & _)].
  - by vm_compute.
  - by vm_compute.
  - by vm_compute.
  - by vm_compute.
  - by vm_compute.
  - apply update_room_spec. by vm_compute.
  - eexists _, _. exact E.
  - eexists _, _. exact E.
Defined.

Lemma delta_selection_witness :
  ∃ p' cx' r, select_canonical_delta 0 None 1 102 (pw_publication demo_reached) (pw_connections demo_reached)
    = Some (p', cx', r) ∧ gp_core p' = pw_core demo_reached.
Proof.
  destruct (delta_selection bytes_text demo_reached 0 None 1 102 (demo_reached_reachable bytes_text))
    as (clock & p' & cx' & r & _ & E & Hc & _).
  - by vm_compute.
  - left.
  - by vm_compute.
  - exists p', cx', r. exact (conj E Hc).
Defined.

(** Whether every slot of the cache predates a timestamp. *)
Definition slots_past (head_ts : N) (c : CacheWorld) : bool :=
  bool_decide (map_Forall (λ _ s, ds_first_revision_timestamp_ms s ≤ head_ts) (w_deltas c)).
Definition first_request (w : @PublicationWorld NHash) : CanonicalDeltaRequest :=
  default (MkCanonicalDeltaRequest (capture_delta_target 0 (pw_core w)) (MkDeltaRevisionRange 0 0) 0)
    (head (pw_requests w)).
Lemma first_request_elem w : bool_decide (pw_requests w = []) = false → first_request w ∈ pw_requests w.
Proof. unfold first_request. destruct (pw_requests w); [done|]. intros _. simpl. left. Qed.

Lemma delta_reentry_witness :
  ∃ p' r, reenter_canonical_delta (first_request demo_reached) 102 (pw_publication demo_reached) = Some (p', r).
Proof.
  destruct (delta_reentry bytes_text demo_reached (first_request demo_reached) 102 (demo_reached_reachable bytes_text))
    as (clock & p' & r & E & _).
  - apply first_request_elem. by vm_compute.
  - by vm_compute.
  - assert (slots_past (dt_revision_timestamp_ms (cr_head (first_request demo_reached))) (pw_cache demo_reached) = true)
      as H by by vm_compute. apply bool_decide_eq_true in H. exact H.
  - by exists p', r.
Defined.

Lemma head_tier_selection_witness :
  ∃ p' sel cap, head_tier 50 (λ _, false) 201 (pw_publication demo_reached) = Some (p', sel, cap).
Proof.
  destruct (head_tier_selection bytes_text demo_reached 50 (λ _, false) 201 (demo_reached_reachable bytes_text))
    as (p' & sel & cap & E & _).
  - right. left.
  - by vm_compute.
  - by vm_compute.
  - by exists p', sel, cap.
Defined.
