(* ===== verification/WireTheorems.v ===== *)
(** Properties of what a publication sends: a reader of snapshots and canonical
    deltas holds the graph the publication holds, and an admitted delta stays
    within the limit of a response.

    The canonical deltas a reader decodes omit the blocks and edges they remove;
    advancing its lower bound removes exactly those. *)

From Stdlib Require Import String Ascii.
From stdpp Require Import pretty.
From S2P Require Import Prelude Model Delta GraphView ViewInvariant ApplyDelta Mutation HeadBlock.
From S2P Require Import HeadView VspcView History Lineage Cache CacheMachine Clients ClientsWorld.
From S2P Require Import Publication PublicationSteps Runtime Wire WireCodec WireBound Compose Subview.
From S2P Require Import ClientsSafety Election PublicationExamples.

#[local] Open Scope N_scope.

Section replica.
Context {KH : KaspaHash}.
Implicit Types (v : GraphView) (d : GraphDelta).

(** One decoded entry on the graph of a Head-following reader of a given depth:
    upserts, level mutations, memberships and colors; then the new lower bound
    retires what fell below it. *)
Definition apply_wire (depth : N) (c : Content) (w : WireDelta) : Content :=
  let low := N.max (saturating_sub (wi_head_level w) (depth - 1)) 1 in
  let bs := list_to_map ((λ b, (hash b, b)) <$> wi_blocks w) ∪ ct_blocks c in
  let bs := foldl (λ bs '(h, x), alter (set_is_in_vspc x) h bs) bs (wi_is_in_vspc w) in
  let bs := foldl (λ bs '(h, x), alter (set_color x) h bs) bs (wi_colors w) in
  MkContent (override (ct_levels c) (list_to_map (wi_levels w)))
    (filter (λ '(_, b), low ≤ block_level b) bs)
    (filter (λ '(_, e), low ≤ child_level e) (list_to_map ((λ e, (edge_id e, e)) <$> wi_edges w) ∪ ct_edges c)).

(** A delta removes only what falls below the lower bound it leaves. *)
Record retires d v : Prop := {
  rt_blocks k b : block_changes d !! k = Some None → blocks v !! k = Some b →
    block_level b < low_level (delta_extent d v);
  rt_edges id e : edge_changes d !! id = Some None → edges v !! id = Some e →
    child_level e < low_level (delta_extent d v)
}.

(** ** The upserts of a delta *)

(** The values of a map, listed by their own keys. *)
Lemma keyed_listing {K A} `{Countable K} (key : A → K) (m : gmap K A) l :
  l ≡ₚ (map_to_list m).*2 → (∀ k x, m !! k = Some x → key x = k) → list_to_map ((λ x, (key x, x)) <$> l) = m.
Proof.
  intros Hl Hkey. assert ((λ x, (key x, x)) <$> l ≡ₚ map_to_list m) as Hp.
  { rewrite Hl, <-list_fmap_compose. assert (∀ p, p ∈ map_to_list m → (key p.2, p.2) = p) as Hin.
    { intros [k x] Hp%elem_of_map_to_list. simpl. by rewrite (Hkey _ _ Hp). }
    rewrite (list_fmap_ext _ id); [by rewrite list_fmap_id|]. intros i p Hp%list_elem_of_lookup_2. by apply Hin. }
  apply (listing_spec m _ Hp).
Qed.

Lemma upserts_lookup {K A} `{Countable K} (key : A → K) (m : gmap K (option A)) l k :
  l ≡ₚ map_to_list m → (∀ k x, m !! k = Some (Some x) → key x = k) →
  (list_to_map ((λ x, (key x, x)) <$> omap snd l) : gmap K A) !! k = m !! k ≫= id.
Proof.
  intros Hl Hkey. assert (list_to_map ((λ x, (key x, x)) <$> omap snd l) = omap id m) as ->.
  - apply map_eq. intros j. apply option_eq. intros x. rewrite lookup_omap.
    assert (∀ j x, (j, x) ∈ ((λ x, (key x, x)) <$> omap snd l) ↔ m !! j = Some (Some x)) as Hin.
    { intros i y. rewrite list_elem_of_fmap. split.
      - intros (z & [= -> ->] & ([i' o] & Hz & E)%list_elem_of_omap). simpl in E. subst o. rewrite Hl in Hz.
        apply elem_of_map_to_list in Hz. by rewrite (Hkey _ _ Hz).
      - intros Hm. exists y. rewrite (Hkey _ _ Hm). split; [done|]. apply list_elem_of_omap. exists (i, Some y).
        split; [|done]. rewrite Hl. by apply elem_of_map_to_list. }
    split.
    + intros Hx%elem_of_list_to_map_2%Hin. by rewrite Hx.
    + intros (o & Hm & Ho)%bind_Some. unfold id in Ho. subst o. apply elem_of_list_to_map_1'; [|by apply Hin].
      intros y Hy%Hin. congruence.
  - rewrite lookup_omap. by destruct (m !! k).
Qed.

Lemma wire_fields d o bs : order_of d o →
  foldl (λ bs '(h, x), alter (set_color x) h bs)
    (foldl (λ bs '(h, x), alter (set_is_in_vspc x) h bs) bs (prod_map id field_after <$> do_is_in_vspc o))
    (prod_map id field_after <$> do_colors o) = put_fields d bs.
Proof.
  intros (_ & _ & H3 & H4). rewrite <-(field_loops_spec d bs _ _ H3 H4).
  assert (∀ bs, foldl (λ bs '(h, x), alter (set_is_in_vspc x) h bs) bs (prod_map id field_after <$> do_is_in_vspc o)
    = foldl apply_vspc_change bs (do_is_in_vspc o)) as ->.
  { clear. induction (do_is_in_vspc o) as [|[k x] l IH]; intros bs'; [done|]. exact (IH _). }
  generalize (foldl apply_vspc_change bs (do_is_in_vspc o)). clear.
  induction (do_colors o) as [|[k x] l IH]; intros bs0; [done|]. exact (IH _).
Qed.

(** ** One entry *)

(** Reading one entry is what the canonical delta does to a Head view. *)
Lemma wire_step d o v v' :
  head_inv v → head_inv v' → applicable d v → apply_delta d v = Some (v', Ok tt) → retires d v → order_of d o →
  apply_wire (max_depth v) (content v) (projected d o) = content v'.
Proof.
  intros Hv Hv' Ha Hd [Rb Re] Ho.
  destruct (apply_delta_refines_run d v v' (hv_indexed _ Hv) Ha Hd) as (_ & _ & _ & Hc & _ & _ & Hx & _ & _).
  assert (low_level (extent v') = N.max (saturating_sub (head_level d) (max_depth v - 1)) 1) as Elow.
  { rewrite Hx. unfold delta_extent. by rewrite decide_True by apply Hv. }
  unfold delta_extent in Rb, Re. rewrite decide_True in Rb, Re by apply Hv. simpl in Rb, Re. rewrite <-Elow in Rb, Re.
  unfold apply_wire, projected. cbn [wi_head_level wi_blocks wi_edges wi_levels wi_is_in_vspc wi_colors].
  rewrite (wire_fields d o _ Ho), <-Elow.
  assert (content v' = abs_apply d (content v)) as Hc' by done. unfold abs_apply in Hc'.
  injection Hc' as El Eb Ee. rewrite Hc. unfold abs_apply. f_equal.
  - apply map_eq. intros k. apply option_eq. intros b. rewrite map_lookup_filter_Some.
    rewrite lookup_put_fields, lookup_union. destruct Ho as (H1 & _).
    rewrite (upserts_lookup hash _ _ _ H1 (ap_block_key _ _ Ha)), lookup_put_fields, lookup_override.
    assert (∀ b', blocks v' !! k = Some b' → low_level (extent v') ≤ block_level b') as Hlow.
    { intros b' Hb'. apply (hv_blocks _ Hv' _ _ Hb'). }
    rewrite Eb, lookup_put_fields, lookup_override in Hlow. simpl in *.
    destruct (block_changes d !! k) as [[b1|]|] eqn:Ek; simpl.
    + rewrite union_Some_l in *. simpl in *. split; [by intros [? _]|]. intros Hb. split; [done|]. by apply Hlow.
    + rewrite (left_id_L None union). split; [|done]. intros [Hb Hle]. exfalso.
      destruct (blocks v !! k) as [b0|] eqn:Ek0; [|done]. simpl in Hb. injection Hb as <-.
      specialize (Rb _ _ Ek Ek0). unfold block_level in *.
      destruct (is_in_vspc_changes d !! k), (color_changes d !! k); simpl in Hle; lia.
    + rewrite (left_id_L None union). split; [by intros [? _]|]. intros Hb. split; [done|]. by apply Hlow.
  - apply map_eq. intros i. apply option_eq. intros e. rewrite map_lookup_filter_Some, lookup_union.
    destruct Ho as (_ & H2 & _). rewrite (upserts_lookup edge_id _ _ _ H2 (ap_edge_key _ _ Ha)), lookup_override.
    assert (∀ e', edges v' !! i = Some e' → low_level (extent v') ≤ child_level e') as Hlow.
    { intros e' He'. destruct (hv_children _ Hv' _ _ He') as (b & Hb & Ecb). apply (hv_blocks _ Hv') in Hb as [Hb _].
      unfold child_level, block_level in *. by rewrite <-Ecb. }
    rewrite Ee, lookup_override in Hlow. simpl in *. destruct (edge_changes d !! i) as [[e1|]|] eqn:Ei; simpl.
    + rewrite union_Some_l in *. split; [by intros [? _]|]. intros He. split; [done|]. by apply Hlow.
    + rewrite (left_id_L None union). split; [|done]. intros [He Hle]. specialize (Re _ _ Ei He). lia.
    + rewrite (left_id_L None union). split; [by intros [? _]|]. intros He. split; [done|]. by apply Hlow.
Qed.

(** ** What updates retire *)

Lemma block_retires c ts v v' d :
  head_inv v → block_payload_ok c v → apply_head_block_committed c ts v = Some (v', Ok (Some d)) → retires d v.
Proof.
  intros Hv Hpay Happ. destruct (head_block_phases c ts v Hv Hpay) as (v1 & v2 & m1 & m2 & _ & _ & Hh & E).
  rewrite E in Happ. apply bind_Some in Happ as ([w x] & Hf & H). injection H as -> ->.
  destruct (HeadView.head_finish c ts v v1 v2 m2 Hv Hpay Hh) as [[E1 _]|(d1 & v1' & E1 & Ev & _ & Ha & _ & Ehd & Hd)];
    rewrite Hf in E1; [done|]. injection E1 as <- <-. subst v'.
  destruct (apply_delta_refines_run _ _ _ (hv_indexed _ Hv) Ha Hd) as (_ & _ & _ & Hc & _ & _ & Hx & _ & _).
  simpl in Hx. injection Hc as _ Eb Ee. destruct Hh as [Hb1 He1 Hb2 He2 _ _ _ _].
  assert (low_level (delta_extent d v) = low_level (head_target c v)) as Elow by (by rewrite <-Hx).
  split.
  - intros k b Hk Hb. rewrite Elow. destruct (decide (low_level (head_target c v) ≤ block_level b)) as [Hle|]; [exfalso|lia].
    assert (blocks v2 !! k = Some b) as Hin.
    { apply Hb2. split; [|done]. rewrite Hb1. unfold projected_blocks. case_decide; [|done].
      rewrite lookup_insert_ne; [done|]. intros <-. by rewrite (po_fresh _ _ Hpay) in Hb. }
    rewrite Eb, lookup_put_fields, lookup_override, Hk in Hin. done.
  - intros i e Hi He. rewrite Elow. assert (edges v2 !! i = None) as Hn by (by rewrite Ee, lookup_override, Hi).
    destruct (hv_children _ Hv _ _ He) as (b & Hb & Ecb). unfold child_level. rewrite <-Ecb.
    destruct (decide (low_level (head_target c v) ≤ coord_level (coordinate b))) as [Hle|]; [exfalso|lia].
    assert (∃ e', edges v1 !! i = Some e') as [e' He'].
    { rewrite He1. exists e. apply lookup_insert_edges; [| |by left].
      - intros x y. apply retained_edges_agree, Hpay.
      - intros x Hin. by eapply pp_edge; [apply head_projection_pre|]. }
    assert (edges v2 !! i = Some e'); [|congruence]. apply He2. split; [done|]. intros (b' & Hb' & Hlt).
    rewrite Hb1 in Hb'. unfold projected_blocks in Hb'. case_decide; [|unfold block_level in Hlt; simplify_eq; lia].
    rewrite lookup_insert_ne in Hb'; [unfold block_level in Hlt; simplify_eq; lia|].
    intros Hc. by rewrite <-Hc, (po_fresh _ _ Hpay) in Hb.
Qed.

Lemma update_retires u ts v v' d :
  head_inv v → update_ok u v → OriginalUpdate_apply u ts v = Some (v', Ok (Some d)) → retires d v.
Proof.
  intros Hv Hu Happ. destruct u as [c|c]; [by eapply block_retires|]. destruct Hu as [Hs Hm]. simpl in Happ.
  destruct (head_vspc_committed c ts v Hv Hs Hm) as [[E _]|(w & d' & E & _ & _ & _ & _ & Eb & Ee & _)];
    rewrite Happ in E; simplify_eq.
  split; intros k x Hk; [by rewrite Eb, lookup_empty in Hk|by rewrite Ee, lookup_empty in Hk].
Qed.

(** ** Runs *)

(** Whatever the iteration orders, reading the deltas one after the other takes
    the graph of [v] to that of [v']. *)
Definition follows v (ds : list GraphDelta) v' : Prop :=
  max_depth v' = max_depth v ∧
  ∀ os, Forall2 order_of ds os → foldl (apply_wire (max_depth v)) (content v) (zip_with projected ds os) = content v'.

Lemma follows_nil v : follows v [] v.
Proof. split; [done|]. by intros os ->%Forall2_nil_inv_l. Qed.

Lemma follows_snoc v ds w d w' :
  follows v ds w → head_inv w → head_inv w' → applicable d w → apply_delta d w = Some (w', Ok tt) → retires d w →
  follows v (ds ++ [d]) w'.
Proof.
  intros [Ed Hf] Hw Hw' Ha Hd Hr.
  destruct (apply_delta_refines_run d w w' (hv_indexed _ Hw) Ha Hd) as (_ & _ & _ & _ & Em & _).
  split; [congruence|]. intros os (os1 & os2 & H1 & H2 & ->)%Forall2_app_inv_l.
  apply Forall2_cons_inv_l in H2 as (o & ? & Ho & ->%Forall2_nil_inv_l & ->).
  rewrite zip_with_app by (by eapply Forall2_length). rewrite foldl_app, (Hf _ H1). simpl. rewrite <-Ed.
  by apply wire_step.
Qed.

Lemma segment_take h a b c : b ≤ c → segment h a b = take (N.to_nat (b - a)) (segment h a c).
Proof. intros Hle. unfold segment. rewrite take_take. f_equal. lia. Qed.

(** The retained deltas between two views of a run lead from one to the other. *)
Lemma lineage_follows estimate tr v h w w' :
  lineage_run estimate tr v h → w ∈ tr → w' ∈ tr →
  oldest_available_revision h ≤ current_revision_id w → current_revision_id w ≤ current_revision_id w' →
  follows w (he_delta <$> segment h (current_revision_id w) (current_revision_id w')) w'.
Proof.
  intros Hrun. revert w w'. induction Hrun as [v Hv Hz|tr v h u ts v' h' r Hrun IH Hu Happ]; intros w w' Hw Hw' Ho Hle.
  - apply list_elem_of_singleton in Hw as ->. apply list_elem_of_singleton in Hw' as ->. rewrite segment_same. apply follows_nil.
  - pose proof (lineage_run_inv _ _ _ _ Hrun) as HL. pose proof HL as [Hh _ _ Hp _ Hin].
    destruct (lineage_advance _ _ _ _ _ _ _ _ _ HL Hu Happ)
      as [(-> & -> & ->)|(d & est & h1 & x & Hou & -> & Hv' & Ha & _ & Hd & Hrev & Hi1 & Hr1 & He1 & ->)].
    { apply IH; try done; apply elem_of_cons in Hw as [->|Hw]; apply elem_of_cons in Hw' as [->|Hw']; done. }
    apply elem_of_cons in Hw as [->|Hw].
    { apply elem_of_cons in Hw' as [->|Hw']; [rewrite segment_same; apply follows_nil|].
      destruct (Hp _ Hw') as [? _]. lia. }
    destruct (lineage_suffix _ _ _ _ _ _ _ _ w HL Hrev Hi1 Hr1 He1 Hw Ho) as [Ho2 Es].
    apply elem_of_cons in Hw' as [->|Hw'].
    + rewrite Es. destruct (Hp _ Hw). eapply follows_snoc; eauto using update_retires.
    + destruct (Hp _ Hw') as [Hle' _]. specialize (IH w w' Hw Hw' Ho2 Hle).
      rewrite (segment_take h _ _ _ Hle') in IH.
      rewrite (segment_take (prune _ h1) _ _ (current_revision_id v')) by lia.
      rewrite fmap_take in *. rewrite Es, take_app_le; [done|]. rewrite length_fmap. unfold segment.
      rewrite length_take, length_drop. pose proof (li_history _ _ _ HL) as Hi. pose proof (oldest_length _ Hi).
      pose proof (li_revision _ _ _ HL). lia.
Qed.
End replica.

Section wire_theorems.
Context {KH : KaspaHash}.
Implicit Types (v : GraphView) (h : GraphHistory) (w : PublicationWorld).

(** C3: A reader that follows the Head.  Between any two views of a lineage whose
    older one the history still reaches, the batch of the retained deltas,
    encoded in whatever order its hash maps are iterated, decodes; and applying
    its entries to the older graph, each advancing the reader's lower bound,
    gives exactly the newer graph, although the wire carries no removal of a
    block or an edge. *)
Theorem replica_follows_publication tr v h (w w' : GraphView) os b :
  lineage_run estimate_raw_delta_bytes tr v h → w ∈ tr → w' ∈ tr →
  oldest_available_revision h ≤ current_revision_id w → current_revision_id w ≤ current_revision_id w' →
  let entries := segment h (current_revision_id w) (current_revision_id w') in
  Forall2 (λ e o, order_of (he_delta e) o) entries os →
  GraphDeltaBatchDto_from_entries (zip entries os) = Some b →
  ∃ ws, decode_batch b = Some ws ∧ foldl (apply_wire (max_depth w)) (content w) ws = content w'.
Proof.
  intros Hrun Hw Hw' Ho Hle entries Hos Hb. destruct (lineage_follows _ _ _ _ _ _ Hrun Hw Hw' Ho Hle) as [_ Hf].
  pose proof (batch_spec (zip entries os)) as Hs. rewrite Hb in Hs. destruct Hs as (_ & _ & Hd).
  eexists. split; [exact Hd|]. rewrite <-(Hf os); [|by rewrite Forall2_fmap_l]. f_equal. unfold entries.
  rewrite zip_with_fmap_l. generalize (segment h (current_revision_id w) (current_revision_id w')). clear.
  intros l. revert os. induction l as [|e l IH]; intros [|o os]; [done..|]. csimpl. by rewrite IH.
Qed.

(** C4: the Head snapshot read back.  In whatever order the captured view's hash
    maps are iterated, the body decodes to exactly the graph of the view, its
    dictionary lists every hash once, and its validator names the capture; the
    conversion fails only when more distinct hashes are referenced than [u32]
    references exist. *)
Theorem snapshot_roundtrip bs es capture :
  let v := vcap_view capture in
  indexed v → extent_wf (extent v) → bs ≡ₚ (map_to_list (blocks v)).*2 → es ≡ₚ (map_to_list (edges v)).*2 →
  match HeadSnapshotResponseDto_from_capture bs es capture with
  | Some s => ∃ ls, decode_graph (sd_graph s) = Some (ls, bs, es) ∧
      MkContent (list_to_map ls) (list_to_map ((λ b, (hash b, b)) <$> bs))
        (list_to_map ((λ e, (edge_id e, e)) <$> es)) = content v ∧
      NoDup (hash_value <$> gd_hashes (sd_graph s)) ∧
      etag_input s = Some (HeadEtagInput_new (vcap_publication_id capture) (current_revision_id v) (extent v))
  | None => U32_MAX + 1 < N.of_nat (size (list_to_set (view_hashes bs es) : gset BlockHash))
  end.
Proof.
  intros v Hi [Hx1 Hx2] Hbs Hes. unfold HeadSnapshotResponseDto_from_capture. fold v.
  pose proof (graph_spec bs es v) as Hg. destruct (GraphDataDto_from_view bs es v) as [g|]; run_bind.
  - destruct Hg as [Eh Hd]. eexists. split; [exact Hd|]. simpl. split; [|split].
    + unfold content. f_equal.
      * apply map_eq. intros l. rewrite lookup_fmap. apply option_eq. intros x.
        assert (NoDup (prod_map id value <$> btree_to_list (levels v)).*1) as Hnd.
        { rewrite <-list_fmap_compose. apply (NoDup_btree_to_list (levels v)). }
        rewrite <-elem_of_list_to_map by done. rewrite list_elem_of_fmap, fmap_Some. split.
        -- intros ([k s] & [= -> ->] & Hin%elem_of_btree_to_list). eauto.
        -- intros (s & Hs & ->). exists (l, s). split; [done|]. by apply elem_of_btree_to_list.
      * apply keyed_listing; [done|]. intros. by apply (ix_block_key _ Hi).
      * apply keyed_listing; [done|]. intros. by apply (ix_edge_key _ Hi).
    + rewrite Eh. apply extend_NoDup. constructor.
    + unfold etag_input. simpl. rewrite LevelExtent_new_wf by done. by destruct (extent v).
  - by rewrite <-extend_nil_length.
Qed.

(** C5: A delta the election admits fits the limit of a response.  For every range
    a reachable publication fits under the soft limit, the batch converts, its
    compact text is at most four times the estimate, below the 16 MiB limit, so
    its encoding observes no overrun of the estimator; and the builder, given
    the estimate the range reports, returns the delta it was elected for, unless
    the compression fails. *)
Theorem admitted_delta_within_limit `{!HashText} `{JsonWriter} base64_encode w from candidates fitting os
    compressor target limited :
  publication_reachable base64_encode w →
  fitting_range from candidates (λ estimated, bool_decide (estimated < SOFT_DELTA_ESTIMATED_BYTES))
    (pc_history (pw_core w)) = Some (Ok (Some fitting)) →
  Forall2 (λ e o, order_of (he_delta e) o ∧ delta_width (he_delta e)) (fr_entries fitting) os →
  let entries := zip (fr_entries fitting) os in
  ∃ estimate b first rest, fr_estimated_raw_bytes fitting = Some estimate ∧ fr_entries fitting = first :: rest ∧
    GraphDeltaBatchDto_from_entries entries = Some b ∧
    let json := json_text (serialize b) in
    string_len json ≤ 4 * estimate ∧ 4 * estimate < MAX_UNCOMPRESSED_NON_DELTA_GRAPH_RESPONSE_BYTES ∧
    encode_delta_graph_with (serialization b) estimate compressor =
      Some (None, match compressor json with
                  | Some body => Ok (MkEncodedGraphBody (string_len json) body)
                  | None => Err Compression
                  end) ∧
    build_delta (delta_job compressor) entries estimate target limited =
      Some (match compressor json with
            | Some body => Ok (MkCachedDelta (from_revision_id (he_delta first)) target limited (string_len json) body)
            | None => Err (BuildEncoding (Encoding Compression))
            end).
Proof.
  intros Hreach Hfit Hos entries. destruct (publication_lineage _ _ Hreach) as [tr Hrun].
  pose proof (lineage_charged _ _ _ Hrun) as Hc. pose proof (li_history _ _ _ (lineage_run_inv _ _ _ _ Hrun)) as Hi.
  destruct (fitting_range_sound _ _ _ _ _ Hi Hfit) as (Hin & Hne & Hsoft & Hest). apply bool_decide_eq_true in Hsoft.
  set (estimate := total_estimate (fr_entries fitting)) in *. destruct (zip_entries_ok _ _ _ Hc Hin Hos) as [Hok Hsum]. fold estimate entries in Hsum, Hok.
  destruct (batch_total entries Hok) as [b Hb]; [unfold SOFT_DELTA_ESTIMATED_BYTES, U32_MAX in *; lia|].
  destruct (fr_entries fitting) as [|first rest] eqn:Ef; [done|]. destruct os as [|o os]; [by inversion Hos|].
  exists estimate, b, first, rest. split; [done|]. split; [done|]. split; [done|]. intros json.
  pose proof (batch_bound entries b Hb ltac:(done) Hok) as Hbound. rewrite Hsum in Hbound.
  assert (4 * estimate < MAX_UNCOMPRESSED_NON_DELTA_GRAPH_RESPONSE_BYTES) as Hmax
    by (unfold SOFT_DELTA_ESTIMATED_BYTES, MAX_UNCOMPRESSED_NON_DELTA_GRAPH_RESPONSE_BYTES in *; lia).
  split; [done|]. split; [done|]. pose proof (encode_delta_spec (serialization b) estimate compressor eq_refl) as He.
  cbn [serialization se_pieces] in He. rewrite pieces_text in He. specialize (He ltac:(lia)). split; [exact He|].
  unfold build_delta, delta_job. rewrite Hb. run_bind. rewrite He. fold json. by destruct (compressor json).
Qed.

(** The builder of a Head tier.  A snapshot it returns is admitted by the core
    its last check found, and its validator, extent and revision are those of
    the last capture, so they agree with one another; an error is the
    scheduler's. *)
Theorem head_builder_admits publication_id depth rounds capture s :
  build_head_tier publication_id depth rounds capture = Some (Some (Ok s)) →
  ∃ round capture' extent, round ∈ rounds ∧
    (capture' = capture ∨ ∃ r, r ∈ rounds ∧ capture_head_tier publication_id depth (hr_recaptured r) = Some capture') ∧
    admits (head_eligibility_boundary (hr_checked round)) s = Some true ∧
    LevelExtent_new (hs_low_level s) (hs_high_level s) = Ok extent ∧ hs_depth s = depth ∧
    hs_revision s = current_revision_id (vcap_view capture') ∧
    hs_etag s = etag (HeadEtagInput_new (vcap_publication_id capture') (hs_revision s) extent).
Proof.
  revert capture. induction rounds as [|round rounds IH]; intros capture; [done|]. cbn [build_head_tier].
  intros Hb. apply bind_Some in Hb as (response & Hr & Hb). apply bind_Some in Hb as (input & Hin & Hb).
  destruct (hr_encode round response) as [encoded|e]; [|done].
  apply bind_Some in Hb as (eligible & Ha & Hb). destruct eligible.
  - injection Hb as <-. unfold HeadSnapshotResponseDto_from_capture in Hr.
    apply bind_Some in Hr as (g & _ & [= <-]). unfold etag_input in Hin. simpl in Hin.
    destruct (LevelExtent_new _ _) as [x|] eqn:Ex; [|done]. injection Hin as <-.
    exists round, capture, x. split_and!; try done; [left|by left].
  - apply bind_Some in Hb as (capture1 & Hc & Hb). destruct (IH _ Hb) as (r & c & x & H1 & H2 & H3).
    exists r, c, x. split; [by right|]. split; [|done]. right. destruct H2 as [->|(r' & H2 & H4)].
    + exists round. split; [left|done].
    + exists r'. split; [by right|done].
Qed.

(** A response that is not a delta: encoded exactly when its text fits the
    limit, however the serializer splits it into pieces. *)
Theorem graph_encoding_limit `{JsonWriter} {A} `{Serialize A} (x : A) compressor :
  encode_graph_with (serialization x) compressor =
    if decide (MAX_UNCOMPRESSED_NON_DELTA_GRAPH_RESPONSE_BYTES < string_len (json_text (serialize x)))
    then Err UncompressedResponseTooLarge
    else match compressor (json_text (serialize x)) with
         | Some body => Ok (MkEncodedGraphBody (string_len (json_text (serialize x))) body)
         | None => Err Compression
         end.
Proof.
  pose proof (encode_graph_spec (serialization x) compressor) as He. cbn [se_complete se_pieces serialization] in He.
  by rewrite pieces_text in He.
Qed.
End wire_theorems.

(** * Instances *)

#[local] Existing Instance NHash.

(** The compact form, for keys and strings that need no escape. *)
Fixpoint compact (j : Json) : string :=
  match j with
  | JNull => "null"
  | JBool b => if b then "true" else "false"
  | JNumber n => pretty n
  | JString s => quote +:+ s +:+ quote
  | JArray l => "[" +:+ String.concat "," (map compact l) +:+ "]"
  | JObject l => "{" +:+ String.concat "," (map (λ p, (quote +:+ p.1 +:+ quote) +:+ ":" +:+ compact p.2) l) +:+ "}"
  end.

Definition compact_text : JsonText.
Proof.
  refine {| json_text := compact |}; try done. intros l. simpl. do 3 f_equal.
  induction l as [|[k v] l IH]; [done|]. csimpl. by rewrite <-IH.
Defined.
#[local] Existing Instance compact_text.
Definition compact_writer : JsonWriter.
Proof. by refine {| json_pieces := λ j, [json_text j] |}. Defined.
#[local] Existing Instance compact_writer.

(** Numeric hashes as 64 digits. *)
Fixpoint digits (k : nat) (n : N) : string :=
  match k with O => EmptyString | S k => String (pretty_N_char (n `mod` 10)) (digits k (n `div` 10)) end.
Definition digit_text : @HashText NHash.
Proof.
  refine {| hash_text := digits 64 : @BlockHash NHash → string |}; [done|]. intros n. simpl in n. generalize 64%nat.
  intros k. revert n. induction k as [|k IH]; intros n; [done|]. apply plain_digit; [by apply N.mod_lt|apply IH].
Defined.
#[local] Existing Instance digit_text.

(** The iteration order of the listings, and the widths of a delta, checked. *)
Definition listing_order (d : @GraphDelta NHash) : @DeltaOrder NHash :=
  MkDeltaOrder (map_to_list (block_changes d)) (map_to_list (edge_changes d))
    (map_to_list (is_in_vspc_changes d)) (map_to_list (color_changes d)).
Lemma listing_order_of d : order_of d (listing_order d).
Proof. by split_and!. Qed.

#[local] Instance coordinate_width_dec c : Decision (coordinate_width c).
Proof. unfold coordinate_width. apply _. Defined.
Definition opt_le (o : option N) (b : N) : bool := match o with Some x => bool_decide (x ≤ b) | None => true end.
Definition block_width_check (b : @GraphBlock NHash) : bool :=
  bool_decide (coordinate_width (coordinate b) ∧ timestamp b ≤ U64_MAX ∧ block_daa_score b ≤ U64_MAX)
  && opt_le (selected_parent_index b) U32_MAX.
Definition edge_width_check (e : @GraphEdge NHash) : bool :=
  bool_decide (coordinate_width (parent_coordinate e) ∧ coordinate_width (child_coordinate e)).
Definition level_width_check (c : LevelChange) : bool :=
  bool_decide (level c ≤ U32_MAX) &&
  match after c with Some y => bool_decide (size_ y ≤ U16_MAX) && opt_le (daa_score y) U64_MAX | None => true end.
Definition delta_width_check (d : @GraphDelta NHash) : bool :=
  bool_decide (from_revision_id d ≤ U64_MAX ∧ to_revision_id d ≤ U64_MAX ∧ revision_timestamp_ms d ≤ U64_MAX ∧
    head_level d ≤ U32_MAX) &&
  forallb (λ p, match p.2 with Some b => block_width_check b | None => true end) (map_to_list (block_changes d)) &&
  forallb (λ p, match p.2 with Some e => edge_width_check e | None => true end) (map_to_list (edge_changes d)) &&
  forallb level_width_check (level_changes d).

Lemma opt_le_spec o b : opt_le o b = true → ∀ x, o = Some x → x ≤ b.
Proof. intros H x ->. by apply bool_decide_eq_true in H. Qed.

Lemma delta_width_checked d : delta_width_check d = true → delta_width d.
Proof.
  unfold delta_width_check. rewrite !andb_true_iff, bool_decide_eq_true, !forallb_forall.
  setoid_rewrite <-list_elem_of_In. intros [[[(H1 & H2 & H3 & H4) Hb] He] Hl]. split; try done.
  - intros k b Hk%elem_of_map_to_list%Hb. simpl in Hk. apply andb_true_iff in Hk as [Hk Hs].
    apply bool_decide_eq_true in Hk as (? & ? & ?). split_and!; try done. by apply opt_le_spec.
  - intros k e Hk%elem_of_map_to_list%He. simpl in Hk. by apply bool_decide_eq_true in Hk.
  - intros c Hc%Hl. apply andb_true_iff in Hc as [Hc Hs]. apply bool_decide_eq_true in Hc.
    split; [done|]. intros y Hy. rewrite Hy in Hs. apply andb_true_iff in Hs as [Hs Hd].
    apply bool_decide_eq_true in Hs. split; [done|]. by apply opt_le_spec.
Qed.

(** ** The reader of the demonstration run *)

Definition entry_orders (l : list (@GraphHistoryEntry NHash)) : list DeltaOrder := (λ e, listing_order (he_delta e)) <$> l.
Lemma entry_orders_of l : Forall2 (λ e o, order_of (he_delta e) o) l (entry_orders l).
Proof. induction l; constructor; [apply listing_order_of|done]. Qed.

Definition demo_entries : list (@GraphHistoryEntry NHash) :=
  segment demo_history2 (current_revision_id (demo_view Head)) (current_revision_id demo_last).
Definition demo_batch : @GraphDeltaBatchDto NHash :=
  default (MkGraphDeltaBatchDto [] []) (GraphDeltaBatchDto_from_entries (zip demo_entries (entry_orders demo_entries))).

Lemma demo_batch_eq :
  GraphDeltaBatchDto_from_entries (zip demo_entries (entry_orders demo_entries)) = Some demo_batch.
Proof.
  unfold demo_batch. assert (bool_decide (is_Some (GraphDeltaBatchDto_from_entries
    (zip demo_entries (entry_orders demo_entries)))) = true) as Hs by by vm_compute.
  apply bool_decide_eq_true in Hs as [b E]. by rewrite E.
Qed.

(** The first delta retires block one and its edge, and the wire says nothing of it. *)
Example demo_retires :
  (block_changes demo_delta !! (1 : @BlockHash NHash), length demo_entries, length (db_hashes demo_batch))
  = (Some None, 2%nat, 2%nat).
Proof. by vm_compute. Qed.

Lemma replica_follows_publication_witness :
  ∃ ws, decode_batch demo_batch = Some ws ∧
    foldl (apply_wire (max_depth (demo_view Head))) (content (demo_view Head)) ws = content demo_last.
Proof.
  apply (replica_follows_publication [demo_last; demo_next; demo_view Head] demo_last demo_history2
           (demo_view Head) demo_last (entry_orders demo_entries)).
  - apply demo_run.
  - do 2 right; left.
  - left.
  - by vm_compute.
  - by vm_compute.
  - apply entry_orders_of.
  - apply demo_batch_eq.
Defined.

Definition demo_capture : @GraphViewCapture NHash := MkGraphViewCapture 7 0 0 (demo_view Head).
Definition demo_response : option (@HeadSnapshotResponseDto NHash) :=
  HeadSnapshotResponseDto_from_capture (map_to_list (blocks (demo_view Head))).*2
    (map_to_list (edges (demo_view Head))).*2 demo_capture.

(** The snapshot converts, and two hashes are named once each. *)
Example demo_response_some : (λ s, length (gd_hashes (sd_graph s))) <$> demo_response = Some 2%nat.
Proof. by vm_compute. Qed.

Lemma snapshot_roundtrip_witness :
  match demo_response with
  | Some s => ∃ ls, decode_graph (sd_graph s) =
        Some (ls, (map_to_list (blocks (demo_view Head))).*2, (map_to_list (edges (demo_view Head))).*2) ∧
      MkContent (list_to_map ls) (list_to_map ((λ b, (hash b, b)) <$> (map_to_list (blocks (demo_view Head))).*2))
        (list_to_map ((λ e, (edge_id e, e)) <$> (map_to_list (edges (demo_view Head))).*2)) = content (demo_view Head) ∧
      NoDup (hash_value <$> gd_hashes (sd_graph s)) ∧
      etag_input s = Some (HeadEtagInput_new 7 (current_revision_id (demo_view Head)) (extent (demo_view Head)))
  | None => U32_MAX + 1 < N.of_nat (size (list_to_set (view_hashes (map_to_list (blocks (demo_view Head))).*2
      (map_to_list (edges (demo_view Head))).*2) : gset (@BlockHash NHash)))
  end.
Proof.
  apply (snapshot_roundtrip (map_to_list (blocks (demo_view Head))).*2 (map_to_list (edges (demo_view Head))).*2
           demo_capture).
  - apply demo_view_indexed.
  - by vm_compute.
  - done.
  - done.
Defined.

(** ** A delta elected in the demonstration publication *)

Definition demo_fitting : @GraphHistoryFittingRange NHash :=
  match fitting_range 0 [2; 1] (λ estimated, bool_decide (estimated < SOFT_DELTA_ESTIMATED_BYTES))
          (pc_history (pw_core demo_reached)) with
  | Some (Ok (Some r)) => r
  | _ => MkGraphHistoryFittingRange 0 false []
  end.
Definition fitting_ok (r : option (Result (option (@GraphHistoryFittingRange NHash)) GraphHistoryRangeError)) : bool :=
  match r with Some (Ok (Some _)) => true | _ => false end.

Lemma demo_fitting_eq :
  fitting_range 0 [2; 1] (λ estimated, bool_decide (estimated < SOFT_DELTA_ESTIMATED_BYTES))
    (pc_history (pw_core demo_reached)) = Some (Ok (Some demo_fitting)).
Proof.
  unfold demo_fitting. assert (fitting_ok (fitting_range 0 [2; 1]
    (λ estimated, bool_decide (estimated < SOFT_DELTA_ESTIMATED_BYTES)) (pc_history (pw_core demo_reached))) = true)
    as Hok by by vm_compute.
  revert Hok. by destruct (fitting_range _ _ _ _) as [[[r|]|]|].
Qed.

Lemma checked_orders l : forallb (λ e, delta_width_check (he_delta e)) l = true →
  Forall2 (λ e o, order_of (he_delta e) o ∧ delta_width (he_delta e)) l (entry_orders l).
Proof.
  induction l as [|e l IH]; intros H; [constructor|]. apply andb_true_iff in H as [He Hl].
  constructor; [|by apply IH]. split; [apply listing_order_of|by apply delta_width_checked].
Qed.

Lemma admitted_delta_within_limit_witness :
  ∃ estimate b first rest, fr_estimated_raw_bytes demo_fitting = Some estimate ∧
    fr_entries demo_fitting = first :: rest ∧
    GraphDeltaBatchDto_from_entries (zip (fr_entries demo_fitting) (entry_orders (fr_entries demo_fitting))) = Some b ∧
    string_len (json_text (serialize b)) ≤ 4 * estimate ∧
    4 * estimate < MAX_UNCOMPRESSED_NON_DELTA_GRAPH_RESPONSE_BYTES ∧
    encode_delta_graph_with (serialization b) estimate (λ _, Some []) =
      Some (None, Ok (MkEncodedGraphBody (string_len (json_text (serialize b))) [])) ∧
    build_delta (delta_job (λ _, Some []))
      (zip (fr_entries demo_fitting) (entry_orders (fr_entries demo_fitting))) estimate 2 false =
      Some (Ok (MkCachedDelta (from_revision_id (he_delta first)) 2 false (string_len (json_text (serialize b))) [])).
Proof.
  apply (admitted_delta_within_limit bytes_text demo_reached 0 [2; 1] demo_fitting
           (entry_orders (fr_entries demo_fitting)) (λ _, Some []) 2 false).
  - apply demo_reached_reachable.
  - apply demo_fitting_eq.
  - apply checked_orders. by vm_compute.
Defined.
