(* ===== verification/SchedulerTheorems.v ===== *)
(** Properties of the encoding scheduler, for every interleaving of requests,
    workers and shutdowns. *)

From S2P Require Import Prelude Model Delta GraphView History Lineage Cache.
From S2P Require Import Publication Runtime Wire Scheduler SchedulerSafety.

#[local] Open Scope N_scope.

Section steps.
Context {Work : Type} (run : Work → Result EncodedGraphBody GraphEncodingError).
Notation QueuedJob := (@QueuedJob Work).
Notation SchedulerState := (@SchedulerState Work).
Notation SchedulerWorld := (@SchedulerWorld Work).
Notation SchedulerEvent := (@SchedulerEvent Work).
Notation world_inv := (world_inv run).
Implicit Types (s : SchedulerState) (w : SchedulerWorld) (job : QueuedJob) (jobs : list QueuedJob).

(** * Every step keeps the invariant *)

Definition none (c : nat) : Prop := False.
Definition sound w : Prop := world_inv none w ∧ busy (sw_state w).

Lemma sound_new : sound SchedulerWorld_new.
Proof.
  split; [|by split].
  split; cbn; try done; try (intros *; rewrite lookup_empty; done); try (intros *; rewrite lookup_nil; done).
  - split; cbn; try done;
      first [by intros ? ?%not_elem_of_nil|by intros ? ?%not_elem_of_empty|constructor].
  - by intros ? ?%not_elem_of_nil.
  - intros c r [(? & ? & H & _)|[(? & ? & H & _)|(? & ? & H & _)]]; by rewrite ?lookup_empty, ?lookup_nil in H.
Qed.

Lemma world_inv_weaken extra extra' w : world_inv extra w → (∀ c, extra c → extra' c) → world_inv extra' w.
Proof.
  intros [H1 H2 H3 H4 H5 H6 H7 H8 H9 H10 H11 H12 H13] He. split; try done.
  intros c cell Hc Hn. destruct (H10 _ _ Hc Hn); auto.
Qed.

Lemma watch_inv extra r w : world_inv extra w → accepting (sw_state w) = false →
  (r = Err WorkerFailed ∨ r = Ok tt ∧ sw_workers w = ∅) → world_inv extra (complete_watch r w).
Proof.
  intros [H1 H2 H3 H4 H5 H6 H7 H8 H9 H10 H11 H12 H13] Ha Hr. split; try done.
  - intros k call Hk. specialize (H12 _ _ Hk). unfold call_ok in *. cbn. destruct call as [| | | |r']; try done.
    + by destruct (sw_completion w).
    + by rewrite H12.
  - cbn. intros r'. destruct (sw_completion w) eqn:E; [intros [= <-]; by apply H13|by intros [= <-]].
Qed.

Lemma close_inv extra w : world_inv extra w → world_inv extra (close_tasks w).
Proof.
  intros [H1 H2 H3 H4 H5 H6 H7 H8 H9 H10 H11 H12 H13]. split; try done.
  intros k call Hk. specialize (H12 _ _ Hk). unfold call_ok in *. cbn. by destruct call; naive_solver.
Qed.

(** The jobs a shutdown or a cancellation takes from the lock. *)
Lemma dequeue_inv id job s' w : sound w → remove_queued id (sw_state w) = Some (job, s') →
  world_inv (λ c, c = qj_completion job) (set_locked s' w) ∧ busy s' ∧ qj_id job = id ∧ job ∈ queued (sw_state w).
Proof.
  intros [H Hb] E. pose proof (remove_queued_spec id (sw_state w) (wi_state _ _ _ H)) as Hr. rewrite E in Hr.
  destruct Hr as (pq & hq & -> & Hid & Hp & Hwf & Sp & Sh). split; [|split; [by apply busy_shrink|]].
  - apply (locked_inv run none _ _ (sw_held w)); try done; cbn.
    + intros Ha. split; [done|]. by apply (wi_held _ _ _ H).
    + by left.
    + intros j Hj. left. rewrite Hp. by right.
    + intros j. rewrite Hp. intros [->|?]%elem_of_cons; [by right|by left].
    + congruence.
  - split; [done|]. rewrite Hp. by left.
Qed.

Lemma shutdown_inv w : sound w → let '(s', cs) := begin_shutdown (sw_state w) in
  world_inv (λ c, c ∈ cs) (set_locked s' w) ∧ busy s' ∧ accepting s' = false ∧
  ∀ c, c ∈ cs → is_Some (cell_work w c).
Proof.
  intros [H Hb]. pose proof (begin_shutdown_ok _ (wi_state _ _ _ H)) as Hwf. unfold begin_shutdown in *.
  destruct (accepting (sw_state w)) eqn:Ea.
  2: { split; [|split; [done|split; [done|by intros c ?%not_elem_of_nil]]]. eapply world_inv_weaken; [by destruct w|done]. }
  simpl in Hwf. split; [|split; [by split|split; [done|]]].
  - apply (locked_inv run none _ _ (sw_held w)); try done; cbn.
    + by intros j ?%not_elem_of_nil.
    + intros j Hj. right. unfold queued in Hj. rewrite app_assoc, <-fmap_app, elem_of_app. left. by apply list_elem_of_fmap_2.
    + intros id a _ _ Hi. rewrite !elem_of_app. right; right. apply list_elem_of_fmap_2.
      apply list_elem_of_fmap. exists (id, a). split; [done|]. by apply elem_of_map_to_list.
  - intros c. rewrite app_assoc, <-fmap_app, elem_of_app, !list_elem_of_fmap. intros [(j & -> & Hj)|(a & -> & Hi)].
    + rewrite (wi_queued _ _ _ H j Hj). by eexists.
    + apply list_elem_of_fmap in Hi as ([id a'] & -> & Hi%elem_of_map_to_list). by apply (wi_active _ _ _ H) in Hi as [? _].
Qed.

(** A request that takes back its job, or leaves it to its answer. *)
Lemma take_back_inv k aj c reason answer s' w rq :
  sound w → sw_requests w !! k = Some rq → rq_state rq = Waiting aj →
  (cancel_job (aj_id aj) (sw_state w) = (s', Some c) ∨ timeout_queued (aj_id aj) (sw_state w) = (s', Some c)) →
  (∀ open work, answer_ok run open work reason) → (∀ r, answer = Some r → ∀ open work, answer_ok run open work r) →
  sound (set_request k (Completing c reason answer) (set_locked s' w)).
Proof.
  intros Hs Hk Hw Hc Hreason Hans. pose proof Hs as [H Hb]. destruct (wi_requests _ _ _ H _ _ Hk) as (work & Hcell & Hok).
  unfold request_ok in Hok. rewrite Hw in Hok. destruct Hok as (E1 & E2 & E3 & E4 & E5).
  assert (∃ extra, world_inv extra (set_locked s' w) ∧ (∀ x, extra x → x = c) ∧ busy s' ∧ c = rq_completion rq) as (extra & H' & He & Hb' & ->).
  { unfold cancel_job, timeout_queued in Hc. destruct (remove_queued (aj_id aj) (sw_state w)) as [[job s1]|] eqn:Er.
    - destruct (dequeue_inv _ _ _ _ Hs Er) as (H1 & Hb1 & Hid & Hin). assert (s1 = s' ∧ qj_completion job = c) as [-> <-] by naive_solver.
      eexists. split; [exact H1|]. split; [done|]. split; [done|]. by apply E4.
    - destruct Hc as [Hc|]; [|done]. injection Hc as <- Hc. apply fmap_Some in Hc as (a & Ha & ->). exists none.
      split; [by destruct w|]. split; [done|]. split; [done|]. by apply E5. }
  split; [|exact Hb']. eapply set_request_inv; [exact H'|exact Hk| | | |].
  - intros work' _. split; [done|]. intros r Hr. by apply Hans.
  - rewrite Hw. by intros x r ?%not_elem_of_nil.
  - intros x r [= -> ->]%list_elem_of_singleton. right. by exists work.
  - intros x Hx. right. exists reason. apply list_elem_of_singleton. by rewrite (He _ Hx).
Qed.

(** The jobs a dispatch starts. *)
Lemma advance_inv jobs s' w : world_inv none w → state_wf s' → advance (sw_state w) jobs s' →
  world_inv none (spawn_workers jobs (set_locked s' w)).
Proof.
  intros H Hwf [A1 A2 A3 A4 A5 A6]. assert (∀ job, job ∈ jobs → job ∈ queued (sw_state w)) as Hin.
  { intros job Hj. rewrite A4. apply elem_of_app. by left. }
  apply (scheduler_start_inv run none none); try done; auto.
  - intros Ha. rewrite A3. by apply (wi_held _ _ _ H).
  - lia.
  - intros id. by rewrite A3.
  - intros job Hj. rewrite A4. apply elem_of_app. by right.
  - intros job. rewrite A4. apply elem_of_app.
  - intros job Hj%Hin. split; [by apply (wi_queued _ _ _ H)|]. split.
    { apply eq_None_not_Some. intros [x Hx]. destruct (wi_worker _ _ _ H _ _ Hx) as (_ & Hq & _).
      apply Hq. by apply list_elem_of_fmap_2. }
    split; [by apply (wf_queued _ (wi_state _ _ _ H))|]. intros k rq aj Hk Ha Hid.
    destruct (wi_requests _ _ _ H _ _ Hk) as (work & _ & Hok). unfold request_ok in Hok. rewrite Ha in Hok.
    by apply Hok.
  - intros Hne. destruct (accepting (sw_state w)) eqn:Ea; [done|]. destruct (wf_closed _ (wi_state _ _ _ H) Ea) as [_ Hq].
    destruct jobs as [|job jobs]; [done|]. specialize (Hin job ltac:(left)). rewrite Hq in Hin. by apply not_elem_of_nil in Hin.
Qed.

Definition step_ok w (r : option SchedulerWorld) : Prop :=
  match r with Some w' => sound w' | None => U64_MAX ≤ next_id (sw_state w) end.

Lemma set_locked_id held w : held = sw_held w → set_held held (set_locked (sw_state w) w) = w.
Proof. intros ->. by destruct w. Qed.

(** A submission of a reservation, taken from its holder. *)
Lemma submit_reserved_sound class work r held w : sound w →
  (accepting (sw_state w) = true → held = reservations (sw_state w) ∖ {[r]}) →
  step_ok w (submit_request class work (Some r) (set_held held w)).
Proof.
  intros [H Hb] Hheld. unfold submit_request, submit. cbn [sw_state set_held sw_completions].
  set (s := sw_state w) in *. pose proof (wi_state _ _ _ H) as Hwf. fold s in Hwf.
  assert (world_inv none (set_held held (set_locked (release_reservation r s) w))) as Hrel.
  { apply (locked_inv run none none); try done; [by apply release_wf|cbn..]; try by left.
    - intros Ha. split; [done|]. by apply Hheld.
    - intros id Hid. left. fold s. set_solver.
    - intros id a. fold s. congruence. }
  assert (busy (release_reservation r s)) as Hb1 by by destruct Hb; split.
  case_bool_decide as Hr; simpl; [|by split].
  destruct (accepting s) eqn:Ha; simpl; [|by split].
  assert (queue_occupancy (release_reservation r s) < MAX_QUEUED_GRAPH_ENCODING_JOBS) as Hocc.
  { pose proof (wf_occupancy _ Hwf) as Ho. unfold queue_occupancy in *. cbn.
    rewrite (union_difference_L {[r]} (reservations s)), size_union, size_singleton in Ho by set_solver. lia. }
  pose proof (admit_inv run class work r (release_reservation r s) held w H Hb (unused_reserved _ _ _ _ H Hr)
    (release_wf _ _ Hwf) Ha) as Hadmit. cbv zeta in Hadmit. fold s in Hadmit.
  destruct (wf_reserved _ Hwf _ Hr) as [_ Hle].
  specialize (Hadmit ltac:(unfold release_reservation, set_reservations; rewrite Ha; eauto) ltac:(done) Hle
    ltac:(cbn; set_solver) ltac:(cbn; set_solver) ltac:(by apply Hheld)).
  destruct (can_start _ _ && _).
  + destruct Hadmit as (E & Hi & Hb'). rewrite E. run_bind. by split.
  + destruct (Hadmit Hocc) as [Hi Hb']. simpl. by split.
Qed.

(** A submission of a new job. *)
Lemma submit_new_sound class work w : sound w → step_ok w (submit_request class work None (set_held (sw_held w) w)).
Proof.
  intros [H Hb]. pose proof (wi_held _ _ _ H) as Hheld. unfold submit_request, submit. cbn [sw_state set_held sw_completions].
  set (s := sw_state w) in *. pose proof (wi_state _ _ _ H) as Hwf. fold s in Hwf. set (held := sw_held w) in *.
  simpl. destruct (accepting s) eqn:Ha; simpl.
  2: { split; [|done]. apply (locked_inv run none none s held w); try done; auto; cbn; fold s; rewrite ?Ha; by auto. }
  destruct (decide (next_id s < U64_MAX)) as [Hlt|Hge].
  2: { unfold allocate_id, checked_add. rewrite decide_False by lia. cbn. fold s. lia. }
  destruct (allocate_id_ok s Hwf Hlt) as (s1 & E & Hwf1 & E1). rewrite E. run_bind.
  assert (world_inv none (set_held held (set_locked s1 w))) as Hall.
  { apply (locked_inv run none none); subst s1; try done; cbn; fold s; try (by auto); [lia|].
    intros id a. congruence. }
  assert (unused w (next_id s + 1)) as Hu by (eapply unused_new; [exact H|fold s; lia]).
  pose proof (admit_inv run class work (next_id s + 1) s1 held w H Hb Hu Hwf1 Ha) as Hadmit.
  cbv zeta in Hadmit. fold s in Hadmit. rewrite Ha in E1.
  specialize (Hadmit ltac:(eauto) ltac:(rewrite E1; simpl; lia) ltac:(rewrite E1; simpl; lia)).
  specialize (Hadmit ltac:(rewrite E1; simpl; intros Hid; apply (wf_reserved _ Hwf) in Hid as [_ ?]; lia)
    ltac:(by rewrite E1) ltac:(rewrite E1; by apply Hheld)).
  destruct (can_start _ _ && _).
  + destruct Hadmit as (E2 & Hi & Hb'). rewrite E2. run_bind. by split.
  + simpl. destruct (N.leb_spec MAX_QUEUED_GRAPH_ENCODING_JOBS (queue_occupancy s1)) as [Hfull|Hroom].
    * split; [done|]. cbn. subst s1. by destruct Hb; split.
    * destruct (Hadmit Hroom) as [Hi Hb']. by split.
Qed.

Lemma waiting_job_Some k w aj : waiting_job k w = Some aj ↔ ∃ rq, sw_requests w !! k = Some rq ∧ rq_state rq = Waiting aj.
Proof.
  unfold waiting_job. split.
  - intros (rq & Hk & Hw)%bind_Some. exists rq. by destruct (rq_state rq); simplify_eq.
  - intros (rq & -> & Hw). simpl. by rewrite Hw.
Qed.

(** A request that ends, or waits on, without the help of a completion. *)
Lemma request_settles k rq aj new w : sound w → sw_requests w !! k = Some rq → rq_state rq = Waiting aj →
  (new = Finished None ∨ (∃ t, new = Waiting (MkAdmittedJob (aj_id aj) (aj_result aj) t)) ∨
   ∃ r, new = Finished (Some r) ∧ ∀ work, cell_work w (rq_completion rq) = Some work →
     answer_ok run (accepting (sw_state w)) work r) →
  sound (set_request k new w).
Proof.
  intros [H Hb] Hk Hw Hnew. split; [|done]. destruct (wi_requests _ _ _ H _ _ Hk) as (work & Hc & Hok).
  unfold request_ok in Hok. rewrite Hw in Hok. eapply set_request_inv; [done|exact Hk| | | |by left].
  - intros work' Hc'. rewrite Hc in Hc'. injection Hc' as <-.
    destruct Hnew as [->|[[t ->]|(r & -> & Hr)]]; [done|exact Hok|]. intros r' [= <-]. by apply Hr.
  - rewrite Hw. by intros c r ?%not_elem_of_nil.
  - intros c r Hin. exfalso. destruct Hnew as [->|[[t ->]|(r' & -> & Hr)]]; by apply not_elem_of_nil in Hin.
Qed.

Lemma cancel_sound k aj answer w : sound w → waiting_job k w = Some aj →
  (∀ r, answer = Some r → r = Err EncodingCancelled) → sound (cancel_request k aj answer w).
Proof.
  intros Hs (rq & Hk & Hw)%waiting_job_Some Ha. unfold cancel_request.
  destruct (cancel_job (aj_id aj) (sw_state w)) as [s' [c|]] eqn:E.
  - eapply take_back_inv; [done..|by left|done|]. by intros r ->%Ha.
  - assert (s' = sw_state w) as ->.
    { unfold cancel_job in E. destruct (remove_queued _ _) as [[]|]; [done|]. by injection E. }
    assert (set_locked (sw_state w) w = w) as -> by by destruct w.
    eapply request_settles; [done..|]. destruct answer as [r|]; [|by left]. right; right. exists r. split; [done|].
    by rewrite (Ha r).
Qed.

Lemma request_step_sound ev w r : sound w → request_step ev w = Some r → step_ok w r.
Proof.
  intros Hs. destruct ev; cbn [request_step]; try done.
  - intros (aj & Hw & [= <-])%bind_Some. eapply cancel_sound; [done..|]. congruence.
  - intros (aj & Hw & [= <-])%bind_Some. by eapply cancel_sound.
  - intros (aj & (rq & Hk & Hw)%waiting_job_Some & H)%bind_Some. apply bind_Some in H as (_ & _ & H).
    destruct (timeout_queued (aj_id aj) (sw_state w)) as [s' [c|]] eqn:E; injection H as <-.
    + eapply take_back_inv; [done..|by right|done|]. by intros r [= <-].
    + assert (s' = sw_state w) as ->.
      { unfold timeout_queued in E. destruct (remove_queued _ _) as [[]|]; [done|]. by injection E. }
      assert (set_locked (sw_state w) w = w) as -> by by destruct w.
      eapply request_settles; [done..|]. right; left. by eexists.
  - intros (aj & (rq & Hk & Hw)%waiting_job_Some & H)%bind_Some. apply bind_Some in H as (cell & Hc & H).
    apply bind_Some in H as (a & Ha & [= <-]). eapply request_settles; [done..|]. right; right. exists a. split; [done|].
    intros work Hcell. destruct Hs as [H _]. destruct (wi_requests _ _ _ H _ _ Hk) as (work' & _ & Hok).
    unfold request_ok in Hok. rewrite Hw in Hok. destruct Hok as [E _]. unfold cell_work in Hcell.
    rewrite <-E, Hc in Hcell. injection Hcell as <-. by eapply (wi_answered _ _ _ H).
  - intros (rq & Hk & H)%bind_Some. destruct (rq_state rq) as [|c reason answer|] eqn:Hw; simplify_eq.
    destruct Hs as [H Hb]. split; [|done].
    destruct (deliver_inv run none w c reason H) as [H' Hcell].
    { right; left. exists k, rq. split; [done|]. rewrite Hw. by left. }
    destruct (wi_requests _ _ _ H _ _ Hk) as (work & Hc & Hok). unfold request_ok in Hok. rewrite Hw in Hok.
    eapply set_request_inv; [exact H'|exact Hk| | | |by left].
    + intros work' Hc'. rewrite cell_work_deliver, Hc in Hc'. injection Hc' as <-. exact (proj2 Hok).
    + rewrite Hw. intros c' r' [= -> ->]%list_elem_of_singleton. by right.
    + by intros c' r' ?%not_elem_of_nil.
Qed.

Lemma worker_step_sound ev w r : sound w → worker_step run ev w = Some r → step_ok w r.
Proof.
  intros Hs. pose proof Hs as [H Hb]. destruct ev as [| | | | | | | | |id failed|id|id| |]; cbn [worker_step]; try done.
  - intros (x & Hx & Hr)%bind_Some. destruct x as [job| | |]; simplify_eq.
    destruct (wi_executing _ _ _ H _ _ Hx) as (Hid & Ha & Hc). rewrite <-Hid in Hx, Ha.
    pose proof (scheduler_finish_inv run none w (qj_id job) job _ failed H Hx Ha) as H1. cbv zeta in H1.
    destruct (finish_job_ok (qj_id job) (if failed then Err MkBlockingExecutorError else Ok (run (qj_work job)))
      _ _ (wi_state _ _ _ H) Ha) as (s' & jobs & E & Hwf & Hb' & Had).
    rewrite E. run_bind. rewrite <-Hid. split; [|done]. by apply (advance_inv jobs s' _ H1).
  - intros (x & Hx & Hr)%bind_Some. destruct x as [job| | |]; simplify_eq. split; [|done].
    eapply set_worker_inv; [done|exact Hx|done|by right| | |by left].
    + by intros c r ?%not_elem_of_nil.
    + by intros x c r [= <-] ?%not_elem_of_nil.
  - intros (x & Hx & Hr)%bind_Some. destruct x as [job|c a| |[|c cs]]; simplify_eq.
    + destruct (deliver_inv run none w c a H) as [H1 Hcell]; [left; exists id, (Delivering c a); split; [done|by left]|].
      split; [|done]. eapply set_worker_inv; [exact H1|exact Hx|done|done| |done|by left].
      intros c' r' [= -> ->]%list_elem_of_singleton. by right.
    + pose proof (shutdown_inv w Hs) as Hsd. destruct (begin_shutdown (sw_state w)) as [s' cs]. injection Hr as <-.
      destruct Hsd as (H1 & Hb1 & Ha & Hcs). split; [|done].
      eapply set_worker_inv; [exact H1|exact Hx|done|by left| | |].
      * by intros c r ?%not_elem_of_nil.
      * intros x c r [= <-] (c' & [= -> ->] & Hc)%list_elem_of_fmap. right. destruct (Hcs _ Hc) as [work Hw].
        exists work. by split.
      * intros c Hc. right. eexists _, (Err ShuttingDown). split; [done|]. apply list_elem_of_fmap. by exists c.
    + split; [|done]. pose proof (wi_failing _ _ _ H _ _ Hx) as Ha.
      pose proof (watch_inv _ (Err WorkerFailed) _ (close_inv _ _ H) Ha ltac:(by left)) as H1.
      eapply set_worker_inv; [exact H1|exact Hx|done|done| |done|by left]. by intros c r ?%not_elem_of_nil.
    + destruct (deliver_inv run none w c (Err ShuttingDown) H) as [H1 Hcell].
      { left. exists id, (FailDelivering (c :: cs)). split; [done|by left]. }
      split; [|done]. eapply set_worker_inv; [exact H1|exact Hx|by eapply (wi_failing _ _ _ H)|done| | |by left].
      * intros c' r'. csimpl. intros [[= -> ->]|Hc]%elem_of_cons; [by right|]. left. by eexists.
      * intros x c' r' [= <-] Hc. left. left. exists id, (FailDelivering (c :: cs)). split; [done|]. csimpl. by right.
Qed.

Lemma shutdown_step_sound k w r : sound w → shutdown_step k w = Some r → step_ok w r.
Proof.
  intros Hs. pose proof Hs as [H Hb]. unfold shutdown_step. intros (call & Hk & Hr)%bind_Some.
  pose proof (wi_calls _ _ _ H _ _ Hk) as Hcall. destruct call as [|[|c cs]| | |]; simplify_eq.
  - pose proof (shutdown_inv w Hs) as Hsd. destruct (begin_shutdown (sw_state w)) as [s' cs]. injection Hr as <-.
    destruct Hsd as (H1 & Hb1 & Ha & Hcs). split; [|done].
    eapply set_shutdown_inv; [exact H1|exact Hk|done| | |].
    + by intros c r ?%not_elem_of_nil.
    + intros c r (c' & [= -> ->] & Hc)%list_elem_of_fmap. right. destruct (Hcs _ Hc) as [work Hw]. exists work.
      by split.
    + intros c Hc. right. exists (Err ShuttingDown). apply list_elem_of_fmap. by exists c.
  - split; [|done]. eapply set_shutdown_inv; [exact (close_inv _ _ H)|exact Hk|done| |by intros c r ?%not_elem_of_nil|by left].
    by intros c r ?%not_elem_of_nil.
  - destruct (deliver_inv run none w c (Err ShuttingDown) H) as [H1 Hcell].
    { right; right. exists k, (SdCompleting (c :: cs)). split; [done|by left]. }
    split; [|done]. eapply set_shutdown_inv; [exact H1|exact Hk|done| | |by left].
    + intros c' r'. csimpl. intros [[= -> ->]|Hc]%elem_of_cons; [by right|by left].
    + intros c' r' Hc. left. right; right. exists k, (SdCompleting (c :: cs)). split; [done|]. csimpl. by right.
  - apply bind_Some in Hr as ([] & [_ He]%assert_Some & [= <-]). destruct Hcall as [Ha _]. split; [|done].
    assert (world_inv none (complete_watch (Ok tt) w)) as H1 by (apply watch_inv; auto).
    eapply set_shutdown_inv; [exact H1|exact Hk| | |by intros c r ?%not_elem_of_nil|by left].
    + cbn. by destruct (sw_completion w).
    + by intros c r ?%not_elem_of_nil.
  - apply bind_Some in Hr as (x & Hx & [= <-]). split; [|done].
    eapply set_shutdown_inv; [exact H|exact Hk|done| |by intros c r ?%not_elem_of_nil|by left].
    by intros c r ?%not_elem_of_nil.
Qed.

Lemma reserve_wf id s : state_wf s → accepting s = true → queue_occupancy s < MAX_QUEUED_GRAPH_ENCODING_JOBS →
  active s !! id = None → id ∉ qj_id <$> queued s → id ∉ reservations s → id ≤ next_id s →
  state_wf (set_reservations (reservations s ∪ {[id]}) s).
Proof.
  intros [H1 H2 H3 H4 H5 H6 H7 H8 H9 H10 H11 H12 H13] Ho Hocc Ha Hq Hr Hle. split; cbn; try done.
  - unfold queue_occupancy in *. cbn. rewrite size_union, size_singleton by set_solver.
    unfold MAX_QUEUED_GRAPH_ENCODING_JOBS in *. lia.
  - intros j Hj. destruct (H9 _ Hj) as (? & ? & ?). split_and!; [done| |done]. apply not_elem_of_union.
    split; [done|]. rewrite elem_of_singleton. intros E. apply Hq. rewrite <-E. by apply list_elem_of_fmap_2.
  - intros i [Hi| ->%elem_of_singleton]%elem_of_union; [by apply H10|done].
  - congruence.
Qed.

Lemma reserve_sound w : sound w → step_ok w (
  '(s, r) ← reserve_historical (sw_state w);
  Some (set_held (match r with Ok id => sw_held w ∪ {[id]} | Err _ => sw_held w end) (set_locked s w))).
Proof.
  intros Hs. pose proof Hs as [H Hb]. pose proof (wi_state _ _ _ H) as Hwf. unfold reserve_historical.
  destruct (accepting (sw_state w)) eqn:Ha; simpl; [|by rewrite set_locked_id].
  case_decide as Hocc; simpl; [by rewrite set_locked_id|].
  destruct (decide (next_id (sw_state w) < U64_MAX)) as [Hlt|Hge].
  2: { unfold allocate_id, checked_add. rewrite decide_False by lia. simpl. lia. }
  destruct (allocate_id_ok _ Hwf Hlt) as (s1 & E & Hwf1 & ->). rewrite E. run_bind. cbn.
  assert (unused w (next_id (sw_state w) + 1)) as [U1 U2 U3 U4] by (eapply unused_new; [exact H|lia]).
  assert (next_id (sw_state w) + 1 ∉ reservations (sw_state w)) as Hnew by (intros [_ ?]%(wf_reserved _ Hwf); lia).
  rewrite assert_true by done. cbn. split; [|by destruct Hb; split].
  apply (locked_inv run none none); try done; cbn; try by auto.
  - apply (reserve_wf _ _ Hwf1); cbn; try done; unfold queue_occupancy in *; cbn in *; lia.
  - intros _. split; [done|]. by rewrite (wi_held _ _ _ H Ha).
  - lia.
  - intros id [?| ->%elem_of_singleton]%elem_of_union; [by left|right; lia].
  - intros id a. congruence.
Qed.

Lemma step_sound ev w r : sound w → scheduler_step run ev w = Some r → step_ok w r.
Proof.
  intros Hs. pose proof Hs as [H Hb]. pose proof (wi_state _ _ _ H) as Hwf.
  destruct ev as [|id|work|id work|k|k|k|k|k|id failed|id|id| |k]; cbn [scheduler_step].
  5-12: intros Hr; first [exact (request_step_sound _ _ _ Hs Hr)|exact (worker_step_sound _ _ _ Hs Hr)].
  - intros [= <-]. by apply reserve_sound.
  - intros (_ & _ & [= <-])%bind_Some. split; [|by destruct Hb; split].
    apply (locked_inv run none none); try done; cbn; try (by auto); [by apply release_wf| | |].
    + intros Ha. by rewrite (wi_held _ _ _ H Ha).
    + intros i. set_solver.
    + intros i a. congruence.
  - intros [= <-]. pose proof (submit_new_sound Priority work w Hs) as Hsub.
    assert (set_held (sw_held w) w = w) as E by by destruct w. by rewrite E in Hsub.
  - intros (_ & _ & [= <-])%bind_Some. apply submit_reserved_sound; [done|]. intros Ha. by rewrite (wi_held _ _ _ H Ha).
  - intros [= <-]. split; [|done]. destruct H as [H1 H2 H3 H4 H5 H6 H7 H8 H9 H10 H11 H12 H13]. split; try done.
    + intros c r [?|[?|(k & call & Hk & Hc)]]; [apply H8; by left|apply H8; by right; left|]. simpl in Hk.
      apply lookup_app_Some in Hk as [Hk|[_ Hk]]; [apply H8; right; right; by exists k, call|].
      apply list_lookup_singleton_Some in Hk as [_ <-]. by apply not_elem_of_nil in Hc.
    + intros c cell Hc Hn. destruct (H10 _ _ Hc Hn) as [?|[[r Hr]|?]]; [by left| |by right; right]. right; left. exists r.
      destruct Hr as [?|[?|(k & call & Hk & Hc')]]; [by left|by right; left|]. right; right. exists k, call. split; [|done].
      simpl. by rewrite lookup_app_l by by eapply lookup_lt_Some.
    + cbn. intros k call [Hk|[_ Hk]]%lookup_app_Some; [by eapply H12|]. by apply list_lookup_singleton_Some in Hk as [_ <-].
  - intros Hr. by eapply shutdown_step_sound.
Qed.

Lemma reachable_sound w : scheduler_reachable run w → sound w.
Proof. induction 1 as [|ev w w' _ IH E]; [apply sound_new|]. exact (step_sound _ _ _ IH E). Qed.

(** * Nothing waits forever

    The events in which the scheduler, its executor or a request goes on by
    itself; the others are new calls and the ends of their callers' patience. *)
Definition internal (ev : SchedulerEvent) : bool :=
  match ev with
  | ResultReady _ | RequestCompletes _ | ExecutorReturns _ _ | ExecutorPanics _ | WorkerRuns _ | ShutdownRuns _ => true
  | _ => false
  end.

Definition worker_weight (x : @EncodingWorker Work) : nat :=
  match x with Executing _ => 12 | Delivering _ _ => 1 | FailShutdown => 10 | FailDelivering cs => 1 + length cs end.
Definition request_weight (rq : Request) : nat := match rq_state rq with Finished _ => 0 | _ => 1 end.
Definition shutdown_weight (call : ShutdownCall) : nat :=
  match call with SdBegin => 10 | SdCompleting cs => 4 + length cs | SdJoining => 3 | SdWatching => 2 | SdDone _ => 0 end.
Definition workers_weight (m : gmap N (@EncodingWorker Work)) : nat :=
  sum_list_with (λ p, worker_weight p.2) (map_to_list m).
Definition measure w : nat :=
  13 * length (queued (sw_state w)) + workers_weight (sw_workers w) +
  sum_list_with request_weight (sw_requests w) + sum_list_with shutdown_weight (sw_shutdowns w).

Lemma workers_weight_insert m id x : m !! id = None → workers_weight (<[id := x]> m) = (worker_weight x + workers_weight m)%nat.
Proof. intros Hm. unfold workers_weight. by rewrite map_to_list_insert. Qed.
Lemma workers_weight_set m id old new : m !! id = Some old →
  (workers_weight (partial_alter (λ _, new) id m) + worker_weight old =
   workers_weight m + from_option worker_weight 0 new)%nat.
Proof.
  intros Hm. assert (delete id m !! id = None) as Hd by apply lookup_delete_eq.
  assert (workers_weight m = worker_weight old + workers_weight (delete id m))%nat as ->.
  { rewrite <-(workers_weight_insert _ id) by done. by rewrite insert_delete_id. }
  assert (workers_weight (partial_alter (λ _, new) id m) = from_option worker_weight 0 new + workers_weight (delete id m))%nat as ->.
  { destruct new as [x|]; [|done]. simpl. rewrite <-(workers_weight_insert _ id) by done. f_equal.
    by rewrite insert_delete_eq. }
  lia.
Qed.
Lemma workers_weight_spawn jobs (m : gmap N (@EncodingWorker Work)) : NoDup (qj_id <$> jobs) →
  (∀ job, job ∈ jobs → m !! qj_id job = None) →
  workers_weight (insert_jobs Executing jobs m) = (workers_weight m + 12 * length jobs)%nat.
Proof.
  unfold insert_jobs. revert m. induction jobs as [|job jobs IH]; intros m Hnd Hf; simpl; [lia|].
  csimpl in Hnd. apply NoDup_cons in Hnd as [Hnew Hnd]. rewrite IH; [|done|].
  - rewrite workers_weight_insert by (apply Hf; by left). simpl. lia.
  - intros j Hj. rewrite lookup_insert_ne; [apply Hf; by right|]. intros E. apply Hnew. rewrite E. by apply list_elem_of_fmap_2.
Qed.
Lemma sum_weight_insert {A} (f : A → nat) l k old new : l !! k = Some old →
  (sum_list_with f (<[k := new]> l) + f old = sum_list_with f l + f new)%nat.
Proof.
  revert k. induction l as [|x l IH]; intros [|k] Hk; simplify_eq/=; [lia|]. specialize (IH _ Hk). lia.
Qed.
Lemma weight_request k rq new w : sw_requests w !! k = Some rq →
  (sum_list_with request_weight (sw_requests (set_request k new w)) + request_weight rq =
   sum_list_with request_weight (sw_requests w) + request_weight (MkRequest (rq_completion rq) new))%nat.
Proof.
  intros Hk. simpl. rewrite <-(sum_weight_insert request_weight _ _ _ _ Hk). f_equal. f_equal.
  apply list_eq. intros i. destruct (decide (i = k)) as [->|Hne].
  - rewrite list_lookup_alter_eq, list_lookup_insert_eq by by eapply lookup_lt_Some. by rewrite Hk.
  - by rewrite list_lookup_alter_ne, list_lookup_insert_ne.
Qed.

Lemma shutdown_weighs w : sound w →
  (length (queued (begin_shutdown (sw_state w)).1) + length (begin_shutdown (sw_state w)).2 ≤ length (queued (sw_state w)) + 4 ∧
   length (queued (begin_shutdown (sw_state w)).1) ≤ length (queued (sw_state w)))%nat.
Proof.
  intros [H _]. pose proof (wi_state _ _ _ H) as Hwf. unfold begin_shutdown. destruct (accepting (sw_state w)); simpl; [|lia].
  rewrite !length_app, !length_fmap, length_map_to_list. unfold queued. rewrite length_app.
  pose proof (wf_total _ Hwf). pose proof (wf_max _ Hwf). unfold MAX_GRAPH_ENCODING_JOBS in *. lia.
Qed.

Lemma measure_decreases ev w w' : sound w → internal ev = true → scheduler_step run ev w = Some (Some w') →
  (measure w' < measure w)%nat.
Proof.
  intros Hs Hi. pose proof Hs as [H Hb]. unfold measure.
  destruct ev as [|id|work|id work|k|k|k|k|k|id failed|id|id| |k]; try done; cbn [scheduler_step request_step worker_step].
  - intros (aj & (rq & Hk & Hw)%waiting_job_Some & E)%bind_Some. apply bind_Some in E as (cell & _ & E).
    apply bind_Some in E as (a & _ & [= <-]). pose proof (weight_request k rq (Finished (Some a)) w Hk) as Hwt.
    unfold request_weight at 2 4 in Hwt. rewrite Hw in Hwt. simpl in *. lia.
  - intros (rq & Hk & E)%bind_Some. destruct (rq_state rq) as [|c reason answer|] eqn:Hw; simplify_eq.
    pose proof (weight_request k rq (Finished answer) w Hk) as Hwt.
    unfold request_weight at 2 4 in Hwt. rewrite Hw in Hwt. simpl in *. lia.
  - intros (x & Hx & Hr)%bind_Some. destruct x as [job| | |]; simplify_eq.
    destruct (wi_executing _ _ _ H _ _ Hx) as (Hid & Ha & Hc). subst id.
    destruct (finish_job_ok (qj_id job) (if failed then Err MkBlockingExecutorError else Ok (run (qj_work job)))
      _ _ (wi_state _ _ _ H) Ha) as (s' & jobs & E & Hwf & Hb' & [A1 A2 A3 A4 A5 A6]).
    rewrite E in Hr. simplify_eq/=. change (queued (removed _ _ _)) with (queued (sw_state w)) in A4.
    rewrite A4, length_app.
    pose proof (workers_weight_set _ _ _ (Some (Delivering (qj_completion job) (terminal_answer (accepting (sw_state w))
      (if failed then Err MkBlockingExecutorError else Ok (run (qj_work job)))))) Hx) as Hwt.
    fold (insert_jobs Executing jobs (partial_alter (λ _, Some (Delivering (qj_completion job)
      (terminal_answer (accepting (sw_state w)) (if failed then Err MkBlockingExecutorError else Ok (run (qj_work job)))))) (qj_id job) (sw_workers w))).
    rewrite workers_weight_spawn; [simpl in *; lia|done|].
    intros j Hj. rewrite lookup_partial_alter_ne; [apply eq_None_not_Some; intros [x Hx']; destruct (wi_worker _ _ _ H _ _ Hx') as (_ & Hq & _)|].
    + apply Hq, list_elem_of_fmap_2. rewrite A4. apply elem_of_app. by left.
    + intros E'. destruct (wi_worker _ _ _ H _ _ Hx) as (_ & Hq & _). apply Hq. rewrite E'.
      apply list_elem_of_fmap_2. rewrite A4. apply elem_of_app. by left.
  - intros (x & Hx & Hr)%bind_Some. destruct x as [job| | |]; simplify_eq. simpl.
    pose proof (workers_weight_set _ _ _ (Some FailShutdown) Hx) as Hwt. simpl in Hwt. lia.
  - intros (x & Hx & Hr)%bind_Some. destruct x as [job|c a| |[|c cs]]; simplify_eq.
    + pose proof (workers_weight_set _ _ _ None Hx) as Hwt. simpl in *. lia.
    + pose proof (shutdown_weighs w Hs) as Hsd. destruct (begin_shutdown (sw_state w)) as [s' cs]. injection Hr as <-.
      pose proof (workers_weight_set _ _ _ (Some (FailDelivering cs)) Hx) as Hwt. simpl in *. lia.
    + pose proof (workers_weight_set _ _ _ None Hx) as Hwt. simpl in *. lia.
    + pose proof (workers_weight_set _ _ _ (Some (FailDelivering cs)) Hx) as Hwt. simpl in *. lia.
  - unfold shutdown_step. intros (call & Hk & Hr)%bind_Some. destruct call as [|[|c cs]| | |]; simplify_eq.
    + pose proof (shutdown_weighs w Hs) as Hsd. destruct (begin_shutdown (sw_state w)) as [s' cs]. injection Hr as <-.
      pose proof (sum_weight_insert shutdown_weight _ _ _ (SdCompleting cs) Hk) as Hwt. simpl in *. lia.
    + pose proof (sum_weight_insert shutdown_weight _ _ _ SdJoining Hk) as Hwt. simpl in *. lia.
    + pose proof (sum_weight_insert shutdown_weight _ _ _ (SdCompleting cs) Hk) as Hwt. simpl in *. lia.
    + apply bind_Some in Hr as (_ & _ & [= <-]).
      pose proof (sum_weight_insert shutdown_weight _ _ _ SdWatching Hk) as Hwt. simpl in *. lia.
    + apply bind_Some in Hr as (r & _ & [= <-]).
      pose proof (sum_weight_insert shutdown_weight _ _ _ (SdDone r) Hk) as Hwt. simpl in *. lia.
Qed.

(** With no such event left, everything is settled. *)
Lemma quiescent_settled w : sound w → (∀ ev, internal ev = true → scheduler_step run ev w = None) →
  sw_workers w = ∅ ∧ queued (sw_state w) = [] ∧
  (∀ k rq, sw_requests w !! k = Some rq → ∃ answer, rq_state rq = Finished answer) ∧
  (∀ k call, sw_shutdowns w !! k = Some call → ∃ r, call = SdDone r).
Proof.
  intros [H Hb] Hq. assert (sw_workers w = ∅) as Hworkers.
  { apply map_empty. intros id. apply eq_None_not_Some. intros [x Hx].
    destruct x as [job|c a| |[|c cs]].
    - specialize (Hq (ExecutorPanics id) eq_refl). simpl in Hq. by rewrite Hx in Hq.
    - specialize (Hq (WorkerRuns id) eq_refl). simpl in Hq. by rewrite Hx in Hq.
    - specialize (Hq (WorkerRuns id) eq_refl). simpl in Hq. rewrite Hx in Hq. simpl in Hq. by destruct (begin_shutdown _).
    - specialize (Hq (WorkerRuns id) eq_refl). simpl in Hq. by rewrite Hx in Hq.
    - specialize (Hq (WorkerRuns id) eq_refl). simpl in Hq. by rewrite Hx in Hq. }
  assert (accepting (sw_state w) = true → active (sw_state w) = ∅) as Hactive.
  { intros Ha. apply map_empty. intros id. apply eq_None_not_Some. intros [a Hi].
    destruct (wi_active _ _ _ H _ _ Hi) as [_ [?|[Hx|[job Hx]]]]; [congruence|by rewrite Hworkers, lookup_empty in Hx..]. }
  pose proof (wi_state _ _ _ H) as Hwf.
  assert (queued (sw_state w) = []) as Hqueued.
  { destruct (accepting (sw_state w)) eqn:Ha; [|by apply (wf_closed _ Hwf)]. specialize (Hactive eq_refl).
    pose proof (wf_total _ Hwf) as Ht. pose proof (wf_historical _ Hwf) as Hh. unfold count_historical in Hh.
    rewrite Hactive in Ht, Hh. rewrite map_filter_empty in Hh. rewrite map_size_empty in *. destruct Hb as [Bp Bh].
    unfold queued. destruct (priority_queue (sw_state w)); [|specialize (Bp ltac:(done)); unfold MAX_GRAPH_ENCODING_JOBS in *; lia].
    destruct (historical_queue (sw_state w)); [done|]. specialize (Bh ltac:(done)).
    unfold MAX_GRAPH_ENCODING_JOBS, MAX_HISTORICAL_ENCODING_JOBS in *. lia. }
  assert (∀ k call, sw_shutdowns w !! k = Some call → ∃ r, call = SdDone r) as Hcalls.
  { intros k call Hk. specialize (Hq (ShutdownRuns k) eq_refl). simpl in Hq. unfold shutdown_step in Hq. rewrite Hk in Hq.
    pose proof (wi_calls _ _ _ H _ _ Hk) as Hok. destruct call as [|[|c cs]| | |r]; simpl in *; try done; [| | |by exists r].
    - by destruct (begin_shutdown _).
    - rewrite assert_true in Hq; [done|]. by destruct Hok.
    - destruct Hok as [r Hr]. by rewrite Hr in Hq. }
  split; [done|]. split; [done|]. split; [|done]. intros k rq Hk.
  destruct (wi_requests _ _ _ H _ _ Hk) as (work & Hc & Hok). unfold request_ok in Hok.
  destruct (rq_state rq) as [aj|c reason answer|answer] eqn:Hw; [exfalso|exfalso|by exists answer].
  - destruct Hok as [Er _]. unfold cell_work in Hc. apply fmap_Some in Hc as (cell & Hc & _).
    destruct (jc_answer cell) as [a|] eqn:Ea.
    { specialize (Hq (ResultReady k) eq_refl). simpl in Hq.
      assert (waiting_job k w = Some aj) as Haj by (apply waiting_job_Some; by exists rq).
      rewrite Haj in Hq. simpl in Hq. rewrite Er, Hc in Hq. simpl in Hq. by rewrite Ea in Hq. }
    destruct (wi_unanswered _ _ _ H _ _ Hc Ea) as [[]|[[r Ho]|(Ha & Hh)]].
    + destruct Ho as [(id & x & Hx & _)|[(k' & rq' & Hk' & Ho)|(k' & call & Hk' & Ho)]].
      * by rewrite Hworkers, lookup_empty in Hx.
      * specialize (Hq (RequestCompletes k') eq_refl). simpl in Hq. rewrite Hk' in Hq. simpl in Hq.
        destruct (rq_state rq'); [by apply not_elem_of_nil in Ho|done|by apply not_elem_of_nil in Ho].
      * destruct (Hcalls _ _ Hk') as [r' ->]. by apply not_elem_of_nil in Ho.
    + destruct Hh as [(job & Hj & _)|(id & a & Hi & _)]; [by rewrite Hqueued in Hj; apply not_elem_of_nil in Hj|].
      by rewrite Hactive, lookup_empty in Hi.
  - specialize (Hq (RequestCompletes k) eq_refl). simpl in Hq. rewrite Hk in Hq. simpl in Hq. by rewrite Hw in Hq.
Qed.

Lemma internal_no_panic ev w : sound w → internal ev = true → scheduler_step run ev w ≠ Some None.
Proof.
  intros [H Hb] Hi. destruct ev as [|id|work|id work|k|k|k|k|k|id failed|id|id| |k]; try done;
    cbn [scheduler_step request_step worker_step].
  - intros (aj & _ & E)%bind_Some. apply bind_Some in E as (cell & _ & E). by apply bind_Some in E as (a & _ & E).
  - intros (rq & _ & E)%bind_Some. by destruct (rq_state rq).
  - intros (x & Hx & Hr)%bind_Some. destruct x as [job| | |]; try done.
    destruct (wi_executing _ _ _ H _ _ Hx) as (Hid & Ha & Hc). subst id.
    destruct (finish_job_ok (qj_id job) (if failed then Err MkBlockingExecutorError else Ok (run (qj_work job)))
      _ _ (wi_state _ _ _ H) Ha) as (s' & jobs & E & _). by rewrite E in Hr.
  - intros (x & _ & E)%bind_Some. by destruct x.
  - intros (x & _ & E)%bind_Some. destruct x as [job|c a| |[|c cs]]; try done. by destruct (begin_shutdown _).
  - unfold shutdown_step. intros (call & _ & E)%bind_Some. destruct call as [|[|c cs]| | |]; try done.
    + by destruct (begin_shutdown _).
    + apply bind_Some in E as (? & _ & E). done.
    + apply bind_Some in E as (? & _ & E). done.
Qed.





(** * The properties *)

Definition is_executing (p : N * @EncodingWorker Work) : bool := match p.2 with Executing _ => true | _ => false end.
Definition executes_historical (p : N * @EncodingWorker Work) : bool :=
  match p.2 with Executing job => bool_decide (qj_class job = Historical) | _ => false end.

(** C30: the bounds of the scheduler.  In every reachable state at most four jobs
    execute, two of them historical, and at most thirty-two wait or are
    reserved; a job waits only while every place it could take is taken; and no
    step panics while identifiers are left. *)
Theorem scheduler_bounded w : scheduler_reachable run w →
  N.of_nat (size (filter (λ p, is_executing p = true) (sw_workers w))) ≤ MAX_GRAPH_ENCODING_JOBS ∧
  N.of_nat (size (filter (λ p, executes_historical p = true) (sw_workers w))) ≤ MAX_HISTORICAL_ENCODING_JOBS ∧
  queue_occupancy (sw_state w) ≤ MAX_QUEUED_GRAPH_ENCODING_JOBS ∧
  (priority_queue (sw_state w) ≠ [] → N.of_nat (size (active (sw_state w))) = MAX_GRAPH_ENCODING_JOBS) ∧
  (historical_queue (sw_state w) ≠ [] → N.of_nat (size (active (sw_state w))) = MAX_GRAPH_ENCODING_JOBS ∨
     count_historical (active (sw_state w)) = MAX_HISTORICAL_ENCODING_JOBS) ∧
  (next_id (sw_state w) < U64_MAX → ∀ ev, scheduler_step run ev w ≠ Some None).
Proof.
  intros Hr. pose proof (reachable_sound w Hr) as Hs. pose proof Hs as [H [Bp Bh]]. pose proof (wi_state _ _ _ H) as Hwf.
  rewrite <-(wf_total _ Hwf), <-(wf_historical _ Hwf).
  assert (∀ (P : N * ActiveJob → Prop) (Q : N * EncodingWorker → Prop) `{∀ p, Decision (P p), ∀ p, Decision (Q p)},
    (∀ id x, sw_workers w !! id = Some x → Q (id, x) → ∃ a, active (sw_state w) !! id = Some a ∧ P (id, a)) →
    (size (filter Q (sw_workers w)) ≤ size (filter P (active (sw_state w))))%nat) as Hsize.
  { intros P Q HP HQ Hin. rewrite <-!size_dom. apply subseteq_size. intros id (x & [Hx Hq]%map_lookup_filter_Some)%elem_of_dom.
    destruct (Hin _ _ Hx Hq) as (a & Ha & Hp). apply elem_of_dom. exists a. by apply map_lookup_filter_Some. }
  split; [|split; [|split; [apply (wf_occupancy _ Hwf)|split; [done|split; [done|]]]]].
  - pose proof (wf_max _ Hwf) as Hm. rewrite (wf_total _ Hwf) in Hm. etrans; [|exact Hm].
    assert (size (filter (λ p, is_executing p = true) (sw_workers w)) ≤ size (filter (λ _, True) (active (sw_state w))))%nat as Hle.
    { apply Hsize. intros id x Hx Hq. destruct x as [job| | |]; try done. exists (active_of job). by apply (wi_executing _ _ _ H) in Hx as (_ & ? & _). }
    rewrite (map_filter_id (λ _, True)) in Hle by done. lia.
  - pose proof (wf_historical_max _ Hwf) as Hm. rewrite (wf_historical _ Hwf) in Hm. unfold count_historical in Hm.
    assert (size (filter (λ p, executes_historical p = true) (sw_workers w)) ≤
      size (filter (λ p, ac_class p.2 = Historical) (active (sw_state w))))%nat; [|lia].
    apply Hsize. intros id x Hx Hq. destruct x as [job| | |]; try done. exists (active_of job).
    apply bool_decide_eq_true in Hq. by apply (wi_executing _ _ _ H) in Hx as (_ & ? & _).
  - intros Hlt ev E. pose proof (step_sound _ _ _ Hs E) as Hp. simpl in Hp. lia.
Qed.


(** C32: everything is answered.  From every reachable state, whatever the executor
    does with the jobs, each step the scheduler or a request takes by itself
    lowers a measure and none panics, so they come to an end; and where no such
    step is left no job is queued or executing, every request has its answer and
    every shutdown has returned.  A shutdown that returned left nothing queued;
    it succeeds only when no worker is left. *)
Theorem scheduler_drains w : scheduler_reachable run w →
  (∀ ev, internal ev = true → scheduler_step run ev w ≠ Some None) ∧
  (∀ ev w', internal ev = true → scheduler_step run ev w = Some (Some w') → (measure w' < measure w)%nat) ∧
  ((∀ ev, internal ev = true → scheduler_step run ev w = None) →
    sw_workers w = ∅ ∧ queued (sw_state w) = [] ∧
    (∀ k rq, sw_requests w !! k = Some rq → ∃ answer, rq_state rq = Finished answer) ∧
    (∀ k call, sw_shutdowns w !! k = Some call → ∃ r, call = SdDone r)) ∧
  (∀ k r, sw_shutdowns w !! k = Some (SdDone r) → accepting (sw_state w) = false ∧ queued (sw_state w) = [] ∧
    (r = Err WorkerFailed ∨ r = Ok tt ∧ sw_workers w = ∅)).
Proof.
  intros Hr. pose proof (reachable_sound w Hr) as Hs. split; [intros ev; by apply internal_no_panic|].
  split; [intros ev w'; by apply measure_decreases|]. split; [by apply quiescent_settled|]. intros k r Hk.
  destruct Hs as [H _]. pose proof (wi_calls _ _ _ H _ _ Hk) as Hc. simpl in Hc.
  destruct (wi_completed _ _ _ H _ Hc) as [Ha Hw]. split; [done|]. split; [|done].
  by apply (wf_closed _ (wi_state _ _ _ H)).
Qed.
End steps.

(** * Concrete runs *)

(** Work that compresses to the number it is given, unless that is zero. *)
Definition demo_work (n : N) : Result EncodedGraphBody GraphEncodingError :=
  if decide (n = 0) then Err Compression else Ok (MkEncodedGraphBody n [n]).

Fixpoint scheduler_runs (evs : list (@SchedulerEvent N)) (w : @SchedulerWorld N) : option (@SchedulerWorld N) :=
  match evs with
  | [] => Some w
  | ev :: evs => match scheduler_step demo_work ev w with Some (Some w) => scheduler_runs evs w | _ => None end
  end.

Lemma scheduler_runs_reachable evs w w' :
  scheduler_reachable demo_work w → scheduler_runs evs w = Some w' → scheduler_reachable demo_work w'.
Proof.
  revert w. induction evs as [|ev evs IH]; intros w Hr; simpl; [by intros [= <-]|].
  destruct (scheduler_step demo_work ev w) as [[w1|]|] eqn:E; [|done..]. apply IH. by eapply scheduler_next.
Qed.

(** Four priority jobs execute, a fifth and a historical one wait; the first
    returns its body, and the fifth starts before the historical one. *)
Definition busy_events : list (@SchedulerEvent N) :=
  [ ReserveHistorical; EncodePriority 1; EncodePriority 2; EncodePriority 3; EncodePriority 4; EncodePriority 5;
    EncodeReserved 1 6; ExecutorReturns 2 false; WorkerRuns 2; ResultReady 0 ].
Definition demo_busy : @SchedulerWorld N := default SchedulerWorld_new (scheduler_runs busy_events SchedulerWorld_new).

(** Then a shutdown while a worker panics. *)
Definition drain_events : list (@SchedulerEvent N) :=
  [ CancelRequest 5; RequestCompletes 5; ExecutorPanics 3; ShutdownCalled; ShutdownRuns 0; WorkerRuns 3; WorkerRuns 3 ] ++
  replicate 5 (ShutdownRuns 0) ++
  [ ExecutorReturns 4 false; ExecutorReturns 5 true; ExecutorReturns 6 false; WorkerRuns 4; WorkerRuns 5; WorkerRuns 6;
    ShutdownRuns 0; ShutdownRuns 0; ResultReady 1; ResultReady 2; ResultReady 3; ResultReady 4 ].
Definition demo_drained : @SchedulerWorld N := default SchedulerWorld_new (scheduler_runs drain_events demo_busy).

Lemma demo_busy_reachable : scheduler_reachable demo_work demo_busy.
Proof.
  unfold demo_busy. destruct (scheduler_runs busy_events SchedulerWorld_new) as [w|] eqn:E; [|constructor].
  eapply scheduler_runs_reachable; [constructor|exact E].
Qed.
Lemma demo_drained_reachable : scheduler_reachable demo_work demo_drained.
Proof.
  unfold demo_drained. destruct (scheduler_runs drain_events demo_busy) as [w|] eqn:E; [|constructor].
  eapply scheduler_runs_reachable; [apply demo_busy_reachable|exact E].
Qed.

(** Four jobs execute, the historical one waits. *)
Example demo_busy_full :
  (size (active (sw_state demo_busy)), length (priority_queue (sw_state demo_busy)),
   length (historical_queue (sw_state demo_busy))) = (4%nat, 0%nat, 1%nat).
Proof. by vm_compute. Qed.

Lemma scheduler_bounded_witness :
  N.of_nat (size (filter (λ p, is_executing p = true) (sw_workers demo_busy))) ≤ MAX_GRAPH_ENCODING_JOBS ∧
  N.of_nat (size (filter (λ p, executes_historical p = true) (sw_workers demo_busy))) ≤ MAX_HISTORICAL_ENCODING_JOBS ∧
  queue_occupancy (sw_state demo_busy) ≤ MAX_QUEUED_GRAPH_ENCODING_JOBS ∧
  (historical_queue (sw_state demo_busy) ≠ [] →
     N.of_nat (size (active (sw_state demo_busy))) = MAX_GRAPH_ENCODING_JOBS ∨
     count_historical (active (sw_state demo_busy)) = MAX_HISTORICAL_ENCODING_JOBS) ∧
  ∀ ev, scheduler_step demo_work ev demo_busy ≠ Some None.
Proof.
  destruct (scheduler_bounded demo_work demo_busy demo_busy_reachable) as (H1 & H2 & H3 & _ & H5 & H6).
  split_and!; try done. apply H6. by vm_compute.
Defined.


Lemma scheduler_drains_witness :
  (∀ ev w', internal ev = true → scheduler_step demo_work ev demo_busy = Some (Some w') →
     (measure w' < measure demo_busy)%nat) ∧
  accepting (sw_state demo_drained) = false ∧ queued (sw_state demo_drained) = [].
Proof.
  split; [apply (scheduler_drains demo_work demo_busy demo_busy_reachable)|].
  destruct (scheduler_drains demo_work demo_drained demo_drained_reachable) as (_ & _ & _ & H).
  destruct (H 0%nat (Err WorkerFailed)) as (Ha & Hq & _); [by vm_compute|]. by split.
Defined.
