(* ===== verification/IngressTheorems.v ===== *)
(** Properties of the graph-update ingress and of the instrumented bounded
    channel of [kgi-core], for every interleaving of senders with receivers. *)

From S2P Require Import Prelude Ingress IngressSafety Channel Model.

Section channel_properties.
#[local] Open Scope N_scope.

Section ChannelTheorems.
Context {A Chan : Type} `{MpscLaws A Chan}.
Implicit Types (c : @BoundedChannel A Chan).

(** The occupancy metrics of the bounded channel.  No interleaving of
    senders and receiver panics or saturates: while the receiver lives the
    occupancy is the number of queued messages, plus the sends counted but not
    queued yet, plus the message taken but not accounted for; the queue stays
    within the capacity and the high-water mark within one above it.  With no
    operation in progress, sending and receiving are those of a bounded queue,
    and the occupancy is its length. *)
Theorem bounded_channel_metrics (capacity : N) c :
  capacity < U64_MAX → channel_reachable capacity c →
  (∀ ev, is_Some (channel_step ev c)) ∧
  (cs_receiver_open (bc_state c) = true →
     cm_current_occupancy (cs_metrics (bc_state c)) = queued c + bc_counted c + popped_count c) ∧
  queued c ≤ capacity ∧
  cm_current_occupancy (cs_metrics (bc_state c)) ≤ cm_high_water_mark (cs_metrics (bc_state c)) ≤ capacity + 1 ∧
  (channel_quiet c →
     (∀ value, ∃ c' r, try_send_alone value c = Some (c', r) ∧ channel_quiet c' ∧
        bq_try_send capacity value (queue_of c) = (queue_of c', r)) ∧
     (cs_receiver_open (bc_state c) = true →
        cm_current_occupancy (cs_metrics (bc_state c)) = N.of_nat (length (bq_items (queue_of c))) ∧
        let '(c', r) := recv_alone c in
        channel_quiet c' ∧
        match r with
        | Ready (Some x) => bq_try_recv (queue_of c) = Some (x, queue_of c')
        | _ => bq_try_recv (queue_of c) = None ∧ queue_of c' = queue_of c
        end)).
Proof.
  intros Hcap Hr. pose proof (channel_reachable_inv _ _ Hcap Hr) as Hi. split_and!.
  - intros ev. destruct (channel_step_inv capacity ev c Hcap Hi) as (c' & E & _). by exists c'.
  - intros Ho. pose proof (bi_occupancy _ _ Hi) as Hocc. by rewrite Ho in Hocc.
  - pose proof (bi_used _ _ Hi) as Hu. unfold cv_used in Hu. unfold queued. lia.
  - apply Hi.
  - apply Hi.
  - intros Hq. split.
    + intros value. destruct (try_send_alone_refines capacity value c Hcap Hi Hq) as (c' & r & E & Eb & _ & Hq').
      by exists c', r.
    + intros Ho. split.
      * pose proof (bi_occupancy _ _ Hi) as Hocc. rewrite Ho in Hocc. destruct Hq as (_ & Hc & Hp & _).
        rewrite Hocc, Hc. unfold queued, popped_count, queue_of. rewrite Hp. simpl. lia.
      * pose proof (recv_alone_refines capacity c Hi Hq Ho) as Hrecv. destruct (recv_alone c) as [c' r].
        destruct Hrecv as (_ & Hq' & Hv). by split.
Qed.
End ChannelTheorems.

(** * Witness *)

(** A channel of two slots after one send. *)
Definition demo_channel : @BoundedChannel N (ChannelView N) :=
  match try_send_alone 7 (bounded_channel_new 2) with Some (c, _) => c | None => bounded_channel_new 2 end.
Lemma demo_channel_reachable : channel_reachable 2 demo_channel.
Proof.
  eapply (channel_next _ (ChSend 7)); [eapply (channel_next _ ChEnqueue); [eapply (channel_next _ ChTryReserve);
    [constructor|reflexivity]|reflexivity]|reflexivity].
Qed.

Lemma bounded_channel_metrics_witness :
  cm_current_occupancy (cs_metrics (bc_state demo_channel)) = 1 ∧ queued demo_channel ≤ 2.
Proof.
  destruct (bounded_channel_metrics 2 demo_channel eq_refl demo_channel_reachable) as (_ & Ho & Hq & _).
  split; [rewrite Ho; reflexivity|exact Hq].
Defined.
End channel_properties.

Section IngressTheorems.
Context `{KaspaHash} {Chan W : Type} `{MpscLaws GraphUpdate Chan} `{WatchLaws N W}.
Implicit Types i : Ingress _ Chan W.

(** C33: no silent loss.  In every reachable session whose receiver lives, the
    updates received are, in order, the first of those accepted, the rest
    being outstanding; no gap is pending exactly when the receiver has been
    told of every lost update; and a session that lost nothing delivers
    everything offered since it opened. *)
Theorem ingress_no_silent_loss i :
  ingress_reachable i → in_receiver_dropped i = false →
  accepted (in_fates i) = in_received i ++ outstanding i ∧
  ((take_pending (in_gap i)).2 = None ↔ gap_observed_generation (in_gap i) = count (lost (in_fates i))) ∧
  (generation (in_gap i) = 0 → carried (in_fates i) = in_received i ++ outstanding i).
Proof.
  intros [HC HO HG]%ingress_reachable_inv Hd. pose proof (or_stream _ HO) as Hst. rewrite Hd in Hst.
  pose proof (gp_announced _ HG) as Ha. unfold announced in Ha. split_and!; [done| |].
  - by rewrite take_pending_None, Ha.
  - unfold generation. rewrite watch_borrow_law, Ha. intros Hz. rewrite <-Hst. apply carried_without_loss.
    unfold count in Hz. destruct (lost (in_fates i)); simpl in Hz; [done|lia].
Qed.

(** The markers.  Nothing reaches the stream before Catchup, Catchup is
    carried once, and only ordinary updates are ever lost. *)
Theorem ingress_markers i :
  ingress_reachable i →
  (in_gate i = AwaitingCatchup → carried (in_fates i) = []) ∧
  (in_gate i = GateOpen →
   ∃ us, carried (in_fates i) = GraphUpdate_Catchup :: us ∧ Forall not_catchup us) ∧
  (in_received i = [] ∨ head (in_received i) = Some GraphUpdate_Catchup) ∧
  Forall ordinary (lost (in_fates i)).
Proof.
  intros [HC HO HG]%ingress_reachable_inv. destruct HO as [or_stream0 or_awaiting0 or_open0 _ ?]. split_and!; [naive_solver..| |done].
  assert (in_received i `prefix_of` accepted (in_fates i)) as [k Hk].
  { destruct (in_receiver_dropped i); [done|]. rewrite or_stream0. by apply prefix_app_r. }
  destruct (in_received i) as [|u us]; [by left|right]. destruct (in_gate i).
  - destruct or_awaiting0 as [Hn _]; [done|]. by rewrite Hn in Hk.
  - destruct or_open0 as (_ & _ & _ & as_ & Hn); [done|]. rewrite Hn in Hk. by simplify_eq/=.
Qed.

(** Panics.  A step of a reachable session panics exactly when Catchup is
    published on an open gate, Live before Catchup, or the 64-bit gap
    generation is exhausted; the channel is never full for Catchup and the
    occupancy never over- or underflows. *)
Theorem ingress_panics_exactly ev i :
  ingress_reachable i → ingress_step ev i = None ↔ ingress_panics ev i.
Proof. intros HI%ingress_reachable_inv. by apply ingress_step_spec. Qed.

(** Metrics.  The occupancy counts the values queued or popped and not yet
    accounted for; the high-water mark is at most one above the capacity; a
    session counts at most one receiver closure. *)
Theorem ingress_metrics i :
  ingress_reachable i →
  ms_current_occupancy (snapshot (in_state i)) = count (outstanding i) ∧
  count (cv_queue (mpsc_view (in_chan i))) ≤ GRAPH_UPDATE_CHANNEL_CAPACITY ∧
  ms_current_occupancy (snapshot (in_state i)) ≤ ms_high_water_mark (snapshot (in_state i))
    ≤ GRAPH_UPDATE_CHANNEL_CAPACITY + 1 ∧
  ms_receiver_closure_count (snapshot (in_state i)) =
    (if cv_closed (mpsc_view (in_chan i)) then 1 else 0) ∧
  (in_offer i = None → ms_reported_gap_count (snapshot (in_state i)) = count (lost (in_fates i))).
Proof.
  intros [[Hcap Hused Hcl Hcount Hocc Hhw _] HO [Ha Hr _ _ _ _ _ _ _]]%ingress_reachable_inv. simpl. split_and!; try done; try lia.
  - unfold cv_used in *. unfold count. lia.
  - by rewrite <-Hcl.
  - intros Ho. unfold announcing in *. rewrite Ho in *. rewrite Hr, Ha. lia.
Qed.

(** Observation.  One poll of [next_observation] needs at most two passes
    of its loop; it reports a pending gap first, with the count of all losses
    so far, otherwise the next update of the stream, and it ends only when
    everything accepted has been received. *)
Theorem ingress_next_observation i :
  ingress_reachable i → receiver_idle i = true →
  ∃ i' r, next_observation 2 i = Some (i', r) ∧
    gap_observed_generation (in_gap i') = count (lost (in_fates i)) ∧
    match r with
    | Ready (Some (ObsGap n)) =>
      n = count (lost (in_fates i)) ∧ gap_observed_generation (in_gap i) < n ∧ in_received i' = in_received i
    | Ready (Some (ObsUpdate u)) =>
      gap_observed_generation (in_gap i) = count (lost (in_fates i)) ∧
      in_received i' = in_received i ++ [u] ∧ in_received i' `prefix_of` accepted (in_fates i)
    | Ready None =>
      in_received i = accepted (in_fates i) ∧
      gap_observed_generation (in_gap i) = count (lost (in_fates i))
    | PollPending => in_received i = accepted (in_fates i)
    end.
Proof.
  intros HI%ingress_reachable_inv Hidle.
  destruct (next_observation_spec i Hidle HI) as (i' & r & Hn & HI' & _ & Hobs & Hf & Hr).
  pose proof (proj1 (receiver_idle_spec i) Hidle) as [Hd _].
  pose proof (or_stream _ (ig_order _ HI)) as Hst. rewrite Hd in Hst.
  pose proof (gp_announced _ (ig_gap _ HI)) as Ha. rewrite Ha in *.
  exists i', r. split_and!; [done|done|]. unfold observes in Hr. rewrite Ha in Hr.
  destruct r as [[[u|n]|]|]; [|done|..].
  - destruct Hr as (? & Hrec & Ho). split_and!; [done..|]. rewrite Hst, Hrec, Ho.
    by exists (outstanding i'); rewrite <-(assoc_L (++)).
  - destruct Hr as (? & Ho & _). by rewrite Hst, Ho, app_nil_r.
  - destruct Hr as (? & Ho & _). by rewrite Hst, Ho, app_nil_r.
Qed.
End IngressTheorems.

(** The high-water mark does reach one above the capacity: a value is accepted
    between the pop of another and its accounting. *)
Theorem ingress_high_water_overshoots (u : @VspcCommitted NHash) :
  ∃ i : DemoIngress, ingress_reachable i ∧
    ms_high_water_mark (snapshot (in_state i)) = GRAPH_UPDATE_CHANNEL_CAPACITY + 1.
Proof.
  destruct (filled_session_overshoot u (N.to_nat (GRAPH_UPDATE_CHANNEL_CAPACITY - 1)))
    as (i & Hr & Hw); [unfold GRAPH_UPDATE_CHANNEL_CAPACITY; lia|].
  exists i. split; [|done]. eapply ingress_run_reachable; [|exact Hr]. apply filled_session_reachable.
  unfold GRAPH_UPDATE_CHANNEL_CAPACITY. lia.
Qed.

(** Witnesses on the demonstration session. *)

#[local] Existing Instance NHash.

Lemma ingress_no_silent_loss_witness :
  accepted (in_fates demo_session) = in_received demo_session ++ outstanding demo_session ∧
  carried (in_fates demo_session) = in_received demo_session ++ outstanding demo_session ∧
  length (in_received demo_session) = 2%nat ∧ length (outstanding demo_session) = 1%nat.
Proof.
  destruct (ingress_no_silent_loss demo_session demo_session_reachable eq_refl) as (Ha & _ & Hc).
  split_and!; [exact Ha|apply Hc; reflexivity|reflexivity..].
Defined.

Lemma ingress_markers_witness :
  ∃ us, carried (in_fates demo_session) = GraphUpdate_Catchup :: us ∧ Forall not_catchup us.
Proof. apply (ingress_markers demo_session demo_session_reachable). reflexivity. Defined.

Lemma ingress_panics_exactly_witness : ingress_step EvCatchup demo_session = None.
Proof. apply (ingress_panics_exactly EvCatchup demo_session demo_session_reachable). split; reflexivity. Defined.

Lemma ingress_metrics_witness :
  ms_current_occupancy (snapshot (in_state demo_session)) = 1 ∧
  count (cv_queue (mpsc_view (in_chan demo_session))) ≤ GRAPH_UPDATE_CHANNEL_CAPACITY.
Proof.
  destruct (ingress_metrics demo_session demo_session_reachable) as (Ho & Hc & _).
  split; [rewrite Ho; reflexivity|exact Hc].
Defined.

Lemma ingress_next_observation_witness :
  ∃ i' r, next_observation 2 demo_session = Some (i', r) ∧ gap_observed_generation (in_gap i') = 0.
Proof.
  destruct (ingress_next_observation demo_session demo_session_reachable eq_refl) as (i' & r & Hn & Hg & _).
  exists i', r. split; [exact Hn|rewrite Hg; reflexivity].
Defined.
