(* ===== verification/ClientTheorems.v ===== *)
(** Properties of the SSE client registries and of their mailboxes. *)

From Stdlib Require Import String.
From S2P Require Import Prelude Model Ladder Clients ClientsSafety ClientsWorld.

(** * What a Head advance does to one client *)

(** The connection is gone or closed, or a wakeup is due and its mailbox is
    full without one to replace. *)
Definition undeliverable (p revision : N) (c : SseClientRegistration) (o : option SseMailbox) : Prop :=
  match o with
  | None => True
  | Some b =>
    mb_closed (sm_state b) = true ∧
      (wake_sent (cl_schedule c) = true ∨ wake_at_revision_id (cl_schedule c) ≤ revision) ∨
    wake_sent (cl_schedule c) = false ∧ wake_at_revision_id (cl_schedule c) ≤ revision ∧
      N.of_nat (length (mb_queue (sm_state b))) = SSE_CLIENT_BUFFER_CAPACITY
  end.

(** The wakeups of the publication queued afterwards: a due client gets one, a
    client already woken has its queued one brought up to date. *)
Definition announced_revisions (p revision : N) (c : SseClientRegistration) (b : SseMailbox) : list N :=
  if wake_sent (cl_schedule c)
  then match wakes p (mb_queue (sm_state b)) with [] => [] | _ => [revision] end
  else if decide (wake_at_revision_id (cl_schedule c) ≤ revision) then [revision] else [].

Lemma advance_verdict revision rg c b :
  client_ok rg c (sm_state b) → queue_ok (sm_state b) →
  match visit_advance_head (rg_publication_id rg) revision c (sm_state b) with
  | Some None => undeliverable (rg_publication_id rg) revision c (Some b)
  | Some (Some (c', s', _)) =>
    ¬ undeliverable (rg_publication_id rg) revision c (Some b) ∧
    c' = MkSseClientRegistration (advance_schedule revision (cl_schedule c)) (cl_mailbox c) (cl_disconnect c) ∧
    wakes (rg_publication_id rg) (mb_queue s') = announced_revisions (rg_publication_id rg) revision c b
  | None => False
  end.
Proof.
  intros [_ Hwk] Hq. unfold visit_advance_head, announced_revisions, undeliverable.
  destruct (wake_sent (cl_schedule c)) eqn:Es.
  - unfold coalesce_graph_wakeup. destruct (mb_closed (sm_state b)) eqn:Ec; [naive_solver|].
    pose proof (coalesce_queued_spec (MkPublicationWakeupDto (rg_publication_id rg) revision) _ Hq) as Hc.
    destruct (coalesce_queued_graph_wakeup _ _) as [s' []]; destruct Hc as (_ & _ & _ & Hr); simpl in Hr.
    + destruct Hr as [Hn Hr]. split_and!; [naive_solver|done|]. by destruct (wakes _ (mb_queue (sm_state b))).
    + destruct Hr as [-> Hn]. split_and!; [naive_solver|done|]. by rewrite Hn.
  - destruct Hwk as [Hn|[_ ?]]; [|done]. case_decide as Hd.
    + pose proof (admit_graph_wakeup_spec (MkPublicationWakeupDto (rg_publication_id rg) revision) _ Hq) as Ha.
      unfold admit_graph_wakeup in *. destruct (mb_closed (sm_state b)) eqn:Ec; [naive_solver|].
      pose proof (coalesce_queued_spec (MkPublicationWakeupDto (rg_publication_id rg) revision) _ Hq) as Hc.
      destruct (coalesce_queued_graph_wakeup _ _) as [s' []]; destruct Hc as (_ & _ & _ & Hr); simpl in Hr.
      { destruct Hr as [? _]. done. }
      destruct Hr as [-> _]. case_decide; [naive_solver|]. destruct Ha as (_ & _ & _ & Ha). simpl in Ha.
      split_and!; [naive_solver|done|done].
    + split_and!; [naive_solver|done|done].
Qed.

Section ClientTheorems.
Context (base64_encode : list N → string).


(** No lost wakeup of a receiver.  Whenever a connection task waits on its
    mailbox, either it has been notified or there is nothing to deliver and
    the mailbox is open. *)
Theorem client_receiver_awake w m b :
  client_reachable base64_encode w → cw_boxes w !! m = Some b → sm_waiting b = true →
  sm_ready b = true ∨ recv b = (MkSseMailbox (sm_state b) false true, None).
Proof.
  intros [HB _ _]%client_reachable_ok Hm Hw. destruct (HB _ _ Hm) as [_ Ha].
  destruct (Ha Hw) as [?|[Hq Hc]]; [by left|right]. unfold recv. by rewrite Hq, Hc.
Qed.

(** Head advance.  It never panics on a revision that does not regress,
    whatever order the clients are visited in; a client whose wakeup cannot be
    delivered is removed and its connection cancelled; every other client is
    kept, is marked woken when its revision is reached, and has exactly the
    due wakeup queued. *)
Theorem advance_head_outcome w a rg order revision :
  client_reachable base64_encode w → cw_registries w !! a = Some rg →
  order ≡ₚ map_to_list (rg_clients rg) → rg_head_revision_id rg ≤ revision →
  ∃ rg' cx', advance_head_in order revision rg (cw_connections w) = Some (rg', cx') ∧
    rg_head_revision_id rg' = revision ∧
    (∀ i, rg_clients rg !! i = None → rg_clients rg' !! i = None) ∧
    ∀ i c, rg_clients rg !! i = Some c →
      (undeliverable (rg_publication_id rg) revision c (cw_boxes w !! cl_mailbox c) ∧
       rg_clients rg' !! i = None ∧ cl_disconnect c ∈ cx_cancelled cx') ∨
      (¬ undeliverable (rg_publication_id rg) revision c (cw_boxes w !! cl_mailbox c) ∧
       rg_clients rg' !! i =
         Some (MkSseClientRegistration (advance_schedule revision (cl_schedule c)) (cl_mailbox c) (cl_disconnect c)) ∧
       ∃ b b', cw_boxes w !! cl_mailbox c = Some b ∧ cx_mailboxes cx' !! cl_mailbox c = Some b' ∧
         wakes (rg_publication_id rg) (mb_queue (sm_state b')) =
           announced_revisions (rg_publication_id rg) revision c b).
Proof.
  intros [HB HR _]%client_reachable_ok Ha Ho Hle. unfold advance_head_in. rewrite assert_true by done. run_bind.
  destruct (pass_spec (visit_advance_head (rg_publication_id rg) revision) order rg
    (MkSseClientRegistryState (rg_publication_id rg) (rg_publication_state rg) revision (rg_clients rg))
    (cw_connections w)) as (rt & Hrt & Hby & _); [done|done|by eapply HR|done|by apply visit_advance_head_preserves|].
  simpl. rewrite Hrt. run_bind. eexists _, _. split_and!; [done|done|..]; simpl.
  { intros i Hi. destruct (rt_clients rt !! i) as [c'|] eqn:E; [|done].
    apply (retained_client _ order rg (cw_connections w) Ho rt i c' Hby) in E. naive_solver. }
  intros i c Hi. assert ((i, c) ∈ order) as Hin by by rewrite Ho; apply elem_of_map_to_list.
  pose proof (rb_client _ _ _ _ Hby i c Hin) as Hcl. pose proof (rb_mailbox _ _ _ _ Hby i c Hin) as Hmb.
  simpl in Hcl, Hmb. unfold retained_mailbox in Hmb. unfold verdict in Hcl, Hmb.
  assert (verdict (visit_advance_head (rg_publication_id rg) revision) (cx_mailboxes (cw_connections w)) c = None →
    cl_disconnect c ∈ cx_cancelled (cw_connections w) ∪ list_to_set (rt_cancellations rt)) as Hcan.
  { intros Hv. apply elem_of_union_r, elem_of_list_to_set, (rb_cancellations _ _ _ _ Hby). right. by exists i, c. }
  fold (cw_boxes w) in Hcl, Hmb, Hcan. unfold verdict in Hcan. rewrite (rb_cancelled _ _ _ _ Hby).
  destruct (cw_boxes w !! cl_mailbox c) as [b|] eqn:Eb.
  2: { left. simpl. split_and!; [done..|]. by apply Hcan. }
  pose proof (advance_verdict revision rg c b (ro_client _ _ (HR _ _ Ha) i c b Hi Eb) (mo_queue _ (HB _ _ Eb))) as Hv.
  cbn [mbind option_bind] in Hcl, Hmb, Hcan.
  destruct (visit_advance_head _ _ _ _) as [[[[c' s'] ready]|]|]; [| |done]; cbn [mbind option_bind] in Hcl, Hmb, Hcan.
  - right. destruct Hv as (Hnd & -> & Hw). split_and!; [done..|]. exists b. rewrite lookup_notify, Hmb.
    simpl. eexists. split_and!; [done..|]. by case_decide.
  - left. split_and!; [done..|]. by apply Hcan.
Qed.

(** Completed deltas.  Completing a delta for a live client installs the
    schedule, replaces a queued wakeup by one for the current Head exactly when
    the schedule is already due, and notifies the mailbox then; for a client
    that is gone, closed or cannot be woken it removes the registration and
    cancels the connection. *)
Theorem complete_delta_outcome w a rg i action :
  client_reachable base64_encode w → cw_registries w !! a = Some rg →
  let '(rg', cx', r) := complete_delta i action rg (cw_connections w) in
  completed i action rg rg' (cw_connections w) cx' r.
Proof.
  intros [HB HR _]%client_reachable_ok Ha.
  pose proof (complete_delta_spec i action rg (cw_connections w) (HR _ _ Ha) HB) as Hc.
  destruct (complete_delta _ _ _ _) as [[rg' cx'] r]. by destruct Hc as (_ & _ & _ & _ & _ & ?).
Qed.

(** Publication replacement.  Between two publications, with an identifier
    source that yields more distinct values than there are clients, the old
    registration always ends; on success the client is registered with the
    replacement at its Head, the wakeups of the old publication are gone from
    its mailbox and the introduction batch stands at the end; on failure its
    connection is cancelled. *)
Theorem replace_registration_outcome w a1 a2 old new order i random :
  client_reachable base64_encode w → a1 ≠ a2 →
  cw_registries w !! a1 = Some old → cw_registries w !! a2 = Some new →
  order ≡ₚ map_to_list (rg_clients new) →
  (∀ c b, rg_clients old !! i = Some c → cw_boxes w !! cl_mailbox c = Some b →
     unknown_mailbox (cl_mailbox c) b new) →
  NoDup random → (size (rg_clients new) < length random)%nat →
  ∃ old' new' cx' r,
    replace_registration_into_in base64_encode order i random old new (cw_connections w) = Some (old', new', cx', r) ∧
    replaced base64_encode i old old' new new' (cw_connections w) cx' r.
Proof.
  intros [HB HR HP]%client_reachable_ok Hne H1 H2 Ho Hun Hnd Hlen.
  assert (rg_publication_id old ≠ rg_publication_id new) as Hp by (intros E; apply Hne; by eapply HP).
  pose proof (replace_registration_into_in_spec base64_encode order i random old new (cw_connections w)
    Hp Ho (HR _ _ H1) (HR _ _ H2) HB Hun) as Hr.
  destruct (replace_registration_into_in _ _ _ _ _ _ _) as [[[[old' new'] cx'] r]|].
  - destruct Hr as (_ & _ & _ & _ & _ & _ & Hr). by eauto 10.
  - rewrite <-(generate_identifier_None random) in Hr.
    destruct (generate_identifier_total random (rg_clients new) Hnd Hlen) as [? E]. congruence.
Qed.
End ClientTheorems.

(** * Wire identifiers *)

(** [u64::from_be_bytes]. *)
Definition from_be_bytes (bytes : list N) : N := foldl (λ acc byte, 256 * acc + byte) 0 bytes.

Lemma base_256_digit x d : d ≠ 0 → x `div` d = 256 * (x `div` (d * 256)) + (x `div` d) `mod` 256.
Proof. intros Hd. rewrite <-N.Div0.div_div. apply N.div_mod. done. Qed.

Lemma from_to_be_bytes x : x ≤ U64_MAX → from_be_bytes (to_be_bytes x) = x.
Proof.
  intros Hx. unfold from_be_bytes, to_be_bytes. cbn [fmap list_fmap foldl].
  change 255 with (N.ones 8). rewrite !N.land_ones, !N.shiftr_div_pow2. unfold U64_MAX in Hx.
  pose proof (base_256_digit x 1 ltac:(done)) as H0.
  pose proof (base_256_digit x 256 ltac:(done)) as H1.
  pose proof (base_256_digit x 65536 ltac:(done)) as H2.
  pose proof (base_256_digit x 16777216 ltac:(done)) as H3.
  pose proof (base_256_digit x 4294967296 ltac:(done)) as H4.
  pose proof (base_256_digit x 1099511627776 ltac:(done)) as H5.
  pose proof (base_256_digit x 281474976710656 ltac:(done)) as H6.
  pose proof (base_256_digit x 72057594037927936 ltac:(done)) as H7.
  assert (x `div` 18446744073709551616 = 0) by (apply N.div_small; lia).
  pose proof (N.div_1_r x).
  repeat match goal with
  | |- context [2 ^ (8 * ?k)] => let y := eval vm_compute in (2 ^ (8 * k)) in change (2 ^ (8 * k)) with y
  | H : context [?d * 256] |- _ => let y := eval vm_compute in (d * 256) in change (d * 256) with y in H
  end.
  change (2 ^ 8) with 256. lia.
Qed.

Lemma to_be_bytes_small x : Forall (λ byte, byte < 256) (to_be_bytes x).
Proof.
  unfold to_be_bytes. apply Forall_fmap, Forall_true. intros k. simpl. change 255 with (N.ones 8).
  rewrite N.land_ones. by apply N.mod_lt.
Qed.

(** Identifiers.  Decoding the wire text of a client identifier recovers
    it, for any text encoding of bytes that can be decoded. *)
Theorem client_identifier_roundtrip (base64_encode : list N → string)
    (base64_decode : string → option (list N)) (i : ClientIdentifier) :
  (∀ bytes, Forall (λ byte, byte < 256) bytes → base64_decode (base64_encode bytes) = Some bytes) → i ≤ U64_MAX →
  from_be_bytes <$> base64_decode (client_id (registration base64_encode i)) = Some i.
Proof.
  intros Hdec Hi. unfold registration, encode. simpl. rewrite Hdec by apply to_be_bytes_small.
  simpl. by rewrite from_to_be_bytes.
Qed.

(** * Witnesses on the demonstration world *)

Lemma bytes_text_decodes bytes :
  Forall (λ byte, byte < 256) bytes →
  Some (Ascii.N_of_ascii <$> list_ascii_of_string (bytes_text bytes)) = Some bytes.
Proof.
  intros Hb. unfold bytes_text. rewrite list_ascii_of_string_of_list_ascii. f_equal.
  induction Hb as [|x l Hx _ IH]; simpl; [done|]. rewrite Ascii.N_ascii_embedding by done. by f_equal.
Qed.

Lemma client_identifier_roundtrip_witness :
  from_be_bytes <$> Some (Ascii.N_of_ascii <$> list_ascii_of_string (client_id (registration bytes_text 513))) = Some 513.
Proof.
  apply (client_identifier_roundtrip bytes_text (λ s, Some (Ascii.N_of_ascii <$> list_ascii_of_string s)) 513).
  - exact bytes_text_decodes.
  - by vm_compute.
Defined.


(** The connection reads its three messages and waits. *)
Definition demo_box : SseMailbox :=
  default SseMailbox_new (cw_boxes demo_world !! 1).
Definition demo_waiting : ClientWorld :=
  set_box 1 (recv (recv (recv (recv demo_box).1).1).1).1
    (set_box 1 (recv (recv (recv demo_box).1).1).1
      (set_box 1 (recv (recv demo_box).1).1 (set_box 1 (recv demo_box).1 demo_world))).

Lemma demo_waiting_reachable : client_reachable bytes_text demo_waiting.
Proof.
  unfold client_reachable. etrans; [exact demo_world_reachable|].
  do 4 (eapply rtc_l; [eapply (step_recv _ _ 1); reflexivity|]). apply rtc_refl.
Qed.

Lemma client_receiver_awake_witness :
  ∃ b, cw_boxes demo_waiting !! 1 = Some b ∧ (sm_ready b = true ∨ (recv b).2 = None).
Proof.
  exists (recv (recv (recv (recv demo_box).1).1).1).1. split; [reflexivity|].
  destruct (client_receiver_awake bytes_text demo_waiting 1 _ demo_waiting_reachable eq_refl eq_refl) as [H|H].
  - left. exact H.
  - right. rewrite H. reflexivity.
Defined.

Lemma advance_head_outcome_witness :
  ∃ rg' cx', advance_head_in (map_to_list (rg_clients demo_completed.1)) 6 demo_completed.1 (cw_connections demo_world)
    = Some (rg', cx') ∧ rg_head_revision_id rg' = 6.
Proof.
  destruct (advance_head_outcome bytes_text demo_world 0 demo_completed.1
    (map_to_list (rg_clients demo_completed.1)) 6 demo_world_reachable) as (rg' & cx' & H1 & H2 & _).
  - reflexivity.
  - reflexivity.
  - vm_compute. discriminate.
  - exists rg', cx'. split; assumption.
Defined.

Lemma complete_delta_outcome_witness :
  let '(rg', cx', r) := complete_delta 42 (Replace 3 false) demo_completed.1 (cw_connections demo_world) in
  completed 42 (Replace 3 false) demo_completed.1 rg' (cw_connections demo_world) cx' r.
Proof.
  apply (complete_delta_outcome bytes_text demo_world 0 demo_completed.1 42 (Replace 3 false) demo_world_reachable).
  reflexivity.
Defined.

(** A second publication replaces the first. *)
Definition demo_replacing : ClientWorld :=
  set_registry 1 (SseClientRegistry_new 8 Live 0) (cw_connections demo_waiting) demo_waiting.

Lemma demo_replacing_reachable : client_reachable bytes_text demo_replacing.
Proof.
  eapply rtc_r; [exact demo_waiting_reachable|]. apply (step_new_registry _ _ 1 8 Live 0); [reflexivity|].
  intros a rg Ha. change (({[0 := demo_completed.1]} : gmap N SseClientRegistryState) !! a = Some rg) in Ha.
  apply lookup_singleton_Some in Ha as [_ <-]. by vm_compute.
Qed.

Lemma replace_registration_outcome_witness :
  ∃ old' new' cx' r,
    replace_registration_into_in bytes_text [] 42 [77] demo_completed.1 (SseClientRegistry_new 8 Live 0)
      (cw_connections demo_replacing) = Some (old', new', cx', r) ∧
    rg_clients old' !! 42 = None.
Proof.
  destruct (replace_registration_outcome bytes_text demo_replacing 0 1 demo_completed.1
    (SseClientRegistry_new 8 Live 0) [] 42 [77] demo_replacing_reachable) as (old' & new' & cx' & r & Hr & [Hold _]).
  - discriminate.
  - reflexivity.
  - reflexivity.
  - reflexivity.
  - intros c b Hc Hb. split.
    + intros i d Hd. simpl in Hd. rewrite lookup_empty in Hd. discriminate.
    + vm_compute in Hc. injection Hc as <-. vm_compute in Hb. injection Hb as <-. reflexivity.
  - apply NoDup_singleton.
  - simpl. rewrite map_size_empty. lia.
  - exists old', new', cx', r. split; assumption.
Defined.
