(* ===== verification/ServingTheorems.v ===== *)
(** The properties of retained history, the target ladder and the response
    cache, with concrete instances. *)

From Stdlib Require Import String.
From S2P Require Import Prelude Model Delta GraphView ViewInvariant ApplyDelta Compose Mutation.
From S2P Require Import HeadBlock HeadView VspcView Subview History Lineage Ladder Cache.
From S2P Require Import CacheMachine PublicationExamples.

Section history_theorems.
Context {KH : KaspaHash}.
Implicit Types (d : GraphDelta) (h : GraphHistory).

(** Appending.  A gapless atomic delta extends the history by one
    revision and keeps it gapless, a replay barrier empties it and moves the
    floor; a delta that does not start at the current revision, or spans
    more than one, is refused and changes nothing. *)
Theorem history_append d est r h :
  history_inv h → from_revision_id d < U64_MAX →
  gh_current_cumulative_estimated_bytes h + est ≤ U64_MAX →
  if decide (from_revision_id d ≠ gh_current_revision_id h) then
    append d est r h = Some (h, Err (HistoryRevisionMismatch (gh_current_revision_id h) (from_revision_id d)))
  else if decide (to_revision_id d ≠ gh_current_revision_id h + 1) then
    append d est r h = Some (h, Err (NonAtomicDelta (from_revision_id d) (to_revision_id d)))
  else ∃ h', append d est r h = Some (h', Ok tt) ∧ history_inv h' ∧
    gh_current_revision_id h' = gh_current_revision_id h + 1 ∧
    (he_delta <$> gh_entries h') = (if decide (r = Replayable)
                                    then (he_delta <$> gh_entries h) ++ [d] else []) ∧
    gh_replay_floor_revision h' = (if decide (r = Replayable)
                                   then gh_replay_floor_revision h else gh_current_revision_id h + 1).
Proof.
  intros Hi Hmax Hcum. case_decide as H1.
  { unfold append. by rewrite decide_True. }
  case_decide as H2.
  { unfold append. rewrite decide_False by (rewrite H1; tauto).
    rewrite (checked_add_Some (from_revision_id d)) by lia. run_bind.
    by rewrite decide_True by congruence. }
  destruct (append_inv h d est r) as (h' & Ha & Hi' & Hr & He & Hf); [done|done|done|lia|done|].
  exists h'. split_and!; try done; [congruence| |rewrite Hf; by destruct r].
  rewrite He. destruct r; [|done]. by rewrite fmap_app.
Qed.

(** C35: ranges.  On a gapless history [range] never panics and answers as a
    function of the revisions alone: the four refusals, up to date, or exactly
    the consecutive entries from the start to the nearer of target and current. *)
Theorem history_range h from target :
  history_inv h →
  range from target h = Some (range_outcome h from target) ∧
  ∀ to, oldest_available_revision h ≤ from → from ≤ to ≤ gh_current_revision_id h →
    ∃ c ct, linked from c (segment h from to) to ct.
Proof.
  intros Hi. split; [by apply range_spec|]. intros to Ho Hb. by apply segment_linked.
Qed.

(** The binary search for a boundary finds the entry a linear scan would,
    with as much fuel as there are entries. *)
Theorem boundary_search_linear h rev :
  history_inv h →
  find_boundary_index (gh_entries h) rev
  = Some (fst <$> list_find (λ e, from_revision_id (he_delta e) = rev) (gh_entries h)).
Proof.
  intros Hi. rewrite find_boundary_index_spec by done. f_equal. destruct (hi_linked _ Hi) as [c Hl].
  pose proof (linked_length _ _ _ _ _ Hl) as Hlen.
  destruct (list_find _ (gh_entries h)) as [[i e]|] eqn:E.
  - apply list_find_Some in E as (He & <- & _). apply lookup_lt_Some in He as Hlt.
    destruct (linked_lookup _ _ _ _ _ _ _ Hl He) as (-> & _). simpl.
    rewrite decide_True by lia. f_equal. lia.
  - apply list_find_None in E. rewrite decide_False; [done|]. intros Hb.
    destruct (lookup_lt_is_Some_2 (gh_entries h) (N.to_nat (rev - oldest_available_revision h))) as [e He]; [lia|].
    rewrite Forall_lookup in E. apply (E _ _ He).
    destruct (linked_lookup _ _ _ _ _ _ _ Hl He) as (-> & _). lia.
Qed.

(** Fitting.  For strictly descending candidates inside the retained
    range, [fitting_range] never panics and returns the first, hence
    farthest, candidate whose retained cost fits, with its entries, their
    exact cost, and whether the request was shortened. *)
Theorem history_fitting h from requested rest fits :
  history_inv h → oldest_available_revision h ≤ from →
  (∀ t, t ∈ requested :: rest → from < t ∧ t ≤ gh_current_revision_id h) →
  StronglySorted (λ x y, y < x) (requested :: rest) →
  match fitting_choice h from fits (requested :: rest) with
  | None => fitting_range from (requested :: rest) fits h = Some (Ok None)
  | Some t => ∃ r, fitting_range from (requested :: rest) fits h = Some (Ok (Some r)) ∧
      fr_target_revision r = t ∧ fr_entries r = segment h from t ∧
      fr_shortened r = bool_decide (t ≠ requested) ∧
      fr_estimated_raw_bytes r = Some (total_estimate (segment h from t)) ∧
      fits (total_estimate (segment h from t)) = true
  end.
Proof.
  intros Hi Ho Hc Hs. rewrite fitting_range_spec by done.
  destruct (fitting_choice h from fits (requested :: rest)) as [t|] eqn:E; [|done].
  assert (t ∈ requested :: rest ∧ fits (total_estimate (segment h from t)) = true) as [Ht Hf].
  { apply head_Some_elem_of in E. apply list_elem_of_filter in E. tauto. }
  destruct (Hc t Ht) as [Hlt Hle].
  destruct (segment_linked h from t) as (c & ct & Hl); [done|done|lia|].
  eexists. split; [done|]. split_and!; try done. eapply fr_estimated_raw_bytes_spec; [exact Hl|].
  intros Hn. rewrite Hn in Hl. simpl in Hl. lia.
Qed.
End history_theorems.

(** The ladder.  Below the revision limit the boundaries of a source are
    computed without overflow: the ordinary successor first, a multiple of four
    within 128 revisions, then, strictly descending down to the very next
    revision, exactly the first multiples of powers of two after the source
    that precede the successor. *)
Theorem ladder_boundaries s :
  ladder_room s →
  ∃ successor ts, ordinary_successor s = Some successor ∧ target_boundaries s = Some ts ∧
    head ts = Some successor ∧ last ts = Some (s + 1) ∧
    s + 4 ≤ successor ≤ s + 128 ∧ successor mod 4 = 0 ∧
    StronglySorted (λ x y, y < x) ts ∧
    ∀ t, t ∈ ts ↔ t = successor ∨ (∃ k, t = aligned_target s k ∧ t < successor).
Proof.
  intros Hr. destruct (target_boundaries_spec s Hr) as (su & ts & Ho & Ht & [Hh Hs Hm] & Hb & Hl).
  destruct (ordinary_successor_spec s Hr) as (su' & Ho' & _ & H4 & _). simplify_eq.
  exists su, ts. split_and!; try done; [lia..|]. intros t. rewrite Hm. naive_solver.
Qed.

(** An aligned source walks its own alignment: after an odd multiple of
    [2 ^ k], for [k] at least two, the ordinary successor is the next multiple
    of [2 ^ k], capped at 128 revisions. *)
Theorem ladder_aligned_successor s k m :
  ladder_room s → s = 2 ^ k * (2 * m + 1) → 2 ≤ k →
  ordinary_successor s = Some (s + N.min (2 ^ k) 128).
Proof.
  intros Hr Hs Hk. destruct (ordinary_successor_spec s Hr) as (t & -> & _ & _ & Ht & _).
  f_equal. by eapply Ht.
Qed.

(** Target selection.  A well-formed ladder selects the farthest eligible
    boundary the Head has reached, or, only when there is none and the
    publication is not stale, waits for the nearest eligible one, which is the
    boundary announced to clients at the same cursor. *)
Theorem ladder_select state l :
  ladder_wf l →
  ∃ r, select state l = Some r ∧
    match r with
    | Range rr =>
      rr_source_revision rr = dl_source_revision l ∧
      ladder_eligible state l (rr_target_revision rr) ∧
      rr_target_revision rr ≤ dl_head_revision l ∧
      ∀ t, ladder_eligible state l t → t ≤ dl_head_revision l → t ≤ rr_target_revision rr
    | WaitForWakeup w =>
      state ≠ Stale ∧ dl_head_revision l < w ∧ ladder_eligible state l w ∧
      (∀ t, ladder_eligible state l t → w ≤ t) ∧
      next_eligible_boundary_from (dl_source_revision l) (dl_active_interval l) = Some w
    end.
Proof.
  intros Hw. destruct (select_spec state l Hw) as (r & Hr & Hspec). exists r. split; [done|].
  destruct r as [rr|w]; [done|]. destruct Hspec as (? & ? & ? & ?). split_and!; try done.
  by eapply select_wait_next.
Qed.

(** An existing target never exceeds the selected one. *)
Lemma selected_keeps_coverage state l rr :
  ladder_wf l → select state l = Some (Range rr) →
  keeps_coverage (dl_current_target l) (rr_target_revision rr).
Proof.
  intros Hw Hs. destruct (select_spec state l Hw) as (r & Hr & Hspec). rewrite Hs in Hr.
  injection Hr as <-. destruct Hspec as (_ & [Hin (su & Hsu & He)] & Hh & Hmax).
  destruct (dl_current_target l) as [c|] eqn:Ec; [|done]. simpl.
  destruct (lw_current _ Hw c Ec) as [Hb Hc].
  destruct (ladder_wf_targets l Hw) as (su' & rest & Et & _ & _ & Hall).
  assert (su' = su) as -> by (rewrite Et in Hsu; by injection Hsu).
  destruct (decide (eligible state su (dl_source_revision l) (dl_active_interval l) c)) as [Hel|Hel].
  { apply Hmax; [|lia]. split; [done|]. by exists su. }
  assert (state ≠ Stale ∧ c ≠ su ∧ c - dl_source_revision l < dl_active_interval l) as (H1 & H2 & H3).
  { unfold eligible in Hel. split_and!; [tauto|tauto|]. apply N.nle_gt. tauto. }
  destruct He as [?|[->|He]]; [done|by apply Hall|]. specialize (Hall _ Hin). lia.
Qed.

(** The ladder feeds the history.  Whatever range a ladder selects inside
    the retained history of a publication, its fitting targets are valid
    candidates: the history never panics on them, and what it returns is a
    ladder boundary that covers at least the cached target and whose cost fits. *)
Theorem ladder_fits_history {KH : KaspaHash} state l rr h fits :
  ladder_wf l → select state l = Some (Range rr) →
  history_inv h → gh_current_revision_id h = dl_head_revision l →
  oldest_available_revision h ≤ dl_source_revision l →
  ∃ ts r, fitting_targets rr l = Some ts ∧
    fitting_range (dl_source_revision l) ts fits h = Some (Ok r) ∧
    match r with
    | None => ∀ t, t ∈ ts → fits (total_estimate (segment h (dl_source_revision l) t)) = false
    | Some fr =>
      fr_target_revision fr ∈ dl_targets l ∧
      keeps_coverage (dl_current_target l) (fr_target_revision fr) ∧
      fr_target_revision fr ≤ rr_target_revision rr ∧
      fr_entries fr = segment h (dl_source_revision l) (fr_target_revision fr) ∧
      fits (total_estimate (fr_entries fr)) = true
    end.
Proof.
  intros Hw Hs Hi Hcur Ho. pose proof (selected_keeps_coverage _ _ _ Hw Hs) as Hk.
  destruct (select_spec state l Hw) as (r0 & Hr0 & Hspec). rewrite Hs in Hr0. injection Hr0 as <-.
  destruct Hspec as (Hsrc & [Hin _] & Hh & _).
  destruct (fitting_targets_spec rr l Hw Hsrc Hin Hh Hk) as (rest & Hft & Hst & Hts).
  eexists _, _. split; [exact Hft|]. rewrite fitting_range_spec; [|done|done| |done].
  2:{ intros t Ht. destruct (Hts t Ht) as [? _]. lia. }
  split; [done|].
  destruct (fitting_choice h _ fits _) as [t|] eqn:E; unfold fitting_choice in E; simpl.
  - apply head_Some_elem_of, list_elem_of_filter in E as [Hf Ht].
    destruct (Hts t Ht) as (? & ? & ?). split_and!; [done|done|lia|done|done].
  - intros t Ht. apply not_true_iff_false. intros Hf.
    assert (t ∈ filter (λ t, fits (total_estimate (segment h (dl_source_revision l) t)) = true)
      (rr_target_revision rr :: rest)) as Hc by (by apply list_elem_of_filter).
    apply head_None in E. rewrite E in Hc. by apply elem_of_nil in Hc.
Qed.

Section cache_theorems.
Variable clock : N → N.
Hypothesis clock_mono : ∀ k1 k2, k1 ≤ k2 → clock k1 ≤ clock k2.


(** No waiter is stranded and no work is duplicated.  In every reachable
    cache a pending job has a live task that will complete it; a slot's
    running job is pending and built for that very key, so one key has one
    builder; and an empty slot is never kept. *)
Theorem cache_jobs_owned w :
  cache_reachable clock w →
  (∀ j, w_delta_jobs w !! j = Some Pending → is_Some (w_delta_tasks w !! j)) ∧
  (∀ j, w_head_jobs w !! j = Some Pending → is_Some (w_head_tasks w !! j)) ∧
  (∀ k s r, w_deltas w !! k = Some s → ds_running s = Some r →
     w_delta_jobs w !! rj_job r = Some Pending ∧
     w_delta_tasks w !! rj_job r = Some (DeltaBuilding k (rj_target_revision r) (rj_size_limited r))) ∧
  (∀ k s j, w_heads w !! k = Some s → sl_running s = Some j →
     w_head_jobs w !! j = Some Pending ∧ w_head_tasks w !! j = Some (HeadBuilding k)) ∧
  (∀ k s, w_deltas w !! k = Some s → ds_completed s = None → is_Some (ds_running s)).
Proof.
  intros Hr. destruct (cache_reachable_inv clock clock_mono w Hr) as [[H1 H2 H3 H4 H5] [G1 G2 G3 G4]].
  split_and!; [apply H5|apply G4|done|done|done].
Qed.

(** Replay floors.  Invalidation leaves no delta below the floor and no
    snapshot older than it, keeps every completed value at or above it, and
    ends exactly the detached jobs. *)
Theorem cache_invalidation w floor :
  cache_reachable clock w →
  ∃ w', cache_step (InvalidateReplayFloor floor) w = Some w' ∧
    (∀ k, w_deltas w' !! k = if decide (floor ≤ k) then w_deltas w !! k else None) ∧
    (∀ k s v, w_heads w' !! k = Some s → sl_completed s = Some v → floor ≤ hs_revision v) ∧
    (∀ k s v, w_heads w !! k = Some s → sl_completed s = Some v → floor ≤ hs_revision v →
       w_heads w' !! k = Some (MkHeadCacheSlot (Some v) None)) ∧
    (∀ k s r, w_deltas w !! k = Some s → ds_running s = Some r → k < floor →
       w_delta_jobs w' !! rj_job r = Some (InvalidatedByReplayFloor floor)).
Proof.
  intros Hr. destruct (cache_reachable_inv clock clock_mono w Hr) as [Hd Hh].
  destruct (terminalize_spec floor (w_delta_jobs w) (delta_detach_before_replay_floor floor (w_deltas w)).2)
    as (dj & Hdj & Hdl); [by eapply delta_detached_NoDup| |].
  { intros j (k & s & r & Hk & Hrn & <- & _)%delta_detached_jobs. by eapply (di_running _ _ _ _ Hd). }
  destruct (heads_invalidate_inv floor _ _ _ Hh) as (hj & Hhj & _).
  eexists. cbn [cache_step]. unfold delta_detach_before_replay_floor, head_detach_before_replay_floor in *.
  cbn [fst snd] in *. rewrite Hdj. run_bind. rewrite Hhj. split; [done|]. simpl. split_and!.
  - intros k. unfold split_off. rewrite map_lookup_filter. destruct (w_deltas w !! k) as [s|]; simpl; [|by case_decide].
    destruct (decide (floor ≤ k)); [by rewrite option_guard_True|by rewrite option_guard_False].
  - intros k s v. rewrite lookup_omap. destruct (w_heads w !! k) as [s0|]; [|done]. simpl.
    unfold retained_completed. destruct (sl_completed s0); [|done]. case_decide; [done|].
    intros [= <-] [= <-]. lia.
  - intros k s v Hk Hc Hf. rewrite lookup_omap, Hk. simpl. unfold retained_completed. rewrite Hc.
    by rewrite decide_False by lia.
  - intros k s r Hk Hrn Hlt. rewrite Hdl, decide_True; [done|].
    apply (delta_detached_jobs floor (w_deltas w)). by exists k, s, r.
Qed.
End cache_theorems.

(** Expiry.  With stored times following the source order and none after
    the Head, the binary search over the numeric source domain removes exactly
    the slots whose age reached the limit. *)
Theorem cache_expiry head_ts (m : DeltaCache) :
  (∀ k s, m !! k = Some s → ds_first_revision_timestamp_ms s ≤ head_ts ∧ k ≤ U64_MAX) →
  (∀ k1 k2 s1 s2, m !! k1 = Some s1 → m !! k2 = Some s2 → k1 ≤ k2 →
     ds_first_revision_timestamp_ms s1 ≤ ds_first_revision_timestamp_ms s2) →
  ∃ m', prune_expired head_ts m = Some m' ∧
    ∀ k s, m' !! k = Some s ↔ m !! k = Some s ∧
      head_ts - ds_first_revision_timestamp_ms s < DELTA_CACHE_MAX_AGE_MS.
Proof.
  intros Hp Hm. rewrite prune_expired_spec; [|by intros; eapply Hp|done|by intros k [s Hs]; eapply Hp].
  eexists. split; [done|]. intros k s. rewrite map_lookup_filter_Some. unfold expired_slot.
  rewrite N.nle_gt. done.
Qed.

(** * Concrete instances *)

#[local] Existing Instance NHash.

Lemma demo_history_inv : history_inv demo_history2.
Proof. apply (lineage_run_inv _ _ _ _ demo_run). Qed.

Lemma history_append_witness :
  ∃ h', append demo_delta 300 Replayable GraphHistory_new = Some (h', Ok tt) ∧ history_inv h' ∧
    he_delta <$> gh_entries h' = [demo_delta].
Proof.
  pose proof (history_append demo_delta 300 Replayable GraphHistory_new GraphHistory_new_inv) as H.
  rewrite decide_False in H by (vm_compute; tauto). rewrite decide_False in H by (vm_compute; tauto).
  destruct H as (h' & Ha & Hi & _ & He & _); [by vm_compute|by vm_compute|]. exists h'.
  split; [exact Ha|]. split; [exact Hi|]. rewrite He. done.
Defined.

Lemma history_range_witness :
  range 0 2 demo_history2 = Some (range_outcome demo_history2 0 2) ∧
  ∃ c ct, linked 0 c (segment demo_history2 0 2) 2 ct.
Proof.
  destruct (history_range demo_history2 0 2 demo_history_inv) as [H1 H2]. split; [exact H1|].
  apply (H2 2); [by vm_compute|]. split; by vm_compute.
Defined.

Lemma boundary_search_linear_witness :
  find_boundary_index (gh_entries demo_history2) 1
  = Some (fst <$> list_find (λ e, from_revision_id (he_delta e) = 1) (gh_entries demo_history2)).
Proof. apply (boundary_search_linear demo_history2 1 demo_history_inv). Defined.

Lemma history_fitting_witness :
  match fitting_choice demo_history2 0 (λ n, bool_decide (n ≤ 1000)) [2; 1] with
  | None => fitting_range 0 [2; 1] (λ n, bool_decide (n ≤ 1000)) demo_history2 = Some (Ok None)
  | Some t => ∃ r, fitting_range 0 [2; 1] (λ n, bool_decide (n ≤ 1000)) demo_history2 = Some (Ok (Some r)) ∧
      fr_target_revision r = t ∧ fr_entries r = segment demo_history2 0 t ∧
      fr_shortened r = bool_decide (t ≠ 2) ∧
      fr_estimated_raw_bytes r = Some (total_estimate (segment demo_history2 0 t)) ∧
      bool_decide (total_estimate (segment demo_history2 0 t) ≤ 1000) = true
  end.
Proof.
  apply (history_fitting demo_history2 0 2 [1] (λ n, bool_decide (n ≤ 1000)) demo_history_inv).
  - by vm_compute.
  - intros t [-> | ->%list_elem_of_singleton]%elem_of_cons; by vm_compute.
  - constructor; [constructor; constructor|]. constructor; [by vm_compute|constructor].
Defined.

Lemma ladder_boundaries_witness :
  ∃ successor ts, ordinary_successor 5 = Some successor ∧ target_boundaries 5 = Some ts ∧
    head ts = Some successor ∧ last ts = Some (5 + 1) ∧
    5 + 4 ≤ successor ≤ 5 + 128 ∧ successor mod 4 = 0 ∧
    StronglySorted (λ x y, y < x) ts ∧
    ∀ t, t ∈ ts ↔ t = successor ∨ (∃ k, t = aligned_target 5 k ∧ t < successor).
Proof. apply (ladder_boundaries 5). by vm_compute. Defined.

Lemma ladder_aligned_successor_witness : ordinary_successor 48 = Some (48 + N.min (2 ^ 4) 128).
Proof. apply (ladder_aligned_successor 48 4 1); by vm_compute. Defined.

(** The ladder of source 0 under a Head at revision 2. *)
Definition demo_ladder : DeltaTargetLadder := MkDeltaTargetLadder 0 2 None 1 [4; 2; 1].
Lemma demo_ladder_wf : ladder_wf demo_ladder.
Proof. split; [by vm_compute|done| |by vm_compute|done]. vm_compute. left. Qed.

Lemma ladder_select_witness :
  ∃ r, select Live demo_ladder = Some r ∧
    match r with
    | Range rr =>
      rr_source_revision rr = dl_source_revision demo_ladder ∧
      ladder_eligible Live demo_ladder (rr_target_revision rr) ∧
      rr_target_revision rr ≤ dl_head_revision demo_ladder ∧
      ∀ t, ladder_eligible Live demo_ladder t → t ≤ dl_head_revision demo_ladder → t ≤ rr_target_revision rr
    | WaitForWakeup w =>
      Live ≠ Stale ∧ dl_head_revision demo_ladder < w ∧ ladder_eligible Live demo_ladder w ∧
      (∀ t, ladder_eligible Live demo_ladder t → w ≤ t) ∧
      next_eligible_boundary_from (dl_source_revision demo_ladder) (dl_active_interval demo_ladder) = Some w
    end.
Proof. apply (ladder_select Live demo_ladder demo_ladder_wf). Defined.

Lemma ladder_fits_history_witness :
  ∃ ts r, fitting_targets (MkDeltaRevisionRange 0 2) demo_ladder = Some ts ∧
    fitting_range 0 ts (λ n, bool_decide (n ≤ 1000)) demo_history2 = Some (Ok r) ∧
    match r with
    | None => ∀ t, t ∈ ts → bool_decide (total_estimate (segment demo_history2 0 t) ≤ 1000) = false
    | Some fr =>
      fr_target_revision fr ∈ dl_targets demo_ladder ∧
      keeps_coverage (dl_current_target demo_ladder) (fr_target_revision fr) ∧
      fr_target_revision fr ≤ 2 ∧
      fr_entries fr = segment demo_history2 0 (fr_target_revision fr) ∧
      bool_decide (total_estimate (fr_entries fr) ≤ 1000) = true
    end.
Proof.
  apply (ladder_fits_history Live demo_ladder (MkDeltaRevisionRange 0 2) demo_history2
           (λ n, bool_decide (n ≤ 1000)) demo_ladder_wf).
  - by vm_compute.
  - apply demo_history_inv.
  - by vm_compute.
  - by vm_compute.
Defined.

(** A cache in which source 4 has been elected once. *)
Definition demo_cache : CacheWorld :=
  default GraphCache_new (cache_step (ElectDelta 4 4 8 false 0) GraphCache_new).
Lemma demo_cache_reachable : cache_reachable (λ k, k) demo_cache.
Proof.
  apply (cache_next _ (ElectDelta 4 4 8 false 0) GraphCache_new); [constructor| |by vm_compute].
  by vm_compute.
Qed.


Lemma cache_jobs_owned_witness :
  w_delta_jobs demo_cache !! 0 = Some Pending ∧ is_Some (w_delta_tasks demo_cache !! 0).
Proof.
  split; [by vm_compute|].
  apply (cache_jobs_owned (λ k, k) (λ _ _ H, H) demo_cache demo_cache_reachable). by vm_compute.
Defined.

Lemma cache_invalidation_witness :
  ∃ w', cache_step (InvalidateReplayFloor 6) demo_cache = Some w' ∧
    w_delta_jobs w' !! 0 = Some (InvalidatedByReplayFloor 6).
Proof.
  destruct (cache_invalidation (λ k, k) (λ _ _ H, H) demo_cache 6 demo_cache_reachable)
    as (w' & Hs & _ & _ & _ & Hj).
  exists w'. split; [exact Hs|].
  apply (Hj 4 (MkDeltaCacheSlot 4 None (Some (MkRunningDeltaJob 8 false 0))) (MkRunningDeltaJob 8 false 0));
    by vm_compute.
Defined.

Definition demo_slots : DeltaCache :=
  <[1 := MkDeltaCacheSlot 10 None None]> (<[900 := MkDeltaCacheSlot 500000 None None]> ∅).

Lemma cache_expiry_witness :
  ∃ m', prune_expired 600000 demo_slots = Some m' ∧
    ∀ k s, m' !! k = Some s ↔ demo_slots !! k = Some s ∧
      600000 - ds_first_revision_timestamp_ms s < DELTA_CACHE_MAX_AGE_MS.
Proof.
  assert (∀ k s, demo_slots !! k = Some s → (k = 1 ∧ ds_first_revision_timestamp_ms s = 10) ∨
    (k = 900 ∧ ds_first_revision_timestamp_ms s = 500000)) as Hs.
  { intros k s. unfold demo_slots. rewrite !lookup_insert_Some, lookup_empty. naive_solver. }
  apply (cache_expiry 600000 demo_slots).
  - intros k s [[-> ->]|[-> ->]]%Hs; by vm_compute.
  - intros k1 k2 s1 s2 [[-> ->]|[-> ->]]%Hs [[-> ->]|[-> ->]]%Hs; by vm_compute.
Defined.
