(* ===== verification/ProcessingTheorems.v ===== *)
(** What the node-facing half of the program guarantees: the VSPC processor
    publishes one unbroken chain of transitions from indexes that stay exact,
    and the response normalizer lets only canonical data in. *)

From S2P Require Import Prelude Model Faults Normalization Vspc VspcIndex VspcWorker VspcDrive.

Section vspc_theorems.
Context {KH : KaspaHash}.
Implicit Types (st : VspcState) (w : Worker).

(** C37: in every reachable state of the worker the transitions it has
    published form one chain from the anchor to the committed sink, each
    transition starting where the previous one ended; every transition's
    added path ends at its destination and a removed path starts at its
    source. *)
Theorem vspc_published_chain a w :
  worker_reachable a w →
  ∃ st, w_run w = Active st ∧
    offers_chain (vp_hash (msa_point a)) (w_offers w) (vp_hash (committed_sink st)) ∧
    Forall offer_ok (w_offers w).
Proof.
  intros (st & Hw)%worker_reachable_inv. exists st.
  split_and!; [apply (wi_run _ _ _ Hw)|apply (wi_chain _ _ _ Hw)|apply (wi_offers _ _ _ Hw)].
Qed.


(** C39: no command and no pass of the owner loop panics: every indexing of
    the pending map, every [expect] on a change's path and every lookup of a
    resolved identifier succeeds, as long as fewer than 2^64 - 1 candidates
    were admitted. *)
Theorem vspc_never_panics a w :
  worker_reachable a w →
  (∀ c, is_Some (handle_command c w)) ∧
  (∀ st db rpc cancelled, w_run w = Active st → next_pending_id st < U64_MAX →
     VspcDatabaseLaws db → is_Some (poll db rpc cancelled w)).
Proof.
  intros (st & Hw)%worker_reachable_inv. split.
  - intros c. destruct (handle_command_inv a w st c Hw) as (w' & b & -> & _). done.
  - intros st' db rpc cancelled Hr Hn Hdb. rewrite (wi_run _ _ _ Hw) in Hr. injection Hr as <-.
    by apply (proj1 (poll_inv a db rpc cancelled w st Hdb Hw)).
Qed.

(** The incremental refresh is a full one: when a block is persisted
    only the candidates waiting for its hash are refreshed, and afterwards
    every pending candidate holds the dependency data recomputed from the
    new history; nothing but history and dependency data changes. *)
Theorem vspc_refresh_incremental a w st b :
  worker_reachable a w → w_run w = Active st →
  ∃ st', state_persisted b st = Some st' ∧
    history st' = (history_insert b (history st)).2 ∧
    pending st' = refreshed st' <$> pending st ∧
    phase st' = phase st ∧ committed_sink st' = committed_sink st.
Proof.
  intros (st0 & Hw)%worker_reachable_inv Hr. rewrite (wi_run _ _ _ Hw) in Hr. injection Hr as <-.
  destruct (state_persisted_spec b st0 (wi_state _ _ _ Hw)) as (st' & E & _ & Hh & Hp & Hs & _ & HP).
  exists st'. done.
Qed.

(** The choice of the next action. It never panics. A commit is chosen
    only for the oldest synthetic candidate with nothing missing, or in Live
    for the one resolved notification that continues the committed sink and
    lies above it; a discarded notification is overtaken by the sink or the
    Catchup bound; a crossing is cut right after the committed sink; rival
    next moves and a discontinuous synthetic head are reported. When nothing
    is chosen no candidate is ready. *)
Theorem vspc_action_choice a w st :
  worker_reachable a w → w_run w = Active st →
  ∃ r, next_action st = Some r ∧ match r with Some action => action_ok st action | None => settled st end.
Proof.
  intros (st0 & Hw)%worker_reachable_inv Hr. rewrite (wi_run _ _ _ Hw) in Hr. injection Hr as <-.
  apply next_action_ok, Hw.
Qed.

(** C40: driving terminates: whatever the database and the node answer, a
    run of drive steps that each did something is no longer than the measure
    of the worker, so the loop returns to its mailboxes; when a step does
    nothing the worker is faulted, shutting down, or has no ready work. *)
Theorem vspc_drive_terminates a w st :
  worker_reachable a w → w_run w = Active st →
  (∀ n w', drives n w w' → (n ≤ S (weight (pending st)))%nat) ∧
  (∀ db rpc cancelled, VspcDatabaseLaws db →
     ∃ w' b, drive_once db rpc cancelled w = Some (w', b) ∧
       (b = false → w' = w ∧ (w_faulted w = true ∨ cancelled = true ∨ settled st))).
Proof.
  intros (st0 & Hw)%worker_reachable_inv Hr. rewrite (wi_run _ _ _ Hw) in Hr. injection Hr as <-. split.
  - intros n w' Hd. pose proof (drives_bounded n w w' st0 Hd (wi_state _ _ _ Hw) (wi_run _ _ _ Hw)) as H.
    unfold drive_measure in H. rewrite (wi_run _ _ _ Hw) in H. destruct (w_faulted w); lia.
  - intros db rpc cancelled Hdb.
    destruct (drive_once_outcome db rpc cancelled w st0 Hdb (wi_state _ _ _ Hw) (wi_run _ _ _ Hw))
      as (w' & b & -> & _ & Hb).
    exists w', b. split; [done|]. intros Ef. destruct (Hb Ef) as [-> Hi]. split; [done|].
    destruct (w_faulted w); [by left|]. destruct (Hi eq_refl); auto.
Qed.

(** Readiness does not cover the middle of an added-only notification.
    When the chosen commit is an added-only change with a member that is not
    in the history, the worker reports a fatal lifecycle violation and
    publishes nothing, where the documentation keeps such a notification
    waiting. *)
Theorem vspc_member_gap_fatal a w st db rpc cancelled id c h :
  worker_reachable a w → w_run w = Active st → w_faulted w = false →
  VspcDatabaseLaws db →
  next_action st = Some (Some (Commit id)) → pending st !! id = Some c →
  ch_removed (cand_change c) = [] → h ∈ ch_added (cand_change c) → by_hash (history st) !! h = None →
  ∃ w', drive_once db rpc cancelled w = Some (w', true) ∧ w_faulted w' = true ∧
    w_offers w' = w_offers w ∧
    w_events w' = [Event_Fault (MkComponentFault VspcProcessor Fatal (Ownership InvalidLifecycleControl))].
Proof.
  intros (st0 & Hw)%worker_reachable_inv Hr Hf Hdb Ha Hc Hrem Hh Hn.
  rewrite (wi_run _ _ _ Hw) in Hr. injection Hr as <-.
  destruct (next_action_ok st0 (wi_state _ _ _ Hw)) as (r & Er & Hok). rewrite Ha in Er. injection Er as <-.
  destruct Hok as (c' & Hc' & [d He]%source_is_sink_true & _). assert (c' = c) as -> by congruence.
  unfold drive_once. rewrite Hf, (wi_run _ _ _ Hw), Ha. cbn [mbind option_bind perform].
  unfold commit_candidate. rewrite (prepare_candidate_gap db id w st0 c _ h (wi_run _ _ _ Hw) Hc He Hrem Hh Hn).
  run_bind. eexists. split; [done|]. pose proof (wi_events _ _ _ Hw) as Hev.
  unfold enter_fault. rewrite Hf in *. simpl. by rewrite Hev.
Qed.
End vspc_theorems.

Section normalization_theorems.
Context {KH : KaspaHash}.
Implicit Types self : ResponseNormalizer.

(** Block normalization is total: its outcome is the first failing check
    in the documented order, or the block with each relationship vector
    reduced to its first occurrences; what it accepts is canonical: scores in
    range, duplicate-free vectors without the block's own hash, and a
    selected parent among the direct parents unless it is the genesis. *)
Theorem normalized_block self b :
  validated_block self b = Some (block_outcome (genesis_hash self) b) ∧
  (∀ nb, block_outcome (genesis_hash self) b = Ok nb →
     vnb_hash nb = rh_hash (rb_header b) ∧ canonical_block (genesis_hash self) nb).
Proof. split; [apply validated_block_spec|apply block_outcome_canonical]. Qed.

(** A page of blocks is accepted exactly when it starts with the
    requested anchor, every following block normalizes and the page does not
    end at the anchor; the accepted blocks are the normalized tail in order,
    and a refusal is a malformed page or the first score out of range. *)
Theorem get_blocks_page self low resp :
  ∃ r, get_blocks self low resp = Some r ∧
    (∀ nbs, r = Ok nbs ↔ ∃ anchor tail, gbr_blocks resp = anchor :: tail ∧
       rh_hash (rb_header anchor) = low ∧
       Forall2 (λ b nb, block_outcome (genesis_hash self) b = Ok nb) tail nbs ∧
       vnb_hash <$> last nbs ≠ Some low) ∧
    (∀ e, r = Err e → e = Malformed MalformedGetBlocks ∨
       ∃ b f, b ∈ gbr_blocks resp ∧ block_outcome (genesis_hash self) b = Err (Block_ScoreOutOfRange f) ∧
              e = Response_ScoreOutOfRange f).
Proof.
  unfold get_blocks. destruct (gbr_blocks resp) as [|anchor tail].
  { eexists. split; [done|]. split; [|intros e [= <-]; by left]. split; [done|]. by intros (? & ? & ? & _). }
  case_decide as Ha.
  { eexists. split; [done|]. split; [|intros e [= <-]; by left]. split; [done|].
    intros (? & ? & [= <- <-] & ? & _). done. }
  destruct (collect_results_spec (validated_as self MalformedGetBlocks) tail) as (r & -> & Hr).
  { intros x _. by rewrite validated_as_spec. }
  run_bind. destruct r as [ys|e]; cbn [try_].
  - assert (Forall2 (λ b nb, block_outcome (genesis_hash self) b = Ok nb) tail ys) as Hok.
    { eapply Forall2_impl; [done|]. intros b nb. apply validated_as_Ok. }
    case_decide as Hl; (eexists; split; [done|]; split).
    + intros nbs. split; [done|]. intros (? & ? & [= <- <-] & _ & H & ?).
      by rewrite (page_unique _ _ _ _ Hok H) in Hl.
    + intros e [= <-]. by left.
    + intros nbs. split.
      * intros [= <-]. exists anchor, tail. by split_and!.
      * intros (? & ? & [= <- <-] & _ & H & ?). by rewrite (page_unique _ _ _ _ Hok H).
    + done.
  - destruct Hr as (l1 & x & l2 & -> & Hx & _). eexists. split; [done|]. split.
    + intros nbs. split; [done|]. intros (? & ? & [= <- <-] & _ & H & _). exfalso.
      apply Forall2_app_inv_l in H as (k1 & k2 & _ & H & _). inversion H as [|? nb ? ? Hnb]; subst.
      apply (validated_as_Ok self MalformedGetBlocks) in Hnb. congruence.
    + intros e' [= <-]. destruct (validated_as_Err _ _ _ _ Hx) as [->|(f & Hf & ->)]; [by left|].
      right. exists x, f. split_and!; try done. set_solver.
Qed.

(** A virtual-chain response is accepted exactly when a removed chain
    comes with an added path, the removed chain starts at the requested
    source and the added path does not end there; the change keeps both
    vectors as they are, and each refusal names the first violated rule. *)
Theorem virtual_chain_guard self low resp :
  let removed := vcr_removed_chain_block_hashes resp in
  let added := vcr_added_chain_block_hashes resp in
  match virtual_chain self low resp with
  | Ok ch => ch = MkVspcChange removed added ∧ (added = [] → removed = []) ∧
      (∀ h, head removed = Some h → h = low) ∧ last added ≠ Some low
  | Err e => ∃ reason, e = Malformed (MalformedVspcResponse reason) ∧
      match reason with
      | RemovedChainWithoutAddedPath => removed ≠ [] ∧ added = []
      | RemovedSourceMismatch => added ≠ [] ∧ ∃ h, head removed = Some h ∧ h ≠ low
      | NonAdvancingAddedCursor => (∀ h, head removed = Some h → h = low) ∧ last added = Some low
      | _ => False
      end
  end.
Proof.
  unfold virtual_chain. cbv zeta.
  destruct (vcr_removed_chain_block_hashes resp) as [|r removed], (vcr_added_chain_block_hashes resp) as [|x added];
    simpl; repeat (case_bool_decide || case_decide); try (eexists; split; [done|]); naive_solver.
Qed.
End normalization_theorems.

(** * Concrete instances *)

#[local] Existing Instance NHash.

Definition demo_point (h : N) : @VspcPoint NHash := @MkVspcPoint NHash (@MkConsensusOrder NHash h h) (MkCompactId 1).
Definition demo_persisted (h parent : N) : @PersistedBlock NHash := @MkPersistedBlock NHash (demo_point h) parent.
Definition demo_anchor : @MaterializedSyncAnchor NHash := @MkMaterializedSyncAnchor NHash (demo_point 1) 0 1.

(** A database in which every hash is materialized and every change commits,
    and a node that knows no block. *)
Definition demo_db : @VspcDatabase NHash :=
  @MkVspcDatabase NHash (λ hashes, Ok ((λ _, MkCompactId 1) <$> hashes))
    (λ change, Ok (@MkVspcCommitOutcome NHash (rc_destination change) [])).
#[local] Instance demo_db_laws : VspcDatabaseLaws demo_db.
Proof.
  split; simpl; [intros hashes ids [= <-]; apply length_fmap|by intros change outcome [= <-]].
Qed.
Definition demo_rpc : @VspcRpc NHash := @MkVspcRpc NHash (λ h, Err (@BlockNotFound NHash h)).

Definition demo_command (c : @VspcProcessorCommand NHash) (w : @Worker NHash) : @Worker NHash :=
  match handle_command c w with Some (w', false) => w' | _ => w end.
Definition demo_poll (w : @Worker NHash) : @Worker NHash :=
  match poll demo_db demo_rpc false w with Some (w', _) => w' | None => w end.
Definition demo_send (ns ss : list (@VspcChange NHash)) (ps : list (@PersistedBlock NHash))
    (w : @Worker NHash) : @Worker NHash :=
  w_set_queues (w_notifications w ++ ns) (w_synthetic w ++ ss) (w_persisted w ++ ps) w.

Lemma demo_command_reachable c w :
  worker_reachable demo_anchor w → worker_reachable demo_anchor (demo_command c w).
Proof.
  intros Hw. unfold demo_command. destruct (handle_command c w) as [[w' []]|] eqn:E; try done.
  eapply worker_stepped; [done|]. by eapply step_command.
Qed.
Lemma demo_poll_reachable w :
  worker_reachable demo_anchor w → worker_reachable demo_anchor (demo_poll w).
Proof.
  intros Hw. unfold demo_poll. destruct (poll demo_db demo_rpc false w) as [[w' b]|] eqn:E; [|done].
  eapply worker_stepped; [done|]. eapply step_poll; [apply demo_db_laws|done].
Qed.
Lemma demo_send_reachable ns ss ps w :
  worker_reachable demo_anchor w → worker_reachable demo_anchor (demo_send ns ss ps w).
Proof. intros Hw. eapply worker_stepped; [done|]. apply step_send. Qed.
Create HintDb demo.
#[local] Hint Resolve demo_command_reachable demo_poll_reachable demo_send_reachable : demo.

Definition demo_worker : @Worker NHash := (initialize demo_anchor (Worker_new Resync)).1.
Lemma demo_worker_reachable : worker_reachable demo_anchor demo_worker.
Proof. by apply (worker_initialized _ Resync). Qed.
#[local] Hint Resolve demo_worker_reachable : demo.

(** Block 2 is persisted and a synthetic change 1 -> 2 commits. *)
Definition demo_committed : @Worker NHash :=
  demo_poll (demo_poll (demo_poll
    (demo_send [] [@MkVspcChange NHash [] [2]] [demo_persisted 2 1] demo_worker))).
Lemma demo_committed_reachable : worker_reachable demo_anchor demo_committed.
Proof. unfold demo_committed. auto with demo. Qed.

(** In Live, blocks 2 and 4 are persisted and the added-only path 2, 3, 4 is
    announced while block 3 is not materialized. *)
Definition demo_gap : @Worker NHash :=
  demo_poll (demo_poll (demo_poll
    (demo_send [@MkVspcChange NHash [] [2; 3; 4]] [] [demo_persisted 2 1; demo_persisted 4 3]
      (demo_command Command_Live (demo_command (Command_Catchup (demo_point 1)) demo_worker))))).
Lemma demo_gap_reachable : worker_reachable demo_anchor demo_gap.
Proof. unfold demo_gap. auto 10 with demo. Qed.

Definition run_state (w : @Worker NHash) : @VspcState NHash :=
  match w_run w with Active st => st | Inert _ => VspcState_new demo_anchor end.

Lemma run_state_active w :
  match w_run w with Active _ => true | Inert _ => false end = true → w_run w = Active (run_state w).
Proof. unfold run_state. by destruct (w_run w). Qed.
Lemma demo_gap_active : w_run demo_gap = Active (run_state demo_gap).
Proof. apply run_state_active. by vm_compute. Qed.

Lemma vspc_published_chain_witness :
  length (w_offers demo_committed) = 1%nat ∧
  ∃ st, w_run demo_committed = Active st ∧
    offers_chain (1 : @BlockHash NHash) (w_offers demo_committed) (vp_hash (committed_sink st)).
Proof.
  split; [by vm_compute|].
  destruct (vspc_published_chain demo_anchor demo_committed demo_committed_reachable) as (st & H1 & H2 & _).
  by exists st.
Defined.


Lemma vspc_never_panics_witness :
  is_Some (poll demo_db demo_rpc false demo_gap) ∧ is_Some (handle_command Command_Live demo_gap).
Proof.
  destruct (vspc_never_panics demo_anchor demo_gap demo_gap_reachable) as [Hc Hp].
  split; [|apply Hc]. apply (Hp (run_state demo_gap)); [apply demo_gap_active|by vm_compute|apply demo_db_laws].
Defined.

Lemma vspc_refresh_incremental_witness :
  ∃ st', state_persisted (demo_persisted 3 2) (run_state demo_gap) = Some st' ∧
    pending st' = refreshed st' <$> pending (run_state demo_gap).
Proof.
  destruct (vspc_refresh_incremental demo_anchor demo_gap (run_state demo_gap) (demo_persisted 3 2)
    demo_gap_reachable demo_gap_active) as (st' & H1 & _ & H2 & _).
  by exists st'.
Defined.

Lemma vspc_action_choice_witness :
  next_action (run_state demo_gap) = Some (Some (Commit 0)) ∧ action_ok (run_state demo_gap) (Commit 0).
Proof.
  assert (next_action (run_state demo_gap) = Some (Some (Commit 0))) as E by (by vm_compute).
  destruct (vspc_action_choice demo_anchor demo_gap (run_state demo_gap) demo_gap_reachable demo_gap_active)
    as (r & Er & Hr). split; [done|]. rewrite E in Er. by injection Er as <-.
Defined.

Lemma vspc_drive_terminates_witness :
  ∃ w' b, drive_once demo_db demo_rpc false demo_gap = Some (w', b).
Proof.
  destruct (vspc_drive_terminates demo_anchor demo_gap (run_state demo_gap) demo_gap_reachable demo_gap_active)
    as [_ H].
  destruct (H demo_db demo_rpc false demo_db_laws) as (w' & b & E & _). by exists w', b.
Defined.

Lemma vspc_member_gap_fatal_witness :
  ∃ w', drive_once demo_db demo_rpc false demo_gap = Some (w', true) ∧ w_faulted w' = true.
Proof.
  destruct (pending (run_state demo_gap) !! 0) as [c|] eqn:E; [|by vm_compute in E].
  assert (cand_change c = @MkVspcChange NHash [] [2; 3; 4]) as Hc.
  { enough (cand_change <$> pending (run_state demo_gap) !! 0 = Some (@MkVspcChange NHash [] [2; 3; 4])) as H
      by (rewrite E in H; by injection H). by vm_compute. }
  destruct (vspc_member_gap_fatal demo_anchor demo_gap (run_state demo_gap) demo_db demo_rpc false 0 c
    (3 : @BlockHash NHash) demo_gap_reachable demo_gap_active) as (w' & H1 & H2 & _);
    [by vm_compute|apply demo_db_laws|by vm_compute|done|by rewrite Hc| |by vm_compute|by exists w'].
  rewrite Hc. right. left.
Defined.
