(* ===== verification/RuntimeTheorems.v ===== *)
(** Properties of the publication runtime, for every interleaving of its worker
    with the producers of its ingress and the readers of its publication. *)

From Stdlib Require Import String.
From S2P Require Import Prelude Model Delta GraphView ViewInvariant HeadView Subview History.
From S2P Require Import Lineage Ladder Ingress IngressSafety Cache CacheMachine Clients ClientsSafety.
From S2P Require Import ClientsWorld Publication Election PublicationSteps Runtime RuntimeSafety RuntimeWorld RuntimeProgress.
From S2P Require Import PublicationExamples RuntimeExamples.

#[local] Open Scope N_scope.

Section RuntimeTheorems.
Context {KH : KaspaHash} {Chan W : Type} `{MpscLaws GraphUpdate Chan} `{WatchLaws N W}.
Context (base64_encode : list N → string).
Implicit Types (w : @RuntimeWorld KH Chan W).

(** C12: the active publication follows the stream without a hole.  In the
    Active phase the publication's view and history are the lineage of some
    seed over the updates past the seed's cut among exactly those received
    since the gap generation was last acknowledged, both cuts crossed, its
    state is the session's target, and nothing is left staged; and as long as
    no later loss has been announced, what was received since, and what is
    still outstanding, is everything the ingress took since. *)
Theorem runtime_follows_stream w :
  runtime_reachable base64_encode w → rt_phase (rw_runtime w) = Active → in_loop (rt_control (rw_runtime w)) →
  let i := rt_ingress (rw_runtime w) in
  ∃ seed c0 p since before fates later queued,
    rt_work (rw_runtime w) = WorkActive p ∧ rt_staging (rw_runtime w) = [] ∧ from_seed seed = Some c0 ∧
    committed_run (cc_view c0) (cc_history c0) (projected seed (originals since))
      (pc_view (gp_core p)) (pc_history (gp_core p)) ∧
    block_cut seed (originals since) = true ∧ vspc_cut seed (originals since) = true ∧
    pc_state (gp_core p) = target_publication_state (rt_shared (rw_runtime w)) ∧
    in_received i = before ++ since ∧ in_fates i = fates ++ later ∧ accepted fates = before ++ queued ∧
    rt_construction_gap_generation (rw_runtime w) = count (lost fates) ∧
    (generation (in_gap i) = rt_construction_gap_generation (rw_runtime w) →
     since ++ outstanding i = queued ++ carried later).
Proof.
  intros Hr Hp Hl i. pose proof (runtime_reachable_sound _ _ Hr) as [HR _ _]. pose proof HR as [HI Hidle Hw HM].
  destruct Hw as [?|?|?|seed p us _ _ Ew Eq (c & Ha & Hal & Ev & Eh) (Hst & Hobs & Hne) Hpc Hm|Hd|Hd|Hd]; try congruence.
  2: destruct Hl, Hd; congruence.
  destruct (aligned_projected _ _ _ Ha) as (c0 & E0 & Hrun & _). rewrite (is_aligned_cuts _ _ _ Ha) in Hal.
  apply andb_true_iff in Hal as [Hb Hv]. destruct Hst as (before & fates & later & queued & S1 & S2 & S3 & S4).
  exists seed, c0, p, us, before, fates, later, queued. rewrite Ev, Eh. split_and!; try done.
  unfold generation. rewrite watch_borrow_law. pose proof (gp_announced _ (ig_gap _ HI)) as Hann. unfold announced in Hann.
  subst i. rewrite Hann, S4, S2, lost_app, count_app. intros Hz.
  assert (lost later = []) as Hlater by (unfold count in *; destruct (lost later); [done|simpl in *; lia]).
  pose proof (or_stream _ (ig_order _ HI)) as Hs. destruct (proj1 (receiver_idle_spec _) Hidle) as [Hd _].
  rewrite Hd, S2, accepted_app, S3, S1, <-!(assoc_L (++)) in Hs. apply app_inv_head in Hs. rewrite <-Hs.
  f_equal. symmetry. by apply carried_without_loss.
Qed.

(** C13: the runtime refines the publication machine.  Whatever the session's
    history, the publication the runtime holds, with the requests it handed
    out, the other registries and the connections, is a reachable world of
    the publication machine with no mutation in progress; the candidate it
    aligns is a run of committed updates from a Head view. *)
Theorem runtime_refines_publication w :
  runtime_reachable base64_encode w →
  (∀ p, rt_work (rw_runtime w) = WorkActive p →
     gp_mutation p = None ∧ publication_reachable base64_encode (rw_world w p)) ∧
  (∀ c, rt_work (rw_runtime w) = WorkAligning c → ∃ tr, candidate_run tr (cc_view c) (cc_history c)).
Proof. intros Hr. destruct (runtime_reachable_sound _ _ Hr) as [_ Hc Hp]. split; [exact Hp|exact Hc]. Qed.

(** The worker never fails.  A worker that is done has returned without
    an error, with its work dropped and its phase Stopped: the ingress never
    delivers the markers out of order.  The staging occupancy is the length of
    the queue, and its high-water mark within the capacity. *)
Theorem runtime_never_fails w res :
  runtime_reachable base64_encode w →
  (rt_control (rw_runtime w) = Done res →
     res = Ok tt ∧ rt_phase (rw_runtime w) = Stopped ∧ rt_work (rw_runtime w) = WorkNone) ∧
  staging_occupancy (sn_metrics (rt_shared (rw_runtime w))) = N.of_nat (length (rt_staging (rw_runtime w))) ∧
  staging_occupancy (sn_metrics (rt_shared (rw_runtime w)))
    ≤ staging_high_water_mark (sn_metrics (rt_shared (rw_runtime w))) ≤ API_STAGING_UPDATE_CAPACITY.
Proof.
  intros Hr. pose proof (runtime_reachable_sound _ _ Hr) as [[_ _ Hw [M1 M2 M3]] _ _]. split; [|done].
  intros Hd. destruct Hw as [? [?|?]|us ? [[?|?]|?]|? ? ? us ? [?|?]|? ? us ? [?|?]|[?|?]|?|?]; try congruence.
  split_and!; [congruence|done..].
Qed.

(** C14: no panic.  With room in the revision, byte and restart counters, every
    step of the worker of a reachable world succeeds, given what Storage and
    the clock guarantee of the updates that meet the view. *)
Theorem runtime_never_panics w ev :
  runtime_reachable base64_encode w → worker_event ev = true →
  admissible ev (rw_runtime w) → fits ev (rw_runtime w) → is_Some (runtime_step ev (rw_runtime w)).
Proof. intros Hr. apply (worker_total base64_encode). by apply runtime_reachable_sound. Qed.

(** When the runtime starts over.  An observation leads the worker to
    reconstruct exactly when construction has begun and a continuity gap is
    pending, or the staging buffer is full and the observation is one more
    update for it; an update never makes an active publication start over. *)
Theorem runtime_restarts w am :
  runtime_reachable base64_encode w →
  rt_control (rw_runtime w) = AtSelect ∨ rt_control (rw_runtime w) = AtSeed →
  admissible (RtObserve am) (rw_runtime w) → fits (RtObserve am) (rw_runtime w) →
  ∃ r', observe am (rw_runtime w) = Some r' ∧
    (rt_control r' = Draining ↔
     rt_phase (rw_runtime w) ≠ AwaitingCatchupPhase ∧
     (gap_pending (rw_runtime w) ∨
      rt_phase (rw_runtime w) ≠ Active ∧ staging_full (rw_runtime w) ∧ is_Some (observed_update (rw_runtime w)))).
Proof. intros Hr. apply (observe_outcome base64_encode). by apply runtime_reachable_sound. Qed.

(** C15: A restart comes to its end.  The drain takes one round per value
    outstanding and one more, and leaves the worker ready to acknowledge, or
    quiescent when the session is over; acknowledging starts construction
    with every announced loss observed and nothing staged. *)
Theorem runtime_restart_terminates w :
  runtime_reachable base64_encode w → rt_control (rw_runtime w) = Draining →
  let r := rw_runtime w in
  ∃ r', fold_m (λ r ev, runtime_step ev r) r (replicate (S (length (outstanding (rt_ingress r)))) RtDrain) = Some r' ∧
    (rt_control r' = Quiescing ∨
     rt_control r' = Drained ∧
     ∃ r'', runtime_step RtAcknowledge r' = Some r'' ∧ rt_phase r'' = Constructing ∧ rt_control r'' = AtTop ∧
       rt_staging r'' = [] ∧ rt_work r'' = WorkNone ∧ ¬ gap_pending r'' ∧
       rt_construction_gap_generation r'' = generation (in_gap (rt_ingress r''))).
Proof.
  intros Hr Hc r. pose proof (runtime_reachable_sound _ _ Hr) as [HR _ _].
  destruct (drain_terminates r HR Hc) as (r' & E & HR' & Hc'). exists r'. split; [exact E|].
  destruct Hc' as [Hc'|Hc']; [right|by left]. split; [done|]. exists (restart_acknowledge r').
  assert (runtime_step RtAcknowledge r' = Some (restart_acknowledge r')) as -> by (unfold runtime_step; by rewrite Hc').
  destruct HR' as [HI Hidle Hw HM].
  destruct Hw as [? [?|?]|us ? [[?|?]|?]|? ? ? us ? [?|?]|? ? us ? [?|?]|Hd Ew Eq Hne|?|?]; try congruence.
  destruct (acknowledged r') as (_ & (Hs & Hg & _) & G4 & G5 & G6 & G7); [done|done|].
  split_and!; try done; unfold restart_acknowledge; simpl; [by rewrite G6|by rewrite G5|..].
  - unfold gap_pending, restart_acknowledge, generation. simpl. rewrite watch_borrow_law, Hg.
    unfold acknowledge_gap_generation. pose proof (acknowledge_current_spec (in_gap (rt_ingress r'))) as Ha.
    destruct (acknowledge_current _) as [g n]. destruct Ha as ((Hv & _) & _ & ->). simpl. rewrite Hv. tauto.
  - unfold generation. rewrite watch_borrow_law. unfold acknowledge_gap_generation.
    pose proof (acknowledge_current_spec (in_gap (rt_ingress r'))) as Ha.
    destruct (acknowledge_current _) as [g n]. destruct Ha as ((Hv & _) & _ & ->). simpl. by rewrite Hv.
Qed.
End RuntimeTheorems.

Section AlignmentTheorems.
Context {KH : KaspaHash}.

(** C16: alignment is projection.  Running the staged updates through the
    candidate one by one, skipping those before the cut, is running the
    lineage of the updates past the cut, the candidate's flags telling whether
    either cut was met; and when the blocks are committed in the order of
    their identifiers, the blocks run are exactly those above the snapshot. *)
Theorem alignment_projects (seed : GraphViewSeed) (us : list OriginalUpdate) (c : ConstructionCandidate) :
  (aligned seed us c ↔
   ∃ c0, from_seed seed = Some c0 ∧
     committed_run (cc_view c0) (cc_history c0) (projected seed us) (cc_view c) (cc_history c) ∧
     c = candidate_of seed (cc_view c) (cc_history c) (block_cut seed us) (vspc_cut seed us)) ∧
  (StronglySorted Z.lt (block_ids us) →
   block_ids (projected seed us) =
     filter (λ id, compact_id (snapshot_max_materialized_id seed) < id)%Z (block_ids us)).
Proof.
  split; [|apply projected_ascending]. split; [apply aligned_projected|].
  intros (c0 & E0 & Hrun & ->). generalize (cc_view c), (cc_history c), Hrun. clear Hrun c. intros v h Hrun.
  revert v h Hrun. induction us as [|u us IH] using rev_ind; intros v h Hrun.
  { apply committed_run_nil in Hrun as [-> ->]. constructor. rewrite E0. f_equal. by apply from_seed_candidate. }
  rewrite projected_snoc in Hrun. destruct (past_cut seed (us ++ [u]) u) eqn:Ep.
  - apply committed_run_snoc in Hrun as (v1 & h1 & now_ms & x & Hrun & E).
    eapply aligned_next; [by apply IH|]. apply apply_alignment_update_Ok. rewrite Ep. by exists v, h, x.
  - rewrite app_nil_r in Hrun. eapply (aligned_next _ _ _ _ 0); [by apply IH|]. apply apply_alignment_update_Ok. by rewrite Ep.
Qed.
End AlignmentTheorems.

(** * Witnesses *)

#[local] Existing Instance NHash.

Lemma runtime_follows_stream_witness :
  ∃ p, rt_work (rw_runtime demo_active) = WorkActive p ∧ rt_staging (rw_runtime demo_active) = [].
Proof.
  destruct (runtime_follows_stream bytes_text demo_active (demo_active_reachable bytes_text))
    as (seed & c0 & p & since & before & fates & later & queued & Ew & Eq & _); [by vm_compute|right; by vm_compute|].
  exists p. exact (conj Ew Eq).
Defined.

Lemma runtime_refines_publication_witness :
  match rt_work (rw_runtime demo_active) with WorkActive p => gp_mutation p = None | _ => False end.
Proof.
  destruct (runtime_refines_publication bytes_text demo_active (demo_active_reachable bytes_text)) as [Hp _].
  assert (match rt_work (rw_runtime demo_active) with WorkActive _ => true | _ => false end = true) as Ha by by vm_compute.
  revert Ha Hp. generalize (rt_work (rw_runtime demo_active)). intros [| |p] Ha Hp; [discriminate Ha..|].
  exact (proj1 (Hp p eq_refl)).
Defined.

Lemma runtime_never_fails_witness :
  staging_high_water_mark (sn_metrics (rt_shared (rw_runtime demo_aligning))) ≤ API_STAGING_UPDATE_CAPACITY.
Proof.
  apply (runtime_never_fails bytes_text demo_aligning (Ok tt) (demo_aligning_reachable bytes_text)).
Defined.

(** The counters have room for the top of the loop and for an observation. *)
Definition update_fitsb (u : @OriginalUpdate NHash) (now_ms : N) (v : @GraphView NHash) (h : @GraphHistory NHash) : bool :=
  bool_decide (current_revision_id v < U64_MAX) &&
  match OriginalUpdate_apply u now_ms v with
  | Some (_, Ok (Some d)) =>
    match estimate_raw_delta_bytes d with
    | Some est => bool_decide (gh_current_cumulative_estimated_bytes h + est ≤ U64_MAX)
    | None => false
    end
  | _ => true
  end.
Lemma update_fitsb_spec u now_ms v h : update_fitsb u now_ms v h = true → update_fits u now_ms v h.
Proof.
  unfold update_fitsb, update_fits. rewrite andb_true_iff, bool_decide_eq_true. intros [Hm Hr]. split; [done|].
  intros v' d E. rewrite E in Hr. destruct (estimate_raw_delta_bytes d) as [est|]; [|done]. exists est. split; [done|].
  by apply bool_decide_eq_true in Hr.
Qed.
Definition observation_fitsb (am : Ambient) (r : DemoRuntime) : bool :=
  bool_decide (staging_overflow_count (sn_metrics (rt_shared r)) < U64_MAX) &&
  bool_decide (reconstruction_count (sn_metrics (rt_shared r)) < U64_MAX) &&
  match rt_work r, observed_update r with
  | WorkActive p, Some u => update_fitsb u (am_now_ms am) (pc_view (gp_core p)) (pc_history (gp_core p))
  | _, _ => true
  end.
Lemma observation_fitsb_spec am r : observation_fitsb am r = true → fits (RtObserve am) r.
Proof.
  unfold observation_fitsb, fits. rewrite !andb_true_iff, !bool_decide_eq_true. intros [[H1 H2] H3].
  split_and!; [done..|]. intros p u Ew Eu. rewrite Ew, Eu in H3. by apply update_fitsb_spec.
Qed.

Lemma runtime_never_panics_witness : is_Some (runtime_step (RtObserve (quiet 9)) (rw_runtime demo_active)).
Proof.
  apply (runtime_never_panics bytes_text demo_active (RtObserve (quiet 9)) (demo_active_reachable bytes_text)).
  - reflexivity.
  - apply admissibleb_spec. by vm_compute.
  - apply observation_fitsb_spec. by vm_compute.
Defined.

Lemma runtime_restarts_witness :
  ∃ r', observe (quiet 9) (rw_runtime demo_active) = Some r' ∧ rt_phase (rw_runtime demo_active) = Active.
Proof.
  destruct (runtime_restarts bytes_text demo_active (quiet 9) (demo_active_reachable bytes_text)) as (r' & E & _).
  - left. by vm_compute.
  - apply admissibleb_spec. by vm_compute.
  - apply observation_fitsb_spec. by vm_compute.
  - exists r'. split; [exact E|by vm_compute].
Defined.

(** The seed query fails, with an update outstanding. *)
Definition failed_moves : list DemoMove :=
  [MvProducer EvCatchup; top; MvWorker (RtObserve (quiet 0)); top; MvWorker (RtCurrent true);
   MvProducer (EvOfferBlock demo_commit); MvProducer EvOfferContinue; MvWorker (RtSeed (Err QueryFailed))].
Definition demo_draining : DemoRuntimeWorld := default demo_start (demo_moves demo_start failed_moves).
Lemma demo_draining_reachable base64_encode : runtime_reachable base64_encode demo_draining.
Proof. apply default_start_reachable. intros w E. eapply demo_moves_reachable; [constructor|exact E]. Qed.

Lemma runtime_restart_terminates_witness :
  ∃ r', fold_m (λ r ev, runtime_step ev r) (rw_runtime demo_draining) (replicate 2 RtDrain) = Some r'.
Proof.
  destruct (runtime_restart_terminates bytes_text demo_draining (demo_draining_reachable bytes_text)) as (r' & E & _);
    [by vm_compute|]. exists r'.
  assert (length (outstanding (rt_ingress (rw_runtime demo_draining))) = 1%nat) as Hl by by vm_compute.
  rewrite Hl in E. exact E.
Defined.

Lemma alignment_projects_witness :
  block_ids (projected demo_seed [OriginalBlock demo_commit; OriginalVspc demo_vspc]) = [3%Z].
Proof.
  destruct (from_seed_ok demo_seed demo_seed_ok) as (c & _).
  rewrite (proj2 (alignment_projects demo_seed [OriginalBlock demo_commit; OriginalVspc demo_vspc] c));
    [reflexivity|repeat constructor].
Defined.
