(* ===== verification/BlockTheorems.v ===== *)
(** Properties of the orphan topology, and of the block processor with its
    orphan manager and dependency resolver, for every interleaving of a session. *)

From S2P Require Import Prelude Model Orphan Faults Channel Ingress Resolver OrphanWorker.
From S2P Require Import BlockWorker OrphanWorkerSafety BlockSafety BlockSession BlockStages BlockExamples.

Section orphan_properties.
Section orphan_theorems.
Context {KH : KaspaHash}.
Implicit Types (t : OrphanTopology).

(** Topologies reachable from the empty one by the three operations the
    manager performs. *)
Inductive topology_reachable : OrphanTopology → Prop :=
  | topology_start : topology_reachable OrphanTopology_default
  | topology_add t block missing :
      topology_reachable t → topology_reachable (add_orphan block missing t).1
  | topology_persist t h :
      topology_reachable t → topology_reachable (block_persisted h t).1
  | topology_candidates t t' hs :
      topology_reachable t → take_resolution_candidates t = Some (t', hs) → topology_reachable t'.

Lemma topology_reachable_inv t : topology_reachable t → topology_inv t.
Proof.
  induction 1 as [|t block missing _ IH|t h _ IH|t t' hs _ IH E].
  - apply topology_inv_default.
  - by apply add_orphan_inv.
  - by apply block_persisted_inv.
  - destruct (resolution_active t) eqn:Ea.
    + destruct (take_resolution_candidates_spec t IH Ea) as (t'' & hs' & E' & Hi & _). congruence.
    + unfold take_resolution_candidates in E. rewrite Ea in E. by injection E as <- <-.
Qed.

(** The reverse index.  In every reachable topology an orphan is listed
    under a reference exactly while it misses it, every orphan misses
    something, at most 1024 are stored, a pending resolution is for a missing
    reference that is not itself stored, and resolution is on whenever 256
    orphans are stored. *)
Theorem topology_sound t :
  topology_reachable t →
  (∀ d h, h ∈ mm_get (dependents t) d ↔ ∃ e, orphans t !! h = Some e ∧ d ∈ oe_missing e) ∧
  (∀ h e, orphans t !! h = Some e → vnb_hash (oe_block e) = h ∧ oe_missing e ≠ ∅) ∧
  (size (orphans t) ≤ MAX_ORPHAN_BLOCKS)%nat ∧
  (∀ h, h ∈ resolution_pending t → is_Some (dependents t !! h) ∧ orphans t !! h = None) ∧
  ((ORPHAN_RESOLUTION_THRESHOLD ≤ size (orphans t))%nat → resolution_active t = true).
Proof.
  intros Hr. destruct (topology_reachable_inv t Hr) as [Hk _ Hi Hp Hc _ Hn]. split_and!; try done.
  intros Hge. destruct (resolution_active t) eqn:E; [done|]. destruct (Hn eq_refl). lia.
Qed.

(** Persistence.  When a block is persisted, exactly the orphans that
    missed only it become ready; every other orphan stays, no longer missing
    it; the block itself is no longer stored. *)
Theorem persisted_releases h t :
  topology_reachable t →
  let '(t', mu) := block_persisted h t in
  (∀ b, b ∈ tm_ready mu ↔
     ∃ o e, o ≠ h ∧ orphans t !! o = Some e ∧ oe_missing e = {[h]} ∧ oe_block e = b) ∧
  orphans t' !! h = None ∧
  (∀ o e, o ≠ h → orphans t !! o = Some e → oe_missing e ≠ {[h]} →
     orphans t' !! o = Some (without_dependency h e)) ∧
  (∀ o e, orphans t !! o = Some e → oe_missing e = {[h]} → orphans t' !! o = None).
Proof.
  intros Hr%topology_reachable_inv. pose proof (block_persisted_fields h t Hr) as Hf.
  destruct (block_persisted h t) as [t' mu]. destruct Hf as (Ho & Hb & _).
  split_and!; [done| | |].
  - rewrite Ho. destruct (orphans t !! h); [|done]. simpl. unfold persisted_entry. by rewrite decide_True.
  - intros o e Hoh He Hm. rewrite Ho, He. simpl. unfold persisted_entry, kept_entry.
    rewrite (decide_False (P := o = h)) by done. destruct (decide (h ∈ oe_missing e)) as [Hin|Hin].
    + rewrite decide_False; [done|]. intros Hz. apply Hm. by apply difference_singleton_empty.
    + f_equal. destruct e as [b m]. unfold without_dependency. simpl in *. f_equal. set_solver.
  - intros o e He Hm. rewrite Ho, He. simpl. unfold persisted_entry, kept_entry.
    destruct (decide (o = h)); [done|]. rewrite decide_True by (rewrite Hm; set_solver).
    rewrite decide_True; [done|]. rewrite Hm. set_solver.
Qed.

(** Impact.  The traversal of any reachable topology terminates within
    its fuel and counts exactly the orphans that wait for the dependency,
    directly or transitively, cycles included. *)
Theorem impact_counts_waiters d t :
  topology_reachable t →
  ∃ V : gset BlockHash, transitive_impact d t = Some (size V) ∧
    ∀ x, x ∈ V ↔ tc (λ a c, ∃ e, orphans t !! c = Some e ∧ a ∈ oe_missing e) d x.
Proof.
  intros Hr%topology_reachable_inv. destruct (transitive_impact_spec d t Hr) as (V & HV & Hx).
  exists V. split; [done|]. intros x. rewrite Hx. split; apply tc_congruence with (f := λ y, y);
    intros a c; apply (ti_index _ Hr).
Qed.

(** Candidates.  While resolution is active every missing reference that
    is neither stored nor pending is requested, once, by decreasing impact
    and then increasing hash, and becomes pending; asking again at once
    requests nothing. *)
Theorem candidates_ranked t :
  topology_reachable t → resolution_active t = true →
  ∃ t' hs, take_resolution_candidates t = Some (t', hs) ∧ NoDup hs ∧
    (∀ h, h ∈ hs ↔ is_Some (dependents t !! h) ∧ orphans t !! h = None ∧ h ∉ resolution_pending t) ∧
    Sorted candidate_le ((λ h, (h, impact_of t h)) <$> hs) ∧
    (∃ t'', take_resolution_candidates t' = Some (t'', [])).
Proof.
  intros Hr%topology_reachable_inv Ha.
  destruct (take_resolution_candidates_spec t Hr Ha)
    as (t' & hs & E & Hi & Hn & Hm & Hs & Hp & Ho & Hd).
  exists t', hs. split_and!; try done.
  assert (resolution_active t' = true) as Ha'.
  { destruct (resolution_active t') eqn:E'; [done|]. destruct (ti_inactive _ Hi E') as [_ Hz].
    unfold take_resolution_candidates in E. rewrite Ha in E.
    destruct (mapM _ _); [|done]. simpl in E. injection E as <- _. simpl in E'. congruence. }
  destruct (take_resolution_candidates_spec t' Hi Ha') as (t'' & hs' & E' & _ & _ & Hm' & _).
  exists t''. rewrite E'. do 2 f_equal. destruct hs' as [|x hs']; [done|]. exfalso.
  destruct (Hm' x) as [Hx _]. destruct Hx as (H1 & H2 & H3); [left|].
  rewrite Hd in H1. rewrite Ho in H2. apply H3. rewrite Hp. apply elem_of_union.
  destruct (decide (x ∈ resolution_pending t)); [by left|right].
  apply elem_of_list_to_set, Hm. by split_and!.
Qed.
End orphan_theorems.

(** * Concrete instances *)

#[local] Existing Instance NHash.

Definition demo_node_block (h : N) : @ValidatedNodeBlock NHash :=
  @MkValidatedNodeBlock NHash h 0 [0] [] [] 0 0 0 0.

(** Block 5 misses 7, block 6 misses 5. *)
Definition demo_topology : @OrphanTopology NHash :=
  (add_orphan (demo_node_block 6) [5] (add_orphan (demo_node_block 5) [7] OrphanTopology_default).1).1.
Lemma demo_topology_reachable : topology_reachable demo_topology.
Proof. apply topology_add, topology_add, topology_start. Qed.

Lemma topology_sound_witness :
  (∀ d h, h ∈ mm_get (dependents demo_topology) d ↔
     ∃ e, orphans demo_topology !! h = Some e ∧ d ∈ oe_missing e) ∧
  (size (orphans demo_topology) ≤ MAX_ORPHAN_BLOCKS)%nat.
Proof.
  destruct (topology_sound demo_topology demo_topology_reachable) as (H1 & _ & H2 & _). by split.
Defined.

Lemma persisted_releases_witness :
  demo_node_block 5 ∈ tm_ready (block_persisted (7 : @BlockHash NHash) demo_topology).2.
Proof.
  pose proof (persisted_releases (7 : @BlockHash NHash) demo_topology demo_topology_reachable) as H.
  destruct (block_persisted _ demo_topology) as [t' mu]. destruct H as [H _]. apply H.
  exists (5 : @BlockHash NHash), (@MkOrphanEntry NHash (demo_node_block 5) {[7]}). split; [done|].
  split; by vm_compute.
Defined.

Lemma impact_counts_waiters_witness :
  ∃ V : gset (@BlockHash NHash), transitive_impact (7 : @BlockHash NHash) demo_topology = Some (size V) ∧
    ∀ x, x ∈ V ↔ tc (λ a c, ∃ e, orphans demo_topology !! c = Some e ∧ a ∈ oe_missing e)
      (7 : @BlockHash NHash) x.
Proof. apply (impact_counts_waiters (7 : @BlockHash NHash) demo_topology demo_topology_reachable). Defined.

(** Enough orphans to turn resolution on: [n] blocks missing block 0. *)
Fixpoint demo_full (n : nat) : @OrphanTopology NHash :=
  match n with
  | O => OrphanTopology_default
  | S n => (add_orphan (demo_node_block (N.of_nat (S n))) [0] (demo_full n)).1
  end.
Lemma demo_full_reachable n : topology_reachable (demo_full n).
Proof. induction n; simpl; by constructor. Qed.

Lemma candidates_ranked_witness :
  ∃ t' hs, take_resolution_candidates (demo_full 256) = Some (t', hs) ∧ NoDup hs ∧
    (∀ h, h ∈ hs ↔ is_Some (dependents (demo_full 256) !! h) ∧ orphans (demo_full 256) !! h = None ∧
       h ∉ resolution_pending (demo_full 256)) ∧
    Sorted candidate_le ((λ h, (h, impact_of (demo_full 256) h)) <$> hs) ∧
    (∃ t'', take_resolution_candidates t' = Some (t'', [])).
Proof.
  apply (candidates_ranked (demo_full 256) (demo_full_reachable 256)). by vm_compute.
Defined.
End orphan_properties.

#[local] Open Scope N_scope.

Section BlockTheorems.
Context {KH : KaspaHash}.
Implicit Types (w : BlockSession) (mode : RecoveryMode).

(** C25: no orphan is stranded.  While the processor is in service and its
    manager active, every block it handed over as an orphan is materialized, or
    on its way to the manager, or stored there, or released and on its way
    back, or being processed again; a stored orphan that still misses a
    materialized block will be told of it by a message already in the mailbox,
    so with the mailbox empty it misses only blocks that are not materialized,
    and at least one. *)
Theorem no_orphan_stranded mode w o :
  session_reachable mode w → in_service (bs_worker w) → bp_orphan (bs_worker w) = Some o → om_state o = OmActive →
  let Q := bq_items (om_messages o) in
  (∀ h, h ∈ bs_orphaned w →
     placed (bs_materialized w) Q (om_topology o) (bq_items (pt_resolution (bp_ports (bs_worker w)))) (processing (bs_worker w)) h) ∧
  (∀ h e d, orphans (om_topology o) !! h = Some e → d ∈ oe_missing e → d ∈ bs_materialized w → BlockPersisted d ∈ Q) ∧
  (Q = [] → ∀ h e, orphans (om_topology o) !! h = Some e → oe_missing e ≠ ∅ ∧ ∀ d, d ∈ oe_missing e → d ∉ bs_materialized w).
Proof.
  intros Hr Hs Eo Ha Q. destruct (session_reachable_flow mode w Hr o Hs Eo Ha) as [[_ F2 _] Hp]. split_and!; [done|done|].
  intros EQ h e He. pose proof (session_block_inv _ _ Hr) as Hi. split.
  - destruct Hi as [Hh|[Hst|(_ & E & _)]]; [|by apply (ti_key _ (oc_topology _ (om_core _ (bb_orphan _ _ (bs_base _ _ Hst) _ Eo))) h e)|congruence].
    by destruct Hs as (_ & _ & H); rewrite (hd_control _ _ Hh) in H.
  - intros d Hd HM. pose proof (F2 h e d He Hd HM) as Hin. unfold Q in EQ. rewrite EQ in Hin. by apply elem_of_nil in Hin.
Qed.

(** C26: the seal.  The milestone is sent at most once; never by a Resync and
    never below the seal, and exactly once by a Rebuild past it whose event
    path is open.  Absent references may become boundary identities exactly
    for blocks below the seal's score, and the block that reaches it seals. *)
Theorem boundary_sealed_once mode w :
  session_reachable mode w →
  let p := bs_worker w in
  (seals p ≤ 1)%nat ∧ (mode = Resync ∨ unsealed p = true → seals p = 0%nat) ∧
  (in_service p ∨ bp_faulted p = true → bp_events_open p = true → mode = Rebuild → unsealed p = false → seals p = 1%nat) ∧
  (∀ block source sealing policy, bp_control p = BpMaterializing block source sealing policy →
     ∃ stage sources emit, bp_run p = Active stage sources emit ∧
       (policy = AllowBoundaryIdentities ↔ ∃ s, stage = Synchronizing (PreSeal s) ∧ vnb_blue_score block < s) ∧
       (sealing = true ↔ ∃ s, stage = Synchronizing (PreSeal s) ∧ s ≤ vnb_blue_score block)).
Proof.
  intros Hr p. pose proof (session_block_inv mode w Hr) as Hi. fold p in Hi. clearbody p. destruct Hi as [Hh|[Hst|(E1 & E2 & E3 & E4)]].
  - assert (seals p = 0%nat) as H0 by (unfold seals; by rewrite (hd_events _ _ Hh)). rewrite H0. split_and!; [lia|done| |].
    + intros [(_ & _ & H)|H]; [by rewrite (hd_control _ _ Hh) in H|by rewrite (hd_faulted _ _ Hh) in H].
    + intros ? ? ? ? H. by rewrite (hd_control _ _ Hh) in H.
  - destruct (bs_base _ _ Hst) as [B1 B2 B3 B4 B5 B6 B7 B8]. split_and!; [done|done|by intros _; apply B5|].
    intros block source sealing policy Ec. pose proof (bs_control _ _ Hst) as Hco. unfold control_ok in Hco. rewrite Ec in Hco.
    destruct Hco as [_ Hplan]. destruct (bp_run p) as [|stage sources emit]; [done|]. exists stage, sources, emit.
    split; [done|]. unfold plan in Hplan. destruct stage as [[s|]|bound|]; try case_decide; injection Hplan as <- <-;
      (split; split; [try done; try (intros _; exists s; split; [done|lia])|intros (s' & [= <-] & ?); lia || done|
                      try done; try (intros _; exists s; split; [done|lia])|intros (s' & [= <-] & ?); lia || done]).
  - assert (seals p = 0%nat) as H0 by (unfold seals; by rewrite E4). rewrite H0. split_and!; [lia|done| |].
    + intros [(_ & _ & H)|H]; [by rewrite E1 in H|congruence].
    + intros ? ? ? ? H. congruence.
Qed.

(** C27: one fault.  A session reports at most one fault, and only of a worker
    that is then faulted; a faulted worker queries and writes nothing, and
    whatever happens next, it reports nothing more and delivers nothing more. *)
Theorem single_fault mode w :
  session_reachable mode w →
  let p := bs_worker w in
  (faults p ≤ 1)%nat ∧ (faults p ≠ 0%nat → bp_faulted p = true) ∧
  (bp_faulted p = true →
     (∀ block source, bp_control p ≠ BpPresence block source) ∧
     (∀ block source sealing policy, bp_control p ≠ BpMaterializing block source sealing policy) ∧
     ∀ ev p', block_step ev p = Some p' →
       bp_faulted p' = true ∧ bp_events p' = bp_events p ∧
       ∀ x, x ∈ bq_items (bp_persisted p') → x ∈ bq_items (bp_persisted p)).
Proof.
  intros Hr p. pose proof (session_block_inv mode w Hr) as Hi. fold p in Hi. clearbody p.
  assert (bp_faulted p = true → ∀ ev p', block_step ev p = Some p' → bp_faulted p' = true ∧ bp_events p' = bp_events p ∧
            ∀ x, x ∈ bq_items (bp_persisted p') → x ∈ bq_items (bp_persisted p)) as Hsil.
  { intros Hf ev p' E. destruct (block_step_silent mode ev p p' Hi Hf E) as (E1 & E2 & E3). split_and!; [congruence|done|done]. }
  destruct Hi as [Hh|[Hst|(E1 & E2 & E3 & E4)]].
  - assert (faults p = 0%nat) as H0 by (unfold faults; by rewrite (hd_events _ _ Hh)). rewrite H0. split_and!; [lia|done|].
    intros Hf. by rewrite (hd_faulted _ _ Hh) in Hf.
  - destruct (bs_base _ _ Hst) as [B1 B2 B3 B4 B5 B6 B7 B8]. split_and!; [done|done|]. intros Hf. pose proof (bs_control _ _ Hst) as Hco.
    unfold control_ok in Hco. split_and!; [..|by apply Hsil].
    + intros block source Ec. rewrite Ec in Hco. destruct Hco. congruence.
    + intros block source sealing policy Ec. rewrite Ec in Hco. destruct Hco as [[? _] _]. congruence.
  - assert (faults p = 0%nat) as H0 by (unfold faults; by rewrite E4). rewrite H0. split_and!; [lia|done|congruence].
Qed.

(** Stages and overlap.  A step that leaves the worker in service starts
    it or advances its stage by at most one, never back; and from Catchup on
    the overlap flag is set exactly when some hash was admitted both as a
    notification and as a synthetic block. *)
Theorem stages_advance mode w :
  session_reachable mode w → in_service (bs_worker w) →
  match bp_run (bs_worker w) with
  | Active (Catchup _ | Live) sources _ =>
    bp_overlap (bs_worker w) = true ↔
    ∃ h, bits_contains (default 0 (sources !! h)) Notification = true ∧ bits_contains (default 0 (sources !! h)) Synthetic = true
  | _ => True
  end ∧
  ∀ ev p', block_step ev (bs_worker w) = Some p' → in_service p' →
    (run_rank (bs_worker w) ≤ run_rank p' ≤ S (run_rank (bs_worker w)))%nat.
Proof.
  intros Hr Hs. split.
  - pose proof (session_overlap mode w Hr Hs) as Ho. unfold overlap_ok in Ho. destruct (bp_run (bs_worker w)) as [|[| |] ? ?]; try done;
      destruct Ho as [_ Ho]; exact Ho.
  - intros ev p' E Hin. destruct (block_step_move mode ev _ _ (session_block_inv _ _ Hr) E Hin) as [[Hc _]|[_ Hm]].
    + destruct Hs as (_ & _ & H). by rewrite Hc in H.
    + by apply stage_move_rank.
Qed.

(** C28: no panic.  A step of a reachable session panics only when the counter
    of threshold crossings is at the end of its 64 bits. *)
Theorem block_never_panics mode w ev :
  session_reachable mode w →
  (∀ o, bp_orphan (bs_worker w) = Some o → omm_threshold_crossings (om_metrics o) < U64_MAX) →
  is_Some (block_step ev (bs_worker w)).
Proof.
  intros Hr Hc. pose proof (block_step_inv mode ev _ (session_block_inv _ _ Hr)) as H.
  destruct (block_step ev (bs_worker w)) as [p|]; [by eexists|]. destruct H as (o & Eo & Hge). specialize (Hc o Eo). lia.
Qed.

(** The barrier ends.  Once the processor waits for its children to stop,
    two turns of the manager around one of the resolver and one more end the
    wait, whatever their state: after a fault the worker goes on to discard its
    input, after a Shutdown or a lost command path it returns without error. *)
Theorem barrier_ends mode w after :
  session_reachable mode w → bp_control (bs_worker w) = BpBarrier after →
  ∃ p', run_events barrier_schedule (bs_worker w) = Some p' ∧ bp_orphan p' = None ∧
    bp_control p' = match after with AfterFault => BpTop | _ => BpReturned (Ok tt) end.
Proof.
  intros Hr Hc. destruct (session_block_inv mode w Hr) as [Hh|[Hst|(E & _)]]; [by rewrite (hd_control _ _ Hh) in Hc| |congruence].
  by eapply barrier_completes.
Qed.

(** C29: the children's accounts.  In every reachable session the resolver's two
    maps are inverse and track exactly the tasks it spawned and has not joined,
    at most eight requests are in flight, and its active count is exact; the
    orphan manager's occupancy and pending counts are exact while it is active,
    and at most 1024 orphans are stored. *)
Theorem children_accounts mode w o :
  session_reachable mode w → bp_orphan (bs_worker w) = Some o →
  (∀ r, om_resolver o = Some r →
     (∀ h id, dr_tasks_by_hash r !! h = Some id ↔ dr_hashes_by_task r !! id = Some h) ∧
     (∀ id, is_Some (dr_tasks r !! id) ↔ is_Some (dr_hashes_by_task r !! id)) ∧
     (active_tasks r ≤ MAX_DEPENDENCY_RPC_CONCURRENCY)%nat ∧ dr_active r = N.of_nat (active_tasks r)) ∧
  (om_state o = OmActive →
     omm_current_occupancy (om_metrics o) = size (orphans (om_topology o)) ∧
     omm_resolution_pending (om_metrics o) = size (resolution_pending (om_topology o))) ∧
  (omm_current_occupancy (om_metrics o) ≤ omm_high_water_mark (om_metrics o) ≤ MAX_ORPHAN_BLOCKS)%nat.
Proof.
  intros Hr Eo. assert (orphan_inv o) as [Hc [Hm1 Hm2]].
  { destruct (session_block_inv mode w Hr) as [Hh|[Hst|(_ & E & _)]]; [|by apply (bb_orphan _ _ (bs_base _ _ Hst))|congruence].
    assert (o = OrphanManager_new) as -> by (pose proof (hd_orphan _ _ Hh); congruence). apply OrphanManager_new_inv. }
  split_and!; [|done|apply Hm1..]. intros r Er. destruct (oc_resolver _ Hc r Er). by split_and!.
Qed.

(** A faulted worker spins.  Once it has reported a fault and its children
    are gone, with empty mailboxes and no command, every turn of its loop
    completes at once, on the closed resolution mailbox, and changes nothing. *)
Theorem faulted_worker_spins mode w :
  session_reachable mode w → let p := bs_worker w in
  bp_control p = BpTop → faults p ≠ 0%nat → bp_commands p = [] → bp_commands_open p = true →
  bq_items (bp_notifications p) = [] → bq_items (bp_synthetic p) = [] → bq_items (pt_resolution (bp_ports p)) = [] →
  block_turn p = (p, true).
Proof.
  intros Hr p Hc Hz. pose proof (session_block_inv mode w Hr) as Hi. fold p in Hi. clearbody p.
  destruct Hi as [Hh|[Hst|(E & _)]]; [by rewrite (hd_control _ _ Hh) in Hc| |congruence].
  intros. eapply faulted_turn_spins; try done. by apply (bb_faulted _ _ (bs_base _ _ Hst)).
Qed.
End BlockTheorems.

#[local] Existing Instance NHash.

(** A resolution cancelled and asked for again is a fault.  With every
    answer as storage gives it and no mailbox full, a session reaches a state
    in which the resolver has reported a duplicate request, made after it
    cancelled the first and before it joined its task; the manager and the
    processor turn it into a fatal fault. *)
Theorem duplicate_resolution_fault :
  ∃ w : DemoSession, session_reachable Resync w ∧
    (∃ o, bp_orphan (bs_worker w) = Some o ∧
       MkChildFault DependencyResolver (InvalidProtocol DuplicateResolution) ∈ om_resolver_faults o) ∧
    ∃ p, run_events [manager; EvTurn] (bs_worker w) = Some p ∧
      BpFault (MkComponentFault DependencyResolver Fatal (Ownership InvalidLifecycleControl)) ∈ bp_events p.
Proof.
  exists demo_race. split; [exact (demo_run_reachable Resync _)|].
  split; [exact (duplicate_reported_spec demo_race (eq_refl true <: duplicate_reported demo_race = true))|].
  exact (fatal_after_spec [manager; EvTurn] demo_race (eq_refl true <: fatal_after [manager; EvTurn] demo_race = true)).
Qed.

(** * Witnesses *)

Lemma no_orphan_stranded_witness :
  ∃ o e, bp_orphan (bs_worker demo_orphan) = Some o ∧ orphans (om_topology o) !! 5 = Some e ∧
    oe_missing e ≠ ∅ ∧ ∀ d, d ∈ oe_missing e → d ∉ bs_materialized demo_orphan.
Proof.
  destruct (serving_orphan_spec demo_orphan 5 (eq_refl true <: serving_orphan demo_orphan 5 = true)) as (o & e & Hs & Eo & Ha & EQ & He).
  exists o, e. split; [exact Eo|]. split; [exact He|].
  destruct (no_orphan_stranded Resync demo_orphan o (demo_run_reachable Resync _) Hs Eo Ha) as (_ & _ & H). exact (H EQ 5 e He).
Defined.

Lemma boundary_sealed_once_witness : seals (bs_worker demo_sealed) = 1%nat.
Proof.
  destruct (boundary_sealed_once Rebuild demo_sealed (demo_run_reachable Rebuild _)) as (_ & _ & H & _). apply H.
  - left. exact (in_serviceb_spec _ (eq_refl true <: in_serviceb (bs_worker demo_sealed) = true)).
  - exact (eq_refl true <: bp_events_open (bs_worker demo_sealed) = true).
  - reflexivity.
  - exact (eq_refl false <: unsealed (bs_worker demo_sealed) = false).
Defined.

Lemma single_fault_witness : faults (bs_worker demo_faulting) = 1%nat ∧ bp_faulted (bs_worker demo_faulting) = true.
Proof.
  assert (faults (bs_worker demo_faulting) = 1%nat) as E by exact (eq_refl 1%nat <: faults (bs_worker demo_faulting) = 1%nat).
  split; [exact E|]. destruct (single_fault Resync demo_faulting (demo_run_reachable Resync _)) as (_ & H & _). apply H.
  rewrite E. discriminate.
Defined.

Lemma stages_advance_witness :
  in_service (bs_worker demo_overlap) ∧
  ∀ ev p', block_step ev (bs_worker demo_overlap) = Some p' → in_service p' →
    (run_rank (bs_worker demo_overlap) ≤ run_rank p' ≤ S (run_rank (bs_worker demo_overlap)))%nat.
Proof.
  pose proof (in_serviceb_spec _ (eq_refl true <: in_serviceb (bs_worker demo_overlap) = true)) as Hs. split; [exact Hs|].
  exact (proj2 (stages_advance Resync demo_overlap (demo_run_reachable Resync _) Hs)).
Defined.

Lemma block_never_panics_witness : is_Some (block_step EvTurn (bs_worker demo_orphan)).
Proof.
  apply (block_never_panics Resync demo_orphan EvTurn (demo_run_reachable Resync _)).
  exact (few_crossings_spec demo_orphan (eq_refl true <: few_crossings demo_orphan = true)).
Defined.

Lemma barrier_ends_witness :
  ∃ p', run_events barrier_schedule (bs_worker demo_faulting) = Some p' ∧ bp_orphan p' = None ∧ bp_control p' = BpTop.
Proof.
  apply (barrier_ends Resync demo_faulting AfterFault (demo_run_reachable Resync _)).
  exact (fault_barrier_spec _ (eq_refl true <: fault_barrier (bs_worker demo_faulting) = true)).
Defined.

Lemma children_accounts_witness :
  ∃ o, bp_orphan (bs_worker demo_orphan) = Some o ∧ om_state o = OmActive ∧
    omm_current_occupancy (om_metrics o) = size (orphans (om_topology o)).
Proof.
  destruct (serving_orphan_spec demo_orphan 5 (eq_refl true <: serving_orphan demo_orphan 5 = true)) as (o & e & Hs & Eo & Ha & EQ & He).
  exists o. split; [exact Eo|]. split; [exact Ha|].
  destruct (children_accounts Resync demo_orphan o (demo_run_reachable Resync _) Eo) as (_ & H & _). exact (proj1 (H Ha)).
Defined.

Lemma faulted_worker_spins_witness :
  bp_control (bs_worker demo_spinning) = BpTop ∧ block_turn (bs_worker demo_spinning) = (bs_worker demo_spinning, true).
Proof.
  destruct (spinningb_spec _ (eq_refl true <: spinningb (bs_worker demo_spinning) = true)) as (H1 & H2 & H3 & H4 & H5 & H6 & H7).
  split; [exact H1|]. exact (faulted_worker_spins Resync demo_spinning (demo_run_reachable Resync _) H1 H2 H3 H4 H5 H6 H7).
Defined.
