(* ===== verification/StoreTheorems.v ===== *)
(** What the processing store promises, through every sequence of operations,
    database fault and lost connection. *)

From stdpp Require Import strings.
From S2P Require Import Prelude Model Faults Delta GraphView HeadView Lineage Runtime.
From S2P Require Import Sql Store Resolver Materialization VspcStore StoreClient StoreInvariant StoreInsert.
From S2P Require Import StoreMaterialize StoreVspc StoreWorld StoreChain StoreReach StoreExamples Channel Ingress.
From S2P Require Import Orphan OrphanWorker BlockWorker BlockSession BlockExamples Projection ProjectionSpec ProjectionTheorems.
From S2P Require Import ViewTracking.

#[local] Open Scope Z_scope.

Section store_theorems.
Context {KH : KaspaHash}.
Implicit Types (t : Tables) (c : Caches) (h : BlockHash) (change : ReadyVspcChange) (k : ValidatedDbClient).

(** * The invariant *)


(** * Materialization *)

(** C18: Materializing an acceptable block on a reachable valid client, under
    any faults, answers what the tables decide ([AlreadyMaterialized], a
    boundary identity, the missing and identity-only references under
    [RequireMaterialized]) without changing them, or inserts the block with
    its row, level, parents and payload; a database error leaves the tables as
    they were, unless the commit was lost in doubt, and then, as for any lost
    connection, the generation is retired; only a full level panics.  A block
    that is admitted is inserted when the first attempt meets no fault and no
    bound is reached. *)
Theorem materialize_block_outcomes genesis k fates block policy p :
  store_reachable genesis k → cl_valid k = true → acceptable genesis block → PreparedBlock_new block = Some p → fates_allowed fates →
  let '(k', r) := materialize_block (Ok ()) fates block policy k in
  let t := cl_tables k in
  let unchanged := rolled_from t (cl_tables k') ∧ cl_valid k' = true in
  match r with
  | None => level_full t ∧ unchanged
  | Some (Ok (Inserted committed)) =>
    admission t block policy = None ∧ inserted genesis block t (cl_tables k') committed ∧ cl_valid k' = true
  | Some (Ok outcome) => admission t block policy = Some (Ok outcome) ∧ unchanged
  | Some (Err (IncomingBoundaryIdentity h)) =>
    admission t block policy = Some (Err (Semantic_IncomingBoundaryIdentity h)) ∧ unchanged
  | Some (Err (NonMaterializedReferences missing identity_only)) =>
    admission t block policy = Some (Err (Semantic_NonMaterializedReferences missing identity_only)) ∧ unchanged
  | Some (Err (Materialize_Database e)) =>
    (e = Db_ScoreOutOfRange DaaScore ∧ (MAX_DAA_SCORE < vnb_daa_score block)%N ∧ k' = k) ∨
    mutation_error t k'
      (admission t block policy = None ∧ ∃ committed, inserted genesis block t (cl_tables k') committed) e
  end ∧
  ((vnb_daa_score block ≤ MAX_DAA_SCORE)%N → ¬ level_full t → ¬ sequence_short (S (length (block_references block))) t →
   admission t block policy = None → faultless (fates O) → ∃ committed, r = Some (Ok (Inserted committed))).
Proof.
  intros [Hk Hg]%reachable_inv Hv Ha Hp Hf. rewrite <- Hg in Ha |- *.
  pose proof (materialize_block_spec k fates block policy p Hk Hv Ha Hp Hf) as H.
  pose proof (admitted_block_inserts k fates block policy p Hk Hv Ha Hp) as Hins.
  destruct (materialize_block _ _ _ _ _) as [k' r]. destruct H as (_ & _ & H). cbv zeta. split; [done|exact Hins].
Qed.

(** * Reads *)

(** C21: The caches are transparent: a reachable valid client answers a
    presence or a resolution exactly as it would with no cache at all, and the
    answer is the one the tables determine. *)
Theorem reads_ignore_caches genesis k h hashes :
  store_reachable genesis k → cl_valid k = true →
  let uncached := set_caches ProcessingCacheDomains_new k in
  (block_presence (Ok ()) None h k).2 = (block_presence (Ok ()) None h uncached).2 ∧
  (block_presence (Ok ()) None h k).2 = Some (Ok (presence_at (cl_tables k) h)) ∧
  (resolve_materialized_ids (Ok ()) None hashes k).2 = (resolve_materialized_ids (Ok ()) None hashes uncached).2 ∧
  (resolve_materialized_ids (Ok ()) None hashes k).2 = Some (resolution_answer (resolution_at (cl_tables k) hashes)).
Proof.
  intros [Hk _]%reachable_inv Hv uncached.
  assert (client_inv uncached) as Hu.
  { destruct Hk as [H1 H2 H3]. split; [done|done|]. intros _. split; [apply caches_ok_new|by intros s]. }
  rewrite (block_presence_faultless k h Hk Hv), (block_presence_faultless uncached h Hu Hv).
  rewrite (resolve_faultless k hashes Hk Hv), (resolve_faultless uncached hashes Hu Hv). done.
Qed.

(** * The virtual chain *)


(** * Rebuild *)

(** * Projections *)


End store_theorems.

(** * The block processor's session *)

Section tracking.
Context {KH : KaspaHash}.
Implicit Types (t : Tables) (h : BlockHash) (k : ValidatedDbClient) (w : BlockSession).

Definition materialized_at t h : Prop := ∃ s, identity_of t h = Some s ∧ is_Some (si_block s).

(** The ghost set of a session is what its client's tables hold. *)
Definition tracks w k : Prop := ∀ h, h ∈ bs_materialized w ↔ materialized_at (cl_tables k) h.

Lemma materialized_at_spec genesis t h : store_inv genesis t →
  materialized_at t h ↔ ∃ id, tb_identifiers t !! id = Some h ∧ is_Some (tb_blocks t !! id).
Proof.
  intros Hi. split.
  - intros (s & (id & Hid & ->)%(identity_of_Some genesis) & Hb); [|done]. exists id. split; [done|]. by apply fmap_is_Some in Hb.
  - intros (id & Hid & Hb). eexists. split; [apply (identity_of_Some genesis); [done|by exists id]|]. simpl. by rewrite fmap_is_Some.
Qed.



Lemma rolled_materialized t t' h : rolled_from t t' → materialized_at t' h ↔ materialized_at t h.
Proof. by intros (s & _ & ->). Qed.

Lemma inserted_materialized genesis block t t' committed h : store_inv genesis t → inserted genesis block t t' committed →
  materialized_at t' h ↔ h = vnb_hash block ∨ materialized_at t h.
Proof.
  intros Hi Hn. rewrite (materialized_at_spec genesis t' h (is_inv _ _ _ _ _ Hn)), (materialized_at_spec genesis t h Hi).
  pose proof (is_own _ _ _ _ _ Hn) as Hown. rewrite (is_blocks _ _ _ _ _ Hn). split.
  - intros (id & Hid & [b Hb]). apply lookup_insert_Some in Hb as [[<- _]|[Hne Hb]]; [left; congruence|right].
    exists id. split; [|by eexists]. destruct (st_blocks _ _ Hi _ _ Hb) as [[h' Hid'] _].
    pose proof (is_ids _ _ _ _ _ Hn _ _ Hid'). congruence.
  - intros [->|(id & Hid & Hb)]; [by exists (compact_id (bc_id committed)); rewrite lookup_insert_eq|].
    exists id. split; [by apply (is_ids _ _ _ _ _ Hn)|]. apply lookup_insert_is_Some'. by right.
Qed.

Lemma admission_admissible t block policy missing identity_only :
  admission t block policy = Some (Err (Semantic_NonMaterializedReferences missing identity_only)) →
  (missing ≠ [] ∨ identity_only ≠ []) ∧ ∀ d, d ∈ missing → ¬ materialized_at t d.
Proof.
  unfold admission. destruct (identity_of _ _) as [s|]; [by destruct (si_coordinate s)|]. case_decide as Hd; [|done].
  intros [= <- <-]. split; [apply Hd|]. intros d [Hn _]%list_elem_of_filter (s & Hs & _). congruence.
Qed.

Lemma presence_materialized t h : (∃ i c, presence_at t h = Materialized i c) ↔ materialized_at t h.
Proof.
  unfold presence_at, materialized_at. destruct (identity_of t h) as [[i [m|]]|]; simpl; split; try naive_solver.
  all: intros (s & [= <-] & [? ?]); naive_solver.
Qed.

(** C23: Storage gives the block processor the answers its safety rests on:
    when the set of hashes a session counts as materialized is what the
    client's tables hold, a presence answer and the answer of a
    materialization are admissible for the session, and after the answer the
    session's set is again what the tables hold (a commit lost in doubt aside). *)
Theorem session_tracks_store genesis k w block :
  store_reachable genesis k → cl_valid k = true → tracks w k →
  (∀ fate k' answer source, bp_control (bs_worker w) = BpPresence block source →
     block_presence (Ok ()) fate (vnb_hash block) k = (k', Some answer) →
     admissible (EvPresence answer) w ∧ ∀ p, tracks (advance (EvPresence answer) w p) k') ∧
  (∀ fates k' a source sealing policy p, bp_control (bs_worker w) = BpMaterializing block source sealing policy →
     acceptable genesis block → fates_allowed fates →
     materialize_block (Ok ()) fates block policy k = (k', Some (ma_outcome a)) →
     admissible (EvMaterialize a) w ∧
     (ma_outcome a ≠ Err (Materialize_Database (Db_Persistence AmbiguousCommit)) → tracks (advance (EvMaterialize a) w p) k')).
Proof.
  intros [Hk Hg]%reachable_inv Hv Ht. split.
  - intros fate k' answer source Hc E. pose proof (block_presence_client k fate (vnb_hash block) Hk Hv) as H. rewrite E in H.
    destruct H as (_ & _ & H). unfold admissible, advance. rewrite Hc. destruct answer as [presence|e].
    + destruct H as (-> & Et & _). split; [|intros p h; simpl; rewrite Et; apply Ht].
      pose proof (presence_materialized (cl_tables k) (vnb_hash block)) as Hp.
      assert (vnb_hash block ∈ bs_materialized w ↔ materialized_at (cl_tables k) (vnb_hash block)) as Hth by apply Ht.
      rewrite <- Hth in Hp. destruct (presence_at _ _) as [| |i c]; rewrite <- Hp; [naive_solver..|by exists i, c].
    + split; [done|]. destruct H as [Et _]. intros p h. simpl. rewrite Et. apply Ht.
  - intros fates k' a source sealing policy p Hc Ha Hf E. rewrite <- Hg in Ha.
    destruct (PreparedBlock_new block) as [pb|] eqn:Hp.
    2: { unfold materialize_block, run_operation, materialize_operation in E. by rewrite Hv, Hp in E. }
    pose proof (materialize_block_spec k fates block policy pb Hk Hv Ha Hp Hf) as H. rewrite E in H. destruct H as (_ & _ & H).
    assert (∀ w', bs_materialized w' = bs_materialized w → rolled_from (cl_tables k) (cl_tables k') → tracks w' k') as Hsame.
    { intros w' Ew Hr h. rewrite Ew, (Ht h). symmetry. by apply rolled_materialized. }
    unfold admissible, advance. rewrite Hc. destruct (ma_outcome a) as [[committed|i co]|[e|h|missing identity_only]].
    + destruct H as (_ & Hn & _). split; [done|]. intros _ h. simpl. rewrite elem_of_union, elem_of_singleton, (Ht h).
      apply (inserted_materialized _ _ _ _ _ h (ci_store _ Hk)) in Hn. tauto.
    + destruct H as (Had & Hr & _). split; [|intros _; by apply Hsame]. apply Ht. unfold admission in Had. unfold materialized_at.
      destruct (identity_of _ _) as [s|]; [|by case_decide]. exists s. split; [done|]. unfold si_coordinate in Had.
      destruct (si_block s); [by eexists|done].
    + split; [done|]. intros Hamb. apply Hsame; [done|].
      destruct H as [(-> & _ & ->)|[(? & ? & ?)|[(? & ? & ?)|(-> & _)]]]; [|done|done|done]. apply (rolled_from_refl (cl_genesis_hash k)), Hk.
    + destruct H as (_ & Hr & _). split; [done|]. intros _. by apply Hsame.
    + destruct H as (Had & Hr & _). destruct (admission_admissible _ _ _ _ _ Had) as [Hne Hnm]. split.
      * split; [done|]. intros d Hd. rewrite (Ht d). by apply Hnm.
      * intros _. destruct identity_only; [|by apply Hsame]. destruct (bp_faulted p); by apply Hsame.
Qed.
End tracking.

(** * An unchecked path *)

#[local] Existing Instance NHash.

(** C24: A change that removes nothing is checked at its first added block
    alone: over 100, 101, 102 and 103, where 103's selected parent is 101, the
    change that adds 102 and 103 commits, and leaves virtual chain blocks that
    are no path of selected parents. *)
Theorem vspc_added_only_unchecked :
  let k := life grown in
  let '(k', r) := apply_vspc_change (Ok ()) calm skipping k in
  store_reachable (KH := NHash) 1%N k ∧ ready_change (cl_tables k) skipping ∧
  rc_removed skipping = [] ∧ rc_added skipping = [MkCompactId 5; MkCompactId 6] ∧
  parent_at (cl_tables k) (MkCompactId 6) = Some (MkCompactId 4) ∧
  (∃ outcome, r = Some (Ok outcome)) ∧ ¬ ∃ path, chain (cl_tables k') path.
Proof.
  cbv zeta. pose proof (eq_refl true <: skipping_commits = true) as H. unfold skipping_commits in H.
  destruct (apply_vspc_change (Ok ()) calm skipping (life grown)) as [k' [[outcome|e]|]]; [|done..].
  apply andb_true_iff in H as [[H1 H2]%andb_true_iff H3]. apply bool_decide_eq_true in H3.
  split; [apply life_reachable; exact (eq_refl true <: life_ok grown = true)|].
  split; [by apply readyb_spec|]. split; [done|]. split; [done|]. split; [done|]. split; [by eexists|].
  by apply (stranded_no_chain _ 6).
Qed.

(** * Witnesses *)


Lemma materialize_block_outcomes_witness :
  ∃ committed k', materialize_block (Ok ()) one_conflict next_block RequireMaterialized (life raised) = (k', Some (Ok (Inserted committed))) ∧
    admission (cl_tables (life raised)) next_block RequireMaterialized = None ∧
    inserted (KH := NHash) 1%N next_block (cl_tables (life raised)) (cl_tables k') committed.
Proof.
  pose proof (materialize_block_outcomes (KH := NHash) 1%N (life raised) one_conflict next_block RequireMaterialized next_prepared
    (life_reachable raised (eq_refl true <: life_ok raised = true)) (eq_refl true <: cl_valid (life raised) = true)
    (acceptableb_spec 1%N next_block (eq_refl true <: acceptableb 1%N next_block = true)) eq_refl one_conflict_allowed) as H.
  pose proof (eq_refl true <: next_inserted = true) as Hv. unfold next_inserted in Hv.
  destruct (materialize_block _ _ _ _ _) as [k' [[[committed|i co]|e]|]]; try discriminate Hv.
  exists committed, k'. split; [reflexivity|]. split; apply H.
Defined.

Lemma reads_ignore_caches_witness :
  (block_presence (Ok ()) None (103%N : @BlockHash NHash) (life raised)).2 =
    (block_presence (Ok ()) None (103%N : @BlockHash NHash) (set_caches ProcessingCacheDomains_new (life raised))).2 ∧
  (block_presence (Ok ()) None (103%N : @BlockHash NHash) (life raised)).2 = Some (Ok (Materialized (MkCompactId 6) (MkBlockCoordinate 3 0))).
Proof.
  destruct (reads_ignore_caches (KH := NHash) 1%N (life raised) 103%N [103%N; 77%N]
    (life_reachable raised (eq_refl true <: life_ok raised = true)) (eq_refl true <: cl_valid (life raised) = true)) as (H1 & H2 & _).
  split; [exact H1|]. rewrite H2.
  vm_compute. reflexivity.
Defined.






